(* ===== verification/_CoqProject ===== *)
-Q . S2P
Prelude.v
Text.v
Kernel.v
Encoding.v
Storage.v
Binding.v
ShardWire.v
ShardCommand.v
ShardCodec.v
ShardMetadata.v
StateStore.v
ShardMachine.v
ShardRecords.v
ShardHistory.v
ShardInvariant.v
ShardReach.v
ShardExample.v
ShardBatch.v
ShardSafety.v
ShardParticipant.v
TxnError.v
Conflict.v
Snapshot.v
Overlay.v
Timestamp.v
TimestampLog.v
Participant.v
Program.v
Commands.v
Recovery.v
Coordinator.v
Protocol.v
Safety.v
Progress.v
Control.v
Catalog.v
Reconcile.v
ActionLedger.v
Migration.v
Consensus.v
FjallCodec.v
FjallConsensus.v
MetaTimestamps.v
MetaRaft.v
MetaWire.v
Meta.v
Loops.v
Projection.v
Csr.v
Analytics.v
Traversal.v
Components.v
Temporal.v
Journeys.v
Earliest.v
Community.v
Scores.v
Total.v
Effects.v
Reading.v
Jobs.v
JobLedger.v
JobMoves.v
JobSafety.v
JobExample.v
JobCodec.v
JobLife.v
