(* ===== verification/Prelude.v ===== *)
(** * DTGProxy: transactions, shards, control plane and analytics (root file)

    DTGProxy is a distributed middleware for temporal property graphs.  A graph is split into
    shards, each a Raft group over a storage backend.  Gateways translate queries and writes, data
    processes host shards, a Meta process owns the catalog and the global time axis, a controller
    migrates replicas, and analytics jobs run algorithms on snapshots.  This development models and
    verifies the transaction core ([dtg-transaction], [dtg-shard]), the control plane ([dtg-control]
    and the Meta process), the consensus store under it, and the analytics engine ([dtg-analytics]),
    with the parts of [dtg-kernel] and [dtg-storage] they are built on.

    ** The program and its model

    A transaction takes a start time from the timestamp authority and a snapshot token that fences
    every shard it may touch; it stages mutations in an overlay over what it read; [commit]
    validates overlay and participants, checks the shards' changes since the snapshot for write
    conflicts, reserves a commit time, and then either commits on its only shard or runs two-phase
    commit: a prewrite at every participant, a decision record at the home shard (the least
    participant), a finalisation at every participant; at last it resolves the reservation, which
    lets the authority publish the time to later snapshots.  Recovery reads back what shards and
    authority hold and brings the transaction to one outcome.  The Meta process replicates commands
    of the catalog and of the action ledger; the reconciler compares the catalog with what data nodes
    report and queues actions; a migration moves a shard to another backend.  An analytics job is
    submitted to a ledger, claimed by a worker under a lease, run with checkpoints on a compressed
    graph assembled from the parts of a snapshot, and its result is kept until its retention is over.

    Foundations.
    - [Prelude]: results with Rust's [?] as bind, machine-integer ranges, big-endian bytes, stable
      sorting, ordered iteration of [BTreeMap]s (a [gmap] with [entries], [keys], [values]).  [Text]:
      strings as UTF-8 bytes.
    - [Kernel] (crates/kernel/dtg-kernel/src: error.rs, id.rs, time.rs, value.rs, version.rs):
      identifiers, times, valid intervals, property values, digests.
    - [Encoding]: prefix-free byte encodings, the library behind the digest theorems.
    - [Storage], [Binding] (crates/storage/dtg-storage/src: error.rs, mutation.rs, capability.rs,
      binding.rs, the records of read.rs): versions, tombstones, transaction records, mutations and
      their canonical encoding, committed batches, receipts; capability manifests, backend classes, the
      binding builder and identity digests.

    Shards (crates/execution/dtg-shard/src).
    - [ShardWire], [ShardCommand], [ShardCodec] (command.rs, migration.rs): the eight commands of a
      shard's log, their checks and mutations, the encoder and the decoder with their budgets.
    - [StateStore] (dtg-storage/src/read.rs): fences, change reads and pages; the trait
      [ReplicaStateStore] as a class, its contract [ReplicaStateStoreLaws] over [StoreContents], and
      an in-memory store that satisfies it.
    - [ShardMetadata], [ShardMachine] (state_machine.rs): the metadata records a shard keeps and
      their codecs; [ShardStateMachine] with [new], [apply_committed], [apply_committed_batch],
      [apply_raft_noop], [stage_migration_state_store] and every helper.  A call changes the machine
      and the store behind it also when it fails, so each returns both.
    - [ShardRecords], [ShardHistory], [ShardInvariant], [ShardReach]: round trips of the records, what
      the paged scan of changes visits, the invariant [machine_ok], and the runs [reachable] of a
      shard; [ShardExample] is a concrete run.  [ShardBatch], [ShardSafety], [ShardParticipant]: the
      theorems.

    Transactions (crates/execution/dtg-transaction/src).
    - [TxnError], [Conflict], [Snapshot], [Overlay] (lib.rs, conflict.rs, snapshot.rs, overlay.rs):
      errors, conflict detection, snapshot tokens, the read-your-writes overlay and its validation.
    - [Timestamp], [TimestampLog] (timestamp.rs): the authority's state machine [stage_operation] /
      [apply], the command codec, the batches of [apply_batch], replay by [open].  The durable log is
      the class [TimestampCommandLog] (the trait) with [TimestampCommandLogLaws] (its contract).
    - [Participant] (participant.rs): manifests, the five shard requests with their digest, receipts
      and the histories recovery reads.
    - [Program]: the coordinator's asynchronous functions as trees of calls of the two traits
      [TimestampAuthority] (coordinator.rs) and [ShardCommandExecutor] (participant.rs); [run] with
      an environment that answers each call, and the weakest precondition [wp] of a guard on calls.
    - [Commands], [Coordinator] (coordinator.rs): contexts, [validate_participants],
      [stamp_mutations], command ids and decision digests; [begin], [commit], [abort].
    - [Recovery] (recovery.rs): [recover_transaction], [recover] and every helper of the file.
    - [Protocol], [Safety], [Progress]: theorems about the coordinator and its recovery.

    Control plane.
    - [Control], [Catalog], [Reconcile], [ActionLedger], [Migration] (crates/execution/dtg-control/src:
      lib.rs, binding.rs, placement.rs, observation.rs, catalog.rs, reconcile.rs, action.rs,
      migration.rs, and dtg-execution/src/controller.rs): placements and reports, the catalog and its
      replicas, the actions reconciliation derives, the replicated ledger of actions with its codec, and
      online migration.
    - [Consensus] (dtg-storage/src/consensus.rs): the trait [ConsensusStore] as a class with its
      contract.  [FjallCodec], [FjallConsensus] (crates/storage/dtg-storage-fjall/src: codec.rs,
      consensus.rs): the store over a database that may fail.
    - [MetaTimestamps], [MetaRaft], [MetaWire], [Meta] (crates/processes/dtg-meta/src/service.rs,
      dtg-execution/src: meta_raft.rs, meta.rs): the durable timestamp log, the Raft host, commands as
      bytes, opening and replay of a Meta process, proposals and action commands in their two phases.

    Analytics (crates/execution/dtg-analytics/src).
    - [Loops]: the monad of computations with a state that ends with an error, its loops and its rules.
    - [Projection], [Csr] (projection.rs, csr.rs): provenance, parts, columns, [assemble], and what an
      assembled graph is.
    - [Analytics] (catalog.rs): the catalog, requests, results, and the guard that charges memory and
      work.  [Traversal], [Components], [Temporal], [Community], [Scores] (traversal.rs,
      components.rs, temporal.rs, community.rs, centrality.rs, shortest_path.rs): the twenty
      algorithms and [run_builtin].  [Journeys], [Earliest], [Total]: theorems.
    - [Effects]: the monad of operations that change a state also when they fail, and triples.
      [Reading]: decoders of big-endian fields and the rules of their round trips.
    - [Jobs] (job.rs, the manifests of artifact.rs), [JobLedger], [JobCodec] (ledger.rs): specifications
      and their digests, states, leases; every operation of the ledger; snapshots of the ledger as bytes.
      [JobMoves], [JobSafety]: the life of a job as a relation, the refinement of the operations to it,
      and the invariants; [JobExample] has concrete runs; [JobLife] has the theorems.

    A private newtype over an integer is that integer; its constructor is a definition [X_new], and
    a predicate [_wf] states the range it guarantees.  Fields keep their names with a prefix of the
    record.  A panic (an index out of range, an [expect]) is the value [Panic] of [TxnFault],
    [ShardPanic] of [ShardError], [ControlPanic], [ProjectionPanic], [AnalyticsPanic], or the
    constructor [Panicked] of a program, and absence of panics is proved, not assumed.

    ** What the theorems show

    - [Safety], in every environment (shards and authority may fail, repeat, reorder or answer
      arbitrarily, and the coordinator may stop after any call): [commit], [abort] and
      [recover_transaction] terminate without a panic; a participant is finalised only under a
      decision the home shard holds over exactly the intents held; a shard is first written only
      after its changes were checked for conflicts; a reservation is resolved as committed only
      with a durable commit and as aborted only if no commit was acknowledged; outcomes are backed
      by the authority; the recovery lease is held throughout and always released.
    - [Progress]: with cooperating shards a valid transaction commits at its reserved time, and
      recovery completes a decided transaction with the very requests [commit] sends.
    - [ShardSafety], [ShardParticipant], over every run of a shard from an empty store (commands,
      no-ops, batches, staging of migration targets, restarts, a store that may fail at any call): a
      restart rebuilds the machine; an accepted transaction conflicts with nothing that was committed
      after its snapshot, also when it is finalised long after it was prepared; a home shard holds one
      decision per transaction; the durable transaction states refine an abstract participant; a
      prepared transaction can always be finished.  [ShardBatch]: one atomic write of many entries is
      their sequence.  [ShardCodec]: decoding inverts encoding.
    - [TimestampLog]: over any sequence of batches and restarts the authority keeps its invariant,
      acknowledged times survive, commit times are unique, and a snapshot once given is frozen; a
      batch is its operations in sequence; the codec accepts exactly the well-formed encodings; one
      theorem shows that a failed append leaves a duplicate of the same batch acknowledged.
    - [Conflict], [Commands]: conflict detection is exactly the absence of lost updates, pointwise in
      valid time; the first committer wins across stamping; participants are checked exactly.
    - [Overlay]: validation is exactly well-formedness of the merged graph, coverage by a sweep is
      pointwise coverage, reads return the version of the merged graph, nothing panics.
    - [Participant], [Snapshot], [Storage], [Binding]: equal digests mean equal requests, batches and
      bindings unless the hash collides; manifests and tokens carry what they were built from.
    - [Catalog], [Reconcile], [ActionLedger], [Migration]: the catalog keeps its invariant over any
      commands; reconciliation returns exactly the actions called for and never deletes an active or
      pinned generation; a worker's report counts exactly while its claim is current; a migration is
      safe and terminates, though cleanup after a rollback names the namespace in use.
    - [FjallConsensus], [MetaTimestamps]: the store and the timestamp log implement their contracts.
      [Meta]: while calls do not overlap a restart rebuilds the memory of the process; a rejected
      command blocks every later start, and overlapping calls may lose a command from memory.
    - [Csr]: an assembled graph holds exactly its parts.  The algorithms compute what they are named
      after (searches, components, core numbers, temporal reachability, earliest arrival), with the
      budget that is enough.  [Total]: every algorithm returns on every assembled graph, without a
      panic, and what it is charged stays within its budget.
    - [JobLife], over every run of calls on a ledger of jobs, failed calls included: the invariant of
      its records; one worker at a time holds a job and a lease serves one call; a published result
      stays; a job that lost its worker runs again from its last checkpoint; collection deletes exactly
      what may be deleted; a checkpoint that fails on the last addition is recorded all the same.
      [JobCodec]: a stored ledger is read back.

    ** Bounds and fuel

    [advance_loop] (the [while] of [advance_published_frontier]) has the fuel
    [last_issued - published_frontier]: each round advances the frontier by one and the loop stops
    at [last_issued]; [advance_loop_spec] and [advance_loop_fuel] show that more fuel changes
    nothing.  [decoder_value] has the nesting bound of the code as its fuel, [change_pages] and
    [index_pages] its page budget: running out is the code's own error.  The searches of [Traversal],
    [Components] and [Scores] have a round of fuel for each vertex and one or two more, since a vertex
    enters a queue once, and the loops of [Temporal] that follow predecessors have the work left in
    the budget, since every round takes a step; [run_builtin_total] shows that fuel never runs out.  [collect_rounds] has one
    round per manifest of the budget, as the loop of the code has.  Every other loop is structural over
    a list.  Times are [i64] with checked addition; identifiers, lengths and indices have the ranges of
    their Rust types in the [_wf] and [_typed] predicates.  The counters of a job are [u64] that wrap
    around; the theorems on jobs are about fewer than 2^64 - 1 moves, within which no counter does.

    ** What is not modelled

    - [blake3] is third-party: every definition that hashes takes it as a parameter, and theorems
      about digests state the collision explicitly instead of excluding it.  [bincode], [serde_json]
      and the Raft library are parameters with the laws the code relies on; a NaN has no payload.
    - The async runtime, locks and [Arc]s: the authority holds its mutex for a whole batch, so a
      batch is one step; the coordinator keeps no state between calls.
    - For the coordinator, shards and log are interfaces: an environment that answers any way it
      likes.  The shard theorems are about one shard's log, in whatever order Raft commits it.
    - Runs of a shard do not cross a migration cutover ([steady]): [apply_migration_cutover] is
      defined, but what the target store holds is decided by [dtg-control] and the copy of the data.
    - Snapshot installs of the consensus store, the stepping of Raft messages, and the analytics jobs
      the Meta process hosts.
    - The chunks of analytics artifacts, the repository over a store and the scheduler loop of
      [dtg-analytics]: the ledger they call is modelled with all its operations, in any order of calls.
    - The T-Cypher front end ([dtg-language], [dtg-language-ir] but for algorithm names), planning
      ([dtg-plan]) and query operators ([dtg-query]): a compiler pipeline of its own, on which nothing
      above depends.
    - The snapshot adjacency of [dtg-snapshot-csr] and the graph scans of [dtg-storage], which serve
      queries.
    - Storage providers but for the consensus store, transport, configuration and process mains are
      input and output. *)

From stdpp Require Export base gmap strings list numbers sorting pretty.
From Stdlib Require Export ZArith Lia Btauto.
Open Scope Z_scope.

(** ** Results: Rust's [Result<A, E>] with its [?] as the monadic bind *)

Inductive result (E A : Type) : Type :=
| Ok (a : A)
| Err (e : E).
Arguments Ok {E A} a.
Arguments Err {E A} e.

#[export] Instance result_ret E : MRet (result E) := λ A a, Ok a.
#[export] Instance result_bind E : MBind (result E) := λ A B k m,
  match m with Ok a => k a | Err e => Err e end.
#[export] Instance result_fmap E : FMap (result E) := λ A B f m,
  match m with Ok a => Ok (f a) | Err e => Err e end.

#[export] Instance result_eq_dec {E A} `{EqDecision E, EqDecision A} : EqDecision (result E A).
Proof. solve_decision. Defined.

#[export] Instance Ok_inj {E A} : Inj (=) (=) (@Ok E A).
Proof. by injection 1. Qed.

(** [Result::map_err], [Option::ok_or] and the [return Err(..)] guard. *)
Definition map_err {E F A} (f : E → F) (m : result E A) : result F A :=
  match m with Ok a => Ok a | Err e => Err (f e) end.
Definition ok_or {E A} (e : E) (m : option A) : result E A :=
  match m with Some a => Ok a | None => Err e end.
Definition is_ok {E A} (m : result E A) : bool :=
  match m with Ok _ => true | Err _ => false end.
Definition guard_ok {E} (ok : bool) (e : E) : result E unit :=
  if ok then Ok tt else Err e.

(** [for x in l { f(x)?; }]: the loop stops at the first error. *)
Fixpoint try_for_each {E A} (f : A → result E unit) (l : list A) : result E unit :=
  match l with
  | [] => Ok tt
  | x :: l => match f x with Ok _ => try_for_each f l | Err e => Err e end
  end.

(** [iter().map(f).collect::<Result<Vec<_>, _>>()]. *)
Fixpoint try_map {E A B} (f : A → result E B) (l : list A) : result E (list B) :=
  match l with
  | [] => Ok []
  | x :: l =>
      match f x with
      | Ok y => match try_map f l with Ok ys => Ok (y :: ys) | Err e => Err e end
      | Err e => Err e
      end
  end.

(** ** Machine integers *)

Definition in_u32 (z : Z) : Prop := 0 ≤ z < 2 ^ 32.
Definition in_u64 (z : Z) : Prop := 0 ≤ z < 2 ^ 64.
Definition in_u128 (z : Z) : Prop := 0 ≤ z < 2 ^ 128.
Definition in_i64 (z : Z) : Prop := - 2 ^ 63 ≤ z < 2 ^ 63.
Definition i64_max : Z := 2 ^ 63 - 1.
Definition u64_max : Z := 2 ^ 64 - 1.

(** [i64::checked_add]. *)
Definition i64_checked_add (a b : Z) : option Z :=
  let s := a + b in
  if (- 2 ^ 63 <=? s) && (s <? 2 ^ 63) then Some s else None.

(** ** Byte strings *)

Abbreviation bytes := (list Z) (only parsing).

Definition byte_ok (b : Z) : Prop := 0 ≤ b < 256.

(** [to_be_bytes] at a width of [n] bytes (two's complement) and its inverses. *)
Fixpoint be_bytes (n : nat) (z : Z) : bytes :=
  match n with
  | O => []
  | S n => (z / 256 ^ Z.of_nat n) mod 256 :: be_bytes n z
  end.
Fixpoint be_value (bs : bytes) : Z :=
  match bs with
  | [] => 0
  | b :: bs => b * 256 ^ Z.of_nat (length bs) + be_value bs
  end.
Definition i64_of_bits (z : Z) : Z := if z <? 2 ^ 63 then z else z - 2 ^ 64.
Definition i64_of_be_bytes (bs : bytes) : Z := i64_of_bits (be_value bs).

(** A Rust string is its UTF-8 byte sequence; [as_bytes] reads it. *)
Definition as_bytes (s : string) : bytes :=
  (λ a, Z.of_N (Ascii.N_of_ascii a)) <$> String.list_ascii_of_string s.

(** [bytes[a..b]]. *)
Definition slice {A} (a b : nat) (l : list A) : list A := take (b - a) (drop a l).

(** ** Stable sorting ([slice::sort_by_key]) and selection *)

Section sort.
Context {A : Type} (leb : A → A → bool).

Fixpoint sort_insert (x : A) (l : list A) : list A :=
  match l with
  | [] => [x]
  | y :: l => if leb x y then x :: y :: l else y :: sort_insert x l
  end.
Definition sort_by (l : list A) : list A := foldr sort_insert [] l.
End sort.

(** [Iterator::max_by_key]: the last element of maximal key. *)
Definition max_by_key {A} (key : A → Z) (l : list A) : option A :=
  foldl (λ best x,
    match best with
    | None => Some x
    | Some b => if key b <=? key x then Some x else Some b
    end) None l.

(** Every pair [i < j] of a slice, as the source enumerates [versions[index + 1..]]. *)
Fixpoint any_pair {A} (p : A → A → bool) (l : list A) : bool :=
  match l with
  | [] => false
  | x :: l => existsb (p x) l || any_pair p l
  end.

(** ** [BTreeMap]: a finite map iterated in ascending key order *)

Definition key_leb {V} (p q : Z * V) : bool := p.1 <=? q.1.
Definition entries {V} (m : gmap Z V) : list (Z * V) := sort_by key_leb (map_to_list m).
Definition keys {V} (m : gmap Z V) : list Z := (entries m).*1.
Definition values {V} (m : gmap Z V) : list V := (entries m).*2.

(** A map with another key type, in the order [leb]. *)
Definition entries_by `{Countable K} {V} (leb : K → K → bool) (m : gmap K V) : list (K * V) :=
  sort_by (λ p q, leb p.1 q.1) (map_to_list m).
(** The lexicographic order of pairs of integers. *)
Definition pair_leb (p q : Z * Z) : bool := (p.1 <? q.1) || ((p.1 =? q.1) && (p.2 <=? q.2)).

(** ** Automation *)

Create HintDb dtg.
Create HintDb dtg_wf.

(** Case analysis on the innermost scrutinee of the goal or of a hypothesis. *)
Ltac case_step :=
  match goal with
  | |- context [match ?x with _ => _ end] =>
      lazymatch x with context [match _ with _ => _ end] => fail | _ => destruct x eqn:? end
  end.
Ltac case_step_in H :=
  match type of H with
  | context [match ?x with _ => _ end] =>
      lazymatch x with context [match _ with _ => _ end] => fail | _ => destruct x eqn:? end
  end.
(** Run a fallible definition in [H] to all the branches that can reach [H]'s conclusion. *)
Ltac run_in H := repeat (case_step_in H; try discriminate H); simplify_eq.
(** The outermost guard of a fallible definition that [H] says did not stop it. *)
Tactic Notation "guard_in" hyp(H) "as" ident(Hc) :=
  match type of H with (if ?b then _ else _) = _ => destruct b eqn:Hc; try discriminate H end.
(** Boolean tests as propositions. *)
Ltac to_prop :=
  repeat match goal with
  | H : _ && _ = true |- _ => apply andb_true_iff in H as [? ?]
  | H : _ || _ = false |- _ => apply orb_false_iff in H as [? ?]
  | H : negb _ = true |- _ => apply negb_true_iff in H
  | H : negb _ = false |- _ => apply negb_false_iff in H
  | H : bool_decide _ = true |- _ => apply bool_decide_eq_true in H
  | H : bool_decide _ = false |- _ => apply bool_decide_eq_false in H
  | H : (_ =? _) = true |- _ => apply Z.eqb_eq in H
  | H : (_ =? _) = false |- _ => apply Z.eqb_neq in H
  | H : (_ <=? _) = true |- _ => apply Z.leb_le in H
  | H : (_ <=? _) = false |- _ => apply Z.leb_gt in H
  | H : (_ <? _) = true |- _ => apply Z.ltb_lt in H
  | H : (_ <? _) = false |- _ => apply Z.ltb_ge in H
  end.

(** ** Results and loops *)

Lemma bind_Ok {E A B} (m : result E A) (k : A → result E B) b :
  m ≫= k = Ok b ↔ ∃ a, m = Ok a ∧ k a = Ok b.
Proof. destruct m; cbn; naive_solver. Qed.

(** Run a sequence of [?]s in [H]. *)
Ltac bind_all H :=
  repeat (let a := fresh "a" in let Ha := fresh "Ha" in apply bind_Ok in H as (a & Ha & H)).

Lemma ok_or_Ok {E A} (e : E) (m : option A) a : ok_or e m = Ok a ↔ m = Some a.
Proof. destruct m; cbn; naive_solver. Qed.

Lemma try_for_each_Ok {E A} (f : A → result E unit) l :
  try_for_each f l = Ok tt ↔ Forall (λ x, f x = Ok tt) l.
Proof.
  induction l as [|x l IH]; cbn; [by split|].
  rewrite Forall_cons, <-IH. destruct (f x) as [[]|]; naive_solver.
Qed.

Lemma try_for_each_app {E A} (f : A → result E unit) l k :
  try_for_each f (l ++ k) = (try_for_each f l ≫= λ _, try_for_each f k).
Proof. induction l as [|x l IH]; cbn; [done|]. destruct (f x); [apply IH|done]. Qed.

Lemma try_map_Ok {E A B} (f : A → result E B) l ys :
  try_map f l = Ok ys ↔ Forall2 (λ x y, f x = Ok y) l ys.
Proof.
  revert ys. induction l as [|x l IH]; intros ys; cbn.
  { split; [intros [= <-]; constructor|by inversion 1]. }
  destruct (f x) as [y|] eqn:Hx.
  - destruct (try_map f l) as [zs|] eqn:Hl.
    + split; [intros [= <-]; constructor; [done|by apply IH]|].
      inversion 1 as [|? ? ? ? ? Hzs]; simplify_eq.
      apply IH in Hzs. congruence.
    + split; [done|]. inversion 1 as [|? ? ? ? ? Hzs]; simplify_eq.
      apply IH in Hzs. congruence.
  - split; [done|]. inversion 1; congruence.
Qed.

(** ** Big-endian integers *)

Lemma length_be_bytes n z : length (be_bytes n z) = n.
Proof. induction n; cbn; congruence. Qed.

Lemma be_bytes_ok n z : Forall byte_ok (be_bytes n z).
Proof.
  induction n; cbn; constructor; [|done].
  unfold byte_ok. pose proof (Z.mod_pos_bound (z / 256 ^ Z.of_nat n) 256). lia.
Qed.

Lemma be_value_be_bytes n z : be_value (be_bytes n z) = z mod 256 ^ Z.of_nat n.
Proof.
  induction n as [|n IH]; [by rewrite Z.mod_1_r|].
  cbn [be_bytes be_value]. rewrite length_be_bytes, IH.
  rewrite Nat2Z.inj_succ, Z.pow_succ_r by lia.
  rewrite (Z.mul_comm 256), Z.rem_mul_r by lia. lia.
Qed.

Lemma be_value_bound bs : Forall byte_ok bs → 0 ≤ be_value bs < 256 ^ Z.of_nat (length bs).
Proof.
  induction 1 as [|b bs Hb _ IH]; cbn [be_value length]; [lia|].
  unfold byte_ok in Hb. rewrite Nat2Z.inj_succ, Z.pow_succ_r by lia.
  pose proof (Z.pow_pos_nonneg 256 (Z.of_nat (length bs))). nia.
Qed.

Lemma be_bytes_congr n z w : z mod 256 ^ Z.of_nat n = w mod 256 ^ Z.of_nat n → be_bytes n z = be_bytes n w.
Proof.
  induction n as [|n IH]; [done|]. intros Heq. cbn [be_bytes].
  rewrite Nat2Z.inj_succ, Z.pow_succ_r in Heq by lia.
  rewrite (Z.mul_comm 256), !Z.rem_mul_r in Heq by lia.
  pose proof (Z.mod_pos_bound z (256 ^ Z.of_nat n)).
  pose proof (Z.mod_pos_bound w (256 ^ Z.of_nat n)).
  pose proof (Z.pow_pos_nonneg 256 (Z.of_nat n)).
  assert (z mod 256 ^ Z.of_nat n = w mod 256 ^ Z.of_nat n ∧
          (z / 256 ^ Z.of_nat n) mod 256 = (w / 256 ^ Z.of_nat n) mod 256) as [Hlow Hhigh].
  { rewrite (Z.add_comm (z mod _)), (Z.add_comm (w mod _)) in Heq.
    apply Z.div_mod_unique in Heq; [tauto|lia..]. }
  by rewrite Hhigh, (IH Hlow).
Qed.

Lemma be_bytes_be_value bs n :
  length bs = n → Forall byte_ok bs → be_bytes n (be_value bs) = bs.
Proof.
  intros <- Hbs. induction Hbs as [|b bs Hb Hbs IH]; [done|].
  cbn [length be_bytes be_value]. pose proof (be_value_bound bs Hbs).
  unfold byte_ok in Hb. f_equal.
  - rewrite Z.div_add_l, (Z.div_small (be_value bs)), Z.add_0_r, Z.mod_small; lia.
  - etransitivity; [apply be_bytes_congr|exact IH].
    by rewrite Z.add_comm, Z.mod_add by lia.
Qed.

Lemma be_bytes_inj n z w :
  0 ≤ z < 256 ^ Z.of_nat n → 0 ≤ w < 256 ^ Z.of_nat n → be_bytes n z = be_bytes n w → z = w.
Proof.
  intros ? ? Heq%(f_equal be_value). rewrite !be_value_be_bytes, !Z.mod_small in Heq; lia.
Qed.

Lemma i64_round_trip z : in_i64 z → i64_of_be_bytes (be_bytes 8 z) = z.
Proof.
  unfold in_i64, i64_of_be_bytes, i64_of_bits. rewrite be_value_be_bytes. intros Hz.
  change (256 ^ Z.of_nat 8) with (2 ^ 64).
  destruct (decide (0 ≤ z)).
  - rewrite Z.mod_small by lia. destruct (Z.ltb_spec z (2 ^ 63)); lia.
  - replace (z mod 2 ^ 64) with (z + 2 ^ 64).
    { destruct (Z.ltb_spec (z + 2 ^ 64) (2 ^ 63)); lia. }
    apply Z.mod_unique with (-1); lia.
Qed.

Lemma i64_bytes_round_trip bs :
  length bs = 8%nat → Forall byte_ok bs → be_bytes 8 (i64_of_be_bytes bs) = bs.
Proof.
  intros Hlen Hbs. rewrite <-(be_bytes_be_value bs 8) at 2 by done.
  apply be_bytes_congr. unfold i64_of_be_bytes, i64_of_bits.
  destruct (Z.ltb_spec (be_value bs) (2 ^ 63)); [done|].
  change (256 ^ Z.of_nat 8) with (2 ^ 64).
  replace (be_value bs - 2 ^ 64) with (be_value bs + (-1) * 2 ^ 64) by lia.
  by rewrite Z.mod_add by lia.
Qed.

Lemma i64_of_be_bytes_range bs :
  length bs = 8%nat → Forall byte_ok bs → in_i64 (i64_of_be_bytes bs).
Proof.
  intros Hlen Hbs%be_value_bound. rewrite Hlen in Hbs.
  change (256 ^ Z.of_nat 8) with (2 ^ 64) in Hbs.
  unfold in_i64, i64_of_be_bytes, i64_of_bits. case_match; to_prop; lia.
Qed.

Lemma i64_checked_add_Some a b c :
  i64_checked_add a b = Some c ↔ c = a + b ∧ in_i64 (a + b).
Proof.
  unfold i64_checked_add, in_i64. case_match; to_prop; [naive_solver|].
  split; [done|]. intros [-> ?]. apply andb_false_iff in H as [?|?]; to_prop; lia.
Qed.

Lemma as_bytes_ok s : Forall byte_ok (as_bytes s).
Proof.
  apply Forall_fmap, Forall_forall. intros a _. unfold byte_ok. cbn.
  pose proof (Ascii.N_ascii_bounded a). lia.
Qed.

#[export] Instance ascii_byte_inj : Inj (=) (=) (λ a, Z.of_N (Ascii.N_of_ascii a)).
Proof.
  intros a b Hab%N2Z.inj.
  by rewrite <-(Ascii.ascii_N_embedding a), <-(Ascii.ascii_N_embedding b), Hab.
Qed.

Lemma as_bytes_inj s t : as_bytes s = as_bytes t → s = t.
Proof.
  unfold as_bytes. intros Heq%(inj (fmap _)).
  by rewrite <-(String.string_of_list_ascii_of_string s),
    <-(String.string_of_list_ascii_of_string t), Heq.
Qed.

Lemma length_as_bytes s : length (as_bytes s) = String.length s.
Proof. unfold as_bytes. rewrite length_fmap. induction s; cbn; congruence. Qed.

(** ** Sorting *)

Section sort_lemmas.
Context {A : Type} (leb : A → A → bool).

Lemma sort_insert_perm x l : sort_insert leb x l ≡ₚ x :: l.
Proof.
  induction l as [|y l IH]; cbn; [done|]. case_match; [done|].
  rewrite IH. apply Permutation_swap.
Qed.

Lemma sort_by_perm l : sort_by leb l ≡ₚ l.
Proof. induction l as [|x l IH]; cbn; [done|]. by rewrite sort_insert_perm, IH. Qed.

Hypothesis leb_total : ∀ x y, leb x y = true ∨ leb y x = true.
Hypothesis leb_trans : ∀ x y z, leb x y = true → leb y z = true → leb x z = true.

Lemma sort_insert_sorted x l :
  StronglySorted (λ x y, leb x y = true) l → StronglySorted (λ x y, leb x y = true) (sort_insert leb x l).
Proof using leb_total leb_trans.
  induction 1 as [|y l Hl IH Hy]; cbn; [repeat constructor|].
  destruct (leb x y) eqn:Hxy.
  - repeat constructor; [done..|].
    eapply Forall_impl; [exact Hy|]. intros z Hz. by eapply leb_trans.
  - constructor; [done|]. rewrite sort_insert_perm.
    constructor; [|done]. destruct (leb_total x y); congruence.
Qed.

Lemma sort_by_sorted l : StronglySorted (λ x y, leb x y = true) (sort_by leb l).
Proof using leb_total leb_trans.
  induction l; cbn; [constructor|]. by apply sort_insert_sorted.
Qed.
End sort_lemmas.

(** A list that is already in order is not moved. *)
Lemma sort_by_id {A} (leb : A → A → bool) l :
  StronglySorted (λ x y, leb x y = true) l → sort_by leb l = l.
Proof.
  induction 1 as [|x l Hl IH Hx]; cbn; [done|]. unfold sort_by in IH. rewrite IH.
  destruct Hx as [|y l Hxy _]; cbn; [done|]. by rewrite Hxy.
Qed.

(** ** Maps in key order *)

Section entries_lemmas.
Context {V : Type}.
Implicit Types (m : gmap Z V) (k : Z) (v : V).

Lemma entries_perm m : entries m ≡ₚ map_to_list m.
Proof. apply sort_by_perm. Qed.

Lemma elem_of_entries m k v : (k, v) ∈ entries m ↔ m !! k = Some v.
Proof. by rewrite entries_perm, elem_of_map_to_list. Qed.

Lemma NoDup_keys m : NoDup (keys m).
Proof. unfold keys. rewrite entries_perm. apply NoDup_fst_map_to_list. Qed.

Lemma elem_of_keys m k : k ∈ keys m ↔ is_Some (m !! k).
Proof.
  unfold keys. rewrite list_elem_of_fmap. split.
  - intros ([k' v] & -> & Hv%elem_of_entries). by exists v.
  - intros [v Hv]. exists (k, v). by rewrite elem_of_entries.
Qed.

Lemma elem_of_values m v : v ∈ values m ↔ ∃ k, m !! k = Some v.
Proof.
  unfold values. rewrite list_elem_of_fmap. split.
  - intros ([k' v'] & -> & Hv%elem_of_entries). by exists k'.
  - intros [k Hv]. exists (k, v). by rewrite elem_of_entries.
Qed.

Lemma length_entries m : length (entries m) = size m.
Proof. by rewrite entries_perm, length_map_to_list. Qed.

Lemma entries_sorted m : StronglySorted (λ p q, p.1 < q.1) (entries m).
Proof.
  assert (StronglySorted (λ p q, key_leb p q = true) (entries m)) as Hs.
  { apply sort_by_sorted; unfold key_leb; intros; to_prop; rewrite ?Z.leb_le in *; lia. }
  pose proof (NoDup_keys m) as Hnd. unfold keys in Hnd. revert Hnd.
  induction Hs as [|p l Hl IH Hp]; cbn; [constructor|].
  intros [Hni Hnd]%NoDup_cons. constructor; [by apply IH|].
  rewrite Forall_forall in *. intros q Hq. specialize (Hp q Hq). unfold key_leb in Hp.
  assert (p.1 ≠ q.1). { intros Heq. apply Hni. rewrite Heq. by apply list_elem_of_fmap_2. }
  to_prop. lia.
Qed.

Lemma keys_sorted m : StronglySorted Z.lt (keys m).
Proof.
  unfold keys. induction (entries_sorted m) as [|p l Hl IH Hp]; cbn; constructor; [done|].
  by apply Forall_fmap.
Qed.

(** The entries are the only key-sorted list of the map's bindings. *)
Lemma entries_unique m l :
  StronglySorted (λ p q, p.1 < q.1) l → (∀ k v, (k, v) ∈ l ↔ m !! k = Some v) → entries m = l.
Proof.
  intros Hl Hm. assert (NoDup l) as Hnd.
  { clear Hm. induction Hl as [|p l Hl IH Hp]; constructor; [|done].
    intros Hin. rewrite Forall_forall in Hp. specialize (Hp p Hin). lia. }
  assert (entries m ≡ₚ l) as Hperm.
  { apply NoDup_Permutation; [|done|].
    - eapply NoDup_fmap_1, (NoDup_keys m).
    - intros [k v]. by rewrite elem_of_entries, Hm. }
  clear Hm Hnd. revert l Hl Hperm.
  induction (entries_sorted m) as [|p e He IH Hp]; intros l Hl Hperm.
  { by apply Permutation_nil_l. }
  destruct Hl as [|q l Hl Hq]; [by apply Permutation_nil_r in Hperm|].
  assert (p = q) as ->.
  { assert (p ∈ q :: l) as [->|Hpl]%elem_of_cons by (rewrite <-Hperm; left); [done|].
    assert (q ∈ p :: e) as [->|Hqe]%elem_of_cons by (rewrite Hperm; left); [done|].
    rewrite Forall_forall in Hp, Hq. specialize (Hp q Hqe). specialize (Hq p Hpl). lia. }
  f_equal. apply IH; [done|]. by eapply Permutation.Permutation_cons_inv.
Qed.
End entries_lemmas.

#[global] Arguments be_bytes : simpl never.
#[global] Arguments be_value : simpl never.

(** ** Pairs and selections *)

Lemma entries_by_elem_of `{Countable K} {V} leb (m : gmap K V) k v :
  (k, v) ∈ entries_by leb m ↔ m !! k = Some v.
Proof. unfold entries_by. by rewrite sort_by_perm, elem_of_map_to_list. Qed.

Lemma elem_of_concat_map {A B} (f : A → list B) l b : b ∈ concat (map f l) ↔ ∃ a, a ∈ l ∧ b ∈ f a.
Proof.
  induction l as [|x l IH]; cbn.
  { split; [by intros ?%elem_of_nil|by intros (? & ?%elem_of_nil & _)]. }
  rewrite elem_of_app, IH. setoid_rewrite elem_of_cons. naive_solver.
Qed.

Lemma existsb_false {A} (p : A → bool) l : existsb p l = false ↔ Forall (λ x, p x = false) l.
Proof.
  induction l as [|x l IH]; cbn; [by split|]. by rewrite orb_false_iff, IH, Forall_cons.
Qed.

Lemma existsb_perm {A} (p : A → bool) l k : l ≡ₚ k → existsb p l = existsb p k.
Proof.
  induction 1 as [|x l k _ IH|x y l|l k j _ IH1 _ IH2]; cbn; [done|by rewrite IH|btauto|congruence].
Qed.

(** A symmetric test on pairs does not see the order of the list. *)
Lemma any_pair_perm {A} (p : A → A → bool) l k :
  (∀ x y, p x y = p y x) → l ≡ₚ k → any_pair p l = any_pair p k.
Proof.
  intros Hsym. induction 1 as [|x l k Hlk IH|x y l|l k j _ IH1 _ IH2]; cbn.
  - done.
  - by rewrite IH, (existsb_perm _ _ _ Hlk).
  - rewrite (Hsym y x). btauto.
  - congruence.
Qed.

Lemma any_pair_app {A} (p : A → A → bool) l k :
  any_pair p (l ++ k) = false ↔
  any_pair p l = false ∧ any_pair p k = false ∧ ∀ x y, x ∈ l → y ∈ k → p x y = false.
Proof.
  induction l as [|x l IH]; cbn; [split; [|tauto]; intros ?; split; [done|]; split; [done|]; by intros ? ? ?%elem_of_nil|].
  rewrite existsb_app, !orb_false_iff, IH, !existsb_false, !Forall_forall. setoid_rewrite elem_of_cons. naive_solver.
Qed.

Lemma any_pair_impl {A} (p q : A → A → bool) l :
  (∀ x y, q x y = true → p x y = true) → any_pair p l = false → any_pair q l = false.
Proof.
  intros Hpq. induction l as [|x l IH]; cbn; [done|]. rewrite !orb_false_iff, !existsb_false, !Forall_forall.
  intros [Hx Hl]. split; [|by apply IH]. intros y Hy. apply not_true_iff_false. intros Hq%Hpq. by rewrite Hx in Hq.
Qed.

(** The elements of one clique of [p] occur at most once when no pair satisfies [p]. *)
Lemma any_pair_filter {A} (p : A → A → bool) (q : A → bool) l :
  any_pair p l = false → (∀ x y, q x = true → q y = true → p x y = true) →
  (length (List.filter q l) ≤ 1)%nat.
Proof.
  intros Hp Hq. induction l as [|x l IH]; cbn in *; [lia|].
  apply orb_false_iff in Hp as [Hx Hp]. destruct (q x) eqn:Hqx; [|by apply IH]. cbn.
  destruct (List.filter q l) as [|y k] eqn:Hf; cbn; [lia|].
  assert (In y (List.filter q l)) as [Hy Hqy]%filter_In by (rewrite Hf; by left).
  apply existsb_false in Hx. rewrite Forall_forall in Hx.
  apply list_elem_of_In in Hy. specialize (Hx y Hy). by rewrite (Hq x y) in Hx.
Qed.

Lemma max_by_key_singleton {A} (key : A → Z) x : max_by_key key [x] = Some x.
Proof. done. Qed.

Lemma max_by_key_None {A} (key : A → Z) l : max_by_key key l = None → l = [].
Proof.
  unfold max_by_key. destruct l as [|x l]; [done|]. cbn.
  enough (∀ b, foldl (λ best x, match best with
                      | None => Some x
                      | Some b => if key b <=? key x then Some x else Some b
                      end) (Some b) l ≠ None) as H by (intros Heq; by apply H in Heq).
  clear x. induction l as [|y l IH]; intros b; cbn; [done|]. case_match; apply IH.
Qed.

Lemma StronglySorted_impl {A} (R S : A → A → Prop) l :
  (∀ x y, R x y → S x y) → StronglySorted R l → StronglySorted S l.
Proof.
  intros HRS. induction 1 as [|x l Hl IH Hx]; constructor; [done|].
  eapply Forall_impl; [exact Hx|]. auto.
Qed.

Lemma try_for_each_Err {E A} (f : A → result E unit) l e :
  try_for_each f l = Err e → ∃ x, x ∈ l ∧ f x = Err e.
Proof.
  induction l as [|x l IH]; cbn; [done|]. destruct (f x) eqn:Hx.
  - intros (y & ? & ?)%IH. exists y. split; [by right|done].
  - intros [= ->]. exists x. split; [left|done].
Qed.

Lemma bind_Err {E A B} (m : result E A) (k : A → result E B) e :
  m ≫= k = Err e ↔ m = Err e ∨ ∃ a, m = Ok a ∧ k a = Err e.
Proof. destruct m; cbn; naive_solver. Qed.

Lemma StronglySorted_map {A B C} (f : A → B) (g : A → C) (R : B → B → Prop) (S : C → C → Prop) l :
  (∀ x y, R (f x) (f y) → S (g x) (g y)) → StronglySorted R (map f l) → StronglySorted S (map g l).
Proof.
  intros HRS. induction l as [|x l IH]; cbn; [constructor|]. inversion 1 as [|? ? Hl Hx]; subst.
  constructor; [by apply IH|]. rewrite Forall_forall in Hx. apply Forall_forall.
  intros y (z & -> & Hz)%list_elem_of_fmap. apply HRS, Hx. by apply (list_elem_of_fmap_2 f).
Qed.

Lemma elem_of_concat {A} (x : A) ls : x ∈ concat ls ↔ ∃ l, l ∈ ls ∧ x ∈ l.
Proof.
  induction ls as [|l ls IH]; cbn.
  - rewrite elem_of_nil. split; [done|]. by intros (l & ?%elem_of_nil & _).
  - rewrite elem_of_app, IH. setoid_rewrite elem_of_cons. naive_solver.
Qed.

Lemma elem_of_rev {A} (x : A) l : x ∈ rev l ↔ x ∈ l.
Proof. by rewrite <-Permutation_rev. Qed.

Lemma NoDup_fst_eq {A B} (l : list (A * B)) a b b' : NoDup l.*1 → (a, b) ∈ l → (a, b') ∈ l → b = b'.
Proof.
  intros Hnd (i & Hi)%list_elem_of_lookup_1 (j & Hj)%list_elem_of_lookup_1.
  assert (i = j) as ->; [|congruence].
  eapply NoDup_lookup; [exact Hnd| |]; rewrite list_lookup_fmap; [by rewrite Hi|by rewrite Hj].
Qed.

Lemma StronglySorted_impl_in {A} (R S : A → A → Prop) l :
  (∀ x y, x ∈ l → y ∈ l → R x y → S x y) → StronglySorted R l → StronglySorted S l.
Proof.
  intros HRS. induction 1 as [|x l Hl IH Hx]; constructor.
  - apply IH. intros y z Hy Hz. by apply HRS; right.
  - rewrite Forall_forall in *. intros y Hy. apply HRS; [left|by right|by apply Hx].
Qed.

Lemma StronglySorted_lookup_lt {A} (R : A → A → Prop) l :
  StronglySorted R l → ∀ i j x y, l !! i = Some x → l !! j = Some y → (i < j)%nat → R x y.
Proof.
  induction 1 as [|a l Hl IH Ha]; intros i j x y Hx Hy Hij; [done|]. destruct j as [|j]; [lia|]. cbn in Hy.
  destruct i as [|i]; cbn in Hx.
  - injection Hx as <-. by eapply Forall_lookup_1.
  - apply (IH i j); [done|done|lia].
Qed.

Lemma head_elem_of {A} (l : list A) : l ≠ [] → ∃ x, head l = Some x ∧ x ∈ l.
Proof. destruct l as [|x l]; [done|]. exists x. split; [done|by left]. Qed.

Lemma length_nonzero {A} (l : list A) : l ≠ [] → length l ≠ 0%nat.
Proof. by destruct l. Qed.

(** ** Slices *)

Lemma slice_app_mid {A} (l1 l2 l3 : list A) a b :
  length l1 = a → (a + length l2)%nat = b → slice a b (l1 ++ l2 ++ l3) = l2.
Proof.
  intros <- <-. unfold slice. rewrite drop_app_length.
  replace (_ + _ - _)%nat with (length l2) by lia. apply take_app_length.
Qed.

Lemma length_slice {A} a b (l : list A) : (a ≤ b ≤ length l)%nat → length (slice a b l) = (b - a)%nat.
Proof. intros ?. unfold slice. rewrite length_take, length_drop. lia. Qed.

Lemma slice_split {A} a b (l : list A) : (a ≤ b)%nat → drop a l = slice a b l ++ drop b l.
Proof.
  intros ?. unfold slice. rewrite <-(take_drop (b - a) (drop a l)) at 1.
  rewrite drop_drop. by replace (a + (b - a))%nat with b by lia.
Qed.

Lemma drop_nth {A} (d : A) n (l : list A) : (n < length l)%nat → drop n l = nth n l d :: drop (S n) l.
Proof. revert l. induction n as [|n IH]; intros [|x l] Hn; cbn in *; try lia; [done|]. apply IH. lia. Qed.

Lemma Forall_slice {A} (P : A → Prop) a b l : Forall P l → Forall P (slice a b l).
Proof. intros ?. by apply Forall_take, Forall_drop. Qed.

(** ** Distinctness through a set ([collect::<BTreeSet<_>>().len()]) *)

Lemma size_list_to_set_le (l : list Z) : (size (list_to_set l : gset Z) ≤ length l)%nat.
Proof.
  induction l as [|x l IH]; cbn; [by rewrite size_empty|].
  destruct (decide (x ∈ l)) as [Hx|Hx].
  - rewrite subseteq_union_1_L by set_solver. lia.
  - rewrite size_union, size_singleton by set_solver. lia.
Qed.

Lemma size_list_to_set_NoDup (l : list Z) : size (list_to_set l : gset Z) = length l ↔ NoDup l.
Proof.
  split; [|by apply size_list_to_set]. induction l as [|x l IH]; cbn; [constructor|].
  pose proof (size_list_to_set_le l). intros Hs. destruct (decide (x ∈ l)) as [Hx|Hx].
  - rewrite subseteq_union_1_L in Hs by set_solver. lia.
  - rewrite size_union, size_singleton in Hs by set_solver. constructor; [done|]. apply IH. lia.
Qed.

(** ** Sorting by an integer key ([sort_by_key]) *)

Section sort_key.
Context {A : Type} (key : A → Z).

Lemma sort_by_key_sorted l : StronglySorted (λ x y, key x ≤ key y) (sort_by (λ x y, key x <=? key y) l).
Proof.
  eapply StronglySorted_impl; [|apply sort_by_sorted].
  - intros x y. apply Z.leb_le.
  - intros x y. rewrite !Z.leb_le. lia.
  - intros x y z. rewrite !Z.leb_le. lia.
Qed.

Lemma sort_by_key_strict l :
  NoDup (map key l) → StronglySorted (λ x y, key x < key y) (sort_by (λ x y, key x <=? key y) l).
Proof.
  intros Hnd. assert (NoDup (map key (sort_by (λ x y, key x <=? key y) l))) as Hnd'.
  { assert (map key (sort_by (λ x y, key x <=? key y) l) ≡ₚ map key l) as ->; [|done].
    apply Permutation_map, sort_by_perm. }
  revert Hnd'. induction (sort_by_key_sorted l) as [|x k Hk IH Hx]; cbn; [constructor|].
  intros [Hni Hnd']%NoDup_cons. constructor; [by apply IH|].
  rewrite Forall_forall in *. intros y Hy. specialize (Hx y Hy).
  assert (key x ≠ key y); [|lia]. intros Heq. apply Hni. rewrite Heq. by apply list_elem_of_fmap_2.
Qed.

Lemma sort_by_key_id l :
  StronglySorted (λ x y, key x ≤ key y) l → sort_by (λ x y, key x <=? key y) l = l.
Proof. intros Hs. apply sort_by_id. eapply StronglySorted_impl, Hs. intros x y. apply Z.leb_le. Qed.

Lemma strictly_sorted_NoDup l : StronglySorted (λ x y, key x < key y) l → NoDup (map key l).
Proof.
  induction 1 as [|x l Hl IH Hx]; cbn; constructor; [|done].
  intros (y & Heq & Hy)%list_elem_of_fmap. rewrite Forall_forall in Hx. specialize (Hx y Hy). lia.
Qed.
End sort_key.

(** ** Maps over an interval of indexes *)

Lemma seqZ_sorted m n : StronglySorted Z.lt (seqZ m n).
Proof.
  destruct (decide (0 ≤ n)) as [Hn|Hn]; [|rewrite seqZ_nil by lia; constructor].
  revert m. pattern n. apply natlike_ind; [|intros x Hx IH m|done].
  - intros m. rewrite seqZ_nil by lia. constructor.
  - rewrite seqZ_cons, Z.pred_succ by lia. constructor; [apply IH|]. apply Forall_seqZ. lia.
Qed.

Lemma last_seqZ m n : 0 < n → last (seqZ m n) = Some (m + n - 1).
Proof.
  intros Hn. replace n with (Z.of_nat (S (Z.to_nat (n - 1)))) at 1 by lia. rewrite seqZ_S, last_snoc.
  f_equal. lia.
Qed.

Lemma keys_interval {V} (m : gmap Z V) first next :
  (∀ i, is_Some (m !! i) ↔ first ≤ i < next) → keys m = seqZ first (next - first).
Proof.
  intros Hm. apply (StronglySorted_unique_strong Z.lt); [lia|apply keys_sorted|apply seqZ_sorted|].
  apply NoDup_Permutation; [apply NoDup_keys|apply NoDup_seqZ|].
  intros i. rewrite elem_of_keys, elem_of_seqZ, Hm. lia.
Qed.

Lemma lookup_foldl_delete {V} (m : gmap Z V) l k :
  foldl (λ m i, base.delete i m) m l !! k = if decide (k ∈ l) then None else m !! k.
Proof.
  revert m. induction l as [|i l IH]; intros m; cbn; [done|]. rewrite IH.
  destruct (decide (k ∈ l)), (decide (k ∈ i :: l)); try done; try set_solver.
  - assert (k = i) as -> by set_solver. by rewrite lookup_delete_eq.
  - rewrite lookup_delete_ne; [done|]. set_solver.
Qed.

Lemma lookup_foldl_insert {V} (m : gmap Z V) l k v :
  NoDup l.*1 →
  foldl (λ m p, <[p.1 := p.2]> m) m l !! k = Some v ↔ (k, v) ∈ l ∨ (k ∉ l.*1 ∧ m !! k = Some v).
Proof.
  revert m. induction l as [|[i w] l IH]; intros m; cbn; [set_solver|].
  intros [Hi Hnd]%NoDup_cons. rewrite IH by done. rewrite elem_of_cons, not_elem_of_cons.
  destruct (decide (k = i)) as [->|Hne].
  - rewrite lookup_insert_eq. assert ((i, v) ∉ l) by (intros Hv; apply Hi; by apply (list_elem_of_fmap_2 fst l (i, v))).
    naive_solver.
  - rewrite lookup_insert_ne by done. naive_solver.
Qed.

Lemma StronglySorted_omap {A B} (f : A → option B) (R : A → A → Prop) (S : B → B → Prop) l :
  (∀ x y a b, R x y → f x = Some a → f y = Some b → S a b) →
  StronglySorted R l → StronglySorted S (omap f l).
Proof.
  intros HR. induction 1 as [|x l Hl IH Hx]; cbn; [constructor|].
  destruct (f x) as [a|] eqn:Ha; [|done]. constructor; [done|].
  rewrite Forall_forall in Hx. apply Forall_forall. intros b (y & Hy & Hb)%list_elem_of_omap. exact (HR x y a b (Hx y Hy) Ha Hb).
Qed.

Lemma entries_omap {V W} (f : V → option W) (m : gmap Z V) :
  entries (omap f m) = omap (λ p, (p.1,.) <$> f p.2) (entries m).
Proof.
  apply entries_unique.
  - eapply StronglySorted_omap, entries_sorted. intros [i v] [j w] a b Hij.
    cbn. destruct (f v), (f w); naive_solver.
  - intros k w. rewrite list_elem_of_omap, lookup_omap_Some. split.
    + intros ([i v] & Hv%elem_of_entries & Hw). cbn in Hw. destruct (f v) eqn:Hf; naive_solver.
    + intros (v & Hw & Hv). exists (k, v). rewrite elem_of_entries. cbn. by rewrite Hw.
Qed.

Lemma omap_values {V W} (f : V → option W) (l : list (Z * V)) :
  (omap (λ p, (p.1,.) <$> f p.2) l).*2 = omap (λ p, f p.2) l.
Proof. induction l as [|[i v] l IH]; [done|]. cbn. destruct (f v); cbn; [by f_equal|done]. Qed.
