(* ===== verification/Text.v ===== *)
(** * Strings of the standard library

    A Rust string is its UTF-8 byte sequence ([as_bytes]).  This file holds what the program uses of
    [str] and [String]: UTF-8 validity, characters and white space, [split_once], the [Debug] format
    of an ASCII string, and the ascending iteration of a [BTreeSet<String>]. *)

From S2P Require Import Prelude.
Open Scope Z_scope.

(** [String::from_utf8]: the well-formed byte sequences of the Unicode standard (table 3-7). *)
Definition between (lo hi b : Z) : bool := (lo <=? b) && (b <=? hi).
Definition continuation (b : Z) : bool := between 128 191 b.
Fixpoint utf8_valid (bs : bytes) : bool :=
  match bs with
  | [] => true
  | a :: bs1 =>
      if a <? 128 then utf8_valid bs1
      else match bs1 with
      | [] => false
      | b :: bs2 =>
          if between 194 223 a then continuation b && utf8_valid bs2
          else match bs2 with
          | [] => false
          | c :: bs3 =>
              if between 224 239 a then
                between (if a =? 224 then 160 else 128) (if a =? 237 then 159 else 191) b &&
                continuation c && utf8_valid bs3
              else match bs3 with
              | [] => false
              | d :: bs4 =>
                  between 240 244 a &&
                  between (if a =? 240 then 144 else 128) (if a =? 244 then 143 else 191) b &&
                  continuation c && continuation d && utf8_valid bs4
              end
          end
      end
  end.

Definition string_of_bytes (bs : bytes) : string :=
  String.string_of_list_ascii ((λ b, Ascii.ascii_of_N (Z.to_N b)) <$> bs).

(** Strings of the program are valid UTF-8. *)
Definition str_ok (s : string) : Prop := utf8_valid (as_bytes s) = true.

(** ** Characters *)

(** [str::chars] of a valid string, as code points. *)
Fixpoint utf8_chars (bs : bytes) : list Z :=
  match bs with
  | [] => []
  | a :: bs1 =>
      if a <? 128 then a :: utf8_chars bs1
      else match bs1 with
      | [] => []
      | b :: bs2 =>
          if a <? 224 then (a mod 32) * 64 + b mod 64 :: utf8_chars bs2
          else match bs2 with
          | [] => []
          | c :: bs3 =>
              if a <? 240 then ((a mod 16) * 64 + b mod 64) * 64 + c mod 64 :: utf8_chars bs3
              else match bs3 with
              | [] => []
              | d :: bs4 =>
                  (((a mod 8) * 64 + b mod 64) * 64 + c mod 64) * 64 + d mod 64 :: utf8_chars bs4
              end
          end
      end
  end.
Definition chars (s : string) : list Z := utf8_chars (as_bytes s).

(** [char::is_whitespace]: the property [White_Space]. *)
Definition is_whitespace (c : Z) : bool :=
  between 9 13 c || (c =? 32) || (c =? 133) || (c =? 160) || (c =? 5760) || between 8192 8202 c
  || (c =? 8232) || (c =? 8233) || (c =? 8239) || (c =? 8287) || (c =? 12288).

(** [value.chars().any(char::is_whitespace)] and [value.trim().is_empty()]. *)
Definition has_whitespace (s : string) : bool := existsb is_whitespace (chars s).
Definition is_blank (s : string) : bool := forallb is_whitespace (chars s).

Definition is_ascii_lowercase (b : Z) : bool := between 97 122 b.
Definition is_ascii_digit (b : Z) : bool := between 48 57 b.

(** [matches!(byte, b'-' | b'.')]. *)
Definition is_dash_or_dot (b : Z) : bool := (b =? 45) || (b =? 46).

(** [str::split_once]: the parts before and after the first occurrence. *)
Fixpoint split_once (delimiter s : string) : option (string * string) :=
  if String.prefix delimiter s
  then Some (EmptyString, String.substring (String.length delimiter) (String.length s) s)
  else match s with
       | EmptyString => None
       | String a s => prod_map (String a) id <$> split_once delimiter s
       end.

(** [{:?}] of a string; exact on ASCII, other characters are kept. *)
Definition hex_char (d : Z) : string :=
  string_of_bytes [if d <? 10 then 48 + d else 87 + d].
Definition escape_byte (b : Z) : string :=
  if b =? 0 then "\0" else if b =? 9 then "\t" else if b =? 10 then "\n" else if b =? 13 then "\r"
  else if b =? 34 then "\" +:+ string_of_bytes [34] else if b =? 92 then "\\"
  else if (b <? 16) then "\u{" +:+ hex_char b +:+ "}"
  else if (b <? 32) || (b =? 127) then "\u{" +:+ hex_char (b / 16) +:+ hex_char (b mod 16) +:+ "}"
  else string_of_bytes [b].
Definition debug_string (s : string) : string :=
  let quote := string_of_bytes [34] in
  quote +:+ foldr (λ b rest, escape_byte b +:+ rest) EmptyString (as_bytes s) +:+ quote.

(** ** [BTreeSet<String>], as its elements in ascending order *)

Definition string_lt (s t : string) : Prop := String.compare s t = Lt.

Fixpoint set_insert (k : string) (l : list string) : list string :=
  match l with
  | [] => [k]
  | x :: l =>
      match String.compare k x with
      | Lt => k :: x :: l
      | Eq => x :: l
      | Gt => x :: set_insert k l
      end
  end.

(** ** Lemmas *)

Lemma string_of_as_bytes s : string_of_bytes (as_bytes s) = s.
Proof.
  unfold string_of_bytes, as_bytes. rewrite <-list_fmap_compose.
  erewrite (list_fmap_ext _ id); [by rewrite list_fmap_id, String.string_of_list_ascii_of_string|].
  intros i a _. cbn. by rewrite N2Z.id, Ascii.ascii_N_embedding.
Qed.

(** The order of strings and the sets of [set_insert]. *)
Lemma string_lt_trans s t u : string_lt s t → string_lt t u → string_lt s u.
Proof.
  unfold string_lt. revert t u. induction s as [|a s IH]; intros [|b t] [|c u]; cbn; try done.
  unfold Ascii.compare. intros Hst Htu.
  destruct (N.compare_spec (Ascii.N_of_ascii a) (Ascii.N_of_ascii b)) as [Hab|Hab|Hab]; [| |done];
    destruct (N.compare_spec (Ascii.N_of_ascii b) (Ascii.N_of_ascii c)) as [Hbc|Hbc|Hbc]; try done.
  - rewrite Hab, Hbc, N.compare_refl. by eapply IH.
  - by rewrite Hab, (proj2 (N.compare_lt_iff _ _) Hbc).
  - by rewrite <-Hbc, (proj2 (N.compare_lt_iff _ _) Hab).
  - by rewrite (proj2 (N.compare_lt_iff _ _) (N.lt_trans _ _ _ Hab Hbc)).
Qed.

Lemma string_compare_Gt s t : String.compare s t = Gt ↔ string_lt t s.
Proof. unfold string_lt. rewrite (String.compare_antisym s t). by destruct (String.compare t s). Qed.

Lemma elem_of_set_insert k l x : x ∈ set_insert k l ↔ x = k ∨ x ∈ l.
Proof.
  induction l as [|y l IH]; cbn; [set_solver|]. destruct (String.compare k y) eqn:Hc.
  - apply String.compare_eq_iff in Hc as ->. set_solver.
  - set_solver.
  - rewrite !elem_of_cons, IH. tauto.
Qed.

Lemma set_insert_sorted k l : StronglySorted string_lt l → StronglySorted string_lt (set_insert k l).
Proof.
  induction 1 as [|x l Hl IH Hx]; cbn; [repeat constructor|].
  destruct (String.compare k x) eqn:Hc; [by constructor| |].
  - constructor; [by constructor|]. constructor; [done|]. eapply Forall_impl; [exact Hx|].
    intros y. by apply string_lt_trans.
  - constructor; [done|]. apply Forall_forall. intros y [->|Hy]%elem_of_set_insert.
    + by apply string_compare_Gt.
    + rewrite Forall_forall in Hx. by apply Hx.
Qed.

Lemma set_insert_last k l : Forall (λ x, string_lt x k) l → set_insert k l = l ++ [k].
Proof.
  induction 1 as [|x l Hx _ IH]; cbn; [done|]. by rewrite (proj2 (string_compare_Gt k x) Hx), IH.
Qed.
