(* ===== verification/Kernel.v ===== *)
(** * The kernel crate ([dtg-kernel])

    Identifiers, times, valid intervals, property values and digests, with the checks their
    constructors make.  The private newtypes of the crate ([ShardId(u64)], [TransactionTime(i64)],
    ...) are the integers they wrap; [*_new] is the only way the source builds one, and the [wf]
    predicates below say what those constructors guarantee. *)

From S2P Require Import Prelude.
Open Scope Z_scope.

Abbreviation ClusterId := Z (only parsing).
Abbreviation GraphId := Z (only parsing).
Abbreviation ShardId := Z (only parsing).
Abbreviation ReplicaId := Z (only parsing).
Abbreviation PlacementEpoch := Z (only parsing).
Abbreviation BackendGeneration := Z (only parsing).
Abbreviation TransactionId := Z (only parsing).
Abbreviation TransactionTime := Z (only parsing).
Abbreviation Version := Z (only parsing).
Abbreviation Digest32 := (list Z) (only parsing).

(** ** Errors ([error.rs]) *)

Inductive KernelError :=
| ZeroIdentifier
| NegativeTransactionTime (value : Z)
| InvalidInterval (start_ end_ : Z).

#[export] Instance KernelError_eq_dec : EqDecision KernelError.
Proof. solve_decision. Defined.

Definition KernelError_to_string (e : KernelError) : string :=
  match e with
  | ZeroIdentifier => "identifier must be nonzero"
  | NegativeTransactionTime value =>
      "transaction time must be nonnegative: " +:+ pretty value
  | InvalidInterval s e =>
      "interval start must precede end: " +:+ pretty s +:+ " >= " +:+ pretty e
  end.

(** ** Identifiers ([id.rs]) *)

(** [new] of the six nonzero [u64] identifiers of the macro [nonzero_u64_identifier]. *)
Definition nonzero_u64_identifier (value : Z) : result KernelError Z :=
  if negb (value =? 0) then Ok value else Err ZeroIdentifier.

Definition TransactionId_new (value : Z) : result KernelError TransactionId :=
  if negb (value =? 0) then Ok value else Err ZeroIdentifier.

(** ** Times ([time.rs]) *)

Definition TransactionTime_new (value : Z) : result KernelError TransactionTime :=
  if 0 <=? value then Ok value else Err (NegativeTransactionTime value).

Record ValidInterval := mkValidInterval { start : Z; end_ : Z }.

#[export] Instance ValidInterval_eq_dec : EqDecision ValidInterval.
Proof. solve_decision. Defined.

Definition ValidInterval_new (s e : Z) : result KernelError ValidInterval :=
  if s <? e then Ok (mkValidInterval s e) else Err (InvalidInterval s e).

Definition overlaps (self other : ValidInterval) : bool :=
  (start self <? end_ other) && (start other <? end_ self).

(** A point of valid time lies in an interval (the half-open reading every caller uses). *)
Definition covers_point (i : ValidInterval) (t : Z) : bool := (start i <=? t) && (t <? end_ i).

(** ** Property values ([value.rs]) *)

(** A [BTreeMap<String, Value>] is its list of bindings in ascending key order. *)
Inductive Value :=
| VNull
| VBoolean (b : bool)
| VInteger (i : Z)
| VFloatBits (u : Z)
| VBytes (bs : bytes)
| VString (s : string)
| VList (vs : list Value)
| VMap (m : list (string * Value)).

Fixpoint value_eqb (a b : Value) : bool :=
  match a, b with
  | VNull, VNull => true
  | VBoolean x, VBoolean y => eqb x y
  | VInteger x, VInteger y => x =? y
  | VFloatBits x, VFloatBits y => x =? y
  | VBytes x, VBytes y => bool_decide (x = y)
  | VString x, VString y => bool_decide (x = y)
  | VList xs, VList ys =>
      (fix go xs ys :=
         match xs, ys with
         | [], [] => true
         | x :: xs, y :: ys => value_eqb x y && go xs ys
         | _, _ => false
         end) xs ys
  | VMap xs, VMap ys =>
      (fix go xs ys :=
         match xs, ys with
         | [], [] => true
         | (k, x) :: xs, (l, y) :: ys => bool_decide (k = l) && value_eqb x y && go xs ys
         | _, _ => false
         end) xs ys
  | _, _ => false
  end.

(** ** Digests ([version.rs]) *)

Definition zero_digest : Digest32 := replicate 32 0.

(** ** What the constructors guarantee *)

Definition id_wf (id : Z) : Prop := in_u64 id ∧ id ≠ 0.
Definition id128_wf (id : Z) : Prop := in_u128 id ∧ id ≠ 0.
Definition time_wf (t : TransactionTime) : Prop := in_i64 t ∧ 0 ≤ t.
Definition interval_wf (i : ValidInterval) : Prop :=
  in_i64 (start i) ∧ in_i64 (end_ i) ∧ start i < end_ i.
Definition digest_wf (d : Digest32) : Prop := length d = 32%nat ∧ Forall byte_ok d.

(** Lengths are [usize], so they fit in the [u64] the encoders write. *)
Definition len_wf {A} (l : list A) : Prop := in_u64 (Z.of_nat (length l)).
Definition string_wf (s : string) : Prop := in_u64 (Z.of_nat (String.length s)).

Inductive value_wf : Value → Prop :=
| value_wf_null : value_wf VNull
| value_wf_bool b : value_wf (VBoolean b)
| value_wf_int i : in_i64 i → value_wf (VInteger i)
| value_wf_float u : in_u64 u → value_wf (VFloatBits u)
| value_wf_bytes bs : len_wf bs → Forall byte_ok bs → value_wf (VBytes bs)
| value_wf_string s : string_wf s → value_wf (VString s)
| value_wf_list vs : len_wf vs → Forall value_wf vs → value_wf (VList vs)
| value_wf_map m :
    len_wf m → Forall (λ p, string_wf p.1) m → Forall (λ p, value_wf p.2) m → value_wf (VMap m).

(** ** Lemmas *)

Section value_ind.
Context (P : Value → Prop).
Context (Hnull : P VNull) (Hbool : ∀ b, P (VBoolean b)) (Hint : ∀ i, P (VInteger i)).
Context (Hfloat : ∀ u, P (VFloatBits u)) (Hbytes : ∀ bs, P (VBytes bs)).
Context (Hstring : ∀ s, P (VString s)).
Context (Hlist : ∀ vs, Forall P vs → P (VList vs)).
Context (Hmap : ∀ m, Forall (λ p, P p.2) m → P (VMap m)).

(** Induction through the nested lists. *)
Fixpoint value_ind' (v : Value) : P v :=
  match v with
  | VNull => Hnull
  | VBoolean b => Hbool b
  | VInteger i => Hint i
  | VFloatBits u => Hfloat u
  | VBytes bs => Hbytes bs
  | VString s => Hstring s
  | VList vs =>
      Hlist vs ((fix go vs := match vs return Forall P vs with
                              | [] => Forall_nil_2 _
                              | v :: vs => Forall_cons_2 _ _ _ (value_ind' v) (go vs)
                              end) vs)
  | VMap m =>
      Hmap m ((fix go m := match m return Forall (λ p, P p.2) m with
                           | [] => Forall_nil_2 _
                           | p :: m => Forall_cons_2 _ _ _ (value_ind' p.2) (go m)
                           end) m)
  end.
End value_ind.

Lemma value_eqb_eq a : ∀ b, value_eqb a b = true ↔ a = b.
Proof.
  induction a as [| | | | | |xs IH|xs IH] using value_ind'; intros [| | | | | |ys|ys];
    cbn; try done; rewrite ?eqb_true_iff, ?Z.eqb_eq, ?bool_decide_eq_true;
    try (split; congruence).
  - transitivity (xs = ys); [|split; congruence]. revert ys.
    induction IH as [|x xs Hx _ IHxs]; intros [|y ys]; try done.
    rewrite andb_true_iff, Hx, IHxs. split; [intros [-> ->]; done|by intros [= -> ->]].
  - transitivity (xs = ys); [|split; congruence]. revert ys.
    induction IH as [|[k x] xs Hx _ IHxs]; intros [|[l y] ys]; try done.
    rewrite !andb_true_iff, bool_decide_eq_true, (Hx y), IHxs. cbn.
    split; [by intros [[-> ->] ->]|by intros [= -> -> ->]].
Qed.

#[export] Instance Value_eq_dec : EqDecision Value.
Proof.
  refine (λ a b, match value_eqb a b as c return value_eqb a b = c → _ with
                 | true => λ H, left _ | false => λ H, right _ end eq_refl).
  - by apply value_eqb_eq.
  - intros ->. by rewrite (proj2 (value_eqb_eq b b) eq_refl) in H.
Defined.

(** Two well-formed intervals overlap exactly when they share a point of valid time. *)
Lemma overlaps_iff i j :
  start i < end_ i → start j < end_ j →
  overlaps i j = true ↔ ∃ t, covers_point i t = true ∧ covers_point j t = true.
Proof.
  intros Hi Hj. unfold overlaps, covers_point. split.
  - intros ?; to_prop. exists (Z.max (start i) (start j)).
    rewrite !andb_true_iff, !Z.leb_le, !Z.ltb_lt. lia.
  - intros (t & ? & ?); to_prop. rewrite andb_true_iff, !Z.ltb_lt. lia.
Qed.

Lemma overlaps_sym i j : overlaps i j = overlaps j i.
Proof. unfold overlaps. apply andb_comm. Qed.
