(* ===== verification/Encoding.v ===== *)
(** * Prefix-free byte encodings

    The hashers of the program are fed a concatenation of fields.  A field encoding is prefix free
    when the bytes of one value followed by anything determine both the value and the rest; such
    encodings compose by concatenation, so a record's byte stream determines the record. *)

From S2P Require Import Prelude Kernel.
Open Scope Z_scope.

Class PrefixFree {A} (P : A → Prop) (enc : A → bytes) : Prop :=
  prefix_free x y r s : P x → P y → enc x ++ r = enc y ++ s → x = y ∧ r = s.

(** A length-prefixed string and byte sequence ([encode_string], [hash_bytes]). *)
Definition enc_bytes (bs : bytes) : bytes := be_bytes 8 (Z.of_nat (length bs)) ++ bs.
Definition enc_string (s : string) : bytes := enc_bytes (as_bytes s).

(** A counted sequence: the [u64] length, then the items. *)
Definition enc_seq {A} (enc : A → bytes) (l : list A) : bytes :=
  be_bytes 8 (Z.of_nat (length l)) ++ concat (map enc l).

Section combinators.
Context {A B : Type}.

(** Encodings of one width. *)
Lemma prefix_free_fixed (P : A → Prop) (enc : A → bytes) n :
  (∀ x, P x → length (enc x) = n) → (∀ x y, P x → P y → enc x = enc y → x = y) →
  PrefixFree P enc.
Proof.
  intros Hlen Hinj x y r s Hx Hy [Heq Hr]%app_inj_1; [|by rewrite !Hlen]. eauto.
Qed.

Lemma prefix_free_inj (P : A → Prop) (enc : A → bytes) x y :
  PrefixFree P enc → P x → P y → enc x = enc y → x = y.
Proof. intros Hpf Hx Hy Heq. apply (Hpf x y [] []); [done..|by rewrite Heq]. Qed.
End combinators.

Lemma be_bytes_prefix n z w r s :
  0 ≤ z < 256 ^ Z.of_nat n → 0 ≤ w < 256 ^ Z.of_nat n →
  be_bytes n z ++ r = be_bytes n w ++ s → z = w ∧ r = s.
Proof.
  intros Hz Hw [Heq Hr]%app_inj_1; [|by rewrite !length_be_bytes].
  split; [|done]. by eapply be_bytes_inj.
Qed.

#[export] Instance u32_prefix_free : PrefixFree in_u32 (be_bytes 4).
Proof. intros z w r s Hz Hw. by apply be_bytes_prefix. Qed.
#[export] Instance u64_prefix_free : PrefixFree in_u64 (be_bytes 8).
Proof. intros z w r s Hz Hw. by apply be_bytes_prefix. Qed.
#[export] Instance u128_prefix_free : PrefixFree in_u128 (be_bytes 16).
Proof. intros z w r s Hz Hw. by apply be_bytes_prefix. Qed.
#[export] Instance i64_prefix_free : PrefixFree in_i64 (be_bytes 8).
Proof.
  intros z w r s Hz Hw [Heq%(f_equal i64_of_be_bytes) Hr]%app_inj_1;
    [|by rewrite !length_be_bytes].
  by rewrite !i64_round_trip in Heq.
Qed.
#[export] Instance digest_prefix_free : PrefixFree digest_wf id.
Proof. apply (prefix_free_fixed _ _ 32); [by intros x [? _]|done]. Qed.

#[export] Instance bytes_prefix_free : PrefixFree len_wf enc_bytes.
Proof.
  intros x y r s Hx Hy Heq. unfold enc_bytes in Heq. rewrite <-!app_assoc in Heq.
  apply u64_prefix_free in Heq as [Hlen%Nat2Z.inj Heq]; [|done..].
  by apply app_inj_1 in Heq.
Qed.
#[export] Instance string_prefix_free : PrefixFree string_wf enc_string.
Proof.
  intros x y r s Hx Hy Heq. unfold enc_string in Heq. apply bytes_prefix_free in Heq as [Heq ->].
  - by apply as_bytes_inj in Heq.
  - unfold len_wf. by rewrite length_as_bytes.
  - unfold len_wf. by rewrite length_as_bytes.
Qed.

(** Items of two equally long sequences are read off one by one. *)
Lemma concat_prefix {A} (enc : A → bytes) (xs ys : list A) r s :
  length xs = length ys →
  Forall (λ x, ∀ y r s, y ∈ ys → enc x ++ r = enc y ++ s → x = y ∧ r = s) xs →
  concat (map enc xs) ++ r = concat (map enc ys) ++ s → xs = ys ∧ r = s.
Proof.
  intros Hlen Hxs. revert ys Hlen Hxs. induction xs as [|x xs IH]; intros [|y ys] Hlen Hxs;
    try done; cbn in *; intros Heq.
  rewrite <-!app_assoc in Heq. apply Forall_cons_1 in Hxs as [Hx Hxs].
  destruct (Hx y _ _ ltac:(left) Heq) as [-> Heq'].
  apply IH in Heq' as [-> ->]; [done|lia|].
  eapply Forall_impl; [exact Hxs|]. intros z Hz w r' s' Hw. apply Hz. by right.
Qed.

#[export] Instance seq_prefix_free {A} (P : A → Prop) (enc : A → bytes) :
  PrefixFree P enc → PrefixFree (λ l, len_wf l ∧ Forall P l) (enc_seq enc).
Proof.
  intros Hpf x y r s [Hx Px] [Hy Py] Heq. unfold enc_seq in Heq. rewrite <-!app_assoc in Heq.
  apply u64_prefix_free in Heq as [Hlen%Nat2Z.inj Heq]; [|done..].
  apply concat_prefix in Heq; [done..|].
  eapply Forall_impl; [exact Px|]. intros z Hz w r' s' Hw. rewrite Forall_forall in Py. eauto.
Qed.

(** A tag byte, without looking into the fields behind it. *)
Lemma tag_prefix (x y : Z) (r s : bytes) : x :: r = y :: s → x = y ∧ r = s.
Proof. by intros [= -> ->]. Qed.

(** A digest function for evaluating the model on concrete inputs, where [blake3] is a parameter. *)
Definition checksum32 (bs : bytes) : Digest32 := be_bytes 32 (foldr Z.add 0 bs).

Lemma checksum32_length bs : length (checksum32 bs) = 32%nat.
Proof. apply length_be_bytes. Qed.
Lemma checksum32_wf bs : digest_wf (checksum32 bs).
Proof. split; [apply checksum32_length|apply be_bytes_ok]. Qed.
