(* ===== verification/Storage.v ===== *)
(** * The storage contract's logical data ([dtg-storage])

    [error.rs], the replica binding record of [binding.rs], the logical mutations, committed batches
    and receipts of [mutation.rs], and the change records of [read.rs].  The hash function is the
    third-party [blake3]: a parameter [blake3 : bytes → Digest32] of every definition that hashes.
    A [Hasher] that receives [update]s is the byte string it has been fed, so [encode_*] below
    return the bytes they append. *)

From S2P Require Import Prelude Kernel Encoding.
Open Scope Z_scope.

(** ** Bindings (the data of [binding.rs]) *)

Inductive ProviderKind := Fjall | PostgreSql | Kuzu | Remote (name : string).
Inductive BindingRole := Candidate | Active | Retiring.

Record ReplicaBinding := mkReplicaBinding {
  rb_cluster_id : ClusterId;
  rb_graph_id : GraphId;
  rb_shard_id : ShardId;
  rb_placement_epoch : PlacementEpoch;
  rb_replica_id : ReplicaId;
  rb_backend_generation : BackendGeneration;
  rb_backend_class_digest : Digest32;
  rb_provider_kind : ProviderKind;
  rb_contract_version : Z;
  rb_layout_version : Z;
  rb_capability_digest : Digest32;
  rb_namespace_id : string;
  rb_endpoint_profile_ref : string;
  rb_credential_ref : string;
  rb_role : BindingRole;
}.

#[export] Instance ProviderKind_eq_dec : EqDecision ProviderKind.
Proof. solve_decision. Defined.
#[export] Instance BindingRole_eq_dec : EqDecision BindingRole.
Proof. solve_decision. Defined.
#[export] Instance ReplicaBinding_eq_dec : EqDecision ReplicaBinding.
Proof. solve_decision. Defined.

(** ** Errors ([error.rs]) *)

Inductive StorageError :=
| InvalidBinding (message : string)
| InvalidCapability (message : string)
| InvalidMutation (message : string)
| InvalidBatch (message : string)
| InjectedApplyFailure (staged_mutations : Z)
| StaleBinding (expected actual : ReplicaBinding)
| NamespaceOwnerMismatch (expected actual : ReplicaBinding)
| NonMonotonicIndex (applied proposed : Z)
| ReplayMismatch (raft_index : Z)
| ReadFenceUnavailable (requested applied : Z)
| CapabilityDrift
| Unsupported
| CorruptSnapshot (message : string)
| SnapshotIdentityMismatch
| SnapshotNotExhausted
| InvalidConsensus (message : string)
| InvalidArtifact (message : string)
| NotFound
| TckViolation (message : string)
| Internal (message : string).

Definition StorageError_code (e : StorageError) : string :=
  match e with
  | InvalidBinding _ => "DTG-STORAGE-BINDING"
  | InvalidCapability _ => "DTG-STORAGE-CAPABILITY"
  | InvalidMutation _ => "DTG-STORAGE-MUTATION"
  | InvalidBatch _ => "DTG-STORAGE-BATCH"
  | InjectedApplyFailure _ => "DTG-STORAGE-INJECTED-APPLY"
  | StaleBinding _ _ => "DTG-STORAGE-STALE-BINDING"
  | NamespaceOwnerMismatch _ _ => "DTG-STORAGE-NAMESPACE-OWNER"
  | NonMonotonicIndex _ _ => "DTG-STORAGE-RAFT-INDEX"
  | ReplayMismatch _ => "DTG-STORAGE-REPLAY"
  | ReadFenceUnavailable _ _ => "DTG-STORAGE-READ-FENCE"
  | CapabilityDrift => "DTG-STORAGE-CAPABILITY-DRIFT"
  | Unsupported => "DTG-STORAGE-UNSUPPORTED"
  | CorruptSnapshot _ => "DTG-STORAGE-SNAPSHOT-CORRUPT"
  | SnapshotIdentityMismatch => "DTG-STORAGE-SNAPSHOT-IDENTITY"
  | SnapshotNotExhausted => "DTG-STORAGE-SNAPSHOT-NOT-EXHAUSTED"
  | InvalidConsensus _ => "DTG-STORAGE-CONSENSUS"
  | InvalidArtifact _ => "DTG-STORAGE-ARTIFACT"
  | NotFound => "DTG-STORAGE-NOT-FOUND"
  | TckViolation _ => "DTG-STORAGE-TCK"
  | Internal _ => "DTG-STORAGE-INTERNAL"
  end.

Definition StorageError_to_string (e : StorageError) : string :=
  match e with
  | InvalidBinding message | InvalidCapability message | InvalidMutation message
  | InvalidBatch message | CorruptSnapshot message | InvalidConsensus message
  | InvalidArtifact message | TckViolation message | Internal message =>
      StorageError_code e +:+ ": " +:+ message
  | StaleBinding _ _ => "stale replica binding"
  | NamespaceOwnerMismatch _ _ => "namespace owner does not match requested binding"
  | NonMonotonicIndex applied proposed =>
      "Raft index must advance monotonically: applied " +:+ pretty applied +:+
      ", proposed " +:+ pretty proposed
  | ReplayMismatch raft_index => "replay identity mismatch at Raft index " +:+ pretty raft_index
  | ReadFenceUnavailable requested applied =>
      "read fence " +:+ pretty requested +:+ " is unavailable at applied index " +:+ pretty applied
  | CapabilityDrift => "capability digest changed"
  | InjectedApplyFailure staged =>
      "injected apply failure after staging " +:+ pretty staged +:+ " mutations"
  | Unsupported => "operation is unsupported"
  | SnapshotIdentityMismatch => "snapshot logical identity does not match target"
  | SnapshotNotExhausted => "snapshot reader still contains unread chunks"
  | NotFound => "storage record was not found"
  end.

(** ** Entity versions and records ([mutation.rs]) *)

Abbreviation VertexId := Z (only parsing).
Abbreviation EdgeId := Z (only parsing).
Abbreviation CommandId := Z (only parsing).
(** [BTreeMap<String, Value>], as its bindings in ascending key order. *)
Abbreviation Properties := (list (string * Value)) (only parsing).

Definition VertexId_new (value : Z) : result StorageError VertexId :=
  if negb (value =? 0) then Ok value
  else Err (InvalidMutation "vertex identifier must be nonzero").
Definition EdgeId_new (value : Z) : result StorageError EdgeId :=
  if negb (value =? 0) then Ok value
  else Err (InvalidMutation "edge identifier must be nonzero").
Definition CommandId_new (value : Z) : result StorageError CommandId :=
  if negb (value =? 0) then Ok value
  else Err (InvalidBatch "command identifier must be nonzero").

Record VertexVersion := mkVertexVersion {
  v_id : VertexId;
  v_version : Version;
  v_valid_time : ValidInterval;
  v_transaction_time : TransactionTime;
  v_properties : Properties;
}.

Record EdgeVersion := mkEdgeVersion {
  e_id : EdgeId;
  e_source : VertexId;
  e_target : VertexId;
  e_edge_type : string;
  e_version : Version;
  e_valid_time : ValidInterval;
  e_transaction_time : TransactionTime;
  e_properties : Properties;
}.

Record VertexTombstone := mkVertexTombstone {
  vt_id : VertexId;
  vt_version : Version;
  vt_transaction_time : TransactionTime;
}.

Record EdgeTombstone := mkEdgeTombstone {
  et_id : EdgeId;
  et_version : Version;
  et_transaction_time : TransactionTime;
}.

Inductive TransactionState := Prepared | Committed | Aborted.

Record TransactionRecord := mkTransactionRecord {
  tr_id : TransactionId;
  tr_state : TransactionState;
  tr_transaction_time : TransactionTime;
  tr_record_digest : Digest32;
}.

Record ReplicaMetadata := mkReplicaMetadata {
  rm_name : string;
  rm_value : Value;
}.

Inductive LogicalMutation :=
| PutVertex (vertex : VertexVersion)
| DeleteVertex (tombstone : VertexTombstone)
| PutEdge (edge : EdgeVersion)
| DeleteEdge (tombstone : EdgeTombstone)
| PutTransaction (transaction : TransactionRecord)
| PutReplicaMetadata (metadata : ReplicaMetadata).

#[export] Instance VertexVersion_eq_dec : EqDecision VertexVersion.
Proof. solve_decision. Defined.
#[export] Instance EdgeVersion_eq_dec : EqDecision EdgeVersion.
Proof. solve_decision. Defined.
#[export] Instance VertexTombstone_eq_dec : EqDecision VertexTombstone.
Proof. solve_decision. Defined.
#[export] Instance EdgeTombstone_eq_dec : EqDecision EdgeTombstone.
Proof. solve_decision. Defined.
#[export] Instance TransactionState_eq_dec : EqDecision TransactionState.
Proof. solve_decision. Defined.
#[export] Instance TransactionRecord_eq_dec : EqDecision TransactionRecord.
Proof. solve_decision. Defined.
#[export] Instance ReplicaMetadata_eq_dec : EqDecision ReplicaMetadata.
Proof. solve_decision. Defined.
#[export] Instance LogicalMutation_eq_dec : EqDecision LogicalMutation.
Proof. solve_decision. Defined.

Definition validate_properties (properties : Properties) : result StorageError unit :=
  if existsb (λ p, bool_decide (p.1 = EmptyString)) properties
  then Err (InvalidMutation "property names must be nonempty")
  else Ok tt.

Definition VertexVersion_new (id : VertexId) (version : Version) (valid_time : ValidInterval)
    (transaction_time : TransactionTime) (properties : Properties)
    : result StorageError VertexVersion :=
  _ ← validate_properties properties;
  Ok (mkVertexVersion id version valid_time transaction_time properties).

Definition EdgeVersion_new (id : EdgeId) (source target : VertexId) (edge_type : string)
    (version : Version) (valid_time : ValidInterval) (transaction_time : TransactionTime)
    (properties : Properties) : result StorageError EdgeVersion :=
  if bool_decide (edge_type = EmptyString)
  then Err (InvalidMutation "edge type must be nonempty")
  else
    _ ← validate_properties properties;
    Ok (mkEdgeVersion id source target edge_type version valid_time transaction_time properties).

Definition TransactionRecord_new (id : TransactionId) (state : TransactionState)
    (transaction_time : TransactionTime) (record_digest : Digest32)
    : result StorageError TransactionRecord :=
  if bool_decide (record_digest = zero_digest)
  then Err (InvalidMutation "transaction record digest must be nonzero")
  else Ok (mkTransactionRecord id state transaction_time record_digest).

Definition ReplicaMetadata_new (name : string) (value : Value)
    : result StorageError ReplicaMetadata :=
  if bool_decide (name = EmptyString)
  then Err (InvalidMutation "replica metadata name must be nonempty")
  else Ok (mkReplicaMetadata name value).

(** ** Change records ([read.rs]) *)

Record ChangeCursor := mkChangeCursor { cc_raft_index : Z; cc_mutation_ordinal : Z }.
Record ChangeRecord := mkChangeRecord { cr_cursor : ChangeCursor; cr_mutation : LogicalMutation }.

(** ** The digest stream of mutations ([mutation.rs]) *)

Definition encode_interval (i : ValidInterval) : bytes :=
  be_bytes 8 (start i) ++ be_bytes 8 (end_ i).

Definition encode_string (s : string) : bytes :=
  be_bytes 8 (Z.of_nat (String.length s)) ++ as_bytes s.

Fixpoint encode_value (value : Value) : bytes :=
  match value with
  | VNull => [0]
  | VBoolean b => [1; if b then 1 else 0]
  | VInteger i => 2 :: be_bytes 8 i
  | VFloatBits u => 3 :: be_bytes 8 u
  | VBytes bs => 4 :: be_bytes 8 (Z.of_nat (length bs)) ++ bs
  | VString s => 5 :: encode_string s
  | VList vs => 6 :: be_bytes 8 (Z.of_nat (length vs)) ++ concat (map encode_value vs)
  | VMap m =>
      7 :: be_bytes 8 (Z.of_nat (length m)) ++
      concat (map (λ p, encode_string p.1 ++ encode_value p.2) m)
  end.

Definition encode_properties (properties : Properties) : bytes :=
  be_bytes 8 (Z.of_nat (length properties)) ++
  concat (map (λ p, encode_string p.1 ++ encode_value p.2) properties).

Definition encode_vertex (vertex : VertexVersion) : bytes :=
  be_bytes 16 (v_id vertex) ++ be_bytes 8 (v_version vertex) ++
  encode_interval (v_valid_time vertex) ++ be_bytes 8 (v_transaction_time vertex) ++
  encode_properties (v_properties vertex).

Definition encode_edge (edge : EdgeVersion) : bytes :=
  be_bytes 16 (e_id edge) ++ be_bytes 16 (e_source edge) ++ be_bytes 16 (e_target edge) ++
  encode_string (e_edge_type edge) ++ be_bytes 8 (e_version edge) ++
  encode_interval (e_valid_time edge) ++ be_bytes 8 (e_transaction_time edge) ++
  encode_properties (e_properties edge).

Definition transaction_state_tag (state : TransactionState) : Z :=
  match state with Prepared => 1 | Committed => 2 | Aborted => 3 end.

Definition encode_transaction (transaction : TransactionRecord) : bytes :=
  be_bytes 16 (tr_id transaction) ++ [transaction_state_tag (tr_state transaction)] ++
  be_bytes 8 (tr_transaction_time transaction) ++ tr_record_digest transaction.

Definition encode_metadata (metadata : ReplicaMetadata) : bytes :=
  encode_string (rm_name metadata) ++ encode_value (rm_value metadata).

Definition encode_mutation (mutation : LogicalMutation) : bytes :=
  match mutation with
  | PutVertex vertex => 1 :: encode_vertex vertex
  | DeleteVertex t =>
      2 :: be_bytes 16 (vt_id t) ++ be_bytes 8 (vt_version t) ++ be_bytes 8 (vt_transaction_time t)
  | PutEdge edge => 3 :: encode_edge edge
  | DeleteEdge t =>
      4 :: be_bytes 16 (et_id t) ++ be_bytes 8 (et_version t) ++ be_bytes 8 (et_transaction_time t)
  | PutTransaction t =>
      5 :: be_bytes 16 (tr_id t) ++ [transaction_state_tag (tr_state t)] ++
      be_bytes 8 (tr_transaction_time t) ++ tr_record_digest t
  | PutReplicaMetadata m => 6 :: encode_string (rm_name m) ++ encode_value (rm_value m)
  end.

Definition digest_mutations_preimage (mutations : list LogicalMutation) : bytes :=
  as_bytes "dtg-typed-mutations-v1" ++ be_bytes 8 (Z.of_nat (length mutations)) ++
  concat (map encode_mutation mutations).

(** ** Committed batches and receipts ([mutation.rs]) *)

Record CommittedShardBatch := mkCommittedShardBatch {
  csb_binding : ReplicaBinding;
  csb_raft_term : Z;
  csb_raft_index : Z;
  csb_command_id : CommandId;
  csb_mutation_digest : Digest32;
  csb_mutations : list LogicalMutation;
}.

Record ApplyReceipt := mkApplyReceipt {
  ar_binding : ReplicaBinding;
  ar_raft_term : Z;
  ar_raft_index : Z;
  ar_command_id : CommandId;
  ar_mutation_digest : Digest32;
  ar_replayed : bool;
}.

Definition ApplyReceipt_new (batch : CommittedShardBatch) (replayed : bool) : ApplyReceipt :=
  mkApplyReceipt (csb_binding batch) (csb_raft_term batch) (csb_raft_index batch)
    (csb_command_id batch) (csb_mutation_digest batch) replayed.

Section batch.
Context (blake3 : bytes → Digest32).

Definition digest_mutations (mutations : list LogicalMutation) : Digest32 :=
  blake3 (digest_mutations_preimage mutations).

Definition CommittedShardBatch_new (binding : ReplicaBinding) (raft_term raft_index : Z)
    (command_id : CommandId) (mutations : list LogicalMutation)
    : result StorageError CommittedShardBatch :=
  if (raft_term =? 0) || (raft_index =? 0)
  then Err (InvalidBatch "Raft term and index must be nonzero")
  else match mutations with
  | [] => Err (InvalidBatch "committed batch must contain at least one mutation")
  | _ =>
      Ok (mkCommittedShardBatch binding raft_term raft_index command_id
            (digest_mutations mutations) mutations)
  end.

Definition CommittedShardBatch_validate (self : CommittedShardBatch) : result StorageError unit :=
  if (csb_raft_term self =? 0) || (csb_raft_index self =? 0)
     || bool_decide (csb_mutations self = [])
  then Err (InvalidBatch "committed batch identity is incomplete")
  else if negb (bool_decide (csb_mutation_digest self = digest_mutations (csb_mutations self)))
  then Err (InvalidBatch "mutation digest does not match typed mutations")
  else Ok tt.
End batch.

(** ** Well-formed mutations: the ranges the constructors guarantee *)

Definition properties_wf (ps : Properties) : Prop :=
  len_wf ps ∧ Forall (λ p, string_wf p.1 ∧ value_wf p.2) ps.
Definition vertex_wf (v : VertexVersion) : Prop :=
  id128_wf (v_id v) ∧ in_u64 (v_version v) ∧ interval_wf (v_valid_time v) ∧
  time_wf (v_transaction_time v) ∧ properties_wf (v_properties v).
Definition edge_wf (e : EdgeVersion) : Prop :=
  id128_wf (e_id e) ∧ id128_wf (e_source e) ∧ id128_wf (e_target e) ∧
  string_wf (e_edge_type e) ∧ in_u64 (e_version e) ∧ interval_wf (e_valid_time e) ∧
  time_wf (e_transaction_time e) ∧ properties_wf (e_properties e).
Definition record_wf (t : TransactionRecord) : Prop :=
  id128_wf (tr_id t) ∧ time_wf (tr_transaction_time t) ∧ digest_wf (tr_record_digest t).
Definition mutation_wf (m : LogicalMutation) : Prop :=
  match m with
  | PutVertex v => vertex_wf v
  | DeleteVertex t => id128_wf (vt_id t) ∧ in_u64 (vt_version t) ∧ time_wf (vt_transaction_time t)
  | PutEdge e => edge_wf e
  | DeleteEdge t => id128_wf (et_id t) ∧ in_u64 (et_version t) ∧ time_wf (et_transaction_time t)
  | PutTransaction t => record_wf t
  | PutReplicaMetadata m => string_wf (rm_name m) ∧ value_wf (rm_value m)
  end.
Definition mutations_wf (ms : list LogicalMutation) : Prop := len_wf ms ∧ Forall mutation_wf ms.

(** ** The stream determines the mutations *)

Lemma encode_string_enc s : encode_string s = enc_string s.
Proof. unfold encode_string, enc_string, enc_bytes. by rewrite length_as_bytes. Qed.

#[export] Instance encode_string_prefix_free : PrefixFree string_wf encode_string.
Proof. intros x y r s. rewrite !encode_string_enc. apply string_prefix_free. Qed.

Lemma u64_len_prefix {A B} (x : list A) (y : list B) r s :
  len_wf x → len_wf y →
  be_bytes 8 (Z.of_nat (length x)) ++ r = be_bytes 8 (Z.of_nat (length y)) ++ s →
  length x = length y ∧ r = s.
Proof. intros Hx Hy Heq. apply u64_prefix_free in Heq as [?%Nat2Z.inj ?]; done. Qed.

(** One property: its name, then its value. *)
Lemma encode_entry_prefix k l x y r s :
  string_wf k → string_wf l →
  (∀ r s, encode_value x ++ r = encode_value y ++ s → x = y ∧ r = s) →
  (encode_string k ++ encode_value x) ++ r = (encode_string l ++ encode_value y) ++ s →
  (k, x) = (l, y) ∧ r = s.
Proof.
  intros Hk Hl Hxy Heq. rewrite <-!app_assoc in Heq.
  apply encode_string_prefix_free in Heq as [-> Heq]; [|done..].
  by apply Hxy in Heq as [-> ->].
Qed.

#[export] Instance encode_value_prefix_free : PrefixFree value_wf encode_value.
Proof.
  intros v. induction v as [| | | | | |vs IH|m IH] using value_ind'; intros w rv sv Hv Hw Heq;
    destruct Hw; cbn in Heq; apply tag_prefix in Heq as [Htag Heq]; try discriminate Htag;
    clear Htag; inversion Hv; subst; clear Hv; try done.
  - apply tag_prefix in Heq as [Hb ->]. by repeat case_match.
  - by apply i64_prefix_free in Heq as [-> ->].
  - by apply u64_prefix_free in Heq as [-> ->].
  - rewrite <-!app_assoc in Heq. apply u64_len_prefix in Heq as [? Heq]; [|done..].
    by apply app_inj_1 in Heq as [-> ->].
  - by apply encode_string_prefix_free in Heq as [-> ->].
  - rewrite <-!app_assoc in Heq. apply u64_len_prefix in Heq as [? Heq]; [|done..].
    apply concat_prefix in Heq as [-> ->]; [done..|]. rewrite Forall_forall in *. eauto.
  - rewrite <-!app_assoc in Heq. apply u64_len_prefix in Heq as [? Heq]; [|done..].
    apply concat_prefix in Heq as [-> ->]; [done..|]. rewrite Forall_forall in *.
    intros [k x] Hx [l y] r' s' Hy. apply encode_entry_prefix; [by apply (H4 (k, x))| |].
    + by apply (H0 (l, y)).
    + intros. by apply (IH (k, x) Hx); [apply (H5 (k, x))|apply (H1 (l, y))|].
Qed.

#[export] Instance encode_properties_prefix_free : PrefixFree properties_wf encode_properties.
Proof.
  intros x y r s. unfold encode_properties. apply (seq_prefix_free (λ p, string_wf p.1 ∧ value_wf p.2)).
  intros [k v] [l w] r' s' [Hk Hv] [Hl Hw] Heq. cbn in *.
  eapply encode_entry_prefix; [exact Hk|exact Hl| |exact Heq].
  intros. by eapply encode_value_prefix_free.
Qed.

#[export] Instance encode_interval_prefix_free : PrefixFree interval_wf encode_interval.
Proof.
  intros [a b] [c d] r s (Ha & Hb & _) (Hc & Hd & _) Heq. unfold encode_interval in Heq.
  cbn in *. rewrite <-!app_assoc in Heq.
  apply i64_prefix_free in Heq as [-> Heq]; [|done..].
  by apply i64_prefix_free in Heq as [-> ->].
Qed.

Lemma time_in_i64 t : time_wf t → in_i64 t.
Proof. by intros [? _]. Qed.
Lemma id128_in_u128 t : id128_wf t → in_u128 t.
Proof. by intros [? _]. Qed.
Lemma id_in_u64 t : id_wf t → in_u64 t.
Proof. by intros [? _]. Qed.
#[export] Hint Resolve time_in_i64 id128_in_u128 id_in_u64 : dtg_wf.

(** Read the leading field of the two streams equated by [H]. *)
Ltac peel H :=
  rewrite <-?app_assoc in H;
  let E := fresh "E" in
  first
    [ apply encode_interval_prefix_free in H as [E H]; [|by eauto with dtg_wf..]
    | apply encode_string_prefix_free in H as [E H]; [|by eauto with dtg_wf..]
    | apply encode_properties_prefix_free in H as [E H]; [|by eauto with dtg_wf..]
    | apply encode_value_prefix_free in H as [E H]; [|by eauto with dtg_wf..]
    | apply u128_prefix_free in H as [E H]; [|by eauto with dtg_wf..]
    | apply i64_prefix_free in H as [E H]; [|by eauto with dtg_wf..]
    | apply u64_prefix_free in H as [E H]; [|by eauto with dtg_wf..]
    | apply digest_prefix_free in H as [E H]; [|by eauto with dtg_wf..] ].

#[export] Instance encode_vertex_prefix_free : PrefixFree vertex_wf encode_vertex.
Proof.
  intros [] [] r s (? & ? & ? & ? & ?) (? & ? & ? & ? & ?) Heq. unfold encode_vertex in Heq.
  cbn in *. repeat peel Heq. by subst.
Qed.

#[export] Instance encode_edge_prefix_free : PrefixFree edge_wf encode_edge.
Proof.
  intros [] [] r s (? & ? & ? & ? & ? & ? & ? & ?) (? & ? & ? & ? & ? & ? & ? & ?) Heq.
  unfold encode_edge in Heq. cbn in *. repeat peel Heq. by subst.
Qed.

Lemma transaction_state_tag_inj a b : transaction_state_tag a = transaction_state_tag b → a = b.
Proof. by destruct a, b. Qed.

#[export] Instance encode_transaction_prefix_free : PrefixFree record_wf encode_transaction.
Proof.
  intros [] [] r s (? & ? & ?) (? & ? & ?) Heq. unfold encode_transaction in Heq. cbn in *.
  peel Heq. apply tag_prefix in Heq as [E1%transaction_state_tag_inj Heq].
  peel Heq. apply digest_prefix_free in Heq as [? ->]; [|done..]. by subst.
Qed.

#[export] Instance encode_mutation_prefix_free : PrefixFree mutation_wf encode_mutation.
Proof.
  intros [v|[]|e|[]|t|[]] [w|[]|f|[]|u|[]] r s Hx Hy Heq; cbn in *;
    apply tag_prefix in Heq as [Htag Heq]; try discriminate Htag; clear Htag.
  - by apply encode_vertex_prefix_free in Heq as [-> ->].
  - destruct Hx as (? & ? & ?), Hy as (? & ? & ?). repeat peel Heq. by subst.
  - by apply encode_edge_prefix_free in Heq as [-> ->].
  - destruct Hx as (? & ? & ?), Hy as (? & ? & ?). repeat peel Heq. by subst.
  - by apply (encode_transaction_prefix_free t u) in Heq as [-> ->].
  - destruct Hx, Hy. repeat peel Heq. by subst.
Qed.

Lemma digest_mutations_preimage_inj ms ns :
  mutations_wf ms → mutations_wf ns →
  digest_mutations_preimage ms = digest_mutations_preimage ns → ms = ns.
Proof.
  intros Hm Hn [_ Heq]%app_inj_1; [|done].
  apply (prefix_free_inj mutations_wf (enc_seq encode_mutation)); [apply _|done..].
Qed.

(** ** Properties *)

(** A batch that [new] builds validates, and a batch that carries its digest with other
    mutations validates only if it exhibits a collision of the hash function. *)
Theorem batch_tamper_evident (blake3 : bytes → Digest32) binding term index id ms ns batch :
  mutations_wf ms → mutations_wf ns →
  CommittedShardBatch_new blake3 binding term index id ms = Ok batch →
  CommittedShardBatch_validate blake3 batch = Ok tt ∧
  (CommittedShardBatch_validate blake3
     (mkCommittedShardBatch binding term index id (csb_mutation_digest batch) ns) = Ok tt →
   ns = ms ∨ ∃ x y, x ≠ y ∧ blake3 x = blake3 y).
Proof.
  intros Hms Hns. unfold CommittedShardBatch_new. intros Hnew. guard_in Hnew as Hti.
  destruct ms as [|m ms]; [done|]. injection Hnew as <-. unfold CommittedShardBatch_validate. cbn -[digest_mutations].
  rewrite Hti. cbn -[digest_mutations]. rewrite bool_decide_eq_true_2 by done. split; [done|].
  intros Hv. guard_in Hv as Hne. guard_in Hv as Hd. to_prop.
  destruct (decide (digest_mutations_preimage (m :: ms) = digest_mutations_preimage ns)) as [Hp|Hp].
  - left. symmetry. by apply digest_mutations_preimage_inj.
  - right. by exists (digest_mutations_preimage (m :: ms)), (digest_mutations_preimage ns).
Qed.

Definition example_binding : ReplicaBinding :=
  mkReplicaBinding 1 1 1 1 1 1 (replicate 32 1) Fjall 1 1 (replicate 32 2) "ns" "endpoint"
    "credential" Active.

Lemma batch_tamper_evident_witness :
  let ms := [DeleteVertex (mkVertexTombstone 7 1 3)] in
  let ns := [DeleteVertex (mkVertexTombstone 8 1 3)] in
  CommittedShardBatch_validate checksum32
    (mkCommittedShardBatch example_binding 1 1 1 (digest_mutations checksum32 ms) ms) = Ok tt ∧
  (CommittedShardBatch_validate checksum32
     (mkCommittedShardBatch example_binding 1 1 1 (digest_mutations checksum32 ms) ns) = Ok tt →
   ns = ms ∨ ∃ x y, x ≠ y ∧ checksum32 x = checksum32 y).
Proof.
  intros ms ns. apply (batch_tamper_evident checksum32 example_binding 1 1 1 ms ns);
    [repeat constructor; discriminate|repeat constructor; discriminate|reflexivity].
Defined.
