(* ===== verification/Binding.v ===== *)
(** * Bindings, backend classes and capabilities ([dtg-storage])

    [capability.rs]: capability manifests and their digest.  [binding.rs]: provider kinds, backend
    classes, namespaces, the binding builder and a binding's identity digest.  The record
    [ReplicaBinding] itself is in [Storage].  A [BTreeSet<String>] is the ascending list of its
    elements. *)

From S2P Require Import Prelude Text Kernel Encoding Storage.
Open Scope Z_scope.

(** ** Capabilities ([capability.rs]) *)

Record CapabilityManifest := mkCapabilityManifest {
  cm_names : list string;
  cm_digest : Digest32;
}.
#[export] Instance CapabilityManifest_eq_dec : EqDecision CapabilityManifest.
Proof. solve_decision. Defined.

Definition canonical_byte (byte : Z) : bool :=
  is_ascii_lowercase byte || is_ascii_digit byte || is_dash_or_dot byte.

Definition validate_capability_name (name : string) : result StorageError unit :=
  if negb (bool_decide (name = EmptyString)) && forallb canonical_byte (as_bytes name)
     && match head (as_bytes name) with Some b => is_ascii_lowercase b | None => false end
  then Ok tt
  else Err (InvalidCapability ("capability name is not canonical: " +:+ debug_string name)).

(** The loop of [from_names] over the set built so far. *)
Fixpoint canonical_names (names canonical : list string) : result StorageError (list string) :=
  match names with
  | [] => Ok canonical
  | name :: names =>
      _ ← validate_capability_name name;
      canonical_names names (set_insert name canonical)
  end.

Definition names_preimage (names : list string) : bytes :=
  as_bytes "dtg-capability-manifest-v1" ++ enc_seq encode_string names.

Section capability.
Context (blake3 : bytes → Digest32).

Definition digest_names (names : list string) : Digest32 := blake3 (names_preimage names).

Definition CapabilityManifest_from_names (names : list string) : result StorageError CapabilityManifest :=
  canonical ← canonical_names names [];
  Ok (mkCapabilityManifest canonical (digest_names canonical)).

Definition supports (self : CapabilityManifest) (name : string) : bool :=
  bool_decide (name ∈ cm_names self).

Definition contains_all (self required : CapabilityManifest) : bool :=
  forallb (supports self) (cm_names required).

Definition intersection (self other : CapabilityManifest) : CapabilityManifest :=
  let names := filter (λ name, supports other name = true) (cm_names self) in
  mkCapabilityManifest names (digest_names names).
End capability.

(** ** Backend classes ([binding.rs]) *)

Definition canonical_remote (name : string) : bool :=
  negb (bool_decide (name = EmptyString)) && forallb canonical_byte (as_bytes name).

(** The bytes [ProviderKind::encode] feeds the hasher. *)
Definition ProviderKind_encode (self : ProviderKind) : result StorageError bytes :=
  match self with
  | Fjall => Ok (as_bytes "fjall")
  | PostgreSql => Ok (as_bytes "postgresql")
  | Kuzu => Ok (as_bytes "kuzu")
  | Remote name =>
      if canonical_remote name
      then Ok (as_bytes "remote:" ++ encode_string name)
      else Err (InvalidBinding ("remote provider name is not canonical: " +:+ debug_string name))
  end.

Inductive DurabilityPolicy := DurableCommit | DurableCommitWithReplicaSync.
#[export] Instance DurabilityPolicy_eq_dec : EqDecision DurabilityPolicy.
Proof. solve_decision. Defined.

Definition durability_tag (self : DurabilityPolicy) : Z :=
  match self with DurableCommit => 1 | DurableCommitWithReplicaSync => 2 end.

Record BackendClass := mkBackendClass {
  bc_provider_kind : ProviderKind;
  bc_contract_version : Z;
  bc_layout_version : Z;
  bc_durability_policy : DurabilityPolicy;
  bc_required_capabilities : CapabilityManifest;
  bc_digest : Digest32;
}.
#[export] Instance BackendClass_eq_dec : EqDecision BackendClass.
Proof. solve_decision. Defined.

Section backend_class.
Context (blake3 : bytes → Digest32).

Definition BackendClass_with_durability (provider_kind : ProviderKind)
    (contract_version layout_version : Z) (durability_policy : DurabilityPolicy)
    (required_capabilities : list string) : result StorageError BackendClass :=
  if (contract_version =? 0) || (layout_version =? 0)
  then Err (InvalidBinding "backend contract and layout versions must be nonzero")
  else
    required_capabilities ← CapabilityManifest_from_names blake3 required_capabilities;
    provider ← ProviderKind_encode provider_kind;
    let digest := blake3 (as_bytes "dtg-backend-class-v1" ++ provider ++ be_bytes 4 contract_version ++
                          be_bytes 4 layout_version ++ [durability_tag durability_policy] ++
                          cm_digest required_capabilities) in
    Ok (mkBackendClass provider_kind contract_version layout_version durability_policy
          required_capabilities digest).

Definition BackendClass_new (provider_kind : ProviderKind) (contract_version layout_version : Z)
    (required_capabilities : list string) : result StorageError BackendClass :=
  BackendClass_with_durability provider_kind contract_version layout_version DurableCommit
    required_capabilities.
End backend_class.

(** ** Bindings ([binding.rs]) *)

Definition NamespaceId_new (value : string) : result StorageError string :=
  if bool_decide (value = EmptyString) || (255 <? Z.of_nat (String.length value)) || has_whitespace value
  then Err (InvalidBinding "namespace identifier must be nonempty, bounded, and whitespace-free")
  else Ok value.

Record ReplicaBindingBuilder := mkBindingBuilder {
  bb_cluster_id : Z;
  bb_graph_id : Z;
  bb_shard_id : Z;
  bb_placement_epoch : Z;
  bb_replica_id : Z;
  bb_backend_generation : Z;
  bb_backend_class_digest : option Digest32;
  bb_provider_kind : option ProviderKind;
  bb_contract_version : Z;
  bb_layout_version : Z;
  bb_capability_digest : option Digest32;
  bb_namespace_id : option string;
  bb_endpoint_profile_ref : option string;
  bb_credential_ref : option string;
  bb_role : option BindingRole;
}.

Definition to_builder (self : ReplicaBinding) : ReplicaBindingBuilder :=
  mkBindingBuilder (rb_cluster_id self) (rb_graph_id self) (rb_shard_id self)
    (rb_placement_epoch self) (rb_replica_id self) (rb_backend_generation self)
    (Some (rb_backend_class_digest self)) (Some (rb_provider_kind self)) (rb_contract_version self)
    (rb_layout_version self) (Some (rb_capability_digest self)) (Some (rb_namespace_id self))
    (Some (rb_endpoint_profile_ref self)) (Some (rb_credential_ref self)) (Some (rb_role self)).

Definition invalid_field (field : string) : StorageError :=
  InvalidBinding ("missing or invalid binding field: " +:+ field).

(** [.filter(|digest| digest.get() != [0; 32]).ok_or_else(|| invalid(field))]. *)
Definition nonzero_digest (value : option Digest32) (field : string) : result StorageError Digest32 :=
  match value with
  | Some d => if bool_decide (d = zero_digest) then Err (invalid_field field) else Ok d
  | None => Err (invalid_field field)
  end.

Definition nonempty_ref (value : option string) (field : string) : result StorageError string :=
  match value with
  | Some s => if is_blank s then Err (invalid_field field) else Ok s
  | None => Err (invalid_field field)
  end.

Definition field_id (value : Z) (field : string) : result StorageError Z :=
  map_err (λ _, invalid_field field) (nonzero_u64_identifier value).

Definition build (self : ReplicaBindingBuilder) : result StorageError ReplicaBinding :=
  cluster_id ← field_id (bb_cluster_id self) "cluster_id";
  graph_id ← field_id (bb_graph_id self) "graph_id";
  shard_id ← field_id (bb_shard_id self) "shard_id";
  placement_epoch ← field_id (bb_placement_epoch self) "placement_epoch";
  replica_id ← field_id (bb_replica_id self) "replica_id";
  backend_generation ← field_id (bb_backend_generation self) "backend_generation";
  backend_class_digest ← nonzero_digest (bb_backend_class_digest self) "backend_class_digest";
  provider_kind ← ok_or (invalid_field "provider_kind") (bb_provider_kind self);
  _ ← ProviderKind_encode provider_kind;
  if bb_contract_version self =? 0 then Err (invalid_field "contract_version")
  else if bb_layout_version self =? 0 then Err (invalid_field "layout_version")
  else
    capability_digest ← nonzero_digest (bb_capability_digest self) "capability_digest";
    namespace_id ← ok_or (invalid_field "namespace_id") (bb_namespace_id self);
    namespace_id ← NamespaceId_new namespace_id;
    endpoint_profile_ref ← nonempty_ref (bb_endpoint_profile_ref self) "endpoint_profile_ref";
    credential_ref ← nonempty_ref (bb_credential_ref self) "credential_ref";
    role ← ok_or (invalid_field "role") (bb_role self);
    Ok (mkReplicaBinding cluster_id graph_id shard_id placement_epoch replica_id backend_generation
          backend_class_digest provider_kind (bb_contract_version self) (bb_layout_version self)
          capability_digest namespace_id endpoint_profile_ref credential_ref role).

Definition role_tag (role : BindingRole) : Z :=
  match role with Candidate => 1 | Active => 2 | Retiring => 3 end.

(** The bytes [identity_digest] hashes, after those of the provider kind. *)
Definition identity_bytes (self : ReplicaBinding) (provider : bytes) : bytes :=
  as_bytes "dtg-replica-binding-v1" ++ be_bytes 8 (rb_cluster_id self) ++
  be_bytes 8 (rb_graph_id self) ++ be_bytes 8 (rb_shard_id self) ++
  be_bytes 8 (rb_placement_epoch self) ++ be_bytes 8 (rb_replica_id self) ++
  be_bytes 8 (rb_backend_generation self) ++ rb_backend_class_digest self ++ provider ++
  be_bytes 4 (rb_contract_version self) ++ be_bytes 4 (rb_layout_version self) ++
  rb_capability_digest self ++ encode_string (rb_namespace_id self) ++
  encode_string (rb_endpoint_profile_ref self) ++ encode_string (rb_credential_ref self) ++
  [role_tag (rb_role self)].

(** [None] is the panic of the [expect] on a provider kind that is not canonical. *)
Definition identity_digest (blake3 : bytes → Digest32) (self : ReplicaBinding) : option Digest32 :=
  match ProviderKind_encode (rb_provider_kind self) with
  | Ok provider => Some (blake3 (identity_bytes self provider))
  | Err _ => None
  end.

(** ** What the constructors guarantee *)

Definition text_wf (s : string) : Prop := str_ok s ∧ string_wf s.
Definition provider_wf (kind : ProviderKind) : Prop :=
  match kind with Remote name => canonical_remote name = true ∧ text_wf name | _ => True end.
Definition nonzero_digest_wf (d : Digest32) : Prop := digest_wf d ∧ d ≠ zero_digest.
Definition version_wf (v : Z) : Prop := in_u32 v ∧ v ≠ 0.
Definition namespace_wf (s : string) : Prop :=
  text_wf s ∧ s ≠ EmptyString ∧ Z.of_nat (String.length s) ≤ 255 ∧ has_whitespace s = false.
Definition ref_wf (s : string) : Prop := text_wf s ∧ is_blank s = false.

Record binding_wf (b : ReplicaBinding) : Prop := {
  bw_cluster : id_wf (rb_cluster_id b);
  bw_graph : id_wf (rb_graph_id b);
  bw_shard : id_wf (rb_shard_id b);
  bw_epoch : id_wf (rb_placement_epoch b);
  bw_replica : id_wf (rb_replica_id b);
  bw_generation : id_wf (rb_backend_generation b);
  bw_class : nonzero_digest_wf (rb_backend_class_digest b);
  bw_provider : provider_wf (rb_provider_kind b);
  bw_contract : version_wf (rb_contract_version b);
  bw_layout : version_wf (rb_layout_version b);
  bw_capability : nonzero_digest_wf (rb_capability_digest b);
  bw_namespace : namespace_wf (rb_namespace_id b);
  bw_endpoint : ref_wf (rb_endpoint_profile_ref b);
  bw_credential : ref_wf (rb_credential_ref b);
}.

(** What the Rust types alone guarantee of a builder. *)
Definition option_all {A} (P : A → Prop) (m : option A) : Prop :=
  match m with Some a => P a | None => True end.
Record builder_typed (b : ReplicaBindingBuilder) : Prop := {
  bt_cluster : in_u64 (bb_cluster_id b);
  bt_graph : in_u64 (bb_graph_id b);
  bt_shard : in_u64 (bb_shard_id b);
  bt_epoch : in_u64 (bb_placement_epoch b);
  bt_replica : in_u64 (bb_replica_id b);
  bt_generation : in_u64 (bb_backend_generation b);
  bt_class : option_all digest_wf (bb_backend_class_digest b);
  bt_provider :
    option_all (λ kind, match kind with Remote name => text_wf name | _ => True end) (bb_provider_kind b);
  bt_contract : in_u32 (bb_contract_version b);
  bt_layout : in_u32 (bb_layout_version b);
  bt_capability : option_all digest_wf (bb_capability_digest b);
  bt_namespace : option_all text_wf (bb_namespace_id b);
  bt_endpoint : option_all text_wf (bb_endpoint_profile_ref b);
  bt_credential : option_all text_wf (bb_credential_ref b);
}.

(** ** Lemmas *)

Lemma field_id_Ok value field id : field_id value field = Ok id ↔ id = value ∧ value ≠ 0.
Proof.
  unfold field_id, nonzero_u64_identifier. destruct (Z.eqb_spec value 0); cbn; naive_solver.
Qed.
Lemma nonzero_digest_Ok value field d :
  nonzero_digest value field = Ok d ↔ value = Some d ∧ d ≠ zero_digest.
Proof.
  unfold nonzero_digest. destruct value as [d'|]; [|naive_solver].
  case_bool_decide; naive_solver.
Qed.
Lemma nonempty_ref_Ok value field s : nonempty_ref value field = Ok s ↔ value = Some s ∧ is_blank s = false.
Proof.
  unfold nonempty_ref. destruct value as [s'|]; [|naive_solver].
  destruct (is_blank s') eqn:Hb; split; [done| |intros [= <-]; done|]; intros [[= ->] ?]; congruence.
Qed.
Lemma NamespaceId_new_Ok value s :
  NamespaceId_new value = Ok s ↔
  s = value ∧ s ≠ EmptyString ∧ Z.of_nat (String.length s) ≤ 255 ∧ has_whitespace s = false.
Proof.
  unfold NamespaceId_new. case_match eqn:H; split.
  - done.
  - intros (-> & ? & ? & ?). rewrite !orb_true_iff, bool_decide_eq_true, Z.ltb_lt in H.
    destruct H as [[?|?]|?]; [done|lia|congruence].
  - intros [= <-]. by to_prop.
  - by intros (-> & _).
Qed.

Lemma ProviderKind_encode_Ok kind :
  (∃ bs, ProviderKind_encode kind = Ok bs) ↔
  match kind with Remote name => canonical_remote name = true | _ => True end.
Proof.
  destruct kind as [| | |name]; cbn [ProviderKind_encode]; [naive_solver..|].
  destruct (canonical_remote name); split; try done; [by eauto|by intros [? ?]].
Qed.

(** The canonical names of the kinds are told apart by their first byte. *)
Lemma provider_prefix k1 k2 e1 e2 r s :
  provider_wf k1 → provider_wf k2 → ProviderKind_encode k1 = Ok e1 → ProviderKind_encode k2 = Ok e2 →
  e1 ++ r = e2 ++ s → k1 = k2 ∧ r = s.
Proof.
  intros H1 H2 He1 He2 Heq.
  destruct k1 as [| | |n1], k2 as [| | |n2]; cbn [ProviderKind_encode] in He1, He2;
    repeat case_match; try discriminate; apply (inj Ok) in He1 as <-; apply (inj Ok) in He2 as <-;
    try discriminate Heq.
  1-3: by apply app_inj_1 in Heq as [_ ->].
  rewrite <-!app_assoc in Heq. apply app_inj_1 in Heq as [_ Heq]; [|done].
  destruct H1 as (_ & _ & ?), H2 as (_ & _ & ?).
  by apply encode_string_prefix_free in Heq as [-> ->].
Qed.

Lemma role_tag_inj r s : role_tag r = role_tag s → r = s.
Proof. by destruct r, s. Qed.

Lemma identity_bytes_inj b1 b2 e1 e2 :
  binding_wf b1 → binding_wf b2 →
  ProviderKind_encode (rb_provider_kind b1) = Ok e1 → ProviderKind_encode (rb_provider_kind b2) = Ok e2 →
  identity_bytes b1 e1 = identity_bytes b2 e2 → b1 = b2.
Proof.
  intros [] [] He1 He2 [_ Heq]%app_inj_1; [|done]. destruct b1, b2; cbn in *.
  repeat match goal with
  | H : nonzero_digest_wf _ |- _ => destruct H as [? _]
  | H : version_wf _ |- _ => destruct H as [? _]
  | H : ref_wf _ |- _ => destruct H as [[_ ?] _]
  | H : namespace_wf _ |- _ => destruct H as [[_ ?] _]
  end.
  do 7 peel Heq. rewrite <-?app_assoc in Heq.
  apply (provider_prefix _ _ _ _ _ _ bw_provider0 bw_provider1 He1 He2) in Heq as [? Heq].
  do 2 (apply u32_prefix_free in Heq as [? Heq]; [|done..]).
  do 4 peel Heq. injection Heq as ?%role_tag_inj. by subst.
Qed.

(** A binding has an identity digest, and equal digests mean equal bindings or a collision. *)
Lemma identity_digest_Some blake3 b : binding_wf b → is_Some (identity_digest blake3 b).
Proof.
  intros Hb. unfold identity_digest.
  destruct (proj2 (ProviderKind_encode_Ok (rb_provider_kind b))) as [bs ->]; [|by eauto].
  pose proof (bw_provider b Hb) as Hp. by destruct (rb_provider_kind b); [..|destruct Hp].
Qed.

Lemma identity_digest_inj blake3 b1 b2 :
  binding_wf b1 → binding_wf b2 → identity_digest blake3 b1 = identity_digest blake3 b2 →
  b1 = b2 ∨ ∃ x y, x ≠ y ∧ blake3 x = blake3 y.
Proof.
  intros H1 H2 Heq. destruct (identity_digest_Some blake3 b1 H1) as [d Hd].
  rewrite Hd in Heq. symmetry in Heq. unfold identity_digest in Hd, Heq.
  destruct (ProviderKind_encode (rb_provider_kind b1)) as [e1|] eqn:He1; [|done].
  destruct (ProviderKind_encode (rb_provider_kind b2)) as [e2|] eqn:He2; [|done].
  simplify_eq. destruct (decide (identity_bytes b1 e1 = identity_bytes b2 e2)) as [Hi|Hi].
  - left. by eapply identity_bytes_inj.
  - right. by eauto.
Qed.

Lemma binding_build :
  (∀ b binding, builder_typed b → build b = Ok binding → binding_wf binding) ∧
  (∀ binding, binding_wf binding → build (to_builder binding) = Ok binding).
Proof.
  split.
  - intros b binding [] Hb. unfold build in Hb. bind_all Hb.
    guard_in Hb as Hc. guard_in Hb as Hl. bind_all Hb. apply (inj Ok) in Hb as <-. to_prop.
    repeat match goal with
    | H : field_id _ _ = Ok _ |- _ => apply field_id_Ok in H as [-> ?]
    | H : nonzero_digest _ _ = Ok _ |- _ => apply nonzero_digest_Ok in H as [H ?]; rewrite H in *
    | H : nonempty_ref _ _ = Ok _ |- _ => apply nonempty_ref_Ok in H as [H ?]; rewrite H in *
    | H : ok_or _ _ = Ok _ |- _ => apply ok_or_Ok in H; rewrite H in *
    | H : NamespaceId_new _ = Ok _ |- _ => apply NamespaceId_new_Ok in H as (-> & ? & ? & ?)
    end.
    cbn [option_all] in *. constructor; cbn; try by split; try by eauto using conj.
    destruct a6; try done. split; [|done]. apply (ProviderKind_encode_Ok (Remote _)). by eauto.
  - intros binding []. destruct (proj2 (ProviderKind_encode_Ok (rb_provider_kind binding))) as [bs Hbs].
    { by destruct (rb_provider_kind binding); [..|destruct bw_provider0]. }
    destruct bw_namespace0 as (? & ? & ? & ?).
    assert (rb_contract_version binding =? 0 = false) as Hc by (apply Z.eqb_neq, bw_contract0).
    assert (rb_layout_version binding =? 0 = false) as Hl by (apply Z.eqb_neq, bw_layout0).
    unfold id_wf, nonzero_digest_wf, ref_wf in *. unfold build, to_builder.
    cbn [bb_cluster_id bb_graph_id bb_shard_id bb_placement_epoch bb_replica_id bb_backend_generation
         bb_backend_class_digest bb_provider_kind bb_contract_version bb_layout_version
         bb_capability_digest bb_namespace_id bb_endpoint_profile_ref bb_credential_ref bb_role].
    repeat (rewrite ?Hc, ?Hl; apply bind_Ok; eexists; split;
      [first [apply field_id_Ok; split; [done|tauto]
             |apply nonzero_digest_Ok; split; [done|tauto]
             |apply nonempty_ref_Ok; split; [done|tauto]
             |by apply ok_or_Ok|exact Hbs|by apply NamespaceId_new_Ok]|]).
    by destruct binding.
Qed.

(** ** Classes built from their own names *)

Lemma canonical_names_Ok names canonical names' :
  StronglySorted string_lt canonical → Forall (λ n, validate_capability_name n = Ok tt) canonical →
  canonical_names names canonical = Ok names' →
  StronglySorted string_lt names' ∧ Forall (λ n, validate_capability_name n = Ok tt) names'.
Proof.
  revert canonical. induction names as [|name names IH]; cbn; intros canonical Hs Hv Hc; [by simplify_eq|].
  apply bind_Ok in Hc as ([] & Hn & Hc). eapply IH; [by apply set_insert_sorted| |done].
  rewrite Forall_forall in *. intros x [->|?]%elem_of_set_insert; auto.
Qed.

Lemma canonical_names_id names canonical :
  StronglySorted string_lt (canonical ++ names) → Forall (λ n, validate_capability_name n = Ok tt) names →
  canonical_names names canonical = Ok (canonical ++ names).
Proof.
  revert canonical. induction names as [|name names IH]; cbn; intros canonical Hs Hv; [by rewrite app_nil_r|].
  apply Forall_cons in Hv as [-> Hv]. cbn. pose proof Hs as (Hlt & _ & _)%StronglySorted_app.
  rewrite set_insert_last.
  - rewrite IH; [by rewrite <-app_assoc| |done]. by rewrite <-app_assoc.
  - apply Forall_forall. intros x Hx. apply Hlt; [done|]. left.
Qed.

(** A backend class is rebuilt from its fields and the names of its capabilities. *)
Definition class_rebuilt (blake3 : bytes → Digest32) (class : BackendClass) : Prop :=
  BackendClass_with_durability blake3 (bc_provider_kind class) (bc_contract_version class)
    (bc_layout_version class) (bc_durability_policy class) (cm_names (bc_required_capabilities class)) =
  Ok class.

Lemma with_durability_rebuilt blake3 kind contract layout policy names class :
  BackendClass_with_durability blake3 kind contract layout policy names = Ok class →
  class_rebuilt blake3 class.
Proof.
  unfold class_rebuilt, BackendClass_with_durability. intros Hc. guard_in Hc as Hv.
  apply bind_Ok in Hc as (manifest & Hm & (provider & Hp & [= <-])%bind_Ok). cbn. rewrite Hv.
  unfold CapabilityManifest_from_names in *. apply bind_Ok in Hm as (canonical & Hn & [= <-]). cbn.
  apply canonical_names_Ok in Hn as [Hs Hall]; [|constructor..].
  rewrite (canonical_names_id canonical [] Hs Hall). cbn. by rewrite Hp.
Qed.

(** ** Theorems *)

(** C37. What a binding is: every binding the builder accepts has nonzero identifiers, digests and
    versions, a canonical provider, a nonempty bounded namespace without white space and references
    that are not blank; the builder of such a binding builds it back; and its identity digest exists
    without a panic and identifies it, up to collisions of the hash. *)
Theorem binding_type (blake3 : bytes → Digest32) :
  (∀ b binding, builder_typed b → build b = Ok binding → binding_wf binding) ∧
  (∀ binding, binding_wf binding →
     build (to_builder binding) = Ok binding ∧ is_Some (identity_digest blake3 binding)) ∧
  (∀ b1 b2, binding_wf b1 → binding_wf b2 → identity_digest blake3 b1 = identity_digest blake3 b2 →
     b1 = b2 ∨ ∃ x y, x ≠ y ∧ blake3 x = blake3 y).
Proof.
  destruct binding_build as [Hwf Hround]. split; [done|]. split.
  - intros binding Hb. split; [by apply Hround|by apply identity_digest_Some].
  - apply identity_digest_inj.
Qed.
