(* ===== verification/ShardWire.v ===== *)
(** * The shard's errors and the wire format of its commands
    ([dtg-shard/src/state_machine.rs], [dtg-shard/src/command.rs])

    [Encoder] and [Decoder] of [command.rs] with their budgets: the encoded size, the number of
    allocated items and the nesting depth of values.  An encoder is the bytes written so far; a
    decoder is the bytes after its offset and what is left of its allocation budget. *)

From S2P Require Import Prelude Text Kernel Encoding Storage.
Open Scope Z_scope.

(** ** Errors ([state_machine.rs]) *)

(** [ShardRaft] carries the text of the consensus library's error.  [ShardPanic] is not an error of
    the source: it stands for a panic (an [expect], an [unreachable!] or an index out of range). *)
Inductive ShardError :=
| InvalidCommand (message : string)
| UnsupportedCommandVersion (version : Z)
| InvalidRaftState (message : string)
| SnapshotStateMissing (snapshot_index applied_index : Z)
| InvalidLifecycle (message : string)
| DuplicateReplica
| HeterogeneousGeneration
| ReplicaNotFound
| ShardRaft (message : string)
| StalePlacementEpoch (expected actual : Z)
| StaleBackendGeneration (expected actual : Z)
| ShardWriteConflict
| HomeDecisionConflict
| CorruptIntentHistory (message : string)
| BindingMismatch
| ShardStorage (error : StorageError)
| ShardPanic.

Definition ShardError_code (e : ShardError) : string :=
  match e with
  | InvalidCommand _ => "DTG-SHARD-COMMAND"
  | UnsupportedCommandVersion _ => "DTG-SHARD-COMMAND-VERSION"
  | InvalidRaftState _ => "DTG-SHARD-RAFT-STATE"
  | SnapshotStateMissing _ _ => "DTG-SHARD-SNAPSHOT-STATE"
  | InvalidLifecycle _ => "DTG-SHARD-LIFECYCLE"
  | DuplicateReplica => "DTG-SHARD-DUPLICATE-REPLICA"
  | HeterogeneousGeneration => "DTG-SHARD-HETEROGENEOUS-GENERATION"
  | ReplicaNotFound => "DTG-SHARD-REPLICA-NOT-FOUND"
  | ShardRaft _ => "DTG-SHARD-RAFT"
  | StalePlacementEpoch _ _ => "DTG-SHARD-STALE-EPOCH"
  | StaleBackendGeneration _ _ => "DTG-SHARD-STALE-GENERATION"
  | ShardWriteConflict => "DTG-SHARD-WRITE-CONFLICT"
  | HomeDecisionConflict => "DTG-SHARD-HOME-DECISION-CONFLICT"
  | CorruptIntentHistory _ => "DTG-SHARD-INTENT-HISTORY"
  | BindingMismatch => "DTG-SHARD-BINDING"
  | ShardStorage error => StorageError_code error
  | ShardPanic => ""
  end.

Definition ShardError_to_string (e : ShardError) : string :=
  match e with
  | InvalidCommand message | InvalidRaftState message | InvalidLifecycle message
  | CorruptIntentHistory message | ShardRaft message => message
  | UnsupportedCommandVersion version => "unsupported Shard command version " +:+ pretty version
  | SnapshotStateMissing snapshot_index applied_index =>
      "snapshot index " +:+ pretty snapshot_index +:+
      " is ahead of business-store applied index " +:+ pretty applied_index
  | DuplicateReplica => "replica already exists on this host"
  | HeterogeneousGeneration =>
      "replicas in one active Shard generation must share a backend class"
  | ReplicaNotFound => "replica is not hosted on this node"
  | StalePlacementEpoch expected actual =>
      "stale placement epoch: expected " +:+ pretty expected +:+ ", got " +:+ pretty actual
  | StaleBackendGeneration expected actual =>
      "stale backend generation: expected " +:+ pretty expected +:+ ", got " +:+ pretty actual
  | ShardWriteConflict => "temporal write conflict"
  | HomeDecisionConflict => "Home decision is already durably resolved differently"
  | BindingMismatch => "state store binding does not match replica binding"
  | ShardStorage error => StorageError_to_string error
  | ShardPanic => ""
  end.

(** The conversions [?] applies. *)
Definition lift_store {A} (m : result StorageError A) : result ShardError A :=
  map_err ShardStorage m.
Definition lift_kernel {A} (m : result KernelError A) : result ShardError A :=
  map_err (λ e, InvalidCommand (KernelError_to_string e)) m.

Definition invalid (message : string) : ShardError := InvalidCommand message.
Definition invalid_command_shape (message : string) : ShardError := InvalidCommand message.

(** ** Limits *)

Definition MAX_TRANSACTION_INTENT_BYTES : Z := 4 * 1024 * 1024.
Definition MAX_TRANSACTION_INTENT_ITEMS : Z := 4096.
Definition MAX_COMMAND_BYTES : Z := 16 * 1024 * 1024.
Definition MAX_COLLECTION_ITEMS : Z := 1000000.
Definition MAX_ALLOCATION_ITEMS : Z := 65536.
Definition MAX_VALUE_DEPTH : Z := 64.

Definition len {A} (l : list A) : Z := Z.of_nat (length l).

(** [AllocationBudget::consume]. *)
Definition consume (remaining count : Z) : result ShardError Z :=
  if remaining <? count then Err (invalid "command collection exceeds allocation budget")
  else Ok (remaining - count).

(** [for x in l { f(..)?; }] over an accumulator. *)
Section try_fold.
Context {E A S : Type} (f : A → S → result E S).
Fixpoint try_fold (l : list A) (s : S) : result E S :=
  match l with
  | [] => Ok s
  | x :: l => match f x s with Ok s => try_fold l s | Err e => Err e end
  end.
End try_fold.

(** ** Encoding *)

(** [len().try_into().map_err(..)] to a [u32]. *)
Definition u32_of_len (n : Z) (message : string) : result ShardError Z :=
  if n <? 2 ^ 32 then Ok n else Err (invalid message).

Definition encoder_finish (e : bytes) : result ShardError bytes :=
  if MAX_COMMAND_BYTES <? len e then Err (invalid "command exceeds maximum encoded size") else Ok e.

Definition encoder_bytes (value : bytes) (e : bytes) : result ShardError bytes :=
  n ← u32_of_len (len value) "command field exceeds u32 length";
  let e := e ++ be_bytes 4 n ++ value in
  if MAX_COMMAND_BYTES <? len e then Err (invalid "command exceeds maximum encoded size") else Ok e.

Definition encoder_string (value : string) (e : bytes) : result ShardError bytes :=
  encoder_bytes (as_bytes value) e.

Definition encoder_transaction (t : TransactionRecord) (e : bytes) : bytes :=
  e ++ be_bytes 16 (tr_id t) ++ [transaction_state_tag (tr_state t)] ++
  be_bytes 8 (tr_transaction_time t) ++ be_bytes 4 32 ++ tr_record_digest t.

(** The bytes written and the budget left. *)
Abbreviation enc_state := (bytes * Z)%type (only parsing).

(** The count of a collection: its limit, the [u32], and its cost. *)
Definition encoder_count (n : Z) (message : string) (st : enc_state) : result ShardError enc_state :=
  if MAX_COLLECTION_ITEMS <? n then Err (invalid message)
  else
    c ← u32_of_len n message;
    budget ← consume st.2 n;
    Ok (st.1 ++ be_bytes 4 c, budget).

Definition put (bs : bytes) (st : enc_state) : enc_state := (st.1 ++ bs, st.2).
Definition put_bytes (bs : bytes) (st : enc_state) : result ShardError enc_state :=
  e ← encoder_bytes bs st.1; Ok (e, st.2).
Definition put_string (s : string) (st : enc_state) : result ShardError enc_state :=
  put_bytes (as_bytes s) st.

Fixpoint encoder_value (value : Value) (depth : Z) (st : enc_state) : result ShardError enc_state :=
  if MAX_VALUE_DEPTH <? depth then Err (invalid "command value exceeds nesting depth budget")
  else
    match value with
    | VNull => Ok (put [0] st)
    | VBoolean b => Ok (put [1; if b then 1 else 0] st)
    | VInteger i => Ok (put (2 :: be_bytes 8 i) st)
    | VFloatBits u => Ok (put (3 :: be_bytes 8 u) st)
    | VBytes bs => put_bytes bs (put [4] st)
    | VString s => put_string s (put [5] st)
    | VList vs =>
        st ← encoder_count (len vs) "value list is too large" (put [6] st);
        try_fold (λ v st, encoder_value v (depth + 1) st) vs st
    | VMap m =>
        st ← encoder_count (len m) "value map is too large" (put [7] st);
        try_fold (λ p st, st ← put_string p.1 st; encoder_value p.2 (depth + 1) st) m st
    end.

Definition encoder_properties (properties : Properties) (st : enc_state) : result ShardError enc_state :=
  st ← encoder_count (len properties) "too many properties" st;
  try_fold (λ p st, st ← put_string p.1 st; encoder_value p.2 0 st) properties st.

Definition put_interval (i : ValidInterval) (st : enc_state) : enc_state :=
  put (be_bytes 8 (start i) ++ be_bytes 8 (end_ i)) st.

Definition encoder_mutation (mutation : LogicalMutation) (st : enc_state) : result ShardError enc_state :=
  match mutation with
  | PutVertex v =>
      let st := put (1 :: be_bytes 16 (v_id v) ++ be_bytes 8 (v_version v)) st in
      let st := put_interval (v_valid_time v) st in
      encoder_properties (v_properties v) (put (be_bytes 8 (v_transaction_time v)) st)
  | DeleteVertex t =>
      Ok (put (2 :: be_bytes 16 (vt_id t) ++ be_bytes 8 (vt_version t) ++
               be_bytes 8 (vt_transaction_time t)) st)
  | PutEdge e =>
      let st := put (3 :: be_bytes 16 (e_id e) ++ be_bytes 16 (e_source e) ++
                     be_bytes 16 (e_target e)) st in
      st ← put_string (e_edge_type e) st;
      let st := put_interval (e_valid_time e) (put (be_bytes 8 (e_version e)) st) in
      encoder_properties (e_properties e) (put (be_bytes 8 (e_transaction_time e)) st)
  | DeleteEdge t =>
      Ok (put (4 :: be_bytes 16 (et_id t) ++ be_bytes 8 (et_version t) ++
               be_bytes 8 (et_transaction_time t)) st)
  | PutTransaction t =>
      put_bytes (tr_record_digest t)
        (put (5 :: be_bytes 16 (tr_id t) ++ [transaction_state_tag (tr_state t)] ++
              be_bytes 8 (tr_transaction_time t)) st)
  | PutReplicaMetadata m =>
      st ← put_string (rm_name m) (put [6] st);
      encoder_value (rm_value m) 0 st
  end.

Definition encoder_mutations (mutations : list LogicalMutation) (e : bytes) : result ShardError bytes :=
  st ← encoder_count (len mutations) "too many logical mutations" (e, MAX_ALLOCATION_ITEMS);
  st ← try_fold encoder_mutation mutations st;
  Ok st.1.

(** ** Decoding *)

Record Decoder := mkDecoder { d_rest : bytes; d_budget : Z }.

(** A method of [Decoder]: it moves the offset and consumes the budget. *)
Definition decoder (A : Type) : Type := Decoder → result ShardError (A * Decoder).
#[export] Instance decoder_ret : MRet decoder := λ A a d, Ok (a, d).
#[export] Instance decoder_bind : MBind decoder := λ A B k m d,
  match m d with Ok (a, d) => k a d | Err e => Err e end.

(** [?] on a result that does not read. *)
Definition dlift {A} (m : result ShardError A) : decoder A :=
  λ d, match m with Ok a => Ok (a, d) | Err e => Err e end.
Definition dfail {A} (message : string) : decoder A := λ _, Err (invalid message).

Definition decoder_new (bs : bytes) : result ShardError Decoder :=
  if (len bs =? 0) || (MAX_COMMAND_BYTES <? len bs)
  then Err (invalid "command bytes are empty or oversized")
  else Ok (mkDecoder bs MAX_ALLOCATION_ITEMS).

Definition is_finished (d : Decoder) : bool := bool_decide (d_rest d = []).
Definition decoder_finish : decoder unit := λ d,
  if is_finished d then Ok (tt, d) else Err (invalid "command contains trailing bytes").

Definition take_bytes (count : Z) : decoder bytes := λ d,
  if len (d_rest d) <? count then Err (invalid "truncated command")
  else Ok (take (Z.to_nat count) (d_rest d), mkDecoder (drop (Z.to_nat count) (d_rest d)) (d_budget d)).

Definition decoder_u8 : decoder Z := bs ← take_bytes 1; mret (be_value bs).
Definition decoder_u32 : decoder Z := bs ← take_bytes 4; mret (be_value bs).
Definition decoder_u64 : decoder Z := bs ← take_bytes 8; mret (be_value bs).
Definition decoder_u128 : decoder Z := bs ← take_bytes 16; mret (be_value bs).
Definition decoder_i64 : decoder Z := bs ← take_bytes 8; mret (i64_of_be_bytes bs).
Definition decoder_bytes : decoder bytes := n ← decoder_u32; take_bytes n.

Definition decoder_string : decoder string :=
  bs ← decoder_bytes;
  if utf8_valid bs then mret (string_of_bytes bs) else dfail "command string is not UTF-8".

Definition fixed_32 : decoder Digest32 :=
  value ← decoder_bytes;
  if len value =? 32 then mret value else dfail "digest must contain exactly 32 bytes".

Definition decode_transaction_state (tag : Z) : result ShardError TransactionState :=
  if tag =? 1 then Ok Prepared else if tag =? 2 then Ok Committed else if tag =? 3 then Ok Aborted
  else Err (invalid "unknown transaction state").

Definition decoder_transaction : decoder TransactionRecord :=
  id ← decoder_u128; id ← dlift (lift_kernel (TransactionId_new id));
  tag ← decoder_u8; state ← dlift (decode_transaction_state tag);
  t ← decoder_i64; t ← dlift (lift_kernel (TransactionTime_new t));
  digest ← fixed_32;
  dlift (lift_store (TransactionRecord_new id state t digest)).

Definition decoder_count : decoder Z :=
  count ← decoder_u32;
  if MAX_COLLECTION_ITEMS <? count then dfail "command collection exceeds item limit" else mret count.

Definition decoder_consume (count : Z) : decoder unit := λ d,
  budget ← consume (d_budget d) count; Ok (tt, mkDecoder (d_rest d) budget).

Definition collection_count : decoder Z :=
  count ← decoder_count; _ ← decoder_consume count; mret count.

Definition decoder_interval : decoder ValidInterval :=
  s ← decoder_i64; e ← decoder_i64; dlift (lift_kernel (ValidInterval_new s e)).

(** [for _ in 0..count { .. }]. *)
Fixpoint times {T} (count : nat) (f : T → decoder T) (s : T) : decoder T :=
  match count with
  | O => mret s
  | S count => s ← f s; times count f s
  end.

(** [BTreeMap<String, V>::insert] on the bindings in ascending order of the keys' bytes; [None] when
    the key was present ([insert(..).is_some()]). *)
Fixpoint btree_insert {V} (k : string) (v : V) (m : list (string * V)) : option (list (string * V)) :=
  match m with
  | [] => Some [(k, v)]
  | (l, w) :: m =>
      match String.compare k l with
      | Lt => Some ((k, v) :: (l, w) :: m)
      | Eq => None
      | Gt => cons (l, w) <$> btree_insert k v m
      end
  end.

Definition insert_entry {V} (item : decoder V) (duplicate : string) (m : list (string * V))
    : decoder (list (string * V)) :=
  name ← decoder_string;
  value ← item;
  match btree_insert name value m with Some m => mret m | None => dfail duplicate end.

(** [value(depth)]; [fuel] is [MAX_VALUE_DEPTH + 1 - depth], so that [O] is the depth check. *)
Fixpoint decoder_value (fuel : nat) : decoder Value :=
  match fuel with
  | O => dfail "command value exceeds nesting depth budget"
  | S fuel =>
      tag ← decoder_u8;
      if tag =? 0 then mret VNull
      else if tag =? 1 then
        b ← decoder_u8;
        if b =? 0 then mret (VBoolean false) else if b =? 1 then mret (VBoolean true)
        else dfail "invalid Boolean value"
      else if tag =? 2 then i ← decoder_i64; mret (VInteger i)
      else if tag =? 3 then u ← decoder_u64; mret (VFloatBits u)
      else if tag =? 4 then bs ← decoder_bytes; mret (VBytes bs)
      else if tag =? 5 then s ← decoder_string; mret (VString s)
      else if tag =? 6 then
        count ← collection_count;
        vs ← times (Z.to_nat count) (λ vs, v ← decoder_value fuel; mret (vs ++ [v])) [];
        mret (VList vs)
      else if tag =? 7 then
        count ← collection_count;
        m ← times (Z.to_nat count) (insert_entry (decoder_value fuel) "duplicate value-map key") [];
        mret (VMap m)
      else dfail "unknown value tag"
  end.

(** [value(0)]. *)
Definition decoder_value_0 : decoder Value := decoder_value (Z.to_nat (MAX_VALUE_DEPTH + 1)).

Definition decoder_properties : decoder Properties :=
  count ← collection_count;
  times (Z.to_nat count) (insert_entry decoder_value_0 "duplicate property name") [].

Definition decoder_id (new : Z → result StorageError Z) : decoder Z :=
  id ← decoder_u128; dlift (lift_store (new id)).
Definition decoder_time : decoder TransactionTime :=
  t ← decoder_i64; dlift (lift_kernel (TransactionTime_new t)).

Definition decoder_mutation : decoder LogicalMutation :=
  tag ← decoder_u8;
  if tag =? 1 then
    id ← decoder_id VertexId_new; version ← decoder_u64; interval ← decoder_interval;
    t ← decoder_time; properties ← decoder_properties;
    v ← dlift (lift_store (VertexVersion_new id version interval t properties));
    mret (PutVertex v)
  else if tag =? 2 then
    id ← decoder_id VertexId_new; version ← decoder_u64; t ← decoder_time;
    mret (DeleteVertex (mkVertexTombstone id version t))
  else if tag =? 3 then
    id ← decoder_id EdgeId_new; source ← decoder_id VertexId_new; target ← decoder_id VertexId_new;
    edge_type ← decoder_string; version ← decoder_u64; interval ← decoder_interval;
    t ← decoder_time; properties ← decoder_properties;
    e ← dlift (lift_store (EdgeVersion_new id source target edge_type version interval t properties));
    mret (PutEdge e)
  else if tag =? 4 then
    id ← decoder_id EdgeId_new; version ← decoder_u64; t ← decoder_time;
    mret (DeleteEdge (mkEdgeTombstone id version t))
  else if tag =? 5 then
    t ← decoder_transaction; mret (PutTransaction t)
  else if tag =? 6 then
    name ← decoder_string; value ← decoder_value_0;
    m ← dlift (lift_store (ReplicaMetadata_new name value));
    mret (PutReplicaMetadata m)
  else dfail "unknown logical mutation tag".

Definition mutations_with_limit (limit : Z) (limit_message : string) : decoder (list LogicalMutation) :=
  count ← decoder_count;
  if limit <? count then dfail limit_message
  else
    _ ← decoder_consume count;
    times (Z.to_nat count) (λ ms, m ← decoder_mutation; mret (ms ++ [m])) [].

Definition decoder_mutations : decoder (list LogicalMutation) :=
  mutations_with_limit MAX_COLLECTION_ITEMS "command collection exceeds item limit".
