(* ===== verification/ShardCommand.v ===== *)
(** * Shard commands ([dtg-shard/src/command.rs], [dtg-shard/src/migration.rs])

    The eight commands replicated by a shard's Raft group, the checks of their constructors, the
    mutations they persist, and their encoding and decoding. *)

From S2P Require Import Prelude Text Kernel Encoding Storage ShardWire.
Open Scope Z_scope.

Definition SUPPORTED_SHARD_COMMAND_FORMAT_VERSION : Z := 3.
Definition SUPPORTED_TRANSACTION_INTENT_VERSION : Z := 3.
Definition TRANSACTION_INTENT_METADATA_NAME : string := "dtg.transaction_intent.v3".
Definition CLOSED_TIMESTAMP_METADATA_NAME : string := "dtg.closed_timestamp".

(** ** Headers and migration commands *)

Record CommandHeader := mkCommandHeader {
  ch_command_id : CommandId;
  ch_placement_epoch : PlacementEpoch;
  ch_backend_generation : BackendGeneration;
}.

Definition CommandHeader_new (command_id : CommandId) (placement_epoch backend_generation : Z)
    : result ShardError CommandHeader :=
  epoch ← map_err (λ _, InvalidCommand "placement epoch must be nonzero")
            (nonzero_u64_identifier placement_epoch);
  generation ← map_err (λ _, InvalidCommand "backend generation must be nonzero")
                 (nonzero_u64_identifier backend_generation);
  Ok (mkCommandHeader command_id epoch generation).

Inductive MigrationPhase :=
| PhasePrepare | PhaseActivate | PhaseGrace | PhaseRetire | PhaseComplete | PhaseAbort | PhaseRollback.

Record OnlineMigrationContext := mkOnlineContext {
  om_migration_id : Z;
  om_source_epoch : PlacementEpoch;
  om_source_generation : BackendGeneration;
  om_retained_generation : BackendGeneration;
  om_target_generation : BackendGeneration;
  om_target_backend_class_digest : Digest32;
  om_catalog_version : Version;
  om_verified_index : Z;
  om_logical_digest : Digest32;
}.

Record MigrationCommand := mkMigrationCommand {
  mc_header : CommandHeader;
  mc_phase : MigrationPhase;
  mc_online : option OnlineMigrationContext;
}.

#[export] Instance CommandHeader_eq_dec : EqDecision CommandHeader.
Proof. solve_decision. Defined.
#[export] Instance MigrationPhase_eq_dec : EqDecision MigrationPhase.
Proof. solve_decision. Defined.
#[export] Instance OnlineMigrationContext_eq_dec : EqDecision OnlineMigrationContext.
Proof. solve_decision. Defined.
#[export] Instance MigrationCommand_eq_dec : EqDecision MigrationCommand.
Proof. solve_decision. Defined.

Definition MigrationCommand_new (command_id : CommandId) (placement_epoch backend_generation : Z)
    (phase : MigrationPhase) : result ShardError MigrationCommand :=
  header ← CommandHeader_new command_id placement_epoch backend_generation;
  Ok (mkMigrationCommand header phase None).

(** [u64::checked_add]. *)
Definition u64_checked_add (a b : Z) : option Z := if a + b <? 2 ^ 64 then Some (a + b) else None.

Definition MigrationCommand_online (command_id migration_id source_epoch source_generation
    retained_generation target_generation : Z) (target_backend_class_digest : Digest32)
    (catalog_version : Version) (verified_index : Z) (logical_digest : Digest32)
    (phase : MigrationPhase) : result ShardError MigrationCommand :=
  source_epoch ← map_err (λ _, InvalidCommand "migration source epoch must be nonzero")
                   (nonzero_u64_identifier source_epoch);
  source_generation ← map_err (λ _, InvalidCommand "migration source generation must be nonzero")
                        (nonzero_u64_identifier source_generation);
  retained_generation ← map_err (λ _, InvalidCommand "migration retained generation must be nonzero")
                          (nonzero_u64_identifier retained_generation);
  target_generation ← map_err (λ _, InvalidCommand "migration target generation must be nonzero")
                        (nonzero_u64_identifier target_generation);
  next_epoch ← ok_or (InvalidCommand "migration placement epoch overflow")
                 (u64_checked_add source_epoch 1);
  expected_generation ← ok_or (InvalidCommand "migration backend generation overflow")
                          (u64_checked_add source_generation 1);
  let rollback := bool_decide (phase = PhaseRollback) in
  if (migration_id =? 0) || negb (target_generation =? expected_generation)
     || bool_decide (target_backend_class_digest = zero_digest) || (verified_index =? 0)
     || bool_decide (logical_digest = zero_digest)
     || (rollback && (source_generation <=? retained_generation))
     || (negb rollback && negb (retained_generation =? source_generation))
  then Err (InvalidCommand "online migration context is inconsistent")
  else
    let uses_target_fence := negb (bool_decide (phase = PhasePrepare ∨ phase = PhaseAbort)) in
    header ← CommandHeader_new command_id
               (if uses_target_fence then next_epoch else source_epoch)
               (if uses_target_fence then target_generation else source_generation);
    Ok (mkMigrationCommand header phase
          (Some (mkOnlineContext migration_id source_epoch source_generation retained_generation
                   target_generation target_backend_class_digest catalog_version verified_index
                   logical_digest))).

Definition cuts_over_from (self : MigrationCommand) (epoch : PlacementEpoch)
    (generation : BackendGeneration) : bool :=
  bool_decide (mc_phase self = PhaseActivate ∨ mc_phase self = PhaseRollback)
  && match mc_online self with
     | Some context =>
         (om_source_epoch context =? epoch) && (om_source_generation context =? generation)
         && (ch_placement_epoch (mc_header self) =? default 0 (u64_checked_add epoch 1))
         && (ch_backend_generation (mc_header self) =? om_target_generation context)
     | None => false
     end.

Definition decode_online (header : CommandHeader) (migration_id source_epoch source_generation
    retained_generation target_generation : Z) (target_backend_class_digest : Digest32)
    (catalog_version : Version) (verified_index : Z) (logical_digest : Digest32)
    (phase : MigrationPhase) : result ShardError MigrationCommand :=
  command ← MigrationCommand_online (ch_command_id header) migration_id source_epoch source_generation
              retained_generation target_generation target_backend_class_digest catalog_version
              verified_index logical_digest phase;
  if negb (bool_decide (mc_header command = header))
  then Err (InvalidCommand "migration command header contradicts its context")
  else Ok command.

(** ** Checks on mutations *)

(** [None] is the [unreachable!] of the source. *)
Definition mutation_transaction_time (mutation : LogicalMutation) : option TransactionTime :=
  match mutation with
  | PutVertex v => Some (v_transaction_time v)
  | DeleteVertex t => Some (vt_transaction_time t)
  | PutEdge e => Some (e_transaction_time e)
  | DeleteEdge t => Some (et_transaction_time t)
  | PutTransaction _ | PutReplicaMetadata _ => None
  end.

(** [iter().any(|m| mutation_transaction_time(m) != t)]. *)
Fixpoint any_other_time (t : TransactionTime) (mutations : list LogicalMutation)
    : result ShardError bool :=
  match mutations with
  | [] => Ok false
  | m :: mutations =>
      u ← ok_or ShardPanic (mutation_transaction_time m);
      if negb (u =? t) then Ok true else any_other_time t mutations
  end.

(** [mutation_transaction_time(&mutations[0])]. *)
Definition first_time (mutations : list LogicalMutation) : result ShardError TransactionTime :=
  m ← ok_or ShardPanic (head mutations); ok_or ShardPanic (mutation_transaction_time m).

Definition is_system_mutation (m : LogicalMutation) : bool :=
  match m with PutTransaction _ | PutReplicaMetadata _ => true | _ => false end.

Definition validate_single_shard_mutations (mutations : list LogicalMutation)
    : result ShardError unit :=
  if existsb (λ m, match m with
                   | PutTransaction _ => true
                   | PutReplicaMetadata metadata => String.prefix "dtg." (rm_name metadata)
                   | _ => false
                   end) mutations
  then Err (invalid_command_shape
              "generic single-Shard commits cannot write transactions or reserved dtg metadata")
  else Ok tt.

Definition validate_intent_mutations (mutations : list LogicalMutation) : result ShardError unit :=
  if bool_decide (mutations = []) || (MAX_TRANSACTION_INTENT_ITEMS <? len mutations)
  then Err (invalid_command_shape "transaction intent mutation count is outside the supported bounds")
  else if existsb is_system_mutation mutations
  then Err (invalid_command_shape "transaction intent may contain only graph mutations")
  else
    transaction_time ← first_time mutations;
    differs ← any_other_time transaction_time (tail mutations);
    if (differs : bool)
    then Err (invalid_command_shape "transaction intent mutations must share one transaction time")
    else Ok tt.

Definition validate_commit_follows_start (start_time : TransactionTime)
    (mutations : list LogicalMutation) (message : string) : result ShardError unit :=
  t ← first_time mutations;
  if t <=? start_time then Err (invalid_command_shape message) else Ok tt.

(** ** Single-shard commits *)

Record CommitSingleShard := mkCommitSingleShard {
  cs_header : CommandHeader;
  cs_mutations : list LogicalMutation;
}.

Definition CommitSingleShard_new (command_id : CommandId) (placement_epoch backend_generation : Z)
    (mutations : list LogicalMutation) : result ShardError CommitSingleShard :=
  if bool_decide (mutations = [])
  then Err (InvalidCommand "single-Shard commit must contain mutations")
  else
    _ ← validate_single_shard_mutations mutations;
    header ← CommandHeader_new command_id placement_epoch backend_generation;
    Ok (mkCommitSingleShard header mutations).

Record CommitSingleShardTransaction := mkSingleShardTransaction {
  ct_header : CommandHeader;
  ct_transaction_id : TransactionId;
  ct_start_time : TransactionTime;
  ct_snapshot_applied_index : Z;
  ct_request_digest : Digest32;
  ct_mutations : list LogicalMutation;
}.

Definition single_shard_transaction_validate (self : CommitSingleShardTransaction)
    : result ShardError unit :=
  _ ← validate_intent_mutations (ct_mutations self);
  validate_commit_follows_start (ct_start_time self) (ct_mutations self)
    "single-Shard transaction commit time must follow its start time".

Definition CommitSingleShardTransaction_new (command_id : CommandId)
    (placement_epoch backend_generation : Z) (transaction_id : TransactionId)
    (start_time : TransactionTime) (snapshot_applied_index : Z) (request_digest : Digest32)
    (mutations : list LogicalMutation) : result ShardError CommitSingleShardTransaction :=
  header ← CommandHeader_new command_id placement_epoch backend_generation;
  let command := mkSingleShardTransaction header transaction_id start_time snapshot_applied_index
                   request_digest mutations in
  _ ← single_shard_transaction_validate command;
  Ok command.

(** ** Intents *)

Record ParticipantIntent := mkParticipantIntent {
  pi_transaction_id : TransactionId;
  pi_shard_id : ShardId;
  pi_start_time : TransactionTime;
  pi_snapshot_applied_index : Z;
  pi_mutations : list LogicalMutation;
}.

#[export] Instance ParticipantIntent_eq_dec : EqDecision ParticipantIntent.
Proof. solve_decision. Defined.

Definition intent_encode_current (self : ParticipantIntent) : result ShardError bytes :=
  _ ← validate_intent_mutations (pi_mutations self);
  encoded ← encoder_mutations (pi_mutations self)
              (be_bytes 4 SUPPORTED_TRANSACTION_INTENT_VERSION ++
               be_bytes 16 (pi_transaction_id self) ++ be_bytes 8 (pi_shard_id self) ++
               be_bytes 8 (pi_start_time self) ++ be_bytes 8 (pi_snapshot_applied_index self));
  encoded ← encoder_finish encoded;
  if MAX_TRANSACTION_INTENT_BYTES <? len encoded
  then Err (invalid "transaction intent exceeds maximum encoded size")
  else Ok encoded.

Definition ParticipantIntent_new (transaction_id : TransactionId) (shard_id : ShardId)
    (start_time : TransactionTime) (snapshot_applied_index : Z) (mutations : list LogicalMutation)
    : result ShardError ParticipantIntent :=
  _ ← validate_intent_mutations mutations;
  let intent := mkParticipantIntent transaction_id shard_id start_time snapshot_applied_index
                  mutations in
  _ ← intent_encode_current intent;
  Ok intent.

Definition intent_decoder : decoder ParticipantIntent :=
  version ← decoder_u32;
  if negb (version =? SUPPORTED_TRANSACTION_INTENT_VERSION)
  then dfail "unsupported transaction intent version"
  else
    id ← decoder_u128; transaction_id ← dlift (lift_kernel (TransactionId_new id));
    shard ← decoder_u64; shard_id ← dlift (lift_kernel (nonzero_u64_identifier shard));
    start_time ← decoder_time;
    snapshot_applied_index ← decoder_u64;
    mutations ← mutations_with_limit MAX_TRANSACTION_INTENT_ITEMS
                  "transaction intent mutation count is outside the supported bounds";
    _ ← decoder_finish;
    dlift (ParticipantIntent_new transaction_id shard_id start_time snapshot_applied_index mutations).

Definition intent_decode_current (bs : bytes) : result ShardError ParticipantIntent :=
  if MAX_TRANSACTION_INTENT_BYTES <? len bs
  then Err (invalid "transaction intent bytes are oversized")
  else
    d ← decoder_new bs;
    '(intent, _) ← intent_decoder d;
    Ok intent.

Definition intent_metadata (self : ParticipantIntent) : result ShardError ReplicaMetadata :=
  encoded ← intent_encode_current self;
  lift_store (ReplicaMetadata_new TRANSACTION_INTENT_METADATA_NAME (VBytes encoded)).

(** ** Home decisions *)

Record HomeDecisionParticipant := mkHomeParticipant {
  hp_shard_id : ShardId;
  hp_placement_epoch : PlacementEpoch;
  hp_backend_generation : BackendGeneration;
  hp_snapshot_applied_index : Z;
  hp_intent_digest : Digest32;
}.

Definition HomeDecisionParticipant_new (shard_id : ShardId) (placement_epoch : PlacementEpoch)
    (backend_generation : BackendGeneration) (snapshot_applied_index : Z) (intent_digest : Digest32)
    : result ShardError HomeDecisionParticipant :=
  if bool_decide (intent_digest = zero_digest)
  then Err (invalid_command_shape "home decision participant digest must be nonzero")
  else Ok (mkHomeParticipant shard_id placement_epoch backend_generation snapshot_applied_index
             intent_digest).

Record HomeDecisionManifest := mkHomeManifest {
  hm_start_time : TransactionTime;
  hm_catalog_version : Version;
  hm_participants : list HomeDecisionParticipant;
}.

Definition hp_leb (p q : HomeDecisionParticipant) : bool := hp_shard_id p <=? hp_shard_id q.

Definition HomeDecisionManifest_new (start_time : TransactionTime) (catalog_version : Version)
    (participants : list HomeDecisionParticipant) : result ShardError HomeDecisionManifest :=
  let participants := sort_by hp_leb participants in
  if (catalog_version =? 0) || bool_decide (participants = [])
     || (MAX_TRANSACTION_INTENT_ITEMS <? len participants)
     || negb (bool_decide (NoDup (map hp_shard_id participants)))
  then Err (invalid_command_shape "home decision manifest must contain unique durable participants")
  else Ok (mkHomeManifest start_time catalog_version participants).

Record PrewriteIntent := mkPrewriteIntent {
  pw_header : CommandHeader;
  pw_prepared : TransactionRecord;
  pw_intent : ParticipantIntent;
}.

Record RecordHomeDecision := mkRecordHomeDecision {
  hd_header : CommandHeader;
  hd_decision : TransactionRecord;
  hd_manifest : HomeDecisionManifest;
}.

Record FinalizeParticipant := mkFinalizeParticipant {
  fp_header : CommandHeader;
  fp_terminal : TransactionRecord;
  fp_intent : option ParticipantIntent;
}.

Record AdvanceClosedTimestamp := mkAdvanceClosed {
  ac_header : CommandHeader;
  ac_closed_timestamp : TransactionTime;
}.

Definition AdvanceClosedTimestamp_new (command_id : CommandId) (placement_epoch backend_generation : Z)
    (closed_timestamp : TransactionTime) : result ShardError AdvanceClosedTimestamp :=
  header ← CommandHeader_new command_id placement_epoch backend_generation;
  Ok (mkAdvanceClosed header closed_timestamp).

Record InstallSnapshot := mkInstallSnapshot {
  is_header : CommandHeader;
  is_snapshot_id : Z;
  is_content_digest : Digest32;
}.

Definition InstallSnapshot_new (command_id : CommandId) (placement_epoch backend_generation : Z)
    (snapshot_id : Z) (content_digest : Digest32) : result ShardError InstallSnapshot :=
  if (snapshot_id =? 0) || bool_decide (content_digest = zero_digest)
  then Err (InvalidCommand "snapshot identity must be complete")
  else
    header ← CommandHeader_new command_id placement_epoch backend_generation;
    Ok (mkInstallSnapshot header snapshot_id content_digest).

Inductive ShardCommand :=
| CmdCommitSingleShard (command : CommitSingleShard)
| CmdCommitSingleShardTransaction (command : CommitSingleShardTransaction)
| CmdPrewriteIntent (command : PrewriteIntent)
| CmdRecordHomeDecision (command : RecordHomeDecision)
| CmdFinalizeParticipant (command : FinalizeParticipant)
| CmdAdvanceClosedTimestamp (command : AdvanceClosedTimestamp)
| CmdInstallSnapshot (command : InstallSnapshot)
| CmdMigration (command : MigrationCommand).

Definition command_header (self : ShardCommand) : CommandHeader :=
  match self with
  | CmdCommitSingleShard c => cs_header c
  | CmdCommitSingleShardTransaction c => ct_header c
  | CmdPrewriteIntent c => pw_header c
  | CmdRecordHomeDecision c => hd_header c
  | CmdFinalizeParticipant c => fp_header c
  | CmdAdvanceClosedTimestamp c => ac_header c
  | CmdInstallSnapshot c => is_header c
  | CmdMigration c => mc_header c
  end.

(** ** Digests, checks and persisted mutations *)

Section command.
Context (blake3 : bytes → Digest32).

Definition intent_digest (self : ParticipantIntent) : result ShardError Digest32 :=
  encoded ← map_err (λ _, ShardPanic) (intent_encode_current self);
  Ok (blake3 (as_bytes "dtg-transaction-participant-intent-v3" ++ encoded)).

Definition prewrite_validate (self : PrewriteIntent) : result ShardError unit :=
  let failure := invalid_command_shape
                   "prewrite intent must bind one prepared record to its participant payload" in
  if negb (bool_decide (tr_state (pw_prepared self) = Prepared))
     || negb (tr_id (pw_prepared self) =? pi_transaction_id (pw_intent self))
     || negb (tr_transaction_time (pw_prepared self) =? pi_start_time (pw_intent self))
  then Err failure
  else
    digest ← intent_digest (pw_intent self);
    if negb (bool_decide (tr_record_digest (pw_prepared self) = digest)) then Err failure
    else _ ← intent_encode_current (pw_intent self); Ok tt.

Definition PrewriteIntent_new (command_id : CommandId) (placement_epoch backend_generation : Z)
    (prepared : TransactionRecord) (intent : ParticipantIntent) : result ShardError PrewriteIntent :=
  header ← CommandHeader_new command_id placement_epoch backend_generation;
  let command := mkPrewriteIntent header prepared intent in
  _ ← prewrite_validate command;
  Ok command.

Definition prewrite_mutations (self : PrewriteIntent) : result ShardError (list LogicalMutation) :=
  _ ← prewrite_validate self;
  metadata ← intent_metadata (pw_intent self);
  Ok [PutTransaction (pw_prepared self); PutReplicaMetadata metadata].

Definition home_decision_digest (self : HomeDecisionManifest) (transaction_id : TransactionId)
    (state : TransactionState) (decision_time : TransactionTime) : result ShardError Digest32 :=
  let failure := invalid_command_shape "home decision time does not match its terminal state" in
  match state with
  | Committed =>
      if hm_start_time self <? decision_time then
        Ok (blake3 (as_bytes "dtg-transaction-home-decision-v1" ++ be_bytes 16 transaction_id ++
                    be_bytes 8 decision_time ++
                    concat (map (λ p, be_bytes 8 (hp_shard_id p) ++ hp_intent_digest p)
                              (hm_participants self))))
      else Err failure
  | Aborted =>
      if decision_time =? hm_start_time self then
        Ok (blake3 (as_bytes "dtg-transaction-home-abort-v1" ++ be_bytes 16 transaction_id ++
                    be_bytes 8 (hm_start_time self) ++
                    concat (map (λ p, be_bytes 8 (hp_shard_id p)) (hm_participants self))))
      else Err failure
  | Prepared => Err failure
  end.

Definition home_decision_validate (self : RecordHomeDecision) : result ShardError unit :=
  let failure := invalid_command_shape "home decision must match its durable participant manifest" in
  if bool_decide (tr_state (hd_decision self) = Prepared) then Err failure
  else
    digest ← home_decision_digest (hd_manifest self) (tr_id (hd_decision self))
               (tr_state (hd_decision self)) (tr_transaction_time (hd_decision self));
    if negb (bool_decide (tr_record_digest (hd_decision self) = digest)) then Err failure else Ok tt.

Definition RecordHomeDecision_new (command_id : CommandId) (placement_epoch backend_generation : Z)
    (decision : TransactionRecord) (manifest : HomeDecisionManifest)
    : result ShardError RecordHomeDecision :=
  header ← CommandHeader_new command_id placement_epoch backend_generation;
  let command := mkRecordHomeDecision header decision manifest in
  _ ← home_decision_validate command;
  Ok command.

Definition home_decision_mutations (self : RecordHomeDecision) : result ShardError (list LogicalMutation) :=
  _ ← home_decision_validate self;
  Ok [PutTransaction (hd_decision self)].

Definition finalize_validate (self : FinalizeParticipant) : result ShardError unit :=
  match tr_state (fp_terminal self), fp_intent self with
  | Committed, None => Err (invalid_command_shape "commit finalization requires participant intent")
  | Committed, Some intent =>
      let failure := invalid_command_shape "commit finalization does not match participant intent" in
      if negb (tr_id (fp_terminal self) =? pi_transaction_id intent) then Err failure
      else
        digest ← intent_digest intent;
        if negb (bool_decide (tr_record_digest (fp_terminal self) = digest))
           || (tr_transaction_time (fp_terminal self) <=? pi_start_time intent)
        then Err failure
        else
          differs ← any_other_time (tr_transaction_time (fp_terminal self)) (pi_mutations intent);
          if (differs : bool) then Err failure
          else _ ← intent_encode_current intent; Ok tt
  | Aborted, None => Ok tt
  | Aborted, Some _ => Err (invalid_command_shape "abort finalization must not carry graph mutations")
  | Prepared, _ =>
      Err (invalid_command_shape "participant finalization requires a terminal transaction record")
  end.

Definition FinalizeParticipant_new (command_id : CommandId) (placement_epoch backend_generation : Z)
    (terminal : TransactionRecord) (intent : option ParticipantIntent)
    : result ShardError FinalizeParticipant :=
  header ← CommandHeader_new command_id placement_epoch backend_generation;
  let command := mkFinalizeParticipant header terminal intent in
  _ ← finalize_validate command;
  Ok command.

Definition finalize_mutations (self : FinalizeParticipant) : result ShardError (list LogicalMutation) :=
  _ ← finalize_validate self;
  Ok (match fp_intent self with Some intent => pi_mutations intent | None => [] end ++
      [PutTransaction (fp_terminal self)]).

Definition phase_name (phase : MigrationPhase) : string :=
  match phase with
  | PhasePrepare => "prepare" | PhaseActivate => "activate" | PhaseGrace => "grace"
  | PhaseRetire => "retire" | PhaseComplete => "complete" | PhaseAbort => "abort"
  | PhaseRollback => "rollback"
  end.

Definition migration_metadata (command : MigrationCommand) : result ShardError ReplicaMetadata :=
  match mc_online command with
  | None =>
      lift_store (ReplicaMetadata_new "dtg.migration_phase" (VString (phase_name (mc_phase command))))
  | Some context =>
      lift_store (ReplicaMetadata_new "dtg.migration_phase" (VMap [
        ("catalog_version", VBytes (be_bytes 8 (om_catalog_version context)));
        ("logical_digest", VBytes (om_logical_digest context));
        ("migration_id", VBytes (be_bytes 16 (om_migration_id context)));
        ("phase", VString (phase_name (mc_phase command)));
        ("retained_generation", VBytes (be_bytes 8 (om_retained_generation context)));
        ("source_epoch", VBytes (be_bytes 8 (om_source_epoch context)));
        ("source_generation", VBytes (be_bytes 8 (om_source_generation context)));
        ("target_backend_class_digest", VBytes (om_target_backend_class_digest context));
        ("target_generation", VBytes (be_bytes 8 (om_target_generation context)));
        ("verified_index", VBytes (be_bytes 8 (om_verified_index context)))]))
  end.

(** [ShardCommand::mutations]. *)
Definition command_mutations (self : ShardCommand) : result ShardError (list LogicalMutation) :=
  match self with
  | CmdCommitSingleShard c =>
      _ ← validate_single_shard_mutations (cs_mutations c); Ok (cs_mutations c)
  | CmdCommitSingleShardTransaction c =>
      _ ← single_shard_transaction_validate c; Ok (ct_mutations c)
  | CmdPrewriteIntent c => prewrite_mutations c
  | CmdRecordHomeDecision c => home_decision_mutations c
  | CmdFinalizeParticipant c => finalize_mutations c
  | CmdAdvanceClosedTimestamp c =>
      metadata ← lift_store (ReplicaMetadata_new CLOSED_TIMESTAMP_METADATA_NAME
                               (VInteger (ac_closed_timestamp c)));
      Ok [PutReplicaMetadata metadata]
  | CmdInstallSnapshot c =>
      metadata ← lift_store (ReplicaMetadata_new "dtg.installed_snapshot" (VMap [
                   ("content_digest", VBytes (is_content_digest c));
                   ("snapshot_id", VBytes (be_bytes 16 (is_snapshot_id c)))]));
      Ok [PutReplicaMetadata metadata]
  | CmdMigration c => metadata ← migration_metadata c; Ok [PutReplicaMetadata metadata]
  end.

(** ** Encoding *)

Definition migration_phase_tag (phase : MigrationPhase) : Z :=
  match phase with
  | PhasePrepare => 1 | PhaseActivate => 2 | PhaseRetire => 3 | PhaseGrace => 4
  | PhaseComplete => 5 | PhaseAbort => 6 | PhaseRollback => 7
  end.

Definition decode_migration_phase (tag : Z) : result ShardError MigrationPhase :=
  match tag with
  | 1 => Ok PhasePrepare | 2 => Ok PhaseActivate | 3 => Ok PhaseRetire | 4 => Ok PhaseGrace
  | 5 => Ok PhaseComplete | 6 => Ok PhaseAbort | 7 => Ok PhaseRollback
  | _ => Err (invalid "unknown migration phase")
  end.

Definition header_bytes (header : CommandHeader) : bytes :=
  be_bytes 16 (ch_command_id header) ++ be_bytes 8 (ch_placement_epoch header) ++
  be_bytes 8 (ch_backend_generation header).

Definition encoder_participant (p : HomeDecisionParticipant) (e : bytes) : result ShardError bytes :=
  encoder_bytes (hp_intent_digest p)
    (e ++ be_bytes 8 (hp_shard_id p) ++ be_bytes 8 (hp_placement_epoch p) ++
     be_bytes 8 (hp_backend_generation p) ++ be_bytes 8 (hp_snapshot_applied_index p)).

Definition encoder_online (context : OnlineMigrationContext) (e : bytes) : result ShardError bytes :=
  e ← encoder_bytes (om_target_backend_class_digest context)
        (e ++ [1] ++ be_bytes 16 (om_migration_id context) ++ be_bytes 8 (om_source_epoch context) ++
         be_bytes 8 (om_source_generation context) ++ be_bytes 8 (om_retained_generation context) ++
         be_bytes 8 (om_target_generation context));
  encoder_bytes (om_logical_digest context)
    (e ++ be_bytes 8 (om_catalog_version context) ++ be_bytes 8 (om_verified_index context)).

(** The checks before encoding. *)
Definition encode_validate (self : ShardCommand) : result ShardError unit :=
  match self with
  | CmdCommitSingleShard c => validate_single_shard_mutations (cs_mutations c)
  | CmdCommitSingleShardTransaction c => single_shard_transaction_validate c
  | CmdPrewriteIntent c => prewrite_validate c
  | CmdRecordHomeDecision c => home_decision_validate c
  | CmdFinalizeParticipant c => finalize_validate c
  | CmdAdvanceClosedTimestamp _ | CmdInstallSnapshot _ | CmdMigration _ => Ok tt
  end.

Definition command_tag (self : ShardCommand) : Z :=
  match self with
  | CmdCommitSingleShard _ => 1 | CmdCommitSingleShardTransaction _ => 8 | CmdPrewriteIntent _ => 2
  | CmdRecordHomeDecision _ => 3 | CmdFinalizeParticipant _ => 4 | CmdAdvanceClosedTimestamp _ => 5
  | CmdInstallSnapshot _ => 6 | CmdMigration _ => 7
  end.

(** What follows the version, the tag and the header. *)
Definition encode_payload (self : ShardCommand) (e : bytes) : result ShardError bytes :=
  match self with
  | CmdCommitSingleShard c => encoder_mutations (cs_mutations c) e
  | CmdCommitSingleShardTransaction c =>
      e ← encoder_bytes (ct_request_digest c)
            (e ++ be_bytes 16 (ct_transaction_id c) ++ be_bytes 8 (ct_start_time c) ++
             be_bytes 8 (ct_snapshot_applied_index c));
      encoder_mutations (ct_mutations c) e
  | CmdPrewriteIntent c =>
      intent ← intent_encode_current (pw_intent c);
      encoder_bytes intent (encoder_transaction (pw_prepared c) e)
  | CmdRecordHomeDecision c =>
      let m := hd_manifest c in
      n ← u32_of_len (len (hm_participants m)) "too many home decision participants";
      try_fold encoder_participant (hm_participants m)
        (encoder_transaction (hd_decision c) e ++ be_bytes 8 (hm_start_time m) ++
         be_bytes 8 (hm_catalog_version m) ++ be_bytes 4 n)
  | CmdFinalizeParticipant c =>
      let e := encoder_transaction (fp_terminal c) e in
      match fp_intent c with
      | Some intent =>
          encoded ← intent_encode_current intent;
          encoder_bytes encoded (e ++ [1])
      | None => Ok (e ++ [0])
      end
  | CmdAdvanceClosedTimestamp c => Ok (e ++ be_bytes 8 (ac_closed_timestamp c))
  | CmdInstallSnapshot c => encoder_bytes (is_content_digest c) (e ++ be_bytes 16 (is_snapshot_id c))
  | CmdMigration c =>
      let e := e ++ [migration_phase_tag (mc_phase c)] in
      match mc_online c with Some context => encoder_online context e | None => Ok e end
  end.

Definition encode_current (self : ShardCommand) : result ShardError bytes :=
  _ ← encode_validate self;
  e ← encode_payload self
        (be_bytes 4 SUPPORTED_SHARD_COMMAND_FORMAT_VERSION ++ [command_tag self] ++
         header_bytes (command_header self));
  encoder_finish e.

(** ** Decoding *)

Definition decoder_header : decoder CommandHeader :=
  id ← decoder_u128; command_id ← dlift (lift_store (CommandId_new id));
  epoch ← decoder_u64; generation ← decoder_u64;
  dlift (CommandHeader_new command_id epoch generation).

Definition decoder_nonzero : decoder Z :=
  n ← decoder_u64; dlift (lift_kernel (nonzero_u64_identifier n)).

Definition decoder_intent : decoder ParticipantIntent :=
  bs ← decoder_bytes; dlift (intent_decode_current bs).

Definition decoder_participant : decoder HomeDecisionParticipant :=
  shard_id ← decoder_nonzero; epoch ← decoder_nonzero; generation ← decoder_nonzero;
  index ← decoder_u64; digest ← fixed_32;
  dlift (HomeDecisionParticipant_new shard_id epoch generation index digest).

Definition decode_home_decision (header : CommandHeader) : decoder ShardCommand :=
  decision ← decoder_transaction;
  start_time ← decoder_time;
  catalog_version ← decoder_u64;
  count ← collection_count;
  participants ← times (Z.to_nat count) (λ ps, p ← decoder_participant; mret (ps ++ [p])) [];
  manifest ← dlift (HomeDecisionManifest_new start_time catalog_version participants);
  c ← dlift (RecordHomeDecision_new (ch_command_id header) (ch_placement_epoch header)
               (ch_backend_generation header) decision manifest);
  mret (CmdRecordHomeDecision c).

Definition decode_finalize (header : CommandHeader) : decoder ShardCommand :=
  terminal ← decoder_transaction;
  tag ← decoder_u8;
  intent ← (if tag =? 0 then mret None
            else if tag =? 1 then i ← decoder_intent; mret (Some i)
            else dfail "unknown participant intent presence tag");
  mret (CmdFinalizeParticipant (mkFinalizeParticipant header terminal intent)).

Definition decoder_online (header : CommandHeader) (phase : MigrationPhase)
    : decoder MigrationCommand :=
  presence ← decoder_u8;
  if presence =? 1 then
    migration_id ← decoder_u128; source_epoch ← decoder_u64; source_generation ← decoder_u64;
    retained_generation ← decoder_u64; target_generation ← decoder_u64;
    class_digest ← fixed_32; catalog_version ← decoder_u64; verified_index ← decoder_u64;
    logical_digest ← fixed_32;
    dlift (decode_online header migration_id source_epoch source_generation retained_generation
             target_generation class_digest catalog_version verified_index logical_digest phase)
  else dfail "unknown migration context presence tag".

Definition decoder_migration (header : CommandHeader) (phase : MigrationPhase)
    : decoder MigrationCommand := λ d,
  if is_finished d then
    dlift (MigrationCommand_new (ch_command_id header) (ch_placement_epoch header)
             (ch_backend_generation header) phase) d
  else decoder_online header phase d.

Definition decode_migration (header : CommandHeader) : decoder ShardCommand :=
  tag ← decoder_u8;
  phase ← dlift (decode_migration_phase tag);
  migration ← decoder_migration header phase;
  mret (CmdMigration migration).

Definition decode_payload (tag : Z) (header : CommandHeader) : decoder ShardCommand :=
  match tag with
  | 1 => ms ← decoder_mutations; mret (CmdCommitSingleShard (mkCommitSingleShard header ms))
  | 8 =>
      id ← decoder_u128; transaction_id ← dlift (lift_kernel (TransactionId_new id));
      start_time ← decoder_time; index ← decoder_u64; digest ← fixed_32; ms ← decoder_mutations;
      mret (CmdCommitSingleShardTransaction
              (mkSingleShardTransaction header transaction_id start_time index digest ms))
  | 2 =>
      prepared ← decoder_transaction; intent ← decoder_intent;
      mret (CmdPrewriteIntent (mkPrewriteIntent header prepared intent))
  | 3 => decode_home_decision header
  | 4 => decode_finalize header
  | 5 => t ← decoder_time; mret (CmdAdvanceClosedTimestamp (mkAdvanceClosed header t))
  | 6 =>
      snapshot_id ← decoder_u128; digest ← fixed_32;
      c ← dlift (InstallSnapshot_new (ch_command_id header) (ch_placement_epoch header)
                   (ch_backend_generation header) snapshot_id digest);
      mret (CmdInstallSnapshot c)
  | 7 => decode_migration header
  | _ => dfail "unknown command tag"
  end.

Definition is_empty_commit (self : ShardCommand) : bool :=
  match self with
  | CmdCommitSingleShard c => bool_decide (cs_mutations c = [])
  | CmdCommitSingleShardTransaction c => bool_decide (ct_mutations c = [])
  | _ => false
  end.

Definition command_decoder : decoder ShardCommand :=
  version ← decoder_u32;
  if negb (version =? SUPPORTED_SHARD_COMMAND_FORMAT_VERSION)
  then dlift (Err (UnsupportedCommandVersion version))
  else
    tag ← decoder_u8;
    header ← decoder_header;
    command ← decode_payload tag header;
    _ ← decoder_finish;
    if is_empty_commit command then dfail "mutation command must not be empty"
    else _ ← dlift (command_mutations command); mret command.

(** [ShardCommand::decode]. *)
Definition decode (bs : bytes) : result ShardError ShardCommand :=
  d ← decoder_new bs;
  '(command, _) ← command_decoder d;
  Ok command.
End command.
