(* ===== verification/ShardCodec.v ===== *)
(** * The command codec round-trips

    What [encode_current] writes, [decode] reads back, for commands and for the intents stored with a
    prepared transaction: every budget the encoder respects, the decoder respects too. *)

From S2P Require Import Prelude Text Kernel Encoding Storage ShardWire ShardCommand.
Open Scope Z_scope.

(** ** What the Rust types and the constructors guarantee of encoded data *)

(** A [BTreeMap] with [String] keys. *)
Definition btree_ok {V} (m : list (string * V)) : Prop :=
  StronglySorted (λ p q, String.compare p.1 q.1 = Lt) m ∧ Forall (λ p, str_ok p.1) m.

Inductive value_ok : Value → Prop :=
| value_ok_null : value_ok VNull
| value_ok_bool b : value_ok (VBoolean b)
| value_ok_int i : in_i64 i → value_ok (VInteger i)
| value_ok_float u : in_u64 u → value_ok (VFloatBits u)
| value_ok_bytes bs : Forall byte_ok bs → value_ok (VBytes bs)
| value_ok_string s : str_ok s → value_ok (VString s)
| value_ok_list vs : Forall value_ok vs → value_ok (VList vs)
| value_ok_map m : btree_ok m → Forall (λ p, value_ok p.2) m → value_ok (VMap m).

Definition properties_ok (ps : Properties) : Prop :=
  btree_ok ps ∧ Forall (λ p, value_ok p.2) ps ∧ validate_properties ps = Ok tt.
Definition record_ok (t : TransactionRecord) : Prop :=
  record_wf t ∧ tr_record_digest t ≠ zero_digest.
Definition tombstone_ok (id version time : Z) : Prop :=
  id128_wf id ∧ in_u64 version ∧ time_wf time.
Definition mutation_ok (m : LogicalMutation) : Prop :=
  match m with
  | PutVertex v =>
      id128_wf (v_id v) ∧ in_u64 (v_version v) ∧ interval_wf (v_valid_time v) ∧
      time_wf (v_transaction_time v) ∧ properties_ok (v_properties v)
  | DeleteVertex t => tombstone_ok (vt_id t) (vt_version t) (vt_transaction_time t)
  | PutEdge e =>
      id128_wf (e_id e) ∧ id128_wf (e_source e) ∧ id128_wf (e_target e) ∧
      str_ok (e_edge_type e) ∧ e_edge_type e ≠ EmptyString ∧ in_u64 (e_version e) ∧
      interval_wf (e_valid_time e) ∧ time_wf (e_transaction_time e) ∧ properties_ok (e_properties e)
  | DeleteEdge t => tombstone_ok (et_id t) (et_version t) (et_transaction_time t)
  | PutTransaction t => record_ok t
  | PutReplicaMetadata m => str_ok (rm_name m) ∧ rm_name m ≠ EmptyString ∧ value_ok (rm_value m)
  end.

(** ** Decoding a written field *)

(** [m] reads the bytes [p], spends [cost] items of the budget, and returns [a]. *)
Definition decodes {A} (m : decoder A) (p : bytes) (cost : Z) (a : A) : Prop :=
  0 ≤ cost ∧ ∀ rest b, cost ≤ b → m (mkDecoder (p ++ rest) b) = Ok (a, mkDecoder rest (b - cost)).

Lemma decodes_ret {A} (a : A) : decodes (mret a) [] 0 a.
Proof. split; [lia|]. intros rest b _. by rewrite Z.sub_0_r. Qed.

Lemma decodes_lift {A} (m : result ShardError A) a : m = Ok a → decodes (dlift m) [] 0 a.
Proof. intros ->. apply decodes_ret. Qed.

Lemma decodes_bind {A B} (m : decoder A) (k : A → decoder B) p q c d a b :
  decodes m p c a → decodes (k a) q d b → decodes (m ≫= k) (p ++ q) (c + d) b.
Proof.
  intros [Hc Hm] [Hd Hk]. split; [lia|]. intros rest n Hn. rewrite <-app_assoc.
  unfold mbind, decoder_bind. rewrite Hm by lia. rewrite Hk by lia. by rewrite Z.sub_add_distr.
Qed.

(** A reader that neither is followed by bytes nor costs anything. *)
Lemma decodes_bind_nil {A B} (m : decoder A) (k : A → decoder B) p c a b :
  decodes m p c a → decodes (k a) [] 0 b → decodes (m ≫= k) p c b.
Proof.
  intros Hm Hk. replace p with (p ++ []) by apply app_nil_r. replace c with (c + 0) by lia.
  by eapply decodes_bind.
Qed.

Lemma decodes_lift_bind {A B} (m : result ShardError A) (k : A → decoder B) q d a b :
  m = Ok a → decodes (k a) q d b → decodes (dlift m ≫= k) q d b.
Proof. intros Hm Hk. apply (decodes_bind _ _ [] q 0 d a b); [by apply decodes_lift|done]. Qed.

Lemma decodes_take n bs : len bs = n → decodes (take_bytes n) bs 0 bs.
Proof.
  intros <-. split; [lia|]. intros rest b _. unfold take_bytes, len. cbn [d_rest d_budget].
  rewrite (proj2 (Z.ltb_ge _ _)) by (rewrite length_app; lia).
  by rewrite Nat2Z.id, take_app_length, drop_app_length, Z.sub_0_r.
Qed.

Lemma be_value_round n z : 0 ≤ z < 256 ^ Z.of_nat n → be_value (be_bytes n z) = z.
Proof. intros Hz. rewrite be_value_be_bytes. by apply Z.mod_small. Qed.

Lemma len_be_bytes n z : len (be_bytes n z) = Z.of_nat n.
Proof. unfold len. by rewrite length_be_bytes. Qed.

Lemma decodes_u8 z : byte_ok z → decodes decoder_u8 [z] 0 z.
Proof.
  intros Hz. eapply decodes_bind_nil; [by apply decodes_take|].
  replace (be_value [z]) with z; [apply decodes_ret|]. unfold be_value. cbn. lia.
Qed.
Lemma decodes_u32 z : in_u32 z → decodes decoder_u32 (be_bytes 4 z) 0 z.
Proof.
  intros Hz. eapply decodes_bind_nil; [by apply decodes_take, len_be_bytes|].
  rewrite be_value_round by done. apply decodes_ret.
Qed.
Lemma decodes_u64 z : in_u64 z → decodes decoder_u64 (be_bytes 8 z) 0 z.
Proof.
  intros Hz. eapply decodes_bind_nil; [by apply decodes_take, len_be_bytes|].
  rewrite be_value_round by done. apply decodes_ret.
Qed.
Lemma decodes_u128 z : in_u128 z → decodes decoder_u128 (be_bytes 16 z) 0 z.
Proof.
  intros Hz. eapply decodes_bind_nil; [by apply decodes_take, len_be_bytes|].
  rewrite be_value_round by done. apply decodes_ret.
Qed.
Lemma decodes_i64 z : in_i64 z → decodes decoder_i64 (be_bytes 8 z) 0 z.
Proof.
  intros Hz. eapply decodes_bind_nil; [by apply decodes_take, len_be_bytes|].
  rewrite i64_round_trip by done. apply decodes_ret.
Qed.

Lemma decodes_bytes bs : in_u32 (len bs) → decodes decoder_bytes (be_bytes 4 (len bs) ++ bs) 0 bs.
Proof.
  intros Hlen. apply (decodes_bind _ _ _ _ 0 0 (len bs)); [by apply decodes_u32|by apply decodes_take].
Qed.

Lemma decodes_string s :
  str_ok s → in_u32 (len (as_bytes s)) →
  decodes decoder_string (be_bytes 4 (len (as_bytes s)) ++ as_bytes s) 0 s.
Proof.
  intros Hs Hlen. eapply decodes_bind_nil; [by apply decodes_bytes|]. cbn beta.
  rewrite Hs, string_of_as_bytes. apply decodes_ret.
Qed.

Lemma decodes_fixed_32 d : digest_wf d → decodes fixed_32 (be_bytes 4 32 ++ d) 0 d.
Proof.
  intros [Hlen _]. assert (len d = 32) as Hd by (unfold len; lia). rewrite <-Hd.
  eapply decodes_bind_nil; [apply decodes_bytes; rewrite Hd; split; done|]. cbn beta.
  rewrite Hd. apply decodes_ret.
Qed.

(** ** Counts and budgets *)

Lemma decodes_count n : 0 ≤ n ≤ MAX_COLLECTION_ITEMS → decodes decoder_count (be_bytes 4 n) 0 n.
Proof.
  intros [Hn Hmax]. assert (in_u32 n) by (unfold in_u32, MAX_COLLECTION_ITEMS in *; lia).
  eapply decodes_bind_nil; [by apply decodes_u32|]. cbn beta.
  rewrite (proj2 (Z.ltb_ge _ _)) by done. apply decodes_ret.
Qed.

Lemma decodes_consume n : 0 ≤ n → decodes (decoder_consume n) [] n tt.
Proof.
  intros Hn. split; [done|]. intros rest b Hb. unfold decoder_consume, consume. cbn [d_budget d_rest].
  by rewrite (proj2 (Z.ltb_ge _ _)) by done.
Qed.

Lemma decodes_collection_count n :
  0 ≤ n ≤ MAX_COLLECTION_ITEMS → decodes collection_count (be_bytes 4 n) n n.
Proof.
  intros Hn. unfold collection_count. rewrite <-(app_nil_r (be_bytes 4 n)).
  apply (decodes_bind _ _ _ _ 0 n n); [by apply decodes_count|]. cbn beta.
  eapply decodes_bind_nil; [apply decodes_consume, Hn|apply decodes_ret].
Qed.

Lemma consume_Ok b n b' : consume b n = Ok b' → b' = b - n ∧ n ≤ b.
Proof. unfold consume. intros Hc. guard_in Hc as Hb. to_prop. by injection Hc as <-. Qed.

Lemma u32_of_len_Ok n msg c : u32_of_len n msg = Ok c → c = n ∧ n < 2 ^ 32.
Proof. unfold u32_of_len. intros Hc. destruct (n <? 2 ^ 32) eqn:Hn; [|done]. to_prop. by injection Hc as <-. Qed.

Lemma encoder_bytes_Ok bs e e' :
  encoder_bytes bs e = Ok e' → e' = e ++ be_bytes 4 (len bs) ++ bs ∧ in_u32 (len bs).
Proof.
  unfold encoder_bytes. intros (n & Hn & He)%bind_Ok. apply u32_of_len_Ok in Hn as [-> Hn].
  guard_in He as Hmax. injection He as <-. split; [done|]. unfold in_u32, len in *. lia.
Qed.

Lemma encoder_count_Ok n msg st st' :
  0 ≤ n → encoder_count n msg st = Ok st' →
  st' = (st.1 ++ be_bytes 4 n, st.2 - n) ∧ n ≤ st.2 ∧ 0 ≤ n ≤ MAX_COLLECTION_ITEMS.
Proof.
  unfold encoder_count. intros Hn He. guard_in He as Hmax. to_prop.
  apply bind_Ok in He as (c & Hc & He). apply u32_of_len_Ok in Hc as [-> _].
  apply bind_Ok in He as (b & Hb & He). apply consume_Ok in Hb as [-> ?]. by injection He as <-.
Qed.

Lemma put_bytes_Ok bs st st' :
  put_bytes bs st = Ok st' →
  st' = (st.1 ++ be_bytes 4 (len bs) ++ bs, st.2) ∧ in_u32 (len bs).
Proof.
  unfold put_bytes. intros (e & He & Hst)%bind_Ok. apply encoder_bytes_Ok in He as [-> ?].
  by injection Hst as <-.
Qed.

Lemma len_nonneg {A} (l : list A) : 0 ≤ len l.
Proof. unfold len. lia. Qed.

(** ** Loops *)

(** What the encoder writes from [st] to [st'], within its budget, the decoder [m] reads as [a]. *)
Definition emits {A} (st st' : enc_state) (m : decoder A) (a : A) : Prop :=
  (0 ≤ st.2 → 0 ≤ st'.2) ∧ ∃ p, st'.1 = st.1 ++ p ∧ decodes m p (st.2 - st'.2) a.

Lemma emits_bind {A B} st st1 st2 (m : decoder A) (k : A → decoder B) a b :
  emits st st1 m a → emits st1 st2 (k a) b → emits st st2 (m ≫= k) b.
Proof.
  intros [Hb1 (p & Hp & Hm)] [Hb2 (q & Hq & Hk)]. split; [tauto|]. exists (p ++ q). split.
  - by rewrite Hq, Hp, <-app_assoc.
  - replace (st.2 - st2.2) with ((st.2 - st1.2) + (st1.2 - st2.2)) by lia. by eapply decodes_bind.
Qed.

Lemma emits_put {A} bs st (m : decoder A) a : decodes m bs 0 a → emits st (put bs st) m a.
Proof. intros Hm. split; [done|]. exists bs. split; [done|]. cbn. by rewrite Z.sub_diag. Qed.

Lemma emits_ret {A} st (a : A) : emits st st (mret a) a.
Proof. split; [done|]. exists []. rewrite app_nil_r, Z.sub_diag. split; [done|apply decodes_ret]. Qed.

Lemma emits_lift {A} st (m : result ShardError A) a : m = Ok a → emits st st (dlift m) a.
Proof. intros ->. apply emits_ret. Qed.

Lemma emits_bytes bs st st' : put_bytes bs st = Ok st' → emits st st' decoder_bytes bs.
Proof.
  intros [-> Hlen]%put_bytes_Ok. split; [done|]. exists (be_bytes 4 (len bs) ++ bs). split; [done|]. cbn.
  rewrite Z.sub_diag. by apply decodes_bytes.
Qed.

Lemma emits_string s st st' : str_ok s → put_string s st = Ok st' → emits st st' decoder_string s.
Proof.
  intros Hs [-> Hlen]%put_bytes_Ok. split; [done|]. exists (be_bytes 4 (len (as_bytes s)) ++ as_bytes s).
  split; [done|]. cbn. rewrite Z.sub_diag. by apply decodes_string.
Qed.

Lemma emits_fixed_32 d st st' : digest_wf d → put_bytes d st = Ok st' → emits st st' fixed_32 d.
Proof.
  intros Hd [-> _]%put_bytes_Ok. split; [done|]. exists (be_bytes 4 32 ++ d). split.
  - cbn. do 3 f_equal. unfold len. by rewrite (proj1 Hd).
  - cbn. rewrite Z.sub_diag. by apply decodes_fixed_32.
Qed.

Lemma emits_count n msg st st' :
  0 ≤ n → encoder_count n msg st = Ok st' → emits st st' collection_count n.
Proof.
  intros Hn (-> & Hb & Hmax)%encoder_count_Ok; [|done]. split; [cbn; lia|]. exists (be_bytes 4 n). split; [done|]. cbn.
  replace (st.2 - (st.2 - n)) with n by lia. by apply decodes_collection_count.
Qed.

(** A loop that writes the items of [l], read by a loop that appends what it reads. *)
Lemma emits_times {A} (f : A → enc_state → result ShardError enc_state)
    (step : list A → decoder (list A)) suf : ∀ pre st st',
  (∀ pre' x post st st', pre ++ suf = pre' ++ x :: post → f x st = Ok st' →
     emits st st' (step pre') (pre' ++ [x])) →
  try_fold f suf st = Ok st' → emits st st' (times (length suf) step pre) (pre ++ suf).
Proof.
  induction suf as [|x suf IH]; intros pre st st' Hf Hfold; cbn in *.
  { injection Hfold as <-. rewrite app_nil_r. apply emits_ret. }
  destruct (f x st) as [st1|] eqn:Hx; [|done]. eapply emits_bind; [by eapply Hf|].
  replace (pre ++ x :: suf) with ((pre ++ [x]) ++ suf) in * by by rewrite <-app_assoc.
  by apply IH.
Qed.

Lemma emits_list {A} (f : A → enc_state → result ShardError enc_state) (item : decoder A) l st st' :
  (∀ x st st', x ∈ l → f x st = Ok st' → emits st st' item x) →
  try_fold f l st = Ok st' →
  emits st st' (times (length l) (λ xs, x ← item; mret (xs ++ [x])) []) l.
Proof.
  intros Hf Hfold. apply (emits_times f _ l []); [|done]. cbn. intros pre x post st1 st2 -> Hx.
  eapply emits_bind; [|apply emits_ret]. eapply Hf; [|done]. set_solver.
Qed.

(** A binding beyond the largest key is inserted at the end. *)
Lemma btree_insert_last {V} k (v : V) m :
  Forall (λ p, String.compare p.1 k = Lt) m → btree_insert k v m = Some (m ++ [(k, v)]).
Proof.
  induction 1 as [|[l w] m Hl _ IH]; [done|]. cbn in *.
  rewrite String.compare_antisym, Hl. cbn. by rewrite IH.
Qed.

Lemma sorted_before {A} (R : A → A → Prop) pre x post :
  StronglySorted R (pre ++ x :: post) → Forall (λ y, R y x) pre.
Proof.
  induction pre as [|y pre IH]; [done|]. cbn. intros [Hs Hy]%StronglySorted_inv.
  constructor; [|by apply IH]. rewrite Forall_forall in Hy. apply Hy. set_solver.
Qed.

Lemma emits_btree {V} (g : V → enc_state → result ShardError enc_state) (item : decoder V) dup m st st' :
  btree_ok m →
  (∀ p st st', p ∈ m → g p.2 st = Ok st' → emits st st' item p.2) →
  try_fold (λ p st, st ← put_string p.1 st; g p.2 st) m st = Ok st' →
  emits st st' (times (length m) (insert_entry item dup) []) m.
Proof.
  intros [Hsort Hkeys] Hg Hfold.
  apply (emits_times (λ p st, st ← put_string p.1 st; g p.2 st) _ m []); [|done].
  cbn. intros pre [k v] post st1 st2 -> (st3 & Hk & Hv)%bind_Ok. cbn in *.
  apply Forall_app in Hkeys as [_ [Hkey _]%Forall_cons_1].
  eapply emits_bind; [by apply emits_string|]. eapply emits_bind.
  { eapply (Hg (k, v)); [set_solver|done]. }
  cbn. apply sorted_before in Hsort. rewrite btree_insert_last by done. apply emits_ret.
Qed.

(** ** Values *)

Definition value_fuel (depth : Z) : nat := Z.to_nat (MAX_VALUE_DEPTH + 1 - depth).

Lemma value_fuel_S depth : 0 ≤ depth ≤ MAX_VALUE_DEPTH → value_fuel depth = S (value_fuel (depth + 1)).
Proof. unfold value_fuel, MAX_VALUE_DEPTH. lia. Qed.

Lemma emits_tag {A} tag st st' (k : Z → decoder A) a :
  byte_ok tag → emits (put [tag] st) st' (k tag) a → emits st st' (decoder_u8 ≫= k) a.
Proof. intros Ht Hk. eapply emits_bind; [by apply emits_put, decodes_u8|done]. Qed.

Lemma put_put a b st : put b (put a st) = put (a ++ b) st.
Proof. unfold put. cbn. by rewrite <-app_assoc. Qed.

Lemma encoder_value_emits v : value_ok v → ∀ depth st st', 0 ≤ depth →
  encoder_value v depth st = Ok st' → emits st st' (decoder_value (value_fuel depth)) v.
Proof.
  induction v as [|b|i|u|bs|s|vs IH|m IH] using value_ind'; intros Hv depth st st' Hd He;
    cbn [encoder_value] in He; guard_in He as Hmax; to_prop; inversion Hv; subst; clear Hv;
    rewrite value_fuel_S by lia; cbn [decoder_value].
  - injection He as <-. apply (emits_tag 0); [done|apply emits_ret].
  - injection He as <-. change [1; if b then 1 else 0] with ([1] ++ [if b then 1 else 0]).
    rewrite <-put_put. apply (emits_tag 1); [done|]. cbn.
    apply (emits_tag (if b then 1 else 0)); [by destruct b|]. destruct b; apply emits_ret.
  - injection He as <-. change (2 :: be_bytes 8 i) with ([2] ++ be_bytes 8 i). rewrite <-put_put.
    apply (emits_tag 2); [done|]. cbn. eapply emits_bind; [by apply emits_put, decodes_i64|apply emits_ret].
  - injection He as <-. change (3 :: be_bytes 8 u) with ([3] ++ be_bytes 8 u). rewrite <-put_put.
    apply (emits_tag 3); [done|]. cbn. eapply emits_bind; [by apply emits_put, decodes_u64|apply emits_ret].
  - apply (emits_tag 4); [done|]. cbn. eapply emits_bind; [by apply emits_bytes|apply emits_ret].
  - apply (emits_tag 5); [done|]. cbn. eapply emits_bind; [by apply emits_string|apply emits_ret].
  - apply bind_Ok in He as (st1 & Hc & He). apply (emits_tag 6); [done|]. cbn.
    eapply emits_bind; [eapply emits_count; [|exact Hc]; apply len_nonneg|]. cbn.
    eapply emits_bind; [|apply emits_ret]. unfold len. rewrite Nat2Z.id.
    eapply emits_list; [|done]. cbn. intros x st2 st3 Hx. rewrite Forall_forall in *.
    apply IH; [done|eauto|lia].
  - apply bind_Ok in He as (st1 & Hc & He). apply (emits_tag 7); [done|]. cbn.
    eapply emits_bind; [eapply emits_count; [|exact Hc]; apply len_nonneg|]. cbn.
    eapply emits_bind; [|apply emits_ret]. unfold len. rewrite Nat2Z.id.
    eapply (emits_btree (λ v, encoder_value v (depth + 1))); [done| |done].
    intros q st2 st3 Hq. rewrite Forall_forall in *. apply IH; [done|eauto|lia].
Qed.

(** ** Mutations *)

Lemma decodes_bind0 {A B} (m : decoder A) (k : A → decoder B) p q d a b :
  decodes m p 0 a → decodes (k a) q d b → decodes (m ≫= k) (p ++ q) d b.
Proof. intros Hm Hk. apply (decodes_bind m k p q 0 d a b Hm Hk). Qed.

Lemma id128_new (new : Z → result StorageError Z) e z :
  new = (λ v, if negb (v =? 0) then Ok v else Err e) → id128_wf z → new z = Ok z.
Proof. intros -> [_ Hz]. by rewrite (proj2 (Z.eqb_neq _ _)) by done. Qed.

Lemma decodes_id new e z :
  new = (λ v, if negb (v =? 0) then Ok v else Err e) → id128_wf z →
  decodes (decoder_id new) (be_bytes 16 z) 0 z.
Proof.
  intros Hnew Hz. eapply decodes_bind_nil; [apply decodes_u128, Hz|]. apply decodes_lift.
  by rewrite (id128_new new e z).
Qed.
Lemma decodes_vertex_id z : id128_wf z → decodes (decoder_id VertexId_new) (be_bytes 16 z) 0 z.
Proof. by eapply decodes_id. Qed.
Lemma decodes_edge_id z : id128_wf z → decodes (decoder_id EdgeId_new) (be_bytes 16 z) 0 z.
Proof. by eapply decodes_id. Qed.

Lemma TransactionTime_new_Ok t : time_wf t → TransactionTime_new t = Ok t.
Proof. intros [_ Ht]. unfold TransactionTime_new. by rewrite (proj2 (Z.leb_le _ _)) by done. Qed.
Lemma nonzero_Ok z : z ≠ 0 → nonzero_u64_identifier z = Ok z.
Proof. intros Hz. unfold nonzero_u64_identifier. by rewrite (proj2 (Z.eqb_neq _ _)) by done. Qed.
Lemma TransactionId_new_Ok z : z ≠ 0 → TransactionId_new z = Ok z.
Proof. apply nonzero_Ok. Qed.

Lemma decodes_time t : time_wf t → decodes decoder_time (be_bytes 8 t) 0 t.
Proof.
  intros Ht. eapply decodes_bind_nil; [apply decodes_i64, Ht|]. apply decodes_lift.
  by rewrite TransactionTime_new_Ok.
Qed.

Lemma decodes_interval i :
  interval_wf i → decodes decoder_interval (be_bytes 8 (start i) ++ be_bytes 8 (end_ i)) 0 i.
Proof.
  intros (Hs & He & Hlt). eapply decodes_bind0; [by apply decodes_i64|].
  eapply decodes_bind_nil; [by apply decodes_i64|]. apply decodes_lift.
  unfold ValidInterval_new. rewrite (proj2 (Z.ltb_lt _ _)) by done. by destruct i.
Qed.

Lemma state_tag_byte s : byte_ok (transaction_state_tag s).
Proof. by destruct s. Qed.
Lemma decode_state_tag s : decode_transaction_state (transaction_state_tag s) = Ok s.
Proof. by destruct s. Qed.

Lemma TransactionRecord_new_self t :
  tr_record_digest t ≠ zero_digest →
  TransactionRecord_new (tr_id t) (tr_state t) (tr_transaction_time t) (tr_record_digest t) = Ok t.
Proof. intros Ht. unfold TransactionRecord_new. rewrite bool_decide_eq_false_2 by done. by destruct t. Qed.

Definition transaction_bytes (t : TransactionRecord) : bytes :=
  be_bytes 16 (tr_id t) ++ [transaction_state_tag (tr_state t)] ++
  be_bytes 8 (tr_transaction_time t) ++ be_bytes 4 32 ++ tr_record_digest t.

Lemma decodes_transaction t : record_ok t → decodes decoder_transaction (transaction_bytes t) 0 t.
Proof.
  intros [(Hid & Ht & Hd) Hz].
  eapply decodes_bind0; [apply decodes_u128, Hid|].
  eapply decodes_lift_bind; [by rewrite TransactionId_new_Ok by apply Hid|].
  eapply decodes_bind0; [apply decodes_u8, state_tag_byte|].
  eapply decodes_lift_bind; [apply decode_state_tag|].
  eapply decodes_bind0; [apply decodes_i64, Ht|].
  eapply decodes_lift_bind; [by rewrite TransactionTime_new_Ok by apply Ht|].
  eapply decodes_bind_nil; [by apply decodes_fixed_32|].
  apply decodes_lift. by rewrite TransactionRecord_new_self.
Qed.

Lemma encoder_properties_emits ps st st' :
  properties_ok ps → encoder_properties ps st = Ok st' → emits st st' decoder_properties ps.
Proof.
  intros (Hb & Hv & _) (st1 & Hc & He)%bind_Ok.
  eapply emits_bind; [eapply emits_count; [|exact Hc]; apply len_nonneg|]. cbn.
  unfold len. rewrite Nat2Z.id. eapply (emits_btree (λ v, encoder_value v 0)); [done| |done].
  intros p st2 st3 Hp. rewrite Forall_forall in Hv. by apply encoder_value_emits; [apply Hv|].
Qed.

(** The bytes a writer appends, when what follows a prefix is read by [m]. *)
Lemma emits_prefix {A B} bs st st' (m : decoder A) (k : decoder B) a b :
  emits (put bs st) st' m a →
  (∀ p c, decodes m p c a → decodes k (bs ++ p) c b) → emits st st' k b.
Proof.
  intros [Hb (p & Hp & Hm)] Hk. split; [done|]. exists (bs ++ p). split; [by rewrite Hp, app_assoc|]. by apply Hk.
Qed.

Lemma VertexVersion_new_self v :
  validate_properties (v_properties v) = Ok tt →
  VertexVersion_new (v_id v) (v_version v) (v_valid_time v) (v_transaction_time v) (v_properties v) = Ok v.
Proof. intros Hp. unfold VertexVersion_new. rewrite Hp. by destruct v. Qed.
Lemma EdgeVersion_new_self e :
  validate_properties (e_properties e) = Ok tt → e_edge_type e ≠ EmptyString →
  EdgeVersion_new (e_id e) (e_source e) (e_target e) (e_edge_type e) (e_version e) (e_valid_time e)
    (e_transaction_time e) (e_properties e) = Ok e.
Proof.
  intros Hp Ht. unfold EdgeVersion_new. rewrite bool_decide_eq_false_2, Hp by done. by destruct e.
Qed.

Ltac tag_step := match goal with |- decodes _ (?t :: ?r) _ _ => change (t :: r) with ([t] ++ r) end;
  eapply decodes_bind0; [by apply decodes_u8|]; cbn [Z.eqb Pos.eqb].

Lemma encoder_mutation_emits m st st' :
  mutation_ok m → encoder_mutation m st = Ok st' → emits st st' decoder_mutation m.
Proof.
  destruct m as [v|t|e|t|t|md]; cbn [encoder_mutation mutation_ok].
  - intros (Hid & Hver & Hiv & Ht & Hps) He. apply encoder_properties_emits in He; [|done].
    unfold put_interval in He. rewrite !put_put in He. eapply emits_prefix; [exact He|].
    intros p c Hp. rewrite <-!app_assoc. cbn [app]. rewrite <-!app_assoc. tag_step.
    eapply decodes_bind0; [by apply decodes_vertex_id|].
    eapply decodes_bind0; [by apply decodes_u64|]. rewrite (app_assoc (be_bytes 8 (start _))).
    eapply decodes_bind0; [by apply decodes_interval|].
    eapply decodes_bind0; [by apply decodes_time|].
    eapply decodes_bind_nil; [exact Hp|].
    eapply decodes_lift_bind; [by rewrite VertexVersion_new_self by apply Hps|apply decodes_ret].
  - intros (Hid & Hver & Ht) He. apply (inj Ok) in He as <-. apply emits_put. tag_step.
    eapply decodes_bind0; [by apply decodes_vertex_id|].
    eapply decodes_bind0; [by apply decodes_u64|].
    eapply decodes_bind_nil; [by apply decodes_time|]. destruct t. apply decodes_ret.
  - intros (Hid & Hs & Htg & Hty & Hne & Hver & Hiv & Ht & Hps) (st1 & Hstr & He)%bind_Ok.
    apply put_bytes_Ok in Hstr as [-> Hlen].
    apply encoder_properties_emits in He; [|done].
    unfold put_interval in He. rewrite !put_put in He. destruct He as (Hb & p & Hp1 & Hp).
    cbn in Hp1, Hp. split; [done|]. eexists. split; [rewrite Hp1, <-!app_assoc; reflexivity|].
    rewrite <-?app_assoc. cbn [app]. rewrite <-?app_assoc. tag_step.
    eapply decodes_bind0; [by apply decodes_edge_id|].
    eapply decodes_bind0; [by apply decodes_vertex_id|].
    eapply decodes_bind0; [by apply decodes_vertex_id|]. rewrite (app_assoc (be_bytes 4 _)).
    eapply decodes_bind0; [by apply decodes_string|].
    eapply decodes_bind0; [by apply decodes_u64|]. rewrite (app_assoc (be_bytes 8 (start _))).
    eapply decodes_bind0; [by apply decodes_interval|].
    eapply decodes_bind0; [by apply decodes_time|].
    eapply decodes_bind_nil; [exact Hp|].
    eapply decodes_lift_bind; [by rewrite EdgeVersion_new_self by (done || apply Hps)|apply decodes_ret].
  - intros (Hid & Hver & Ht) He. apply (inj Ok) in He as <-. apply emits_put. tag_step.
    eapply decodes_bind0; [by apply decodes_edge_id|].
    eapply decodes_bind0; [by apply decodes_u64|].
    eapply decodes_bind_nil; [by apply decodes_time|]. destruct t. apply decodes_ret.
  - intros Ht [-> _]%put_bytes_Ok. split; [done|]. exists (5 :: transaction_bytes t). split.
    + cbn. rewrite <-!app_assoc. cbn. rewrite <-!app_assoc. do 5 f_equal. unfold len, transaction_bytes.
      destruct Ht as [(_ & _ & [Hl _]) _]. by rewrite Hl.
    + cbn. rewrite Z.sub_diag. tag_step.
      eapply decodes_bind_nil; [by apply decodes_transaction|apply decodes_ret].
  - intros (Hs & Hne & Hv) (st1 & Hstr & He)%bind_Ok. apply (emits_tag 6); [done|]. cbn.
    eapply emits_bind; [by apply emits_string|].
    eapply emits_bind; [by apply (encoder_value_emits (rm_value md) Hv 0)|].
    eapply emits_bind; [|apply emits_ret]. apply emits_lift. unfold ReplicaMetadata_new.
    rewrite bool_decide_eq_false_2 by done. by destruct md.
Qed.

Lemma encoder_mutations_decodes ms e e' limit msg :
  Forall mutation_ok ms → len ms ≤ limit → encoder_mutations ms e = Ok e' →
  ∃ p c, e' = e ++ p ∧ 0 ≤ c ≤ MAX_ALLOCATION_ITEMS ∧ decodes (mutations_with_limit limit msg) p c ms.
Proof.
  intros Hms Hlim. unfold encoder_mutations.
  intros (st1 & Hc & (st2 & He & Hst)%bind_Ok)%bind_Ok. apply (inj Ok) in Hst as <-.
  apply encoder_count_Ok in Hc as (-> & Hb & Hn); [|apply len_nonneg].
  apply (emits_list _ decoder_mutation) in He as (Hb2 & p & Hp & Hd).
  2:{ intros x st st' Hx. rewrite Forall_forall in Hms. by apply encoder_mutation_emits, Hms. }
  cbn in *. specialize (Hb2 ltac:(lia)).
  exists (be_bytes 4 (len ms) ++ p), (len ms + (MAX_ALLOCATION_ITEMS - len ms - st2.2)).
  split; [by rewrite Hp, app_assoc|]. split; [destruct Hd as [? _]; lia|].
  eapply decodes_bind0; [by apply decodes_count|]. rewrite (proj2 (Z.ltb_ge _ _)) by done.
  apply (decodes_bind _ _ [] p _ _ tt); [apply decodes_consume; lia|].
  unfold len at 1. by rewrite Nat2Z.id.
Qed.

Lemma decoder_mutations_decodes ms e e' :
  Forall mutation_ok ms → encoder_mutations ms e = Ok e' →
  ∃ p c, e' = e ++ p ∧ 0 ≤ c ≤ MAX_ALLOCATION_ITEMS ∧ decodes decoder_mutations p c ms.
Proof.
  intros Hms He. apply encoder_mutations_decodes; [done| |done].
  unfold encoder_mutations in He. apply bind_Ok in He as (st & Hc & _).
  apply encoder_count_Ok in Hc as (_ & _ & [_ Hmax]); [done|apply len_nonneg].
Qed.

(** ** Whole messages *)

(** [m] reads [p] to its end. *)
Definition reads {A} (m : decoder A) (p : bytes) (cost : Z) (a : A) : Prop :=
  0 ≤ cost ∧ ∀ b, cost ≤ b → m (mkDecoder p b) = Ok (a, mkDecoder [] (b - cost)).

Lemma decodes_reads {A} (m : decoder A) p c a : decodes m p c a → reads m p c a.
Proof. intros [Hc Hm]. split; [done|]. intros b Hb. specialize (Hm [] b Hb). by rewrite app_nil_r in Hm. Qed.

Lemma reads_bind {A B} (m : decoder A) (k : A → decoder B) p q c d a b :
  decodes m p c a → reads (k a) q d b → reads (m ≫= k) (p ++ q) (c + d) b.
Proof.
  intros [Hc Hm] [Hd Hk]. split; [lia|]. intros n Hn. unfold mbind, decoder_bind.
  rewrite Hm, Hk by lia. by rewrite Z.sub_add_distr.
Qed.
Lemma reads_bind0 {A B} (m : decoder A) (k : A → decoder B) p q d a b :
  decodes m p 0 a → reads (k a) q d b → reads (m ≫= k) (p ++ q) d b.
Proof. apply (reads_bind m k p q 0 d a b). Qed.
(** The last reader before the end. *)
Lemma reads_last {A B} (m : decoder A) (k : A → decoder B) p c a b :
  reads m p c a → reads (k a) [] 0 b → reads (m ≫= k) p c b.
Proof.
  intros [Hc Hm] [_ Hk]. split; [done|]. intros n Hn. unfold mbind, decoder_bind.
  rewrite Hm, Hk by lia. by rewrite Z.sub_0_r.
Qed.
Lemma reads_lift_bind {A B} (m : result ShardError A) (k : A → decoder B) q d a b :
  m = Ok a → reads (k a) q d b → reads (dlift m ≫= k) q d b.
Proof. intros -> [Hd Hk]. split; [done|]. intros n Hn. by apply Hk. Qed.
Lemma reads_ret {A} (a : A) : reads (mret a) [] 0 a.
Proof. apply decodes_reads, decodes_ret. Qed.
Lemma reads_lift {A} (m : result ShardError A) a : m = Ok a → reads (dlift m) [] 0 a.
Proof. intros Hm. by apply decodes_reads, decodes_lift. Qed.
Lemma reads_finish : reads decoder_finish [] 0 tt.
Proof. split; [lia|]. intros b _. by rewrite Z.sub_0_r. Qed.

(** ** Intents *)

Definition intent_ok (i : ParticipantIntent) : Prop :=
  id128_wf (pi_transaction_id i) ∧ id_wf (pi_shard_id i) ∧ time_wf (pi_start_time i) ∧
  in_u64 (pi_snapshot_applied_index i) ∧ Forall mutation_ok (pi_mutations i).

Lemma validate_intent_mutations_len ms :
  validate_intent_mutations ms = Ok tt → ms ≠ [] ∧ len ms ≤ MAX_TRANSACTION_INTENT_ITEMS.
Proof. unfold validate_intent_mutations. intros Hv. guard_in Hv as Hb. by to_prop. Qed.

Lemma unit_result {E} (m : result E unit) u : m = Ok u → m = Ok tt.
Proof. by destruct u. Qed.

Lemma be_bytes_app_ne n z (bs : bytes) : (0 < n)%nat → be_bytes n z ++ bs ≠ [].
Proof. intros Hn Heq%(f_equal length). rewrite length_app, length_be_bytes in Heq. cbn in Heq. lia. Qed.

Lemma decoder_new_Ok bs :
  bs ≠ [] → len bs ≤ MAX_COMMAND_BYTES → decoder_new bs = Ok (mkDecoder bs MAX_ALLOCATION_ITEMS).
Proof.
  intros Hne Hmax. unfold decoder_new. rewrite (proj2 (Z.eqb_neq _ _)), (proj2 (Z.ltb_ge _ _)); [done..|].
  unfold len. destruct bs; cbn; [done|lia].
Qed.

(** What [new] accepts, [new] rebuilds. *)
Lemma ParticipantIntent_new_self i bs :
  intent_encode_current i = Ok bs →
  ParticipantIntent_new (pi_transaction_id i) (pi_shard_id i) (pi_start_time i)
    (pi_snapshot_applied_index i) (pi_mutations i) = Ok i.
Proof.
  intros Hi. pose proof Hi as (u & Hv & _)%bind_Ok. unfold ParticipantIntent_new. rewrite Hv. cbn [mbind result_bind].
  replace (mkParticipantIntent _ _ _ _ _) with i by by destruct i. by rewrite Hi.
Qed.

Lemma intent_round_trip i bs :
  intent_ok i → intent_encode_current i = Ok bs → intent_decode_current bs = Ok i.
Proof.
  intros (Hid & Hsh & Ht & Hidx & Hms) Henc. pose proof (ParticipantIntent_new_self i bs Henc) as Hnew.
  unfold intent_encode_current in Henc. apply bind_Ok in Henc as ([] & Hv & Henc).
  apply bind_Ok in Henc as (e & He & Henc). apply bind_Ok in Henc as (e' & Hf & Henc).
  guard_in Henc as Hmax. to_prop. apply (inj Ok) in Henc as ->.
  unfold encoder_finish in Hf. guard_in Hf as Hcmd. apply (inj Ok) in Hf as ->.
  apply validate_intent_mutations_len in Hv as [Hne Hlen].
  eapply encoder_mutations_decodes in He as (p & c & -> & Hc & Hd); [|done..].
  unfold intent_decode_current. rewrite (proj2 (Z.ltb_ge _ _)) by done.
  rewrite decoder_new_Ok; [|by rewrite <-app_assoc; apply be_bytes_app_ne; lia|by to_prop].
  cbn [mbind result_bind].
  enough (reads intent_decoder ((be_bytes 4 SUPPORTED_TRANSACTION_INTENT_VERSION ++
    be_bytes 16 (pi_transaction_id i) ++ be_bytes 8 (pi_shard_id i) ++ be_bytes 8 (pi_start_time i) ++
    be_bytes 8 (pi_snapshot_applied_index i)) ++ p) c i) as [_ Hr] by by rewrite Hr by lia.
  rewrite <-!app_assoc. eapply reads_bind0; [by apply decodes_u32|]. cbn beta.
  eapply reads_bind0; [apply decodes_u128, Hid|].
  eapply reads_lift_bind; [by rewrite TransactionId_new_Ok by apply Hid|].
  eapply reads_bind0; [apply decodes_u64, Hsh|].
  eapply reads_lift_bind; [by rewrite nonzero_Ok by apply Hsh|].
  eapply reads_bind0; [by apply decodes_time|].
  eapply reads_bind0; [by apply decodes_u64|].
  eapply reads_last; [by apply decodes_reads, Hd|].
  eapply reads_last; [apply reads_finish|]. by apply reads_lift.
Qed.

(** ** Commands *)

Definition command_header_ok (h : CommandHeader) : Prop :=
  id128_wf (ch_command_id h) ∧ id_wf (ch_placement_epoch h) ∧ id_wf (ch_backend_generation h).
Definition home_participant_ok (p : HomeDecisionParticipant) : Prop :=
  id_wf (hp_shard_id p) ∧ id_wf (hp_placement_epoch p) ∧ id_wf (hp_backend_generation p) ∧
  in_u64 (hp_snapshot_applied_index p) ∧ digest_wf (hp_intent_digest p) ∧ hp_intent_digest p ≠ zero_digest.
Definition home_manifest_ok (m : HomeDecisionManifest) : Prop :=
  time_wf (hm_start_time m) ∧ in_u64 (hm_catalog_version m) ∧
  Forall home_participant_ok (hm_participants m) ∧
  HomeDecisionManifest_new (hm_start_time m) (hm_catalog_version m) (hm_participants m) = Ok m.
(** An online context is one that [MigrationCommand::online] accepted. *)
Definition online_ok (c : MigrationCommand) (o : OnlineMigrationContext) : Prop :=
  in_u128 (om_migration_id o) ∧ in_u64 (om_source_epoch o) ∧ in_u64 (om_source_generation o) ∧
  in_u64 (om_retained_generation o) ∧ in_u64 (om_target_generation o) ∧
  digest_wf (om_target_backend_class_digest o) ∧ in_u64 (om_catalog_version o) ∧
  in_u64 (om_verified_index o) ∧ digest_wf (om_logical_digest o) ∧
  MigrationCommand_online (ch_command_id (mc_header c)) (om_migration_id o) (om_source_epoch o)
    (om_source_generation o) (om_retained_generation o) (om_target_generation o)
    (om_target_backend_class_digest o) (om_catalog_version o) (om_verified_index o)
    (om_logical_digest o) (mc_phase c) = Ok c.

(** What the constructors guarantee of a command. *)
Definition shard_command_ok (c : ShardCommand) : Prop :=
  command_header_ok (command_header c) ∧
  match c with
  | CmdCommitSingleShard c => cs_mutations c ≠ [] ∧ Forall mutation_ok (cs_mutations c)
  | CmdCommitSingleShardTransaction c =>
      id128_wf (ct_transaction_id c) ∧ time_wf (ct_start_time c) ∧
      in_u64 (ct_snapshot_applied_index c) ∧ digest_wf (ct_request_digest c) ∧
      Forall mutation_ok (ct_mutations c)
  | CmdPrewriteIntent c => record_ok (pw_prepared c) ∧ intent_ok (pw_intent c)
  | CmdRecordHomeDecision c => record_ok (hd_decision c) ∧ home_manifest_ok (hd_manifest c)
  | CmdFinalizeParticipant c =>
      record_ok (fp_terminal c) ∧ match fp_intent c with Some i => intent_ok i | None => True end
  | CmdAdvanceClosedTimestamp c => time_wf (ac_closed_timestamp c)
  | CmdInstallSnapshot c =>
      id128_wf (is_snapshot_id c) ∧ digest_wf (is_content_digest c) ∧ is_content_digest c ≠ zero_digest
  | CmdMigration c => match mc_online c with Some o => online_ok c o | None => True end
  end.

Lemma CommandHeader_new_self h :
  command_header_ok h →
  CommandHeader_new (ch_command_id h) (ch_placement_epoch h) (ch_backend_generation h) = Ok h.
Proof.
  intros (_ & [_ He] & [_ Hg]). unfold CommandHeader_new. rewrite !nonzero_Ok by done. by destruct h.
Qed.

Lemma decodes_header h : command_header_ok h → decodes decoder_header (header_bytes h) 0 h.
Proof.
  intros Hok. pose proof Hok as (Hid & He & Hg).
  eapply decodes_bind0; [apply decodes_u128, Hid|].
  eapply decodes_lift_bind; [by rewrite (id128_new CommandId_new _ _ eq_refl Hid)|].
  eapply decodes_bind0; [apply decodes_u64, He|].
  eapply decodes_bind_nil; [apply decodes_u64, Hg|].
  apply decodes_lift. by apply CommandHeader_new_self.
Qed.

Lemma decodes_nonzero z : id_wf z → decodes decoder_nonzero (be_bytes 8 z) 0 z.
Proof.
  intros Hz. eapply decodes_bind_nil; [apply decodes_u64, Hz|]. apply decodes_lift.
  by rewrite nonzero_Ok by apply Hz.
Qed.

Lemma decodes_intent i bs :
  intent_ok i → intent_encode_current i = Ok bs → in_u32 (len bs) →
  decodes decoder_intent (be_bytes 4 (len bs) ++ bs) 0 i.
Proof.
  intros Hi Henc Hlen. eapply decodes_bind_nil; [by apply decodes_bytes|]. apply decodes_lift.
  by apply intent_round_trip.
Qed.

Lemma encoder_participant_decodes p e e' :
  home_participant_ok p → encoder_participant p e = Ok e' →
  ∃ bs, e' = e ++ bs ∧ decodes decoder_participant bs 0 p.
Proof.
  intros (Hs & He & Hg & Hi & Hd & Hz) [-> _]%encoder_bytes_Ok.
  eexists. split; [rewrite <-app_assoc; reflexivity|]. rewrite <-!app_assoc.
  eapply decodes_bind0; [by apply decodes_nonzero|].
  eapply decodes_bind0; [by apply decodes_nonzero|].
  eapply decodes_bind0; [by apply decodes_nonzero|].
  eapply decodes_bind0; [by apply decodes_u64|].
  eapply decodes_bind_nil; [|apply decodes_lift].
  - unfold len. rewrite (proj1 Hd). by apply decodes_fixed_32.
  - unfold HomeDecisionParticipant_new. rewrite bool_decide_eq_false_2 by done. by destruct p.
Qed.

Lemma encoder_participants_decodes ps : ∀ pre e e', Forall home_participant_ok ps →
  try_fold encoder_participant ps e = Ok e' →
  ∃ bs, e' = e ++ bs ∧
    decodes (times (length ps) (λ ps, p ← decoder_participant; mret (ps ++ [p])) pre) bs 0 (pre ++ ps).
Proof.
  induction ps as [|p ps IH]; intros pre e e' Hok Hf; cbn in *.
  { injection Hf as <-. exists []. rewrite !app_nil_r. split; [done|apply decodes_ret]. }
  apply Forall_cons_1 in Hok as [Hp Hps]. destruct (encoder_participant p e) as [e1|] eqn:He; [|done].
  apply encoder_participant_decodes in He as (b1 & -> & Hd1); [|done].
  destruct (IH (pre ++ [p]) _ _ Hps Hf) as (b2 & -> & Hd2). exists (b1 ++ b2).
  split; [by rewrite app_assoc|]. rewrite <-app_assoc in Hd2.
  eapply decodes_bind0; [|exact Hd2]. eapply decodes_bind_nil; [done|apply decodes_ret].
Qed.

Lemma encoder_transaction_app t e : encoder_transaction t e = e ++ transaction_bytes t.
Proof. done. Qed.

Section commands.
Context (blake3 : bytes → Digest32).

(** A payload is read back as the command it encodes. *)
Definition payload_reads (c : ShardCommand) (e e' : bytes) : Prop :=
  ∃ p cost, e' = e ++ p ∧ cost ≤ MAX_ALLOCATION_ITEMS ∧
    reads (decode_payload blake3 (command_tag c) (command_header c)) p cost c.

Lemma payload_decodes c e e' p :
  e' = e ++ p → decodes (decode_payload blake3 (command_tag c) (command_header c)) p 0 c →
  payload_reads c e e'.
Proof. intros -> Hd. exists p, 0. by repeat split; try apply (decodes_reads _ _ _ _ Hd). Qed.

Lemma single_shard_payload c e e' :
  shard_command_ok (CmdCommitSingleShard c) → encode_payload (CmdCommitSingleShard c) e = Ok e' →
  payload_reads (CmdCommitSingleShard c) e e'.
Proof.
  intros (_ & _ & Hms) (p & c' & -> & Hc & Hd)%decoder_mutations_decodes; [|done].
  exists p, c'. split; [done|]. split; [lia|]. apply decodes_reads.
  eapply decodes_bind_nil; [exact Hd|]. destruct c. apply decodes_ret.
Qed.

Lemma single_shard_transaction_payload c e e' :
  shard_command_ok (CmdCommitSingleShardTransaction c) →
  encode_payload (CmdCommitSingleShardTransaction c) e = Ok e' →
  payload_reads (CmdCommitSingleShardTransaction c) e e'.
Proof.
  intros (_ & Hid & Ht & Hi & Hd & Hms) (e1 & [-> _]%encoder_bytes_Ok & He)%bind_Ok.
  apply decoder_mutations_decodes in He as (p & c' & -> & Hc & Hdm); [|done].
  eexists _, c'. split; [rewrite <-!app_assoc; reflexivity|]. split; [lia|]. apply decodes_reads.
  rewrite <-?app_assoc. eapply decodes_bind0; [apply decodes_u128, Hid|].
  eapply decodes_lift_bind; [by rewrite TransactionId_new_Ok by apply Hid|].
  eapply decodes_bind0; [by apply decodes_time|].
  eapply decodes_bind0; [by apply decodes_u64|]. rewrite app_assoc.
  eapply decodes_bind0; [unfold len; rewrite (proj1 Hd); by apply decodes_fixed_32|].
  eapply decodes_bind_nil; [exact Hdm|]. destruct c. apply decodes_ret.
Qed.

Lemma prewrite_payload c e e' :
  shard_command_ok (CmdPrewriteIntent c) → encode_payload (CmdPrewriteIntent c) e = Ok e' →
  payload_reads (CmdPrewriteIntent c) e e'.
Proof.
  intros (_ & Hp & Hi) (bs & Hbs & [-> Hlen]%encoder_bytes_Ok)%bind_Ok.
  eapply payload_decodes; [rewrite encoder_transaction_app, <-app_assoc; reflexivity|].
  eapply decodes_bind0; [by apply decodes_transaction|].
  eapply decodes_bind_nil; [by apply decodes_intent|]. destruct c. apply decodes_ret.
Qed.

Lemma home_decision_payload c e e' :
  shard_command_ok (CmdRecordHomeDecision c) → home_decision_validate blake3 c = Ok tt →
  encode_payload (CmdRecordHomeDecision c) e = Ok e' → payload_reads (CmdRecordHomeDecision c) e e'.
Proof.
  intros (Hh & Hd & Ht & Hver & Hps & Hnew) Hv (n & [-> Hn]%u32_of_len_Ok & He)%bind_Ok.
  apply (encoder_participants_decodes _ []) in He as (bs & -> & Hbs); [|done].
  assert (0 ≤ len (hm_participants (hd_manifest c)) ≤ MAX_TRANSACTION_INTENT_ITEMS) as Hlen.
  { split; [apply len_nonneg|]. unfold HomeDecisionManifest_new in Hnew. guard_in Hnew as Hg. to_prop.
    unfold len in *. by rewrite sort_by_perm in *. }
  assert (MAX_TRANSACTION_INTENT_ITEMS ≤ MAX_COLLECTION_ITEMS ∧ MAX_TRANSACTION_INTENT_ITEMS ≤ MAX_ALLOCATION_ITEMS)
    as [? ?] by done.
  eexists _, (len (hm_participants (hd_manifest c))). split; [rewrite encoder_transaction_app, <-!app_assoc; reflexivity|].
  split; [lia|]. apply decodes_reads. rewrite <-?app_assoc.
  eapply decodes_bind0; [by apply decodes_transaction|].
  eapply decodes_bind0; [by apply decodes_time|].
  eapply decodes_bind0; [by apply decodes_u64|].
  replace (len (hm_participants (hd_manifest c))) with (len (hm_participants (hd_manifest c)) + 0) at 2 by lia.
  eapply decodes_bind; [apply decodes_collection_count; lia|]. cbn beta. unfold len at 1. rewrite Nat2Z.id.
  eapply decodes_bind_nil; [exact Hbs|].
  eapply decodes_lift_bind; [exact Hnew|].
  eapply decodes_lift_bind; [|apply decodes_ret]. unfold RecordHomeDecision_new.
  rewrite (CommandHeader_new_self _ Hh). cbn [mbind result_bind].
  replace (mkRecordHomeDecision _ _ _) with c by by destruct c. by rewrite Hv.
Qed.

Lemma finalize_payload c e e' :
  shard_command_ok (CmdFinalizeParticipant c) → encode_payload (CmdFinalizeParticipant c) e = Ok e' →
  payload_reads (CmdFinalizeParticipant c) e e'.
Proof.
  intros (_ & Ht & Hi) He. cbn [encode_payload] in He. destruct c as [h t [i|]]; cbn [fp_intent] in *.
  - apply bind_Ok in He as (bs & Hbs & [-> Hlen]%encoder_bytes_Ok).
    eapply payload_decodes; [rewrite encoder_transaction_app, <-!app_assoc; reflexivity|].
    eapply decodes_bind0; [by apply decodes_transaction|].
    eapply decodes_bind0; [by apply decodes_u8|]. cbn beta iota.
    eapply decodes_bind_nil; [|apply decodes_ret].
    eapply decodes_bind_nil; [by apply decodes_intent|apply decodes_ret].
  - apply (inj Ok) in He as <-.
    eapply payload_decodes; [rewrite encoder_transaction_app, <-!app_assoc; reflexivity|].
    eapply decodes_bind0; [by apply decodes_transaction|].
    eapply decodes_bind_nil; [by apply decodes_u8|]. cbn beta iota.
    eapply decodes_bind_nil; apply decodes_ret.
Qed.

Lemma snapshot_payload c e e' :
  shard_command_ok (CmdInstallSnapshot c) → encode_payload (CmdInstallSnapshot c) e = Ok e' →
  payload_reads (CmdInstallSnapshot c) e e'.
Proof.
  intros (Hh & Hid & Hd & Hz) [-> _]%encoder_bytes_Ok.
  eapply payload_decodes; [rewrite <-app_assoc; reflexivity|].
  eapply decodes_bind0; [apply decodes_u128, Hid|].
  eapply decodes_bind_nil; [unfold len; rewrite (proj1 Hd); by apply decodes_fixed_32|].
  eapply decodes_lift_bind; [|apply decodes_ret]. unfold InstallSnapshot_new.
  rewrite (proj2 (Z.eqb_neq _ _)) by apply Hid. rewrite bool_decide_eq_false_2 by done.
  cbn [orb]. rewrite (CommandHeader_new_self _ Hh). by destruct c.
Qed.

Lemma phase_tag_byte p : byte_ok (migration_phase_tag p).
Proof. by destruct p. Qed.
Lemma decode_phase_tag p : decode_migration_phase (migration_phase_tag p) = Ok p.
Proof. by destruct p. Qed.

Lemma online_reads c o e e' :
  command_header_ok (mc_header c) → online_ok c o → encoder_online o e = Ok e' →
  ∃ p, e' = e ++ p ∧ p ≠ [] ∧ reads (decoder_online (mc_header c) (mc_phase c)) p 0 c.
Proof.
  intros Hh (Hid & Hse & Hsg & Hrg & Htg & Hcd & Hver & Hidx & Hld & Hon)
    (e1 & [-> _]%encoder_bytes_Ok & [-> _]%encoder_bytes_Ok)%bind_Ok.
  eexists. split; [rewrite <-!app_assoc; reflexivity|]. split; [done|]. apply decodes_reads.
  eapply decodes_bind0; [by apply decodes_u8|]. cbn beta iota.
  eapply decodes_bind0; [by apply decodes_u128|].
  do 4 (eapply decodes_bind0; [by apply decodes_u64|]). rewrite app_assoc.
  eapply decodes_bind0; [unfold len; rewrite (proj1 Hcd); by apply decodes_fixed_32|].
  do 2 (eapply decodes_bind0; [by apply decodes_u64|]).
  eapply decodes_bind_nil; [unfold len; rewrite (proj1 Hld); by apply decodes_fixed_32|].
  apply decodes_lift. unfold decode_online. rewrite Hon. cbn [mbind result_bind].
  by rewrite bool_decide_eq_true_2.
Qed.

Lemma migration_payload c e e' :
  shard_command_ok (CmdMigration c) → encode_payload (CmdMigration c) e = Ok e' →
  payload_reads (CmdMigration c) e e'.
Proof.
  intros [Hh Ho] He. cbn [encode_payload] in He. exists (drop (length e) e'), 0.
  destruct (mc_online c) as [o|] eqn:Hon.
  - apply online_reads with (c := c) in He as (p & -> & Hp & Hr); [|done..].
    rewrite <-app_assoc, drop_app_length. split; [done|]. split; [done|].
    eapply reads_bind0; [apply decodes_u8, phase_tag_byte|].
    eapply reads_lift_bind; [apply decode_phase_tag|].
    eapply reads_last; [|apply reads_ret]. split; [done|]. intros b Hb.
    unfold decoder_migration, is_finished. cbn [d_rest]. rewrite bool_decide_eq_false_2 by done.
    by apply Hr.
  - apply (inj Ok) in He as <-. rewrite drop_app_length. split; [done|]. split; [done|].
    rewrite <-(app_nil_r [_]). eapply reads_bind0; [apply decodes_u8, phase_tag_byte|].
    eapply reads_lift_bind; [apply decode_phase_tag|].
    eapply reads_last; [|apply reads_ret]. split; [done|]. intros b _.
    unfold decoder_migration, is_finished. cbn [d_rest]. rewrite bool_decide_eq_true_2 by done.
    unfold MigrationCommand_new. rewrite (CommandHeader_new_self _ Hh). cbn. rewrite Z.sub_0_r.
    destruct c as [? ? on]. cbn in Hon. by subst.
Qed.

Lemma encode_payload_reads c e e' :
  shard_command_ok c → encode_validate blake3 c = Ok tt → encode_payload c e = Ok e' →
  payload_reads c e e'.
Proof.
  intros Hok Hv He. destruct c; [by apply single_shard_payload|by apply single_shard_transaction_payload
    |by apply prewrite_payload|by apply home_decision_payload|by apply finalize_payload|
    |by apply snapshot_payload|by apply migration_payload].
  apply (inj Ok) in He as <-. eapply payload_decodes; [done|]. destruct Hok as [_ Ht].
  eapply decodes_bind_nil; [by apply decodes_time|]. destruct command. apply decodes_ret.
Qed.
End commands.

(** What passes the check before encoding persists some mutations. *)
Lemma encode_validate_mutations blake3 c :
  encode_validate blake3 c = Ok tt → ∃ ms, command_mutations blake3 c = Ok ms.
Proof.
  destruct c as [c|c|c|c|c|c|c|c]; cbn; intros Hv; rewrite ?Hv; try by eauto.
  - unfold prewrite_mutations. rewrite Hv. cbn. unfold prewrite_validate in Hv. guard_in Hv as Hg.
    apply bind_Ok in Hv as (d & Hd & Hv). guard_in Hv as Hg2.
    apply bind_Ok in Hv as (bs & Hbs & _). unfold intent_metadata. rewrite Hbs. by eexists.
  - unfold home_decision_mutations. rewrite Hv. by eexists.
  - unfold finalize_mutations. rewrite Hv. by eexists.
  - unfold migration_metadata. destruct (mc_online c); by eexists.
Qed.

(** Encoding and decoding a whole command. *)
Lemma encode_decodes (blake3 : bytes → Digest32) (c : ShardCommand) (bs : bytes) :
  shard_command_ok c → encode_current blake3 c = Ok bs → decode blake3 bs = Ok c.
Proof.
  intros Hok ([] & Hv & (e & He & Hf)%bind_Ok)%bind_Ok.
  unfold encoder_finish in Hf. guard_in Hf as Hmax. apply (inj Ok) in Hf as ->. to_prop.
  destruct (encode_payload_reads blake3 _ _ _ Hok Hv He) as (p & cost & -> & Hcost & Hr).
  unfold decode. rewrite decoder_new_Ok; [|by rewrite <-app_assoc; apply be_bytes_app_ne; lia|done].
  cbn [mbind result_bind].
  enough (reads (command_decoder blake3) ((be_bytes 4 SUPPORTED_SHARD_COMMAND_FORMAT_VERSION ++
    [command_tag c] ++ header_bytes (command_header c)) ++ p) cost c) as [_ Hc] by by rewrite Hc.
  rewrite <-!app_assoc. eapply reads_bind0; [by apply decodes_u32|]. cbn beta iota.
  eapply reads_bind0; [apply decodes_u8; by destruct c|].
  eapply reads_bind0; [apply decodes_header, Hok|].
  eapply reads_last; [exact Hr|]. eapply reads_last; [apply reads_finish|].
  assert (is_empty_commit c = false) as ->.
  { destruct c as [c|c| | | | | |]; try done; cbn; apply bool_decide_eq_false_2; [apply Hok|].
    apply bind_Ok in Hv as ([] & Hv & _). by apply validate_intent_mutations_len in Hv as [? _]. }
  destruct (encode_validate_mutations blake3 c Hv) as [ms Hms].
  eapply reads_lift_bind; [exact Hms|apply reads_ret].
Qed.

(** ** Properties *)

(** C17. Whatever a constructor accepts and [encode_current] writes, [decode] reads back as the same
    command: every size, count and depth budget the encoder respects is enough for the decoder. *)
Theorem command_round_trip (blake3 : bytes → Digest32) (c : ShardCommand) (bs : bytes) :
  shard_command_ok c → encode_current blake3 c = Ok bs → decode blake3 bs = Ok c.
Proof. apply encode_decodes. Qed.

Definition example_command : ShardCommand :=
  CmdCommitSingleShardTransaction
    (mkSingleShardTransaction (mkCommandHeader 5 1 1) 9 3 0 (replicate 32 7)
       [PutVertex (mkVertexVersion 7 1 (mkValidInterval 0 10) 4
          [("age", VInteger 41); ("tags", VList [VString "a"; VMap [("k", VNull)]])]);
        DeleteEdge (mkEdgeTombstone 8 2 4)]).

Lemma command_round_trip_witness :
  ∃ bs, encode_current checksum32 example_command = Ok bs ∧ decode checksum32 bs = Ok example_command.
Proof.
  eexists. split; [vm_compute; reflexivity|].
  apply (command_round_trip checksum32 example_command); [|vm_compute; reflexivity].
  repeat first [done|split|constructor].
Defined.
