(* ===== verification/ShardMetadata.v ===== *)
(** * The durable metadata of a shard ([dtg-shard/src/state_machine.rs])

    What a shard stores about transactions besides their graph mutations: the state of each prepared
    or terminated transaction, the index of the active intents, the receipts of single-shard
    transactions and the home decisions.  Each is a named metadata record with its own encoding. *)

From S2P Require Import Prelude Text Kernel Encoding Storage ShardWire ShardCommand.
Open Scope Z_scope.

Definition HISTORY_PAGE_LIMIT : Z := 256.
Definition HISTORY_PAGE_BUDGET : nat := 256.
Definition HISTORY_RECORD_BUDGET : Z := 256 * 256.
Definition HOME_DECISION_METADATA_PREFIX : string := "dtg.transaction_home_decision.v2/".
Definition SINGLE_SHARD_TRANSACTION_METADATA_NAME : string := "dtg.single_shard_transaction.v1/".
Definition ACTIVE_TRANSACTION_INTENTS_METADATA_NAME : string := "dtg.transaction_active_intents.v1".
Definition TRANSACTION_STATE_METADATA_PREFIX : string := "dtg.transaction_state.v1/".

Definition corrupt_intent_history (message : string) : ShardError := CorruptIntentHistory message.

(** ** Graph writes *)

Inductive GraphIdentity := GraphVertex (id : VertexId) | GraphEdge (id : EdgeId).
Inductive GraphExtent := ExtentInterval (i : ValidInterval) | ExtentComplete.

#[export] Instance GraphIdentity_eq_dec : EqDecision GraphIdentity.
Proof. solve_decision. Defined.

Definition graph_write (mutation : LogicalMutation) : option (GraphIdentity * GraphExtent) :=
  match mutation with
  | PutVertex v => Some (GraphVertex (v_id v), ExtentInterval (v_valid_time v))
  | DeleteVertex t => Some (GraphVertex (vt_id t), ExtentComplete)
  | PutEdge e => Some (GraphEdge (e_id e), ExtentInterval (e_valid_time e))
  | DeleteEdge t => Some (GraphEdge (et_id t), ExtentComplete)
  | PutTransaction _ | PutReplicaMetadata _ => None
  end.

Definition graph_mutation_time (mutation : LogicalMutation) : option TransactionTime :=
  match mutation with
  | PutVertex v => Some (v_transaction_time v)
  | DeleteVertex t => Some (vt_transaction_time t)
  | PutEdge e => Some (e_transaction_time e)
  | DeleteEdge t => Some (et_transaction_time t)
  | PutTransaction _ | PutReplicaMetadata _ => None
  end.

Definition writes_conflict (l r : GraphIdentity * GraphExtent) : bool :=
  bool_decide (l.1 = r.1) &&
  match l.2, r.2 with
  | ExtentInterval i, ExtentInterval j => overlaps i j
  | ExtentComplete, _ | _, ExtentComplete => true
  end.

Definition mutations_conflict (left right : list LogicalMutation) : bool :=
  existsb (λ l, existsb (writes_conflict l) (omap graph_write right)) (omap graph_write left).

(** ** Names: a prefix and the identifier as 32 hexadecimal digits *)

Definition hex_digit (n : Z) : Ascii.ascii :=
  Ascii.ascii_of_N (Z.to_N (if n <? 10 then 48 + n else 87 + n)).
Fixpoint hex_digits (n : nat) (z : Z) : string :=
  match n with
  | O => EmptyString
  | S n => String (hex_digit ((z / 16 ^ Z.of_nat n) mod 16)) (hex_digits n z)
  end.

(** [char::to_digit(16)]. *)
Definition hex_value (a : Ascii.ascii) : option Z :=
  let n := Z.of_N (Ascii.N_of_ascii a) in
  if between 48 57 n then Some (n - 48)
  else if between 97 102 n then Some (n - 87)
  else if between 65 70 n then Some (n - 55)
  else None.
Fixpoint parse_hex (s : string) (acc : Z) : option Z :=
  match s with
  | EmptyString => Some acc
  | String a s => d ← hex_value a; parse_hex s (acc * 16 + d)
  end.
(** [u128::from_str_radix(s, 16)]: an optional plus sign, digits, no overflow. *)
Definition u128_from_hex (s : string) : option Z :=
  let digits := match s with String a s' => if Ascii.eqb a (Ascii.ascii_of_N 43) then s' else s | _ => s end in
  if bool_decide (digits = EmptyString) then None
  else v ← parse_hex digits 0; if v <? 2 ^ 128 then Some v else None.

(** [str::strip_prefix]. *)
Definition strip_prefix (prefix name : string) : option string :=
  if String.prefix prefix name
  then Some (String.substring (String.length prefix) (String.length name - String.length prefix) name)
  else None.

Definition transaction_id_from_metadata_name (name prefix description : string)
    : result ShardError TransactionId :=
  match strip_prefix prefix name with
  | None => Err (corrupt_intent_history ("metadata is not a " +:+ description +:+ " record"))
  | Some suffix =>
      let malformed := corrupt_intent_history (description +:+ " metadata name is malformed") in
      if negb (Nat.eqb (String.length suffix) 32) then Err malformed
      else value ← ok_or malformed (u128_from_hex suffix); lift_kernel (TransactionId_new value)
  end.

Definition transaction_state_metadata_name (transaction_id : TransactionId) : string :=
  TRANSACTION_STATE_METADATA_PREFIX +:+ hex_digits 32 transaction_id.

(** ** The state of a transaction *)

Record DurableTransactionState := mkDurableState {
  ds_intent : ParticipantIntent;
  ds_terminal : option TransactionRecord;
}.

Section metadata.
Context (blake3 : bytes → Digest32).

Definition validate_intent_terminal (intent : ParticipantIntent) (terminal : TransactionRecord)
    : result ShardError unit :=
  let failure := corrupt_intent_history "participant terminal record contradicts its durable intent" in
  let valid := match tr_state terminal with
               | Committed => pi_start_time intent <? tr_transaction_time terminal
               | Aborted => tr_transaction_time terminal =? pi_start_time intent
               | Prepared => false
               end in
  if negb (tr_id terminal =? pi_transaction_id intent) then Err failure
  else
    digest ← intent_digest blake3 intent;
    if bool_decide (tr_record_digest terminal = digest) && valid then Ok tt else Err failure.

Definition matches_finalize (self : DurableTransactionState) (command : FinalizeParticipant) : bool :=
  bool_decide (ds_terminal self = Some (fp_terminal command)) &&
  match tr_state (fp_terminal command) with
  | Committed => bool_decide (fp_intent command = Some (ds_intent self))
  | Aborted => bool_decide (fp_intent command = None)
  | Prepared => false
  end.

Definition terminal_tag (terminal : option TransactionRecord) : result ShardError Z :=
  match tr_state <$> terminal with
  | None => Ok 1
  | Some Committed => Ok 2
  | Some Aborted => Ok 3
  | Some Prepared =>
      Err (corrupt_intent_history "durable transaction state cannot store Prepared as a terminal")
  end.

Definition transaction_state_metadata (intent : ParticipantIntent) (terminal : option TransactionRecord)
    : result ShardError ReplicaMetadata :=
  _ ← match terminal with Some t => validate_intent_terminal intent t | None => Ok tt end;
  encoded ← intent_encode_current intent;
  tag ← terminal_tag terminal;
  let trailer := match terminal with
                 | Some t => be_bytes 8 (tr_transaction_time t) ++ tr_record_digest t
                 | None => []
                 end in
  lift_store (ReplicaMetadata_new (transaction_state_metadata_name (pi_transaction_id intent))
    (VBytes (be_bytes 4 1 ++ [tag] ++ be_bytes 4 (len encoded) ++ encoded ++ trailer))).

(** The terminal record behind the intent of a state record. *)
Definition decode_terminal (intent : ParticipantIntent) (transaction_id : TransactionId) (tag : Z)
    (trailer : bytes) : result ShardError (option TransactionRecord) :=
  if (tag =? 1) && (len trailer =? 0) then Ok None
  else if ((tag =? 2) || (tag =? 3)) && (len trailer =? 40) then
    let state := if tag =? 2 then Committed else Aborted in
    transaction_time ← lift_kernel (TransactionTime_new (i64_of_be_bytes (take 8 trailer)));
    terminal ← lift_store (TransactionRecord_new transaction_id state transaction_time (drop 8 trailer));
    _ ← validate_intent_terminal intent terminal;
    Ok (Some terminal)
  else Err (corrupt_intent_history "durable transaction state tag or trailing bytes are invalid").

Definition decode_transaction_state_metadata (metadata : ReplicaMetadata)
    : result ShardError DurableTransactionState :=
  transaction_id ← transaction_id_from_metadata_name (rm_name metadata)
                     TRANSACTION_STATE_METADATA_PREFIX "durable transaction state";
  match rm_value metadata with
  | VBytes bs =>
      if (len bs <? 9) || negb (be_value (take 4 bs) =? 1)
      then Err (corrupt_intent_history "durable transaction state has an unsupported encoding")
      else
        let tag := be_value (slice 4 5 bs) in
        let intent_end := 9 + be_value (slice 5 9 bs) in
        if len bs <? intent_end
        then Err (corrupt_intent_history "durable transaction state intent payload is truncated")
        else
          intent ← map_err (λ error, corrupt_intent_history
                       ("durable transaction state intent is corrupt: " +:+ ShardError_to_string error))
                     (intent_decode_current (slice 9 (Z.to_nat intent_end) bs));
          if negb (pi_transaction_id intent =? transaction_id)
          then Err (corrupt_intent_history "durable transaction state name contradicts its transaction ID")
          else
            terminal ← decode_terminal intent transaction_id tag (drop (Z.to_nat intent_end) bs);
            Ok (mkDurableState intent terminal)
  | _ => Err (corrupt_intent_history "durable transaction state is not bytes")
  end.

(** ** The index of active intents *)

Fixpoint active_entries (active : list (TransactionId * ParticipantIntent)) : result ShardError bytes :=
  match active with
  | [] => Ok []
  | (transaction_id, intent) :: active =>
      digest ← intent_digest blake3 intent;
      rest ← active_entries active;
      Ok (be_bytes 16 transaction_id ++ digest ++ rest)
  end.

Definition active_intents_metadata (active : gmap TransactionId ParticipantIntent)
    : result ShardError ReplicaMetadata :=
  if MAX_TRANSACTION_INTENT_ITEMS <? Z.of_nat (size active)
  then Err (InvalidCommand "active transaction intent count exceeds the supported bound")
  else
    bs ← active_entries (entries active);
    lift_store (ReplicaMetadata_new ACTIVE_TRANSACTION_INTENTS_METADATA_NAME
      (VBytes (be_bytes 4 1 ++ be_bytes 4 (Z.of_nat (size active)) ++ bs))).

(** The chunks of 48 bytes, in strictly ascending order of the identifiers. *)
Fixpoint decode_active_chunks (count : nat) (bs : bytes) (previous : option TransactionId)
    (indexed : gmap TransactionId Digest32) : result ShardError (gmap TransactionId Digest32) :=
  match count with
  | O => Ok indexed
  | S count =>
      transaction_id ← lift_kernel (TransactionId_new (be_value (take 16 bs)));
      if match previous with Some p => transaction_id <=? p | None => false end
      then Err (corrupt_intent_history "active transaction intent index is not strictly ordered")
      else
        decode_active_chunks count (drop 48 bs) (Some transaction_id)
          (<[transaction_id := slice 16 48 bs]> indexed)
  end.

Definition decode_active_intents_metadata (metadata : ReplicaMetadata)
    : result ShardError (gmap TransactionId Digest32) :=
  if negb (bool_decide (rm_name metadata = ACTIVE_TRANSACTION_INTENTS_METADATA_NAME))
  then Err (corrupt_intent_history "metadata is not the active transaction intent index")
  else
    match rm_value metadata with
    | VBytes bs =>
        if (len bs <? 8) || negb (be_value (take 4 bs) =? 1)
        then Err (corrupt_intent_history "active transaction intent index has an unsupported encoding")
        else
          let count := be_value (slice 4 8 bs) in
          if (MAX_TRANSACTION_INTENT_ITEMS <? count) || negb (len bs =? 8 + count * 48)
          then Err (corrupt_intent_history
                      "active transaction intent index exceeds its bound or is truncated")
          else decode_active_chunks (Z.to_nat count) (drop 8 bs) None ∅
    | _ => Err (corrupt_intent_history "active transaction intent index is not bytes")
    end.

(** ** Receipts of single-shard transactions *)

Record SingleShardTransactionReceipt := mkSingleShardReceipt {
  sr_command_id : CommandId;
  sr_transaction_id : TransactionId;
  sr_start_time : TransactionTime;
  sr_snapshot_applied_index : Z;
  sr_commit_time : TransactionTime;
  sr_request_digest : Digest32;
}.

Definition single_shard_transaction_metadata (command : CommitSingleShardTransaction)
    : result ShardError ReplicaMetadata :=
  first ← ok_or ShardPanic (head (ct_mutations command));
  commit_time ← ok_or ShardPanic (graph_mutation_time first);
  lift_store (ReplicaMetadata_new
    (SINGLE_SHARD_TRANSACTION_METADATA_NAME +:+ hex_digits 32 (ct_transaction_id command))
    (VBytes (be_bytes 4 1 ++ be_bytes 16 (ch_command_id (ct_header command)) ++
             be_bytes 16 (ct_transaction_id command) ++ be_bytes 8 (ct_start_time command) ++
             be_bytes 8 (ct_snapshot_applied_index command) ++ be_bytes 8 commit_time ++
             ct_request_digest command))).

Definition decode_single_shard_transaction_metadata (metadata : ReplicaMetadata)
    : result ShardError SingleShardTransactionReceipt :=
  transaction_id ← transaction_id_from_metadata_name (rm_name metadata)
                     SINGLE_SHARD_TRANSACTION_METADATA_NAME "single-Shard transaction receipt";
  match rm_value metadata with
  | VBytes bs =>
      if negb (len bs =? 92) || negb (be_value (take 4 bs) =? 1)
      then Err (corrupt_intent_history "single-Shard transaction receipt has an unsupported encoding")
      else
        command_id ← lift_store (CommandId_new (be_value (slice 4 20 bs)));
        id ← lift_kernel (TransactionId_new (be_value (slice 20 36 bs)));
        start_time ← lift_kernel (TransactionTime_new (i64_of_be_bytes (slice 36 44 bs)));
        let snapshot_applied_index := be_value (slice 44 52 bs) in
        commit_time ← lift_kernel (TransactionTime_new (i64_of_be_bytes (slice 52 60 bs)));
        if negb (id =? transaction_id) || (commit_time <=? start_time)
        then Err (corrupt_intent_history
                    "single-Shard transaction receipt name or commit time is inconsistent")
        else Ok (mkSingleShardReceipt command_id id start_time snapshot_applied_index commit_time
                   (slice 60 92 bs))
  | _ => Err (corrupt_intent_history "single-Shard transaction receipt is not bytes")
  end.

(** ** Home decisions *)

Definition home_decision_metadata (command : RecordHomeDecision) : result ShardError ReplicaMetadata :=
  bs ← encode_current blake3 (CmdRecordHomeDecision command);
  lift_store (ReplicaMetadata_new
    (HOME_DECISION_METADATA_PREFIX +:+ hex_digits 32 (tr_id (hd_decision command))) (VBytes bs)).

Definition decode_home_decision_metadata (metadata : ReplicaMetadata)
    : result ShardError RecordHomeDecision :=
  transaction_id ← transaction_id_from_metadata_name (rm_name metadata)
                     HOME_DECISION_METADATA_PREFIX "Home decision";
  match rm_value metadata with
  | VBytes bs =>
      command ← decode blake3 bs;
      match command with
      | CmdRecordHomeDecision c =>
          if negb (tr_id (hd_decision c) =? transaction_id)
          then Err (corrupt_intent_history "Home decision metadata name contradicts its transaction ID")
          else Ok c
      | _ => Err (corrupt_intent_history "Home decision metadata contains another command type")
      end
  | _ => Err (corrupt_intent_history "Home decision metadata is not bytes")
  end.
End metadata.
