(* ===== verification/StateStore.v ===== *)
(** * The state store of a replica ([dtg-storage/src/read.rs])

    The trait [ReplicaStateStore] as a class, the contract its implementations are certified against
    as a second class over an abstract content, and that content itself as an implementation. *)

From S2P Require Import Prelude Kernel Encoding Storage.
Open Scope Z_scope.

(** ** Requests and pages *)

Record ReadFence := mkReadFence {
  rf_binding : ReplicaBinding;
  rf_applied_index : Z;
  rf_capability_digest : Digest32;
}.

Definition ReadFence_new (binding : ReplicaBinding) (applied_index : Z) : ReadFence :=
  mkReadFence binding applied_index (rb_capability_digest binding).

Record ChangesRead := mkChangesRead {
  cq_after : option ChangeCursor;
  cq_through_index : Z;
  cq_limit : Z;
}.

Definition ChangesRead_new (after : option ChangeCursor) (through_index limit : Z)
    : result StorageError ChangesRead :=
  if match after with Some cursor => through_index <? cc_raft_index cursor | None => false end
     || (limit =? 0)
  then Err (InvalidMutation "change bounds must be ordered and nonempty")
  else Ok (mkChangesRead after through_index limit).

#[export] Instance ChangeCursor_eq_dec : EqDecision ChangeCursor.
Proof. solve_decision. Defined.

(** The derived order of cursors. *)
Definition cursor_ltb (a b : ChangeCursor) : bool :=
  (cc_raft_index a <? cc_raft_index b)
  || ((cc_raft_index a =? cc_raft_index b) && (cc_mutation_ordinal a <? cc_mutation_ordinal b)).

Definition includes (self : ChangesRead) (cursor : ChangeCursor) : bool :=
  match cq_after self with Some after => cursor_ltb after cursor | None => true end
  && (cc_raft_index cursor <=? cq_through_index self).

Record ChangePage := mkChangePage {
  cp_rows : list ChangeRecord;
  cp_next_after : option ChangeCursor;
}.

(** ** The trait *)

(** [S] is the store, [V] the read view that [begin_read_view] returns. *)
Class ReplicaStateStore (S V : Type) := {
  store_binding : S → ReplicaBinding;
  store_applied_index : S → result StorageError Z;
  store_replica_metadata : S → string → result StorageError (option ReplicaMetadata);
  store_apply : S → CommittedShardBatch → result StorageError ApplyReceipt * S;
  supports_atomic_batch_apply : S → bool;
  store_apply_batches : S → list CommittedShardBatch → result StorageError (list ApplyReceipt) * S;
  begin_read_view : S → ReadFence → result StorageError V;
  view_changes : V → ChangesRead → result StorageError ChangePage;
}.

(** ** The contract *)

(** What makes the batch of an index the same when it is applied again. *)
Record ReplayIdentity := mkReplayIdentity {
  ri_term : Z;
  ri_command_id : CommandId;
  ri_mutation_digest : Digest32;
}.

Record StoreContents := mkContents {
  sc_binding : ReplicaBinding;
  sc_applied_index : Z;
  sc_metadata : gmap string ReplicaMetadata;
  sc_identity : gmap Z ReplayIdentity;
  sc_changes : list ChangeRecord;
}.

#[export] Instance ReplayIdentity_eq_dec : EqDecision ReplayIdentity.
Proof. solve_decision. Defined.

Definition batch_identity (batch : CommittedShardBatch) : ReplayIdentity :=
  mkReplayIdentity (csb_raft_term batch) (csb_command_id batch) (csb_mutation_digest batch).

(** The last metadata put of each name. *)
Definition put_metadata (m : LogicalMutation) (metadata : gmap string ReplicaMetadata)
    : gmap string ReplicaMetadata :=
  match m with PutReplicaMetadata r => <[rm_name r := r]> metadata | _ => metadata end.
Definition metadata_after (ms : list LogicalMutation) (metadata : gmap string ReplicaMetadata)
    : gmap string ReplicaMetadata :=
  foldl (λ metadata m, put_metadata m metadata) metadata ms.

Definition batch_changes (batch : CommittedShardBatch) : list ChangeRecord :=
  imap (λ i m, mkChangeRecord (mkChangeCursor (csb_raft_index batch) (Z.of_nat i)) m)
    (csb_mutations batch).

Definition contents_append (c : StoreContents) (batch : CommittedShardBatch) : StoreContents :=
  mkContents (sc_binding c) (csb_raft_index batch)
    (metadata_after (csb_mutations batch) (sc_metadata c))
    (<[csb_raft_index batch := batch_identity batch]> (sc_identity c))
    (sc_changes c ++ batch_changes batch).

(** A valid batch of the store's binding is a replay of an applied index or the next index. *)
Definition spec_apply (blake3 : bytes → Digest32) (c : StoreContents) (batch : CommittedShardBatch)
    : result StorageError (ApplyReceipt * StoreContents) :=
  _ ← CommittedShardBatch_validate blake3 batch;
  if negb (bool_decide (csb_binding batch = sc_binding c))
  then Err (StaleBinding (sc_binding c) (csb_binding batch))
  else if csb_raft_index batch <=? sc_applied_index c then
    if bool_decide (sc_identity c !! csb_raft_index batch = Some (batch_identity batch))
    then Ok (ApplyReceipt_new batch true, c)
    else Err (ReplayMismatch (csb_raft_index batch))
  else if negb (csb_raft_index batch =? sc_applied_index c + 1)
  then Err (NonMonotonicIndex (sc_applied_index c) (csb_raft_index batch))
  else Ok (ApplyReceipt_new batch false, contents_append c batch).

Fixpoint spec_apply_all (blake3 : bytes → Digest32) (c : StoreContents)
    (batches : list CommittedShardBatch) : result StorageError (list ApplyReceipt * StoreContents) :=
  match batches with
  | [] => Ok ([], c)
  | batch :: batches =>
      '(receipt, c) ← spec_apply blake3 c batch;
      '(receipts, c) ← spec_apply_all blake3 c batches;
      Ok (receipt :: receipts, c)
  end.

(** The first [limit] changes of the request, and the cursor to go on from. *)
Definition spec_page (changes : list ChangeRecord) (request : ChangesRead) : ChangePage :=
  let matching := List.filter (λ change, includes request (cr_cursor change)) changes in
  let rows := take (Z.to_nat (cq_limit request)) matching in
  mkChangePage rows
    (if cq_limit request <? Z.of_nat (length matching) then cr_cursor <$> last rows else None).

(** An implementation may fail, without an effect; what it answers agrees with its content. *)
Class ReplicaStateStoreLaws (blake3 : bytes → Digest32) (S V : Type) `{ReplicaStateStore S V} := {
  contents : S → StoreContents;
  view_contents : V → StoreContents;
  binding_law s : store_binding s = sc_binding (contents s);
  applied_index_law s n : store_applied_index s = Ok n → n = sc_applied_index (contents s);
  replica_metadata_law s name m :
    store_replica_metadata s name = Ok m → m = sc_metadata (contents s) !! name;
  apply_law s batch r s' :
    store_apply s batch = (r, s') →
    match r with
    | Ok receipt => spec_apply blake3 (contents s) batch = Ok (receipt, contents s')
    | Err _ => contents s' = contents s
    end;
  apply_batches_law s batches r s' :
    supports_atomic_batch_apply s = true → store_apply_batches s batches = (r, s') →
    match r with
    | Ok receipts => spec_apply_all blake3 (contents s) batches = Ok (receipts, contents s')
    | Err _ => contents s' = contents s
    end;
  read_view_law s fence v :
    begin_read_view s fence = Ok v →
    view_contents v = contents s ∧ rf_binding fence = sc_binding (contents s) ∧
    rf_applied_index fence = sc_applied_index (contents s);
  changes_law v request page :
    view_changes v request = Ok page → page = spec_page (sc_changes (view_contents v)) request;
}.

(** ** The content as a store *)

Section reference.
Context (blake3 : bytes → Digest32).

Definition reference_apply (c : StoreContents) (batch : CommittedShardBatch)
    : result StorageError ApplyReceipt * StoreContents :=
  match spec_apply blake3 c batch with Ok (receipt, c) => (Ok receipt, c) | Err e => (Err e, c) end.
Definition reference_apply_batches (c : StoreContents) (batches : list CommittedShardBatch)
    : result StorageError (list ApplyReceipt) * StoreContents :=
  match spec_apply_all blake3 c batches with Ok (receipts, c) => (Ok receipts, c) | Err e => (Err e, c) end.
Definition reference_read_view (c : StoreContents) (fence : ReadFence)
    : result StorageError StoreContents :=
  if negb (bool_decide (rf_binding fence = sc_binding c))
  then Err (StaleBinding (sc_binding c) (rf_binding fence))
  else if negb (rf_applied_index fence =? sc_applied_index c)
  then Err (ReadFenceUnavailable (rf_applied_index fence) (sc_applied_index c))
  else Ok c.

Definition reference_store : ReplicaStateStore StoreContents StoreContents := {|
  store_binding := sc_binding;
  store_applied_index c := Ok (sc_applied_index c);
  store_replica_metadata c name := Ok (sc_metadata c !! name);
  store_apply := reference_apply;
  supports_atomic_batch_apply _ := true;
  store_apply_batches := reference_apply_batches;
  begin_read_view := reference_read_view;
  view_changes c request := Ok (spec_page (sc_changes c) request);
|}.

#[refine] Definition reference_store_laws :
    @ReplicaStateStoreLaws blake3 StoreContents StoreContents reference_store := {|
  contents c := c;
  view_contents c := c;
|}.
Proof.
  - done.
  - by intros s n [= <-].
  - by intros s name m [= <-].
  - intros s batch r s'. cbn. unfold reference_apply.
    destruct (spec_apply blake3 s batch) as [[receipt c]|]; by intros [= <- <-].
  - intros s batches r s' _. cbn. unfold reference_apply_batches.
    destruct (spec_apply_all blake3 s batches) as [[receipts c]|]; by intros [= <- <-].
  - intros s fence v. cbn. unfold reference_read_view. intros Hv. guard_in Hv as Hb.
    guard_in Hv as Ha. to_prop. by injection Hv as <-.
  - by intros v request page [= <-].
Defined.
End reference.
