(* ===== verification/ShardMachine.v ===== *)
(** * The shard state machine ([dtg-shard/src/state_machine.rs])

    Applying committed commands to the state store of a replica.  [apply_committed] validates a
    command against the binding and the active intents, decides what it does to the intents, and
    hands the store one batch; an invalid command becomes a rejection batch, so that every committed
    index is applied.  [block_on] drives the store's futures; the store is a parameter here, with the
    contract of [StateStore]. *)

From S2P Require Import Prelude Text Kernel Encoding Storage ShardWire ShardCommand StateStore ShardMetadata.
Open Scope Z_scope.

(** ** Outcomes *)

Inductive ApplyRejection :=
| RejInvalidCommand | RejStalePlacementEpoch | RejStaleBackendGeneration | RejWriteConflict
| RejClosedTimestampFenced | RejHomeDecisionConflict.

Definition ApplyRejection_code (r : ApplyRejection) : string :=
  match r with
  | RejInvalidCommand => "DTG-SHARD-REJECTED-COMMAND"
  | RejStalePlacementEpoch => "DTG-SHARD-REJECTED-STALE-EPOCH"
  | RejStaleBackendGeneration => "DTG-SHARD-REJECTED-STALE-GENERATION"
  | RejWriteConflict => "DTG-SHARD-REJECTED-WRITE-CONFLICT"
  | RejClosedTimestampFenced => "DTG-SHARD-REJECTED-CLOSED-TIME"
  | RejHomeDecisionConflict => "DTG-SHARD-REJECTED-HOME-DECISION"
  end.

Record ApplyOutcome := mkApplyOutcome {
  ao_digest : Digest32;
  ao_applied_index : Z;
  ao_replayed : bool;
  ao_rejection : option ApplyRejection;
  ao_active_binding : ReplicaBinding;
}.

Definition CLOSED_FENCED : string := "closed timestamp is fenced by a pending prepared intent".

Definition committed_rejection (error : ShardError) : option ApplyRejection :=
  match error with
  | InvalidCommand message =>
      if bool_decide (message = CLOSED_FENCED) then Some RejClosedTimestampFenced
      else Some RejInvalidCommand
  | StalePlacementEpoch _ _ => Some RejStalePlacementEpoch
  | StaleBackendGeneration _ _ => Some RejStaleBackendGeneration
  | ShardWriteConflict => Some RejWriteConflict
  | HomeDecisionConflict => Some RejHomeDecisionConflict
  | _ => None
  end.

Inductive IntentTransition :=
| TransitionNone
| TransitionPrepare (intent : ParticipantIntent)
| TransitionFinalize (transaction_id : TransactionId) (intent : ParticipantIntent)
| TransitionReplay.

(** ** The machine *)

Record ShardStateMachine (St : Type) := mkMachine {
  sm_binding : ReplicaBinding;
  sm_state_store : St;
  sm_applied_index : Z;
  sm_closed_timestamp : option TransactionTime;
  sm_active_intents : gmap TransactionId ParticipantIntent;
  sm_migration_state_stores : gmap BackendGeneration St;
}.
Arguments mkMachine {St} _ _ _ _ _ _.
Arguments sm_binding {St} _.
Arguments sm_state_store {St} _.
Arguments sm_applied_index {St} _.
Arguments sm_closed_timestamp {St} _.
Arguments sm_active_intents {St} _.
Arguments sm_migration_state_stores {St} _.

Section machine.
Context (blake3 : bytes → Digest32) {St V : Type} `{ReplicaStateStore St V}.
Implicit Types (self : ShardStateMachine St) (s : St).

(** [self] after its store was written and the index advanced. *)
Definition with_store self s (applied_index : Z) : ShardStateMachine St :=
  mkMachine (sm_binding self) s applied_index (sm_closed_timestamp self) (sm_active_intents self)
    (sm_migration_state_stores self).

(** *** Reading the store *)

Definition metadata_of s (name : string) : result ShardError (option ReplicaMetadata) :=
  lift_store (store_replica_metadata s name).

Definition load_closed_timestamp s : result ShardError (option TransactionTime) :=
  metadata ← metadata_of s CLOSED_TIMESTAMP_METADATA_NAME;
  match rm_value <$> metadata with
  | None => Ok None
  | Some (VInteger value) =>
      t ← map_err (λ _, ShardStorage (Internal "closed timestamp metadata is outside the valid range"))
            (TransactionTime_new value);
      Ok (Some t)
  | Some _ => Err (ShardStorage (Internal "closed timestamp metadata has an invalid value"))
  end.

Fixpoint rebuild_loop (binding : ReplicaBinding) s (applied_index : Z)
    (indexed : list (TransactionId * Digest32)) (active : gmap TransactionId ParticipantIntent)
    : result ShardError (gmap TransactionId ParticipantIntent) :=
  match indexed with
  | [] => Ok active
  | (transaction_id, digest) :: indexed =>
      metadata ← metadata_of s (transaction_state_metadata_name transaction_id);
      metadata ← ok_or (corrupt_intent_history
                          "active transaction index references missing durable state") metadata;
      state ← decode_transaction_state_metadata blake3 metadata;
      let intent := ds_intent state in
      let failure := corrupt_intent_history
                       "active transaction index contradicts its durable Prepared state" in
      if negb (bool_decide (ds_terminal state = None))
         || negb (pi_transaction_id intent =? transaction_id)
         || negb (pi_shard_id intent =? rb_shard_id binding)
         || (applied_index <? pi_snapshot_applied_index intent)
      then Err failure
      else
        d ← intent_digest blake3 intent;
        if negb (bool_decide (d = digest)) then Err failure
        else rebuild_loop binding s applied_index indexed (<[transaction_id := intent]> active)
  end.

Definition rebuild_active_intents (binding : ReplicaBinding) s (applied_index : Z)
    : result ShardError (gmap TransactionId ParticipantIntent) :=
  metadata ← metadata_of s ACTIVE_TRANSACTION_INTENTS_METADATA_NAME;
  match metadata with
  | None => Ok ∅
  | Some metadata =>
      indexed ← decode_active_intents_metadata metadata;
      rebuild_loop binding s applied_index (entries indexed) ∅
  end.

(** [ShardStateMachine::new]. *)
Definition ShardStateMachine_new (binding : ReplicaBinding) s : result ShardError (ShardStateMachine St) :=
  if negb (bool_decide (store_binding s = binding)) then Err BindingMismatch
  else
    applied_index ← lift_store (store_applied_index s);
    active_intents ← rebuild_active_intents binding s applied_index;
    closed_timestamp ← load_closed_timestamp s;
    Ok (mkMachine binding s applied_index closed_timestamp active_intents ∅).

(** The page loop; the fuel is the page budget of the source. *)
Fixpoint change_pages (pages : nat) (view : V) (applied_index records : Z) (after : option ChangeCursor)
    (visit : ChangeRecord → result ShardError unit) : result ShardError unit :=
  match pages with
  | O => Err (corrupt_intent_history "durable change history exceeded the page budget")
  | S pages =>
      request ← lift_store (ChangesRead_new after applied_index HISTORY_PAGE_LIMIT);
      page ← lift_store (view_changes view request);
      if HISTORY_RECORD_BUDGET <? records + len (cp_rows page)
      then Err (corrupt_intent_history "durable change history exceeded the record budget")
      else
        _ ← try_for_each (λ change,
              if match after with Some a => negb (cursor_ltb a (cr_cursor change)) | None => false end
                 || (applied_index <? cc_raft_index (cr_cursor change))
              then Err (corrupt_intent_history "durable change history row is outside the requested range")
              else visit change) (cp_rows page);
        match cp_next_after page with
        | None => Ok tt
        | Some next =>
            if bool_decide (cr_cursor <$> last (cp_rows page) = Some next)
               && match after with Some a => cursor_ltb a next | None => true end
            then change_pages pages view applied_index (records + len (cp_rows page)) (Some next) visit
            else Err (corrupt_intent_history "durable change history pagination did not make progress")
        end
  end.

Definition for_each_change (binding : ReplicaBinding) s (applied_index : Z)
    (initial_after : option ChangeCursor) (visit : ChangeRecord → result ShardError unit)
    : result ShardError unit :=
  if applied_index =? 0 then Ok tt
  else
    view ← lift_store (begin_read_view s (ReadFence_new binding applied_index));
    change_pages HISTORY_PAGE_BUDGET view applied_index 0 initial_after visit.

(** The rows of one index: contiguous ordinals from zero. *)
Fixpoint collect_rows (index : Z) (rows : list ChangeRecord) (mutations : list LogicalMutation)
    : result ShardError (list LogicalMutation) :=
  match rows with
  | [] => Ok mutations
  | change :: rows =>
      if negb (cc_raft_index (cr_cursor change) =? index)
         || negb (cc_mutation_ordinal (cr_cursor change) =? len mutations)
      then Err (corrupt_intent_history "old-index transaction batch history is missing or out of order")
      else collect_rows index rows (mutations ++ [cr_mutation change])
  end.

Fixpoint index_pages (pages : nat) (view : V) (index : Z) (after : option ChangeCursor)
    (mutations : list LogicalMutation) : result ShardError (list LogicalMutation) :=
  match pages with
  | O => Err (corrupt_intent_history "old-index transaction batch exceeded the page budget")
  | S pages =>
      request ← lift_store (ChangesRead_new after index HISTORY_PAGE_LIMIT);
      page ← lift_store (view_changes view request);
      if HISTORY_RECORD_BUDGET <? len mutations + len (cp_rows page)
      then Err (corrupt_intent_history "old-index transaction batch exceeded the record budget")
      else
        mutations ← collect_rows index (cp_rows page) mutations;
        match cp_next_after page with
        | None => Ok mutations
        | Some next =>
            if bool_decide (cr_cursor <$> last (cp_rows page) = Some next)
               && match after with Some a => cursor_ltb a next | None => false end
               && (cc_raft_index next =? index)
            then index_pages pages view index (Some next) mutations
            else Err (corrupt_intent_history "old-index transaction batch pagination did not make progress")
        end
  end.

Definition mutations_at_index (binding : ReplicaBinding) s (applied_index index : Z)
    : result ShardError (list LogicalMutation) :=
  if (index =? 0) || (applied_index <=? index)
  then Err (corrupt_intent_history "old-index transaction replay is outside durable history")
  else
    view ← lift_store (begin_read_view s (ReadFence_new binding applied_index));
    mutations ← index_pages HISTORY_PAGE_BUDGET view index (Some (mkChangeCursor (index - 1) u64_max)) [];
    if bool_decide (mutations = [])
    then Err (corrupt_intent_history "old-index transaction batch history is missing")
    else Ok mutations.

(** The two metadata records behind the mutations of a transaction command. *)
Definition validate_historical_transaction_batch (command : ShardCommand)
    (historical : list LogicalMutation) : result ShardError unit :=
  command_mutations ← command_mutations blake3 command;
  let n := length command_mutations in
  if negb (Nat.eqb (length historical) (n + 2)) || negb (bool_decide (take n historical = command_mutations))
  then Err (corrupt_intent_history "old-index transaction batch contradicts the replayed command")
  else
    match historical !! n, historical !! (n + 1)%nat with
    | Some (PutReplicaMetadata state_metadata), Some (PutReplicaMetadata active_metadata) =>
        state ← decode_transaction_state_metadata blake3 state_metadata;
        active ← decode_active_intents_metadata active_metadata;
        let failure := corrupt_intent_history
                         "old-index transaction metadata contradicts the replayed command" in
        match command with
        | CmdPrewriteIntent c =>
            if bool_decide (ds_intent state = pw_intent c) && bool_decide (ds_terminal state = None) then
              digest ← intent_digest blake3 (pw_intent c);
              if bool_decide (active !! pi_transaction_id (pw_intent c) = Some digest)
              then Ok tt else Err failure
            else Err failure
        | CmdFinalizeParticipant c =>
            if matches_finalize state c && bool_decide (active !! tr_id (fp_terminal c) = None)
            then Ok tt else Err failure
        | _ => Err ShardPanic
        end
    | Some (PutReplicaMetadata _), _ =>
        Err (corrupt_intent_history "old-index transaction batch lacks the active transaction index")
    | _, _ => Err (corrupt_intent_history "old-index transaction batch lacks durable transaction state")
    end.

(** *** Validation *)

Definition is_cutover self (command : ShardCommand) : bool :=
  match command with
  | CmdMigration m =>
      cuts_over_from m (rb_placement_epoch (sm_binding self)) (rb_backend_generation (sm_binding self))
  | _ => false
  end.

Definition command_intent (command : ShardCommand) : option ParticipantIntent :=
  match command with
  | CmdPrewriteIntent c => Some (pw_intent c)
  | CmdFinalizeParticipant c => fp_intent c
  | _ => None
  end.

Definition command_snapshot_index (command : ShardCommand) : option Z :=
  match command with
  | CmdCommitSingleShardTransaction c => Some (ct_snapshot_applied_index c)
  | _ => pi_snapshot_applied_index <$> command_intent command
  end.

(** A pending intent whose writes a closed timestamp would cover. *)
Definition fences_closed (proposed : TransactionTime) (intent : ParticipantIntent) : bool :=
  existsb (λ pending, pending <=? proposed) (omap graph_mutation_time (pi_mutations intent)).

Definition validate_command self (command : ShardCommand) : result ShardError unit :=
  let header := command_header command in
  let expected_epoch := rb_placement_epoch (sm_binding self) in
  let expected_generation := rb_backend_generation (sm_binding self) in
  let cutover := is_cutover self command in
  if negb cutover && negb (ch_placement_epoch header =? expected_epoch)
  then Err (StalePlacementEpoch expected_epoch (ch_placement_epoch header))
  else if negb cutover && negb (ch_backend_generation header =? expected_generation)
  then Err (StaleBackendGeneration expected_generation (ch_backend_generation header))
  else if match command_intent command with
          | Some intent => negb (pi_shard_id intent =? rb_shard_id (sm_binding self))
          | None => false
          end
  then Err (InvalidCommand "transaction intent belongs to a different Shard")
  else if match command_snapshot_index command with
          | Some snapshot => sm_applied_index self <? snapshot
          | None => false
          end
  then Err (InvalidCommand "transaction snapshot applied index is ahead of the Shard state machine")
  else
    _ ← match command with
        | CmdAdvanceClosedTimestamp c =>
            if match sm_closed_timestamp self with
               | Some current => ac_closed_timestamp c <? current
               | None => false
               end
            then Err (InvalidCommand "closed timestamp cannot move backwards")
            else if existsb (fences_closed (ac_closed_timestamp c)) (values (sm_active_intents self))
            then Err (InvalidCommand CLOSED_FENCED)
            else Ok tt
        | _ => Ok tt
        end;
    _ ← command_mutations blake3 command;
    Ok tt.

Definition validate_write_conflicts self (transaction_id : TransactionId) (start_time : TransactionTime)
    (snapshot_applied_index : Z) (candidate : list LogicalMutation) : result ShardError unit :=
  if existsb (λ intent, negb (pi_transaction_id intent =? transaction_id)
                        && mutations_conflict candidate (pi_mutations intent))
       (values (sm_active_intents self))
  then Err ShardWriteConflict
  else
    for_each_change (sm_binding self) (sm_state_store self) (sm_applied_index self)
      (Some (mkChangeCursor snapshot_applied_index u64_max))
      (λ change,
         if match graph_mutation_time (cr_mutation change) with
            | Some time => start_time <? time
            | None => false
            end && mutations_conflict candidate [cr_mutation change]
         then Err ShardWriteConflict
         else Ok tt).

Definition single_shard_transaction_is_durable self (command : CommitSingleShardTransaction)
    : result ShardError bool :=
  expected ← single_shard_transaction_metadata command;
  durable ← metadata_of (sm_state_store self) (rm_name expected);
  match durable with
  | None => Ok false
  | Some metadata =>
      _ ← decode_single_shard_transaction_metadata metadata;
      if bool_decide (metadata = expected) then Ok true
      else Err (corrupt_intent_history
                  "single-Shard transaction command has contradictory durable receipts")
  end.

Definition durable_transaction_state self (transaction_id : TransactionId)
    : result ShardError (option DurableTransactionState) :=
  metadata ← metadata_of (sm_state_store self) (transaction_state_metadata_name transaction_id);
  match metadata with
  | None => Ok None
  | Some metadata => state ← decode_transaction_state_metadata blake3 metadata; Ok (Some state)
  end.

Definition home_decision_is_durable self (command : RecordHomeDecision) : result ShardError bool :=
  expected ← home_decision_metadata blake3 command;
  durable ← metadata_of (sm_state_store self) (rm_name expected);
  match durable with
  | None => Ok false
  | Some metadata =>
      if bool_decide (metadata = expected) then Ok true
      else _ ← decode_home_decision_metadata blake3 metadata; Err HomeDecisionConflict
  end.

Definition accept_prewrite self (intent : ParticipantIntent) : result ShardError IntentTransition :=
  match sm_active_intents self !! pi_transaction_id intent with
  | Some existing =>
      if bool_decide (existing = intent) then Ok TransitionReplay
      else Err (corrupt_intent_history "one transaction has contradictory active participant intents")
  | None =>
      if Z.of_nat (size (sm_active_intents self)) =? MAX_TRANSACTION_INTENT_ITEMS
      then Err (InvalidCommand "active transaction intent count exceeds the supported bound")
      else
        state ← durable_transaction_state self (pi_transaction_id intent);
        match state with
        | Some _ => Err (corrupt_intent_history "new prewrite contradicts existing durable transaction state")
        | None =>
            _ ← validate_write_conflicts self (pi_transaction_id intent) (pi_start_time intent)
                  (pi_snapshot_applied_index intent) (pi_mutations intent);
            Ok (TransitionPrepare intent)
        end
  end.

Definition accept_finalize self (command : FinalizeParticipant) : result ShardError IntentTransition :=
  let transaction_id := tr_id (fp_terminal command) in
  match sm_active_intents self !! transaction_id with
  | Some active =>
      let failure := corrupt_intent_history
                       "participant finalization contradicts the active durable intent" in
      digest ← intent_digest blake3 active;
      if negb (bool_decide (digest = tr_record_digest (fp_terminal command)))
         || match fp_intent command with Some intent => negb (bool_decide (intent = active)) | None => false end
      then Err failure
      else
        _ ← validate_intent_terminal blake3 active (fp_terminal command);
        Ok (TransitionFinalize transaction_id active)
  | None =>
      state ← durable_transaction_state self transaction_id;
      match state with
      | None => Err (corrupt_intent_history "participant finalization has no durable Prepared intent")
      | Some state =>
          if matches_finalize state command then Ok TransitionReplay
          else Err (corrupt_intent_history "participant finalization contradicts durable terminal state")
      end
  end.

Definition validate_transaction_acceptance self (command : ShardCommand)
    : result ShardError IntentTransition :=
  match command with
  | CmdCommitSingleShardTransaction c =>
      durable ← single_shard_transaction_is_durable self c;
      if (durable : bool) then Ok TransitionReplay
      else
        _ ← validate_write_conflicts self (ct_transaction_id c) (ct_start_time c)
              (ct_snapshot_applied_index c) (ct_mutations c);
        Ok TransitionNone
  | CmdPrewriteIntent c => accept_prewrite self (pw_intent c)
  | CmdFinalizeParticipant c => accept_finalize self c
  | CmdRecordHomeDecision c =>
      durable ← home_decision_is_durable self c;
      Ok (if (durable : bool) then TransitionReplay else TransitionNone)
  | CmdCommitSingleShard _ | CmdAdvanceClosedTimestamp _ | CmdInstallSnapshot _ | CmdMigration _ =>
      Ok TransitionNone
  end.

(** *** What a command persists *)

Definition next_intents (active : gmap TransactionId ParticipantIntent) (transition : IntentTransition)
    : gmap TransactionId ParticipantIntent :=
  match transition with
  | TransitionPrepare intent => <[pi_transaction_id intent := intent]> active
  | TransitionFinalize transaction_id _ => delete transaction_id active
  | TransitionNone | TransitionReplay => active
  end.

Definition is_replay (transition : IntentTransition) : bool :=
  match transition with TransitionReplay => true | _ => false end.

(** The records that follow the command's own mutations. *)
Definition transaction_metadata self (command : ShardCommand) (transition : IntentTransition)
    : result ShardError (list ReplicaMetadata) :=
  let active := active_intents_metadata blake3 (next_intents (sm_active_intents self) transition) in
  match command, transition with
  | CmdRecordHomeDecision c, _ => m ← home_decision_metadata blake3 c; Ok [m]
  | CmdCommitSingleShardTransaction c, _ => m ← single_shard_transaction_metadata c; Ok [m]
  | CmdPrewriteIntent _, TransitionPrepare intent =>
      state ← transaction_state_metadata blake3 intent None; index ← active; Ok [state; index]
  | CmdPrewriteIntent c, TransitionReplay =>
      state ← transaction_state_metadata blake3 (pw_intent c) None; index ← active; Ok [state; index]
  | CmdFinalizeParticipant c, TransitionFinalize _ intent =>
      state ← transaction_state_metadata blake3 intent (Some (fp_terminal c));
      index ← active; Ok [state; index]
  | CmdFinalizeParticipant c, TransitionReplay =>
      durable ← durable_transaction_state self (tr_id (fp_terminal c));
      durable ← ok_or (corrupt_intent_history
                         "participant finalization replay lost its durable transaction state") durable;
      state ← transaction_state_metadata blake3 (ds_intent durable) (ds_terminal durable);
      index ← active; Ok [state; index]
  | _, _ => Ok []
  end.

Definition persisted_mutations self (index : Z) (command : ShardCommand) (transition : IntentTransition)
    : result ShardError (list LogicalMutation) :=
  mutations ← (if (sm_applied_index self <? index) && is_replay transition then Ok []
               else command_mutations blake3 command);
  records ← transaction_metadata self command transition;
  Ok (mutations ++ map PutReplicaMetadata records).

(** *** Applying *)

(** [CommittedShardBatch::new(..)?] and [state_store.apply(batch)?]. *)
Definition apply_batch_of (binding : ReplicaBinding) s (term index : Z) (command_id : CommandId)
    (mutations : list LogicalMutation) : result ShardError ApplyReceipt * St :=
  match CommittedShardBatch_new blake3 binding term index command_id mutations with
  | Err e => (Err (ShardStorage e), s)
  | Ok batch => let '(r, s) := store_apply s batch in (lift_store r, s)
  end.

Definition outcome_of (binding : ReplicaBinding) (receipt : ApplyReceipt) (replayed : bool)
    (rejection : option ApplyRejection) : ApplyOutcome :=
  mkApplyOutcome (ar_mutation_digest receipt) (ar_raft_index receipt) replayed rejection binding.

(** A batch of one metadata record, for rejections and no-ops. *)
Definition apply_marker self (term index : Z) (command_id : CommandId)
    (metadata : result StorageError ReplicaMetadata) (rejection : option ApplyRejection)
    : result ShardError ApplyOutcome * ShardStateMachine St :=
  match metadata with
  | Err e => (Err (ShardStorage e), self)
  | Ok metadata =>
      let '(r, s) := apply_batch_of (sm_binding self) (sm_state_store self) term index command_id
                       [PutReplicaMetadata metadata] in
      match r with
      | Err e => (Err e, with_store self s (sm_applied_index self))
      | Ok receipt =>
          (Ok (outcome_of (sm_binding self) receipt (ar_replayed receipt) rejection),
           with_store self s (Z.max (sm_applied_index self) (ar_raft_index receipt)))
      end
  end.

Definition apply_rejected self (term index : Z) (command_id : CommandId) (rejection : ApplyRejection)
    : result ShardError ApplyOutcome * ShardStateMachine St :=
  apply_marker self term index command_id
    (ReplicaMetadata_new "dtg.raft_rejection" (VMap [
       ("command_id", VBytes (be_bytes 16 command_id));
       ("reason", VString (ApplyRejection_code rejection))]))
    (Some rejection).

Definition apply_raft_noop self (term index : Z) : result ShardError ApplyOutcome * ShardStateMachine St :=
  match CommandId_new (Z.lor (Z.shiftl term 64) index) with
  | Err e => (Err (ShardStorage e), self)
  | Ok command_id =>
      apply_marker self term index command_id
        (ReplicaMetadata_new "dtg.raft_noop" (VBytes (be_bytes 8 index))) None
  end.

(** An error of a committed command is a rejection, when it is one every replica decides alike. *)
Definition reject_or_fail self (term index : Z) (command : ShardCommand) (error : ShardError)
    : result ShardError ApplyOutcome * ShardStateMachine St :=
  match committed_rejection error with
  | Some rejection => apply_rejected self term index (ch_command_id (command_header command)) rejection
  | None => (Err error, self)
  end.

Definition apply_migration_cutover self (term index : Z) (command : MigrationCommand)
    : result ShardError ApplyOutcome * ShardStateMachine St :=
  match mc_online command with
  | None => (Err (InvalidCommand "migration cutover lacks a target"), self)
  | Some context =>
      let target_generation := om_target_generation context in
      match sm_migration_state_stores self !! target_generation with
      | None =>
          (Err (InvalidLifecycle "migration cutover target state store is not staged"), self)
      | Some target =>
          let target_binding := store_binding target in
          if negb (rb_placement_epoch target_binding =? ch_placement_epoch (mc_header command))
             || negb (rb_backend_generation target_binding =? target_generation)
             || negb (bool_decide (rb_backend_class_digest target_binding
                                   = om_target_backend_class_digest context))
             || negb (om_verified_index context =? sm_applied_index self)
          then (Err BindingMismatch, self)
          else
            match command_mutations blake3 (CmdMigration command) with
            | Err e => (Err e, self)
            | Ok mutations =>
                let '(r, target) := apply_batch_of target_binding target term index
                                      (ch_command_id (mc_header command)) mutations in
                let staged := mkMachine (sm_binding self) (sm_state_store self) (sm_applied_index self)
                                (sm_closed_timestamp self) (sm_active_intents self)
                                (<[target_generation := target]> (sm_migration_state_stores self)) in
                match r with
                | Err e => (Err e, staged)
                | Ok receipt =>
                    match rebuild_active_intents target_binding target (ar_raft_index receipt) with
                    | Err e => (Err e, staged)
                    | Ok active_intents =>
                        (Ok (outcome_of target_binding receipt (ar_replayed receipt) None),
                         mkMachine target_binding target (ar_raft_index receipt)
                           (sm_closed_timestamp self) active_intents
                           (delete target_generation (sm_migration_state_stores self)))
                    end
                end
            end
      end
  end.

Definition replay_old_transaction_command self (term index : Z) (command : ShardCommand)
    : result ShardError ApplyOutcome * ShardStateMachine St :=
  match (mutations ← mutations_at_index (sm_binding self) (sm_state_store self)
                       (sm_applied_index self) index;
         _ ← validate_historical_transaction_batch command mutations;
         Ok mutations) with
  | Err e => (Err e, self)
  | Ok mutations =>
      let '(r, s) := apply_batch_of (sm_binding self) (sm_state_store self) term index
                       (ch_command_id (command_header command)) mutations in
      let self := with_store self s (sm_applied_index self) in
      match r with
      | Err e => (Err e, self)
      | Ok receipt =>
          if negb (ar_replayed receipt)
          then (Err (corrupt_intent_history
                       "old-index transaction replay unexpectedly applied a new batch"), self)
          else (Ok (outcome_of (sm_binding self) receipt true None), self)
      end
  end.

(** The machine after the store applied the batch of an accepted command. *)
Definition advance self s (command : ShardCommand) (transition : IntentTransition)
    (receipt : ApplyReceipt) : ShardStateMachine St :=
  mkMachine (sm_binding self) s (Z.max (sm_applied_index self) (ar_raft_index receipt))
    (match command with
     | CmdAdvanceClosedTimestamp c => Some (ac_closed_timestamp c)
     | _ => sm_closed_timestamp self
     end)
    (if ar_replayed receipt then sm_active_intents self
     else next_intents (sm_active_intents self) transition)
    (sm_migration_state_stores self).

Definition apply_accepted self (term index : Z) (command : ShardCommand) (transition : IntentTransition)
    : result ShardError ApplyOutcome * ShardStateMachine St :=
  let logical_replay := (sm_applied_index self <? index) && is_replay transition in
  match persisted_mutations self index command transition with
  | Err e => (Err e, self)
  | Ok mutations =>
      let '(r, s) := apply_batch_of (sm_binding self) (sm_state_store self) term index
                       (ch_command_id (command_header command)) mutations in
      match r with
      | Err e => (Err e, with_store self s (sm_applied_index self))
      | Ok receipt =>
          (Ok (outcome_of (sm_binding self) receipt (ar_replayed receipt || logical_replay) None),
           advance self s command transition receipt)
      end
  end.

Definition is_transaction_command (command : ShardCommand) : bool :=
  match command with CmdPrewriteIntent _ | CmdFinalizeParticipant _ => true | _ => false end.

Definition apply_committed self (term index : Z) (command : ShardCommand)
    : result ShardError ApplyOutcome * ShardStateMachine St :=
  match validate_command self command with
  | Err error => reject_or_fail self term index command error
  | Ok _ =>
      match command with
      | CmdMigration migration =>
          if is_cutover self command then apply_migration_cutover self term index migration
          else
            match validate_transaction_acceptance self command with
            | Err error => reject_or_fail self term index command error
            | Ok transition => apply_accepted self term index command transition
            end
      | _ =>
          if (index <? sm_applied_index self) && is_transaction_command command
          then replay_old_transaction_command self term index command
          else
            match validate_transaction_acceptance self command with
            | Err error => reject_or_fail self term index command error
            | Ok transition => apply_accepted self term index command transition
            end
      end
  end.

(** *** Batches *)

(** [entries.into_iter().map(|..| self.apply_committed(..)).collect()]. *)
Fixpoint apply_each self (entries : list (Z * Z * ShardCommand))
    : result ShardError (list ApplyOutcome) * ShardStateMachine St :=
  match entries with
  | [] => (Ok [], self)
  | (term, index, command) :: entries =>
      match apply_committed self term index command with
      | (Err e, self) => (Err e, self)
      | (Ok outcome, self) =>
          match apply_each self entries with
          | (Err e, self) => (Err e, self)
          | (Ok outcomes, self) => (Ok (outcome :: outcomes), self)
          end
      end
  end.

Definition u64_saturating_add (a b : Z) : Z := Z.min (a + b) u64_max.

(** The loop that builds the batches; [None] sends the entries down the sequential path. *)
Fixpoint transaction_batches self (entries : list (Z * Z * ShardCommand)) (expected_index : Z)
    (prior_mutations : list LogicalMutation) (transaction_ids : gset TransactionId)
    (batches : list CommittedShardBatch) : result ShardError (option (list CommittedShardBatch)) :=
  match entries with
  | [] => Ok (Some batches)
  | (term, index, command) :: entries =>
      match command with
      | CmdCommitSingleShardTransaction transaction =>
          if negb (index =? expected_index) || (term =? 0) then Ok None
          else if bool_decide (ct_transaction_id transaction ∈ transaction_ids) then Ok None
          else
            match validate_command self command, validate_transaction_acceptance self command with
            | Ok _, Ok TransitionNone =>
                let mutations := ct_mutations transaction in
                if mutations_conflict prior_mutations mutations then Ok None
                else
                  metadata ← single_shard_transaction_metadata transaction;
                  batch ← lift_store (CommittedShardBatch_new blake3 (sm_binding self) term index
                            (ch_command_id (ct_header transaction))
                            (mutations ++ [PutReplicaMetadata metadata]));
                  transaction_batches self entries (u64_saturating_add expected_index 1)
                    (prior_mutations ++ mutations) ({[ct_transaction_id transaction]} ∪ transaction_ids)
                    (batches ++ [batch])
            | _, _ => Ok None
            end
      | _ => Ok None
      end
  end.

Definition try_apply_single_shard_transaction_batch self (entries : list (Z * Z * ShardCommand))
    : result ShardError (option (list ApplyOutcome)) * ShardStateMachine St :=
  match transaction_batches self entries (u64_saturating_add (sm_applied_index self) 1) [] ∅ [] with
  | Err e => (Err e, self)
  | Ok None => (Ok None, self)
  | Ok (Some batches) =>
      match store_apply_batches (sm_state_store self) batches with
      | (Err e, s) => (Err (ShardStorage e), with_store self s (sm_applied_index self))
      | (Ok receipts, s) =>
          if negb (Nat.eqb (length receipts) (length entries)) || existsb ar_replayed receipts
          then (Err (InvalidRaftState "atomic state-store batch returned inconsistent receipts"),
                with_store self s (sm_applied_index self))
          else
            (Ok (Some (map (λ receipt, outcome_of (sm_binding self) receipt false None) receipts)),
             with_store self s (default (sm_applied_index self) (ar_raft_index <$> last receipts)))
      end
  end.

Definition apply_committed_batch self (entries : list (Z * Z * ShardCommand))
    : result ShardError (list ApplyOutcome) * ShardStateMachine St :=
  if Nat.ltb (length entries) 2 || negb (supports_atomic_batch_apply (sm_state_store self))
  then apply_each self entries
  else
    match try_apply_single_shard_transaction_batch self entries with
    | (Err e, self) => (Err e, self)
    | (Ok (Some outcomes), self) => (Ok outcomes, self)
    | (Ok None, self) => apply_each self entries
    end.

(** *** Migration targets *)

Definition stage_migration_state_store self (target : St)
    : result ShardError unit * ShardStateMachine St :=
  let binding := store_binding target in
  let own := sm_binding self in
  if negb (bool_decide (rb_role binding = Active))
     || negb (rb_cluster_id binding =? rb_cluster_id own)
     || negb (rb_graph_id binding =? rb_graph_id own)
     || negb (rb_shard_id binding =? rb_shard_id own)
     || negb (rb_replica_id binding =? rb_replica_id own)
     || (rb_backend_generation binding <=? rb_backend_generation own)
  then (Err BindingMismatch, self)
  else
    match store_applied_index target with
    | Err e => (Err (ShardStorage e), self)
    | Ok applied_index =>
        if negb (applied_index =? sm_applied_index self) then (Err BindingMismatch, self)
        else
          let staged := mkMachine own (sm_state_store self) (sm_applied_index self)
                          (sm_closed_timestamp self) (sm_active_intents self)
                          (<[rb_backend_generation binding := target]> (sm_migration_state_stores self)) in
          match sm_migration_state_stores self !! rb_backend_generation binding with
          | Some _ => (Err (InvalidLifecycle "migration state store generation is already staged"), staged)
          | None => (Ok tt, staged)
          end
    end.
End machine.
