(* ===== verification/ShardRecords.v ===== *)
(** * The durable records of a shard are read back as written

    Names of transaction records determine the transaction; the state record of a transaction and the
    index of active intents decode to what they were built from. *)

From S2P Require Import Prelude Text Kernel Encoding Storage ShardWire ShardCommand ShardCodec.
From S2P Require Import ShardMetadata.
Open Scope Z_scope.

(** ** Hexadecimal names *)

Lemma hex_value_digit d : 0 ≤ d < 16 → hex_value (hex_digit d) = Some d ∧ hex_digit d ≠ Ascii.ascii_of_N 43.
Proof.
  intros Hd. assert (Forall (λ d, hex_value (hex_digit d) = Some d ∧ hex_digit d ≠ Ascii.ascii_of_N 43)
    [0; 1; 2; 3; 4; 5; 6; 7; 8; 9; 10; 11; 12; 13; 14; 15]) as Hall by by repeat constructor.
  rewrite Forall_forall in Hall. apply Hall. rewrite list_elem_of_In. cbn. lia.
Qed.

Lemma length_hex_digits n z : String.length (hex_digits n z) = n.
Proof. induction n; cbn; congruence. Qed.

Lemma parse_hex_digits n z acc :
  parse_hex (hex_digits n z) acc = Some (acc * 16 ^ Z.of_nat n + z mod 16 ^ Z.of_nat n).
Proof.
  revert acc. induction n as [|n IH]; intros acc; cbn [hex_digits parse_hex].
  { rewrite Z.mod_1_r. f_equal. lia. }
  rewrite (proj1 (hex_value_digit _ (Z.mod_pos_bound _ 16 ltac:(lia)))). cbn. rewrite IH. f_equal.
  rewrite Nat2Z.inj_succ, Z.pow_succ_r by lia. rewrite (Z.mul_comm 16 (16 ^ _)).
  rewrite (Z.rem_mul_r z) by lia. lia.
Qed.

Lemma u128_from_hex_digits z : in_u128 z → u128_from_hex (hex_digits 32 z) = Some z.
Proof.
  intros Hz. assert (parse_hex (hex_digits 32 z) 0 = Some z) as Hp.
  { rewrite parse_hex_digits. f_equal. apply Z.mod_small. exact Hz. }
  unfold u128_from_hex. remember (hex_digits 32 z) as s eqn:Hs. destruct s as [|a s'].
  { apply (f_equal String.length) in Hs. by rewrite length_hex_digits in Hs. }
  rewrite (proj2 (Ascii.eqb_neq a _)).
  2:{ intros ->. cbn [hex_digits] in Hs. injection Hs as Ha _.
      symmetry in Ha. revert Ha.
      apply (hex_value_digit _ (Z.mod_pos_bound (z / 16 ^ Z.of_nat 31) 16 ltac:(lia))). }
  rewrite bool_decide_eq_false_2 by done. rewrite Hp. cbn.
  rewrite (proj2 (Z.ltb_lt _ _)) by apply Hz. done.
Qed.

Lemma hex_digits_inj x y : in_u128 x → in_u128 y → hex_digits 32 x = hex_digits 32 y → x = y.
Proof.
  intros Hx%u128_from_hex_digits Hy%u128_from_hex_digits Heq. rewrite Heq in Hx. congruence.
Qed.

Lemma strip_prefix_app p s : strip_prefix p (p +:+ s) = Some s.
Proof.
  unfold strip_prefix. assert (String.prefix p (p +:+ s) = true) as ->.
  { induction p as [|a p IH]; [by destruct s|].
    transitivity (if Ascii.ascii_dec a a then String.prefix p (p +:+ s) else false); [done|].
    by destruct (Ascii.ascii_dec a a). }
  f_equal. replace (String.length (p +:+ s) - String.length p)%nat with (String.length s).
  - induction p as [|a p IH]; [|done]. change (EmptyString +:+ s) with s. cbn [String.length].
    induction s as [|b s IHs]; [done|]. cbn. by rewrite IHs.
  - assert (String.length (p +:+ s) = String.length p + String.length s)%nat as ->; [|lia].
    induction p as [|a p IH]; [done|]. apply (f_equal Datatypes.S), IH.
Qed.

Lemma transaction_id_from_name prefix description x :
  id128_wf x →
  transaction_id_from_metadata_name (prefix +:+ hex_digits 32 x) prefix description = Ok x.
Proof.
  intros [Hx Hz]. unfold transaction_id_from_metadata_name.
  rewrite strip_prefix_app, length_hex_digits. cbn [Nat.eqb negb].
  rewrite u128_from_hex_digits by done. cbn. by rewrite TransactionId_new_Ok.
Qed.

Lemma state_name_inj x y :
  in_u128 x → in_u128 y → transaction_state_metadata_name x = transaction_state_metadata_name y → x = y.
Proof.
  intros Hx Hy Heq%(f_equal (strip_prefix TRANSACTION_STATE_METADATA_PREFIX)).
  unfold transaction_state_metadata_name in Heq. rewrite !strip_prefix_app in Heq.
  apply (inj Some) in Heq. by apply hex_digits_inj.
Qed.

(** ** The state record of a transaction *)

Lemma intent_encode_bounds i bs :
  intent_encode_current i = Ok bs → len bs ≤ MAX_TRANSACTION_INTENT_BYTES.
Proof.
  unfold intent_encode_current. intros (u & _ & (e & _ & (e' & _ & Hb)%bind_Ok)%bind_Ok)%bind_Ok.
  guard_in Hb as Hmax. to_prop. by apply (inj Ok) in Hb as <-.
Qed.

Section records.
Context (blake3 : bytes → Digest32).
Hypothesis blake3_wf : ∀ bs, digest_wf (blake3 bs).

Definition terminal_ok (t : option TransactionRecord) : Prop :=
  match t with Some r => record_ok r | None => True end.

Lemma decode_terminal_round i t tag :
  terminal_ok t → terminal_tag t = Ok tag →
  match t with Some r => validate_intent_terminal blake3 i r = Ok tt | None => True end →
  decode_terminal blake3 i (pi_transaction_id i) tag
    (match t with Some r => be_bytes 8 (tr_transaction_time r) ++ tr_record_digest r | None => [] end)
  = Ok t.
Proof.
  destruct t as [r|]; [|by intros _ [= <-] _]. intros [(Hid & Ht & [Hlen _]) Hz] Htag Hv.
  assert (tag = 2 ∧ tr_state r = Committed ∨ tag = 3 ∧ tr_state r = Aborted) as Hcase.
  { unfold terminal_tag in Htag. cbn in Htag. destruct (tr_state r); naive_solver. }
  assert (tr_id r = pi_transaction_id i) as Hx.
  { unfold validate_intent_terminal in Hv. guard_in Hv as Hg. by to_prop. }
  unfold decode_terminal.
  rewrite take_app_length', drop_app_length' by by rewrite length_be_bytes.
  replace (len (be_bytes 8 (tr_transaction_time r) ++ tr_record_digest r)) with 40
    by (unfold len; rewrite length_app, length_be_bytes, Hlen; done).
  rewrite i64_round_trip by apply Ht. rewrite TransactionTime_new_Ok by done.
  assert (mkTransactionRecord (pi_transaction_id i) (if tag =? 2 then Committed else Aborted)
            (tr_transaction_time r) (tr_record_digest r) = r) as Hr.
  { destruct r; cbn in *. subst. by destruct Hcase as [[-> ->]|[-> ->]]. }
  destruct Hcase as [[-> _]|[-> _]]; cbn -[validate_intent_terminal] in *;
    unfold TransactionRecord_new; rewrite bool_decide_eq_false_2 by done;
    cbn -[validate_intent_terminal]; rewrite Hr, Hv; done.
Qed.

(** What [transaction_state_metadata] stores, [decode_transaction_state_metadata] reads. *)
Lemma state_round_trip i t md :
  intent_ok i → terminal_ok t → transaction_state_metadata blake3 i t = Ok md →
  rm_name md = transaction_state_metadata_name (pi_transaction_id i) ∧
  decode_transaction_state_metadata blake3 md = Ok (mkDurableState i t).
Proof.
  intros Hi Ht ([] & Hv & (enc & Henc & (tag & Htag & Hmd)%bind_Ok)%bind_Ok)%bind_Ok.
  apply (inj Ok) in Hmd as <-. split; [done|]. unfold decode_transaction_state_metadata.
  cbn [rm_name rm_value]. unfold transaction_state_metadata_name.
  rewrite transaction_id_from_name by apply Hi. cbn [mbind result_bind].
  pose proof (intent_encode_bounds i enc Henc) as Hb. pose proof (len_nonneg enc).
  assert (in_u32 (len enc)) as Hu32 by (unfold in_u32, MAX_TRANSACTION_INTENT_BYTES in *; lia).
  set (trailer := match t with Some _ => _ | None => _ end).
  set (bs := be_bytes 4 1 ++ [tag] ++ be_bytes 4 (len enc) ++ enc ++ trailer).
  assert (len bs = 9 + len enc + len trailer) as Hlen.
  { unfold bs, len. rewrite !length_app, !length_be_bytes. cbn. lia. }
  pose proof (len_nonneg trailer).
  rewrite (proj2 (Z.ltb_ge _ _)) by lia.
  assert (be_value (take 4 bs) = 1) as -> by done.
  assert (be_value (slice 4 5 bs) = tag) as ->.
  { unfold bs. rewrite (slice_app_mid (be_bytes 4 1) [tag]) by done. unfold be_value. cbn. lia. }
  assert (slice 5 9 bs = be_bytes 4 (len enc)) as ->.
  { unfold bs. rewrite (app_assoc _ [tag]). by apply slice_app_mid. }
  rewrite be_value_round by done. cbn [orb negb Z.eqb Pos.eqb].
  rewrite (proj2 (Z.ltb_ge _ _)) by lia.
  assert (bs = (be_bytes 4 1 ++ [tag] ++ be_bytes 4 (len enc)) ++ enc ++ trailer) as Hbs
    by by unfold bs; rewrite <-!app_assoc.
  assert (Z.to_nat (9 + len enc) = 9 + length enc)%nat as Hend by (unfold len; lia).
  rewrite Hend, Hbs, (slice_app_mid _ enc trailer) by done. rewrite (intent_round_trip i enc) by done. cbn.
  rewrite Z.eqb_refl. cbn -[decode_terminal]. 
  rewrite app_assoc, drop_app_length' by by rewrite length_app.
  unfold trailer. rewrite (decode_terminal_round i t tag); [done..|]. by destruct t.
Qed.

(** ** The index of active intents *)

Lemma intent_digest_wf i d : intent_digest blake3 i = Ok d → digest_wf d.
Proof using blake3_wf.
  intros (bs & _ & Hd)%bind_Ok. apply (inj Ok) in Hd as <-. apply blake3_wf.
Qed.

Lemma decode_active_chunks_round l : ∀ bs prev m,
  active_entries blake3 l = Ok bs → StronglySorted (λ p q, p.1 < q.1) l →
  Forall (λ p, id128_wf p.1) l → match prev with Some x => Forall (λ p, x < p.1) l | None => True end →
  len bs = Z.of_nat (length l) * 48 ∧
  ∃ m', decode_active_chunks (length l) bs prev m = Ok m' ∧
    (∀ id, id ∉ l.*1 → m' !! id = m !! id) ∧
    (∀ id i, (id, i) ∈ l → ∃ d, intent_digest blake3 i = Ok d ∧ m' !! id = Some d).
Proof using blake3_wf.
  induction l as [|[id i] l IH]; intros bs prev m Hbs Hs Hwf Hp.
  { injection Hbs as <-. split; [done|]. exists m. split; [done|]. split; [done|]. by intros ? ? ?%elem_of_nil. }
  cbn [active_entries] in Hbs. apply bind_Ok in Hbs as (d & Hd & Hbs).
  apply bind_Ok in Hbs as (rest & Hrest & Hbs). apply (inj Ok) in Hbs as <-.
  inversion Hs as [|? ? Hsl Hlt]; subst. inversion Hwf as [|? ? Hid Hwfl]; subst. cbn in Hid.
  destruct (intent_digest_wf i d Hd) as [Hdl _].
  edestruct (IH rest (Some id) (<[id:=d]> m)) as (Hlen & m' & Hm' & Hout & Hin); [done..|].
  split.
  { unfold len in *. rewrite !length_app, length_be_bytes. cbn [length]. lia. }
  exists m'. split; [|split].
  - cbn [decode_active_chunks length]. rewrite take_app_length' by by rewrite length_be_bytes.
    rewrite be_value_round by apply Hid. rewrite TransactionId_new_Ok by apply Hid. cbn [lift_kernel map_err mbind result_bind].
    assert (match prev with Some p => id <=? p | None => false end = false) as ->.
    { destruct prev as [x|]; [|done]. inversion Hp; subst. cbn in *. apply Z.leb_gt. lia. }
    rewrite (slice_app_mid (be_bytes 16 id) d) by (rewrite ?length_be_bytes; lia).
    rewrite app_assoc, drop_app_length'; [done|]. rewrite length_app, length_be_bytes. lia.
  - intros x [Hx Hxl]%not_elem_of_cons. rewrite Hout by done. by rewrite lookup_insert_ne.
  - intros x j [[= -> ->]|Hj]%elem_of_cons; [|by apply Hin]. exists d. split; [done|].
    rewrite Hout, lookup_insert_eq; [done|]. intros (q & -> & Hq)%list_elem_of_fmap.
    rewrite Forall_forall in Hlt. specialize (Hlt q Hq). cbn in Hlt. lia.
Qed.

(** The index lists exactly the active transactions, each with the digest of its intent. *)
Lemma active_round_trip active md :
  (∀ id i, active !! id = Some i → id128_wf id) → active_intents_metadata blake3 active = Ok md →
  rm_name md = ACTIVE_TRANSACTION_INTENTS_METADATA_NAME ∧
  ∃ indexed, decode_active_intents_metadata md = Ok indexed ∧
    ∀ id, match active !! id with
          | Some i => ∃ d, intent_digest blake3 i = Ok d ∧ indexed !! id = Some d
          | None => indexed !! id = None
          end.
Proof using blake3_wf.
  intros Hwf Hmd. unfold active_intents_metadata in Hmd. guard_in Hmd as Hsize. to_prop.
  apply bind_Ok in Hmd as (bs & Hbs & Hmd). apply (inj Ok) in Hmd as <-. split; [done|].
  edestruct (decode_active_chunks_round (entries active) bs None ∅) as (Hlen & m' & Hm' & Hout & Hin);
    [done|apply entries_sorted| |done|].
  { apply Forall_forall. intros [id i] Hi%elem_of_entries. by eapply Hwf. }
  rewrite length_entries in Hlen, Hm'. exists m'. split.
  - unfold decode_active_intents_metadata. cbn [rm_name rm_value].
    rewrite bool_decide_eq_true_2 by done. cbn [negb].
    set (n := Z.of_nat (size active)) in *. assert (in_u32 n) as Hn.
    { unfold in_u32, MAX_TRANSACTION_INTENT_ITEMS in *. lia. }
    replace (len _) with (8 + n * 48) by (unfold len in *; rewrite !length_app, !length_be_bytes; cbn; lia).
    rewrite take_app_length' by by rewrite length_be_bytes. rewrite be_value_round by done.
    rewrite (slice_app_mid (be_bytes 4 1) (be_bytes 4 n)) by done. rewrite be_value_round by done.
    rewrite (proj2 (Z.ltb_ge _ 8)) by lia. cbn [Z.eqb Pos.eqb negb orb].
    rewrite (proj2 (Z.ltb_ge _ n)) by done. rewrite Z.eqb_refl. cbn [negb orb].
    rewrite app_assoc, drop_app_length' by by rewrite length_app, !length_be_bytes.
    unfold n. by rewrite Nat2Z.id.
  - intros id. destruct (active !! id) as [i|] eqn:Hid; [by apply Hin, elem_of_entries|].
    rewrite Hout; [done|]. intros (p & -> & Hp)%list_elem_of_fmap. destruct p as [x j].
    apply elem_of_entries in Hp. cbn in *. congruence.
Qed.
End records.
