(* ===== verification/ShardHistory.v ===== *)
(** * Reading the change history of a shard

    The page loop of [for_each_change] visits every change of the requested range, whatever the page
    size and the number of pages; so an accepted transaction was compared with every change after its
    snapshot. *)

From S2P Require Import Prelude Text Kernel Encoding Storage ShardWire ShardCommand ShardMetadata.
From S2P Require Import StateStore ShardMachine.
Open Scope Z_scope.

(** ** Conflicts *)

Lemma writes_conflict_sym a b : writes_conflict a b = writes_conflict b a.
Proof.
  unfold writes_conflict. rewrite (bool_decide_ext _ _ (symmetry_iff (=) a.1 b.1)).
  destruct (bool_decide _), a.2, b.2; cbn; [|done..]. apply overlaps_sym.
Qed.

Lemma mutations_conflict_true l r :
  mutations_conflict l r = true ↔
  ∃ a b, a ∈ omap graph_write l ∧ b ∈ omap graph_write r ∧ writes_conflict a b = true.
Proof.
  unfold mutations_conflict. rewrite existsb_exists. setoid_rewrite existsb_exists.
  setoid_rewrite <-list_elem_of_In. naive_solver.
Qed.

Lemma mutations_conflict_sym l r : mutations_conflict l r = mutations_conflict r l.
Proof.
  apply eq_iff_eq_true. rewrite !mutations_conflict_true. setoid_rewrite (writes_conflict_sym) at 1. naive_solver.
Qed.

Lemma mutations_conflict_app_r l r r' :
  mutations_conflict l (r ++ r') = mutations_conflict l r || mutations_conflict l r'.
Proof.
  apply eq_iff_eq_true. rewrite orb_true_iff, !mutations_conflict_true, omap_app.
  setoid_rewrite elem_of_app. naive_solver.
Qed.

Lemma mutations_conflict_elem l r m :
  mutations_conflict l r = false → m ∈ r → mutations_conflict l [m] = false.
Proof.
  rewrite <-!not_true_iff_false, !mutations_conflict_true. intros Hn Hm (a & b & Ha & Hb & Hc).
  apply Hn. exists a, b. split; [done|]. split; [|done].
  apply list_elem_of_omap in Hb as (x & Hx & Hb). apply list_elem_of_singleton in Hx as ->.
  apply list_elem_of_omap. by exists m.
Qed.

(** ** The history *)

Definition change_lt (a b : ChangeRecord) : Prop := cursor_ltb (cr_cursor a) (cr_cursor b) = true.

(** Changes are in the order of their cursors, from index one to the applied index. *)
Definition history_ok (c : StoreContents) : Prop :=
  0 ≤ sc_applied_index c ∧ StronglySorted change_lt (sc_changes c) ∧
  Forall (λ ch, 0 < cc_raft_index (cr_cursor ch) ≤ sc_applied_index c) (sc_changes c).

(** No change after index [snapshot] with a time after [start] conflicts with [ms]. *)
Definition clear_since (c : StoreContents) (start : TransactionTime) (snapshot : Z)
    (ms : list LogicalMutation) : Prop :=
  ∀ ch t, ch ∈ sc_changes c → snapshot < cc_raft_index (cr_cursor ch) →
    graph_mutation_time (cr_mutation ch) = Some t → start < t →
    mutations_conflict ms [cr_mutation ch] = false.

Lemma cursor_ltb_trans a b c : cursor_ltb a b = true → cursor_ltb b c = true → cursor_ltb a c = true.
Proof. unfold cursor_ltb. rewrite !orb_true_iff, !andb_true_iff, !Z.ltb_lt, !Z.eqb_eq. lia. Qed.

Lemma StronglySorted_filter {A} (R : A → A → Prop) (f : A → bool) l :
  StronglySorted R l → StronglySorted R (List.filter f l).
Proof.
  induction 1 as [|x l Hl IH Hx]; cbn; [constructor|]. destruct (f x); [|done]. constructor; [done|].
  rewrite Forall_forall in *. intros y [Hy _]%list_elem_of_In%filter_In. by apply Hx, list_elem_of_In.
Qed.

Lemma StronglySorted_take_drop {A} (R : A → A → Prop) l n x y :
  StronglySorted R l → last (take n l) = Some x → y ∈ drop n l → R x y.
Proof.
  intros Hs Hx Hy. rewrite <-(take_drop n l) in Hs.
  apply last_Some in Hx as [k Hk]. rewrite Hk, <-app_assoc in Hs.
  clear Hk. induction k as [|z k IH]; cbn in Hs; inversion Hs as [|? ? Hs' Hall]; subst; [|by apply IH].
  rewrite Forall_forall in Hall. by apply Hall.
Qed.

Section history.
Context (blake3 : bytes → Digest32) {St V : Type} `{Hstore : ReplicaStateStore St V}.
Context `{Hlaws : !ReplicaStateStoreLaws blake3 St V}.

(** A loop that ends well visited every change of its range. *)
Lemma change_pages_visits pages : ∀ (v : V) applied_index records after visit ch,
  StronglySorted change_lt (sc_changes (view_contents v)) →
  change_pages pages v applied_index records after visit = Ok tt →
  ch ∈ sc_changes (view_contents v) → cc_raft_index (cr_cursor ch) ≤ applied_index →
  match after with Some a => cursor_ltb a (cr_cursor ch) = true | None => True end →
  visit ch = Ok tt.
Proof.
  induction pages as [|pages IH]; intros v n records after visit ch Hs Hp Hch Hidx Hafter; [done|].
  cbn [change_pages] in Hp. apply bind_Ok in Hp as (request & Hreq & Hp).
  assert (request = mkChangesRead after n HISTORY_PAGE_LIMIT) as ->.
  { unfold ChangesRead_new in Hreq. destruct (_ || _); [done|]. by injection Hreq as <-. }
  apply bind_Ok in Hp as (page & Hpage & Hp). guard_in Hp as Hrec.
  apply bind_Ok in Hp as ([] & Hrows & Hp).
  destruct (view_changes v _) as [page'|] eqn:Hv; [|done]. injection Hpage as ->.
  apply changes_law in Hv. rewrite try_for_each_Ok, Forall_forall in Hrows.
  set (matching := List.filter (λ change, includes (mkChangesRead after n HISTORY_PAGE_LIMIT) (cr_cursor change))
                     (sc_changes (view_contents v))) in *.
  assert (ch ∈ matching) as Hm.
  { apply list_elem_of_In, filter_In. split; [by apply list_elem_of_In|]. unfold includes. cbn.
    apply andb_true_iff. split; [by destruct after|by apply Z.leb_le]. }
  assert (∀ x, x ∈ take (Z.to_nat HISTORY_PAGE_LIMIT) matching → visit x = Ok tt) as Hvis.
  { intros x Hx. specialize (Hrows x). rewrite Hv in Hrows. specialize (Hrows Hx).
    guard_in Hrows as Hout. done. }
  rewrite <-(take_drop (Z.to_nat HISTORY_PAGE_LIMIT) matching) in Hm.
  apply elem_of_app in Hm as [Hm|Hm]; [by apply Hvis|].
  rewrite Hv in Hp. unfold spec_page in Hp. cbn [cp_next_after cp_rows cq_limit] in Hp. fold matching in Hp.
  destruct (HISTORY_PAGE_LIMIT <? Z.of_nat (length matching)) eqn:Hlim; to_prop.
  - destruct (last (take (Z.to_nat HISTORY_PAGE_LIMIT) matching)) as [x|] eqn:Hlast; cbn in Hp.
    + guard_in Hp as Hnext. eapply IH; [done|exact Hp|done|done|].
      eapply (StronglySorted_take_drop change_lt); [|exact Hlast|exact Hm]. by apply StronglySorted_filter.
    + apply last_None in Hlast. apply (f_equal length) in Hlast. rewrite length_take in Hlast.
      unfold HISTORY_PAGE_LIMIT in *. cbn [length] in Hlast. lia.
  - rewrite drop_ge in Hm by (unfold HISTORY_PAGE_LIMIT in *; lia). by apply elem_of_nil in Hm.
Qed.

(** What [validate_write_conflicts] accepts is clear of the active intents and of the changes behind
    its cursor. *)
Lemma validate_write_conflicts_visits (self : ShardStateMachine St) transaction_id start_time snapshot candidate :
  validate_write_conflicts self transaction_id start_time snapshot candidate = Ok tt →
  history_ok (contents (sm_state_store self)) →
  sc_applied_index (contents (sm_state_store self)) = sm_applied_index self →
  (∀ i, i ∈ values (sm_active_intents self) → pi_transaction_id i ≠ transaction_id →
     mutations_conflict candidate (pi_mutations i) = false) ∧
  (∀ ch t, ch ∈ sc_changes (contents (sm_state_store self)) →
     cursor_ltb (mkChangeCursor snapshot u64_max) (cr_cursor ch) = true →
     graph_mutation_time (cr_mutation ch) = Some t → start_time < t →
     mutations_conflict candidate [cr_mutation ch] = false).
Proof.
  unfold validate_write_conflicts. intros Hv (_ & Hsort & Hbound) Happ. guard_in Hv as Hex. split.
  - intros i Hi Hne. apply existsb_false in Hex. rewrite Forall_forall in Hex.
    specialize (Hex i Hi). cbn in Hex. by rewrite (proj2 (Z.eqb_neq _ _)) in Hex.
  - intros ch t Hch Hlt Ht Hts. rewrite Forall_forall in Hbound. pose proof (Hbound ch Hch) as Hb. cbn in Hb.
    unfold for_each_change in Hv. rewrite (proj2 (Z.eqb_neq _ _)) in Hv by lia.
    apply bind_Ok in Hv as (v & Hview & Hv).
    destruct (begin_read_view _ _) as [v'|] eqn:Hread; [|done]. injection Hview as ->.
    apply read_view_law in Hread as (Hvc & _ & _).
    eapply (change_pages_visits _ _ _ _ _ _ ch) in Hv; [|by rewrite Hvc|by rewrite Hvc|lia|done].
    cbn in Hv. rewrite Ht, (proj2 (Z.ltb_lt _ _)) in Hv by done. by destruct (mutations_conflict _ _).
Qed.

Lemma validate_write_conflicts_Ok (self : ShardStateMachine St) transaction_id start_time snapshot candidate :
  validate_write_conflicts self transaction_id start_time snapshot candidate = Ok tt →
  history_ok (contents (sm_state_store self)) →
  sc_applied_index (contents (sm_state_store self)) = sm_applied_index self →
  (∀ id i, sm_active_intents self !! id = Some i → pi_transaction_id i ≠ transaction_id →
     mutations_conflict candidate (pi_mutations i) = false) ∧
  clear_since (contents (sm_state_store self)) start_time snapshot candidate.
Proof.
  intros Hv Hh Happ. destruct (validate_write_conflicts_visits _ _ _ _ _ Hv Hh Happ) as [Hfree Hvis]. split.
  - intros id i Hi. apply Hfree, elem_of_values. by exists id.
  - intros ch t Hch Hidx. apply Hvis; [done|]. unfold cursor_ltb. cbn. by rewrite (proj2 (Z.ltb_lt _ _)).
Qed.
End history.
