(* ===== verification/ShardInvariant.v ===== *)
(** * The invariant of a shard and the effect of its steps

    What [apply_committed] does to the content of the store, as a relation; the agreement between the
    machine's memory and the durable records; and that every step keeps it. *)

From S2P Require Import Prelude Text Kernel Encoding Storage ShardWire ShardCommand ShardCodec.
From S2P Require Import ShardMetadata StateStore ShardMachine ShardRecords ShardHistory.
Open Scope Z_scope.

(** ** Metadata after a batch *)

Lemma metadata_after_app ms ns md : metadata_after (ms ++ ns) md = metadata_after ns (metadata_after ms md).
Proof. apply foldl_app. Qed.

Lemma metadata_after_other ms md n :
  (∀ m, PutReplicaMetadata m ∈ ms → rm_name m ≠ n) → metadata_after ms md !! n = md !! n.
Proof.
  revert md. induction ms as [|m ms IH]; intros md Hn; [done|].
  change (metadata_after ms (put_metadata m md) !! n = md !! n). rewrite IH.
  - destruct m; try done. cbn. apply lookup_insert_ne, Hn. left.
  - intros x Hx. apply Hn. by right.
Qed.

(** The changes a batch of [ms] at [index] leaves. *)
Definition changes_at (index : Z) (ms : list LogicalMutation) : list ChangeRecord :=
  imap (λ i m, mkChangeRecord (mkChangeCursor index (Z.of_nat i)) m) ms.

Lemma elem_of_changes_at index ms ch :
  ch ∈ changes_at index ms → cc_raft_index (cr_cursor ch) = index ∧ cr_mutation ch ∈ ms.
Proof.
  unfold changes_at. intros (i & m & -> & Hm)%elem_of_lookup_imap.
  split; [done|]. by eapply list_elem_of_lookup_2.
Qed.

(** [c'] is [c] with the batch of [ms] applied at the next index. *)
Record appended (c : StoreContents) (index : Z) (ms : list LogicalMutation) (c' : StoreContents) : Prop := {
  ap_index : index = sc_applied_index c + 1;
  ap_binding : sc_binding c' = sc_binding c;
  ap_applied : sc_applied_index c' = index;
  ap_metadata : sc_metadata c' = metadata_after ms (sc_metadata c);
  ap_changes : sc_changes c' = sc_changes c ++ changes_at index ms;
}.

(** ** The names a command writes *)

Definition home_decision_metadata_name (transaction_id : TransactionId) : string :=
  HOME_DECISION_METADATA_PREFIX +:+ hex_digits 32 transaction_id.

Definition command_name (c : ShardCommand) (n : string) : Prop :=
  match c with
  | CmdCommitSingleShard _ => String.prefix "dtg." n = false
  | CmdPrewriteIntent _ => n = TRANSACTION_INTENT_METADATA_NAME
  | CmdAdvanceClosedTimestamp _ => n = CLOSED_TIMESTAMP_METADATA_NAME
  | CmdInstallSnapshot _ => n = "dtg.installed_snapshot"
  | CmdMigration _ => n = "dtg.migration_phase"
  | CmdCommitSingleShardTransaction _ | CmdRecordHomeDecision _ | CmdFinalizeParticipant _ => False
  end.

(** The names of the intents' own records. *)
Definition tracked_by_intents (n : string) : Prop :=
  n = ACTIVE_TRANSACTION_INTENTS_METADATA_NAME ∨ ∃ id, n = transaction_state_metadata_name id.

(** The names of the records behind the command's own mutations. *)
Definition record_name (c : ShardCommand) (n : string) : Prop :=
  match c with
  | CmdRecordHomeDecision d => n = home_decision_metadata_name (tr_id (hd_decision d))
  | CmdCommitSingleShardTransaction d =>
      n = SINGLE_SHARD_TRANSACTION_METADATA_NAME +:+ hex_digits 32 (ct_transaction_id d)
  | CmdPrewriteIntent _ | CmdFinalizeParticipant _ =>
      n = ACTIVE_TRANSACTION_INTENTS_METADATA_NAME ∨ ∃ id, n = transaction_state_metadata_name id
  | _ => False
  end.

Definition is_graph (m : LogicalMutation) : Prop := is_system_mutation m = false.

Lemma validate_intent_mutations_graph ms : validate_intent_mutations ms = Ok tt → Forall is_graph ms.
Proof.
  unfold validate_intent_mutations. intros Hv. guard_in Hv as Hb. guard_in Hv as Hs.
  by apply existsb_false in Hs.
Qed.

Lemma intent_encode_graph i bs : intent_encode_current i = Ok bs → Forall is_graph (pi_mutations i).
Proof. intros ([] & Hv & _)%bind_Ok. by apply validate_intent_mutations_graph. Qed.

Lemma graph_no_metadata ms m : Forall is_graph ms → PutReplicaMetadata m ∉ ms.
Proof. rewrite Forall_forall. intros Hg Hm. by apply Hg in Hm. Qed.

Section mutations.
Context (blake3 : bytes → Digest32).

Lemma finalize_intent_graph c i :
  finalize_validate blake3 c = Ok tt → fp_intent c = Some i → Forall is_graph (pi_mutations i).
Proof.
  unfold finalize_validate. intros Hv Hi. rewrite Hi in Hv. destruct (tr_state (fp_terminal c)); try done.
  guard_in Hv as Hid. apply bind_Ok in Hv as (d & _ & Hv). guard_in Hv as Hd.
  apply bind_Ok in Hv as (b & _ & Hv). destruct b; [done|]. apply bind_Ok in Hv as (bs & Hbs & _).
  by eapply intent_encode_graph.
Qed.

Lemma command_mutation_names c ms m :
  command_mutations blake3 c = Ok ms → PutReplicaMetadata m ∈ ms → command_name c (rm_name m).
Proof.
  destruct c as [c|c|c|c|c|c|c|c]; cbn [command_mutations command_name]; intros Hms Hm.
  - apply bind_Ok in Hms as ([] & Hv & [= <-]). unfold validate_single_shard_mutations in Hv.
    guard_in Hv as He. apply existsb_false in He. rewrite Forall_forall in He. by apply He in Hm.
  - apply bind_Ok in Hms as ([] & ([] & Hv & _)%bind_Ok & [= <-]).
    apply validate_intent_mutations_graph in Hv. by eapply graph_no_metadata.
  - apply bind_Ok in Hms as ([] & _ & (md & Hmd & [= <-])%bind_Ok).
    apply bind_Ok in Hmd as (bs & _ & [= <-]). rewrite !elem_of_cons, elem_of_nil in Hm.
    by destruct Hm as [?|[[= ->]|?]].
  - apply bind_Ok in Hms as ([] & _ & [= <-]). by rewrite elem_of_cons, elem_of_nil in Hm; destruct Hm.
  - apply bind_Ok in Hms as ([] & Hv & [= <-]).
    rewrite elem_of_app, elem_of_cons, elem_of_nil in Hm. destruct Hm as [Hm|[?|?]]; [|done..].
    destruct (fp_intent c) as [i|] eqn:Hi; [|by apply elem_of_nil in Hm].
    eapply graph_no_metadata; [by eapply finalize_intent_graph|done].
  - apply bind_Ok in Hms as (md & [= <-] & [= <-]). by apply list_elem_of_singleton in Hm as [= ->].
  - apply bind_Ok in Hms as (md & [= <-] & [= <-]). by apply list_elem_of_singleton in Hm as [= ->].
  - apply bind_Ok in Hms as (md & Hmd & [= <-]). apply list_elem_of_singleton in Hm as [= ->].
    unfold migration_metadata in Hmd. destruct (mc_online c); by injection Hmd as <-.
Qed.
End mutations.

(** ** What a step does *)

Section effects.
Context (blake3 : bytes → Digest32) {St V : Type} `{Hstore : ReplicaStateStore St V}.
Context `{Hlaws : !ReplicaStateStoreLaws blake3 St V}.
Implicit Types (self : ShardStateMachine St) (s : St) (c : ShardCommand).

(** The content of the machine's store. *)
Definition db self : StoreContents := contents (sm_state_store self).

Lemma batch_new_fields binding term index id ms batch :
  CommittedShardBatch_new blake3 binding term index id ms = Ok batch →
  csb_binding batch = binding ∧ csb_raft_index batch = index ∧ csb_mutations batch = ms.
Proof.
  unfold CommittedShardBatch_new. intros Hb. guard_in Hb as Hz. destruct ms; [done|]. by injection Hb as <-.
Qed.

Lemma spec_apply_new (c c' : StoreContents) batch receipt :
  spec_apply blake3 c batch = Ok (receipt, c') → sc_applied_index c < csb_raft_index batch →
  c' = contents_append c batch ∧ csb_raft_index batch = sc_applied_index c + 1 ∧
  receipt = ApplyReceipt_new batch false.
Proof.
  unfold spec_apply. intros (u & _ & Ha)%bind_Ok Hidx. guard_in Ha as Hbind.
  rewrite (proj2 (Z.leb_gt _ _)) in Ha by done. guard_in Ha as Hnext. to_prop. by injection Ha as <- <-.
Qed.

Lemma contents_append_appended (c : StoreContents) batch :
  csb_raft_index batch = sc_applied_index c + 1 →
  appended c (csb_raft_index batch) (csb_mutations batch) (contents_append c batch).
Proof. by split. Qed.

(** A batch above the applied index is appended, or the store is as before. *)
Lemma apply_batch_new binding s term index id ms r s' :
  apply_batch_of blake3 binding s term index id ms = (r, s') → sc_applied_index (contents s) < index →
  match r with
  | Err e => contents s' = contents s ∧ ∃ e', e = ShardStorage e'
  | Ok receipt =>
      ∃ batch, CommittedShardBatch_new blake3 binding term index id ms = Ok batch ∧
        index = sc_applied_index (contents s) + 1 ∧ contents s' = contents_append (contents s) batch ∧
        receipt = ApplyReceipt_new batch false
  end.
Proof.
  unfold apply_batch_of. intros Ha Hidx.
  destruct (CommittedShardBatch_new blake3 binding term index id ms) as [batch|e] eqn:Hb;
    [|injection Ha as <- <-; by eauto].
  apply batch_new_fields in Hb as (_ & Hi & _).
  destruct (store_apply s batch) as [r' s1] eqn:Hs. injection Ha as <- <-. apply apply_law in Hs.
  destruct r' as [receipt|]; cbn; [|by eauto].
  apply spec_apply_new in Hs as (Hc & Hn & ->); [|lia]. exists batch. by rewrite <-Hi.
Qed.

Lemma apply_batch_effect binding s term index id ms r s' :
  apply_batch_of blake3 binding s term index id ms = (r, s') → sc_applied_index (contents s) < index →
  match r with
  | Err _ => contents s' = contents s
  | Ok receipt =>
      appended (contents s) index ms (contents s') ∧ ar_raft_index receipt = index ∧
      ar_replayed receipt = false
  end.
Proof.
  intros Ha Hidx. apply apply_batch_new in Ha; [|done]. destruct r as [receipt|e]; [|apply Ha].
  destruct Ha as (batch & Hb & Hn & -> & ->). apply batch_new_fields in Hb as (_ & Hi & Hms).
  rewrite <-Hi, <-Hms. split; [|done]. apply contents_append_appended. congruence.
Qed.

(** One step above the applied index: the store refused it, the command was rejected and only a
    marker written, or it was accepted and its batch written. *)
Inductive step_effect self index c : result ShardError ApplyOutcome → ShardStateMachine St → Prop :=
| effect_failed e s :
    contents s = db self → step_effect self index c (Err e) (with_store self s (sm_applied_index self))
| effect_rejected outcome rejection md s :
    rm_name md = "dtg.raft_rejection" → ao_rejection outcome = Some rejection →
    appended (db self) index [PutReplicaMetadata md] (contents s) →
    step_effect self index c (Ok outcome) (with_store self s index)
| effect_accepted outcome transition ms s :
    validate_command blake3 self c = Ok tt →
    validate_transaction_acceptance blake3 self c = Ok transition →
    persisted_mutations blake3 self index c transition = Ok ms →
    ao_rejection outcome = None →
    appended (db self) index ms (contents s) →
    step_effect self index c (Ok outcome)
      (mkMachine (sm_binding self) s index
         (match c with
          | CmdAdvanceClosedTimestamp c => Some (ac_closed_timestamp c)
          | _ => sm_closed_timestamp self
          end)
         (next_intents (sm_active_intents self) transition) (sm_migration_state_stores self)).

Lemma with_store_self self : with_store self (sm_state_store self) (sm_applied_index self) = self.
Proof. by destruct self. Qed.

Lemma apply_marker_effect self term index id md rejection r self' :
  apply_marker blake3 self term index id (Ok md) rejection = (r, self') →
  sc_applied_index (db self) = sm_applied_index self → sm_applied_index self < index →
  (∃ e s, r = Err e ∧ contents s = db self ∧ self' = with_store self s (sm_applied_index self)) ∨
  (∃ outcome s, r = Ok outcome ∧ ao_rejection outcome = rejection ∧
     appended (db self) index [PutReplicaMetadata md] (contents s) ∧ self' = with_store self s index).
Proof.
  unfold apply_marker. intros Ha Happ Hidx.
  destruct (apply_batch_of _ _ _ _ _ _ _) as [r' s] eqn:Hb.
  apply apply_batch_effect in Hb; [|unfold db in Happ; lia]. destruct r' as [receipt|e].
  - destruct Hb as (Hap & Hi & Hr). injection Ha as <- <-. right. eexists _, s.
    repeat split_and!; [done..|]. f_equal. rewrite Hi. lia.
  - injection Ha as <- <-. left. by exists e, s.
Qed.

Lemma reject_or_fail_effect self term index c error r self' :
  reject_or_fail blake3 self term index c error = (r, self') →
  sc_applied_index (db self) = sm_applied_index self → sm_applied_index self < index →
  step_effect self index c r self'.
Proof.
  unfold reject_or_fail. intros Hr Happ Hidx. destruct (committed_rejection error) as [rej|].
  - eapply apply_marker_effect in Hr as [(e & s & -> & Hs & ->)|(o & s & -> & Ho & Hs & ->)]; [..|done|done].
    + by constructor.
    + eapply effect_rejected; [|done|exact Hs]. done.
  - injection Hr as <- <-. rewrite <-with_store_self at 2. by constructor.
Qed.

Lemma apply_accepted_effect self term index c transition r self' :
  validate_command blake3 self c = Ok tt →
  validate_transaction_acceptance blake3 self c = Ok transition →
  apply_accepted blake3 self term index c transition = (r, self') →
  sc_applied_index (db self) = sm_applied_index self → sm_applied_index self < index →
  step_effect self index c r self'.
Proof.
  intros Hv Hacc Ha Happ Hidx. unfold apply_accepted in Ha.
  destruct (persisted_mutations blake3 self index c transition) as [ms|e] eqn:Hms.
  2:{ injection Ha as <- <-. rewrite <-with_store_self at 2. by constructor. }
  destruct (apply_batch_of _ _ _ _ _ _ _) as [r' s] eqn:Hb.
  apply apply_batch_effect in Hb; [|unfold db in Happ; lia]. destruct r' as [receipt|e].
  - destruct Hb as (Hap & Hi & Hr). injection Ha as <- <-. unfold advance. rewrite Hr, Hi.
    replace (Z.max _ _) with index by lia. by eapply effect_accepted.
  - injection Ha as <- <-. by constructor.
Qed.

(** Every step of [apply_committed] above the applied index that is not a cutover. *)
Lemma apply_committed_effect self term index c r self' :
  apply_committed blake3 self term index c = (r, self') → is_cutover self c = false →
  sc_applied_index (db self) = sm_applied_index self → sm_applied_index self < index →
  step_effect self index c r self'.
Proof.
  intros Ha Hcut Happ Hidx. unfold apply_committed in Ha.
  destruct (validate_command blake3 self c) as [[]|e] eqn:Hv; [|by eapply reject_or_fail_effect].
  assert (match validate_transaction_acceptance blake3 self c with
          | Ok transition => apply_accepted blake3 self term index c transition
          | Err error => reject_or_fail blake3 self term index c error
          end = (r, self')) as Hacc.
  { destruct c; try (rewrite (proj2 (Z.ltb_ge _ _)) in Ha by lia; exact Ha). by rewrite Hcut in Ha. }
  destruct (validate_transaction_acceptance blake3 self c) as [tr|e] eqn:Hval.
  - by eapply apply_accepted_effect.
  - by eapply reject_or_fail_effect.
Qed.
End effects.

(** ** The durable records of the intents *)

Section stored.
Context (blake3 : bytes → Digest32).
Implicit Types (active : gmap TransactionId ParticipantIntent) (md : gmap string ReplicaMetadata).

Lemma active_intents_name active m :
  active_intents_metadata blake3 active = Ok m → rm_name m = ACTIVE_TRANSACTION_INTENTS_METADATA_NAME.
Proof.
  unfold active_intents_metadata. intros Hm. guard_in Hm as Hsz.
  apply bind_Ok in Hm as (bs & _ & Hm). by apply (inj Ok) in Hm as <-.
Qed.

Lemma state_metadata_name i t m :
  transaction_state_metadata blake3 i t = Ok m → rm_name m = transaction_state_metadata_name (pi_transaction_id i).
Proof.
  intros (? & _ & (? & _ & (? & _ & Hm)%bind_Ok)%bind_Ok)%bind_Ok. by apply (inj Ok) in Hm as <-.
Qed.

(** The index and the state records in the store describe exactly the active intents. *)
Record intents_stored active md : Prop := {
  st_index : match md !! ACTIVE_TRANSACTION_INTENTS_METADATA_NAME with
             | Some m => active_intents_metadata blake3 active = Ok m
             | None => active = ∅
             end;
  st_active id i : active !! id = Some i →
    pi_transaction_id i = id ∧ intent_ok i ∧
    ∃ m, md !! transaction_state_metadata_name id = Some m ∧ transaction_state_metadata blake3 i None = Ok m;
  st_state id m : in_u128 id → md !! transaction_state_metadata_name id = Some m →
    ∃ i t, pi_transaction_id i = id ∧ intent_ok i ∧ terminal_ok t ∧
      transaction_state_metadata blake3 i t = Ok m ∧ (t = None → active !! id = Some i);
}.

Lemma intents_stored_frame active md md' :
  (∀ n, tracked_by_intents n → md' !! n = md !! n) →
  intents_stored active md → intents_stored active md'.
Proof.
  intros Hf [Hidx Hact Hst]. split.
  - rewrite Hf by by left. done.
  - intros id i Hi. rewrite Hf by by right; exists id. by apply Hact.
  - intros id m Hid. rewrite Hf by by right; exists id. by apply Hst.
Qed.

(** The active intents once the transaction of [i] is in state [t]. *)
Definition intents_with active (i : ParticipantIntent) (t : option TransactionRecord)
    : gmap TransactionId ParticipantIntent :=
  match t with
  | None => <[pi_transaction_id i := i]> active
  | Some _ => delete (pi_transaction_id i) active
  end.

Lemma intents_stored_update active md i t state index :
  intents_stored active md → intent_ok i → terminal_ok t →
  transaction_state_metadata blake3 i t = Ok state →
  active_intents_metadata blake3 (intents_with active i t) = Ok index →
  intents_stored (intents_with active i t) (<[rm_name index := index]> (<[rm_name state := state]> md)).
Proof.
  intros [Hidx Hact Hst] Hi Ht Hstate Hindex.
  destruct (state_round_trip blake3 i t state Hi Ht Hstate) as [Hsn _].
  pose proof (active_intents_name _ _ Hindex) as Hin.
  assert (∀ id, transaction_state_metadata_name id ≠ rm_name index) as Hne by by rewrite Hin.
  assert (∀ id, in_u128 id → id ≠ pi_transaction_id i → transaction_state_metadata_name id ≠ rm_name state) as Hns.
  { intros id Hid Hne'. rewrite Hsn. intros Heq%state_name_inj; [done..|apply Hi]. }
  rewrite Hsn in *. split.
  - by rewrite <-Hin, lookup_insert_eq.
  - intros id j Hj. rewrite lookup_insert_ne by by rewrite Hin.
    assert (id = pi_transaction_id i ∧ t = None ∧ j = i ∨ id ≠ pi_transaction_id i ∧ active !! id = Some j)
      as [(-> & -> & ->)|[Hidi Hj']].
    { destruct t; cbn in Hj; [apply lookup_delete_Some in Hj; naive_solver|].
      apply lookup_insert_Some in Hj. naive_solver. }
    + split; [done|]. split; [done|]. exists state. by rewrite lookup_insert_eq.
    + destruct (Hact id j Hj') as (Hid & Hok & m & Hm & Hmd). split; [done|]. split; [done|].
      exists m. split; [|done]. rewrite lookup_insert_ne; [done|]. apply not_eq_sym, Hns; [|done].
      rewrite <-Hid. apply Hok.
  - intros id m Hid. rewrite lookup_insert_ne by by rewrite Hin.
    destruct (decide (id = pi_transaction_id i)) as [->|Hidi].
    + rewrite lookup_insert_eq. intros [= <-]. exists i, t. refine (conj eq_refl (conj Hi (conj Ht (conj Hstate _)))).
      intros ->. cbn. by rewrite lookup_insert_eq.
    + rewrite lookup_insert_ne by by apply not_eq_sym, Hns. intros Hm.
      destruct (Hst id m Hid Hm) as (j & u & Hj & Hok & Hu & Hmd & Hact'). exists j, u.
      refine (conj Hj (conj Hok (conj Hu (conj Hmd _)))). intros Hnone. destruct t; cbn.
      * rewrite lookup_delete_ne by done. by apply Hact'.
      * rewrite lookup_insert_ne by done. by apply Hact'.
Qed.
End stored.

(** ** The invariant *)

Section invariant.
Context (blake3 : bytes → Digest32) {St V : Type} `{Hstore : ReplicaStateStore St V}.
Context `{Hlaws : !ReplicaStateStoreLaws blake3 St V}.
Implicit Types (self : ShardStateMachine St) (s : St) (c : ShardCommand).
Abbreviation db := (db blake3).

(** The closed timestamp in memory is the stored one. *)
Definition closed_stored (closed : option TransactionTime) (md : gmap string ReplicaMetadata) : Prop :=
  match md !! CLOSED_TIMESTAMP_METADATA_NAME with
  | Some m => ∃ t, time_wf t ∧ rm_value m = VInteger t ∧ closed = Some t
  | None => closed = None
  end.

Record machine_ok self : Prop := {
  mo_binding : sc_binding (db self) = sm_binding self;
  mo_applied : sc_applied_index (db self) = sm_applied_index self;
  mo_history : history_ok (db self);
  mo_closed : closed_stored (sm_closed_timestamp self) (sc_metadata (db self));
  mo_stored : intents_stored blake3 (sm_active_intents self) (sc_metadata (db self));
  mo_local id i : sm_active_intents self !! id = Some i →
    pi_shard_id i = rb_shard_id (sm_binding self) ∧
    pi_snapshot_applied_index i ≤ sm_applied_index self;
  mo_free id id' i i' : sm_active_intents self !! id = Some i → sm_active_intents self !! id' = Some i' →
    id ≠ id' → mutations_conflict (pi_mutations i) (pi_mutations i') = false;
}.

Lemma changes_at_sorted index ms : StronglySorted change_lt (changes_at index ms).
Proof.
  unfold changes_at. enough (∀ n, StronglySorted change_lt
    (imap (λ i m, mkChangeRecord (mkChangeCursor index (Z.of_nat (n + i))) m) ms)) as Hn by apply (Hn 0%nat).
  induction ms as [|m ms IH]; intros n; [constructor|]. cbn. constructor.
  - specialize (IH (S n)). erewrite imap_ext; [exact IH|]. intros i x _. cbn. repeat f_equal. lia.
  - apply Forall_forall. intros x (i & y & -> & _)%elem_of_lookup_imap. unfold change_lt, cursor_ltb. cbn.
    rewrite Z.ltb_irrefl, Z.eqb_refl. cbn. apply Z.ltb_lt. lia.
Qed.

Lemma StronglySorted_app_2 {A} (R : A → A → Prop) l k :
  StronglySorted R l → StronglySorted R k → (∀ x y, x ∈ l → y ∈ k → R x y) → StronglySorted R (l ++ k).
Proof.
  induction 1 as [|x l Hl IH Hx]; intros Hk Hlk; cbn; [done|]. constructor.
  - apply IH; [done|]. intros y z Hy. apply Hlk. by right.
  - apply Forall_app. split; [done|]. apply Forall_forall. intros z. apply Hlk. left.
Qed.

Lemma history_ok_appended (d d' : StoreContents) index ms :
  history_ok d → appended d index ms d' → history_ok d'.
Proof.
  intros (H0 & Hs & Hb) [Hi _ Ha _ Hc]. unfold history_ok. rewrite Ha, Hc. rewrite Forall_forall in Hb.
  split; [lia|]. split.
  - apply StronglySorted_app_2; [done|apply changes_at_sorted|].
    intros x y Hx [Hy _]%elem_of_changes_at. specialize (Hb x Hx). cbn in Hb.
    unfold change_lt, cursor_ltb. rewrite (proj2 (Z.ltb_lt _ _)) by lia. done.
  - apply Forall_app. split; apply Forall_forall.
    + intros x Hx. specialize (Hb x Hx). cbn in Hb. lia.
    + intros x [Hx _]%elem_of_changes_at. lia.
Qed.

(** The batch of an accepted command: its own mutations, then the records of its transaction. *)
Lemma persisted_split self index c tr ms :
  persisted_mutations blake3 self index c tr = Ok ms →
  ∃ cm records, ms = cm ++ map PutReplicaMetadata records ∧
    transaction_metadata blake3 self c tr = Ok records ∧
    (cm = [] ∨ command_mutations blake3 c = Ok cm).
Proof.
  intros (cm & Hcm & (records & Hr & Hms)%bind_Ok)%bind_Ok. apply (inj Ok) in Hms as <-.
  exists cm, records. split; [done|]. split; [done|]. destruct (_ && _); [|by right].
  injection Hcm as <-. by left.
Qed.

Lemma metadata_of_lookup s n m : metadata_of s n = Ok m → m = sc_metadata (contents s) !! n.
Proof.
  unfold metadata_of. destruct (store_replica_metadata s n) as [m'|] eqn:Hm; [|done].
  intros [= <-]. by apply replica_metadata_law.
Qed.

(** The state a machine reads for a transaction is the one stored for it. *)
Lemma durable_state_stored self id d :
  intents_stored blake3 (sm_active_intents self) (sc_metadata (db self)) → in_u128 id →
  durable_transaction_state blake3 self id = Ok d →
  match d with
  | None => sc_metadata (db self) !! transaction_state_metadata_name id = None
  | Some state =>
      ∃ m, sc_metadata (db self) !! transaction_state_metadata_name id = Some m ∧
        pi_transaction_id (ds_intent state) = id ∧ intent_ok (ds_intent state) ∧
        terminal_ok (ds_terminal state) ∧
        transaction_state_metadata blake3 (ds_intent state) (ds_terminal state) = Ok m
  end.
Proof.
  intros Hst Hid (m & Hm%metadata_of_lookup & Hd)%bind_Ok. unfold db, ShardInvariant.db in *.
  destruct m as [m|]; [|by injection Hd as <-].
  destruct (st_state _ _ _ Hst id m Hid (eq_sym Hm)) as (i & t & Hpi & Hi & Ht & Hmd & _).
  destruct (state_round_trip blake3 i t m Hi Ht Hmd) as [_ Hdec]. rewrite Hdec in Hd. injection Hd as <-.
  by exists m.
Qed.

(** What a transaction command writes: the new state [t] of its intent [i] and the index of the
    intents that are active with it. *)
Record transaction_step self tr (i : ParticipantIntent) (t : option TransactionRecord)
    (records : list ReplicaMetadata) : Prop := {
  ts_intent : intent_ok i;
  ts_terminal : terminal_ok t;
  ts_next : next_intents (sm_active_intents self) tr = intents_with (sm_active_intents self) i t;
  ts_records : ∃ state index, records = [state; index] ∧ transaction_state_metadata blake3 i t = Ok state ∧
    active_intents_metadata blake3 (intents_with (sm_active_intents self) i t) = Ok index;
  ts_local : t = None → pi_shard_id i = rb_shard_id (sm_binding self) ∧
    pi_snapshot_applied_index i ≤ sm_applied_index self;
  ts_free id j : t = None → sm_active_intents self !! id = Some j → id ≠ pi_transaction_id i →
    mutations_conflict (pi_mutations i) (pi_mutations j) = false;
  ts_clear : t = None → sm_active_intents self !! pi_transaction_id i = None →
    clear_since (db self) (pi_start_time i) (pi_snapshot_applied_index i) (pi_mutations i);
  ts_durable : ∀ m, sc_metadata (db self) !! transaction_state_metadata_name (pi_transaction_id i) = Some m →
    transaction_state_metadata blake3 i t = Ok m ∨
    sm_active_intents self !! pi_transaction_id i = Some i;
  ts_known : t ≠ None →
    is_Some (sc_metadata (db self) !! transaction_state_metadata_name (pi_transaction_id i));
}.

Lemma validate_command_intent self c i :
  validate_command blake3 self c = Ok tt → command_intent c = Some i →
  pi_shard_id i = rb_shard_id (sm_binding self) ∧
  (is_transaction_command c = true → pi_snapshot_applied_index i ≤ sm_applied_index self).
Proof.
  unfold validate_command. intros Hv Hi. guard_in Hv as H1. guard_in Hv as H2. rewrite Hi in Hv.
  guard_in Hv as H3. guard_in Hv as H4. to_prop. split; [done|].
  intros Ht. destruct c; try done; cbn in H4, Hi; rewrite ?Hi in H4; simplify_eq; cbn in H4; by to_prop.
Qed.

Lemma validate_transaction_mutations self (c : CommitSingleShardTransaction) :
  validate_command blake3 self (CmdCommitSingleShardTransaction c) = Ok tt →
  command_mutations blake3 (CmdCommitSingleShardTransaction c) = Ok (ct_mutations c).
Proof.
  unfold validate_command. intros Hv. guard_in Hv as H1. guard_in Hv as H2. guard_in Hv as H3.
  guard_in Hv as H4. apply bind_Ok in Hv as ([] & _ & (ms & Hms & _)%bind_Ok). rewrite Hms.
  apply bind_Ok in Hms as (? & _ & Hms). by apply (inj Ok) in Hms as <-.
Qed.

Lemma prewrite_step self (c : PrewriteIntent) tr records :
  machine_ok self → shard_command_ok (CmdPrewriteIntent c) →
  validate_command blake3 self (CmdPrewriteIntent c) = Ok tt →
  accept_prewrite blake3 self (pw_intent c) = Ok tr →
  transaction_metadata blake3 self (CmdPrewriteIntent c) tr = Ok records →
  transaction_step self tr (pw_intent c) None records.
Proof.
  intros Hok [_ [_ Hi]] Hv Ha Hr. destruct (validate_command_intent _ _ _ Hv eq_refl) as [Hsh Hsnap].
  specialize (Hsnap eq_refl). unfold accept_prewrite in Ha.
  destruct (sm_active_intents self !! pi_transaction_id (pw_intent c)) as [existing|] eqn:Hex.
  - guard_in Ha as Heq. to_prop. subst existing. injection Ha as <-.
    cbn in Hr. apply bind_Ok in Hr as (state & Hs & (index & Hx & Hr)%bind_Ok). injection Hr as <-.
    assert (intents_with (sm_active_intents self) (pw_intent c) None = sm_active_intents self) as Hid
      by by apply insert_id.
    split; try done.
    + exists state, index. by rewrite Hid.
    + intros id j _ Hj Hne. by eapply (mo_free self Hok); [exact Hex|exact Hj|].
    + congruence.
    + by right.
  - guard_in Ha as Hsize. apply bind_Ok in Ha as (d & Hd & Ha). destruct d; [done|].
    apply durable_state_stored in Hd; [|apply mo_stored, Hok|apply Hi].
    apply bind_Ok in Ha as ([] & Hw & Ha). injection Ha as <-.
    cbn in Hr. apply bind_Ok in Hr as (state & Hs & (index & Hx & Hr)%bind_Ok). injection Hr as <-.
    eapply validate_write_conflicts_Ok in Hw as [Hfree Hclear];
      [|apply mo_history, Hok|apply mo_applied, Hok].
    split; try done.
    + by exists state, index.
    + intros id j _ Hj Hne. apply (Hfree id j Hj). by destruct (st_active _ _ _ (mo_stored self Hok) id j Hj) as [-> _].
    + congruence.
Qed.

Lemma finalize_step self (c : FinalizeParticipant) tr records :
  machine_ok self → shard_command_ok (CmdFinalizeParticipant c) →
  accept_finalize blake3 self c = Ok tr →
  transaction_metadata blake3 self (CmdFinalizeParticipant c) tr = Ok records →
  ∃ i, transaction_step self tr i (Some (fp_terminal c)) records ∧ pi_transaction_id i = tr_id (fp_terminal c).
Proof.
  intros Hok [_ [Ht _]] Ha Hr. unfold accept_finalize in Ha.
  destruct (sm_active_intents self !! tr_id (fp_terminal c)) as [i|] eqn:Hex.
  - apply bind_Ok in Ha as (d & Hd & Ha). guard_in Ha as Hg. apply bind_Ok in Ha as ([] & Hv & Ha).
    injection Ha as <-. cbn in Hr. apply bind_Ok in Hr as (state & Hs & (index & Hx & Hr)%bind_Ok). injection Hr as <-.
    destruct (st_active _ _ _ (mo_stored self Hok) _ _ Hex) as (Hid & Hi & m & Hm & Hmd).
    exists i. split; [|done]. split; try done.
    + cbn. by rewrite Hid.
    + exists state, index. unfold intents_with. by rewrite Hid.
    + right. by rewrite Hid.
    + intros _. exists m. by rewrite Hid.
  - apply bind_Ok in Ha as (d & Hd & Ha). destruct d as [d|]; [|done]. guard_in Ha as Hmf. injection Ha as <-.
    cbn in Hr. rewrite Hd in Hr. cbn in Hr. apply bind_Ok in Hr as (state & Hs & (index & Hx & Hr)%bind_Ok). injection Hr as <-.
    apply durable_state_stored in Hd as (m & Hm & Hid & Hi & Hterm & Hmd); [|apply mo_stored, Hok|apply Ht].
    unfold matches_finalize in Hmf. to_prop. assert (ds_terminal d = Some (fp_terminal c)) as Hdt by done.
    rewrite Hdt in *. exists (ds_intent d). split; [|done].
    assert (intents_with (sm_active_intents self) (ds_intent d) (Some (fp_terminal c)) = sm_active_intents self)
      as Heq by (cbn; rewrite Hid; by apply delete_id).
    split; try done.
    + exists state, index. by rewrite Heq.
    + left. congruence.
    + intros _. exists m. by rewrite Hid.
Qed.

Lemma state_and_index_names (state index : result ShardError ReplicaMetadata) records r :
  (x ← state; y ← index; Ok [x; y]) = Ok records → r ∈ records → state = Ok r ∨ index = Ok r.
Proof.
  intros (x & Hx & (y & Hy & [= <-])%bind_Ok)%bind_Ok. rewrite !elem_of_cons, elem_of_nil.
  intros [->|[->|[]]]; auto.
Qed.

Lemma transaction_metadata_names self c tr records r :
  transaction_metadata blake3 self c tr = Ok records → r ∈ records → record_name c (rm_name r).
Proof.
  destruct c; cbn [transaction_metadata record_name]; intros Hr Hin;
    try (injection Hr as <-; by apply elem_of_nil in Hin).
  - apply bind_Ok in Hr as (m & Hm & [= <-]). apply list_elem_of_singleton in Hin as ->.
    apply bind_Ok in Hm as (? & _ & (? & _ & Hm)%bind_Ok). by apply (inj Ok) in Hm as <-.
  - destruct tr; try (injection Hr as <-; by apply elem_of_nil in Hin);
      (eapply state_and_index_names in Hr as [?%state_metadata_name|?%active_intents_name]; eauto).
  - apply bind_Ok in Hr as (m & Hm & [= <-]). apply list_elem_of_singleton in Hin as ->.
    apply bind_Ok in Hm as (? & _ & Hm). by apply (inj Ok) in Hm as <-.
  - destruct tr; try (injection Hr as <-; by apply elem_of_nil in Hin).
    + eapply state_and_index_names in Hr as [?%state_metadata_name|?%active_intents_name]; eauto.
    + apply bind_Ok in Hr as (d & _ & (d' & _ & Hr)%bind_Ok).
      eapply state_and_index_names in Hr as [?%state_metadata_name|?%active_intents_name]; eauto.
Qed.

(** Names that neither the command nor its records write are as before. *)
Lemma persisted_other self index c tr ms md n :
  persisted_mutations blake3 self index c tr = Ok ms → ¬ command_name c n → ¬ record_name c n →
  metadata_after ms md !! n = md !! n.
Proof.
  intros (cm & records & -> & Hr & Hcm)%persisted_split Hn Hn'. apply metadata_after_other.
  intros m [Hm|Hm]%elem_of_app <-.
  - apply Hn. destruct Hcm as [->|Hcm]; [by apply elem_of_nil in Hm|]. by eapply command_mutation_names.
  - apply Hn'. apply list_elem_of_fmap in Hm as (r & [= ->] & Hin). by eapply transaction_metadata_names.
Qed.

(** [H] equates two names with different prefixes, or says a reserved name is not reserved. *)
Ltac names_apart H := first [discriminate H|done|change (true = false) in H; discriminate H].

(** Tracked names are apart from the names of the other commands. *)
Lemma command_name_tracked c n :
  n = ACTIVE_TRANSACTION_INTENTS_METADATA_NAME ∨ (∃ id, n = transaction_state_metadata_name id) ∨
  (∃ id, n = home_decision_metadata_name id) → ¬ command_name c n.
Proof.
  intros [->|[[id ->]|[id ->]]]; destruct c; cbn [command_name]; intros Hn;
    names_apart Hn.
Qed.

Lemma record_name_tracked c n :
  n = ACTIVE_TRANSACTION_INTENTS_METADATA_NAME ∨ (∃ id, n = transaction_state_metadata_name id) →
  is_transaction_command c = false → ¬ record_name c n.
Proof.
  intros [->|[id ->]]; destruct c; cbn [is_transaction_command record_name]; intros Ht Hn;
    first [discriminate Ht|names_apart Hn].
Qed.

Lemma record_name_closed c : ¬ record_name c CLOSED_TIMESTAMP_METADATA_NAME.
Proof.
  destruct c; cbn [record_name]; intros Hn; try destruct Hn as [Hn|[id Hn]]; names_apart Hn.
Qed.

Lemma accepted_closed self index c tr ms d' :
  machine_ok self → shard_command_ok c →
  validate_transaction_acceptance blake3 self c = Ok tr →
  persisted_mutations blake3 self index c tr = Ok ms → appended (db self) index ms d' →
  closed_stored (match c with
                 | CmdAdvanceClosedTimestamp c => Some (ac_closed_timestamp c)
                 | _ => sm_closed_timestamp self
                 end) (sc_metadata d').
Proof.
  intros Hok Hc Ha Hms Hap. unfold closed_stored. rewrite (ap_metadata _ _ _ _ Hap).
  assert (match c with CmdAdvanceClosedTimestamp _ => True
          | _ => ¬ command_name c CLOSED_TIMESTAMP_METADATA_NAME end) as Hn.
  { destruct c; try exact I; intros Hn; cbn [command_name] in Hn; names_apart Hn. }
  destruct c; try (rewrite (persisted_other _ _ _ _ _ _ _ Hms Hn (record_name_closed _)); apply (mo_closed self Hok)).
  injection Ha as <-. unfold persisted_mutations in Hms. cbn [is_replay] in Hms.
  rewrite andb_false_r in Hms. injection Hms as <-.
  cbn. rewrite lookup_insert_eq. exists (ac_closed_timestamp command). split; [apply Hc|done].
Qed.

(** An accepted transaction command writes its own mutations, the state record and the index. *)
Lemma accepted_transaction self index c tr ms :
  machine_ok self → shard_command_ok c → validate_command blake3 self c = Ok tt →
  validate_transaction_acceptance blake3 self c = Ok tr →
  persisted_mutations blake3 self index c tr = Ok ms → is_transaction_command c = true →
  ∃ i t state idx cm, transaction_step self tr i t [state; idx] ∧
    transaction_state_metadata blake3 i t = Ok state ∧
    active_intents_metadata blake3 (intents_with (sm_active_intents self) i t) = Ok idx ∧
    ms = cm ++ [PutReplicaMetadata state; PutReplicaMetadata idx] ∧
    (∀ n md, tracked_by_intents n → metadata_after cm md !! n = md !! n) ∧
    match c with
    | CmdFinalizeParticipant f => t = Some (fp_terminal f) ∧ pi_transaction_id i = tr_id (fp_terminal f)
    | CmdPrewriteIntent p => t = None ∧ i = pw_intent p
    | _ => True
    end.
Proof.
  intros Hok Hc Hv Ha Hms Ht. pose proof Hms as (cm & records & -> & Hr & Hcm)%persisted_split.
  assert (∃ i t, transaction_step self tr i t records ∧
    match c with
    | CmdFinalizeParticipant f => t = Some (fp_terminal f) ∧ pi_transaction_id i = tr_id (fp_terminal f)
    | CmdPrewriteIntent p => t = None ∧ i = pw_intent p
    | _ => True
    end) as (i & t & Hts & Hcase).
  { destruct c; try done; cbn in Ha.
    - eexists _, _. split; [by eapply prewrite_step|done].
    - eapply finalize_step in Ha as (i & Hts & Hid); eauto. }
  destruct (ts_records _ _ _ _ _ Hts) as (state & idx & -> & Hs & Hi).
  exists i, t, state, idx, cm. refine (conj Hts (conj Hs (conj Hi (conj eq_refl (conj _ Hcase))))).
  intros n md Hn. apply metadata_after_other.
  intros m Hm <-. destruct Hcm as [->|Hcm]; [by apply elem_of_nil in Hm|].
  eapply (command_name_tracked c); [|by eapply command_mutation_names].
  unfold tracked_by_intents in Hn. naive_solver.
Qed.

Lemma accepted_stored self index c tr ms d' :
  machine_ok self → shard_command_ok c → validate_command blake3 self c = Ok tt →
  validate_transaction_acceptance blake3 self c = Ok tr →
  persisted_mutations blake3 self index c tr = Ok ms → appended (db self) index ms d' →
  (next_intents (sm_active_intents self) tr = sm_active_intents self ∧
   intents_stored blake3 (sm_active_intents self) (sc_metadata d')) ∨
  ∃ i t records, is_transaction_command c = true ∧ transaction_step self tr i t records ∧
    intents_stored blake3 (intents_with (sm_active_intents self) i t) (sc_metadata d').
Proof.
  intros Hok Hc Hv Ha Hms Hap. rewrite (ap_metadata _ _ _ _ Hap).
  destruct (is_transaction_command c) eqn:Ht.
  - right. destruct (accepted_transaction _ _ _ _ _ Hok Hc Hv Ha Hms Ht)
      as (i & t & state & idx & cm & Hts & Hs & Hi & -> & Hcm & _).
    exists i, t, [state; idx]. split; [done|]. split; [done|]. rewrite metadata_after_app. cbn.
    apply intents_stored_update; [|apply (ts_intent _ _ _ _ _ Hts)|apply (ts_terminal _ _ _ _ _ Hts)|done..].
    eapply intents_stored_frame; [|apply (mo_stored self Hok)]. intros n Hn. by apply Hcm.
  - left. split.
    { destruct c; try done; cbn in Ha; try (by injection Ha as <-);
        apply bind_Ok in Ha as ([] & _ & Ha); try (by injection Ha as <-).
      by apply bind_Ok in Ha as (? & _ & [= <-]). }
    eapply intents_stored_frame; [|apply (mo_stored self Hok)]. intros n Hn.
    eapply persisted_other; [done| |by apply record_name_tracked].
    apply command_name_tracked. unfold tracked_by_intents in Hn. naive_solver.
Qed.

Lemma accepted_ok self index c tr ms s closed' :
  machine_ok self → shard_command_ok c → validate_command blake3 self c = Ok tt →
  validate_transaction_acceptance blake3 self c = Ok tr →
  persisted_mutations blake3 self index c tr = Ok ms → appended (db self) index ms (contents s) →
  closed_stored closed' (sc_metadata (contents s)) →
  machine_ok (mkMachine (sm_binding self) s index closed'
    (next_intents (sm_active_intents self) tr) (sm_migration_state_stores self)).
Proof.
  intros Hok Hc Hv Ha Hms Hap Hclosed.
  pose proof (ap_index _ _ _ _ Hap) as Hidx. rewrite (mo_applied self Hok) in Hidx.
  pose proof (accepted_stored _ _ _ _ _ _ Hok Hc Hv Ha Hms Hap) as Hst.
  split; cbn [sm_binding sm_applied_index sm_closed_timestamp sm_active_intents];
    unfold db, ShardInvariant.db; cbn [sm_state_store].
  - rewrite (ap_binding _ _ _ _ Hap). apply Hok.
  - apply Hap.
  - eapply history_ok_appended; [apply Hok|done].
  - done.
  - destruct Hst as [[-> Hst]|(i & t & records & _ & Hts & Hst)]; [done|].
    by rewrite (ts_next _ _ _ _ _ Hts).
  - intros id j Hj. destruct Hst as [[Heq _]|(i & t & records & _ & Hts & _)].
    + rewrite Heq in Hj. apply (mo_local self Hok) in Hj as [? ?]. split; [done|lia].
    + rewrite (ts_next _ _ _ _ _ Hts) in Hj. destruct t; cbn in Hj.
      * apply lookup_delete_Some in Hj as [_ Hj]. apply (mo_local self Hok) in Hj as [? ?]. split; [done|lia].
      * apply lookup_insert_Some in Hj as [[_ <-]|[_ Hj]].
        -- destruct (ts_local _ _ _ _ _ Hts eq_refl). split; [done|lia].
        -- apply (mo_local self Hok) in Hj as [? ?]. split; [done|lia].
  - intros id id' j j' Hj Hj' Hne. destruct Hst as [[Heq _]|(i & t & records & _ & Hts & _)].
    + rewrite Heq in *. by eapply (mo_free self Hok).
    + rewrite (ts_next _ _ _ _ _ Hts) in *. destruct t; cbn in Hj, Hj'.
      * apply lookup_delete_Some in Hj as [_ Hj], Hj' as [_ Hj']. by eapply (mo_free self Hok).
      * apply lookup_insert_Some in Hj as [[<- <-]|[Hni Hj]], Hj' as [[<- <-]|[Hni' Hj']]; try done.
        -- by apply (ts_free _ _ _ _ _ Hts id').
        -- rewrite mutations_conflict_sym. by apply (ts_free _ _ _ _ _ Hts id).
        -- by eapply (mo_free self Hok).
Qed.
End invariant.
