(* ===== verification/ShardReach.v ===== *)
(** * The runs of a shard

    Committed commands, no-ops, batches, staged migration targets and restarts, from an empty store;
    the invariant of [ShardInvariant] holds along every run. *)

From S2P Require Import Prelude Text Kernel Encoding Storage ShardWire ShardCommand ShardCodec.
From S2P Require Import ShardMetadata StateStore ShardMachine ShardRecords ShardHistory ShardInvariant.
Open Scope Z_scope.

(** ** Batches that leave the intents alone *)

Definition tracked_name (n : string) : Prop :=
  n = CLOSED_TIMESTAMP_METADATA_NAME ∨ n = ACTIVE_TRANSACTION_INTENTS_METADATA_NAME ∨
  (∃ id, n = transaction_state_metadata_name id) ∨ (∃ id, n = home_decision_metadata_name id).

(** [d'] is [d] after batches that write no tracked name. *)
Record framed (d d' : StoreContents) : Prop := {
  fr_binding : sc_binding d' = sc_binding d;
  fr_applied : sc_applied_index d ≤ sc_applied_index d';
  fr_history : history_ok d → history_ok d';
  fr_metadata n : tracked_name n → sc_metadata d' !! n = sc_metadata d !! n;
}.

#[export] Instance framed_preorder : PreOrder framed.
Proof.
  split.
  - intros d. by split.
  - intros d1 d2 d3 [Hb Ha Hh Hm] [Hb' Ha' Hh' Hm']. split; [congruence|lia|auto|].
    intros n Hn. rewrite Hm' by done. by apply Hm.
Qed.

Lemma appended_framed d index ms d' :
  appended d index ms d' → (∀ m, PutReplicaMetadata m ∈ ms → ¬ tracked_name (rm_name m)) → framed d d'.
Proof.
  intros Hap Hms. split.
  - apply Hap.
  - rewrite (ap_applied _ _ _ _ Hap), (ap_index _ _ _ _ Hap). lia.
  - intros Hh. by eapply history_ok_appended.
  - intros n Hn. rewrite (ap_metadata _ _ _ _ Hap). apply metadata_after_other.
    intros m Hm <-. by apply (Hms m).
Qed.

Lemma marker_untracked m : rm_name m = "dtg.raft_rejection" ∨ rm_name m = "dtg.raft_noop" → ¬ tracked_name (rm_name m).
Proof. by intros [-> | ->] [?|[?|[[id ?]|[id ?]]]]. Qed.

Lemma receipt_untracked id : ¬ tracked_name (SINGLE_SHARD_TRANSACTION_METADATA_NAME +:+ hex_digits 32 id).
Proof. intros [Hn|[Hn|[[id' Hn]|[id' Hn]]]]; discriminate Hn. Qed.

Section reach.
Context (blake3 : bytes → Digest32) (blake3_wf : ∀ bs, digest_wf (blake3 bs)).
Context {St V : Type} `{Hstore : ReplicaStateStore St V} `{Hlaws : !ReplicaStateStoreLaws blake3 St V}.
Implicit Types (self : ShardStateMachine St) (s : St) (c : ShardCommand).
Abbreviation db := (db blake3).
Abbreviation machine_ok := (machine_ok blake3).

Lemma framed_ok self s :
  machine_ok self → framed (db self) (contents s) →
  machine_ok (with_store self s (sc_applied_index (contents s))).
Proof.
  intros [Hb Ha Hh Hc Hst Hl Hf] [Hb' Ha' Hh' Hm'].
  split; unfold with_store, ShardInvariant.db in *; cbn [sm_binding sm_state_store sm_applied_index
    sm_closed_timestamp sm_active_intents].
  - congruence.
  - done.
  - auto.
  - unfold closed_stored. rewrite Hm' by by left. exact Hc.
  - eapply intents_stored_frame; [|exact Hst]. intros n Hn. apply Hm'. unfold tracked_by_intents in Hn. unfold tracked_name. naive_solver.
  - intros id i Hi. apply Hl in Hi as [? ?]. split; [done|lia].
  - done.
Qed.

(** ** Single steps *)

Lemma step_ok self index c r self' :
  machine_ok self → shard_command_ok c → step_effect blake3 self index c r self' → machine_ok self'.
Proof.
  intros Hok Hc Hstep. destruct Hstep as [e s Hs|outcome rej md s Hn Ho Hap|outcome tr ms s Hv Ha Hms Ho Hap].
  - rewrite <-(mo_applied _ self Hok), <-Hs. apply framed_ok; [done|]. by rewrite Hs.
  - rewrite <-(ap_applied _ _ _ _ Hap). apply framed_ok; [done|]. eapply appended_framed; [done|].
    intros m [= ->]%list_elem_of_singleton. apply marker_untracked. by left.
  - eapply accepted_ok; eauto. by eapply accepted_closed.
Qed.

(** ** Sequences and batches of commands *)

(** Commands that do not hand the shard over to a migration target. *)
Definition steady c : Prop :=
  match c with
  | CmdMigration m => mc_phase m ≠ PhaseActivate ∧ mc_phase m ≠ PhaseRollback
  | _ => True
  end.

Lemma steady_not_cutover self c : steady c → is_cutover self c = false.
Proof.
  destruct c; try done. cbn. intros [Ha Hr]. unfold cuts_over_from.
  by rewrite bool_decide_eq_false_2 by by intros [?|?].
Qed.

Definition entry_index (e : Z * Z * ShardCommand) : Z := e.1.2.

(** Entries come from the log in the order of their indexes, above the applied one. *)
Definition entries_after (applied_index : Z) (entries : list (Z * Z * ShardCommand)) : Prop :=
  StronglySorted Z.lt (applied_index :: map entry_index entries).

Lemma entries_after_cons n e entries :
  entries_after n (e :: entries) ↔ n < entry_index e ∧ entries_after (entry_index e) entries.
Proof.
  unfold entries_after. cbn. split.
  - inversion 1 as [|? ? Hs Hall]; subst. by inversion Hall.
  - intros [Hn Hs]. constructor; [done|]. constructor; [done|].
    inversion Hs as [|? ? _ Hall]; subst. eapply Forall_impl; [exact Hall|]. cbn. lia.
Qed.

Lemma step_effect_applied self index c r self' :
  step_effect blake3 self index c r self' → sm_applied_index self < index →
  sm_applied_index self' ≤ index.
Proof. destruct 1; cbn; lia. Qed.

Lemma entries_after_le n n' entries : n' ≤ n → entries_after n entries → entries_after n' entries.
Proof.
  intros Hn Hs. unfold entries_after in *. inversion Hs as [|? ? Hs' Hall]; subst. constructor; [done|].
  eapply Forall_impl; [exact Hall|]. cbn. lia.
Qed.

(** What the loop of [try_apply_single_shard_transaction_batch] collected. *)
Inductive batched self : Z → list LogicalMutation → gset TransactionId →
    list (Z * Z * ShardCommand) → list CommittedShardBatch → Prop :=
| batched_nil expected prior ids : batched self expected prior ids [] []
| batched_cons expected prior ids term (c : CommitSingleShardTransaction) md batch entries batches :
    validate_command blake3 self (CmdCommitSingleShardTransaction c) = Ok tt →
    validate_transaction_acceptance blake3 self (CmdCommitSingleShardTransaction c) = Ok TransitionNone →
    ct_transaction_id c ∉ ids →
    mutations_conflict prior (ct_mutations c) = false →
    single_shard_transaction_metadata c = Ok md →
    CommittedShardBatch_new blake3 (sm_binding self) term expected (ch_command_id (ct_header c))
      (ct_mutations c ++ [PutReplicaMetadata md]) = Ok batch →
    batched self (u64_saturating_add expected 1) (prior ++ ct_mutations c)
      ({[ct_transaction_id c]} ∪ ids) entries batches →
    batched self expected prior ids ((term, expected, CmdCommitSingleShardTransaction c) :: entries)
      (batch :: batches).

Lemma transaction_batches_batched self entries : ∀ expected prior ids acc batches,
  transaction_batches blake3 self entries expected prior ids acc = Ok (Some batches) →
  ∃ new, batches = acc ++ new ∧ batched self expected prior ids entries new.
Proof.
  induction entries as [|[[term index] c] entries IH]; intros expected prior ids acc batches Hb.
  { injection Hb as <-. exists []. split; [by rewrite app_nil_r|constructor]. }
  cbn [transaction_batches] in Hb. destruct c as [|c| | | | | |]; try done.
  guard_in Hb as Hi. guard_in Hb as Hin. to_prop. subst index.
  destruct (validate_command _ _ _) as [[]|] eqn:Hv; [|done].
  destruct (validate_transaction_acceptance _ _ _) as [[]|] eqn:Ha; try done.
  guard_in Hb as Hconf. apply bind_Ok in Hb as (md & Hmd & (batch & Hbatch & Hb)%bind_Ok).
  destruct (CommittedShardBatch_new _ _ _ _ _ _) as [batch'|] eqn:Hnew; [|done]. injection Hbatch as ->.
  apply IH in Hb as (new & -> & Hnew'). exists (batch :: new). split; [by rewrite <-app_assoc|].
  by eapply batched_cons.
Qed.

(** The content after each batch in turn. *)
Inductive installed : StoreContents → list CommittedShardBatch → StoreContents → Prop :=
| installed_nil d : installed d [] d
| installed_cons d batch batches d2 :
    csb_raft_index batch = sc_applied_index d + 1 → installed (contents_append d batch) batches d2 →
    installed d (batch :: batches) d2.

Lemma spec_apply_all_installed batches : ∀ d receipts d',
  spec_apply_all blake3 d batches = Ok (receipts, d') →
  StronglySorted Z.lt (sc_applied_index d :: map csb_raft_index batches) →
  installed d batches d' ∧ receipts = map (λ batch, ApplyReceipt_new batch false) batches.
Proof.
  induction batches as [|batch batches IH]; intros d receipts d' Ha Hs.
  { injection Ha as <- <-. split; [constructor|done]. }
  cbn [spec_apply_all] in Ha. apply bind_Ok in Ha as ([receipt d1] & Hb & Ha).
  apply bind_Ok in Ha as ([receipts' d2] & Hrest & Ha). injection Ha as <- <-.
  cbn in Hs. inversion Hs as [|? ? Hs' Hall]; subst. inversion Hall; subst.
  apply spec_apply_new in Hb as (-> & Hn & ->); [|done].
  apply IH in Hrest as [Hinst ->]; [|done]. split; [|done]. by apply installed_cons.
Qed.

Lemma installed_applied d batches d' :
  installed d batches d' → sc_applied_index d' = default (sc_applied_index d) (csb_raft_index <$> last batches).
Proof.
  induction 1 as [|d batch batches d2 Hn _ IH]; [done|]. rewrite IH, last_cons.
  by destruct (last batches).
Qed.

(** A batch of a single-shard transaction: its graph mutations and its receipt. *)
Definition transaction_batch (batch : CommittedShardBatch) : Prop :=
  ∀ m, PutReplicaMetadata m ∈ csb_mutations batch → ¬ tracked_name (rm_name m).

Lemma installed_framed d batches d' :
  installed d batches d' → Forall transaction_batch batches → framed d d'.
Proof.
  induction 1 as [|d batch batches d2 Hn _ IH]; [done|]. inversion 1; subst.
  etransitivity; [eapply appended_framed; [by apply contents_append_appended|done]|auto].
Qed.

Lemma batched_batches self expected prior ids entries batches :
  batched self expected prior ids entries batches →
  map csb_raft_index batches = map entry_index entries ∧ Forall transaction_batch batches.
Proof.
  induction 1 as [|expected prior ids term c md batch entries batches Hv Ha Hid Hconf Hmd Hnew Hb [IH IH']];
    [done|].
  apply batch_new_fields in Hnew as (_ & Hi & Hms). cbn. split; [by rewrite Hi, IH|].
  constructor; [|done]. intros m. rewrite Hms, elem_of_app. intros [Hm|[= ->]%list_elem_of_singleton].
  - exfalso. exact (command_mutation_names _ _ _ _ (validate_transaction_mutations _ _ _ Hv) Hm).
  - apply bind_Ok in Hmd as (? & _ & (? & _ & Hmd)%bind_Ok). apply (inj Ok) in Hmd as <-.
    apply receipt_untracked.
Qed.

(** A batch the store took, above the applied index, was installed transaction by transaction. *)
Lemma try_batch_effect self entries r self' :
  supports_atomic_batch_apply (sm_state_store self) = true →
  sc_applied_index (db self) = sm_applied_index self → entries_after (sm_applied_index self) entries →
  try_apply_single_shard_transaction_batch blake3 self entries = (r, self') →
  match r with
  | Ok None => self' = self
  | Err _ => ∃ s, contents s = db self ∧ self' = with_store self s (sm_applied_index self)
  | Ok (Some outcomes) =>
      ∃ s batches, batched self (u64_saturating_add (sm_applied_index self) 1) [] ∅ entries batches ∧
        installed (db self) batches (contents s) ∧
        self' = with_store self s (sc_applied_index (contents s)) ∧
        outcomes = map (λ batch, outcome_of (sm_binding self) (ApplyReceipt_new batch false) false None) batches
  end.
Proof.
  intros Hsup Happ Hs Ht. unfold try_apply_single_shard_transaction_batch in Ht.
  destruct (transaction_batches _ _ _ _ _ _ _) as [[batches|]|e] eqn:Hb;
    [|by injection Ht as <- <-|injection Ht as <- <-; exists (sm_state_store self); by rewrite with_store_self].
  apply transaction_batches_batched in Hb as (new & -> & Hb). cbn in Ht.
  destruct (batched_batches _ _ _ _ _ _ Hb) as [Hidx Hall].
  destruct (store_apply_batches (sm_state_store self) new) as [[receipts|e] s] eqn:Hst;
    apply (apply_batches_law _ _ _ _ Hsup) in Hst; [|injection Ht as <- <-; by exists s].
  apply spec_apply_all_installed in Hst as [Hinst ->]; [|fold (db self); rewrite Hidx, Happ; exact Hs].
  assert (length new = length entries) as Hlen.
  { by rewrite <-(length_map csb_raft_index), Hidx, length_map. }
  rewrite length_map, Hlen, Nat.eqb_refl in Ht. cbn [negb orb] in Ht.
  assert (existsb ar_replayed (map (λ batch, ApplyReceipt_new batch false) new) = false) as Hrep.
  { clear. by induction new. }
  rewrite Hrep in Ht. injection Ht as <- <-. exists s, new.
  split; [done|]. split; [done|]. rewrite (installed_applied _ _ _ Hinst), map_map. split; [|done].
  unfold with_store. f_equal. fold (db self). rewrite Happ.
  change (map ?f ?l) with (f <$> l). rewrite fmap_last. by destruct (last new).
Qed.

(** The ways [apply_committed_batch] goes. *)
Lemma apply_committed_batch_cases self entries r self' :
  apply_committed_batch blake3 self entries = (r, self') →
  sc_applied_index (db self) = sm_applied_index self → entries_after (sm_applied_index self) entries →
  apply_each blake3 self entries = (r, self') ∨
  (∃ s e, contents s = db self ∧ self' = with_store self s (sm_applied_index self) ∧ r = Err e) ∨
  ∃ s batches, batched self (u64_saturating_add (sm_applied_index self) 1) [] ∅ entries batches ∧
    installed (db self) batches (contents s) ∧
    self' = with_store self s (sc_applied_index (contents s)) ∧
    r = Ok (map (λ batch, outcome_of (sm_binding self) (ApplyReceipt_new batch false) false None) batches).
Proof.
  intros Ha Happ Hs. unfold apply_committed_batch in Ha. destruct (_ || _) eqn:Hguard; [by left|].
  to_prop. destruct (try_apply_single_shard_transaction_batch blake3 self entries) as [r1 self1] eqn:Ht.
  apply try_batch_effect in Ht; [|done..]. destruct r1 as [[outcomes|]|e].
  - destruct Ht as (s & batches & Hb & Hi & -> & ->). injection Ha as <- <-. right. right. by exists s, batches.
  - subst. by left.
  - destruct Ht as (s & Hd & ->). injection Ha as <- <-. right. left. by exists s, e.
Qed.

(** ** Restarts *)

(** The store answers the reads of a restart. *)
Definition answers s : Prop :=
  (∃ n, store_applied_index s = Ok n) ∧ ∀ name, ∃ m, store_replica_metadata s name = Ok m.

(** What [new] returns: the machine without the targets it had staged. *)
Definition restarted self : ShardStateMachine St :=
  mkMachine (sm_binding self) (sm_state_store self) (sm_applied_index self) (sm_closed_timestamp self)
    (sm_active_intents self) ∅.

(** [m] is [a], unless the store failed to answer. *)
Definition unless_unanswered {A} s (m : result ShardError A) (a : A) : Prop :=
  match m with Ok x => x = a | Err _ => ¬ answers s end.

Lemma unanswered_bind {A B} s (m : result ShardError A) (k : A → result ShardError B) a b :
  unless_unanswered s m a → unless_unanswered s (k a) b → unless_unanswered s (m ≫= k) b.
Proof. destruct m; cbn; [by intros ->|done]. Qed.

Lemma metadata_of_unanswered s name : unless_unanswered s (metadata_of s name) (sc_metadata (contents s) !! name).
Proof.
  unfold metadata_of. destruct (store_replica_metadata s name) as [m|e] eqn:Hm; cbn.
  - by apply replica_metadata_law.
  - intros [_ Ha]. destruct (Ha name) as [m ?]. congruence.
Qed.

Lemma rebuild_loop_rebuilds self indexed : ∀ acc,
  machine_ok self →
  (∀ id d, (id, d) ∈ indexed → ∃ i, sm_active_intents self !! id = Some i ∧ intent_digest blake3 i = Ok d) →
  match rebuild_loop blake3 (sm_binding self) (sm_state_store self) (sm_applied_index self) indexed acc with
  | Ok m => ∀ id, m !! id = if bool_decide (id ∈ indexed.*1) then sm_active_intents self !! id else acc !! id
  | Err _ => ¬ answers (sm_state_store self)
  end.
Proof.
  induction indexed as [|[id d] indexed IH]; intros acc Hok Hin.
  { intros id. by rewrite bool_decide_eq_false_2 by apply not_elem_of_nil. }
  destruct (Hin id d) as (i & Hi & Hd); [by left|].
  destruct (st_active _ _ _ (mo_stored _ self Hok) id i Hi) as (Hid & Hiok & m & Hm & Hmd).
  destruct (mo_local _ self Hok id i Hi) as [Hsh Hsn].
  destruct (state_round_trip blake3 i None m Hiok I Hmd) as [_ Hdec].
  cbn [rebuild_loop]. pose proof (metadata_of_unanswered (sm_state_store self) (transaction_state_metadata_name id)) as Hread.
  destruct (metadata_of _ _) as [x|e]; cbn in Hread; [|done].
  unfold db, ShardInvariant.db in Hm. rewrite Hread, Hm. cbn [mbind result_bind ok_or]. rewrite Hdec. cbn [mbind result_bind ds_intent ds_terminal].
  rewrite bool_decide_eq_true_2, Hid, Hsh, !Z.eqb_refl by done. rewrite (proj2 (Z.ltb_ge _ _)) by done.
  cbn [negb orb]. rewrite Hd. cbn [mbind result_bind]. rewrite bool_decide_eq_true_2 by done. cbn [negb].
  specialize (IH (<[id:=i]> acc) Hok). destruct (rebuild_loop _ _ _ _ _ _) as [m'|e'].
  - intros id'. rewrite IH by (intros ? ? ?; apply Hin; by right). cbn [fmap list_fmap fst].
    destruct (decide (id' = id)) as [->|Hne].
    + rewrite (bool_decide_eq_true_2 (id ∈ id :: _)) by left. case_bool_decide; [done|]. by rewrite lookup_insert_eq, Hi.
    + rewrite lookup_insert_ne by done. rewrite (bool_decide_ext (id' ∈ id :: indexed.*1) (id' ∈ indexed.*1)); [done|].
      rewrite elem_of_cons. naive_solver.
  - apply IH. intros ? ? ?. apply Hin. by right.
Qed.

Lemma rebuild_active_rebuilds self :
  machine_ok self →
  unless_unanswered (sm_state_store self)
    (rebuild_active_intents blake3 (sm_binding self) (sm_state_store self) (sm_applied_index self))
    (sm_active_intents self).
Proof using blake3_wf.
  intros Hok. unfold rebuild_active_intents. eapply unanswered_bind; [apply metadata_of_unanswered|].
  pose proof (st_index _ _ _ (mo_stored _ self Hok)) as Hidx. unfold ShardInvariant.db in Hidx.
  destruct (sc_metadata _ !! _) as [m|]; [|by rewrite Hidx].
  destruct (active_round_trip blake3 blake3_wf (sm_active_intents self) m) as (_ & indexed & -> & Hlook); [|done|].
  { intros id i Hi. destruct (st_active _ _ _ (mo_stored _ self Hok) id i Hi) as (<- & Hi' & _). apply Hi'. }
  cbn. pose proof (rebuild_loop_rebuilds self (entries indexed) ∅ Hok) as Hloop.
  unfold unless_unanswered. destruct (rebuild_loop _ _ _ _ _ _) as [m'|e].
  - apply map_eq. intros id. rewrite Hloop.
    + specialize (Hlook id). case_bool_decide as Hid; [done|].
      destruct (sm_active_intents self !! id) as [i|] eqn:Hi; [|done]. destruct Hlook as (d & _ & Hd).
      destruct Hid. apply elem_of_keys. by exists d.
    + intros x d Hd%elem_of_entries. specialize (Hlook x). destruct (sm_active_intents self !! x) as [i|]; [|congruence].
      destruct Hlook as (d' & Hd' & Heq). exists i. split; [done|]. congruence.
  - apply Hloop. intros x d Hd%elem_of_entries. specialize (Hlook x).
    destruct (sm_active_intents self !! x) as [i|]; [|congruence].
    destruct Hlook as (d' & Hd' & Heq). exists i. split; [done|]. congruence.
Qed.

Lemma new_rebuilds self :
  machine_ok self →
  unless_unanswered (sm_state_store self) (ShardStateMachine_new blake3 (sm_binding self) (sm_state_store self))
    (restarted self).
Proof using blake3_wf.
  intros Hok. unfold ShardStateMachine_new. rewrite binding_law.
  rewrite bool_decide_eq_true_2 by apply (mo_binding _ self Hok). cbn [negb].
  eapply unanswered_bind.
  { instantiate (1 := sm_applied_index self). destruct (store_applied_index _) as [n|e] eqn:Hn; cbn.
    - apply applied_index_law in Hn. rewrite Hn. apply Hok.
    - intros [[n ?] _]. congruence. }
  eapply unanswered_bind; [by apply rebuild_active_rebuilds|].
  eapply unanswered_bind; [|by instantiate (1 := sm_closed_timestamp self)].
  unfold load_closed_timestamp. eapply unanswered_bind; [apply metadata_of_unanswered|].
  pose proof (mo_closed _ self Hok) as Hc. unfold closed_stored, ShardInvariant.db in Hc.
  destruct (sc_metadata _ !! _) as [m|]; cbn; [|done]. destruct Hc as (t & Ht & -> & ->).
  by rewrite TransactionTime_new_Ok.
Qed.

Lemma restarted_ok self : machine_ok self → machine_ok (restarted self).
Proof. intros []. by split. Qed.

(** ** Runs *)

(** An empty store. *)
Definition fresh s : Prop :=
  sc_applied_index (contents s) = 0 ∧ sc_metadata (contents s) = ∅ ∧ sc_changes (contents s) = [].

(** A step of a run whose commands satisfy [P]. *)
Inductive shard_step (P : ShardCommand → Prop) self : ShardStateMachine St → Prop :=
| step_command term index c r self' :
    P c → shard_command_ok c → steady c → sm_applied_index self < index →
    apply_committed blake3 self term index c = (r, self') → shard_step P self self'
| step_noop term index r self' :
    sm_applied_index self < index →
    apply_raft_noop blake3 self term index = (r, self') → shard_step P self self'
| step_batch entries r self' :
    Forall (λ e, P e.2) entries → Forall (λ e, shard_command_ok e.2 ∧ steady e.2) entries →
    entries_after (sm_applied_index self) entries →
    apply_committed_batch blake3 self entries = (r, self') → shard_step P self self'
| step_stage target r self' :
    stage_migration_state_store self target = (r, self') → shard_step P self self'
| step_restart self' :
    ShardStateMachine_new blake3 (sm_binding self) (sm_state_store self) = Ok self' → shard_step P self self'.

(** The machines of the runs that start with an empty store. *)
Definition reachable (P : ShardCommand → Prop) self : Prop :=
  ∃ binding s self0, fresh s ∧ ShardStateMachine_new blake3 binding s = Ok self0 ∧ rtc (shard_step P) self0 self.

Lemma fresh_ok binding s self :
  fresh s → ShardStateMachine_new blake3 binding s = Ok self →
  machine_ok self ∧ self = mkMachine binding s 0 None ∅ ∅ ∧ sc_binding (contents s) = binding.
Proof.
  intros (Ha & Hm & Hc) Hn. unfold ShardStateMachine_new in Hn. guard_in Hn as Hb. to_prop.
  rewrite binding_law in Hb. apply bind_Ok in Hn as (n & Hidx & Hn).
  destruct (store_applied_index s) as [n'|] eqn:Hn'; [|done]. injection Hidx as ->.
  apply applied_index_law in Hn'. subst n. apply bind_Ok in Hn as (active & Hact & Hn).
  apply bind_Ok in Hact as (x & ->%(metadata_of_lookup blake3) & Hact). rewrite Hm, lookup_empty in Hact. injection Hact as <-.
  apply bind_Ok in Hn as (closed & Hcl & Hn).
  apply bind_Ok in Hcl as (y & ->%(metadata_of_lookup blake3) & Hcl). rewrite Hm, lookup_empty in Hcl. injection Hcl as <-.
  injection Hn as <-. rewrite Ha. split; [|done].
  split; unfold ShardInvariant.db; cbn [sm_state_store sm_binding sm_applied_index sm_closed_timestamp
    sm_active_intents]; try done.
  - unfold history_ok. rewrite Ha, Hc. split; [done|]. split; constructor.
  - unfold closed_stored. by rewrite Hm.
  - rewrite Hm. split; [done|done|]. intros id m _. by rewrite lookup_empty.
Qed.

(** ** Steps in detail *)

(** A run, one committed entry or one batch at a time. *)
Inductive micro_step (P : ShardCommand → Prop) self : ShardStateMachine St → Prop :=
| micro_command index c r self' :
    P c → shard_command_ok c → sm_applied_index self < index →
    step_effect blake3 self index c r self' → micro_step P self self'
| micro_same self' :
    db self' = db self → sm_binding self' = sm_binding self → sm_applied_index self' = sm_applied_index self →
    sm_closed_timestamp self' = sm_closed_timestamp self → sm_active_intents self' = sm_active_intents self →
    micro_step P self self'
| micro_noop index md s :
    rm_name md = "dtg.raft_noop" → appended (db self) index [PutReplicaMetadata md] (contents s) →
    micro_step P self (with_store self s index)
| micro_batch entries batches s :
    Forall (λ e, P e.2 ∧ shard_command_ok e.2) entries → entries_after (sm_applied_index self) entries →
    batched self (u64_saturating_add (sm_applied_index self) 1) [] ∅ entries batches →
    installed (db self) batches (contents s) →
    micro_step P self (with_store self s (sc_applied_index (contents s))).

Lemma micro_step_ok P self self' : machine_ok self → micro_step P self self' → machine_ok self'.
Proof.
  intros Hok [index c r self1 _ Hc _ Hs|self1 Hd Hb Ha Hcl Hact|index md s Hn Hap|entries batches s _ _ Hb Hi].
  - by eapply step_ok.
  - destruct Hok. split; rewrite ?Hd, ?Hb, ?Ha, ?Hcl, ?Hact; try done.
  - rewrite <-(ap_applied _ _ _ _ Hap). apply framed_ok; [done|]. eapply appended_framed; [done|].
    intros m [= ->]%list_elem_of_singleton. apply marker_untracked. by right.
  - apply framed_ok; [done|]. eapply installed_framed; [done|]. by eapply batched_batches in Hb as [_ Hb].
Qed.

Lemma micro_same_store P self s :
  contents s = db self → micro_step P self (with_store self s (sm_applied_index self)).
Proof. intros Hs. by apply micro_same. Qed.

Lemma apply_each_micro P entries : ∀ self r self',
  machine_ok self → Forall (λ e, P e.2) entries → Forall (λ e, shard_command_ok e.2 ∧ steady e.2) entries →
  entries_after (sm_applied_index self) entries →
  apply_each blake3 self entries = (r, self') → rtc (micro_step P) self self'.
Proof.
  induction entries as [|[[term index] c] entries IH]; intros self r self' Hok HP Hall Hs Ha.
  { by injection Ha as <- <-. }
  inversion HP as [|? ? HPc HP']; subst. inversion Hall as [|? ? [Hc Hst] Hall']; subst.
  apply entries_after_cons in Hs as [Hidx Hs]. cbn in Ha, Hidx, Hs, HPc.
  destruct (apply_committed blake3 self term index c) as [r1 self1] eqn:Hstep.
  eapply apply_committed_effect in Hstep; [|by apply steady_not_cutover|apply Hok|done].
  assert (micro_step P self self1) as Hmicro by by eapply micro_command.
  eapply rtc_l; [exact Hmicro|]. apply step_effect_applied in Hstep; [|done].
  destruct r1; [|by injection Ha as <- <-].
  destruct (apply_each blake3 self1 entries) as [r2 self2] eqn:Hrest.
  eapply IH in Hrest; [|by eapply micro_step_ok|done|done|by eapply entries_after_le].
  by destruct r2; injection Ha as <- <-.
Qed.

Lemma noop_micro P self term index r self' :
  machine_ok self → sm_applied_index self < index →
  apply_raft_noop blake3 self term index = (r, self') → micro_step P self self'.
Proof.
  intros Hok Hidx Ha. unfold apply_raft_noop in Ha.
  destruct (CommandId_new _) as [id|e]; [|by injection Ha as <- <-; apply micro_same].
  eapply apply_marker_effect in Ha as [(e & s & -> & Hs & ->)|(o & s & -> & _ & Hap & ->)];
    [by apply micro_same_store|by eapply micro_noop; [|exact Hap]|apply Hok|done].
Qed.

Lemma stage_micro P self target r self' :
  stage_migration_state_store self target = (r, self') → micro_step P self self'.
Proof.
  intros Hs. unfold stage_migration_state_store in Hs.
  repeat (case_match; simplify_eq; try by apply micro_same).
Qed.

Lemma batch_micro P self entries r self' :
  machine_ok self → Forall (λ e, P e.2) entries → Forall (λ e, shard_command_ok e.2 ∧ steady e.2) entries →
  entries_after (sm_applied_index self) entries →
  apply_committed_batch blake3 self entries = (r, self') → rtc (micro_step P) self self'.
Proof.
  intros Hok HP Hall Hs Ha. eapply apply_committed_batch_cases in Ha
    as [Ha|[(s & e & Hd & -> & _)|(s & batches & Hb & Hi & -> & _)]]; [..|apply Hok|done].
  - by eapply apply_each_micro.
  - by apply rtc_once, micro_same_store.
  - apply rtc_once. eapply micro_batch; [|done..].
    rewrite Forall_forall in HP, Hall. apply Forall_forall. intros e He. split; [by apply HP|by apply Hall].
Qed.

Lemma shard_step_micro P self self' :
  machine_ok self → shard_step P self self' → rtc (micro_step P) self self'.
Proof using blake3_wf.
  intros Hok [term index c r self1 HP Hc Hst Hidx Ha|term index r self1 Hidx Ha|entries r self1 HP Hall Hs Ha
    |target r self1 Hs|self1 Hn].
  - apply rtc_once. eapply apply_committed_effect in Ha; [|by apply steady_not_cutover|apply Hok|done].
    by eapply micro_command.
  - by eapply rtc_once, noop_micro.
  - by eapply batch_micro.
  - by eapply rtc_once, stage_micro.
  - pose proof (new_rebuilds self Hok) as Hr. rewrite Hn in Hr. cbn in Hr. subst. by apply rtc_once, micro_same.
Qed.

Lemma micro_run_ok P self self' : machine_ok self → rtc (micro_step P) self self' → machine_ok self'.
Proof. induction 2 as [|? ? ? Hs _ IH]; [done|]. by eapply IH, micro_step_ok. Qed.

Lemma run_micro P self self' :
  machine_ok self → rtc (shard_step P) self self' → rtc (micro_step P) self self'.
Proof using blake3_wf.
  intros Hok Hrun. induction Hrun as [|self self1 self' Hs _ IH]; [done|].
  pose proof (shard_step_micro _ _ _ Hok Hs) as Hm.
  etransitivity; [exact Hm|]. apply IH. by eapply micro_run_ok.
Qed.

(** The invariant holds in every run. *)
Lemma run_ok P self self' : machine_ok self → rtc (shard_step P) self self' → machine_ok self'.
Proof using blake3_wf. intros Hok Hrun. eapply micro_run_ok; [done|]. by apply run_micro. Qed.

Lemma reachable_ok P self : reachable P self → machine_ok self.
Proof using blake3_wf.
  intros (binding & s & self0 & Hf & Hn & Hrun). eapply run_ok; [|done]. by eapply fresh_ok.
Qed.

(** A property of machines kept by every detailed step holds along a run. *)
Lemma run_invariant P (I : ShardStateMachine St → Prop) self self' :
  (∀ self self', machine_ok self → I self → micro_step P self self' → I self') →
  machine_ok self → I self → rtc (shard_step P) self self' → I self'.
Proof using blake3_wf.
  intros Hstep Hok HI Hrun. apply run_micro in Hrun; [|done]. revert Hok HI.
  induction Hrun as [|self self1 self' Hs _ IH]; intros Hok HI; [done|].
  apply IH; [by eapply micro_step_ok|by eapply Hstep].
Qed.
End reach.
