(* ===== verification/ShardExample.v ===== *)
(** * A concrete run of a shard

    The reference store of [StateStore], the hash of [Encoding], and a run that prepares a transaction,
    records its decision and restarts: the inputs at which the shard theorems are evaluated. *)

From S2P Require Import Prelude Text Kernel Encoding Storage ShardWire ShardCommand ShardCodec.
From S2P Require Import ShardMetadata StateStore ShardMachine ShardRecords ShardHistory ShardInvariant.
From S2P Require Import ShardReach.
Open Scope Z_scope.

#[export] Instance example_store : ReplicaStateStore StoreContents StoreContents := reference_store checksum32.
#[export] Instance example_laws : ReplicaStateStoreLaws checksum32 StoreContents StoreContents :=
  reference_store_laws checksum32.

(** ** Commands *)

Definition example_header : CommandHeader := mkCommandHeader 5 1 1.
Definition example_vertex (id time : Z) : LogicalMutation :=
  PutVertex (mkVertexVersion id 1 (mkValidInterval 0 10) time [("age", VInteger 41)]).

Definition example_intent : ParticipantIntent := mkParticipantIntent 9 1 3 0 [example_vertex 7 4].
Definition example_digest : Digest32 := Eval vm_compute in
  match intent_digest checksum32 example_intent with Ok d => d | Err _ => [] end.
Definition example_prewrite : ShardCommand :=
  CmdPrewriteIntent (mkPrewriteIntent example_header (mkTransactionRecord 9 Prepared 3 example_digest) example_intent).
Definition example_finalize : FinalizeParticipant :=
  mkFinalizeParticipant example_header (mkTransactionRecord 9 Committed 4 example_digest) (Some example_intent).

Definition example_manifest : HomeDecisionManifest :=
  mkHomeManifest 3 1 [mkHomeParticipant 1 1 1 0 example_digest].
Definition example_decision_digest : Digest32 := Eval vm_compute in
  match home_decision_digest checksum32 example_manifest 9 Committed 4 with Ok d => d | Err _ => [] end.
Definition example_decision : RecordHomeDecision :=
  mkRecordHomeDecision example_header (mkTransactionRecord 9 Committed 4 example_decision_digest)
    example_manifest.

(** A transaction on one shard, of vertex [id]. *)
Definition example_transaction (transaction_id id time : Z) : CommitSingleShardTransaction :=
  mkSingleShardTransaction example_header transaction_id 3 0 (replicate 32 7) [example_vertex id time].

(** ** The run *)

Definition example_contents : StoreContents := mkContents example_binding 0 ∅ ∅ [].
Definition example_machine : ShardStateMachine StoreContents :=
  mkMachine example_binding example_contents 0 None ∅ ∅.
Definition example_apply (self : ShardStateMachine StoreContents) (index : Z) (c : ShardCommand)
    : ShardStateMachine StoreContents :=
  (apply_committed checksum32 self 1 index c).2.

Definition example_outcome (self : ShardStateMachine StoreContents) (index : Z) (c : ShardCommand) : ApplyOutcome :=
  match (apply_committed checksum32 self 1 index c).1 with
  | Ok outcome => outcome
  | Err _ => mkApplyOutcome [] 0 false None example_binding
  end.

(** After the prewrite, and after the decision. *)
Definition example_prepared : ShardStateMachine StoreContents := example_apply example_machine 1 example_prewrite.
Definition example_decided : ShardStateMachine StoreContents :=
  example_apply example_prepared 2 (CmdRecordHomeDecision example_decision).

Ltac concrete := repeat first [done|split|constructor].

Lemma example_prewrite_ok : shard_command_ok example_prewrite.
Proof. concrete. Qed.
Lemma example_finalize_ok : shard_command_ok (CmdFinalizeParticipant example_finalize).
Proof. concrete. Qed.
Lemma example_decision_ok : shard_command_ok (CmdRecordHomeDecision example_decision).
Proof. concrete. Qed.
Lemma example_transaction_ok :
  Forall (λ c, shard_command_ok (CmdCommitSingleShardTransaction c))
    [example_transaction 10 8 5; example_transaction 11 12 6].
Proof. concrete. Qed.

Lemma example_apply_step (P : ShardCommand → Prop) self index c :
  P c → shard_command_ok c → steady c → sm_applied_index self < index →
  shard_step checksum32 P self (example_apply self index c).
Proof. intros. eapply (step_command _ _ _ 1 index c); [done..|]. apply surjective_pairing. Qed.

Lemma example_machine_reachable P : reachable checksum32 P example_machine.
Proof. exists example_binding, example_contents, example_machine. split; [done|]. split; [reflexivity|apply rtc_refl]. Qed.

Lemma reachable_apply (P : ShardCommand → Prop) (self : ShardStateMachine StoreContents) index c :
  reachable checksum32 P self → P c → shard_command_ok c → steady c → sm_applied_index self < index →
  reachable checksum32 P (example_apply self index c).
Proof.
  intros (b & s & m & Hf & Hn & Hrun) HP Hc Hst Hidx. exists b, s, m. split; [done|]. split; [done|].
  eapply rtc_r; [exact Hrun|]. by apply example_apply_step.
Qed.

Lemma example_prepared_reachable (P : ShardCommand → Prop) :
  P example_prewrite → reachable checksum32 P example_prepared.
Proof.
  intros HP. apply reachable_apply; [apply example_machine_reachable|done|apply example_prewrite_ok|done|done].
Qed.
