(* ===== verification/ShardBatch.v ===== *)
(** * The batch path of a shard is the sequential one

    [apply_committed_batch] validates a run of single-shard transactions against one snapshot of the
    machine and hands the store all their batches at once.  It installs what applying the entries one
    by one installs. *)

From S2P Require Import Prelude Text Kernel Encoding Storage ShardWire ShardCommand ShardCodec.
From S2P Require Import ShardMetadata StateStore ShardMachine ShardRecords ShardHistory ShardInvariant.
From S2P Require Import ShardReach ShardExample.
Open Scope Z_scope.

Definition receipt_name (id : TransactionId) : string :=
  SINGLE_SHARD_TRANSACTION_METADATA_NAME +:+ hex_digits 32 id.

Lemma receipt_name_inj x y : in_u128 x → in_u128 y → receipt_name x = receipt_name y → x = y.
Proof.
  intros Hx Hy Heq%(f_equal (strip_prefix SINGLE_SHARD_TRANSACTION_METADATA_NAME)).
  unfold receipt_name in Heq. rewrite !strip_prefix_app in Heq.
  apply (inj Some) in Heq. by apply hex_digits_inj.
Qed.

Lemma receipt_metadata_name c md :
  single_shard_transaction_metadata c = Ok md → rm_name md = receipt_name (ct_transaction_id c).
Proof. intros (? & _ & (? & _ & Hm)%bind_Ok)%bind_Ok. by apply (inj Ok) in Hm as <-. Qed.

Section batch.
Context (blake3 : bytes → Digest32) {St V : Type} `{Hstore : ReplicaStateStore St V}.
Context `{Hlaws : !ReplicaStateStoreLaws blake3 St V}.
Implicit Types (self : ShardStateMachine St) (c : CommitSingleShardTransaction).
Abbreviation db := (db blake3).

(** The page loop fails on a change it visits, or with an error that is no rejection. *)
Lemma change_pages_fails pages : ∀ (v : V) applied_index records after visit e,
  change_pages pages v applied_index records after visit = Err e →
  committed_rejection e = None ∨
  ∃ ch, ch ∈ sc_changes (view_contents v) ∧ visit ch = Err e ∧
    match after with Some a => cursor_ltb a (cr_cursor ch) = true | None => True end.
Proof.
  induction pages as [|pages IH]; intros v n records after visit e Hp; [injection Hp as <-; by left|].
  cbn [change_pages] in Hp. apply bind_Err in Hp as [Hp|(request & Hreq & Hp)].
  { left. destruct (ChangesRead_new _ _ _); [done|]. by injection Hp as <-. }
  apply bind_Err in Hp as [Hp|(page & Hpage & Hp)].
  { left. destruct (view_changes _ _); [done|]. by injection Hp as <-. }
  destruct (HISTORY_RECORD_BUDGET <? _); [injection Hp as <-; by left|].
  assert (∀ ch, ch ∈ cp_rows page → ch ∈ sc_changes (view_contents v)) as Hrows.
  { destruct (view_changes v request) as [page'|] eqn:Hv; [|done]. injection Hpage as ->.
    apply changes_law in Hv. subst page. intros ch Hch. cbn in Hch.
    eapply elem_of_take in Hch as (k & Hk & _).
    apply list_elem_of_lookup_2 in Hk. apply list_elem_of_In, filter_In in Hk as [Hk _]. by apply list_elem_of_In. }
  apply bind_Err in Hp as [Hp|([] & _ & Hp)].
  - apply try_for_each_Err in Hp as (ch & Hch & Hp). destruct (_ || _) eqn:Hg; [injection Hp as <-; by left|].
    right. exists ch. split; [by apply Hrows|]. split; [done|]. to_prop. destruct after; by to_prop.
  - destruct (cp_next_after page) as [next|]; [|done]. destruct (_ && _) eqn:Hg; [|injection Hp as <-; by left].
    apply IH in Hp as [Hp|(ch & Hch & Hv & Hlt)]; [by left|]. right. exists ch. split; [done|]. split; [done|].
    apply andb_true_iff in Hg as [_ Hg]. destruct after as [a|]; [|done]. by eapply cursor_ltb_trans.
Qed.

(** [validate_write_conflicts] fails on a conflict, or with an error that is no rejection. *)
Lemma validate_write_conflicts_fails self id start snapshot ms e :
  validate_write_conflicts self id start snapshot ms = Err e →
  (∀ i, i ∈ values (sm_active_intents self) → pi_transaction_id i ≠ id → mutations_conflict ms (pi_mutations i) = false) →
  committed_rejection e = None ∨
  ∃ ch t, ch ∈ sc_changes (db self) ∧ cursor_ltb (mkChangeCursor snapshot u64_max) (cr_cursor ch) = true ∧
    graph_mutation_time (cr_mutation ch) = Some t ∧ start < t ∧ mutations_conflict ms [cr_mutation ch] = true.
Proof.
  unfold validate_write_conflicts. intros Hv Hfree. destruct (existsb _ _) eqn:Hex.
  { apply existsb_exists in Hex as (i & Hi & Hc). to_prop. apply list_elem_of_In in Hi.
    rewrite Hfree in *; done. }
  unfold for_each_change in Hv. destruct (sm_applied_index self =? 0); [done|].
  apply bind_Err in Hv as [Hv|(v & Hview & Hv)].
  { left. destruct (begin_read_view _ _); [done|]. by injection Hv as <-. }
  destruct (begin_read_view _ _) as [v'|] eqn:Hread; [|done]. injection Hview as ->.
  apply read_view_law in Hread as (Hvc & _ & _).
  apply change_pages_fails in Hv as [Hv|(ch & Hch & Hv & Hlt)]; [by left|]. right.
  destruct (_ && _) eqn:Hg; [|done]. to_prop.
  destruct (graph_mutation_time (cr_mutation ch)) as [t|] eqn:Ht; [|done]. to_prop.
  exists ch, t. unfold ShardInvariant.db. by rewrite <-Hvc.
Qed.

(** ** The machine before the batch and the machine [cur] in the middle of the sequence *)

(** [cur] is [self] after transactions that wrote [prior] under the identifiers [ids]. *)
Record midway self (prior : list LogicalMutation) (ids : gset TransactionId) (cur : ShardStateMachine St) : Prop := {
  mw_binding : sm_binding cur = sm_binding self;
  mw_closed : sm_closed_timestamp cur = sm_closed_timestamp self;
  mw_active : sm_active_intents cur = sm_active_intents self;
  mw_staged : sm_migration_state_stores cur = sm_migration_state_stores self;
  mw_applied : sc_applied_index (db cur) = sm_applied_index cur;
  mw_later : sm_applied_index self ≤ sm_applied_index cur;
  mw_changes ch : ch ∈ sc_changes (db cur) →
    ch ∈ sc_changes (db self) ∨ cr_mutation ch ∈ prior ∨ graph_mutation_time (cr_mutation ch) = None;
  mw_receipts id : in_u128 id → id ∉ ids →
    sc_metadata (db cur) !! receipt_name id = sc_metadata (db self) !! receipt_name id;
}.

Lemma midway_valid self prior ids cur c :
  midway self prior ids cur → validate_command blake3 self (CmdCommitSingleShardTransaction c) = Ok tt →
  validate_command blake3 cur (CmdCommitSingleShardTransaction c) = Ok tt.
Proof.
  intros Hm Hv. pose proof (mw_later _ _ _ _ Hm). unfold validate_command in *. rewrite (mw_binding _ _ _ _ Hm).
  cbn [is_cutover command_intent command_snapshot_index negb andb command_header] in *.
  guard_in Hv as H1. guard_in Hv as H2. destruct (sm_applied_index self <? _) eqn:H3; [done|]. to_prop.
  by rewrite (proj2 (Z.ltb_ge _ _)) by lia.
Qed.

(** What the batch path checked decides the acceptance in the sequence, unless the store fails. *)
Lemma midway_accepted self prior ids cur c :
  midway self prior ids cur → machine_ok blake3 self → in_u128 (ct_transaction_id c) → ct_transaction_id c ∉ ids →
  validate_transaction_acceptance blake3 self (CmdCommitSingleShardTransaction c) = Ok TransitionNone →
  mutations_conflict prior (ct_mutations c) = false →
  match validate_transaction_acceptance blake3 cur (CmdCommitSingleShardTransaction c) with
  | Ok tr => tr = TransitionNone
  | Err e => committed_rejection e = None
  end.
Proof.
  intros Hm Hok Hid Hni Ha Hprior. cbn [validate_transaction_acceptance] in *.
  unfold single_shard_transaction_is_durable in *.
  destruct (single_shard_transaction_metadata c) as [expected|] eqn:Hexp; [|done]. cbn [mbind result_bind] in *.
  apply receipt_metadata_name in Hexp. rewrite Hexp in *.
  apply bind_Ok in Ha as (b & Hb & Ha). apply bind_Ok in Hb as (o & Ho%(metadata_of_lookup blake3) & Hb).
  destruct o as [md|].
  { apply bind_Ok in Hb as (? & _ & Hb). guard_in Hb as Hg. by injection Hb as <-. }
  injection Hb as <-. apply bind_Ok in Ha as ([] & Hw & _).
  destruct (metadata_of (sm_state_store cur) _) as [o|e] eqn:Hcur; cbn [mbind result_bind].
  2:{ unfold metadata_of in Hcur. destruct (store_replica_metadata _ _); [done|]. by injection Hcur as <-. }
  apply (metadata_of_lookup blake3) in Hcur. pose proof (mw_receipts _ _ _ _ Hm _ Hid Hni) as Hr.
  unfold ShardInvariant.db in Hr. rewrite Hr, <-Ho in Hcur. subst o. cbn [mbind result_bind].
  eapply validate_write_conflicts_visits in Hw as [Hfree Hvis]; [|apply Hok|apply Hok].
  rewrite <-(mw_active _ _ _ _ Hm) in Hfree.
  destruct (validate_write_conflicts cur _ _ _ _) as [[]|e] eqn:Hwc; cbn; [done|].
  eapply validate_write_conflicts_fails in Hwc as [Hwc|(ch & t & Hch & Hlt & Ht & Hts & Hconf)]; [done| |done].
  apply (mw_changes _ _ _ _ Hm) in Hch as [Hch|[Hch|Hch]]; [| |congruence].
  - rewrite (Hvis ch t) in Hconf by done. done.
  - rewrite mutations_conflict_sym in Hprior. by rewrite (mutations_conflict_elem _ _ _ Hprior Hch) in Hconf.
Qed.

Lemma midway_persisted self prior ids cur c md index :
  midway self prior ids cur → validate_command blake3 self (CmdCommitSingleShardTransaction c) = Ok tt →
  single_shard_transaction_metadata c = Ok md →
  persisted_mutations blake3 cur index (CmdCommitSingleShardTransaction c) TransitionNone
  = Ok (ct_mutations c ++ [PutReplicaMetadata md]).
Proof.
  intros Hm Hv Hmd. unfold persisted_mutations. rewrite andb_false_r. cbn [transaction_metadata]. rewrite Hmd.
  by rewrite (validate_transaction_mutations _ _ _ Hv).
Qed.

(** Installing the batch of [c] goes on. *)
Lemma midway_installed self prior ids cur c md batch term index cur' :
  midway self prior ids cur → in_u128 (ct_transaction_id c) →
  validate_command blake3 self (CmdCommitSingleShardTransaction c) = Ok tt →
  single_shard_transaction_metadata c = Ok md →
  CommittedShardBatch_new blake3 (sm_binding self) term index (ch_command_id (ct_header c))
    (ct_mutations c ++ [PutReplicaMetadata md]) = Ok batch →
  index = sm_applied_index cur + 1 →
  db cur' = contents_append (db cur) batch → cur' = with_store cur (sm_state_store cur') index →
  midway self (prior ++ ct_mutations c) ({[ct_transaction_id c]} ∪ ids) cur'.
Proof.
  intros Hm Hid Hv Hmd Hbatch Hidx Hdb Hcur. apply batch_new_fields in Hbatch as (_ & Hbi & Hbm).
  split; try (rewrite Hcur; apply Hm).
  - rewrite Hdb, Hcur. cbn. by rewrite Hbi.
  - rewrite Hcur. cbn. pose proof (mw_later _ _ _ _ Hm). lia.
  - intros ch. rewrite Hdb. cbn. intros [Hch|Hch]%elem_of_app.
    + apply (mw_changes _ _ _ _ Hm) in Hch. rewrite elem_of_app. naive_solver.
    + change (batch_changes batch) with (changes_at (csb_raft_index batch) (csb_mutations batch)) in Hch.
      apply elem_of_changes_at in Hch as [_ Hch]. rewrite Hbm in Hch. apply elem_of_app in Hch as [Hch|Hch].
      * right. left. apply elem_of_app. by right.
      * apply list_elem_of_singleton in Hch as ->. by right; right.
  - intros id' Hid' Hni'. rewrite Hdb. cbn. rewrite Hbm, metadata_after_app. cbn.
    rewrite (receipt_metadata_name _ _ Hmd), lookup_insert_ne.
    + rewrite metadata_after_other; [apply (mw_receipts _ _ _ _ Hm); set_solver|]. intros m Hmm _.
      exact (command_mutation_names _ _ _ _ (validate_transaction_mutations _ _ _ Hv) Hmm).
    + intros Heq%receipt_name_inj; [set_solver|done|done].
Qed.

Lemma midway_step self prior ids cur c md batch term index outcome cur' :
  midway self prior ids cur → machine_ok blake3 self → in_u128 (ct_transaction_id c) → ct_transaction_id c ∉ ids →
  validate_command blake3 self (CmdCommitSingleShardTransaction c) = Ok tt →
  validate_transaction_acceptance blake3 self (CmdCommitSingleShardTransaction c) = Ok TransitionNone →
  mutations_conflict prior (ct_mutations c) = false →
  single_shard_transaction_metadata c = Ok md →
  CommittedShardBatch_new blake3 (sm_binding self) term index (ch_command_id (ct_header c))
    (ct_mutations c ++ [PutReplicaMetadata md]) = Ok batch →
  index = sm_applied_index cur + 1 →
  apply_committed blake3 cur term index (CmdCommitSingleShardTransaction c) = (Ok outcome, cur') →
  outcome = outcome_of (sm_binding self) (ApplyReceipt_new batch false) false None ∧
  db cur' = contents_append (db cur) batch ∧ cur' = with_store cur (sm_state_store cur') index.
Proof.
  intros Hm Hok Hid Hni Hv Ha Hprior Hmd Hbatch Hidx Happ.
  pose proof (midway_accepted _ _ _ _ _ Hm Hok Hid Hni Ha Hprior) as Ha'.
  pose proof (mw_applied _ _ _ _ Hm) as Hcur. unfold apply_committed in Happ.
  rewrite (midway_valid _ _ _ _ _ Hm Hv), andb_false_r in Happ.
  destruct (validate_transaction_acceptance blake3 cur _) as [tr|e] eqn:Hacc.
  2:{ unfold reject_or_fail in Happ. by rewrite Ha' in Happ. }
  subst tr. unfold apply_accepted in Happ. rewrite (midway_persisted _ _ _ _ _ _ _ Hm Hv Hmd) in Happ.
  destruct (apply_batch_of _ _ _ _ _ _ _) as [r s] eqn:Hb.
  apply (apply_batch_new blake3) in Hb; [|unfold ShardInvariant.db in Hcur; lia]. destruct r as [receipt|]; [|done].
  rewrite (mw_binding _ _ _ _ Hm) in Hb. destruct Hb as (batch' & Hb & _ & Hs & ->).
  cbn [command_header] in Hb. rewrite Hbatch in Hb. injection Hb as <-.
  apply (f_equal fst) in Happ as Ho. apply (f_equal snd) in Happ. cbn [fst snd] in Ho, Happ.
  rewrite andb_false_r, (mw_binding _ _ _ _ Hm) in Ho. injection Ho as <-. subst cur'.
  split; [done|]. split; [exact Hs|].
  apply batch_new_fields in Hbatch as (_ & Hbi & _). unfold advance, with_store. cbn. f_equal. lia.
Qed.

Lemma batched_sequence self expected prior ids entries batches :
  batched blake3 self expected prior ids entries batches → ∀ cur d' outcomes cur',
  midway self prior ids cur → machine_ok blake3 self → Forall (λ e, shard_command_ok e.2) entries →
  installed (db cur) batches d' → apply_each blake3 cur entries = (Ok outcomes, cur') →
  outcomes = map (λ batch, outcome_of (sm_binding self) (ApplyReceipt_new batch false) false None) batches ∧
  db cur' = d' ∧ ∃ prior' ids', midway self prior' ids' cur'.
Proof.
  induction 1 as [|expected prior ids term c md batch entries batches Hv Ha Hid Hconf Hmd Hnew Hb IH];
    intros cur d' outcomes cur' Hm Hok Hall Hinst Heach.
  { inversion Hinst; subst. injection Heach as <- <-. by eauto. }
  inversion Hinst as [|? ? ? ? Hn Hrest]; subst. inversion Hall as [|? ? Hc Hall']; subst.
  cbn [apply_each] in Heach. destruct (apply_committed _ _ _ _ _) as [[o|e] cur1] eqn:Hstep; [|done].
  destruct (apply_each blake3 cur1 entries) as [[os|e] cur2] eqn:Htail; [|done]. injection Heach as <- <-.
  pose proof (batch_new_fields _ _ _ _ _ _ _ Hnew) as (_ & Hbi & _).
  rewrite Hbi, (mw_applied _ _ _ _ Hm) in Hn. assert (in_u128 (ct_transaction_id c)) as Hid128 by apply Hc.
  eapply midway_step in Hstep as (-> & Hdb & Hcur); [|eassumption..].
  assert (midway self (prior ++ ct_mutations c) ({[ct_transaction_id c]} ∪ ids) cur1) as Hm1.
  { by eapply midway_installed. }
  rewrite <-Hdb in Hrest. destruct (IH _ _ _ _ Hm1 Hok Hall' Hrest Htail) as (-> & Hd & Hmid). done.
Qed.
End batch.

(** ** Property *)

Section property.
Context (blake3 : bytes → Digest32) (blake3_wf : ∀ bs, digest_wf (blake3 bs)).
Context {St V : Type} `{Hstore : ReplicaStateStore St V} `{Hlaws : !ReplicaStateStoreLaws blake3 St V}.

(** C15. Batching changes nothing: when [apply_committed_batch] applies a run of entries in one atomic
    write and applying them one by one also succeeds, both give the same outcomes, the same store
    content (digests included) and the same machine. *)
Theorem batch_equals_sequence P (self : ShardStateMachine St) entries outcomes1 self1 outcomes2 self2 :
  reachable blake3 P self → Forall (λ e, shard_command_ok e.2) entries →
  entries_after (sm_applied_index self) entries →
  apply_committed_batch blake3 self entries = (Ok outcomes1, self1) →
  apply_each blake3 self entries = (Ok outcomes2, self2) →
  outcomes1 = outcomes2 ∧ db blake3 self1 = db blake3 self2 ∧
  self1 = with_store self2 (sm_state_store self1) (sm_applied_index self2).
Proof using blake3_wf.
  intros Hreach Hall Hs Hb He. pose proof (reachable_ok blake3 blake3_wf _ _ Hreach) as Hok.
  eapply apply_committed_batch_cases in Hb as [Hb|[(s & e & _ & _ & ?)|(s & batches & Hbd & Hi & -> & Ho)]];
    [|done| |apply Hok|done].
  - rewrite He in Hb. injection Hb as <- <-. by rewrite with_store_self.
  - injection Ho as ->. assert (midway blake3 self [] ∅ self) as Hm0 by (split; try done; [apply Hok|by left]).
    destruct (batched_sequence blake3 _ _ _ _ _ _ Hbd _ _ _ _ Hm0 Hok Hall Hi He) as (-> & Hd & prior & ids & Hm).
    split; [done|]. split; [by rewrite Hd|]. unfold with_store. cbn.
    rewrite (mw_binding _ _ _ _ _ Hm), (mw_closed _ _ _ _ _ Hm), (mw_active _ _ _ _ _ Hm), (mw_staged _ _ _ _ _ Hm).
    f_equal. rewrite <-(mw_applied _ _ _ _ _ Hm). by rewrite Hd.
Qed.
End property.

Definition example_entries : list (Z * Z * ShardCommand) :=
  [(1, 1, CmdCommitSingleShardTransaction (example_transaction 10 8 5));
   (1, 2, CmdCommitSingleShardTransaction (example_transaction 11 12 6))].
Definition example_outcomes (r : result ShardError (list ApplyOutcome)) : list ApplyOutcome :=
  match r with Ok outcomes => outcomes | Err _ => [] end.

Lemma batch_equals_sequence_witness :
  let batch := apply_committed_batch checksum32 example_machine example_entries in
  let sequence := apply_each checksum32 example_machine example_entries in
  length (example_outcomes batch.1) = 2%nat ∧ example_outcomes batch.1 = example_outcomes sequence.1.
Proof.
  intros batch sequence. split; [vm_compute; reflexivity|].
  apply (batch_equals_sequence checksum32 checksum32_wf (λ _, True) example_machine example_entries
           (example_outcomes batch.1) batch.2 (example_outcomes sequence.1) sequence.2).
  - apply example_machine_reachable.
  - pose proof example_transaction_ok as Hok. inversion Hok as [|? ? Ht Hts]. inversion Hts as [|? ? Hu _].
    constructor; [exact Ht|]. constructor; [exact Hu|constructor].
  - repeat constructor.
  - vm_compute. reflexivity.
  - vm_compute. reflexivity.
Defined.
