(* ===== verification/ShardSafety.v ===== *)
(** * What a shard guarantees

    Over every run of [ShardReach]: a restart rebuilds the machine from its store; a transaction that
    is installed conflicts with nothing installed since its snapshot; a home shard never records two
    decisions for one transaction and a participant never two outcomes; a prepared participant can
    commit. *)

From S2P Require Import Prelude Text Kernel Encoding Storage ShardWire ShardCommand ShardCodec.
From S2P Require Import ShardMetadata StateStore ShardMachine ShardRecords ShardHistory ShardInvariant.
From S2P Require Import ShardReach ShardExample.
Open Scope Z_scope.

(** ** Transactions *)

(** Start time, snapshot index and writes of the transaction a command installs. *)
Definition installs (c : ShardCommand) : option (TransactionTime * Z * list LogicalMutation) :=
  match c with
  | CmdCommitSingleShardTransaction c => Some (ct_start_time c, ct_snapshot_applied_index c, ct_mutations c)
  | CmdFinalizeParticipant c =>
      (λ i, (pi_start_time i, pi_snapshot_applied_index i, pi_mutations i)) <$> fp_intent c
  | _ => None
  end.

(** Graph writes come with a transaction, and the transaction identifier tells whether the transaction
    commits on one shard or in two phases. *)
Definition transactional (single : TransactionId → bool) (c : ShardCommand) : Prop :=
  match c with
  | CmdCommitSingleShard c => Forall (λ m, graph_mutation_time m = None) (cs_mutations c)
  | CmdCommitSingleShardTransaction c => single (ct_transaction_id c) = true
  | CmdPrewriteIntent c => single (pi_transaction_id (pw_intent c)) = false
  | _ => True
  end.

Lemma any_other_time_false t ms :
  any_other_time t ms = Ok false → Forall (λ m, graph_mutation_time m = Some t) ms.
Proof.
  induction ms as [|m ms IH]; cbn; [constructor|]. intros (u & Hu & Hms)%bind_Ok.
  destruct (u =? t) eqn:Heq; [|done]. to_prop. subst u. constructor; [|by apply IH].
  by destruct m; cbn in *; simplify_eq.
Qed.

Lemma intent_mutation_times ms t :
  validate_intent_mutations ms = Ok tt → first_time ms = Ok t → Forall (λ m, graph_mutation_time m = Some t) ms.
Proof.
  unfold validate_intent_mutations. intros Hv Hf. guard_in Hv as Hb. guard_in Hv as Hs.
  rewrite Hf in Hv. cbn in Hv. apply bind_Ok in Hv as (d & Hd & Hv). destruct d; [done|].
  apply any_other_time_false in Hd. destruct ms as [|m ms]; [done|]. constructor; [|done].
  cbn in Hf. by destruct m; cbn in *; simplify_eq.
Qed.

Section commands.
Context (blake3 : bytes → Digest32).

(** The writes of a transaction carry one commit time, after its start. *)
Lemma command_commit_time c cm start snapshot ms m t :
  command_mutations blake3 c = Ok cm → installs c = Some (start, snapshot, ms) →
  m ∈ ms → graph_mutation_time m = Some t → start < t.
Proof.
  destruct c as [|c| | |c| | |]; try done; cbn [command_mutations installs]; intros Hc Hi Hm Ht.
  - simplify_eq. apply bind_Ok in Hc as ([] & ([] & Hv & (t0 & Hf & Hlt)%bind_Ok)%bind_Ok & _).
    guard_in Hlt as Hle. to_prop. pose proof (intent_mutation_times _ _ Hv Hf) as Hall.
    rewrite Forall_forall in Hall. specialize (Hall m Hm). cbn in Hall. simplify_eq. lia.
  - destruct (fp_intent c) as [i|] eqn:Hfi; [|done]. cbn in Hi. simplify_eq.
    apply bind_Ok in Hc as ([] & Hv & _). unfold finalize_validate in Hv. rewrite Hfi in Hv.
    destruct (tr_state (fp_terminal c)); try done. guard_in Hv as Hid.
    apply bind_Ok in Hv as (d & _ & Hv). guard_in Hv as Hd. to_prop.
    apply bind_Ok in Hv as (b & Hb & Hv). destruct b; [done|]. apply any_other_time_false in Hb.
    rewrite Forall_forall in Hb. specialize (Hb m Hm). cbn in Hb. simplify_eq. lia.
Qed.

(** The graph writes among a command's mutations are those of the transaction it installs. *)
Lemma command_graph_writes single c cm m t :
  command_mutations blake3 c = Ok cm → transactional single c → m ∈ cm → graph_mutation_time m = Some t →
  ∃ start snapshot ms, installs c = Some (start, snapshot, ms) ∧ m ∈ ms.
Proof.
  destruct c as [c|c|c|c|c|c|c|c]; cbn [command_mutations transactional installs]; intros Hc HP Hm Ht.
  - apply bind_Ok in Hc as ([] & _ & [= <-]). rewrite Forall_forall in HP. specialize (HP m Hm). cbn in HP. congruence.
  - apply bind_Ok in Hc as ([] & _ & [= <-]). by eexists _, _, _.
  - apply bind_Ok in Hc as ([] & _ & (md & _ & [= <-])%bind_Ok).
    rewrite !elem_of_cons, elem_of_nil in Hm. by destruct Hm as [->|[->|[]]].
  - apply bind_Ok in Hc as ([] & _ & [= <-]). by apply list_elem_of_singleton in Hm as ->.
  - apply bind_Ok in Hc as ([] & _ & [= <-]). apply elem_of_app in Hm as [Hm|Hm].
    + destruct (fp_intent c) as [i|]; [|by apply elem_of_nil in Hm]. by eexists _, _, _.
    + by apply list_elem_of_singleton in Hm as ->.
  - apply bind_Ok in Hc as (md & _ & [= <-]). by apply list_elem_of_singleton in Hm as ->.
  - apply bind_Ok in Hc as (md & _ & [= <-]). by apply list_elem_of_singleton in Hm as ->.
  - apply bind_Ok in Hc as (md & _ & [= <-]). by apply list_elem_of_singleton in Hm as ->.
Qed.
End commands.

(** ** First committer wins *)

Section safety.
Context (blake3 : bytes → Digest32) (blake3_wf : ∀ bs, digest_wf (blake3 bs)).
Context {St V : Type} `{Hstore : ReplicaStateStore St V} `{Hlaws : !ReplicaStateStoreLaws blake3 St V}.
Implicit Types (self : ShardStateMachine St) (s : St) (c : ShardCommand).
Abbreviation db := (db blake3).
Abbreviation machine_ok := (machine_ok blake3).
Abbreviation shard_step := (shard_step blake3).
Abbreviation micro_step := (micro_step blake3).
Abbreviation reachable := (reachable blake3).

(** Active intents belong to two-phase transactions and are clear of everything since their snapshot. *)
Definition protected (single : TransactionId → bool) self : Prop :=
  ∀ id i, sm_active_intents self !! id = Some i →
    single id = false ∧
    clear_since (db self) (pi_start_time i) (pi_snapshot_applied_index i) (pi_mutations i).

Lemma clear_since_appended (d d' : StoreContents) index ns start snapshot ms :
  clear_since d start snapshot ms → appended d index ns d' →
  (∀ m t, m ∈ ns → graph_mutation_time m = Some t → mutations_conflict ms [m] = false) →
  clear_since d' start snapshot ms.
Proof.
  intros Hc Hap Hn ch t Hch Hidx Ht Hlt. rewrite (ap_changes _ _ _ _ Hap) in Hch.
  apply elem_of_app in Hch as [Hch|[_ Hm]%elem_of_changes_at]; [by eapply Hc|by eapply Hn].
Qed.

(** The graph writes of an accepted batch are those of the command, unless it is a replay. *)
Lemma persisted_graph self index c tr ms m t :
  persisted_mutations blake3 self index c tr = Ok ms → sm_applied_index self < index →
  m ∈ ms → graph_mutation_time m = Some t →
  is_replay tr = false ∧ ∃ cm, command_mutations blake3 c = Ok cm ∧ m ∈ cm.
Proof.
  intros (cm & Hcm & (records & _ & Hms)%bind_Ok)%bind_Ok Hidx Hm Ht. apply (inj Ok) in Hms as <-.
  rewrite (proj2 (Z.ltb_lt _ _)) in Hcm by done. cbn [andb] in Hcm.
  apply elem_of_app in Hm as [Hm|(r & -> & _)%list_elem_of_fmap]; [|done].
  destruct (is_replay tr); [injection Hcm as <-; by apply elem_of_nil in Hm|]. by eauto.
Qed.

(** An accepted transaction is clear of the other active intents and of the history. *)
Lemma accepted_clear self single c tr start snapshot ms :
  machine_ok self → protected single self → transactional single c → shard_command_ok c →
  validate_transaction_acceptance blake3 self c = Ok tr → is_replay tr = false →
  installs c = Some (start, snapshot, ms) →
  clear_since (db self) start snapshot ms ∧
  ∀ id i, sm_active_intents self !! id = Some i → next_intents (sm_active_intents self) tr !! id = Some i →
    mutations_conflict (pi_mutations i) ms = false.
Proof.
  intros Hok Hp HP Hc Ha Hr Hi. destruct c as [|c| | |c| | |]; try done; cbn in Ha, Hi.
  - injection Hi as <- <- <-. apply bind_Ok in Ha as (durable & _ & Ha).
    destruct durable; [injection Ha as <-; done|]. apply bind_Ok in Ha as ([] & Hw & Ha). injection Ha as <-.
    eapply validate_write_conflicts_Ok in Hw as [Hfree Hclear]; [|apply Hok|apply Hok].
    split; [done|]. intros id i Hact _. rewrite mutations_conflict_sym. apply (Hfree id i Hact).
    destruct (st_active _ _ _ (mo_stored _ self Hok) id i Hact) as [-> _]. cbn in HP.
    destruct (Hp id i Hact). congruence.
  - destruct (fp_intent c) as [i|] eqn:Hfi; [|done]. cbn in Hi. injection Hi as <- <- <-.
    unfold accept_finalize in Ha. destruct (sm_active_intents self !! tr_id (fp_terminal c)) as [a|] eqn:Hact.
    + apply bind_Ok in Ha as (d & _ & Ha). rewrite Hfi in Ha. guard_in Ha as Hg. to_prop. subst a.
      apply bind_Ok in Ha as ([] & _ & Ha). injection Ha as <-. split; [by apply (Hp _ _ Hact)|].
      intros id j Hj Hnext. cbn in Hnext. apply lookup_delete_Some in Hnext as [Hne _].
      by eapply (mo_free _ self Hok); [exact Hj|exact Hact|].
    + apply bind_Ok in Ha as (d & _ & Ha). destruct d; [|done]. guard_in Ha as Hm. by injection Ha as <-.
Qed.

(** An intent is active after a step when it was before, or when the step prepared it. *)
Lemma next_intents_cases self c tr id i :
  machine_ok self → shard_command_ok c →
  validate_transaction_acceptance blake3 self c = Ok tr →
  next_intents (sm_active_intents self) tr !! id = Some i →
  sm_active_intents self !! id = Some i ∨
  ∃ p, c = CmdPrewriteIntent p ∧ pw_intent p = i ∧ pi_transaction_id i = id ∧
    clear_since (db self) (pi_start_time i) (pi_snapshot_applied_index i) (pi_mutations i).
Proof.
  intros Hok Hc Ha Hi. destruct tr as [|j|j ?|]; cbn in Hi; [by left| |apply lookup_delete_Some in Hi as [_ Hi]; by left|by left].
  apply lookup_insert_Some in Hi as [[<- <-]|[_ Hi]]; [|by left]. right.
  destruct c as [c|c|c|c|c|c|c|c]; cbn in Ha; try done.
  - apply bind_Ok in Ha as ([] & _ & Ha); [done|]. by apply bind_Ok in Ha as (? & _ & Ha).
  - exists c. unfold accept_prewrite in Ha.
    destruct (_ !! _); [by destruct (bool_decide _)|]. guard_in Ha as Hsz.
    apply bind_Ok in Ha as (d & _ & Ha). destruct d; [done|]. apply bind_Ok in Ha as ([] & Hw & Ha).
    injection Ha as <-. destruct Hc as (_ & _ & Hi). split; [done|]. split; [done|]. split; [done|].
    eapply validate_write_conflicts_Ok in Hw as [_ Hw]; [done|apply Hok|apply Hok].
  - by apply bind_Ok in Ha as ([] & _ & Ha).
  - unfold accept_finalize in Ha. destruct (_ !! _).
    + apply bind_Ok in Ha as (d & _ & Ha). guard_in Ha as Hg. by apply bind_Ok in Ha as (? & _ & Ha).
    + apply bind_Ok in Ha as (d & _ & Ha). destruct d; [|done]. by guard_in Ha as Hm.
Qed.

Lemma accepted_protected self single index c tr ms self' :
  machine_ok self → protected single self → transactional single c → shard_command_ok c →
  sm_applied_index self < index →
  validate_transaction_acceptance blake3 self c = Ok tr →
  persisted_mutations blake3 self index c tr = Ok ms → appended (db self) index ms (db self') →
  sm_active_intents self' = next_intents (sm_active_intents self) tr → protected single self'.
Proof.
  intros Hok Hp HP Hc Hidx Ha Hms Hap Hact id i Hi. rewrite Hact in Hi.
  assert (∀ m t, m ∈ ms → graph_mutation_time m = Some t → mutations_conflict (pi_mutations i) [m] = false) as Hnew.
  { intros m t Hm Ht. eapply persisted_graph in Hms as (Hr & cm & Hcm & Hmc); [|done..].
    edestruct command_graph_writes as (start & snap & ws & Hin & Hmw); [done..|].
    eapply accepted_clear in Ha as Hcl; [|done..]. destruct Hcl as [_ Hcl].
    destruct (next_intents_cases _ _ _ _ _ Hok Hc Ha Hi) as [Hai|(p & -> & _)]; [|done].
    eapply mutations_conflict_elem; [|done]. by eapply Hcl. }
  destruct (next_intents_cases _ _ _ _ _ Hok Hc Ha Hi) as [Hai|(p & -> & <- & <- & Hcl)].
  - destruct (Hp id i Hai) as [Hs Hcl]. split; [done|]. by eapply clear_since_appended.
  - split; [done|]. eapply clear_since_appended; [exact Hcl|exact Hap|exact Hnew].
Qed.

Lemma installed_protected self expected prior ids entries batches d' :
  batched blake3 self expected prior ids entries batches → ∀ d, installed d batches d' →
  machine_ok self → (∀ e, e ∈ entries → shard_command_ok e.2) →
  ∀ single id i, protected single self → (∀ e, e ∈ entries → transactional single e.2) →
  sm_active_intents self !! id = Some i →
  clear_since d (pi_start_time i) (pi_snapshot_applied_index i) (pi_mutations i) →
  clear_since d' (pi_start_time i) (pi_snapshot_applied_index i) (pi_mutations i).
Proof.
  induction 1 as [|expected prior ids term c md batch entries batches Hv Ha Hid Hconf Hmd Hnew Hb IH];
    intros d Hinst Hok Hall single id i Hp HP Hi Hcl; inversion Hinst; simplify_eq; [done|].
  apply batch_new_fields in Hnew as (_ & _ & Hms).
  eapply IH; [done|done| |done| |done|].
  { intros e He. apply Hall. by right. }
  { intros e He. apply HP. by right. }
  eapply clear_since_appended; [done|by apply contents_append_appended|].
  intros m t. rewrite Hms. rewrite elem_of_app. intros [Hm|Hm] Ht; [|by apply list_elem_of_singleton in Hm as ->].
  edestruct (accepted_clear self single (CmdCommitSingleShardTransaction c)) as [_ Hfree];
    [done|done|apply (HP _ ltac:(left))|apply (Hall _ ltac:(left))|done|done|done|].
  eapply mutations_conflict_elem; [|done]. by eapply Hfree.
Qed.

Lemma micro_protected single self self' :
  machine_ok self → protected single self → micro_step (transactional single) self self' → protected single self'.
Proof.
  intros Hok Hp [index c r self1 HP Hc Hidx Hs|self1 Hd _ _ _ Hact|index md s Hn Hap|entries batches s Hall _ Hb Hi].
  - destruct Hs as [e s Hs|outcome rej md s Hn Ho Hap|outcome tr ms s Hv Ha Hms Ho Hap].
    + intros id i Hi. destruct (Hp id i Hi). unfold db, ShardInvariant.db in *. cbn. by rewrite Hs.
    + intros id i Hi. destruct (Hp id i Hi) as [? Hcl]. split; [done|].
      eapply clear_since_appended; [done|exact Hap|]. by intros m t Hm ?; apply list_elem_of_singleton in Hm as ->.
    + by eapply accepted_protected.
  - intros id i. rewrite Hd, Hact. apply Hp.
  - intros id i Hi. destruct (Hp id i Hi) as [? Hcl]. split; [done|].
    eapply clear_since_appended; [done|exact Hap|]. by intros m t Hm ?; apply list_elem_of_singleton in Hm as ->.
  - rewrite Forall_forall in Hall. intros id i Hi'. destruct (Hp id i Hi') as [? Hcl]. split; [done|].
    eapply installed_protected; [exact Hb|exact Hi|done|by intros e He; apply Hall|done| |done|done].
    intros e He. by apply Hall.
Qed.

Lemma reachable_protected single self : reachable (transactional single) self → protected single self.
Proof using blake3_wf.
  intros (binding & s & self0 & Hf & Hn & Hrun).
  destruct (fresh_ok _ _ _ _ Hf Hn) as (Hok & Heq & _).
  eapply (run_invariant blake3 blake3_wf _ (protected single)); [|exact Hok| |exact Hrun].
  - intros ? ? ? ?. by apply micro_protected.
  - intros id i Hi. by rewrite Heq in Hi.
Qed.

(** ** Records that never change *)

(** A detailed step keeps the tracked names and the intents, or it is an accepted command. *)
Lemma micro_cases P self self' :
  micro_step P self self' →
  ((∀ n, tracked_name n → sc_metadata (db self') !! n = sc_metadata (db self) !! n) ∧
   sm_active_intents self' = sm_active_intents self) ∨
  ∃ index c tr ms, P c ∧ shard_command_ok c ∧ sm_applied_index self < index ∧
    validate_command blake3 self c = Ok tt ∧
    validate_transaction_acceptance blake3 self c = Ok tr ∧
    persisted_mutations blake3 self index c tr = Ok ms ∧ appended (db self) index ms (db self') ∧
    sm_active_intents self' = next_intents (sm_active_intents self) tr.
Proof.
  intros [index c r self1 HP Hc Hidx Hs|self1 Hd _ _ _ Hact|index md s Hn Hap|entries batches s _ _ Hb Hi].
  - destruct Hs as [e s Hs|outcome rej md s Hn Ho Hap|outcome tr ms s Hv Ha Hms Ho Hap].
    + left. split; [|done]. intros n _. unfold ShardInvariant.db in *. cbn. by rewrite Hs.
    + left. split; [|done]. eapply fr_metadata, appended_framed; [exact Hap|].
      intros m [= ->]%list_elem_of_singleton. apply marker_untracked. by left.
    + right. by exists index, c, tr, ms.
  - left. by rewrite Hd.
  - left. split; [|done]. eapply fr_metadata, appended_framed; [exact Hap|].
    intros m [= ->]%list_elem_of_singleton. apply marker_untracked. by right.
  - left. split; [|done]. eapply fr_metadata, installed_framed; [exact Hi|].
    by eapply batched_batches in Hb as [_ Hb].
Qed.

(** The home decision an accepted command finds or leaves. *)
Lemma accepted_home self index (c : RecordHomeDecision) tr ms m d' :
  validate_transaction_acceptance blake3 self (CmdRecordHomeDecision c) = Ok tr →
  persisted_mutations blake3 self index (CmdRecordHomeDecision c) tr = Ok ms →
  appended (db self) index ms d' →
  home_decision_metadata blake3 c = Ok m →
  (sc_metadata (db self) !! home_decision_metadata_name (tr_id (hd_decision c)) = None ∨
   sc_metadata (db self) !! home_decision_metadata_name (tr_id (hd_decision c)) = Some m) ∧
  sc_metadata d' !! home_decision_metadata_name (tr_id (hd_decision c)) = Some m.
Proof.
  intros Ha (cm & records & -> & Hr & _)%persisted_split Hap Hm.
  assert (rm_name m = home_decision_metadata_name (tr_id (hd_decision c))) as Hn.
  { pose proof Hm as (bs & _ & Hm')%bind_Ok. by apply (inj Ok) in Hm' as <-. }
  rewrite (ap_metadata _ _ _ _ Hap), metadata_after_app.
  cbn [transaction_metadata validate_transaction_acceptance] in Hr, Ha. rewrite Hm in Hr. injection Hr as <-.
  split; [|cbn; by rewrite Hn, lookup_insert_eq].
  apply bind_Ok in Ha as (b & Ha & _). unfold home_decision_is_durable in Ha. rewrite Hm in Ha. cbn [mbind result_bind] in Ha.
  apply bind_Ok in Ha as (o & Ho%(metadata_of_lookup blake3) & Ha). rewrite <-Hn. unfold db, ShardInvariant.db. rewrite <-Ho.
  destruct o as [x|]; [right|by left]. case_bool_decide; [by subst|]. by apply bind_Ok in Ha as (? & _ & Ha).
Qed.

Lemma accepted_home_metadata self index (c : RecordHomeDecision) tr ms :
  persisted_mutations blake3 self index (CmdRecordHomeDecision c) tr = Ok ms →
  ∃ m, home_decision_metadata blake3 c = Ok m.
Proof. intros (cm & records & _ & (m & Hm & _)%bind_Ok & _)%persisted_split. by exists m. Qed.

Lemma micro_home P self self' id m :
  micro_step P self self' → sc_metadata (db self) !! home_decision_metadata_name id = Some m →
  sc_metadata (db self') !! home_decision_metadata_name id = Some m.
Proof.
  intros Hs Hm. assert (tracked_name (home_decision_metadata_name id)) as Htr by (do 3 right; by exists id).
  destruct (micro_cases _ _ _ Hs) as [[Hsame _]|(index & c & tr & ms & _ & _ & _ & _ & Ha & Hms & Hap & _)];
    [by rewrite Hsame|].
  destruct (match c with
            | CmdRecordHomeDecision d =>
                bool_decide (home_decision_metadata_name (tr_id (hd_decision d)) = home_decision_metadata_name id)
            | _ => false
            end) eqn:Hcase.
  - destruct c as [| | |d| | | |]; try done. to_prop. destruct (accepted_home_metadata _ _ _ _ _ Hms) as [m' Hm'].
    destruct (accepted_home _ _ _ _ _ _ _ Ha Hms Hap Hm') as [[Ho|Ho] Hd]; rewrite Hcase in Ho, Hd; congruence.
  - rewrite (ap_metadata _ _ _ _ Hap). erewrite persisted_other; [exact Hm|exact Hms| |].
    + apply command_name_tracked. right. right. by exists id.
    + intros Hrec. destruct c; cbn [record_name] in Hrec;
        first [discriminate Hrec|done|destruct Hrec as [Hrec|[id' Hrec]]; discriminate Hrec|by to_prop].
Qed.

(** ** Properties *)



(** C13. A home shard records one decision per transaction: two decisions it accepts for the same
    transaction, however far apart in a run, restarts included, are the same command. *)
Theorem home_decision_unique P self1 term1 index1 (c1 : RecordHomeDecision) outcome1 self1'
    self2 term2 index2 (c2 : RecordHomeDecision) outcome2 self2' :
  reachable P self1 →
  shard_command_ok (CmdRecordHomeDecision c1) → shard_command_ok (CmdRecordHomeDecision c2) →
  sm_applied_index self1 < index1 → sm_applied_index self2 < index2 →
  apply_committed blake3 self1 term1 index1 (CmdRecordHomeDecision c1) = (Ok outcome1, self1') →
  ao_rejection outcome1 = None →
  rtc (shard_step P) self1' self2 →
  apply_committed blake3 self2 term2 index2 (CmdRecordHomeDecision c2) = (Ok outcome2, self2') →
  ao_rejection outcome2 = None →
  tr_id (hd_decision c1) = tr_id (hd_decision c2) →
  c1 = c2.
Proof using blake3_wf.
  intros Hreach Hc1 Hc2 Hi1 Hi2 Ha1 Ho1 Hrun Ha2 Ho2 Hid.
  pose proof (reachable_ok blake3 blake3_wf _ _ Hreach) as Hok1.
  eapply apply_committed_effect in Ha1; [|done|apply Hok1|done].
  pose proof (step_ok _ _ _ _ _ _ Hok1 Hc1 Ha1) as Hok1'.
  pose proof (run_ok blake3 blake3_wf _ _ _ Hok1' Hrun) as Hok2.
  eapply apply_committed_effect in Ha2; [|done|apply Hok2|done].
  inversion Ha1 as [| |o tr1 ms1 s1 _ Hacc1 Hms1 _ Hap1]; subst; [congruence|].
  inversion Ha2 as [| |o tr2 ms2 s2 _ Hacc2 Hms2 _ Hap2]; subst; [congruence|].
  destruct (accepted_home_metadata _ _ _ _ _ Hms1) as [m1 Hm1].
  destruct (accepted_home_metadata _ _ _ _ _ Hms2) as [m2 Hm2].
  destruct (accepted_home _ _ _ _ _ _ _ Hacc1 Hms1 Hap1 Hm1) as [_ Hd1].
  destruct (accepted_home _ _ _ _ _ _ _ Hacc2 Hms2 Hap2 Hm2) as [Hd2 _].
  rewrite <-Hid in Hd2.
  eapply (run_invariant blake3 blake3_wf _
    (λ m, sc_metadata (db m) !! home_decision_metadata_name (tr_id (hd_decision c1)) = Some m1)) in Hrun;
    [|intros ? ? _ ? ?; by eapply micro_home|done|exact Hd1].
  rewrite Hrun in Hd2. destruct Hd2 as [?|Hd2%(inj Some)]; [done|]. subst m2.
  apply bind_Ok in Hm1 as (bs1 & Hb1 & Hm1). apply bind_Ok in Hm2 as (bs2 & Hb2 & Hm2).
  apply (inj Ok) in Hm1 as <-. apply (inj Ok), (f_equal rm_value) in Hm2. injection Hm2 as <-.
  apply encode_decodes in Hb1, Hb2; [|done..]. congruence.
Qed.
End safety.

(** ** Witnesses *)



Lemma home_decision_unique_witness :
  ao_rejection (example_outcome example_prepared 2 (CmdRecordHomeDecision example_decision)) = None ∧
  example_decision = example_decision.
Proof.
  split; [vm_compute; reflexivity|].
  apply (home_decision_unique checksum32 checksum32_wf (λ _, True) example_prepared 1 2 example_decision
           (example_outcome example_prepared 2 (CmdRecordHomeDecision example_decision))
           example_decided example_decided 1 3 example_decision
           (example_outcome example_decided 3 (CmdRecordHomeDecision example_decision))
           (example_apply example_decided 3 (CmdRecordHomeDecision example_decision))).
  - by apply example_prepared_reachable.
  - apply example_decision_ok.
  - apply example_decision_ok.
  - vm_compute. reflexivity.
  - vm_compute. reflexivity.
  - vm_compute. reflexivity.
  - vm_compute. reflexivity.
  - apply rtc_refl.
  - vm_compute. reflexivity.
  - vm_compute. reflexivity.
  - reflexivity.
Defined.
