(* ===== verification/ShardParticipant.v ===== *)
(** * A shard as a participant of two-phase commit

    The abstract participant: a transaction is unknown, prepared with its intent, or finished with an
    outcome that fits the intent.  Every run of a shard is a run of it, read off the state records in
    the store; and a prepared transaction can always be committed, whatever happened since. *)

From S2P Require Import Prelude Text Kernel Encoding Storage ShardWire ShardCommand ShardCodec.
From S2P Require Import ShardMetadata StateStore ShardMachine ShardRecords ShardHistory ShardInvariant.
From S2P Require Import ShardReach ShardExample ShardSafety.
Open Scope Z_scope.

Section participant.
Context (blake3 : bytes → Digest32) (blake3_wf : ∀ bs, digest_wf (blake3 bs)).

(** ** The abstract participant *)

(** The intent of each known transaction, and its outcome once it is finished. *)
Abbreviation Participants := (gmap TransactionId (ParticipantIntent * option TransactionRecord)).

(** An outcome that fits an intent: a commit after its start, or an abort at its start. *)
Definition fits (i : ParticipantIntent) (t : TransactionRecord) : Prop :=
  tr_id t = pi_transaction_id i ∧ intent_digest blake3 i = Ok (tr_record_digest t) ∧
  (tr_state t = Committed ∧ pi_start_time i < tr_transaction_time t ∨
   tr_state t = Aborted ∧ tr_transaction_time t = pi_start_time i).

Inductive participant_step (A : Participants) : Participants → Prop :=
| participant_prepares i :
    A !! pi_transaction_id i = None → participant_step A (<[pi_transaction_id i := (i, None)]> A)
| participant_finishes i t :
    A !! pi_transaction_id i = Some (i, None) → fits i t →
    participant_step A (<[pi_transaction_id i := (i, Some t)]> A).

Lemma validate_intent_terminal_fits i t : validate_intent_terminal blake3 i t = Ok tt → fits i t.
Proof.
  unfold validate_intent_terminal. intros Hv. guard_in Hv as Hid. to_prop.
  apply bind_Ok in Hv as (d & Hd & Hv). guard_in Hv as Hg. to_prop.
  split; [done|]. split; [congruence|]. destruct (tr_state t); to_prop; try done; auto.
Qed.

(** ** The refinement *)

Context {St V : Type} `{Hstore : ReplicaStateStore St V} `{Hlaws : !ReplicaStateStoreLaws blake3 St V}.
Implicit Types (self : ShardStateMachine St) (A : Participants).
Abbreviation db := (db blake3).
Abbreviation machine_ok := (machine_ok blake3).
Abbreviation micro_step := (micro_step blake3).

(** The state record of one transaction, read as the abstract state [o]. *)
Definition represents_at self (id : TransactionId) (o : option (ParticipantIntent * option TransactionRecord)) : Prop :=
  match o with
  | Some (i, t) =>
      pi_transaction_id i = id ∧ intent_ok i ∧ terminal_ok t ∧
      (∃ m, sc_metadata (db self) !! transaction_state_metadata_name id = Some m ∧
            transaction_state_metadata blake3 i t = Ok m) ∧
      sm_active_intents self !! id = match t with None => Some i | Some _ => None end
  | None =>
      sc_metadata (db self) !! transaction_state_metadata_name id = None ∧ sm_active_intents self !! id = None
  end.

Definition represents self A : Prop := ∀ id, in_u128 id → represents_at self id (A !! id).

Lemma represents_at_unique self id i t o :
  represents_at self id o → intent_ok i → terminal_ok t →
  (∃ m, sc_metadata (db self) !! transaction_state_metadata_name id = Some m ∧
        transaction_state_metadata blake3 i t = Ok m) → o = Some (i, t).
Proof.
  intros Hr Hi Ht (m & Hm & Hmd). destruct o as [[j u]|]; cbn in Hr; [|destruct Hr; congruence].
  destruct Hr as (_ & Hj & Hu & (m' & Hm' & Hmd') & _).
  destruct (state_round_trip blake3 i t m Hi Ht Hmd) as [_ Hd].
  destruct (state_round_trip blake3 j u m' Hj Hu Hmd') as [_ Hd']. congruence.
Qed.

(** An accepted transaction command is one abstract step, or none when it repeats what is known. *)
Lemma transaction_refines self A tr i t records :
  machine_ok self → represents self A → transaction_step blake3 self tr i t records →
  participant_step A (<[pi_transaction_id i := (i, t)]> A) ∨ A !! pi_transaction_id i = Some (i, t).
Proof.
  intros Hok Hrep Hts. assert (in_u128 (pi_transaction_id i)) as Hid by apply (ts_intent _ _ _ _ _ _ Hts).
  specialize (Hrep _ Hid). destruct (ts_records _ _ _ _ _ _ Hts) as (state & idx & _ & Hst & _).
  destruct (sc_metadata (db self) !! transaction_state_metadata_name (pi_transaction_id i)) as [m|] eqn:Hm.
  - destruct (ts_durable _ _ _ _ _ _ Hts m Hm) as [Hmd|Hact].
    { right. eapply represents_at_unique; [done|apply Hts|apply Hts|by exists m]. }
    destruct (st_active _ _ _ (mo_stored _ self Hok) _ _ Hact) as (_ & Hi & m' & Hm' & Hmd').
    assert (A !! pi_transaction_id i = Some (i, None)) as HA.
    { eapply represents_at_unique; [done|done|done|by exists m']. }
    destruct t as [t|]; [|by right]. left. constructor; [done|].
    apply bind_Ok in Hst as ([] & Hv & _). by apply validate_intent_terminal_fits.
  - destruct t as [t|].
    { destruct (ts_known _ _ _ _ _ _ Hts) as [m ?]; [done|congruence]. }
    left. constructor. destruct (A !! pi_transaction_id i) as [[j u]|]; [|done].
    cbn in Hrep. destruct Hrep as (_ & _ & _ & (m & Hm' & _) & _). congruence.
Qed.

Lemma micro_refines P self self' A :
  machine_ok self → represents self A → micro_step P self self' →
  ∃ A', represents self' A' ∧ rtc participant_step A A'.
Proof.
  intros Hok Hrep Hs. pose proof (micro_step_ok _ _ _ _ Hok Hs) as Hok'.
  assert (∀ id, tracked_name (transaction_state_metadata_name id)) as Htr by (intros id; right; right; left; by eexists).
  apply micro_cases in Hs as [[Hsame Hact]|(index & c & tr & ms & _ & Hc & _ & Hv & Ha & Hms & Hap & Hact)].
  { exists A. split; [|done]. intros id Hid. specialize (Hrep id Hid). unfold represents_at.
    by rewrite Hsame, Hact by done. }
  destruct (is_transaction_command c) eqn:Hct.
  2:{ destruct (accepted_stored _ _ _ _ _ _ _ Hok Hc Hv Ha Hms Hap) as [[Hnext _]|(? & ? & ? & ? & _)]; [|congruence].
      exists A. split; [|done]. intros id Hid. specialize (Hrep id Hid). unfold represents_at.
      rewrite Hact, Hnext, (ap_metadata _ _ _ _ Hap). erewrite persisted_other; [exact Hrep|exact Hms| |].
      - apply command_name_tracked. right. left. by eexists.
      - apply record_name_tracked; [right; by eexists|done]. }
  destruct (accepted_transaction _ _ _ _ _ _ Hok Hc Hv Ha Hms Hct)
    as (i & t & state & idx & cm & Hts & Hst & Hidx & -> & Hcm & _).
  pose proof (transaction_refines _ _ _ _ _ _ Hok Hrep Hts) as Hstep.
  exists (<[pi_transaction_id i := (i, t)]> A). split.
  2:{ destruct Hstep as [Hstep|Hsame]; [by apply rtc_once|]. by rewrite insert_id. }
  intros id Hid. pose proof (Hrep id Hid) as Hrid.
  assert (∀ n, n ≠ ACTIVE_TRANSACTION_INTENTS_METADATA_NAME → n ≠ rm_name state → tracked_by_intents n →
    sc_metadata (db self') !! n = sc_metadata (db self) !! n) as Hother.
  { intros n Hn1 Hn2 Hn3. rewrite (ap_metadata _ _ _ _ Hap), metadata_after_app. cbn.
    rewrite (active_intents_name _ _ _ Hidx), !lookup_insert_ne by done. by apply Hcm. }
  assert (sc_metadata (db self') !! rm_name state = Some state) as Hself.
  { rewrite (ap_metadata _ _ _ _ Hap), metadata_after_app. cbn.
    rewrite (active_intents_name _ _ _ Hidx), lookup_insert_ne, lookup_insert_eq; [done|].
    by rewrite (state_metadata_name _ _ _ _ Hst). }
  rewrite (state_metadata_name _ _ _ _ Hst) in *. rewrite (ts_next _ _ _ _ _ _ Hts) in Hact.
  destruct (decide (pi_transaction_id i = id)) as [<-|Hne].
  - rewrite lookup_insert_eq. unfold represents_at.
    refine (conj eq_refl (conj (ts_intent _ _ _ _ _ _ Hts) (conj (ts_terminal _ _ _ _ _ _ Hts) (conj _ _)))).
    + by exists state.
    + rewrite Hact. destruct t; cbn; [apply lookup_delete_eq|apply lookup_insert_eq].
  - rewrite lookup_insert_ne by done. unfold represents_at in *. rewrite Hother; [|done| |right; by eexists].
    + rewrite Hact. destruct t; cbn; [by rewrite lookup_delete_ne|by rewrite lookup_insert_ne].
    + intros Heq%state_name_inj; [congruence|done|apply (ts_intent _ _ _ _ _ _ Hts)].
Qed.

Lemma run_refines P self self' A :
  machine_ok self → represents self A → rtc (shard_step blake3 P) self self' →
  ∃ A', represents self' A' ∧ rtc participant_step A A'.
Proof using blake3_wf.
  intros Hok Hrep Hrun.
  eapply (run_invariant blake3 blake3_wf P (λ m, ∃ A', represents m A' ∧ rtc participant_step A A')) in Hrun;
    [done| |done|by exists A].
  intros m m' Hm (A1 & Hr & HA) Hstep. destruct (micro_refines _ _ _ _ Hm Hr Hstep) as (A2 & Hr2 & HA2).
  exists A2. split; [done|]. by etransitivity.
Qed.

(** ** Finishing a prepared transaction *)

Lemma fits_validate i t : fits i t → validate_intent_terminal blake3 i t = Ok tt.
Proof.
  intros (Hid & Hd & Hst). unfold validate_intent_terminal. rewrite Hid, Z.eqb_refl, Hd. cbn.
  rewrite bool_decide_eq_true_2 by done. cbn.
  destruct Hst as [[-> Hlt]|[-> ->]]; [by rewrite (proj2 (Z.ltb_lt _ _))|by rewrite Z.eqb_refl].
Qed.

Lemma fits_tag i t : fits i t → ∃ tag, terminal_tag (Some t) = Ok tag.
Proof. intros (_ & _ & [[Hs _]|[Hs _]]); unfold terminal_tag; cbn; rewrite Hs; by eexists. Qed.

Lemma state_metadata_digest i t m :
  transaction_state_metadata blake3 i t = Ok m →
  ∃ bs, intent_encode_current i = Ok bs ∧
    intent_digest blake3 i = Ok (blake3 (as_bytes "dtg-transaction-participant-intent-v3" ++ bs)).
Proof.
  intros (? & _ & (bs & Hbs & _)%bind_Ok)%bind_Ok. exists bs. split; [done|].
  unfold intent_digest. by rewrite Hbs.
Qed.

Lemma active_entries_Ok l :
  Forall (λ p, ∃ d, intent_digest blake3 p.2 = Ok d) l → ∃ bs, active_entries blake3 l = Ok bs.
Proof.
  induction 1 as [|[id i] l [d Hd] _ [bs IH]]; [by eexists|]. cbn [active_entries]. cbn in Hd. rewrite Hd, IH. by eexists.
Qed.

(** The index can be written for the intents that stay active. *)
Lemma active_metadata_delete self id i :
  machine_ok self → sm_active_intents self !! id = Some i →
  ∃ idx, active_intents_metadata blake3 (delete id (sm_active_intents self)) = Ok idx.
Proof.
  intros Hok Hi. pose proof (st_index _ _ _ (mo_stored _ self Hok)) as Hidx.
  destruct (sc_metadata _ !! _) as [m|]; [|by rewrite Hidx in Hi].
  unfold active_intents_metadata in *. guard_in Hidx as Hsz. to_prop.
  assert (size (delete id (sm_active_intents self)) ≤ size (sm_active_intents self))%nat as Hle.
  { rewrite map_size_delete, Hi. lia. }
  rewrite (proj2 (Z.ltb_ge _ _)) by lia.
  destruct (active_entries_Ok (entries (delete id (sm_active_intents self)))) as [bs Hbs].
  - apply Forall_forall. intros [id' j] [_ Hj]%elem_of_entries%lookup_delete_Some.
    destruct (st_active _ _ _ (mo_stored _ self Hok) _ _ Hj) as (_ & _ & m' & _ & Hmd).
    apply state_metadata_digest in Hmd as (? & _ & Hd). by eexists.
  - rewrite Hbs. by eexists.
Qed.

Section finish.
Context self (f : FinalizeParticipant) (i : ParticipantIntent) (Hok : machine_ok self).
Hypothesis Hact : sm_active_intents self !! pi_transaction_id i = Some i.
Hypothesis Hfits : fits i (fp_terminal f).
Hypothesis Hvalid : finalize_validate blake3 f = Ok tt.
Hypothesis Hintent : fp_intent f = match tr_state (fp_terminal f) with Committed => Some i | _ => None end.

Lemma finish_mutations :
  ∃ cm, command_mutations blake3 (CmdFinalizeParticipant f) = Ok cm ∧
    (tr_state (fp_terminal f) = Committed → ∀ m, m ∈ pi_mutations i → m ∈ cm).
Proof using Hvalid Hintent.
  cbn. unfold finalize_mutations. rewrite Hvalid. eexists. split; [done|]. intros Hc m Hm.
  rewrite Hintent, Hc. apply elem_of_app. by left.
Qed.

Lemma finish_valid :
  ch_placement_epoch (fp_header f) = rb_placement_epoch (sm_binding self) →
  ch_backend_generation (fp_header f) = rb_backend_generation (sm_binding self) →
  validate_command blake3 self (CmdFinalizeParticipant f) = Ok tt.
Proof using Hok Hact Hvalid Hintent.
  intros Hep Hgen. destruct (mo_local _ self Hok _ _ Hact) as [Hsh Hsn].
  destruct finish_mutations as (cm & Hcm & _). unfold validate_command.
  cbn [is_cutover negb andb command_header command_intent command_snapshot_index].
  rewrite Hep, Hgen, !Z.eqb_refl, Hcm, Hintent. cbn [negb].
  destruct (tr_state (fp_terminal f)); cbn; try done. by rewrite Hsh, Z.eqb_refl, (proj2 (Z.ltb_ge _ _)).
Qed.

Lemma finish_accepted :
  validate_transaction_acceptance blake3 self (CmdFinalizeParticipant f)
  = Ok (TransitionFinalize (pi_transaction_id i) i).
Proof using Hact Hfits Hintent.
  cbn. unfold accept_finalize. pose proof Hfits as (-> & Hd & _). rewrite Hact, Hd. cbn [mbind result_bind].
  rewrite bool_decide_eq_true_2 by done. cbn [negb orb].
  assert (match fp_intent f with Some intent => negb (bool_decide (intent = i)) | None => false end = false) as ->.
  { rewrite Hintent. destruct (tr_state _); try done. by rewrite bool_decide_eq_true_2. }
  by rewrite fits_validate.
Qed.

Lemma finish_persisted index :
  ∃ cm records, command_mutations blake3 (CmdFinalizeParticipant f) = Ok cm ∧
    persisted_mutations blake3 self index (CmdFinalizeParticipant f) (TransitionFinalize (pi_transaction_id i) i)
    = Ok (cm ++ map PutReplicaMetadata records).
Proof using Hok Hact Hfits Hvalid Hintent.
  destruct finish_mutations as (cm & Hcm & _).
  destruct (active_metadata_delete self _ _ Hok Hact) as [idx Hidx].
  destruct (st_active _ _ _ (mo_stored _ self Hok) _ _ Hact) as (_ & _ & m & _ & Hmd).
  apply state_metadata_digest in Hmd as (bs & Hbs & _). destruct (fits_tag _ _ Hfits) as [tag Htag].
  unfold persisted_mutations. rewrite andb_false_r, Hcm. cbn [mbind result_bind transaction_metadata next_intents].
  unfold transaction_state_metadata. rewrite (fits_validate _ _ Hfits), Hbs, Htag, Hidx.
  eexists _, _. split; [done|]. reflexivity.
Qed.
End finish.

(** ** Properties *)


(** C16. A prepared participant can finish: when a transaction is prepared, the finalisation with an
    outcome that fits its intent is accepted at the next index and installs the prepared writes on a
    commit; nothing but the store itself can fail. *)
Theorem prepared_can_finish P self term (f : FinalizeParticipant) i :
  reachable blake3 P self → sm_active_intents self !! pi_transaction_id i = Some i →
  fits i (fp_terminal f) → finalize_validate blake3 f = Ok tt →
  fp_intent f = match tr_state (fp_terminal f) with Committed => Some i | _ => None end →
  ch_placement_epoch (fp_header f) = rb_placement_epoch (sm_binding self) →
  ch_backend_generation (fp_header f) = rb_backend_generation (sm_binding self) →
  match apply_committed blake3 self term (sm_applied_index self + 1) (CmdFinalizeParticipant f) with
  | (Ok outcome, self') =>
      ao_rejection outcome = None ∧ ao_replayed outcome = false ∧
      sm_active_intents self' = delete (pi_transaction_id i) (sm_active_intents self) ∧
      (tr_state (fp_terminal f) = Committed →
       ∀ m, m ∈ pi_mutations i → ∃ ch, ch ∈ sc_changes (db self') ∧ cr_mutation ch = m ∧
         cc_raft_index (cr_cursor ch) = sm_applied_index self + 1)
  | (Err e, _) => ∃ error, e = ShardStorage error
  end.
Proof using blake3_wf.
  intros Hreach Hact Hfits Hfv Hfi Hep Hgen. pose proof (reachable_ok blake3 blake3_wf _ _ Hreach) as Hok.
  destruct (finish_persisted self f i Hok Hact Hfits Hfv Hfi (sm_applied_index self + 1)) as (cm & records & Hcm & Hms).
  destruct (finish_mutations f i Hfv Hfi) as (cm' & Hcm' & Hin). rewrite Hcm in Hcm'. injection Hcm' as <-.
  unfold apply_committed. rewrite (finish_valid self f i), (finish_accepted self f i) by done.
  rewrite (proj2 (Z.ltb_ge _ (sm_applied_index self))) by lia. cbn [andb].
  unfold apply_accepted. rewrite Hms. destruct (apply_batch_of _ _ _ _ _ _ _) as [r s] eqn:Hb.
  assert (sc_applied_index (contents (sm_state_store self)) < sm_applied_index self + 1) as Hlt.
  { pose proof (mo_applied _ self Hok) as Ha. unfold ShardInvariant.db in Ha. lia. }
  pose proof (apply_batch_effect _ _ _ _ _ _ _ _ _ Hb Hlt) as Heff.
  pose proof (apply_batch_new _ _ _ _ _ _ _ _ _ Hb Hlt) as Hnew.
  destruct r as [receipt|e]; [|destruct Hnew as (_ & ? & ->); by eexists].
  destruct Heff as (Hap & _ & Hrep). cbn [ao_rejection ao_replayed outcome_of]. rewrite Hrep, andb_false_r.
  split; [done|]. split; [done|]. split; [cbn; by rewrite Hrep|].
  intros Hc m Hm. unfold ShardInvariant.db. cbn [sm_state_store advance]. rewrite (ap_changes _ _ _ _ Hap).
  assert (m ∈ cm ++ map PutReplicaMetadata records) as Hm'.
  { apply elem_of_app. left. by apply Hin. }
  apply list_elem_of_lookup_1 in Hm' as [n Hn].
  exists (mkChangeRecord (mkChangeCursor (sm_applied_index self + 1) (Z.of_nat n)) m). split; [|done].
  apply elem_of_app. right. unfold changes_at.
  apply elem_of_lookup_imap. by eexists _, _.
Qed.
End participant.

(** ** Witnesses *)


(** The prepared transaction commits at the next index. *)
Lemma prepared_can_finish_witness :
  match apply_committed checksum32 example_prepared 1 (sm_applied_index example_prepared + 1)
          (CmdFinalizeParticipant example_finalize) with
  | (Ok outcome, self') =>
      ao_rejection outcome = None ∧ ao_replayed outcome = false ∧
      sm_active_intents self' = delete 9 (sm_active_intents example_prepared) ∧
      (Committed = Committed →
       ∀ m, m ∈ pi_mutations example_intent →
         ∃ ch, ch ∈ sc_changes (ShardInvariant.db checksum32 self') ∧ cr_mutation ch = m ∧
           cc_raft_index (cr_cursor ch) = sm_applied_index example_prepared + 1)
  | (Err e, _) => ∃ error, e = ShardStorage error
  end.
Proof.
  apply (prepared_can_finish checksum32 checksum32_wf (λ _, True) example_prepared 1 example_finalize example_intent).
  - by apply example_prepared_reachable.
  - vm_compute. reflexivity.
  - split; [reflexivity|]. split; [vm_compute; reflexivity|]. left. split; reflexivity.
  - vm_compute. reflexivity.
  - reflexivity.
  - vm_compute. reflexivity.
  - vm_compute. reflexivity.
Defined.
