(* ===== verification/TxnError.v ===== *)
(** * Transaction errors ([dtg-transaction/src/lib.rs]) *)

From S2P Require Import Prelude Kernel Encoding Storage.
Open Scope Z_scope.

Inductive TxnError :=
| WriteConflict
| IncompleteSnapshot
| DuplicateShardFence
| InconsistentSnapshot
| StalePlacementEpoch
| StaleBackendGeneration
| AppliedIndexUnavailable
| ReadTimeExceedsClosedTime
| ReferentialIntegrity
| DuplicateIdentity
| TxnInvalidMutation
| ResourceLimit
| ParticipantsMismatch
| TxnShard (message : string)
| TxnStorage (message : string)
| CorruptRecovery
| InjectedCrash.

#[export] Instance TxnError_eq_dec : EqDecision TxnError.
Proof. solve_decision. Defined.

Definition TxnError_code (e : TxnError) : string :=
  match e with
  | WriteConflict => "DTG-TXN-WRITE-CONFLICT"
  | IncompleteSnapshot => "DTG-TXN-SNAPSHOT-INCOMPLETE"
  | DuplicateShardFence => "DTG-TXN-SNAPSHOT-DUPLICATE"
  | InconsistentSnapshot => "DTG-TXN-SNAPSHOT-INCONSISTENT"
  | StalePlacementEpoch => "DTG-TXN-STALE-EPOCH"
  | StaleBackendGeneration => "DTG-TXN-STALE-GENERATION"
  | AppliedIndexUnavailable => "DTG-TXN-APPLIED-INDEX"
  | ReadTimeExceedsClosedTime => "DTG-TXN-CLOSED-TIME"
  | ReferentialIntegrity => "DTG-TXN-REFERENTIAL-INTEGRITY"
  | DuplicateIdentity => "DTG-TXN-DUPLICATE-IDENTITY"
  | TxnInvalidMutation => "DTG-TXN-MUTATION"
  | ResourceLimit => "DTG-TXN-RESOURCE-LIMIT"
  | ParticipantsMismatch => "DTG-TXN-PARTICIPANTS"
  | TxnShard _ => "DTG-TXN-SHARD"
  | TxnStorage _ => "DTG-TXN-STORAGE"
  | CorruptRecovery => "DTG-TXN-RECOVERY-CORRUPT"
  | InjectedCrash => "DTG-TXN-INJECTED-CRASH"
  end.

Definition TxnError_to_string (e : TxnError) : string :=
  match e with
  | TxnShard message | TxnStorage message => message
  | _ => TxnError_code e
  end.

(** [impl From<StorageError> for TxnError], which [?] applies. *)
Definition from_storage_error (e : StorageError) : TxnError :=
  TxnStorage (StorageError_to_string e).
Definition lift_storage {A} (m : result StorageError A) : result TxnError A :=
  map_err from_storage_error m.

(** An out-of-range index panics instead of returning an error.  The definitions that index a slice
    or a map directly return a [TxnFault]; the callers' theorems show that [Panic] is unreachable. *)
Inductive TxnFault := Panic | Fault (e : TxnError).
Definition no_panic {A} (m : result TxnError A) : result TxnFault A := map_err Fault m.

(** [v[i]] on a slice or a map. *)
Definition index_or_panic {A} (m : option A) : result TxnFault A := ok_or Panic m.
