(* ===== verification/Conflict.v ===== *)
(** * Write-write conflicts ([dtg-transaction/src/conflict.rs])

    A transaction that started at [start_time] conflicts with a committed write of the same entity
    that carries a later transaction time and overlaps it in valid time; a tombstone writes the
    complete identity. *)

From S2P Require Import Prelude Kernel Encoding Storage TxnError.
Open Scope Z_scope.

Inductive EntityIdentity := EntityVertex (id : VertexId) | EntityEdge (id : EdgeId).

#[export] Instance EntityIdentity_eq_dec : EqDecision EntityIdentity.
Proof. solve_decision. Defined.

Inductive WriteExtent := Interval (i : ValidInterval) | CompleteIdentity.

Record IntervalWrite := mkIntervalWrite {
  iw_identity : EntityIdentity;
  iw_extent : WriteExtent;
  iw_transaction_time : TransactionTime;
}.

Definition IntervalWrite_new (identity : EntityIdentity) (valid_time : ValidInterval)
    (transaction_time : TransactionTime) : IntervalWrite :=
  mkIntervalWrite identity (Interval valid_time) transaction_time.

Definition IntervalWrite_tombstone (identity : EntityIdentity)
    (transaction_time : TransactionTime) : IntervalWrite :=
  mkIntervalWrite identity CompleteIdentity transaction_time.

Definition extents_overlap (left right : WriteExtent) : bool :=
  match left, right with
  | Interval i, Interval j => overlaps i j
  | CompleteIdentity, _ | _, CompleteIdentity => true
  end.

Definition detect_conflict (staged : IntervalWrite) (committed : list IntervalWrite)
    : result TxnError unit :=
  if existsb (λ candidate,
       bool_decide (iw_identity candidate = iw_identity staged)
       && (iw_transaction_time staged <? iw_transaction_time candidate)
       && extents_overlap (iw_extent candidate) (iw_extent staged)) committed
  then Err WriteConflict
  else Ok tt.

Definition write_from_mutation (mutation : LogicalMutation)
    (transaction_time : option TransactionTime) : option IntervalWrite :=
  match mutation with
  | PutVertex vertex =>
      Some (IntervalWrite_new (EntityVertex (v_id vertex)) (v_valid_time vertex)
              (default (v_transaction_time vertex) transaction_time))
  | DeleteVertex vertex =>
      Some (IntervalWrite_tombstone (EntityVertex (vt_id vertex))
              (default (vt_transaction_time vertex) transaction_time))
  | PutEdge edge =>
      Some (IntervalWrite_new (EntityEdge (e_id edge)) (e_valid_time edge)
              (default (e_transaction_time edge) transaction_time))
  | DeleteEdge edge =>
      Some (IntervalWrite_tombstone (EntityEdge (et_id edge))
              (default (et_transaction_time edge) transaction_time))
  | PutTransaction _ | PutReplicaMetadata _ => None
  end.

Definition detect_mutation_conflicts (staged committed : list LogicalMutation)
    (start_time : TransactionTime) : result TxnError unit :=
  let committed := omap (λ m, write_from_mutation m None) committed in
  try_for_each (λ m,
    match write_from_mutation m (Some start_time) with
    | Some staged => detect_conflict staged committed
    | None => Ok tt
    end) staged.

(** ** Specification: the two mutations write a common point of the same entity *)

Definition mutation_identity (m : LogicalMutation) : option EntityIdentity :=
  match m with
  | PutVertex v => Some (EntityVertex (v_id v))
  | DeleteVertex v => Some (EntityVertex (vt_id v))
  | PutEdge e => Some (EntityEdge (e_id e))
  | DeleteEdge e => Some (EntityEdge (et_id e))
  | PutTransaction _ | PutReplicaMetadata _ => None
  end.

Definition mutation_time (m : LogicalMutation) : option TransactionTime :=
  match m with
  | PutVertex v => Some (v_transaction_time v)
  | DeleteVertex v => Some (vt_transaction_time v)
  | PutEdge e => Some (e_transaction_time e)
  | DeleteEdge e => Some (et_transaction_time e)
  | PutTransaction _ | PutReplicaMetadata _ => None
  end.

(** The points of valid time a graph mutation writes: an interval, or all of them. *)
Definition mutation_writes_at (m : LogicalMutation) (t : Z) : Prop :=
  match m with
  | PutVertex v => covers_point (v_valid_time v) t = true
  | PutEdge e => covers_point (e_valid_time e) t = true
  | DeleteVertex _ | DeleteEdge _ => True
  | PutTransaction _ | PutReplicaMetadata _ => False
  end.

(** First committer wins: no committed write later than [start_time] touches a point of an entity
    that a staged mutation writes. *)
Definition no_lost_update (staged committed : list LogicalMutation) (start_time : Z) : Prop :=
  ∀ s c id tc t,
    s ∈ staged → c ∈ committed →
    mutation_identity s = Some id → mutation_identity c = Some id →
    mutation_time c = Some tc → start_time < tc →
    ¬ (mutation_writes_at s t ∧ mutation_writes_at c t).

(** ** Proofs *)

Definition intervals_ok (m : LogicalMutation) : Prop :=
  match m with
  | PutVertex v => start (v_valid_time v) < end_ (v_valid_time v)
  | PutEdge e => start (e_valid_time e) < end_ (e_valid_time e)
  | _ => True
  end.

Lemma mutation_wf_intervals m : mutation_wf m → intervals_ok m.
Proof. destruct m; cbn; unfold vertex_wf, edge_wf, interval_wf; naive_solver. Qed.

Lemma detect_conflict_Ok w ws :
  detect_conflict w ws = Ok tt ↔
  ∀ c, c ∈ ws → iw_identity c = iw_identity w → iw_transaction_time w < iw_transaction_time c →
       extents_overlap (iw_extent c) (iw_extent w) = false.
Proof.
  unfold detect_conflict. case_match eqn:Hex.
  - apply existsb_exists in Hex as (c & Hc%list_elem_of_In & Hp). to_prop.
    split; [done|]. intros Hall. by rewrite Hall in *.
  - split; [|done]. intros _ c Hc%list_elem_of_In Hid Ht.
    destruct (extents_overlap _ _) eqn:Ho; [|done].
    rewrite <-Hex. symmetry. apply existsb_exists. exists c. split; [done|].
    by rewrite bool_decide_eq_true_2, Ho, (proj2 (Z.ltb_lt _ _) Ht).
Qed.

(** Every graph mutation writes some point. *)
Lemma mutation_writes_somewhere m id :
  intervals_ok m → mutation_identity m = Some id → ∃ t, mutation_writes_at m t.
Proof.
  destruct m as [v| |e| | |]; cbn; intros Hm Hid; try done.
  - exists (start (v_valid_time v)). unfold covers_point. rewrite andb_true_iff, Z.leb_le, Z.ltb_lt. lia.
  - by exists 0.
  - exists (start (e_valid_time e)). unfold covers_point. rewrite andb_true_iff, Z.leb_le, Z.ltb_lt. lia.
  - by exists 0.
Qed.

Lemma write_from_mutation_Some m t w :
  write_from_mutation m t = Some w →
  mutation_identity m = Some (iw_identity w) ∧
  (t = None → mutation_time m = Some (iw_transaction_time w)) ∧
  (∀ t', t = Some t' → iw_transaction_time w = t').
Proof. destruct m; cbn; intros; simplify_eq; cbn; naive_solver. Qed.

Lemma write_from_mutation_identity m t id :
  mutation_identity m = Some id → ∃ w, write_from_mutation m t = Some w.
Proof. destruct m; cbn; naive_solver. Qed.

(** The extents of two writes overlap exactly when the mutations share a point. *)
Lemma extents_overlap_false s c ws wc t0 :
  intervals_ok s → intervals_ok c →
  write_from_mutation s t0 = Some ws → write_from_mutation c None = Some wc →
  extents_overlap (iw_extent wc) (iw_extent ws) = false ↔
  ∀ t, ¬ (mutation_writes_at s t ∧ mutation_writes_at c t).
Proof.
  intros Hs Hc Hws Hwc.
  destruct (write_from_mutation_Some _ _ _ Hws) as [Hids _].
  destruct (write_from_mutation_Some _ _ _ Hwc) as [Hidc _].
  destruct (mutation_writes_somewhere s _ Hs Hids) as [ts Hts].
  destruct (mutation_writes_somewhere c _ Hc Hidc) as [tc Htc].
  destruct s, c; cbn in *; simplify_eq; cbn;
    rewrite <-?not_true_iff_false, ?overlaps_iff by done; try naive_solver.
Qed.

Lemma detect_mutation_conflicts_Ok (staged committed : list LogicalMutation) (start_time : Z) :
  Forall mutation_wf staged → Forall mutation_wf committed →
  (detect_mutation_conflicts staged committed start_time = Ok tt ↔
   no_lost_update staged committed start_time).
Proof.
  rewrite !Forall_forall. intros Hs Hc. unfold detect_mutation_conflicts, no_lost_update.
  rewrite try_for_each_Ok, Forall_forall. split.
  - intros Hok s c id tc t Es Ec Is Ic Tc Hlt.
    destruct (write_from_mutation_identity s (Some start_time) id Is) as [ws Hws].
    destruct (write_from_mutation_identity c None id Ic) as [wc Hwc].
    specialize (Hok s Es). rewrite Hws, detect_conflict_Ok in Hok.
    pose proof (write_from_mutation_Some _ _ _ Hws) as (? & _ & Hts).
    pose proof (write_from_mutation_Some _ _ _ Hwc) as (? & Htc & _).
    specialize (Htc eq_refl). specialize (Hts _ eq_refl).
    revert t. apply (extents_overlap_false s c ws wc (Some start_time));
      [by apply mutation_wf_intervals, Hs|by apply mutation_wf_intervals, Hc|done..|].
    apply Hok; [|congruence|simplify_eq; lia]. apply list_elem_of_omap. eauto.
  - intros Hno s Es. destruct (write_from_mutation s (Some start_time)) as [ws|] eqn:Hws; [|done].
    apply detect_conflict_Ok. intros wc (c & Ec & Hwc)%list_elem_of_omap Hid Hlt.
    pose proof (write_from_mutation_Some _ _ _ Hws) as (? & _ & Hts).
    pose proof (write_from_mutation_Some _ _ _ Hwc) as (? & Htc & _).
    specialize (Htc eq_refl). specialize (Hts _ eq_refl).
    apply (extents_overlap_false s c ws wc (Some start_time));
      [by apply mutation_wf_intervals, Hs|by apply mutation_wf_intervals, Hc|done..|].
    intros t. eapply Hno; [done|done|done|congruence|done|lia].
Qed.

(** The check has no other error. *)
Lemma detect_mutation_conflicts_Err staged committed start_time e :
  detect_mutation_conflicts staged committed start_time = Err e → e = WriteConflict.
Proof.
  unfold detect_mutation_conflicts. induction staged as [|m staged IH]; cbn; [done|].
  destruct (write_from_mutation m (Some start_time)) as [w|]; [|apply IH].
  unfold detect_conflict at 1. destruct (existsb _ _); [by intros [= <-]|apply IH].
Qed.

(** C9. First committer wins: the conflict check of a transaction accepts its staged mutations
    exactly when no committed mutation of the same entity, with a transaction time after the
    transaction's start, writes a point of valid time that a staged mutation writes. *)
Theorem detect_mutation_conflicts_spec (staged committed : list LogicalMutation) (start_time : Z) :
  Forall mutation_wf staged → Forall mutation_wf committed →
  (detect_mutation_conflicts staged committed start_time = Ok tt ↔
   no_lost_update staged committed start_time).
Proof. apply detect_mutation_conflicts_Ok. Qed.

Definition example_vertex (t : Z) : LogicalMutation :=
  PutVertex (mkVertexVersion 7 1 (mkValidInterval 0 10) t []).

Lemma detect_mutation_conflicts_spec_witness :
  detect_mutation_conflicts [example_vertex 0] [example_vertex 9] 5 = Ok tt ↔
  no_lost_update [example_vertex 0] [example_vertex 9] 5.
Proof.
  apply (detect_mutation_conflicts_spec [example_vertex 0] [example_vertex 9] 5);
    repeat constructor; discriminate.
Defined.
