(* ===== verification/Snapshot.v ===== *)
(** * Snapshot tokens ([dtg-transaction/src/snapshot.rs])

    A token fixes, for every participating shard, the placement epoch, backend generation, applied
    index and closed time its reads and writes are fenced by. *)

From S2P Require Import Prelude Kernel Encoding Storage TxnError.
Open Scope Z_scope.

Record ShardSnapshotFence := mkShardSnapshotFence {
  sf_placement_epoch : PlacementEpoch;
  sf_backend_generation : BackendGeneration;
  sf_applied_index : Z;
  sf_closed_time : TransactionTime;
}.

#[export] Instance ShardSnapshotFence_eq_dec : EqDecision ShardSnapshotFence.
Proof. solve_decision. Defined.

Record SnapshotToken := mkSnapshotToken {
  st_transaction_id : TransactionId;
  st_start_time : TransactionTime;
  st_catalog_version : Version;
  st_shards : gmap ShardId ShardSnapshotFence;
}.

(** The insertion loop of [SnapshotToken::new]. *)
Fixpoint insert_fences (start_time : TransactionTime)
    (shard_fences : list (ShardId * ShardSnapshotFence))
    (shards : gmap ShardId ShardSnapshotFence)
    : result TxnError (gmap ShardId ShardSnapshotFence) :=
  match shard_fences with
  | [] => Ok shards
  | (shard_id, fence) :: rest =>
      if sf_closed_time fence <? start_time then Err InconsistentSnapshot
      else if bool_decide (is_Some (shards !! shard_id)) then Err DuplicateShardFence
      else insert_fences start_time rest (<[shard_id := fence]> shards)
  end.

Definition SnapshotToken_new (transaction_id : TransactionId) (start_time : TransactionTime)
    (catalog_version : Version) (shard_fences : list (ShardId * ShardSnapshotFence))
    : result TxnError SnapshotToken :=
  if (catalog_version =? 0) || bool_decide (shard_fences = []) then Err IncompleteSnapshot
  else
    shards ← insert_fences start_time shard_fences ∅;
    Ok (mkSnapshotToken transaction_id start_time catalog_version shards).

Definition validate_shard (self : SnapshotToken) (shard_id : ShardId)
    (placement_epoch : PlacementEpoch) (backend_generation : BackendGeneration)
    (available_applied_index : Z) : result TxnError unit :=
  fence ← ok_or IncompleteSnapshot (st_shards self !! shard_id);
  if negb (sf_placement_epoch fence =? placement_epoch) then Err StalePlacementEpoch
  else if negb (sf_backend_generation fence =? backend_generation) then Err StaleBackendGeneration
  else if available_applied_index <? sf_applied_index fence then Err AppliedIndexUnavailable
  else Ok tt.

Definition validate_read_time (self : SnapshotToken) (read_time : TransactionTime)
    : result TxnError unit :=
  if negb (read_time =? st_start_time self) then Err InconsistentSnapshot
  else if existsb (λ fence, sf_closed_time fence <? read_time) (values (st_shards self))
  then Err ReadTimeExceedsClosedTime
  else Ok tt.

(** ** Invariant of a constructed token *)

Definition snapshot_wf (s : SnapshotToken) : Prop :=
  st_catalog_version s ≠ 0 ∧ st_shards s ≠ ∅ ∧
  ∀ k f, st_shards s !! k = Some f → st_start_time s ≤ sf_closed_time f.

(** ** Proofs *)

(** The loop accepts exactly the fresh, pairwise distinct shards closed through the start. *)
Lemma insert_fences_Ok t l m m' :
  insert_fences t l m = Ok m' ↔
  Forall (λ p, t ≤ sf_closed_time p.2) l ∧ NoDup l.*1 ∧ Forall (λ p, m !! p.1 = None) l ∧
  m' = list_to_map l ∪ m.
Proof.
  revert m. induction l as [|[k f] l IH]; intros m; cbn.
  { rewrite map_empty_union, !Forall_nil, NoDup_nil. naive_solver. }
  rewrite !Forall_cons, NoDup_cons. cbn. case_match; to_prop; [by naive_solver lia|].
  case_bool_decide as Hk; [split; [done|]|].
  { intros (_ & _ & [Hn _] & _). rewrite Hn in Hk. by destruct Hk. }
  apply eq_None_not_Some in Hk. rewrite IH.
  assert (k ∉ l.*1 → list_to_map l ∪ <[k:=f]> m = <[k:=f]> (list_to_map l) ∪ m) as Hunion.
  { intros Hni. rewrite <-insert_union_l, insert_union_r; [done|].
    by apply not_elem_of_list_to_map_1. }
  split.
  - intros (Hc & Hnd & Hm & ->).
    assert (k ∉ l.*1) as Hni.
    { intros ([k' f'] & Heq & Hin)%list_elem_of_fmap. cbn in Heq. subst k'.
      rewrite Forall_forall in Hm. specialize (Hm _ Hin). cbn in Hm. by rewrite lookup_insert_eq in Hm. }
    rewrite Hunion by done. repeat split; try done.
    eapply Forall_impl; [exact Hm|]. cbn. intros [k' f'] Hl. cbn in *.
    destruct (decide (k = k')) as [->|]; [done|]. by rewrite lookup_insert_ne in Hl.
  - intros ([_ Hc] & [Hni Hnd] & [_ Hm] & ->). rewrite Hunion by done. repeat split; try done.
    rewrite Forall_forall in *. intros [k' f'] Hin. cbn. rewrite lookup_insert_ne.
    + by apply (Hm (k', f')).
    + intros <-. apply Hni. by apply (list_elem_of_fmap_2 fst _ _ Hin).
Qed.

Lemma SnapshotToken_new_Ok (txn start_time version : Z)
    (fences : list (ShardId * ShardSnapshotFence)) (token : SnapshotToken) :
  SnapshotToken_new txn start_time version fences = Ok token ↔
  version ≠ 0 ∧ fences ≠ [] ∧ NoDup fences.*1 ∧
  Forall (λ p, start_time ≤ sf_closed_time p.2) fences ∧
  token = mkSnapshotToken txn start_time version (list_to_map fences).
Proof.
  unfold SnapshotToken_new. case_match eqn:Hg.
  { split; [done|]. intros (? & ? & _). by rewrite (proj2 (Z.eqb_neq _ _)), bool_decide_eq_false_2 in Hg. }
  to_prop. rewrite bind_Ok. setoid_rewrite insert_fences_Ok. rewrite (right_id_L ∅ (∪)).
  split.
  - intros (m & (? & ? & _ & ->) & [= <-]). done.
  - intros (_ & _ & ? & ? & ->). eexists. split; [|done].
    repeat split; try done. by apply Forall_forall.
Qed.

Lemma SnapshotToken_new_wf txn t v l token :
  SnapshotToken_new txn t v l = Ok token → snapshot_wf token ∧ st_transaction_id token = txn ∧
  st_start_time token = t.
Proof.
  intros (Hv & Hl & Hnd & Hc & ->)%SnapshotToken_new_Ok. split; [|done].
  split; [done|]. split; cbn.
  - intros Hem. destruct l as [|[k f] l]; [done|]. cbn in Hem. by apply insert_non_empty in Hem.
  - intros k f Hk%elem_of_list_to_map_2. rewrite Forall_forall in Hc. by apply (Hc (k, f)).
Qed.

Lemma validate_read_time_wf s :
  snapshot_wf s → validate_read_time s (st_start_time s) = Ok tt.
Proof.
  intros (_ & _ & Hc). unfold validate_read_time. rewrite Z.eqb_refl. cbn.
  case_match eqn:Hex; [|done]. apply existsb_exists in Hex as (f & Hf%list_elem_of_In & Hlt).
  apply elem_of_values in Hf as [k Hk]. apply Hc in Hk. to_prop. lia.
Qed.

(** A snapshot token can be built exactly from a nonzero catalog version and a nonempty list
    of pairwise distinct shards whose closed times reach the start time; it then holds exactly
    those fences, and every other input is refused. *)
Theorem SnapshotToken_new_spec (txn start_time version : Z)
    (fences : list (ShardId * ShardSnapshotFence)) (token : SnapshotToken) :
  SnapshotToken_new txn start_time version fences = Ok token ↔
  version ≠ 0 ∧ fences ≠ [] ∧ NoDup fences.*1 ∧
  Forall (λ p, start_time ≤ sf_closed_time p.2) fences ∧
  token = mkSnapshotToken txn start_time version (list_to_map fences).
Proof. apply SnapshotToken_new_Ok. Qed.

(** A token accepts a read exactly at its own start time: there the closed-time check cannot
    fail, and every other read time is an inconsistent snapshot. *)
Theorem snapshot_read_time_exact (txn start_time version read_time : Z)
    (fences : list (ShardId * ShardSnapshotFence)) (token : SnapshotToken) :
  SnapshotToken_new txn start_time version fences = Ok token →
  validate_read_time token read_time =
    if read_time =? start_time then Ok tt else Err InconsistentSnapshot.
Proof.
  intros (Hwf & _ & <-)%SnapshotToken_new_wf. destruct (Z.eqb_spec read_time (st_start_time token)) as [->|Hne].
  - by apply validate_read_time_wf.
  - unfold validate_read_time. by rewrite (proj2 (Z.eqb_neq _ _)).
Qed.

Lemma snapshot_read_time_exact_witness :
  validate_read_time
    (mkSnapshotToken 9 5 1 {[2 := mkShardSnapshotFence 1 1 4 6]}) 4 = Err InconsistentSnapshot.
Proof.
  apply (snapshot_read_time_exact 9 5 1 4 [(2, mkShardSnapshotFence 1 1 4 6)]). reflexivity.
Defined.
