(* ===== verification/Overlay.v ===== *)
(** * Base snapshots and staged mutations ([dtg-transaction/src/overlay.rs])

    A transaction stages its mutations in an overlay over the histories its snapshot read.  Reads go
    through the overlay; [validate] merges the two and checks that histories stay free of duplicate
    versions and of valid-time overlaps and that every edge's endpoints exist over its lifetime. *)

From S2P Require Import Prelude Kernel Encoding Storage TxnError Conflict.
Open Scope Z_scope.

Definition MAX_STAGED_MUTATIONS : Z := 4096.

Record BaseGraphSnapshot := mkBaseGraphSnapshot {
  bg_vertices : gmap VertexId (list VertexVersion);
  bg_edges : gmap EdgeId (list EdgeVersion);
}.
Definition BaseGraphSnapshot_default : BaseGraphSnapshot := mkBaseGraphSnapshot ∅ ∅.

Record TransactionOverlay := mkTransactionOverlay { ov_mutations : list LogicalMutation }.
Definition TransactionOverlay_new : TransactionOverlay := mkTransactionOverlay [].

(** [map.entry(id).or_default().push(x)]. *)
Definition push_entry {V} (id : Z) (x : V) (m : gmap Z (list V)) : gmap Z (list V) :=
  <[id := default [] (m !! id) ++ [x]]> m.

(** Lexicographic order of the sort keys [(start, end, version)] and [(start, end)]. *)
Definition key3_leb (a b : Z * Z * Z) : bool :=
  let '(a1, a2, a3) := a in let '(b1, b2, b3) := b in
  (a1 <? b1) || ((a1 =? b1) && ((a2 <? b2) || ((a2 =? b2) && (a3 <=? b3)))).
Definition interval_leb (i j : ValidInterval) : bool :=
  (start i <? start j) || ((start i =? start j) && (end_ i <=? end_ j)).

Definition vertex_key (v : VertexVersion) : Z * Z * Z :=
  (start (v_valid_time v), end_ (v_valid_time v), v_version v).
Definition edge_key (e : EdgeVersion) : Z * Z * Z :=
  (start (e_valid_time e), end_ (e_valid_time e), e_version e).

Definition sort_vertex_history (history : list VertexVersion) : list VertexVersion :=
  sort_by (λ v w, key3_leb (vertex_key v) (vertex_key w)) history.
Definition sort_edge_history (history : list EdgeVersion) : list EdgeVersion :=
  sort_by (λ v w, key3_leb (edge_key v) (edge_key w)) history.

Definition validate_vertex_history (versions : list VertexVersion) : result TxnError unit :=
  if any_pair (λ l r, (v_version l =? v_version r) || overlaps (v_valid_time l) (v_valid_time r))
       versions
  then Err DuplicateIdentity
  else Ok tt.

(** The endpoints and type of two versions of an edge differ. *)
Definition edge_differs (e first : EdgeVersion) : bool :=
  negb (e_source e =? e_source first) || negb (e_target e =? e_target first)
  || negb (bool_decide (e_edge_type e = e_edge_type first)).

Definition validate_edge_history (versions : list EdgeVersion) : result TxnFault unit :=
  first ← index_or_panic (versions !! 0%nat);
  if existsb (λ e, edge_differs e first) versions
     || any_pair (λ l r, (e_version l =? e_version r) || overlaps (e_valid_time l) (e_valid_time r))
          versions
  then Err (Fault DuplicateIdentity)
  else Ok tt.

Definition BaseGraphSnapshot_new (vertices : list VertexVersion) (edges : list EdgeVersion)
    : result TxnFault BaseGraphSnapshot :=
  let vs := foldl (λ m v, push_entry (v_id v) v m) ∅ vertices in
  let es := foldl (λ m e, push_entry (e_id e) e m) ∅ edges in
  let vs := sort_vertex_history <$> vs in
  let es := sort_edge_history <$> es in
  _ ← no_panic (try_for_each validate_vertex_history (values vs));
  _ ← try_for_each validate_edge_history (values es);
  Ok (mkBaseGraphSnapshot vs es).

(** [history_covers]: the versions, in valid-time order, cover [required] without a gap. *)
Fixpoint covers_from (intervals : list ValidInterval) (required : ValidInterval)
    (covered_through : Z) : bool :=
  match intervals with
  | [] => false
  | interval :: rest =>
      if (end_ interval <=? covered_through) || (end_ required <=? start interval)
      then covers_from rest required covered_through
      else if covered_through <? start interval then false
      else
        let covered_through := Z.max covered_through (end_ interval) in
        if end_ required <=? covered_through then true
        else covers_from rest required covered_through
  end.

Definition history_covers (versions : list VertexVersion) (required : ValidInterval) : bool :=
  covers_from (sort_by interval_leb (map v_valid_time versions)) required (start required).

Definition overlapping_vertex_versions (versions : list VertexVersion) : bool :=
  any_pair (λ l r, overlaps (v_valid_time l) (v_valid_time r)) versions.
Definition overlapping_edge_versions (versions : list EdgeVersion) : bool :=
  any_pair (λ l r, overlaps (e_valid_time l) (e_valid_time r)) versions.

(** ** The overlay's operations *)

Definition is_transaction_or_metadata (m : LogicalMutation) : bool :=
  match m with PutTransaction _ | PutReplicaMetadata _ => true | _ => false end.

Definition stage (self : TransactionOverlay) (mutation : LogicalMutation)
    : result TxnError TransactionOverlay :=
  if Z.of_nat (length (ov_mutations self)) =? MAX_STAGED_MUTATIONS then Err ResourceLimit
  else if is_transaction_or_metadata mutation then Err TxnInvalidMutation
  else Ok (mkTransactionOverlay (ov_mutations self ++ [mutation])).

Definition vertex_at (id : VertexId) (valid_at : Z) (v : VertexVersion) : bool :=
  (v_id v =? id) && (start (v_valid_time v) <=? valid_at) && (valid_at <? end_ (v_valid_time v)).
Definition edge_at (id : EdgeId) (valid_at : Z) (e : EdgeVersion) : bool :=
  (e_id e =? id) && (start (e_valid_time e) <=? valid_at) && (valid_at <? end_ (e_valid_time e)).

Definition get_vertex (self : TransactionOverlay) (base : list VertexVersion) (id : VertexId)
    (valid_at : Z) : option VertexVersion :=
  if existsb (λ m, match m with DeleteVertex t => vt_id t =? id | _ => false end)
       (ov_mutations self)
  then None
  else
    match max_by_key v_version
            (omap (λ m, match m with
                        | PutVertex v => if vertex_at id valid_at v then Some v else None
                        | _ => None
                        end) (ov_mutations self)) with
    | Some v => Some v
    | None => max_by_key v_version (List.filter (vertex_at id valid_at) base)
    end.

Definition get_edge (self : TransactionOverlay) (base : list EdgeVersion) (id : EdgeId)
    (valid_at : Z) : option EdgeVersion :=
  if existsb (λ m, match m with DeleteEdge t => et_id t =? id | _ => false end)
       (ov_mutations self)
  then None
  else
    match max_by_key e_version
            (omap (λ m, match m with
                        | PutEdge e => if edge_at id valid_at e then Some e else None
                        | _ => None
                        end) (ov_mutations self)) with
    | Some e => Some e
    | None => max_by_key e_version (List.filter (edge_at id valid_at) base)
    end.

(** The [puts] and [deletes] collected by the two identity checks. *)
Definition vertex_puts (ms : list LogicalMutation) : gmap VertexId (list VertexVersion) :=
  foldl (λ m x, match x with PutVertex v => push_entry (v_id v) v m | _ => m end) ∅ ms.
Definition vertex_deletes (ms : list LogicalMutation) : gset VertexId :=
  foldl (λ s x, match x with DeleteVertex t => {[vt_id t]} ∪ s | _ => s end) ∅ ms.
Definition edge_puts (ms : list LogicalMutation) : gmap EdgeId (list EdgeVersion) :=
  foldl (λ m x, match x with PutEdge e => push_entry (e_id e) e m | _ => m end) ∅ ms.
Definition edge_deletes (ms : list LogicalMutation) : gset EdgeId :=
  foldl (λ s x, match x with DeleteEdge t => {[et_id t]} ∪ s | _ => s end) ∅ ms.

Definition validate_vertex_identity (self : TransactionOverlay) (base : BaseGraphSnapshot)
    : result TxnError unit :=
  let puts := vertex_puts (ov_mutations self) in
  let deletes := vertex_deletes (ov_mutations self) in
  try_for_each (λ '(id, versions),
    if bool_decide (id ∈ deletes)
       || overlapping_vertex_versions versions
       || match bg_vertices base !! id with
          | Some existing =>
              existsb (λ staged, existsb (λ b, v_version staged =? v_version b) existing) versions
          | None => false
          end
    then Err DuplicateIdentity
    else Ok tt) (entries puts).

Definition validate_edge_identity (self : TransactionOverlay) (base : BaseGraphSnapshot)
    : result TxnFault unit :=
  let puts := edge_puts (ov_mutations self) in
  let deletes := edge_deletes (ov_mutations self) in
  try_for_each (λ '(id, versions),
    first ← index_or_panic (versions !! 0%nat);
    if bool_decide (id ∈ deletes)
       || existsb (λ e, edge_differs e first) (drop 1 versions)
       || overlapping_edge_versions versions
       || match bg_edges base !! id with
          | Some existing =>
              existsb (λ b, edge_differs b first
                            || existsb (λ staged, e_version staged =? e_version b) versions) existing
          | None => false
          end
    then Err (Fault DuplicateIdentity)
    else Ok tt) (entries puts).

(** The merge loop of [validate]: the base histories with the staged mutations applied in order. *)
Definition merge_mutation (mutation : LogicalMutation)
    (g : gmap VertexId (list VertexVersion) * gmap EdgeId (list EdgeVersion))
    : result TxnError (gmap VertexId (list VertexVersion) * gmap EdgeId (list EdgeVersion)) :=
  let '(vertices, edges) := g in
  match mutation with
  | PutVertex v => Ok (push_entry (v_id v) v vertices, edges)
  | DeleteVertex t => Ok (delete (vt_id t) vertices, edges)
  | PutEdge e => Ok (vertices, push_entry (e_id e) e edges)
  | DeleteEdge t => Ok (vertices, delete (et_id t) edges)
  | PutTransaction _ | PutReplicaMetadata _ => Err TxnInvalidMutation
  end.

Fixpoint merge_mutations (ms : list LogicalMutation)
    (g : gmap VertexId (list VertexVersion) * gmap EdgeId (list EdgeVersion))
    : result TxnError (gmap VertexId (list VertexVersion) * gmap EdgeId (list EdgeVersion)) :=
  match ms with
  | [] => Ok g
  | m :: ms => g ← merge_mutation m g; merge_mutations ms g
  end.

(** The endpoint check of one edge version. *)
Definition check_endpoints (vertices : gmap VertexId (list VertexVersion)) (edge : EdgeVersion)
    : result TxnError unit :=
  source ← ok_or ReferentialIntegrity (vertices !! e_source edge);
  target ← ok_or ReferentialIntegrity (vertices !! e_target edge);
  if negb (history_covers source (e_valid_time edge))
     || negb (history_covers target (e_valid_time edge))
  then Err ReferentialIntegrity
  else Ok tt.

Definition validate (self : TransactionOverlay) (base : BaseGraphSnapshot)
    : result TxnFault unit :=
  _ ← no_panic (validate_vertex_identity self base);
  _ ← validate_edge_identity self base;
  '(vertices, edges) ← no_panic (merge_mutations (ov_mutations self) (bg_vertices base, bg_edges base));
  let vertices := sort_vertex_history <$> vertices in
  _ ← no_panic (try_for_each validate_vertex_history (values vertices));
  let edges := sort_edge_history <$> edges in
  _ ← try_for_each validate_edge_history (values edges);
  no_panic (try_for_each (try_for_each (check_endpoints vertices)) (values edges)).

(** ** Specification *)

Definition put_vertex (m : LogicalMutation) : option VertexVersion :=
  match m with PutVertex v => Some v | _ => None end.
Definition del_vertex (m : LogicalMutation) : option VertexId :=
  match m with DeleteVertex t => Some (vt_id t) | _ => None end.
Definition put_edge (m : LogicalMutation) : option EdgeVersion :=
  match m with PutEdge e => Some e | _ => None end.
Definition del_edge (m : LogicalMutation) : option EdgeId :=
  match m with DeleteEdge t => Some (et_id t) | _ => None end.

(** Histories under puts and deletes, for either kind of entity. *)
Definition merge_step {V} (idf : V → Z) (put : LogicalMutation → option V)
    (del : LogicalMutation → option Z) (m : gmap Z (list V)) (x : LogicalMutation)
    : gmap Z (list V) :=
  match put x with
  | Some v => push_entry (idf v) v m
  | None => match del x with Some k => delete k m | None => m end
  end.
Definition merge_all {V} (idf : V → Z) (put : LogicalMutation → option V)
    (del : LogicalMutation → option Z) (ms : list LogicalMutation) (m : gmap Z (list V))
    : gmap Z (list V) := foldl (merge_step idf put del) m ms.

(** The staged versions of entity [k]. *)
Definition staged_of {V} (idf : V → Z) (put : LogicalMutation → option V) (k : Z)
    (ms : list LogicalMutation) : list V := List.filter (λ v, idf v =? k) (omap put ms).

(** The histories of a base snapshot: nonempty, each under its own identity. *)
Definition histories_wf {V} (idf : V → Z) (m : gmap Z (list V)) : Prop :=
  ∀ k h, m !! k = Some h → h ≠ [] ∧ Forall (λ v, idf v = k) h.
Definition base_wf (base : BaseGraphSnapshot) : Prop :=
  histories_wf v_id (bg_vertices base) ∧ histories_wf e_id (bg_edges base).

(** What [validate] promises of the merged graph. *)
Record graph_wf (vs : gmap VertexId (list VertexVersion)) (es : gmap EdgeId (list EdgeVersion))
    : Prop := {
  gw_vertex_history : ∀ k h, vs !! k = Some h →
    any_pair (λ l r, (v_version l =? v_version r) || overlaps (v_valid_time l) (v_valid_time r)) h
    = false;
  gw_edge_history : ∀ k h, es !! k = Some h →
    any_pair (λ l r, (e_version l =? e_version r) || overlaps (e_valid_time l) (e_valid_time r)) h
    = false;
  gw_edge_identity : ∀ k h e f, es !! k = Some h → e ∈ h → f ∈ h → edge_differs e f = false;
  gw_endpoints : ∀ k h e t, es !! k = Some h → e ∈ h → covers_point (e_valid_time e) t = true →
    (∃ v, v ∈ default [] (vs !! e_source e) ∧ covers_point (v_valid_time v) t = true) ∧
    (∃ v, v ∈ default [] (vs !! e_target e) ∧ covers_point (v_valid_time v) t = true);
}.

(** ** [history_covers] decides coverage *)

Lemma covers_point_true i t : covers_point i t = true ↔ start i ≤ t < end_ i.
Proof. unfold covers_point. rewrite andb_true_iff, Z.leb_le, Z.ltb_lt. lia. Qed.

Lemma covers_from_spec l r c :
  StronglySorted (λ i j, start i ≤ start j) l → c < end_ r →
  covers_from l r c = true ↔
  ∀ t, c ≤ t < end_ r → ∃ i, i ∈ l ∧ covers_point i t = true.
Proof.
  intros Hl. revert c. induction Hl as [|i l Hl IH Hi]; intros c Hc; cbn.
  { split; [done|]. intros H. destruct (H c) as (? & ?%elem_of_nil & _); [lia|done]. }
  setoid_rewrite covers_point_true in IH. setoid_rewrite covers_point_true.
  assert (∀ t, (∃ j, j ∈ i :: l ∧ start j ≤ t < end_ j) ↔
               start i ≤ t < end_ i ∨ ∃ j, j ∈ l ∧ start j ≤ t < end_ j) as Hsplit.
  { intros t. setoid_rewrite elem_of_cons. naive_solver. }
  setoid_rewrite Hsplit. clear Hsplit.
  destruct ((end_ i <=? c) || (end_ r <=? start i)) eqn:Hskip.
  { rewrite IH by done. apply orb_true_iff in Hskip.
    split; intros H t Ht; specialize (H t Ht); [by right|].
    destruct H as [H|H]; [|done]. destruct Hskip; to_prop; lia. }
  to_prop. destruct (Z.ltb_spec c (start i)).
  { split; [done|]. intros H'. destruct (H' c) as [?|(j & Hj & ?)]; [lia|lia|].
    rewrite Forall_forall in Hi. specialize (Hi j Hj). lia. }
  destruct (Z.leb_spec (end_ r) (Z.max c (end_ i))).
  { split; [|done]. intros _ t Ht. left. lia. }
  rewrite IH by lia. split; intros H' t Ht.
  - destruct (decide (t < end_ i)); [left; lia|right]. apply H'. lia.
  - destruct (H' t) as [?|?]; [lia|lia|done].
Qed.

Lemma interval_leb_total i j : interval_leb i j = true ∨ interval_leb j i = true.
Proof.
  unfold interval_leb. rewrite !orb_true_iff, !andb_true_iff, !Z.ltb_lt, !Z.eqb_eq, !Z.leb_le. lia.
Qed.
Lemma interval_leb_trans i j k :
  interval_leb i j = true → interval_leb j k = true → interval_leb i k = true.
Proof.
  unfold interval_leb. rewrite !orb_true_iff, !andb_true_iff, !Z.ltb_lt, !Z.eqb_eq, !Z.leb_le. lia.
Qed.

Lemma history_covers_points versions r :
  start r < end_ r →
  history_covers versions r = true ↔
  ∀ t, covers_point r t = true → ∃ v, v ∈ versions ∧ covers_point (v_valid_time v) t = true.
Proof.
  intros Hr. unfold history_covers. rewrite covers_from_spec; [| |done].
  - setoid_rewrite covers_point_true at 2. split; intros H t Ht; specialize (H t Ht).
    + destruct H as (i & Hi & Hc). rewrite sort_by_perm in Hi.
      apply list_elem_of_In, in_map_iff in Hi as (v & <- & ?%list_elem_of_In). eauto.
    + destruct H as (v & Hv & Hc). exists (v_valid_time v). split; [|done].
      rewrite sort_by_perm. apply list_elem_of_In, in_map_iff. exists v.
      by rewrite <-list_elem_of_In.
  - eapply StronglySorted_impl; [|apply sort_by_sorted;
      [apply interval_leb_total|apply interval_leb_trans]].
    intros i j. unfold interval_leb.
    rewrite orb_true_iff, andb_true_iff, Z.ltb_lt, Z.eqb_eq. lia.
Qed.

(** ** Merged histories *)

Section merge_lemmas.
Context {V : Type} (idf : V → Z).
Context (put : LogicalMutation → option V) (del : LogicalMutation → option Z).

Lemma lookup_push_entry (k j : Z) (x : V) (m : gmap Z (list V)) :
  push_entry k x m !! j = if decide (k = j) then Some (default [] (m !! j) ++ [x]) else m !! j.
Proof. unfold push_entry. rewrite lookup_insert. case_decide; by subst. Qed.

Lemma staged_of_cons k x ms :
  staged_of idf put k (x :: ms) =
  match put x with
  | Some v => if idf v =? k then v :: staged_of idf put k ms else staged_of idf put k ms
  | None => staged_of idf put k ms
  end.
Proof. unfold staged_of. cbn. destruct (put x); [|done]. cbn. by case_match. Qed.

Lemma merge_all_cons x ms m :
  merge_all idf put del (x :: ms) m = merge_all idf put del ms (merge_step idf put del m x).
Proof. done. Qed.

(** Without a delete of [k], its merged history is the base history and the staged versions. *)
Lemma merge_all_lookup ms m k :
  Forall (λ x, del x ≠ Some k) ms →
  default [] (merge_all idf put del ms m !! k) = default [] (m !! k) ++ staged_of idf put k ms.
Proof.
  revert m. induction ms as [|x ms IH]; intros m Hms; [by rewrite app_nil_r|].
  apply Forall_cons_1 in Hms as [Hx Hms]. rewrite merge_all_cons, IH, staged_of_cons by done.
  unfold merge_step. destruct (put x) as [v|].
  - rewrite lookup_push_entry. destruct (Z.eqb_spec (idf v) k), (decide (idf v = k)); try done.
    cbn. by rewrite <-app_assoc.
  - destruct (del x) as [j|]; [|done]. rewrite lookup_delete_ne by congruence. done.
Qed.

(** A delete of [k] with no staged version of [k] leaves no history. *)
Lemma merge_all_deleted ms m k :
  Exists (λ x, del x = Some k) ms → staged_of idf put k ms = [] →
  Forall (λ x, put x = None ∨ del x = None) ms →
  merge_all idf put del ms m !! k = None.
Proof.
  assert (∀ ms m, m !! k = None → staged_of idf put k ms = [] →
    merge_all idf put del ms m !! k = None) as Hnone.
  { clear. intros ms. induction ms as [|x ms IH]; intros m Hm Hs; [done|].
    rewrite staged_of_cons in Hs. rewrite merge_all_cons. unfold merge_step.
    destruct (put x) as [v|].
    - destruct (Z.eqb_spec (idf v) k); [done|]. apply IH; [|done].
      rewrite lookup_push_entry. by case_decide.
    - apply IH; [|done]. destruct (del x) as [j|]; [|done].
      rewrite lookup_delete. by case_decide. }
  revert m. induction ms as [|x ms IH]; intros m Hex Hs Hd; [by apply Exists_nil in Hex|].
  rewrite staged_of_cons in Hs. apply Forall_cons_1 in Hd as [Hd1 Hd].
  assert (staged_of idf put k ms = []) as Hs'.
  { destruct (put x); [|done]. by case_match. }
  apply Exists_cons in Hex as [Hx|Hex]; rewrite merge_all_cons; [|by apply IH].
  apply Hnone; [|done]. unfold merge_step. destruct Hd1 as [->|?]; [|congruence].
  rewrite Hx. apply lookup_delete_eq.
Qed.

(** Histories stay nonempty and under their own identity. *)
Lemma merge_all_wf ms m : histories_wf idf m → histories_wf idf (merge_all idf put del ms m).
Proof.
  revert m. induction ms as [|x ms IH]; intros m Hm; [done|]. rewrite merge_all_cons.
  apply IH. unfold merge_step. destruct (put x) as [v|].
  - intros k h. rewrite lookup_push_entry. case_decide as Hk; [|by apply Hm].
    intros [= <-]. split; [by destruct (default [] _)|]. apply Forall_app. split; [|by constructor].
    subst k. destruct (m !! idf v) as [h|] eqn:Hh; [by apply Hm in Hh as [_ ?]|constructor].
  - destruct (del x) as [j|]; [|done]. intros k h [_ ?]%lookup_delete_Some. by apply Hm.
Qed.

Lemma staged_of_elem ms k v : v ∈ staged_of idf put k ms ↔ (∃ x, x ∈ ms ∧ put x = Some v) ∧ idf v = k.
Proof.
  unfold staged_of. rewrite list_elem_of_In, filter_In, <-list_elem_of_In, list_elem_of_omap, Z.eqb_eq.
  done.
Qed.
End merge_lemmas.

Lemma merge_mutations_Ok ms vs es vs' es' :
  merge_mutations ms (vs, es) = Ok (vs', es') ↔
  Forall (λ m, is_transaction_or_metadata m = false) ms ∧
  vs' = merge_all v_id put_vertex del_vertex ms vs ∧
  es' = merge_all e_id put_edge del_edge ms es.
Proof.
  revert vs es. induction ms as [|m ms IH]; intros vs es; cbn.
  { rewrite Forall_nil. naive_solver. }
  rewrite Forall_cons. unfold merge_all. cbn. destruct m; cbn; rewrite ?IH; unfold merge_all; cbn;
    naive_solver.
Qed.

Lemma vertex_puts_merge ms : vertex_puts ms = merge_all v_id put_vertex (λ _, None) ms ∅.
Proof.
  unfold vertex_puts, merge_all. generalize (∅ : gmap Z (list VertexVersion)).
  induction ms as [|[] ms IH]; intros m; cbn; by rewrite ?IH.
Qed.
Lemma edge_puts_merge ms : edge_puts ms = merge_all e_id put_edge (λ _, None) ms ∅.
Proof.
  unfold edge_puts, merge_all. generalize (∅ : gmap Z (list EdgeVersion)).
  induction ms as [|[] ms IH]; intros m; cbn; by rewrite ?IH.
Qed.
Lemma elem_of_vertex_deletes ms k :
  k ∈ vertex_deletes ms ↔ Exists (λ x, del_vertex x = Some k) ms.
Proof.
  unfold vertex_deletes. enough (∀ s, k ∈ foldl (λ s x, match x with
    | DeleteVertex t => {[vt_id t]} ∪ s | _ => s end) s ms ↔ k ∈ s ∨ Exists (λ x, del_vertex x = Some k) ms)
    as H by (rewrite H; set_solver).
  induction ms as [|[] ms IH]; intros s; cbn; rewrite ?Exists_nil, ?Exists_cons, ?IH; cbn; set_solver.
Qed.
Lemma elem_of_edge_deletes ms k :
  k ∈ edge_deletes ms ↔ Exists (λ x, del_edge x = Some k) ms.
Proof.
  unfold edge_deletes. enough (∀ s, k ∈ foldl (λ s x, match x with
    | DeleteEdge t => {[et_id t]} ∪ s | _ => s end) s ms ↔ k ∈ s ∨ Exists (λ x, del_edge x = Some k) ms)
    as H by (rewrite H; set_solver).
  induction ms as [|[] ms IH]; intros s; cbn; rewrite ?Exists_nil, ?Exists_cons, ?IH; cbn; set_solver.
Qed.

(** ** What the checks establish *)

Lemma no_panic_Ok {A} (m : result TxnError A) a : no_panic m = Ok a ↔ m = Ok a.
Proof. unfold no_panic. destruct m; cbn; naive_solver. Qed.

Lemma values_fmap_forall {A B} (f : A → B) (m : gmap Z A) (P : B → Prop) :
  Forall P (values (f <$> m)) ↔ ∀ k x, m !! k = Some x → P (f x).
Proof.
  rewrite Forall_forall. setoid_rewrite elem_of_values. setoid_rewrite lookup_fmap_Some. naive_solver.
Qed.

Lemma vertex_pair_sym l r :
  (v_version l =? v_version r) || overlaps (v_valid_time l) (v_valid_time r) =
  (v_version r =? v_version l) || overlaps (v_valid_time r) (v_valid_time l).
Proof. by rewrite Z.eqb_sym, overlaps_sym. Qed.
Lemma edge_pair_sym l r :
  (e_version l =? e_version r) || overlaps (e_valid_time l) (e_valid_time r) =
  (e_version r =? e_version l) || overlaps (e_valid_time r) (e_valid_time l).
Proof. by rewrite Z.eqb_sym, overlaps_sym. Qed.

Lemma edge_differs_false e f :
  edge_differs e f = false ↔
  e_source e = e_source f ∧ e_target e = e_target f ∧ e_edge_type e = e_edge_type f.
Proof.
  unfold edge_differs. rewrite !orb_false_iff, !negb_false_iff, !Z.eqb_eq, bool_decide_eq_true. tauto.
Qed.

Lemma validate_vertex_history_Ok h :
  validate_vertex_history h = Ok tt ↔
  any_pair (λ l r, (v_version l =? v_version r) || overlaps (v_valid_time l) (v_valid_time r)) h
  = false.
Proof. unfold validate_vertex_history. by case_match. Qed.

Lemma validate_edge_history_Ok h :
  validate_edge_history h = Ok tt ↔
  h ≠ [] ∧ (∀ e f, e ∈ h → f ∈ h → edge_differs e f = false) ∧
  any_pair (λ l r, (e_version l =? e_version r) || overlaps (e_valid_time l) (e_valid_time r)) h
  = false.
Proof.
  unfold validate_edge_history. destruct h as [|first h]; [naive_solver|]. cbn -[any_pair existsb].
  case_match eqn:Hc.
  - split; [done|]. intros (_ & Hd & Hp). rewrite Hp, orb_false_r in Hc.
    apply existsb_exists in Hc as (e & He%list_elem_of_In & Hc). rewrite (Hd e first) in Hc; [done|done|left].
  - apply orb_false_iff in Hc as [Hd Hp]. split; [|done]. intros _. split; [done|]. split; [|done].
    apply existsb_false in Hd. rewrite Forall_forall in Hd. intros e f He Hf.
    apply edge_differs_false. pose proof (Hd e He) as ?%edge_differs_false.
    pose proof (Hd f Hf) as ?%edge_differs_false. naive_solver congruence.
Qed.

Lemma check_endpoints_Ok vs e t :
  check_endpoints vs e = Ok tt → covers_point (e_valid_time e) t = true →
  (∃ v, v ∈ default [] (vs !! e_source e) ∧ covers_point (v_valid_time v) t = true) ∧
  (∃ v, v ∈ default [] (vs !! e_target e) ∧ covers_point (v_valid_time v) t = true).
Proof.
  unfold check_endpoints. intros (src & Hs & Hok)%bind_Ok Ht.
  apply bind_Ok in Hok as (tgt & Htg & Hok). case_match eqn:Hc; [done|]. to_prop.
  assert (start (e_valid_time e) < end_ (e_valid_time e)) as Hlt.
  { apply covers_point_true in Ht. lia. }
  destruct (vs !! e_source e), (vs !! e_target e); cbn in *; simplify_eq.
  split; by eapply history_covers_points.
Qed.

Lemma sorted_histories_lookup {V} (sort : list V → list V) (vs : gmap Z (list V)) k v :
  (∀ l, sort l ≡ₚ l) → v ∈ default [] ((sort <$> vs) !! k) ↔ v ∈ default [] (vs !! k).
Proof. intros Hs. rewrite lookup_fmap. destruct (vs !! k); cbn; [by rewrite Hs|done]. Qed.

Lemma sort_vertex_history_perm h : sort_vertex_history h ≡ₚ h.
Proof. apply sort_by_perm. Qed.
Lemma sort_edge_history_perm h : sort_edge_history h ≡ₚ h.
Proof. apply sort_by_perm. Qed.

(** The identity check: an identity that is put is not also deleted. *)
Lemma validate_vertex_identity_Ok self base k :
  validate_vertex_identity self base = Ok tt →
  staged_of v_id put_vertex k (ov_mutations self) ≠ [] →
  Forall (λ x, del_vertex x ≠ Some k) (ov_mutations self).
Proof.
  unfold validate_vertex_identity. rewrite try_for_each_Ok, Forall_forall. intros Hok Hs.
  destruct (vertex_puts (ov_mutations self) !! k) as [h|] eqn:Hh.
  - apply elem_of_entries in Hh. specialize (Hok _ Hh). cbn in Hok. guard_in Hok as Hc. to_prop. rewrite elem_of_vertex_deletes in *. by apply not_Exists_Forall; [intros ?; apply _|].
  - exfalso. apply Hs. rewrite vertex_puts_merge in Hh.
    pose proof (merge_all_lookup v_id put_vertex (λ _, None) (ov_mutations self) ∅ k) as Hm.
    rewrite Hh in Hm. symmetry. apply Hm. by apply Forall_forall.
Qed.

Lemma validate_edge_identity_Ok self base k :
  validate_edge_identity self base = Ok tt →
  staged_of e_id put_edge k (ov_mutations self) ≠ [] →
  Forall (λ x, del_edge x ≠ Some k) (ov_mutations self).
Proof.
  unfold validate_edge_identity. rewrite try_for_each_Ok, Forall_forall. intros Hok Hs.
  destruct (edge_puts (ov_mutations self) !! k) as [h|] eqn:Hh.
  - apply elem_of_entries in Hh. specialize (Hok _ Hh). cbn in Hok.
    apply bind_Ok in Hok as (first & _ & Hok). guard_in Hok as Hc. to_prop. rewrite elem_of_edge_deletes in *. by apply not_Exists_Forall; [intros ?; apply _|].
  - exfalso. apply Hs. rewrite edge_puts_merge in Hh.
    pose proof (merge_all_lookup e_id put_edge (λ _, None) (ov_mutations self) ∅ k) as Hm.
    rewrite Hh in Hm. symmetry. apply Hm. by apply Forall_forall.
Qed.

(** ** [validate] *)

Lemma vertex_histories_checked vs :
  try_for_each validate_vertex_history (values (sort_vertex_history <$> vs)) = Ok tt ↔
  ∀ k h, vs !! k = Some h →
    any_pair (λ l r, (v_version l =? v_version r) || overlaps (v_valid_time l) (v_valid_time r)) h
    = false.
Proof.
  rewrite try_for_each_Ok, values_fmap_forall. setoid_rewrite validate_vertex_history_Ok.
  split; intros H k h Hk; rewrite <-(H k h Hk); [symmetry|];
    apply any_pair_perm; auto using vertex_pair_sym, sort_vertex_history_perm.
Qed.

Lemma edge_histories_checked es :
  histories_wf e_id es →
  try_for_each validate_edge_history (values (sort_edge_history <$> es)) = Ok tt ↔
  ∀ k h, es !! k = Some h →
    (∀ e f, e ∈ h → f ∈ h → edge_differs e f = false) ∧
    any_pair (λ l r, (e_version l =? e_version r) || overlaps (e_valid_time l) (e_valid_time r)) h
    = false.
Proof.
  intros Hwf. rewrite try_for_each_Ok, values_fmap_forall. setoid_rewrite validate_edge_history_Ok.
  split; intros H k h Hk; specialize (H k h Hk).
  - destruct H as (_ & Hd & Hp). split.
    + intros e f. rewrite <-(sort_edge_history_perm h). apply Hd.
    + rewrite <-Hp. symmetry. apply any_pair_perm; auto using edge_pair_sym, sort_edge_history_perm.
  - destruct H as (Hd & Hp). repeat split.
    + intros Heq. apply Hwf in Hk as [Hne _]. apply Hne, Permutation_nil_r.
      by rewrite <-(sort_edge_history_perm h), Heq.
    + intros e f. rewrite (sort_edge_history_perm h). apply Hd.
    + rewrite <-Hp. apply any_pair_perm; auto using edge_pair_sym, sort_edge_history_perm.
Qed.

Lemma endpoints_checked vs es :
  try_for_each (try_for_each (check_endpoints (sort_vertex_history <$> vs)))
    (values (sort_edge_history <$> es)) = Ok tt ↔
  ∀ k h e, es !! k = Some h → e ∈ h → check_endpoints (sort_vertex_history <$> vs) e = Ok tt.
Proof.
  rewrite try_for_each_Ok, values_fmap_forall. setoid_rewrite try_for_each_Ok.
  setoid_rewrite Forall_forall. setoid_rewrite sort_edge_history_perm. naive_solver.
Qed.

Lemma check_endpoints_iff vs e :
  start (e_valid_time e) < end_ (e_valid_time e) →
  check_endpoints (sort_vertex_history <$> vs) e = Ok tt ↔
  ∀ t, covers_point (e_valid_time e) t = true →
    (∃ v, v ∈ default [] (vs !! e_source e) ∧ covers_point (v_valid_time v) t = true) ∧
    (∃ v, v ∈ default [] (vs !! e_target e) ∧ covers_point (v_valid_time v) t = true).
Proof.
  intros Hlt. split.
  - intros Hc t Ht. pose proof (check_endpoints_Ok _ _ _ Hc Ht) as [(v & Hv & ?) (w & Hw & ?)].
    rewrite sorted_histories_lookup in Hv, Hw by apply sort_vertex_history_perm.
    split; eauto.
  - intros H. assert (∀ id, (∀ t, covers_point (e_valid_time e) t = true →
        ∃ v, v ∈ default [] (vs !! id) ∧ covers_point (v_valid_time v) t = true) →
      ∃ h, (sort_vertex_history <$> vs) !! id = Some h ∧ history_covers h (e_valid_time e) = true)
      as Hid.
    { intros id Hcov. rewrite lookup_fmap. destruct (vs !! id) as [h|]; cbn in *.
      - eexists. split; [done|]. apply history_covers_points; [done|].
        setoid_rewrite sort_vertex_history_perm. done.
      - destruct (Hcov (start (e_valid_time e))) as (? & ?%elem_of_nil & _); [|done].
        apply covers_point_true. lia. }
    destruct (Hid (e_source e)) as (hs & Hs & Hsc); [naive_solver|].
    destruct (Hid (e_target e)) as (ht & Ht & Htc); [naive_solver|].
    unfold check_endpoints. by rewrite Hs, Ht; cbn; rewrite Hsc, Htc.
Qed.

(** Every edge of the base and of the overlay has a nonempty valid interval. *)
Definition edges_nonempty (self : TransactionOverlay) (base : BaseGraphSnapshot) : Prop :=
  (∀ k h e, bg_edges base !! k = Some h → e ∈ h → start (e_valid_time e) < end_ (e_valid_time e)) ∧
  (∀ e, PutEdge e ∈ ov_mutations self → start (e_valid_time e) < end_ (e_valid_time e)).

Lemma merged_edges_nonempty self base k h e :
  edges_nonempty self base →
  merge_all e_id put_edge del_edge (ov_mutations self) (bg_edges base) !! k = Some h → e ∈ h →
  start (e_valid_time e) < end_ (e_valid_time e).
Proof.
  intros [Hb Ho]. revert Hb Ho k h e. generalize (bg_edges base). generalize (ov_mutations self).
  intros ms. induction ms as [|x ms IH]; intros m Hb Ho k h e; [apply Hb|].
  rewrite merge_all_cons. apply IH; [|intros; apply Ho; by right]. clear k h e.
  intros k h e. unfold merge_step. destruct x; cbn; try apply Hb.
  - rewrite lookup_push_entry. case_decide; [|apply Hb]. intros [= <-].
    rewrite elem_of_app, list_elem_of_singleton. intros [He| ->]; [|apply Ho; left].
    destruct (m !! k) eqn:Hm; [by eapply Hb|by apply elem_of_nil in He].
  - intros [_ ?]%lookup_delete_Some. by eapply Hb.
Qed.

Lemma validate_iff self base :
  base_wf base → edges_nonempty self base →
  validate self base = Ok tt ↔
  validate_vertex_identity self base = Ok tt ∧ validate_edge_identity self base = Ok tt ∧
  ∃ vs es, merge_mutations (ov_mutations self) (bg_vertices base, bg_edges base) = Ok (vs, es) ∧
           graph_wf vs es.
Proof.
  intros [_ Hbe] Hne. unfold validate. rewrite bind_Ok. setoid_rewrite bind_Ok.
  setoid_rewrite bind_Ok. setoid_rewrite no_panic_Ok. split.
  - intros ([] & Hv & [] & He & [vs es] & Hm & Hok). split; [done|]. split; [done|].
    exists vs, es. split; [done|]. apply merge_mutations_Ok in Hm as (_ & -> & ->).
    apply bind_Ok in Hok as ([] & H1%no_panic_Ok & Hok). apply bind_Ok in Hok as ([] & H2 & Hok).
    apply no_panic_Ok in Hok. rewrite vertex_histories_checked in H1.
    rewrite edge_histories_checked in H2 by by apply merge_all_wf.
    rewrite endpoints_checked in Hok. split; [done|naive_solver..|].
    intros k h e t Hk He'. eapply check_endpoints_iff; [by eapply merged_edges_nonempty|by eauto].
  - intros (Hv & He & vs & es & Hm & [G1 G2 G3 G4]). exists tt. split; [done|].
    exists tt. split; [done|]. exists (vs, es). split; [done|].
    apply merge_mutations_Ok in Hm as (_ & -> & ->).
    apply bind_Ok. exists tt. split; [by apply no_panic_Ok, vertex_histories_checked|].
    apply bind_Ok. exists tt. split.
    { apply edge_histories_checked; [by apply merge_all_wf|]. eauto. }
    apply no_panic_Ok, endpoints_checked. intros k h e Hk He'.
    apply check_endpoints_iff; [by eapply merged_edges_nonempty|]. eauto.
Qed.

(** No identity is both written and deleted by the transaction. *)
Definition puts_deletes_disjoint (self : TransactionOverlay) : Prop :=
  (∀ k, staged_of v_id put_vertex k (ov_mutations self) ≠ [] →
        Forall (λ x, del_vertex x ≠ Some k) (ov_mutations self)) ∧
  (∀ k, staged_of e_id put_edge k (ov_mutations self) ≠ [] →
        Forall (λ x, del_edge x ≠ Some k) (ov_mutations self)).

(** The staged versions of a written identity, and where they are in the merged graph. *)
Lemma staged_in_merged {V} (idf : V → Z) put del (ms : list LogicalMutation) (base : gmap Z (list V)) k h :
  merge_all idf put (λ _, None) ms ∅ !! k = Some h →
  (staged_of idf put k ms ≠ [] → Forall (λ x, del x ≠ Some k) ms) →
  h ≠ [] ∧ Forall (λ x, del x ≠ Some k) ms ∧
  merge_all idf put del ms base !! k = Some (default [] (base !! k) ++ h).
Proof.
  intros Hh Hd. assert (h ≠ []) as Hne.
  { apply (merge_all_wf idf put (λ _, None) ms ∅) in Hh as [? _]; [done|]. intros j g. by rewrite lookup_empty. }
  assert (h = staged_of idf put k ms) as Hs.
  { pose proof (merge_all_lookup idf put (λ _, None) ms ∅ k) as Hs. rewrite Hh in Hs. apply Hs.
    by apply Forall_forall. }
  rewrite <-Hs in Hd. specialize (Hd Hne). split; [done|]. split; [done|].
  pose proof (merge_all_lookup idf put del ms base k Hd) as Hm. rewrite <-Hs in Hm.
  destruct (merge_all idf put del ms base !! k) as [g|]; cbn in Hm; [by subst|].
  by destruct (default [] (base !! k)), h.
Qed.
Lemma vertex_identity_of_graph self base vs es :
  puts_deletes_disjoint self →
  vs = merge_all v_id put_vertex del_vertex (ov_mutations self) (bg_vertices base) → graph_wf vs es →
  validate_vertex_identity self base = Ok tt.
Proof.
  intros [Hdis _] -> [Hwf _ _ _]. unfold validate_vertex_identity. apply try_for_each_Ok, Forall_forall.
  intros [k h] Hk%elem_of_entries. rewrite vertex_puts_merge in Hk.
  destruct (staged_in_merged v_id put_vertex del_vertex _ (bg_vertices base) k h Hk (Hdis k)) as (_ & Hd & Hm).
  apply Hwf, any_pair_app in Hm as (_ & Hh & Hbh).
  rewrite bool_decide_eq_false_2.
  2: { rewrite elem_of_vertex_deletes. by apply Forall_not_Exists. }
  assert (overlapping_vertex_versions h = false) as ->.
  { eapply any_pair_impl, Hh. intros l r Ho. cbn. by rewrite Ho, orb_true_r. }
  cbn. destruct (bg_vertices base !! k) as [b|]; [|done]. cbn in Hbh.
  assert (existsb (λ staged, existsb (λ b, v_version staged =? v_version b) b) h = false) as ->; [|done].
  apply existsb_false, Forall_forall. intros v Hv. apply existsb_false, Forall_forall. intros w Hw.
  specialize (Hbh w v Hw Hv). apply orb_false_iff in Hbh as [Hbh _]. by rewrite Z.eqb_sym.
Qed.

Lemma edge_identity_of_graph self base vs es :
  puts_deletes_disjoint self →
  es = merge_all e_id put_edge del_edge (ov_mutations self) (bg_edges base) → graph_wf vs es →
  validate_edge_identity self base = Ok tt.
Proof.
  intros [_ Hdis] -> [_ Hwf Hsame _]. unfold validate_edge_identity. apply try_for_each_Ok, Forall_forall.
  intros [k h] Hk%elem_of_entries. rewrite edge_puts_merge in Hk.
  destruct (staged_in_merged e_id put_edge del_edge _ (bg_edges base) k h Hk (Hdis k)) as (Hne & Hd & Hm).
  pose proof (λ e f, Hsame k _ e f Hm) as Hsm. apply Hwf, any_pair_app in Hm as (_ & Hh & Hbh).
  destruct h as [|first h]; [done|]. cbn [lookup list_lookup index_or_panic ok_or mbind result_bind].
  change (drop 1 (first :: h)) with h.
  rewrite bool_decide_eq_false_2.
  2: { rewrite elem_of_edge_deletes. by apply Forall_not_Exists. }
  assert (existsb (λ e, edge_differs e first) h = false) as ->.
  { apply existsb_false, Forall_forall. intros e He. apply Hsm; apply elem_of_app; right; [by right|by left]. }
  assert (overlapping_edge_versions (first :: h) = false) as ->.
  { eapply any_pair_impl, Hh. intros l r Ho. cbn. by rewrite Ho, orb_true_r. }
  cbn [orb]. destruct (bg_edges base !! k) as [b|]; [|done]. cbn in Hbh.
  assert (existsb (λ b, edge_differs b first || existsb (λ staged, e_version staged =? e_version b) (first :: h)) b
    = false) as ->; [|done].
  apply existsb_false, Forall_forall. intros w Hw. apply orb_false_iff. split.
  - apply Hsm; apply elem_of_app; [by left|right; by left].
  - apply existsb_false, Forall_forall. intros v Hv. specialize (Hbh w v Hw Hv).
    apply orb_false_iff in Hbh as [Hbh _]. by rewrite Z.eqb_sym.
Qed.

Lemma validate_graph self base :
  base_wf base → edges_nonempty self base →
  validate self base = Ok tt ↔
  puts_deletes_disjoint self ∧
  ∃ vs es, merge_mutations (ov_mutations self) (bg_vertices base, bg_edges base) = Ok (vs, es) ∧
           graph_wf vs es.
Proof.
  intros Hb Hne. rewrite validate_iff by done. split.
  - intros (Hv & He & Hm). split; [|done]. split; intros k Hk.
    + by eapply validate_vertex_identity_Ok.
    + by eapply validate_edge_identity_Ok.
  - intros (Hd & vs & es & Hm & Hwf). pose proof Hm as (_ & Hvs & Hes)%merge_mutations_Ok.
    split; [by eapply vertex_identity_of_graph|]. split; [by eapply edge_identity_of_graph|eauto].
Qed.

(** C10. The overlay check accepts exactly the transactions that write no identity they also delete
    and whose merged graph is well formed: no history has two versions with the same number or
    overlapping in valid time, an edge keeps its endpoints and type, and at every point of an
    edge's lifetime both endpoints have a version. *)
Theorem validate_spec (self : TransactionOverlay) (base : BaseGraphSnapshot) :
  base_wf base → edges_nonempty self base →
  (validate self base = Ok tt ↔
   puts_deletes_disjoint self ∧
   ∃ vs es, merge_mutations (ov_mutations self) (bg_vertices base, bg_edges base) = Ok (vs, es) ∧
            graph_wf vs es).
Proof. apply validate_graph. Qed.

(** Coverage of a required interval by a vertex history is decided exactly: the sweep over the
    sorted intervals answers true iff every point of the required interval lies in a version. *)
Theorem history_covers_spec (versions : list VertexVersion) (required : ValidInterval) :
  start required < end_ required →
  (history_covers versions required = true ↔
   ∀ t, covers_point required t = true →
        ∃ v, v ∈ versions ∧ covers_point (v_valid_time v) t = true).
Proof. apply history_covers_points. Qed.

(** ** Reads through the overlay *)

(** Of at most one candidate, [max_by_key] over the staged ones and then over the base ones finds
    it wherever it is. *)
Lemma max_by_key_unique {V} (key : V → Z) (q : V → bool) (base staged : list V) v :
  (length (List.filter q (base ++ staged)) ≤ 1)%nat →
  match max_by_key key (List.filter q staged) with
  | Some v => Some v
  | None => max_by_key key (List.filter q base)
  end = Some v ↔ v ∈ base ++ staged ∧ q v = true.
Proof.
  intros Hlen. assert (v ∈ base ++ staged ∧ q v = true ↔ v ∈ List.filter q (base ++ staged)) as ->.
  { by rewrite !list_elem_of_In, filter_In. }
  rewrite List.filter_app in *. rewrite length_app in Hlen.
  destruct (List.filter q staged) as [|s [|]]; cbn in *; [| |lia].
  - rewrite app_nil_r. destruct (List.filter q base) as [|b [|]]; cbn in *; [set_solver| |lia].
    rewrite list_elem_of_singleton. naive_solver.
  - destruct (List.filter q base); cbn in *; [|lia]. rewrite list_elem_of_singleton. naive_solver.
Qed.

Lemma filter_staged_vertex id t ms :
  omap (λ m, match m with
             | PutVertex v => if vertex_at id t v then Some v else None
             | _ => None
             end) ms = List.filter (vertex_at id t) (staged_of v_id put_vertex id ms).
Proof.
  induction ms as [|m ms IH]; [done|]. rewrite staged_of_cons. destruct m as [v| | | | |]; try done.
  cbn. destruct (Z.eqb_spec (v_id v) id) as [Heq|Hne].
  - cbn. destruct (vertex_at id t v); [by f_equal|done].
  - unfold vertex_at at 1. by rewrite (proj2 (Z.eqb_neq _ _) Hne).
Qed.
Lemma filter_staged_edge id t ms :
  omap (λ m, match m with
             | PutEdge e => if edge_at id t e then Some e else None
             | _ => None
             end) ms = List.filter (edge_at id t) (staged_of e_id put_edge id ms).
Proof.
  induction ms as [|m ms IH]; [done|]. rewrite staged_of_cons. destruct m as [| |v| | |]; try done.
  cbn. destruct (Z.eqb_spec (e_id v) id) as [Heq|Hne].
  - cbn. destruct (edge_at id t v); [by f_equal|done].
  - unfold edge_at at 1. by rewrite (proj2 (Z.eqb_neq _ _) Hne).
Qed.

Lemma deleted_vertex_test ms id :
  existsb (λ m, match m with DeleteVertex t => vt_id t =? id | _ => false end) ms =
  bool_decide (Exists (λ x, del_vertex x = Some id) ms).
Proof.
  induction ms as [|m ms IH]; [done|]. cbn. rewrite IH.
  apply eq_true_iff_eq. rewrite orb_true_iff, !bool_decide_eq_true, Exists_cons.
  destruct m; cbn; rewrite ?Z.eqb_eq; naive_solver.
Qed.
Lemma deleted_edge_test ms id :
  existsb (λ m, match m with DeleteEdge t => et_id t =? id | _ => false end) ms =
  bool_decide (Exists (λ x, del_edge x = Some id) ms).
Proof.
  induction ms as [|m ms IH]; [done|]. cbn. rewrite IH.
  apply eq_true_iff_eq. rewrite orb_true_iff, !bool_decide_eq_true, Exists_cons.
  destruct m; cbn; rewrite ?Z.eqb_eq; naive_solver.
Qed.

Lemma vertex_at_overlap id t l r :
  vertex_at id t l = true → vertex_at id t r = true →
  (v_version l =? v_version r) || overlaps (v_valid_time l) (v_valid_time r) = true.
Proof.
  unfold vertex_at, overlaps. intros; to_prop.
  rewrite orb_true_iff, andb_true_iff, !Z.ltb_lt. lia.
Qed.
Lemma edge_at_overlap id t l r :
  edge_at id t l = true → edge_at id t r = true →
  (e_version l =? e_version r) || overlaps (e_valid_time l) (e_valid_time r) = true.
Proof.
  unfold edge_at, overlaps. intros; to_prop.
  rewrite orb_true_iff, andb_true_iff, !Z.ltb_lt. lia.
Qed.

(** The staged identities of an accepted overlay are deleted or put, never both. *)
Lemma staged_deleted_disjoint {V} (idf : V → Z) put del ms k :
  (staged_of idf put k ms ≠ [] → Forall (λ x : LogicalMutation, del x ≠ Some k) ms) →
  Exists (λ x, del x = Some k) ms → staged_of idf put k ms = [].
Proof.
  intros H Hex. destruct (staged_of idf put k ms) as [|v l]; [done|].
  specialize (H ltac:(done)). apply Exists_exists in Hex as (x & Hx & Hd).
  rewrite Forall_forall in H. by destruct (H x Hx).
Qed.

(** Read your own writes: in an accepted transaction, reading a vertex or an edge through the
    overlay returns exactly the version of the merged graph that is valid at the requested time;
    the staged versions take precedence, deleted entities are gone, and untouched ones are read
    from the base snapshot. *)
Theorem overlay_reads_merged_graph (self : TransactionOverlay) (base : BaseGraphSnapshot)
    (vs : gmap VertexId (list VertexVersion)) (es : gmap EdgeId (list EdgeVersion)) (id t : Z) :
  base_wf base → edges_nonempty self base →
  validate self base = Ok tt →
  merge_mutations (ov_mutations self) (bg_vertices base, bg_edges base) = Ok (vs, es) →
  (∀ v, get_vertex self (default [] (bg_vertices base !! id)) id t = Some v ↔
        v ∈ default [] (vs !! id) ∧ vertex_at id t v = true) ∧
  (∀ e, get_edge self (default [] (bg_edges base !! id)) id t = Some e ↔
        e ∈ default [] (es !! id) ∧ edge_at id t e = true).
Proof.
  intros Hb Hne (Hv & He & vs' & es' & Hm' & [G1 G2 _ _])%validate_iff Hm; [|done..].
  rewrite Hm in Hm'. injection Hm' as <- <-.
  apply merge_mutations_Ok in Hm as (_ & -> & ->). split.
  - intros v. unfold get_vertex. rewrite deleted_vertex_test, filter_staged_vertex.
    case_bool_decide as Hdel.
    + rewrite (merge_all_deleted v_id put_vertex del_vertex); [set_solver|done| |].
      * eapply staged_deleted_disjoint; [by apply validate_vertex_identity_Ok with (base := base)|done].
      * apply Forall_forall. intros [] _; cbn; auto.
    + apply not_Exists_Forall in Hdel; [|intros ?; apply _].
      pose proof (merge_all_lookup v_id put_vertex del_vertex (ov_mutations self)
                    (bg_vertices base) id Hdel) as Hl.
      rewrite Hl. apply max_by_key_unique. rewrite <-Hl.
      eapply any_pair_filter; [|apply vertex_at_overlap].
      destruct (merge_all _ _ _ _ _ !! id) eqn:Hk; [by eapply G1|done].
  - intros e. unfold get_edge. rewrite deleted_edge_test, filter_staged_edge.
    case_bool_decide as Hdel.
    + rewrite (merge_all_deleted e_id put_edge del_edge); [set_solver|done| |].
      * eapply staged_deleted_disjoint; [by apply validate_edge_identity_Ok with (base := base)|done].
      * apply Forall_forall. intros [] _; cbn; auto.
    + apply not_Exists_Forall in Hdel; [|intros ?; apply _].
      pose proof (merge_all_lookup e_id put_edge del_edge (ov_mutations self)
                    (bg_edges base) id Hdel) as Hl.
      rewrite Hl. apply max_by_key_unique. rewrite <-Hl.
      eapply any_pair_filter; [|apply edge_at_overlap].
      destruct (merge_all _ _ _ _ _ !! id) eqn:Hk; [by eapply G2|done].
Qed.

(** ** Base snapshots and panic freedom *)

Lemma push_all_wf {V} (idf : V → Z) (l : list V) m :
  histories_wf idf m → histories_wf idf (foldl (λ m v, push_entry (idf v) v m) m l).
Proof.
  revert m. induction l as [|v l IH]; intros m Hm; cbn; [done|]. apply IH.
  intros k h. rewrite lookup_push_entry. case_decide as Hk; [|by apply Hm].
  intros [= <-]. split; [by destruct (default [] _)|]. apply Forall_app. split; [|by constructor].
  destruct (m !! k) as [h|] eqn:Hh; [by apply Hm in Hh as [_ ?]|constructor].
Qed.

Lemma histories_wf_fmap {V} (idf : V → Z) (sort : list V → list V) m :
  (∀ l, sort l ≡ₚ l) → histories_wf idf m → histories_wf idf (sort <$> m).
Proof.
  intros Hs Hm k h (h' & <- & Hk)%lookup_fmap_Some. apply Hm in Hk as [Hne Hid]. split.
  - intros Heq. apply Hne, Permutation_nil_r. by rewrite <-(Hs h'), Heq.
  - by rewrite Hs.
Qed.

Lemma histories_wf_empty {V} (idf : V → Z) : histories_wf idf ∅.
Proof. intros k h. by rewrite lookup_empty. Qed.

Lemma BaseGraphSnapshot_new_wf vs es base :
  BaseGraphSnapshot_new vs es = Ok base → base_wf base.
Proof.
  unfold BaseGraphSnapshot_new. intros ([] & _ & ([] & _ & [= <-])%bind_Ok)%bind_Ok. split; cbn.
  - apply histories_wf_fmap; [apply sort_vertex_history_perm|]. apply push_all_wf, histories_wf_empty.
  - apply histories_wf_fmap; [apply sort_edge_history_perm|]. apply push_all_wf, histories_wf_empty.
Qed.

Lemma no_panic_not_Panic {A} (m : result TxnError A) : no_panic m ≠ Err Panic.
Proof. by destruct m. Qed.

Lemma validate_edge_history_panic h : validate_edge_history h = Err Panic → h = [].
Proof.
  unfold validate_edge_history. destruct h as [|e h]; [done|]. cbn -[any_pair existsb]. by case_match.
Qed.

Lemma edge_histories_no_panic es :
  histories_wf e_id es → try_for_each validate_edge_history (values es) ≠ Err Panic.
Proof.
  intros Hwf (h & [k Hk]%elem_of_values & ->%validate_edge_history_panic)%try_for_each_Err.
  by apply Hwf in Hk as [? _].
Qed.

Lemma validate_edge_identity_no_panic self base : validate_edge_identity self base ≠ Err Panic.
Proof.
  intros ([k h] & Hk%elem_of_entries & Hp)%try_for_each_Err.
  rewrite edge_puts_merge in Hk. apply merge_all_wf in Hk as [Hne _]; [|apply histories_wf_empty].
  destruct h as [|e h]; [done|]. cbn -[existsb overlapping_edge_versions] in Hp.
  by guard_in Hp as Hc.
Qed.

Lemma validate_no_panic self base : base_wf base → validate self base ≠ Err Panic.
Proof.
  intros [_ Hbe]. unfold validate. rewrite bind_Err.
  intros [?%no_panic_not_Panic|([] & _ & [?%validate_edge_identity_no_panic|Hok]%bind_Err)]; [done..|].
  destruct Hok as ([] & _ & [?%no_panic_not_Panic|([vs es] & Hm%no_panic_Ok & Hok)]%bind_Err); [done|].
  apply merge_mutations_Ok in Hm as (_ & -> & ->).
  apply bind_Err in Hok as [?%no_panic_not_Panic|([] & _ & Hok)]; [done|].
  apply bind_Err in Hok as [Hok|([] & _ & ?%no_panic_not_Panic)]; [|done].
  eapply edge_histories_no_panic; [|exact Hok].
  apply histories_wf_fmap; [apply sort_edge_history_perm|]. by apply merge_all_wf.
Qed.

Lemma BaseGraphSnapshot_new_no_panic vs es : BaseGraphSnapshot_new vs es ≠ Err Panic.
Proof.
  unfold BaseGraphSnapshot_new. rewrite bind_Err.
  intros [?%no_panic_not_Panic|([] & _ & Hok)]; [done|].
  apply bind_Err in Hok as [Hok|([] & _ & ?)]; [|done].
  eapply edge_histories_no_panic; [|exact Hok].
  apply histories_wf_fmap; [apply sort_edge_history_perm|]. apply push_all_wf, histories_wf_empty.
Qed.

(** Snapshot construction never indexes out of range, what it builds is a well-formed base, and
    on a well-formed base the overlay check never indexes out of range either. *)
Theorem overlay_panic_free (vertices : list VertexVersion) (edges : list EdgeVersion)
    (self : TransactionOverlay) :
  BaseGraphSnapshot_new vertices edges ≠ Err Panic ∧
  ∀ base, BaseGraphSnapshot_new vertices edges = Ok base →
          base_wf base ∧ validate self base ≠ Err Panic.
Proof.
  split; [apply BaseGraphSnapshot_new_no_panic|].
  intros base Hb%BaseGraphSnapshot_new_wf. split; [done|by apply validate_no_panic].
Qed.

(** ** Staging *)

(** The overlay holds at most [MAX_STAGED_MUTATIONS] graph mutations. *)
Definition overlay_wf (o : TransactionOverlay) : Prop :=
  Z.of_nat (length (ov_mutations o)) ≤ MAX_STAGED_MUTATIONS ∧
  Forall (λ m, is_transaction_or_metadata m = false) (ov_mutations o).

Fixpoint stage_all (o : TransactionOverlay) (ms : list LogicalMutation) : result TxnError TransactionOverlay :=
  match ms with
  | [] => Ok o
  | m :: ms => o ← stage o m; stage_all o ms
  end.

Lemma stage_wf o m o' :
  overlay_wf o → stage o m = Ok o' → overlay_wf o' ∧ ov_mutations o' = ov_mutations o ++ [m].
Proof.
  intros [Hlen Hall] Hs. unfold stage in Hs. guard_in Hs as Hf. guard_in Hs as Hm.
  injection Hs as <-. to_prop. split; [|done]. split; cbn.
  - rewrite length_app. cbn. unfold MAX_STAGED_MUTATIONS in *. lia.
  - apply Forall_app. by repeat constructor.
Qed.

Lemma stage_all_Ok o ms o' :
  overlay_wf o →
  stage_all o ms = Ok o' ↔
  Z.of_nat (length (ov_mutations o) + length ms) ≤ MAX_STAGED_MUTATIONS ∧
  Forall (λ m, is_transaction_or_metadata m = false) ms ∧
  o' = mkTransactionOverlay (ov_mutations o ++ ms).
Proof.
  revert o. induction ms as [|m ms IH]; intros o Hwf; cbn.
  { rewrite app_nil_r, Nat.add_0_r. destruct o, Hwf as [? _]. naive_solver. }
  rewrite Forall_cons. unfold stage at 1. destruct Hwf as [Hlen Hall].
  destruct (Z.eqb_spec (Z.of_nat (length (ov_mutations o))) MAX_STAGED_MUTATIONS); cbn.
  { split; [done|]. intros (? & _). lia. }
  destruct (is_transaction_or_metadata m) eqn:Hm; cbn; [naive_solver|].
  rewrite IH; cbn; [|].
  - rewrite length_app, <-app_assoc. cbn. rewrite <-Nat.add_assoc. naive_solver.
  - split; cbn; [rewrite length_app; cbn; lia|]. apply Forall_app. by repeat constructor.
Qed.

(** Staging a sequence of mutations succeeds exactly when they are graph mutations and at most
    [MAX_STAGED_MUTATIONS]; the overlay then holds them in order. *)
Theorem staging_bounded (ms : list LogicalMutation) (o : TransactionOverlay) :
  stage_all TransactionOverlay_new ms = Ok o ↔
  Z.of_nat (length ms) ≤ MAX_STAGED_MUTATIONS ∧
  Forall (λ m, is_transaction_or_metadata m = false) ms ∧ o = mkTransactionOverlay ms.
Proof. by rewrite stage_all_Ok. Qed.

(** ** The properties on a concrete graph: an edge staged between two vertices of the base *)

Definition base_vertex (id : VertexId) : VertexVersion := mkVertexVersion id 1 (mkValidInterval 0 10) 1 [].
Definition example_base : BaseGraphSnapshot :=
  mkBaseGraphSnapshot {[1 := [base_vertex 1]; 2 := [base_vertex 2]]} ∅.
Definition example_edge : EdgeVersion := mkEdgeVersion 5 1 2 "KNOWS" 1 (mkValidInterval 2 8) 3 [].
Definition example_overlay : TransactionOverlay := mkTransactionOverlay [PutEdge example_edge].

Lemma example_base_wf_graph : base_wf example_base.
Proof.
  split; intros k h; cbn [bg_vertices bg_edges example_base]; [|by rewrite lookup_empty].
  rewrite lookup_insert. case_decide; [intros [= <-]; subst; by repeat constructor|].
  rewrite lookup_singleton. case_decide; [|done]. intros [= <-]. subst. by repeat constructor.
Defined.

Lemma example_edges_nonempty : edges_nonempty example_overlay example_base.
Proof.
  split; cbn [bg_edges example_base ov_mutations example_overlay].
  - intros k h e. by rewrite lookup_empty.
  - intros e [[= ->]|[]%elem_of_nil]%elem_of_cons. done.
Defined.

Lemma validate_spec_witness :
  validate example_overlay example_base = Ok tt ↔
  puts_deletes_disjoint example_overlay ∧
  ∃ vs es, merge_mutations (ov_mutations example_overlay) (bg_vertices example_base, bg_edges example_base)
             = Ok (vs, es) ∧ graph_wf vs es.
Proof.
  apply (validate_spec example_overlay example_base);
    [apply example_base_wf_graph|apply example_edges_nonempty].
Defined.

Lemma history_covers_spec_witness :
  history_covers [base_vertex 1] (mkValidInterval 2 8) = true ↔
  ∀ t, covers_point (mkValidInterval 2 8) t = true →
       ∃ v, v ∈ [base_vertex 1] ∧ covers_point (v_valid_time v) t = true.
Proof. apply (history_covers_spec [base_vertex 1] (mkValidInterval 2 8)). reflexivity. Defined.

Lemma overlay_reads_merged_graph_witness :
  let vs := bg_vertices example_base in
  let es := {[5 := [example_edge]]} : gmap EdgeId (list EdgeVersion) in
  (∀ v, get_vertex example_overlay (default [] (vs !! 5)) 5 3 = Some v ↔
        v ∈ default [] (vs !! 5) ∧ vertex_at 5 3 v = true) ∧
  (∀ e, get_edge example_overlay (default [] (bg_edges example_base !! 5)) 5 3 = Some e ↔
        e ∈ default [] (es !! 5) ∧ edge_at 5 3 e = true).
Proof.
  intros vs es. apply (overlay_reads_merged_graph example_overlay example_base vs es 5 3);
    [apply example_base_wf_graph|apply example_edges_nonempty|vm_compute; reflexivity|vm_compute; reflexivity].
Defined.

Lemma overlay_panic_free_witness :
  BaseGraphSnapshot_new [base_vertex 1; base_vertex 2] [] ≠ Err Panic ∧
  ∀ base, BaseGraphSnapshot_new [base_vertex 1; base_vertex 2] [] = Ok base →
          base_wf base ∧ validate example_overlay base ≠ Err Panic.
Proof. apply (overlay_panic_free [base_vertex 1; base_vertex 2] [] example_overlay). Defined.
