(* ===== verification/Timestamp.v ===== *)
(** * The durable timestamp authority ([dtg-transaction/src/timestamp.rs])

    One authority issues the start and commit times of all transactions.  It keeps the last issued
    time, the published frontier (the end of the contiguous prefix of resolved times), the start
    times and the commit-time reservations; every state change is a command appended to a durable
    log, and opening the authority replays the log.  The log is the trait [TimestampCommandLog]: a
    class here, with the contract its documentation states as a second class. *)

From S2P Require Import Prelude Kernel Encoding Storage TxnError.
Open Scope Z_scope.

(** ** Reservations ([coordinator.rs]) *)

Inductive CommitResolution := ResCommitted | ResAborted.
#[export] Instance CommitResolution_eq_dec : EqDecision CommitResolution.
Proof. solve_decision. Defined.

Record CommitTimeReservation := mkReservation {
  commit_time : TransactionTime;
  resolution : option CommitResolution;
}.
#[export] Instance CommitTimeReservation_eq_dec : EqDecision CommitTimeReservation.
Proof. solve_decision. Defined.

(** ** Operations, commands and state *)

Inductive TimestampOperation :=
| OpAllocateStart (transaction_id : TransactionId)
| OpReserveCommit (transaction_id : TransactionId)
| OpResolveCommit (transaction_id : TransactionId) (commit_time : TransactionTime)
    (resolution : CommitResolution).

Inductive TimestampCommand :=
| AllocateStart (transaction_id : TransactionId) (timestamp : TransactionTime)
| ReserveCommit (transaction_id : TransactionId) (timestamp : TransactionTime)
| ResolveCommit (transaction_id : TransactionId) (timestamp : TransactionTime)
    (resolution : CommitResolution).

Definition command_transaction_id (c : TimestampCommand) : TransactionId :=
  match c with AllocateStart x _ | ReserveCommit x _ | ResolveCommit x _ _ => x end.
Definition command_timestamp (c : TimestampCommand) : TransactionTime :=
  match c with AllocateStart _ t | ReserveCommit _ t | ResolveCommit _ t _ => t end.

Record TimestampState := mkTimestampState {
  last_issued : Z;
  published_frontier : Z;
  start_times : gmap TransactionId TransactionTime;
  reservations : gmap TransactionId CommitTimeReservation;
}.
Definition TimestampState_default : TimestampState := mkTimestampState 0 0 ∅ ∅.

Definition is_resolved (r : CommitTimeReservation) : bool :=
  match resolution r with Some _ => true | None => false end.

Definition next_timestamp (s : TimestampState) : result TxnError TransactionTime :=
  value ← ok_or ResourceLimit (i64_checked_add (last_issued s) 1);
  map_err (λ _, CorruptRecovery) (TransactionTime_new value).

Definition next_start_time (s : TimestampState) : result TxnError TransactionTime :=
  if existsb (λ r, negb (is_resolved r)) (values (reservations s))
  then map_err (λ _, CorruptRecovery) (TransactionTime_new (published_frontier s))
  else next_timestamp s.

Definition apply_new_timestamp (s : TimestampState) (timestamp : TransactionTime)
    : result TxnError TimestampState :=
  next ← ok_or CorruptRecovery (i64_checked_add (last_issued s) 1);
  if negb (timestamp =? next) then Err CorruptRecovery
  else Ok (mkTimestampState timestamp (published_frontier s) (start_times s) (reservations s)).

(** The frontier loop; [fuel] bounds its iterations by the distance to [last_issued]. *)
Fixpoint advance_loop (fuel : nat) (last : Z) (rs : gmap TransactionId CommitTimeReservation)
    (frontier : Z) : result TxnError Z :=
  match fuel with
  | O => Ok frontier
  | S fuel =>
      if frontier <? last then
        next ← ok_or CorruptRecovery (i64_checked_add frontier 1);
        if existsb (λ r, (commit_time r =? next) && is_resolved r) (values rs)
        then advance_loop fuel last rs next
        else Ok frontier
      else Ok frontier
  end.

Definition advance_published_frontier (s : TimestampState) : result TxnError TimestampState :=
  frontier ← advance_loop (Z.to_nat (last_issued s - published_frontier s))
               (last_issued s) (reservations s) (published_frontier s);
  Ok (mkTimestampState (last_issued s) frontier (start_times s) (reservations s)).

Definition apply (s : TimestampState) (command : TimestampCommand)
    : result TxnError TimestampState :=
  match command with
  | AllocateStart transaction_id timestamp =>
      match start_times s !! transaction_id with
      | Some existing => if existing =? timestamp then Ok s else Err CorruptRecovery
      | None =>
          next ← ok_or CorruptRecovery (i64_checked_add (last_issued s) 1);
          s ← (if timestamp =? next then
                 if negb (published_frontier s =? last_issued s) then Err CorruptRecovery
                 else
                   s ← apply_new_timestamp s timestamp;
                   Ok (mkTimestampState (last_issued s) timestamp (start_times s) (reservations s))
               else if negb (timestamp =? published_frontier s) then Err CorruptRecovery
               else Ok s);
          Ok (mkTimestampState (last_issued s) (published_frontier s)
                (<[transaction_id := timestamp]> (start_times s)) (reservations s))
      end
  | ReserveCommit transaction_id timestamp =>
      match reservations s !! transaction_id with
      | Some existing => if commit_time existing =? timestamp then Ok s else Err CorruptRecovery
      | None =>
          s ← apply_new_timestamp s timestamp;
          Ok (mkTimestampState (last_issued s) (published_frontier s) (start_times s)
                (<[transaction_id := mkReservation timestamp None]> (reservations s)))
      end
  | ResolveCommit transaction_id timestamp res =>
      reservation ← ok_or CorruptRecovery (reservations s !! transaction_id);
      if negb (commit_time reservation =? timestamp) then Err CorruptRecovery
      else match resolution reservation with
      | Some existing => if bool_decide (existing = res) then Ok s else Err CorruptRecovery
      | None =>
          advance_published_frontier
            (mkTimestampState (last_issued s) (published_frontier s) (start_times s)
               (<[transaction_id := mkReservation timestamp (Some res)]> (reservations s)))
      end
  end.

Definition stage_operation (s : TimestampState) (operation : TimestampOperation)
    : result TxnError (TimestampState * (TransactionTime * option TimestampCommand)) :=
  match operation with
  | OpAllocateStart transaction_id =>
      match start_times s !! transaction_id with
      | Some timestamp => Ok (s, (timestamp, None))
      | None =>
          timestamp ← next_start_time s;
          let command := AllocateStart transaction_id timestamp in
          s ← apply s command;
          Ok (s, (timestamp, Some command))
      end
  | OpReserveCommit transaction_id =>
      match reservations s !! transaction_id with
      | Some reservation => Ok (s, (commit_time reservation, None))
      | None =>
          timestamp ← next_timestamp s;
          let command := ReserveCommit transaction_id timestamp in
          s ← apply s command;
          Ok (s, (timestamp, Some command))
      end
  | OpResolveCommit transaction_id ct res =>
      reservation ← ok_or CorruptRecovery (reservations s !! transaction_id);
      if negb (commit_time reservation =? ct) then Err CorruptRecovery
      else match resolution reservation with
      | Some existing =>
          if bool_decide (existing = res) then Ok (s, (ct, None)) else Err CorruptRecovery
      | None =>
          let command := ResolveCommit transaction_id ct res in
          s ← apply s command;
          Ok (s, (ct, Some command))
      end
  end.

(** ** The command codec *)

Definition COMMAND_MAGIC : bytes := as_bytes "DTGT".
Definition COMMAND_VERSION : Z := 1.
Definition COMMAND_PREFIX_BYTES : nat := 32.
Definition COMMAND_BYTES : nat := COMMAND_PREFIX_BYTES + 32.

Definition resolution_tag (r : CommitResolution) : Z :=
  match r with ResCommitted => 1 | ResAborted => 2 end.

Definition command_prefix (command : TimestampCommand) : bytes :=
  let '(tag, res) :=
    match command with
    | AllocateStart _ _ => (1, 0)
    | ReserveCommit _ _ => (2, 0)
    | ResolveCommit _ _ r => (3, resolution_tag r)
    end in
  COMMAND_MAGIC ++ be_bytes 2 COMMAND_VERSION ++ [tag] ++
  be_bytes 16 (command_transaction_id command) ++ be_bytes 8 (command_timestamp command) ++ [res].

Section codec.
Context (blake3 : bytes → Digest32).

Definition command_digest (prefix : bytes) : Digest32 :=
  blake3 (as_bytes "dtg-timestamp-command-v1" ++ prefix).

Definition encode_command (command : TimestampCommand) : bytes :=
  command_prefix command ++ command_digest (command_prefix command).

Definition decode_command (bs : bytes) : result TxnError TimestampCommand :=
  if negb (Nat.eqb (length bs) COMMAND_BYTES)
     || negb (bool_decide (take 4 bs = COMMAND_MAGIC))
     || negb (be_value (slice 4 6 bs) =? COMMAND_VERSION)
  then Err CorruptRecovery
  else if negb (bool_decide (command_digest (take COMMAND_PREFIX_BYTES bs)
                             = drop COMMAND_PREFIX_BYTES bs))
  then Err CorruptRecovery
  else
    transaction_id ← map_err (λ _, CorruptRecovery) (TransactionId_new (be_value (slice 7 23 bs)));
    timestamp ← map_err (λ _, CorruptRecovery)
                  (TransactionTime_new (i64_of_be_bytes (slice 23 31 bs)));
    let tag := nth 6 bs 0 in
    let res := nth 31 bs 0 in
    if (tag =? 1) && (res =? 0) then Ok (AllocateStart transaction_id timestamp)
    else if (tag =? 2) && (res =? 0) then Ok (ReserveCommit transaction_id timestamp)
    else if (tag =? 3) && (res =? 1) then Ok (ResolveCommit transaction_id timestamp ResCommitted)
    else if (tag =? 3) && (res =? 2) then Ok (ResolveCommit transaction_id timestamp ResAborted)
    else Err CorruptRecovery.
End codec.

(** ** The log interface *)

Class TimestampCommandLog (L : Type) := {
  replay : L → result TxnError (list bytes);
  append_batch : list bytes → L → result TxnError unit * L;
}.

(** "Atomically appends the complete ordered command batch, or none of it." *)
Class TimestampCommandLogLaws (L : Type) `{TimestampCommandLog L} : Prop := {
  append_batch_ok log log' commands entries :
    replay log = Ok entries → append_batch commands log = (Ok tt, log') →
    replay log' = Ok (entries ++ commands);
  append_batch_err log log' commands entries e :
    replay log = Ok entries → append_batch commands log = (Err e, log') →
    replay log' = Ok entries;
}.

(** ** The authority *)

Record DurableTimestampAuthority (L : Type) := mkAuthority { ta_log : L; ta_state : TimestampState }.
Arguments mkAuthority {L} _ _.
Arguments ta_log {L} _.
Arguments ta_state {L} _.

(** The accumulators of [apply_batch]'s loop. *)
Record BatchAcc := mkBatchAcc {
  ba_staged : TimestampState;
  ba_commands : list TimestampCommand;
  ba_results : list (result TxnError TransactionTime);
  ba_persisted : list nat;
}.

Definition batch_step (acc : BatchAcc) (operation : TimestampOperation) : BatchAcc :=
  match stage_operation (ba_staged acc) operation with
  | Ok (candidate, (timestamp, Some command)) =>
      mkBatchAcc candidate (ba_commands acc ++ [command]) (ba_results acc ++ [Ok timestamp])
        (ba_persisted acc ++ [length (ba_results acc)])
  | Ok (candidate, (timestamp, None)) =>
      mkBatchAcc candidate (ba_commands acc) (ba_results acc ++ [Ok timestamp]) (ba_persisted acc)
  | Err error =>
      mkBatchAcc (ba_staged acc) (ba_commands acc) (ba_results acc ++ [Err error]) (ba_persisted acc)
  end.

Definition run_batch (s : TimestampState) (operations : list TimestampOperation) : BatchAcc :=
  foldl batch_step (mkBatchAcc s [] [] []) operations.

(** [for index in persisted { results[index] = Err(error.clone()) }]. *)
Definition fail_persisted (error : TxnError) (persisted : list nat)
    (results : list (result TxnError TransactionTime)) : list (result TxnError TransactionTime) :=
  foldl (λ rs i, <[i := Err error]> rs) results persisted.

Section authority.
Context (blake3 : bytes → Digest32) {L : Type} `{TimestampCommandLog L}.

Fixpoint replay_commands (s : TimestampState) (log : list bytes) : result TxnError TimestampState :=
  match log with
  | [] => Ok s
  | bs :: log =>
      command ← decode_command blake3 bs;
      s ← apply s command;
      replay_commands s log
  end.

Definition authority_open (log : L) : result TxnError (DurableTimestampAuthority L) :=
  entries ← replay log;
  s ← replay_commands TimestampState_default entries;
  Ok (mkAuthority log s).

Definition apply_batch (self : DurableTimestampAuthority L) (operations : list TimestampOperation)
    : list (result TxnError TransactionTime) * DurableTimestampAuthority L :=
  let acc := run_batch (ta_state self) operations in
  match ba_commands acc with
  | [] => (ba_results acc, self)
  | commands =>
      match append_batch (map (encode_command blake3) commands) (ta_log self) with
      | (Err error, log) =>
          (fail_persisted error (ba_persisted acc) (ba_results acc), mkAuthority log (ta_state self))
      | (Ok _, log) => (ba_results acc, mkAuthority log (ba_staged acc))
      end
  end.

(** The [TimestampAuthority] methods: one-operation batches and a read of the state. *)
Definition one_result (r : list (result TxnError TransactionTime) * DurableTimestampAuthority L)
    : result TxnFault TransactionTime * DurableTimestampAuthority L :=
  (match r.1 with [] => Err Panic | x :: _ => no_panic x end, r.2).

Definition allocate_start_time (self : DurableTimestampAuthority L) (transaction_id : TransactionId) :=
  one_result (apply_batch self [OpAllocateStart transaction_id]).
Definition reserve_commit_time (self : DurableTimestampAuthority L) (transaction_id : TransactionId) :=
  one_result (apply_batch self [OpReserveCommit transaction_id]).
Definition commit_time_reservation (self : DurableTimestampAuthority L) (transaction_id : TransactionId)
    : option CommitTimeReservation := reservations (ta_state self) !! transaction_id.
Definition resolve_commit_time (self : DurableTimestampAuthority L) (transaction_id : TransactionId)
    (ct : TransactionTime) (res : CommitResolution)
    : result TxnFault unit * DurableTimestampAuthority L :=
  let '(r, self) := one_result (apply_batch self [OpResolveCommit transaction_id ct res]) in
  (_ ← r; Ok tt, self).
End authority.

(** ** The state invariant *)

Definition resolved_at (rs : gmap TransactionId CommitTimeReservation) (t : Z) : Prop :=
  ∃ x r, rs !! x = Some r ∧ commit_time r = t ∧ resolution r ≠ None.

Record ts_inv (s : TimestampState) : Prop := {
  ti_range : 0 ≤ published_frontier s ≤ last_issued s ∧ last_issued s ≤ i64_max;
  ti_reserved : ∀ x r, reservations s !! x = Some r → 1 ≤ commit_time r ≤ last_issued s;
  ti_unique : ∀ x y r q, reservations s !! x = Some r → reservations s !! y = Some q →
    commit_time r = commit_time q → x = y;
  ti_covered : ∀ t, published_frontier s < t ≤ last_issued s →
    ∃ x r, reservations s !! x = Some r ∧ commit_time r = t;
  ti_resolved : ∀ x r, reservations s !! x = Some r → commit_time r ≤ published_frontier s →
    resolution r ≠ None;
  ti_maximal : published_frontier s < last_issued s →
    ¬ resolved_at (reservations s) (published_frontier s + 1);
  ti_started : ∀ x t, start_times s !! x = Some t → 0 ≤ t ≤ published_frontier s;
}.

(** The abstract view of the authority: who holds which time, and how it was resolved, only grows. *)
Record ts_extends (s s' : TimestampState) : Prop := {
  te_last : last_issued s ≤ last_issued s';
  te_frontier : published_frontier s ≤ published_frontier s';
  te_starts : ∀ x t, start_times s !! x = Some t → start_times s' !! x = Some t;
  te_reservations : ∀ x r, reservations s !! x = Some r →
    ∃ r', reservations s' !! x = Some r' ∧ commit_time r' = commit_time r ∧
          (resolution r ≠ None → r' = r);
  te_new : ∀ x r', reservations s' !! x = Some r' → reservations s !! x = None →
    last_issued s < commit_time r';
}.

(** A run of the authority: operations in order, errors leaving the state unchanged. *)
Definition run_operation (s : TimestampState) (op : TimestampOperation) : TimestampState :=
  match stage_operation s op with Ok (s', _) => s' | Err _ => s end.
Definition run_operations (s : TimestampState) (ops : list TimestampOperation) : TimestampState :=
  foldl run_operation s ops.

Definition op_result (s : TimestampState) (op : TimestampOperation) : result TxnError TransactionTime :=
  match stage_operation s op with Ok (_, (t, _)) => Ok t | Err e => Err e end.
Definition op_command (s : TimestampState) (op : TimestampOperation) : option TimestampCommand :=
  match stage_operation s op with Ok (_, (_, c)) => c | Err _ => None end.

(** The sequential reference: each operation against the state its predecessors left. *)
Fixpoint batch_results (s : TimestampState) (ops : list TimestampOperation) : list (result TxnError TransactionTime) :=
  match ops with
  | [] => []
  | op :: ops => op_result s op :: batch_results (run_operation s op) ops
  end.
Fixpoint batch_commands (s : TimestampState) (ops : list TimestampOperation) : list TimestampCommand :=
  match ops with
  | [] => []
  | op :: ops => option_list (op_command s op) ++ batch_commands (run_operation s op) ops
  end.
(** The results after a failed append: the operations that logged a command carry the error. *)
Fixpoint batch_failed (e : TxnError) (s : TimestampState) (ops : list TimestampOperation) : list (result TxnError TransactionTime) :=
  match ops with
  | [] => []
  | op :: ops =>
      match op_command s op with Some _ => Err e | None => op_result s op end
      :: batch_failed e (run_operation s op) ops
  end.
Fixpoint batch_indices (n : nat) (s : TimestampState) (ops : list TimestampOperation) : list nat :=
  match ops with
  | [] => []
  | op :: ops =>
      match op_command s op with Some _ => [n] | None => [] end
      ++ batch_indices (S n) (run_operation s op) ops
  end.

Definition command_wf (c : TimestampCommand) : Prop :=
  id128_wf (command_transaction_id c) ∧ time_wf (command_timestamp c).
Definition operation_wf (op : TimestampOperation) : Prop :=
  match op with OpAllocateStart x | OpReserveCommit x | OpResolveCommit x _ _ => id128_wf x end.

(** ** Proofs about the state *)

#[export] Instance ts_extends_preorder : PreOrder ts_extends.
Proof.
  split.
  - intros s. split; [lia|lia|done|eauto|congruence].
  - intros s1 s2 s3 [A1 A2 A3 A4 A5] [B1 B2 B3 B4 B5]. split; [lia|lia|auto| |].
    + intros x r (r' & Hr' & Hc & Hres)%A4. destruct (B4 _ _ Hr') as (r'' & Hr'' & Hc' & Hres').
      exists r''. split; [done|]. split; [congruence|]. intros Hne.
      rewrite <-(Hres Hne). apply Hres'. by rewrite (Hres Hne).
    + intros x r' Hr' Hn. destruct (reservations s2 !! x) as [r2|] eqn:H2.
      * destruct (B4 _ _ H2) as (? & ? & ? & _). simplify_eq. pose proof (A5 _ _ H2 Hn). lia.
      * apply B5 in Hr'; [lia|done].
Qed.

Lemma existsb_resolved rs t :
  existsb (λ r, (commit_time r =? t) && is_resolved r) (values rs) = true ↔ resolved_at rs t.
Proof.
  rewrite existsb_exists. unfold resolved_at, is_resolved. split.
  - intros (r & [x Hx]%list_elem_of_In%elem_of_values & Hr). to_prop.
    exists x, r. split; [done|]. split; [done|]. by destruct (resolution r).
  - intros (x & r & Hx & Ht & Hres). exists r. split.
    + apply list_elem_of_In, elem_of_values. eauto.
    + rewrite (proj2 (Z.eqb_eq _ _) Ht). by destruct (resolution r).
Qed.

(** The loop stops at the first time that is not resolved, within its fuel. *)
Lemma advance_loop_spec fuel last rs f :
  0 ≤ f ≤ last → last ≤ i64_max → (Z.to_nat (last - f) ≤ fuel)%nat →
  ∃ f', advance_loop fuel last rs f = Ok f' ∧ f ≤ f' ≤ last ∧
        (∀ t, f < t ≤ f' → resolved_at rs t) ∧ (f' < last → ¬ resolved_at rs (f' + 1)).
Proof.
  revert f. induction fuel as [|fuel IH]; intros f Hf Hlast Hfuel; cbn.
  { exists f. repeat split; try lia. }
  destruct (Z.ltb_spec f last); [|exists f; repeat split; lia].
  assert (i64_checked_add f 1 = Some (f + 1)) as ->.
  { apply i64_checked_add_Some. unfold in_i64, i64_max in *. lia. }
  cbn. destruct (existsb _ _) eqn:Hex.
  - apply existsb_resolved in Hex. destruct (IH (f + 1)) as (f' & Heq & Hr & Hres & Hmax); [lia..|].
    exists f'. split; [done|]. split; [lia|]. split; [|done]. intros t Ht.
    destruct (decide (t = f + 1)) as [->|]; [done|]. apply Hres. lia.
  - exists f. split; [done|]. split; [lia|]. split; [lia|]. intros _ Hr%existsb_resolved. congruence.
Qed.

(** More fuel does not change the loop's result. *)
Lemma advance_loop_fuel last rs f fuel :
  0 ≤ f ≤ last → (Z.to_nat (last - f) ≤ fuel)%nat →
  advance_loop fuel last rs f = advance_loop (Z.to_nat (last - f)) last rs f.
Proof.
  revert f. induction fuel as [|fuel IH]; intros f Hf Hfuel; [by replace (Z.to_nat (last - f)) with 0%nat by lia|].
  destruct (decide (f = last)) as [->|Hne].
  { rewrite Z.sub_diag. cbn. by rewrite Z.ltb_irrefl. }
  replace (Z.to_nat (last - f)) with (S (Z.to_nat (last - (f + 1)))) by lia. cbn.
  destruct (f <? last); [|done]. destruct (i64_checked_add f 1) as [n|] eqn:Hn; [|done]. cbn.
  apply i64_checked_add_Some in Hn as [-> _]. case_match; [|done]. apply IH; lia.
Qed.

Lemma ts_inv_default : ts_inv TimestampState_default.
Proof.
  split; cbn; try (intros; rewrite lookup_empty in *; done).
  - unfold i64_max. lia.
  - lia.
  - lia.
Qed.

(** Below [last_issued] the authority can always issue one more time. *)
Lemma apply_new_timestamp_Ok s t s' :
  apply_new_timestamp s t = Ok s' ↔
  t = last_issued s + 1 ∧ in_i64 (last_issued s + 1) ∧
  s' = mkTimestampState t (published_frontier s) (start_times s) (reservations s).
Proof.
  unfold apply_new_timestamp. destruct (i64_checked_add _ _) as [n|] eqn:Hn; cbn.
  - apply i64_checked_add_Some in Hn as [-> Hr]. destruct (Z.eqb_spec t (last_issued s + 1)); cbn; naive_solver.
  - split; [done|]. intros (-> & Hr & _).
    assert (i64_checked_add (last_issued s) 1 = Some (last_issued s + 1)) by by apply i64_checked_add_Some.
    congruence.
Qed.

Lemma apply_allocate_Ok s x t s' :
  apply s (AllocateStart x t) = Ok s' →
  (start_times s !! x = Some t ∧ s' = s) ∨
  (start_times s !! x = None ∧ t = last_issued s + 1 ∧ published_frontier s = last_issued s ∧
   in_i64 t ∧ s' = mkTimestampState t t (<[x := t]> (start_times s)) (reservations s)) ∨
  (start_times s !! x = None ∧ t = published_frontier s ∧
   s' = mkTimestampState (last_issued s) t (<[x := t]> (start_times s)) (reservations s)).
Proof.
  cbn. destruct (start_times s !! x) as [e|] eqn:Hx.
  { intros Ha. guard_in Ha as He. simplify_eq. to_prop. subst. by left. }
  destruct (i64_checked_add _ _) as [n|] eqn:Hn; cbn; [|done].
  apply i64_checked_add_Some in Hn as [-> Hr]. intros (s1 & Hs1 & [= <-])%bind_Ok. right.
  guard_in Hs1 as Ht; to_prop; subst.
  - left. guard_in Hs1 as Hf. to_prop.
    apply bind_Ok in Hs1 as (s2 & (_ & _ & ->)%apply_new_timestamp_Ok & [= <-]). done.
  - right. guard_in Hs1 as Hf. to_prop. simplify_eq. done.
Qed.

Lemma apply_reserve_Ok s x t s' :
  apply s (ReserveCommit x t) = Ok s' →
  (s' = s ∧ ∃ r, reservations s !! x = Some r ∧ commit_time r = t) ∨
  (reservations s !! x = None ∧ t = last_issued s + 1 ∧ in_i64 t ∧
   s' = mkTimestampState t (published_frontier s) (start_times s)
          (<[x := mkReservation t None]> (reservations s))).
Proof.
  cbn. destruct (reservations s !! x) as [e|] eqn:Hx.
  { intros Ha. guard_in Ha as He. simplify_eq. to_prop. left. eauto. }
  intros (s1 & (-> & Hr & ->)%apply_new_timestamp_Ok & [= <-])%bind_Ok. right. done.
Qed.

Lemma apply_resolve_Ok s x t res s' :
  ts_inv s → apply s (ResolveCommit x t res) = Ok s' →
  (s' = s ∧ reservations s !! x = Some (mkReservation t (Some res))) ∨
  (reservations s !! x = Some (mkReservation t None) ∧
   ∃ f, s' = mkTimestampState (last_issued s) f (start_times s)
               (<[x := mkReservation t (Some res)]> (reservations s)) ∧
        published_frontier s ≤ f ≤ last_issued s ∧
        (∀ t, published_frontier s < t ≤ f → resolved_at (reservations s') t) ∧
        (f < last_issued s → ¬ resolved_at (reservations s') (f + 1))).
Proof.
  intros Hinv. cbn. destruct (reservations s !! x) as [[ct rs]|] eqn:Hx; cbn; [|done].
  destruct (Z.eqb_spec ct t) as [->|]; cbn; [|done]. destruct rs as [e|].
  { case_bool_decide; [|done]. intros [= <-]. subst. by left. }
  unfold advance_published_frontier. cbn -[advance_loop].
  intros (f & Hf & [= <-])%bind_Ok. right. split; [done|]. exists f. split; [done|]. cbn in *.
  destruct (ti_range s Hinv) as [? ?].
  destruct (advance_loop_spec (Z.to_nat (last_issued s - published_frontier s)) (last_issued s)
    (<[x := mkReservation t (Some res)]> (reservations s))
    (published_frontier s)) as (f' & Hf' & ? & ? & ?); [lia|lia|reflexivity|].
  rewrite Hf in Hf'. by simplify_eq.
Qed.

(** ** The invariant is preserved and nothing is lost *)

Lemma apply_allocate_inv s x t s' :
  ts_inv s → apply s (AllocateStart x t) = Ok s' → ts_inv s' ∧ ts_extends s s'.
Proof.
  intros Hinv [(_ & ->)|[(Hn & -> & Hf & Hr & ->)|(Hn & -> & ->)]]%apply_allocate_Ok; [done| |];
    destruct Hinv as [H1 H2 H3 H4 H5 H6 H7].
  - split; split; cbn; try done; try lia.
    + unfold in_i64, i64_max in *. lia.
    + intros y r Hy. specialize (H2 _ _ Hy). lia.
    + intros y r Hy Hle. eapply H5; [done|]. specialize (H2 _ _ Hy). lia.
    + intros y t. rewrite lookup_insert. case_decide; [intros [= <-]; lia|].
      intros Hy%H7. lia.
    + intros y t Hy. rewrite lookup_insert_ne; [done|congruence].
    + eauto.
    + congruence.
  - split; split; cbn; try done; try lia.
    + intros y t. rewrite lookup_insert. case_decide; [intros [= <-]; lia|]. apply H7.
    + intros y t Hy. rewrite lookup_insert_ne; [done|congruence].
    + eauto.
    + congruence.
Qed.

Lemma apply_reserve_inv s x t s' :
  ts_inv s → apply s (ReserveCommit x t) = Ok s' → ts_inv s' ∧ ts_extends s s'.
Proof.
  intros Hinv [(-> & _)|(Hn & -> & Hr & ->)]%apply_reserve_Ok; [done|].
  destruct Hinv as [H1 H2 H3 H4 H5 H6 H7]. split.
  - split; cbn.
    + unfold in_i64, i64_max in *. lia.
    + intros y r. rewrite lookup_insert. case_decide; [intros [= <-]; cbn; lia|].
      intros Hy%H2. lia.
    + intros y z r q. rewrite !lookup_insert. repeat case_decide; intros; simplify_eq; cbn in *; try done.
      * match goal with H : reservations s !! _ = Some _ |- _ => apply H2 in H end. lia.
      * match goal with H : reservations s !! _ = Some _ |- _ => apply H2 in H end. lia.
      * by eapply H3.
    + intros t Ht. destruct (decide (t = last_issued s + 1)) as [->|].
      { exists x, (mkReservation (last_issued s + 1) None). by rewrite lookup_insert_eq. }
      destruct (H4 t) as (y & r & Hy & ?); [lia|]. exists y, r.
      rewrite lookup_insert_ne; [done|congruence].
    + intros y r. rewrite lookup_insert. case_decide; [intros [= <-]; cbn; lia|]. apply H5.
    + intros Hlt (y & r & Hy & Hc & Hres). rewrite lookup_insert in Hy. case_decide; simplify_eq.
      destruct (decide (published_frontier s < last_issued s)) as [Hlt'|].
      { apply (H6 Hlt'). exists y, r. done. }
      apply H2 in Hy. lia.
    + done.
  - split; cbn; try lia; try done.
    + intros y r Hy. exists r. rewrite lookup_insert_ne; [done|congruence].
    + intros y r. rewrite lookup_insert. case_decide; [intros [= <-] _; cbn; lia|congruence].
Qed.

Lemma apply_resolve_inv s x t res s' :
  ts_inv s → apply s (ResolveCommit x t res) = Ok s' → ts_inv s' ∧ ts_extends s s'.
Proof.
  intros Hinv [(-> & _)|(Hx & f & -> & Hf & Hres & Hmax)]%apply_resolve_Ok; [done| |done].
  destruct Hinv as [H1 H2 H3 H4 H5 H6 H7]. cbn in *.
  assert (∀ y r, <[x:=mkReservation t (Some res)]> (reservations s) !! y = Some r →
    ∃ r0, reservations s !! y = Some r0 ∧ commit_time r0 = commit_time r ∧
          (resolution r0 ≠ None → r = r0)) as Hback.
  { intros y r. rewrite lookup_insert. case_decide; [intros [= <-]; subst|by eauto].
    eexists. split; [done|]. by split. }
  split.
  - split; cbn.
    + lia.
    + intros y r (r0 & Hr0 & <- & _)%Hback. eauto.
    + intros y z r q (r0 & Hr0 & Hc & _)%Hback (q0 & Hq0 & Hd & _)%Hback Heq.
      eapply H3; [done|done|congruence].
    + intros u Hu. destruct (H4 u) as (y & r & Hy & Hc); [lia|].
      destruct (decide (x = y)) as [->|].
      * exists y, (mkReservation t (Some res)). rewrite lookup_insert_eq. split; [done|]. by simplify_eq.
      * exists y, r. by rewrite lookup_insert_ne.
    + intros y r Hy Hle. destruct (decide (commit_time r ≤ published_frontier s)).
      * rewrite lookup_insert in Hy. case_decide; [by simplify_eq|by eapply H5].
      * destruct (Hres (commit_time r)) as (z & q & Hz & Hq & Hqr); [lia|].
        assert (z = y) as ->.
        { apply Hback in Hy as (r0 & Hr0 & Hc & _). apply Hback in Hz as (q0 & Hq0 & Hd & _).
          eapply H3; [done|done|congruence]. }
        congruence.
    + done.
    + intros y u Hy%H7. lia.
  - split; cbn; try lia; try done.
    + intros y r Hy. rewrite lookup_insert. case_decide; [subst|by eauto].
      eexists. split; [done|]. simplify_eq. by split.
    + intros y r (r0 & Hr0 & _)%Hback Hn. congruence.
Qed.

Lemma apply_inv s c s' : ts_inv s → apply s c = Ok s' → ts_inv s' ∧ ts_extends s s'.
Proof.
  destruct c; eauto using apply_allocate_inv, apply_reserve_inv, apply_resolve_inv.
Qed.

(** ** Operations *)

Lemma stage_operation_Ok s op s' t oc :
  stage_operation s op = Ok (s', (t, oc)) →
  match oc with Some c => apply s c = Ok s' | None => s' = s end.
Proof.
  destruct op as [x|x|x ct res]; cbn -[apply next_start_time next_timestamp].
  - destruct (start_times s !! x); [by intros [= <- <- <-]|].
    intros (u & _ & (s1 & Ha & [= <- <- <-])%bind_Ok)%bind_Ok. done.
  - destruct (reservations s !! x); [by intros [= <- <- <-]|].
    intros (u & _ & (s1 & Ha & [= <- <- <-])%bind_Ok)%bind_Ok. done.
  - intros (r & _ & Hok)%bind_Ok. guard_in Hok as Hc. destruct (resolution r) as [e|].
    + guard_in Hok as He. by simplify_eq.
    + apply bind_Ok in Hok as (s1 & Ha & [= <- <- <-]). done.
Qed.

Lemma stage_operation_inv s op s' r :
  ts_inv s → stage_operation s op = Ok (s', r) → ts_inv s' ∧ ts_extends s s'.
Proof.
  intros Hs. destruct r as [t [c|]]; intros Hok%stage_operation_Ok; [by eapply apply_inv|by subst].
Qed.

Lemma run_operation_inv s op : ts_inv s → ts_inv (run_operation s op) ∧ ts_extends s (run_operation s op).
Proof.
  intros Hs. unfold run_operation. destruct (stage_operation s op) as [[s' r]|] eqn:Hop; [|done].
  by eapply stage_operation_inv.
Qed.

Lemma run_operations_inv s ops : ts_inv s → ts_inv (run_operations s ops) ∧ ts_extends s (run_operations s ops).
Proof.
  revert s. induction ops as [|op ops IH]; intros s Hs; cbn; [done|].
  destruct (run_operation_inv s op Hs) as [Hs' He]. destruct (IH _ Hs') as [Hs'' He'].
  split; [done|]. by transitivity (run_operation s op).
Qed.

Lemma allocate_recorded s x s' t oc :
  stage_operation s (OpAllocateStart x) = Ok (s', (t, oc)) → start_times s' !! x = Some t.
Proof.
  cbn -[apply]. destruct (start_times s !! x) eqn:Hx; [by intros [= <- <- <-]|].
  intros (u & _ & (s1 & Ha & [= <- <- <-])%bind_Ok)%bind_Ok.
  apply apply_allocate_Ok in Ha as [(? & ->)|[(_ & -> & _ & _ & ->)|(_ & -> & ->)]]; [done|..];
    apply lookup_insert_eq.
Qed.

Lemma reserve_recorded s x s' t oc :
  stage_operation s (OpReserveCommit x) = Ok (s', (t, oc)) →
  ∃ r, reservations s' !! x = Some r ∧ commit_time r = t.
Proof.
  cbn -[apply]. destruct (reservations s !! x) eqn:Hx; [intros [= <- <- <-]; eauto|].
  intros (u & _ & (s1 & Ha & [= <- <- <-])%bind_Ok)%bind_Ok.
  apply apply_reserve_Ok in Ha as [(-> & ?)|(_ & -> & _ & ->)]; [done|].
  cbn. rewrite lookup_insert_eq. eauto.
Qed.

Lemma i64_next s : ts_inv s → last_issued s < i64_max →
  i64_checked_add (last_issued s) 1 = Some (last_issued s + 1).
Proof.
  intros Hs Hlt. apply i64_checked_add_Some. destruct (ti_range s Hs). unfold in_i64, i64_max in *. lia.
Qed.

Lemma next_timestamp_Ok s : ts_inv s → last_issued s < i64_max →
  next_timestamp s = Ok (last_issued s + 1).
Proof.
  intros Hs Hlt. unfold next_timestamp. rewrite i64_next by done. cbn.
  destruct (ti_range s Hs). unfold TransactionTime_new. by rewrite (proj2 (Z.leb_le _ _)) by lia.
Qed.

(** While a commit time is pending a new transaction starts at the frontier, and otherwise at the
    next time, which is then published at once. *)
Lemma next_start_time_Ok s : ts_inv s → last_issued s < i64_max →
  next_start_time s =
    Ok (if decide (published_frontier s = last_issued s) then last_issued s + 1
        else published_frontier s).
Proof.
  intros Hs Hlt. destruct (ti_range s Hs) as [Hr _]. unfold next_start_time.
  destruct (existsb _ _) eqn:Hex.
  - apply existsb_exists in Hex as (r & [x Hx]%list_elem_of_In%elem_of_values & Hun).
    unfold TransactionTime_new. rewrite (proj2 (Z.leb_le _ _)) by lia. cbn.
    case_decide as Heq; [|done]. exfalso.
    eapply (ti_resolved s Hs); [done| |unfold is_resolved in Hun; by destruct (resolution r)].
    pose proof (ti_reserved s Hs _ _ Hx). lia.
  - case_decide as Heq; [by apply next_timestamp_Ok|]. exfalso.
    destruct (ti_covered s Hs (published_frontier s + 1)) as (x & r & Hx & Hc); [lia|].
    apply (ti_maximal s Hs); [lia|]. exists x, r. split; [done|]. split; [done|].
    apply existsb_false in Hex. rewrite Forall_forall in Hex.
    specialize (Hex r). rewrite elem_of_values in Hex. specialize (Hex (ex_intro _ x Hx)).
    unfold is_resolved in Hex. by destruct (resolution r).
Qed.

Lemma apply_new_timestamp_next s : ts_inv s → last_issued s < i64_max →
  apply_new_timestamp s (last_issued s + 1) =
    Ok (mkTimestampState (last_issued s + 1) (published_frontier s) (start_times s) (reservations s)).
Proof.
  intros Hs Hlt. apply apply_new_timestamp_Ok. split; [done|]. split; [|done].
  destruct (ti_range s Hs). unfold in_i64, i64_max in *. lia.
Qed.

(** Below the end of the time axis neither kind of allocation fails. *)
Lemma stage_allocate_live s x : ts_inv s → last_issued s < i64_max →
  is_ok (stage_operation s (OpAllocateStart x)) = true.
Proof.
  intros Hs Hlt. cbn -[next_start_time]. destruct (start_times s !! x) eqn:Hx; [done|].
  rewrite next_start_time_Ok by done. cbn. rewrite i64_next by done. cbn.
  case_decide as Heq.
  - rewrite Z.eqb_refl, (proj2 (Z.eqb_eq _ _) Heq). cbn.
    by rewrite apply_new_timestamp_next.
  - destruct (Z.eqb_spec (published_frontier s) (last_issued s + 1)) as [He|];
      [destruct (ti_range s Hs); lia|]. by rewrite Z.eqb_refl.
Qed.

Lemma stage_reserve_live s x : ts_inv s → last_issued s < i64_max →
  is_ok (stage_operation s (OpReserveCommit x)) = true.
Proof.
  intros Hs Hlt. cbn -[next_timestamp]. destruct (reservations s !! x) eqn:Hx; [done|].
  rewrite next_timestamp_Ok by done. cbn.
  by rewrite apply_new_timestamp_next.
Qed.

(** A resolution succeeds exactly when it names the reserved time and agrees with an earlier one. *)
Lemma stage_resolve_live s x ct res : ts_inv s →
  is_ok (stage_operation s (OpResolveCommit x ct res)) = true ↔
  ∃ o, reservations s !! x = Some (mkReservation ct o) ∧ (o = None ∨ o = Some res).
Proof.
  intros Hs. cbn -[advance_published_frontier].
  destruct (reservations s !! x) as [[ct' o]|] eqn:Hx; cbn -[advance_published_frontier]; [|naive_solver].
  destruct (Z.eqb_spec ct' ct) as [->|]; cbn -[advance_published_frontier]; [|naive_solver].
  destruct o as [e|]; [case_bool_decide; naive_solver|]. split; [naive_solver|intros _].
  unfold advance_published_frontier. cbn -[advance_loop]. destruct (ti_range s Hs).
  destruct (advance_loop_spec (Z.to_nat (last_issued s - published_frontier s)) (last_issued s)
    (<[x := mkReservation ct (Some res)]> (reservations s))
    (published_frontier s)) as (f' & -> & _); [lia|lia|reflexivity|]. done.
Qed.
