(* ===== verification/TimestampLog.v ===== *)
(** * The timestamp log ([dtg-transaction/src/timestamp.rs]): codec, batches and durability

    The command codec accepts exactly the encodings of well-formed commands; a batch behaves as its
    operations in sequence; opening the authority on its own log rebuilds its state. *)

From S2P Require Import Prelude Kernel Encoding Storage TxnError Timestamp.
Open Scope Z_scope.

(** ** A log for evaluation: its entries, and the outcome of each append to come *)

Record ScriptedLog := mkScriptedLog { sl_entries : list bytes; sl_failures : list (option TxnError) }.

#[export] Instance scripted_log : TimestampCommandLog ScriptedLog := {
  replay log := Ok (sl_entries log);
  append_batch commands log :=
    match sl_failures log with
    | Some e :: rest => (Err e, mkScriptedLog (sl_entries log) rest)
    | None :: rest => (Ok tt, mkScriptedLog (sl_entries log ++ commands) rest)
    | [] => (Ok tt, mkScriptedLog (sl_entries log ++ commands) [])
    end;
}.

#[export] Instance scripted_log_laws : TimestampCommandLogLaws ScriptedLog.
Proof.
  split; intros [entries [|[e|] rest]] log' commands en; cbn; intros; simplify_eq; done.
Qed.

(** An authority is recoverable when opening its log gives it back. *)
Definition recoverable (blake3 : bytes → Digest32) {L} `{TimestampCommandLog L}
    (a : DurableTimestampAuthority L) : Prop :=
  authority_open blake3 (ta_log a) = Ok a.

(** Applying commands in order, without their encoding. *)
Fixpoint apply_all (s : TimestampState) (commands : list TimestampCommand) : result TxnError TimestampState :=
  match commands with
  | [] => Ok s
  | c :: commands => s ← apply s c; apply_all s commands
  end.

(** What happens to an authority: batches, and restarts that open the log again. *)
Inductive authority_step (blake3 : bytes → Digest32) {L} `{TimestampCommandLog L}
    : relation (DurableTimestampAuthority L) :=
| step_batch a ops : Forall operation_wf ops → authority_step blake3 a (apply_batch blake3 a ops).2
| step_reopen a a' : authority_open blake3 (ta_log a) = Ok a' → authority_step blake3 a a'.

(** A fresh authority, on an empty log whose appends succeed. *)
Definition fresh_authority : DurableTimestampAuthority ScriptedLog :=
  mkAuthority (mkScriptedLog [] []) TimestampState_default.

(** ** The codec *)

Lemma layout_fields (m v i t d : bytes) tag r :
  length m = 4%nat → length v = 2%nat → length i = 16%nat → length t = 8%nat →
  let bs := m ++ v ++ [tag] ++ i ++ t ++ [r] ++ d in
  take 4 bs = m ∧ slice 4 6 bs = v ∧ nth 6 bs 0 = tag ∧ slice 7 23 bs = i ∧
  slice 23 31 bs = t ∧ nth 31 bs 0 = r ∧
  take 32 bs = m ++ v ++ [tag] ++ i ++ t ++ [r] ∧ drop 32 bs = d.
Proof.
  intros Hm Hv Hi Ht.
  repeat (destruct m as [|? m]; try discriminate Hm).
  repeat (destruct v as [|? v]; try discriminate Hv).
  repeat (destruct i as [|? i]; try discriminate Hi).
  repeat (destruct t as [|? t]; try discriminate Ht).
  repeat split; reflexivity.
Qed.

Lemma layout_split (bs : bytes) : length bs = 64%nat →
  bs = take 4 bs ++ slice 4 6 bs ++ [nth 6 bs 0] ++ slice 7 23 bs ++ slice 23 31 bs ++
       [nth 31 bs 0] ++ drop 32 bs.
Proof.
  intros Hlen. rewrite <-(take_drop 4 bs) at 1. f_equal.
  rewrite (slice_split 4 6) by lia. f_equal.
  rewrite (drop_nth 0 6) by lia. cbn [app]. f_equal.
  rewrite (slice_split 7 23) by lia. f_equal.
  rewrite (slice_split 23 31) by lia. f_equal.
  by rewrite (drop_nth 0 31) by lia.
Qed.

Lemma length_command_prefix c : length (command_prefix c) = COMMAND_PREFIX_BYTES.
Proof. by destruct c. Qed.

Section codec_proofs.
Context (blake3 : bytes → Digest32) (blake3_length : ∀ bs, length (blake3 bs) = 32%nat).

Lemma decode_encode_command c : command_wf c → decode_command blake3 (encode_command blake3 c) = Ok c.
Proof.
  intros [[Hid Hid0] [Ht Ht0]]. set (d := command_digest blake3 (command_prefix c)).
  set (tag := match c with AllocateStart _ _ => 1 | ReserveCommit _ _ => 2 | _ => 3 end).
  set (res := match c with ResolveCommit _ _ r => resolution_tag r | _ => 0 end).
  assert (command_prefix c = COMMAND_MAGIC ++ be_bytes 2 COMMAND_VERSION ++ [tag] ++
    be_bytes 16 (command_transaction_id c) ++ be_bytes 8 (command_timestamp c) ++ [res]) as Hp
    by (destruct c; done).
  destruct (layout_fields COMMAND_MAGIC (be_bytes 2 COMMAND_VERSION)
    (be_bytes 16 (command_transaction_id c)) (be_bytes 8 (command_timestamp c)) d tag res)
    as (E1 & E2 & E3 & E4 & E5 & E6 & E7 & E8); [done|apply length_be_bytes..|].
  assert (encode_command blake3 c = COMMAND_MAGIC ++ be_bytes 2 COMMAND_VERSION ++ [tag] ++
    be_bytes 16 (command_transaction_id c) ++ be_bytes 8 (command_timestamp c) ++ [res] ++ d) as Hbs.
  { unfold encode_command. fold d. rewrite Hp at 1. by rewrite <-!app_assoc. }
  unfold decode_command. rewrite (proj2 (Nat.eqb_eq _ COMMAND_BYTES)).
  2: { unfold encode_command. rewrite length_app, length_command_prefix. unfold command_digest.
       by rewrite blake3_length. }
  rewrite Hbs, E1, E2, E3, E4, E5, E6. unfold COMMAND_PREFIX_BYTES. rewrite E7, E8, <-Hp.
  rewrite !bool_decide_true by done. rewrite !be_value_be_bytes, i64_round_trip by done.
  change (COMMAND_VERSION mod _ =? _) with true. cbn [negb orb].
  rewrite Z.mod_small by done. unfold TransactionId_new, TransactionTime_new.
  rewrite (proj2 (Z.eqb_neq (command_transaction_id c) 0)), (proj2 (Z.leb_le 0 (command_timestamp c))) by done.
  by destruct c as [| |? ? []].
Qed.

Lemma decode_command_Ok bs c : Forall byte_ok bs → decode_command blake3 bs = Ok c →
  command_wf c ∧ bs = encode_command blake3 c.
Proof.
  intros Hbs. unfold decode_command. intros Hd. guard_in Hd as H1.
  apply orb_false_iff in H1 as [[Hlen Hm]%orb_false_iff Hv]. guard_in Hd as H2. to_prop.
  apply bind_Ok in Hd as (x & Hx & (t & Ht & Hd)%bind_Ok).
  assert (length bs = 64%nat) as Hl by by apply Nat.eqb_eq.
  pose proof (Forall_slice _ 7 23 _ Hbs) as Hi. pose proof (Forall_slice _ 23 31 _ Hbs) as Hts.
  assert (x = be_value (slice 7 23 bs) ∧ x ≠ 0) as [-> Hx0].
  { unfold TransactionId_new in Hx. destruct (Z.eqb_spec (be_value (slice 7 23 bs)) 0); by simplify_eq/=. }
  assert (t = i64_of_be_bytes (slice 23 31 bs) ∧ 0 ≤ t) as [-> Ht0].
  { unfold TransactionTime_new in Ht. destruct (Z.leb_spec 0 (i64_of_be_bytes (slice 23 31 bs))); by simplify_eq/=. }
  assert (command_transaction_id c = be_value (slice 7 23 bs) ∧
          command_timestamp c = i64_of_be_bytes (slice 23 31 bs) ∧
          command_prefix c = take COMMAND_PREFIX_BYTES bs) as (Hcx & Hct & Hcp); [|split].
  - destruct (layout_fields (take 4 bs) (slice 4 6 bs) (slice 7 23 bs) (slice 23 31 bs)
      (drop 32 bs) (nth 6 bs 0) (nth 31 bs 0)) as (_ & _ & _ & _ & _ & _ & E7 & _);
      [rewrite ?length_take, ?length_slice by lia; lia..|].
    rewrite <-layout_split in E7 by done. unfold COMMAND_PREFIX_BYTES. rewrite E7.
    assert (be_bytes 2 COMMAND_VERSION = slice 4 6 bs) as <-.
    { rewrite <-Hv. apply be_bytes_be_value; [|by apply Forall_slice]. by rewrite length_slice by lia. }
    rewrite Hm.
    assert (be_bytes 16 (be_value (slice 7 23 bs)) = slice 7 23 bs) as Hx16
      by (apply be_bytes_be_value; [by rewrite length_slice by lia|done]).
    assert (be_bytes 8 (i64_of_be_bytes (slice 23 31 bs)) = slice 23 31 bs) as Ht8
      by (apply i64_bytes_round_trip; [by rewrite length_slice by lia|done]).
    repeat (let Hg := fresh in guard_in Hd as Hg; try (injection Hd as <-;
      apply andb_true_iff in Hg as [-> %Z.eqb_eq -> %Z.eqb_eq]; split; [done|]; split; [done|];
      unfold command_prefix, command_transaction_id, command_timestamp; by rewrite Hx16, Ht8)).
  - unfold command_wf. rewrite Hcx, Hct. pose proof (be_value_bound _ Hi) as Hb.
    rewrite length_slice in Hb by lia. split; (split; [|done]); [done|].
    apply i64_of_be_bytes_range; [by rewrite length_slice by lia|done].
  - unfold encode_command. rewrite Hcp, H2. by rewrite take_drop.
Qed.

(** The decoder accepts exactly the encodings of well-formed commands. *)
Lemma decode_command_iff bs c : Forall byte_ok bs →
  decode_command blake3 bs = Ok c ↔ command_wf c ∧ bs = encode_command blake3 c.
Proof.
  intros Hbs. split; [by apply decode_command_Ok|]. intros [Hc ->]. by apply decode_encode_command.
Qed.
End codec_proofs.

(** ** Batches *)

Lemma run_batch_acc s cs rs ps ops :
  foldl batch_step (mkBatchAcc s cs rs ps) ops =
    mkBatchAcc (run_operations s ops) (cs ++ batch_commands s ops) (rs ++ batch_results s ops)
      (ps ++ batch_indices (length rs) s ops).
Proof.
  revert s cs rs ps. induction ops as [|op ops IH]; intros s cs rs ps; cbn.
  { by rewrite !app_nil_r. }
  unfold batch_step, run_operation, op_command, op_result at 1. cbn [ba_staged ba_commands ba_results ba_persisted].
  destruct (stage_operation s op) as [[s' [t [c|]]]|e]; rewrite IH, ?length_app; cbn;
    rewrite <-?app_assoc, ?Nat.add_1_r; done.
Qed.

Lemma fail_persisted_spec e rs s ops :
  fail_persisted e (batch_indices (length rs) s ops) (rs ++ batch_results s ops) =
    rs ++ batch_failed e s ops.
Proof.
  revert s rs. induction ops as [|op ops IH]; intros s rs; cbn; [done|].
  destruct (op_command s op) as [c|]; cbn.
  - rewrite insert_app_r_alt, Nat.sub_diag by lia. cbn.
    specialize (IH (run_operation s op) (rs ++ [Err e])).
    rewrite length_app, Nat.add_1_r, <-!app_assoc in IH. exact IH.
  - specialize (IH (run_operation s op) (rs ++ [op_result s op])).
    rewrite length_app, Nat.add_1_r, <-!app_assoc in IH. exact IH.
Qed.

Lemma run_operation_command s op :
  match op_command s op with
  | Some c => apply s c = Ok (run_operation s op)
  | None => run_operation s op = s
  end.
Proof.
  unfold op_command, run_operation. destruct (stage_operation s op) as [[s' [t oc]]|e] eqn:Hop; [|done].
  by apply stage_operation_Ok in Hop.
Qed.

(** The logged commands alone carry the batch's effect on the state. *)
Lemma apply_all_commands s ops : apply_all s (batch_commands s ops) = Ok (run_operations s ops).
Proof.
  revert s. induction ops as [|op ops IH]; intros s; cbn; [done|].
  pose proof (run_operation_command s op) as Hop. destruct (op_command s op) as [c|]; cbn.
  - rewrite Hop. cbn. apply IH.
  - rewrite Hop. apply IH.
Qed.

Section batches.
Context (blake3 : bytes → Digest32) {L : Type} `{TimestampCommandLog L}.

(** [apply_batch] against the sequential reference. *)
Lemma apply_batch_unfold (a : DurableTimestampAuthority L) ops :
  apply_batch blake3 a ops =
    match batch_commands (ta_state a) ops with
    | [] => (batch_results (ta_state a) ops, a)
    | commands =>
        match append_batch (map (encode_command blake3) commands) (ta_log a) with
        | (Err e, log) => (batch_failed e (ta_state a) ops, mkAuthority log (ta_state a))
        | (Ok _, log) => (batch_results (ta_state a) ops, mkAuthority log (run_operations (ta_state a) ops))
        end
    end.
Proof.
  unfold apply_batch, run_batch. rewrite run_batch_acc. cbn [ba_staged ba_commands ba_results ba_persisted app length].
  destruct (batch_commands (ta_state a) ops) as [|c cs]; [done|].
  destruct (append_batch _ _) as [[]]; [done|].
  by rewrite (fail_persisted_spec _ [] (ta_state a) ops).
Qed.
End batches.

(** ** Durability *)

Lemma op_command_wf s op c : ts_inv s → operation_wf op → op_command s op = Some c → command_wf c.
Proof.
  intros Hs Hop. unfold op_command. destruct (stage_operation s op) as [[s' [t oc]]|e] eqn:Hst; [|done].
  intros ->. destruct (stage_operation_inv _ _ _ _ Hs Hst) as [Hs' Hext].
  assert (∀ t, 0 ≤ t ≤ last_issued s' → time_wf t) as Hwf.
  { intros u Hu. destruct (ti_range s' Hs'). unfold time_wf, in_i64, i64_max in *. lia. }
  destruct (ti_range s' Hs') as [Hr _].
  destruct op as [x|x|x ct res].
  - pose proof (allocate_recorded _ _ _ _ _ Hst) as Hx%(ti_started s' Hs').
    cbn -[apply] in Hst. destruct (start_times s !! x); [done|].
    apply bind_Ok in Hst as (u & _ & (s1 & _ & [= <- <- <-])%bind_Ok). split; [done|]. apply Hwf. cbn. lia.
  - pose proof (reserve_recorded _ _ _ _ _ Hst) as (r & Hx%(ti_reserved s' Hs') & Hct).
    cbn -[apply] in Hst. destruct (reservations s !! x); [done|].
    apply bind_Ok in Hst as (u & _ & (s1 & _ & [= <- <- <-])%bind_Ok). split; [done|]. apply Hwf. cbn. lia.
  - cbn -[apply] in Hst. apply bind_Ok in Hst as (r & Hx & Hst). guard_in Hst as Hct. to_prop.
    destruct (reservations s !! x) as [r'|] eqn:Hr'; simplify_eq/=.
    destruct (resolution r); [by guard_in Hst as He|].
    apply bind_Ok in Hst as (s1 & Ha & [= <- <- <-]). split; [done|]. cbn.
    pose proof (ti_reserved s Hs _ _ Hr'). pose proof (te_last _ _ Hext). apply Hwf. lia.
Qed.

Lemma batch_commands_wf s ops : ts_inv s → Forall operation_wf ops → Forall command_wf (batch_commands s ops).
Proof.
  intros Hs Hops. revert s Hs. induction Hops as [|op ops Hop _ IH]; intros s Hs; cbn; [done|].
  apply Forall_app. split; [|by apply IH, run_operation_inv].
  destruct (op_command s op) as [c|] eqn:Hc; constructor; [|done]. by eapply op_command_wf.
Qed.

Section durability.
Context (blake3 : bytes → Digest32) (blake3_length : ∀ bs, length (blake3 bs) = 32%nat).

Lemma replay_commands_app s l k :
  replay_commands blake3 s (l ++ k) = s ← replay_commands blake3 s l; replay_commands blake3 s k.
Proof.
  revert s. induction l as [|bs l IH]; intros s; [done|]. cbn.
  destruct (decode_command blake3 bs); cbn; [|done]. destruct (apply s _); cbn; [|done]. apply IH.
Qed.

Lemma replay_encoded s cs : Forall command_wf cs →
  replay_commands blake3 s (map (encode_command blake3) cs) = apply_all s cs.
Proof.
  intros Hcs. revert s. induction Hcs as [|c cs Hc _ IH]; intros s; [done|]. cbn.
  rewrite decode_encode_command by done. cbn. destruct (apply s c); cbn; [|done]. apply IH.
Qed.

(** Replaying a log, whatever bytes it holds, only ever yields a well-formed state. *)
Lemma replay_commands_inv s l s' : ts_inv s → replay_commands blake3 s l = Ok s' → ts_inv s'.
Proof.
  revert s. induction l as [|bs l IH]; intros s Hs; cbn; [by intros [= <-]|].
  intros (c & _ & (s1 & Hs1 & Hl)%bind_Ok)%bind_Ok.
  apply apply_inv in Hs1 as [Hs1 _]; [|done]. by apply IH in Hl.
Qed.

Context {L : Type} `{TimestampCommandLogLaws L}.

Lemma recoverable_inv (a : DurableTimestampAuthority L) : recoverable blake3 a → ts_inv (ta_state a).
Proof.
  intros (entries & _ & (s & Hs & [= <-])%bind_Ok)%bind_Ok.
  by eapply replay_commands_inv, Hs; apply ts_inv_default.
Qed.

Lemma apply_batch_recoverable (a : DurableTimestampAuthority L) ops :
  recoverable blake3 a → Forall operation_wf ops → recoverable blake3 (apply_batch blake3 a ops).2.
Proof.
  intros Ha Hops. pose proof (recoverable_inv a Ha) as Hinv.
  pose proof (batch_commands_wf _ _ Hinv Hops) as Hcs.
  pose proof (apply_all_commands (ta_state a) ops) as Hall.
  unfold recoverable, authority_open in *. apply bind_Ok in Ha as (entries & He & (s & Hs & Ha)%bind_Ok).
  assert (ta_state a = s) as <- by (injection Ha as <-; done).
  rewrite apply_batch_unfold. destruct (batch_commands (ta_state a) ops) as [|c cs]; cbn [snd].
  { rewrite He. cbn. rewrite Hs. done. }
  destruct (append_batch _ _) as [[[]|e] log] eqn:Hap; cbn [snd ta_log].
  - rewrite (append_batch_ok _ _ _ _ He Hap). cbn [mbind result_bind].
    rewrite replay_commands_app, Hs. cbn [mbind result_bind]. rewrite replay_encoded, Hall by done. done.
  - rewrite (append_batch_err _ _ _ _ _ He Hap). cbn [mbind result_bind]. by rewrite Hs.
Qed.

Lemma apply_batch_extends (a : DurableTimestampAuthority L) ops :
  ts_inv (ta_state a) → ts_extends (ta_state a) (ta_state (apply_batch blake3 a ops).2).
Proof.
  intros Ha. rewrite apply_batch_unfold. destruct (batch_commands _ _); [done|].
  destruct (append_batch _ _) as [[]]; cbn; [|done]. by apply run_operations_inv.
Qed.

Lemma authority_steps_extend (a a' : DurableTimestampAuthority L) :
  recoverable blake3 a → rtc (authority_step blake3) a a' →
  recoverable blake3 a' ∧ ts_extends (ta_state a) (ta_state a').
Proof.
  intros Ha Hrtc. revert Ha. induction Hrtc as [a|a a1 a2 Hstep _ IH]; intros Ha; [done|].
  assert (recoverable blake3 a1 ∧ ts_extends (ta_state a) (ta_state a1)) as [Ha1 He].
  { destruct Hstep as [a ops Hops|a a1 Hopen].
    - split; [by apply apply_batch_recoverable|]. by apply apply_batch_extends, recoverable_inv.
    - unfold recoverable in Ha. rewrite Ha in Hopen. by injection Hopen as <-. }
  destruct (IH Ha1) as [Ha2 He']. split; [done|]. by transitivity (ta_state a1).
Qed.

(** The trait's methods are one-operation batches; an [Ok] means that the command is in the log. *)
Lemma one_operation_Ok (a a' : DurableTimestampAuthority L) op t :
  one_result (apply_batch blake3 a [op]) = (Ok t, a') →
  op_result (ta_state a) op = Ok t ∧ ta_state a' = run_operation (ta_state a) op.
Proof.
  rewrite apply_batch_unfold. cbn. pose proof (run_operation_command (ta_state a) op) as Hop.
  destruct (op_command (ta_state a) op) as [c|] eqn:Hc; cbn.
  - destruct (append_batch _ _) as [[u|e] log]; cbn; unfold one_result; cbn; [|done].
    destruct (op_result _ _); cbn; intros [= <- <-]; done.
  - unfold one_result; cbn. destruct (op_result _ _); cbn; intros [= <- <-]. done.
Qed.

Lemma one_operation_step (a : DurableTimestampAuthority L) op :
  operation_wf op → authority_step blake3 a (one_result (apply_batch blake3 a [op])).2.
Proof. intros Hop. apply (step_batch _ a [op]). by constructor. Qed.

Lemma op_result_Ok s op t : op_result s op = Ok t →
  ∃ oc, stage_operation s op = Ok (run_operation s op, (t, oc)).
Proof.
  unfold op_result, run_operation. destruct (stage_operation s op) as [[s' [t' oc]]|]; [|done].
  intros [= <-]. eauto.
Qed.

Lemma allocate_start_time_Ok (a a' : DurableTimestampAuthority L) x t :
  allocate_start_time blake3 a x = (Ok t, a') → start_times (ta_state a') !! x = Some t.
Proof.
  intros [(oc & Hop)%op_result_Ok ->]%one_operation_Ok. by eapply allocate_recorded.
Qed.

Lemma reserve_commit_time_Ok (a a' : DurableTimestampAuthority L) x t :
  reserve_commit_time blake3 a x = (Ok t, a') →
  ∃ r, reservations (ta_state a') !! x = Some r ∧ commit_time r = t.
Proof.
  intros [(oc & Hop)%op_result_Ok ->]%one_operation_Ok. by eapply reserve_recorded.
Qed.

Lemma allocate_again (a : DurableTimestampAuthority L) x t :
  start_times (ta_state a) !! x = Some t → allocate_start_time blake3 a x = (Ok t, a).
Proof.
  intros Hx. unfold allocate_start_time, one_result. rewrite apply_batch_unfold. cbn.
  unfold op_command, op_result. cbn. by rewrite Hx.
Qed.

Lemma reserve_again (a : DurableTimestampAuthority L) x r :
  reservations (ta_state a) !! x = Some r → reserve_commit_time blake3 a x = (Ok (commit_time r), a).
Proof.
  intros Hx. unfold reserve_commit_time, one_result. rewrite apply_batch_unfold. cbn.
  unfold op_command, op_result. cbn. by rewrite Hx.
Qed.
End durability.

(** ** Properties *)

Section properties.
Context (blake3 : bytes → Digest32) (blake3_length : ∀ bs, length (blake3 bs) = 32%nat).
Context {L : Type} `{TimestampCommandLogLaws L}.

(** C6. Whatever batches and restarts follow, an authority that its log can rebuild stays one, its
    state keeps the invariant (commit times unique and within the issued range, the frontier the
    end of the resolved prefix, start times published), and start times, reservations and
    resolutions once made are never changed. *)
Theorem authority_invariant (a a' : DurableTimestampAuthority L) :
  recoverable blake3 a → rtc (authority_step blake3) a a' →
  recoverable blake3 a' ∧ ts_inv (ta_state a') ∧ ts_extends (ta_state a) (ta_state a').
Proof.
  intros Ha Hrtc. destruct (authority_steps_extend blake3 blake3_length a a' Ha Hrtc) as [Ha' He].
  split; [done|]. split; [by eapply recoverable_inv|done].
Qed.



(** A batch behaves as its operations one after the other: the results are those of the
    sequential run; the new commands are appended at once; when the append fails, the state stays
    as it was and every operation that logged a command reports the failure. *)
Theorem apply_batch_sequential (a : DurableTimestampAuthority L) ops :
  apply_batch blake3 a ops =
    match batch_commands (ta_state a) ops with
    | [] => (batch_results (ta_state a) ops, a)
    | commands =>
        match append_batch (map (encode_command blake3) commands) (ta_log a) with
        | (Err e, log) => (batch_failed e (ta_state a) ops, mkAuthority log (ta_state a))
        | (Ok _, log) => (batch_results (ta_state a) ops, mkAuthority log (run_operations (ta_state a) ops))
        end
    end.
Proof. apply apply_batch_unfold. Qed.

(** The log decoder accepts exactly the encodings of well-formed commands, and returns the
    command that was encoded. *)
Theorem decode_command_spec bs c : Forall byte_ok bs →
  decode_command blake3 bs = Ok c ↔ command_wf c ∧ bs = encode_command blake3 c.
Proof. by apply decode_command_iff. Qed.

(** Before the time axis is exhausted the authority refuses no start or commit time, and a
    resolution succeeds exactly for the reserved time and the resolution recorded, if any. *)
Theorem authority_live (a : DurableTimestampAuthority L) x ct res :
  recoverable blake3 a → last_issued (ta_state a) < i64_max →
  is_ok (op_result (ta_state a) (OpAllocateStart x)) = true ∧
  is_ok (op_result (ta_state a) (OpReserveCommit x)) = true ∧
  (is_ok (op_result (ta_state a) (OpResolveCommit x ct res)) = true ↔
   ∃ o, commit_time_reservation a x = Some (mkReservation ct o) ∧ (o = None ∨ o = Some res)).
Proof.
  intros Ha%recoverable_inv Hlt.
  assert (∀ op, is_ok (op_result (ta_state a) op) = is_ok (stage_operation (ta_state a) op)) as Hok.
  { intros op. unfold op_result. by destruct (stage_operation _ _) as [[? []]|]. }
  rewrite !Hok. split; [by apply stage_allocate_live|]. split; [by apply stage_reserve_live|].
  by apply stage_resolve_live.
Qed.
End properties.

(** A failed append does not fail every operation that depended on it: when a batch holds the
    same reservation twice, the second is answered from the staged state, logs nothing, and keeps
    its [Ok] although the state and the log are as before; the same commit time is then given to
    another transaction. *)
Theorem failed_append_acknowledges_duplicate blake3 :
  let failure := TxnStorage "append failed" in
  let a := mkAuthority (mkScriptedLog [] [Some failure]) TimestampState_default in
  let '(results, a1) := apply_batch blake3 a [OpReserveCommit 1; OpReserveCommit 1] in
  results = [Err failure; Ok 1] ∧ ta_state a1 = TimestampState_default ∧ replay (ta_log a1) = Ok [] ∧
  (apply_batch blake3 a1 [OpReserveCommit 2]).1 = [Ok 1].
Proof. repeat split; reflexivity. Qed.

(** ** The properties on concrete runs *)

Lemma fresh_recoverable : recoverable checksum32 fresh_authority.
Proof. reflexivity. Defined.

(** Transaction 1 commits at time 1 and transaction 2 starts at time 2; transaction 3 then reserves. *)
Definition example_commit : DurableTimestampAuthority ScriptedLog :=
  (apply_batch checksum32 fresh_authority [OpReserveCommit 1; OpResolveCommit 1 1 ResCommitted]).2.

Lemma example_commit_recoverable : recoverable checksum32 example_commit.
Proof. vm_compute. reflexivity. Defined.

Lemma example_step (a : DurableTimestampAuthority ScriptedLog) :
  rtc (authority_step checksum32) a (apply_batch checksum32 a [OpReserveCommit 3]).2.
Proof. apply rtc_once, step_batch. repeat constructor; done. Defined.

Lemma authority_invariant_witness :
  ts_extends (ta_state example_commit)
    (ta_state (apply_batch checksum32 example_commit [OpReserveCommit 3]).2).
Proof.
  apply (authority_invariant checksum32 checksum32_length example_commit);
    [apply example_commit_recoverable|apply example_step].
Defined.



Lemma decode_command_spec_witness :
  decode_command checksum32 (encode_command checksum32 (ResolveCommit 7 9 ResAborted))
    = Ok (ResolveCommit 7 9 ResAborted).
Proof.
  apply (decode_command_spec checksum32 checksum32_length).
  - apply (bool_decide_unpack _). vm_compute. exact I.
  - repeat split; done.
Defined.

Lemma authority_live_witness :
  is_ok (op_result (ta_state example_commit) (OpReserveCommit 5)) = true.
Proof.
  apply (authority_live checksum32 example_commit 5 1 ResAborted);
    [apply example_commit_recoverable|vm_compute; reflexivity].
Defined.
