(* ===== verification/Participant.v ===== *)
(** * Participants ([dtg-transaction/src/participant.rs])

    The manifest the home shard stores with a decision, the five requests a coordinator sends to a
    shard with the digest that identifies them, and what recovery reads back from a shard.  The
    executor trait itself is the interface of [Program]. *)

From S2P Require Import Prelude Kernel Encoding Storage TxnError Snapshot.
Open Scope Z_scope.

(** ** Leases and manifests *)

Record RecoveryLease := mkRecoveryLease {
  rl_transaction_id : TransactionId;
  rl_owner : Z;
  rl_epoch : Z;
}.

Definition RecoveryLease_new (transaction_id : TransactionId) (owner epoch : Z)
    : result TxnError RecoveryLease :=
  if (owner =? 0) || (epoch =? 0) then Err CorruptRecovery
  else Ok (mkRecoveryLease transaction_id owner epoch).

Record DurableParticipantManifest := mkParticipantManifest {
  dp_shard_id : ShardId;
  dp_fence : ShardSnapshotFence;
  dp_intent_digest : Digest32;
}.

Definition DurableParticipantManifest_new (shard_id : ShardId) (fence : ShardSnapshotFence)
    (intent_digest : Digest32) : result TxnError DurableParticipantManifest :=
  if bool_decide (intent_digest = zero_digest) then Err CorruptRecovery
  else Ok (mkParticipantManifest shard_id fence intent_digest).

Record DurableTransactionManifest := mkTransactionManifest {
  dm_transaction_id : TransactionId;
  dm_start_time : TransactionTime;
  dm_catalog_version : Version;
  dm_participants : list DurableParticipantManifest;
}.

#[export] Instance RecoveryLease_eq_dec : EqDecision RecoveryLease.
Proof. solve_decision. Defined.
#[export] Instance DurableParticipantManifest_eq_dec : EqDecision DurableParticipantManifest.
Proof. solve_decision. Defined.
#[export] Instance DurableTransactionManifest_eq_dec : EqDecision DurableTransactionManifest.
Proof. solve_decision. Defined.

Definition dp_leb (p q : DurableParticipantManifest) : bool := dp_shard_id p <=? dp_shard_id q.

Definition DurableTransactionManifest_new (transaction_id : TransactionId)
    (start_time : TransactionTime) (catalog_version : Version)
    (participants : list DurableParticipantManifest)
    : result TxnError DurableTransactionManifest :=
  let participants := sort_by dp_leb participants in
  let unique : gset ShardId := list_to_set (map dp_shard_id participants) in
  if (catalog_version =? 0) || bool_decide (participants = [])
     || negb (Nat.eqb (size unique) (length participants))
  then Err CorruptRecovery
  else Ok (mkTransactionManifest transaction_id start_time catalog_version participants).

(** The bytes hashed for a commit and for an abort decision. *)
Definition commit_decision_preimage (transaction_id : TransactionId) (commit_time : TransactionTime)
    (participants : list (ShardId * Digest32)) : bytes :=
  as_bytes "dtg-transaction-home-decision-v1" ++ be_bytes 16 transaction_id ++
  be_bytes 8 commit_time ++ concat (map (λ p, be_bytes 8 p.1 ++ p.2) participants).

Definition abort_decision_preimage (transaction_id : TransactionId) (start_time : TransactionTime)
    (participants : list ShardId) : bytes :=
  as_bytes "dtg-transaction-home-abort-v1" ++ be_bytes 16 transaction_id ++
  be_bytes 8 start_time ++ concat (map (be_bytes 8) participants).

Definition manifest_decision_digest (blake3 : bytes → Digest32) (self : DurableTransactionManifest)
    (state : TransactionState) (decision_time : TransactionTime) : result TxnError Digest32 :=
  match state with
  | Committed =>
      if dm_start_time self <? decision_time then
        Ok (blake3 (commit_decision_preimage (dm_transaction_id self) decision_time
              (map (λ p, (dp_shard_id p, dp_intent_digest p)) (dm_participants self))))
      else Err CorruptRecovery
  | Aborted =>
      if decision_time =? dm_start_time self then
        Ok (blake3 (abort_decision_preimage (dm_transaction_id self) (dm_start_time self)
              (map dp_shard_id (dm_participants self))))
      else Err CorruptRecovery
  | Prepared => Err CorruptRecovery
  end.

Definition with_closed_time (closed_time : TransactionTime) (fence : ShardSnapshotFence)
    : ShardSnapshotFence :=
  mkShardSnapshotFence (sf_placement_epoch fence) (sf_backend_generation fence)
    (sf_applied_index fence) closed_time.

Definition manifest_snapshot_token (self : DurableTransactionManifest)
    : result TxnError SnapshotToken :=
  SnapshotToken_new (dm_transaction_id self) (dm_start_time self) (dm_catalog_version self)
    (map (λ p, (dp_shard_id p, with_closed_time (dm_start_time self) (dp_fence p)))
       (dm_participants self)).

(** ** Requests *)

Inductive SubmissionFailure := Definitive (error : TxnError) | Ambiguous (error : TxnError).
Definition into_error (f : SubmissionFailure) : TxnError :=
  match f with Definitive error | Ambiguous error => error end.

Record ShardRequestHeader := mkHeader {
  rh_command_id : CommandId;
  rh_placement_epoch : PlacementEpoch;
  rh_backend_generation : BackendGeneration;
}.

Inductive ShardRequest :=
| CommitSingleShard (header : ShardRequestHeader) (transaction_id : TransactionId)
    (start_time : TransactionTime) (snapshot_applied_index : Z) (mutations : list LogicalMutation)
| PrewriteIntent (header : ShardRequestHeader) (transaction_id : TransactionId)
    (start_time : TransactionTime) (snapshot_applied_index : Z) (mutations : list LogicalMutation)
| RecordHomeDecision (header : ShardRequestHeader) (decision : TransactionRecord)
    (manifest : DurableTransactionManifest)
| FinalizeParticipantCommit (header : ShardRequestHeader) (transaction_id : TransactionId)
    (start_time : TransactionTime) (snapshot_applied_index : Z) (commit_time : TransactionTime)
    (intent_digest : Digest32) (mutations : list LogicalMutation)
| FinalizeParticipantAbort (header : ShardRequestHeader) (terminal : TransactionRecord).

#[export] Instance ShardRequestHeader_eq_dec : EqDecision ShardRequestHeader.
Proof. solve_decision. Defined.
#[export] Instance ShardRequest_eq_dec : EqDecision ShardRequest.
Proof. solve_decision. Defined.

Definition request_header (r : ShardRequest) : ShardRequestHeader :=
  match r with
  | CommitSingleShard h _ _ _ _ | PrewriteIntent h _ _ _ _ | RecordHomeDecision h _ _
  | FinalizeParticipantCommit h _ _ _ _ _ _ | FinalizeParticipantAbort h _ => h
  end.

(** ** The request digest: the bytes each [hash_*] function feeds to the hasher *)

Definition hash_bytes (bs : bytes) : bytes := be_bytes 8 (Z.of_nat (length bs)) ++ bs.

Fixpoint hash_value (value : Value) : bytes :=
  match value with
  | VNull => [0]
  | VBoolean b => [1; if b then 1 else 0]
  | VInteger i => [2] ++ be_bytes 8 i
  | VFloatBits u => [3] ++ be_bytes 8 u
  | VBytes bs => [4] ++ hash_bytes bs
  | VString s => [5] ++ hash_bytes (as_bytes s)
  | VList vs => [6] ++ be_bytes 8 (Z.of_nat (length vs)) ++ concat (map hash_value vs)
  | VMap m =>
      [7] ++ be_bytes 8 (Z.of_nat (length m)) ++
      concat (map (λ p, hash_bytes (as_bytes p.1) ++ hash_value p.2) m)
  end.

Definition hash_properties (properties : Properties) : bytes :=
  be_bytes 8 (Z.of_nat (length properties)) ++
  concat (map (λ p, hash_bytes (as_bytes p.1) ++ hash_value p.2) properties).

Definition hash_interval (i : ValidInterval) : bytes := be_bytes 8 (start i) ++ be_bytes 8 (end_ i).

Definition hash_transaction (t : TransactionRecord) : bytes :=
  be_bytes 16 (tr_id t) ++
  [match tr_state t with Prepared => 1 | Committed => 2 | Aborted => 3 end] ++
  be_bytes 8 (tr_transaction_time t) ++ tr_record_digest t.

Definition hash_mutation (m : LogicalMutation) : bytes :=
  match m with
  | PutVertex v =>
      [1] ++ be_bytes 16 (v_id v) ++ be_bytes 8 (v_version v) ++ hash_interval (v_valid_time v) ++
      be_bytes 8 (v_transaction_time v) ++ hash_properties (v_properties v)
  | DeleteVertex t =>
      [2] ++ be_bytes 16 (vt_id t) ++ be_bytes 8 (vt_version t) ++ be_bytes 8 (vt_transaction_time t)
  | PutEdge e =>
      [3] ++ be_bytes 16 (e_id e) ++ be_bytes 16 (e_source e) ++ be_bytes 16 (e_target e) ++
      hash_bytes (as_bytes (e_edge_type e)) ++ be_bytes 8 (e_version e) ++
      hash_interval (e_valid_time e) ++ be_bytes 8 (e_transaction_time e) ++
      hash_properties (e_properties e)
  | DeleteEdge t =>
      [4] ++ be_bytes 16 (et_id t) ++ be_bytes 8 (et_version t) ++ be_bytes 8 (et_transaction_time t)
  | PutTransaction t => [5] ++ hash_transaction t
  | PutReplicaMetadata m => [6] ++ hash_bytes (as_bytes (rm_name m)) ++ hash_value (rm_value m)
  end.

Definition hash_mutations (mutations : list LogicalMutation) : bytes :=
  be_bytes 8 (Z.of_nat (length mutations)) ++ concat (map hash_mutation mutations).

Definition hash_participant (p : DurableParticipantManifest) : bytes :=
  be_bytes 8 (dp_shard_id p) ++ be_bytes 8 (sf_placement_epoch (dp_fence p)) ++
  be_bytes 8 (sf_backend_generation (dp_fence p)) ++ be_bytes 8 (sf_applied_index (dp_fence p)) ++
  dp_intent_digest p.

Definition hash_manifest (m : DurableTransactionManifest) : bytes :=
  be_bytes 16 (dm_transaction_id m) ++ be_bytes 8 (dm_start_time m) ++
  be_bytes 8 (dm_catalog_version m) ++ be_bytes 8 (Z.of_nat (length (dm_participants m))) ++
  concat (map hash_participant (dm_participants m)).

Definition request_body (r : ShardRequest) : bytes :=
  match r with
  | CommitSingleShard _ x t i ms =>
      [1] ++ be_bytes 16 x ++ be_bytes 8 t ++ be_bytes 8 i ++ hash_mutations ms
  | PrewriteIntent _ x t i ms =>
      [2] ++ be_bytes 16 x ++ be_bytes 8 t ++ be_bytes 8 i ++ hash_mutations ms
  | RecordHomeDecision _ decision manifest =>
      [3] ++ hash_transaction decision ++ hash_manifest manifest
  | FinalizeParticipantCommit _ x t i ct digest ms =>
      [4] ++ be_bytes 16 x ++ be_bytes 8 t ++ be_bytes 8 i ++ be_bytes 8 ct ++ digest ++
      hash_mutations ms
  | FinalizeParticipantAbort _ terminal => [5] ++ hash_transaction terminal
  end.

Definition request_preimage (r : ShardRequest) : bytes :=
  as_bytes "dtg-transaction-shard-request-v1" ++
  be_bytes 16 (rh_command_id (request_header r)) ++
  be_bytes 8 (rh_placement_epoch (request_header r)) ++
  be_bytes 8 (rh_backend_generation (request_header r)) ++ request_body r.

Definition request_digest (blake3 : bytes → Digest32) (r : ShardRequest) : Digest32 :=
  blake3 (request_preimage r).

(** ** Receipts and recovered histories *)

Record SubmissionReceipt := mkSubmissionReceipt {
  sr_applied_index : Z;
  sr_replayed : bool;
  sr_intent_digest : option Digest32;
}.
Definition SubmissionReceipt_new (applied_index : Z) (replayed : bool) : SubmissionReceipt :=
  mkSubmissionReceipt applied_index replayed None.
Definition SubmissionReceipt_prepared (applied_index : Z) (replayed : bool) (digest : Digest32)
    : SubmissionReceipt := mkSubmissionReceipt applied_index replayed (Some digest).

Record RecoveredParticipantIntent := mkRecoveredIntent {
  ri_shard_id : ShardId;
  ri_start_time : TransactionTime;
  ri_snapshot_applied_index : Z;
  ri_mutations : list LogicalMutation;
  ri_digest : Digest32;
}.

Record RecoveredSingleShardCommit := mkRecoveredSingle {
  rs_command_id : CommandId;
  rs_transaction_id : TransactionId;
  rs_start_time : TransactionTime;
  rs_snapshot_applied_index : Z;
  rs_commit_time : TransactionTime;
  rs_request_digest : Digest32;
}.

Record TransactionHistory := mkTransactionHistory {
  th_prepared : option TransactionRecord;
  th_intent : option RecoveredParticipantIntent;
  th_terminal : list TransactionRecord;
  th_single_shard_commit : option RecoveredSingleShardCommit;
}.
Definition TransactionHistory_new (prepared : option TransactionRecord)
    (intent : option RecoveredParticipantIntent) (terminal : list TransactionRecord)
    : TransactionHistory := mkTransactionHistory prepared intent terminal None.
Definition with_single_shard_commit (self : TransactionHistory) (commit : RecoveredSingleShardCommit)
    : TransactionHistory :=
  mkTransactionHistory (th_prepared self) (th_intent self) (th_terminal self) (Some commit).

(** ** Participant writes *)

Record ParticipantWrite := mkParticipantWrite {
  pw_shard_id : ShardId;
  pw_mutations : list LogicalMutation;
}.

Definition is_control_mutation (m : LogicalMutation) : bool :=
  match m with PutTransaction _ | PutReplicaMetadata _ => true | _ => false end.

Definition ParticipantWrite_new (shard_id : ShardId) (mutations : list LogicalMutation)
    : result TxnError ParticipantWrite :=
  if bool_decide (mutations = []) || existsb is_control_mutation mutations
  then Err TxnInvalidMutation
  else Ok (mkParticipantWrite shard_id mutations).

(** ** Well-formed requests *)

Definition fence_wf (f : ShardSnapshotFence) : Prop :=
  id_wf (sf_placement_epoch f) ∧ id_wf (sf_backend_generation f) ∧ in_u64 (sf_applied_index f).
Definition participant_wf (p : DurableParticipantManifest) : Prop :=
  id_wf (dp_shard_id p) ∧ fence_wf (dp_fence p) ∧ digest_wf (dp_intent_digest p).
Definition manifest_fields_wf (m : DurableTransactionManifest) : Prop :=
  id128_wf (dm_transaction_id m) ∧ time_wf (dm_start_time m) ∧ in_u64 (dm_catalog_version m) ∧
  len_wf (dm_participants m) ∧ Forall participant_wf (dm_participants m).
Definition header_wf (h : ShardRequestHeader) : Prop :=
  id128_wf (rh_command_id h) ∧ id_wf (rh_placement_epoch h) ∧ id_wf (rh_backend_generation h).
Definition request_wf (r : ShardRequest) : Prop :=
  header_wf (request_header r) ∧
  match r with
  | CommitSingleShard _ x t i ms | PrewriteIntent _ x t i ms =>
      id128_wf x ∧ time_wf t ∧ in_u64 i ∧ mutations_wf ms
  | RecordHomeDecision _ decision manifest => record_wf decision ∧ manifest_fields_wf manifest
  | FinalizeParticipantCommit _ x t i ct digest ms =>
      id128_wf x ∧ time_wf t ∧ in_u64 i ∧ time_wf ct ∧ digest_wf digest ∧ mutations_wf ms
  | FinalizeParticipantAbort _ terminal => record_wf terminal
  end.

(** The digest leaves out the closed times of a manifest's fences: erasing them gives the content
    the digest identifies. *)
Definition erase_participant (p : DurableParticipantManifest) : DurableParticipantManifest :=
  mkParticipantManifest (dp_shard_id p) (with_closed_time 0 (dp_fence p)) (dp_intent_digest p).
Definition closed_erased (p : DurableParticipantManifest) : Prop :=
  participant_wf p ∧ sf_closed_time (dp_fence p) = 0.
Definition erase_manifest (m : DurableTransactionManifest) : DurableTransactionManifest :=
  mkTransactionManifest (dm_transaction_id m) (dm_start_time m) (dm_catalog_version m)
    (map erase_participant (dm_participants m)).
Definition erase_closed_times (r : ShardRequest) : ShardRequest :=
  match r with
  | RecordHomeDecision h d m => RecordHomeDecision h d (erase_manifest m)
  | r => r
  end.

(** What [DurableTransactionManifest::new] guarantees. *)
Definition manifest_wf (m : DurableTransactionManifest) : Prop :=
  dm_catalog_version m ≠ 0 ∧ dm_participants m ≠ [] ∧
  StronglySorted (λ p q, dp_shard_id p < dp_shard_id q) (dm_participants m).

(** ** The request stream is the storage stream *)

Lemma hash_bytes_string s : hash_bytes (as_bytes s) = encode_string s.
Proof. unfold hash_bytes, encode_string. by rewrite length_as_bytes. Qed.

Lemma hash_value_encode v : hash_value v = encode_value v.
Proof.
  induction v as [| | | | | |vs IH|m IH] using value_ind'; cbn [hash_value encode_value app];
    rewrite ?hash_bytes_string; try done.
  - do 3 f_equal. apply map_ext_in. intros v Hv. rewrite Forall_forall in IH. by apply IH, list_elem_of_In.
  - do 3 f_equal. apply map_ext_in. intros [k v] Hv. cbn [fst snd]. rewrite hash_bytes_string. f_equal.
    rewrite Forall_forall in IH. by apply (IH (k, v)), list_elem_of_In.
Qed.

Lemma hash_properties_encode ps : hash_properties ps = encode_properties ps.
Proof.
  unfold hash_properties, encode_properties. do 2 f_equal. apply map_ext. intros [k v]. cbn [fst snd].
  by rewrite hash_bytes_string, hash_value_encode.
Qed.

Lemma hash_transaction_encode t : hash_transaction t = encode_transaction t.
Proof. done. Qed.

Lemma hash_mutation_encode m : hash_mutation m = encode_mutation m.
Proof.
  destruct m; cbn [hash_mutation encode_mutation app];
    rewrite ?hash_bytes_string, ?hash_properties_encode, ?hash_value_encode; done.
Qed.

Lemma hash_mutations_encode ms : hash_mutations ms = enc_seq encode_mutation ms.
Proof.
  unfold hash_mutations, enc_seq. do 2 f_equal. apply map_ext. apply hash_mutation_encode.
Qed.

(** ** The stream determines the request *)

#[export] Instance hash_mutations_prefix_free : PrefixFree mutations_wf hash_mutations.
Proof.
  intros x y r s Hx Hy. rewrite !hash_mutations_encode.
  apply (seq_prefix_free mutation_wf encode_mutation); [apply _|done..].
Qed.

(** A participant's bytes determine it up to the closed time. *)
Lemma hash_participant_prefix p q r s :
  participant_wf p → participant_wf q →
  hash_participant p ++ r = hash_participant q ++ s → erase_participant p = erase_participant q ∧ r = s.
Proof.
  destruct p as [? []], q as [? []].
  intros (? & (? & ? & ?) & ?) (? & (? & ? & ?) & ?) Heq. unfold hash_participant in Heq. cbn in *.
  repeat peel Heq. by subst.
Qed.

#[export] Instance hash_participant_prefix_free : PrefixFree closed_erased hash_participant.
Proof.
  assert (∀ p, closed_erased p → erase_participant p = p) as Hid.
  { intros [? []] [_ Hc]. cbn in Hc. by subst. }
  intros p q r s Hp Hq [Heq ->]%hash_participant_prefix; [|apply Hp|apply Hq].
  by rewrite !Hid in Heq.
Qed.

Lemma hash_manifest_prefix m n r s :
  manifest_fields_wf m → manifest_fields_wf n →
  hash_manifest m ++ r = hash_manifest n ++ s → erase_manifest m = erase_manifest n ∧ r = s.
Proof.
  assert (∀ m, hash_manifest m = be_bytes 16 (dm_transaction_id m) ++ be_bytes 8 (dm_start_time m) ++
    be_bytes 8 (dm_catalog_version m) ++ enc_seq hash_participant (map erase_participant (dm_participants m))) as Hf.
  { intros u. unfold hash_manifest, enc_seq. by rewrite length_map, map_map. }
  assert (∀ ps, len_wf ps ∧ Forall participant_wf ps →
    len_wf (map erase_participant ps) ∧ Forall closed_erased (map erase_participant ps)) as Her.
  { intros ps [Hl Hps]. split; [unfold len_wf; by rewrite length_map|].
    apply Forall_fmap. eapply Forall_impl; [exact Hps|]. done. }
  rewrite !Hf. intros (? & ? & ? & Hm%Her) (? & ? & ? & Hn%Her) Heq. repeat peel Heq.
  apply (seq_prefix_free closed_erased hash_participant _) in Heq as [Hps ->]; [|done..].
  unfold erase_manifest. by rewrite Hps, E, E0, E1.
Qed.

Lemma request_preimage_inj r q :
  request_wf r → request_wf q → request_preimage r = request_preimage q →
  erase_closed_times r = erase_closed_times q.
Proof.
  intros [(Hi & Hp & Hg) Hr] [(Hi' & Hp' & Hg') Hq] [_ Heq]%app_inj_1; [|done].
  rewrite <-(app_nil_r (request_body r)), <-(app_nil_r (request_body q)) in Heq. do 3 peel Heq.
  assert (request_header r = request_header q) as Hh.
  { destruct (request_header r), (request_header q). cbn in *. congruence. }
  clear E E0 E1 Hi Hp Hg Hi' Hp' Hg'.
  destruct r as [h x t i ms|h x t i ms|h d m|h x t i ct dg ms|h d],
    q as [h' x' t' i' ms'|h' x' t' i' ms'|h' d' m'|h' x' t' i' ct' dg' ms'|h' d'];
    cbn [request_body request_header app] in *; subst h';
    apply tag_prefix in Heq as [Htag Heq]; try discriminate Htag; clear Htag.
  - destruct Hr as (? & ? & ? & ?), Hq as (? & ? & ? & ?). repeat peel Heq.
    apply hash_mutations_prefix_free in Heq as [-> _]; [|done..]. by subst.
  - destruct Hr as (? & ? & ? & ?), Hq as (? & ? & ? & ?). repeat peel Heq.
    apply hash_mutations_prefix_free in Heq as [-> _]; [|done..]. by subst.
  - destruct Hr as [? ?], Hq as [? ?]. rewrite <-!app_assoc in Heq.
    apply (encode_transaction_prefix_free d d') in Heq as [-> Heq]; [|done..].
    apply hash_manifest_prefix in Heq as [Hm _]; [|done..]. cbn. by rewrite Hm.
  - destruct Hr as (? & ? & ? & ? & ? & ?), Hq as (? & ? & ? & ? & ? & ?). repeat peel Heq.
    apply hash_mutations_prefix_free in Heq as [-> _]; [|done..]. by subst.
  - by apply (encode_transaction_prefix_free d d') in Heq as [-> _].
Qed.

(** ** Manifests *)

Lemma DurableTransactionManifest_new_Ok x t v ps m :
  DurableTransactionManifest_new x t v ps = Ok m ↔
  v ≠ 0 ∧ ps ≠ [] ∧ NoDup (map dp_shard_id ps) ∧
  m = mkTransactionManifest x t v (sort_by dp_leb ps).
Proof.
  unfold DurableTransactionManifest_new.
  assert (sort_by dp_leb ps ≡ₚ ps) as Hp by apply sort_by_perm.
  assert (NoDup (map dp_shard_id ps) ↔ NoDup (map dp_shard_id (sort_by dp_leb ps))) as Hnd.
  { assert (map dp_shard_id (sort_by dp_leb ps) ≡ₚ map dp_shard_id ps) as ->; [|done].
    by apply Permutation_map. }
  assert (ps ≠ [] ↔ sort_by dp_leb ps ≠ []) as Hnil.
  { destruct (sort_by dp_leb ps), ps; try done.
    - by apply Permutation_nil_cons in Hp.
    - symmetry in Hp. by apply Permutation_nil_cons in Hp. }
  rewrite Hnd, Hnil, <-size_list_to_set_NoDup, length_map.
  destruct (Z.eqb_spec v 0); [naive_solver|]. case_bool_decide; [naive_solver|]. cbn.
  destruct (Nat.eqb_spec (size (list_to_set (map dp_shard_id (sort_by dp_leb ps)) : gset Z))
    (length (sort_by dp_leb ps))); naive_solver.
Qed.

Lemma DurableTransactionManifest_new_wf x t v ps m :
  DurableTransactionManifest_new x t v ps = Ok m → manifest_wf m.
Proof.
  intros (Hv & Hps & Hnd & ->)%DurableTransactionManifest_new_Ok. split; [done|]. split; cbn.
  - intros Hs. apply Hps. pose proof (sort_by_perm dp_leb ps) as Hp. rewrite Hs in Hp.
    symmetry in Hp. by apply Permutation_nil_r in Hp.
  - by apply (sort_by_key_strict dp_shard_id).
Qed.

(** A durable manifest always yields the transaction's snapshot. *)
Lemma manifest_snapshot_token_Ok m :
  manifest_wf m → ∃ token, manifest_snapshot_token m = Ok token ∧ snapshot_wf token ∧
    st_transaction_id token = dm_transaction_id m ∧ st_start_time token = dm_start_time m ∧
    ∀ p, p ∈ dm_participants m →
      st_shards token !! dp_shard_id p = Some (with_closed_time (dm_start_time m) (dp_fence p)).
Proof.
  intros (Hv & Hne & Hs). unfold manifest_snapshot_token.
  set (l := map _ (dm_participants m)).
  assert (NoDup l.*1) as Hnd.
  { unfold l. assert ((map (λ p, (dp_shard_id p, with_closed_time (dm_start_time m) (dp_fence p)))
      (dm_participants m)).*1 = map dp_shard_id (dm_participants m)) as -> by apply map_map.
    by apply (strictly_sorted_NoDup dp_shard_id). }
  assert (SnapshotToken_new (dm_transaction_id m) (dm_start_time m) (dm_catalog_version m) l
    = Ok (mkSnapshotToken (dm_transaction_id m) (dm_start_time m) (dm_catalog_version m) (list_to_map l))) as Hok.
  { apply SnapshotToken_new_Ok. split; [done|]. split; [by unfold l; destruct (dm_participants m)|].
    split; [done|]. split; [|done]. apply Forall_fmap, Forall_forall. intros p _. cbn. lia. }
  eexists. split; [exact Hok|]. split; [by eapply SnapshotToken_new_wf|]. split; [done|]. split; [done|].
  intros p Hp. cbn. apply elem_of_list_to_map_1; [done|].
  unfold l. by apply (list_elem_of_fmap_2 (λ p, (dp_shard_id p, with_closed_time (dm_start_time m) (dp_fence p)))).
Qed.

(** ** Properties *)

(** Two well-formed requests with the same digest are the same request, up to the closed times
    of a manifest's fences, unless they exhibit a collision of the hash function. *)
Theorem request_digest_binding (blake3 : bytes → Digest32) (r q : ShardRequest) :
  request_wf r → request_wf q → request_digest blake3 r = request_digest blake3 q →
  erase_closed_times r = erase_closed_times q ∨ ∃ x y, x ≠ y ∧ blake3 x = blake3 y.
Proof.
  intros Hr Hq Heq. destruct (decide (request_preimage r = request_preimage q)) as [Hp|Hp].
  - left. by apply request_preimage_inj.
  - right. by exists (request_preimage r), (request_preimage q).
Qed.

(** A manifest that [new] accepts, whatever the order of its participants, yields a snapshot of
    the transaction at its start time that fences every participant as recorded. *)
Theorem manifest_yields_snapshot (x t v : Z) (ps : list DurableParticipantManifest)
    (m : DurableTransactionManifest) :
  DurableTransactionManifest_new x t v ps = Ok m →
  ∃ token, manifest_snapshot_token m = Ok token ∧ snapshot_wf token ∧
    st_transaction_id token = x ∧ st_start_time token = t ∧
    ∀ p, p ∈ ps → st_shards token !! dp_shard_id p = Some (with_closed_time t (dp_fence p)).
Proof.
  intros Hm. pose proof (DurableTransactionManifest_new_wf _ _ _ _ _ Hm) as Hwf.
  apply DurableTransactionManifest_new_Ok in Hm as (_ & _ & _ & ->).
  destruct (manifest_snapshot_token_Ok _ Hwf) as (token & Ht & Hs & Hx & Hst & Hps).
  exists token. do 4 (split; [done|]). intros p Hp. apply Hps. cbn. by rewrite sort_by_perm.
Qed.

Definition example_manifest : DurableTransactionManifest :=
  mkTransactionManifest 9 5 1
    [mkParticipantManifest 2 (mkShardSnapshotFence 1 1 4 6) (replicate 32 7);
     mkParticipantManifest 3 (mkShardSnapshotFence 1 1 8 6) (replicate 32 8)].

Lemma request_digest_binding_witness :
  let terminal t := FinalizeParticipantAbort (mkHeader 1 1 1) (mkTransactionRecord 9 Aborted t (replicate 32 7)) in
  terminal 5 = terminal 5 ∨ ∃ x y, x ≠ y ∧ checksum32 x = checksum32 y.
Proof.
  intros terminal. apply (request_digest_binding checksum32 (terminal 5) (terminal 5));
    [repeat split; try done; repeat constructor; done..|reflexivity].
Defined.

Lemma manifest_yields_snapshot_witness :
  ∃ token, manifest_snapshot_token example_manifest = Ok token ∧ snapshot_wf token ∧
    st_transaction_id token = 9 ∧ st_start_time token = 5 ∧
    ∀ p, p ∈ rev (dm_participants example_manifest) →
      st_shards token !! dp_shard_id p = Some (with_closed_time 5 (dp_fence p)).
Proof.
  apply (manifest_yields_snapshot 9 5 1 (rev (dm_participants example_manifest)) example_manifest).
  vm_compute. reflexivity.
Defined.
