(* ===== verification/Program.v ===== *)
(** * Programs over the authority and the shards

    The coordinator and its recovery are asynchronous functions whose every effect is a call of one
    of two traits, [TimestampAuthority] ([coordinator.rs]) and [ShardCommandExecutor]
    ([participant.rs], through [ParticipantService]).  A program is a tree of such calls.  The
    environment answers each call as it likes, so a theorem over all environments covers every
    failure, delay, concurrent transaction and lying shard.  The history of a run is the list of its
    calls with their answers, the newest first; a crash leaves a shorter history, hence a property
    of each call given the calls before it holds at every crash point. *)

From S2P Require Import Prelude Kernel Encoding Storage TxnError Timestamp Participant.
Open Scope Z_scope.

(** ** Calls *)

Inductive call :=
| CallAllocateStartTime (transaction_id : TransactionId)
| CallReserveCommitTime (transaction_id : TransactionId)
| CallCommitTimeReservation (transaction_id : TransactionId)
| CallResolveCommitTime (transaction_id : TransactionId) (commit_time : TransactionTime)
    (resolution : CommitResolution)
| CallSubmit (shard_id : ShardId) (request : ShardRequest)
| CallChangesAfter (shard_id : ShardId) (applied_index : Z)
| CallTransactionHistory (shard_id : ShardId) (transaction_id : TransactionId)
| CallAcquireRecoveryLease (transaction_id : TransactionId) (owner : Z)
| CallRecoveryManifest (transaction_id : TransactionId) (lease : RecoveryLease)
| CallReleaseRecoveryLease (lease : RecoveryLease).

Definition answer (c : call) : Type :=
  match c with
  | CallAllocateStartTime _ | CallReserveCommitTime _ => result TxnError TransactionTime
  | CallCommitTimeReservation _ => result TxnError (option CommitTimeReservation)
  | CallResolveCommitTime _ _ _ => result TxnError unit
  | CallSubmit _ _ => result SubmissionFailure SubmissionReceipt
  | CallChangesAfter _ _ => result TxnError (list ChangeRecord)
  | CallTransactionHistory _ _ => result TxnError TransactionHistory
  | CallAcquireRecoveryLease _ _ => result TxnError RecoveryLease
  | CallRecoveryManifest _ _ => result TxnError (option DurableTransactionManifest)
  | CallReleaseRecoveryLease _ => result TxnError unit
  end.

(** A call and its answer. *)
Record event := mkEvent { ev_call : call; ev_answer : answer ev_call }.

(** ** Programs *)

Inductive prog (A : Type) :=
| Ret (a : A)
| Panicked
| Do (c : call) (k : answer c → prog A).
Arguments Ret {A} _.
Arguments Panicked {A}.
Arguments Do {A} _ _.

Fixpoint pbind {A B} (p : prog A) (k : A → prog B) : prog B :=
  match p with
  | Ret a => k a
  | Panicked => Panicked
  | Do c f => Do c (λ r, pbind (f r) k)
  end.

(** [async fn ... -> Result<A, TxnError>]: sequencing propagates errors, as [.await?] does. *)
Definition txn (A : Type) : Type := prog (result TxnError A).

#[export] Instance txn_bind : MBind txn := λ A B k m,
  pbind m (λ r, match r with Ok a => k a | Err e => Ret (Err e) end).

Definition ret {A} (a : A) : txn A := Ret (Ok a).
Definition throw {A} (e : TxnError) : txn A := Ret (Err e).
(** [m?] on a plain result. *)
Definition lift {A} (m : result TxnError A) : txn A := Ret m.
(** Indexing that may panic. *)
Definition index {A} (m : option A) : txn A :=
  match m with Some a => Ret (Ok a) | None => Panicked end.

(** Sequencing that sees the error ([match ....await]). *)
Declare Scope txn_scope.
Delimit Scope txn_scope with txn.
Notation "x '<~' m ; k" := (pbind m (λ x, k))
  (at level 20, m at level 100, k at level 200, only parsing) : txn_scope.

Definition allocate_start (x : TransactionId) : txn TransactionTime :=
  Do (CallAllocateStartTime x) (λ r, Ret r).
Definition reserve_commit (x : TransactionId) : txn TransactionTime :=
  Do (CallReserveCommitTime x) (λ r, Ret r).
Definition get_reservation (x : TransactionId) : txn (option CommitTimeReservation) :=
  Do (CallCommitTimeReservation x) (λ r, Ret r).
Definition resolve_commit (x : TransactionId) (ct : TransactionTime) (res : CommitResolution)
    : txn unit := Do (CallResolveCommitTime x ct res) (λ r, Ret r).
Definition submit (s : ShardId) (request : ShardRequest)
    : prog (result SubmissionFailure SubmissionReceipt) := Do (CallSubmit s request) (λ r, Ret r).
Definition changes_after (s : ShardId) (i : Z) : txn (list ChangeRecord) :=
  Do (CallChangesAfter s i) (λ r, Ret r).
Definition transaction_history (s : ShardId) (x : TransactionId) : txn TransactionHistory :=
  Do (CallTransactionHistory s x) (λ r, Ret r).
Definition acquire_recovery_lease (x : TransactionId) (owner : Z) : txn RecoveryLease :=
  Do (CallAcquireRecoveryLease x owner) (λ r, Ret r).
Definition recovery_manifest (x : TransactionId) (lease : RecoveryLease)
    : txn (option DurableTransactionManifest) := Do (CallRecoveryManifest x lease) (λ r, Ret r).
Definition release_recovery_lease (lease : RecoveryLease) : txn unit :=
  Do (CallReleaseRecoveryLease lease) (λ r, Ret r).

(** [.map_err(SubmissionFailure::into_error)?] *)
Definition submit_or_fail (s : ShardId) (request : ShardRequest) : txn SubmissionReceipt :=
  pbind (submit s request) (λ r, Ret (map_err into_error r)).

(** [match m.await { Err(CorruptRecovery) => return Err(CorruptRecovery), Err(_) => fallback, .. }] *)
Definition is_corrupt (e : TxnError) : bool := match e with CorruptRecovery => true | _ => false end.

(** A loop whose body may return from the function. *)
Inductive ControlFlow (B C : Type) := Break (b : B) | Continue (c : C).
Arguments Break {B C} _.
Arguments Continue {B C} _.

(** [for x in l { body?; }] *)
Fixpoint for_each {A} (body : A → txn unit) (l : list A) : txn unit :=
  match l with
  | [] => ret tt
  | x :: l => _ ← body x; for_each body l
  end.

(** ** Running *)

Definition environment : Type := list event → ∀ c, answer c.

Inductive outcome (A : Type) := Done (a : A) | Crashed.
Arguments Done {A} _.
Arguments Crashed {A}.

Fixpoint run {A} (env : environment) (p : prog A) (h : list event) : outcome A * list event :=
  match p with
  | Ret a => (Done a, h)
  | Panicked => (Crashed, h)
  | Do c k => run env (k (env h c)) (mkEvent c (env h c) :: h)
  end.

(** Every call of a history, newest first, is allowed by the calls before it. *)
Fixpoint allowed (G : list event → call → Prop) (h : list event) : Prop :=
  match h with
  | [] => True
  | e :: h => G h (ev_call e) ∧ allowed G h
  end.

(** ** A program logic: [G] guards every call, [Q] holds at the end, and nothing panics *)

Fixpoint wp {A} (G : list event → call → Prop) (p : prog A) (h : list event)
    (Q : A → list event → Prop) : Prop :=
  match p with
  | Ret a => Q a h
  | Panicked => False
  | Do c k => G h c ∧ ∀ r, wp G (k r) (mkEvent c r :: h) Q
  end.

Lemma run_pbind {A B} env (p : prog A) (k : A → prog B) h :
  run env (pbind p k) h =
    match run env p h with (Done a, h') => run env (k a) h' | (Crashed, h') => (Crashed, h') end.
Proof. revert h. induction p as [a| |c f IH]; intros h; cbn; [done..|]. apply IH. Qed.

Section wp.
Context (G : list event → call → Prop).

Lemma wp_mono {A} (p : prog A) h (Q Q' : A → list event → Prop) :
  wp G p h Q → (∀ a h', h `suffix_of` h' → Q a h' → Q' a h') → wp G p h Q'.
Proof.
  revert h. induction p as [a| |c f IH]; intros h Hp HQ; cbn in *; [by apply HQ|done|].
  destruct Hp as [Hc Hp]. split; [done|]. intros r. apply IH; [done|].
  intros a h' Hs. apply HQ. trans (mkEvent c r :: h); [by apply suffix_cons_r|done].
Qed.

Lemma wp_pbind {A B} (p : prog A) (k : A → prog B) h Q :
  wp G p h (λ a h', wp G (k a) h' Q) → wp G (pbind p k) h Q.
Proof.
  revert h. induction p as [a| |c f IH]; intros h Hp; cbn in *; [done..|].
  destruct Hp as [Hc Hp]. split; [done|]. intros r. by apply IH.
Qed.

Lemma wp_bind {A B} (p : txn A) (k : A → txn B) h Q :
  wp G p h (λ r h', match r with Ok a => wp G (k a) h' Q | Err e => Q (Err e) h' end) →
  wp G (p ≫= k) h Q.
Proof. intros Hp. apply wp_pbind. eapply wp_mono; [done|]. by intros [a|e] h' _. Qed.

Lemma wp_lift_bind {A B} (m : result TxnError A) (k : A → txn B) h Q :
  (∀ a, m = Ok a → wp G (k a) h Q) → (∀ e, m = Err e → Q (Err e) h) → wp G (lift m ≫= k) h Q.
Proof. intros Hk He. destruct m; cbn; auto. Qed.

(** A call whose answer is the result. *)
Lemma wp_call c h (Q : answer c → list event → Prop) :
  G h c → (∀ r, Q r (mkEvent c r :: h)) → wp G (Do c (λ r, Ret r)) h Q.
Proof. by split. Qed.

Lemma wp_for_each {A} (I : list A → list event → Prop) (E : TxnError → list event → Prop) body l h :
  (∀ a rest h', I (a :: rest) h' →
     wp G (body a) h' (λ r h'', match r with Ok _ => I rest h'' | Err e => E e h'' end)) →
  I l h →
  wp G (for_each body l) h (λ r h', match r with Ok _ => I [] h' | Err e => E e h' end).
Proof.
  intros Hbody. revert h. induction l as [|a l IH]; intros h Hl; cbn; [done|].
  apply wp_bind. eapply wp_mono; [by apply Hbody|]. intros [[]|e] h' _; [apply IH|done].
Qed.

(** Soundness: in every environment the program ends without a panic, every call it made was
    guarded, and its postcondition holds. *)
Lemma wp_sound {A} env (p : prog A) h Q :
  wp G p h Q → allowed G h →
  ∃ a h', run env p h = (Done a, h') ∧ allowed G h' ∧ Q a h' ∧ h `suffix_of` h'.
Proof.
  revert h. induction p as [a| |c f IH]; intros h Hp Hh; cbn in *; [by eauto 10|done|].
  destruct Hp as [Hc Hp]. destruct (IH (env h c) (mkEvent c (env h c) :: h)) as (a & h' & Hr & Ha & HQ & Hs);
    [done|done|]. exists a, h'. repeat split; try done.
  trans (mkEvent c (env h c) :: h); [by apply suffix_cons_r|done].
Qed.

Lemma allowed_app h1 h2 : allowed G (h1 ++ h2) → allowed G h2.
Proof. induction h1 as [|e h1 IH]; cbn; [done|]. intros [_ ?]. auto. Qed.

(** The events a run adds to [h], each allowed by those before it. *)
Fixpoint allowed_since (h k : list event) : Prop :=
  match k with
  | [] => True
  | e :: k => G (k ++ h) (ev_call e) ∧ allowed_since h k
  end.

(** Each call of an allowed history, with the history it was made in. *)
Lemma allowed_at h1 e h2 : allowed G (h1 ++ e :: h2) → G h2 (ev_call e).
Proof. intros Ha%allowed_app. apply Ha. Qed.

(** A program guarded by [G] is guarded by what [G] implies of the histories it can produce. *)
Lemma wp_guard_mono {A} (G' : list event → call → Prop) (p : prog A) h Q :
  wp G p h Q →
  (∀ k c, allowed_since h k → G (k ++ h) c → G' (k ++ h) c) →
  wp G' p h (λ a h', Q a h' ∧ ∃ k, h' = k ++ h ∧ allowed_since h k).
Proof.
  intros Hp HG. assert (∀ k, allowed_since h k → wp G p (k ++ h) Q →
    wp G' p (k ++ h) (λ a h', Q a h' ∧ ∃ k, h' = k ++ h ∧ allowed_since h k)) as Hgen.
  { clear Hp. induction p as [a| |c f IH]; intros k Hk Hp; cbn in *; [by eauto|done|].
    destruct Hp as [Hc Hp]. split; [by apply HG|]. intros r.
    apply (IH r (mkEvent c r :: k)); [done|apply Hp]. }
  by apply (Hgen []).
Qed.
End wp.

(** ** Runs in a given environment *)

Definition ends {A} (env : environment) (p : prog A) (h : list event) (Q : A → list event → Prop)
    : Prop := ∃ a h', run env p h = (Done a, h') ∧ Q a h'.

Section ends.
Context (env : environment).

Lemma ends_ret {A} (a : A) h (Q : A → list event → Prop) : Q a h → ends env (Ret a) h Q.
Proof. intros HQ. by exists a, h. Qed.

Lemma ends_call c h (Q : answer c → list event → Prop) :
  Q (env h c) (mkEvent c (env h c) :: h) → ends env (Do c (λ r, Ret r)) h Q.
Proof. intros HQ. eexists _, _. by split. Qed.

Lemma ends_pbind {A B} (p : prog A) (k : A → prog B) h Q :
  ends env p h (λ a h', ends env (k a) h' Q) → ends env (pbind p k) h Q.
Proof.
  intros (a & h' & Hp & b & h'' & Hk & HQ). exists b, h''. split; [|done]. by rewrite run_pbind, Hp.
Qed.

Lemma ends_bind {A B} (p : txn A) (k : A → txn B) h Q :
  ends env p h (λ r h', match r with Ok a => ends env (k a) h' Q | Err _ => False end) →
  ends env (p ≫= k) h Q.
Proof.
  intros (r & h' & Hp & Hk). apply ends_pbind. exists r, h'. split; [done|]. by destruct r.
Qed.

Lemma ends_lift {A B} (m : result TxnError A) (k : A → txn B) a h Q :
  m = Ok a → ends env (k a) h Q → ends env (lift m ≫= k) h Q.
Proof. intros -> Hk. apply ends_bind, ends_ret, Hk. Qed.

Lemma ends_index {A B} (m : option A) (k : A → txn B) a h Q :
  m = Some a → ends env (k a) h Q → ends env (index m ≫= k) h Q.
Proof. intros -> Hk. apply ends_bind, ends_ret, Hk. Qed.

Lemma ends_mono {A} (p : prog A) h (Q Q' : A → list event → Prop) :
  ends env p h Q → (∀ a h', Q a h' → Q' a h') → ends env p h Q'.
Proof. intros (a & h' & Hr & HQ) Hi. exists a, h'. auto. Qed.

Lemma ends_for_each {A} (I : list A → list event → Prop) body l h :
  (∀ a rest h', I (a :: rest) h' →
     ends env (body a) h' (λ r h'', match r with Ok _ => I rest h'' | Err _ => False end)) →
  I l h → ends env (for_each body l) h (λ r h', match r with Ok _ => I [] h' | Err _ => False end).
Proof.
  intros Hbody. revert h. induction l as [|a l IH]; intros h Hl; cbn; [by apply ends_ret|].
  apply ends_bind. eapply ends_mono; [by apply Hbody|]. intros [[]|e] h'; [apply IH|done].
Qed.
End ends.

(** Perform the call at the head of a run. *)
Ltac ends_step :=
  match goal with
  | |- ends ?env ?p ?h ?Q =>
      let q := eval hnf in p in
      match q with Do ?c _ => refine (ends_call env c h _ _) end
  end.

#[global] Arguments wp : simpl never.
#[global] Arguments pbind : simpl never.
