(* ===== verification/Commands.v ===== *)
(** * The coordinator's data and helpers ([dtg-transaction/src/coordinator.rs])

    The transaction context and outcome, the check that the participants' writes are exactly the
    staged mutations, the stamping of mutations with the commit time, and the digests and command
    identifiers of the protocol. *)

From S2P Require Import Prelude Kernel Encoding Storage TxnError Conflict Snapshot Overlay.
From S2P Require Import Timestamp Participant Program.
Open Scope Z_scope.

(** ** Contexts and outcomes *)

Record TransactionContext := mkTransactionContext {
  tc_snapshot : SnapshotToken;
  tc_base : BaseGraphSnapshot;
  tc_overlay : TransactionOverlay;
}.
Definition TransactionContext_new (snapshot : SnapshotToken) : TransactionContext :=
  mkTransactionContext snapshot BaseGraphSnapshot_default TransactionOverlay_new.
Definition TransactionContext_with_base (snapshot : SnapshotToken) (base : BaseGraphSnapshot)
    : TransactionContext := mkTransactionContext snapshot base TransactionOverlay_new.
Definition context_stage (self : TransactionContext) (mutation : LogicalMutation)
    : result TxnError TransactionContext :=
  overlay ← stage (tc_overlay self) mutation;
  Ok (mkTransactionContext (tc_snapshot self) (tc_base self) overlay).

Inductive TransactionOutcome := OutCommitted (t : TransactionTime) | OutAborted | OutUnresolved.
#[export] Instance TransactionOutcome_eq_dec : EqDecision TransactionOutcome.
Proof. solve_decision. Defined.

Abbreviation context_id context := (st_transaction_id (tc_snapshot context)).
Abbreviation context_start context := (st_start_time (tc_snapshot context)).
Abbreviation context_shards context := (st_shards (tc_snapshot context)).

(** [m?] where the callee can panic. *)
Definition lift_fault {A} (m : result TxnFault A) : txn A :=
  match m with
  | Ok a => Ret (Ok a)
  | Err (Fault e) => Ret (Err e)
  | Err Panic => Panicked
  end.

(** ** Participants *)

Fixpoint position {A} (f : A → bool) (l : list A) : option nat :=
  match l with
  | [] => None
  | x :: l => if f x then Some 0%nat else S <$> position f l
  end.

(** [Vec::swap_remove]: the last element takes the place of the removed one. *)
Definition swap_remove {A} (i : nat) (l : list A) : list A :=
  match last l with
  | Some z => take (length l - 1) (<[i := z]> l)
  | None => l
  end.

(** The matching loop: each written mutation takes one equal staged mutation away. *)
Fixpoint match_mutations (unmatched mutations : list LogicalMutation)
    : result TxnError (list LogicalMutation) :=
  match mutations with
  | [] => Ok unmatched
  | mutation :: mutations =>
      match position (λ candidate, bool_decide (candidate = mutation)) unmatched with
      | None => Err ParticipantsMismatch
      | Some i => match_mutations (swap_remove i unmatched) mutations
      end
  end.

Definition validate_participants (context : TransactionContext) (participants : list ParticipantWrite)
    : result TxnError unit :=
  let staged := ov_mutations (tc_overlay context) in
  if negb (Nat.eqb (sum_list (map (λ p, length (pw_mutations p)) participants)) (length staged))
  then Err ParticipantsMismatch
  else
    unmatched ← match_mutations staged (concat (map pw_mutations participants));
    if negb (bool_decide (unmatched = [])) then Err ParticipantsMismatch
    else
      let shard_ids : gset ShardId := list_to_set (map pw_shard_id participants) in
      if negb (Nat.eqb (size shard_ids) (length participants))
         || negb (bool_decide (set_Forall (λ s, is_Some (context_shards context !! s)) shard_ids))
         || negb (Bool.eqb (bool_decide (participants = [])) (bool_decide (staged = [])))
      then Err ParticipantsMismatch
      else Ok tt.

(** ** Stamping *)

Definition stamp_mutation (commit_time : TransactionTime) (mutation : LogicalMutation)
    : result TxnError LogicalMutation :=
  match mutation with
  | PutVertex v =>
      v ← lift_storage (VertexVersion_new (v_id v) (v_version v) (v_valid_time v) commit_time
                          (v_properties v));
      Ok (PutVertex v)
  | DeleteVertex t => Ok (DeleteVertex (mkVertexTombstone (vt_id t) (vt_version t) commit_time))
  | PutEdge e =>
      e ← lift_storage (EdgeVersion_new (e_id e) (e_source e) (e_target e) (e_edge_type e)
                          (e_version e) (e_valid_time e) commit_time (e_properties e));
      Ok (PutEdge e)
  | DeleteEdge t => Ok (DeleteEdge (mkEdgeTombstone (et_id t) (et_version t) commit_time))
  | PutTransaction _ | PutReplicaMetadata _ => Err TxnInvalidMutation
  end.

Definition stamp_mutations (mutations : list LogicalMutation) (commit_time : TransactionTime)
    : result TxnError (list LogicalMutation) := try_map (stamp_mutation commit_time) mutations.

(** ** Digests and identifiers *)

Section digests.
Context (blake3 : bytes → Digest32).

Definition command_id_preimage (transaction_id : TransactionId) (phase : string) (shard_id : ShardId)
    : bytes :=
  as_bytes "dtg-transaction-command-id-v1" ++ be_bytes 16 transaction_id ++
  be_bytes 8 (Z.of_nat (String.length phase)) ++ as_bytes phase ++ be_bytes 8 shard_id.

Definition command_id (transaction_id : TransactionId) (phase : string) (shard_id : ShardId)
    : result TxnError CommandId :=
  let digest := blake3 (command_id_preimage transaction_id phase shard_id) in
  lift_storage (CommandId_new (Z.max (be_value (take 16 digest)) 1)).

Definition decision_digest (transaction_id : TransactionId) (commit_time : TransactionTime)
    (intents : list (ShardId * Digest32)) : Digest32 :=
  blake3 (as_bytes "dtg-transaction-home-decision-v1" ++ be_bytes 16 transaction_id ++
          be_bytes 8 commit_time ++ concat (map (λ p, be_bytes 8 p.1 ++ p.2) intents)).

Definition abort_decision_digest (transaction_id : TransactionId) (start_time : TransactionTime)
    (shard_ids : list ShardId) : Digest32 :=
  blake3 (as_bytes "dtg-transaction-home-abort-v1" ++ be_bytes 16 transaction_id ++
          be_bytes 8 start_time ++ concat (map (be_bytes 8) shard_ids)).
End digests.

Definition transaction_manifest (context : TransactionContext)
    (participants : list (ShardId * Digest32)) : result TxnError DurableTransactionManifest :=
  participants ← try_map (λ p : ShardId * Digest32,
    fence ← ok_or IncompleteSnapshot (context_shards context !! p.1);
    DurableParticipantManifest_new p.1 fence p.2) participants;
  DurableTransactionManifest_new (context_id context) (context_start context)
    (st_catalog_version (tc_snapshot context)) participants.

(** ** The participants partition the staged mutations *)

Lemma position_Some {A} (f : A → bool) l i :
  position f l = Some i → ∃ x, l !! i = Some x ∧ f x = true.
Proof.
  revert i. induction l as [|x l IH]; intros i; cbn; [done|]. destruct (f x) eqn:Hx.
  - intros [= <-]. by exists x.
  - intros (j & Hj & ->)%fmap_Some. by apply IH.
Qed.

Lemma position_None {A} (f : A → bool) l x : position f l = None → x ∈ l → f x = false.
Proof.
  induction l as [|y l IH]; cbn; [by intros _ ?%elem_of_nil|]. destruct (f y) eqn:Hy; [done|].
  intros Hn%fmap_None [->|Hx]%elem_of_cons; auto.
Qed.

Lemma swap_remove_perm {A} i (l : list A) x : l !! i = Some x → l ≡ₚ x :: swap_remove i l.
Proof.
  intros Hi. unfold swap_remove. destruct (last l) as [z|] eqn:Hz; [|apply last_None in Hz; by subst].
  apply last_Some in Hz as [l' ->]. rewrite length_app, Nat.add_sub. destruct (decide (i < length l')%nat).
  - rewrite lookup_app_l in Hi by done. rewrite insert_app_l by done.
    rewrite take_app_length' by (symmetry; apply length_insert).
    rewrite insert_take_drop by done. rewrite <-(take_drop_middle l' i x Hi) at 1.
    rewrite <-app_assoc, (Permutation_app_comm _ [z]), Permutation_middle. cbn.
    rewrite <-!Permutation_middle. by rewrite Permutation_swap.
  - rewrite lookup_app_r in Hi by lia. apply list_lookup_singleton_Some in Hi as [Hi ->].
    rewrite insert_app_r_alt by lia. replace (i - length l')%nat with 0%nat by lia. cbn.
    rewrite take_app_length. symmetry. apply Permutation_cons_append.
Qed.

Lemma match_mutations_Ok unmatched mutations rest :
  match_mutations unmatched mutations = Ok rest → unmatched ≡ₚ mutations ++ rest.
Proof.
  revert unmatched. induction mutations as [|m ms IH]; intros u; cbn; [by intros [= ->]|].
  destruct (position _ u) as [i|] eqn:Hi; [|done]. intros Hr%IH.
  apply position_Some in Hi as (x & Hx & ->%bool_decide_eq_true). by rewrite (swap_remove_perm i u m Hx), Hr.
Qed.

Lemma match_mutations_complete unmatched mutations rest :
  unmatched ≡ₚ mutations ++ rest →
  ∃ rest', match_mutations unmatched mutations = Ok rest' ∧ rest' ≡ₚ rest.
Proof.
  revert unmatched. induction mutations as [|m ms IH]; intros u Hu; cbn in *; [by eauto|].
  destruct (position _ u) as [i|] eqn:Hi.
  - apply position_Some in Hi as (x & Hx & ->%bool_decide_eq_true). apply IH.
    apply (Permutation.Permutation_cons_inv (a := m)). by rewrite <-swap_remove_perm.
  - apply (position_None _ _ m) in Hi; [by apply bool_decide_eq_false in Hi|]. rewrite Hu. by left.
Qed.

Lemma validate_participants_Ok context participants :
  validate_participants context participants = Ok tt ↔
  concat (map pw_mutations participants) ≡ₚ ov_mutations (tc_overlay context) ∧
  NoDup (map pw_shard_id participants) ∧
  Forall (λ p, is_Some (context_shards context !! pw_shard_id p)) participants ∧
  (participants = [] ↔ ov_mutations (tc_overlay context) = []).
Proof.
  unfold validate_participants. set (staged := ov_mutations (tc_overlay context)).
  assert (sum_list (map (λ p, length (pw_mutations p)) participants)
    = length (concat (map pw_mutations participants))) as ->.
  { induction participants; cbn; [done|]. rewrite length_app. lia. }
  rewrite <-size_list_to_set_NoDup, length_map.
  assert (Forall (λ p, is_Some (context_shards context !! pw_shard_id p)) participants ↔
    set_Forall (λ s, is_Some (context_shards context !! s))
      (list_to_set (map pw_shard_id participants) : gset Z)) as ->.
  { rewrite Forall_forall. unfold set_Forall. setoid_rewrite elem_of_list_to_set.
    setoid_rewrite list_elem_of_fmap. naive_solver. }
  destruct (Nat.eqb_spec (length (concat (map pw_mutations participants))) (length staged)) as [Hlen|Hlen]; cbn.
  2: { split; [done|]. intros [Hp%Permutation_length _]. congruence. }
  rewrite bind_Ok. split.
  - intros (u & Hu%match_mutations_Ok & Hok). guard_in Hok as Hn. guard_in Hok as Hg. to_prop. subst u.
    rewrite app_nil_r in Hu. match goal with H : Bool.eqb _ _ = true |- _ => apply eqb_prop in H end.
    split; [done|]. split; [by apply Nat.eqb_eq|]. split; [done|].
    repeat case_bool_decide; naive_solver.
  - intros (Hp & Hs & Hf & Hnil). destruct (match_mutations_complete staged (concat (map pw_mutations participants)) [])
      as (u & Hu & Hr); [by rewrite app_nil_r|]. apply Permutation_nil_r in Hr as ->.
    exists []. split; [done|]. cbn. rewrite (proj2 (Nat.eqb_eq _ _)), bool_decide_eq_true_2 by done. cbn.
    repeat case_bool_decide; naive_solver.
Qed.

(** ** Stamping changes the transaction time only *)

Lemma lift_storage_Ok {A} (m : result StorageError A) a : lift_storage m = Ok a ↔ m = Ok a.
Proof. unfold lift_storage. destruct m; cbn; naive_solver. Qed.

Lemma TransactionRecord_new_Ok y st t d r :
  lift_storage (TransactionRecord_new y st t d) = Ok r ↔
  d ≠ zero_digest ∧ r = mkTransactionRecord y st t d.
Proof.
  rewrite lift_storage_Ok. unfold TransactionRecord_new. case_bool_decide; naive_solver.
Qed.

Lemma VertexVersion_new_Ok id v i t ps r :
  VertexVersion_new id v i t ps = Ok r ↔
  validate_properties ps = Ok tt ∧ r = mkVertexVersion id v i t ps.
Proof. unfold VertexVersion_new. destruct (validate_properties ps) as [[]|]; cbn; naive_solver. Qed.

Lemma EdgeVersion_new_Ok id a b ty v i t ps r :
  EdgeVersion_new id a b ty v i t ps = Ok r ↔
  ty ≠ EmptyString ∧ validate_properties ps = Ok tt ∧ r = mkEdgeVersion id a b ty v i t ps.
Proof.
  unfold EdgeVersion_new. case_bool_decide; [naive_solver|].
  destruct (validate_properties ps) as [[]|]; cbn; naive_solver.
Qed.

(** The mutations the constructors admit, whatever their time. *)
Definition stampable (m : LogicalMutation) : Prop :=
  match m with
  | PutVertex v => validate_properties (v_properties v) = Ok tt
  | PutEdge e => e_edge_type e ≠ EmptyString ∧ validate_properties (e_properties e) = Ok tt
  | DeleteVertex _ | DeleteEdge _ => True
  | PutTransaction _ | PutReplicaMetadata _ => False
  end.

Definition set_mutation_time (t : TransactionTime) (m : LogicalMutation) : LogicalMutation :=
  match m with
  | PutVertex v => PutVertex (mkVertexVersion (v_id v) (v_version v) (v_valid_time v) t (v_properties v))
  | DeleteVertex d => DeleteVertex (mkVertexTombstone (vt_id d) (vt_version d) t)
  | PutEdge e =>
      PutEdge (mkEdgeVersion (e_id e) (e_source e) (e_target e) (e_edge_type e) (e_version e)
                 (e_valid_time e) t (e_properties e))
  | DeleteEdge d => DeleteEdge (mkEdgeTombstone (et_id d) (et_version d) t)
  | PutTransaction _ | PutReplicaMetadata _ => m
  end.

Lemma stamp_mutation_Ok t m m' : stamp_mutation t m = Ok m' ↔ stampable m ∧ m' = set_mutation_time t m.
Proof.
  destruct m; cbn; rewrite ?bind_Ok; try setoid_rewrite lift_storage_Ok;
    try setoid_rewrite VertexVersion_new_Ok; try setoid_rewrite EdgeVersion_new_Ok; naive_solver.
Qed.

Lemma stamp_mutations_Ok ms t ms' :
  stamp_mutations ms t = Ok ms' ↔ Forall stampable ms ∧ ms' = map (set_mutation_time t) ms.
Proof.
  unfold stamp_mutations. rewrite try_map_Ok. split.
  - induction 1 as [|m m' ms ms' [Hm ->]%stamp_mutation_Ok _ [Hms ->]]; [done|]. split; [by constructor|done].
  - intros [Hms ->]. induction Hms as [|m ms Hm _ IH]; cbn; constructor; [|done]. by apply stamp_mutation_Ok.
Qed.

Lemma set_mutation_time_facts t m : stampable m →
  mutation_identity (set_mutation_time t m) = mutation_identity m ∧
  mutation_time (set_mutation_time t m) = Some t ∧
  (∀ u, mutation_writes_at (set_mutation_time t m) u ↔ mutation_writes_at m u) ∧
  (mutation_wf m → time_wf t → mutation_wf (set_mutation_time t m)).
Proof. destruct m; cbn; unfold vertex_wf, edge_wf; cbn; try done; intuition. Qed.

Lemma stamped_times ms t ms' :
  stamp_mutations ms t = Ok ms' → Forall (λ m, mutation_time m = Some t) ms'.
Proof.
  intros [Hms ->]%stamp_mutations_Ok. apply Forall_fmap. eapply Forall_impl; [exact Hms|].
  intros m Hm. by apply set_mutation_time_facts.
Qed.

(** ** Identifiers and digests *)

(** The maximum with one makes a command identifier of every digest. *)
Lemma command_id_Ok blake3 x phase s :
  command_id blake3 x phase s = Ok (Z.max (be_value (take 16 (blake3 (command_id_preimage x phase s)))) 1).
Proof.
  unfold command_id, CommandId_new. rewrite (proj2 (Z.eqb_neq _ _)); [done|]. lia.
Qed.

Lemma command_id_range blake3 x phase s id :
  digest_wf (blake3 (command_id_preimage x phase s)) →
  command_id blake3 x phase s = Ok id → id128_wf id.
Proof.
  intros [Hlen Hb]. rewrite command_id_Ok. intros [= <-].
  pose proof (be_value_bound (take 16 (blake3 (command_id_preimage x phase s))) (Forall_take _ _ _ Hb)) as Hr.
  rewrite length_take, Hlen in Hr. change (256 ^ Z.of_nat (16 `min` 32)) with (2 ^ 128) in Hr.
  unfold id128_wf, in_u128. lia.
Qed.

Lemma transaction_manifest_Ok context l m :
  StronglySorted (λ p q, p.1 < q.1) l → transaction_manifest context l = Ok m →
  dm_transaction_id m = context_id context ∧ dm_start_time m = context_start context ∧
  map (λ p, (dp_shard_id p, dp_intent_digest p)) (dm_participants m) = l ∧ manifest_wf m ∧
  Forall (λ p, context_shards context !! dp_shard_id p = Some (dp_fence p)) (dm_participants m).
Proof.
  intros Hs (ps & Hps & Hm)%bind_Ok. pose proof (DurableTransactionManifest_new_wf _ _ _ _ _ Hm) as Hwf.
  apply DurableTransactionManifest_new_Ok in Hm as (_ & _ & _ & ->). cbn. apply try_map_Ok in Hps.
  assert (map (λ p, (dp_shard_id p, dp_intent_digest p)) ps = l ∧
    Forall (λ p, context_shards context !! dp_shard_id p = Some (dp_fence p)) ps) as [Hl Hf].
  { clear Hs Hwf. induction Hps as [|[s d] p l ps Hp _ [IH1 IH2]]; [done|]. cbn in *.
    destruct (context_shards context !! s) as [f|] eqn:Hsf; [|done]. cbn in Hp.
    unfold DurableParticipantManifest_new in Hp. case_bool_decide; [done|]. injection Hp as <-. cbn.
    split; [by rewrite IH1|]. by constructor. }
  assert (sort_by dp_leb ps = ps) as Hsort.
  { apply (sort_by_key_id dp_shard_id). rewrite <-Hl in Hs. clear -Hs.
    induction ps as [|p ps IH]; cbn in *; [constructor|]. inversion Hs as [|? ? Hs' Hp]; subst.
    constructor; [by apply IH|]. rewrite Forall_forall in Hp. apply Forall_forall. intros q Hq.
    specialize (Hp (dp_shard_id q, dp_intent_digest q)). cbn in Hp. apply Z.lt_le_incl, Hp.
    by apply (list_elem_of_fmap_2 (λ p, (dp_shard_id p, dp_intent_digest p))). }
  rewrite Hsort in *. do 4 (split; [done|]). done.
Qed.

(** The digest the coordinator records is the one recovery computes from the intents it reads. *)
Lemma manifest_decision_digest_Ok blake3 context l m state t d :
  StronglySorted (λ p q, p.1 < q.1) l → transaction_manifest context l = Ok m →
  manifest_decision_digest blake3 m state t = Ok d →
  (state = Committed ∧ context_start context < t ∧ d = decision_digest blake3 (context_id context) t l) ∨
  (state = Aborted ∧ t = context_start context ∧
   d = abort_decision_digest blake3 (context_id context) (context_start context) l.*1).
Proof.
  intros Hs (Hx & Ht & Hl & _)%transaction_manifest_Ok; [|done].
  unfold manifest_decision_digest. rewrite Hx, Ht. destruct state; [done|..].
  - intros Hd. guard_in Hd as Hlt. to_prop. injection Hd as <-. left.
    split; [done|]. split; [done|]. by rewrite Hl.
  - intros Hd. guard_in Hd as Heq. to_prop. injection Hd as <-. right. split; [done|]. split; [done|].
    assert (map dp_shard_id (dm_participants m) = l.*1) as Hk
      by (rewrite <-Hl; symmetry;
          exact (map_map (λ p, (dp_shard_id p, dp_intent_digest p)) fst (dm_participants m))).
    by rewrite Hk.
Qed.

Lemma transaction_manifest_live context l :
  StronglySorted (λ p q, p.1 < q.1) l → l ≠ [] → st_catalog_version (tc_snapshot context) ≠ 0 →
  Forall (λ p, is_Some (context_shards context !! p.1) ∧ p.2 ≠ zero_digest) l →
  is_ok (transaction_manifest context l) = true.
Proof.
  intros Hs Hne Hv Hl. unfold transaction_manifest.
  destruct (try_map _ l) as [ps|e] eqn:Hps; cbn.
  - apply try_map_Ok in Hps. destruct (DurableTransactionManifest_new _ _ _ ps) as [m|e] eqn:Hm; [done|].
    exfalso. assert (map dp_shard_id ps = l.*1) as Hk.
    { clear -Hps. induction Hps as [|[s d] p l ps Hp _ IH]; cbn in *; [done|].
      destruct (context_shards context !! s); [|done]. cbn in Hp. unfold DurableParticipantManifest_new in Hp.
      case_bool_decide; [done|]. injection Hp as <-. cbn. by rewrite IH. }
    assert (DurableTransactionManifest_new (context_id context) (context_start context)
      (st_catalog_version (tc_snapshot context)) ps = Ok (mkTransactionManifest (context_id context)
      (context_start context) (st_catalog_version (tc_snapshot context)) (sort_by dp_leb ps))) as Hok;
      [|congruence].
    apply DurableTransactionManifest_new_Ok. split; [done|]. split; [by intros ->; inversion Hps; subst|].
    split; [|done]. rewrite Hk. by apply (strictly_sorted_NoDup fst).
  - exfalso. clear Hs Hne. revert e Hps. induction Hl as [|[s d] l [[f Hf] Hd] _ IH]; intros e; cbn in *; [done|].
    rewrite Hf. cbn. unfold DurableParticipantManifest_new at 1. rewrite bool_decide_eq_false_2 by done.
    destruct (try_map _ l) as [ps|e']; [done|]. by destruct (IH e' eq_refl).
Qed.

(** ** Properties *)

(** The coordinator accepts a list of participant writes exactly when together they write the
    staged mutations, each as often as it was staged, the shards are distinct and all of them belong
    to the snapshot, and there are none only if nothing was staged. *)
Theorem validate_participants_spec (context : TransactionContext) (participants : list ParticipantWrite) :
  validate_participants context participants = Ok tt ↔
  concat (map pw_mutations participants) ≡ₚ ov_mutations (tc_overlay context) ∧
  NoDup (map pw_shard_id participants) ∧
  Forall (λ p, is_Some (context_shards context !! pw_shard_id p)) participants ∧
  (participants = [] ↔ ov_mutations (tc_overlay context) = []).
Proof. apply validate_participants_Ok. Qed.

(** First committer wins, across the stamp: once a transaction's mutations are committed with
    commit time [ct], the conflict check refuses every transaction that started before [ct] and
    writes a point of valid time of the same entity. *)
Theorem first_committer_wins (winner loser others stamped : list LogicalMutation)
    (ct start_time t : Z) (m n : LogicalMutation) (id : EntityIdentity) :
  Forall mutation_wf winner → Forall mutation_wf loser → Forall mutation_wf others → time_wf ct →
  stamp_mutations winner ct = Ok stamped → start_time < ct →
  m ∈ winner → n ∈ loser → mutation_identity m = Some id → mutation_identity n = Some id →
  mutation_writes_at m t → mutation_writes_at n t →
  detect_mutation_conflicts loser (stamped ++ others) start_time = Err WriteConflict.
Proof.
  intros Hw Hl Ho Hct [Hst ->]%stamp_mutations_Ok Hlt Hm Hn Im In Wm Wn.
  destruct (detect_mutation_conflicts loser _ start_time) as [[]|e] eqn:Hd;
    [|by rewrite (detect_mutation_conflicts_Err _ _ _ _ Hd)].
  exfalso. rewrite Forall_forall in Hw, Hst.
  destruct (set_mutation_time_facts ct m (Hst m Hm)) as (Hid & Ht & Hwr & _).
  apply detect_mutation_conflicts_Ok in Hd; [|done|].
  - apply (Hd n (set_mutation_time ct m) id ct t); try done; [|by rewrite Hid|split; [done|by apply Hwr]].
    apply elem_of_app. left. by apply (list_elem_of_fmap_2 (set_mutation_time ct)).
  - apply Forall_app. split; [|done]. apply Forall_forall. intros m' (m0 & -> & Hm0)%list_elem_of_fmap.
    apply set_mutation_time_facts; [by apply Hst|by apply Hw|done].
Qed.

Lemma first_committer_wins_witness :
  detect_mutation_conflicts [example_vertex 3] ([example_vertex 9] ++ []) 5 = Err WriteConflict.
Proof.
  apply (first_committer_wins [example_vertex 4] [example_vertex 3] [] [example_vertex 9] 9 5 6
    (example_vertex 4) (example_vertex 3) (EntityVertex 7));
    try reflexivity; try (by left); try (repeat constructor; discriminate).
Defined.
