(* ===== verification/Recovery.v ===== *)
(** * Recovery ([dtg-transaction/src/recovery.rs])

    Reading back what the shards and the authority hold of a transaction, and bringing it to one
    outcome: completing a decided transaction, aborting an undecided one, or refusing a history that
    no run of the protocol leaves. *)

From S2P Require Import Prelude Kernel Encoding Storage TxnError Conflict Snapshot Overlay.
From S2P Require Import Timestamp Participant Program Commands.
Open Scope Z_scope.
Open Scope txn_scope.

Record RecoveryState := mkRecoveryState {
  rec_histories : gmap ShardId TransactionHistory;
  rec_intents : gmap ShardId RecoveredParticipantIntent;
}.

Inductive AbortPrevalidation :=
| Proceed (pending_commit_time : option TransactionTime)
| Terminal (o : TransactionOutcome).

(** ** Pure checks *)

Definition history_is_empty (history : TransactionHistory) : bool :=
  bool_decide (th_prepared history = None)
  && match th_intent history with None => true | Some _ => false end
  && bool_decide (th_terminal history = [])
  && match th_single_shard_commit history with None => true | Some _ => false end.

Definition has_terminal (history : TransactionHistory) : bool :=
  negb (bool_decide (th_terminal history = [])).

Fixpoint single_shard_loop (histories : list (ShardId * TransactionHistory))
    (recovered : option (ShardId * RecoveredSingleShardCommit))
    : result TxnError (option (ShardId * RecoveredSingleShardCommit)) :=
  match histories with
  | [] => Ok recovered
  | (shard_id, history) :: histories =>
      match th_single_shard_commit history, recovered with
      | Some _, Some _ => Err CorruptRecovery
      | Some commit, None => single_shard_loop histories (Some (shard_id, commit))
      | None, _ => single_shard_loop histories recovered
      end
  end.

Definition recovered_single_shard_commit (state : RecoveryState)
    : result TxnError (option (ShardId * RecoveredSingleShardCommit)) :=
  single_shard_loop (entries (rec_histories state)) None.

Definition recovery_home_shard (state : RecoveryState) : result TxnError ShardId :=
  ok_or CorruptRecovery (head (keys (rec_intents state))).

Definition validate_commit_reservation (reservation : option CommitTimeReservation)
    (commit_time_ : TransactionTime) : result TxnError unit :=
  match reservation with
  | Some reservation =>
      if (commit_time reservation =? commit_time_)
         && negb (bool_decide (resolution reservation = Some ResAborted))
      then Ok tt else Err CorruptRecovery
  | None => Err CorruptRecovery
  end.

Definition validate_abort_reservation (reservation : option CommitTimeReservation)
    (start_time : TransactionTime) : result TxnError unit :=
  match reservation with
  | None => Ok tt
  | Some reservation =>
      if (start_time <? commit_time reservation)
         && negb (bool_decide (resolution reservation = Some ResCommitted))
      then Ok tt else Err CorruptRecovery
  end.

Definition recover_intent (context : TransactionContext) (shard_id : ShardId)
    (history : TransactionHistory) : result TxnError (option RecoveredParticipantIntent) :=
  match th_prepared history, th_intent history with
  | None, None => Ok None
  | Some prepared, Some intent =>
      if (tr_id prepared =? context_id context)
         && bool_decide (tr_state prepared = Prepared)
         && (tr_transaction_time prepared =? context_start context)
         && (ri_shard_id intent =? shard_id)
         && (ri_start_time intent =? context_start context)
         && match context_shards context !! shard_id with
            | Some fence => ri_snapshot_applied_index intent =? sf_applied_index fence
            | None => false
            end
         && bool_decide (tr_record_digest prepared = ri_digest intent)
      then Ok (Some intent)
      else Err CorruptRecovery
  | _, _ => Err CorruptRecovery
  end.

(** [validate_terminal_history]: every terminal record agrees with the decision. *)
Definition terminal_agrees (context : TransactionContext) (home : ShardId)
    (decision : TransactionRecord) (state : RecoveryState) (shard_id : ShardId)
    (record : TransactionRecord) : result TxnError unit :=
  if (shard_id =? home) && bool_decide (record = decision) then Ok tt
  else
    intent ← ok_or CorruptRecovery (rec_intents state !! shard_id);
    if negb (tr_id record =? context_id context)
       || negb (bool_decide (tr_state record = tr_state decision))
       || negb (tr_transaction_time record =? tr_transaction_time decision)
       || negb (bool_decide (tr_record_digest record = ri_digest intent))
    then Err CorruptRecovery
    else Ok tt.

Definition validate_terminal_history (context : TransactionContext) (home : ShardId)
    (decision : TransactionRecord) (state : RecoveryState) : result TxnError unit :=
  try_for_each (λ '(shard_id, history),
    try_for_each (terminal_agrees context home decision state shard_id) (th_terminal history))
    (entries (rec_histories state)).

(** The nested loops of [validate_terminal_history_without_decision], with their [observed]. *)
Fixpoint undecided_records (context : TransactionContext) (intent : option RecoveredParticipantIntent)
    (records : list TransactionRecord) (observed : option (TransactionState * TransactionTime))
    : result TxnError (option (TransactionState * TransactionTime)) :=
  match records with
  | [] => Ok observed
  | record :: records =>
      i ← ok_or CorruptRecovery intent;
      if negb (tr_id record =? context_id context)
         || negb (bool_decide (tr_record_digest record = ri_digest i))
         || bool_decide (tr_state record = Prepared)
         || (bool_decide (tr_state record = Aborted)
             && negb (tr_transaction_time record =? context_start context))
         || (bool_decide (tr_state record = Committed)
             && (tr_transaction_time record <=? context_start context))
      then Err CorruptRecovery
      else
        let candidate := (tr_state record, tr_transaction_time record) in
        if match observed with Some existing => negb (bool_decide (existing = candidate)) | None => false end
        then Err CorruptRecovery
        else undecided_records context intent records (Some candidate)
  end.

Fixpoint undecided_histories (context : TransactionContext)
    (intents : gmap ShardId RecoveredParticipantIntent)
    (histories : list (ShardId * TransactionHistory))
    (observed : option (TransactionState * TransactionTime)) : result TxnError unit :=
  match histories with
  | [] => Ok tt
  | (shard_id, history) :: histories =>
      observed ← undecided_records context (intents !! shard_id) (th_terminal history) observed;
      undecided_histories context intents histories observed
  end.

Definition validate_terminal_history_without_decision (context : TransactionContext)
    (state : RecoveryState) : result TxnError unit :=
  undecided_histories context (rec_intents state) (entries (rec_histories state)) None.

Definition intent_digests (state : RecoveryState) : list (ShardId * Digest32) :=
  map (λ p : ShardId * RecoveredParticipantIntent, (p.1, ri_digest p.2)) (entries (rec_intents state)).

Section recovery.
Context (blake3 : bytes → Digest32).

(** One record of the loop in [recover_home_decision]: is it the decision these intents give? *)
Definition decision_valid (context : TransactionContext) (state : RecoveryState)
    (record : TransactionRecord) : bool :=
  match tr_state record with
  | Committed =>
      if (context_start context <? tr_transaction_time record)
         && negb (bool_decide (rec_intents state = ∅))
      then bool_decide (decision_digest blake3 (context_id context) (tr_transaction_time record)
                          (intent_digests state) = tr_record_digest record)
      else false
  | Aborted =>
      if tr_transaction_time record =? context_start context
      then bool_decide (abort_decision_digest blake3 (context_id context) (context_start context)
                          (keys (rec_intents state)) = tr_record_digest record)
      else false
  | Prepared => false
  end.

Fixpoint home_decision_loop (context : TransactionContext) (state : RecoveryState)
    (local_digest : option Digest32) (records : list TransactionRecord)
    (decision : option TransactionRecord) : result TxnError (option TransactionRecord) :=
  match records with
  | [] => Ok decision
  | record :: records =>
      if negb (tr_id record =? context_id context) || bool_decide (tr_state record = Prepared)
      then Err CorruptRecovery
      else if bool_decide (local_digest = Some (tr_record_digest record))
      then home_decision_loop context state local_digest records decision
      else if negb (decision_valid context state record) then Err CorruptRecovery
      else if match decision with Some existing => negb (bool_decide (existing = record)) | None => false end
      then Err CorruptRecovery
      else home_decision_loop context state local_digest records (Some record)
  end.

Definition recover_home_decision (context : TransactionContext) (home : ShardId)
    (state : RecoveryState) : result TxnFault (option TransactionRecord) :=
  let local_digest := ri_digest <$> rec_intents state !! home in
  history ← index_or_panic (rec_histories state !! home);
  no_panic (home_decision_loop context state local_digest (th_terminal history) None).

Definition single_shard_request (context : TransactionContext) (shard_id : ShardId)
    (fence : ShardSnapshotFence) (commit_time : TransactionTime) : result TxnError ShardRequest :=
  id ← command_id blake3 (context_id context) "single-commit" shard_id;
  mutations ← stamp_mutations (ov_mutations (tc_overlay context)) commit_time;
  Ok (CommitSingleShard
        (mkHeader id (sf_placement_epoch fence) (sf_backend_generation fence))
        (context_id context) (context_start context) (sf_applied_index fence) mutations).

(** ** Loading *)

Fixpoint load_loop (context : TransactionContext) (shards : list ShardId) (state : RecoveryState)
    : txn RecoveryState :=
  match shards with
  | [] => ret state
  | shard_id :: shards =>
      history ← transaction_history shard_id (context_id context);
      intent ← lift (recover_intent context shard_id history);
      load_loop context shards
        (mkRecoveryState (<[shard_id := history]> (rec_histories state))
           (match intent with
            | Some intent => <[shard_id := intent]> (rec_intents state)
            | None => rec_intents state
            end))
  end.

Definition load_recovery_state (context : TransactionContext) : txn RecoveryState :=
  load_loop context (keys (context_shards context)) (mkRecoveryState ∅ ∅).

(** ** Single-shard transactions *)

Definition recover_durable_single_shard (context : TransactionContext) (shard_id : ShardId)
    (commit : RecoveredSingleShardCommit) : txn TransactionOutcome :=
  reservation ← get_reservation (context_id context);
  match reservation with
  | None => throw CorruptRecovery
  | Some reservation =>
      if (rs_commit_time commit <=? context_start context)
         || bool_decide (resolution reservation = Some ResAborted)
         || negb (commit_time reservation =? rs_commit_time commit)
      then throw CorruptRecovery
      else
        fence ← lift (ok_or IncompleteSnapshot (context_shards context !! shard_id));
        request ← lift (single_shard_request context shard_id fence (rs_commit_time commit));
        if negb (rs_transaction_id commit =? context_id context)
           || negb (rs_command_id commit =? rh_command_id (request_header request))
           || negb (rs_start_time commit =? context_start context)
           || negb (rs_snapshot_applied_index commit =? sf_applied_index fence)
           || negb (bool_decide (rs_request_digest commit = request_digest blake3 request))
        then throw CorruptRecovery
        else
          _ ← resolve_commit (context_id context) (rs_commit_time commit) ResCommitted;
          ret (OutCommitted (rs_commit_time commit))
  end.

Definition resolve_definitive_single_shard_failure (context : TransactionContext)
    (commit_time_ : TransactionTime) (error : TxnError) : txn TransactionOutcome :=
  reservation <~ get_reservation (context_id context);
  match reservation with
  | Err _ => ret OutUnresolved
  | Ok reservation =>
      state <~ load_recovery_state context;
      match state with
      | Err e => if is_corrupt e then throw CorruptRecovery else ret OutUnresolved
      | Ok state =>
          single ← lift (recovered_single_shard_commit state);
          match single with
          | Some (shard_id, commit) => recover_durable_single_shard context shard_id commit
          | None =>
              if existsb (λ history, negb (history_is_empty history)) (values (rec_histories state))
              then throw CorruptRecovery
              else match reservation with
              | None => throw CorruptRecovery
              | Some reservation =>
                  if negb (commit_time reservation =? commit_time_)
                     || (commit_time reservation <=? context_start context)
                  then throw CorruptRecovery
                  else match resolution reservation with
                  | Some ResCommitted => ret (OutCommitted commit_time_)
                  | Some ResAborted => ret OutAborted
                  | None =>
                      r <~ resolve_commit (context_id context) commit_time_ ResAborted;
                      match r with
                      | Err _ => ret OutUnresolved
                      | Ok _ => throw error
                      end
                  end
              end
          end
      end
  end.

Definition recover_single_shard (context : TransactionContext) : txn TransactionOutcome :=
  reservation ← get_reservation (context_id context);
  match reservation with
  | None => ret OutUnresolved
  | Some reservation =>
      if bool_decide (resolution reservation = Some ResAborted) then ret OutAborted
      else if commit_time reservation <=? context_start context then throw CorruptRecovery
      else
        first ← lift (ok_or IncompleteSnapshot (head (entries (context_shards context))));
        let '(shard_id, fence) := first in
        request ← lift (single_shard_request context shard_id fence (commit_time reservation));
        r <~ submit shard_id request;
        match r with
        | Err (Definitive error) =>
            resolve_definitive_single_shard_failure context (commit_time reservation) error
        | Err (Ambiguous error) => throw error
        | Ok _ =>
            _ ← resolve_commit (context_id context) (commit_time reservation) ResCommitted;
            ret (OutCommitted (commit_time reservation))
        end
  end.

(** ** Recovery of a transaction *)

(** The two finalisation loops of [recover]. *)
Definition recover_finalize_commit (context : TransactionContext) (decision : TransactionRecord)
    (p : ShardId * RecoveredParticipantIntent) : txn unit :=
  let '(shard_id, intent) := p in
  fence ← lift (ok_or CorruptRecovery (context_shards context !! shard_id));
  id ← lift (command_id blake3 (context_id context) "finalize-commit" shard_id);
  _ ← submit_or_fail shard_id
        (FinalizeParticipantCommit
           (mkHeader id (sf_placement_epoch fence) (sf_backend_generation fence))
           (context_id context) (context_start context) (ri_snapshot_applied_index intent)
           (tr_transaction_time decision) (ri_digest intent) (ri_mutations intent));
  ret tt.

Definition recover_finalize_abort (context : TransactionContext)
    (p : ShardId * RecoveredParticipantIntent) : txn unit :=
  let '(shard_id, intent) := p in
  fence ← lift (ok_or CorruptRecovery (context_shards context !! shard_id));
  terminal ← lift (lift_storage (TransactionRecord_new (context_id context) Aborted
                     (context_start context) (ri_digest intent)));
  id ← lift (command_id blake3 (context_id context) "finalize-abort" shard_id);
  _ ← submit_or_fail shard_id
        (FinalizeParticipantAbort
           (mkHeader id (sf_placement_epoch fence) (sf_backend_generation fence)) terminal);
  ret tt.

(** [match decision.state()] in [recover]. *)
Definition complete_decision (context : TransactionContext) (state : RecoveryState)
    (decision : TransactionRecord) : txn TransactionOutcome :=
  match tr_state decision with
  | Committed =>
      reservation ← get_reservation (context_id context);
      _ ← lift (validate_commit_reservation reservation (tr_transaction_time decision));
      _ ← for_each (recover_finalize_commit context decision) (entries (rec_intents state));
      _ ← resolve_commit (context_id context) (tr_transaction_time decision) ResCommitted;
      ret (OutCommitted (tr_transaction_time decision))
  | Aborted =>
      reservation <~ get_reservation (context_id context);
      match reservation with
      | Err _ => ret OutUnresolved
      | Ok reservation =>
          _ ← lift (validate_abort_reservation reservation (context_start context));
          _ ← for_each (recover_finalize_abort context) (entries (rec_intents state));
          match reservation with
          | Some reservation =>
              _ ← resolve_commit (context_id context) (commit_time reservation) ResAborted;
              ret OutAborted
          | None => ret OutAborted
          end
      end
  | Prepared => throw CorruptRecovery
  end.

(** [if state.intents.is_empty()] in [recover]. *)
Definition recover_without_intents (context : TransactionContext) (state : RecoveryState)
    : txn TransactionOutcome :=
  _ ← lift (validate_terminal_history_without_decision context state);
  if negb (forallb history_is_empty (values (rec_histories state))) then ret OutUnresolved
  else
    reservation ← get_reservation (context_id context);
    match reservation with
    | None => ret OutUnresolved
    | Some reservation =>
        if commit_time reservation <=? context_start context then throw CorruptRecovery
        else match resolution reservation with
        | Some ResAborted => ret OutAborted
        | Some ResCommitted => throw CorruptRecovery
        | None => ret OutUnresolved
        end
    end.

Definition recover (context : TransactionContext) : txn TransactionOutcome :=
  state ← load_recovery_state context;
  single ← lift (recovered_single_shard_commit state);
  match single with
  | Some (shard_id, commit) => recover_durable_single_shard context shard_id commit
  | None =>
      if Nat.eqb (size (context_shards context)) 1
         && forallb history_is_empty (values (rec_histories state))
      then recover_single_shard context
      else if bool_decide (rec_intents state = ∅) then recover_without_intents context state
      else
        home ← lift (recovery_home_shard state);
        decision ← lift_fault (recover_home_decision context home state);
        match decision with
        | None =>
            _ ← lift (validate_terminal_history_without_decision context state);
            ret OutUnresolved
        | Some decision =>
            _ ← lift (validate_terminal_history context home decision state);
            complete_decision context state decision
        end
  end.

(** [match reservation] at the end of [prevalidate_abort_authority]. *)
Definition abort_authority (context : TransactionContext) (reservation : option CommitTimeReservation)
    : txn AbortPrevalidation :=
  match reservation with
  | Some reservation =>
      if commit_time reservation <=? context_start context then throw CorruptRecovery
      else match resolution reservation with
      | Some ResCommitted => ret (Terminal (OutCommitted (commit_time reservation)))
      | Some ResAborted => ret (Terminal OutAborted)
      | None => ret (Proceed (Some (commit_time reservation)))
      end
  | None => ret (Proceed None)
  end.

Definition prevalidate_abort_authority (context : TransactionContext) : txn AbortPrevalidation :=
  reservation <~ get_reservation (context_id context);
  match reservation with
  | Err _ => ret (Terminal OutUnresolved)
  | Ok reservation =>
      state <~ load_recovery_state context;
      match state with
      | Err e => if is_corrupt e then throw CorruptRecovery else ret (Terminal OutUnresolved)
      | Ok state =>
          single ← lift (recovered_single_shard_commit state);
          match single with
          | Some (shard_id, commit) =>
              o ← recover_durable_single_shard context shard_id commit;
              ret (Terminal o)
          | None =>
              decided ←
                (if negb (bool_decide (rec_intents state = ∅)) then
                   home ← lift (recovery_home_shard state);
                   decision ← lift_fault (recover_home_decision context home state);
                   ret (bool_decide (is_Some decision))
                 else ret false);
              if (decided : bool) then
                o ← recover context;
                ret (Terminal o)
              else if existsb has_terminal (values (rec_histories state)) then
                _ ← lift (validate_terminal_history_without_decision context state);
                ret (Terminal OutUnresolved)
              else abort_authority context reservation
          end
      end
  end.

(** The abort decision [resolve_failed_prewrite] records at the home shard. *)
Definition abort_undecided (context : TransactionContext) (state : RecoveryState) (home : ShardId)
    : txn TransactionOutcome :=
  fence ← lift (ok_or IncompleteSnapshot (context_shards context !! home));
  manifest ← lift (transaction_manifest context (intent_digests state));
  digest ← lift (manifest_decision_digest blake3 manifest Aborted (context_start context));
  decision ← lift (lift_storage (TransactionRecord_new (context_id context) Aborted
                     (context_start context) digest));
  id ← lift (command_id blake3 (context_id context) "decision" home);
  r <~ submit home
          (RecordHomeDecision
             (mkHeader id (sf_placement_epoch fence) (sf_backend_generation fence)) decision manifest);
  match r with
  | Err _ =>
      o <~ recover context;
      match o with
      | Ok outcome => ret outcome
      | Err e => if is_corrupt e then throw CorruptRecovery else ret OutUnresolved
      end
  | Ok _ => recover context
  end.

Definition resolve_failed_prewrite (context : TransactionContext) : txn TransactionOutcome :=
  pre ← prevalidate_abort_authority context;
  match pre with
  | Terminal outcome => ret outcome
  | Proceed _ =>
      state <~ load_recovery_state context;
      match state with
      | Err e => if is_corrupt e then throw CorruptRecovery else ret OutUnresolved
      | Ok state =>
          if bool_decide (rec_intents state = ∅) then
            if existsb has_terminal (values (rec_histories state)) then
              _ ← lift (validate_terminal_history_without_decision context state);
              ret OutUnresolved
            else
              reservation ← get_reservation (context_id context);
              match reservation with
              | Some reservation =>
                  _ ← resolve_commit (context_id context) (commit_time reservation) ResAborted;
                  ret OutAborted
              | None => ret OutAborted
              end
          else
            home ← lift (recovery_home_shard state);
            decision ← lift_fault (recover_home_decision context home state);
            if bool_decide (is_Some decision) then recover context
            else if existsb has_terminal (values (rec_histories state)) then
              _ ← lift (validate_terminal_history_without_decision context state);
              ret OutUnresolved
            else abort_undecided context state home
      end
  end.

(** The [async] block of [recover_transaction]. *)
Definition recover_leased (transaction_id : TransactionId) (lease : RecoveryLease)
    : txn TransactionOutcome :=
  manifest ← recovery_manifest transaction_id lease;
  manifest ← lift (ok_or CorruptRecovery manifest);
  if negb (dm_transaction_id manifest =? transaction_id) then throw CorruptRecovery
  else
    token ← lift (manifest_snapshot_token manifest);
    let context := TransactionContext_new token in
    state ← load_recovery_state context;
    _ ← lift (try_for_each (λ participant,
          if negb (bool_decide (ri_digest <$> rec_intents state !! dp_shard_id participant
                                = Some (dp_intent_digest participant)))
          then Err CorruptRecovery else Ok tt) (dm_participants manifest));
    o ← recover context;
    match o with
    | OutUnresolved => resolve_failed_prewrite context
    | outcome => ret outcome
    end.

Definition recover_transaction (transaction_id : TransactionId) (recovery_owner : Z)
    : txn TransactionOutcome :=
  lease ← acquire_recovery_lease transaction_id recovery_owner;
  result <~ recover_leased transaction_id lease;
  release <~ release_recovery_lease lease;
  match result, release with
  | Ok outcome, Ok _ => ret outcome
  | Err error, _ => throw error
  | Ok _, Err error => throw error
  end.
End recovery.
