(* ===== verification/Coordinator.v ===== *)
(** * The coordinator ([dtg-transaction/src/coordinator.rs])

    [begin], [commit] and [abort] of [TemporalTxnCoordinator]: snapshot, conflict detection,
    commit-time reservation, single-shard commit or prewrite of every participant, the decision at
    the home shard, finalisation, and resolution of the reservation. *)

From S2P Require Import Prelude Kernel Encoding Storage TxnError Conflict Snapshot Overlay.
From S2P Require Import Timestamp Participant Program Commands Recovery.
Open Scope Z_scope.
Open Scope txn_scope.

(** An entry of [commit]'s [intents]. *)
Record PreparedIntent := mkPreparedIntent {
  pi_participant : ParticipantWrite;
  pi_mutations : list LogicalMutation;
  pi_digest : Digest32;
}.
Definition pi_entry (i : PreparedIntent) : ShardId * Digest32 :=
  (pw_shard_id (pi_participant i), pi_digest i).

Definition pw_leb (p q : ParticipantWrite) : bool := pw_shard_id p <=? pw_shard_id q.

Section coordinator.
Context (blake3 : bytes → Digest32).

Definition begin (transaction_id : TransactionId) (catalog_version : Version)
    (shard_fences : list (ShardId * ShardSnapshotFence)) : txn TransactionContext :=
  start_time ← allocate_start transaction_id;
  token ← lift (SnapshotToken_new transaction_id start_time catalog_version shard_fences);
  ret (TransactionContext_new token).

(** The changes a participant is checked against: those it did not write itself. *)
Definition foreign_changes (intended : list LogicalMutation) (changes : list ChangeRecord)
    : list LogicalMutation :=
  List.filter (λ m, negb (bool_decide (m ∈ intended))) (map cr_mutation changes).

(** The conflict loop of [commit]; [multi] is [participants.len() > 1]. *)
Fixpoint conflict_loop (context : TransactionContext) (multi : bool)
    (existing_commit_time : option TransactionTime) (participants : list ParticipantWrite)
    : txn (ControlFlow TransactionOutcome unit) :=
  match participants with
  | [] => ret (Continue tt)
  | participant :: rest =>
      fence ← lift (ok_or IncompleteSnapshot (context_shards context !! pw_shard_id participant));
      changes ← changes_after (pw_shard_id participant) (sf_applied_index fence);
      intended ← lift (match existing_commit_time with
                       | Some ct => stamp_mutations (pw_mutations participant) ct
                       | None => Ok []
                       end);
      match detect_mutation_conflicts (pw_mutations participant) (foreign_changes intended changes)
              (context_start context) with
      | Err error =>
          match existing_commit_time with
          | Some ct =>
              if multi then
                o ← resolve_failed_prewrite blake3 context;
                ret (Break o)
              else
                _ ← resolve_commit (context_id context) ct ResAborted;
                throw error
          | None => throw error
          end
      | Ok _ => conflict_loop context multi existing_commit_time rest
      end
  end.

(** [if participants.len() == 1] in [commit]. *)
Definition commit_single_shard (context : TransactionContext) (participant : ParticipantWrite)
    (commit_time : TransactionTime) : txn TransactionOutcome :=
  fence ← index (context_shards context !! pw_shard_id participant);
  id ← lift (command_id blake3 (context_id context) "single-commit" (pw_shard_id participant));
  mutations ← lift (stamp_mutations (pw_mutations participant) commit_time);
  r <~ submit (pw_shard_id participant)
          (CommitSingleShard
             (mkHeader id (sf_placement_epoch fence) (sf_backend_generation fence))
             (context_id context) (context_start context) (sf_applied_index fence) mutations);
  match r with
  | Err (Definitive error) =>
      resolve_definitive_single_shard_failure blake3 context commit_time error
  | Err (Ambiguous error) => throw error
  | Ok _ =>
      _ ← resolve_commit (context_id context) commit_time ResCommitted;
      ret (OutCommitted commit_time)
  end.

(** The prewrite loop, with the phase and the stamp of [commit] or of [abort]. *)
Fixpoint prewrite_loop (context : TransactionContext) (phase : string) (stamp : TransactionTime)
    (participants : list ParticipantWrite) (intents : list PreparedIntent)
    : txn (ControlFlow TransactionOutcome (list PreparedIntent)) :=
  match participants with
  | [] => ret (Continue intents)
  | participant :: rest =>
      fence ← index (context_shards context !! pw_shard_id participant);
      mutations ← lift (stamp_mutations (pw_mutations participant) stamp);
      id ← lift (command_id blake3 (context_id context) phase (pw_shard_id participant));
      r <~ submit (pw_shard_id participant)
              (PrewriteIntent
                 (mkHeader id (sf_placement_epoch fence) (sf_backend_generation fence))
                 (context_id context) (context_start context) (sf_applied_index fence) mutations);
      match r with
      | Err _ => o ← resolve_failed_prewrite blake3 context; ret (Break o)
      | Ok receipt =>
          match sr_intent_digest receipt with
          | None => o ← resolve_failed_prewrite blake3 context; ret (Break o)
          | Some digest =>
              prewrite_loop context phase stamp rest
                (intents ++ [mkPreparedIntent participant mutations digest])
          end
      end
  end.

(** The decision recorded at the home shard: [participants[0]], the least shard. *)
Definition record_decision (context : TransactionContext) (state : TransactionState)
    (decision_time : TransactionTime) (participants : list ParticipantWrite)
    (intents : list (ShardId * Digest32)) : txn unit :=
  first ← index (head participants);
  let home := pw_shard_id first in
  home_fence ← index (context_shards context !! home);
  manifest ← lift (transaction_manifest context intents);
  digest ← lift (manifest_decision_digest blake3 manifest state decision_time);
  decision ← lift (lift_storage (TransactionRecord_new (context_id context) state decision_time digest));
  id ← lift (command_id blake3 (context_id context) "decision" home);
  _ ← submit_or_fail home
        (RecordHomeDecision
           (mkHeader id (sf_placement_epoch home_fence) (sf_backend_generation home_fence))
           decision manifest);
  ret tt.

Definition finalize_commit (context : TransactionContext) (commit_time : TransactionTime)
    (intent : PreparedIntent) : txn unit :=
  let shard_id := pw_shard_id (pi_participant intent) in
  fence ← index (context_shards context !! shard_id);
  id ← lift (command_id blake3 (context_id context) "finalize-commit" shard_id);
  _ ← submit_or_fail shard_id
        (FinalizeParticipantCommit
           (mkHeader id (sf_placement_epoch fence) (sf_backend_generation fence))
           (context_id context) (context_start context) (sf_applied_index fence) commit_time
           (pi_digest intent) (pi_mutations intent));
  ret tt.

Definition finalize_abort (context : TransactionContext) (intent : ShardId * Digest32) : txn unit :=
  let '(shard_id, intent_digest) := intent in
  fence ← index (context_shards context !! shard_id);
  terminal ← lift (lift_storage (TransactionRecord_new (context_id context) Aborted
                     (context_start context) intent_digest));
  id ← lift (command_id blake3 (context_id context) "finalize-abort" shard_id);
  _ ← submit_or_fail shard_id
        (FinalizeParticipantAbort
           (mkHeader id (sf_placement_epoch fence) (sf_backend_generation fence)) terminal);
  ret tt.

(** Two-phase commit of more than one participant. *)
Definition commit_multi_shard (context : TransactionContext) (participants : list ParticipantWrite)
    (commit_time : TransactionTime) : txn TransactionOutcome :=
  prewritten ← prewrite_loop context "prewrite" commit_time participants [];
  match prewritten with
  | Break outcome => ret outcome
  | Continue intents =>
      _ ← record_decision context Committed commit_time participants (map pi_entry intents);
      _ ← for_each (finalize_commit context commit_time) intents;
      _ ← resolve_commit (context_id context) commit_time ResCommitted;
      ret (OutCommitted commit_time)
  end.

(** [commit] from the conflict check on. *)
Definition commit_participants (context : TransactionContext) (participants : list ParticipantWrite)
    (existing_commit_time : option TransactionTime) : txn TransactionOutcome :=
  checked ← conflict_loop context (1 <? Z.of_nat (length participants)) existing_commit_time participants;
  match checked with
  | Break outcome => ret outcome
  | Continue _ =>
      ct ← (match existing_commit_time with
            | Some ct => ret ct
            | None => reserve_commit (context_id context)
            end);
      if ct <=? context_start context then throw InconsistentSnapshot
      else if Z.of_nat (length participants) =? 1 then
        participant ← index (head participants);
        commit_single_shard context participant ct
      else commit_multi_shard context participants ct
  end.

Definition commit (context : TransactionContext) (participants : list ParticipantWrite)
    : txn TransactionOutcome :=
  _ ← lift_fault (validate (tc_overlay context) (tc_base context));
  _ ← lift (validate_participants context participants);
  let participants := sort_by pw_leb participants in
  if bool_decide (participants = []) then ret (OutCommitted (context_start context))
  else
    existing ← get_reservation (context_id context);
    match existing with
    | Some reservation =>
        if bool_decide (resolution reservation = Some ResAborted) then ret OutAborted
        else if (Z.of_nat (length participants) =? 1)
                && bool_decide (resolution reservation = Some ResCommitted) then
          if commit_time reservation <=? context_start context then throw CorruptRecovery
          else ret (OutCommitted (commit_time reservation))
        else commit_participants context participants (Some (commit_time reservation))
    | None => commit_participants context participants None
    end.

Definition abort (context : TransactionContext) (participants : list ParticipantWrite)
    : txn TransactionOutcome :=
  _ ← lift_fault (validate (tc_overlay context) (tc_base context));
  _ ← lift (validate_participants context participants);
  let participants := sort_by pw_leb participants in
  if bool_decide (participants = []) then ret OutAborted
  else
    pre ← prevalidate_abort_authority blake3 context;
    match pre with
    | Terminal outcome => ret outcome
    | Proceed pending_commit_time =>
        prewritten ← prewrite_loop context "prewrite-abort" (context_start context) participants [];
        match prewritten with
        | Break outcome => ret outcome
        | Continue intents =>
            _ ← record_decision context Aborted (context_start context) participants (map pi_entry intents);
            _ ← for_each (finalize_abort context) (map pi_entry intents);
            match pending_commit_time with
            | Some ct =>
                r <~ resolve_commit (context_id context) ct ResAborted;
                match r with Err _ => ret OutUnresolved | Ok _ => ret OutAborted end
            | None => ret OutAborted
            end
        end
    end.
End coordinator.

(** ** A concrete transaction over two shards, and an environment where nothing fails *)

Definition constant_hash : bytes → Digest32 := λ _, replicate 32 1.
Definition example_put (id : VertexId) : LogicalMutation :=
  PutVertex (mkVertexVersion id 1 (mkValidInterval 0 10) 5 []).
Definition example_token : SnapshotToken :=
  mkSnapshotToken 9 5 1
    {[2 := mkShardSnapshotFence 1 1 4 6; 3 := mkShardSnapshotFence 1 1 8 6]}.
Definition example_context : TransactionContext :=
  mkTransactionContext example_token BaseGraphSnapshot_default
    (mkTransactionOverlay [example_put 7; example_put 8]).
Definition example_participants : list ParticipantWrite :=
  [mkParticipantWrite 3 [example_put 8]; mkParticipantWrite 2 [example_put 7]].

Definition example_env : environment := λ _ c,
  match c return answer c with
  | CallAllocateStartTime _ => Ok 5
  | CallReserveCommitTime _ => Ok 6
  | CallCommitTimeReservation _ => Ok None
  | CallResolveCommitTime _ _ _ => Ok tt
  | CallSubmit _ _ => Ok (SubmissionReceipt_prepared 9 false (replicate 32 7))
  | CallChangesAfter _ _ => Ok []
  | CallTransactionHistory _ _ => Ok (TransactionHistory_new None None [])
  | CallAcquireRecoveryLease x owner => Ok (mkRecoveryLease x owner 1)
  | CallRecoveryManifest _ _ => Ok (Some example_manifest)
  | CallReleaseRecoveryLease _ => Ok tt
  end.

Definition example_run : outcome (result TxnError TransactionOutcome) * list event :=
  run example_env (commit constant_hash example_context example_participants) [].
