(* ===== verification/Protocol.v ===== *)
(** * Safety of the commit protocol

    Every call of the coordinator and of its recovery is justified by the answers received before
    it, in every environment: no participant is finalised without a decision held by the home shard
    for exactly the intents the shards hold, no reservation is resolved as committed without a
    durable commit, and none is resolved as aborted once a commit has been acknowledged.  The guard
    is about each call and the history before it, so it holds at every crash point. *)

From S2P Require Import Prelude Kernel Encoding Storage TxnError Conflict Snapshot Overlay.
From S2P Require Import Timestamp Participant Program Commands Recovery Coordinator.
Open Scope Z_scope.

(** ** What a history shows *)

Definition commits (r : ShardRequest) : bool :=
  match r with
  | CommitSingleShard _ _ _ _ _ | FinalizeParticipantCommit _ _ _ _ _ _ _ => true
  | RecordHomeDecision _ decision _ => bool_decide (tr_state decision = Committed)
  | PrewriteIntent _ _ _ _ _ | FinalizeParticipantAbort _ _ => false
  end.

(** The event is a shard's acknowledgement of a commit. *)
Definition acks_commit (e : event) : bool :=
  match e with
  | mkEvent c a =>
      match c return answer c → bool with
      | CallSubmit _ r => λ a, is_ok a && commits r
      | _ => λ _, false
      end a
  end.
Definition clean (h : list event) : Prop := Forall (λ e, acks_commit e = false) h.

Section evidence.
Context (blake3 : bytes → Digest32) (x : TransactionId) (start_time : TransactionTime).

Definition acknowledged (h : list event) (s : ShardId) (r : ShardRequest) : Prop :=
  ∃ receipt, mkEvent (CallSubmit s r) (Ok receipt) ∈ h.
Definition history_read (h : list event) (s : ShardId) (history : TransactionHistory) : Prop :=
  mkEvent (CallTransactionHistory s x) (Ok history) ∈ h.

(** The shard holds the transaction's intent with this digest. *)
Definition intent_held (h : list event) (p : ShardId * Digest32) : Prop :=
  (∃ header i ms receipt,
     mkEvent (CallSubmit p.1 (PrewriteIntent header x start_time i ms)) (Ok receipt) ∈ h ∧
     sr_intent_digest receipt = Some p.2) ∨
  (∃ history intent, history_read h p.1 history ∧ th_intent history = Some intent ∧
     ri_digest intent = p.2).

(** The shard holds the record as the home decision. *)
Definition decision_held (h : list event) (home : ShardId) (record : TransactionRecord) : Prop :=
  (∃ header manifest, acknowledged h home (RecordHomeDecision header record manifest)) ∨
  (∃ history, history_read h home history ∧ record ∈ th_terminal history).

(** The record decides the transaction over exactly these intents. *)
Definition decides (record : TransactionRecord) (intents : list (ShardId * Digest32)) : Prop :=
  tr_id record = x ∧
  ((tr_state record = Committed ∧ start_time < tr_transaction_time record ∧
    tr_record_digest record = decision_digest blake3 x (tr_transaction_time record) intents) ∨
   (tr_state record = Aborted ∧ tr_transaction_time record = start_time ∧
    tr_record_digest record = abort_decision_digest blake3 x start_time intents.*1)).

(** Intents in ascending shard order, each held by its shard; the first shard is the home. *)
Definition intents_held (h : list event) (home : ShardId) (intents : list (ShardId * Digest32)) : Prop :=
  StronglySorted (λ p q, p.1 < q.1) intents ∧ head intents.*1 = Some home ∧
  Forall (intent_held h) intents.

(** The transaction is decided: the home shard holds a decision for the intents held. *)
Definition decided (h : list event) (record : TransactionRecord) (intents : list (ShardId * Digest32))
    : Prop :=
  ∃ home, intents_held h home intents ∧ decision_held h home record ∧ decides record intents.

Definition finalized (h : list event) (ct : TransactionTime) (p : ShardId * Digest32) : Prop :=
  ∃ header i ms, acknowledged h p.1 (FinalizeParticipantCommit header x start_time i ct p.2 ms).

(** ** The guard; [pre] is what a first write of a shard needs *)

Context (pre : list event → ShardId → ShardRequest → Prop).

Definition submit_guard (h : list event) (s : ShardId) (r : ShardRequest) : Prop :=
  match r with
  | CommitSingleShard _ y t _ _ | PrewriteIntent _ y t _ _ => y = x ∧ t = start_time ∧ pre h s r
  | RecordHomeDecision _ record manifest =>
      ∃ intents, map (λ p, (dp_shard_id p, dp_intent_digest p)) (dm_participants manifest) = intents ∧
        intents_held h s intents ∧ decides record intents
  | FinalizeParticipantCommit _ y t _ ct digest _ =>
      y = x ∧ t = start_time ∧
      ∃ record intents, decided h record intents ∧ tr_state record = Committed ∧
        tr_transaction_time record = ct ∧ (s, digest) ∈ intents
  | FinalizeParticipantAbort _ terminal =>
      ∃ record intents, decided h record intents ∧ tr_state record = Aborted ∧
        terminal = mkTransactionRecord x Aborted start_time (tr_record_digest terminal) ∧
        (s, tr_record_digest terminal) ∈ intents
  end.

(** What makes a commit at [ct] durable. *)
Definition commit_evidence (h : list event) (ct : TransactionTime) : Prop :=
  (∃ s header i ms, acknowledged h s (CommitSingleShard header x start_time i ms) ∧
     Forall (λ m, mutation_time m = Some ct) ms) ∨
  (∃ s history commit, history_read h s history ∧ th_single_shard_commit history = Some commit ∧
     rs_commit_time commit = ct) ∨
  (∃ record intents, decided h record intents ∧ tr_state record = Committed ∧
     tr_transaction_time record = ct ∧ Forall (finalized h ct) intents).

Definition guard (h : list event) (c : call) : Prop :=
  match c with
  | CallSubmit s r => submit_guard h s r
  | CallResolveCommitTime y ct ResCommitted => y = x ∧ start_time < ct ∧ commit_evidence h ct
  | CallResolveCommitTime y _ ResAborted => y = x ∧ clean h
  | CallReserveCommitTime y | CallCommitTimeReservation y | CallTransactionHistory _ y => y = x
  | CallChangesAfter _ _ => True
  | CallAllocateStartTime _ | CallAcquireRecoveryLease _ _ | CallRecoveryManifest _ _
  | CallReleaseRecoveryLease _ => False
  end.

(** ** What an outcome promises *)

Definition resolved (h : list event) (ct : TransactionTime) (r : CommitResolution) : Prop :=
  mkEvent (CallResolveCommitTime x ct r) (Ok tt) ∈ h ∨
  mkEvent (CallCommitTimeReservation x) (Ok (Some (mkReservation ct (Some r)))) ∈ h.

Definition outcome_backed (h : list event) (o : TransactionOutcome) : Prop :=
  match o with
  | OutCommitted t => start_time < t ∧ resolved h t ResCommitted
  | OutAborted =>
      (∃ ct, resolved h ct ResAborted) ∨ mkEvent (CallCommitTimeReservation x) (Ok None) ∈ h
  | OutUnresolved => True
  end.

(** The postcondition of the programs that return an outcome. *)
Definition outcome_post (r : result TxnError TransactionOutcome) (h : list event) : Prop :=
  match r with
  | Ok o => outcome_backed h o ∧ (o = OutUnresolved → clean h)
  | Err _ => True
  end.
Definition result_backed (r : result TxnError TransactionOutcome) (h : list event) : Prop :=
  match r with Ok o => outcome_backed h o | Err _ => True end.

Definition prevalidation_post (r : result TxnError AbortPrevalidation) (h : list event) : Prop :=
  match r with
  | Ok (Terminal o) => outcome_backed h o
  | Ok (Proceed o) =>
      clean h ∧ mkEvent (CallCommitTimeReservation x) (Ok ((λ ct, mkReservation ct None) <$> o)) ∈ h
  | Err _ => True
  end.
End evidence.

(** ** Evidence only grows *)

Lemma sub_cons (e : event) h : h ⊆ e :: h.
Proof. intros f Hf. by right. Qed.
Lemma sub_suffix (h h' : list event) : h `suffix_of` h' → h ⊆ h'.
Proof. intros [k ->] e He. apply elem_of_app. by right. Qed.

Section growth.
Context (blake3 : bytes → Digest32) (x : TransactionId) (start_time : TransactionTime).
Context (h h' : list event) (Hsub : h ⊆ h').

Lemma acknowledged_mono s r : acknowledged h s r → acknowledged h' s r.
Proof. intros [rc Hrc]. exists rc. by apply Hsub. Qed.
Lemma history_read_mono s hist : history_read x h s hist → history_read x h' s hist.
Proof. apply Hsub. Qed.
Lemma intent_held_mono p : intent_held x start_time h p → intent_held x start_time h' p.
Proof.
  intros [(hd & i & ms & rc & He & Hd)|(hist & i & He & Hi & Hd)].
  - left. exists hd, i, ms, rc. split; [by apply Hsub|done].
  - right. exists hist, i. split; [by apply Hsub|done].
Qed.
Lemma intents_held_mono home l :
  intents_held x start_time h home l → intents_held x start_time h' home l.
Proof.
  intros (Hs & Hh & Hl). split; [done|]. split; [done|]. eapply Forall_impl; [exact Hl|].
  intros p. apply intent_held_mono.
Qed.
Lemma decision_held_mono home r : decision_held x h home r → decision_held x h' home r.
Proof.
  intros [(hd & m & Ha)|(hist & Hr & Hi)].
  - left. exists hd, m. by apply acknowledged_mono.
  - right. exists hist. split; [by apply Hsub|done].
Qed.
Lemma decided_mono r l : decided blake3 x start_time h r l → decided blake3 x start_time h' r l.
Proof.
  intros (home & Hi & Hd & Hr). exists home. split; [by apply intents_held_mono|].
  split; [by apply decision_held_mono|done].
Qed.
Lemma finalized_mono ct p : finalized x start_time h ct p → finalized x start_time h' ct p.
Proof. intros (hd & i & ms & Ha). exists hd, i, ms. by apply acknowledged_mono. Qed.
Lemma resolved_mono ct r : resolved x h ct r → resolved x h' ct r.
Proof. intros [He|He]; [left|right]; by apply Hsub. Qed.
End growth.

#[export] Hint Resolve sub_cons sub_suffix acknowledged_mono history_read_mono intent_held_mono
  intents_held_mono decision_held_mono decided_mono finalized_mono resolved_mono : dtg.

(** ** Reading the shards *)

Section recovery_wp.
Context (blake3 : bytes → Digest32) (context : TransactionContext).
Context (pre : list event → ShardId → ShardRequest → Prop).
Abbreviation x := (context_id context).
Abbreviation t0 := (context_start context).
Abbreviation G := (guard blake3 x t0 pre).
Abbreviation post := (outcome_post x t0).

(** What a loaded state shows of the history that loaded it. *)
Definition loaded (h : list event) (state : RecoveryState) : Prop :=
  (∀ s hist, rec_histories state !! s = Some hist → history_read x h s hist) ∧
  (∀ s i, rec_intents state !! s = Some i →
     ∃ hist, rec_histories state !! s = Some hist ∧ th_intent hist = Some i).

Lemma loaded_mono h h' state : h ⊆ h' → loaded h state → loaded h' state.
Proof. intros Hsub [H1 H2]. split; [|done]. eauto with dtg. Qed.

Lemma recover_intent_Some s hist i :
  recover_intent context s hist = Ok (Some i) → th_intent hist = Some i.
Proof.
  unfold recover_intent. destruct (th_prepared hist), (th_intent hist); try done.
  intros Hr. guard_in Hr as Hc. by injection Hr as ->.
Qed.

Lemma load_loop_wp shards state h :
  NoDup shards → Forall (λ s, rec_intents state !! s = None) shards → clean h → loaded h state →
  wp G (load_loop context shards state) h (λ r h',
    clean h' ∧ match r with Ok st => loaded h' st | Err _ => True end).
Proof.
  revert state h. induction shards as [|s shards IH]; intros state h Hnd Hno Hc Hl; [done|].
  apply NoDup_cons in Hnd as [Hs Hnd]. apply Forall_cons_1 in Hno as [Hns Hno].
  cbn [load_loop]. apply wp_bind, wp_call; [done|]. intros r.
  assert (clean (mkEvent (CallTransactionHistory s x) r :: h)) as Hc' by by constructor.
  destruct r as [hist|e]; [|done]. apply wp_lift_bind; [|done]. intros o Ho.
  assert (loaded (mkEvent (CallTransactionHistory s x) (Ok hist) :: h) state) as [Hl1 Hl2]
    by (eapply loaded_mono; [apply sub_cons|done]).
  apply IH; [done| |done|].
  - destruct o as [i|]; cbn; [|done]. rewrite Forall_forall in *. intros s' Hs'.
    rewrite lookup_insert_ne; [by apply Hno|]. by intros ->.
  - split; cbn.
    + intros s' hist'. rewrite lookup_insert. case_decide; [|by apply Hl1].
      intros [= <-]. subst. by left.
    + intros s' i. assert (match o with Some i => <[s:=i]> (rec_intents state) | None => rec_intents state end !! s'
        = if decide (s = s') then o else rec_intents state !! s') as ->.
      { destruct o; [rewrite lookup_insert; by case_decide|]. case_decide; [by subst|done]. }
      case_decide as Hd; [|rewrite lookup_insert_ne by done; apply Hl2].
      subst s'. intros ->. exists hist. rewrite lookup_insert_eq. split; [done|].
      by eapply recover_intent_Some.
Qed.

Lemma load_recovery_state_wp h :
  clean h →
  wp G (load_recovery_state context) h (λ r h',
    clean h' ∧ match r with Ok st => loaded h' st | Err _ => True end).
Proof.
  intros Hc. apply load_loop_wp; [apply NoDup_keys| |done|].
  - apply Forall_forall. intros s _. apply lookup_empty.
  - split; intros s i; cbn; by rewrite lookup_empty.
Qed.

Lemma single_shard_loop_Some l r s c :
  single_shard_loop l r = Ok (Some (s, c)) →
  r = Some (s, c) ∨ ∃ hist, (s, hist) ∈ l ∧ th_single_shard_commit hist = Some c.
Proof.
  revert r. induction l as [|[s' hist] l IH]; intros r; cbn; [intros [= ->]; by left|].
  destruct (th_single_shard_commit hist) as [c'|] eqn:Hc; [destruct r; [done|]|].
  - intros [[= -> ->]|(hist' & Hin & Hc')]%IH; right; [exists hist; split; [by left|done]|].
    exists hist'. split; [by right|done].
  - intros [->|(hist' & Hin & Hc')]%IH; [by left|]. right. exists hist'. split; [by right|done].
Qed.

Lemma recovered_single_evidence h state s c :
  loaded h state → recovered_single_shard_commit state = Ok (Some (s, c)) →
  ∃ hist, history_read x h s hist ∧ th_single_shard_commit hist = Some c.
Proof.
  intros [Hl _] [|(hist & Hin%elem_of_entries & Hc)]%single_shard_loop_Some; [done|]. eauto.
Qed.

(** ** Single-shard transactions *)

Lemma recover_durable_single_shard_wp h s c hist :
  clean h → history_read x h s hist → th_single_shard_commit hist = Some c →
  wp G (recover_durable_single_shard blake3 context s c) h post.
Proof.
  intros Hc Hr Hs. unfold recover_durable_single_shard. apply wp_bind, wp_call; [done|].
  intros [[res|]|e]; [|done..]. case_match eqn:Hg; [done|]. to_prop.
  apply wp_lift_bind; [|done]. intros fence _. apply wp_lift_bind; [|done]. intros request _.
  case_match; [done|]. apply wp_bind, wp_call.
  - split; [done|]. split; [lia|]. right; left. exists s, hist, c. split; [by right|done].
  - intros [[]|e]; [|done]. split; [|done]. split; [lia|]. left. by left.
Qed.

Lemma resolve_definitive_wp h ct error :
  clean h → wp G (resolve_definitive_single_shard_failure blake3 context ct error) h post.
Proof.
  intros Hc. unfold resolve_definitive_single_shard_failure. apply wp_pbind, wp_call; [done|].
  intros reservation. assert (clean (mkEvent (CallCommitTimeReservation x) reservation :: h)) as Hc'
    by by constructor.
  destruct reservation as [reservation|e]; [|by split]. apply wp_pbind.
  eapply wp_mono; [by apply load_recovery_state_wp|]. intros [state|e] h1 Hs1%sub_suffix [Hc1 Hl1].
  2: { destruct (is_corrupt e); by split. }
  apply wp_lift_bind; [|done]. intros [[s c]|] Hsingle.
  { destruct (recovered_single_evidence _ _ _ _ Hl1 Hsingle) as (hist & Hr & Hh).
    by eapply recover_durable_single_shard_wp. }
  destruct (existsb _ _); [done|]. destruct reservation as [res|]; [|done].
  case_match eqn:Hg; [done|]. to_prop. destruct res as [ct' o]; cbn in *; subst ct'.
  assert (mkEvent (CallCommitTimeReservation x) (Ok (Some (mkReservation ct o))) ∈ h1) as Hin
    by (apply Hs1; by left).
  destruct o as [[]|].
  - split; [|done]. split; [lia|]. by right.
  - split; [|done]. left. exists ct. by right.
  - apply wp_pbind, wp_call; [done|]. intros [[]|e]; [done|]. split; [done|]. intros _. by constructor.
Qed.

Hypothesis single_ok : size (context_shards context) = 1%nat → ∀ h s r, pre h s r.

Lemma recover_single_shard_wp h :
  clean h → size (context_shards context) = 1%nat →
  wp G (recover_single_shard blake3 context) h post.
Proof using single_ok.
  intros Hc Hsize. unfold recover_single_shard. apply wp_bind, wp_call; [done|].
  intros r. assert (clean (mkEvent (CallCommitTimeReservation x) r :: h)) as Hc' by by constructor.
  destruct r as [[[ct o]|]|e]; [|by split|done]. cbn.
  case_bool_decide as Ho; [subst; split; [|done]; left; exists ct; right; by left|].
  case_match eqn:Hg; [done|]. to_prop. apply wp_lift_bind; [|done]. intros [s fence] _.
  apply wp_lift_bind; [|done]. intros request Hreq.
  unfold single_shard_request in Hreq. rewrite command_id_Ok in Hreq.
  apply bind_Ok in Hreq as (id & _ & (ms & Hms & [= <-])%bind_Ok).
  apply wp_pbind, wp_call; [split; [done|]; split; [done|]; by apply single_ok|].
  intros [rc|[error|error]]; [|apply resolve_definitive_wp; by constructor|done].
  apply wp_bind, wp_call.
  - split; [done|]. split; [done|]. left. eexists s, _, _, ms. split; [eexists; by left|].
    by eapply stamped_times.
  - intros [[]|e]; [|done]. split; [|done]. split; [done|]. left. by left.
Qed.

(** ** The home decision *)

Lemma intent_digests_keys state : (intent_digests state).*1 = keys (rec_intents state).
Proof. unfold intent_digests, keys. by rewrite <-list_fmap_compose. Qed.

Lemma intent_digests_held h home state :
  loaded h state → recovery_home_shard state = Ok home →
  intents_held x t0 h home (intent_digests state).
Proof.
  intros [Hl1 Hl2] Hhome. split; [|split].
  - unfold intent_digests. induction (entries_sorted (rec_intents state)) as [|p l _ IH Hp]; cbn; constructor; [done|].
    by apply Forall_fmap.
  - rewrite intent_digests_keys. unfold recovery_home_shard in Hhome.
    destruct (head (keys (rec_intents state))); cbn in Hhome; congruence.
  - apply Forall_fmap, Forall_forall. intros [s i] Hin%elem_of_entries. cbn.
    destruct (Hl2 _ _ Hin) as (hist & Hh & Hi). right. exists hist, i. eauto.
Qed.

Lemma decision_valid_decides state record :
  tr_id record = x → decision_valid blake3 context state record = true →
  decides blake3 x t0 record (intent_digests state).
Proof.
  unfold decision_valid, decides. intros Hid Hv. split; [done|].
  rewrite intent_digests_keys. destruct (tr_state record) eqn:Hs; [done| |]; guard_in Hv as Hg; to_prop; subst.
  - left. by rewrite Hv.
  - right. by rewrite Hv.
Qed.

Lemma home_decision_loop_Some state local records d record :
  home_decision_loop blake3 context state local records d = Ok (Some record) →
  d = Some record ∨
  record ∈ records ∧ tr_id record = x ∧ decision_valid blake3 context state record = true.
Proof.
  revert d. induction records as [|r records IH]; intros d; cbn; [intros [= ->]; by left|]. intros Hl.
  guard_in Hl as Hid. to_prop. guard_in Hl as Hloc.
  { apply IH in Hl as [->|(Hin & ?)]; [by left|]. right. split; [by right|done]. }
  guard_in Hl as Hv. destruct (match d with Some _ => _ | None => _ end); [done|].
  apply IH in Hl as [[= ->]|(Hin & ?)]; right; [|split; [by right|done]]. to_prop. split; [by left|done].
Qed.

Lemma recover_home_decision_decided h home state record :
  loaded h state → recovery_home_shard state = Ok home →
  recover_home_decision blake3 context home state = Ok (Some record) →
  decided blake3 x t0 h record (intent_digests state).
Proof.
  intros Hl Hhome. unfold recover_home_decision, index_or_panic.
  destruct (rec_histories state !! home) as [hist|] eqn:Hh; cbn; [|done].
  intros [|(Hin & Hid & Hv)]%no_panic_Ok%home_decision_loop_Some; [done|].
  exists home. split; [by apply intent_digests_held|]. split; [|by apply decision_valid_decides].
  right. exists hist. split; [by apply Hl|done].
Qed.

(** Indexing the home shard's history cannot panic. *)
Lemma recover_home_decision_wp {A} (k : option TransactionRecord → txn A) h home state Q :
  loaded h state → recovery_home_shard state = Ok home →
  (∀ d, (∀ record, d = Some record → decided blake3 x t0 h record (intent_digests state)) →
        wp G (k d) h Q) →
  (∀ e, Q (Err e) h) →
  wp G (lift_fault (recover_home_decision blake3 context home state) ≫= k) h Q.
Proof.
  intros Hl Hhome Hk He. apply wp_bind.
  destruct (recover_home_decision blake3 context home state) as [d|[|e]] eqn:Hd; cbn.
  - apply Hk. intros record ->. by eapply recover_home_decision_decided.
  - exfalso. unfold recover_home_decision in Hd.
    assert (∃ i, rec_intents state !! home = Some i) as [i Hi].
    { unfold recovery_home_shard in Hhome. destruct (keys (rec_intents state)) as [|s l] eqn:Hk'; [done|].
      injection Hhome as <-. apply elem_of_keys. rewrite Hk'. by left. }
    destruct Hl as [_ Hl2]. destruct (Hl2 _ _ Hi) as (hist & Hh & _). rewrite Hh in Hd. cbn in Hd.
    destruct (home_decision_loop _ _ _ _ _ _); done.
  - apply He.
Qed.

(** ** Completing a decision *)

Lemma submit_or_fail_wp h s r (Q : result TxnError SubmissionReceipt → list event → Prop) :
  submit_guard blake3 x t0 pre h s r →
  (∀ rc, Q (Ok rc) (mkEvent (CallSubmit s r) (Ok rc) :: h)) →
  (∀ f, Q (Err (into_error f)) (mkEvent (CallSubmit s r) (Err f) :: h)) →
  wp G (submit_or_fail s r) h Q.
Proof. intros Hg Hok Herr. apply wp_pbind, wp_call; [done|]. intros [rc|f]; [apply Hok|apply Herr]. Qed.

Lemma finalize_commit_loop_wp h state decision :
  decided blake3 x t0 h decision (intent_digests state) → tr_state decision = Committed →
  wp G (for_each (recover_finalize_commit blake3 context decision) (entries (rec_intents state))) h
    (λ r h', match r with
             | Ok _ => h ⊆ h' ∧ Forall (finalized x t0 h' (tr_transaction_time decision)) (intent_digests state)
             | Err _ => True
             end).
Proof.
  intros Hd Hst. set (entry := λ p : ShardId * RecoveredParticipantIntent, (p.1, ri_digest p.2)).
  eapply wp_mono; [apply (wp_for_each _ (λ rest h', h ⊆ h' ∧ ∃ l, entries (rec_intents state) = l ++ rest ∧
    Forall (finalized x t0 h' (tr_transaction_time decision)) (map entry l)) (λ _ _, True))|].
  - intros [s i] rest h' (Hsub & l & Hl & Hf). apply wp_lift_bind; [|done]. intros fence _.
    apply wp_lift_bind; [|done]. intros id _. apply wp_bind, submit_or_fail_wp; [|intros rc|done].
    + split; [done|]. split; [done|]. exists decision, (intent_digests state).
      split; [by eauto with dtg|]. split; [done|]. split; [done|].
      unfold intent_digests. apply (list_elem_of_fmap_2 entry _ (s, i)). rewrite Hl.
      apply elem_of_app. right. by left.
    + split; [by intros e He; right; apply Hsub|]. exists (l ++ [(s, i)]). split; [by rewrite <-app_assoc|].
      rewrite map_app. apply Forall_app. split.
      * eapply Forall_impl; [exact Hf|]. intros p. apply finalized_mono, sub_cons.
      * constructor; [|done]. eexists _, _, _. eexists. by left.
  - split; [done|]. exists []. by split.
  - intros [[]|e] h' _; [|done]. intros (Hsub & l & Hl & Hf). split; [done|].
    rewrite app_nil_r in Hl. unfold intent_digests. by rewrite Hl.
Qed.

Lemma finalize_abort_loop_wp h state decision :
  decided blake3 x t0 h decision (intent_digests state) → tr_state decision = Aborted → clean h →
  wp G (for_each (recover_finalize_abort blake3 context) (entries (rec_intents state))) h
    (λ r h', match r with Ok _ => clean h' | Err _ => True end).
Proof.
  intros Hd Hst Hc. eapply wp_mono; [apply (wp_for_each _ (λ rest h', h ⊆ h' ∧ clean h' ∧
    ∀ p, p ∈ rest → p ∈ entries (rec_intents state)) (λ _ _, True))|].
  - intros [s i] rest h' (Hsub & Hc' & Hin). apply wp_lift_bind; [|done]. intros fence _.
    apply wp_lift_bind; [|done]. intros terminal [_ ->]%TransactionRecord_new_Ok.
    apply wp_lift_bind; [|done]. intros id _. apply wp_bind, submit_or_fail_wp; [|intros rc|done].
    + exists decision, (intent_digests state). split; [by eauto with dtg|]. split; [done|]. split; [done|].
      apply (list_elem_of_fmap_2 (λ p : ShardId * RecoveredParticipantIntent, (p.1, ri_digest p.2)) _ (s, i)).
      apply Hin. by left.
    + split; [by intros e He; right; apply Hsub|]. split; [by constructor|].
      intros p Hp. apply Hin. by right.
  - done.
  - by intros [[]|e] h' _ Hf; [apply Hf|].
Qed.

Lemma complete_decision_wp h state decision :
  decided blake3 x t0 h decision (intent_digests state) → clean h →
  wp G (complete_decision blake3 context state decision) h post.
Proof.
  intros Hd Hc. unfold complete_decision. destruct (tr_state decision) eqn:Hst; [done|..].
  - assert (t0 < tr_transaction_time decision) as Hlt
      by (destruct Hd as (? & _ & _ & _ & [(_ & ? & _)|(? & _)]); [done|congruence]).
    apply wp_bind, wp_call; [done|]. intros [res|e]; [|done]. apply wp_lift_bind; [|done]. intros [] _.
    apply wp_bind. eapply wp_mono; [apply finalize_commit_loop_wp; eauto with dtg|].
    intros [[]|e] h' Hsub%sub_suffix; [|done]. intros [_ Hf]. apply wp_bind, wp_call.
    + split; [done|]. split; [done|]. do 2 right. exists decision, (intent_digests state).
      split; [|done]. eapply decided_mono; [|exact Hd]. intros e He. apply Hsub. by right.
    + intros [[]|e]; [|done]. split; [|done]. split; [done|]. left. by left.
  - apply wp_pbind, wp_call; [done|]. intros [res|e]; [|by split; [|by constructor]].
    apply wp_lift_bind; [|done]. intros [] _. apply wp_bind.
    eapply wp_mono; [apply (finalize_abort_loop_wp _ _ decision); [by eauto with dtg|done|by constructor]|].
    intros [[]|e] h' Hsub%sub_suffix; [|done]. intros Hc'. destruct res as [[ct o]|].
    + apply wp_bind, wp_call; [done|]. intros [[]|e]; [|done]. split; [|done]. left. exists ct. left. by left.
    + split; [|done]. right. apply Hsub. by left.
Qed.

Lemma recover_without_intents_wp h state :
  clean h → wp G (recover_without_intents context state) h post.
Proof.
  intros Hc. unfold recover_without_intents. apply wp_lift_bind; [|done]. intros [] _.
  case_match; [by split|]. apply wp_bind, wp_call; [done|].
  intros r. assert (clean (mkEvent (CallCommitTimeReservation x) r :: h)) as Hc' by by constructor.
  destruct r as [[[ct o]|]|e]; [|by split|done]. cbn [commit_time resolution]. case_match; [done|].
  destruct o as [[]|]; [done| |by split]. split; [|done]. left. exists ct. right. by left.
Qed.

(** ** Recovery *)

Lemma recover_wp h : clean h → wp G (recover blake3 context) h post.
Proof using single_ok.
  intros Hc. unfold recover. apply wp_bind. eapply wp_mono; [by apply load_recovery_state_wp|].
  intros [state|e] h1 _; [|done]. intros [Hc1 Hl1]. apply wp_lift_bind; [|done]. intros [[s c]|] Hsingle.
  { destruct (recovered_single_evidence _ _ _ _ Hl1 Hsingle) as (hist & Hr & Hh).
    by eapply recover_durable_single_shard_wp. }
  case_match eqn:Hone.
  { apply andb_true_iff in Hone as [Hone%Nat.eqb_eq _]. by apply recover_single_shard_wp. }
  case_bool_decide; [by apply recover_without_intents_wp|].
  apply wp_lift_bind; [|done]. intros home Hhome. apply recover_home_decision_wp; [done|done| |done].
  intros [decision|] Hd.
  - apply wp_lift_bind; [|done]. intros [] _. apply complete_decision_wp; [by apply Hd|done].
  - apply wp_lift_bind; [|done]. intros [] _. by split.
Qed.

Lemma prevalidate_abort_authority_wp h :
  clean h →
  wp G (prevalidate_abort_authority blake3 context) h (prevalidation_post x t0).
Proof using single_ok.
  intros Hc. unfold prevalidate_abort_authority. apply wp_pbind, wp_call; [done|].
  intros reservation. assert (clean (mkEvent (CallCommitTimeReservation x) reservation :: h)) as Hc'
    by by constructor.
  destruct reservation as [reservation|e]; [|done]. apply wp_pbind.
  eapply wp_mono; [by apply load_recovery_state_wp|]. intros [state|e] h1 Hs1%sub_suffix [Hc1 Hl1].
  2: { by destruct (is_corrupt e). }
  apply wp_lift_bind; [|done]. intros [[s c]|] Hsingle.
  { destruct (recovered_single_evidence _ _ _ _ Hl1 Hsingle) as (hist & Hr & Hh).
    apply wp_bind. eapply wp_mono; [by eapply recover_durable_single_shard_wp|].
    intros [o|e] h2 _; [|done]. by intros [? _]. }
  apply wp_bind.
  assert (∀ b : bool, wp G (if b then o ← recover blake3 context; ret (Terminal o)
    else if existsb has_terminal (values (rec_histories state)) then
      _ ← lift (validate_terminal_history_without_decision context state); ret (Terminal OutUnresolved)
    else abort_authority context reservation) h1 (prevalidation_post x t0)) as Hrest.
  { intros [].
    - apply wp_bind. eapply wp_mono; [by apply recover_wp|]. intros [o|e] h2 _; [|done]. by intros [? _].
    - destruct (existsb _ _); [apply wp_lift_bind; [|done]; by intros [] _|].
      unfold abort_authority. destruct reservation as [[ct o]|]; cbn [commit_time resolution].
      + case_match eqn:Hg; [done|]. to_prop.
        assert (mkEvent (CallCommitTimeReservation x) (Ok (Some (mkReservation ct o))) ∈ h1) as Hin
          by (apply Hs1; by left).
        destruct o as [[]|]; [split; [done|by right]|left; exists ct; by right|done].
      + split; [done|]. apply Hs1. by left. }
  case_bool_decide; cbn [negb]; [apply Hrest|].
  apply wp_lift_bind; [|done]. intros home Hhome. apply recover_home_decision_wp; [done|done| |done].
  intros d _. apply Hrest.
Qed.

Lemma recover_backed h : clean h → wp G (recover blake3 context) h (result_backed x t0).
Proof using single_ok.
  intros Hc. eapply wp_mono; [by apply recover_wp|]. intros [o|e] h' _; [|done]. by intros [? _].
Qed.

Lemma abort_undecided_wp h state home :
  clean h → loaded h state → recovery_home_shard state = Ok home →
  wp G (abort_undecided blake3 context state home) h (result_backed x t0).
Proof using single_ok.
  intros Hc Hl Hhome. unfold abort_undecided. apply wp_lift_bind; [|done]. intros fence _.
  pose proof (intent_digests_held _ _ _ Hl Hhome) as Hheld. pose proof Hheld as (Hsort & _ & _).
  apply wp_lift_bind; [|done]. intros manifest Hm.
  apply wp_lift_bind; [|done]. intros digest Hd. apply wp_lift_bind; [|done].
  intros decision [_ ->]%TransactionRecord_new_Ok. apply wp_lift_bind; [|done]. intros id _.
  apply wp_pbind, wp_call.
  - exists (intent_digests state). split; [by eapply transaction_manifest_Ok|]. split; [done|].
    eapply manifest_decision_digest_Ok in Hd as [[[=] _]|(_ & _ & ->)]; [|done..].
    split; [done|]. by right.
  - intros [rc|f]; [apply recover_backed; by constructor|].
    apply wp_pbind. eapply wp_mono; [apply recover_backed; by constructor|].
    intros [o|e] h' _; [done|]. intros _. by destruct (is_corrupt e).
Qed.

Lemma resolve_failed_prewrite_wp h :
  clean h → wp G (resolve_failed_prewrite blake3 context) h (result_backed x t0).
Proof using single_ok.
  intros Hc. unfold resolve_failed_prewrite. apply wp_bind.
  eapply wp_mono; [by apply prevalidate_abort_authority_wp|]. intros [[ct|o]|e] h1 _; [|done|done].
  intros [Hc1 _]. apply wp_pbind. eapply wp_mono; [by apply load_recovery_state_wp|].
  intros [state|e] h2 _ [Hc2 Hl2]; [|by destruct (is_corrupt e)]. case_bool_decide.
  { case_match; [apply wp_lift_bind; [|done]; by intros [] _|].
    apply wp_bind, wp_call; [done|]. intros [[[ct' o]|]|e]; [|right; by left|done].
    apply wp_bind, wp_call; [split; [done|]; by constructor|]. intros [[]|e]; [|done].
    left. exists ct'. left. by left. }
  apply wp_lift_bind; [|done]. intros home Hhome. apply recover_home_decision_wp; [done|done| |done].
  intros d _. case_bool_decide; [by apply recover_backed|].
  case_match; [apply wp_lift_bind; [|done]; by intros [] _|]. by apply abort_undecided_wp.
Qed.
End recovery_wp.

(** ** The coordinator's phases *)

Section phases_wp.
Context (blake3 : bytes → Digest32) (context : TransactionContext).
Context (pre : list event → ShardId → ShardRequest → Prop).
Abbreviation x := (context_id context).
Abbreviation t0 := (context_start context).
Abbreviation G := (guard blake3 x t0 pre).

Lemma index_wp {A B} (m : option A) (k : A → txn B) h Q :
  is_Some m → (∀ a, m = Some a → wp G (k a) h Q) → wp G (index m ≫= k) h Q.
Proof. intros [a ->] Hk. apply wp_bind. by apply Hk. Qed.

Definition in_snapshot (p : ParticipantWrite) : Prop :=
  is_Some (context_shards context !! pw_shard_id p).

(** What the prewrite loop leaves for the decision. *)
Definition prewritten (h : list event) (participants : list ParticipantWrite)
    (intents : list PreparedIntent) : Prop :=
  map pi_participant intents = participants ∧ Forall (intent_held x t0 h) (map pi_entry intents).

Lemma prewritten_mono h h' ps l : h ⊆ h' → prewritten h ps l → prewritten h' ps l.
Proof.
  intros Hsub [Hp Hl]. split; [done|]. eapply Forall_impl; [exact Hl|]. intros p. by apply intent_held_mono.
Qed.

Hypothesis single_ok : size (context_shards context) = 1%nat → ∀ h s r, pre h s r.

Lemma prewrite_loop_wp phase stamp participants done_ intents h :
  clean h → Forall in_snapshot participants → prewritten h done_ intents →
  (∀ p fence ms id h', p ∈ participants → context_shards context !! pw_shard_id p = Some fence →
     stamp_mutations (pw_mutations p) stamp = Ok ms → h ⊆ h' →
     pre h' (pw_shard_id p) (PrewriteIntent
       (mkHeader id (sf_placement_epoch fence) (sf_backend_generation fence)) x t0
       (sf_applied_index fence) ms)) →
  wp G (prewrite_loop blake3 context phase stamp participants intents) h (λ r h',
    match r with
    | Ok (Break o) => outcome_backed x t0 h' o
    | Ok (Continue l) => clean h' ∧ prewritten h' (done_ ++ participants) l
    | Err _ => True
    end).
Proof using single_ok.
  revert done_ intents h. induction participants as [|p ps IH]; intros dn intents h Hc Hin Hp Hpre.
  { cbn [prewrite_loop]. split; [done|]. by rewrite app_nil_r. }
  apply Forall_cons_1 in Hin as [Hps Hin]. cbn [prewrite_loop]. apply index_wp; [done|]. intros fence Hf.
  apply wp_lift_bind; [|done]. intros ms Hms. apply wp_lift_bind; [|done]. intros id _.
  apply wp_pbind, wp_call.
  { split; [done|]. split; [done|]. eapply Hpre; [by left|done..]. }
  assert (∀ r, clean (mkEvent (CallSubmit (pw_shard_id p) (PrewriteIntent
    (mkHeader id (sf_placement_epoch fence) (sf_backend_generation fence)) x t0
    (sf_applied_index fence) ms)) r :: h)) as Hc'.
  { intros r. constructor; [|done]. cbn. apply andb_false_r. }
  assert (∀ h', clean h' → wp G (o ← resolve_failed_prewrite blake3 context; ret (Break o)) h' (λ r h'',
    match r with
    | Ok (Break o) => outcome_backed x t0 h'' o
    | Ok (Continue l) => clean h'' ∧ prewritten h'' (dn ++ p :: ps) l
    | Err _ => True
    end)) as Hfail.
  { intros h' Hc''. apply wp_bind. eapply wp_mono; [by apply resolve_failed_prewrite_wp|]. by intros [o|e]. }
  intros [rc|f]; [|apply Hfail, Hc']. destruct (sr_intent_digest rc) as [digest|] eqn:Hd; [|apply Hfail, Hc'].
  eapply wp_mono; [apply (IH (dn ++ [p])); [apply Hc'|done| |]|].
  - destruct Hp as [Hp Hl]. split; [by rewrite map_app, Hp|]. rewrite map_app. apply Forall_app. split.
    + eapply Forall_impl; [exact Hl|]. intros q. apply intent_held_mono, sub_cons.
    + constructor; [|done]. left. eexists _, _, _, rc. split; [by left|done].
  - intros q fence' ms' id' h' Hq Hf' Hms' Hsub. eapply Hpre; [by right|done..|].
    intros e He. apply Hsub. by right.
  - intros [[o|l]|e] h' _; [done| |done]. by rewrite <-app_assoc.
Qed.

Lemma record_decision_wp h participants intents state t :
  clean h → Forall in_snapshot participants → prewritten h participants intents →
  StronglySorted (λ p q, pw_shard_id p < pw_shard_id q) participants → participants ≠ [] →
  wp G (record_decision blake3 context state t participants (map pi_entry intents)) h (λ r h',
    match r with
    | Ok _ => (∃ record, decided blake3 x t0 h' record (map pi_entry intents) ∧
                 tr_state record = state ∧ tr_transaction_time record = t) ∧
              (state = Aborted → clean h')
    | Err _ => True
    end).
Proof.
  intros Hc Hin [Hp Hl] Hs Hne. unfold record_decision. destruct participants as [|p ps]; [done|].
  apply index_wp; [done|]. intros p' [= <-]. apply Forall_cons_1 in Hin as [Hps Hin].
  apply index_wp; [done|]. intros fence Hf.
  assert (intents_held x t0 h (pw_shard_id p) (map pi_entry intents)) as Hheld.
  { split; [|split; [|done]].
    - clear -Hs Hp. rewrite <-Hp in Hs. clear Hp. induction intents as [|i l IH]; cbn in *; [constructor|].
      inversion Hs as [|? ? Hs' Hi]; subst. constructor; [by apply IH|]. rewrite Forall_forall in Hi.
      apply Forall_forall. intros q (j & -> & Hj)%list_elem_of_fmap. apply Hi.
      by apply (list_elem_of_fmap_2 pi_participant).
    - destruct intents as [|i l]; [done|]. cbn in *. by injection Hp as -> _. }
  pose proof Hheld as (Hsort & _ & _).
  apply wp_lift_bind; [|done]. intros manifest Hm. apply wp_lift_bind; [|done]. intros digest Hd.
  apply wp_lift_bind; [|done]. intros decision [_ ->]%TransactionRecord_new_Ok.
  apply wp_lift_bind; [|done]. intros id _.
  assert (decides blake3 x t0 (mkTransactionRecord x state t digest) (map pi_entry intents)) as Hdec.
  { split; [done|]. eapply manifest_decision_digest_Ok in Hd; [|done..]. cbn. naive_solver. }
  apply wp_bind, submit_or_fail_wp; [|intros rc|done].
  - exists (map pi_entry intents). split; [by eapply transaction_manifest_Ok|done].
  - split.
    + exists (mkTransactionRecord x state t digest). split; [|done]. exists (pw_shard_id p). split; [by eauto with dtg|]. split; [|done].
      left. eexists _, _. eexists. by left.
    + intros ->. by constructor.
Qed.

Lemma finalize_commit_wp h ct intents record l :
  decided blake3 x t0 h record l → tr_state record = Committed → tr_transaction_time record = ct →
  l = map pi_entry intents → Forall (λ i, in_snapshot (pi_participant i)) intents →
  wp G (for_each (finalize_commit blake3 context ct) intents) h (λ r h',
    match r with Ok _ => h ⊆ h' ∧ Forall (finalized x t0 h' ct) l | Err _ => True end).
Proof.
  intros Hd Hst Ht -> Hin. eapply wp_mono; [apply (wp_for_each _ (λ rest h', h ⊆ h' ∧ ∃ l, intents = l ++ rest ∧
    Forall (finalized x t0 h' ct) (map pi_entry l)) (λ _ _, True))|].
  - intros i rest h' (Hsub & l & Hl & Hf). unfold finalize_commit. apply index_wp.
    { rewrite Forall_forall in Hin. apply Hin. rewrite Hl. apply elem_of_app. right. by left. }
    intros fence _. apply wp_lift_bind; [|done]. intros id _. apply wp_bind, submit_or_fail_wp; [|intros rc|done].
    + split; [done|]. split; [done|]. exists record, (map pi_entry intents).
      split; [by eauto with dtg|]. split; [done|]. split; [done|].
      apply (list_elem_of_fmap_2 pi_entry _ i). rewrite Hl. apply elem_of_app. right. by left.
    + split; [by intros e He; right; apply Hsub|]. exists (l ++ [i]). split; [by rewrite <-app_assoc|].
      rewrite map_app. apply Forall_app. split.
      * eapply Forall_impl; [exact Hf|]. intros p. apply finalized_mono, sub_cons.
      * constructor; [|done]. eexists _, _, _. eexists. by left.
  - split; [done|]. exists []. by split.
  - intros [[]|e] h' _; [|done]. intros (Hsub & l & Hl & Hf). split; [done|].
    rewrite app_nil_r in Hl. by subst.
Qed.

Lemma finalize_abort_wp h l record :
  decided blake3 x t0 h record l → tr_state record = Aborted → clean h →
  Forall (λ p, is_Some (context_shards context !! p.1)) l →
  wp G (for_each (finalize_abort blake3 context) l) h (λ r h',
    match r with Ok _ => clean h' | Err _ => True end).
Proof.
  intros Hd Hst Hc Hin. eapply wp_mono; [apply (wp_for_each _ (λ rest h', h ⊆ h' ∧ clean h' ∧
    ∀ p, p ∈ rest → p ∈ l) (λ _ _, True))|].
  - intros [s d] rest h' (Hsub & Hc' & Hl). unfold finalize_abort. apply index_wp.
    { rewrite Forall_forall in Hin. apply (Hin (s, d)), Hl. by left. }
    intros fence _. apply wp_lift_bind; [|done]. intros terminal [_ ->]%TransactionRecord_new_Ok.
    apply wp_lift_bind; [|done]. intros id _. apply wp_bind, submit_or_fail_wp; [|intros rc|done].
    + exists record, l. split; [by eauto with dtg|]. split; [done|]. split; [done|]. apply Hl. by left.
    + split; [by intros e He; right; apply Hsub|]. split; [by constructor|]. intros p Hp. apply Hl. by right.
  - done.
  - by intros [[]|e] h' _ Hf; [apply Hf|].
Qed.
End phases_wp.
