(* ===== verification/Safety.v ===== *)
(** * Commit, abort and recovery under any environment

    The entry points of [TemporalTxnCoordinator] satisfy the guard of [Protocol], never panic, and
    return outcomes the timestamp authority backs. *)

From S2P Require Import Prelude Kernel Encoding Storage TxnError Conflict Snapshot Overlay.
From S2P Require Import Timestamp Participant Program Commands Recovery Coordinator Protocol.
Open Scope Z_scope.

(** ** The check that precedes a first write *)

(** The participant's changes were read from its fence on and do not conflict with its writes. *)
Definition conflict_checked (context : TransactionContext) (existing : option TransactionTime)
    (h : list event) (p : ParticipantWrite) : Prop :=
  ∃ fence changes intended,
    context_shards context !! pw_shard_id p = Some fence ∧
    mkEvent (CallChangesAfter (pw_shard_id p) (sf_applied_index fence)) (Ok changes) ∈ h ∧
    match existing with
    | Some ct => stamp_mutations (pw_mutations p) ct = Ok intended
    | None => intended = []
    end ∧
    detect_mutation_conflicts (pw_mutations p) (foreign_changes intended changes)
      (context_start context) = Ok tt.

(** What [commit] needs to write a shard first: one of its participants, stamped with a time after
    the start, without a conflict among the shard's changes that it did not write itself. *)
Definition commit_pre (context : TransactionContext) (participants : list ParticipantWrite)
    (h : list event) (s : ShardId) (r : ShardRequest) : Prop :=
  match r with
  | CommitSingleShard _ _ _ i ms | PrewriteIntent _ _ _ i ms =>
      ∃ p ct changes intended,
        p ∈ participants ∧ pw_shard_id p = s ∧ context_start context < ct ∧
        stamp_mutations (pw_mutations p) ct = Ok ms ∧
        mkEvent (CallChangesAfter s i) (Ok changes) ∈ h ∧ (intended = [] ∨ intended = ms) ∧
        detect_mutation_conflicts (pw_mutations p) (foreign_changes intended changes)
          (context_start context) = Ok tt
  | _ => True
  end.

(** What [recover_transaction] may do: the lease is taken first, held throughout and released once;
    the start time is that of the manifest the lease gave access to. *)
Definition lease_acquired (x : TransactionId) (h : list event) (lease : RecoveryLease) : Prop :=
  ∃ owner, mkEvent (CallAcquireRecoveryLease x owner) (Ok lease) ∈ h.
Definition is_release (c : call) : bool :=
  match c with CallReleaseRecoveryLease _ => true | _ => false end.
Definition lease_held (x : TransactionId) (h : list event) : Prop :=
  (∃ lease, lease_acquired x h lease) ∧ Forall (λ e, is_release (ev_call e) = false) h.
Definition manifest_start (x : TransactionId) (h : list event) (t : TransactionTime) : Prop :=
  ∃ lease manifest, mkEvent (CallRecoveryManifest x lease) (Ok (Some manifest)) ∈ h ∧
    dm_start_time manifest = t.
Definition recovery_guard (blake3 : bytes → Digest32) (x : TransactionId) (h : list event) (c : call)
    : Prop :=
  match c with
  | CallAcquireRecoveryLease y _ => y = x ∧ h = []
  | CallRecoveryManifest y lease => y = x ∧ lease_held x h ∧ lease_acquired x h lease
  | CallReleaseRecoveryLease lease => lease_held x h ∧ lease_acquired x h lease
  | _ => lease_held x h ∧
         ∃ t, manifest_start x h t ∧ guard blake3 x t (λ _ _ _, True) h c
  end.

(** ** Commit *)

Section commit_wp.
Context (blake3 : bytes → Digest32) (context : TransactionContext).
Context (participants : list ParticipantWrite).
Abbreviation x := (context_id context).
Abbreviation t0 := (context_start context).
Abbreviation pre := (commit_pre context participants).
Abbreviation G := (guard blake3 x t0 pre).

Lemma conflict_loop_wp existing multi ps h :
  (multi = true → size (context_shards context) ≠ 1%nat) → clean h →
  wp G (conflict_loop blake3 context multi existing ps) h (λ r h',
    match r with
    | Ok (Break o) => outcome_backed x t0 h' o
    | Ok (Continue _) => clean h' ∧ h ⊆ h' ∧ Forall (conflict_checked context existing h') ps
    | Err _ => True
    end).
Proof.
  intros Hmulti. revert h. induction ps as [|p ps IH]; intros h Hc; [done|]. cbn [conflict_loop].
  apply wp_lift_bind; [|done]. intros fence Hf. apply wp_bind, wp_call; [done|]. intros [changes|e]; [|done].
  apply wp_lift_bind; [|done]. intros intended Hint.
  set (e := mkEvent (CallChangesAfter (pw_shard_id p) (sf_applied_index fence)) (Ok changes)).
  assert (clean (e :: h)) as Hc' by by constructor.
  destruct (detect_mutation_conflicts _ _ _) as [[]|error] eqn:Hd.
  - eapply wp_mono; [by apply IH|]. intros [[o|[]]|e'] h' Hs%sub_suffix; [done| |done].
    intros (Hc2 & Hs2 & Hall). split; [done|]. split; [by intros f Hin; apply Hs2; right|].
    constructor; [|done]. exists fence, changes, intended.
    split; [by destruct (context_shards context !! pw_shard_id p); simplify_eq/=|].
    split; [apply Hs2; by left|]. split; [by destruct existing; simplify_eq/=|done].
  - destruct existing as [ct|]; [|done]. destruct multi.
    + apply wp_bind. eapply wp_mono; [apply resolve_failed_prewrite_wp; [|done]|].
      * intros Hsize. by destruct (Hmulti eq_refl).
      * by intros [o|e'].
    + apply wp_bind, wp_call; [done|]. by intros [[]|e'].
Qed.

(** A checked participant may be written, at the existing commit time or at a new one. *)
Lemma checked_pre existing h p ct fence ms header first :
  conflict_checked context existing h p → p ∈ participants → t0 < ct →
  (∀ ct', existing = Some ct' → ct = ct') →
  context_shards context !! pw_shard_id p = Some fence → stamp_mutations (pw_mutations p) ct = Ok ms →
  first = CommitSingleShard header x t0 (sf_applied_index fence) ms ∨
  first = PrewriteIntent header x t0 (sf_applied_index fence) ms →
  pre h (pw_shard_id p) first.
Proof.
  intros (fence' & changes & intended & Hf & Hin & Hint & Hd) Hp Hlt Hex Hf' Hms Hfirst.
  rewrite Hf in Hf'. injection Hf' as ->.
  assert (∃ p0 ct0 changes0 intended0, p0 ∈ participants ∧ pw_shard_id p0 = pw_shard_id p ∧ t0 < ct0 ∧
    stamp_mutations (pw_mutations p0) ct0 = Ok ms ∧
    mkEvent (CallChangesAfter (pw_shard_id p) (sf_applied_index fence)) (Ok changes0) ∈ h ∧
    (intended0 = [] ∨ intended0 = ms) ∧
    detect_mutation_conflicts (pw_mutations p0) (foreign_changes intended0 changes0) t0 = Ok tt) as Hpre.
  { exists p, ct, changes, intended. repeat (split; [done|]). split; [|done].
    destruct existing as [ct'|]; [|by left]. right. rewrite <-(Hex ct' eq_refl) in Hint. congruence. }
  by destruct Hfirst as [->| ->].
Qed.

Lemma commit_single_shard_wp existing h p ct :
  clean h → conflict_checked context existing h p → p ∈ participants → t0 < ct →
  (∀ ct', existing = Some ct' → ct = ct') → in_snapshot context p →
  wp G (commit_single_shard blake3 context p ct) h (result_backed x t0).
Proof.
  intros Hc Hch Hp Hlt Hex Hin. unfold commit_single_shard. apply index_wp; [done|]. intros fence Hf.
  apply wp_lift_bind; [|done]. intros id _. apply wp_lift_bind; [|done]. intros ms Hms.
  apply wp_pbind, wp_call.
  { split; [done|]. split; [done|]. eapply checked_pre; [done..|]. by left. }
  intros [rc|[error|error]]; [| |done].
  - apply wp_bind, wp_call; [|intros [[]|e]; [|done]; split; [done|]; left; by left].
    split; [done|]. split; [done|]. left. eexists _, _, _, ms. split; [eexists; by left|].
    by eapply stamped_times.
  - eapply wp_mono; [apply resolve_definitive_wp; by constructor|]. intros [o|e] h' _; [|done]. by intros [? _].
Qed.

Context (sorted : list ParticipantWrite).
Hypothesis sorted_sub : ∀ p, p ∈ sorted → p ∈ participants.
Hypothesis sorted_strict : StronglySorted (λ p q, pw_shard_id p < pw_shard_id q) sorted.
Hypothesis sorted_in : Forall (in_snapshot context) sorted.

Lemma sorted_size : (length sorted ≤ size (context_shards context))%nat.
Proof using sorted_strict sorted_in.
  pose proof (strictly_sorted_NoDup pw_shard_id sorted sorted_strict) as Hnd.
  rewrite <-(length_map pw_shard_id), <-(size_list_to_set (C := gset Z)) by done.
  rewrite <-(size_dom (D := gset Z)). apply subseteq_size. intros s.
  rewrite elem_of_list_to_set, elem_of_dom. intros (p & -> & Hp)%list_elem_of_fmap.
  rewrite Forall_forall in sorted_in. by apply sorted_in.
Qed.

Lemma commit_multi_shard_wp existing h ct :
  clean h → Forall (conflict_checked context existing h) sorted → t0 < ct →
  (∀ ct', existing = Some ct' → ct = ct') → (1 < length sorted)%nat →
  wp G (commit_multi_shard blake3 context sorted ct) h (result_backed x t0).
Proof using sorted_sub sorted_strict sorted_in.
  intros Hc Hch Hlt Hex Hlen. pose proof sorted_size as Hsize. unfold commit_multi_shard. apply wp_bind.
  assert (size (context_shards context) = 1%nat → ∀ h s r, pre h s r) as Hone by (intros; exfalso; lia).
  eapply wp_mono; [apply (prewrite_loop_wp _ _ _ Hone _ _ _ []); [done|done|done|]|].
  { intros p fence ms id h' Hp Hf Hms Hsub. rewrite Forall_forall in Hch.
    destruct (Hch p Hp) as (f & cs & i & H1 & H2 & H3). rewrite Hf in H1. injection H1 as <-.
    eapply (checked_pre existing); [|by apply sorted_sub|done..|by right]. exists fence, cs, i. split; [done|].
    split; [by apply Hsub|done]. }
  intros [[o|intents]|e] h1 _; [done| |done]. intros [Hc1 Hp1]. apply wp_bind.
  eapply wp_mono; [apply record_decision_wp; try done|].
  { intros Heq. rewrite Heq in Hlen. cbn in Hlen. lia. }
  intros [[]|e] h2 _; [|done]. intros [(record & Hd & Hst & Ht) _]. apply wp_bind.
  eapply wp_mono; [eapply finalize_commit_wp; [done..|]|].
  { destruct Hp1 as [Hp1 _]. apply Forall_forall. intros i Hi. apply (proj1 (Forall_forall _ _) sorted_in).
    cbn in Hp1. rewrite <-Hp1. by apply (list_elem_of_fmap_2 pi_participant). }
  intros [[]|e] h3 _; [|done]. intros [Hsub Hf]. apply wp_bind, wp_call.
  - split; [done|]. split; [done|]. do 2 right. exists record, (map pi_entry intents).
    split; [by eauto with dtg|]. split; [done|]. split; [done|]. done.
  - intros [[]|e]; [|done]. split; [done|]. left. by left.
Qed.

Lemma commit_participants_wp existing h :
  clean h → sorted ≠ [] →
  wp G (commit_participants blake3 context sorted existing) h (result_backed x t0).
Proof using sorted_sub sorted_strict sorted_in.
  intros Hc Hne. pose proof sorted_size as Hsize. unfold commit_participants. apply wp_bind.
  eapply wp_mono; [apply conflict_loop_wp; [|done]|].
  { intros Hm. to_prop. lia. }
  intros [[o|[]]|e] h1 _; [done| |done]. intros (Hc1 & _ & Hch). apply wp_bind.
  assert (∀ ct h2, clean h2 → h1 ⊆ h2 → (∀ ct', existing = Some ct' → ct = ct') →
    wp G (if ct <=? t0 then throw InconsistentSnapshot
          else if Z.of_nat (length sorted) =? 1 then p ← index (head sorted); commit_single_shard blake3 context p ct
          else commit_multi_shard blake3 context sorted ct) h2 (result_backed x t0)) as Hrest.
  { intros ct h2 Hc2 Hsub Hex. case_match eqn:Hlt; [done|]. to_prop.
    assert (Forall (conflict_checked context existing h2) sorted) as Hch2.
    { eapply Forall_impl; [exact Hch|]. intros p (f & cs & i & H1 & H2 & H3). exists f, cs, i.
      split; [done|]. split; [by apply Hsub|done]. }
    case_match eqn:Hlen; to_prop.
    - destruct (head_elem_of sorted Hne) as (p & Hh & Hp). rewrite Hh. apply index_wp; [done|].
      intros p' [= <-]. rewrite Forall_forall in Hch2.
      eapply commit_single_shard_wp; [done|by apply Hch2|by apply sorted_sub|done..|].
      by apply (proj1 (Forall_forall _ _) sorted_in).
    - eapply commit_multi_shard_wp; [done..|]. apply length_nonzero in Hne. lia. }
  destruct existing as [ct|].
  - apply Hrest; [done|done|]. by intros ct' [= ->].
  - apply wp_call; [done|]. intros [ct|e]; [|done]. apply Hrest; [by constructor|apply sub_cons|done].
Qed.
End commit_wp.

(** ** The entry points *)

Section entry_points.
Context (blake3 : bytes → Digest32) (context : TransactionContext).
Context (participants : list ParticipantWrite).
Hypothesis base_ok : base_wf (tc_base context).
Abbreviation x := (context_id context).
Abbreviation t0 := (context_start context).

Lemma lift_fault_wp {A B} G (m : result TxnFault A) (k : A → txn B) h Q :
  m ≠ Err Panic → (∀ a, m = Ok a → wp G (k a) h Q) → (∀ e, Q (Err e) h) →
  wp G (lift_fault m ≫= k) h Q.
Proof. intros Hm Hk He. apply wp_bind. destruct m as [a|[|e]]; [by apply Hk|done|apply He]. Qed.

(** The sorted participants of a validated call. *)
Lemma validated_participants :
  validate_participants context participants = Ok tt →
  (∀ p, p ∈ sort_by pw_leb participants ↔ p ∈ participants) ∧
  StronglySorted (λ p q, pw_shard_id p < pw_shard_id q) (sort_by pw_leb participants) ∧
  Forall (in_snapshot context) (sort_by pw_leb participants) ∧
  (sort_by pw_leb participants = [] ↔ participants = []).
Proof.
  intros (_ & Hnd & Hin & _)%validate_participants_Ok. pose proof (sort_by_perm pw_leb participants) as Hp.
  split; [intros p; by rewrite Hp|]. split; [by apply (sort_by_key_strict pw_shard_id)|].
  split; [by rewrite Hp|]. split; intros Heq; [|by rewrite Heq].
  rewrite Heq in Hp. symmetry in Hp. by apply Permutation_nil_r in Hp.
Qed.

Lemma commit_wp :
  wp (guard blake3 x t0 (commit_pre context participants)) (commit blake3 context participants) []
    (λ r h, participants = [] ∧ r = Ok (OutCommitted t0) ∧ h = [] ∨ result_backed x t0 r h).
Proof using base_ok.
  unfold commit. apply lift_fault_wp; [by apply validate_no_panic| |by right]. intros [] _.
  apply wp_lift_bind; [|by right]. intros [] (Hin & Hs & Hf & Hnil)%validated_participants.
  case_bool_decide as Hem; [left; by rewrite <-Hnil|].
  assert (∀ existing h, clean h → wp (guard blake3 x t0 (commit_pre context participants))
    (commit_participants blake3 context (sort_by pw_leb participants) existing) h
    (λ r h, participants = [] ∧ r = Ok (OutCommitted t0) ∧ h = [] ∨ result_backed x t0 r h)) as Hrest.
  { intros existing h Hc. eapply wp_mono; [eapply commit_participants_wp; try done; by intros p Hp%Hin|].
    by right. }
  apply wp_bind, wp_call; [done|]. intros [[[ct o]|]|e]; [|apply Hrest; by constructor|by right].
  cbn [commit_time resolution]. case_bool_decide as Ho.
  { right. left. exists ct. right. rewrite Ho. by left. }
  case_match eqn:Hone; [|apply Hrest; by constructor]. to_prop.
  case_match eqn:Hlt; [by right|]. to_prop. right. split; [done|]. right. subst o. by left.
Qed.

Lemma abort_wp :
  wp (guard blake3 x t0 (λ _ _ _, True)) (abort blake3 context participants) []
    (λ r h, participants = [] ∧ r = Ok OutAborted ∧ h = [] ∨ result_backed x t0 r h).
Proof using base_ok.
  unfold abort. apply lift_fault_wp; [by apply validate_no_panic| |by right]. intros [] _.
  apply wp_lift_bind; [|by right]. intros [] (Hin & Hs & Hf & Hnil)%validated_participants.
  case_bool_decide as Hem; [left; by rewrite <-Hnil|].
  apply wp_bind. eapply wp_mono; [apply prevalidate_abort_authority_wp; [done|constructor]|].
  intros [[pending|o]|e] h1 _; [|by right|by right]. intros [Hc1 Hres]. apply wp_bind.
  eapply wp_mono; [by apply (prewrite_loop_wp _ _ _ (λ _ _ _ _, I) _ _ _ [])|].
  intros [[o|intents]|e] h2 Hsub2%sub_suffix; [by right| |by right]. intros [Hc2 Hp2]. apply wp_bind.
  eapply wp_mono; [by apply record_decision_wp|].
  intros [[]|e] h3 Hsub3%sub_suffix; [|by right]. intros [(record & Hd & Hst & _) Hc3]. apply wp_bind.
  eapply wp_mono; [apply (finalize_abort_wp _ _ _ _ _ record); [done|done|by apply Hc3|]|].
  { destruct Hp2 as [Hp2 _]. apply Forall_forall. intros p (i & -> & Hi)%list_elem_of_fmap.
    apply (proj1 (Forall_forall _ _) Hf). cbn in Hp2. rewrite <-Hp2.
    by apply (list_elem_of_fmap_2 pi_participant). }
  intros [[]|e] h4 Hsub4%sub_suffix; [|by right]. intros Hc4. destruct pending as [ct|].
  - apply wp_pbind, wp_call; [done|]. intros [[]|e]; right; [|done]. left. exists ct. left. by left.
  - right. right. by apply Hsub4, Hsub3, Hsub2.
Qed.
End entry_points.

(** ** Recovery by transaction identifier *)

Section recover_transaction_wp.
Context (blake3 : bytes → Digest32) (x : TransactionId).
Abbreviation G := (recovery_guard blake3 x).

Lemma lease_acquired_mono h h' lease : h ⊆ h' → lease_acquired x h lease → lease_acquired x h' lease.
Proof. intros Hsub [owner He]. exists owner. by apply Hsub. Qed.

(** Programs guarded by the protocol of one start time neither take nor release a lease. *)
Lemma under_lease {A} (p : prog A) t h Q :
  lease_held x h → manifest_start x h t → wp (guard blake3 x t (λ _ _ _, True)) p h Q →
  wp G p h (λ a h', Q a h' ∧ lease_held x h').
Proof.
  intros Hheld Hm Hp.
  assert (∀ k, allowed_since (guard blake3 x t (λ _ _ _, True)) h k → lease_held x (k ++ h)) as Hk.
  { intros k. induction k as [|e k IH]; cbn; [done|]. intros [He [Hl Hf]%IH]. split.
    - destruct Hl as [lease Hl]. exists lease. eapply lease_acquired_mono, Hl. apply sub_cons.
    - constructor; [|done]. by destruct (ev_call e). }
  eapply wp_mono; [apply (wp_guard_mono _ G _ _ _ Hp)|].
  - intros k c Ha Hg. specialize (Hk k Ha). destruct c; try done; (split; [done|]; exists t; split; [|done]);
      destruct Hm as (lease & m & Hin & Ht); exists lease, m; (split; [|done]); apply elem_of_app; by right.
  - intros a h' _ (HQ & k & -> & Ha). split; [done|by apply Hk].
Qed.

Lemma recover_leased_wp h lease :
  lease_held x h → lease_acquired x h lease → clean h →
  wp G (recover_leased blake3 x lease) h (λ r h',
    lease_held x h' ∧ match r with Ok o => ∃ t, manifest_start x h' t ∧ outcome_backed x t h' o | Err _ => True end).
Proof.
  intros Hheld Hacq Hc. unfold recover_leased. apply wp_bind, wp_call; [done|]. intros r.
  assert (lease_held x (mkEvent (CallRecoveryManifest x lease) r :: h)) as Hheld1.
  { destruct Hheld as [[l Hl] Hf]. split; [|by constructor]. exists l.
    eapply lease_acquired_mono, Hl. apply sub_cons. }
  destruct r as [[m|]|e]; [|done..]. apply wp_lift_bind; [|done]. intros manifest [= <-].
  case_match eqn:Hid; [done|]. to_prop. apply wp_lift_bind; [|done]. intros token Htok.
  apply SnapshotToken_new_wf in Htok as (_ & Htx & Htt).
  set (h1 := mkEvent (CallRecoveryManifest x lease) (Ok (Some m)) :: h).
  assert (manifest_start x h1 (dm_start_time m)) as Hms by (exists lease, m; split; [by left|done]).
  assert (clean h1) as Hc1 by by constructor.
  set (context := TransactionContext_new token).
  assert (context_id context = x) as Hx by (cbn; congruence).
  assert (context_start context = dm_start_time m) as Ht by done.
  eapply wp_mono; [apply (under_lease _ (dm_start_time m) h1 (λ r h', match r with
    Ok o => outcome_backed x (dm_start_time m) h' o | Err _ => True end)); [done|done|]|].
  - rewrite <-Ht, <-Hx. apply wp_bind. eapply wp_mono; [by apply load_recovery_state_wp|].
    intros [state|e] h2 _; [|done]. intros [Hc2 _]. apply wp_lift_bind; [|done]. intros [] _.
    apply wp_bind. eapply wp_mono; [by apply recover_wp|]. intros [o|e] h3 _; [|done].
    intros [Ho Hc3]. destruct o; [done|done|]. eapply wp_mono; [apply resolve_failed_prewrite_wp; [done|by apply Hc3]|].
    by intros [o|e].
  - intros r h' Hs%sub_suffix [Hr Hh']. split; [done|]. destruct r as [o|e]; [|done].
    exists (dm_start_time m). split; [|done]. destruct Hms as (l & m' & Hin & Hm'). exists l, m'.
    split; [by apply Hs|done].
Qed.

Lemma recover_transaction_wp owner :
  wp G (recover_transaction blake3 x owner) [] (λ r h,
    (∃ e, h = [mkEvent (CallAcquireRecoveryLease x owner) (Err e)] ∧ r = Err e) ∨
    (∃ lease released k, h = mkEvent (CallReleaseRecoveryLease lease) released :: k ∧
       lease_acquired x k lease ∧ lease_held x k ∧
       match r with
       | Ok o => released = Ok tt ∧ ∃ t, manifest_start x k t ∧ outcome_backed x t k o
       | Err _ => True
       end)).
Proof.
  unfold recover_transaction. apply wp_bind, wp_call; [done|]. intros [lease|e]; [|left; by exists e].
  set (h0 := [mkEvent (CallAcquireRecoveryLease x owner) (Ok lease)]).
  assert (lease_acquired x h0 lease) as Hacq by (exists owner; by left).
  assert (lease_held x h0) as Hheld by (split; [by exists lease|by constructor]).
  apply wp_pbind. eapply wp_mono; [apply (recover_leased_wp h0 lease); [done|done|by constructor]|].
  intros r h1 Hs%sub_suffix [Hheld1 Hr]. assert (lease_acquired x h1 lease) as Hacq1 by by eapply lease_acquired_mono.
  apply wp_pbind, wp_call; [done|]. intros released.
  destruct r as [o|e], released as [[]|e']; right; exists lease; eexists _, h1; done.
Qed.
End recover_transaction_wp.

(** ** Properties *)

Section commit_properties.
Context (blake3 : bytes → Digest32) (context : TransactionContext).
Context (participants : list ParticipantWrite) (env : environment).
Abbreviation x := (context_id context).
Abbreviation t0 := (context_start context).

Lemma commit_run :
  base_wf (tc_base context) →
  ∃ r h, run env (commit blake3 context participants) [] = (Done r, h) ∧
    allowed (guard blake3 x t0 (commit_pre context participants)) h ∧
    (participants = [] ∧ r = Ok (OutCommitted t0) ∧ h = [] ∨ result_backed x t0 r h).
Proof.
  intros Hb. destruct (wp_sound _ env _ [] _ (commit_wp blake3 context participants Hb) I)
    as (r & h & Hr & Ha & HQ & _). eauto.
Qed.

Lemma commit_call_guarded o h1 e h2 :
  base_wf (tc_base context) →
  run env (commit blake3 context participants) [] = (o, h1 ++ e :: h2) →
  guard blake3 x t0 (commit_pre context participants) h2 (ev_call e).
Proof.
  intros Hb Hrun. destruct (commit_run Hb) as (r & h & Hr & Ha & _). rewrite Hr in Hrun.
  injection Hrun as _ ->. by eapply allowed_at.
Qed.


(** C1. Two-phase commit is atomic at every crash point: [commit], with the recovery it may enter,
    finalises the intent [digest] of shard [s] at commit time [ct] only after the home shard, the
    least of the participants, is known to hold a committed decision at [ct] after the start time,
    whose digest covers exactly the intents the shards are known to hold, this one among them. *)
Theorem commit_finalizes_only_decided o h1 h2 s header y t i ct digest ms a :
  base_wf (tc_base context) →
  run env (commit blake3 context participants) [] =
    (o, h1 ++ mkEvent (CallSubmit s (FinalizeParticipantCommit header y t i ct digest ms)) a :: h2) →
  y = x ∧ t = t0 ∧
  ∃ home record intents,
    intents_held x t0 h2 home intents ∧ (s, digest) ∈ intents ∧ decision_held x h2 home record ∧
    tr_id record = x ∧ tr_state record = Committed ∧ tr_transaction_time record = ct ∧ t0 < ct ∧
    tr_record_digest record = decision_digest blake3 x ct intents.
Proof.
  intros Hb (-> & -> & record & l & (home & Hh & Hd & Hid & Hdec) & Hst & <- & Hin)%commit_call_guarded; [|done].
  split; [done|]. split; [done|]. exists home, record, l. destruct Hdec as [(_ & ? & ?)|(? & _)]; [done|congruence].
Qed.

(** C3. No lost update: before [commit] first writes a shard, by a prewrite or a single-shard
    commit, it has read the shard's changes from the snapshot's applied index on, and none of them
    that it did not write itself conflicts with the participant's writes; the mutations sent are
    the participant's, stamped with one time after the start. *)
Theorem commit_writes_only_checked o h1 h2 s header y t i ms a first :
  base_wf (tc_base context) →
  first = PrewriteIntent header y t i ms ∨ first = CommitSingleShard header y t i ms →
  run env (commit blake3 context participants) [] = (o, h1 ++ mkEvent (CallSubmit s first) a :: h2) →
  y = x ∧ t = t0 ∧
  ∃ p ct changes intended,
    p ∈ participants ∧ pw_shard_id p = s ∧ t0 < ct ∧ stamp_mutations (pw_mutations p) ct = Ok ms ∧
    mkEvent (CallChangesAfter s i) (Ok changes) ∈ h2 ∧ (intended = [] ∨ intended = ms) ∧
    detect_mutation_conflicts (pw_mutations p) (foreign_changes intended changes) t0 = Ok tt.
Proof. intros Hb [-> | ->] (-> & -> & Hpre)%commit_call_guarded; done. Qed.

(** C2. The reservation is resolved as committed only with a durable commit at that time, after the
    start: a single-shard commit stamped with it and acknowledged by its shard or read from it, or
    a decision whose every participant has acknowledged its finalisation; it is resolved as aborted
    only while no shard has acknowledged a commit. *)
Theorem commit_resolves_truthfully o h1 h2 y ct res a :
  base_wf (tc_base context) →
  run env (commit blake3 context participants) [] =
    (o, h1 ++ mkEvent (CallResolveCommitTime y ct res) a :: h2) →
  y = x ∧
  match res with
  | ResCommitted => t0 < ct ∧ commit_evidence blake3 x t0 h2 ct
  | ResAborted => ∀ s r receipt, mkEvent (CallSubmit s r) (Ok receipt) ∈ h2 → commits r = false
  end.
Proof.
  intros Hb Hg%commit_call_guarded; [|done]. cbn in Hg. destruct res as [|]; [done|]. destruct Hg as [-> Hc].
  split; [done|]. intros s r receipt Hin. unfold clean in Hc. rewrite Forall_forall in Hc. apply (Hc _ Hin).
Qed.

(** In every environment [abort] returns, without a panic; every call it makes is guarded as
    those of [commit], and a returned outcome is backed by the authority. *)
Theorem abort_outcome_backed :
  base_wf (tc_base context) →
  ∃ r h, run env (abort blake3 context participants) [] = (Done r, h) ∧
    allowed (guard blake3 x t0 (λ _ _ _, True)) h ∧
    (participants = [] ∧ r = Ok OutAborted ∧ h = [] ∨
     match r with Ok o => outcome_backed x t0 h o | Err _ => True end).
Proof.
  intros Hb. destruct (wp_sound _ env _ [] _ (abort_wp blake3 context participants Hb) I)
    as (r & h & Hr & Ha & HQ & _). by exists r, h.
Qed.
End commit_properties.

(** C5. In every environment [recover_transaction] returns, without a panic.  Either the lease is
    refused and nothing else happens, or the last call releases the acquired lease, which is held
    until then; every other call is guarded by the protocol at the start time of the manifest read
    under the lease, and an outcome is returned only after a successful release, backed by the
    authority. *)
Theorem recover_transaction_safe (blake3 : bytes → Digest32) (x owner : Z) (env : environment) :
  ∃ r h, run env (recover_transaction blake3 x owner) [] = (Done r, h) ∧
    allowed (recovery_guard blake3 x) h ∧
    ((∃ e, h = [mkEvent (CallAcquireRecoveryLease x owner) (Err e)] ∧ r = Err e) ∨
     (∃ lease released k, h = mkEvent (CallReleaseRecoveryLease lease) released :: k ∧
        lease_acquired x k lease ∧ lease_held x k ∧
        match r with
        | Ok o => released = Ok tt ∧ ∃ t, manifest_start x k t ∧ outcome_backed x t k o
        | Err _ => True
        end)).
Proof.
  destruct (wp_sound _ env _ [] _ (recover_transaction_wp blake3 x owner) I) as (r & h & Hr & Ha & HQ & _).
  by exists r, h.
Qed.

(** ** The properties on the concrete transaction *)

Lemma example_base_wf : base_wf (tc_base example_context).
Proof. split; intros k h Hk; vm_compute in Hk; discriminate Hk. Defined.


Definition example_header : ShardRequestHeader := mkHeader (be_value (replicate 16 1)) 1 1.
Definition example_receipt : SubmissionReceipt := SubmissionReceipt_prepared 9 false (replicate 32 7).
Definition example_stamped (id : VertexId) : list LogicalMutation :=
  [PutVertex (mkVertexVersion id 1 (mkValidInterval 0 10) 6 [])].

Lemma commit_finalizes_only_decided_witness :
  9 = 9 ∧ 5 = 5 ∧
  ∃ home record intents,
    intents_held 9 5 (drop 2 example_run.2) home intents ∧ (3, replicate 32 7) ∈ intents ∧
    decision_held 9 (drop 2 example_run.2) home record ∧
    tr_id record = 9 ∧ tr_state record = Committed ∧ tr_transaction_time record = 6 ∧ 5 < 6 ∧
    tr_record_digest record = decision_digest constant_hash 9 6 intents.
Proof.
  apply (commit_finalizes_only_decided constant_hash example_context example_participants example_env
    (Done (Ok (OutCommitted 6))) (take 1 example_run.2) (drop 2 example_run.2) 3 example_header 9 5 8 6
    (replicate 32 7) (example_stamped 8) (Ok example_receipt));
    [apply example_base_wf|vm_compute; reflexivity].
Defined.

Lemma commit_writes_only_checked_witness :
  9 = 9 ∧ 5 = 5 ∧
  ∃ p ct changes intended,
    p ∈ example_participants ∧ pw_shard_id p = 2 ∧ 5 < ct ∧
    stamp_mutations (pw_mutations p) ct = Ok (example_stamped 7) ∧
    mkEvent (CallChangesAfter 2 4) (Ok changes) ∈ drop 6 example_run.2 ∧
    (intended = [] ∨ intended = example_stamped 7) ∧
    detect_mutation_conflicts (pw_mutations p) (foreign_changes intended changes) 5 = Ok tt.
Proof.
  apply (commit_writes_only_checked constant_hash example_context example_participants example_env
    (Done (Ok (OutCommitted 6))) (take 5 example_run.2) (drop 6 example_run.2) 2 example_header 9 5 4
    (example_stamped 7) (Ok example_receipt)
    (PrewriteIntent example_header 9 5 4 (example_stamped 7)));
    [apply example_base_wf|left; reflexivity|vm_compute; reflexivity].
Defined.

Lemma commit_resolves_truthfully_witness :
  9 = 9 ∧ 5 < 6 ∧ commit_evidence constant_hash 9 5 (drop 1 example_run.2) 6.
Proof.
  apply (commit_resolves_truthfully constant_hash example_context example_participants example_env
    (Done (Ok (OutCommitted 6))) [] (drop 1 example_run.2) 9 6 ResCommitted (Ok tt));
    [apply example_base_wf|vm_compute; reflexivity].
Defined.

Lemma abort_outcome_backed_witness :
  ∃ r h, run example_env (abort constant_hash example_context example_participants) [] = (Done r, h) ∧
    allowed (guard constant_hash 9 5 (λ _ _ _, True)) h ∧
    (example_participants = [] ∧ r = Ok OutAborted ∧ h = [] ∨
     match r with Ok o => outcome_backed 9 5 h o | Err _ => True end).
Proof.
  apply (abort_outcome_backed constant_hash example_context example_participants example_env).
  apply example_base_wf.
Defined.
