(* ===== verification/Progress.v ===== *)
(** * Progress

    With a cooperative authority and shards the coordinator commits what it validated, and recovery
    completes a decided transaction. *)

From S2P Require Import Prelude Kernel Encoding Storage TxnError Conflict Snapshot Overlay.
From S2P Require Import Timestamp Participant Program Commands Recovery Coordinator Protocol Safety.
Open Scope Z_scope.

(** ** Committing *)

(** The answers of an environment where nothing fails and nothing conflicts: no earlier reservation,
    a commit time after the start, shards that accept every request and answer a prewrite with the
    digest of the intent. *)
Record cooperative (context : TransactionContext) (participants : list ParticipantWrite)
    (ct : TransactionTime) (env : environment) : Prop := {
  co_reservation h : env h (CallCommitTimeReservation (context_id context)) = Ok None;
  co_reserve h : env h (CallReserveCommitTime (context_id context)) = Ok ct;
  co_after : context_start context < ct;
  co_changes h p i : p ∈ participants → ∃ changes,
    env h (CallChangesAfter (pw_shard_id p) i) = Ok changes ∧
    detect_mutation_conflicts (pw_mutations p) (map cr_mutation changes) (context_start context) = Ok tt;
  co_submit h s r : ∃ receipt, env h (CallSubmit s r) = Ok receipt ∧
    match r with
    | PrewriteIntent _ _ _ _ _ => ∃ d, sr_intent_digest receipt = Some d ∧ d ≠ zero_digest
    | _ => True
    end;
  co_resolve h : env h (CallResolveCommitTime (context_id context) ct ResCommitted) = Ok tt;
}.

(** The transaction is ready: validated, on a token [new] built, of mutations the constructors
    admit, with a decision digest that a record can carry. *)
Record committable (blake3 : bytes → Digest32) (context : TransactionContext)
    (participants : list ParticipantWrite) (ct : TransactionTime) : Prop := {
  cm_overlay : validate (tc_overlay context) (tc_base context) = Ok tt;
  cm_participants : validate_participants context participants = Ok tt;
  cm_version : st_catalog_version (tc_snapshot context) ≠ 0;
  cm_stampable : Forall stampable (ov_mutations (tc_overlay context));
  cm_digest l : decision_digest blake3 (context_id context) ct l ≠ zero_digest;
}.

Section commit_progress.
Context (blake3 : bytes → Digest32) (context : TransactionContext).
Context (participants : list ParticipantWrite) (ct : TransactionTime) (env : environment).
Hypothesis Hco : cooperative context participants ct env.
Hypothesis Hcm : committable blake3 context participants ct.
Abbreviation x := (context_id context).
Abbreviation t0 := (context_start context).

Lemma participants_stampable p : p ∈ participants →
  stamp_mutations (pw_mutations p) ct = Ok (map (set_mutation_time ct) (pw_mutations p)).
Proof using Hcm.
  intros Hp. apply stamp_mutations_Ok. split; [|done]. apply Forall_forall. intros m Hm.
  destruct Hcm as [_ (Hperm & _)%validate_participants_Ok _ Hst _].
  rewrite Forall_forall in Hst. apply Hst. rewrite <-Hperm. apply list_elem_of_In, in_concat.
  exists (pw_mutations p). split; [|by apply list_elem_of_In]. apply list_elem_of_In.
  by apply (list_elem_of_fmap_2 pw_mutations).
Qed.

Lemma participant_fence p : p ∈ participants → ∃ fence, context_shards context !! pw_shard_id p = Some fence.
Proof using Hcm.
  intros Hp. destruct Hcm as [_ (_ & _ & Hin & _)%validate_participants_Ok _ _ _].
  rewrite Forall_forall in Hin. apply (Hin p Hp).
Qed.

Lemma foreign_changes_nil changes : foreign_changes [] changes = map cr_mutation changes.
Proof.
  unfold foreign_changes. induction changes as [|c cs IH]; cbn; [done|].
  rewrite bool_decide_eq_false_2 by apply not_elem_of_nil. cbn. by rewrite IH.
Qed.

Lemma conflict_loop_ends multi ps h :
  (∀ p, p ∈ ps → p ∈ participants) →
  ends env (conflict_loop blake3 context multi None ps) h (λ r _, r = Ok (Continue tt)).
Proof using Hco Hcm.
  revert h. induction ps as [|p ps IH]; intros h Hps; cbn [conflict_loop]; [by apply ends_ret|].
  assert (p ∈ participants) as Hp by (apply Hps; by left).
  destruct (participant_fence p Hp) as [fence Hf]. eapply ends_lift; [by rewrite Hf|].
  destruct (co_changes _ _ _ _ Hco h p (sf_applied_index fence) Hp) as (changes & Hc & Hd).
  apply ends_bind; ends_step. rewrite Hc. eapply ends_lift; [done|].
  rewrite foreign_changes_nil, Hd. apply IH. intros q Hq. apply Hps. by right.
Qed.

Lemma submit_or_fail_ends s r h :
  ends env (submit_or_fail s r) h (λ a _, is_ok a = true).
Proof using Hco.
  apply ends_pbind; ends_step. destruct (co_submit _ _ _ _ Hco h s r) as (rc & -> & _). by apply ends_ret.
Qed.

Lemma commit_single_shard_ends p h :
  p ∈ participants →
  ends env (commit_single_shard blake3 context p ct) h (λ r _, r = Ok (OutCommitted ct)).
Proof using Hco Hcm.
  intros Hp. unfold commit_single_shard. destruct (participant_fence p Hp) as [fence Hf].
  eapply ends_index; [done|]. eapply ends_lift; [apply command_id_Ok|].
  eapply ends_lift; [by apply participants_stampable|]. apply ends_pbind; ends_step.
  match goal with |- context [env h (CallSubmit ?s ?r)] =>
    destruct (co_submit _ _ _ _ Hco h s r) as (rc & -> & _) end.
  apply ends_bind; ends_step. rewrite (co_resolve _ _ _ _ Hco). by apply ends_ret.
Qed.

(** The prewrite loop gathers an intent of every participant, with a digest a manifest can hold. *)
Lemma prewrite_loop_ends ps intents h :
  (∀ p, p ∈ ps → p ∈ participants) → Forall (λ i, pi_digest i ≠ zero_digest) intents →
  ends env (prewrite_loop blake3 context "prewrite" ct ps intents) h (λ r _, ∃ l,
    r = Ok (Continue l) ∧ map pi_participant l = map pi_participant intents ++ ps ∧
    Forall (λ i, pi_digest i ≠ zero_digest) l).
Proof using Hco Hcm.
  revert intents h. induction ps as [|p ps IH]; intros intents h Hps Hi; cbn [prewrite_loop].
  { apply ends_ret. exists intents. by rewrite app_nil_r. }
  assert (p ∈ participants) as Hp by (apply Hps; by left). destruct (participant_fence p Hp) as [fence Hf].
  eapply ends_index; [done|]. eapply ends_lift; [by apply participants_stampable|].
  eapply ends_lift; [apply command_id_Ok|]. apply ends_pbind; ends_step.
  match goal with |- context [env h (CallSubmit ?s ?r)] =>
    destruct (co_submit _ _ _ _ Hco h s r) as (rc & -> & d & Hd & Hnz) end. rewrite Hd.
  eapply ends_mono; [apply IH|].
  - intros q Hq. apply Hps. by right.
  - apply Forall_app. split; [done|]. by constructor.
  - intros r h' (l & -> & Hl & Hz). exists l. split; [done|]. split; [|done]. by rewrite Hl, map_app, <-app_assoc.
Qed.

Lemma manifest_decision_live l m :
  StronglySorted (λ p q, p.1 < q.1) l → transaction_manifest context l = Ok m →
  ∃ d, manifest_decision_digest blake3 m Committed ct = Ok d ∧ d ≠ zero_digest.
Proof using Hco Hcm.
  intros Hs Hm. assert (∃ d, manifest_decision_digest blake3 m Committed ct = Ok d) as [d Hd].
  { apply transaction_manifest_Ok in Hm as (_ & Ht & _); [|done]. unfold manifest_decision_digest.
    rewrite Ht, (proj2 (Z.ltb_lt _ _) (co_after _ _ _ _ Hco)). eauto. }
  exists d. split; [done|].
  eapply manifest_decision_digest_Ok in Hd as [(_ & _ & ->)|([=] & _)]; [|done..]. apply (cm_digest _ _ _ _ Hcm).
Qed.

Lemma record_decision_ends ps intents h :
  ps ≠ [] → map pi_participant intents = ps → (∀ p, p ∈ ps → p ∈ participants) →
  StronglySorted (λ p q, pw_shard_id p < pw_shard_id q) ps →
  Forall (λ i, pi_digest i ≠ zero_digest) intents →
  ends env (record_decision blake3 context Committed ct ps (map pi_entry intents)) h
    (λ r _, r = Ok tt).
Proof using Hco Hcm.
  intros Hne <- Hps Hs Hz. unfold record_decision.
  destruct (head_elem_of _ Hne) as (p & Hh & Hp). eapply ends_index; [done|].
  destruct (participant_fence p (Hps p Hp)) as [fence Hf]. eapply ends_index; [done|].
  assert (StronglySorted (λ p q : ShardId * Digest32, p.1 < q.1) (map pi_entry intents)) as Hsort
    by (apply (StronglySorted_map pi_participant pi_entry (λ p q, pw_shard_id p < pw_shard_id q)); done).
  destruct (transaction_manifest context (map pi_entry intents)) as [m|e] eqn:Hm.
  2: { exfalso. assert (is_ok (transaction_manifest context (map pi_entry intents)) = true) as Hok;
       [|by rewrite Hm in Hok]. apply transaction_manifest_live; [done| |apply (cm_version _ _ _ _ Hcm)|].
       - by destruct intents.
       - apply Forall_forall. intros q (i & -> & Hi)%list_elem_of_fmap. split.
         + apply participant_fence, Hps. by apply (list_elem_of_fmap_2 pi_participant).
         + rewrite Forall_forall in Hz. by apply Hz. }
  destruct (manifest_decision_live _ m Hsort Hm) as (d & Hd & Hnz).
  eapply ends_lift; [done|]. eapply ends_lift; [done|].
  eapply ends_lift; [by apply TransactionRecord_new_Ok|]. eapply ends_lift; [apply command_id_Ok|].
  apply ends_bind. eapply ends_mono; [apply submit_or_fail_ends|]. intros [rc|e] h'; [|done].
  intros _. by apply ends_ret.
Qed.

Lemma finalize_commit_ends intents h :
  (∀ i, i ∈ intents → pi_participant i ∈ participants) →
  ends env (for_each (finalize_commit blake3 context ct) intents) h (λ r _, r = Ok tt).
Proof using Hco Hcm.
  intros Hin. eapply ends_mono; [apply (ends_for_each _ (λ rest _, ∀ i, i ∈ rest → i ∈ intents))|].
  - intros i rest h' Hrest. unfold finalize_commit.
    destruct (participant_fence (pi_participant i)) as [fence Hf]; [apply Hin, Hrest; by left|].
    eapply ends_index; [done|]. eapply ends_lift; [apply command_id_Ok|]. apply ends_bind.
    eapply ends_mono; [apply submit_or_fail_ends|]. intros [rc|e] h''; [|done]. intros _. apply ends_ret.
    intros j Hj. apply Hrest. by right.
  - done.
  - by intros [[]|e] h'.
Qed.

Lemma commit_multi_shard_ends ps h :
  ps ≠ [] → (∀ p, p ∈ ps → p ∈ participants) →
  StronglySorted (λ p q, pw_shard_id p < pw_shard_id q) ps →
  ends env (commit_multi_shard blake3 context ps ct) h (λ r _, r = Ok (OutCommitted ct)).
Proof using Hco Hcm.
  intros Hne Hps Hs. unfold commit_multi_shard. apply ends_bind.
  eapply ends_mono; [by apply prewrite_loop_ends|]. intros r h1 (l & -> & Hl & Hz). cbn in Hl.
  apply ends_bind. eapply ends_mono; [by apply record_decision_ends|]. intros r h2 ->. apply ends_bind.
  eapply ends_mono; [apply finalize_commit_ends|].
  { intros i Hi. apply Hps. rewrite <-Hl. by apply (list_elem_of_fmap_2 pi_participant). }
  intros r h3 ->. apply ends_bind; ends_step. rewrite (co_resolve _ _ _ _ Hco). by apply ends_ret.
Qed.

Lemma commit_ends :
  participants ≠ [] →
  ends env (commit blake3 context participants) [] (λ r _, r = Ok (OutCommitted ct)).
Proof using Hco Hcm.
  intros Hne. unfold commit. rewrite (cm_overlay _ _ _ _ Hcm), (cm_participants _ _ _ _ Hcm).
  destruct (validated_participants context participants (cm_participants _ _ _ _ Hcm)) as (Hin & Hs & _ & Hnil).
  apply ends_bind, ends_ret. eapply ends_lift; [done|]. rewrite bool_decide_eq_false_2 by by rewrite Hnil.
  apply ends_bind; ends_step. rewrite (co_reservation _ _ _ _ Hco). unfold commit_participants. apply ends_bind.
  eapply ends_mono; [apply conflict_loop_ends; by intros p Hp%Hin|]. intros r h1 ->. apply ends_bind; ends_step.
  rewrite (co_reserve _ _ _ _ Hco). rewrite (proj2 (Z.leb_gt _ _) (co_after _ _ _ _ Hco)).
  assert (sort_by pw_leb participants ≠ []) as Hne' by by rewrite Hnil. case_match eqn:Hlen.
  - destruct (head_elem_of _ Hne') as (p & Hh & Hp). eapply ends_index; [done|].
    apply commit_single_shard_ends. by apply Hin.
  - apply commit_multi_shard_ends; [done|by intros p Hp%Hin|done].
Qed.
End commit_progress.

(** ** Recovering a decided transaction *)

(** What a shard reports of a prepared transaction. *)
Definition prepared_history (x : TransactionId) (t0 : TransactionTime) (i : RecoveredParticipantIntent)
    (terminal : list TransactionRecord) : TransactionHistory :=
  mkTransactionHistory (Some (mkTransactionRecord x Prepared t0 (ri_digest i))) (Some i) terminal None.

Section recover_progress.
Context (blake3 : bytes → Digest32) (context : TransactionContext).
Context (intents : gmap ShardId RecoveredParticipantIntent).
Context (terminal : ShardId → list TransactionRecord).
Context (home : ShardId) (ct : TransactionTime) (env : environment).
Abbreviation x := (context_id context).
Abbreviation t0 := (context_start context).

Definition histories : gmap ShardId TransactionHistory :=
  map_imap (λ s i, Some (prepared_history x t0 i (terminal s))) intents.
Abbreviation state := (mkRecoveryState histories intents).

Definition the_decision : TransactionRecord :=
  mkTransactionRecord x Committed ct (decision_digest blake3 x ct (intent_digests state)).

(** Every shard of the snapshot holds its intent, the home shard the commit decision; some shards
    may have finalised already.  The decision's digest is not that of the home shard's intent. *)
Record decided_shards : Prop := {
  ds_dom s : is_Some (intents !! s) ↔ is_Some (context_shards context !! s);
  ds_intent s i : intents !! s = Some i → ri_shard_id i = s ∧ ri_start_time i = t0 ∧
    ∃ fence, context_shards context !! s = Some fence ∧ ri_snapshot_applied_index i = sf_applied_index fence;
  ds_home : head (keys intents) = Some home;
  ds_after : t0 < ct;
  ds_terminal s i r : intents !! s = Some i → r ∈ terminal s →
    r = mkTransactionRecord x Committed ct (ri_digest i) ∨ s = home ∧ r = the_decision;
  ds_held : the_decision ∈ terminal home;
  ds_distinct i : intents !! home = Some i → ri_digest i ≠ tr_record_digest the_decision;
}.

(** The shards report what they hold and accept requests; the reservation is not aborted. *)
Record recovering : Prop := {
  rc_history h s i : intents !! s = Some i →
    env h (CallTransactionHistory s x) = Ok (prepared_history x t0 i (terminal s));
  rc_reservation h : ∃ o, env h (CallCommitTimeReservation x) = Ok (Some (mkReservation ct o)) ∧ o ≠ Some ResAborted;
  rc_submit h s r : ∃ receipt, env h (CallSubmit s r) = Ok receipt;
  rc_resolve h : env h (CallResolveCommitTime x ct ResCommitted) = Ok tt;
}.

Hypothesis Hds : decided_shards.
Hypothesis Hrc : recovering.

Lemma lookup_histories s :
  histories !! s = (λ i, prepared_history x t0 i (terminal s)) <$> intents !! s.
Proof. unfold histories. rewrite map_lookup_imap. by destruct (intents !! s). Qed.

Lemma recover_intent_prepared s i : intents !! s = Some i →
  recover_intent context s (prepared_history x t0 i (terminal s)) = Ok (Some i).
Proof using Hds.
  intros Hi. destruct (ds_intent Hds s i Hi) as (Hs & Ht & fence & Hf & Hidx). unfold recover_intent. cbn.
  rewrite Hs, Ht, Hf, Hidx, !Z.eqb_refl, !bool_decide_eq_true_2 by done. done.
Qed.

Lemma load_loop_ends shards st h :
  (∀ s, s ∈ shards → is_Some (intents !! s)) →
  (∀ s, s ∉ shards → rec_histories st !! s = histories !! s ∧ rec_intents st !! s = intents !! s) →
  ends env (load_loop context shards st) h (λ r _, r = Ok state).
Proof using Hds Hrc.
  revert st h. induction shards as [|s shards IH]; intros st h Hin Hout; cbn [load_loop].
  { apply ends_ret. destruct st as [H' I']. cbn in Hout. f_equal.
    assert (H' = histories) as -> by (apply map_eq; intros s; apply Hout, not_elem_of_nil).
    assert (I' = intents) as -> by (apply map_eq; intros s; apply Hout, not_elem_of_nil). done. }
  destruct (Hin s) as [i Hi]; [by left|]. apply ends_bind; ends_step. rewrite (rc_history Hrc _ _ _ Hi).
  eapply ends_lift; [by apply recover_intent_prepared|]. apply IH.
  - intros s' Hs'. apply Hin. by right.
  - intros s' Hs'. cbn. rewrite !lookup_insert. case_decide as Hd.
    + subst s'. by rewrite lookup_histories, Hi.
    + apply Hout. by intros [->|]%elem_of_cons.
Qed.

Lemma load_recovery_state_ends h : ends env (load_recovery_state context) h (λ r _, r = Ok state).
Proof using Hds Hrc.
  apply load_loop_ends.
  - intros s [f Hf]%elem_of_keys. apply (ds_dom Hds). by exists f.
  - intros s Hs. cbn. rewrite !lookup_empty, lookup_histories.
    destruct (intents !! s) eqn:Hi; [|done]. exfalso. apply Hs, elem_of_keys. apply (ds_dom Hds). by eexists.
Qed.

Lemma no_single_shard : recovered_single_shard_commit state = Ok None.
Proof.
  unfold recovered_single_shard_commit. cbn.
  assert (Forall (λ p, th_single_shard_commit p.2 = None) (entries histories)) as Hall.
  { apply Forall_forall. intros [s hist] Hin%elem_of_entries. rewrite lookup_histories in Hin.
    by apply fmap_Some in Hin as (i & _ & ->). }
  induction Hall as [|[s hist] l Hs _ IH]; [done|]. cbn in *. by rewrite Hs.
Qed.

Lemma home_intent : ∃ i, intents !! home = Some i.
Proof using Hds.
  pose proof (ds_home Hds) as Hh. destruct (keys intents) as [|s l] eqn:Hk; [done|]. injection Hh as ->.
  apply elem_of_keys. rewrite Hk. by left.
Qed.

Lemma not_all_empty : forallb history_is_empty (values histories) = false.
Proof using Hds.
  destruct home_intent as [i Hi]. apply not_true_iff_false. rewrite forallb_forall. intros Hall.
  specialize (Hall (prepared_history x t0 i (terminal home))). cbn in Hall. apply not_false_iff_true in Hall; [done|].
  apply list_elem_of_In, elem_of_values. exists home. by rewrite lookup_histories, Hi.
Qed.

Lemma decision_is_valid : decision_valid blake3 context state the_decision = true.
Proof using Hds.
  unfold decision_valid. cbn -[intent_digests]. rewrite (proj2 (Z.ltb_lt _ _) (ds_after Hds)).
  destruct home_intent as [i Hi]. rewrite bool_decide_eq_false_2, bool_decide_eq_true_2; [done|done|].
  intros Hem. rewrite Hem in Hi. by rewrite lookup_empty in Hi.
Qed.

Lemma home_decision_loop_ends i records d :
  intents !! home = Some i →
  (∀ r, r ∈ records → r = mkTransactionRecord x Committed ct (ri_digest i) ∨ r = the_decision) →
  (d = None ∨ d = Some the_decision) →
  home_decision_loop blake3 context state (Some (ri_digest i)) records d =
    Ok (if decide (the_decision ∈ records) then Some the_decision else d).
Proof using Hds.
  intros Hi. pose proof (ds_distinct Hds i Hi) as Hne. revert d.
  induction records as [|r records IH]; intros d Hr Hd.
  { by rewrite decide_False by apply not_elem_of_nil. }
  cbn [home_decision_loop]. destruct (Hr r) as [-> | ->]; [by left|..].
  - cbn [tr_id tr_state tr_record_digest]. rewrite Z.eqb_refl, (bool_decide_eq_false_2 (Committed = Prepared)) by done.
    rewrite (bool_decide_eq_true_2 (Some (ri_digest i) = _)) by done. cbn [negb orb].
    rewrite IH; [|intros r Hin; apply Hr; by right|done]. f_equal.
    destruct (decide (the_decision ∈ records)), (decide (the_decision ∈ _ :: records)) as [Hin|Hin]; try done.
    + destruct Hin. by right.
    + apply elem_of_cons in Hin as [Heq|]; [|done]. exfalso. apply Hne. by rewrite Heq.
  - rewrite (bool_decide_eq_false_2 (Some (ri_digest i) = _)) by (intros [= Heq]; by apply Hne).
    rewrite decision_is_valid. assert (negb (tr_id the_decision =? x)
      || bool_decide (tr_state the_decision = Prepared) = false) as ->.
    { cbn. by rewrite Z.eqb_refl. }
    cbn [negb].
    assert (match d with Some e => negb (bool_decide (e = the_decision)) | None => false end = false) as ->.
    { destruct Hd as [-> | ->]; [done|]. by rewrite bool_decide_eq_true_2. }
    rewrite IH; [|intros r Hin; apply Hr; by right|by right]. f_equal.
    rewrite (decide_True (P := the_decision ∈ the_decision :: records)) by by left. by case_decide.
Qed.

Lemma home_decision_ends : recover_home_decision blake3 context home state = Ok (Some the_decision).
Proof using Hds.
  destruct home_intent as [i Hi]. unfold recover_home_decision. cbn. rewrite lookup_histories, Hi. cbn -[the_decision].
  rewrite (home_decision_loop_ends i); [|done| |by left].
  - by rewrite decide_True by apply (ds_held Hds).
  - intros r Hr. destruct (ds_terminal Hds home i r Hi Hr) as [?|[_ ?]]; [by left|by right].
Qed.

Lemma terminal_history_ends : validate_terminal_history context home the_decision state = Ok tt.
Proof using Hds.
  unfold validate_terminal_history. apply try_for_each_Ok, Forall_forall. intros [s hist] Hin%elem_of_entries.
  cbn in Hin. rewrite lookup_histories in Hin. apply fmap_Some in Hin as (i & Hi & ->).
  apply try_for_each_Ok, Forall_forall. intros r Hr. cbn in Hr. unfold terminal_agrees.
  case_match eqn:Hd; [done|]. destruct (ds_terminal Hds s i r Hi Hr) as [->|[-> ->]].
  - cbn -[the_decision]. rewrite Hi. cbn. rewrite !Z.eqb_refl, !bool_decide_eq_true_2 by done. done.
  - by rewrite Z.eqb_refl, bool_decide_eq_true_2 in Hd.
Qed.

(** The finalisation [commit] sends to the shard of an intent. *)
Definition finalize_request (s : ShardId) (i : RecoveredParticipantIntent) (fence : ShardSnapshotFence)
    (id : CommandId) : ShardRequest :=
  FinalizeParticipantCommit (mkHeader id (sf_placement_epoch fence) (sf_backend_generation fence))
    x t0 (sf_applied_index fence) ct (ri_digest i) (ri_mutations i).

Definition finalize_acked (h : list event) (s : ShardId) (i : RecoveredParticipantIntent) : Prop :=
  ∃ fence id, context_shards context !! s = Some fence ∧
    command_id blake3 x "finalize-commit" s = Ok id ∧ acknowledged h s (finalize_request s i fence id).

Lemma recover_finalize_ends h :
  ends env (for_each (recover_finalize_commit blake3 context the_decision) (entries intents)) h
    (λ r h', r = Ok tt ∧ ∀ s i, intents !! s = Some i → finalize_acked h' s i).
Proof using Hds Hrc.
  eapply ends_mono; [apply (ends_for_each _ (λ rest h', (∀ p, p ∈ rest → p ∈ entries intents) ∧
    ∀ s i, intents !! s = Some i → (s, i) ∈ rest ∨ finalize_acked h' s i))|].
  - intros [s i] rest h' [Hsub Hall]. assert (intents !! s = Some i) as Hi
      by (apply elem_of_entries, Hsub; by left).
    destruct (ds_intent Hds s i Hi) as (_ & _ & fence & Hf & Hidx). unfold recover_finalize_commit.
    eapply ends_lift; [by rewrite Hf|]. eapply ends_lift; [apply command_id_Ok|].
    apply ends_bind, ends_pbind; ends_step.
    match goal with |- context [env h' (CallSubmit ?s ?r)] => destruct (rc_submit Hrc h' s r) as (rc & ->) end.
    apply ends_ret, ends_ret. split; [intros p Hp; apply Hsub; by right|].
    intros s' i' Hi'. destruct (Hall s' i' Hi') as [[[= -> ->]|Hin]%elem_of_cons|(f & id & H1 & H2 & Hack)].
    + right. eexists fence, _. split; [done|]. split; [apply command_id_Ok|]. exists rc.
      unfold finalize_request. rewrite <-Hidx. by left.
    + by left.
    + right. exists f, id. split; [done|]. split; [done|]. eapply acknowledged_mono, Hack. apply sub_cons.
  - split; [done|]. intros s i Hi. left. by apply elem_of_entries.
  - intros [[]|e] h'; [|done]. intros [_ Hall]. split; [done|]. intros s i Hi.
    destruct (Hall s i Hi) as [?%not_elem_of_nil|]; done.
Qed.

Lemma recover_ends h :
  ends env (recover blake3 context) h
    (λ r h', r = Ok (OutCommitted ct) ∧ ∀ s i, intents !! s = Some i → finalize_acked h' s i).
Proof using Hds Hrc.
  unfold recover. apply ends_bind. eapply ends_mono; [apply load_recovery_state_ends|]. intros r h1 ->.
  eapply ends_lift; [apply no_single_shard|]. cbn [rec_histories rec_intents].
  rewrite not_all_empty, andb_false_r. destruct home_intent as [i Hi].
  rewrite bool_decide_eq_false_2 by (intros Hem; rewrite Hem in Hi; by rewrite lookup_empty in Hi).
  eapply ends_lift; [unfold recovery_home_shard; cbn [rec_intents]; by rewrite (ds_home Hds)|].
  rewrite home_decision_ends. apply ends_bind, ends_ret. eapply ends_lift; [apply terminal_history_ends|].
  unfold complete_decision. cbn [tr_state the_decision]. apply ends_bind; ends_step.
  destruct (rc_reservation Hrc h1) as (o & -> & Ho). eapply ends_lift.
  { unfold validate_commit_reservation. cbn. by rewrite Z.eqb_refl, bool_decide_eq_false_2. }
  apply ends_bind. eapply ends_mono; [apply recover_finalize_ends|]. intros r h2 [-> Hall].
  apply ends_bind; ends_step. cbn [tr_transaction_time]. rewrite (rc_resolve Hrc). apply ends_ret. split; [done|].
  intros s j Hj. destruct (Hall s j Hj) as (f & id & H1 & H2 & Hack). exists f, id. split; [done|]. split; [done|].
  eapply acknowledged_mono, Hack. apply sub_cons.
Qed.
End recover_progress.

(** ** Properties *)

(** C40. When nothing fails and nothing conflicts, [commit] of a validated transaction that wrote
    something returns [Committed] at the commit time the authority reserved, whether it wrote one
    shard or several. *)
Theorem commit_succeeds (blake3 : bytes → Digest32) (context : TransactionContext)
    (participants : list ParticipantWrite) (ct : Z) (env : environment) :
  cooperative context participants ct env → committable blake3 context participants ct →
  participants ≠ [] →
  ∃ h, run env (commit blake3 context participants) [] = (Done (Ok (OutCommitted ct)), h).
Proof.
  intros Hco Hcm Hne. destruct (commit_ends blake3 context participants ct env Hco Hcm Hne) as (r & h & Hr & ->).
  by exists h.
Qed.

(** Recovery completes a decided commit: when every participant holds its intent and the home
    shard the commit decision, whichever participants have finalised already, [recover] returns
    [Committed] at the decided time, and every participant has acknowledged the very finalisation
    request that [commit] sends for its intent. *)
Theorem recover_completes_commit (blake3 : bytes → Digest32) (context : TransactionContext)
    (intents : gmap ShardId RecoveredParticipantIntent) (terminal : ShardId → list TransactionRecord)
    (home ct : Z) (env : environment) (h : list event) :
  decided_shards blake3 context intents terminal home ct →
  recovering context intents terminal ct env →
  ∃ h', run env (recover blake3 context) h = (Done (Ok (OutCommitted ct)), h') ∧
    ∀ s i, intents !! s = Some i →
      ∃ fence id, context_shards context !! s = Some fence ∧
        command_id blake3 (context_id context) "finalize-commit" s = Ok id ∧
        acknowledged h' s (FinalizeParticipantCommit
          (mkHeader id (sf_placement_epoch fence) (sf_backend_generation fence))
          (context_id context) (context_start context) (sf_applied_index fence) ct
          (ri_digest i) (ri_mutations i)).
Proof.
  intros Hds Hrc. destruct (recover_ends blake3 context intents terminal home ct env Hds Hrc h)
    as (r & h' & Hr & -> & Hall). by exists h'.
Qed.

Lemma commit_succeeds_witness :
  ∃ h, run example_env (commit constant_hash example_context example_participants) []
       = (Done (Ok (OutCommitted 6)), h).
Proof.
  apply (commit_succeeds constant_hash example_context example_participants 6 example_env); [split|split|done].
  - done.
  - done.
  - done.
  - intros h p i Hp. exists []. split; [done|].
    repeat (apply elem_of_cons in Hp as [->|Hp]; [reflexivity|]). by apply not_elem_of_nil in Hp.
  - intros h s r. eexists. split; [done|]. destruct r; try exact I. eexists. split; [done|]. discriminate.
  - done.
  - vm_compute. reflexivity.
  - vm_compute. reflexivity.
  - discriminate.
  - repeat constructor.
  - intros l. discriminate.
Defined.

(** Both shards hold their intents; the home shard 2 holds the decision, shard 3 has finalised. *)
Definition example_intent (s : ShardId) (applied_index : Z) : RecoveredParticipantIntent :=
  mkRecoveredIntent s 5 applied_index (example_stamped (s + 5)) (replicate 32 7).
Definition example_intents : gmap ShardId RecoveredParticipantIntent :=
  {[2 := example_intent 2 4; 3 := example_intent 3 8]}.
Definition example_terminal (s : ShardId) : list TransactionRecord :=
  if s =? 2 then [mkTransactionRecord 9 Committed 6 (constant_hash [])]
  else [mkTransactionRecord 9 Committed 6 (replicate 32 7)].
Definition recovery_env : environment := λ _ c,
  match c return answer c with
  | CallCommitTimeReservation _ => Ok (Some (mkReservation 6 None))
  | CallTransactionHistory s x =>
      Ok (prepared_history x 5 (example_intent s (if s =? 2 then 4 else 8)) (example_terminal s))
  | c => example_env [] c
  end.

Lemma example_intents_lookup s i : example_intents !! s = Some i →
  s = 2 ∧ i = example_intent 2 4 ∨ s = 3 ∧ i = example_intent 3 8.
Proof.
  unfold example_intents. rewrite lookup_insert. case_decide; [by intros [= <-]; left|].
  rewrite lookup_singleton. case_decide; [by intros [= <-]; right|done].
Qed.

Lemma recover_completes_commit_witness :
  ∃ h', run recovery_env (recover constant_hash example_context) [] = (Done (Ok (OutCommitted 6)), h') ∧
    ∀ s i, example_intents !! s = Some i →
      ∃ fence id, context_shards example_context !! s = Some fence ∧
        command_id constant_hash 9 "finalize-commit" s = Ok id ∧
        acknowledged h' s (FinalizeParticipantCommit
          (mkHeader id (sf_placement_epoch fence) (sf_backend_generation fence))
          9 5 (sf_applied_index fence) 6 (ri_digest i) (ri_mutations i)).
Proof.
  apply (recover_completes_commit constant_hash example_context example_intents example_terminal 2 6
    recovery_env []); [split|split].
  - intros s. change (context_shards example_context) with (st_shards example_token).
    unfold example_intents, example_token. cbn [st_shards].
    rewrite !lookup_insert, !lookup_singleton. by repeat case_decide.
  - intros s i [[-> ->]|[-> ->]]%example_intents_lookup; (split; [done|]; split; [done|]; eexists; split; done).
  - vm_compute. reflexivity.
  - done.
  - intros s i r [[-> ->]|[-> ->]]%example_intents_lookup [->|[]%not_elem_of_nil]%elem_of_cons;
      [right; by split|by left].
  - by left.
  - intros i [[_ ->]|[[=] _]]%example_intents_lookup. discriminate.
  - intros h s i [[-> ->]|[-> ->]]%example_intents_lookup; done.
  - intros h. exists None. by split.
  - intros h s r. by eexists.
  - done.
Defined.
