(* ===== verification/Control.v ===== *)
(** * Placements and observations of the control plane ([dtg-control])

    [lib.rs]: the error type.  [binding.rs]: catalog bindings and retention pins.  [placement.rs]: the
    placement of a shard and its validation.  [observation.rs]: what data nodes report.
    [ControlPanic] is not an error of the source: it stands for a panic. *)

From S2P Require Import Prelude Text Kernel Encoding Storage Binding.
Open Scope Z_scope.

(** ** Errors ([lib.rs]) *)

Inductive ControlError :=
| PlaintextCredential
| BindingBackendClassMismatch
| InvalidPlacement (reason : string)
| MixedBackendClass
| InvalidObservation (reason : string)
| StaleCatalog (expected actual : Version)
| CatalogRevisionRegression (current received : Version)
| CatalogRevisionConflict (revision : Version)
| CatalogEpochRegression (graph_id : GraphId) (shard_id : ShardId) (current received : PlacementEpoch)
| InvalidAction (reason : string)
| UnknownAction
| StaleActionLease
| LineageConflict
| RetentionPinned
| UnknownGeneration
| StaleObservation (expected actual : Version)
| VersionOverflow
| InvalidMigration (reason : string)
| IllegalMigrationTransition
| InvalidMigrationReceipt
| IncompleteMigrationReceipts
| MigrationReceiptConflict
| MigrationDigestMismatch
| MigrationNamespaceCollision
| MigrationCleanupFenced
| ControlPanic.

#[export] Instance ControlError_eq_dec : EqDecision ControlError.
Proof. solve_decision. Defined.

Definition ControlError_code (self : ControlError) : string :=
  match self with
  | PlaintextCredential => "DTG-CONTROL-CREDENTIAL-PLAINTEXT"
  | BindingBackendClassMismatch => "DTG-CONTROL-BINDING-BACKEND-CLASS"
  | InvalidPlacement _ => "DTG-CONTROL-INVALID-PLACEMENT"
  | MixedBackendClass => "DTG-CONTROL-MIXED-BACKEND-CLASS"
  | InvalidObservation _ => "DTG-CONTROL-INVALID-OBSERVATION"
  | StaleCatalog _ _ => "DTG-CONTROL-STALE-CATALOG"
  | CatalogRevisionRegression _ _ => "DTG-CONTROL-CATALOG-REVISION-REGRESSION"
  | CatalogRevisionConflict _ => "DTG-CONTROL-CATALOG-REVISION-CONFLICT"
  | CatalogEpochRegression _ _ _ _ => "DTG-CONTROL-CATALOG-EPOCH-REGRESSION"
  | InvalidAction _ => "DTG-CONTROL-ACTION-INVALID"
  | UnknownAction => "DTG-CONTROL-ACTION-UNKNOWN"
  | StaleActionLease => "DTG-CONTROL-ACTION-STALE-LEASE"
  | LineageConflict => "DTG-CONTROL-LINEAGE"
  | RetentionPinned => "DTG-CONTROL-RETENTION-PINNED"
  | UnknownGeneration => "DTG-CONTROL-UNKNOWN-GENERATION"
  | StaleObservation _ _ => "DTG-CONTROL-STALE-OBSERVATION"
  | VersionOverflow => "DTG-CONTROL-VERSION-OVERFLOW"
  | InvalidMigration _ => "DTG-CONTROL-MIGRATION-INVALID"
  | IllegalMigrationTransition => "DTG-CONTROL-MIGRATION-TRANSITION"
  | InvalidMigrationReceipt => "DTG-CONTROL-MIGRATION-RECEIPT"
  | IncompleteMigrationReceipts => "DTG-CONTROL-MIGRATION-INCOMPLETE"
  | MigrationReceiptConflict => "DTG-CONTROL-MIGRATION-RECEIPT-CONFLICT"
  | MigrationDigestMismatch => "DTG-CONTROL-MIGRATION-DIGEST"
  | MigrationNamespaceCollision => "DTG-CONTROL-MIGRATION-NAMESPACE-COLLISION"
  | MigrationCleanupFenced => "DTG-CONTROL-MIGRATION-CLEANUP-FENCED"
  | ControlPanic => ""
  end.

Definition ControlError_to_string (self : ControlError) : string :=
  match self with
  | PlaintextCredential => "catalog credentials must be external references"
  | BindingBackendClassMismatch => "replica binding does not match its backend class"
  | InvalidPlacement reason => "invalid shard placement: " +:+ reason
  | MixedBackendClass => "one shard generation cannot mix backend classes"
  | InvalidObservation reason => "invalid replica observation: " +:+ reason
  | StaleCatalog expected actual =>
      "stale catalog command: expected version " +:+ pretty expected +:+
      ", actual version " +:+ pretty actual
  | CatalogRevisionRegression current received =>
      "catalog revision regressed from " +:+ pretty current +:+ " to " +:+ pretty received
  | CatalogRevisionConflict revision =>
      "catalog revision " +:+ pretty revision +:+ " has conflicting snapshot contents"
  | CatalogEpochRegression graph_id shard_id current received =>
      "catalog placement epoch regressed for graph " +:+ pretty graph_id +:+ " shard " +:+
      pretty shard_id +:+ " from " +:+ pretty current +:+ " to " +:+ pretty received
  | InvalidAction reason => "invalid control action: " +:+ reason
  | UnknownAction => "control action does not exist"
  | StaleActionLease => "control action lease is stale"
  | LineageConflict => "a backend generation cannot be reassigned to a different backend class"
  | RetentionPinned => "retention pins prevent removing the backend generation"
  | UnknownGeneration => "retention pin references an unknown backend generation"
  | StaleObservation expected actual =>
      "stale observation: expected catalog version " +:+ pretty expected +:+
      ", actual version " +:+ pretty actual
  | VersionOverflow => "catalog version overflow"
  | InvalidMigration reason => "invalid migration: " +:+ reason
  | IllegalMigrationTransition => "illegal migration state transition"
  | InvalidMigrationReceipt => "migration receipt does not match the migration"
  | IncompleteMigrationReceipts => "not all migration voters have acknowledged"
  | MigrationReceiptConflict => "migration receipt conflicts with a durable receipt"
  | MigrationDigestMismatch => "migration voters disagree on index or logical digest"
  | MigrationNamespaceCollision => "migration target namespace belongs to another owner"
  | MigrationCleanupFenced =>
      "migration cleanup requires exact owner identity and released retention pins"
  | ControlPanic => ""
  end.

(** ** Catalog bindings and retention pins ([binding.rs]) *)

Record ReplicaBindingRecord := mkBindingRecord {
  br_binding : ReplicaBinding;
  br_backend_class : BackendClass;
}.
#[export] Instance ReplicaBindingRecord_eq_dec : EqDecision ReplicaBindingRecord.
Proof. solve_decision. Defined.

Definition scheme_byte (byte : Z) : bool :=
  is_ascii_lowercase byte || is_ascii_digit byte || (byte =? 43) || is_dash_or_dot byte.

Definition is_external_reference (value : string) : bool :=
  match split_once "://" value with
  | None => false
  | Some (scheme, target) =>
      negb (bool_decide (scheme = EmptyString)) && negb (bool_decide (target = EmptyString))
      && forallb scheme_byte (as_bytes scheme) && negb (has_whitespace target)
  end.

Definition ReplicaBindingRecord_new (binding : ReplicaBinding) (backend_class : BackendClass)
    : result ControlError ReplicaBindingRecord :=
  if negb (is_external_reference (rb_credential_ref binding)) then Err PlaintextCredential
  else if negb (bool_decide (rb_backend_class_digest binding = bc_digest backend_class))
       || negb (bool_decide (rb_provider_kind binding = bc_provider_kind backend_class))
       || negb (rb_contract_version binding =? bc_contract_version backend_class)
       || negb (rb_layout_version binding =? bc_layout_version backend_class)
       || negb (bool_decide (rb_capability_digest binding =
                             cm_digest (bc_required_capabilities backend_class)))
  then Err BindingBackendClassMismatch
  else Ok (mkBindingRecord binding backend_class).

Abbreviation RetentionPin := string (only parsing).

Definition RetentionPin_new (value : string) : result ControlError RetentionPin :=
  if bool_decide (value = EmptyString) || (255 <? Z.of_nat (String.length value)) || has_whitespace value
  then Err (InvalidPlacement "invalid retention pin")
  else Ok value.

(** ** Placements ([placement.rs]) *)

Record ShardPlacement := mkPlacement {
  pl_graph_id : GraphId;
  pl_shard_id : ShardId;
  pl_placement_epoch : PlacementEpoch;
  pl_active_generation : BackendGeneration;
  pl_backend_class : BackendClass;
  pl_replicas : list ReplicaBindingRecord;
}.
#[export] Instance ShardPlacement_eq_dec : EqDecision ShardPlacement.
Proof. solve_decision. Defined.

Definition replica_key (record : ReplicaBindingRecord) : BackendGeneration * ReplicaId :=
  (rb_backend_generation (br_binding record), rb_replica_id (br_binding record)).

(** The loop of [validate], with the classes of the generations and the replicas seen so far. *)
Fixpoint validate_replicas (self : ShardPlacement) (records : list ReplicaBindingRecord)
    (generation_classes : gmap BackendGeneration Digest32)
    (replicas : gset (BackendGeneration * ReplicaId))
    : result ControlError (gmap BackendGeneration Digest32) :=
  match records with
  | [] => Ok generation_classes
  | record :: records =>
      let binding := br_binding record in
      let generation := rb_backend_generation binding in
      let digest := bc_digest (br_backend_class record) in
      if negb (rb_graph_id binding =? pl_graph_id self)
         || negb (rb_shard_id binding =? pl_shard_id self)
         || negb (rb_placement_epoch binding =? pl_placement_epoch self)
      then Err (InvalidPlacement "binding identity does not match placement identity")
      else if bool_decide (replica_key record ∈ replicas)
      then Err (InvalidPlacement "duplicate replica binding")
      else if match generation_classes !! generation with
              | Some previous => negb (bool_decide (previous = digest))
              | None => false
              end
      then Err MixedBackendClass
      else if generation =? pl_active_generation self then
        if bool_decide (rb_role binding = Retiring)
        then Err (InvalidPlacement "active-generation replicas cannot be retiring")
        else validate_replicas self records (<[generation := digest]> generation_classes)
               ({[replica_key record]} ∪ replicas)
      else if negb (bool_decide (rb_role binding = Retiring))
      then Err (InvalidPlacement "non-active generations must be retiring")
      else validate_replicas self records (<[generation := digest]> generation_classes)
             ({[replica_key record]} ∪ replicas)
  end.

Definition placement_validate (self : ShardPlacement) : result ControlError unit :=
  if bool_decide (pl_replicas self = [])
  then Err (InvalidPlacement "at least one replica binding is required")
  else
    generation_classes ← validate_replicas self (pl_replicas self) ∅ ∅;
    match generation_classes !! pl_active_generation self with
    | Some digest =>
        if bool_decide (digest = bc_digest (pl_backend_class self)) then Ok tt
        else Err MixedBackendClass
    | None => Err (InvalidPlacement "active generation has no replica binding")
    end.

Definition generation_classes (self : ShardPlacement) : gmap BackendGeneration Digest32 :=
  foldl (λ classes record,
    <[rb_backend_generation (br_binding record) := bc_digest (br_backend_class record)]> classes)
    {[pl_active_generation self := bc_digest (pl_backend_class self)]} (pl_replicas self).

(** ** Observations ([observation.rs]) *)

Inductive ObservedReplicaLifecycle := Allocated | Learner | Voter | Sealed.
#[export] Instance ObservedReplicaLifecycle_eq_dec : EqDecision ObservedReplicaLifecycle.
Proof. solve_decision. Defined.

Record ObservedReplicaState := mkObservedReplica {
  or_node_id : string;
  or_catalog_version : Version;
  or_binding : ReplicaBinding;
  or_backend_class_digest : Digest32;
  or_lifecycle : ObservedReplicaLifecycle;
  or_applied_index : Z;
  or_leader_id : option ReplicaId;
  or_closed_timestamp : option TransactionTime;
  or_caught_up : bool;
}.

Definition ObservedReplicaState_new (node_id : string) (catalog_version : Version)
    (binding : ReplicaBinding) (backend_class_digest : Digest32)
    (lifecycle : ObservedReplicaLifecycle) : result ControlError ObservedReplicaState :=
  if is_blank node_id then Err (InvalidObservation "node identifier is empty")
  else if negb (bool_decide (backend_class_digest = rb_backend_class_digest binding))
  then Err (InvalidObservation "reported backend class does not match the binding")
  else Ok (mkObservedReplica node_id catalog_version binding backend_class_digest lifecycle 0 None
             None false).

Definition is_leader (self : ObservedReplicaState) : bool :=
  bool_decide (or_leader_id self = Some (rb_replica_id (or_binding self))).

Definition with_leader_id (leader_id : option ReplicaId) (self : ObservedReplicaState)
    : ObservedReplicaState :=
  mkObservedReplica (or_node_id self) (or_catalog_version self) (or_binding self)
    (or_backend_class_digest self) (or_lifecycle self) (or_applied_index self) leader_id
    (or_closed_timestamp self) (or_caught_up self).

Definition with_leader (leader : bool) (self : ObservedReplicaState) : ObservedReplicaState :=
  with_leader_id (if leader then Some (rb_replica_id (or_binding self)) else None) self.

Definition with_applied_index (applied_index : Z) (self : ObservedReplicaState)
    : ObservedReplicaState :=
  mkObservedReplica (or_node_id self) (or_catalog_version self) (or_binding self)
    (or_backend_class_digest self) (or_lifecycle self) applied_index (or_leader_id self)
    (or_closed_timestamp self) (or_caught_up self).

Definition with_closed_timestamp (closed_timestamp : option TransactionTime)
    (self : ObservedReplicaState) : ObservedReplicaState :=
  mkObservedReplica (or_node_id self) (or_catalog_version self) (or_binding self)
    (or_backend_class_digest self) (or_lifecycle self) (or_applied_index self) (or_leader_id self)
    closed_timestamp (or_caught_up self).

Definition with_caught_up (caught_up : bool) (self : ObservedReplicaState) : ObservedReplicaState :=
  mkObservedReplica (or_node_id self) (or_catalog_version self) (or_binding self)
    (or_backend_class_digest self) (or_lifecycle self) (or_applied_index self) (or_leader_id self)
    (or_closed_timestamp self) caught_up.

Record ObservedNodeState := mkObservedNode {
  on_node_id : string;
  on_catalog_version : Version;
  on_replicas : list ObservedReplicaState;
}.

Definition ObservedNodeState_new (node_id : string) (catalog_version : Version)
    (replicas : list ObservedReplicaState) : result ControlError ObservedNodeState :=
  if is_blank node_id then Err (InvalidObservation "node identifier is empty")
  else Ok (mkObservedNode node_id catalog_version replicas).

(** [(graph, shard, generation, replica)]. *)
Abbreviation ObservationKey := (Z * Z * Z * Z)%type (only parsing).

Definition key_for_binding (binding : ReplicaBinding) : ObservationKey :=
  (rb_graph_id binding, rb_shard_id binding, rb_backend_generation binding, rb_replica_id binding).

Definition observation_key (observation : ObservedReplicaState) : ObservationKey :=
  key_for_binding (or_binding observation).

(** The loop of [ObservedNodeState::validate]. *)
Fixpoint validate_observations (self : ObservedNodeState) (observed : list ObservedReplicaState)
    (classes : gmap (GraphId * ShardId * BackendGeneration) Digest32) (replicas : gset ObservationKey)
    : result ControlError unit :=
  match observed with
  | [] => Ok tt
  | replica :: observed =>
      let binding := or_binding replica in
      let group := (rb_graph_id binding, rb_shard_id binding, rb_backend_generation binding) in
      if negb (bool_decide (or_node_id replica = on_node_id self))
      then Err (InvalidObservation "replica observation belongs to another node")
      else if negb (or_catalog_version replica =? on_catalog_version self)
      then Err (InvalidObservation "replica and node catalog versions differ")
      else if match classes !! group with
              | Some digest => negb (bool_decide (digest = or_backend_class_digest replica))
              | None => false
              end
      then Err MixedBackendClass
      else if bool_decide (observation_key replica ∈ replicas)
      then Err (InvalidObservation "duplicate replica observation")
      else validate_observations self observed (<[group := or_backend_class_digest replica]> classes)
             ({[observation_key replica]} ∪ replicas)
  end.

Definition node_validate (self : ObservedNodeState) : result ControlError unit :=
  validate_observations self (on_replicas self) ∅ ∅.

(** ** What a valid placement is *)

Definition record_generation (r : ReplicaBindingRecord) : BackendGeneration :=
  rb_backend_generation (br_binding r).
Definition record_class (r : ReplicaBindingRecord) : Digest32 := bc_digest (br_backend_class r).

Definition record_ok (p : ShardPlacement) (r : ReplicaBindingRecord) : Prop :=
  rb_graph_id (br_binding r) = pl_graph_id p ∧ rb_shard_id (br_binding r) = pl_shard_id p ∧
  rb_placement_epoch (br_binding r) = pl_placement_epoch p ∧
  (rb_role (br_binding r) = Retiring ↔ record_generation r ≠ pl_active_generation p).

(** One class per generation, the active one that of the placement; replicas are distinct. *)
Record placement_ok (p : ShardPlacement) : Prop := {
  po_records : Forall (record_ok p) (pl_replicas p);
  po_distinct : NoDup (map replica_key (pl_replicas p));
  po_classes r s : r ∈ pl_replicas p → s ∈ pl_replicas p →
    record_generation r = record_generation s → record_class r = record_class s;
  po_active : ∃ r, r ∈ pl_replicas p ∧ record_generation r = pl_active_generation p ∧
    record_class r = bc_digest (pl_backend_class p);
}.

(** The classes the loop of [validate] has seen. *)
Definition classes_of (records : list ReplicaBindingRecord) (m : gmap BackendGeneration Digest32)
    : gmap BackendGeneration Digest32 :=
  foldl (λ m r, <[record_generation r := record_class r]> m) m records.

Lemma classes_of_lookup records m g d :
  classes_of records m !! g = Some d →
  (∃ r, r ∈ records ∧ record_generation r = g ∧ record_class r = d) ∨ m !! g = Some d.
Proof.
  revert m. induction records as [|r records IH]; intros m H; cbn in H; [by right|].
  apply IH in H as [(r' & ? & ?)|H]; [left; exists r'; by split; [right|]|].
  destruct (decide (record_generation r = g)) as [<-|Hne].
  - rewrite lookup_insert_eq in H. left. exists r. split; [left|]. by simplify_eq.
  - rewrite lookup_insert_ne in H by done. by right.
Qed.

Lemma classes_of_domain records m g :
  is_Some (classes_of records m !! g) ↔ is_Some (m !! g) ∨ ∃ r, r ∈ records ∧ record_generation r = g.
Proof.
  revert m. induction records as [|r records IH]; intros m.
  { split; [by left|]. intros [?|(r & Hr & _)]; [done|]. by apply elem_of_nil in Hr. }
  change (classes_of (r :: records) m) with (classes_of records (<[record_generation r := record_class r]> m)).
  rewrite IH, lookup_insert_is_Some'. split.
  - intros [[<-|?]|(s & ? & ?)]; [right; exists r; by split; [left|]|by left|].
    right. exists s. by split; [right|].
  - intros [?|(s & [->|?]%elem_of_cons & ?)]; [by left; right|by left; left|].
    right. by exists s.
Qed.

Lemma generation_classes_eq p :
  generation_classes p = classes_of (pl_replicas p) {[pl_active_generation p := bc_digest (pl_backend_class p)]}.
Proof. done. Qed.

(** [classes] agrees with [records], and [records] with themselves. *)
Definition consistent (records : list ReplicaBindingRecord) (classes : gmap BackendGeneration Digest32)
    : Prop :=
  (∀ r d, r ∈ records → classes !! record_generation r = Some d → d = record_class r) ∧
  (∀ r s, r ∈ records → s ∈ records → record_generation r = record_generation s →
    record_class r = record_class s).

Lemma consistent_cons r records classes :
  consistent (r :: records) classes ↔
  (∀ d, classes !! record_generation r = Some d → d = record_class r) ∧
  consistent records (<[record_generation r := record_class r]> classes).
Proof.
  unfold consistent. setoid_rewrite elem_of_cons. split.
  - intros [H1 H2]. split; [by eauto|]. split; [|by eauto].
    intros s d Hs. destruct (decide (record_generation r = record_generation s)) as [Heq|Hne].
    + rewrite <-Heq, lookup_insert_eq. intros [= <-]. by eauto.
    + rewrite lookup_insert_ne by done. by eauto.
  - intros (H1 & H2 & H3).
    assert (∀ s, s ∈ records → record_generation r = record_generation s → record_class r = record_class s)
      as Hrs. { intros s Hs Heq. apply (H2 s); [done|]. by rewrite <-Heq, lookup_insert_eq. }
    split; [|by naive_solver].
    intros s d [->|Hs] Hd; [by eauto|].
    destruct (decide (record_generation r = record_generation s)) as [Heq|Hne].
    + rewrite <-(Hrs s Hs Heq). apply H1. by rewrite Heq.
    + apply (H2 s); [done|]. by rewrite lookup_insert_ne.
Qed.

Lemma validate_replicas_cons p r records classes seen m :
  validate_replicas p (r :: records) classes seen = Ok m ↔
  record_ok p r ∧ replica_key r ∉ seen ∧
  (∀ d, classes !! record_generation r = Some d → d = record_class r) ∧
  validate_replicas p records (<[record_generation r := record_class r]> classes)
    ({[replica_key r]} ∪ seen) = Ok m.
Proof.
  cbn [validate_replicas]. unfold record_ok, record_generation, record_class.
  destruct (negb _ || negb _ || negb _) eqn:Hid.
  { split; [done|]. intros ((? & ? & ? & _) & _). rewrite !orb_true_iff, !negb_true_iff, !Z.eqb_neq in Hid.
    naive_solver. }
  to_prop. case_bool_decide as Hk; [naive_solver|].
  destruct (classes !! _) as [d|] eqn:Hd.
  - case_bool_decide as Hc; cbn; [|split; [done|]; intros (_ & _ & Hc' & _); by destruct (Hc (Hc' d eq_refl))].
    destruct (Z.eqb_spec (rb_backend_generation (br_binding r)) (pl_active_generation p)); repeat case_bool_decide; cbn; naive_solver.
  - destruct (Z.eqb_spec (rb_backend_generation (br_binding r)) (pl_active_generation p)); repeat case_bool_decide; cbn; naive_solver.
Qed.

Lemma validate_replicas_Ok p records classes seen m :
  validate_replicas p records classes seen = Ok m ↔
  m = classes_of records classes ∧ Forall (record_ok p) records ∧ NoDup (map replica_key records) ∧
  (∀ r, r ∈ records → replica_key r ∉ seen) ∧ consistent records classes.
Proof.
  revert classes seen. induction records as [|r records IH]; intros classes seen.
  { cbn. split; [intros [= <-]|intros (-> & _); done].
    split; [done|]. split; [constructor|]. split; [constructor|]. split; [by intros ? ?%elem_of_nil|].
    by split; intros ? ? ?%elem_of_nil. }
  rewrite validate_replicas_cons, IH, consistent_cons, Forall_cons. cbn [map]. rewrite NoDup_cons.
  setoid_rewrite elem_of_cons. split.
  - intros (Hr & Hk & Hd & -> & Hrs & Hn & Hseen & Hc). split; [done|].
    split; [done|]. split; [split; [|done]|].
    + intros (s & Hs & Hs')%list_elem_of_fmap. apply (Hseen s Hs'). rewrite Hs. set_solver.
    + split; [|done]. intros s [->|Hs]; [done|]. specialize (Hseen s Hs). set_solver.
  - intros (-> & [Hr Hrs] & [Hk Hn] & Hseen & Hd & Hc).
    split; [done|]. split; [by eauto|]. split; [done|]. split; [done|]. split; [done|]. split; [done|].
    split; [|done]. intros s Hs. rewrite not_elem_of_union, not_elem_of_singleton. split; [|by eauto].
    intros Heq. apply Hk. rewrite <-Heq. by apply list_elem_of_fmap_2.
Qed.

Lemma placement_validate_Ok p : placement_validate p = Ok tt ↔ placement_ok p.
Proof.
  unfold placement_validate. case_bool_decide as Hnil.
  { split; [done|]. intros [_ _ _ (r & Hr & _)]. rewrite Hnil in Hr. by apply elem_of_nil in Hr. }
  rewrite bind_Ok. split.
  - intros (m & (-> & Hr & Hn & _ & _ & Hc)%validate_replicas_Ok & Hm).
    destruct (classes_of _ _ !! _) as [d|] eqn:Hd; [|done]. case_bool_decide; simplify_eq.
    apply classes_of_lookup in Hd as [(r & ? & ? & ?)|Hd]; [|by rewrite lookup_empty in Hd].
    split; [done..|]. by exists r.
  - intros [Hr Hn Hc (r & Hin & Hg & Hd)]. eexists. split.
    { apply validate_replicas_Ok. split; [done|]. split; [done|]. split; [done|]. split; [set_solver|].
      split; [|done]. intros ? ? _. by rewrite lookup_empty. }
    assert (is_Some (classes_of (pl_replicas p) ∅ !! pl_active_generation p)) as [d Hd'].
    { apply classes_of_domain. right. by exists r. }
    rewrite Hd'. apply classes_of_lookup in Hd' as [(s & ? & ? & <-)|Hd']; [|by rewrite lookup_empty in Hd'].
    rewrite bool_decide_eq_true_2; [done|]. rewrite <-Hd. apply Hc; congruence.
Qed.
