(* ===== verification/Catalog.v ===== *)
(** * The catalog and its replicas ([dtg-control/src/catalog.rs])

    The catalog holds the placement of every shard, the lineage of its backend generations and the
    retention pins on them; commands carry the version they expect.  A catalog replica installs
    snapshots of later versions. *)

From S2P Require Import Prelude Text Kernel Encoding Storage Binding Control.
Open Scope Z_scope.

Abbreviation ShardKey := (Z * Z)%type (only parsing).
Abbreviation GenerationKey := (Z * Z * Z)%type (only parsing).

Record LineageEntry := mkLineageEntry {
  le_generation : BackendGeneration;
  le_backend_class_digest : Digest32;
}.
#[export] Instance LineageEntry_eq_dec : EqDecision LineageEntry.
Proof. solve_decision. Defined.

Inductive CatalogCommand :=
| PutPlacement (expected_version : Version) (placement : ShardPlacement)
| PinRetention (expected_version : Version) (graph_id : GraphId) (shard_id : ShardId)
    (generation : BackendGeneration) (pin : RetentionPin)
| UnpinRetention (expected_version : Version) (graph_id : GraphId) (shard_id : ShardId)
    (generation : BackendGeneration) (pin : RetentionPin).

Definition command_expected_version (self : CatalogCommand) : Version :=
  match self with
  | PutPlacement expected_version _ | PinRetention expected_version _ _ _ _
  | UnpinRetention expected_version _ _ _ _ => expected_version
  end.

Record CatalogState := mkCatalog {
  ca_version : Version;
  ca_placements : gmap ShardKey ShardPlacement;
  ca_lineage : gmap ShardKey (list LineageEntry);
  ca_retention_pins : gmap GenerationKey (gset RetentionPin);
}.
#[export] Instance CatalogState_eq_dec : EqDecision CatalogState.
Proof. solve_decision. Defined.

Definition CatalogState_new : CatalogState := mkCatalog 0 ∅ ∅ ∅.

Definition lineage (self : CatalogState) (key : ShardKey) : list LineageEntry :=
  default [] (ca_lineage self !! key).

Definition is_generation_pinned (self : CatalogState) (key : ShardKey)
    (generation : BackendGeneration) : bool :=
  match ca_retention_pins self !! (key, generation) with
  | Some pins => negb (bool_decide (pins = ∅))
  | None => false
  end.

Definition has_generation (self : CatalogState) (key : ShardKey) (generation : BackendGeneration)
    : bool :=
  existsb (λ entry, le_generation entry =? generation) (lineage self key).

(** The loop of [put_placement] over the generations of the placement. *)
Fixpoint extend_lineage (classes : list (BackendGeneration * Digest32)) (lineage : list LineageEntry)
    : result ControlError (list LineageEntry) :=
  match classes with
  | [] => Ok lineage
  | (generation, backend_class_digest) :: classes =>
      match find (λ entry, le_generation entry =? generation) lineage with
      | Some entry =>
          if negb (bool_decide (le_backend_class_digest entry = backend_class_digest))
          then Err LineageConflict
          else extend_lineage classes lineage
      | None => extend_lineage classes (lineage ++ [mkLineageEntry generation backend_class_digest])
      end
  end.

Definition placement_key (placement : ShardPlacement) : ShardKey :=
  (pl_graph_id placement, pl_shard_id placement).

Definition lineage_leb (a b : LineageEntry) : bool := le_generation a <=? le_generation b.

Definition put_placement (self : CatalogState) (placement : ShardPlacement)
    : result ControlError CatalogState :=
  _ ← placement_validate placement;
  let key := placement_key placement in
  let new_classes := generation_classes placement in
  if match ca_placements self !! key with
     | Some previous =>
         existsb (λ generation, bool_decide (new_classes !! generation = None)
                                && is_generation_pinned self key generation)
           (keys (generation_classes previous))
     | None => false
     end
  then Err RetentionPinned
  else
    lineage ← extend_lineage (entries new_classes) (lineage self key);
    Ok (mkCatalog (ca_version self) (<[key := placement]> (ca_placements self))
          (<[key := sort_by lineage_leb lineage]> (ca_lineage self)) (ca_retention_pins self)).

Definition with_pins (self : CatalogState) (pins : gmap GenerationKey (gset RetentionPin))
    : CatalogState :=
  mkCatalog (ca_version self) (ca_placements self) (ca_lineage self) pins.

Definition pin_retention (self : CatalogState) (key : ShardKey) (generation : BackendGeneration)
    (pin : RetentionPin) : result ControlError CatalogState :=
  if negb (has_generation self key generation) then Err UnknownGeneration
  else
    let pins := default ∅ (ca_retention_pins self !! (key, generation)) in
    Ok (with_pins self (<[(key, generation) := {[pin]} ∪ pins]> (ca_retention_pins self))).

Definition unpin_retention (self : CatalogState) (key : ShardKey) (generation : BackendGeneration)
    (pin : RetentionPin) : result ControlError CatalogState :=
  if negb (has_generation self key generation) then Err UnknownGeneration
  else
    Ok (match ca_retention_pins self !! (key, generation) with
        | Some pins =>
            let pins := pins ∖ {[pin]} in
            with_pins self
              (if bool_decide (pins = ∅) then delete (key, generation) (ca_retention_pins self)
               else <[(key, generation) := pins]> (ca_retention_pins self))
        | None => self
        end).

Definition catalog_apply (self : CatalogState) (command : CatalogCommand)
    : result ControlError CatalogState :=
  if negb (command_expected_version command =? ca_version self)
  then Err (StaleCatalog (command_expected_version command) (ca_version self))
  else
    next ← match command with
           | PutPlacement _ placement => put_placement self placement
           | PinRetention _ graph_id shard_id generation pin =>
               pin_retention self (graph_id, shard_id) generation pin
           | UnpinRetention _ graph_id shard_id generation pin =>
               unpin_retention self (graph_id, shard_id) generation pin
           end;
    if ca_version self + 1 <? 2 ^ 64
    then Ok (mkCatalog (ca_version self + 1) (ca_placements next) (ca_lineage next)
               (ca_retention_pins next))
    else Err VersionOverflow.

(** ** Replicas *)

(** [placements.values()] in key order. *)
Definition placements (self : CatalogState) : list ShardPlacement :=
  (entries_by pair_leb (ca_placements self)).*2.

Record CatalogReplica := mkReplica { cr_snapshot : CatalogState }.

Definition CatalogReplica_new (snapshot : CatalogState) : result ControlError CatalogReplica :=
  _ ← try_for_each placement_validate (placements snapshot);
  Ok (mkReplica snapshot).

(** The loop of [install]. *)
Definition check_placement (current : CatalogState) (entry : ShardKey * ShardPlacement)
    : result ControlError unit :=
  let '(key, next) := entry in
  _ ← placement_validate next;
  match ca_placements current !! key with
  | Some placement =>
      if pl_placement_epoch next <? pl_placement_epoch placement
      then Err (CatalogEpochRegression key.1 key.2 (pl_placement_epoch placement) (pl_placement_epoch next))
      else Ok tt
  | None => Ok tt
  end.

Definition install (self : CatalogReplica) (snapshot : CatalogState)
    : result ControlError bool * CatalogReplica :=
  let current := cr_snapshot self in
  if ca_version snapshot <? ca_version current
  then (Err (CatalogRevisionRegression (ca_version current) (ca_version snapshot)), self)
  else if ca_version snapshot =? ca_version current then
    if bool_decide (snapshot = current) then (Ok false, self)
    else (Err (CatalogRevisionConflict (ca_version snapshot)), self)
  else
    match try_for_each (check_placement current) (entries_by pair_leb (ca_placements snapshot)) with
    | Err e => (Err e, self)
    | Ok _ => (Ok true, mkReplica snapshot)
    end.

(** ** The invariant *)

Definition entry_of (c : CatalogState) (key : ShardKey) (g : BackendGeneration) (d : Digest32) : Prop :=
  mkLineageEntry g d ∈ lineage c key.

(** Placements are valid, stand under their own key and use generations as the lineage records them;
    a lineage is ascending, with one class per generation; pins are on generations of the lineage. *)
Record catalog_ok (c : CatalogState) : Prop := {
  co_version : in_u64 (ca_version c);
  co_placement key p : ca_placements c !! key = Some p →
    key = placement_key p ∧ placement_ok p ∧
    ∀ g d, generation_classes p !! g = Some d → entry_of c key g d;
  co_lineage key : StronglySorted (λ a b, le_generation a < le_generation b) (lineage c key);
  co_pins key g pins : ca_retention_pins c !! (key, g) = Some pins →
    pins ≠ ∅ ∧ has_generation c key g = true;
}.

Definition catalog_step (c c' : CatalogState) : Prop := ∃ command, catalog_apply c command = Ok c'.
Definition catalog_reachable (c : CatalogState) : Prop := rtc catalog_step CatalogState_new c.

(** ** Lineages *)

Lemma extend_lineage_Ok classes l l' :
  extend_lineage classes l = Ok l' → NoDup (map le_generation l) →
  NoDup (map le_generation l') ∧ (∀ e, e ∈ l → e ∈ l') ∧
  (∀ g d, (g, d) ∈ classes → mkLineageEntry g d ∈ l').
Proof.
  revert l. induction classes as [|[g d] classes IH]; intros l Hl Hnd; cbn in Hl.
  { injection Hl as <-. split; [done|]. split; [done|]. by intros ? ? ?%elem_of_nil. }
  destruct (find _ l) as [e|] eqn:Hf.
  - apply find_some in Hf as [He Hg]. to_prop. guard_in Hl as Hd. to_prop.
    destruct (IH l Hl Hnd) as (? & Hsub & Hin). split; [done|]. split; [done|].
    intros g' d' [[= -> ->]|?]%elem_of_cons; [|by apply Hin]. apply Hsub.
    destruct e; cbn in *; subst. by apply list_elem_of_In.
  - destruct (IH _ Hl) as (? & Hsub & Hin).
    { rewrite map_app, NoDup_app. split; [done|]. split; [|by apply NoDup_singleton].
      intros g' (e & Hg' & He%list_elem_of_In)%list_elem_of_fmap Hg%list_elem_of_singleton.
      pose proof (find_none _ _ Hf e He) as Hne. cbn in Hne, Hg. to_prop. congruence. }
    split; [done|]. split; [intros e He; apply Hsub, elem_of_app; by left|].
    intros g' d' [[= -> ->]|?]%elem_of_cons; [|by apply Hin]. apply Hsub, elem_of_app. right. by left.
Qed.

(** The loop succeeds when the lineage knows the generations it has with the same class. *)
Lemma extend_lineage_succeeds classes l :
  NoDup classes.*1 →
  (∀ g d e, (g, d) ∈ classes → e ∈ l → le_generation e = g → le_backend_class_digest e = d) →
  ∃ l', extend_lineage classes l = Ok l'.
Proof.
  revert l. induction classes as [|[g d] classes IH]; intros l Hnd Hl; cbn; [by eexists|].
  cbn in Hnd. apply NoDup_cons in Hnd as [Hg Hnd].
  destruct (find _ l) as [e|] eqn:Hf.
  - apply find_some in Hf as [He%list_elem_of_In Hge]. to_prop.
    rewrite bool_decide_eq_true_2 by (apply (Hl g d e); [left|done..]). cbn.
    apply IH; [done|]. intros g' d' e' Hin. apply Hl. by right.
  - apply IH; [done|]. intros g' d' e' Hin [He|He%list_elem_of_singleton]%elem_of_app.
    + apply Hl; [by right|done].
    + subst e'. cbn. intros ->. destruct Hg. by apply (list_elem_of_fmap_2 fst _ _ Hin).
Qed.

Lemma lineage_sorted_NoDup l :
  StronglySorted (λ a b, le_generation a < le_generation b) l → NoDup (map le_generation l).
Proof. apply strictly_sorted_NoDup. Qed.

Lemma has_generation_iff c key g : has_generation c key g = true ↔ ∃ d, entry_of c key g d.
Proof.
  unfold has_generation, entry_of. rewrite existsb_exists. split.
  - intros ([g' d] & He & Hg). cbn in Hg. to_prop. subst. exists d. by apply list_elem_of_In.
  - intros [d Hd]. exists (mkLineageEntry g d). split; [by apply list_elem_of_In|]. apply Z.eqb_refl.
Qed.

Lemma entry_of_unique c key g d d' : catalog_ok c → entry_of c key g d → entry_of c key g d' → d = d'.
Proof.
  intros Hc H1 H2. pose proof (lineage_sorted_NoDup _ (co_lineage c Hc key)) as Hnd.
  unfold entry_of in *. apply list_elem_of_lookup in H1 as [i Hi], H2 as [j Hj].
  assert (i = j) as ->.
  { apply (NoDup_lookup _ i j g Hnd); by erewrite list_lookup_fmap, ?Hi, ?Hj. }
  by simplify_eq.
Qed.

(** ** Steps *)

(** The lineage only grows. *)
Definition grows (c c' : CatalogState) : Prop :=
  ∀ key g d, entry_of c key g d → entry_of c' key g d.
(** A pinned generation of a placement stays in it. *)
Definition retains (c c' : CatalogState) : Prop :=
  ∀ key g p, ca_placements c !! key = Some p → is_Some (generation_classes p !! g) →
    is_generation_pinned c key g = true →
    ∃ p', ca_placements c' !! key = Some p' ∧ is_Some (generation_classes p' !! g).

Lemma lineage_insert c version placements pins key l key' :
  lineage (mkCatalog version placements (<[key := l]> (ca_lineage c)) pins) key' =
  if decide (key = key') then l else lineage c key'.
Proof.
  unfold lineage. cbn. case_decide as Hk.
  - subst. by rewrite lookup_insert_eq.
  - by rewrite lookup_insert_ne.
Qed.

Lemma put_placement_ok c p c' :
  catalog_ok c → put_placement c p = Ok c' → catalog_ok c' ∧ grows c c' ∧ retains c c'.
Proof.
  intros Hc Hp. apply bind_Ok in Hp as ([] & Hval%placement_validate_Ok & Hp).
  cbv beta zeta in Hp. guard_in Hp as Hpin. apply bind_Ok in Hp as (l & Hl & Hp). injection Hp as <-.
  apply extend_lineage_Ok in Hl as (Hnd & Hsub & Hin); [|by apply lineage_sorted_NoDup, co_lineage].
  assert (grows c (mkCatalog (ca_version c) (<[placement_key p := p]> (ca_placements c))
    (<[placement_key p := sort_by lineage_leb l]> (ca_lineage c)) (ca_retention_pins c))) as Hgrow.
  { intros key g d He. unfold entry_of. rewrite lineage_insert. case_decide as Hk; [subst|done].
    rewrite sort_by_perm. by apply Hsub. }
  split; [|split; [done|]].
  - split; [apply Hc| | |].
    + intros key q. cbn. destruct (decide (placement_key p = key)) as [<-|Hk].
      * rewrite lookup_insert_eq. intros [= <-]. split; [done|]. split; [done|]. intros g d Hg.
        unfold entry_of. rewrite lineage_insert, decide_True, sort_by_perm by done.
        by apply Hin, elem_of_entries.
      * rewrite lookup_insert_ne by done. intros Hq. destruct (co_placement c Hc _ _ Hq) as (? & ? & He).
        split; [done|]. split; [done|]. intros g d Hg. by apply Hgrow, He.
    + intros key. rewrite lineage_insert. case_decide; [|by apply co_lineage].
      by apply sort_by_key_strict.
    + intros key g pins Hpins. destruct (co_pins c Hc _ _ _ Hpins) as [? [d Hd]%has_generation_iff].
      split; [done|]. apply has_generation_iff. exists d. by apply Hgrow.
  - intros key g q Hq Hg Hgp. cbn. destruct (decide (placement_key p = key)) as [<-|Hk].
    + exists p. rewrite lookup_insert_eq. split; [done|]. rewrite Hq, existsb_false, Forall_forall in Hpin.
      specialize (Hpin g (proj2 (elem_of_keys _ _) Hg)). rewrite Hgp, andb_true_r in Hpin. to_prop.
      by destruct (generation_classes p !! g).
    + exists q. by rewrite lookup_insert_ne.
Qed.

Lemma with_pins_ok c pins :
  catalog_ok c →
  (∀ key g ps, pins !! (key, g) = Some ps → ps ≠ ∅ ∧ has_generation c key g = true) →
  catalog_ok (with_pins c pins) ∧ grows c (with_pins c pins) ∧ retains c (with_pins c pins).
Proof.
  intros [] Hpins. split; [by split|]. split; [by intros ? ? ?|]. intros key g p Hp Hg _. by exists p.
Qed.

Lemma pin_retention_ok c key g pin c' :
  catalog_ok c → pin_retention c key g pin = Ok c' → catalog_ok c' ∧ grows c c' ∧ retains c c'.
Proof.
  intros Hc Hp. unfold pin_retention in Hp. guard_in Hp as Hg. to_prop. injection Hp as <-.
  apply with_pins_ok; [done|]. intros key' g' ps.
  destruct (decide ((key, g) = (key', g'))) as [[= <- <-]|Hk].
  - rewrite lookup_insert_eq. intros [= <-]. split; [set_solver|done].
  - rewrite lookup_insert_ne by done. by apply co_pins.
Qed.

Lemma unpin_retention_ok c key g pin c' :
  catalog_ok c → unpin_retention c key g pin = Ok c' → catalog_ok c' ∧ grows c c' ∧ retains c c'.
Proof.
  intros Hc Hp. unfold unpin_retention in Hp. guard_in Hp as Hg. to_prop. injection Hp as <-.
  destruct (ca_retention_pins c !! (key, g)) as [ps|] eqn:Hps.
  - apply with_pins_ok; [done|]. intros key' g' qs. case_bool_decide as He.
    + intros [? ?]%lookup_delete_Some. by apply co_pins.
    + destruct (decide ((key, g) = (key', g'))) as [[= <- <-]|Hk].
      * rewrite lookup_insert_eq. by intros [= <-].
      * rewrite lookup_insert_ne by done. by apply co_pins.
  - split; [done|]. split; [by intros ? ? ?|]. intros key' g' p Hp' ? _. by exists p.
Qed.

Lemma catalog_apply_ok c command c' :
  catalog_ok c → catalog_apply c command = Ok c' →
  catalog_ok c' ∧ grows c c' ∧ retains c c' ∧ command_expected_version command = ca_version c ∧
  ca_version c' = ca_version c + 1.
Proof.
  intros Hc Ha. unfold catalog_apply in Ha. guard_in Ha as Hv. to_prop.
  apply bind_Ok in Ha as (next & Hn & Ha). guard_in Ha as Ho. to_prop. injection Ha as <-.
  assert (catalog_ok next ∧ grows c next ∧ retains c next) as ([] & Hg & Hr).
  { destruct command; [by eapply put_placement_ok|by eapply pin_retention_ok|by eapply unpin_retention_ok]. }
  split; [split; [|done..]|done]. pose proof (co_version c Hc). unfold in_u64 in *. cbn. lia.
Qed.

Lemma catalog_new_ok : catalog_ok CatalogState_new.
Proof.
  split; [done|intros ? ?; cbn; by rewrite lookup_empty| |intros ? ? ?; cbn; by rewrite lookup_empty].
  intros key. unfold lineage. cbn. rewrite lookup_empty. constructor.
Qed.

Lemma catalog_reachable_ok c : catalog_reachable c → catalog_ok c.
Proof.
  intros Hr. unfold catalog_reachable in Hr. pose proof catalog_new_ok as Hok.
  induction Hr as [|x y z [command Hc] _ IH]; [done|]. by apply IH, (catalog_apply_ok _ _ _ Hok Hc).
Qed.

Lemma catalog_run c c' :
  catalog_ok c → rtc catalog_step c c' →
  catalog_ok c' ∧ grows c c' ∧ (c = c' ∨ ca_version c < ca_version c').
Proof.
  intros Hc Hr. induction Hr as [x|x y z [command Hs] _ IH].
  { split; [done|]. split; [by intros ? ? ?|by left]. }
  destruct (catalog_apply_ok _ _ _ Hc Hs) as (Hy & Hg & _ & _ & Hv).
  destruct (IH Hy) as (Hz & Hg' & Hlt). split; [done|]. split; [by intros ? ? ? ?%Hg%Hg'|].
  right. destruct Hlt as [<-|?]; lia.
Qed.

(** ** Theorems *)

(** C20. The catalog stays consistent: whatever commands are applied, every placement is valid, stands
    under its own key and uses backend generations as the lineage records them; a generation once in
    the lineage keeps its class for ever; a command succeeds only at the version it expects and
    produces the next one; and a pinned generation of a placement cannot be dropped. *)
Theorem catalog_invariant (c : CatalogState) :
  catalog_reachable c →
  catalog_ok c ∧
  (∀ c', rtc catalog_step c c' → grows c c' ∧ (c = c' ∨ ca_version c < ca_version c')) ∧
  (∀ command c', catalog_apply c command = Ok c' →
     command_expected_version command = ca_version c ∧ ca_version c' = ca_version c + 1 ∧ retains c c').
Proof.
  intros Hc%catalog_reachable_ok. split; [done|]. split.
  - intros c' Hr. by apply catalog_run.
  - intros command c' Hs. destruct (catalog_apply_ok _ _ _ Hc Hs) as (_ & _ & ? & ? & ?). done.
Qed.

(** What a replica checks of a later snapshot, key by key. *)
Lemma check_placement_cases current key p :
  placement_ok p →
  match check_placement current (key, p) with
  | Ok _ => ∀ q, ca_placements current !! key = Some q → pl_placement_epoch q ≤ pl_placement_epoch p
  | Err e => ∃ q, ca_placements current !! key = Some q ∧ pl_placement_epoch p < pl_placement_epoch q ∧
      e = CatalogEpochRegression key.1 key.2 (pl_placement_epoch q) (pl_placement_epoch p)
  end.
Proof.
  intros Hp%placement_validate_Ok. unfold check_placement. rewrite Hp. cbn.
  destruct (ca_placements current !! key) as [q|]; [|done].
  destruct (Z.ltb_spec (pl_placement_epoch p) (pl_placement_epoch q)); [by exists q|].
  by intros q' [= <-].
Qed.

(** A snapshot of a later version: what [install] answers. *)
Lemma install_later c c' :
  catalog_ok c' → ca_version c < ca_version c' →
  match install (mkReplica c) c' with
  | (Ok changed, r) =>
      changed = true ∧ r = mkReplica c' ∧
      ∀ key p p', ca_placements c !! key = Some p → ca_placements c' !! key = Some p' →
        pl_placement_epoch p ≤ pl_placement_epoch p'
  | (Err e, r) =>
      r = mkReplica c ∧
      ∃ key p p', ca_placements c !! key = Some p ∧ ca_placements c' !! key = Some p' ∧
        pl_placement_epoch p' < pl_placement_epoch p ∧
        e = CatalogEpochRegression key.1 key.2 (pl_placement_epoch p) (pl_placement_epoch p')
  end.
Proof.
  intros Hc' Hv. unfold install. cbn [cr_snapshot].
  rewrite (proj2 (Z.ltb_ge _ _)), (proj2 (Z.eqb_neq _ _)) by lia.
  destruct (try_for_each _ _) as [[]|e] eqn:Ht.
  - split; [done|]. split; [done|]. intros key p p' Hp Hp'.
    rewrite try_for_each_Ok, Forall_forall in Ht. specialize (Ht (key, p')).
    rewrite entries_by_elem_of in Ht. specialize (Ht Hp').
    pose proof (check_placement_cases c key p' (proj1 (proj2 (co_placement c' Hc' _ _ Hp')))) as Hcp.
    rewrite Ht in Hcp. by apply Hcp.
  - split; [done|]. apply try_for_each_Err in Ht as ([key p'] & Hin & He).
    apply entries_by_elem_of in Hin.
    pose proof (check_placement_cases c key p' (proj1 (proj2 (co_placement c' Hc' _ _ Hin)))) as Hcp.
    rewrite He in Hcp. destruct Hcp as (p & ? & ? & ->). by exists key, p, p'.
Qed.

(** A replica follows the catalog exactly as far as placement epochs grow: given a later state of
    the catalog it installs it when no placement's epoch fell, and otherwise refuses with the epochs
    that fell and stays as it was; it never goes back to an earlier version. *)
Theorem replica_follows_catalog (c c' : CatalogState) :
  catalog_reachable c → rtc catalog_step c c' → c ≠ c' →
  match install (mkReplica c) c' with
  | (Ok changed, r) =>
      changed = true ∧ r = mkReplica c' ∧
      ∀ key p p', ca_placements c !! key = Some p → ca_placements c' !! key = Some p' →
        pl_placement_epoch p ≤ pl_placement_epoch p'
  | (Err e, r) =>
      r = mkReplica c ∧
      ∃ key p p', ca_placements c !! key = Some p ∧ ca_placements c' !! key = Some p' ∧
        pl_placement_epoch p' < pl_placement_epoch p ∧
        e = CatalogEpochRegression key.1 key.2 (pl_placement_epoch p) (pl_placement_epoch p')
  end ∧
  install (mkReplica c) c = (Ok false, mkReplica c) ∧
  install (mkReplica c') c = (Err (CatalogRevisionRegression (ca_version c') (ca_version c)), mkReplica c').
Proof.
  intros Hc%catalog_reachable_ok Hr Hne. destruct (catalog_run _ _ Hc Hr) as (Hc' & _ & [|Hv]); [done|].
  split; [by apply install_later|]. unfold install. cbn [cr_snapshot]. split.
  - by rewrite Z.ltb_irrefl, Z.eqb_refl, bool_decide_eq_true_2.
  - by rewrite (proj2 (Z.ltb_lt _ _)) by lia.
Qed.

(** The catalog does not keep epochs from falling: a valid placement with the same generations and
    a lower epoch is accepted, and every replica of the catalog then refuses the new state. *)
Theorem catalog_accepts_epoch_regression (c : CatalogState) (p p' : ShardPlacement) :
  catalog_reachable c → ca_placements c !! placement_key p' = Some p → placement_ok p' →
  generation_classes p' = generation_classes p → pl_placement_epoch p' < pl_placement_epoch p →
  ca_version c + 1 < 2 ^ 64 →
  ∃ c', catalog_apply c (PutPlacement (ca_version c) p') = Ok c' ∧
    install (mkReplica c) c' =
      (Err (CatalogEpochRegression (pl_graph_id p') (pl_shard_id p') (pl_placement_epoch p)
              (pl_placement_epoch p')), mkReplica c).
Proof.
  intros Hc%catalog_reachable_ok Hp Hok Hgen Hep Hv.
  destruct (co_placement c Hc _ _ Hp) as (_ & _ & Hlin).
  destruct (extend_lineage_succeeds (entries (generation_classes p')) (lineage c (placement_key p')))
    as [l Hl]; [apply NoDup_keys| |].
  { intros g d e Hin%elem_of_entries He Hg. rewrite Hgen in Hin. apply Hlin in Hin.
    apply (entry_of_unique c (placement_key p') g); [done| |done]. unfold entry_of.
    destruct e; cbn in *; by subst. }
  eexists (mkCatalog (ca_version c + 1) _ _ _).
  assert (catalog_apply c (PutPlacement (ca_version c) p') =
    Ok (mkCatalog (ca_version c + 1) (<[placement_key p' := p']> (ca_placements c))
          (<[placement_key p' := sort_by lineage_leb l]> (ca_lineage c)) (ca_retention_pins c))) as Ha.
  { unfold catalog_apply. cbn [command_expected_version]. rewrite Z.eqb_refl. cbn [negb].
    unfold put_placement. rewrite (proj2 (placement_validate_Ok p') Hok), Hp. cbn.
    rewrite (proj2 (existsb_false _ _)), Hl; cbn; [by rewrite (proj2 (Z.ltb_lt _ _))|].
    apply Forall_forall. intros g Hg%elem_of_keys. rewrite Hgen.
    by rewrite bool_decide_eq_false_2 by (destruct Hg as [? Hg]; by rewrite Hg). }
  split; [exact Ha|]. destruct (catalog_apply_ok _ _ _ Hc Ha) as (Hc' & _).
  pose proof (install_later c _ Hc') as Hi. cbn [ca_version] in Hi. specialize (Hi ltac:(lia)).
  destruct (install _ _) as [[changed|e] r].
  - destruct Hi as (_ & _ & Hi). specialize (Hi (placement_key p') p p' Hp). cbn in Hi.
    rewrite lookup_insert_eq in Hi. specialize (Hi eq_refl). lia.
  - destruct Hi as (-> & key & q & q' & Hq & Hq' & Hlt & ->). cbn in Hq'.
    destruct (decide (placement_key p' = key)) as [<-|Hk].
    + rewrite lookup_insert_eq in Hq'. by simplify_eq.
    + rewrite lookup_insert_ne in Hq' by done. simplify_eq. lia.
Qed.

(** ** A concrete catalog *)

Definition example_class : BackendClass := Eval vm_compute in
  match BackendClass_new checksum32 Fjall 1 1 ["point"] with
  | Ok class => class
  | Err _ => mkBackendClass Fjall 0 0 DurableCommit (mkCapabilityManifest [] []) []
  end.

(** Replica [replica] of shard 1 in [generation] under [epoch]. *)
Definition example_record (epoch generation replica : Z) (role : BindingRole) : ReplicaBindingRecord :=
  mkBindingRecord
    (mkReplicaBinding 7 1 1 epoch replica generation (bc_digest example_class) Fjall 1 1
       (cm_digest (bc_required_capabilities example_class)) "namespace" "local" "env://ROOT" role)
    example_class.

Definition example_placement (epoch : Z) : ShardPlacement :=
  mkPlacement 1 1 epoch 2 example_class
    [example_record epoch 2 1 Active; example_record epoch 2 2 Candidate; example_record epoch 1 1 Retiring].

Definition example_catalog : CatalogState := Eval vm_compute in
  match catalog_apply CatalogState_new (PutPlacement 0 (example_placement 5)) with
  | Ok c => c
  | Err _ => CatalogState_new
  end.
Definition example_pinned : CatalogState := Eval vm_compute in
  match catalog_apply example_catalog (PinRetention 1 1 1 1 "backup") with
  | Ok c => c
  | Err _ => CatalogState_new
  end.

Lemma example_catalog_step : catalog_step CatalogState_new example_catalog.
Proof. exists (PutPlacement 0 (example_placement 5)). vm_compute. reflexivity. Qed.
Lemma example_pinned_step : catalog_step example_catalog example_pinned.
Proof. exists (PinRetention 1 1 1 1 "backup"). vm_compute. reflexivity. Qed.
Lemma example_catalog_reachable : catalog_reachable example_catalog.
Proof. apply rtc_once, example_catalog_step. Qed.
Lemma example_placement_ok epoch : placement_ok (example_placement epoch).
Proof.
  apply placement_validate_Ok. unfold placement_validate, example_placement.
  cbn -[example_class]. rewrite !Z.eqb_refl. reflexivity.
Qed.

Lemma catalog_invariant_witness : catalog_ok example_catalog.
Proof. exact (proj1 (catalog_invariant example_catalog example_catalog_reachable)). Defined.

Lemma replica_follows_catalog_witness :
  install (mkReplica example_pinned) example_catalog =
  (Err (CatalogRevisionRegression 2 1), mkReplica example_pinned).
Proof.
  refine (proj2 (proj2 (replica_follows_catalog example_catalog example_pinned
    example_catalog_reachable (rtc_once _ _ example_pinned_step) _))).
  intros H%(f_equal ca_version). discriminate H.
Defined.

Lemma catalog_accepts_epoch_regression_witness :
  ∃ c', catalog_apply example_catalog (PutPlacement 1 (example_placement 4)) = Ok c' ∧
    install (mkReplica example_catalog) c' =
      (Err (CatalogEpochRegression 1 1 5 4), mkReplica example_catalog).
Proof.
  apply (catalog_accepts_epoch_regression example_catalog (example_placement 5) (example_placement 4));
    [apply example_catalog_reachable|vm_compute; reflexivity|apply example_placement_ok
    |vm_compute; reflexivity|done|done].
Defined.
