(* ===== verification/Reconcile.v ===== *)
(** * Reconciliation ([dtg-control/src/reconcile.rs], [dtg-execution/src/controller.rs])

    From the catalog and what the data nodes report, the reconciler derives the actions that bring the
    replicas to their placement. *)

From S2P Require Import Prelude Text Kernel Encoding Storage Binding Control Catalog.
Open Scope Z_scope.

Inductive ReconcileAction :=
| Allocate (binding : ReplicaBinding)
| StartLearner (graph_id : GraphId) (shard_id : ShardId) (placement_epoch : PlacementEpoch)
    (backend_generation : BackendGeneration) (replica_id : ReplicaId)
| Promote (graph_id : GraphId) (shard_id : ShardId) (placement_epoch : PlacementEpoch)
    (backend_generation : BackendGeneration) (replica_id : ReplicaId)
| TransferLeader (graph_id : GraphId) (shard_id : ShardId) (placement_epoch : PlacementEpoch)
    (from to : ReplicaId)
| Seal (graph_id : GraphId) (shard_id : ShardId) (placement_epoch : PlacementEpoch)
    (backend_generation : BackendGeneration) (replica_id : ReplicaId)
| Migrate (graph_id : GraphId) (shard_id : ShardId) (placement_epoch : PlacementEpoch)
    (from_generation to_generation : BackendGeneration)
| DeleteNamespace (graph_id : GraphId) (shard_id : ShardId) (placement_epoch : PlacementEpoch)
    (backend_generation : BackendGeneration) (replica_id : ReplicaId) (namespace_id : string).

#[export] Instance ReconcileAction_eq_dec : EqDecision ReconcileAction.
Proof. solve_decision. Defined.

Abbreviation Observations := (gmap ObservationKey ObservedReplicaState) (only parsing).

(** The inner loop of [collect_observations]. *)
Fixpoint collect_replicas (version : Version) (replicas : list ObservedReplicaState)
    (observations : Observations) : result ControlError Observations :=
  match replicas with
  | [] => Ok observations
  | replica :: replicas =>
      if negb (or_catalog_version replica =? version)
      then Err (StaleObservation version (or_catalog_version replica))
      else if bool_decide (is_Some (observations !! observation_key replica))
      then Err (InvalidObservation "replica was reported by multiple nodes")
      else collect_replicas version replicas (<[observation_key replica := replica]> observations)
  end.

Fixpoint collect_nodes (version : Version) (observed_nodes : list ObservedNodeState)
    (observations : Observations) : result ControlError Observations :=
  match observed_nodes with
  | [] => Ok observations
  | node :: observed_nodes =>
      _ ← node_validate node;
      if negb (on_catalog_version node =? version)
      then Err (StaleObservation version (on_catalog_version node))
      else
        observations ← collect_replicas version (on_replicas node) observations;
        collect_nodes version observed_nodes observations
  end.

Definition collect_observations (catalog : CatalogState) (observed_nodes : list ObservedNodeState)
    : result ControlError Observations :=
  collect_nodes (ca_version catalog) observed_nodes ∅.

Definition is_retiring (record : ReplicaBindingRecord) : bool :=
  bool_decide (rb_role (br_binding record) = Retiring).

Section placement.
Context (catalog : CatalogState) (placement : ShardPlacement) (observations : Observations).

Definition observe (record : ReplicaBindingRecord) : option ObservedReplicaState :=
  observations !! key_for_binding (br_binding record).

(** [replicas.sort_by_key(..replica_key..)]. *)
Definition sorted_replicas : list ReplicaBindingRecord :=
  sort_by (λ a b, pair_leb (replica_key a) (replica_key b)) (pl_replicas placement).

(** An action on one replica of the placement. *)
Definition target_action {A} (action : Z → Z → Z → Z → Z → A) (record : ReplicaBindingRecord) : A :=
  action (pl_graph_id placement) (pl_shard_id placement) (pl_placement_epoch placement)
    (rb_backend_generation (br_binding record)) (rb_replica_id (br_binding record)).

(** The first loop. *)
Definition bring_up (record : ReplicaBindingRecord) : list ReconcileAction :=
  if is_retiring record then []
  else
    match observe record with
    | None => [Allocate (br_binding record)]
    | Some observation =>
        if bool_decide (or_lifecycle observation = Allocated) then [target_action StartLearner record]
        else if bool_decide (or_lifecycle observation = Learner) && or_caught_up observation
        then [target_action Promote record]
        else []
    end.

Definition is_active (record : ReplicaBindingRecord) : bool :=
  (rb_backend_generation (br_binding record) =? pl_active_generation placement)
  && negb (is_retiring record).

Definition voter_id (record : ReplicaBindingRecord) : option ReplicaId :=
  match observe record with
  | Some observation =>
      if bool_decide (or_lifecycle observation = Voter) then Some (rb_replica_id (or_binding observation))
      else None
  | None => None
  end.

(** [.min()]. *)
Definition minimum (l : list Z) : option Z :=
  match l with [] => None | x :: l => Some (foldl Z.min x l) end.

Definition active_voter : option ReplicaId :=
  minimum (omap voter_id (base.filter (λ record, is_active record = true) sorted_replicas)).

Definition transfer (to : ReplicaId) (record : ReplicaBindingRecord) : list ReconcileAction :=
  if negb (is_retiring record) then []
  else
    match observe record with
    | Some observation =>
        if is_leader observation
        then [TransferLeader (pl_graph_id placement) (pl_shard_id placement)
                (pl_placement_epoch placement) (rb_replica_id (br_binding record)) to]
        else []
    | None => []
    end.

Definition seal (record : ReplicaBindingRecord) : list ReconcileAction :=
  if negb (is_retiring record) then []
  else
    match observe record with
    | Some observation =>
        if negb (bool_decide (or_lifecycle observation = Sealed)) then [target_action Seal record] else []
    | None => []
    end.

Definition active_incomplete : bool :=
  existsb (λ record,
    match observe record with
    | None => true
    | Some observation => negb (bool_decide (or_lifecycle observation = Voter))
    end) (base.filter (λ record, is_active record = true) sorted_replicas).

Definition old_generation (record : ReplicaBindingRecord) : option BackendGeneration :=
  if negb (rb_backend_generation (br_binding record) =? pl_active_generation placement)
     && bool_decide (is_Some (observe record))
  then Some (rb_backend_generation (br_binding record))
  else None.

(** [.collect::<BTreeSet<_>>()], in ascending order. *)
Definition old_generations : list BackendGeneration :=
  sort_by Z.leb (elements (list_to_set (omap old_generation sorted_replicas) : gset Z)).

Definition migrate (from_generation : BackendGeneration) : ReconcileAction :=
  Migrate (pl_graph_id placement) (pl_shard_id placement) (pl_placement_epoch placement)
    from_generation (pl_active_generation placement).

Definition delete_namespace (record : ReplicaBindingRecord) : list ReconcileAction :=
  if negb (is_retiring record)
     || is_generation_pinned catalog (placement_key placement) (rb_backend_generation (br_binding record))
  then []
  else
    match observe record with
    | Some observation =>
        if bool_decide (or_lifecycle observation = Sealed)
        then [target_action DeleteNamespace record (rb_namespace_id (br_binding record))]
        else []
    | None => []
    end.

Definition reconcile_placement : list ReconcileAction :=
  concat (map bring_up sorted_replicas) ++
  match active_voter with Some to => concat (map (transfer to) sorted_replicas) | None => [] end ++
  concat (map seal sorted_replicas) ++
  (if active_incomplete then map migrate old_generations else []) ++
  concat (map delete_namespace sorted_replicas).
End placement.

Definition reconcile (catalog : CatalogState) (observed_nodes : list ObservedNodeState)
    : result ControlError (list ReconcileAction) :=
  observations ← collect_observations catalog observed_nodes;
  Ok (concat (map (λ placement, reconcile_placement catalog placement observations) (placements catalog))).

(** ** The controller ([controller.rs]) *)

Record ControllerExecution := mkController {
  ce_catalog : CatalogReplica;
  ce_observations : gmap string ObservedNodeState;
}.

(** [ControllerExecutionBuilder::build]; [None] is a missing or invalid catalog. *)
Definition controller_build (catalog : option CatalogState) : option ControllerExecution :=
  match catalog with
  | Some catalog =>
      match CatalogReplica_new catalog with
      | Ok replica => Some (mkController replica ∅)
      | Err _ => None
      end
  | None => None
  end.

Definition record_observation (self : ControllerExecution) (observation : ObservedNodeState)
    : result ControlError ControllerExecution :=
  _ ← node_validate observation;
  let version := ca_version (cr_snapshot (ce_catalog self)) in
  if negb (on_catalog_version observation =? version)
  then Err (StaleObservation version (on_catalog_version observation))
  else Ok (mkController (ce_catalog self)
             (<[on_node_id observation := observation]> (ce_observations self))).

(** [observations.values()] in key order. *)
Definition string_leb (s t : string) : bool :=
  match String.compare s t with Gt => false | _ => true end.
Definition observation_values (self : ControllerExecution) : list ObservedNodeState :=
  (entries_by string_leb (ce_observations self)).*2.

Definition controller_reconcile (self : ControllerExecution) : result ControlError (list ReconcileAction) :=
  reconcile (cr_snapshot (ce_catalog self)) (observation_values self).

Definition install_catalog (self : ControllerExecution) (catalog : CatalogState)
    : result ControlError bool * ControllerExecution :=
  match install (ce_catalog self) catalog with
  | (Ok changed, replica) =>
      (Ok changed, mkController replica (if changed then ∅ else ce_observations self))
  | (Err e, replica) => (Err e, mkController replica (ce_observations self))
  end.

(** ** Collecting observations *)

(** The nodes report that [o] is the replica [k]. *)
Definition reports (nodes : list ObservedNodeState) (k : ObservationKey) (o : ObservedReplicaState)
    : Prop :=
  ∃ node, node ∈ nodes ∧ o ∈ on_replicas node ∧ observation_key o = k.

Definition reported (nodes : list ObservedNodeState) : list ObservedReplicaState :=
  concat (map on_replicas nodes).

Lemma collect_replicas_Ok version replicas m m' :
  collect_replicas version replicas m = Ok m' ↔
  Forall (λ o, or_catalog_version o = version) replicas ∧ NoDup (map observation_key replicas) ∧
  (∀ o, o ∈ replicas → m !! observation_key o = None) ∧
  m' = foldl (λ m o, <[observation_key o := o]> m) m replicas.
Proof.
  revert m. induction replicas as [|o replicas IH]; intros m; cbn [collect_replicas map foldl].
  { split; [intros [= <-]|by intros (_ & _ & _ & ->)]. split; [constructor|]. split; [constructor|].
    split; [|done]. by intros ? ?%elem_of_nil. }
  destruct (Z.eqb_spec (or_catalog_version o) version) as [Hv|Hv]; cbn [negb].
  2: { split; [done|]. by intros ([? _]%Forall_cons & _). }
  case_bool_decide as Hm.
  { split; [done|]. intros (_ & _ & Hn & _). destruct Hm as [x Hx]. specialize (Hn o). rewrite Hx in Hn.
    by specialize (Hn ltac:(left)). }
  rewrite IH, Forall_cons, NoDup_cons. split.
  - intros (Hvs & Hnd & Hn & ->). split; [done|]. split; [split; [|done]|split; [|done]].
    + intros (o' & Ho' & Hin)%list_elem_of_fmap. specialize (Hn o' Hin).
      by rewrite Ho', lookup_insert_eq in Hn.
    + intros o' [->|Hin]%elem_of_cons; [by apply eq_None_not_Some|]. specialize (Hn o' Hin).
      by apply lookup_insert_None in Hn as [? _].
  - intros ([_ Hvs] & [Hni Hnd] & Hn & ->). split; [done|]. split; [done|]. split; [|done].
    intros o' Hin. apply lookup_insert_None. split; [apply Hn; by right|].
    intros Heq. apply Hni. rewrite Heq. by apply list_elem_of_fmap_2.
Qed.

Lemma collected_lookup (replicas : list ObservedReplicaState) (m : Observations) (k : ObservationKey)
    (o : ObservedReplicaState) :
  NoDup (map observation_key replicas) →
  foldl (λ m o, <[observation_key o := o]> m) m replicas !! k = Some o ↔
  (o ∈ replicas ∧ observation_key o = k) ∨
  (m !! k = Some o ∧ ∀ o', o' ∈ replicas → observation_key o' ≠ k).
Proof.
  revert m. induction replicas as [|o' replicas IH]; intros m Hnd; cbn [foldl].
  { split; [right; split; [done|]; by intros ? ?%elem_of_nil|].
    intros [[?%elem_of_nil _]|[? _]]; done. }
  cbn [map] in Hnd. apply NoDup_cons in Hnd as [Hni Hnd]. rewrite IH by done. setoid_rewrite elem_of_cons.
  destruct (decide (observation_key o' = k)) as [<-|Hk].
  - rewrite lookup_insert_eq. split.
    + intros [[? ?]|[[= ->] Hno]]; [left; by split; [right|]|]. left. by split; [left|].
    + intros [[[->|?] ?]|[_ Hno]]; [right; split; [done|]|by left|by destruct (Hno o' (or_introl eq_refl))].
      intros o'' Hin Heq. apply Hni. rewrite <-Heq. by apply list_elem_of_fmap_2.
  - rewrite lookup_insert_ne by done. split.
    + intros [[? ?]|[? Hno]]; [left; by split; [right|]|]. right. split; [done|].
      intros o'' [->|Hin]; [done|by apply Hno].
    + intros [[[->|?] ?]|[? Hno]]; [done|by left|]. right. split; [done|]. intros o'' Hin. apply Hno. by right.
Qed.

Lemma collect_replicas_app version l k m :
  collect_replicas version (l ++ k) m = (collect_replicas version l m ≫= collect_replicas version k).
Proof.
  revert m. induction l as [|o l IH]; intros m; cbn; [done|]. repeat case_match; [done..|]. apply IH.
Qed.

Lemma collect_nodes_eq version nodes m m' :
  collect_nodes version nodes m = Ok m' ↔
  Forall (λ n, node_validate n = Ok tt ∧ on_catalog_version n = version) nodes ∧
  collect_replicas version (reported nodes) m = Ok m'.
Proof.
  unfold reported. revert m. induction nodes as [|n nodes IH]; intros m; cbn [collect_nodes map concat].
  { split; [intros H; split; [constructor|done]|by intros [_ H]]. }
  rewrite Forall_cons, collect_replicas_app. destruct (node_validate n) as [[]|]; cbn; [|naive_solver].
  destruct (Z.eqb_spec (on_catalog_version n) version); cbn; [|naive_solver].
  destruct (collect_replicas version (on_replicas n) m) as [m1|]; cbn; [|naive_solver].
  rewrite IH. naive_solver.
Qed.

Lemma collect_observations_Ok catalog nodes observations :
  collect_observations catalog nodes = Ok observations →
  ∀ k o, observations !! k = Some o ↔ reports nodes k o.
Proof.
  unfold collect_observations. intros [_ (_ & Hnd & _ & ->)%collect_replicas_Ok]%collect_nodes_eq k o.
  rewrite collected_lookup by done. rewrite lookup_empty. unfold reports, reported.
  rewrite elem_of_concat_map. naive_solver.
Qed.

(** ** What reconciliation wants *)

Section wanted.
Context (catalog : CatalogState) (nodes : list ObservedNodeState) (p : ShardPlacement).
Implicit Types (r : ReplicaBindingRecord) (o : ObservedReplicaState).

(** Replica [r] of the placement is reported as [o]. *)
Definition seen r o : Prop := reports nodes (key_for_binding (br_binding r)) o.
Definition retiring r : Prop := rb_role (br_binding r) = Retiring.
Definition active r : Prop := rb_backend_generation (br_binding r) = pl_active_generation p ∧ ¬ retiring r.

(** [v] is a voter of the active generation. *)
Definition active_voters (v : ReplicaId) : Prop :=
  ∃ r o, r ∈ pl_replicas p ∧ active r ∧ seen r o ∧ or_lifecycle o = Voter ∧
    v = rb_replica_id (br_binding r).

Inductive wanted : ReconcileAction → Prop :=
| want_allocate r :
    r ∈ pl_replicas p → ¬ retiring r → (∀ o, ¬ seen r o) → wanted (Allocate (br_binding r))
| want_start r o :
    r ∈ pl_replicas p → ¬ retiring r → seen r o → or_lifecycle o = Allocated →
    wanted (target_action p StartLearner r)
| want_promote r o :
    r ∈ pl_replicas p → ¬ retiring r → seen r o → or_lifecycle o = Learner → or_caught_up o = true →
    wanted (target_action p Promote r)
| want_transfer r o v :
    r ∈ pl_replicas p → retiring r → seen r o →
    or_leader_id o = Some (rb_replica_id (br_binding r)) →
    active_voters v → (∀ v', active_voters v' → v ≤ v') →
    wanted (TransferLeader (pl_graph_id p) (pl_shard_id p) (pl_placement_epoch p)
              (rb_replica_id (br_binding r)) v)
| want_seal r o :
    r ∈ pl_replicas p → retiring r → seen r o → or_lifecycle o ≠ Sealed →
    wanted (target_action p Seal r)
| want_migrate r o r' :
    r ∈ pl_replicas p → rb_backend_generation (br_binding r) ≠ pl_active_generation p → seen r o →
    r' ∈ pl_replicas p → active r' → (∀ o', seen r' o' → or_lifecycle o' ≠ Voter) →
    wanted (migrate p (rb_backend_generation (br_binding r)))
| want_delete r o :
    r ∈ pl_replicas p → retiring r → seen r o → or_lifecycle o = Sealed →
    is_generation_pinned catalog (placement_key p) (rb_backend_generation (br_binding r)) = false →
    wanted (target_action p DeleteNamespace r (rb_namespace_id (br_binding r))).
End wanted.

Lemma minimum_Some l m : minimum l = Some m ↔ m ∈ l ∧ ∀ x, x ∈ l → m ≤ x.
Proof.
  assert (∀ l x, foldl Z.min x l ∈ x :: l ∧ ∀ y, y ∈ x :: l → foldl Z.min x l ≤ y) as Hfold.
  { clear l m. induction l as [|y l IH]; intros x; cbn.
    { split; [left|]. intros y ->%list_elem_of_singleton. lia. }
    destruct (IH (Z.min x y)) as [Hin Hle]. split.
    - apply elem_of_cons in Hin as [->|Hin]; [|by do 2 right].
      destruct (Z.min_spec x y) as [[_ ->]|[_ ->]]; [left|right; left].
    - intros z [->|[->|Hz]%elem_of_cons]%elem_of_cons.
      + specialize (Hle (Z.min x y) ltac:(left)). lia.
      + specialize (Hle (Z.min x y) ltac:(left)). lia.
      + apply Hle. by right. }
  destruct l as [|x l]; cbn.
  { split; [done|]. by intros [?%elem_of_nil _]. }
  destruct (Hfold l x) as [Hin Hle]. split; [by intros [= <-]|].
  intros [Hm Hmin]. f_equal. specialize (Hle m Hm). specialize (Hmin _ Hin). lia.
Qed.

Section exact.
Context (catalog : CatalogState) (nodes : list ObservedNodeState) (p : ShardPlacement).
Context (observations : Observations).
Hypothesis Hobs : ∀ k o, observations !! k = Some o ↔ reports nodes k o.
Implicit Types (r : ReplicaBindingRecord) (o : ObservedReplicaState).

Lemma observe_Some r o : observe observations r = Some o ↔ seen nodes r o.
Proof using Hobs. apply Hobs. Qed.
Lemma observe_None r : observe observations r = None ↔ ∀ o, ¬ seen nodes r o.
Proof using Hobs.
  rewrite eq_None_not_Some. unfold is_Some. setoid_rewrite observe_Some. naive_solver.
Qed.
Lemma elem_of_sorted r : r ∈ sorted_replicas p ↔ r ∈ pl_replicas p.
Proof using. unfold sorted_replicas. by rewrite sort_by_perm. Qed.
Lemma is_retiring_true r : is_retiring r = true ↔ retiring r.
Proof using. unfold is_retiring. by rewrite bool_decide_eq_true. Qed.
Lemma is_retiring_false r : is_retiring r = false ↔ ¬ retiring r.
Proof using. unfold is_retiring. by rewrite bool_decide_eq_false. Qed.
Lemma is_active_true r : is_active p r = true ↔ active p r.
Proof using.
  unfold is_active, active. by rewrite andb_true_iff, Z.eqb_eq, negb_true_iff, is_retiring_false.
Qed.

Lemma voter_id_Some r v :
  voter_id observations r = Some v ↔
  ∃ o, seen nodes r o ∧ or_lifecycle o = Voter ∧ v = rb_replica_id (br_binding r).
Proof using Hobs.
  unfold voter_id. destruct (observe observations r) as [o|] eqn:Ho.
  - apply observe_Some in Ho as Hs. case_bool_decide as Hl.
    + assert (rb_replica_id (or_binding o) = rb_replica_id (br_binding r)) as ->.
      { destruct Hs as (n & _ & _ & Hk). by injection Hk. }
      split; [intros [= <-]; by exists o|]. by intros (? & _ & _ & ->).
    + split; [done|]. intros (o' & Ho' & Hl' & _). apply observe_Some in Ho'. congruence.
  - rewrite observe_None in Ho. split; [done|]. by intros (o & ?%Ho & _).
Qed.

Lemma active_voter_Some v :
  active_voter p observations = Some v ↔
  active_voters nodes p v ∧ ∀ v', active_voters nodes p v' → v ≤ v'.
Proof using Hobs.
  assert (∀ w, w ∈ omap (voter_id observations) (base.filter (λ r, is_active p r = true) (sorted_replicas p))
               ↔ active_voters nodes p w) as Hw.
  { intros w. rewrite list_elem_of_omap. setoid_rewrite list_elem_of_filter.
    setoid_rewrite is_active_true. setoid_rewrite elem_of_sorted. setoid_rewrite voter_id_Some.
    unfold active_voters. naive_solver. }
  unfold active_voter. rewrite minimum_Some, Hw. by setoid_rewrite Hw.
Qed.

(** The phases of [reconcile_placement], one by one. *)
Lemma bring_up_elem a r :
  a ∈ bring_up p observations r ↔ ¬ retiring r ∧
  (((∀ o, ¬ seen nodes r o) ∧ a = Allocate (br_binding r)) ∨
   ∃ o, seen nodes r o ∧
     ((or_lifecycle o = Allocated ∧ a = target_action p StartLearner r) ∨
      (or_lifecycle o = Learner ∧ or_caught_up o = true ∧ a = target_action p Promote r))).
Proof using Hobs.
  unfold bring_up. destruct (is_retiring r) eqn:Hr.
  { apply is_retiring_true in Hr. rewrite elem_of_nil. naive_solver. }
  apply is_retiring_false in Hr. destruct (observe observations r) as [o|] eqn:Ho.
  - assert (∀ o', seen nodes r o' ↔ o' = o) as Hs.
    { intros o'. rewrite <-observe_Some, Ho. naive_solver. }
    assert ((∀ o', ¬ seen nodes r o') ↔ False) as -> by naive_solver.
    setoid_rewrite Hs. clear Ho Hs. case_bool_decide; [|case_bool_decide; [destruct (or_caught_up o) eqn:Hc|]];
      cbn; rewrite ?list_elem_of_singleton, ?elem_of_nil; (split; [naive_solver|]);
      intros (_ & [[[] _]|(? & -> & [[? ->]|(? & ? & ->)])]); congruence.
  - rewrite observe_None in Ho. rewrite list_elem_of_singleton. naive_solver.
Qed.

Lemma transfer_elem a v r :
  a ∈ transfer p observations v r ↔ retiring r ∧
  ∃ o, seen nodes r o ∧ or_leader_id o = Some (rb_replica_id (br_binding r)) ∧
    a = TransferLeader (pl_graph_id p) (pl_shard_id p) (pl_placement_epoch p)
          (rb_replica_id (br_binding r)) v.
Proof using Hobs.
  unfold transfer. destruct (is_retiring r) eqn:Hr; cbn [negb orb].
  2: { apply is_retiring_false in Hr. rewrite elem_of_nil. naive_solver. }
  apply is_retiring_true in Hr. destruct (observe observations r) as [o|] eqn:Ho.
  - assert (∀ o', seen nodes r o' ↔ o' = o) as Hs.
    { intros o'. rewrite <-observe_Some, Ho. naive_solver. }
    assert (rb_replica_id (or_binding o) = rb_replica_id (br_binding r)) as Hid.
    { apply observe_Some in Ho as (n & _ & _ & Hk). by injection Hk. }
    setoid_rewrite Hs. unfold is_leader. rewrite Hid.
    case_bool_decide; rewrite ?list_elem_of_singleton, ?elem_of_nil; naive_solver.
  - rewrite observe_None in Ho. rewrite elem_of_nil. naive_solver.
Qed.

Lemma seal_elem a r :
  a ∈ seal p observations r ↔ retiring r ∧
  ∃ o, seen nodes r o ∧ or_lifecycle o ≠ Sealed ∧ a = target_action p Seal r.
Proof using Hobs.
  unfold seal. destruct (is_retiring r) eqn:Hr; cbn [negb orb].
  2: { apply is_retiring_false in Hr. rewrite elem_of_nil. naive_solver. }
  apply is_retiring_true in Hr. destruct (observe observations r) as [o|] eqn:Ho.
  - assert (∀ o', seen nodes r o' ↔ o' = o) as Hs.
    { intros o'. rewrite <-observe_Some, Ho. naive_solver. }
    setoid_rewrite Hs. case_bool_decide; cbn; rewrite ?list_elem_of_singleton, ?elem_of_nil; naive_solver.
  - rewrite observe_None in Ho. rewrite elem_of_nil. naive_solver.
Qed.

Lemma delete_elem a r :
  a ∈ delete_namespace catalog p observations r ↔ retiring r ∧
  is_generation_pinned catalog (placement_key p) (rb_backend_generation (br_binding r)) = false ∧
  ∃ o, seen nodes r o ∧ or_lifecycle o = Sealed ∧
    a = target_action p DeleteNamespace r (rb_namespace_id (br_binding r)).
Proof using Hobs.
  unfold delete_namespace. destruct (is_retiring r) eqn:Hr; cbn [negb orb].
  2: { apply is_retiring_false in Hr. rewrite elem_of_nil. naive_solver. }
  apply is_retiring_true in Hr. destruct (is_generation_pinned _ _ _).
  { rewrite elem_of_nil. naive_solver. }
  destruct (observe observations r) as [o|] eqn:Ho.
  - assert (∀ o', seen nodes r o' ↔ o' = o) as Hs.
    { intros o'. rewrite <-observe_Some, Ho. naive_solver. }
    setoid_rewrite Hs. case_bool_decide; cbn; rewrite ?list_elem_of_singleton, ?elem_of_nil; naive_solver.
  - rewrite observe_None in Ho. rewrite elem_of_nil. naive_solver.
Qed.

Lemma active_incomplete_true :
  active_incomplete p observations = true ↔
  ∃ r, r ∈ pl_replicas p ∧ active p r ∧ ∀ o, seen nodes r o → or_lifecycle o ≠ Voter.
Proof using Hobs.
  unfold active_incomplete. rewrite existsb_exists. setoid_rewrite <-list_elem_of_In.
  setoid_rewrite list_elem_of_filter. setoid_rewrite is_active_true. setoid_rewrite elem_of_sorted.
  assert (∀ r, match observe observations r with
               | None => true
               | Some o => negb (bool_decide (or_lifecycle o = Voter))
               end = true ↔ ∀ o, seen nodes r o → or_lifecycle o ≠ Voter) as Hm.
  { intros r. destruct (observe observations r) as [o|] eqn:Ho.
    - rewrite negb_true_iff, bool_decide_eq_false. setoid_rewrite <-observe_Some. rewrite Ho. naive_solver.
    - rewrite observe_None in Ho. naive_solver. }
  setoid_rewrite Hm. naive_solver.
Qed.

Lemma old_generations_elem g :
  g ∈ old_generations p observations ↔
  ∃ r o, r ∈ pl_replicas p ∧ rb_backend_generation (br_binding r) ≠ pl_active_generation p ∧
    seen nodes r o ∧ g = rb_backend_generation (br_binding r).
Proof using Hobs.
  unfold old_generations. rewrite sort_by_perm, elem_of_elements, elem_of_list_to_set, list_elem_of_omap.
  setoid_rewrite elem_of_sorted. unfold old_generation. split.
  - intros (r & Hr & Hg). case_match eqn:Hc; simplify_eq. to_prop. destruct H0 as [o Ho].
    exists r, o. by rewrite <-observe_Some.
  - intros (r & o & Hr & Hg & Ho & ->). exists r. split; [done|]. apply observe_Some in Ho.
    by rewrite Ho, (proj2 (Z.eqb_neq _ _)), bool_decide_eq_true_2.
Qed.

Lemma reconcile_placement_exact a :
  a ∈ reconcile_placement catalog p observations ↔ wanted catalog nodes p a.
Proof using Hobs.
  unfold reconcile_placement. rewrite !elem_of_app, !elem_of_concat_map.
  setoid_rewrite elem_of_sorted. setoid_rewrite bring_up_elem. setoid_rewrite seal_elem.
  setoid_rewrite delete_elem. split.
  - intros [(r & ? & ? & [[? ->]|(o & ? & [[? ->]|(? & ? & ->)])])
           |[Ht|[(r & ? & ? & o & ? & ? & ->)|[Hm|(r & ? & ? & ? & o & ? & ? & ->)]]]];
      [by eauto using wanted..| |by eauto using wanted| |by eauto using wanted].
    + destruct (active_voter p observations) as [v|] eqn:Hv; [|by apply elem_of_nil in Ht].
      apply active_voter_Some in Hv as [? ?]. apply elem_of_concat_map in Ht as (r & Hr & Ht).
      rewrite elem_of_sorted in Hr. apply transfer_elem in Ht as (? & o & ? & ? & ->).
      by eauto using wanted.
    + destruct (active_incomplete p observations) eqn:Hi; [|by apply elem_of_nil in Hm].
      apply active_incomplete_true in Hi as (r' & ? & ? & ?).
      apply list_elem_of_fmap in Hm as (g & -> & (r & o & ? & ? & ? & ->)%old_generations_elem).
      by eauto using wanted.
  - intros [r|r o|r o|r o v Hr ? ? ? Hv Hmin|r o|r o r' Hr ? ? Hr' Ha Hv|r o].
    1-3: left; exists r; naive_solver.
    + right. left. rewrite (proj2 (active_voter_Some v) (conj Hv Hmin)).
      apply elem_of_concat_map. exists r. rewrite elem_of_sorted, transfer_elem. naive_solver.
    + right. right. left. exists r. naive_solver.
    + do 3 right. left. rewrite (proj2 active_incomplete_true); [|by exists r'].
      apply list_elem_of_fmap. eexists. split; [done|]. apply old_generations_elem. by exists r, o.
    + do 4 right. exists r. naive_solver.
Qed.
End exact.

(** ** Reconciliation of a whole catalog *)

Lemma elem_of_placements c p : p ∈ placements c ↔ ∃ key, ca_placements c !! key = Some p.
Proof.
  unfold placements. rewrite list_elem_of_fmap. split.
  - intros ([key q] & -> & Hin%entries_by_elem_of). by exists key.
  - intros [key Hp]. exists (key, p). by rewrite entries_by_elem_of.
Qed.

Lemma reconcile_elem c nodes actions a :
  reconcile c nodes = Ok actions →
  a ∈ actions ↔ ∃ key p, ca_placements c !! key = Some p ∧ wanted c nodes p a.
Proof.
  intros (observations & Ho & [= <-])%bind_Ok. pose proof (collect_observations_Ok _ _ _ Ho) as Hobs.
  rewrite elem_of_concat_map. setoid_rewrite elem_of_placements.
  setoid_rewrite (reconcile_placement_exact c nodes); [|exact Hobs]. naive_solver.
Qed.

(** Sealing and deleting concern a retiring replica of the placement; a namespace that is deleted
    belongs to a generation without pins. *)
Lemma wanted_destructive c nodes key p g s e generation replica a :
  catalog_ok c → ca_placements c !! key = Some p → wanted c nodes p a →
  a = Seal g s e generation replica ∨ (∃ n, a = DeleteNamespace g s e generation replica n) →
  key = (g, s) ∧ generation ≠ pl_active_generation p ∧
  ((∃ n, a = DeleteNamespace g s e generation replica n) → is_generation_pinned c key generation = false).
Proof.
  intros Hc Hp Hw Ha. destruct (co_placement c Hc _ _ Hp) as (-> & Hok & _).
  assert (∀ r, r ∈ pl_replicas p → retiring r →
    rb_backend_generation (br_binding r) ≠ pl_active_generation p) as Hret.
  { intros r Hr Hret. pose proof (po_records p Hok) as Hrec. rewrite Forall_forall in Hrec.
    by apply (Hrec r Hr). }
  unfold placement_key in *. destruct Hw; try naive_solver;
    unfold target_action in Ha; destruct Ha as [[= <- <- <- <- <-]|[n [= <- <- <- <- <- <-]]];
    (split; [done|]; split; [by apply Hret|]); intros [? [=]]; done.
Qed.

(** ** Runs of the controller *)

Inductive controller_step (self : ControllerExecution) : ControllerExecution → Prop :=
| step_observe observation self' :
    record_observation self observation = Ok self' → controller_step self self'
| step_install c r self' :
    catalog_reachable c → install_catalog self c = (r, self') → controller_step self self'.

Definition controller_reachable (self : ControllerExecution) : Prop :=
  ∃ c self0, catalog_reachable c ∧ controller_build (Some c) = Some self0 ∧ rtc controller_step self0 self.

Definition controller_ok (self : ControllerExecution) : Prop :=
  catalog_reachable (cr_snapshot (ce_catalog self)) ∧
  ∀ id n, ce_observations self !! id = Some n →
    node_validate n = Ok tt ∧ on_catalog_version n = ca_version (cr_snapshot (ce_catalog self)).

Lemma install_cases replica c :
  match install replica c with
  | (Ok true, r) => r = mkReplica c
  | (_, r) => r = replica
  end.
Proof. unfold install. repeat case_match; simplify_eq; done. Qed.

Lemma controller_reachable_ok self : controller_reachable self → controller_ok self.
Proof.
  intros (c & self0 & Hc & Hb & Hr). assert (controller_ok self0) as H0.
  { unfold controller_build, CatalogReplica_new in Hb.
    destruct (try_for_each _ _); simplify_eq/=. split; [done|]. intros id n. cbn. by rewrite lookup_empty. }
  clear Hb. induction Hr as [|x y z [o y' Ho|c' r y' Hc' Hi] _ IH]; [done|apply IH..]; destruct H0 as [H1 H2].
  - apply bind_Ok in Ho as ([] & Hv & Ho). cbv zeta in Ho. guard_in Ho as Hn. to_prop.
    injection Ho as <-. split; [done|]. intros id n. cbn.
    destruct (decide (on_node_id o = id)) as [<-|Hne].
    + rewrite lookup_insert_eq. by intros [= <-].
    + rewrite lookup_insert_ne by done. apply H2.
  - unfold install_catalog in Hi. pose proof (install_cases (ce_catalog x) c') as Hcase.
    destruct (install (ce_catalog x) c') as [[[]|e] replica]; injection Hi as <- <-; subst replica.
    + split; [done|]. intros id n. cbn. by rewrite lookup_empty.
    + by split.
    + by split.
Qed.

(** Valid observations of the current version fail to combine only by naming a replica twice. *)
Lemma collect_nodes_valid version nodes m :
  Forall (λ n, node_validate n = Ok tt ∧ on_catalog_version n = version) nodes →
  collect_nodes version nodes m = collect_replicas version (reported nodes) m.
Proof.
  unfold reported. intros Hn. revert m. induction Hn as [|n nodes [Hv Hver] _ IH]; intros m; [done|].
  cbn [collect_nodes map concat]. rewrite Hv, Hver, Z.eqb_refl, collect_replicas_app. cbn.
  destruct (collect_replicas _ _ _); cbn; [apply IH|done].
Qed.

Lemma validate_observations_versions self observed classes seen :
  validate_observations self observed classes seen = Ok tt →
  Forall (λ o, or_catalog_version o = on_catalog_version self) observed.
Proof.
  revert classes seen. induction observed as [|o observed IH]; intros classes seen H; [constructor|].
  cbn [validate_observations] in H. guard_in H as H1. guard_in H as H2. guard_in H as H3. guard_in H as H4.
  to_prop. constructor; [done|]. by eapply IH.
Qed.

Lemma collect_replicas_Err version replicas m e :
  Forall (λ o, or_catalog_version o = version) replicas →
  collect_replicas version replicas m = Err e →
  e = InvalidObservation "replica was reported by multiple nodes" ∧
  ¬ (NoDup (map observation_key replicas) ∧ ∀ o, o ∈ replicas → m !! observation_key o = None).
Proof.
  intros Hv He. split.
  - revert m He. induction Hv as [|o replicas Ho _ IH]; intros m; cbn [collect_replicas]; [done|].
    rewrite Ho, Z.eqb_refl. cbn [negb]. case_bool_decide; [by intros [= <-]|apply IH].
  - intros [Hnd Hm]. destruct (collect_replicas_Ok version replicas m
      (foldl (λ m o, <[observation_key o := o]> m) m replicas)) as [_ H].
    rewrite H in He; done.
Qed.

(** ** Theorem *)

(** C21. The controller reconciles exactly what the catalog wants: after any observations and catalog
    installations, reconciliation fails only when two reports name the same replica, and otherwise
    returns precisely the actions the placements and the reports call for.  It never seals or deletes
    a replica of an active generation, and deletes no namespace of a pinned generation. *)
Theorem controller_reconciles_exactly (self : ControllerExecution) :
  controller_reachable self →
  let c := cr_snapshot (ce_catalog self) in
  let nodes := observation_values self in
  match controller_reconcile self with
  | Ok actions =>
      (∀ a, a ∈ actions ↔ ∃ key p, ca_placements c !! key = Some p ∧ wanted c nodes p a) ∧
      (∀ g s e generation replica p, ca_placements c !! (g, s) = Some p →
         Seal g s e generation replica ∈ actions ∨
         (∃ n, DeleteNamespace g s e generation replica n ∈ actions) →
         generation ≠ pl_active_generation p) ∧
      (∀ g s e generation replica n, DeleteNamespace g s e generation replica n ∈ actions →
         is_generation_pinned c (g, s) generation = false)
  | Err e =>
      e = InvalidObservation "replica was reported by multiple nodes" ∧
      ¬ NoDup (map observation_key (reported nodes))
  end.
Proof.
  intros [Hc Hobs]%controller_reachable_ok c nodes. apply catalog_reachable_ok in Hc.
  assert (Forall (λ n, node_validate n = Ok tt ∧ on_catalog_version n = ca_version c) nodes) as Hn.
  { apply Forall_forall. intros n ([id n'] & -> & Hin%entries_by_elem_of)%list_elem_of_fmap.
    by apply (Hobs id). }
  unfold controller_reconcile. fold c nodes. destruct (reconcile c nodes) as [actions|e] eqn:Hr.
  - pose proof (λ a, reconcile_elem c nodes actions a Hr) as Ha. split; [done|]. split.
    + intros g s e generation replica p Hp Hin.
      assert (∃ a, a ∈ actions ∧ (a = Seal g s e generation replica ∨
        ∃ n, a = DeleteNamespace g s e generation replica n)) as (a & Hina & Hshape) by naive_solver.
      apply Ha in Hina as (key & q & Hq & Hw).
      destruct (wanted_destructive _ _ _ _ _ _ _ _ _ _ Hc Hq Hw Hshape) as (-> & ? & _).
      by simplify_eq.
    + intros g s e generation replica n (key & q & Hq & Hw)%Ha.
      destruct (wanted_destructive _ _ _ _ g s e generation replica _ Hc Hq Hw) as (-> & _ & Hpin);
        naive_solver.
  - apply bind_Err in Hr as [Hr|(? & _ & ?)]; [|done].
    unfold collect_observations in Hr. rewrite collect_nodes_valid in Hr by done.
    apply collect_replicas_Err in Hr as [-> Hdup].
    + split; [done|]. intros Hnd. apply Hdup. split; [done|]. intros o _. apply lookup_empty.
    + apply Forall_forall. intros o (n & Hin & Ho)%elem_of_concat_map.
      rewrite Forall_forall in Hn. destruct (Hn n Hin) as [Hv Hver].
      apply validate_observations_versions in Hv. rewrite Forall_forall in Hv. by rewrite (Hv o Ho).
Qed.

(** ** A concrete controller *)

Definition example_observation (record : ReplicaBindingRecord) (lifecycle : ObservedReplicaLifecycle)
    (leader : bool) : ObservedReplicaState :=
  with_leader leader
    (mkObservedReplica "node-1" 1 (br_binding record) (bc_digest example_class) lifecycle 0 None None true).

(** Replica 1 of the active generation votes, replica 2 is a learner that caught up, and the old
    generation is sealed. *)
Definition example_node : ObservedNodeState :=
  mkObservedNode "node-1" 1
    [example_observation (example_record 5 2 1 Active) Voter true;
     example_observation (example_record 5 2 2 Candidate) Learner false;
     example_observation (example_record 5 1 1 Retiring) Sealed false].

Definition example_controller : ControllerExecution :=
  mkController (mkReplica example_catalog) {["node-1" := example_node]}.

Lemma example_controller_reachable : controller_reachable example_controller.
Proof.
  exists example_catalog, (mkController (mkReplica example_catalog) ∅).
  split; [apply example_catalog_reachable|]. split; [vm_compute; reflexivity|].
  apply rtc_once, (step_observe _ example_node). vm_compute. reflexivity.
Qed.

Lemma controller_reconciles_exactly_witness :
  controller_reconcile example_controller =
    Ok [Promote 1 1 5 2 2; Migrate 1 1 5 1 2; DeleteNamespace 1 1 5 1 1 "namespace"] ∧
  is_generation_pinned example_catalog (1, 1) 1 = false.
Proof.
  assert (controller_reconcile example_controller =
    Ok [Promote 1 1 5 2 2; Migrate 1 1 5 1 2; DeleteNamespace 1 1 5 1 1 "namespace"]) as Hr
    by (vm_compute; reflexivity).
  split; [exact Hr|].
  pose proof (controller_reconciles_exactly example_controller example_controller_reachable) as H.
  cbv zeta in H. rewrite Hr in H. destruct H as (_ & _ & H).
  apply (H 1 1 5 1 1 "namespace"). right. right. left.
Defined.
