(* ===== verification/ActionLedger.v ===== *)
(** * The ledger of control actions ([dtg-control/src/action.rs])

    Reconciliation actions are queued in a replicated ledger, claimed by workers under leases, and
    completed or failed by the holder of the lease.  The file models the commands with their codec,
    the identity of an action, the ledger, and the execution of a claimed action by the controller
    ([dtg-execution/src/controller.rs]). *)

From S2P Require Import Prelude Text Kernel Encoding Storage Binding Control Catalog Reconcile.
Open Scope Z_scope.

Definition ACTION_COMMAND_FORMAT_VERSION : Z := 1.

Abbreviation ActionId := (list Z) (only parsing).

Record ActionLease := mkActionLease { al_epoch : Z; al_expires_at : Z }.
Record ActionFailure := mkActionFailure { af_message : string; af_retryable : bool }.

Inductive ActionState :=
| ActionPending (attempt : Z)
| ActionClaimed (attempt : Z) (worker : string) (lease : ActionLease)
| ActionCompleted (attempt : Z) (lease : ActionLease)
| ActionFailed (attempt : Z) (failure : ActionFailure).

Record ActionRecord := mkActionRecord {
  ac_action_id : ActionId;
  ac_catalog_version : Version;
  ac_action : ReconcileAction;
  ac_state : ActionState;
}.

Inductive ActionCommand :=
| CmdEnqueue (catalog_version : Version) (action : ReconcileAction)
| CmdClaim (action_id : ActionId) (worker : string) (now lease_duration : Z)
| CmdComplete (action_id : ActionId) (lease : ActionLease)
| CmdFail (action_id : ActionId) (lease : ActionLease) (failure : ActionFailure).

#[export] Instance ActionLease_eq_dec : EqDecision ActionLease.
Proof. solve_decision. Defined.
#[export] Instance ActionFailure_eq_dec : EqDecision ActionFailure.
Proof. solve_decision. Defined.
#[export] Instance ActionState_eq_dec : EqDecision ActionState.
Proof. solve_decision. Defined.
#[export] Instance ActionRecord_eq_dec : EqDecision ActionRecord.
Proof. solve_decision. Defined.

(** ** Encoding *)

(** The bytes [put_string] appends. *)
Definition put_text (value : string) : result ControlError bytes :=
  let n := Z.of_nat (String.length value) in
  if n <? 2 ^ 32 then Ok (be_bytes 4 n ++ as_bytes value) else Err (InvalidAction "string too large").

Definition encode_lease (lease : ActionLease) : bytes :=
  be_bytes 8 (al_epoch lease) ++ be_bytes 8 (al_expires_at lease).

Definition encode_target (graph shard epoch generation replica : Z) : bytes :=
  be_bytes 8 graph ++ be_bytes 8 shard ++ be_bytes 8 epoch ++ be_bytes 8 generation ++ be_bytes 8 replica.

Definition encode_provider (kind : ProviderKind) : result ControlError bytes :=
  match kind with
  | Fjall => Ok [1]
  | PostgreSql => Ok [2]
  | Kuzu => Ok [3]
  | Remote name => bs ← put_text name; Ok (4 :: bs)
  end.

Definition encode_binding (binding : ReplicaBinding) : result ControlError bytes :=
  provider ← encode_provider (rb_provider_kind binding);
  namespace ← put_text (rb_namespace_id binding);
  endpoint ← put_text (rb_endpoint_profile_ref binding);
  credential ← put_text (rb_credential_ref binding);
  Ok (be_bytes 8 (rb_cluster_id binding) ++ be_bytes 8 (rb_graph_id binding) ++
      be_bytes 8 (rb_shard_id binding) ++ be_bytes 8 (rb_placement_epoch binding) ++
      be_bytes 8 (rb_replica_id binding) ++ be_bytes 8 (rb_backend_generation binding) ++
      rb_backend_class_digest binding ++ provider ++ be_bytes 4 (rb_contract_version binding) ++
      be_bytes 4 (rb_layout_version binding) ++ rb_capability_digest binding ++ namespace ++
      endpoint ++ credential ++ [role_tag (rb_role binding)]).

Definition encode_reconcile_action (action : ReconcileAction) : result ControlError bytes :=
  match action with
  | Allocate binding => bs ← encode_binding binding; Ok (1 :: bs)
  | StartLearner g s e generation r => Ok (2 :: encode_target g s e generation r)
  | Promote g s e generation r => Ok (3 :: encode_target g s e generation r)
  | TransferLeader g s e from to => Ok (4 :: encode_target g s e from to)
  | Seal g s e generation r => Ok (5 :: encode_target g s e generation r)
  | Migrate g s e from_generation to_generation =>
      Ok (6 :: encode_target g s e from_generation to_generation)
  | DeleteNamespace g s e generation r namespace_id =>
      bs ← put_text namespace_id; Ok (7 :: encode_target g s e generation r ++ bs)
  end.

Definition action_encode_current (self : ActionCommand) : result ControlError bytes :=
  body ← match self with
         | CmdEnqueue catalog_version action =>
             bs ← encode_reconcile_action action; Ok (1 :: be_bytes 8 catalog_version ++ bs)
         | CmdClaim action_id worker now lease_duration =>
             bs ← put_text worker;
             Ok (2 :: action_id ++ bs ++ be_bytes 8 now ++ be_bytes 8 lease_duration)
         | CmdComplete action_id lease => Ok (3 :: action_id ++ encode_lease lease)
         | CmdFail action_id lease failure =>
             bs ← put_text (af_message failure);
             Ok (4 :: action_id ++ encode_lease lease ++ (if af_retryable failure then 1 else 0) :: bs)
         end;
  Ok (be_bytes 4 ACTION_COMMAND_FORMAT_VERSION ++ body).

(** ** Decoding *)

(** A method of [Input]: it reads from the bytes behind the offset. *)
Definition input (A : Type) : Type := bytes → result ControlError (A * bytes).
#[export] Instance input_ret : MRet input := λ A a bs, Ok (a, bs).
#[export] Instance input_bind : MBind input := λ A B k m bs,
  match m bs with Ok (a, bs) => k a bs | Err e => Err e end.

(** [?] on a result that does not read. *)
Definition ilift {A} (m : result ControlError A) : input A :=
  λ bs, match m with Ok a => Ok (a, bs) | Err e => Err e end.
Definition ifail {A} (reason : string) : input A := λ _, Err (InvalidAction reason).

Definition input_take (len : Z) : input bytes := λ bs,
  if Z.of_nat (length bs) <? len then Err (InvalidAction "truncated action command")
  else Ok (take (Z.to_nat len) bs, drop (Z.to_nat len) bs).

Definition input_byte : input Z := bs ← input_take 1; mret (be_value bs).
Definition input_u32 : input Z := bs ← input_take 4; mret (be_value bs).
Definition input_u64 : input Z := bs ← input_take 8; mret (be_value bs).
Definition input_array32 : input (list Z) := input_take 32.
Definition input_string : input string :=
  len ← input_u32;
  bs ← input_take len;
  if utf8_valid bs then mret (string_of_bytes bs) else ifail "invalid UTF-8".
Definition input_lease : input ActionLease :=
  epoch ← input_u64; expires_at ← input_u64; mret (mkActionLease epoch expires_at).

(** [graph_id], [shard_id], [placement_epoch], [generation] and [replica_id]. *)
Definition input_id (reason : string) : input Z :=
  value ← input_u64;
  ilift (map_err (λ _, InvalidAction reason) (nonzero_u64_identifier value)).
Definition input_graph : input Z := input_id "invalid graph ID".
Definition input_shard : input Z := input_id "invalid shard ID".
Definition input_epoch : input Z := input_id "invalid placement epoch".
Definition input_generation : input Z := input_id "invalid generation".
Definition input_replica : input Z := input_id "invalid replica ID".

(** [decode_target], for the action it is decoded for. *)
Definition decode_target {A} (action : Z → Z → Z → Z → Z → A) : input A :=
  g ← input_graph; s ← input_shard; e ← input_epoch; generation ← input_generation;
  r ← input_replica;
  mret (action g s e generation r).

Definition decode_provider : input ProviderKind :=
  tag ← input_byte;
  if tag =? 1 then mret Fjall
  else if tag =? 2 then mret PostgreSql
  else if tag =? 3 then mret Kuzu
  else if tag =? 4 then name ← input_string; mret (Remote name)
  else ifail "invalid provider".

Definition decode_role : input BindingRole :=
  tag ← input_byte;
  if tag =? 1 then mret Candidate
  else if tag =? 2 then mret Active
  else if tag =? 3 then mret Retiring
  else ifail "invalid binding role".

Definition decode_binding : input ReplicaBinding :=
  cluster ← input_u64; graph ← input_u64; shard ← input_u64; epoch ← input_u64;
  replica ← input_u64; generation ← input_u64;
  backend_class_digest ← input_array32;
  provider ← decode_provider;
  contract ← input_u32; layout ← input_u32;
  capability_digest ← input_array32;
  namespace ← input_string; endpoint ← input_string; credential ← input_string;
  role ← decode_role;
  ilift (map_err (λ _, InvalidAction "invalid replica binding")
    (build (mkBindingBuilder cluster graph shard epoch replica generation (Some backend_class_digest)
              (Some provider) contract layout (Some capability_digest) (Some namespace)
              (Some endpoint) (Some credential) (Some role)))).

Definition decode_reconcile_action : input ReconcileAction :=
  tag ← input_byte;
  if tag =? 1 then binding ← decode_binding; mret (Allocate binding)
  else if tag =? 2 then decode_target StartLearner
  else if tag =? 3 then decode_target Promote
  else if tag =? 5 then decode_target Seal
  else if tag =? 4 then
    g ← input_graph; s ← input_shard; e ← input_epoch; from ← input_replica; to ← input_replica;
    mret (TransferLeader g s e from to)
  else if tag =? 6 then
    g ← input_graph; s ← input_shard; e ← input_epoch; from_generation ← input_generation;
    to_generation ← input_generation;
    mret (Migrate g s e from_generation to_generation)
  else if tag =? 7 then
    action ← decode_target DeleteNamespace;
    namespace ← input_string;
    namespace ← ilift (map_err (λ _, InvalidAction "invalid namespace") (NamespaceId_new namespace));
    mret (action namespace)
  else ifail "unknown reconcile action tag".

Definition decode_failure : input ActionFailure :=
  flag ← input_byte;
  retryable ← (if flag =? 0 then mret false else if flag =? 1 then mret true
               else ifail "invalid failure retry flag");
  message ← input_string;
  mret (mkActionFailure message retryable).

Definition decode_action_command : input ActionCommand :=
  tag ← input_byte;
  if tag =? 1 then version ← input_u64; action ← decode_reconcile_action; mret (CmdEnqueue version action)
  else if tag =? 2 then
    id ← input_array32; worker ← input_string; now ← input_u64; duration ← input_u64;
    mret (CmdClaim id worker now duration)
  else if tag =? 3 then id ← input_array32; lease ← input_lease; mret (CmdComplete id lease)
  else if tag =? 4 then
    id ← input_array32; lease ← input_lease; failure ← decode_failure; mret (CmdFail id lease failure)
  else ifail "unknown action command tag".

Definition action_decode (bs : bytes) : result ControlError ActionCommand :=
  match input_u32 bs with
  | Err e => Err e
  | Ok (version, bs) =>
      if negb (version =? ACTION_COMMAND_FORMAT_VERSION)
      then Err (InvalidAction "unsupported action command format version")
      else
        match decode_action_command bs with
        | Err e => Err e
        | Ok (command, bs) =>
            if negb (bool_decide (bs = [])) then Err (InvalidAction "action command contains trailing bytes")
            else Ok command
        end
  end.

(** ** Identity *)

(** The bytes [encode_action] hashes, given the identity digest of an allocated binding. *)
Definition action_bytes (action : ReconcileAction) (identity : Digest32) : bytes :=
  match action with
  | Allocate _ => 1 :: identity
  | StartLearner g s e generation r => 2 :: encode_target g s e generation r
  | Promote g s e generation r => 3 :: encode_target g s e generation r
  | TransferLeader g s e from to => 4 :: encode_target g s e from to
  | Seal g s e generation r => 5 :: encode_target g s e generation r
  | Migrate g s e from_generation to_generation =>
      6 :: encode_target g s e from_generation to_generation
  | DeleteNamespace g s e generation r namespace_id =>
      7 :: encode_target g s e generation r ++ encode_string namespace_id
  end.

Section ledger.
Context (blake3 : bytes → Digest32).

(** [None] is the panic of [identity_digest]. *)
Definition action_id (catalog_version : Version) (action : ReconcileAction) : option ActionId :=
  identity ← match action with
             | Allocate binding => identity_digest blake3 binding
             | _ => Some []
             end;
  Some (blake3 (as_bytes "dtg-control-action-v1" ++ be_bytes 8 catalog_version ++
                action_bytes action identity)).

(** ** The ledger *)

Abbreviation ControlActionLedger := (gmap ActionId ActionRecord) (only parsing).

Definition with_state (state : ActionState) (record : ActionRecord) : ActionRecord :=
  mkActionRecord (ac_action_id record) (ac_catalog_version record) (ac_action record) state.

(** The state a claim gives to a record that is not completed. *)
Definition claim_state (state : ActionState) (worker : string) (now lease_duration : Z)
    : result ControlError ActionState :=
  prior_attempt ←
    match state with
    | ActionPending attempt => Ok attempt
    | ActionClaimed attempt _ lease =>
        if al_expires_at lease <? now then Ok attempt
        else Err (InvalidAction "action lease is still active")
    | ActionCompleted _ _ => Err ControlPanic
    | ActionFailed _ _ => Err (InvalidAction "terminal action cannot be claimed")
    end;
  if prior_attempt + 1 <? 2 ^ 32 then
    if now + lease_duration <? 2 ^ 64
    then Ok (ActionClaimed (prior_attempt + 1) worker
               (mkActionLease (prior_attempt + 1) (now + lease_duration)))
    else Err (InvalidAction "action lease overflow")
  else Err (InvalidAction "action attempt overflow").

Definition ledger_enqueue (self : ControlActionLedger) (catalog_version : Version)
    (action : ReconcileAction) : result ControlError ActionRecord * ControlActionLedger :=
  match action_id catalog_version action with
  | None => (Err ControlPanic, self)
  | Some id =>
      match self !! id with
      | Some record => (Ok record, self)
      | None =>
          let record := mkActionRecord id catalog_version action (ActionPending 0) in
          (Ok record, <[id := record]> self)
      end
  end.

Definition ledger_claim (self : ControlActionLedger) (id : ActionId) (worker : string)
    (now lease_duration : Z) : result ControlError ActionRecord * ControlActionLedger :=
  if is_blank worker || (lease_duration =? 0)
  then (Err (InvalidAction "claim worker and lease duration must be nonempty"), self)
  else
    match self !! id with
    | None => (Err UnknownAction, self)
    | Some record =>
        match ac_state record with
        | ActionCompleted _ _ => (Ok record, self)
        | state =>
            match claim_state state worker now lease_duration with
            | Err e => (Err e, self)
            | Ok state => (Ok (with_state state record), <[id := with_state state record]> self)
            end
        end
    end.

Definition ledger_complete (self : ControlActionLedger) (id : ActionId) (lease : ActionLease)
    : result ControlError ActionRecord * ControlActionLedger :=
  match self !! id with
  | None => (Err UnknownAction, self)
  | Some record =>
      match ac_state record with
      | ActionClaimed attempt _ active =>
          if bool_decide (active = lease)
          then let record := with_state (ActionCompleted attempt lease) record in
               (Ok record, <[id := record]> self)
          else (Err StaleActionLease, self)
      | ActionCompleted _ active =>
          if bool_decide (active = lease) then (Ok record, self) else (Err StaleActionLease, self)
      | _ => (Err StaleActionLease, self)
      end
  end.

Definition ledger_fail (self : ControlActionLedger) (id : ActionId) (lease : ActionLease)
    (failure : ActionFailure) : result ControlError ActionRecord * ControlActionLedger :=
  match self !! id with
  | None => (Err UnknownAction, self)
  | Some record =>
      match ac_state record with
      | ActionClaimed attempt _ active =>
          if bool_decide (active = lease)
          then let record := with_state (if af_retryable failure then ActionPending attempt
                                         else ActionFailed attempt failure) record in
               (Ok record, <[id := record]> self)
          else (Err StaleActionLease, self)
      | _ => (Err StaleActionLease, self)
      end
  end.

Definition ledger_apply (self : ControlActionLedger) (command : ActionCommand)
    : result ControlError ActionRecord * ControlActionLedger :=
  match command with
  | CmdEnqueue catalog_version action => ledger_enqueue self catalog_version action
  | CmdClaim id worker now lease_duration => ledger_claim self id worker now lease_duration
  | CmdComplete id lease => ledger_complete self id lease
  | CmdFail id lease failure => ledger_fail self id lease failure
  end.

(** [ControllerExecution::execute_claimed_action] with the executor's [execute]. *)
Definition execute_claimed_action (execute : ReconcileAction → result ActionFailure unit)
    (record : ActionRecord) : result ControlError ActionCommand :=
  match ac_state record with
  | ActionClaimed _ _ lease =>
      Ok (match execute (ac_action record) with
          | Ok _ => CmdComplete (ac_action_id record) lease
          | Err failure => CmdFail (ac_action_id record) lease failure
          end)
  | _ => Err (InvalidAction "Controller may execute only a Meta-claimed action")
  end.
End ledger.

(** ** Well-formed commands *)

Definition action_wf (action : ReconcileAction) : Prop :=
  match action with
  | Allocate binding => binding_wf binding
  | StartLearner g s e x y | Promote g s e x y | Seal g s e x y | TransferLeader g s e x y
  | Migrate g s e x y => Forall id_wf [g; s; e; x; y]
  | DeleteNamespace g s e x y n => Forall id_wf [g; s; e; x; y] ∧ namespace_wf n
  end.
Definition lease_wf (lease : ActionLease) : Prop := in_u64 (al_epoch lease) ∧ in_u64 (al_expires_at lease).
Definition command_wf (command : ActionCommand) : Prop :=
  match command with
  | CmdEnqueue version action => in_u64 version ∧ action_wf action
  | CmdClaim id worker now duration => digest_wf id ∧ str_ok worker ∧ in_u64 now ∧ in_u64 duration
  | CmdComplete id lease => digest_wf id ∧ lease_wf lease
  | CmdFail id lease failure => digest_wf id ∧ lease_wf lease ∧ str_ok (af_message failure)
  end.

(** ** The codec *)

(** [m] reads exactly [bs] and answers [a]. *)
Definition reads {A} (m : input A) (bs : bytes) (a : A) : Prop := ∀ rest, m (bs ++ rest) = Ok (a, rest).

Lemma input_reads_ret {A} (a : A) : reads (mret a) [] a.
Proof. by intros rest. Qed.
Lemma input_reads_bind {A B} (m : input A) (k : A → input B) bs cs a b :
  reads m bs a → reads (k a) cs b → reads (m ≫= k) (bs ++ cs) b.
Proof. intros Hm Hk rest. rewrite <-app_assoc. unfold mbind, input_bind. rewrite Hm. apply Hk. Qed.
Lemma input_reads_last {A B} (m : input A) (f : A → B) bs a : reads m bs a → reads (x ← m; mret (f x)) bs (f a).
Proof. intros Hm. rewrite <-(app_nil_r bs). by eapply input_reads_bind; [|apply input_reads_ret]. Qed.
Lemma reads_ilift {A} (a : A) : reads (ilift (Ok a)) [] a.
Proof. by intros rest. Qed.

Lemma reads_take n bs : Z.of_nat (length bs) = n → reads (input_take n) bs bs.
Proof.
  intros <- rest. unfold input_take. rewrite length_app, (proj2 (Z.ltb_ge _ _)) by lia.
  by rewrite Nat2Z.id, take_app_length, drop_app_length.
Qed.
Lemma reads_byte b : byte_ok b → reads input_byte [b] b.
Proof.
  intros Hb. assert (be_value [b] = b) as Hv by (unfold be_value; cbn; lia).
  rewrite <-Hv at 2.
  apply (input_reads_last (input_take 1) be_value). by apply reads_take.
Qed.
Lemma reads_u32 n : in_u32 n → reads input_u32 (be_bytes 4 n) n.
Proof.
  intros Hn. replace n with (be_value (be_bytes 4 n)) at 2
    by (rewrite be_value_be_bytes; apply Z.mod_small, Hn).
  apply (input_reads_last (input_take 4) be_value). apply reads_take. by rewrite length_be_bytes.
Qed.
Lemma reads_u64 n : in_u64 n → reads input_u64 (be_bytes 8 n) n.
Proof.
  intros Hn. replace n with (be_value (be_bytes 8 n)) at 2
    by (rewrite be_value_be_bytes; apply Z.mod_small, Hn).
  apply (input_reads_last (input_take 8) be_value). apply reads_take. by rewrite length_be_bytes.
Qed.
Lemma reads_array32 d : digest_wf d → reads input_array32 d d.
Proof. intros [Hd _]. apply reads_take. by rewrite Hd. Qed.
Lemma reads_id reason n : id_wf n → reads (input_id reason) (be_bytes 8 n) n.
Proof.
  intros [Hn H0]. rewrite <-(app_nil_r (be_bytes 8 n)). eapply input_reads_bind; [by apply reads_u64|].
  unfold nonzero_u64_identifier. rewrite (proj2 (Z.eqb_neq _ _) H0). apply reads_ilift.
Qed.
Lemma reads_text s bs : str_ok s → put_text s = Ok bs → reads input_string bs s.
Proof.
  intros Hs Hp. unfold put_text in Hp. guard_in Hp as Hlen. to_prop. apply (inj Ok) in Hp as <-.
  unfold input_string.
  eapply input_reads_bind; [apply reads_u32; unfold in_u32; lia|].
  rewrite <-(app_nil_r (as_bytes s)).
  eapply input_reads_bind; [apply reads_take; by rewrite length_as_bytes|].
  unfold str_ok in Hs. rewrite Hs, string_of_as_bytes. apply input_reads_ret.
Qed.
Lemma reads_lease lease : lease_wf lease → reads input_lease (encode_lease lease) lease.
Proof.
  intros [? ?]. eapply input_reads_bind; [by apply reads_u64|].
  destruct lease as [e x]. by apply (input_reads_last input_u64 (mkActionLease e)), reads_u64.
Qed.

Create HintDb reads.
#[export] Hint Resolve reads_u32 reads_u64 reads_array32 reads_id reads_text reads_lease : reads.

(** Read the next field of a sequence of fields. *)
Ltac read_field := eapply input_reads_bind; [solve [eauto with reads]|].

Lemma reads_target {A} (action : Z → Z → Z → Z → Z → A) g s e x y :
  Forall id_wf [g; s; e; x; y] →
  reads (decode_target action) (encode_target g s e x y) (action g s e x y).
Proof.
  rewrite !Forall_cons. intros (? & ? & ? & ? & ? & _).
  unfold encode_target, decode_target, input_graph, input_shard, input_epoch, input_generation, input_replica.
  do 4 read_field. by apply (input_reads_last (input_id _) (action g s e x)), reads_id.
Qed.

(** A tag byte selects the branch. *)
Lemma reads_tag {A} tag (k : Z → input A) bs a :
  byte_ok tag → reads (k tag) bs a → reads (x ← input_byte; k x) (tag :: bs) a.
Proof. intros Ht Hk. apply (input_reads_bind input_byte k [tag] bs tag a); [by apply reads_byte|done]. Qed.

Lemma reads_provider kind bs :
  provider_wf kind → encode_provider kind = Ok bs → reads decode_provider bs kind.
Proof.
  intros Hw He. destruct kind as [| | |name]; cbn [encode_provider] in He.
  1-3: injection He as <-; by apply reads_tag.
  apply bind_Ok in He as (cs & Hcs & <-%(inj Ok)). destruct Hw as (_ & ? & _).
  apply reads_tag; [done|]. by eapply (input_reads_last input_string Remote), reads_text.
Qed.

Lemma reads_role role : reads decode_role [role_tag role] role.
Proof. destruct role; by apply reads_tag. Qed.

Lemma reads_binding binding bs :
  binding_wf binding → encode_binding binding = Ok bs → reads decode_binding bs binding.
Proof.
  intros Hw He. pose proof (proj2 binding_build binding Hw) as Hbuild.
  unfold encode_binding in He. bind_all He. apply (inj Ok) in He as <-.
  destruct binding; destruct Hw; cbn in *.
  unfold id_wf, nonzero_digest_wf, version_wf, ref_wf, namespace_wf, text_wf in *. destruct_and!.
  unfold decode_binding. do 7 read_field.
  eapply input_reads_bind; [by eapply reads_provider|]. do 6 read_field.
  rewrite <-(app_nil_r [role_tag _]). eapply input_reads_bind; [apply reads_role|].
  unfold to_builder in Hbuild. cbn in Hbuild. rewrite Hbuild. apply reads_ilift.
Qed.

Lemma reads_action action bs :
  action_wf action → encode_reconcile_action action = Ok bs → reads decode_reconcile_action bs action.
Proof.
  intros Hw He. unfold decode_reconcile_action.
  destruct action; cbn [encode_reconcile_action] in He; cbn [action_wf] in Hw;
    try (apply bind_Ok in He as (cs & Hcs & He)); apply (inj Ok) in He as <-; (apply reads_tag; [done|]);
    cbn [Z.eqb Pos.eqb].
  - by apply (input_reads_last decode_binding Allocate), reads_binding.
  - by apply reads_target.
  - by apply reads_target.
  - rewrite !Forall_cons in Hw. destruct Hw as (? & ? & ? & ? & ? & _). unfold encode_target.
    unfold input_graph, input_shard, input_epoch, input_replica. do 4 read_field.
    by apply (input_reads_last (input_id _) (TransferLeader _ _ _ _)), reads_id.
  - by apply reads_target.
  - rewrite !Forall_cons in Hw. destruct Hw as (? & ? & ? & ? & ? & _). unfold encode_target.
    unfold input_graph, input_shard, input_epoch, input_generation. do 4 read_field.
    by apply (input_reads_last (input_id _) (Migrate _ _ _ _)), reads_id.
  - destruct Hw as [? Hn]. eapply input_reads_bind; [by apply reads_target|].
    rewrite <-(app_nil_r cs). eapply input_reads_bind; [by apply reads_text; [apply Hn|]|].
    rewrite <-(app_nil_r []). eapply input_reads_bind; [|apply input_reads_ret].
    rewrite (proj2 (NamespaceId_new_Ok namespace_id namespace_id)); [apply reads_ilift|].
    split; [done|apply Hn].
Qed.

Lemma reads_failure failure bs :
  str_ok (af_message failure) → put_text (af_message failure) = Ok bs →
  reads decode_failure ((if af_retryable failure then 1 else 0) :: bs) failure.
Proof.
  intros Hs Hp. destruct failure as [message []]; cbn in *; (apply reads_tag; [done|]).
  - by apply (input_reads_last input_string (λ m, mkActionFailure m true)), reads_text.
  - by apply (input_reads_last input_string (λ m, mkActionFailure m false)), reads_text.
Qed.

(** Commands are encoded unless a string is too long for its length field. *)
Lemma encode_Err command e :
  action_encode_current command = Err e → e = InvalidAction "string too large".
Proof.
  assert (∀ s e, put_text s = Err e → e = InvalidAction "string too large") as Hput.
  { intros s e'. unfold put_text. case_match; congruence. }
  assert (∀ b e, encode_binding b = Err e → e = InvalidAction "string too large") as Hbind.
  { intros b e' He. unfold encode_binding in He.
    apply bind_Err in He as [He|(? & _ & He)].
    { destruct (rb_provider_kind b); cbn in He; try done.
      apply bind_Err in He as [He|(? & _ & ?)]; [by eapply Hput|done]. }
    do 3 (apply bind_Err in He as [He|(? & _ & He)]; [by eapply Hput|]). done. }
  unfold action_encode_current. intros [He|(? & _ & ?)]%bind_Err; [|done].
  destruct command as [v a| | |]; [apply bind_Err in He as [He|(? & _ & ?)]; [|done]| |done|].
  - destruct a; cbn in He; try done; apply bind_Err in He as [He|(? & _ & ?)]; eauto; done.
  - apply bind_Err in He as [He|(? & _ & ?)]; [by eapply Hput|done].
  - apply bind_Err in He as [He|(? & _ & ?)]; [by eapply Hput|done].
Qed.

(** Decoding reads exactly the bytes a command is encoded to. *)
Lemma action_decode_encoded command bs rest :
  command_wf command → action_encode_current command = Ok bs →
  action_decode (bs ++ rest) =
    if negb (bool_decide (rest = [])) then Err (InvalidAction "action command contains trailing bytes")
    else Ok command.
Proof.
  intros Hw (body & Hbody & <-%(inj Ok))%bind_Ok.
  assert (reads decode_action_command body command) as Hr.
  { unfold decode_action_command. destruct command as [v a|id w n d|id l|id l f]; cbn [command_wf] in Hw;
      try (apply bind_Ok in Hbody as (cs & Hcs & Hbody)); apply (inj Ok) in Hbody as <-;
      (apply reads_tag; [done|]); cbn [Z.eqb Pos.eqb].
    - destruct Hw. read_field. by apply (input_reads_last decode_reconcile_action (CmdEnqueue v)), reads_action.
    - destruct Hw as (? & ? & ? & ?). do 3 read_field.
      by apply (input_reads_last input_u64 (CmdClaim id w n)), reads_u64.
    - destruct Hw. read_field. by apply (input_reads_last input_lease (CmdComplete id)), reads_lease.
    - destruct Hw as (? & ? & ?). do 2 read_field.
      by apply (input_reads_last decode_failure (CmdFail id l)), reads_failure. }
  unfold action_decode. rewrite <-app_assoc, (reads_u32 ACTION_COMMAND_FORMAT_VERSION) by done.
  rewrite Z.eqb_refl. cbn [negb]. by rewrite Hr.
Qed.

(** Action commands round-trip: a well-formed command is encoded, unless a string of it has four
    gibibytes or more, and decoding the bytes gives the command back; nothing may follow them. *)
Theorem action_command_round_trip (command : ActionCommand) :
  command_wf command →
  match action_encode_current command with
  | Ok bs =>
      action_decode bs = Ok command ∧
      ∀ rest, rest ≠ [] → action_decode (bs ++ rest) =
        Err (InvalidAction "action command contains trailing bytes")
  | Err e => e = InvalidAction "string too large"
  end.
Proof.
  intros Hw. destruct (action_encode_current command) as [bs|e] eqn:He; [|by eapply encode_Err].
  pose proof (λ rest, action_decode_encoded command bs rest Hw He) as Hd. split.
  - by rewrite <-(app_nil_r bs), Hd.
  - intros rest Hrest. by rewrite Hd, bool_decide_eq_false_2.
Qed.

(** ** The life of an action *)

Inductive lifecycle : ActionState → ActionState → Prop :=
| life_claim n w lease :
    al_epoch lease = n + 1 → lifecycle (ActionPending n) (ActionClaimed (n + 1) w lease)
| life_reclaim n w lease w' lease' :
    al_epoch lease' = n + 1 → al_expires_at lease < al_expires_at lease' →
    lifecycle (ActionClaimed n w lease) (ActionClaimed (n + 1) w' lease')
| life_complete n w lease : lifecycle (ActionClaimed n w lease) (ActionCompleted n lease)
| life_retry n w lease : lifecycle (ActionClaimed n w lease) (ActionPending n)
| life_fail n w lease failure :
    af_retryable failure = false → lifecycle (ActionClaimed n w lease) (ActionFailed n failure).

Definition state_attempt (s : ActionState) : Z :=
  match s with
  | ActionPending n | ActionClaimed n _ _ | ActionCompleted n _ | ActionFailed n _ => n
  end.
Definition is_final (s : ActionState) : Prop :=
  match s with ActionCompleted _ _ | ActionFailed _ _ => True | _ => False end.

(** The epoch of a lease is the attempt it was given for. *)
Definition epoch_ok (s : ActionState) : Prop :=
  match s with
  | ActionClaimed n _ lease | ActionCompleted n lease => al_epoch lease = n
  | _ => True
  end.

Lemma lifecycle_epoch s t : rtc lifecycle s t → epoch_ok s → epoch_ok t.
Proof. induction 1 as [|s t u Hs _ IH]; [done|]. intros He. apply IH. by destruct Hs. Qed.
Lemma lifecycle_attempt s t : rtc lifecycle s t → state_attempt s ≤ state_attempt t.
Proof.
  induction 1 as [|s t u Hs _ IH]; [done|]. destruct Hs; cbn in *; lia.
Qed.
Lemma lifecycle_final s t : is_final s → rtc lifecycle s t → t = s.
Proof. intros Hf Hr. destruct Hr as [|s t u Hs _]; [done|]. by destruct Hs. Qed.

(** Where a claim can lead without another attempt. *)
Lemma lifecycle_claimed n w lease t :
  rtc lifecycle (ActionClaimed n w lease) t →
  t = ActionClaimed n w lease ∨ t = ActionCompleted n lease ∨ t = ActionPending n ∨
  (∃ f, t = ActionFailed n f) ∨ n < state_attempt t.
Proof.
  intros Hr. inversion Hr as [|s u v Hs Hu]; subst; [by left|].
  inversion Hs; subst.
  - apply lifecycle_attempt in Hu. cbn in Hu. do 4 right. lia.
  - apply lifecycle_final in Hu as ->; [|done]. by right; left.
  - inversion Hu as [|s' u' v' Hs' Hu']; subst; [by do 2 right; left|].
    apply lifecycle_attempt in Hu'. inversion Hs'; subst. cbn in Hu'. do 4 right. lia.
  - apply lifecycle_final in Hu as ->; [|done]. by do 3 right; left; eauto.
Qed.

Section runs.
Context (blake3 : bytes → Digest32).
Abbreviation ControlActionLedger := (gmap (list Z) ActionRecord) (only parsing).
Implicit Types l : ControlActionLedger.

Definition ledger_step l l' : Prop :=
  ∃ command r, command_wf command ∧ ledger_apply blake3 l command = (r, l').
Definition ledger_reachable l : Prop := rtc ledger_step ∅ l.

(** Every record stands under the identity of its action. *)
Definition ledger_ok l : Prop :=
  ∀ id r, l !! id = Some r →
    ac_action_id r = id ∧ action_id blake3 (ac_catalog_version r) (ac_action r) = Some id ∧
    epoch_ok (ac_state r).

(** [r'] is a later state of the record [r]. *)
Definition later (r r' : ActionRecord) : Prop :=
  ∃ s, r' = with_state s r ∧ rtc lifecycle (ac_state r) s.
Definition evolves l l' : Prop := ∀ id r, l !! id = Some r → ∃ r', l' !! id = Some r' ∧ later r r'.

Lemma with_state_id r : with_state (ac_state r) r = r.
Proof using. by destruct r. Qed.
Lemma later_refl r : later r r.
Proof using. exists (ac_state r). by rewrite with_state_id. Qed.
Lemma evolves_refl l : evolves l l.
Proof using. intros id r Hr. exists r. split; [done|apply later_refl]. Qed.
Lemma evolves_trans l1 l2 l3 : evolves l1 l2 → evolves l2 l3 → evolves l1 l3.
Proof using.
  intros H1 H2 id r Hr. destruct (H1 id r Hr) as (r2 & Hr2 & s & -> & Hs).
  destruct (H2 id _ Hr2) as (r3 & Hr3 & s3 & -> & Hs3). exists (with_state s3 r). split; [done|].
  exists s3. split; [done|]. by etrans.
Qed.

Lemma evolves_update l id r s :
  ledger_ok l → l !! id = Some r → lifecycle (ac_state r) s →
  evolves l (<[id := with_state s r]> l) ∧ ledger_ok (<[id := with_state s r]> l).
Proof using.
  intros Hok Hr Hs. split.
  - intros id' r' Hr'. destruct (decide (id = id')) as [<-|Hne].
    + exists (with_state s r). rewrite lookup_insert_eq. simplify_eq. split; [done|].
      exists s. split; [done|]. by apply rtc_once.
    + exists r'. rewrite lookup_insert_ne by done. split; [done|apply later_refl].
  - intros id' r'. destruct (decide (id = id')) as [<-|Hne].
    + rewrite lookup_insert_eq. intros [= <-]. cbn. destruct (Hok id r Hr) as (? & ? & ?).
      split; [done|]. split; [done|]. by eapply lifecycle_epoch; [apply rtc_once|].
    + rewrite lookup_insert_ne by done. apply Hok.
Qed.

Lemma claim_state_Ok s w now duration t :
  0 < duration → claim_state s w now duration = Ok t → lifecycle s t.
Proof using.
  intros Hd Hc. unfold claim_state in Hc. apply bind_Ok in Hc as (n & Hn & Hc).
  guard_in Hc as H1. guard_in Hc as H2. injection Hc as <-.
  destruct s as [m|m w' lease|m lease|m f]; simplify_eq.
  - by constructor.
  - guard_in Hn as He. to_prop. injection Hn as <-. constructor; [done|]. cbn. lia.
Qed.

Lemma ledger_apply_ok l command r l' :
  command_wf command → ledger_ok l → ledger_apply blake3 l command = (r, l') →
  evolves l l' ∧ ledger_ok l' ∧ (∀ e, r = Err e → l' = l).
Proof using.
  intros Hw Hok Ha. assert (∀ r' : result ControlError ActionRecord, (r', l) = (r, l') →
    evolves l l' ∧ ledger_ok l' ∧ (∀ e, r = Err e → l' = l)) as Hsame.
  { intros r' [= <- <-]. split; [apply evolves_refl|]. by split. }
  assert (∀ id x s, l !! id = Some x → lifecycle (ac_state x) s →
    (Ok (with_state s x), <[id := with_state s x]> l) = (r, l') →
    evolves l l' ∧ ledger_ok l' ∧ (∀ e, r = Err e → l' = l)) as Hmove.
  { intros id x s Hx Hs [= <- <-]. destruct (evolves_update l id x s Hok Hx Hs). by split_and!. }
  destruct command as [v a|id w n d|id lease|id lease f]; cbn [ledger_apply] in Ha.
  - unfold ledger_enqueue in Ha. destruct (action_id blake3 v a) as [id|] eqn:Hid; [|by eapply Hsame].
    destruct (l !! id) eqn:Hl; [by eapply Hsame|]. injection Ha as <- <-. split; [|split; [|done]].
    + intros id' x Hx. exists x. rewrite lookup_insert_ne by congruence. split; [done|apply later_refl].
    + intros id' x. destruct (decide (id = id')) as [<-|Hne].
      * rewrite lookup_insert_eq. by intros [= <-].
      * rewrite lookup_insert_ne by done. apply Hok.
  - unfold ledger_claim in Ha. destruct (is_blank w || (d =? 0)) eqn:Hd; [by eapply Hsame|]. to_prop.
    destruct Hw as (_ & _ & _ & Hd'). unfold in_u64 in Hd'.
    destruct (l !! id) as [x|] eqn:Hl; [|by eapply Hsame].
    destruct (ac_state x) as [m|m w' lease|m lease|m f] eqn:Hs; try by eapply Hsame.
    all: destruct (claim_state _ w n d) as [s|e] eqn:Hc; [|by eapply Hsame].
    all: apply claim_state_Ok in Hc; [|lia]; eapply Hmove; [exact Hl|by rewrite Hs|exact Ha].
  - unfold ledger_complete in Ha. destruct (l !! id) as [x|] eqn:Hl; [|by eapply Hsame].
    destruct (ac_state x) as [m|m w' active|m active|m f] eqn:Hs; try by eapply Hsame.
    + case_bool_decide; [|by eapply Hsame]. subst.
      eapply Hmove; [exact Hl|rewrite Hs; constructor|exact Ha].
    + case_bool_decide; by eapply Hsame.
  - unfold ledger_fail in Ha. destruct (l !! id) as [x|] eqn:Hl; [|by eapply Hsame].
    destruct (ac_state x) as [m|m w' active|m active|m g] eqn:Hs; try by eapply Hsame.
    case_bool_decide; [|by eapply Hsame]. subst. eapply Hmove; [exact Hl|rewrite Hs|exact Ha].
    destruct (af_retryable f) eqn:Hf; by constructor.
Qed.

Lemma ledger_run l l' : ledger_ok l → rtc ledger_step l l' → ledger_ok l' ∧ evolves l l'.
Proof using.
  intros Hok Hr. induction Hr as [|x y z (command & r & Hw & Ha) _ IH]; [split; [done|apply evolves_refl]|].
  destruct (ledger_apply_ok _ _ _ _ Hw Hok Ha) as (He & Hy & _). destruct (IH Hy) as [Hz Hyz].
  split; [done|]. by eapply evolves_trans.
Qed.

Lemma ledger_reachable_ok l : ledger_reachable l → ledger_ok l.
Proof using. intros Hr. apply (ledger_run ∅ l); [|done]. intros id r. by rewrite lookup_empty. Qed.

(** The state the executor's answer leads to. *)
Definition execution_outcome (n : Z) (lease : ActionLease) (answer : result ActionFailure unit)
    : ActionState :=
  match answer with
  | Ok _ => ActionCompleted n lease
  | Err failure => if af_retryable failure then ActionPending n else ActionFailed n failure
  end.

End runs.

(** ** The identity of an action *)

Lemma encode_target_inj g s e x y g' s' e' x' y' r r' :
  Forall id_wf [g; s; e; x; y] → Forall id_wf [g'; s'; e'; x'; y'] →
  encode_target g s e x y ++ r = encode_target g' s' e' x' y' ++ r' →
  [g; s; e; x; y] = [g'; s'; e'; x'; y'] ∧ r = r'.
Proof.
  rewrite !Forall_cons. intros (? & ? & ? & ? & ? & _) (? & ? & ? & ? & ? & _) Heq.
  unfold encode_target in Heq. do 5 peel Heq. by subst.
Qed.

Lemma action_bytes_inj a b i j :
  action_wf a → action_wf b → action_bytes a i = action_bytes b j →
  (a = b ∨ ∃ x y, a = Allocate x ∧ b = Allocate y) ∧
  ((∃ x y, a = Allocate x ∧ b = Allocate y) → i = j).
Proof.
  intros Ha Hb Heq. rewrite <-(app_nil_r (action_bytes a i)), <-(app_nil_r (action_bytes b j)) in Heq.
  destruct a, b; cbn [action_bytes app action_wf] in *; apply tag_prefix in Heq as [Htag Heq];
    try discriminate Htag; clear Htag.
  { rewrite !app_nil_r in Heq. split; [by right; eauto|done]. }
  all: split; [left|by intros (? & ? & ? & ?)].
  6: { rewrite <-!app_assoc in Heq. destruct Ha as [? [[_ ?] _]], Hb as [? [[_ ?] _]].
       apply encode_target_inj in Heq as [[= -> -> -> -> ->] Heq]; [|done..].
       by apply encode_string_prefix_free in Heq as [-> _]. }
  all: apply encode_target_inj in Heq as [[= -> -> -> -> ->] _]; done.
Qed.

(** Two actions with one identity are the same, or the hash collides. *)
Lemma action_id_inj blake3 v a v' b id :
  in_u64 v → in_u64 v' → action_wf a → action_wf b →
  action_id blake3 v a = Some id → action_id blake3 v' b = Some id →
  (v = v' ∧ a = b) ∨ ∃ x y, x ≠ y ∧ blake3 x = blake3 y.
Proof.
  intros Hv Hv' Ha Hb Hia Hib. unfold action_id in *.
  apply bind_Some in Hia as (i & Hi & Hia%(inj Some)), Hib as (j & Hj & Hib%(inj Some)).
  destruct (decide (be_bytes 8 v ++ action_bytes a i = be_bytes 8 v' ++ action_bytes b j)) as [Heq|Hne].
  - apply u64_prefix_free in Heq as [<- Heq]; [|done..].
    destruct (action_bytes_inj _ _ _ _ Ha Hb Heq) as [[<-|(x & y & -> & ->)] Hij]; [by left|].
    rewrite Hij in Hi by eauto. rewrite <-Hj in Hi. cbn in Ha, Hb.
    destruct (identity_digest_inj blake3 x y Ha Hb Hi) as [<-|?]; [by left|by right].
  - right. eexists _, _. split; [|exact (eq_trans Hia (eq_sym Hib))].
    intros [_ ?]%app_inj_1; done.
Qed.

(** ** A concrete ledger *)

Definition example_action : ReconcileAction := Promote 1 1 5 2 2.
Definition example_id : ActionId := Eval vm_compute in default [] (action_id checksum32 1 example_action).
Definition example_lease : ActionLease := mkActionLease 1 15.
Definition example_claimed : ActionRecord :=
  mkActionRecord example_id 1 example_action (ActionClaimed 1 "worker-a" example_lease).
Definition example_reclaimed : ActionRecord :=
  mkActionRecord example_id 1 example_action (ActionClaimed 2 "worker-b" (mkActionLease 2 25)).

Lemma example_id_wf : digest_wf example_id.
Proof. split; [done|]. repeat (constructor; [split; [done|reflexivity]|]). constructor. Qed.
Lemma example_action_wf : action_wf example_action.
Proof. repeat constructor; done. Qed.

Lemma example_claimed_reachable : ledger_reachable checksum32 {[example_id := example_claimed]}.
Proof.
  eapply rtc_l.
  { exists (CmdEnqueue 1 example_action). eexists. split; [split; [done|apply example_action_wf]|].
    vm_compute. reflexivity. }
  apply rtc_once. exists (CmdClaim example_id "worker-a" 10 5). eexists. split.
  { split; [apply example_id_wf|done]. }
  vm_compute. reflexivity.
Qed.
Lemma example_reclaimed_step :
  ledger_step checksum32 {[example_id := example_claimed]} {[example_id := example_reclaimed]}.
Proof.
  exists (CmdClaim example_id "worker-b" 20 5). eexists. split.
  { split; [apply example_id_wf|done]. }
  vm_compute. reflexivity.
Qed.

Lemma action_command_round_trip_witness :
  ∃ bs, action_encode_current (CmdClaim example_id "worker-a" 10 5) = Ok bs ∧
    action_decode bs = Ok (CmdClaim example_id "worker-a" 10 5).
Proof.
  assert (command_wf (CmdClaim example_id "worker-a" 10 5)) as Hw by (split; [apply example_id_wf|done]).
  pose proof (action_command_round_trip (CmdClaim example_id "worker-a" 10 5) Hw) as H.
  destruct (action_encode_current _) as [bs|e] eqn:He; [|discriminate He].
  exists bs. split; [reflexivity|apply H].
Defined.

