(* ===== verification/Migration.v ===== *)
(** * Online migration of a shard's backend ([dtg-control/src/migration.rs])

    A migration moves a shard from one backend generation to the next: target namespaces are claimed,
    a snapshot is copied, writes are mirrored, the equality of source and target is proved by a
    receipt of every voter, the target is activated under the next placement epoch, and after a grace
    period the source is cleaned up, or the migration is rolled back under yet another epoch. *)

From S2P Require Import Prelude Text Kernel Encoding Storage Binding Control.
Open Scope Z_scope.

Abbreviation MigrationId := Z (only parsing).

Definition MigrationId_new (value : Z) : result ControlError MigrationId :=
  if negb (value =? 0) then Ok value else Err (InvalidMigration "migration identifier is zero").

Inductive MigrationState :=
| MsAllocating
| MsBackfilling (snapshot_index : Z)
| MsMirroring (snapshot_index : Z)
| MsPrepared (verified_index : Z) (digest : Digest32)
| MsActivating (next_epoch : PlacementEpoch)
| MsGrace (activated_epoch : PlacementEpoch) (activated_at : Z)
| MsCompleted
| MsAborted.

Inductive MigrationReceiptKind := Verified | ForwardMirrored | ReverseMirrored | Cleanup.

#[export] Instance MigrationState_eq_dec : EqDecision MigrationState.
Proof. solve_decision. Defined.
#[export] Instance MigrationReceiptKind_eq_dec : EqDecision MigrationReceiptKind.
Proof. solve_decision. Defined.
#[export] Program Instance MigrationReceiptKind_finite : finite.Finite MigrationReceiptKind :=
  {| finite.enum := [Verified; ForwardMirrored; ReverseMirrored; Cleanup] |}.
Next Obligation. by apply (bool_decide_unpack _). Qed.
Next Obligation. intros []; by apply (bool_decide_unpack _). Qed.
#[export] Instance MigrationReceiptKind_countable : Countable MigrationReceiptKind := finite.finite_countable.

Record MigrationReceipt := mkReceipt {
  rc_kind : MigrationReceiptKind;
  rc_migration_id : MigrationId;
  rc_replica_id : ReplicaId;
  rc_catalog_version : Version;
  rc_source_generation : BackendGeneration;
  rc_target_generation : BackendGeneration;
  rc_target_backend_class_digest : Digest32;
  rc_applied_index : Z;
  rc_logical_digest : Digest32;
  rc_owner_identity : option Digest32;
  rc_pins_released : bool;
}.
#[export] Instance MigrationReceipt_eq_dec : EqDecision MigrationReceipt.
Proof. solve_decision. Defined.

Definition receipt_proof (kind : MigrationReceiptKind) (migration_id : MigrationId)
    (replica_id : ReplicaId) (catalog_version : Version)
    (source_generation target_generation : BackendGeneration) (target_backend_class_digest : Digest32)
    (applied_index : Z) (logical_digest : Digest32) : result ControlError MigrationReceipt :=
  if (applied_index =? 0) || bool_decide (target_backend_class_digest = zero_digest)
     || bool_decide (logical_digest = zero_digest)
  then Err InvalidMigrationReceipt
  else Ok (mkReceipt kind migration_id replica_id catalog_version source_generation target_generation
             target_backend_class_digest applied_index logical_digest None false).

Definition receipt_verified := receipt_proof Verified.

Definition dual_apply (kind : MigrationReceiptKind) (migration_id : MigrationId)
    (replica_id : ReplicaId) (catalog_version : Version)
    (source_generation target_generation : BackendGeneration) (target_backend_class_digest : Digest32)
    (left_applied_index : Z) (left_digest : Digest32) (right_applied_index : Z) (right_digest : Digest32)
    : result ControlError MigrationReceipt :=
  if negb (left_applied_index =? right_applied_index) || negb (bool_decide (left_digest = right_digest))
  then Err MigrationDigestMismatch
  else receipt_proof kind migration_id replica_id catalog_version source_generation target_generation
         target_backend_class_digest left_applied_index left_digest.

Definition receipt_mirrored := dual_apply ForwardMirrored.
Definition receipt_reverse_mirrored := dual_apply ReverseMirrored.

Inductive MigrationActionKind :=
| MkAllocate | MkBackfill | MkMirrorForward | MkPrepare | MkCommitCutover | MkPublishActivation
| MkMirrorReverse | MkCleanup | MkRollback | MkAbort.

Record MigrationAction := mkMigrationAction {
  ma_kind : MigrationActionKind;
  ma_migration_id : MigrationId;
  ma_graph_id : GraphId;
  ma_shard_id : ShardId;
  ma_source_generation : BackendGeneration;
  ma_source_backend_class : option BackendClass;
  ma_target_generation : BackendGeneration;
  ma_target_backend_class : BackendClass;
  ma_catalog_version : Version;
  ma_generation : BackendGeneration;
  ma_replica_id : option ReplicaId;
  ma_snapshot_index : option Z;
  ma_next_epoch : option PlacementEpoch;
  ma_owner_identity : option Digest32;
  ma_retained_owner_identity : option Digest32;
}.

Record MigrationRecord := mkMigration {
  mg_id : MigrationId;
  mg_graph_id : GraphId;
  mg_shard_id : ShardId;
  mg_catalog_version : Version;
  mg_source_epoch : PlacementEpoch;
  mg_source_generation : BackendGeneration;
  mg_source_backend_class : option BackendClass;
  mg_target_generation : BackendGeneration;
  mg_target_backend_class : BackendClass;
  mg_expected_voters : gset ReplicaId;
  mg_receipts : gmap (MigrationReceiptKind * ReplicaId) MigrationReceipt;
  mg_source_owners : gmap ReplicaId Digest32;
  mg_target_owners : gmap ReplicaId Digest32;
  mg_state : MigrationState;
  mg_active_epoch : PlacementEpoch;
  mg_active_generation : BackendGeneration;
}.
#[export] Instance MigrationRecord_eq_dec : EqDecision MigrationRecord.
Proof. solve_decision. Defined.

Definition migration_new_inner (id : MigrationId) (graph_id : GraphId) (shard_id : ShardId)
    (catalog_version : Version) (source_epoch : PlacementEpoch) (source_generation : BackendGeneration)
    (source_backend_class : option BackendClass) (target_generation : BackendGeneration)
    (target_backend_class : BackendClass) (expected_voters : list ReplicaId)
    : result ControlError MigrationRecord :=
  if source_generation + 1 <? 2 ^ 64 then
    let voter_count := length expected_voters in
    let expected_voters : gset ReplicaId := list_to_set expected_voters in
    if negb (target_generation =? source_generation + 1) || bool_decide (expected_voters = ∅)
       || negb (Nat.eqb (size expected_voters) voter_count)
    then Err (InvalidMigration "migration requires the next generation and unique voters")
    else Ok (mkMigration id graph_id shard_id catalog_version source_epoch source_generation
               source_backend_class target_generation target_backend_class expected_voters ∅ ∅ ∅
               MsAllocating source_epoch source_generation)
  else Err (InvalidMigration "backend generation overflow").

Definition MigrationRecord_new (id : MigrationId) (graph_id : GraphId) (shard_id : ShardId)
    (catalog_version : Version) (source_epoch : PlacementEpoch)
    (source_generation target_generation : BackendGeneration) (target_backend_class : BackendClass)
    (expected_voters : list ReplicaId) : result ControlError MigrationRecord :=
  migration_new_inner id graph_id shard_id catalog_version source_epoch source_generation None
    target_generation target_backend_class expected_voters.

Definition MigrationRecord_new_direction (id : MigrationId) (graph_id : GraphId) (shard_id : ShardId)
    (catalog_version : Version) (source_epoch : PlacementEpoch) (source_generation : BackendGeneration)
    (source_backend_class : BackendClass) (target_generation : BackendGeneration)
    (target_backend_class : BackendClass) (expected_voters : list ReplicaId)
    : result ControlError MigrationRecord :=
  if bool_decide (bc_digest source_backend_class = bc_digest target_backend_class)
  then Err (InvalidMigration "source and target backend classes are identical")
  else migration_new_inner id graph_id shard_id catalog_version source_epoch source_generation
         (Some source_backend_class) target_generation target_backend_class expected_voters.

Definition accepts (self : MigrationRecord) (epoch : PlacementEpoch) (generation : BackendGeneration)
    : bool :=
  (epoch =? mg_active_epoch self) && (generation =? mg_active_generation self).

(** Updates of the mutable fields. *)
Definition with_activation (self : MigrationRecord) (state : MigrationState) (epoch : PlacementEpoch)
    (generation : BackendGeneration) : MigrationRecord :=
  mkMigration (mg_id self) (mg_graph_id self) (mg_shard_id self) (mg_catalog_version self)
    (mg_source_epoch self) (mg_source_generation self) (mg_source_backend_class self)
    (mg_target_generation self) (mg_target_backend_class self) (mg_expected_voters self)
    (mg_receipts self) (mg_source_owners self) (mg_target_owners self) state epoch generation.
Definition with_migration_state (self : MigrationRecord) (state : MigrationState) : MigrationRecord :=
  with_activation self state (mg_active_epoch self) (mg_active_generation self).
Definition with_receipts (self : MigrationRecord)
    (receipts : gmap (MigrationReceiptKind * ReplicaId) MigrationReceipt) : MigrationRecord :=
  mkMigration (mg_id self) (mg_graph_id self) (mg_shard_id self) (mg_catalog_version self)
    (mg_source_epoch self) (mg_source_generation self) (mg_source_backend_class self)
    (mg_target_generation self) (mg_target_backend_class self) (mg_expected_voters self)
    receipts (mg_source_owners self) (mg_target_owners self) (mg_state self) (mg_active_epoch self)
    (mg_active_generation self).
Definition with_owners (self : MigrationRecord) (source_owners target_owners : gmap ReplicaId Digest32)
    : MigrationRecord :=
  mkMigration (mg_id self) (mg_graph_id self) (mg_shard_id self) (mg_catalog_version self)
    (mg_source_epoch self) (mg_source_generation self) (mg_source_backend_class self)
    (mg_target_generation self) (mg_target_backend_class self) (mg_expected_voters self)
    (mg_receipts self) source_owners target_owners (mg_state self) (mg_active_epoch self)
    (mg_active_generation self).

Definition migration_action (self : MigrationRecord) (kind : MigrationActionKind)
    (generation : BackendGeneration) (replica_id : option ReplicaId) (snapshot_index : option Z)
    (next_epoch : option PlacementEpoch) (owner_identity retained_owner_identity : option Digest32)
    : MigrationAction :=
  mkMigrationAction kind (mg_id self) (mg_graph_id self) (mg_shard_id self) (mg_source_generation self)
    (mg_source_backend_class self) (mg_target_generation self) (mg_target_backend_class self)
    (mg_catalog_version self) generation replica_id snapshot_index next_epoch owner_identity
    retained_owner_identity.

(** ** Operations *)

(** An operation answers an action and leaves the record it has changed. *)
Abbreviation outcome A := (result ControlError A * MigrationRecord)%type (only parsing).

Definition require_catalog (self : MigrationRecord) (actual : Version) : result ControlError unit :=
  if actual =? mg_catalog_version self then Ok tt
  else Err (StaleCatalog (mg_catalog_version self) actual).

Definition validate_receipt (self : MigrationRecord) (receipt : MigrationReceipt)
    : result ControlError unit :=
  _ ← require_catalog self (rc_catalog_version receipt);
  if negb (rc_migration_id receipt =? mg_id self)
     || negb (rc_source_generation receipt =? mg_source_generation self)
     || negb (rc_target_generation receipt =? mg_target_generation self)
     || negb (bool_decide (rc_target_backend_class_digest receipt = bc_digest (mg_target_backend_class self)))
     || negb (bool_decide (rc_replica_id receipt ∈ mg_expected_voters self))
  then Err InvalidMigrationReceipt
  else Ok tt.

Definition insert_receipt (self : MigrationRecord) (receipt : MigrationReceipt) : outcome unit :=
  match validate_receipt self receipt with
  | Err e => (Err e, self)
  | Ok _ =>
      let key := (rc_kind receipt, rc_replica_id receipt) in
      match mg_receipts self !! key with
      | Some existing =>
          (if bool_decide (existing = receipt) then Ok tt else Err MigrationReceiptConflict, self)
      | None => (Ok tt, with_receipts self (<[key := receipt]> (mg_receipts self)))
      end
  end.

(** The loop of [equal_voter_proof]; both its callers pass one kind as preferred and fallback. *)
Fixpoint voter_proof (self : MigrationRecord) (preferred fallback : MigrationReceiptKind)
    (voters : list ReplicaId) (proof : option (Z * Digest32))
    : result ControlError (option (Z * Digest32)) :=
  match voters with
  | [] => Ok proof
  | voter :: voters =>
      match (match mg_receipts self !! (preferred, voter) with
             | Some receipt => Some receipt
             | None => mg_receipts self !! (fallback, voter)
             end) with
      | None => Err IncompleteMigrationReceipts
      | Some receipt =>
          match proof with
          | None =>
              voter_proof self preferred fallback voters
                (Some (rc_applied_index receipt, rc_logical_digest receipt))
          | Some (index, digest) =>
              if (index =? rc_applied_index receipt) && bool_decide (digest = rc_logical_digest receipt)
              then voter_proof self preferred fallback voters proof
              else Err MigrationDigestMismatch
          end
      end
  end.

(** [for voter in &self.expected_voters], ascending. *)
Definition voters (self : MigrationRecord) : list ReplicaId :=
  sort_by Z.leb (elements (mg_expected_voters self)).

Definition equal_voter_proof (self : MigrationRecord) (preferred fallback : MigrationReceiptKind)
    : result ControlError (Z * Digest32) :=
  proof ← voter_proof self preferred fallback (voters self) None;
  ok_or IncompleteMigrationReceipts proof.

(** A record of a voter that disagrees with what is claimed now. *)
Definition conflicting_owner (owners : gmap ReplicaId Digest32) (replica_id : ReplicaId)
    (identity : Digest32) : bool :=
  match owners !! replica_id with
  | Some owner => negb (bool_decide (owner = identity))
  | None => false
  end.

Definition claim_target_namespace (self : MigrationRecord) (replica_id : ReplicaId)
    (source_owner_identity target_owner_identity : Digest32) (observed_target_owner : option Digest32)
    : outcome MigrationAction :=
  if negb (bool_decide (mg_state self = MsAllocating))
     || negb (bool_decide (replica_id ∈ mg_expected_voters self))
     || bool_decide (source_owner_identity = zero_digest)
     || bool_decide (target_owner_identity = zero_digest)
  then (Err IllegalMigrationTransition, self)
  else if match observed_target_owner with
          | Some owner => negb (bool_decide (owner = target_owner_identity))
          | None => false
          end
  then (Err MigrationNamespaceCollision, self)
  else if conflicting_owner (mg_source_owners self) replica_id source_owner_identity
          || conflicting_owner (mg_target_owners self) replica_id target_owner_identity
  then (Err MigrationNamespaceCollision, self)
  else
    let self := with_owners self (<[replica_id := source_owner_identity]> (mg_source_owners self))
                  (<[replica_id := target_owner_identity]> (mg_target_owners self)) in
    (Ok (migration_action self MkAllocate (mg_target_generation self) (Some replica_id) None None
           (Some target_owner_identity) None), self).

Definition begin_backfill (self : MigrationRecord) (snapshot_index : Z) : outcome MigrationAction :=
  let action := migration_action self MkBackfill (mg_target_generation self) None (Some snapshot_index)
                  None None None in
  if snapshot_index =? 0 then (Err IllegalMigrationTransition, self)
  else
    match mg_state self with
    | MsAllocating => (Ok action, with_migration_state self (MsBackfilling snapshot_index))
    | MsBackfilling existing =>
        if existing =? snapshot_index then (Ok action, self) else (Err IllegalMigrationTransition, self)
    | _ => (Err IllegalMigrationTransition, self)
    end.

Definition begin_mirroring (self : MigrationRecord) : outcome MigrationAction :=
  let action snapshot_index :=
    migration_action self MkMirrorForward (mg_target_generation self) None (Some snapshot_index)
      None None None in
  match mg_state self with
  | MsBackfilling snapshot_index =>
      (Ok (action snapshot_index), with_migration_state self (MsMirroring snapshot_index))
  | MsMirroring snapshot_index => (Ok (action snapshot_index), self)
  | _ => (Err IllegalMigrationTransition, self)
  end.

Definition record_receipt (self : MigrationRecord) (receipt : MigrationReceipt) : outcome unit :=
  match mg_state self with
  | MsMirroring snapshot_index =>
      if negb (bool_decide (rc_kind receipt = Verified ∨ rc_kind receipt = ForwardMirrored))
         || (rc_applied_index receipt <? snapshot_index)
      then (Err InvalidMigrationReceipt, self)
      else insert_receipt self receipt
  | _ => (Err IllegalMigrationTransition, self)
  end.

Definition migration_prepare (self : MigrationRecord) : outcome MigrationAction :=
  match (match mg_state self with
         | MsPrepared verified_index digest => Ok (verified_index, digest)
         | MsMirroring _ => equal_voter_proof self ForwardMirrored ForwardMirrored
         | _ => Err IllegalMigrationTransition
         end) with
  | Err e => (Err e, self)
  | Ok (verified_index, digest) =>
      (Ok (migration_action self MkPrepare (mg_target_generation self) None (Some verified_index)
             None None None),
       with_migration_state self (MsPrepared verified_index digest))
  end.

(** [value.checked_add(1).unwrap_or(0)]. *)
Definition successor (value : Z) : Z := if value + 1 <? 2 ^ 64 then value + 1 else 0.

Definition activate (self : MigrationRecord) (next_epoch : PlacementEpoch) : outcome MigrationAction :=
  let valid_next := next_epoch =? successor (mg_source_epoch self) in
  let action := migration_action self MkCommitCutover (mg_target_generation self) None None
                  (Some next_epoch) None None in
  match mg_state self with
  | MsPrepared _ _ =>
      if valid_next
      then (Ok action,
            with_activation self (MsActivating next_epoch) next_epoch (mg_target_generation self))
      else (Err IllegalMigrationTransition, self)
  | MsActivating existing =>
      if (existing =? next_epoch) && (mg_active_generation self =? mg_target_generation self)
      then (Ok action, self)
      else (Err IllegalMigrationTransition, self)
  | _ => (Err IllegalMigrationTransition, self)
  end.

Definition publish_activation (self : MigrationRecord) (activated_at : Z) : outcome MigrationAction :=
  let action activated_epoch :=
    migration_action self MkPublishActivation (mg_active_generation self) None None
      (Some activated_epoch) None None in
  if activated_at =? 0 then (Err (InvalidMigration "activation timestamp is zero"), self)
  else
    match mg_state self with
    | MsActivating next_epoch =>
        (Ok (action next_epoch), with_migration_state self (MsGrace next_epoch activated_at))
    | MsGrace activated_epoch existing =>
        if existing =? activated_at then (Ok (action activated_epoch), self)
        else (Err IllegalMigrationTransition, self)
    | _ => (Err IllegalMigrationTransition, self)
    end.

Definition in_grace (self : MigrationRecord) : bool :=
  match mg_state self with MsGrace _ _ => true | _ => false end.

Definition record_reverse_receipt (self : MigrationRecord) (receipt : MigrationReceipt)
    : outcome MigrationAction :=
  if negb (in_grace self) || negb (bool_decide (rc_kind receipt = ReverseMirrored))
  then (Err IllegalMigrationTransition, self)
  else
    match insert_receipt self receipt with
    | (Err e, self) => (Err e, self)
    | (Ok _, self) =>
        (Ok (migration_action self MkMirrorReverse (mg_source_generation self)
               (Some (rc_replica_id receipt)) (Some (rc_applied_index receipt)) None
               (mg_source_owners self !! rc_replica_id receipt) None), self)
    end.

Definition migration_abort (self : MigrationRecord) (expected_catalog_version : Version)
    : outcome MigrationAction :=
  let action := migration_action self MkAbort (mg_source_generation self) None None None None None in
  match require_catalog self expected_catalog_version with
  | Err e => (Err e, self)
  | Ok _ =>
      match mg_state self with
      | MsAllocating | MsBackfilling _ | MsMirroring _ | MsPrepared _ _ =>
          (Ok action, with_migration_state self MsAborted)
      | MsAborted => (Ok action, self)
      | _ => (Err IllegalMigrationTransition, self)
      end
  end.

Definition rollback (self : MigrationRecord) (next_epoch : PlacementEpoch)
    (generation : BackendGeneration) : outcome MigrationAction :=
  let exact_retry :=
    match mg_state self with MsActivating existing => existing =? next_epoch | _ => false end
    && (mg_active_epoch self =? next_epoch) && (mg_active_generation self =? generation) in
  if negb exact_retry
     && (negb (in_grace self) || negb (next_epoch =? successor (mg_active_epoch self))
         || negb (generation =? successor (mg_active_generation self)))
  then (Err IllegalMigrationTransition, self)
  else
    (Ok (migration_action self MkRollback generation None None (Some next_epoch) None
           (head (values (mg_source_owners self)))),
     with_activation self (MsActivating next_epoch) next_epoch generation).

Definition cleanup_receipt (self : MigrationRecord) (replica_id : ReplicaId) (applied_index : Z)
    (digest owner_identity : Digest32) : MigrationReceipt :=
  mkReceipt Cleanup (mg_id self) replica_id (mg_catalog_version self) (mg_source_generation self)
    (mg_target_generation self) (bc_digest (mg_target_backend_class self)) applied_index digest
    (Some owner_identity) true.

Definition migration_cleanup (self : MigrationRecord) (replica_id : ReplicaId)
    (owner_identity : Digest32) (pins_released : bool) : outcome MigrationAction :=
  if negb (in_grace self || bool_decide (mg_state self = MsCompleted)) || negb pins_released
     || negb (bool_decide (mg_source_owners self !! replica_id = Some owner_identity))
  then (Err MigrationCleanupFenced, self)
  else
    match equal_voter_proof self ReverseMirrored ReverseMirrored with
    | Err _ => (Err MigrationCleanupFenced, self)
    | Ok (applied_index, digest) =>
        match insert_receipt self (cleanup_receipt self replica_id applied_index digest owner_identity) with
        | (Err e, self) => (Err e, self)
        | (Ok _, self) =>
            let action := migration_action self MkCleanup (mg_source_generation self) (Some replica_id)
                            (Some applied_index) None (Some owner_identity) None in
            (Ok action,
             if forallb (λ voter, bool_decide (is_Some (mg_receipts self !! (Cleanup, voter)))) (voters self)
             then with_migration_state self MsCompleted else self)
        end
    end.

(** ** Runs *)

Inductive MigrationOp :=
| OpClaim (replica_id : ReplicaId) (source_owner target_owner : Digest32) (observed : option Digest32)
| OpBackfill (snapshot_index : Z)
| OpMirror
| OpReceipt (receipt : MigrationReceipt)
| OpPrepare
| OpActivate (next_epoch : PlacementEpoch)
| OpPublish (activated_at : Z)
| OpReverse (receipt : MigrationReceipt)
| OpAbort (expected_catalog_version : Version)
| OpRollback (next_epoch : PlacementEpoch) (generation : BackendGeneration)
| OpCleanup (replica_id : ReplicaId) (owner_identity : Digest32) (pins_released : bool).

(** Epochs and generations are nonzero identifiers. *)
Definition op_typed (op : MigrationOp) : Prop :=
  match op with
  | OpActivate e => id_wf e
  | OpRollback e g => id_wf e ∧ id_wf g
  | _ => True
  end.

Definition run_op (op : MigrationOp) (m : MigrationRecord) : MigrationRecord :=
  match op with
  | OpClaim r s t o => (claim_target_namespace m r s t o).2
  | OpBackfill i => (begin_backfill m i).2
  | OpMirror => (begin_mirroring m).2
  | OpReceipt x => (record_receipt m x).2
  | OpPrepare => (migration_prepare m).2
  | OpActivate e => (activate m e).2
  | OpPublish t => (publish_activation m t).2
  | OpReverse x => (record_reverse_receipt m x).2
  | OpAbort v => (migration_abort m v).2
  | OpRollback e g => (rollback m e g).2
  | OpCleanup r d p => (migration_cleanup m r d p).2
  end.

Definition migration_step (m m' : MigrationRecord) : Prop := ∃ op, op_typed op ∧ m' = run_op op m.

Definition migration_start (m : MigrationRecord) : Prop :=
  ∃ id graph shard version epoch generation class target target_class voters,
    id_wf epoch ∧ id_wf generation ∧
    migration_new_inner id graph shard version epoch generation class target target_class voters = Ok m.
Definition migration_reachable (m : MigrationRecord) : Prop :=
  ∃ m0, migration_start m0 ∧ rtc migration_step m0 m.

(** Every voter holds a receipt of the kind for the index and the digest. *)
Definition proved (m : MigrationRecord) (kind : MigrationReceiptKind) (index : Z) (digest : Digest32)
    : Prop :=
  ∀ v, v ∈ mg_expected_voters m → ∃ x, mg_receipts m !! (kind, v) = Some x ∧
    rc_applied_index x = index ∧ rc_logical_digest x = digest.

(** The legal moves of a migration: what an operation that changes the record does to it. *)
Inductive migration_move (m : MigrationRecord) : MigrationRecord → Prop :=
| move_claim r s t :
    mg_state m = MsAllocating → r ∈ mg_expected_voters m →
    conflicting_owner (mg_source_owners m) r s = false →
    conflicting_owner (mg_target_owners m) r t = false →
    migration_move m (with_owners m (<[r := s]> (mg_source_owners m)) (<[r := t]> (mg_target_owners m)))
| move_backfill i :
    mg_state m = MsAllocating → migration_move m (with_migration_state m (MsBackfilling i))
| move_mirror i :
    mg_state m = MsBackfilling i → migration_move m (with_migration_state m (MsMirroring i))
| move_receipt x :
    match mg_state m with
    | MsMirroring i => (rc_kind x = Verified ∨ rc_kind x = ForwardMirrored) ∧ i ≤ rc_applied_index x
    | MsGrace _ _ => rc_kind x = ReverseMirrored
    | _ => False
    end →
    validate_receipt m x = Ok tt → mg_receipts m !! (rc_kind x, rc_replica_id x) = None →
    migration_move m (with_receipts m (<[(rc_kind x, rc_replica_id x) := x]> (mg_receipts m)))
| move_prepare i j d :
    mg_state m = MsMirroring i → proved m ForwardMirrored j d →
    migration_move m (with_migration_state m (MsPrepared j d))
| move_activate j d :
    mg_state m = MsPrepared j d → mg_source_epoch m + 1 < 2 ^ 64 →
    migration_move m (with_activation m (MsActivating (mg_source_epoch m + 1)) (mg_source_epoch m + 1)
                        (mg_target_generation m))
| move_publish e t :
    mg_state m = MsActivating e → migration_move m (with_migration_state m (MsGrace e t))
| move_abort :
    match mg_state m with
    | MsAllocating | MsBackfilling _ | MsMirroring _ | MsPrepared _ _ => True
    | _ => False
    end → migration_move m (with_migration_state m MsAborted)
| move_rollback e t :
    mg_state m = MsGrace e t → mg_active_epoch m + 1 < 2 ^ 64 → mg_active_generation m + 1 < 2 ^ 64 →
    migration_move m (with_activation m (MsActivating (mg_active_epoch m + 1)) (mg_active_epoch m + 1)
                        (mg_active_generation m + 1))
| move_cleanup r d i digest :
    in_grace m = true ∨ mg_state m = MsCompleted → proved m ReverseMirrored i digest →
    mg_source_owners m !! r = Some d → mg_receipts m !! (Cleanup, r) = None → r ∈ mg_expected_voters m →
    let m1 := with_receipts m (<[(Cleanup, r) := cleanup_receipt m r i digest d]> (mg_receipts m)) in
    migration_move m
      (if forallb (λ v, bool_decide (is_Some (mg_receipts m1 !! (Cleanup, v)))) (voters m)
       then with_migration_state m1 MsCompleted else m1)
| move_complete :
    in_grace m = true → (∃ i d, proved m ReverseMirrored i d) →
    (∀ v, v ∈ mg_expected_voters m → is_Some (mg_receipts m !! (Cleanup, v))) →
    migration_move m (with_migration_state m MsCompleted).

(** ** The operations make legal moves *)

Lemma elem_of_voters m v : v ∈ voters m ↔ v ∈ mg_expected_voters m.
Proof. unfold voters. by rewrite sort_by_perm, elem_of_elements. Qed.

Lemma voter_proof_Some m k l i d p :
  voter_proof m k k l (Some (i, d)) = Ok p →
  p = Some (i, d) ∧ ∀ v, v ∈ l → ∃ x, mg_receipts m !! (k, v) = Some x ∧
    rc_applied_index x = i ∧ rc_logical_digest x = d.
Proof.
  induction l as [|v l IH]; cbn [voter_proof].
  { intros [= <-]. split; [done|]. by intros ? ?%elem_of_nil. }
  destruct (mg_receipts m !! (k, v)) as [x|] eqn:Hx; [|done].
  intros H. guard_in H as Hc. to_prop. destruct (IH H) as [-> Hl]. split; [done|].
  intros w [->|Hw]%elem_of_cons; [by exists x|by apply Hl].
Qed.

Lemma equal_voter_proof_Ok m k i d : equal_voter_proof m k k = Ok (i, d) → proved m k i d.
Proof.
  unfold equal_voter_proof. intros (p & Hp & Hi%ok_or_Ok)%bind_Ok v Hv%elem_of_voters.
  destruct (voters m) as [|w l]; [by apply elem_of_nil in Hv|]. cbn [voter_proof] in Hp.
  destruct (mg_receipts m !! (k, w)) as [x|] eqn:Hx; [|done].
  apply voter_proof_Some in Hp as [-> Hl]. injection Hi as <- <-.
  apply elem_of_cons in Hv as [->|Hv]; [by exists x|by apply Hl].
Qed.

Lemma proved_equal_voter_proof m k i d :
  mg_expected_voters m ≠ ∅ → proved m k i d → equal_voter_proof m k k = Ok (i, d).
Proof.
  intros Hne Hp. assert (∀ l, (∀ v, v ∈ l → v ∈ mg_expected_voters m) →
    voter_proof m k k l (Some (i, d)) = Ok (Some (i, d))) as Hl.
  { induction l as [|v l IH]; intros Hsub; [done|]. cbn [voter_proof].
    destruct (Hp v (Hsub v ltac:(left))) as (x & -> & -> & ->).
    rewrite Z.eqb_refl, bool_decide_eq_true_2 by done. apply IH. intros w Hw. apply Hsub. by right. }
  unfold equal_voter_proof. destruct (voters m) as [|v l] eqn:Hv.
  { destruct Hne. apply set_eq. intros v. rewrite <-elem_of_voters, Hv. set_solver. }
  cbn [voter_proof]. destruct (Hp v) as (x & -> & -> & ->).
  { apply elem_of_voters. rewrite Hv. left. }
  rewrite Hl; [done|]. intros w Hw. apply elem_of_voters. rewrite Hv. by right.
Qed.

Lemma insert_receipt_cases m x :
  (insert_receipt m x).2 = m ∨
  (validate_receipt m x = Ok tt ∧ mg_receipts m !! (rc_kind x, rc_replica_id x) = None ∧
   insert_receipt m x = (Ok tt, with_receipts m (<[(rc_kind x, rc_replica_id x) := x]> (mg_receipts m)))).
Proof.
  unfold insert_receipt. destruct (validate_receipt m x) as [[]|]; [|by left].
  destruct (mg_receipts m !! _) eqn:Hx; [by left|]. by right.
Qed.

Lemma successor_eq n e : e ≠ 0 → e = successor n → e = n + 1 ∧ n + 1 < 2 ^ 64.
Proof. unfold successor. intros He. case_match; to_prop; lia. Qed.

Lemma cleanup_move m r d p :
  (migration_cleanup m r d p).2 = m ∨ migration_move m (migration_cleanup m r d p).2.
Proof.
  unfold migration_cleanup. case_match eqn:Hg; [by left|].
  apply orb_false_iff in Hg as [[Hg _]%orb_false_iff Hown]. to_prop.
  rewrite orb_true_iff, bool_decide_eq_true in Hg.
  destruct (equal_voter_proof m ReverseMirrored ReverseMirrored) as [[i digest]|] eqn:Hp; [|by left].
  apply equal_voter_proof_Ok in Hp.
  unfold insert_receipt. destruct (validate_receipt m _) as [[]|] eqn:Hv; [|by left].
  cbn [rc_kind rc_replica_id cleanup_receipt].
  destruct (mg_receipts m !! (Cleanup, r)) as [x|] eqn:Hx.
  - case_bool_decide as Heq; [|by left]. cbn [snd].
    destruct (forallb _ (voters m)) eqn:Hall; [|by left].
    destruct Hg as [Hst|Hst].
    + right. apply move_complete; [done|by eauto|]. intros v Hv'%elem_of_voters.
      rewrite forallb_forall in Hall. specialize (Hall v (proj1 (list_elem_of_In _ _) Hv')). by to_prop.
    + left. destruct m; cbn in *. by subst.
  - right. cbn [snd]. apply (move_cleanup m r d i digest); [done..|].
    unfold validate_receipt in Hv. apply bind_Ok in Hv as (_ & _ & Hv). case_match eqn:Hc; [done|].
    cbn in Hc. by to_prop.
Qed.

Lemma run_op_move m op : op_typed op → run_op op m = m ∨ migration_move m (run_op op m).
Proof.
  intros Ht. destruct op as [r s t o|i| |x| |e|t|x|v|e g|r d p]; cbn [run_op op_typed] in *.
  - unfold claim_target_namespace. repeat case_match; try by left. all: to_prop; right; by apply move_claim.
  - unfold begin_backfill. repeat case_match; try by left. right. by apply move_backfill.
  - unfold begin_mirroring. repeat case_match; try by left. right. by apply move_mirror.
  - unfold record_receipt. destruct (mg_state m) eqn:Hs; try by left. case_match eqn:Hk; [by left|]. to_prop.
    destruct (insert_receipt_cases m x) as [|(Hv & Hn & ->)]; [by left|]. right. apply move_receipt; [|done..].
    rewrite Hs. split; [done|lia].
  - unfold migration_prepare. destruct (mg_state m) eqn:Hs; try by left.
    + destruct (equal_voter_proof _ _ _) as [[i d]|] eqn:Hp; [|by left]. right.
      eapply move_prepare; [done|by apply equal_voter_proof_Ok].
    + left. destruct m; cbn in *. by subst.
  - unfold activate. destruct (mg_state m) eqn:Hs; try by left.
    2: { case_match; by left. }
    case_match eqn:He; [|by left]. to_prop. destruct Ht as [_ Ht]. apply successor_eq in He as [-> ?]; [|done].
    right. by eapply move_activate.
  - unfold publish_activation. repeat case_match; try by left. right. by apply move_publish.
  - unfold record_reverse_receipt. case_match eqn:Hg; [by left|]. to_prop.
    destruct (insert_receipt_cases m x) as [Hi|(Hv & Hn & ->)].
    + left. destruct (insert_receipt m x) as [[]]; by cbn in *.
    + right. cbn [snd]. apply move_receipt; [|done..]. unfold in_grace in H. by destruct (mg_state m).
  - unfold migration_abort. destruct (require_catalog m v); [|by left].
    destruct (mg_state m) eqn:Hs; try by left. all: right; apply move_abort; by rewrite Hs.
  - unfold rollback. destruct (_ && _ && _) eqn:Hx; cbn [negb andb].
    + left. to_prop. destruct m; cbn in *. destruct mg_state0; try done. to_prop. by subst.
    + destruct (_ || _) eqn:Hc; [by left|].
      apply orb_false_iff in Hc as [[Hgr Hep]%orb_false_iff Hgen]. to_prop.
      destruct Ht as [[_ He] [_ Hg]].
      apply successor_eq in Hep as [-> ?]; [|done]. apply successor_eq in Hgen as [-> ?]; [|done].
      unfold in_grace in Hgr. right. destruct (mg_state m) eqn:Hs; try done. by eapply move_rollback.
  - apply cleanup_move.
Qed.

(** ** Invariant *)

(** Before the cutover the source is active; afterwards the active epoch and generation have moved on
    together. *)
Definition cut_over (m : MigrationRecord) : bool :=
  match mg_state m with MsActivating _ | MsGrace _ _ | MsCompleted => true | _ => false end.

(** A cleanup receipt names the source owner of its voter and carries the digest that all voters have
    mirrored back. *)
Definition cleanup_ok (m : MigrationRecord) (r : ReplicaId) (x : MigrationReceipt) : Prop :=
  rc_owner_identity x = mg_source_owners m !! r ∧ is_Some (rc_owner_identity x) ∧
  proved m ReverseMirrored (rc_applied_index x) (rc_logical_digest x).

Record migration_ok (m : MigrationRecord) : Prop := {
  ok_source : 0 < mg_source_epoch m;
  ok_target : mg_target_generation m = mg_source_generation m + 1;
  ok_voters : mg_expected_voters m ≠ ∅;
  ok_epoch : mg_active_epoch m < 2 ^ 64;
  ok_receipts k r x :
    mg_receipts m !! (k, r) = Some x → rc_kind x = k ∧ rc_replica_id x = r ∧ validate_receipt m x = Ok tt;
  ok_cleanup r x : mg_receipts m !! (Cleanup, r) = Some x → cleanup_ok m r x;
  ok_allocating : mg_state m = MsAllocating → mg_receipts m = ∅;
  ok_prepared j d : mg_state m = MsPrepared j d → proved m ForwardMirrored j d;
  ok_activating e : mg_state m = MsActivating e → e = mg_active_epoch m;
  ok_grace e t : mg_state m = MsGrace e t → e = mg_active_epoch m;
  ok_completed v :
    mg_state m = MsCompleted → v ∈ mg_expected_voters m → is_Some (mg_receipts m !! (Cleanup, v));
  ok_lockstep : mg_active_generation m - mg_source_generation m = mg_active_epoch m - mg_source_epoch m;
  ok_before : cut_over m = false → mg_active_epoch m = mg_source_epoch m;
  ok_after :
    cut_over m = true → mg_source_epoch m < mg_active_epoch m ∧ ∃ j d, proved m ForwardMirrored j d;
}.

Lemma validate_receipt_voter m x : validate_receipt m x = Ok tt → rc_replica_id x ∈ mg_expected_voters m.
Proof.
  unfold validate_receipt. intros (_ & _ & H)%bind_Ok. case_match eqn:Hc; [done|].
  apply orb_false_iff in Hc as [_ Hc]. by to_prop.
Qed.

Lemma proved_insert m k i d key x :
  mg_receipts m !! key = None →
  proved m k i d → proved (with_receipts m (<[key := x]> (mg_receipts m))) k i d.
Proof.
  intros Hn Hp v Hv. destruct (Hp v Hv) as (y & Hy & ?). exists y. split; [|done]. cbn.
  rewrite lookup_insert_ne; [done|]. congruence.
Qed.

Lemma migration_start_ok m : migration_start m → migration_ok m.
Proof.
  intros (id & gr & sh & ver & e & g & c & t & tc & vs & [[He1 He2] He3] & _ & Hnew). unfold migration_new_inner in Hnew.
  case_match eqn:Ho; [|done]. case_match eqn:Hc; [done|].
  apply orb_false_iff in Hc as [[Ht Hv]%orb_false_iff _]. to_prop. apply (inj Ok) in Hnew as <-.
  split; cbn; try done; try lia; intros *; by rewrite lookup_empty.
Qed.

(** A move that keeps receipts and owners: the record stays well-formed when its new phase is
    justified. *)
Lemma migration_ok_activation m s e g :
  migration_ok m →
  (s = MsAllocating → mg_receipts m = ∅) →
  (∀ j d, s = MsPrepared j d → proved m ForwardMirrored j d) →
  (∀ e', s = MsActivating e' → e' = e) →
  (∀ e' t, s = MsGrace e' t → e' = e) →
  (∀ v, s = MsCompleted → v ∈ mg_expected_voters m → is_Some (mg_receipts m !! (Cleanup, v))) →
  e < 2 ^ 64 → g - mg_source_generation m = e - mg_source_epoch m →
  (cut_over (with_activation m s e g) = false → e = mg_source_epoch m) →
  (cut_over (with_activation m s e g) = true →
     mg_source_epoch m < e ∧ ∃ j d, proved m ForwardMirrored j d) →
  migration_ok (with_activation m s e g).
Proof.
  intros [] Hal Hpr Hep Het Hco Hlt Hls Hbe Haf. by split.
Qed.

Lemma migration_ok_receipt m x :
  migration_ok m → mg_state m ≠ MsAllocating →
  validate_receipt m x = Ok tt → mg_receipts m !! (rc_kind x, rc_replica_id x) = None →
  (rc_kind x = Cleanup → cleanup_ok m (rc_replica_id x) x) →
  migration_ok (with_receipts m (<[(rc_kind x, rc_replica_id x) := x]> (mg_receipts m))).
Proof.
  intros Hok Hst Hv Hn Hc. pose proof Hok as []. split; cbn; try done.
  - intros k r y [[[= <- <-] <-]|[_ Hy]]%lookup_insert_Some; [done|]. by apply (ok_receipts m).
  - intros r y [[[=] <-]|[_ Hy]]%lookup_insert_Some.
    + subst. destruct Hc as (? & ? & ?); [done|]. split; [done|]. split; [done|]. by apply proved_insert.
    + destruct (ok_cleanup m Hok r y Hy) as (? & ? & ?). split; [done|]. split; [done|].
      by apply proved_insert.
  - intros j d Hs. apply proved_insert; eauto.
  - intros v Hs Hv'. rewrite lookup_insert_is_Some'. eauto.
  - intros Hcut. destruct (ok_after m Hok Hcut) as (? & j & d & ?). split; [done|].
    exists j, d. by apply proved_insert.
Qed.

Lemma migration_ok_owners m r s t :
  migration_ok m → mg_state m = MsAllocating →
  migration_ok (with_owners m (<[r := s]> (mg_source_owners m)) (<[r := t]> (mg_target_owners m))).
Proof.
  intros Hok Hs. pose proof (ok_allocating m Hok Hs) as Hr. pose proof Hok as [].
  split; cbn; try done. intros r' x. by rewrite Hr, lookup_empty.
Qed.

Lemma migration_move_ok m m' : migration_ok m → migration_move m m' → migration_ok m'.
Proof.
  intros Hok Hm. pose proof (ok_lockstep m Hok) as Hls. pose proof (ok_epoch m Hok) as Hlt.
  pose proof (ok_before m Hok) as Hbe. pose proof (ok_after m Hok) as Haf. unfold cut_over in Hbe, Haf.
  destruct Hm as [r s t Hs|i Hs|i Hs|x Hs Hv Hn|i j d Hs Hp|j d Hs Hb|e t Hs|Hs|e t Hs Hb Hb'
                 |r d i digest Hs Hp Ho Hn Hr|Hs Hp Hc].
  - by apply migration_ok_owners.
  - rewrite Hs in Hbe. apply migration_ok_activation; by naive_solver.
  - rewrite Hs in Hbe. apply migration_ok_activation; by naive_solver.
  - apply migration_ok_receipt; [done| |done|done|].
    + by destruct (mg_state m).
    + intros Hk. rewrite Hk in Hs. destruct (mg_state m); try done. by destruct Hs as [[|] _].
  - rewrite Hs in Hbe. apply migration_ok_activation; by naive_solver.
  - pose proof (ok_target m Hok). rewrite Hs in Hbe.
    apply migration_ok_activation; try done; [naive_solver|lia|].
    intros _. split; [lia|]. eauto using ok_prepared.
  - pose proof (ok_activating m Hok e Hs). rewrite Hs in Haf. apply migration_ok_activation; naive_solver.
  - apply migration_ok_activation; try done. intros _. apply Hbe. by destruct (mg_state m).
  - rewrite Hs in Haf. destruct (Haf eq_refl) as [? ?]. apply migration_ok_activation; try done; try lia.
    + naive_solver.
    + intros _. split; [lia|done].
  - assert (migration_ok (with_receipts m (<[(Cleanup, r):=cleanup_receipt m r i digest d]>
      (mg_receipts m)))) as Hok1.
    { assert (cleanup_ok m r (cleanup_receipt m r i digest d)) by (split; [done|]; split; [by eexists|done]).
      apply (migration_ok_receipt m (cleanup_receipt m r i digest d)); try done.
      + intros Ha. unfold in_grace in Hs. rewrite Ha in Hs. naive_solver.
      + unfold validate_receipt, require_catalog. cbn. rewrite !Z.eqb_refl, !bool_decide_eq_true_2 by done.
        done. }
    cbv zeta. destruct (forallb _ (voters m)) eqn:Hall; [|done].
    apply (migration_ok_activation _ MsCompleted); try done.
    + intros v _ Hv%elem_of_voters. rewrite forallb_forall in Hall.
      specialize (Hall v (proj1 (list_elem_of_In _ _) Hv)). by to_prop.
    + intros _. apply (ok_after _ Hok1). unfold cut_over, in_grace in *. cbn.
      destruct (mg_state m); naive_solver.
  - apply migration_ok_activation; try done; [by eauto|]. intros _. apply Haf. unfold in_grace in Hs. by destruct (mg_state m).
Qed.

Lemma migration_reachable_ok m : migration_reachable m → migration_ok m.
Proof.
  intros (m0 & Hs%migration_start_ok & Hr). induction Hr as [|m1 m2 m3 (op & Ht & ->) _ IH]; [done|].
  apply IH. destruct (run_op_move m1 op Ht) as [->|?]; [done|]. by eapply migration_move_ok.
Qed.

(** ** Fencing *)

(** What no operation takes back. *)
Definition extends (m m' : MigrationRecord) : Prop :=
  mg_source_epoch m' = mg_source_epoch m ∧ mg_source_generation m' = mg_source_generation m ∧
  mg_expected_voters m' = mg_expected_voters m ∧
  mg_receipts m ⊆ mg_receipts m' ∧ mg_source_owners m ⊆ mg_source_owners m' ∧
  mg_target_owners m ⊆ mg_target_owners m' ∧ mg_active_epoch m ≤ mg_active_epoch m'.

#[export] Instance extends_preorder : PreOrder extends.
Proof.
  split; [by intros m; repeat split|]. intros m1 m2 m3 (?&?&?&?&?&?&?) (?&?&?&?&?&?&?).
  split; [congruence|]. split; [congruence|]. split; [congruence|]. split; [by etrans|].
  split; [by etrans|]. split; [by etrans|lia].
Qed.

Lemma conflicting_owner_subseteq (owners : gmap ReplicaId Digest32) r d :
  conflicting_owner owners r d = false → owners ⊆ <[r := d]> owners.
Proof.
  unfold conflicting_owner. destruct (owners !! r) as [o|] eqn:Ho; intros H; to_prop; subst.
  - by rewrite insert_id.
  - by apply insert_subseteq.
Qed.

Lemma migration_move_extends m m' : migration_ok m → migration_move m m' → extends m m'.
Proof.
  intros Hok Hm. pose proof (ok_before m Hok) as Hbe. unfold cut_over in Hbe.
  destruct Hm; unfold extends; try by repeat split.
  - repeat (split; [done|]). split; [by apply conflicting_owner_subseteq|].
    split; [by apply conflicting_owner_subseteq|done].
  - repeat (split; [done|]). split; [by apply insert_subseteq|done].
  - rewrite H in Hbe. specialize (Hbe eq_refl). repeat (split; [done|]). cbn. lia.
  - repeat (split; [done|]). cbn. lia.
  - subst m1. destruct (forallb _ _); repeat (split; [done|]); (split; [by apply insert_subseteq|done]).
Qed.

Lemma migration_step_cases m m' :
  migration_ok m → migration_step m m' → m' = m ∨ (migration_move m m' ∧ migration_ok m').
Proof.
  intros Hok (op & Ht & ->). destruct (run_op_move m op Ht); [by left|]. right.
  eauto using migration_move_ok.
Qed.

Lemma migration_steps_extend m m' :
  migration_ok m → rtc migration_step m m' → extends m m' ∧ migration_ok m'.
Proof.
  intros Hok Hr. induction Hr as [|m1 m2 m3 Hs _ IH]; [done|].
  apply migration_step_cases in Hs as [->|[Hm Hok']]; [by apply IH| |done].
  destruct (IH Hok') as [He ?]. split; [|done]. etrans; [by eapply migration_move_extends|done].
Qed.

(** A migration that has completed or aborted never changes again. *)
Definition finished (m : MigrationRecord) : bool :=
  bool_decide (mg_state m = MsCompleted ∨ mg_state m = MsAborted).

Lemma finished_final m m' : migration_ok m → finished m = true → migration_move m m' → False.
Proof.
  unfold finished. intros Hok Hf Hm. to_prop. destruct Hm; unfold in_grace in *; try naive_solver congruence.
  - destruct (mg_state m); naive_solver.
  - destruct (mg_state m); naive_solver.
  - destruct Hf as [Hf|Hf]; [|rewrite Hf in H; naive_solver].
    destruct (ok_completed m Hok r Hf); [done|congruence].
  - destruct (mg_state m); naive_solver.
Qed.

(** ** Termination *)

Definition phase_rank (s : MigrationState) : Z :=
  match s with
  | MsAllocating => 7 | MsBackfilling _ => 6 | MsMirroring _ => 5 | MsPrepared _ _ => 4
  | MsActivating _ => 3 | MsGrace _ _ => 2 | MsCompleted => 1 | MsAborted => 0
  end.

(** The receipts and the claims that can still be recorded. *)
Definition receipt_keys (voters : gset ReplicaId) : gset (MigrationReceiptKind * ReplicaId) :=
  set_map (Verified,.) voters ∪ set_map (ForwardMirrored,.) voters ∪
  set_map (ReverseMirrored,.) voters ∪ set_map (Cleanup,.) voters.
Definition missing (m : MigrationRecord) : nat :=
  (size (receipt_keys (mg_expected_voters m) ∖ dom (mg_receipts m)) +
   size (mg_expected_voters m ∖ dom (mg_source_owners m)) +
   size (mg_expected_voters m ∖ dom (mg_target_owners m)))%nat.
Definition missing_bound (m : MigrationRecord) : Z :=
  Z.of_nat (size (receipt_keys (mg_expected_voters m)) + 2 * size (mg_expected_voters m)).

(** Lexicographic: the epochs left, the phases left, the entries left. *)
Definition weight (m : MigrationRecord) : Z :=
  ((2 ^ 64 - mg_active_epoch m) * 8 + phase_rank (mg_state m)) * (missing_bound m + 1) +
  Z.of_nat (missing m).

Lemma elem_of_receipt_keys vs k r : (k, r) ∈ receipt_keys vs ↔ r ∈ vs.
Proof. unfold receipt_keys. destruct k; set_solver. Qed.

Lemma size_insert_missing `{Countable K} {V} (X : gset K) (m : gmap K V) k v :
  k ∈ X → m !! k = None → (size (X ∖ dom (<[k := v]> m)) < size (X ∖ dom m))%nat.
Proof.
  intros Hk Hn%not_elem_of_dom. apply subset_size. rewrite dom_insert. split; [set_solver|].
  intros Hsub. specialize (Hsub k). set_solver.
Qed.

Lemma missing_le m : Z.of_nat (missing m) ≤ missing_bound m.
Proof.
  unfold missing, missing_bound.
  pose proof (subseteq_size (receipt_keys (mg_expected_voters m) ∖ dom (mg_receipts m))
    (receipt_keys (mg_expected_voters m)) ltac:(set_solver)).
  pose proof (subseteq_size (mg_expected_voters m ∖ dom (mg_source_owners m))
    (mg_expected_voters m) ltac:(set_solver)).
  pose proof (subseteq_size (mg_expected_voters m ∖ dom (mg_target_owners m))
    (mg_expected_voters m) ltac:(set_solver)). lia.
Qed.

Lemma weight_phase m m' :
  mg_expected_voters m' = mg_expected_voters m →
  (2 ^ 64 - mg_active_epoch m') * 8 + phase_rank (mg_state m') <
    (2 ^ 64 - mg_active_epoch m) * 8 + phase_rank (mg_state m) →
  weight m' < weight m.
Proof.
  intros Hv Hlt. pose proof (missing_le m'). unfold weight, missing_bound in *. rewrite Hv in *. nia.
Qed.

Lemma weight_missing m m' :
  mg_expected_voters m' = mg_expected_voters m → mg_active_epoch m' = mg_active_epoch m →
  mg_state m' = mg_state m → (missing m' < missing m)%nat → weight m' < weight m.
Proof. intros Hv He Hs Hlt. unfold weight, missing_bound. rewrite Hv, He, Hs. lia. Qed.

Lemma weight_receipt m x k r :
  r ∈ mg_expected_voters m → mg_receipts m !! (k, r) = None →
  weight (with_receipts m (<[(k, r) := x]> (mg_receipts m))) < weight m.
Proof.
  intros Hr Hn. apply weight_missing; try done. unfold missing. cbn.
  pose proof (size_insert_missing (receipt_keys (mg_expected_voters m)) (mg_receipts m) (k, r) x
    (proj2 (elem_of_receipt_keys _ _ _) Hr) Hn). lia.
Qed.

Lemma size_insert_owner (X : gset ReplicaId) (owners : gmap ReplicaId Digest32) r d :
  r ∈ X → conflicting_owner owners r d = false →
  <[r := d]> owners = owners ∨ (size (X ∖ dom (<[r := d]> owners)) < size (X ∖ dom owners))%nat.
Proof.
  unfold conflicting_owner. intros Hr. destruct (owners !! r) as [o|] eqn:Ho; intros H; to_prop; subst.
  - left. by apply insert_id.
  - right. by apply size_insert_missing.
Qed.

Lemma weight_claim m r s t :
  r ∈ mg_expected_voters m →
  conflicting_owner (mg_source_owners m) r s = false →
  conflicting_owner (mg_target_owners m) r t = false →
  let m' := with_owners m (<[r := s]> (mg_source_owners m)) (<[r := t]> (mg_target_owners m)) in
  m' = m ∨ weight m' < weight m.
Proof.
  intros Hr Hs Ht m'.
  destruct (size_insert_owner _ _ r s Hr Hs) as [Hs'|Hs'], (size_insert_owner _ _ r t Hr Ht) as [Ht'|Ht'].
  { left. subst m'. rewrite Hs', Ht'. by destruct m. }
  all: right; apply weight_missing; try done; unfold missing; cbn; rewrite ?Hs', ?Ht'; lia.
Qed.

Lemma migration_move_weight m m' :
  migration_ok m → migration_move m m' → m' = m ∨ weight m' < weight m.
Proof.
  intros Hok Hm. pose proof (ok_before m Hok) as Hbe. unfold cut_over in Hbe.
  destruct Hm as [r s t Hs Hr Hso Hto|i Hs|i Hs|x Hs Hv Hn|i j d Hs Hp|j d Hs Hb|e t Hs|Hs|e t Hs Hb Hb'
                 |r d i digest Hs Hp Ho Hn Hr|Hs Hp Hc].
  - by apply weight_claim.
  - right. apply weight_phase; [done|]. rewrite Hs. cbn. lia.
  - right. apply weight_phase; [done|]. rewrite Hs. cbn. lia.
  - right. apply weight_receipt; [by apply validate_receipt_voter|done].
  - right. apply weight_phase; [done|]. rewrite Hs. cbn. lia.
  - right. rewrite Hs in Hbe. specialize (Hbe eq_refl). apply weight_phase; [done|]. rewrite Hs. cbn. lia.
  - right. apply weight_phase; [done|]. rewrite Hs. cbn. lia.
  - right. apply weight_phase; [done|]. cbn. destruct (mg_state m); cbn; try done; lia.
  - right. apply weight_phase; [done|]. rewrite Hs. cbn. lia.
  - right. cbv zeta. destruct (forallb _ _); [|by apply weight_receipt].
    destruct Hs as [Hs|Hs]; [|destruct (ok_completed m Hok r Hs Hr); congruence].
    unfold in_grace in Hs. apply weight_phase; [done|]. cbn. destruct (mg_state m); cbn; try done; lia.
  - right. unfold in_grace in Hs. apply weight_phase; [done|]. cbn. destruct (mg_state m); cbn; try done; lia.
Qed.

Lemma weight_nonneg m : migration_ok m → 0 ≤ weight m.
Proof.
  intros Hok. pose proof (ok_epoch m Hok). unfold weight, missing_bound.
  assert (0 ≤ phase_rank (mg_state m)) by (by destruct (mg_state m)). nia.
Qed.

(** ** Properties *)

(** C18. The data moves before the authority does, and is kept until it has moved back. In every
    reachable record: before the cutover, and after an abort, exactly the source epoch and generation
    are accepted; once another pair is accepted the source pair is refused and every expected voter
    holds a valid forward receipt with one common index and digest; a cleanup receipt is only held for
    the owner that the voter's source namespace was claimed with, and only after every voter holds a
    valid reverse receipt with one common index and digest; a completed migration holds one for every
    voter. *)
Theorem migration_safety m :
  migration_reachable m →
  let held k i d := ∀ v, v ∈ mg_expected_voters m → ∃ x,
    mg_receipts m !! (k, v) = Some x ∧ validate_receipt m x = Ok tt ∧
    rc_applied_index x = i ∧ rc_logical_digest x = d in
  (cut_over m = false →
     ∀ e g, accepts m e g = true ↔ e = mg_source_epoch m ∧ g = mg_source_generation m) ∧
  (∀ e g, accepts m e g = true → (e, g) ≠ (mg_source_epoch m, mg_source_generation m) →
     accepts m (mg_source_epoch m) (mg_source_generation m) = false ∧
     ∃ i d, held ForwardMirrored i d) ∧
  (∀ r x, mg_receipts m !! (Cleanup, r) = Some x →
     rc_owner_identity x = mg_source_owners m !! r ∧ is_Some (mg_source_owners m !! r) ∧
     held ReverseMirrored (rc_applied_index x) (rc_logical_digest x)) ∧
  (mg_state m = MsCompleted →
     ∀ v, v ∈ mg_expected_voters m → is_Some (mg_receipts m !! (Cleanup, v))).
Proof.
  intros Hok%migration_reachable_ok held. pose proof (ok_lockstep m Hok).
  assert (∀ k i d, proved m k i d → held k i d) as Hheld.
  { intros k i d Hp v Hv. destruct (Hp v Hv) as (x & Hx & ? & ?). exists x.
    by destruct (ok_receipts m Hok k v x Hx) as (_ & _ & ?). }
  unfold accepts. split; [|split; [|split]].
  - intros Hb%(ok_before m Hok) e g. rewrite andb_true_iff, !Z.eqb_eq. lia.
  - intros e g Ha Hne. to_prop. destruct (cut_over m) eqn:Hc.
    + destruct (ok_after m Hok Hc) as (? & j & d & ?). split; [|by eauto].
      apply andb_false_iff. left. apply Z.eqb_neq. lia.
    + apply (ok_before m Hok) in Hc. destruct Hne. f_equal; lia.
  - intros r x Hx. destruct (ok_cleanup m Hok r x Hx) as (Ho & Hs & Hp).
    split; [done|]. rewrite <-Ho. split; [done|by apply Hheld].
  - intros Hs v Hv. by apply (ok_completed m Hok).
Qed.

(** Epochs fence generations. Along every run the accepted epoch never falls, receipts and claimed
    owners are never dropped or replaced, one epoch never names two generations, and a completed or
    aborted migration does not change any more. *)
Theorem migration_fencing m m' e g g' :
  migration_reachable m → rtc migration_step m m' →
  mg_active_epoch m ≤ mg_active_epoch m' ∧
  mg_receipts m ⊆ mg_receipts m' ∧ mg_source_owners m ⊆ mg_source_owners m' ∧
  mg_target_owners m ⊆ mg_target_owners m' ∧
  (accepts m e g = true → accepts m' e g' = true → g = g') ∧
  (finished m = true → m' = m).
Proof.
  intros Hok%migration_reachable_ok Hr.
  destruct (migration_steps_extend m m' Hok Hr) as [(Hse & Hsg & _ & ? & ? & ? & ?) Hok'].
  repeat (split; [done|]). split.
  - pose proof (ok_lockstep m Hok). pose proof (ok_lockstep m' Hok'). unfold accepts.
    rewrite !andb_true_iff, !Z.eqb_eq. lia.
  - intros Hf. clear -Hok Hf Hr. induction Hr as [|m1 m2 m3 Hs _ IH]; [done|].
    apply migration_step_cases in Hs as [->|[Hm _]]; [by apply IH| |done].
    destruct (finished_final m1 m2 Hok Hf Hm).
Qed.

(** C19. Migrations do not run forever. From every reachable record, each sequence of operations that
    change the record is finite, whatever operations are called in whatever order, although rollbacks
    can return an activated migration to its activation. *)
Theorem migration_terminates m :
  migration_reachable m → Acc (λ m2 m1, migration_step m1 m2 ∧ m2 ≠ m1) m.
Proof.
  intros Hok%migration_reachable_ok.
  remember (Z.to_nat (weight m)) as w eqn:Hw. revert m Hok Hw.
  induction (Nat.lt_wf_0 w) as [w _ IH]. intros m Hok ->. constructor. intros m' [Hs Hne].
  apply migration_step_cases in Hs as [->|[Hm Hok']]; [done| |done].
  pose proof (weight_nonneg m' Hok').
  destruct (migration_move_weight m m' Hok Hm); [done|]. apply (IH (Z.to_nat (weight m'))); [lia|done..].
Qed.

(** C39. Cleanup after a rollback deletes what the rollback reactivated. From any reachable record in
    its grace period whose voters have all mirrored back, a rollback names the retained source
    namespace to activate again; once that activation is published, cleanup still accepts the owner
    of the same namespace and answers the action that deletes it. *)
Theorem cleanup_after_rollback m r d t i digest :
  migration_reachable m → in_grace m = true →
  mg_active_epoch m + 1 < 2 ^ 64 → mg_active_generation m + 1 < 2 ^ 64 → t ≠ 0 →
  head (entries (mg_source_owners m)) = Some (r, d) → r ∈ mg_expected_voters m →
  proved m ReverseMirrored i digest → mg_receipts m !! (Cleanup, r) = None →
  ∃ rolled published m1 m2,
    rollback m (mg_active_epoch m + 1) (mg_active_generation m + 1) = (Ok rolled, m1) ∧
    ma_kind rolled = MkRollback ∧ ma_retained_owner_identity rolled = Some d ∧
    publish_activation m1 t = (Ok published, m2) ∧
    ∃ cleaned, (migration_cleanup m2 r d true).1 = Ok cleaned ∧
      ma_kind cleaned = MkCleanup ∧ ma_replica_id cleaned = Some r ∧ ma_owner_identity cleaned = Some d.
Proof.
  intros Hok%migration_reachable_ok Hg He Hgen Ht Hd Hr Hp Hn.
  set (m1 := with_activation m (MsActivating (mg_active_epoch m + 1)) (mg_active_epoch m + 1)
               (mg_active_generation m + 1)).
  set (m2 := with_migration_state m1 (MsGrace (mg_active_epoch m + 1) t)).
  eexists _, _, m1, m2. split.
  { unfold rollback, successor. rewrite Hg, (proj2 (Z.ltb_lt _ _) He), (proj2 (Z.ltb_lt _ _) Hgen), !Z.eqb_refl.
    rewrite andb_false_r. reflexivity. }
  split; [done|]. split.
  { cbn. unfold values. destruct (entries (mg_source_owners m)) as [|[??] ?]; [done|]. by simplify_eq/=. }
  split.
  { unfold publish_activation. rewrite (proj2 (Z.eqb_neq _ _) Ht). reflexivity. }
  assert (mg_source_owners m2 !! r = Some d) as Hown.
  { cbn. apply elem_of_entries. destruct (entries (mg_source_owners m)) as [|[??] ?]; [done|].
    injection Hd as -> ->. left. }
  assert (validate_receipt m2 (cleanup_receipt m2 r i digest d) = Ok tt) as Hv.
  { unfold validate_receipt, require_catalog. cbn. by rewrite !Z.eqb_refl, !bool_decide_eq_true_2 by done. }
  unfold migration_cleanup. rewrite (bool_decide_eq_true_2 _ Hown).
  rewrite (proved_equal_voter_proof m2 ReverseMirrored i digest (ok_voters m Hok) Hp).
  unfold insert_receipt. rewrite Hv. cbn [rc_kind rc_replica_id cleanup_receipt].
  change (mg_receipts m2) with (mg_receipts m). rewrite Hn. cbn [in_grace]. by eexists.
Qed.

(** ** A migration of two voters *)

Definition run_ops (ops : list MigrationOp) (m : MigrationRecord) : MigrationRecord :=
  fold_left (λ m op, run_op op m) ops m.

Lemma run_ops_steps ops m : Forall op_typed ops → rtc migration_step m (run_ops ops m).
Proof.
  intros Ht. revert m. induction Ht as [|op ops Hop _ IH]; intros m; [done|].
  eapply rtc_l; [by exists op|]. apply IH.
Qed.

Definition example_digest (n : Z) : Digest32 := replicate 32 n.
Definition example_target_class : BackendClass := Eval vm_compute in
  match BackendClass_new checksum32 PostgreSql 1 1 ["point"] with
  | Ok class => class
  | Err _ => mkBackendClass PostgreSql 0 0 DurableCommit (mkCapabilityManifest [] []) []
  end.

(** Migration 1 of shard 1 from generation 4 under epoch 7, with the voters 1 and 2. *)
Definition example_migration : MigrationRecord := Eval vm_compute in
  match MigrationRecord_new 1 1 1 3 7 4 5 example_target_class [1; 2] with
  | Ok m => m
  | Err _ => mkMigration 0 0 0 0 0 0 None 0 example_target_class ∅ ∅ ∅ ∅ MsAborted 0 0
  end.

Definition example_receipt (kind : MigrationReceiptKind) (replica index : Z) : MigrationReceipt :=
  mkReceipt kind 1 replica 3 4 5 (bc_digest example_target_class) index (example_digest 8) None false.

Definition example_ops : list MigrationOp :=
  [OpClaim 1 (example_digest 1) (example_digest 2) None;
   OpClaim 2 (example_digest 3) (example_digest 4) (Some (example_digest 4));
   OpBackfill 10; OpMirror; OpReceipt (example_receipt ForwardMirrored 1 12);
   OpReceipt (example_receipt ForwardMirrored 2 12); OpPrepare; OpActivate 8; OpPublish 99;
   OpReverse (example_receipt ReverseMirrored 1 20); OpReverse (example_receipt ReverseMirrored 2 20)].
Definition example_grace : MigrationRecord := Eval vm_compute in run_ops example_ops example_migration.
Definition example_completed : MigrationRecord := Eval vm_compute in
  run_ops [OpCleanup 1 (example_digest 1) true; OpCleanup 2 (example_digest 3) true] example_grace.

Lemma example_migration_start : migration_start example_migration.
Proof.
  exists 1, 1, 1, 3, 7, 4, None, 5, example_target_class, [1; 2].
  split; [by vm_compute|]. split; [by vm_compute|]. vm_compute. reflexivity.
Qed.

Lemma example_grace_reachable : migration_reachable example_grace.
Proof.
  exists example_migration. split; [apply example_migration_start|].
  replace example_grace with (run_ops example_ops example_migration) by (vm_compute; reflexivity).
  apply run_ops_steps. repeat constructor; vm_compute; done.
Qed.

Lemma example_completed_steps : rtc migration_step example_grace example_completed.
Proof.
  replace example_completed with (run_ops [OpCleanup 1 (example_digest 1) true;
    OpCleanup 2 (example_digest 3) true] example_grace) by (vm_compute; reflexivity).
  apply run_ops_steps. repeat constructor.
Qed.

Lemma example_completed_reachable : migration_reachable example_completed.
Proof.
  destruct example_grace_reachable as (m0 & Hs & Hr). exists m0. split; [done|].
  etrans; [done|apply example_completed_steps].
Qed.

Lemma migration_safety_witness :
  mg_state example_completed = MsCompleted ∧ 2 ∈ mg_expected_voters example_completed ∧
  is_Some (mg_receipts example_completed !! (Cleanup, 2)).
Proof.
  split; [reflexivity|]. split; [vm_compute; reflexivity|].
  refine (proj2 (proj2 (proj2 (migration_safety example_completed example_completed_reachable))) _ 2 _);
    vm_compute; reflexivity.
Defined.

Lemma migration_fencing_witness :
  accepts example_grace 8 5 = true ∧ accepts example_completed 8 5 = true ∧
  ∀ g, accepts example_completed 8 g = true → 5 = g.
Proof.
  split; [reflexivity|]. split; [reflexivity|]. intros g.
  refine (proj1 (proj2 (proj2 (proj2 (proj2 (migration_fencing example_grace example_completed 8 5 g
    example_grace_reachable example_completed_steps))))) _). reflexivity.
Defined.

Lemma migration_terminates_witness :
  Acc (λ m2 m1, migration_step m1 m2 ∧ m2 ≠ m1) example_grace.
Proof. exact (migration_terminates example_grace example_grace_reachable). Defined.

Lemma cleanup_after_rollback_witness :
  ∃ rolled published m1 m2,
    rollback example_grace 9 6 = (Ok rolled, m1) ∧
    ma_kind rolled = MkRollback ∧ ma_retained_owner_identity rolled = Some (example_digest 1) ∧
    publish_activation m1 120 = (Ok published, m2) ∧
    ∃ cleaned, (migration_cleanup m2 1 (example_digest 1) true).1 = Ok cleaned ∧
      ma_kind cleaned = MkCleanup ∧ ma_replica_id cleaned = Some 1 ∧
      ma_owner_identity cleaned = Some (example_digest 1).
Proof.
  apply (cleanup_after_rollback example_grace 1 (example_digest 1) 120 20 (example_digest 8));
    [apply example_grace_reachable|vm_compute; reflexivity..|done|vm_compute; reflexivity
    |vm_compute; reflexivity| |vm_compute; reflexivity].
  intros v Hv. assert (v = 1 ∨ v = 2) as [->| ->].
  { apply (elem_of_elements (C := gset Z)) in Hv. vm_compute in Hv. set_solver. }
  - exists (example_receipt ReverseMirrored 1 20). vm_compute. auto.
  - exists (example_receipt ReverseMirrored 2 20). vm_compute. auto.
Defined.
