(* ===== verification/Consensus.v ===== *)
(** * Consensus stores ([dtg-storage/src/consensus.rs])

    Commands and entries of a Raft log, the durable Raft state, and the part of the trait
    [ConsensusStore] that appends, reads and configures, as a class with the contract its
    documentation states. *)

From S2P Require Import Prelude Kernel Encoding Storage.
Open Scope Z_scope.

Definition SUPPORTED_CONSENSUS_COMMAND_FORMAT_VERSION : Z := 1.
Definition SUPPORTED_CONSENSUS_WAL_FORMAT_VERSION : Z := 1.

Record ConsensusCommandEnvelope := mkEnvelope {
  env_format_version : Z;
  env_payload : bytes;
  env_digest : Digest32;
}.
#[export] Instance ConsensusCommandEnvelope_eq_dec : EqDecision ConsensusCommandEnvelope.
Proof. solve_decision. Defined.

Record ConsensusEntry := mkConsensusEntry {
  ce_wal_format_version : Z;
  ce_term : Z;
  ce_index : Z;
  ce_command_id : CommandId;
  ce_command_digest : Digest32;
  ce_command : ConsensusCommandEnvelope;
}.
#[export] Instance ConsensusEntry_eq_dec : EqDecision ConsensusEntry.
Proof. solve_decision. Defined.

Section envelope.
Context (blake3 : bytes → Digest32).

Definition ConsensusCommandEnvelope_new (format_version : Z) (payload : bytes)
    : result StorageError ConsensusCommandEnvelope :=
  if negb (format_version =? SUPPORTED_CONSENSUS_COMMAND_FORMAT_VERSION) || bool_decide (payload = [])
  then Err (InvalidConsensus "unsupported or empty consensus command envelope")
  else
    Ok (mkEnvelope format_version payload
          (blake3 (as_bytes "dtg-consensus-command-envelope-v1" ++ be_bytes 4 format_version ++
                   be_bytes 8 (Z.of_nat (length payload)) ++ payload))).
End envelope.

Definition ConsensusEntry_new (wal_format_version term index : Z) (command_id : CommandId)
    (command : ConsensusCommandEnvelope) : result StorageError ConsensusEntry :=
  if negb (wal_format_version =? SUPPORTED_CONSENSUS_WAL_FORMAT_VERSION) || (term =? 0) || (index =? 0)
  then Err (InvalidConsensus "unsupported consensus WAL format or incomplete entry identity")
  else Ok (mkConsensusEntry wal_format_version term index command_id (env_digest command) command).

Record RaftHardState := mkHardState {
  hs_current_term : Z;
  hs_voted_for : option ReplicaId;
  hs_committed_index : Z;
}.
#[export] Instance RaftHardState_eq_dec : EqDecision RaftHardState.
Proof. solve_decision. Defined.

(** [#[derive(Default)]]. *)
Definition RaftHardState_default : RaftHardState := mkHardState 0 None 0.

Record RaftMembership := mkMembership {
  mb_voters : list ReplicaId;
  mb_learners : list ReplicaId;
  mb_configuration_index : Z;
}.
#[export] Instance RaftMembership_eq_dec : EqDecision RaftMembership.
Proof. solve_decision. Defined.

(** ** The trait *)

Class ConsensusStore (S : Type) := {
  consensus_binding : S → ReplicaBinding;
  consensus_append : S → list ConsensusEntry → result StorageError unit * S;
  consensus_entries : S → Z → Z → Z → result StorageError (list ConsensusEntry);
  consensus_truncate_suffix : S → Z → result StorageError unit * S;
  consensus_hard_state : S → result StorageError RaftHardState;
  consensus_set_hard_state : S → RaftHardState → result StorageError unit * S;
  consensus_membership : S → result StorageError RaftMembership;
  consensus_set_membership : S → RaftMembership → result StorageError unit * S;
}.

(** ** Its contract *)

(** Replica identifiers are nonzero. *)
Definition hard_typed (hard : RaftHardState) : Prop :=
  match hs_voted_for hard with Some replica => replica ≠ 0 | None => True end.

Abbreviation Log := (gmap Z ConsensusEntry) (only parsing).

(** An entry the constructors build from machine integers. *)
Record entry_typed (blake3 : bytes → Digest32) (e : ConsensusEntry) : Prop := {
  et_wal : ce_wal_format_version e = SUPPORTED_CONSENSUS_WAL_FORMAT_VERSION;
  et_term : id_wf (ce_term e);
  et_index : 0 < ce_index e < u64_max;
  et_id : id128_wf (ce_command_id e);
  et_digest : ce_command_digest e = env_digest (ce_command e);
  et_command :
    ConsensusCommandEnvelope_new blake3 (env_format_version (ce_command e)) (env_payload (ce_command e)) =
      Ok (ce_command e);
}.

(** The indexes of a log are an interval, and every entry is stored under its own index. *)
Definition log_interval (log : Log) (first next : Z) : Prop :=
  ∀ i, is_Some (log !! i) ↔ first ≤ i < next.
Record log_ok (blake3 : bytes → Digest32) (log : Log) : Prop := {
  lo_interval : ∃ first next, log_interval log first next;
  lo_entry i e : log !! i = Some e → ce_index e = i ∧ entry_typed blake3 e;
}.

(** "Exact overlap is idempotent. The first divergent existing index is atomically replaced together
    with the supplied suffix, and every higher stored entry is truncated." *)
Record log_appended (log : Log) (entries : list ConsensusEntry) (log' : Log) : Prop := {
  la_supplied e : e ∈ entries → log' !! ce_index e = Some e;
  la_below i : (∀ e, e ∈ entries → i < ce_index e) → log' !! i = log !! i;
  la_overlap : (∀ e, e ∈ entries → log !! ce_index e = Some e) → log' = log;
  la_above i : (∃ e, e ∈ entries ∧ log !! ce_index e ≠ Some e) →
    (∀ e, e ∈ entries → ce_index e < i) → log' !! i = None;
}.

(** What [entries(low, high, u64::MAX)] reads: the entries from [low] up to but not including [high],
    in the order of their indexes. *)
Definition log_range (log : Log) (low high : Z) : list ConsensusEntry :=
  values (filter (λ p, low ≤ p.1 < high) log).

Class ConsensusStoreLaws (blake3 : bytes → Digest32) (S : Type) `{ConsensusStore S} := {
  consensus_ok : S → Prop;
  consensus_log : S → Log;
  consensus_hard : S → RaftHardState;
  consensus_members : S → option RaftMembership;
  consensus_log_ok s : consensus_ok s → log_ok blake3 (consensus_log s);
  consensus_append_spec s entries r s' :
    consensus_ok s → Forall (entry_typed blake3) entries → consensus_append s entries = (r, s') →
    consensus_ok s' ∧ consensus_hard s' = consensus_hard s ∧ consensus_members s' = consensus_members s ∧
    consensus_binding s' = consensus_binding s ∧
    match r with
    | Ok _ => log_appended (consensus_log s) entries (consensus_log s')
    | Err _ => consensus_log s' = consensus_log s
    end;
  consensus_append_readable s entries r s' low high :
    consensus_ok s → Forall (entry_typed blake3) entries → consensus_append s entries = (r, s') →
    is_ok (consensus_entries s low high u64_max) = true →
    is_ok (consensus_entries s' low high u64_max) = true;
  consensus_entries_spec s low high entries :
    consensus_ok s → consensus_entries s low high u64_max = Ok entries →
    entries = log_range (consensus_log s) low high;
  consensus_hard_state_spec s hard :
    consensus_ok s → consensus_hard_state s = Ok hard → hard = consensus_hard s;
  consensus_set_hard_state_spec s hard r s' :
    consensus_ok s → hard_typed hard → consensus_set_hard_state s hard = (r, s') →
    consensus_ok s' ∧ consensus_log s' = consensus_log s ∧ consensus_members s' = consensus_members s ∧
    consensus_binding s' = consensus_binding s ∧
    match r with
    | Ok _ => consensus_hard s' = hard
    | Err _ => consensus_hard s' = consensus_hard s ∨ consensus_hard s' = hard
    end;
  consensus_membership_spec s members :
    consensus_ok s → consensus_membership s = Ok members → consensus_members s = Some members;
  consensus_set_membership_spec s members r s' :
    consensus_ok s → consensus_set_membership s members = (r, s') →
    consensus_ok s' ∧ consensus_log s' = consensus_log s ∧ consensus_hard s' = consensus_hard s ∧
    consensus_binding s' = consensus_binding s;
}.
