(* ===== verification/FjallCodec.v ===== *)
(** * Stored values of the Fjall provider ([dtg-storage-fjall/src/codec.rs])

    Owner bindings, consensus entries, hard states and memberships as versioned wire structures.  The
    serialiser [bincode] is a class with the one law the code relies on. *)

From S2P Require Import Prelude Text Kernel Encoding Storage Binding Consensus.
Open Scope Z_scope.

Definition CODEC_VERSION : Z := 1.

(** [bincode::encode_to_vec] and [bincode::decode_from_slice], which also answers the bytes consumed;
    errors are their texts. *)
Class Bincode (W : Type) := {
  encode_to_vec : W → result string bytes;
  decode_from_slice : bytes → result string (W * nat);
}.
(** A value that has been encoded is decoded from exactly its encoding. *)
Class BincodeLaws (W : Type) `{Bincode W} : Prop := {
  decode_encoded w bs : encode_to_vec w = Ok bs → decode_from_slice bs = Ok (w, length bs);
}.

Definition fjall_encode `{Bincode W} (value : W) : result StorageError bytes :=
  map_err (λ error, Internal ("Fjall encoding failed: " +:+ error)) (encode_to_vec value).

Definition fjall_decode `{Bincode W} (bs : bytes) : result StorageError W :=
  match decode_from_slice bs with
  | Err error => Err (Internal ("Fjall decoding failed: " +:+ error))
  | Ok (value, consumed) =>
      if negb (Nat.eqb consumed (length bs)) then Err (Internal "Fjall value contains trailing bytes")
      else Ok value
  end.

Definition require_version (version : Z) (name : string) : result StorageError unit :=
  if version =? CODEC_VERSION then Ok tt
  else Err (Internal ("unsupported Fjall " +:+ name +:+ " codec version " +:+ pretty version)).

(** ** Bindings *)

Inductive WireProviderKind := WireFjall | WirePostgreSql | WireKuzu | WireRemote (name : string).

Record WireBinding := mkWireBinding {
  wb_version : Z;
  wb_cluster_id : Z;
  wb_graph_id : Z;
  wb_shard_id : Z;
  wb_placement_epoch : Z;
  wb_replica_id : Z;
  wb_backend_generation : Z;
  wb_backend_class_digest : bytes;
  wb_provider_kind : WireProviderKind;
  wb_contract_version : Z;
  wb_layout_version : Z;
  wb_capability_digest : bytes;
  wb_namespace_id : string;
  wb_endpoint_profile_ref : string;
  wb_credential_ref : string;
  wb_role : Z;
}.

Definition wire_provider (kind : ProviderKind) : WireProviderKind :=
  match kind with
  | Fjall => WireFjall
  | PostgreSql => WirePostgreSql
  | Kuzu => WireKuzu
  | Remote name => WireRemote name
  end.

Definition wire_role (role : BindingRole) : Z :=
  match role with Candidate => 1 | Active => 2 | Retiring => 3 end.

Definition stored_binding (binding : ReplicaBinding) : WireBinding :=
  mkWireBinding CODEC_VERSION (rb_cluster_id binding) (rb_graph_id binding) (rb_shard_id binding)
    (rb_placement_epoch binding) (rb_replica_id binding) (rb_backend_generation binding)
    (rb_backend_class_digest binding) (wire_provider (rb_provider_kind binding))
    (rb_contract_version binding) (rb_layout_version binding) (rb_capability_digest binding)
    (rb_namespace_id binding) (rb_endpoint_profile_ref binding) (rb_credential_ref binding)
    (wire_role (rb_role binding)).

Definition encode_owner `{Bincode WireBinding} (binding : ReplicaBinding) : result StorageError bytes :=
  fjall_encode (stored_binding binding).

Definition decode_owner `{Bincode WireBinding} (bs : bytes) : result StorageError ReplicaBinding :=
  wire ← fjall_decode (W := WireBinding) bs;
  _ ← require_version (wb_version wire) "owner";
  let provider_kind :=
    match wb_provider_kind wire with
    | WireFjall => Fjall
    | WirePostgreSql => PostgreSql
    | WireKuzu => Kuzu
    | WireRemote name => Remote name
    end in
  role ← (if wb_role wire =? 1 then Ok Candidate
          else if wb_role wire =? 2 then Ok Active
          else if wb_role wire =? 3 then Ok Retiring
          else Err (Internal ("invalid Fjall owner role tag " +:+ pretty (wb_role wire))));
  build (mkBindingBuilder (wb_cluster_id wire) (wb_graph_id wire) (wb_shard_id wire)
    (wb_placement_epoch wire) (wb_replica_id wire) (wb_backend_generation wire)
    (Some (wb_backend_class_digest wire)) (Some provider_kind) (wb_contract_version wire)
    (wb_layout_version wire) (Some (wb_capability_digest wire)) (Some (wb_namespace_id wire))
    (Some (wb_endpoint_profile_ref wire)) (Some (wb_credential_ref wire)) (Some role)).

(** ** Consensus entries *)

Record WireConsensusEntry := mkWireConsensusEntry {
  we_version : Z;
  we_wal_format_version : Z;
  we_term : Z;
  we_index : Z;
  we_command_id : Z;
  we_command_format_version : Z;
  we_payload : bytes;
}.

Definition encode_consensus_entry `{Bincode WireConsensusEntry} (entry : ConsensusEntry)
    : result StorageError bytes :=
  fjall_encode (mkWireConsensusEntry CODEC_VERSION (ce_wal_format_version entry) (ce_term entry)
    (ce_index entry) (ce_command_id entry) (env_format_version (ce_command entry))
    (env_payload (ce_command entry))).

Definition decode_consensus_entry `{Bincode WireConsensusEntry} (blake3 : bytes → Digest32) (bs : bytes)
    : result StorageError ConsensusEntry :=
  wire ← fjall_decode (W := WireConsensusEntry) bs;
  _ ← require_version (we_version wire) "consensus entry";
  command_id ← CommandId_new (we_command_id wire);
  command ← ConsensusCommandEnvelope_new blake3 (we_command_format_version wire) (we_payload wire);
  ConsensusEntry_new (we_wal_format_version wire) (we_term wire) (we_index wire) command_id command.

(** ** Hard states and memberships *)

Record WireHardState := mkWireHardState {
  wh_version : Z;
  wh_current_term : Z;
  wh_voted_for : option Z;
  wh_committed_index : Z;
}.

Definition encode_hard_state `{Bincode WireHardState} (state : RaftHardState) : result StorageError bytes :=
  fjall_encode (mkWireHardState CODEC_VERSION (hs_current_term state) (hs_voted_for state)
    (hs_committed_index state)).

(** [ReplicaId::new(id).map_err(|error| StorageError::InvalidConsensus(error.to_string()))]. *)
Definition decode_replica_id (id : Z) : result StorageError ReplicaId :=
  map_err (λ error, InvalidConsensus (KernelError_to_string error)) (nonzero_u64_identifier id).

Definition decode_hard_state `{Bincode WireHardState} (bs : bytes) : result StorageError RaftHardState :=
  wire ← fjall_decode (W := WireHardState) bs;
  _ ← require_version (wh_version wire) "hard state";
  voted_for ← match wh_voted_for wire with
              | Some id => Some <$> decode_replica_id id
              | None => Ok None
              end;
  Ok (mkHardState (wh_current_term wire) voted_for (wh_committed_index wire)).

Record WireMembership := mkWireMembership {
  wm_version : Z;
  wm_voters : list Z;
  wm_learners : list Z;
  wm_configuration_index : Z;
}.

Definition encode_membership `{Bincode WireMembership} (membership : RaftMembership)
    : result StorageError bytes :=
  fjall_encode (mkWireMembership CODEC_VERSION (mb_voters membership) (mb_learners membership)
    (mb_configuration_index membership)).

Definition decode_membership `{Bincode WireMembership} (bs : bytes) : result StorageError RaftMembership :=
  wire ← fjall_decode (W := WireMembership) bs;
  _ ← require_version (wm_version wire) "membership";
  voters ← try_map decode_replica_id (wm_voters wire);
  learners ← try_map decode_replica_id (wm_learners wire);
  Ok (mkMembership voters learners (wm_configuration_index wire)).

(** ** Round trips *)

Lemma fjall_round_trip `{BincodeLaws W} (w : W) bs : fjall_encode w = Ok bs → fjall_decode bs = Ok w.
Proof.
  unfold fjall_encode, fjall_decode. destruct (encode_to_vec w) as [bs'|] eqn:He; [|done].
  intros [= <-]. rewrite (decode_encoded _ _ He). by rewrite Nat.eqb_refl.
Qed.

Lemma owner_round_trip `{BincodeLaws WireBinding} binding bs :
  binding_wf binding → encode_owner binding = Ok bs → decode_owner bs = Ok binding.
Proof.
  intros Hwf He%fjall_round_trip. unfold decode_owner. rewrite He.
  rewrite <-(proj2 binding_build binding Hwf).
  destruct binding as [? ? ? ? ? ? ? [] ? ? ? ? ? ? []]; reflexivity.
Qed.

Lemma consensus_entry_round_trip `{BincodeLaws WireConsensusEntry} blake3 entry bs :
  entry_typed blake3 entry → encode_consensus_entry entry = Ok bs →
  decode_consensus_entry blake3 bs = Ok entry.
Proof.
  intros [Hwal [_ Ht] Hi [_ Hid] Hd Hc] He%fjall_round_trip. unfold decode_consensus_entry. rewrite He.
  cbn. unfold CommandId_new. rewrite (proj2 (Z.eqb_neq _ _) Hid). cbn.
  unfold mbind, result_bind. rewrite Hc. unfold ConsensusEntry_new.
  rewrite Hwal, (proj2 (Z.eqb_neq _ _) Ht), (proj2 (Z.eqb_neq (ce_index entry) 0)) by lia. cbn. rewrite <-Hd.
  destruct entry. cbn in *. by subst.
Qed.

Lemma decode_replica_id_Ok id : id ≠ 0 → decode_replica_id id = Ok id.
Proof. intros Hid. unfold decode_replica_id, nonzero_u64_identifier. by rewrite (proj2 (Z.eqb_neq _ _) Hid). Qed.

Lemma hard_state_round_trip `{BincodeLaws WireHardState} state bs :
  hard_typed state → encode_hard_state state = Ok bs → decode_hard_state bs = Ok state.
Proof.
  intros Ht He%fjall_round_trip. unfold decode_hard_state. rewrite He. unfold hard_typed in Ht.
  destruct state as [t [v|] c]; cbn in *; [|done]. by rewrite decode_replica_id_Ok.
Qed.

(** ** A serialiser *)

(** Any countable type has a serialiser that keeps the law. *)
Fixpoint bits (p : positive) : bytes :=
  match p with xI p => 1 :: bits p | xO p => 0 :: bits p | xH => [] end.
Fixpoint unbits (bs : bytes) : positive :=
  match bs with [] => xH | b :: bs => if b =? 1 then xI (unbits bs) else xO (unbits bs) end.

Definition countable_bincode `{Countable W} : Bincode W := {|
  encode_to_vec w := Ok (bits (encode w));
  decode_from_slice bs :=
    match decode (unbits bs) with Some w => Ok (w, length bs) | None => Err "unexpected end" end;
|}.

Lemma unbits_bits p : unbits (bits p) = p.
Proof. induction p as [p IH|p IH|]; cbn; [by rewrite IH|by rewrite IH|done]. Qed.

Lemma countable_bincode_laws `{Countable W} : @BincodeLaws W countable_bincode.
Proof. split. intros w bs [= <-]. cbn. by rewrite unbits_bits, decode_encode. Qed.

#[export] Instance WireProviderKind_eq_dec : EqDecision WireProviderKind.
Proof. solve_decision. Defined.
#[export] Instance WireProviderKind_countable : Countable WireProviderKind.
Proof.
  refine (inj_countable'
    (λ k, match k with
          | WireFjall => (0%nat, EmptyString) | WirePostgreSql => (1%nat, EmptyString)
          | WireKuzu => (2%nat, EmptyString) | WireRemote name => (3%nat, name)
          end)
    (λ p, match p with
          | (0%nat, _) => WireFjall | (1%nat, _) => WirePostgreSql | (2%nat, _) => WireKuzu
          | (_, name) => WireRemote name
          end) _).
  by intros [].
Defined.

#[export] Instance WireBinding_eq_dec : EqDecision WireBinding.
Proof. solve_decision. Defined.
#[export] Instance WireBinding_countable : Countable WireBinding.
Proof.
  refine (inj_countable'
    (λ w, (wb_version w, wb_cluster_id w, wb_graph_id w, wb_shard_id w, wb_placement_epoch w,
           wb_replica_id w, wb_backend_generation w, wb_backend_class_digest w, wb_provider_kind w,
           wb_contract_version w, wb_layout_version w, wb_capability_digest w, wb_namespace_id w,
           wb_endpoint_profile_ref w, wb_credential_ref w, wb_role w))
    (λ '(a, b, c, d, e, f, g, h, i, j, k, l, m, n, o, p), mkWireBinding a b c d e f g h i j k l m n o p) _).
  by intros [].
Defined.

#[export] Instance WireConsensusEntry_eq_dec : EqDecision WireConsensusEntry.
Proof. solve_decision. Defined.
#[export] Instance WireConsensusEntry_countable : Countable WireConsensusEntry.
Proof.
  refine (inj_countable'
    (λ w, (we_version w, we_wal_format_version w, we_term w, we_index w, we_command_id w,
           we_command_format_version w, we_payload w))
    (λ '(a, b, c, d, e, f, g), mkWireConsensusEntry a b c d e f g) _).
  by intros [].
Defined.

#[export] Instance WireHardState_eq_dec : EqDecision WireHardState.
Proof. solve_decision. Defined.
#[export] Instance WireHardState_countable : Countable WireHardState.
Proof.
  refine (inj_countable' (λ w, (wh_version w, wh_current_term w, wh_voted_for w, wh_committed_index w))
    (λ '(a, b, c, d), mkWireHardState a b c d) _).
  by intros [].
Defined.

#[export] Instance WireMembership_eq_dec : EqDecision WireMembership.
Proof. solve_decision. Defined.
#[export] Instance WireMembership_countable : Countable WireMembership.
Proof.
  refine (inj_countable' (λ w, (wm_version w, wm_voters w, wm_learners w, wm_configuration_index w))
    (λ '(a, b, c, d), mkWireMembership a b c d) _).
  by intros [].
Defined.
