(* ===== verification/FjallConsensus.v ===== *)
(** * The consensus store of the Fjall provider ([dtg-storage-fjall/src/consensus.rs])

    The Raft log and state of a replica in the keyspaces of a Fjall database, and the proof that the
    store keeps the contract of [Consensus].  The database is the maps below: log keys are the
    indexes whose big-endian bytes the code uses, a batch is written as a whole, and a fault makes
    the accesses of one kind fail. *)

From S2P Require Import Prelude Text Kernel Encoding Storage Binding Consensus FjallCodec.
Open Scope Z_scope.

(** A poisoned lock, a failing read, a failing write, and a write whose synchronisation fails. *)
Inductive StoreFault :=
| LockPoisoned
| ReadFails (error : string)
| WriteFails (error : string)
| PersistFails (error : string).

Record FjallConsensusStore := mkFjallConsensus {
  fc_binding : ReplicaBinding;
  fc_owner : option bytes;
  fc_raft_log : gmap Z bytes;
  fc_hard_state : option bytes;
  fc_membership : option bytes;
  fc_fault : option StoreFault;
}.

Definition fjall_error (error : string) : StorageError := Internal ("Fjall storage error: " +:+ error).

(** [u64::saturating_add(1)]. *)
Definition saturating_succ (index : Z) : Z := Z.min (index + 1) u64_max.

(** No two neighbours differ by anything but one. *)
Fixpoint gap_free (indexes : list Z) : bool :=
  match indexes with
  | [] => true
  | index :: indexes =>
      match indexes with next :: _ => next =? saturating_succ index | [] => true end && gap_free indexes
  end.

Section store.
Context `{Bincode WireBinding, Bincode WireConsensusEntry, Bincode WireHardState, Bincode WireMembership}.
Context (blake3 : bytes → Digest32).
Implicit Types self : FjallConsensusStore.

Definition lock self : result StorageError unit :=
  match fc_fault self with
  | Some LockPoisoned => Err (Internal "Fjall consensus lock is poisoned")
  | _ => Ok tt
  end.

Definition fetch {A} self (value : A) : result StorageError A :=
  match fc_fault self with
  | Some (ReadFails error) => Err (fjall_error error)
  | _ => Ok value
  end.

Definition ensure_binding self : result StorageError unit :=
  persisted ← fetch self (fc_owner self);
  persisted ← ok_or (Internal "missing namespace owner") persisted;
  actual ← decode_owner persisted;
  if bool_decide (actual = fc_binding self) then Ok tt
  else Err (NamespaceOwnerMismatch actual (fc_binding self)).

Definition with_raft_log self (log : gmap Z bytes) : FjallConsensusStore :=
  mkFjallConsensus (fc_binding self) (fc_owner self) log (fc_hard_state self) (fc_membership self)
    (fc_fault self).

(** [batch.commit()]: all of the batch or nothing of it. *)
Definition commit_log self (log : gmap Z bytes) : result StorageError unit * FjallConsensusStore :=
  match fc_fault self with
  | Some (WriteFails error) | Some (PersistFails error) => (Err (fjall_error error), self)
  | _ => (Ok tt, with_raft_log self log)
  end.

(** [insert] and then [persist]: a value whose synchronisation fails has been inserted. *)
Definition insert_persist self (updated : FjallConsensusStore)
    : result StorageError unit * FjallConsensusStore :=
  match fc_fault self with
  | Some (WriteFails error) => (Err (fjall_error error), self)
  | Some (PersistFails error) => (Err (fjall_error error), updated)
  | _ => (Ok tt, updated)
  end.

(** The loop of [load_log] over the rows of the keyspace. *)
Fixpoint load_rows (rows : list (Z * bytes)) (log : gmap Z ConsensusEntry)
    : result StorageError (gmap Z ConsensusEntry) :=
  match rows with
  | [] => Ok log
  | (index, value) :: rows =>
      entry ← decode_consensus_entry blake3 value;
      if negb (ce_index entry =? index) || bool_decide (is_Some (log !! index))
      then Err (InvalidConsensus "stored consensus log identity is malformed")
      else load_rows rows (<[index := entry]> log)
  end.

Definition load_log self : result StorageError (gmap Z ConsensusEntry) :=
  rows ← fetch self (entries (fc_raft_log self));
  log ← load_rows rows ∅;
  if gap_free (keys log) then Ok log
  else Err (InvalidConsensus "stored consensus log is discontiguous").

(** The first supplied entry that is not stored as it is. *)
Fixpoint find_conflict (stored : gmap Z ConsensusEntry) (supplied : list ConsensusEntry) : option Z :=
  match supplied with
  | [] => None
  | entry :: supplied =>
      if bool_decide (stored !! ce_index entry = Some entry) then find_conflict stored supplied
      else Some (ce_index entry)
  end.

Definition encode_row (entry : ConsensusEntry) : result StorageError (Z * bytes) :=
  value ← encode_consensus_entry entry; Ok (ce_index entry, value).

Definition fjall_append self (supplied : list ConsensusEntry)
    : result StorageError unit * FjallConsensusStore :=
  match (_ ← lock self; ensure_binding self) with
  | Err e => (Err e, self)
  | Ok _ =>
      if negb (gap_free (map ce_index supplied))
      then (Err (InvalidConsensus "consensus append entries must be contiguous"), self)
      else
        match supplied with
        | [] => (Ok tt, self)
        | head_entry :: _ =>
            match load_log self with
            | Err e => (Err e, self)
            | Ok stored =>
                if match head (keys stored), last (keys stored) with
                   | Some first, Some last =>
                       (ce_index head_entry <? first) || (saturating_succ last <? ce_index head_entry)
                   | _, _ => false
                   end
                then (Err (InvalidConsensus "consensus append would create a discontiguous log"), self)
                else
                  match find_conflict stored supplied with
                  | None => (Ok tt, self)
                  | Some conflict =>
                      if match last (keys stored) with
                         | Some last => saturating_succ last <? conflict
                         | None => false
                         end
                      then (Err (InvalidConsensus "consensus append would create a log gap"), self)
                      else
                        let kept := foldl (λ log index, base.delete index log) (fc_raft_log self)
                                      (base.filter (λ index, conflict ≤ index) (keys stored)) in
                        match try_map encode_row
                                (base.filter (λ entry, conflict ≤ ce_index entry) supplied) with
                        | Err e => (Err e, self)
                        | Ok rows => commit_log self (foldl (λ log row, <[row.1 := row.2]> log) kept rows)
                        end
                  end
            end
        end
  end.

(** The loop of [entries]; [None] as the previous index before the first row. *)
Fixpoint read_rows (rows : list (Z * bytes)) (max_bytes used : Z) (previous : option Z)
    (read : list ConsensusEntry) : result StorageError (list ConsensusEntry) :=
  match rows with
  | [] => Ok read
  | (index, value) :: rows =>
      let size := Z.of_nat (length value) in
      if max_bytes <? Z.min (used + size) u64_max then Ok read
      else
        entry ← decode_consensus_entry blake3 value;
        if negb (ce_index entry =? index)
           || match previous with Some previous => negb (index =? previous + 1) | None => false end
        then Err (InvalidConsensus "stored consensus log is malformed or discontiguous")
        else read_rows rows max_bytes (used + size) (Some index) (read ++ [entry])
  end.

Definition fjall_entries self (low high max_bytes : Z) : result StorageError (list ConsensusEntry) :=
  _ ← lock self;
  _ ← ensure_binding self;
  if (high <? low) || (max_bytes =? 0) then Err (InvalidConsensus "invalid consensus entry range")
  else
    rows ← fetch self (entries (filter (λ p, low ≤ p.1 < high) (fc_raft_log self)));
    read_rows rows max_bytes 0 None [].

Definition fjall_truncate_suffix self (from_index : Z) : result StorageError unit * FjallConsensusStore :=
  match (_ ← lock self; ensure_binding self) with
  | Err e => (Err e, self)
  | Ok _ =>
      if from_index =? 0
      then (Err (InvalidConsensus "consensus truncation index must be nonzero"), self)
      else
        match fetch self (base.filter (λ index, from_index ≤ index) (keys (fc_raft_log self))) with
        | Err e => (Err e, self)
        | Ok indexes =>
            commit_log self (foldl (λ log index, base.delete index log) (fc_raft_log self) indexes)
        end
  end.

Definition fjall_hard_state self : result StorageError RaftHardState :=
  _ ← lock self;
  _ ← ensure_binding self;
  stored ← fetch self (fc_hard_state self);
  match stored with
  | Some bs => decode_hard_state bs
  | None => Ok RaftHardState_default
  end.

Definition fjall_set_hard_state self (state : RaftHardState)
    : result StorageError unit * FjallConsensusStore :=
  match (_ ← lock self; _ ← ensure_binding self; encode_hard_state state) with
  | Err e => (Err e, self)
  | Ok bs =>
      insert_persist self (mkFjallConsensus (fc_binding self) (fc_owner self) (fc_raft_log self) (Some bs)
        (fc_membership self) (fc_fault self))
  end.

Definition fjall_membership self : result StorageError RaftMembership :=
  _ ← lock self;
  _ ← ensure_binding self;
  stored ← fetch self (fc_membership self);
  match stored with
  | Some bs => decode_membership bs
  | None => Err NotFound
  end.

Definition fjall_set_membership self (membership : RaftMembership)
    : result StorageError unit * FjallConsensusStore :=
  match (_ ← lock self; _ ← ensure_binding self; encode_membership membership) with
  | Err e => (Err e, self)
  | Ok bs =>
      insert_persist self (mkFjallConsensus (fc_binding self) (fc_owner self) (fc_raft_log self)
        (fc_hard_state self) (Some bs) (fc_fault self))
  end.

Definition FjallConsensusStore_store : ConsensusStore FjallConsensusStore := {|
  consensus_binding := fc_binding;
  consensus_append := fjall_append;
  consensus_entries := fjall_entries;
  consensus_truncate_suffix := fjall_truncate_suffix;
  consensus_hard_state := fjall_hard_state;
  consensus_set_hard_state := fjall_set_hard_state;
  consensus_membership := fjall_membership;
  consensus_set_membership := fjall_set_membership;
|}.
End store.

(** ** Runs of indexes *)

Lemma gap_free_seqZ m n : m + n ≤ u64_max + 1 → gap_free (seqZ m n) = true.
Proof.
  destruct (decide (0 ≤ n)) as [Hn|Hn]; [|by rewrite seqZ_nil by lia].
  revert m. pattern n. apply natlike_ind; [|intros x Hx IH m Hm|done]; [intros m _; by rewrite seqZ_nil by lia|].
  rewrite seqZ_cons, Z.pred_succ by lia. cbn [gap_free]. rewrite IH by lia.
  destruct (decide (x = 0)) as [->|]; [by rewrite seqZ_nil by lia|].
  rewrite seqZ_cons by lia. unfold saturating_succ. rewrite Z.min_l by lia. by rewrite Z.eqb_refl.
Qed.

Lemma gap_free_inv i l :
  Forall (λ j, j < u64_max) (i :: l) → gap_free (i :: l) = true →
  i :: l = seqZ i (Z.of_nat (length (i :: l))).
Proof.
  revert i. induction l as [|j l IH]; intros i Hlt Hg.
  { cbn. rewrite seqZ_cons, seqZ_nil by lia. done. }
  cbn [gap_free] in Hg. apply andb_true_iff in Hg as [Hj%Z.eqb_eq Hg].
  apply Forall_cons in Hlt as [Hi Hlt]. unfold saturating_succ in Hj. rewrite Z.min_l in Hj by lia.
  rewrite (IH j Hlt Hg) at 1. rewrite (seqZ_cons i) by (cbn; lia). f_equal. f_equal; cbn; lia.
Qed.

(** ** The contract *)

Section contract.
Context `{BincodeLaws WireBinding, BincodeLaws WireConsensusEntry, BincodeLaws WireHardState,
  BincodeLaws WireMembership}.
Context (blake3 : bytes → Digest32).
Implicit Types self : FjallConsensusStore.

Definition decoded (rows : gmap Z bytes) : gmap Z ConsensusEntry :=
  omap (λ value, match decode_consensus_entry blake3 value with Ok e => Some e | Err _ => None end) rows.

(** Every row holds a typed entry under its own index. *)
Definition rows_ok (rows : gmap Z bytes) : Prop :=
  ∀ i value, rows !! i = Some value →
    ∃ e, decode_consensus_entry blake3 value = Ok e ∧ ce_index e = i ∧ entry_typed blake3 e.

Record fjall_ok self : Prop := {
  fo_rows : rows_ok (fc_raft_log self);
  fo_interval : ∃ first next, log_interval (decoded (fc_raft_log self)) first next;
  fo_hard : match fc_hard_state self with
            | Some bs => ∃ hard, decode_hard_state bs = Ok hard
            | None => True
            end;
}.

Definition stored_hard self : RaftHardState :=
  match fc_hard_state self with
  | Some bs => match decode_hard_state bs with Ok hard => hard | Err _ => RaftHardState_default end
  | None => RaftHardState_default
  end.
Definition stored_members self : option RaftMembership :=
  match fc_membership self with
  | Some bs => match decode_membership bs with Ok members => Some members | Err _ => None end
  | None => None
  end.

Lemma lookup_decoded rows i e :
  decoded rows !! i = Some e ↔ ∃ value, rows !! i = Some value ∧ decode_consensus_entry blake3 value = Ok e.
Proof.
  unfold decoded. rewrite lookup_omap_Some. split; intros (value & Hf & Hv); exists value.
  - split; [done|]. by destruct (decode_consensus_entry _ _); simplify_eq.
  - by rewrite Hv, Hf.
Qed.

Lemma is_Some_decoded rows i : rows_ok rows → is_Some (decoded rows !! i) ↔ is_Some (rows !! i).
Proof.
  intros Hok. split.
  - intros [e (value & Hv & _)%lookup_decoded]. by exists value.
  - intros [value Hv]. destruct (Hok i value Hv) as (e & He & _). exists e. apply lookup_decoded. eauto.
Qed.

Lemma decoded_log_ok self : fjall_ok self → log_ok blake3 (decoded (fc_raft_log self)).
Proof.
  intros Hok. split; [apply (fo_interval self Hok)|].
  intros i e (value & Hv & He)%lookup_decoded.
  destruct (fo_rows self Hok i value Hv) as (e' & He' & ?). rewrite He in He'. by simplify_eq.
Qed.

Lemma load_rows_Ok rows log :
  NoDup rows.*1 →
  (∀ i value, (i, value) ∈ rows → log !! i = None ∧
     ∃ e, decode_consensus_entry blake3 value = Ok e ∧ ce_index e = i) →
  ∃ log', load_rows blake3 rows log = Ok log' ∧ ∀ i e, log' !! i = Some e ↔
    log !! i = Some e ∨ ∃ value, (i, value) ∈ rows ∧ decode_consensus_entry blake3 value = Ok e.
Proof.
  revert log. induction rows as [|[i value] rows IH]; intros log Hnd Hrows.
  { exists log. split; [done|]. set_solver. }
  cbn in Hnd. apply NoDup_cons in Hnd as [Hi Hnd].
  destruct (Hrows i value) as (Hn & e & He & Hie); [left|].
  destruct (IH (<[i := e]> log)) as (log' & Hl & Hlog'); [done| |].
  { intros j v Hj. rewrite lookup_insert_ne.
    - apply Hrows. by right.
    - intros ->. apply Hi. by apply (list_elem_of_fmap_2 fst rows (j, v)). }
  exists log'. split.
  - cbn. rewrite He. unfold mbind, result_bind. rewrite Hie, Z.eqb_refl, Hn.
    rewrite bool_decide_eq_false_2 by (by intros [? ?]). done.
  - intros j e'. rewrite Hlog', lookup_insert_Some. split.
    + intros [[[-> ->]|[_ ?]]|(v & Hv & ?)].
      * right. exists value. split; [left|done].
      * by left.
      * right. exists v. split; [by right|done].
    + intros [?|(v & [?|Hv]%elem_of_cons & ?)]; simplify_eq.
      * left. right. split; [congruence|done].
      * left. left. split; congruence.
      * right. by exists v.
Qed.

Lemma load_log_cases self log :
  fjall_ok self → load_log blake3 self = Ok log → log = decoded (fc_raft_log self).
Proof.
  intros Hok. unfold load_log. intros (rows & Hrows & (log' & Hlog & Hg)%bind_Ok)%bind_Ok.
  assert (rows = entries (fc_raft_log self)) as ->.
  { unfold fetch in Hrows. repeat case_match; by simplify_eq. }
  guard_in Hg as Hgap. apply (inj Ok) in Hg as <-.
  destruct (load_rows_Ok (entries (fc_raft_log self)) ∅) as (log & Hl & Hspec).
  - apply NoDup_keys.
  - intros i value Hi%elem_of_entries. split; [by rewrite lookup_empty|].
    destruct (fo_rows self Hok i value Hi) as (e & ? & ? & _). eauto.
  - rewrite Hlog in Hl. apply (inj Ok) in Hl as <-. apply map_eq. intros i. apply option_eq. intros e.
    rewrite Hspec, lookup_decoded, lookup_empty. setoid_rewrite elem_of_entries. naive_solver.
Qed.

Lemma find_conflict_Some stored supplied c :
  find_conflict stored supplied = Some c →
  ∃ es1 e es2, supplied = es1 ++ e :: es2 ∧ ce_index e = c ∧ stored !! c ≠ Some e ∧
    ∀ e', e' ∈ es1 → stored !! ce_index e' = Some e'.
Proof.
  induction supplied as [|e supplied IH]; cbn; [done|]. case_bool_decide as He.
  - intros (es1 & e' & es2 & -> & Hc & Hne & Hes)%IH. exists (e :: es1), e', es2.
    split; [done|]. split; [done|]. split; [done|]. intros e'' [->|?]%elem_of_cons; auto.
  - intros [= <-]. exists [], e, supplied. split; [done|]. split; [done|]. split; [done|]. set_solver.
Qed.

Lemma find_conflict_None stored supplied e :
  find_conflict stored supplied = None → e ∈ supplied → stored !! ce_index e = Some e.
Proof.
  induction supplied as [|e' supplied IH]; cbn; [set_solver|]. case_bool_decide as He; [|done].
  intros Hn [->|?]%elem_of_cons; auto.
Qed.

Lemma encode_rows_Ok supplied rows :
  Forall (entry_typed blake3) supplied → try_map encode_row supplied = Ok rows →
  rows.*1 = map ce_index supplied ∧
  (∀ i e, (∃ value, (i, value) ∈ rows ∧ decode_consensus_entry blake3 value = Ok e) ↔
     e ∈ supplied ∧ ce_index e = i) ∧
  ∀ i value, (i, value) ∈ rows → ∃ e, decode_consensus_entry blake3 value = Ok e.
Proof.
  intros Ht. revert rows. induction Ht as [|e supplied He _ IH]; cbn; intros rows Hr.
  { simplify_eq. split; [done|]. set_solver. }
  destruct (encode_row e) as [[i value]|] eqn:Hrow; [|done]. destruct (try_map _ _) as [rows'|]; [|done].
  simplify_eq. unfold encode_row in Hrow. apply bind_Ok in Hrow as (value' & Hv & [= <- <-]).
  destruct (IH rows' eq_refl) as (Hkeys & Hrows & Hvalues).
  pose proof (consensus_entry_round_trip blake3 e value' He Hv) as Hdec.
  split; [cbn; by f_equal|]. split.
  2: { intros j v [?|?]%elem_of_cons; simplify_eq; eauto. }
  intros j e'. rewrite elem_of_cons. setoid_rewrite elem_of_cons. split.
  - intros (v & [?|Hin] & Hd); simplify_eq; [split; [left|]; congruence|].
    destruct (proj1 (Hrows j e')) as [? ?]; [by exists v|]. auto.
  - intros [[->|Hin] Hj]; [exists value'; split; [left; congruence|done]|].
    destruct (proj2 (Hrows j e')) as (v & ? & ?); [done|]. eauto.
Qed.

(** The rows [append] writes from a conflict on. *)
Lemma conflict_rows supplied c rows :
  Forall (entry_typed blake3) supplied → NoDup (map ce_index supplied) →
  try_map encode_row (base.filter (λ entry, c ≤ ce_index entry) supplied) = Ok rows →
  NoDup rows.*1 ∧ (∀ i, i ∈ rows.*1 → c ≤ i) ∧
  (∀ i e, (∃ value, (i, value) ∈ rows ∧ decode_consensus_entry blake3 value = Ok e) ↔
     e ∈ supplied ∧ ce_index e = i ∧ c ≤ i) ∧
  ∀ i value, (i, value) ∈ rows →
    ∃ e, decode_consensus_entry blake3 value = Ok e ∧ ce_index e = i ∧ entry_typed blake3 e.
Proof.
  intros Ht Hnd Hrows. rewrite Forall_forall in Ht.
  destruct (encode_rows_Ok (base.filter (λ entry, c ≤ ce_index entry) supplied) rows)
    as (Hkeys & Hin & Hvalues); [apply Forall_forall; by intros x [_ ?%Ht]%list_elem_of_filter|done|].
  setoid_rewrite list_elem_of_filter in Hin. rewrite Hkeys. split; [|split; [|split]].
  - eapply sublist_NoDup; [exact Hnd|]. apply (fmap_sublist ce_index), sublist_filter.
  - by intros i (e & -> & [? _]%list_elem_of_filter)%list_elem_of_fmap.
  - intros i e. rewrite Hin. naive_solver.
  - intros i value Hv. destruct (Hvalues i value Hv) as [e He]. exists e.
    destruct (proj1 (Hin i e)) as [[_ ?] ?]; [by exists value|]. eauto.
Qed.

(** What [append] writes once it has found a conflict. *)
Lemma appended_lookup log supplied c rows i e :
  rows_ok log → Forall (entry_typed blake3) supplied → NoDup (map ce_index supplied) →
  try_map encode_row (base.filter (λ entry, c ≤ ce_index entry) supplied) = Ok rows →
  let kept := foldl (λ log index, base.delete index log) log
                (base.filter (λ index, c ≤ index) (keys (decoded log))) in
  decoded (foldl (λ log row, <[row.1 := row.2]> log) kept rows) !! i = Some e ↔
    (e ∈ supplied ∧ ce_index e = i ∧ c ≤ i) ∨ (i < c ∧ decoded log !! i = Some e).
Proof.
  intros Hok Ht Hnd Hrows kept.
  destruct (conflict_rows supplied c rows Ht Hnd Hrows) as (Hnd' & Hge & Hin & _).
  assert (∀ j v, kept !! j = Some v ↔ j < c ∧ log !! j = Some v) as Hkept.
  { intros j v. unfold kept. rewrite lookup_foldl_delete. case_decide as Hj.
    - apply list_elem_of_filter in Hj as [? _]. split; [done|lia].
    - rewrite list_elem_of_filter, elem_of_keys, is_Some_decoded in Hj by done. split; [|tauto].
      intros Hv. split; [|done]. assert (¬ c ≤ j) by (intros ?; apply Hj; split; [done|by eexists]). lia. }
  rewrite lookup_decoded. setoid_rewrite lookup_foldl_insert; [|done..].
  rewrite lookup_decoded. split.
  - intros (value & [Hv|[_ Hv]] & He).
    + left. apply Hin. by exists value.
    + apply Hkept in Hv as [? ?]. right. split; [done|]. by exists value.
  - intros [(He & Hi & Hc)|(Hc & value & Hv & He)].
    + destruct (proj2 (Hin i e)) as (value & ? & ?); [done|]. exists value. split; [by left|done].
    + exists value. split; [|done]. right. split; [|by apply Hkept]. intros ?%Hge. lia.
Qed.

Lemma supplied_indexes head_entry supplied :
  Forall (entry_typed blake3) (head_entry :: supplied) →
  gap_free (map ce_index (head_entry :: supplied)) = true →
  map ce_index (head_entry :: supplied) =
    seqZ (ce_index head_entry) (Z.of_nat (length (head_entry :: supplied))).
Proof.
  intros Ht Hg. rewrite <-(length_map ce_index). apply gap_free_inv; [|done].
  apply Forall_forall. intros j (e & -> & He)%(list_elem_of_fmap ce_index (head_entry :: supplied)).
  rewrite Forall_forall in Ht. apply (et_index _ _ (Ht e He)).
Qed.

Lemma before_conflict a n es1 ec es2 e :
  map ce_index (es1 ++ ec :: es2) = seqZ a n → e ∈ es1 ++ ec :: es2 → ce_index e < ce_index ec → e ∈ es1.
Proof.
  intros Hidx He Hlt. apply elem_of_app in He as [|He]; [done|]. exfalso.
  pose proof (seqZ_sorted a n) as Hsort. rewrite <-Hidx, map_app in Hsort.
  apply StronglySorted_app in Hsort as (_ & _ & Hsort). cbn in Hsort.
  apply StronglySorted_inv in Hsort as [_ Hsort]. rewrite Forall_forall in Hsort.
  apply elem_of_cons in He as [->|He]; [lia|].
  specialize (Hsort (ce_index e) (list_elem_of_fmap_2 ce_index _ _ He)). lia.
Qed.

(** The log after an append that found a conflict at [c]: its entries, its interval and the contract. *)
Lemma appended_ok (log log' : gmap Z ConsensusEntry) supplied a n c first next :
  map ce_index supplied = seqZ a n → find_conflict log supplied = Some c →
  log_interval log first next → (first < next → first ≤ a ∧ c ≤ next) →
  (∀ i e, log !! i = Some e → ce_index e = i) →
  (∀ i e, log' !! i = Some e ↔
     (e ∈ supplied ∧ ce_index e = i ∧ c ≤ i) ∨ (i < c ∧ log !! i = Some e)) →
  log_appended log supplied log' ∧ ∃ first' next', log_interval log' first' next'.
Proof.
  intros Hidx (es1 & ec & es2 & Hsup & Hec & Hne & Hes1)%find_conflict_Some Hint Hrange Hown Hlog'.
  assert (∀ e, e ∈ supplied → a ≤ ce_index e < a + n) as Hin.
  { intros e He. apply elem_of_seqZ. rewrite <-Hidx. by apply (list_elem_of_fmap_2 ce_index). }
  assert (∀ e, e ∈ supplied → ce_index e < c → e ∈ es1) as Hbefore.
  { intros e He Hlt. subst. by eapply before_conflict. }
  assert (ec ∈ supplied) as Hecin by (rewrite Hsup; set_solver).
  pose proof (Hin ec Hecin) as Hca. split.
  - split.
    + intros e He. apply Hlog'. destruct (decide (c ≤ ce_index e)); [by left|]. right. split; [lia|].
      apply Hes1, Hbefore; [done|lia].
    + intros i Hi. apply option_eq. intros e. rewrite Hlog'. specialize (Hi ec Hecin).
      split; [|right; split; [lia|done]]. intros [(? & ? & ?)|[_ ?]]; [lia|done].
    + intros Hall. destruct Hne. rewrite <-Hec. by apply Hall.
    + intros i _ Hi. apply eq_None_not_Some. intros [e [(He & <- & _)|[? _]]%Hlog'].
      * specialize (Hi e He). lia.
      * specialize (Hi ec Hecin). lia.
  - assert (∀ i, (∃ e, e ∈ supplied ∧ ce_index e = i) ↔ a ≤ i < a + n) as Hsupi.
    { intros i. rewrite <-elem_of_seqZ, <-Hidx. split.
      - intros (e & He & <-). by apply (list_elem_of_fmap_2 ce_index).
      - intros (e & -> & He)%list_elem_of_fmap. eauto. }
    assert (∀ i, is_Some (log' !! i) ↔ (a ≤ i < a + n ∧ c ≤ i) ∨ (i < c ∧ first ≤ i < next)) as Hsome.
    { intros i. rewrite <-Hsupi, <-(Hint i). split.
      - intros [e [(? & ? & ?)|[? ?]]%Hlog']; [left; eauto|right; eauto].
      - intros [[(e & ? & ?) ?]|[? [e ?]]]; exists e; apply Hlog'; auto. }
    destruct (decide (first < next)) as [Hf|Hf].
    + exists first, (a + n). intros i. rewrite Hsome. specialize (Hrange Hf). lia.
    + exists c, (a + n). intros i. rewrite Hsome. lia.
Qed.

Lemma interval_below log first next :
  log_ok blake3 log → log_interval log first next → first < next → next ≤ u64_max.
Proof.
  intros Hok Hint Hlt. destruct (proj2 (Hint (next - 1))) as [e He]; [lia|].
  destruct (lo_entry _ _ Hok _ _ He) as [Hi Ht]. pose proof (et_index _ _ Ht). lia.
Qed.

(** The guards of [append] against gaps, for a log that is an interval. *)
Lemma append_guards stored first next a c :
  log_interval stored first next → (first < next → next ≤ u64_max) →
  (match head (keys stored), last (keys stored) with
   | Some f, Some l => (a <? f) || (saturating_succ l <? a)
   | _, _ => false
   end) = false →
  (match last (keys stored) with Some l => saturating_succ l <? c | None => false end) = false →
  first < next → first ≤ a ∧ c ≤ next.
Proof.
  intros Hint Hmax. rewrite (keys_interval stored first next Hint). intros H1' H2' Hlt. specialize (Hmax Hlt).
  rewrite last_seqZ in * by lia. rewrite seqZ_cons in H1' by lia. cbn in H1'.
  unfold saturating_succ in *. rewrite Z.min_l in * by lia. to_prop. lia.
Qed.

Lemma fjall_append_rows self head_entry supplied stored c rows :
  let all := head_entry :: supplied in
  fjall_ok self → Forall (entry_typed blake3) all → gap_free (map ce_index all) = true →
  stored = decoded (fc_raft_log self) → find_conflict stored all = Some c →
  (match head (keys stored), last (keys stored) with
   | Some f, Some l => (ce_index head_entry <? f) || (saturating_succ l <? ce_index head_entry)
   | _, _ => false
   end) = false →
  (match last (keys stored) with Some l => saturating_succ l <? c | None => false end) = false →
  try_map encode_row (base.filter (λ entry, c ≤ ce_index entry) all) = Ok rows →
  let log' := foldl (λ log row, <[row.1 := row.2]> log)
    (foldl (λ log index, base.delete index log) (fc_raft_log self)
       (base.filter (λ index, c ≤ index) (keys stored))) rows in
  log_appended stored all (decoded log') ∧ fjall_ok (with_raft_log self log').
Proof.
  intros all Hok Ht Hg -> Hc Hg1 Hg2 Hrows log'.
  pose proof (supplied_indexes head_entry supplied Ht Hg) as Hidx.
  fold all in Hidx. assert (NoDup (map ce_index all)) as Hnd by (rewrite Hidx; apply NoDup_seqZ).
  destruct (decoded_log_ok self Hok) as [(first & next & Hint) Hown].
  destruct (appended_ok (decoded (fc_raft_log self)) (decoded log') all (ce_index head_entry)
    (Z.of_nat (length all)) c first next) as [Happ Hint']; [done..| | | |].
  - eapply append_guards; [done| |done..]. intros Hlt. eapply interval_below; [|done..].
    by apply decoded_log_ok.
  - intros i e He. by apply (Hown i e).
  - intros i e. eapply appended_lookup; [apply (fo_rows self Hok)|done..].
  - split; [done|]. split; [|done|apply (fo_hard self Hok)]. cbn. intros i value Hv.
    destruct (conflict_rows all c rows Ht Hnd Hrows) as (Hnd' & _ & _ & Hvalues).
    unfold log' in Hv. apply lookup_foldl_insert in Hv as [Hv|[_ Hv]]; [by apply Hvalues| |done].
    rewrite lookup_foldl_delete in Hv. case_decide; [done|]. by apply (fo_rows self Hok).
Qed.

Lemma commit_log_cases self log r self' :
  commit_log self log = (r, self') →
  (r = Ok tt ∧ self' = with_raft_log self log) ∨ (is_ok r = false ∧ self' = self).
Proof. unfold commit_log. intros Hc. repeat case_match; simplify_eq; auto. Qed.

Lemma append_contract self supplied r self' :
  fjall_ok self → Forall (entry_typed blake3) supplied → fjall_append blake3 self supplied = (r, self') →
  match r with
  | Ok _ => ∃ log', self' = with_raft_log self log' ∧ fjall_ok self' ∧
              log_appended (decoded (fc_raft_log self)) supplied (decoded log')
  | Err _ => self' = self
  end.
Proof.
  intros Hok Ht Ha. unfold fjall_append in Ha.
  assert (∀ supplied', (∀ e, e ∈ supplied' → decoded (fc_raft_log self) !! ce_index e = Some e) →
    ∃ log', self = with_raft_log self log' ∧ fjall_ok self ∧
      log_appended (decoded (fc_raft_log self)) supplied' (decoded log')) as Hsame.
  { intros es Hes. exists (fc_raft_log self). split; [by destruct self|]. split; [done|].
    split; try done. intros i (e & He & []). by apply Hes. }
  destruct (_ ← lock self; ensure_binding self) as [|e]; [|by simplify_eq].
  destruct (gap_free (map ce_index supplied)) eqn:Hg; cbn [negb] in Ha; [|by simplify_eq].
  destruct supplied as [|x supplied]; [simplify_eq; apply Hsame; set_solver|].
  destruct (load_log blake3 self) as [stored|] eqn:Hl; [|by simplify_eq].
  apply load_log_cases in Hl; [|done].
  match type of Ha with (if ?b then _ else _) = _ => destruct b eqn:Hg1; [by simplify_eq|] end.
  destruct (find_conflict stored (x :: supplied)) as [c|] eqn:Hc.
  2: { simplify_eq. apply Hsame. intros e He. by eapply find_conflict_None. }
  match type of Ha with (if ?b then _ else _) = _ => destruct b eqn:Hg2; [by simplify_eq|] end.
  destruct (try_map encode_row _) as [rows|] eqn:Hrows; [|by simplify_eq].
  destruct (fjall_append_rows self x supplied stored c rows) as [Happ Hok']; [done..|].
  apply commit_log_cases in Ha as [[-> ->]|[Hr ->]]; [|by destruct r].
  eexists. split; [done|]. split; [done|]. by rewrite <-Hl.
Qed.

Lemma read_rows_Ok rows used previous read :
  (∀ i value, (i, value) ∈ rows → ∃ e, decode_consensus_entry blake3 value = Ok e ∧ ce_index e = i) →
  (∃ n, rows.*1 = seqZ (match previous with Some p => p + 1 | None => default 0 (head rows.*1) end) n) →
  read_rows blake3 rows u64_max used previous read =
    Ok (read ++ omap (λ row, match decode_consensus_entry blake3 row.2 with
                             | Ok e => Some e | Err _ => None end) rows).
Proof.
  revert used previous read. induction rows as [|[i value] rows IH]; intros used previous read Hrows [n Hn].
  { cbn. by rewrite app_nil_r. }
  cbn [read_rows]. rewrite (proj2 (Z.ltb_ge _ _)) by lia.
  destruct (Hrows i value) as (e & He & Hi); [left|]. rewrite He. unfold mbind, result_bind.
  assert (0 < n) as Hpos.
  { destruct (decide (0 < n)); [done|]. by rewrite seqZ_nil in Hn by lia. }
  rewrite seqZ_cons in Hn by done. cbn in Hn. injection Hn as Hip Hn.
  rewrite Hi, Z.eqb_refl. replace (match previous with Some p => negb (i =? p + 1) | None => false end)
    with false by (destruct previous; [by rewrite Hip, Z.eqb_refl|done]).
  cbn [negb orb]. rewrite IH.
  - cbn. rewrite He. by rewrite <-app_assoc.
  - intros j v Hj. apply Hrows. by right.
  - exists (Z.pred n). rewrite Hn. f_equal. destruct previous; cbn in *; lia.
Qed.

Lemma read_range self low high :
  fjall_ok self →
  read_rows blake3 (entries (filter (λ p, low ≤ p.1 < high) (fc_raft_log self))) u64_max 0 None [] =
    Ok (log_range (decoded (fc_raft_log self)) low high).
Proof.
  intros Hok. set (range := filter (λ p, low ≤ p.1 < high) (fc_raft_log self)) in *.
  assert (rows_ok range) as Hrok.
  { intros i value [Hv _]%map_lookup_filter_Some. by apply (fo_rows self Hok). }
  assert (decoded range = filter (λ p, low ≤ p.1 < high) (decoded (fc_raft_log self))) as Hdec.
  { apply map_eq. intros i. apply option_eq. intros e. rewrite map_lookup_filter_Some, !lookup_decoded.
    unfold range. setoid_rewrite map_lookup_filter_Some. naive_solver. }
  destruct (fo_interval self Hok) as (first & next & Hint).
  assert (keys range = seqZ (Z.max low first) (Z.min high next - Z.max low first)) as Hkeys.
  { apply keys_interval. intros i. rewrite <-(is_Some_decoded range i Hrok), Hdec. split.
    - intros [e [He' [? ?]]%map_lookup_filter_Some]. pose proof (proj1 (Hint i) (ex_intro _ e He')).
      cbn in *. lia.
    - intros Hi. destruct (proj2 (Hint i)) as [e He']; [lia|]. exists e. apply map_lookup_filter_Some.
      cbn. split; [done|lia]. }
  rewrite read_rows_Ok.
  - unfold log_range, values. rewrite <-Hdec. unfold decoded. rewrite entries_omap. cbn [app]. f_equal.
    symmetry. apply (omap_values (λ value, match decode_consensus_entry blake3 value with
                                           | Ok e => Some e | Err _ => None end)).
  - intros i value Hi%elem_of_entries. destruct (Hrok i value Hi) as (e & ? & ? & _). eauto.
  - fold (keys range). rewrite Hkeys. eexists.
    destruct (decide (0 < Z.min high next - Z.max low first)) as [Hp|Hp].
    + f_equal. by rewrite seqZ_cons.
    + rewrite !seqZ_nil by lia. done.
Qed.

(** A read answers the log, unless the range, the lock, the owner or the database refuses it. *)
Lemma fjall_entries_eq self low high :
  fjall_ok self →
  fjall_entries blake3 self low high u64_max =
    (_ ← lock self; _ ← ensure_binding self;
     if high <? low then Err (InvalidConsensus "invalid consensus entry range")
     else _ ← fetch self tt; Ok (log_range (decoded (fc_raft_log self)) low high)).
Proof.
  intros Hok. unfold fjall_entries. destruct (lock self); [|done]. cbn [mbind result_bind].
  destruct (ensure_binding self); [|done]. cbn [mbind result_bind].
  replace (u64_max =? 0) with false by reflexivity. rewrite orb_false_r. destruct (high <? low); [done|].
  unfold fetch. repeat case_match; try done; cbn [mbind result_bind]; by apply read_range.
Qed.

Lemma entries_contract self low high supplied :
  fjall_ok self → fjall_entries blake3 self low high u64_max = Ok supplied →
  supplied = log_range (decoded (fc_raft_log self)) low high.
Proof.
  intros Hok. rewrite fjall_entries_eq by done. intros (_ & _ & (_ & _ & He)%bind_Ok)%bind_Ok.
  guard_in He as Hc. by apply bind_Ok in He as (_ & _ & [= <-]).
Qed.

Lemma append_readable self supplied r self' low high :
  fjall_ok self → Forall (entry_typed blake3) supplied → fjall_append blake3 self supplied = (r, self') →
  is_ok (fjall_entries blake3 self low high u64_max) = true →
  is_ok (fjall_entries blake3 self' low high u64_max) = true.
Proof.
  intros Hok Ht Ha. pose proof (append_contract self supplied r self' Hok Ht Ha) as Hr.
  destruct r; [|by subst]. destruct Hr as (log' & -> & Hok' & _). rewrite !fjall_entries_eq by done.
  change (lock (with_raft_log self log')) with (lock self).
  change (ensure_binding (with_raft_log self log')) with (ensure_binding self).
  change (fetch (with_raft_log self log') tt) with (fetch self tt).
  destruct (lock self), (ensure_binding self), (high <? low), (fetch self tt); done.
Qed.

Lemma insert_persist_cases self updated r self' :
  insert_persist self updated = (r, self') →
  (r = Ok tt ∧ self' = updated) ∨ (is_ok r = false ∧ (self' = self ∨ self' = updated)).
Proof. unfold insert_persist. intros Hc. repeat case_match; simplify_eq; auto. Qed.

Lemma set_hard_state_contract self hard r self' :
  fjall_ok self → hard_typed hard → fjall_set_hard_state self hard = (r, self') →
  fjall_ok self' ∧ fc_raft_log self' = fc_raft_log self ∧ stored_members self' = stored_members self ∧
  fc_binding self' = fc_binding self ∧
  match r with
  | Ok _ => stored_hard self' = hard
  | Err _ => stored_hard self' = stored_hard self ∨ stored_hard self' = hard
  end.
Proof.
  intros Hok Ht. unfold fjall_set_hard_state.
  destruct (_ ← lock self; _ ← ensure_binding self; encode_hard_state hard) as [bs|e] eqn:He.
  2: { intros [= <- <-]. auto 10. }
  apply bind_Ok in He as (_ & _ & (_ & _ & He)%bind_Ok).
  apply hard_state_round_trip in He; [|done].
  set (self1 := mkFjallConsensus _ _ _ _ _ _).
  assert (fjall_ok self1) as Hok1.
  { split; cbn; [apply (fo_rows self Hok)|apply (fo_interval self Hok)|by exists hard]. }
  assert (stored_hard self1 = hard) as Hh by (unfold stored_hard; cbn; by rewrite He).
  intros [[-> ->]|[Hr [-> | ->]]]%insert_persist_cases.
  - auto.
  - destruct r; [done|]. auto 10.
  - destruct r; [done|]. auto 10.
Qed.

Lemma hard_state_contract self hard :
  fjall_ok self → fjall_hard_state self = Ok hard → hard = stored_hard self.
Proof.
  intros _. unfold fjall_hard_state, stored_hard. intros (_ & _ & (_ & _ & H')%bind_Ok)%bind_Ok.
  apply bind_Ok in H' as (stored & Hs & H').
  assert (stored = fc_hard_state self) as -> by (unfold fetch in Hs; repeat case_match; by simplify_eq).
  destruct (fc_hard_state self) as [bs|]; [|by simplify_eq]. by rewrite H'.
Qed.

Lemma membership_contract self members :
  fjall_membership self = Ok members → stored_members self = Some members.
Proof.
  unfold fjall_membership, stored_members. intros (_ & _ & (_ & _ & H')%bind_Ok)%bind_Ok.
  apply bind_Ok in H' as (stored & Hs & H').
  assert (stored = fc_membership self) as -> by (unfold fetch in Hs; repeat case_match; by simplify_eq).
  destruct (fc_membership self) as [bs|]; [|by simplify_eq]. by rewrite H'.
Qed.

Lemma set_membership_contract self members r self' :
  fjall_ok self → fjall_set_membership self members = (r, self') →
  fjall_ok self' ∧ fc_raft_log self' = fc_raft_log self ∧ stored_hard self' = stored_hard self ∧
  fc_binding self' = fc_binding self.
Proof.
  intros Hok. unfold fjall_set_membership. destruct (_ ← lock self; _) as [bs|e]; [|intros [= <- <-]; auto].
  set (self1 := mkFjallConsensus _ _ _ _ _ _).
  assert (fjall_ok self1) as Hok1.
  { split; cbn; [apply (fo_rows self Hok)|apply (fo_interval self Hok)|apply Hok]. }
  intros [[-> ->]|[Hr [-> | ->]]]%insert_persist_cases; auto.
Qed.

(** The Fjall store is a consensus store. *)
Definition FjallConsensusStore_laws :
  @ConsensusStoreLaws blake3 FjallConsensusStore (FjallConsensusStore_store blake3).
Proof.
  refine {|
    consensus_ok := fjall_ok;
    consensus_log self := decoded (fc_raft_log self);
    consensus_hard := stored_hard;
    consensus_members := stored_members;
  |}; cbn.
  - apply decoded_log_ok.
  - intros self supplied r self' Hok Ht Ha. pose proof (append_contract self supplied r self' Hok Ht Ha) as Hr.
    destruct r; [|by subst]. destruct Hr as (log' & -> & ? & ?). auto.
  - intros. by eapply append_readable.
  - apply entries_contract.
  - apply hard_state_contract.
  - intros self hard r self' Hok Ht Hs.
    destruct (set_hard_state_contract self hard r self' Hok Ht Hs) as (? & -> & ? & ? & ?). auto.
  - intros self members _. apply membership_contract.
  - intros self members r self' Hok Hs.
    destruct (set_membership_contract self members r self' Hok Hs) as (? & -> & ? & ?). auto.
Defined.

(** ** Progress *)

Lemma load_log_succeeds self :
  fjall_ok self → fc_fault self = None → load_log blake3 self = Ok (decoded (fc_raft_log self)).
Proof.
  intros Hok Hf. destruct (load_rows_Ok (entries (fc_raft_log self)) ∅) as (log & Hl & Hspec).
  - apply NoDup_keys.
  - intros i value Hi%elem_of_entries. split; [by rewrite lookup_empty|].
    destruct (fo_rows self Hok i value Hi) as (e & ? & ? & _). eauto.
  - assert (log = decoded (fc_raft_log self)) as ->.
    { apply map_eq. intros i. apply option_eq. intros e.
      rewrite Hspec, lookup_decoded, lookup_empty. setoid_rewrite elem_of_entries. naive_solver. }
    unfold load_log, fetch. rewrite Hf. unfold mbind, result_bind. rewrite Hl.
    destruct (decoded_log_ok self Hok) as [(first & next & Hint) _]. rewrite (keys_interval _ _ _ Hint).
    destruct (decide (first < next)) as [Hlt|]; [|by rewrite seqZ_nil by lia].
    pose proof (interval_below _ _ _ (decoded_log_ok self Hok) Hint Hlt).
    by rewrite gap_free_seqZ by lia.
Qed.

Lemma try_map_encode_row supplied :
  (∀ e, e ∈ supplied → is_ok (encode_consensus_entry e) = true) →
  ∃ rows, try_map encode_row supplied = Ok rows.
Proof.
  induction supplied as [|e supplied IH]; intros He; [by exists []|].
  destruct IH as [rows Hrows]; [intros e' ?; apply He; by right|].
  specialize (He e ltac:(left)). cbn. unfold encode_row at 1.
  destruct (encode_consensus_entry e) as [value|]; [|done]. cbn. rewrite Hrows. by eexists.
Qed.

(** Where supplied entries meet the log: inside it or right after it. *)
Definition adjacent (log : gmap Z ConsensusEntry) (supplied : list ConsensusEntry) : Prop :=
  ∀ first next e, log_interval log first next → first < next → head supplied = Some e →
    first ≤ ce_index e ≤ next.

Lemma first_guard_passes log supplied e :
  log_ok blake3 log → adjacent log (e :: supplied) →
  (match head (keys log), last (keys log) with
   | Some f, Some l => (ce_index e <? f) || (saturating_succ l <? ce_index e)
   | _, _ => false
   end) = false.
Proof.
  intros Hok Hadj. destruct (lo_interval _ _ Hok) as (first & next & Hint).
  rewrite (keys_interval log first next Hint).
  destruct (decide (first < next)) as [Hlt|]; [|by rewrite seqZ_nil by lia].
  pose proof (interval_below _ _ _ Hok Hint Hlt). destruct (Hadj first next e Hint Hlt eq_refl).
  rewrite last_seqZ, seqZ_cons by lia. cbn [head]. unfold saturating_succ. rewrite Z.min_l by lia.
  apply orb_false_iff. split; apply Z.ltb_ge; lia.
Qed.

Lemma second_guard_passes log supplied e c :
  log_ok blake3 log → adjacent log (e :: supplied) → Forall (entry_typed blake3) (e :: supplied) →
  gap_free (map ce_index (e :: supplied)) = true → find_conflict log (e :: supplied) = Some c →
  (match last (keys log) with Some l => saturating_succ l <? c | None => false end) = false.
Proof.
  intros Hok Hadj Ht Hg (es1 & ec & es2 & Hsup & Hec & _ & Hes1)%find_conflict_Some.
  destruct (lo_interval _ _ Hok) as (first & next & Hint). rewrite (keys_interval log first next Hint).
  destruct (decide (first < next)) as [Hlt|]; [|by rewrite seqZ_nil by lia].
  pose proof (interval_below _ _ _ Hok Hint Hlt). destruct (Hadj first next e Hint Hlt eq_refl).
  rewrite last_seqZ by lia. unfold saturating_succ. rewrite Z.min_l by lia.
  apply Z.ltb_ge. destruct (decide (c ≤ next)) as [|Hgt]; [lia|]. exfalso.
  pose proof (supplied_indexes e supplied Ht Hg) as Hidx.
  assert (ce_index ec ∈ map ce_index (e :: supplied)) as Hc.
  { apply (list_elem_of_fmap_2 ce_index). rewrite Hsup. set_solver. }
  rewrite Hidx, elem_of_seqZ in Hc.
  assert (next ∈ map ce_index (e :: supplied)) as (e' & Hn & He')%list_elem_of_fmap.
  { rewrite Hidx, elem_of_seqZ. lia. }
  rewrite Hsup in Hidx, He'. assert (e' ∈ es1) as Hin by (eapply before_conflict; [done..|lia]).
  specialize (Hes1 e' Hin). rewrite <-Hn in Hes1. pose proof (proj1 (Hint next) (ex_intro _ e' Hes1)). lia.
Qed.

Lemma fjall_append_succeeds self supplied :
  fjall_ok self → Forall (entry_typed blake3) supplied → fc_fault self = None →
  ensure_binding self = Ok tt → gap_free (map ce_index supplied) = true →
  adjacent (decoded (fc_raft_log self)) supplied →
  (∀ e, e ∈ supplied → is_ok (encode_consensus_entry e) = true) →
  (fjall_append blake3 self supplied).1 = Ok tt.
Proof.
  intros Hok Ht Hf Hb Hg Hadj Henc. pose proof (decoded_log_ok self Hok) as Hlog.
  unfold fjall_append, lock. rewrite Hf, Hb, Hg. cbn [mbind result_bind negb].
  destruct supplied as [|e supplied]; [done|]. rewrite load_log_succeeds by done.
  rewrite (first_guard_passes _ _ _ Hlog Hadj).
  destruct (find_conflict (decoded (fc_raft_log self)) (e :: supplied)) as [c|] eqn:Hc; [|done].
  rewrite (second_guard_passes _ _ _ _ Hlog Hadj Ht Hg Hc).
  destruct (try_map_encode_row (base.filter (λ entry, c ≤ ce_index entry) (e :: supplied))) as [rows ->].
  { intros e' [_ ?]%list_elem_of_filter. by apply Henc. }
  unfold commit_log. by rewrite Hf.
Qed.

End contract.

(** ** A concrete store *)

#[local] Existing Instance countable_bincode.
#[local] Existing Instance countable_bincode_laws.

Definition example_owner : ReplicaBinding :=
  mkReplicaBinding 1 2 3 4 5 6 (checksum32 [1]) Fjall 1 1 (checksum32 [2]) "ns" "process://a" "process://b"
    Active.
Definition example_envelope (n : Z) : ConsensusCommandEnvelope :=
  match ConsensusCommandEnvelope_new checksum32 1 [n] with Ok e => e | Err _ => mkEnvelope 0 [] [] end.
(** The entry of [term] at [index]. *)
Definition example_entry (term index : Z) : ConsensusEntry :=
  mkConsensusEntry 1 term index (10 * term + index) (env_digest (example_envelope term)) (example_envelope term).
Definition example_store : FjallConsensusStore :=
  mkFjallConsensus example_owner
    (match encode_owner example_owner with Ok bs => Some bs | Err _ => None end) ∅ None None None.
(** The store with the entries 1 to 3 of term 1, and the suffix of term 2 a new leader supplies. *)
Definition example_filled : FjallConsensusStore :=
  (fjall_append checksum32 example_store [example_entry 1 1; example_entry 1 2; example_entry 1 3]).2.
Definition example_suffix : list ConsensusEntry := [example_entry 1 1; example_entry 2 2].

Lemma example_entry_typed term index :
  0 < term < 2 ^ 64 → 0 < index < u64_max → 0 ≤ 10 * term + index < 2 ^ 128 →
  entry_typed checksum32 (example_entry term index).
Proof.
  intros Ht Hi Hid. split; cbn; try done; unfold id_wf, id128_wf, in_u64, in_u128; lia.
Qed.

Lemma example_store_ok : fjall_ok checksum32 example_store.
Proof.
  split; cbn; [|exists 0, 0|done].
  - intros i value. by rewrite lookup_empty.
  - intros i. unfold decoded. rewrite omap_empty, lookup_empty. split; [by intros []|lia].
Qed.

Lemma example_filled_ok : fjall_ok checksum32 example_filled.
Proof.
  assert (Forall (entry_typed checksum32) [example_entry 1 1; example_entry 1 2; example_entry 1 3]) as Ht.
  { repeat constructor; apply example_entry_typed; unfold u64_max; lia. }
  unfold example_filled. destruct (fjall_append _ _ _) as [r s] eqn:Ha.
  pose proof (append_contract checksum32 _ _ r s example_store_ok Ht Ha) as Hc. cbn [snd].
  destruct r; [by destruct Hc as (? & _ & ? & _)|]. rewrite Hc. apply example_store_ok.
Qed.

