(* ===== verification/MetaTimestamps.v ===== *)
(** * The timestamp log of a Meta process ([dtg-meta/src/service.rs])

    [FjallTimestampLog] keeps the commands of the timestamp authority in a consensus store, one entry
    per command.  It is proved to be a log in the sense of [Timestamp], so that the theorems on the
    authority hold for the authority a Meta process runs. *)

From S2P Require Import Prelude Kernel Encoding Storage TxnError Timestamp Consensus FjallCodec.
From S2P Require Import FjallConsensus.
Open Scope Z_scope.

Definition CONSENSUS_FORMAT_VERSION : Z := 1.
Definition TIMESTAMP_LOG_TERM : Z := 1.

Record FjallTimestampLog (S : Type) := mkTimestampLog { tl_store : S; tl_next_index : Z }.
Arguments mkTimestampLog {S} _ _.
Arguments tl_store {S} _.
Arguments tl_next_index {S} _.

Section timestamp_log.
Context (blake3 : bytes → Digest32) {S : Type} `{ConsensusStore S}.
Implicit Types self : FjallTimestampLog S.

Definition timestamp_consensus_entry (index : Z) (payload : bytes) : result StorageError ConsensusEntry :=
  command_id ← CommandId_new index;
  command ← ConsensusCommandEnvelope_new blake3 CONSENSUS_FORMAT_VERSION payload;
  ConsensusEntry_new CONSENSUS_FORMAT_VERSION TIMESTAMP_LOG_TERM index command_id command.

Definition timestamp_log_open (store : S) : result StorageError (FjallTimestampLog S) :=
  entries ← consensus_entries store 1 u64_max u64_max;
  Ok (mkTimestampLog store
        match last entries with Some entry => Z.min (ce_index entry + 1) u64_max | None => 1 end).

Definition timestamp_log_replay self : result TxnError (list bytes) :=
  lift_storage
    (entries ← consensus_entries (tl_store self) 1 u64_max u64_max;
     Ok (map (λ entry, env_payload (ce_command entry)) entries)).

(** The entries for the commands from [first_index] on. *)
Fixpoint command_entries (first_index : Z) (commands : list bytes)
    : result TxnError (list ConsensusEntry) :=
  match commands with
  | [] => Ok []
  | command :: commands =>
      if first_index <? 2 ^ 64 then
        entry ← lift_storage (timestamp_consensus_entry first_index command);
        entries ← command_entries (first_index + 1) commands;
        Ok (entry :: entries)
      else Err ResourceLimit
  end.

Definition timestamp_log_append_batch (commands : list bytes) self
    : result TxnError unit * FjallTimestampLog S :=
  match commands with
  | [] => (Ok tt, self)
  | _ =>
      let first_index := tl_next_index self in
      match command_entries first_index commands with
      | Err e => (Err e, self)
      | Ok entries =>
          let next := first_index + Z.of_nat (length entries) in
          if next <? 2 ^ 64 then
            match consensus_append (tl_store self) entries with
            | (Err e, store) => (Err (from_storage_error e), mkTimestampLog store first_index)
            | (Ok _, store) => (Ok tt, mkTimestampLog store next)
            end
          else (Err ResourceLimit, self)
      end
  end.
End timestamp_log.

(** ** The log contract *)

Section contract.
Context (blake3 : bytes → Digest32) {S : Type} `{ConsensusStoreLaws blake3 S}.
Implicit Types self : FjallTimestampLog S.

(** The store holds the indexes from 1 up to the next one. *)
Definition timestamp_log_ok self : Prop :=
  consensus_ok (tl_store self) ∧ 1 ≤ tl_next_index self ≤ u64_max ∧
  log_interval (consensus_log (tl_store self)) 1 (tl_next_index self).

Lemma command_entries_Ok first commands entries :
  0 < first → first + Z.of_nat (length commands) < 2 ^ 64 →
  command_entries blake3 first commands = Ok entries →
  Forall (entry_typed blake3) entries ∧
  map ce_index entries = seqZ first (Z.of_nat (length commands)) ∧
  map (λ entry, env_payload (ce_command entry)) entries = commands.
Proof.
  revert first entries. induction commands as [|command commands IH]; cbn [command_entries length];
    intros first entries Hf Hlt Hc.
  { simplify_eq. split; [constructor|]. split; [by rewrite seqZ_nil by lia|done]. }
  guard_in Hc as Hb. apply bind_Ok in Hc as (entry & He & (rest & Hrest & [= <-])%bind_Ok).
  destruct (IH (first + 1) rest) as (Ht & Hi & Hp); [lia..|done|].
  unfold lift_storage, map_err in He. destruct (timestamp_consensus_entry _ _ _) as [e'|] eqn:Hte; [|done].
  injection He as ->. unfold timestamp_consensus_entry in Hte.
  apply bind_Ok in Hte as (id & Hid & (env & Henv & Hte)%bind_Ok).
  unfold CommandId_new in Hid. guard_in Hid as Hz. apply (inj Ok) in Hid as <-.
  pose proof Henv as Henv'. unfold ConsensusCommandEnvelope_new in Henv. guard_in Henv as Hev.
  apply (inj Ok) in Henv as Henv. unfold ConsensusEntry_new in Hte. guard_in Hte as Hce.
  apply (inj Ok) in Hte as <-. split; [|split].
  - constructor; [|done]. split; cbn; try done; unfold id_wf, id128_wf, in_u64, in_u128, u64_max; try lia.
    by rewrite <-Henv at 1 2.
  - cbn. rewrite Hi. rewrite (seqZ_cons first) by lia. f_equal. f_equal; lia.
  - cbn. rewrite Hp. f_equal. by rewrite <-Henv.
Qed.

(** A log after an append right behind its end. *)
Lemma appended_behind (log log' : gmap Z ConsensusEntry) supplied next k e :
  log_interval log 1 next → map ce_index supplied = seqZ next (Z.of_nat (length supplied)) →
  log_appended log supplied log' →
  log' !! k = Some e ↔ log !! k = Some e ∨ (e ∈ supplied ∧ ce_index e = k).
Proof.
  intros Hint Hidx [Hsup Hbelow Hsame Habove].
  assert (∀ e, e ∈ supplied → next ≤ ce_index e < next + Z.of_nat (length supplied)) as Hin.
  { intros x Hx. apply elem_of_seqZ. rewrite <-Hidx. by apply (list_elem_of_fmap_2 ce_index). }
  assert (∀ k, next ≤ k → log !! k = None) as Hnone.
  { intros j Hj. apply eq_None_not_Some. intros ?%Hint. lia. }
  destruct supplied as [|x supplied]; [rewrite Hsame; set_solver|].
  destruct (decide (k < next)) as [Hk|Hk]; [|destruct (decide (k < next + Z.of_nat (length (x :: supplied)))) as [Hk'|Hk']].
  - rewrite Hbelow by (intros y ?%Hin; lia). split; [by left|]. intros [?|[?%Hin <-]]; [done|lia].
  - assert (k ∈ map ce_index (x :: supplied)) as (y & -> & Hy)%list_elem_of_fmap.
    { rewrite Hidx. apply elem_of_seqZ. lia. }
    rewrite (Hsup y Hy), Hnone by lia. split; [intros [= <-]; by right|]. intros [?|[He Hxe]]; [done|].
    pose proof (Hsup e He) as He'. rewrite Hxe, (Hsup y Hy) in He'. done.
  - rewrite Habove.
    + split; [done|]. intros [Hl|[?%Hin <-]]; [|lia]. by rewrite Hnone in Hl by lia.
    + exists x. split; [left|]. rewrite Hnone; [done|]. apply Hin. left.
    + intros y ?%Hin. lia.
Qed.

(** Appending right behind an interval extends what is read. *)
Lemma log_range_appended (log log' : gmap Z ConsensusEntry) supplied next :
  log_interval log 1 next → 1 ≤ next → next + Z.of_nat (length supplied) ≤ u64_max →
  map ce_index supplied = seqZ next (Z.of_nat (length supplied)) →
  log_appended log supplied log' →
  log_range log' 1 u64_max = log_range log 1 u64_max ++ supplied ∧
  log_interval log' 1 (next + Z.of_nat (length supplied)).
Proof.
  intros Hint Hnext Hmax Hidx Happ.
  assert (∀ e, e ∈ supplied → next ≤ ce_index e < next + Z.of_nat (length supplied)) as Hin.
  { intros x Hx. apply elem_of_seqZ. rewrite <-Hidx. by apply (list_elem_of_fmap_2 ce_index). }
  split.
  - unfold log_range, values.
    replace supplied with (map (λ e, (ce_index e, e)) supplied).*2 at 1
      by (rewrite <-list_fmap_compose; apply list_fmap_id).
    rewrite <-fmap_app. f_equal. apply entries_unique.
    + apply StronglySorted_app. split; [|split].
      * intros [i x] [j y] [Hx _]%elem_of_entries%map_lookup_filter_Some (z & [= -> ->] & Hz)%list_elem_of_fmap.
        cbn. pose proof (proj1 (Hint i) (ex_intro _ x Hx)). specialize (Hin z Hz). lia.
      * apply entries_sorted.
      * eapply (StronglySorted_map ce_index _ Z.lt); [|rewrite Hidx; apply seqZ_sorted]. done.
    + intros k e. rewrite elem_of_app, elem_of_entries, !map_lookup_filter_Some.
      rewrite (appended_behind log log' supplied next k e) by done. cbn. split.
      * intros [[? ?]|(z & [= -> ->] & Hz)%list_elem_of_fmap]; [auto|].
        specialize (Hin z Hz). split; [auto|lia].
      * intros [[?|[He <-]] ?]; [by left|]. right. by apply (list_elem_of_fmap_2 (λ e, (ce_index e, e))).
  - intros i. split.
    + intros [e [He|[He <-]]%(appended_behind log log' supplied next i e)]; try done.
      * pose proof (proj1 (Hint i) (ex_intro _ e He)). lia.
      * specialize (Hin e He). lia.
    + intros Hi. destruct (decide (i < next)).
      * destruct (proj2 (Hint i)) as [e He]; [lia|]. exists e. apply (appended_behind log log' supplied next); auto.
      * assert (i ∈ map ce_index supplied) as (y & -> & Hy)%list_elem_of_fmap.
        { rewrite Hidx. apply elem_of_seqZ. lia. }
        exists y. apply (appended_behind log log' supplied next); auto.
Qed.

Lemma replay_Ok self commands :
  timestamp_log_ok self → timestamp_log_replay self = Ok commands →
  is_ok (consensus_entries (tl_store self) 1 u64_max u64_max) = true ∧
  commands = map (λ entry, env_payload (ce_command entry)) (log_range (consensus_log (tl_store self)) 1 u64_max).
Proof.
  intros (Hok & _ & _). unfold timestamp_log_replay.
  destruct (consensus_entries _ _ _ _) as [supplied|] eqn:He; [|done]. intros [= <-]. split; [done|].
  by rewrite (consensus_entries_spec _ _ _ _ Hok He).
Qed.

Lemma replay_readable self :
  timestamp_log_ok self → is_ok (consensus_entries (tl_store self) 1 u64_max u64_max) = true →
  timestamp_log_replay self =
    Ok (map (λ entry, env_payload (ce_command entry)) (log_range (consensus_log (tl_store self)) 1 u64_max)).
Proof.
  intros (Hok & _ & _) Hr. unfold timestamp_log_replay.
  destruct (consensus_entries _ _ _ _) as [supplied|] eqn:He; [|done]. cbn.
  by rewrite (consensus_entries_spec _ _ _ _ Hok He).
Qed.

(** What [append_batch] does to a well-formed log. *)
Lemma append_batch_cases self commands r self' :
  timestamp_log_ok self → timestamp_log_append_batch blake3 commands self = (r, self') →
  timestamp_log_ok self' ∧
  (is_ok (consensus_entries (tl_store self) 1 u64_max u64_max) = true →
   is_ok (consensus_entries (tl_store self') 1 u64_max u64_max) = true) ∧
  map (λ entry, env_payload (ce_command entry)) (log_range (consensus_log (tl_store self')) 1 u64_max) =
  map (λ entry, env_payload (ce_command entry)) (log_range (consensus_log (tl_store self)) 1 u64_max) ++
    match r with Ok _ => commands | Err _ => [] end.
Proof.
  intros Hok Ha. pose proof Hok as (Hcok & Hnext & Hint). unfold timestamp_log_append_batch in Ha.
  destruct commands as [|command commands]; [simplify_eq; by rewrite app_nil_r|].
  destruct (command_entries _ _ _) as [supplied|] eqn:Hc; [|simplify_eq; by rewrite app_nil_r].
  destruct (_ <? 2 ^ 64) eqn:Hlt; [|simplify_eq; by rewrite app_nil_r]. apply Z.ltb_lt in Hlt.
  assert (length supplied = length (command :: commands)) as Hlen.
  { clear -Hc. revert Hc. generalize (command :: commands) as l. generalize (tl_next_index self) as n.
    revert supplied. intros supplied n l. revert supplied n. induction l as [|c l IH]; cbn; intros supplied n Hc.
    - by simplify_eq.
    - guard_in Hc as Hb. apply bind_Ok in Hc as (? & _ & (? & Hrest & [= <-])%bind_Ok). cbn. f_equal. eauto. }
  destruct (command_entries_Ok (tl_next_index self) (command :: commands) supplied)
    as (Ht & Hidx & Hp); [lia|rewrite <-Hlen; lia|done|].
  rewrite <-Hlen in Hidx.
  destruct (consensus_append (tl_store self) supplied) as [r1 store] eqn:Happ.
  destruct (consensus_append_spec _ _ _ _ Hcok Ht Happ) as (Hok' & _ & _ & _ & Hlog).
  pose proof (consensus_append_readable _ _ _ _ 1 u64_max Hcok Ht Happ) as Hread.
  destruct r1; simplify_eq.
  - destruct (log_range_appended (consensus_log (tl_store self)) (consensus_log store) supplied
      (tl_next_index self)) as [Hrange Hint']; [done|lia|unfold u64_max; lia|done..|].
    split; [split; [done|]; split; [cbn; unfold u64_max; lia|done]|]. split; [done|].
    cbn [tl_store]. by rewrite Hrange, map_app, Hp.
  - split; [split; [done|]; split; [done|]; cbn; by rewrite Hlog|]. split; [done|].
    cbn [tl_store]. by rewrite Hlog, app_nil_r.
Qed.

(** Well-formed logs are logs of the timestamp authority. *)
Abbreviation TimestampLog := {self : FjallTimestampLog S | timestamp_log_ok self} (only parsing).

#[export] Instance FjallTimestampLog_log : TimestampCommandLog TimestampLog := {|
  replay log := timestamp_log_replay (`log);
  append_batch commands log :=
    let next := timestamp_log_append_batch blake3 commands (`log) in
    (next.1, exist _ next.2 (proj1 (append_batch_cases (`log) commands next.1 next.2 (proj2_sig log)
                                      (surjective_pairing next))));
|}.

#[export] Instance FjallTimestampLog_laws : TimestampCommandLogLaws TimestampLog.
Proof.
  assert (∀ (log log' : TimestampLog) r commands before,
    replay log = Ok before → append_batch commands log = (r, log') →
    replay log' = Ok (before ++ match r with Ok _ => commands | Err _ => [] end)) as Hboth.
  { intros [log Hok] log' r commands before Hr Ha. injection Ha as <- <-. cbn in Hr |- *.
    destruct (append_batch_cases log commands _ _ Hok (surjective_pairing _)) as (Hok' & Hread & Hmap).
    destruct (replay_Ok log before Hok Hr) as [Hrd ->].
    rewrite replay_readable; [|done|by apply Hread]. by rewrite Hmap. }
  split.
  - intros log log' commands before Hr Ha. by rewrite (Hboth log log' _ commands before Hr Ha).
  - intros log log' commands before e Hr Ha. rewrite (Hboth log log' _ commands before Hr Ha).
    by rewrite app_nil_r.
Qed.

Lemma log_range_last log next :
  log_ok blake3 log → log_interval log 1 next → 1 ≤ next ≤ u64_max →
  match last (log_range log 1 u64_max) with
  | Some entry => ce_index entry = next - 1
  | None => next = 1
  end.
Proof.
  intros Hok Hint Hnext. set (range := filter (λ p, 1 ≤ p.1 < u64_max) log).
  assert (keys range = seqZ 1 (next - 1)) as Hkeys.
  { apply keys_interval. intros i. split.
    - intros [e [He ?]%map_lookup_filter_Some]. pose proof (proj1 (Hint i) (ex_intro _ e He)). lia.
    - intros Hi. destruct (proj2 (Hint i) Hi) as [e He]. exists e. apply map_lookup_filter_Some. cbn.
      split; [done|lia]. }
  unfold log_range. fold range. unfold values. rewrite fmap_last.
  assert (fst <$> last (entries range) = last (seqZ 1 (next - 1))) as Hlast.
  { rewrite <-Hkeys. unfold keys. by rewrite fmap_last. }
  destruct (last (entries range)) as [[k v]|] eqn:Hl; cbn in Hlast |- *.
  - destruct (decide (1 < next)) as [Hlt|Hlt]; [|by rewrite seqZ_nil in Hlast by lia].
    rewrite (last_seqZ 1 (next - 1)) in Hlast by lia. injection Hlast as ->.
    apply last_Some_elem_of, elem_of_entries, map_lookup_filter_Some in Hl as [Hv _].
    destruct (lo_entry _ _ Hok _ _ Hv) as [-> _]. lia.
  - destruct (decide (1 < next)) as [Hlt|Hlt]; [|lia].
    rewrite (last_seqZ 1 (next - 1)) in Hlast by lia. done.
Qed.

(** The timestamp log of a Meta process keeps the contract of the timestamp authority's log over
    any consensus store: a batch is appended as a whole behind everything logged before, or nothing
    of it; the commands read back are those appended, in order; and opening the log again on the same
    store finds the same next index. *)
Theorem timestamp_log_contract self commands before :
  timestamp_log_ok self → timestamp_log_replay self = Ok before →
  let (r, self') := timestamp_log_append_batch blake3 commands self in
  timestamp_log_ok self' ∧
  timestamp_log_replay self' = Ok (before ++ match r with Ok _ => commands | Err _ => [] end) ∧
  timestamp_log_open (tl_store self') = Ok self'.
Proof.
  intros Hok Hr. destruct (timestamp_log_append_batch blake3 commands self) as [r self'] eqn:Ha.
  destruct (append_batch_cases self commands r self' Hok Ha) as (Hok' & Hread & Hmap).
  destruct (replay_Ok self before Hok Hr) as [Hrd ->]. specialize (Hread Hrd).
  split; [done|]. split; [rewrite replay_readable by done; by rewrite Hmap|].
  destruct Hok' as (Hcok & Hnext & Hint). unfold timestamp_log_open.
  destruct (consensus_entries _ _ _ _) as [supplied|] eqn:He; [|done]. cbn.
  rewrite (consensus_entries_spec _ _ _ _ Hcok He).
  pose proof (log_range_last _ _ (consensus_log_ok _ Hcok) Hint Hnext) as Hl.
  destruct self' as [store next]; cbn in *. destruct (last _); [|by rewrite Hl].
  rewrite Hl, Z.min_l by lia. do 2 f_equal. lia.
Qed.
End contract.

(** ** On the Fjall store *)

#[local] Existing Instance countable_bincode.
#[local] Existing Instance countable_bincode_laws.
#[local] Instance example_consensus : ConsensusStore FjallConsensusStore :=
  FjallConsensusStore_store checksum32.
#[local] Instance example_consensus_laws : ConsensusStoreLaws checksum32 FjallConsensusStore :=
  FjallConsensusStore_laws checksum32.

Definition example_log : FjallTimestampLog FjallConsensusStore := mkTimestampLog example_store 1.

Lemma timestamp_log_contract_witness :
  let (r, log') := timestamp_log_append_batch checksum32 [[7]; [8; 9]] example_log in
  is_ok r = true ∧ timestamp_log_replay log' = Ok [[7]; [8; 9]] ∧
  timestamp_log_open (tl_store log') = Ok log'.
Proof.
  assert ((timestamp_log_append_batch checksum32 [[7]; [8; 9]] example_log).1 = Ok tt) as Hfst
    by (vm_compute; reflexivity).
  pose proof (timestamp_log_contract checksum32 example_log [[7]; [8; 9]] []) as H.
  destruct (timestamp_log_append_batch checksum32 [[7]; [8; 9]] example_log) as [r log'].
  cbn [fst] in Hfst. subst r. destruct H as (_ & Hreplay & Hopen).
  - split; [apply example_store_ok|]. split; [vm_compute; split; discriminate|].
    intros i. cbn. unfold decoded. rewrite omap_empty, lookup_empty. split; [intros [? [=]]|lia].
  - vm_compute. reflexivity.
  - split; [reflexivity|]. split; [exact Hreplay|exact Hopen].
Defined.
