(* ===== verification/MetaRaft.v ===== *)
(** * The Raft host of a Meta process ([dtg-execution/src/meta_raft.rs])

    Entries of the Raft library are stored as consensus entries; the host persists what a [Ready] of
    the library asks for and hands out what has been committed; opening it again recovers the
    committed entries.  The library itself is not modelled: the [Ready] values it produces and the
    node it builds are arguments. *)

From S2P Require Import Prelude Text Kernel Encoding Storage Consensus.
Open Scope Z_scope.

Definition META_RAFT_ENTRY_VERSION : Z := 1.
Definition MAX_META_COMMAND_BYTES : Z := 16 * 1024 * 1024.

(** ** Types of the library ([eraftpb]) *)

Inductive EntryType := EntryNormal | EntryConfChange | EntryConfChangeV2.
#[export] Instance EntryType_eq_dec : EqDecision EntryType.
Proof. solve_decision. Defined.

Record RaftEntry := mkRaftEntry {
  re_type : EntryType;
  re_term : Z;
  re_index : Z;
  re_context : bytes;
  re_data : bytes;
}.
#[export] Instance RaftEntry_eq_dec : EqDecision RaftEntry.
Proof. solve_decision. Defined.

Record RaftHardStatePb := mkHardStatePb { pb_term : Z; pb_vote : Z; pb_commit : Z }.

(** ** Errors and committed entries *)

Inductive MetaRaftRole := RoleFollower | RoleCandidate | RoleLeader | RolePreCandidate.
#[export] Instance MetaRaftRole_eq_dec : EqDecision MetaRaftRole.
Proof. solve_decision. Defined.

Inductive MetaRaftError :=
| MrStorage (error : StorageError)
| MrRaft (error : string)
| MrInvalidState (message : string)
| MrNotLeader (leader : option ReplicaId)
| MrNotReady.

Definition MetaRaftError_to_string (e : MetaRaftError) : string :=
  match e with
  | MrStorage error => "Meta Raft storage error: " +:+ StorageError_to_string error
  | MrRaft error => "Meta Raft error: " +:+ error
  | MrInvalidState message => message
  | MrNotLeader leader =>
      "Meta replica is not leader: " +:+
      match leader with Some id => "Some(ReplicaId(" +:+ pretty id +:+ "))" | None => "None" end
  | MrNotReady => "Meta leader is not ready for linearizable read"
  end.

Definition lift_mr {A} (m : result StorageError A) : result MetaRaftError A := map_err MrStorage m.

Record MetaCommittedEntry := mkCommittedEntry {
  mc_term : Z;
  mc_index : Z;
  mc_proposal_id : Z;
  mc_payload : bytes;
}.
#[export] Instance MetaCommittedEntry_eq_dec : EqDecision MetaCommittedEntry.
Proof. solve_decision. Defined.

Definition exact_proposal_id (context : bytes) : result MetaRaftError Z :=
  if negb (Nat.eqb (length context) 16) then Err (MrInvalidState "Meta proposal ID is malformed")
  else
    let value := be_value context in
    if value =? 0 then Err (MrInvalidState "Meta proposal ID is zero") else Ok value.

Definition committed_entry (entry : RaftEntry) : result MetaRaftError (option MetaCommittedEntry) :=
  if negb (bool_decide (re_type entry = EntryNormal))
  then Err (MrInvalidState "Meta membership changes require the configured membership workflow")
  else if bool_decide (re_data entry = []) then Ok None
  else
    proposal_id ← exact_proposal_id (re_context entry);
    Ok (Some (mkCommittedEntry (re_term entry) (re_index entry) proposal_id (re_data entry))).

(** ** The log *)

(** [CommandId::new((u128::from(term) << 64) | u128::from(index))], or the proposal. *)
Definition entry_command_id (term index : Z) (context data : bytes) : result MetaRaftError CommandId :=
  if bool_decide (data = []) then lift_mr (CommandId_new (Z.lor (Z.shiftl term 64) index))
  else
    proposal_id ← exact_proposal_id context;
    lift_mr (CommandId_new proposal_id).

Definition encode_entry (blake3 : bytes → Digest32) (entry : RaftEntry)
    : result MetaRaftError ConsensusEntry :=
  if negb (bool_decide (re_type entry = EntryNormal)) || (re_term entry =? 0) || (re_index entry =? 0)
  then Err (MrInvalidState "Meta Raft WAL entry identity is invalid")
  else
    let context_len := Z.of_nat (length (re_context entry)) in
    if 2 ^ 32 <=? context_len then Err (MrInvalidState "Meta proposal context is oversized")
    else
      let payload := be_bytes 4 META_RAFT_ENTRY_VERSION ++ be_bytes 4 context_len ++ re_context entry ++
                     re_data entry in
      command_id ← entry_command_id (re_term entry) (re_index entry) (re_context entry) (re_data entry);
      envelope ← lift_mr (ConsensusCommandEnvelope_new blake3 SUPPORTED_CONSENSUS_COMMAND_FORMAT_VERSION payload);
      lift_mr (ConsensusEntry_new SUPPORTED_CONSENSUS_WAL_FORMAT_VERSION (re_term entry) (re_index entry)
                 command_id envelope).

Definition decode_entry (entry : ConsensusEntry) : result MetaRaftError RaftEntry :=
  let payload := env_payload (ce_command entry) in
  if (Z.of_nat (length payload) <? 8) then Err (MrInvalidState "Meta Raft WAL entry is truncated")
  else
    let version := be_value (slice 0 4 payload) in
    let context_end := 8 + be_value (slice 4 8 payload) in
    if Z.of_nat (length payload) <? context_end
    then Err (MrInvalidState "Meta Raft context is truncated")
    else if negb (version =? META_RAFT_ENTRY_VERSION)
    then Err (MrInvalidState "Meta Raft WAL version is unsupported")
    else
      let context := slice 8 (Z.to_nat context_end) payload in
      let data := drop (Z.to_nat context_end) payload in
      expected ← entry_command_id (ce_term entry) (ce_index entry) context data;
      if negb (expected =? ce_command_id entry)
      then Err (MrInvalidState "Meta Raft WAL command identity is inconsistent")
      else Ok (mkRaftEntry EntryNormal (ce_term entry) (ce_index entry) context data).

(** ** Hard states *)

Definition hard_state_to_pb (state : RaftHardState) : RaftHardStatePb :=
  mkHardStatePb (hs_current_term state) (default 0 (hs_voted_for state)) (hs_committed_index state).

Definition hard_state_from_pb (state : RaftHardStatePb) : result MetaRaftError RaftHardState :=
  voted_for ← (if pb_vote state =? 0 then Ok None
               else map_err (λ error, MrInvalidState ("invalid Meta Raft vote: " +:+
                                                      KernelError_to_string error))
                      (Some <$> nonzero_u64_identifier (pb_vote state)));
  Ok (mkHardState (pb_term state) voted_for (pb_commit state)).

(** ** The host *)

(** What a [Ready] and the [LightReady] that answers it hold: whether it carries a snapshot, the
    entries to append and how the library's own storage takes them, the hard state, the messages, the
    committed entries, and the hard state to persist when the light one has moved the commit index. *)
Record Ready (M : Type) := mkReady {
  rd_has_snapshot : bool;
  rd_entries : list RaftEntry;
  rd_memory_append : result string unit;
  rd_hard_state : option RaftHardStatePb;
  rd_messages : list M;
  rd_persisted_messages : list M;
  rd_committed_entries : list RaftEntry;
  rd_light_hard_state : option RaftHardStatePb;
  rd_light_committed_entries : list RaftEntry;
  rd_light_messages : list M;
}.
Arguments mkReady {M} _ _ _ _ _ _ _ _ _ _.
Arguments rd_has_snapshot {M} _.
Arguments rd_entries {M} _.
Arguments rd_memory_append {M} _.
Arguments rd_hard_state {M} _.
Arguments rd_messages {M} _.
Arguments rd_persisted_messages {M} _.
Arguments rd_committed_entries {M} _.
Arguments rd_light_hard_state {M} _.
Arguments rd_light_committed_entries {M} _.
Arguments rd_light_messages {M} _.

Record MetaRaftProgress (M : Type) := mkProgress {
  pr_messages : list M;
  pr_committed : list MetaCommittedEntry;
}.
Arguments mkProgress {M} _ _.
Arguments pr_messages {M} _.
Arguments pr_committed {M} _.

Section host.
Context (blake3 : bytes → Digest32) {S : Type} `{ConsensusStore S} {M : Type}.

Definition persist_hard_state (store : S) (hard_state : option RaftHardStatePb)
    : result MetaRaftError unit * S :=
  match hard_state with
  | None => (Ok tt, store)
  | Some hard_state =>
      match hard_state_from_pb hard_state with
      | Err e => (Err e, store)
      | Ok stored =>
          let (r, store) := consensus_set_hard_state store stored in (lift_mr r, store)
      end
  end.

Definition append_ready (store : S) (ready : Ready M) : result MetaRaftError unit * S :=
  match rd_entries ready with
  | [] => (Ok tt, store)
  | entries =>
      match try_map (encode_entry blake3) entries with
      | Err e => (Err e, store)
      | Ok encoded =>
          match consensus_append store encoded with
          | (Err e, store) => (Err (MrStorage e), store)
          | (Ok _, store) => (map_err MrRaft (rd_memory_append ready), store)
          end
      end
  end.

(** The committed entries that carry a command. *)
Definition collect_committed (committed : list RaftEntry) : result MetaRaftError (list MetaCommittedEntry) :=
  match try_map committed_entry committed with
  | Ok entries => Ok (omap (M := list) (λ entry, entry) entries)
  | Err e => Err e
  end.

(** One round of the loop of [drive_ready]. *)
Definition drive_one (store : S) (ready : Ready M) (progress : MetaRaftProgress M)
    : result MetaRaftError (MetaRaftProgress M) * S :=
  if rd_has_snapshot ready
  then (Err (MrInvalidState "Meta snapshot installation is not available through Ready"), store)
  else
    match append_ready store ready with
    | (Err e, store) => (Err e, store)
    | (Ok _, store) =>
        match persist_hard_state store (rd_hard_state ready) with
        | (Err e, store) => (Err e, store)
        | (Ok _, store) =>
            match persist_hard_state store (rd_light_hard_state ready) with
            | (Err e, store) => (Err e, store)
            | (Ok _, store) =>
                (committed ← collect_committed (rd_committed_entries ready ++ rd_light_committed_entries ready);
                 Ok (mkProgress (pr_messages progress ++ rd_messages ready ++ rd_persisted_messages ready ++
                                 rd_light_messages ready)
                       (pr_committed progress ++ committed)),
                 store)
            end
        end
    end.

(** [while self.node.has_ready()]: the list is what the node hands out until it has nothing more. *)
Fixpoint drive_ready (store : S) (readies : list (Ready M)) (progress : MetaRaftProgress M)
    : result MetaRaftError (MetaRaftProgress M) * S :=
  match readies with
  | [] => (Ok progress, store)
  | ready :: readies =>
      match drive_one store ready progress with
      | (Err e, store) => (Err e, store)
      | (Ok progress, store) => drive_ready store readies progress
      end
  end.

(** [new_node] stands for filling the library's storage and [RawNode::new]. *)
Definition MetaRaftHost_open {N : Type}
    (new_node : RaftMembership → list RaftEntry → RaftHardStatePb → ReplicaId → Z → result string N)
    (store : S) (node_id : ReplicaId) (applied_index : Z)
    : result MetaRaftError (N * list MetaCommittedEntry) :=
  if negb (rb_replica_id (consensus_binding store) =? node_id)
  then Err (MrInvalidState "Meta Raft store belongs to another replica")
  else
    membership ← lift_mr (consensus_membership store);
    if bool_decide (mb_voters membership = []) || negb (bool_decide (node_id ∈ mb_voters membership))
       || bool_decide (node_id ∈ mb_learners membership)
    then Err (MrInvalidState "configured Meta Raft membership does not contain this voter")
    else
      stored_hard_state ← lift_mr (consensus_hard_state store);
      if hs_committed_index stored_hard_state <? applied_index
      then Err (MrInvalidState "Meta applied index exceeds committed consensus index")
      else
        stored_entries ← lift_mr (consensus_entries store 1 u64_max u64_max);
        entries ← try_map decode_entry stored_entries;
        recovery ← collect_committed
                     (base.filter (λ entry, re_index entry ≤ hs_committed_index stored_hard_state) entries);
        node ← map_err MrRaft (new_node membership entries (hard_state_to_pb stored_hard_state) node_id
                                 applied_index);
        Ok (node, recovery).

(** The checks of [propose] before the library takes the proposal. *)
Definition check_proposal (role : MetaRaftRole) (leader : option ReplicaId) (proposal_id : Z)
    (payload : bytes) : result MetaRaftError unit :=
  if (proposal_id =? 0) || bool_decide (payload = [])
     || (MAX_META_COMMAND_BYTES <? Z.of_nat (length payload))
  then Err (MrInvalidState "Meta proposal identity or payload is invalid")
  else if negb (bool_decide (role = RoleLeader)) then Err (MrNotLeader leader)
  else Ok tt.
End host.

(** ** Round trip of the log *)

(** Entries as the library and [propose] make them: normal, identified, and a command carries its
    proposal. *)
Record raft_entry_wf (e : RaftEntry) : Prop := {
  rw_type : re_type e = EntryNormal;
  rw_term : id_wf (re_term e);
  rw_index : 0 < re_index e < u64_max;
  rw_context_len : Z.of_nat (length (re_context e)) < 2 ^ 32;
  rw_context : Forall byte_ok (re_context e);
  rw_proposal : re_data e ≠ [] → length (re_context e) = 16%nat ∧ be_value (re_context e) ≠ 0;
}.

Lemma term_index_id term index : id_wf term → 0 < index < u64_max → id128_wf (Z.lor (Z.shiftl term 64) index).
Proof.
  intros [[Ht1 Ht2] Ht3] Hi. unfold u64_max in Hi.
  assert (Z.lor (Z.shiftl term 64) index = Z.shiftl term 64 + index) as ->.
  { symmetry. rewrite <-Z.lxor_lor; [apply Z.add_nocarry_lxor|]; apply Z.bits_inj'; intros n Hn;
      rewrite Z.land_spec, Z.bits_0, Z.shiftl_spec by done;
      (destruct (decide (n < 64)); [rewrite Z.testbit_neg_r by lia; done|]);
      rewrite (Z.bits_above_log2 index n), andb_false_r; try done; try lia;
      (assert (Z.log2 index < 64); [|lia]; apply Z.log2_lt_pow2; lia). }
  rewrite Z.shiftl_mul_pow2 by lia. unfold id128_wf, in_u128. change (2 ^ 128) with (2 ^ 64 * 2 ^ 64). nia.
Qed.

Lemma exact_proposal_id_Ok context :
  length context = 16%nat → be_value context ≠ 0 → exact_proposal_id context = Ok (be_value context).
Proof. intros Hl Hv. unfold exact_proposal_id. by rewrite Hl, (proj2 (Z.eqb_neq _ _) Hv). Qed.

Lemma entry_command_id_Ok e :
  raft_entry_wf e → ∃ id, id128_wf id ∧
    entry_command_id (re_term e) (re_index e) (re_context e) (re_data e) = Ok id.
Proof.
  intros [_ Ht Hi _ Hb Hp]. unfold entry_command_id. case_bool_decide as Hd.
  - pose proof (term_index_id _ _ Ht Hi) as Hid. eexists. split; [exact Hid|]. unfold CommandId_new.
    by rewrite (proj2 (Z.eqb_neq _ 0)) by apply Hid.
  - destruct (Hp Hd) as [Hl Hv]. rewrite exact_proposal_id_Ok by done. exists (be_value (re_context e)). split.
    + split; [|done]. pose proof (be_value_bound _ Hb) as Hbound. rewrite Hl in Hbound. exact Hbound.
    + cbn. unfold CommandId_new. by rewrite (proj2 (Z.eqb_neq _ _) Hv).
Qed.

Lemma entry_round_trip blake3 e :
  raft_entry_wf e → ∃ ce, encode_entry blake3 e = Ok ce ∧ entry_typed blake3 ce ∧
    ce_index ce = re_index e ∧ decode_entry ce = Ok e.
Proof.
  intros Hwf. destruct (entry_command_id_Ok e Hwf) as (id & Hidwf & Hid). destruct Hwf as [Hty Ht Hi Hlen Hb _].
  set (payload := be_bytes 4 META_RAFT_ENTRY_VERSION ++ be_bytes 4 (Z.of_nat (length (re_context e))) ++
                  re_context e ++ re_data e).
  assert (ConsensusCommandEnvelope_new blake3 SUPPORTED_CONSENSUS_COMMAND_FORMAT_VERSION payload =
    Ok (mkEnvelope 1 payload (blake3 (as_bytes "dtg-consensus-command-envelope-v1" ++ be_bytes 4 1 ++
          be_bytes 8 (Z.of_nat (length payload)) ++ payload)))) as Henv.
  { unfold ConsensusCommandEnvelope_new. by rewrite bool_decide_eq_false_2. }
  eexists. split; [|split; [|split]].
  - unfold encode_entry. rewrite Hty, bool_decide_eq_true_2 by done.
    rewrite (proj2 (Z.eqb_neq (re_term e) 0)) by apply Ht. rewrite (proj2 (Z.eqb_neq (re_index e) 0)) by lia.
    cbn [negb orb]. rewrite (proj2 (Z.leb_gt _ _) Hlen). rewrite Hid. cbn [mbind result_bind]. fold payload.
    rewrite Henv. cbn [lift_mr map_err mbind result_bind]. unfold ConsensusEntry_new.
    rewrite (proj2 (Z.eqb_neq (re_term e) 0)) by apply Ht. rewrite (proj2 (Z.eqb_neq (re_index e) 0)) by lia.
    reflexivity.
  - by split.
  - done.
  - unfold decode_entry. cbn [ce_command env_payload].
    set (n := length (re_context e)) in *.
    assert (length payload = 8 + n + length (re_data e))%nat as Hlenp.
    { unfold payload, n. rewrite !length_app, !length_be_bytes. lia. }
    assert (slice 0 4 payload = be_bytes 4 META_RAFT_ENTRY_VERSION) as ->.
    { apply (slice_app_mid [] (be_bytes 4 META_RAFT_ENTRY_VERSION)); [done|by rewrite length_be_bytes]. }
    assert (slice 4 8 payload = be_bytes 4 (Z.of_nat n)) as ->.
    { apply slice_app_mid; by rewrite length_be_bytes. }
    assert (slice 8 (8 + n) payload = re_context e) as Hctx.
    { unfold payload. rewrite (app_assoc (be_bytes 4 _)). apply slice_app_mid; [|done].
      by rewrite length_app, !length_be_bytes. }
    assert (drop (8 + n) payload = re_data e) as Hdata.
    { unfold payload. rewrite !(app_assoc (be_bytes 4 _)), !app_assoc. apply drop_app_length'.
      rewrite !length_app, !length_be_bytes. done. }
    rewrite !be_value_be_bytes. rewrite (Z.mod_small (Z.of_nat n)) by (split; [lia|exact Hlen]).
    rewrite (proj2 (Z.ltb_ge _ _)) by lia. rewrite (proj2 (Z.ltb_ge (Z.of_nat (length payload)) _)) by lia.
    replace (Z.to_nat (8 + Z.of_nat n)) with (8 + n)%nat by lia. rewrite Hctx, Hdata.
    cbn [ce_term ce_index ce_command_id]. rewrite Hid. cbn [mbind result_bind]. rewrite (Z.eqb_refl id).
    transitivity (Ok (E := MetaRaftError)
      (mkRaftEntry (re_type e) (re_term e) (re_index e) (re_context e) (re_data e))).
    + by rewrite Hty.
    + by destruct e.
Qed.

(** ** The durable log *)

Section durable.
Context (blake3 : bytes → Digest32) {S : Type} `{ConsensusStoreLaws blake3 S} {M : Type}.

(** The store holds exactly the entries [log], the first at index 1. *)
Record holds (store : S) (log : list RaftEntry) : Prop := {
  ho_ok : consensus_ok store;
  ho_length : Z.of_nat (length log) < u64_max;
  ho_entry i e : log !! i = Some e → raft_entry_wf e ∧ re_index e = Z.of_nat i + 1 ∧
    ∃ ce, encode_entry blake3 e = Ok ce ∧ consensus_log store !! (Z.of_nat i + 1) = Some ce;
  ho_interval : log_interval (consensus_log store) 1 (Z.of_nat (length log) + 1);
}.

(** The commands among committed entries. *)
Definition commands_of (log : list RaftEntry) : list MetaCommittedEntry :=
  omap (λ e, if bool_decide (re_data e = []) then None
             else Some (mkCommittedEntry (re_term e) (re_index e) (be_value (re_context e)) (re_data e))) log.

Lemma collect_committed_Ok log :
  Forall raft_entry_wf log → collect_committed log = Ok (commands_of log).
Proof.
  unfold collect_committed, commands_of. induction 1 as [|e log He _ IH]; [done|]. cbn [try_map].
  assert (committed_entry e = Ok (if bool_decide (re_data e = []) then None
    else Some (mkCommittedEntry (re_term e) (re_index e) (be_value (re_context e)) (re_data e)))) as ->.
  { unfold committed_entry. rewrite (rw_type e He), bool_decide_eq_true_2 by done. cbn [negb].
    case_bool_decide as Hd; [done|]. destruct (rw_proposal e He Hd). by rewrite exact_proposal_id_Ok. }
  destruct (try_map committed_entry log) as [entries|]; [|done]. cbn. injection IH as ->.
  by case_bool_decide.
Qed.

Lemma holds_wf store log : holds store log → Forall raft_entry_wf log.
Proof. intros Hh. apply Forall_lookup. intros i e He. by destruct (ho_entry _ _ Hh i e He). Qed.

(** An entry and what it is stored as. *)
Definition stored_as (e : RaftEntry) (ce : ConsensusEntry) : Prop :=
  encode_entry blake3 e = Ok ce ∧ entry_typed blake3 ce ∧ ce_index ce = re_index e ∧ decode_entry ce = Ok e.

Lemma stored_as_exists log : Forall raft_entry_wf log → ∃ ces, Forall2 stored_as log ces.
Proof.
  induction 1 as [|e log He _ [ces Hces]]; [by exists []|].
  destruct (entry_round_trip blake3 e He) as (ce & ? & ? & ? & ?). exists (ce :: ces). by constructor.
Qed.

Lemma try_map_encode log ces : Forall2 stored_as log ces → try_map (encode_entry blake3) log = Ok ces.
Proof. induction 1 as [|e ce log ces (He & _) _ IH]; cbn; [done|]. by rewrite He, IH. Qed.
Lemma try_map_decode log ces : Forall2 stored_as log ces → try_map decode_entry ces = Ok log.
Proof. induction 1 as [|e ce log ces (_ & _ & _ & He) _ IH]; cbn; [done|]. by rewrite He, IH. Qed.
Lemma stored_as_index log ces : Forall2 stored_as log ces → map ce_index ces = map re_index log.
Proof. induction 1 as [|e ce log ces (_ & _ & He & _) _ IH]; cbn; [done|]. by rewrite He, IH. Qed.
Lemma stored_as_typed log ces : Forall2 stored_as log ces → Forall (entry_typed blake3) ces.
Proof. induction 1 as [|e ce log ces (_ & Ht & _) _ IH]; by constructor. Qed.

Lemma holds_indexes store log : holds store log → map re_index log = seqZ 1 (Z.of_nat (length log)).
Proof.
  intros Hh. apply list_eq. intros i. destruct (log !! i) as [e|] eqn:He.
  - rewrite lookup_seqZ_lt by (apply lookup_lt_Some in He; lia).
    rewrite (list_lookup_fmap re_index), He. cbn. destruct (ho_entry _ _ Hh i e He) as (_ & -> & _). f_equal. lia.
  - rewrite lookup_seqZ_ge by (apply lookup_ge_None in He; lia). by rewrite (list_lookup_fmap re_index), He.
Qed.

Lemma holds_lookup store log ces k ce :
  holds store log → Forall2 stored_as log ces →
  consensus_log store !! k = Some ce ↔ ce ∈ ces ∧ ce_index ce = k.
Proof.
  intros Hh Hces. split.
  - intros Hk. pose proof (proj1 (ho_interval _ _ Hh k) (ex_intro _ ce Hk)) as Hint.
    destruct (lookup_lt_is_Some_2 log (Z.to_nat (k - 1))) as [e He]; [lia|].
    destruct (ho_entry _ _ Hh _ _ He) as (_ & Hi & ce' & Hc' & Hl).
    replace (Z.of_nat (Z.to_nat (k - 1)) + 1) with k in * by lia. rewrite Hk in Hl. injection Hl as <-.
    destruct (Forall2_lookup_l _ _ _ _ _ Hces He) as (ce' & Hce' & Henc & _ & Hci & _).
    rewrite Hc' in Henc. injection Henc as <-. split; [by eapply list_elem_of_lookup_2|lia].
  - intros [[i Hi]%list_elem_of_lookup_1 Hk].
    destruct (Forall2_lookup_r _ _ _ _ _ Hces Hi) as (e & He & Henc & _ & Hci & _).
    destruct (ho_entry _ _ Hh _ _ He) as (_ & Hidx & ce' & Hc' & Hl). rewrite Henc in Hc'. injection Hc' as <-.
    by rewrite <-Hk, Hci, Hidx.
Qed.

Lemma holds_read store log encoded :
  holds store log → consensus_entries store 1 u64_max u64_max = Ok encoded →
  try_map decode_entry encoded = Ok log.
Proof.
  intros Hh Hr. apply (consensus_entries_spec _ _ _ _ (ho_ok _ _ Hh)) in Hr as ->.
  destruct (stored_as_exists log (holds_wf _ _ Hh)) as [ces Hces].
  assert (map ce_index ces = seqZ 1 (Z.of_nat (length log))) as Hidx.
  { rewrite (stored_as_index _ _ Hces). by apply (holds_indexes store). }
  assert (log_range (consensus_log store) 1 u64_max = ces) as ->; [|by apply try_map_decode].
  unfold log_range, values. rewrite (entries_unique _ (map (λ ce, (ce_index ce, ce)) ces)).
  - rewrite <-list_fmap_compose. apply list_fmap_id.
  - eapply (StronglySorted_map ce_index _ Z.lt); [|rewrite Hidx; apply seqZ_sorted]. done.
  - intros k ce. rewrite map_lookup_filter_Some, (holds_lookup store log ces k ce Hh Hces). split.
    + intros (ce' & [= -> ->] & Hin)%list_elem_of_fmap. split; [done|]. cbn.
      assert (ce_index ce' ∈ seqZ 1 (Z.of_nat (length log))) as Hk.
      { rewrite <-Hidx. by apply (list_elem_of_fmap_2 ce_index). }
      apply elem_of_seqZ in Hk. pose proof (ho_length _ _ Hh). lia.
    + intros [[Hin <-] _]. by apply (list_elem_of_fmap_2 (λ ce, (ce_index ce, ce))).
Qed.

(** ** What the library guarantees *)

(** The commit index of an optional hard state. *)
Definition commit_of (commit : Z) (hard_state : option RaftHardStatePb) : Z :=
  match hard_state with Some hard_state => pb_commit hard_state | None => commit end.

(** A [Ready] on a log with the given commit index, of which the first [delivered] entries have been
    handed out: it appends at the end or replaces a suffix of uncommitted entries by a different one,
    never moves the commit index back or past the log, and hands out the next entries below it. *)
Record ready_ok (log : list RaftEntry) (commit : Z) (delivered : nat) (ready : Ready M)
    (log' : list RaftEntry) (commit' : Z) (delivered' : nat) : Prop := {
  ry_snapshot : rd_has_snapshot ready = false;
  ry_log : match rd_entries ready with
           | [] => log' = log
           | e :: _ => ∃ k, commit ≤ Z.of_nat k ∧ (k ≤ length log)%nat ∧ log' = take k log ++ rd_entries ready ∧
               (k = length log ∨ log !! k ≠ Some e)
           end;
  ry_wf : Forall raft_entry_wf log';
  ry_indexes : map re_index log' = seqZ 1 (Z.of_nat (length log'));
  ry_length : Z.of_nat (length log') < u64_max;
  ry_commit : commit ≤ commit_of commit (rd_hard_state ready) ≤ commit';
  ry_light : commit' = commit_of (commit_of commit (rd_hard_state ready)) (rd_light_hard_state ready);
  ry_bound : commit' ≤ Z.of_nat (length log');
  ry_delivered : (delivered ≤ delivered')%nat ∧ Z.of_nat delivered' ≤ commit';
  ry_committed : rd_committed_entries ready ++ rd_light_committed_entries ready =
    slice delivered delivered' log';
}.

Definition commit_index (store : S) : Z := hs_committed_index (consensus_hard store).

Lemma persist_hard_state_spec store log hard_state r store' :
  holds store log → persist_hard_state store hard_state = (r, store') →
  holds store' log ∧
  match r with
  | Ok _ => commit_index store' = commit_of (commit_index store) hard_state
  | Err _ => commit_index store' = commit_index store ∨
             commit_index store' = commit_of (commit_index store) hard_state
  end.
Proof.
  intros Hh. unfold persist_hard_state. destruct hard_state as [pb|]; [|intros [= <- <-]; done].
  destruct (hard_state_from_pb pb) as [hard|e] eqn:Hpb; [|intros [= <- <-]; auto].
  assert (hard_typed hard ∧ hs_committed_index hard = pb_commit pb) as [Ht Hc].
  { unfold hard_state_from_pb in Hpb. apply bind_Ok in Hpb as (v & Hv & [= <-]). split; [|done].
    unfold hard_typed. cbn. case_match; simplify_eq; [done|].
    unfold nonzero_u64_identifier in Hv. case_match; simplify_eq/=. by apply Z.eqb_neq. }
  destruct (consensus_set_hard_state store hard) as [r1 store1] eqn:Hs. intros [= <- <-].
  destruct (consensus_set_hard_state_spec _ _ _ _ (ho_ok _ _ Hh) Ht Hs) as (Hok & Hl & _ & _ & Hhard).
  split.
  - split; [done|apply (ho_length _ _ Hh)|rewrite Hl; apply (ho_entry _ _ Hh)|rewrite Hl; apply (ho_interval _ _ Hh)].
  - unfold commit_index, commit_of. destruct r1; cbn; [by rewrite Hhard|]. destruct Hhard as [-> | ->]; auto.
Qed.

Lemma index_lookup log i e :
  map re_index log = seqZ 1 (Z.of_nat (length log)) → log !! i = Some e → re_index e = Z.of_nat i + 1.
Proof.
  intros Hidx He. pose proof (lookup_lt_Some _ _ _ He).
  assert (map re_index log !! i = Some (re_index e)) as Hi by (by rewrite (list_lookup_fmap re_index), He).
  rewrite Hidx, lookup_seqZ_lt in Hi by lia. injection Hi. lia.
Qed.

(** The stored form determines the entry. *)
Lemma holds_stored store log k ce e :
  holds store log → consensus_log store !! (Z.of_nat k + 1) = Some ce → stored_as e ce → log !! k = Some e.
Proof.
  intros Hh Hl (_ & _ & _ & Hdec).
  pose proof (proj1 (ho_interval _ _ Hh _) (ex_intro _ ce Hl)) as Hint.
  destruct (lookup_lt_is_Some_2 log k) as [e' He]; [lia|]. rewrite He.
  destruct (ho_entry _ _ Hh _ _ He) as (Hwf & _ & ce' & Henc & Hl'). rewrite Hl in Hl'. injection Hl' as <-.
  destruct (entry_round_trip blake3 e' Hwf) as (ce' & Henc' & _ & _ & Hdec').
  rewrite Henc in Henc'. injection Henc' as <-. rewrite Hdec in Hdec'. by injection Hdec' as ->.
Qed.

(** Appending at index [k + 1] what the log does not hold there replaces everything from there on. *)
Lemma log_appended_holds store store' log k new ces :
  holds store log → consensus_ok store' → (k ≤ length log)%nat →
  Forall raft_entry_wf (take k log ++ new) →
  map re_index (take k log ++ new) = seqZ 1 (Z.of_nat (length (take k log ++ new))) →
  Z.of_nat (length (take k log ++ new)) < u64_max →
  Forall2 stored_as new ces → log !! k ≠ head new → new ≠ [] →
  log_appended (consensus_log store) ces (consensus_log store') →
  holds store' (take k log ++ new).
Proof.
  intros Hh Hok Hk Hwf Hidx Hlen Hces Hdiff Hne Happ.
  assert (∀ j e, new !! j = Some e → (take k log ++ new) !! (k + j)%nat = Some e) as Hnew.
  { intros j e He. rewrite lookup_app_r, length_take by (rewrite length_take; lia). by rewrite <-He; f_equal; lia. }
  assert (∀ ce, ce ∈ ces → Z.of_nat k + 1 ≤ ce_index ce < Z.of_nat (length (take k log ++ new)) + 1) as Hrange.
  { intros ce [j Hj]%list_elem_of_lookup_1.
    destruct (Forall2_lookup_r _ _ _ _ _ Hces Hj) as (e & He & _ & _ & -> & _).
    apply Hnew in He. rewrite (index_lookup _ _ _ Hidx He). apply lookup_lt_Some in He. lia. }
  assert (∀ i, i < Z.of_nat k + 1 → consensus_log store' !! i = consensus_log store !! i) as Hbelow.
  { intros i Hi. apply (la_below _ _ _ Happ). intros ce Hce. apply Hrange in Hce. lia. }
  assert (∀ i e, (take k log ++ new) !! i = Some e → ∃ ce, encode_entry blake3 e = Ok ce ∧
            consensus_log store' !! (Z.of_nat i + 1) = Some ce) as Hentry.
  { intros i e He. destruct (decide (i < k)%nat) as [Hi|Hi].
    - rewrite lookup_app_l, lookup_take_lt in He by (rewrite ?length_take; lia).
      rewrite Hbelow by lia. by destruct (ho_entry _ _ Hh _ _ He) as (_ & _ & ?).
    - pose proof He as He'. rewrite lookup_app_r, length_take in He' by (rewrite length_take; lia).
      destruct (Forall2_lookup_l _ _ _ _ _ Hces He') as (ce & Hce & Henc & _ & Hci & _).
      exists ce. split; [done|]. rewrite <-(index_lookup _ _ _ Hidx He), <-Hci.
      apply (la_supplied _ _ _ Happ). by eapply list_elem_of_lookup_2. }
  split; [done|done| |].
  - intros i e He. split; [by eapply Forall_lookup_1|]. split; [by apply (index_lookup _ _ _ Hidx)|by apply Hentry].
  - intros i. split.
    + intros Hi. destruct (decide (i < Z.of_nat k + 1)) as [Hlt|Hge].
      * rewrite Hbelow in Hi by done. apply (ho_interval _ _ Hh) in Hi. rewrite length_app, length_take. lia.
      * split; [lia|]. destruct (decide (i < Z.of_nat (length (take k log ++ new)) + 1)) as [|Hout]; [done|].
        exfalso. destruct Hces as [|e ce new ces Hce Hces]; [done|].
        rewrite (la_above _ _ _ Happ) in Hi; [by destruct Hi| |].
        -- exists ce. split; [left|]. intros Hl. apply Hdiff. cbn.
           pose proof Hce as (_ & _ & Hci & _). rewrite Hci in Hl.
           rewrite (index_lookup _ (k + 0) e Hidx) in Hl by (by apply Hnew).
           rewrite Nat.add_0_r in Hl. by apply (holds_stored store log k ce e).
        -- intros ce' Hce'. apply Hrange in Hce'. lia.
    + intros Hi. destruct (lookup_lt_is_Some_2 (take k log ++ new) (Z.to_nat (i - 1))) as [e He]; [lia|].
      destruct (Hentry _ _ He) as (ce & _ & Hce). exists ce. rewrite <-Hce. f_equal. lia.
Qed.

Lemma append_ready_spec store log commit delivered ready log' commit' delivered' r store' :
  holds store log → ready_ok log commit delivered ready log' commit' delivered' →
  append_ready blake3 store ready = (r, store') →
  commit_index store' = commit_index store ∧
  (holds store' log' ∨ (is_ok r = false ∧ holds store' log)).
Proof.
  intros Hh Hr Ha. unfold append_ready in Ha. pose proof (ry_log _ _ _ _ _ _ _ Hr) as Hlog.
  destruct (rd_entries ready) as [|e es] eqn:He; [simplify_eq; auto|].
  destruct Hlog as (k & _ & Hk & -> & Hdiff). destruct Hr as [_ _ Hwf Hidx Hlen _ _ _ _ _].
  destruct (stored_as_exists (e :: es)) as [ces Hces]; [by apply Forall_app in Hwf as [_ ?]|].
  rewrite (try_map_encode _ _ Hces) in Ha.
  destruct (consensus_append store ces) as [r1 store1] eqn:Happ.
  destruct (consensus_append_spec _ _ _ _ (ho_ok _ _ Hh) (stored_as_typed _ _ Hces) Happ)
    as (Hok & Hhard & _ & _ & Hlog).
  assert (commit_index store1 = commit_index store) as Hc by (unfold commit_index; by rewrite Hhard).
  destruct r1 as [u|err]; simplify_eq; split; try done.
  - left. eapply log_appended_holds; eauto. cbn. destruct Hdiff as [->|Hd]; [|done].
    by rewrite (proj2 (lookup_ge_None log _)) by lia.
  - right. split; [done|]. split; [done|apply (ho_length _ _ Hh)|rewrite Hlog; apply (ho_entry _ _ Hh)|].
    rewrite Hlog. apply (ho_interval _ _ Hh).
Qed.

(** The store holds a log and a commit index within it. *)
Definition durable (store : S) (log : list RaftEntry) (commit : Z) : Prop :=
  holds store log ∧ commit_index store = commit ∧ 0 ≤ commit ≤ Z.of_nat (length log).

(** A state reached from [log] and [commit] keeps every committed entry. *)
Definition extends (log : list RaftEntry) (commit : Z) (log' : list RaftEntry) (commit' : Z) : Prop :=
  commit ≤ commit' ∧ take (Z.to_nat commit) log' = take (Z.to_nat commit) log.

Lemma extends_refl log commit : extends log commit log commit.
Proof. by split. Qed.
Lemma extends_trans log commit log1 commit1 log2 commit2 :
  0 ≤ commit → extends log commit log1 commit1 → extends log1 commit1 log2 commit2 → extends log commit log2 commit2.
Proof.
  intros Hnn [Hc1 Ht1] [Hc2 Ht2]. split; [lia|]. rewrite <-Ht1.
  assert (∀ l : list RaftEntry, take (Z.to_nat commit) l = take (Z.to_nat commit) (take (Z.to_nat commit1) l)) as Htt.
  { intros l. rewrite take_take. f_equal. lia. }
  by rewrite (Htt log2), Ht2, <-Htt.
Qed.

Lemma ready_ok_extends log commit delivered ready log' commit' delivered' commit1 :
  0 ≤ commit → commit ≤ commit1 → ready_ok log commit delivered ready log' commit' delivered' →
  extends log commit log' commit1.
Proof.
  intros Hnn Hc Hr. split; [done|]. pose proof (ry_log _ _ _ _ _ _ _ Hr) as Hlog.
  destruct (rd_entries ready) as [|e es]; [by subst|]. destruct Hlog as (k & Hk & Hlen & -> & _).
  rewrite take_app_le by (rewrite length_take; lia). rewrite take_take. f_equal. lia.
Qed.

Lemma drive_one_spec store log commit delivered ready log' commit' delivered' progress r store' :
  durable store log commit → ready_ok log commit delivered ready log' commit' delivered' →
  drive_one blake3 store ready progress = (r, store') →
  match r with
  | Ok progress' => durable store' log' commit' ∧ extends log commit log' commit' ∧
      pr_committed progress' = pr_committed progress ++ commands_of (slice delivered delivered' log')
  | Err _ => ∃ log1 commit1, durable store' log1 commit1 ∧ extends log commit log1 commit1
  end.
Proof.
  intros (Hh & Hci & Hb) Hr Hd. unfold drive_one in Hd. rewrite (ry_snapshot _ _ _ _ _ _ _ Hr) in Hd.
  pose proof (ry_commit _ _ _ _ _ _ _ Hr) as Hc. pose proof (ry_light _ _ _ _ _ _ _ Hr) as Hl.
  pose proof (ry_bound _ _ _ _ _ _ _ Hr) as Hbound.
  destruct (append_ready blake3 store ready) as [r1 store1] eqn:Ha.
  destruct (append_ready_spec _ _ _ _ _ _ _ _ _ _ Hh Hr Ha) as [Hc1 Hh1]. rewrite Hci in Hc1.
  destruct r1 as [u|e].
  2: { simplify_eq. destruct Hh1 as [Hh1|[_ Hh1]].
       - exists log', (commit_index store). split; [|eapply ready_ok_extends; eauto; lia].
         split; [done|]. split; [done|lia].
       - exists log, (commit_index store). split; [|apply extends_refl]. by split. }
  destruct Hh1 as [Hh1|[? _]]; [|done].
  assert (∀ commit1 s, holds s log' → commit_index s = commit1 → commit ≤ commit1 ≤ commit' →
            durable s log' commit1 ∧ extends log commit log' commit1) as Hgo.
  { intros commit1 s Hs Hcs Hle. split; [|eapply ready_ok_extends; eauto; lia]. split; [done|]. split; [done|lia]. }
  destruct (persist_hard_state store1 (rd_hard_state ready)) as [r2 store2] eqn:Hp.
  destruct (persist_hard_state_spec _ _ _ _ _ Hh1 Hp) as [Hh2 Hc2]. rewrite Hc1 in Hc2.
  destruct r2 as [u2|e]; [|simplify_eq; exists log'; destruct Hc2 as [Hc2|Hc2]; eexists; eapply Hgo; eauto; lia].
  destruct (persist_hard_state store2 (rd_light_hard_state ready)) as [r3 store3] eqn:Hp3.
  destruct (persist_hard_state_spec _ _ _ _ _ Hh2 Hp3) as [Hh3 Hc3]. rewrite Hc2, <-Hl in Hc3.
  destruct r3 as [u3|e]; [|simplify_eq; exists log'; destruct Hc3 as [Hc3|Hc3]; eexists; eapply Hgo; eauto; lia].
  rewrite (ry_committed _ _ _ _ _ _ _ Hr), collect_committed_Ok in Hd.
  - cbn in Hd. simplify_eq. destruct (Hgo _ _ Hh3 Hc3); [lia|]. done.
  - unfold slice. apply Forall_take, Forall_drop, (ry_wf _ _ _ _ _ _ _ Hr).
Qed.

(** A run of the library: the [Ready] values it hands out one after the other. *)
Inductive readies_ok : list RaftEntry → Z → nat → list (Ready M) → list RaftEntry → Z → nat → Prop :=
| readies_nil log commit delivered : readies_ok log commit delivered [] log commit delivered
| readies_cons log commit delivered ready log1 commit1 delivered1 readies log2 commit2 delivered2 :
    ready_ok log commit delivered ready log1 commit1 delivered1 →
    readies_ok log1 commit1 delivered1 readies log2 commit2 delivered2 →
    readies_ok log commit delivered (ready :: readies) log2 commit2 delivered2.

Lemma slice_take {A} (a b : nat) (l : list A) : slice a b l = drop a (take b l).
Proof. unfold slice. symmetry. apply skipn_firstn_comm. Qed.
Lemma slice_join {A} (a b c : nat) (l : list A) :
  (a ≤ b)%nat → (b ≤ c)%nat → slice a b l ++ slice b c l = slice a c l.
Proof.
  intros Hab Hbc. unfold slice. rewrite <-(take_drop (b - a) (take (c - a) (drop a l))), take_take.
  f_equal; [f_equal; lia|]. rewrite skipn_firstn_comm, drop_drop. f_equal; [lia|f_equal; lia].
Qed.
Lemma slice_committed (log log' : list RaftEntry) commit commit' (a b : nat) :
  extends log commit log' commit' → Z.of_nat b ≤ commit → slice a b log' = slice a b log.
Proof.
  intros [_ Ht] Hb. rewrite !slice_take. f_equal.
  replace b with (b `min` Z.to_nat commit)%nat by lia. by rewrite <-!take_take, Ht.
Qed.

Lemma readies_delivered readies log commit delivered log' commit' delivered' :
  readies_ok log commit delivered readies log' commit' delivered' → (delivered ≤ delivered')%nat.
Proof. induction 1 as [|?????????? ? Hr _ IH]; [done|]. pose proof (ry_delivered _ _ _ _ _ _ _ Hr). lia. Qed.

Lemma commands_of_app log log' : commands_of (log ++ log') = commands_of log ++ commands_of log'.
Proof. apply omap_app. Qed.

Lemma drive_ready_spec readies log commit delivered log' commit' delivered' store progress r store' :
  durable store log commit → readies_ok log commit delivered readies log' commit' delivered' →
  drive_ready blake3 store readies progress = (r, store') →
  match r with
  | Ok progress' => durable store' log' commit' ∧ extends log commit log' commit' ∧
      pr_committed progress' = pr_committed progress ++ commands_of (slice delivered delivered' log')
  | Err _ => ∃ log1 commit1, durable store' log1 commit1 ∧ extends log commit log1 commit1
  end.
Proof.
  intros Hdur Hrs. revert store progress Hdur.
  induction Hrs as [log commit delivered|log commit delivered ready log1 commit1 delivered1 readies log2 commit2
                    delivered2 Hr Hrs IH]; intros store progress Hdur Hd; cbn [drive_ready] in Hd.
  { simplify_eq. split; [done|]. split; [apply extends_refl|]. unfold slice. rewrite Nat.sub_diag. cbn.
    by rewrite app_nil_r. }
  destruct (drive_one blake3 store ready progress) as [r1 store1] eqn:H1.
  pose proof (drive_one_spec _ _ _ _ _ _ _ _ _ _ _ Hdur Hr H1) as Hone.
  destruct r1 as [progress1|e]; [|by simplify_eq].
  destruct Hone as (Hdur1 & Hext1 & Hp1). pose proof (IH _ _ Hdur1 Hd) as Hrest.
  pose proof (ry_delivered _ _ _ _ _ _ _ Hr) as [Hle Hc]. pose proof (readies_delivered _ _ _ _ _ _ _ Hrs) as Hle2.
  assert (0 ≤ commit) as Hnn by (destruct Hdur as (_ & _ & ?); lia).
  destruct r as [progress2|e].
  - destruct Hrest as (Hdur2 & Hext2 & Hp2). split; [done|]. split; [by eapply extends_trans|].
    rewrite Hp2, Hp1, <-(slice_committed _ _ _ _ _ _ Hext2 Hc), <-app_assoc, <-commands_of_app.
    by rewrite slice_join.
  - destruct Hrest as (log3 & commit3 & Hdur3 & Hext3). exists log3, commit3. split; [done|].
    by eapply extends_trans.
Qed.

Lemma filter_committed log first commit :
  map re_index log = seqZ first (Z.of_nat (length log)) →
  base.filter (λ entry, re_index entry ≤ commit) log = take (Z.to_nat (commit - first + 1)) log.
Proof.
  revert first. induction log as [|e log IH]; intros first Hidx; [by rewrite take_nil|].
  cbn [length map] in Hidx. rewrite seqZ_cons in Hidx by lia. injection Hidx as He Hidx.
  replace (Z.pred (Z.of_nat (Datatypes.S (length log)))) with (Z.of_nat (length log)) in Hidx by lia.
  specialize (IH _ Hidx). rewrite filter_cons. case_decide as Hle.
  - rewrite IH. replace (Z.to_nat (commit - first + 1)) with (Datatypes.S (Z.to_nat (commit - Z.succ first + 1))) by lia.
    done.
  - rewrite IH. by replace (Z.to_nat (commit - first + 1)) with 0%nat by lia;
      replace (Z.to_nat (commit - Z.succ first + 1)) with 0%nat by lia.
Qed.

(** Opening the host on a durable state, when it succeeds, recovers the commands of the committed
    prefix; it fails only for the store, the configured membership, the applied index or the library. *)
Lemma open_recovers {N} new_node store node_id applied log commit (node : N) recovery :
  durable store log commit →
  MetaRaftHost_open new_node store node_id applied = Ok (node, recovery) →
  recovery = commands_of (take (Z.to_nat commit) log).
Proof.
  intros (Hh & Hci & Hb) Ho. unfold MetaRaftHost_open in Ho.
  destruct (negb _); [done|]. apply bind_Ok in Ho as (members & _ & Ho). destruct (_ || _); [done|].
  apply bind_Ok in Ho as (hard & Hhard & Ho). destruct (_ <? _); [done|].
  apply bind_Ok in Ho as (encoded & Henc & Ho). apply bind_Ok in Ho as (entries & Hdec & Ho).
  apply bind_Ok in Ho as (rec & Hrec & Ho). apply bind_Ok in Ho as (n & _ & [= _ <-]).
  destruct (consensus_hard_state store) as [hard'|] eqn:Hhs; [|done]. injection Hhard as ->.
  apply (consensus_hard_state_spec _ _ (ho_ok _ _ Hh)) in Hhs as ->.
  destruct (consensus_entries store 1 u64_max u64_max) as [encoded'|] eqn:Hes; [|done]. injection Henc as ->.
  rewrite (holds_read _ _ _ Hh Hes) in Hdec. injection Hdec as <-.
  fold (commit_index store) in Hrec. rewrite Hci in Hrec.
  rewrite (filter_committed log 1 commit (holds_indexes _ _ Hh)) in Hrec.
  replace (commit - 1 + 1) with commit in Hrec by lia.
  rewrite collect_committed_Ok in Hrec by (apply Forall_take, (holds_wf _ _ Hh)). by injection Hrec.
Qed.
End durable.
