(* ===== verification/MetaWire.v ===== *)
(** * Commands of the Meta authority as bytes ([dtg-meta/src/service.rs])

    Catalog commands travel as wire structures through [serde_json], action commands through their own
    codec; one tag byte tells them apart.  The wire structures leave out the digests of classes and
    bindings, which the receiver computes again. *)

From S2P Require Import Prelude Text Kernel Encoding Storage Binding Control Catalog Reconcile ActionLedger.
Open Scope Z_scope.

Inductive MetaProcessError :=
| MpIo (message : string)
| MpStorage (message : string)
| MpControl (message : string)
| MpAnalytics (message : string)
| MpExecution (message : string)
| MpCodec (message : string)
| MpTransport (message : string)
| MpTransaction (message : string)
| MpConsensus (message : string)
| MpConsensusIndex
| MpProposalPending.

Definition MetaProcessError_to_string (e : MetaProcessError) : string :=
  match e with
  | MpIo message | MpStorage message | MpControl message | MpAnalytics message | MpExecution message
  | MpCodec message | MpTransport message | MpTransaction message | MpConsensus message => message
  | MpConsensusIndex => "Meta consensus index overflow"
  | MpProposalPending => "Meta proposal is awaiting quorum commit"
  end.

Definition from_storage {A} (m : result StorageError A) : result MetaProcessError A :=
  map_err (λ e, MpStorage (StorageError_to_string e)) m.
Definition from_control {A} (m : result ControlError A) : result MetaProcessError A :=
  map_err (λ e, MpControl (ControlError_to_string e)) m.

(** ** Wire structures *)

Inductive ProviderWire := PwFjall | PwPostgreSql | PwKuzu | PwRemote (name : string).
Inductive DurabilityWire := DwDurableCommit | DwDurableCommitWithReplicaSync.
Inductive BindingRoleWire := RwCandidate | RwActive | RwRetiring.

Record BackendClassWire := mkBackendClassWire {
  bcw_provider : ProviderWire;
  bcw_contract_version : Z;
  bcw_layout_version : Z;
  bcw_durability : DurabilityWire;
  bcw_capabilities : list string;
}.

Record ReplicaBindingWire := mkReplicaBindingWire {
  rbw_cluster_id : Z;
  rbw_graph_id : Z;
  rbw_shard_id : Z;
  rbw_placement_epoch : Z;
  rbw_replica_id : Z;
  rbw_backend_generation : Z;
  rbw_provider : ProviderWire;
  rbw_contract_version : Z;
  rbw_layout_version : Z;
  rbw_namespace_id : string;
  rbw_endpoint_profile_ref : string;
  rbw_credential_ref : string;
  rbw_role : BindingRoleWire;
}.

Record ReplicaRecordWire := mkReplicaRecordWire {
  rrw_binding : ReplicaBindingWire;
  rrw_backend_class : BackendClassWire;
}.

Record PlacementWire := mkPlacementWire {
  plw_graph_id : Z;
  plw_shard_id : Z;
  plw_placement_epoch : Z;
  plw_active_generation : Z;
  plw_backend_class : BackendClassWire;
  plw_replicas : list ReplicaRecordWire;
}.

Inductive CatalogCommandWire :=
| PutPlacementWire (expected_version : Z) (placement : PlacementWire)
| PinRetentionWire (expected_version graph_id shard_id generation : Z) (pin : string)
| UnpinRetentionWire (expected_version graph_id shard_id generation : Z) (pin : string).

(** ** To the wire *)

Definition provider_to_wire (value : ProviderKind) : ProviderWire :=
  match value with
  | Fjall => PwFjall
  | PostgreSql => PwPostgreSql
  | Kuzu => PwKuzu
  | Remote name => PwRemote name
  end.

Definition class_to_wire (value : BackendClass) : BackendClassWire :=
  mkBackendClassWire (provider_to_wire (bc_provider_kind value)) (bc_contract_version value)
    (bc_layout_version value)
    match bc_durability_policy value with
    | DurableCommit => DwDurableCommit
    | DurableCommitWithReplicaSync => DwDurableCommitWithReplicaSync
    end
    (cm_names (bc_required_capabilities value)).

Definition binding_to_wire (value : ReplicaBinding) : ReplicaBindingWire :=
  mkReplicaBindingWire (rb_cluster_id value) (rb_graph_id value) (rb_shard_id value)
    (rb_placement_epoch value) (rb_replica_id value) (rb_backend_generation value)
    (provider_to_wire (rb_provider_kind value)) (rb_contract_version value) (rb_layout_version value)
    (rb_namespace_id value) (rb_endpoint_profile_ref value) (rb_credential_ref value)
    match rb_role value with
    | Candidate => RwCandidate
    | Active => RwActive
    | Retiring => RwRetiring
    end.

Definition record_to_wire (value : ReplicaBindingRecord) : ReplicaRecordWire :=
  mkReplicaRecordWire (binding_to_wire (br_binding value)) (class_to_wire (br_backend_class value)).

Definition placement_to_wire (value : ShardPlacement) : PlacementWire :=
  mkPlacementWire (pl_graph_id value) (pl_shard_id value) (pl_placement_epoch value)
    (pl_active_generation value) (class_to_wire (pl_backend_class value))
    (map record_to_wire (pl_replicas value)).

Definition from_command (command : CatalogCommand) : CatalogCommandWire :=
  match command with
  | PutPlacement expected_version placement =>
      PutPlacementWire expected_version (placement_to_wire placement)
  | PinRetention expected_version graph_id shard_id generation pin =>
      PinRetentionWire expected_version graph_id shard_id generation pin
  | UnpinRetention expected_version graph_id shard_id generation pin =>
      UnpinRetentionWire expected_version graph_id shard_id generation pin
  end.

(** ** From the wire *)

Definition provider_from_wire (value : ProviderWire) : ProviderKind :=
  match value with
  | PwFjall => Fjall
  | PwPostgreSql => PostgreSql
  | PwKuzu => Kuzu
  | PwRemote name => Remote name
  end.

(** [Id::new(value).map_err(|_| MetaProcessError::Codec(message))]. *)
Definition wire_id (value : Z) (message : string) : result MetaProcessError Z :=
  map_err (λ _, MpCodec message) (nonzero_u64_identifier value).

Section from_wire.
Context (blake3 : bytes → Digest32).

Definition class_from_wire (value : BackendClassWire) : result MetaProcessError BackendClass :=
  from_storage (BackendClass_with_durability blake3 (provider_from_wire (bcw_provider value))
    (bcw_contract_version value) (bcw_layout_version value)
    match bcw_durability value with
    | DwDurableCommit => DurableCommit
    | DwDurableCommitWithReplicaSync => DurableCommitWithReplicaSync
    end
    (bcw_capabilities value)).

Definition into_binding (self : ReplicaBindingWire) (backend_class : BackendClass)
    : result MetaProcessError ReplicaBinding :=
  from_storage (build (mkBindingBuilder (rbw_cluster_id self) (rbw_graph_id self) (rbw_shard_id self)
    (rbw_placement_epoch self) (rbw_replica_id self) (rbw_backend_generation self)
    (Some (bc_digest backend_class)) (Some (provider_from_wire (rbw_provider self)))
    (rbw_contract_version self) (rbw_layout_version self)
    (Some (cm_digest (bc_required_capabilities backend_class))) (Some (rbw_namespace_id self))
    (Some (rbw_endpoint_profile_ref self)) (Some (rbw_credential_ref self))
    (Some match rbw_role self with
          | RwCandidate => Candidate
          | RwActive => Active
          | RwRetiring => Retiring
          end))).

Definition record_from_wire (value : ReplicaRecordWire) : result MetaProcessError ReplicaBindingRecord :=
  backend_class ← class_from_wire (rrw_backend_class value);
  binding ← into_binding (rrw_binding value) backend_class;
  from_control (ReplicaBindingRecord_new binding backend_class).

Definition placement_from_wire (value : PlacementWire) : result MetaProcessError ShardPlacement :=
  graph_id ← wire_id (plw_graph_id value) "invalid graph ID";
  shard_id ← wire_id (plw_shard_id value) "invalid shard ID";
  placement_epoch ← wire_id (plw_placement_epoch value) "invalid placement epoch";
  active_generation ← wire_id (plw_active_generation value) "invalid generation";
  backend_class ← class_from_wire (plw_backend_class value);
  replicas ← try_map record_from_wire (plw_replicas value);
  Ok (mkPlacement graph_id shard_id placement_epoch active_generation backend_class replicas).

Definition command_from_wire (wire : CatalogCommandWire) : result MetaProcessError CatalogCommand :=
  match wire with
  | PutPlacementWire expected_version placement =>
      placement ← placement_from_wire placement;
      Ok (PutPlacement expected_version placement)
  | PinRetentionWire expected_version graph_id shard_id generation pin =>
      graph_id ← wire_id graph_id "invalid graph ID";
      shard_id ← wire_id shard_id "invalid shard ID";
      generation ← wire_id generation "invalid generation";
      pin ← from_control (RetentionPin_new pin);
      Ok (PinRetention expected_version graph_id shard_id generation pin)
  | UnpinRetentionWire expected_version graph_id shard_id generation pin =>
      graph_id ← wire_id graph_id "invalid graph ID";
      shard_id ← wire_id shard_id "invalid shard ID";
      generation ← wire_id generation "invalid generation";
      pin ← from_control (RetentionPin_new pin);
      Ok (UnpinRetention expected_version graph_id shard_id generation pin)
  end.
End from_wire.

(** ** Commands *)

Inductive AuthorityCommand :=
| AuthorityCatalog (command : CatalogCommand)
| AuthorityAction (command : ActionCommand).

(** [serde_json::to_vec] and [serde_json::from_slice]; errors are their texts. *)
Class SerdeJson (W : Type) := {
  json_to_vec : W → result string bytes;
  json_from_slice : bytes → result string W;
}.
Class SerdeJsonLaws (W : Type) `{SerdeJson W} : Prop := {
  json_round_trip w bs : json_to_vec w = Ok bs → json_from_slice bs = Ok w;
}.

Section codec.
Context (blake3 : bytes → Digest32) `{SerdeJson CatalogCommandWire}.

Definition encode_catalog_command (command : CatalogCommand) : result MetaProcessError bytes :=
  map_err MpCodec (json_to_vec (from_command command)).

Definition decode_catalog_command (bs : bytes) : result MetaProcessError CatalogCommand :=
  wire ← map_err MpCodec (json_from_slice bs);
  command_from_wire blake3 wire.

Definition encode_authority_command (command : AuthorityCommand) : result MetaProcessError bytes :=
  match command with
  | AuthorityCatalog command => bs ← encode_catalog_command command; Ok (1 :: bs)
  | AuthorityAction command => bs ← from_control (action_encode_current command); Ok (2 :: bs)
  end.

Definition decode_authority_command (bs : bytes) : result MetaProcessError AuthorityCommand :=
  match bs with
  | [] => Err (MpCodec "empty Meta authority command")
  | tag :: payload =>
      if tag =? 1 then AuthorityCatalog <$> decode_catalog_command payload
      else if tag =? 2 then AuthorityAction <$> from_control (action_decode payload)
      else Err (MpCodec "unknown Meta authority command tag")
  end.
End codec.

(** ** Round trip *)

Section round_trip.
Context (blake3 : bytes → Digest32) `{SerdeJsonLaws CatalogCommandWire}.

(** What the constructors of the types guarantee of a command. *)
Definition record_typed (record : ReplicaBindingRecord) : Prop :=
  binding_wf (br_binding record) ∧ class_rebuilt blake3 (br_backend_class record) ∧
  ReplicaBindingRecord_new (br_binding record) (br_backend_class record) = Ok record.
Definition placement_typed (placement : ShardPlacement) : Prop :=
  Forall id_wf [pl_graph_id placement; pl_shard_id placement; pl_placement_epoch placement;
                pl_active_generation placement] ∧
  class_rebuilt blake3 (pl_backend_class placement) ∧ Forall record_typed (pl_replicas placement).
Definition catalog_command_typed (command : CatalogCommand) : Prop :=
  match command with
  | PutPlacement _ placement => placement_typed placement
  | PinRetention _ g s n pin | UnpinRetention _ g s n pin =>
      Forall id_wf [g; s; n] ∧ RetentionPin_new pin = Ok pin
  end.
Definition authority_command_typed (command : AuthorityCommand) : Prop :=
  match command with
  | AuthorityCatalog command => catalog_command_typed command
  | AuthorityAction command => command_wf command
  end.

Lemma wire_id_Ok value message : id_wf value → wire_id value message = Ok value.
Proof. intros [_ Hv]. unfold wire_id, nonzero_u64_identifier. by rewrite (proj2 (Z.eqb_neq _ _) Hv). Qed.

Lemma provider_wire_round_trip kind : provider_from_wire (provider_to_wire kind) = kind.
Proof. by destruct kind. Qed.

Lemma class_wire_round_trip class :
  class_rebuilt blake3 class → class_from_wire blake3 (class_to_wire class) = Ok class.
Proof.
  unfold class_rebuilt, class_from_wire. intros Hc. cbn. rewrite provider_wire_round_trip.
  replace (match _ with DwDurableCommit => DurableCommit | _ => DurableCommitWithReplicaSync end)
    with (bc_durability_policy class) by (by destruct (bc_durability_policy class)).
  by rewrite Hc.
Qed.

Lemma record_wire_round_trip record :
  record_typed record → record_from_wire blake3 (record_to_wire record) = Ok record.
Proof.
  intros (Hb & Hc & Hn). unfold record_from_wire. cbn [record_to_wire rrw_backend_class rrw_binding].
  rewrite class_wire_round_trip by done. cbn [mbind result_bind].
  assert (into_binding (binding_to_wire (br_binding record)) (br_backend_class record) =
    Ok (br_binding record)) as ->; [|cbn [mbind result_bind]; by rewrite Hn].
  unfold into_binding. pose proof (proj2 binding_build _ Hb) as Hbuild.
  unfold ReplicaBindingRecord_new in Hn. guard_in Hn as Hx. guard_in Hn as Hy.
  apply orb_false_iff in Hy as [[[[Hd _]%orb_false_iff _]%orb_false_iff _]%orb_false_iff Hcap]. to_prop.
  rewrite <-Hd, <-Hcap. unfold to_builder in Hbuild. cbn. rewrite provider_wire_round_trip.
  replace (match _ with RwCandidate => Candidate | RwActive => Active | RwRetiring => Retiring end)
    with (rb_role (br_binding record)) by (by destruct (rb_role (br_binding record))).
  by rewrite Hbuild.
Qed.

Lemma catalog_command_round_trip command :
  catalog_command_typed command → command_from_wire blake3 (from_command command) = Ok command.
Proof.
  destruct command as [v p|v g s n pin|v g s n pin]; cbn [catalog_command_typed from_command command_from_wire];
    intros [Hids Hrest]; repeat setoid_rewrite Forall_cons in Hids.
  - destruct Hids as (? & ? & ? & ? & _), Hrest as [Hc Hr]. unfold placement_from_wire. cbn.
    rewrite !wire_id_Ok by done. cbn [mbind result_bind]. rewrite class_wire_round_trip by done.
    assert (try_map (record_from_wire blake3) (map record_to_wire (pl_replicas p)) = Ok (pl_replicas p)) as Hm.
    { induction Hr as [|r l Hr _ IH]; cbn; [done|]. by rewrite record_wire_round_trip, IH. }
    cbn [mbind result_bind]. rewrite Hm. by destruct p.
  - destruct Hids as (? & ? & ? & _). rewrite !wire_id_Ok by done. cbn [mbind result_bind]. by rewrite Hrest.
  - destruct Hids as (? & ? & ? & _). rewrite !wire_id_Ok by done. cbn [mbind result_bind]. by rewrite Hrest.
Qed.

(** Commands of the Meta authority round-trip: decoding the bytes of a command, a placement with
    its replicas included, gives the command back, although the wire form carries neither the digests
    of its backend classes nor those of its bindings. *)
Theorem authority_command_round_trip command bs :
  authority_command_typed command → encode_authority_command command = Ok bs →
  decode_authority_command blake3 bs = Ok command.
Proof.
  destruct command as [command|command]; cbn [authority_command_typed encode_authority_command].
  - intros Ht (payload & Hp & [= <-])%bind_Ok. cbn. unfold decode_catalog_command, encode_catalog_command in *.
    destruct (json_to_vec (from_command command)) as [bs|] eqn:He; [|done]. injection Hp as ->.
    rewrite (json_round_trip _ _ He). cbn. by rewrite catalog_command_round_trip.
  - intros Ht (payload & Hp & [= <-])%bind_Ok. cbn.
    destruct (action_encode_current command) as [bs|] eqn:He; [|done]. injection Hp as ->.
    pose proof (action_decode_encoded command payload [] Ht He) as Hd. rewrite app_nil_r in Hd. by rewrite Hd.
Qed.
End round_trip.

(** ** A concrete command *)

#[export] Instance ProviderWire_eq_dec : EqDecision ProviderWire.
Proof. solve_decision. Defined.
#[export] Instance DurabilityWire_eq_dec : EqDecision DurabilityWire.
Proof. solve_decision. Defined.
#[export] Instance BindingRoleWire_eq_dec : EqDecision BindingRoleWire.
Proof. solve_decision. Defined.
#[export] Instance BackendClassWire_eq_dec : EqDecision BackendClassWire.
Proof. solve_decision. Defined.
#[export] Instance ReplicaBindingWire_eq_dec : EqDecision ReplicaBindingWire.
Proof. solve_decision. Defined.
#[export] Instance ReplicaRecordWire_eq_dec : EqDecision ReplicaRecordWire.
Proof. solve_decision. Defined.
#[export] Instance PlacementWire_eq_dec : EqDecision PlacementWire.
Proof. solve_decision. Defined.
#[export] Instance CatalogCommandWire_eq_dec : EqDecision CatalogCommandWire.
Proof. solve_decision. Defined.

Definition example_command : AuthorityCommand := AuthorityCatalog (PutPlacement 0 (example_placement 5)).

(** A serialiser that knows the one structure of the example. *)
Definition example_json : SerdeJson CatalogCommandWire := {|
  json_to_vec w :=
    if bool_decide (w = from_command (PutPlacement 0 (example_placement 5))) then Ok [123; 125]
    else Err "unsupported";
  json_from_slice bs :=
    if bool_decide (bs = [123; 125]) then Ok (from_command (PutPlacement 0 (example_placement 5)))
    else Err "unsupported";
|}.

Lemma example_json_laws : @SerdeJsonLaws CatalogCommandWire example_json.
Proof.
  split. intros w bs. cbn [json_to_vec json_from_slice example_json]. case_bool_decide as Hw; [|done].
  intros [= <-]. by rewrite bool_decide_eq_true_2, Hw.
Qed.

Lemma example_record_typed epoch generation replica role :
  id_wf epoch → id_wf generation → id_wf replica →
  record_typed checksum32 (example_record epoch generation replica role).
Proof.
  intros He Hg Hr. split; [|split; [vm_compute; reflexivity|]].
  - split; cbn; try done; try (split; [done|vm_compute; discriminate]).
    all: split; [split; [reflexivity|repeat constructor; done]|discriminate].
  - vm_compute. reflexivity.
Qed.

Lemma example_command_typed : authority_command_typed checksum32 example_command.
Proof.
  assert (∀ n, 0 < n < 10 → id_wf n) as Hid by (intros n Hn; unfold id_wf, in_u64; lia).
  split; [cbn; repeat (apply Forall_cons_2; [apply Hid; lia|]); apply Forall_nil_2|].
  split; [vm_compute; reflexivity|].
  repeat (apply Forall_cons_2; [apply example_record_typed; apply Hid; lia|]). apply Forall_nil_2.
Qed.

Lemma authority_command_round_trip_witness :
  @encode_authority_command example_json example_command = Ok [1; 123; 125] ∧
  @decode_authority_command checksum32 example_json [1; 123; 125] = Ok example_command.
Proof.
  assert (@encode_authority_command example_json example_command = Ok [1; 123; 125]) as He
    by (vm_compute; reflexivity).
  split; [exact He|].
  exact (@authority_command_round_trip checksum32 example_json example_json_laws example_command
    [1; 123; 125] example_command_typed He).
Defined.
