(* ===== verification/Meta.v ===== *)
(** * The Meta process ([dtg-meta/src/service.rs], [dtg-execution/src/meta.rs])

    The catalog and the action ledger of a Meta process are what its committed commands make of the
    empty ones.  Opening the process replays the commands its Raft host recovers; a call replicates one
    command and applies whatever has been committed.  A call runs in two phases, the first under the
    lock of the host and the second without it. *)

From S2P Require Import Prelude Text Kernel Encoding Storage Binding Control Catalog Reconcile ActionLedger.
From S2P Require Import Consensus FjallCodec FjallConsensus MetaRaft MetaWire.
Open Scope Z_scope.

(** ** State *)

(** The timestamp authority and the analytics ledger of [MetaExecution] are separate components. *)
Record MetaExecution := mkMetaExecution {
  me_catalog : CatalogState;
  me_actions : gmap ActionId ActionRecord;
}.

Record MetaCore := mkMetaCore {
  core_execution : MetaExecution;
  core_catalog_commands : list CatalogCommand;
  core_catalog_revision : Version;
}.

Definition from_raft {A} (m : result MetaRaftError A) : result MetaProcessError A :=
  map_err (λ e, MpConsensus (MetaRaftError_to_string e)) m.

Section meta.
Context (blake3 : bytes → Digest32) `{SerdeJson CatalogCommandWire}.

Definition apply_catalog_command (self : MetaExecution) (command : CatalogCommand)
    : result ControlError Version * MetaExecution :=
  match catalog_apply (me_catalog self) command with
  | Err e => (Err e, self)
  | Ok next => (Ok (ca_version next), mkMetaExecution next (me_actions self))
  end.

Definition apply_action_command (self : MetaExecution) (command : ActionCommand)
    : result ControlError ActionRecord * MetaExecution :=
  let (r, actions) := ledger_apply blake3 (me_actions self) command in
  (r, mkMetaExecution (me_catalog self) actions).

Definition catalog_proposal_id (payload : bytes) : Z :=
  Z.max (be_value (take 16 (blake3 payload))) 1.

(** ** Opening *)

(** The loop over [recovery_entries]. *)
Fixpoint replay (catalog : CatalogState) (actions : gmap ActionId ActionRecord)
    (commands : list CatalogCommand) (recovery : list MetaCommittedEntry)
    : result MetaProcessError (CatalogState * gmap ActionId ActionRecord * list CatalogCommand) :=
  match recovery with
  | [] => Ok (catalog, actions, commands)
  | entry :: recovery =>
      match decode_authority_command blake3 (mc_payload entry) with
      | Err e => Err e
      | Ok (AuthorityCatalog command) =>
          match from_control (catalog_apply catalog command) with
          | Err e => Err e
          | Ok catalog => replay catalog actions (commands ++ [command]) recovery
          end
      | Ok (AuthorityAction command) =>
          let (r, actions) := ledger_apply blake3 actions command in
          match from_control r with
          | Err e => Err e
          | Ok _ => replay catalog actions commands recovery
          end
      end
  end.

(** The core [open] builds from what it replayed. *)
Definition replayed_core (state : CatalogState * gmap ActionId ActionRecord * list CatalogCommand) : MetaCore :=
  let '(catalog, actions, commands) := state in
  mkMetaCore (mkMetaExecution catalog actions) commands (ca_version catalog).

Section process.
Context {S : Type} `{ConsensusStore S} {M : Type}.

Definition configure_meta_membership (peers : list Z) (store : S) : result MetaProcessError unit * S :=
  match try_map (λ id, map_err (λ e, MpConsensus (KernelError_to_string e)) (nonzero_u64_identifier id)) peers with
  | Err e => (Err e, store)
  | Ok voters =>
      match consensus_membership store with
      | Ok existing =>
          (if bool_decide (mb_voters existing = voters) && bool_decide (mb_learners existing = []) &&
              (mb_configuration_index existing =? 1)
           then Ok tt
           else Err (MpConsensus "configured Meta peers do not match durable membership"), store)
      | Err NotFound =>
          let (r, store) := consensus_set_membership store (mkMembership voters [] 1) in
          (from_storage r, store)
      | Err e => (Err (MpStorage (StorageError_to_string e)), store)
      end
  end.

(** [campaign] stands for the library: what an election of the node hands out. *)
Definition MetaProcess_open {N : Type}
    (new_node : RaftMembership → list RaftEntry → RaftHardStatePb → ReplicaId → Z → result string N)
    (role : N → MetaRaftRole) (campaign : N → result string (list (Ready M)))
    (peers : list Z) (node_id : Z) (store : S) : result MetaProcessError (N * MetaCore) * S :=
  match configure_meta_membership peers store with
  | (Err e, store) => (Err e, store)
  | (Ok _, store) =>
      match (hard_state ← from_storage (consensus_hard_state store);
             replica ← map_err (λ e, MpConsensus (KernelError_to_string e)) (nonzero_u64_identifier node_id);
             '(node, recovery) ← from_raft (MetaRaftHost_open new_node store replica (hs_committed_index hard_state));
             state ← replay CatalogState_new ∅ [] recovery;
             Ok (node, replayed_core state)) with
      | Err e => (Err e, store)
      | Ok (node, core) =>
          if Nat.eqb (length peers) 1 && negb (bool_decide (role node = RoleLeader)) then
            match campaign node with
            | Err e => (from_raft (Err (MrRaft e)), store)
            | Ok readies =>
                match drive_ready blake3 store readies (mkProgress [] []) with
                | (Err e, store) => (from_raft (Err e), store)
                | (Ok progress, store) =>
                    (if bool_decide (pr_committed progress = []) then Ok (node, core)
                     else Err (MpConsensus "single-node Meta election committed an unexpected command"), store)
                end
            end
          else (Ok (node, core), store)
      end
  end.

(** ** Calls *)

(** The first phase, under the lock of the host: [answer] is what the library makes of the proposal. *)
Definition replicate (role : MetaRaftRole) (leader : option ReplicaId) (answer : result string (list (Ready M)))
    (store : S) (command : AuthorityCommand) : result MetaProcessError (Z * list MetaCommittedEntry) * S :=
  match (payload ← encode_authority_command command;
         _ ← from_raft (check_proposal role leader (catalog_proposal_id payload) payload);
         readies ← from_raft (map_err MrRaft answer);
         Ok (catalog_proposal_id payload, readies)) with
  | Err e => (Err e, store)
  | Ok (proposal_id, readies) =>
      match drive_ready blake3 store readies (mkProgress [] []) with
      | (Err e, store) => (from_raft (Err e), store)
      | (Ok progress, store) => (Ok (proposal_id, pr_committed progress), store)
      end
  end.
End process.

(** One committed command: the version it gives the catalog, or the record it gives an action. *)
Definition apply_authority (core : MetaCore) (payload : bytes)
    : result MetaProcessError (Version + ActionRecord) * MetaCore :=
  match decode_authority_command blake3 payload with
  | Err e => (Err e, core)
  | Ok (AuthorityCatalog command) =>
      match apply_catalog_command (core_execution core) command with
      | (Err e, _) => (from_control (Err e), core)
      | (Ok version, execution) =>
          (Ok (inl version), mkMetaCore execution (core_catalog_commands core ++ [command]) version)
      end
  | Ok (AuthorityAction command) =>
      let (r, execution) := apply_action_command (core_execution core) command in
      (inr <$> from_control r, mkMetaCore execution (core_catalog_commands core) (core_catalog_revision core))
  end.

(** The second phase: [pick] says which results answer the call. *)
Fixpoint apply_progress {A} (pick : Version + ActionRecord → option A) (proposal_id : Z) (core : MetaCore)
    (committed : list MetaCommittedEntry) (answer : option A) : result MetaProcessError (option A) * MetaCore :=
  match committed with
  | [] => (Ok answer, core)
  | entry :: committed =>
      match apply_authority core (mc_payload entry) with
      | (Err e, core) => (Err e, core)
      | (Ok applied, core) =>
          let answer := match pick applied with
                        | Some value => if mc_proposal_id entry =? proposal_id then Some value else answer
                        | None => answer
                        end in
          apply_progress pick proposal_id core committed answer
      end
  end.

Definition pick_version (applied : Version + ActionRecord) : option Version :=
  match applied with inl version => Some version | inr _ => None end.
Definition pick_record (applied : Version + ActionRecord) : option ActionRecord :=
  match applied with inl _ => None | inr record => Some record end.

Section calls.
Context {S : Type} `{ConsensusStore S} {M : Type}.

(** A call: replicate, then apply. *)
Definition meta_call {A} (pick : Version + ActionRecord → option A) (role : MetaRaftRole)
    (leader : option ReplicaId) (answer : result string (list (Ready M))) (store : S) (core : MetaCore)
    (command : AuthorityCommand) : result MetaProcessError A * S * MetaCore :=
  match replicate role leader answer store command with
  | (Err e, store) => (Err e, store, core)
  | (Ok (proposal_id, committed), store) =>
      match apply_progress pick proposal_id core committed None with
      | (Err e, core) => (Err e, store, core)
      | (Ok value, core) => (ok_or MpProposalPending value, store, core)
      end
  end.

Definition MetaProcess_propose role leader answer store core (command : CatalogCommand)
    : result MetaProcessError Version * S * MetaCore :=
  meta_call pick_version role leader answer store core (AuthorityCatalog command).
Definition MetaProcess_apply_action_command role leader answer store core (command : ActionCommand)
    : result MetaProcessError ActionRecord * S * MetaCore :=
  meta_call pick_record role leader answer store core (AuthorityAction command).
End calls.

(** The check of [catalog_snapshot], and the commands it sends. *)
Definition catalog_snapshot (core : MetaCore) (revision : Version)
    : result MetaProcessError (list CatalogCommandWire) :=
  if negb (Z.of_nat (length (core_catalog_commands core)) =? revision) then Err MpConsensusIndex
  else Ok (map from_command (core_catalog_commands core)).
End meta.

(** ** Replay and the second phase *)

Section replay.
Context (blake3 : bytes → Digest32) `{SerdeJson CatalogCommandWire}.

Abbreviation State := (CatalogState * gmap ActionId ActionRecord * list CatalogCommand)%type (only parsing).

Definition replay_from (state : State) (recovery : list MetaCommittedEntry) : result MetaProcessError State :=
  let '(catalog, actions, commands) := state in replay blake3 catalog actions commands recovery.
Definition initial : State := (CatalogState_new, ∅, []).

(** The phase runs the loop of [open] on the core that loop builds, errors included. *)
Lemma apply_replay {A} (pick : Version + ActionRecord → option A) id committed state answer r core :
  apply_progress blake3 pick id (replayed_core state) committed answer = (r, core) →
  match r with
  | Ok _ => ∃ state', replay_from state committed = Ok state' ∧ core = replayed_core state'
  | Err e => replay_from state committed = Err e
  end.
Proof.
  revert state answer. induction committed as [|entry committed IH]; intros [[catalog actions] commands] answer Ha.
  { simplify_eq/=. eauto. }
  cbn [apply_progress replay_from replay] in *. unfold apply_authority, apply_catalog_command,
    apply_action_command in Ha. cbn [replayed_core core_execution me_catalog me_actions] in Ha.
  destruct (decode_authority_command blake3 (mc_payload entry)) as [[command|command]|e]; [| |by simplify_eq/=].
  - destruct (catalog_apply catalog command) as [next|e]; [|by simplify_eq/=]. cbn in Ha |- *.
    exact (IH (next, actions, commands ++ [command]) _ Ha).
  - destruct (ledger_apply blake3 actions command) as [[record|e] actions']; [|by simplify_eq/=]. cbn in Ha |- *.
    exact (IH (catalog, actions', commands) _ Ha).
Qed.

Lemma replay_app state l l' :
  replay_from state (l ++ l') = (state' ← replay_from state l; replay_from state' l').
Proof.
  revert state. induction l as [|entry l IH]; intros [[catalog actions] commands]; [done|].
  cbn [replay_from replay app].
  destruct (decode_authority_command blake3 (mc_payload entry)) as [[command|command]|e]; [| |done].
  - destruct (catalog_apply catalog command) as [next|e]; [|done]. exact (IH (next, actions, commands ++ [command])).
  - destruct (ledger_apply blake3 actions command) as [[record|e] actions']; [|done].
    exact (IH (catalog, actions', commands)).
Qed.

Lemma catalog_apply_version catalog command next :
  catalog_apply catalog command = Ok next → ca_version next = ca_version catalog + 1.
Proof.
  unfold catalog_apply. intros Ha. guard_in Ha as Hv. apply bind_Ok in Ha as (next' & _ & Ha).
  guard_in Ha as Ho. by injection Ha as <-.
Qed.

(** As many commands as the version says. *)
Definition counted (state : State) : Prop := Z.of_nat (length state.2) = ca_version state.1.1.

Lemma replay_counted state l state' : counted state → replay_from state l = Ok state' → counted state'.
Proof.
  revert state. induction l as [|entry l IH]; intros [[catalog actions] commands] Hc Hr; [by simplify_eq/=|].
  cbn [replay_from replay] in Hr.
  destruct (decode_authority_command blake3 (mc_payload entry)) as [[command|command]|e]; [| |done].
  - destruct (catalog_apply catalog command) as [next|e] eqn:Ha; [|done].
    refine (IH (next, actions, commands ++ [command]) _ Hr). unfold counted in *. cbn in *.
    rewrite length_app, (catalog_apply_version _ _ _ Ha). cbn. lia.
  - destruct (ledger_apply blake3 actions command) as [[record|e] actions']; [|done].
    exact (IH (catalog, actions', commands) Hc Hr).
Qed.

(** ** Errors that name their origin *)

Definition not_pending {A} (m : result MetaProcessError A) : Prop := m ≠ Err MpProposalPending.

Lemma not_pending_bind {A B} (m : result MetaProcessError A) (k : A → result MetaProcessError B) :
  not_pending m → (∀ a, not_pending (k a)) → not_pending (m ≫= k).
Proof. unfold not_pending. destruct m as [a|e]; cbn; [auto|congruence]. Qed.
Lemma not_pending_fmap {A B} (m : result MetaProcessError A) (f : A → B) :
  not_pending m → not_pending (f <$> m).
Proof. unfold not_pending. destruct m as [a|e]; cbn; congruence. Qed.
Lemma not_pending_map_err {E A} (f : E → MetaProcessError) (m : result E A) :
  (∀ e, f e ≠ MpProposalPending) → not_pending (map_err f m).
Proof. unfold not_pending. destruct m as [a|e]; cbn; [done|]. intros Hf [= Hp]. by apply (Hf e). Qed.
Lemma not_pending_Ok {A} (a : A) : not_pending (Ok a).
Proof. done. Qed.
Lemma not_pending_try_map {A B} (f : A → result MetaProcessError B) l :
  (∀ a, not_pending (f a)) → not_pending (try_map f l).
Proof.
  intros Hf. induction l as [|a l IH]; [done|]. cbn. specialize (Hf a). unfold not_pending in *.
  destruct (f a); [|congruence]. destruct (try_map f l); congruence.
Qed.

Ltac not_pending_tac :=
  repeat first
    [ apply not_pending_Ok | apply not_pending_bind; [|intros ?] | apply not_pending_fmap
    | apply not_pending_map_err; intros ?; discriminate | apply not_pending_try_map; intros ?
    | progress unfold wire_id, from_storage, from_control, class_from_wire, into_binding, record_from_wire,
        placement_from_wire ].

Lemma decode_not_pending bs : not_pending (decode_authority_command blake3 bs).
Proof.
  unfold decode_authority_command, decode_catalog_command, command_from_wire. destruct bs as [|tag payload]; [done|].
  destruct (tag =? 1); [|destruct (tag =? 2); [|done]]; not_pending_tac.
  case_match; not_pending_tac.
Qed.

Lemma replay_not_pending state l : not_pending (replay_from state l).
Proof.
  revert state. induction l as [|entry l IH]; intros [[catalog actions] commands]; [done|].
  cbn [replay_from replay]. pose proof (decode_not_pending (mc_payload entry)) as Hd.
  destruct (decode_authority_command blake3 (mc_payload entry)) as [[command|command]|e].
  - destruct (catalog_apply catalog command) as [next|e]; [|done]. exact (IH (next, actions, commands ++ [command])).
  - destruct (ledger_apply blake3 actions command) as [[record|e] actions']; [|done].
    exact (IH (catalog, actions', commands)).
  - unfold not_pending in *. congruence.
Qed.
End replay.

(** ** The process over a durable log *)

Section process_correct.
Context (blake3 : bytes → Digest32) `{SerdeJson CatalogCommandWire}.
Context {S : Type} `{ConsensusStoreLaws blake3 S} {M N : Type}.
Context (new_node : RaftMembership → list RaftEntry → RaftHardStatePb → ReplicaId → Z → result string N).
Context (role_of : N → MetaRaftRole) (campaign : N → result string (list (Ready M))).

Abbreviation open_process := (MetaProcess_open blake3 new_node role_of campaign) (only parsing).

(** The memory is what replaying the first [delivered] entries of the durable log gives. *)
Record serves (store : S) (core : MetaCore) (log : list RaftEntry) (commit : Z) (delivered : nat) : Prop := {
  sv_durable : durable blake3 store log commit;
  sv_delivered : Z.of_nat delivered ≤ commit;
  sv_core : ∃ state, replay_from blake3 initial (commands_of (take delivered log)) = Ok state ∧
    core = replayed_core state;
}.

Lemma configure_durable peers store log commit r store' :
  durable blake3 store log commit → configure_meta_membership peers store = (r, store') →
  durable blake3 store' log commit.
Proof.
  intros (Hh & Hc & Hb). unfold configure_meta_membership. destruct (try_map _ peers) as [voters|e].
  2: { intros [= <- <-]. done. }
  destruct (consensus_membership store) as [existing|e]; [by intros [= <- <-]|].
  destruct e; try (by intros [= <- <-]).
  destruct (consensus_set_membership store _) as [r1 store1] eqn:Hs. intros [= <- <-].
  destruct (consensus_set_membership_spec _ _ _ _ (ho_ok _ _ _ Hh) Hs) as (Hok & Hl & Hhard & _).
  split; [|split; [unfold commit_index; by rewrite Hhard|done]].
  split; [done|apply (ho_length _ _ _ Hh)|rewrite Hl; apply (ho_entry _ _ _ Hh)|].
  rewrite Hl. apply (ho_interval _ _ _ Hh).
Qed.

(** What [open] has established before an election. *)
Lemma open_inv peers node_id store log commit r store' :
  durable blake3 store log commit → open_process peers node_id store = (r, store') → is_ok r = true →
  ∃ node state store1, r = Ok (node, replayed_core state) ∧ durable blake3 store1 log commit ∧
    replay_from blake3 initial (commands_of (take (Z.to_nat commit) log)) = Ok state ∧
    if Nat.eqb (length peers) 1 && negb (bool_decide (role_of node = RoleLeader))
    then ∃ readies progress, campaign node = Ok readies ∧
           drive_ready blake3 store1 readies (mkProgress [] []) = (Ok progress, store') ∧ pr_committed progress = []
    else store' = store1.
Proof.
  intros Hd Ho Hok. unfold MetaProcess_open in Ho.
  destruct (configure_meta_membership peers store) as [r1 store1] eqn:Hcfg.
  pose proof (configure_durable _ _ _ _ _ _ Hd Hcfg) as Hd1. destruct r1 as [u|e]; [|by simplify_eq].
  destruct (hard_state ← _; _) as [[node core]|e] eqn:Hboot; [|by simplify_eq].
  apply bind_Ok in Hboot as (hard & _ & (replica & _ & ([node' recovery] & Hhost & Hboot)%bind_Ok)%bind_Ok).
  apply bind_Ok in Hboot as (state & Hr & Heq). injection Heq as -> <-.
  destruct (MetaRaftHost_open new_node store1 replica _) as [[node' recovery']|] eqn:Hh; [|done].
  injection Hhost as -> ->. rewrite (open_recovers _ _ _ _ _ _ _ _ _ Hd1 Hh) in Hr.
  exists node, state, store1.
  destruct (Nat.eqb (length peers) 1 && negb (bool_decide (role_of node = RoleLeader))); [|by simplify_eq].
  destruct (campaign node) as [readies|e] eqn:Hcamp; [|by simplify_eq].
  destruct (drive_ready blake3 store1 readies (mkProgress [] [])) as [[progress|e] store2] eqn:Hdr; [|by simplify_eq].
  case_bool_decide as Hp; simplify_eq. split; [done|]. split; [done|]. split; [done|]. eauto.
Qed.

(** A process that has been opened and has answered calls one after the other, each with a result or
    with "pending"; the library behaves as [readies_ok] says. *)
Definition answered {A} (r : result MetaProcessError A) : bool :=
  match r with Ok _ | Err MpProposalPending => true | Err _ => false end.

Inductive serving : S → MetaCore → list RaftEntry → Z → nat → Prop :=
| serving_open peers node_id store log commit node core store' :
    durable blake3 store log commit → open_process peers node_id store = (Ok (node, core), store') →
    Nat.eqb (length peers) 1 && negb (bool_decide (role_of node = RoleLeader)) = false →
    serving store' core log commit (Z.to_nat commit)
| serving_elect peers node_id store log commit node core store' readies log' commit' delivered' :
    durable blake3 store log commit → open_process peers node_id store = (Ok (node, core), store') →
    Nat.eqb (length peers) 1 && negb (bool_decide (role_of node = RoleLeader)) = true →
    campaign node = Ok readies → readies_ok log commit (Z.to_nat commit) readies log' commit' delivered' →
    serving store' core log' commit' delivered'
| serving_propose store core log commit delivered role leader (readies : list (Ready M)) log' commit' delivered' command r
    store' core' :
    serving store core log commit delivered →
    readies_ok log commit delivered readies log' commit' delivered' →
    MetaProcess_propose blake3 role leader (Ok readies) store core command = (r, store', core') →
    answered r = true → serving store' core' log' commit' delivered'
| serving_action store core log commit delivered role leader (readies : list (Ready M)) log' commit' delivered' command r
    store' core' :
    serving store core log commit delivered →
    readies_ok log commit delivered readies log' commit' delivered' →
    MetaProcess_apply_action_command blake3 role leader (Ok readies) store core command = (r, store', core') →
    answered r = true → serving store' core' log' commit' delivered'.

Lemma readies_commit readies log commit delivered log' commit' delivered' :
  readies_ok (M := M) log commit delivered readies log' commit' delivered' →
  Z.of_nat delivered ≤ commit → Z.of_nat delivered' ≤ commit'.
Proof. induction 1 as [|?????????? ? Hr _ IH]; [done|]. intros _. apply IH, (ry_delivered _ _ _ _ _ _ _ Hr). Qed.

(** The commands of what has been delivered, after a run of the library. *)
Lemma delivered_commands log commit log' commit' (delivered delivered' : nat) :
  extends log commit log' commit' → Z.of_nat delivered ≤ commit → (delivered ≤ delivered')%nat →
  commands_of (take delivered' log') =
    commands_of (take delivered log) ++ commands_of (slice delivered delivered' log').
Proof.
  intros Hext Hd Hle. rewrite <-commands_of_app. f_equal.
  pose proof (slice_committed log log' commit commit' 0 delivered Hext Hd) as Hs.
  rewrite !slice_take, !drop_0 in Hs. rewrite <-Hs.
  pose proof (slice_join 0 delivered delivered' log' ltac:(lia) Hle) as Hj. rewrite <-(drop_0 (take delivered' log')).
  rewrite <-slice_take, <-Hj. by rewrite (slice_take 0), drop_0.
Qed.

Lemma replicate_spec role leader (readies : list (Ready M)) store log commit delivered log' commit' delivered' command r store' :
  durable blake3 store log commit → readies_ok log commit delivered readies log' commit' delivered' →
  replicate blake3 role leader (Ok readies) store command = (r, store') →
  match r with
  | Ok (_, committed) => durable blake3 store' log' commit' ∧ extends log commit log' commit' ∧
      committed = commands_of (slice delivered delivered' log')
  | Err e => e ≠ MpProposalPending ∧ (∀ message c, command = AuthorityCatalog c → e ≠ MpControl message)
  end.
Proof.
  intros Hd Hr Hrep. unfold replicate in Hrep.
  destruct (payload ← _; _) as [[id readies']|e] eqn:Hboot.
  - apply bind_Ok in Hboot as (payload & _ & (u & _ & Hb)%bind_Ok). cbn in Hb. simplify_eq.
    destruct (drive_ready blake3 store readies' (mkProgress [] [])) as [r1 store1] eqn:Hdr.
    pose proof (drive_ready_spec blake3 _ _ _ _ _ _ _ _ _ _ _ Hd Hr Hdr) as Hspec.
    destruct r1 as [progress|e]; simplify_eq; [|done]. done.
  - simplify_eq. apply bind_Err in Hboot as [Henc|(payload & _ & Hb)].
    + destruct command as [c|c]; cbn in Henc; unfold encode_catalog_command in Henc.
      * destruct (json_to_vec (from_command c)); simplify_eq/=. done.
      * destruct (action_encode_current c); simplify_eq/=. done.
    + apply bind_Err in Hb as [Hb|(u & _ & Hb)]; [|done].
      destruct (check_proposal role leader (catalog_proposal_id blake3 payload) payload); simplify_eq/=. done.
Qed.

Lemma call_serves {A} (pick : Version + ActionRecord → option A) role leader (readies : list (Ready M)) store core
    log commit delivered log' commit' delivered' command r store' core' :
  serves store core log commit delivered → readies_ok log commit delivered readies log' commit' delivered' →
  meta_call blake3 pick role leader (Ok readies) store core command = (r, store', core') →
  answered r = true → serves store' core' log' commit' delivered'.
Proof.
  intros [Hd Hdel (state & Hst & ->)] Hr Hc Ha. unfold meta_call in Hc.
  destruct (replicate blake3 role leader (Ok readies) store command) as [r1 store1] eqn:Hrep.
  pose proof (replicate_spec _ _ _ _ _ _ _ _ _ _ _ _ _ Hd Hr Hrep) as Hspec.
  destruct r1 as [[id committed]|e].
  2: { simplify_eq. destruct Hspec as [Hp _]. by destruct e. }
  destruct Hspec as (Hd' & Hext & ->).
  destruct (apply_progress blake3 pick id (replayed_core state) _ None) as [r2 core2] eqn:Happ.
  pose proof (apply_replay blake3 _ _ _ _ _ _ _ Happ) as Hrp.
  destruct r2 as [value|e]; simplify_eq.
  2: { pose proof (replay_not_pending blake3 state (commands_of (slice delivered delivered' log'))) as Hnp.
       unfold not_pending in Hnp. by destruct e; simplify_eq. }
  destruct Hrp as (state' & Hst' & ->). split; [done|by eapply readies_commit|].
  exists state'. split; [|done].
  rewrite (delivered_commands _ _ _ _ _ _ Hext Hdel (readies_delivered _ _ _ _ _ _ _ Hr)), replay_app, Hst.
  exact Hst'.
Qed.

Lemma serving_serves store core log commit delivered :
  serving store core log commit delivered → serves store core log commit delivered.
Proof.
  induction 1 as [peers node_id store log commit node core store' Hd Ho Hrole
    |peers node_id store log commit node core store' readies log' commit' delivered' Hd Ho Hrole Hcamp Hr
    |store core log commit delivered role leader readies log' commit' delivered' command r store' core' _ IH Hr Hc Ha
    |store core log commit delivered role leader readies log' commit' delivered' command r store' core' _ IH Hr Hc Ha].
  - destruct (open_inv _ _ _ _ _ _ _ Hd Ho eq_refl) as (node' & state & store1 & Heq & Hd1 & Hst & Hrest).
    injection Heq as <- ->. rewrite Hrole in Hrest. subst. split; [done| |by exists state].
    destruct Hd as (_ & _ & ?). lia.
  - destruct (open_inv _ _ _ _ _ _ _ Hd Ho eq_refl) as (node' & state & store1 & Heq & Hd1 & Hst & Hrest).
    injection Heq as <- ->. rewrite Hrole in Hrest. destruct Hrest as (readies' & progress & Hc & Hdr & Hp).
    rewrite Hcamp in Hc. injection Hc as <-.
    destruct (drive_ready_spec blake3 _ _ _ _ _ _ _ _ _ _ _ Hd1 Hr Hdr) as (Hd2 & Hext & Hpc).
    assert (Z.of_nat (Z.to_nat commit) ≤ commit) as Hle by (destruct Hd as (_ & _ & ?); lia).
    split; [done|by eapply readies_commit|]. exists state. split; [|done].
    rewrite (delivered_commands _ _ _ _ _ _ Hext Hle (readies_delivered _ _ _ _ _ _ _ Hr)).
    rewrite Hp in Hpc. cbn in Hpc. by rewrite <-Hpc, app_nil_r.
  - by eapply call_serves.
  - by eapply call_serves.
Qed.

(** C22.  Restarting loses and invents nothing: while calls run one after the other and are answered
    with a result or as pending, the catalog, the action ledger, the command list and the revision in
    memory are what replaying the delivered prefix of the durable log gives, a catalog watcher's
    snapshot is never refused, and once every committed entry has been delivered, any Raft host opened
    on the store recovers entries whose replay succeeds and rebuilds exactly the memory of the process. *)
Theorem meta_restart_rebuilds store core log commit delivered :
  serving store core log commit delivered →
  (∃ state, replay_from blake3 initial (commands_of (take delivered log)) = Ok state ∧ core = replayed_core state) ∧
  catalog_snapshot core (core_catalog_revision core) = Ok (map from_command (core_catalog_commands core)) ∧
  (Z.of_nat delivered = commit → ∀ node_id applied (node : N) recovery,
     MetaRaftHost_open new_node store node_id applied = Ok (node, recovery) →
     ∃ state, replay_from blake3 initial recovery = Ok state ∧ replayed_core state = core).
Proof.
  intros [Hd Hdel (state & Hst & ->)]%serving_serves. split; [eauto|]. split.
  - pose proof (replay_counted blake3 initial _ _ eq_refl Hst) as Hcount.
    destruct state as [[catalog actions] commands]. unfold counted in Hcount. unfold catalog_snapshot. cbn in *.
    by rewrite Hcount, Z.eqb_refl.
  - intros Hall node_id applied node recovery Ho. exists state. split; [|done].
    rewrite (open_recovers blake3 _ _ _ _ _ _ _ _ Hd Ho). by rewrite <-Hall, Nat2Z.id.
Qed.

Lemma replay_prefix_fails log commit log' commit' (delivered : nat) e :
  extends log commit log' commit' → Z.of_nat delivered ≤ commit → 0 ≤ commit →
  replay_from blake3 initial (commands_of (take delivered log)) = Err e →
  replay_from blake3 initial (commands_of (take (Z.to_nat commit') log')) = Err e.
Proof.
  intros Hext Hd Hnn He. pose proof Hext as [Hle _].
  rewrite (delivered_commands _ _ _ _ delivered (Z.to_nat commit') Hext Hd) by lia.
  by rewrite replay_app, He.
Qed.

(** C38.  A command is replicated before it is validated, so a rejected one stays in the log: when
    [propose] answers a control error (a stale expected version, say), every later opening of the
    process fails, on that store and on every store that keeps its committed entries. *)
Theorem rejected_command_blocks_restart store core log commit delivered role leader (readies : list (Ready M))
    log' commit' delivered' command message store' core' :
  serving store core log commit delivered →
  readies_ok log commit delivered readies log' commit' delivered' →
  MetaProcess_propose blake3 role leader (Ok readies) store core command = (Err (MpControl message), store', core') →
  durable blake3 store' log' commit' ∧
  ∀ store2 log2 commit2 peers node_id, durable blake3 store2 log2 commit2 → extends log' commit' log2 commit2 →
    is_ok (open_process peers node_id store2).1 = false.
Proof.
  intros [Hd Hdel (state & Hst & ->)]%serving_serves Hr Hc. unfold MetaProcess_propose, meta_call in Hc.
  destruct (replicate blake3 role leader (Ok readies) store (AuthorityCatalog command)) as [r1 store1] eqn:Hrep.
  pose proof (replicate_spec _ _ _ _ _ _ _ _ _ _ _ _ _ Hd Hr Hrep) as Hspec.
  destruct r1 as [[id committed]|e].
  2: { simplify_eq. destruct Hspec as [_ Hp]. by destruct (Hp message command). }
  destruct Hspec as (Hd' & Hext & ->).
  destruct (apply_progress blake3 pick_version id (replayed_core state) _ None) as [r2 core2] eqn:Happ.
  pose proof (apply_replay blake3 _ _ _ _ _ _ _ Happ) as Hrp.
  destruct r2 as [value|e]; [by destruct value; simplify_eq/=|]. injection Hc as -> -> ->.
  split; [done|]. intros store2 log2 commit2 peers node_id Hd2 Hext2.
  destruct (open_process peers node_id store2) as [r3 store3] eqn:Ho. cbn.
  destruct (is_ok r3) eqn:Hok; [|done]. exfalso.
  destruct (open_inv _ _ _ _ _ _ _ Hd2 Ho Hok) as (node & state2 & store4 & _ & _ & Hst2 & _).
  rewrite (replay_prefix_fails log' commit' log2 commit2 delivered' (MpControl message)) in Hst2; [done|done| | |].
  - by eapply readies_commit.
  - destruct Hd' as (_ & _ & ?). lia.
  - rewrite (delivered_commands _ _ _ _ _ _ Hext Hdel (readies_delivered _ _ _ _ _ _ _ Hr)), replay_app, Hst.
    exact Hrp.
Qed.

(** The host's lock is released before the committed commands are applied, so overlapping calls may
    apply them in the wrong order: if two catalog commands, accepted in the order of the log, come back
    to two calls and the second call runs first, it is answered with a stale catalog and its committed
    command is dropped from memory; the first call still succeeds, and the memory then differs from what
    any restart rebuilds. *)
Theorem overlapping_calls_diverge store core log commit delivered role leader (readies1 readies2 : list (Ready M))
    log1 commit1 delivered1 log2 commit2 delivered2 c1 c2 id1 id2 e1 e2 store1 store2 next1 next2 :
  serving store core log commit delivered →
  readies_ok log commit delivered readies1 log1 commit1 delivered1 →
  replicate blake3 role leader (Ok readies1) store (AuthorityCatalog c1) = (Ok (id1, [e1]), store1) →
  readies_ok log1 commit1 delivered1 readies2 log2 commit2 delivered2 →
  replicate blake3 role leader (Ok readies2) store1 (AuthorityCatalog c2) = (Ok (id2, [e2]), store2) →
  Z.of_nat delivered2 = commit2 →
  decode_authority_command blake3 (mc_payload e1) = Ok (AuthorityCatalog c1) →
  decode_authority_command blake3 (mc_payload e2) = Ok (AuthorityCatalog c2) →
  catalog_apply (me_catalog (core_execution core)) c1 = Ok next1 → catalog_apply next1 c2 = Ok next2 →
  ∃ message answer core1,
    apply_progress blake3 pick_version id2 core [e2] None = (Err (MpControl message), core) ∧
    apply_progress blake3 pick_version id1 core [e1] None = (Ok answer, core1) ∧
    ∀ node_id applied (node : N) recovery,
      MetaRaftHost_open new_node store2 node_id applied = Ok (node, recovery) →
      ∃ state, replay_from blake3 initial recovery = Ok state ∧ replayed_core state ≠ core1.
Proof.
  intros [Hd Hdel (state & Hst & ->)]%serving_serves Hr1 Hrep1 Hr2 Hrep2 Hall Hdec1 Hdec2 Ha1 Ha2.
  destruct (replicate_spec _ _ _ _ _ _ _ _ _ _ _ _ _ Hd Hr1 Hrep1) as (Hd1 & Hext1 & Hc1).
  destruct (replicate_spec _ _ _ _ _ _ _ _ _ _ _ _ _ Hd1 Hr2 Hrep2) as (Hd2 & Hext2 & Hc2).
  destruct state as [[catalog actions] commands]. cbn [replayed_core core_execution me_catalog] in Ha1.
  cbn [apply_progress]. unfold apply_authority. rewrite Hdec1, Hdec2. unfold apply_catalog_command.
  cbn [replayed_core core_execution me_catalog]. rewrite Ha1.
  pose proof (catalog_apply_version _ _ _ Ha1) as Hv1. pose proof (catalog_apply_version _ _ _ Ha2) as Hv2.
  assert (∃ err, catalog_apply catalog c2 = Err err) as [err ->].
  { unfold catalog_apply in Ha2 |- *. guard_in Ha2 as Hv. to_prop.
    rewrite (proj2 (Z.eqb_neq (command_expected_version c2) (ca_version catalog))) by lia. eauto. }
  eexists _, _, _. split; [reflexivity|]. split; [reflexivity|]. intros node_id applied node recovery Ho.
  exists (next2, actions, (commands ++ [c1]) ++ [c2]). split.
  - rewrite (open_recovers blake3 _ _ _ _ _ _ _ _ Hd2 Ho), <-Hall, Nat2Z.id.
    assert (Z.of_nat delivered1 ≤ commit1) as Hdel1 by (by eapply readies_commit).
    rewrite (delivered_commands _ _ _ _ _ _ Hext2 Hdel1 (readies_delivered _ _ _ _ _ _ _ Hr2)), <-Hc2.
    rewrite (delivered_commands _ _ _ _ _ _ Hext1 Hdel (readies_delivered _ _ _ _ _ _ _ Hr1)), <-Hc1.
    rewrite !replay_app, Hst. cbn [mbind result_bind replay_from replay]. rewrite Hdec1, Ha1.
    cbn [from_control map_err mbind result_bind replay replay_from]. by rewrite Hdec2, Ha2.
  - intros Heq%(f_equal core_catalog_revision). cbn in Heq. lia.
Qed.
End process_correct.

(** ** A concrete process *)

#[local] Existing Instance countable_bincode.
#[local] Existing Instance countable_bincode_laws.
#[local] Instance example_fjall : ConsensusStore FjallConsensusStore := FjallConsensusStore_store checksum32.
#[local] Instance example_fjall_laws : ConsensusStoreLaws checksum32 FjallConsensusStore :=
  FjallConsensusStore_laws checksum32.

Definition example_put : CatalogCommand := PutPlacement 0 (example_placement 5).
Definition example_pin : CatalogCommand := PinRetention 1 1 1 1 "backup".
(** A serialiser that knows two structures. *)
#[local] Instance example_json_two : SerdeJson CatalogCommandWire := {|
  json_to_vec w :=
    if bool_decide (w = from_command example_put) then Ok [123; 125]
    else if bool_decide (w = from_command example_pin) then Ok [91; 93] else Err "unsupported";
  json_from_slice bs :=
    if bool_decide (bs = [123; 125]) then Ok (from_command example_put)
    else if bool_decide (bs = [91; 93]) then Ok (from_command example_pin) else Err "unsupported";
|}.

(** The entry an election appends, and the entry of a proposal. *)
Definition example_empty : RaftEntry := mkRaftEntry EntryNormal 1 1 [] [].
Definition example_proposal (index : Z) (payload : bytes) : RaftEntry :=
  mkRaftEntry EntryNormal 1 index (be_bytes 16 (catalog_proposal_id checksum32 payload)) payload.
(** What the library of a single voter hands out: append, then commit. *)
Definition example_ready (entry : RaftEntry) : Ready unit :=
  mkReady false [entry] (Ok tt) (Some (mkHardStatePb 1 5 (re_index entry - 1))) [] [] []
    (Some (mkHardStatePb 1 5 (re_index entry))) [entry] [].

Definition example_new_node (_ : RaftMembership) (_ : list RaftEntry) (_ : RaftHardStatePb) (_ : ReplicaId)
    (_ : Z) : result string unit := Ok tt.
Definition example_role (_ : unit) : MetaRaftRole := RoleFollower.
Definition example_campaign (_ : unit) : result string (list (Ready unit)) := Ok [example_ready example_empty].

Definition example_open :=
  MetaProcess_open checksum32 example_new_node example_role example_campaign [5] 5 example_store.
(** A proposal by the leader. *)
Definition example_propose (state : FjallConsensusStore * MetaCore) (index : Z) (payload : bytes)
    (command : CatalogCommand) :=
  MetaProcess_propose checksum32 RoleLeader None (Ok [example_ready (example_proposal index payload)])
    state.1 state.2 command.
Definition example_put_bytes : bytes := [1; 123; 125].
Definition example_pin_bytes : bytes := [1; 91; 93].
(** The process after opening, and after one proposal. *)
Definition example_state0 : FjallConsensusStore * MetaCore := (snd example_open, replayed_core initial).
Definition example_proposed := example_propose example_state0 2 example_put_bytes example_put.
Definition example_state1 : FjallConsensusStore * MetaCore := (snd (fst example_proposed), snd example_proposed).
Definition example_again := example_propose example_state1 3 example_put_bytes example_put.
Definition example_log0 : list RaftEntry := [example_empty].
Definition example_log1 : list RaftEntry := example_log0 ++ [example_proposal 2 example_put_bytes].

Lemma example_entry_wf index payload :
  0 < index < 10 → be_value (be_bytes 16 (catalog_proposal_id checksum32 payload)) ≠ 0 →
  raft_entry_wf (example_proposal index payload).
Proof.
  intros Hi Hp. split; cbn [re_type re_term re_index re_context re_data example_proposal].
  - done.
  - split; [split; lia|lia].
  - unfold u64_max. lia.
  - by rewrite length_be_bytes.
  - apply be_bytes_ok.
  - intros _. split; [apply length_be_bytes|done].
Qed.
Lemma example_empty_wf : raft_entry_wf example_empty.
Proof. by split. Qed.

Lemma example_ready_ok log e :
  Forall raft_entry_wf (log ++ [e]) →
  map re_index (log ++ [e]) = seqZ 1 (Z.of_nat (length (log ++ [e]))) → (length log < 10)%nat →
  readies_ok log (Z.of_nat (length log)) (length log) [example_ready e]
    (log ++ [e]) (Z.of_nat (length (log ++ [e]))) (length (log ++ [e])).
Proof.
  intros Hwf Hidx Hlen. eapply readies_cons; [|apply readies_nil].
  assert (re_index e = Z.of_nat (length log) + 1) as He.
  { apply (index_lookup (log ++ [e])); [done|]. by rewrite lookup_app_r, Nat.sub_diag by lia. }
  rewrite length_app in *. cbn [length] in *.
  split; cbn [example_ready rd_has_snapshot rd_entries rd_hard_state rd_light_hard_state rd_committed_entries
              rd_light_committed_entries commit_of pb_commit app]; rewrite ?length_app; cbn [length]; try done.
  - exists (length log). rewrite take_ge by lia. split; [lia|]. split; [lia|]. split; [done|by left].
  - unfold u64_max. lia.
  - lia.
  - lia.
  - lia.
  - unfold slice. rewrite drop_app_length. by replace (length log + 1 - length log)%nat with 1%nat by lia.
Qed.

Lemma example_store_durable : durable checksum32 example_store [] 0.
Proof.
  split; [|by split].
  split; [apply example_store_ok|done|done|].
  intros i. cbn. unfold decoded. rewrite omap_empty, lookup_empty. split; [by intros []|lia].
Qed.

Abbreviation example_serving := (serving checksum32 example_new_node example_role example_campaign) (only parsing).

Lemma example_ready_at log index payload :
  Forall raft_entry_wf log → map re_index log = seqZ 1 (Z.of_nat (length log)) → (length log < 9)%nat →
  index = Z.of_nat (length log) + 1 → be_value (be_bytes 16 (catalog_proposal_id checksum32 payload)) ≠ 0 →
  readies_ok log (Z.of_nat (length log)) (length log) [example_ready (example_proposal index payload)]
    (log ++ [example_proposal index payload]) (Z.of_nat (length log) + 1) (length log + 1).
Proof.
  intros Hwf Hidx Hlen -> Hid.
  pose proof (example_ready_ok log (example_proposal (Z.of_nat (length log) + 1) payload)) as Hr.
  rewrite length_app, Nat2Z.inj_add in Hr. apply Hr; [| |lia].
  - apply Forall_app. split; [done|]. apply Forall_singleton, example_entry_wf; [lia|done].
  - rewrite map_app, Hidx. rewrite seqZ_app by lia. f_equal. change (Z.of_nat (length [_])) with 1.
    rewrite seqZ_cons, seqZ_nil by lia. cbn [map re_index example_proposal]. f_equal. lia.
Qed.

Lemma example_log0_wf : Forall raft_entry_wf example_log0.
Proof. apply Forall_singleton, example_empty_wf. Qed.
Lemma example_log1_wf : Forall raft_entry_wf example_log1.
Proof.
  apply Forall_app. split; [apply example_log0_wf|]. apply Forall_singleton, example_entry_wf; [lia|].
  vm_compute. discriminate.
Qed.

Lemma pair_eta {A B} (p : A * B) a : p.1 = a → p = (a, p.2).
Proof. destruct p. cbn. by intros ->. Qed.
Lemma triple_eta {A B C} (p : A * B * C) a : p.1.1 = a → p = (a, p.1.2, p.2).
Proof. destruct p as [[]]. cbn. by intros ->. Qed.

Lemma example_readies1 :
  readies_ok example_log0 1 1 [example_ready (example_proposal 2 example_put_bytes)] example_log1 2 2.
Proof.
  apply (example_ready_at example_log0); [apply example_log0_wf|reflexivity|cbn; lia|reflexivity|].
  vm_compute. discriminate.
Qed.

Lemma example_opened : example_open.1 = Ok (tt, replayed_core initial).
Proof. vm_compute. reflexivity. Qed.
Lemma example_proposed_Ok : example_proposed.1.1 = Ok 1.
Proof. vm_compute. reflexivity. Qed.
Lemma example_again_Err :
  example_again.1.1 = Err (MpControl (ControlError_to_string (StaleCatalog 0 1))).
Proof. vm_compute. reflexivity. Qed.

(** The runs above are compared by name, not by running them again. *)
#[local] Strategy opaque [MetaProcess_open MetaProcess_propose replicate].

Lemma example_serving0 : example_serving example_open.2 (replayed_core initial) example_log0 1 1.
Proof.
  pose proof (pair_eta example_open _ example_opened) as He. unfold example_open in He at 1.
  eapply serving_elect; [exact example_store_durable|exact He|reflexivity|reflexivity|].
  apply (example_ready_ok [] example_empty); [apply example_log0_wf|reflexivity|cbn; lia].
Qed.
Lemma example_serving1 : example_serving example_proposed.1.2 example_proposed.2 example_log1 2 2.
Proof.
  pose proof (triple_eta example_proposed _ example_proposed_Ok) as He.
  unfold example_proposed in He at 1. unfold example_propose in He at 1.
  eapply serving_propose; [exact example_serving0|exact example_readies1|exact He|reflexivity].
Qed.

Lemma meta_restart_rebuilds_witness :
  ∃ recovery state,
    MetaRaftHost_open example_new_node example_proposed.1.2 5 2 = Ok (tt, recovery) ∧
    replay_from checksum32 initial recovery = Ok state ∧ replayed_core state = example_proposed.2.
Proof.
  assert (∃ recovery, MetaRaftHost_open example_new_node example_proposed.1.2 5 2 = Ok (tt, recovery))
    as [recovery Ho] by (eexists; vm_compute; reflexivity).
  destruct (proj2 (proj2 (meta_restart_rebuilds checksum32 example_new_node example_role example_campaign
    _ _ _ _ _ example_serving1)) eq_refl 5 2 tt recovery Ho) as (state & Hst & Hcore).
  exists recovery, state. split; [exact Ho|]. split; [exact Hst|exact Hcore].
Defined.

(** Proposing the placement a second time. *)
Lemma rejected_command_blocks_restart_witness :
  is_ok (MetaProcess_open checksum32 example_new_node example_role example_campaign [5] 5 example_again.1.2).1 = false.
Proof.
  pose proof (triple_eta example_again _ example_again_Err) as He.
  unfold example_again in He at 1. unfold example_propose in He at 1. unfold example_state1 in He at 1 2.
  cbn [fst snd] in He.
  assert (readies_ok example_log1 2 2 [example_ready (example_proposal 3 example_put_bytes)]
            (example_log1 ++ [example_proposal 3 example_put_bytes]) 3 3) as Hr.
  { apply (example_ready_at example_log1);
      [apply example_log1_wf|reflexivity|cbn; lia|reflexivity|vm_compute; discriminate]. }
  destruct (rejected_command_blocks_restart checksum32 example_new_node example_role example_campaign
    _ _ _ _ _ _ _ _ _ _ _ _ _ _ _ example_serving1 Hr He) as [Hd Hopen].
  exact (Hopen _ _ _ [5] 5 Hd (extends_refl _ _)).
Defined.

(** Two calls, the placement and a pin on it, replicated one after the other. *)
Definition example_first :=
  replicate checksum32 RoleLeader None (Ok [example_ready (example_proposal 2 example_put_bytes)]) (snd example_open)
    (AuthorityCatalog example_put).
Definition example_second :=
  replicate checksum32 RoleLeader None (Ok [example_ready (example_proposal 3 example_pin_bytes)]) (snd example_first)
    (AuthorityCatalog example_pin).
Definition example_committed (index : Z) (payload : bytes) : MetaCommittedEntry :=
  mkCommittedEntry 1 index (catalog_proposal_id checksum32 payload) payload.

Lemma example_first_Ok : example_first.1 =
  Ok (catalog_proposal_id checksum32 example_put_bytes, [example_committed 2 example_put_bytes]).
Proof. vm_compute. reflexivity. Qed.
Lemma example_second_Ok : example_second.1 =
  Ok (catalog_proposal_id checksum32 example_pin_bytes, [example_committed 3 example_pin_bytes]).
Proof. vm_compute. reflexivity. Qed.

Lemma overlapping_calls_diverge_witness :
  ∃ message answer core1,
    apply_progress checksum32 pick_version (catalog_proposal_id checksum32 example_pin_bytes) (replayed_core initial)
      [example_committed 3 example_pin_bytes] None = (Err (MpControl message), replayed_core initial) ∧
    apply_progress checksum32 pick_version (catalog_proposal_id checksum32 example_put_bytes) (replayed_core initial)
      [example_committed 2 example_put_bytes] None = (Ok answer, core1).
Proof.
  pose proof (pair_eta example_first _ example_first_Ok) as H1. unfold example_first in H1 at 1.
  pose proof (pair_eta example_second _ example_second_Ok) as H2. unfold example_second in H2 at 1.
  assert (readies_ok example_log1 2 2 [example_ready (example_proposal 3 example_pin_bytes)]
            (example_log1 ++ [example_proposal 3 example_pin_bytes]) 3 3) as Hr.
  { apply (example_ready_at example_log1);
      [apply example_log1_wf|reflexivity|cbn; lia|reflexivity|vm_compute; discriminate]. }
  destruct (overlapping_calls_diverge checksum32 example_new_node example_role example_campaign
    _ _ _ _ _ _ _ _ _ _ _ _ _ _ _ _ _ _ _ _ _ _ _ example_catalog example_pinned
    example_serving0 example_readies1 H1 Hr H2 eq_refl) as (message & answer & core1 & Ha & Hb & _);
    try (vm_compute; reflexivity).
  exists message, answer, core1. split; [exact Ha|exact Hb].
Defined.
