(* ===== verification/Loops.v ===== *)
(** * Computations that carry a state and may stop with an error

    The analytics functions thread a budget guard through nested loops and leave them early with [?].
    Here are the monad they are written in, the [for] loop, and the rules that prove what a
    computation yields and how it may fail, whatever the state it starts from. *)

From S2P Require Import Prelude.
Open Scope Z_scope.

Definition stateful (S E A : Type) : Type := S → result E (A * S).

#[export] Instance stateful_ret S E : MRet (stateful S E) := λ A a s, Ok (a, s).
#[export] Instance stateful_bind S E : MBind (stateful S E) := λ A B k m s,
  match m s with Ok (a, s) => k a s | Err e => Err e end.

Section stateful.
Context {S E : Type}.

Definition stop {A} (e : E) : stateful S E A := λ _, Err e.
(** A value that does not depend on the state. *)
Definition lift {A} (m : result E A) : stateful S E A := λ s,
  match m with Ok a => Ok (a, s) | Err e => Err e end.

(** [for b in l { a = f(b, a)? }]. *)
Fixpoint sfor {A B} (f : B → A → stateful S E A) (l : list B) (a : A) : stateful S E A :=
  match l with
  | [] => mret a
  | b :: l => a ← f b a; sfor f l a
  end.

(** [for b in l { .. break; .. }]: [inl] goes on with the next element, [inr] leaves the loop. *)
Fixpoint sfor_break {A B} (f : B → A → stateful S E (A + A)) (l : list B) (a : A) : stateful S E A :=
  match l with
  | [] => mret a
  | b :: l => r ← f b a; match r with inl a => sfor_break f l a | inr a => mret a end
  end.

(** [while]: [inl] goes round again, [inr] leaves the loop.  [out_of_fuel] is no error of the source. *)
Fixpoint swhile {A} (out_of_fuel : E) (fuel : nat) (body : A → stateful S E (A + A)) (a : A) : stateful S E A :=
  match fuel with
  | O => stop out_of_fuel
  | Datatypes.S fuel => r ← body a; match r with inl a => swhile out_of_fuel fuel body a | inr a => mret a end
  end.

(** ** What a computation yields and how it may fail *)

Definition swp {A} (m : stateful S E A) (P : A → Prop) (Q : E → Prop) : Prop :=
  ∀ s, match m s with Ok (a, _) => P a | Err e => Q e end.

Lemma swp_ret {A} (a : A) (P : A → Prop) Q : P a → swp (mret a) P Q.
Proof. by intros ? s. Qed.
Lemma swp_stop {A} e (P : A → Prop) (Q : E → Prop) : Q e → swp (stop e) P Q.
Proof. by intros ? s. Qed.
Lemma swp_lift {A} (m : result E A) (P : A → Prop) Q :
  match m with Ok a => P a | Err e => Q e end → swp (lift m) P Q.
Proof. intros Hm s. unfold lift. by destruct m. Qed.
Lemma swp_bind {A B} (m : stateful S E A) (k : A → stateful S E B) P Q :
  swp m (λ a, swp (k a) P Q) Q → swp (m ≫= k) P Q.
Proof.
  intros Hm s. unfold mbind, stateful_bind. specialize (Hm s). destruct (m s) as [[a s']|e]; [apply Hm|done].
Qed.
Lemma swp_mono {A} (m : stateful S E A) (P P' : A → Prop) (Q Q' : E → Prop) :
  swp m P Q → (∀ a, P a → P' a) → (∀ e, Q e → Q' e) → swp m P' Q'.
Proof. intros Hm HP HQ s. specialize (Hm s). destruct (m s) as [[a s']|e]; auto. Qed.
Lemma swp_and {A} (m : stateful S E A) (P P' : A → Prop) (Q : E → Prop) :
  swp m P Q → swp m P' Q → swp m (λ a, P a ∧ P' a) Q.
Proof. intros H1 H2 s. specialize (H1 s). specialize (H2 s). by destruct (m s) as [[a s']|e]. Qed.

(** The loop rule: [I pre a] holds after the elements [pre]. *)
Lemma swp_for {A B} (I : list B → A → Prop) (f : B → A → stateful S E A) l a Q :
  I [] a →
  (∀ pre b post a, l = pre ++ b :: post → I pre a → swp (f b a) (I (pre ++ [b])) Q) →
  swp (sfor f l a) (I l) Q.
Proof.
  intros H0 Hstep.
  cut (∀ post pre a, l = pre ++ post → I pre a → swp (sfor f post a) (I l) Q).
  { intros Hgo. by apply (Hgo l []). }
  induction post as [|b post IH]; intros pre a' Hl HI.
  - rewrite app_nil_r in Hl. subst. by apply swp_ret.
  - cbn [sfor]. apply swp_bind. eapply swp_mono; [by apply (Hstep pre b post)| |done].
    intros a'' HI'. apply (IH (pre ++ [b])); [|done]. by rewrite <-app_assoc.
Qed.

(** An invariant that does not look at the elements done. *)
Lemma swp_for_inv {A B} (I : A → Prop) (f : B → A → stateful S E A) l a Q :
  I a → (∀ b a, b ∈ l → I a → swp (f b a) I Q) → swp (sfor f l a) I Q.
Proof.
  intros H0 Hstep. apply (swp_for (λ _, I)); [done|]. intros pre b post a' -> HI. apply Hstep; [|done].
  apply elem_of_app. right. left.
Qed.

(** A loop left early satisfies [P]; one that ends by itself satisfies the invariant. *)
Lemma swp_for_break {A B} (I : list B → A → Prop) (P : A → Prop) (f : B → A → stateful S E (A + A)) l a Q :
  I [] a →
  (∀ pre b post a, l = pre ++ b :: post → I pre a →
     swp (f b a) (λ r, match r with inl a => I (pre ++ [b]) a | inr a => P a end) Q) →
  (∀ a, I l a → P a) →
  swp (sfor_break f l a) P Q.
Proof.
  intros H0 Hstep Hend.
  cut (∀ post pre a, l = pre ++ post → I pre a → swp (sfor_break f post a) P Q).
  { intros Hgo. by apply (Hgo l []). }
  induction post as [|b post IH]; intros pre a' Hl HI.
  - rewrite app_nil_r in Hl. subst. by apply swp_ret, Hend.
  - cbn [sfor_break]. apply swp_bind. eapply swp_mono; [by apply (Hstep pre b post)| |done].
    intros [a''|a''] HI'; [|by apply swp_ret]. apply (IH (pre ++ [b])); [|done]. by rewrite <-app_assoc.
Qed.

(** A loop with a bound on its rounds that decreases in every round ends before the fuel does. *)
Lemma swp_while_bound {A} (I : nat → A → Prop) (P : A → Prop) (Q : E → Prop) e fuel
    (body : A → stateful S E (A + A)) k a :
  I k a → (k < fuel)%nat →
  (∀ k a, I k a →
     swp (body a) (λ r, match r with inl a' => ∃ k', I k' a' ∧ (k' < k)%nat | inr a' => P a' end) Q) →
  swp (swhile e fuel body a) P Q.
Proof.
  intros HI Hk Hbody. revert k a HI Hk. induction fuel as [|fuel IH]; intros k a HI Hk; [lia|]. cbn [swhile].
  apply swp_bind. eapply swp_mono; [by apply (Hbody k)| |done]. intros [a'|a'].
  - intros (k' & HI' & Hlt). apply (IH k'); [done|lia].
  - intros HP. by apply swp_ret.
Qed.
Lemma swp_while {A} (I : A → Prop) (measure : A → nat) (P : A → Prop) (Q : E → Prop) e fuel
    (body : A → stateful S E (A + A)) a :
  I a → (measure a < fuel)%nat →
  (∀ a, I a → swp (body a) (λ r, match r with inl a' => I a' ∧ (measure a' < measure a)%nat | inr a' => P a' end) Q) →
  swp (swhile e fuel body a) P Q.
Proof.
  intros HI Hm Hbody. apply (swp_while_bound (λ k a, I a ∧ measure a = k) P Q e fuel body (measure a)); [done|done|].
  intros k a' [HI' <-]. eapply swp_mono; [by apply Hbody| |done]. intros [a''|a'']; [|done].
  intros [HI'' Hlt]. eauto.
Qed.

(** What [swp] says of one run. *)
Lemma swp_Ok {A} (m : stateful S E A) P Q s a s' : swp m P Q → m s = Ok (a, s') → P a.
Proof. intros Hm Hs. specialize (Hm s). by rewrite Hs in Hm. Qed.
Lemma swp_Err {A} (m : stateful S E A) P Q s e : swp m P Q → m s = Err e → Q e.
Proof. intros Hm Hs. specialize (Hm s). by rewrite Hs in Hm. Qed.
End stateful.

#[global] Arguments stateful_bind : simpl never.

(** ** Indexing *)

(** [v[i]] of a vector. *)
Lemma swp_index {S E A} (l : list A) i (panic : E) (P : A → Prop) (Q : E → Prop) :
  (∀ a, l !! i = Some a → P a) → is_Some (l !! i) → swp (S := S) (lift (ok_or panic (l !! i))) P Q.
Proof. intros HP [a Ha]. apply swp_lift. rewrite Ha. by apply HP. Qed.
