(* ===== verification/Projection.v ===== *)
(** * Projecting snapshots into compressed adjacency ([dtg-analytics/src]: projection.rs, csr.rs)

    The parts of a snapshot that the shards deliver, their validation, and the compressed sparse row
    (CSR) graph assembled from them.  Every loop asks whether it was cancelled; a token may be
    cancelled by another thread at any moment, so the budget holds the answer of each request in turn
    and a computation carries the number of requests made. *)

From S2P Require Import Prelude Text Kernel Storage Loops.
Open Scope Z_scope.

(** ** Errors *)

(** [ProjectionPanic] stands for an index out of range or a missing map key. *)
Inductive ProjectionError :=
| PjInvalidSnapshot
| PjSnapshotMismatch
| PjPartitionFenceMismatch
| PjDuplicatePartition
| PjPartitionGap
| PjDuplicateVertex
| PjDuplicateEdge
| PjDanglingEdge
| PjInvalidSpec
| PjMissingRequiredProperty
| PjPropertyTypeMismatch
| PjResourceLimit
| PjCancelled
| ProjectionPanic.
#[export] Instance ProjectionError_eq_dec : EqDecision ProjectionError.
Proof. solve_decision. Defined.

Definition ProjectionError_code (e : ProjectionError) : string :=
  match e with
  | PjInvalidSnapshot => "DTG-ANALYTICS-SNAPSHOT-INVALID"
  | PjSnapshotMismatch => "DTG-ANALYTICS-SNAPSHOT-MISMATCH"
  | PjPartitionFenceMismatch => "DTG-ANALYTICS-PARTITION-FENCE"
  | PjDuplicatePartition => "DTG-ANALYTICS-PARTITION-DUPLICATE"
  | PjPartitionGap => "DTG-ANALYTICS-PARTITION-GAP"
  | PjDuplicateVertex => "DTG-ANALYTICS-VERTEX-DUPLICATE"
  | PjDuplicateEdge => "DTG-ANALYTICS-EDGE-DUPLICATE"
  | PjDanglingEdge => "DTG-ANALYTICS-EDGE-DANGLING"
  | PjInvalidSpec => "DTG-ANALYTICS-PROJECTION-SPEC"
  | PjMissingRequiredProperty => "DTG-ANALYTICS-PROPERTY-MISSING"
  | PjPropertyTypeMismatch => "DTG-ANALYTICS-PROPERTY-TYPE"
  | PjResourceLimit => "DTG-ANALYTICS-PROJECTION-RESOURCE"
  | PjCancelled => "DTG-ANALYTICS-CANCELLED"
  | ProjectionPanic => ""
  end.

(** ** Snapshots and their parts *)

Record ShardSnapshotProvenance := mkShardProvenance {
  sp_placement_epoch : PlacementEpoch;
  sp_backend_generation : BackendGeneration;
  sp_applied_index : Z;
  sp_closed_time : TransactionTime;
}.
#[export] Instance ShardSnapshotProvenance_eq_dec : EqDecision ShardSnapshotProvenance.
Proof. solve_decision. Defined.

Record SnapshotProvenance := mkSnapshotProvenance {
  sn_transaction_id : TransactionId;
  sn_start_time : TransactionTime;
  sn_catalog_version : Version;
  sn_shards : gmap ShardId ShardSnapshotProvenance;
}.
#[export] Instance SnapshotProvenance_eq_dec : EqDecision SnapshotProvenance.
Proof. solve_decision. Defined.

Fixpoint insert_shards (start_time : TransactionTime) (shards : gmap ShardId ShardSnapshotProvenance)
    (fences : list (ShardId * ShardSnapshotProvenance))
    : result ProjectionError (gmap ShardId ShardSnapshotProvenance) :=
  match fences with
  | [] => Ok shards
  | (shard_id, fence) :: fences =>
      if sp_closed_time fence <? start_time then Err PjInvalidSnapshot
      else if bool_decide (is_Some (shards !! shard_id)) then Err PjInvalidSnapshot
      else insert_shards start_time (<[shard_id := fence]> shards) fences
  end.

Definition SnapshotProvenance_new (transaction_id : TransactionId) (start_time : TransactionTime)
    (catalog_version : Version) (shard_fences : list (ShardId * ShardSnapshotProvenance))
    : result ProjectionError SnapshotProvenance :=
  if (catalog_version =? 0) || bool_decide (shard_fences = []) then Err PjInvalidSnapshot
  else
    shards ← insert_shards start_time ∅ shard_fences;
    Ok (mkSnapshotProvenance transaction_id start_time catalog_version shards).

Record PartitionProvenance := mkPartition {
  pp_shard_id : ShardId;
  pp_placement_epoch : PlacementEpoch;
  pp_backend_generation : BackendGeneration;
  pp_applied_index : Z;
  pp_partition_index : Z;
  pp_partition_count : Z;
}.
#[export] Instance PartitionProvenance_eq_dec : EqDecision PartitionProvenance.
Proof. solve_decision. Defined.

(** The derived order: field by field. *)
Definition partition_fields (p : PartitionProvenance) : list Z :=
  [pp_shard_id p; pp_placement_epoch p; pp_backend_generation p; pp_applied_index p; pp_partition_index p;
   pp_partition_count p].
Fixpoint lex_lt (xs ys : list Z) : bool :=
  match xs, ys with
  | x :: xs, y :: ys => (x <? y) || ((x =? y) && lex_lt xs ys)
  | _, _ => false
  end.
Fixpoint insert_partition (p : PartitionProvenance) (l : list PartitionProvenance) : list PartitionProvenance :=
  match l with
  | [] => [p]
  | q :: l =>
      if lex_lt (partition_fields p) (partition_fields q) then p :: q :: l
      else if bool_decide (p = q) then q :: l
      else q :: insert_partition p l
  end.

Record ProjectedVertex := mkProjectedVertex { pv_id : VertexId; pv_properties : Properties }.
Record ProjectedEdge := mkProjectedEdge {
  pe_id : EdgeId;
  pe_source : VertexId;
  pe_target : VertexId;
  pe_properties : Properties;
}.

(** What [SnapshotProjectionInput] gives access to. *)
Record ShardProjectionPart := mkPart {
  pt_snapshot : SnapshotProvenance;
  pt_provenance : PartitionProvenance;
  pt_vertices : list ProjectedVertex;
  pt_edges : list ProjectedEdge;
}.

(** ** What to project *)

Inductive PropertyType :=
  TyBoolean | TyInteger | TyFloat | TyBytes | TyString | TyList | TyMap.
#[export] Instance PropertyType_eq_dec : EqDecision PropertyType.
Proof. solve_decision. Defined.

Definition property_type_matches (self : PropertyType) (value : Value) : bool :=
  match self, value with
  | _, VNull | TyBoolean, VBoolean _ | TyInteger, VInteger _ | TyFloat, VFloatBits _ | TyBytes, VBytes _
  | TyString, VString _ | TyList, VList _ | TyMap, VMap _ => true
  | _, _ => false
  end.
Definition property_type_tag (self : PropertyType) : Z :=
  match self with
  | TyBoolean => 1 | TyInteger => 2 | TyFloat => 3 | TyBytes => 4 | TyString => 5 | TyList => 6 | TyMap => 7
  end.

Record PropertyColumnSpec := mkColumnSpec {
  cs_name : string;
  cs_property_type : PropertyType;
  cs_required : bool;
}.

Record ProjectionSpec := mkProjectionSpec {
  ps_include_reverse : bool;
  ps_vertex_properties : list PropertyColumnSpec;
  ps_edge_properties : list PropertyColumnSpec;
}.

Fixpoint validate_specs (names : gset string) (specs : list PropertyColumnSpec) : result ProjectionError unit :=
  match specs with
  | [] => Ok tt
  | spec :: specs =>
      if bool_decide (cs_name spec = "") || bool_decide (cs_name spec ∈ names) then Err PjInvalidSpec
      else validate_specs ({[cs_name spec]} ∪ names) specs
  end.

Definition ProjectionSpec_new (include_reverse : bool) (vertex_properties edge_properties : list PropertyColumnSpec)
    : result ProjectionError ProjectionSpec :=
  _ ← validate_specs ∅ vertex_properties;
  _ ← validate_specs ∅ edge_properties;
  Ok (mkProjectionSpec include_reverse vertex_properties edge_properties).

(** [pb_cancelled n] is the answer of the token to the [n]-th request. *)
Record ProjectionBudget := mkProjectionBudget {
  pb_max_memory_bytes : Z;
  pb_max_spill_bytes : Z;
  pb_cancelled : nat → bool;
}.

Record BudgetUsage := mkBudgetUsage { bu_memory_bytes : Z; bu_spill_bytes : Z }.

(** ** The assembled graph *)

Record TypedPropertyColumn := mkColumn {
  col_property_type : PropertyType;
  col_values : list (option Value);
}.

Record ReverseCsr := mkReverse {
  rv_offsets : list Z;
  rv_neighbors : list Z;
  rv_forward_edge_indices : list Z;
}.

Record SnapshotCsr := mkCsr {
  csr_snapshot : SnapshotProvenance;
  csr_partition_provenance : list PartitionProvenance;
  csr_vertex_ids : list VertexId;
  csr_offsets : list Z;
  csr_neighbors : list Z;
  csr_edge_ids : list EdgeId;
  csr_reverse : option ReverseCsr;
  csr_vertex_properties : gmap string TypedPropertyColumn;
  csr_edge_properties : gmap string TypedPropertyColumn;
  csr_digest : Digest32;
  csr_budget_usage : BudgetUsage;
}.

(** [binary_search] of an ascending slice without duplicates. *)
Definition vertex_index (self : SnapshotCsr) (vertex_id : VertexId) : option nat :=
  fst <$> list_find (λ id, id = vertex_id) (csr_vertex_ids self).

(** [offsets[i]..offsets[i + 1]]; [None] is the panic of an index out of range. *)
Definition offset_range (offsets : list Z) (index : nat) : option (list nat) :=
  low ← offsets !! index;
  high ← offsets !! S index;
  Some (seq (Z.to_nat low) (Z.to_nat high - Z.to_nat low)).
Definition outgoing_range (self : SnapshotCsr) (vertex_index : nat) : option (list nat) :=
  offset_range (csr_offsets self) vertex_index.
(** The outer option is that of the source, the inner one the panic. *)
Definition incoming_range (self : SnapshotCsr) (vertex_index : nat) : option (option (list nat)) :=
  (λ reverse, offset_range (rv_offsets reverse) vertex_index) <$> csr_reverse self.

Definition edge_integer (self : SnapshotCsr) (property : string) (edge_index : nat) : option Z :=
  column ← csr_edge_properties self !! property;
  value ← col_values column !! edge_index;
  match value with Some (VInteger value) => Some value | _ => None end.

(** ** Cancellation *)

Abbreviation projecting := (stateful nat ProjectionError) (only parsing).

Definition check_cancelled (budget : ProjectionBudget) : projecting unit := λ n,
  if pb_cancelled budget n then Err PjCancelled else Ok (tt, S n).

(** ** Estimating and reserving *)

Definition usize_add (a b : Z) : result ProjectionError Z :=
  if a + b <? 2 ^ 64 then Ok (a + b) else Err PjResourceLimit.
Definition usize_mul (a b : Z) : result ProjectionError Z :=
  if a * b <? 2 ^ 64 then Ok (a * b) else Err PjResourceLimit.

Definition str_len (s : string) : Z := Z.of_nat (String.length s).
Definition len {A} (l : list A) : Z := Z.of_nat (length l).

(** [BTreeMap::get] of the bindings of a map. *)
Fixpoint get_property (name : string) (properties : Properties) : option Value :=
  match properties with
  | [] => None
  | (key, value) :: properties =>
      if bool_decide (key = name) then Some value else get_property name properties
  end.

Section assemble.
Context (blake3 : bytes → Digest32) (budget : ProjectionBudget).

Fixpoint estimate_value_bytes (value : Value) : projecting Z :=
  _ ← check_cancelled budget;
  match value with
  | VNull => mret 1
  | VBoolean _ => mret 2
  | VInteger _ | VFloatBits _ => mret 9
  | VBytes value => lift (usize_add 9 (len value))
  | VString value => lift (usize_add 9 (str_len value))
  | VList values =>
      (fix go values bytes :=
         match values with
         | [] => mret bytes
         | value :: values =>
             _ ← check_cancelled budget;
             size ← estimate_value_bytes value;
             bytes ← lift (usize_add bytes size);
             go values bytes
         end) values 9
  | VMap values =>
      (fix go values bytes :=
         match values with
         | [] => mret bytes
         | (name, value) :: values =>
             _ ← check_cancelled budget;
             size ← estimate_value_bytes value;
             bytes ← lift (usize_add bytes (str_len name));
             bytes ← lift (usize_add bytes size);
             go values bytes
         end) values 9
  end.

Definition estimate_selected_properties (properties : Properties) (specs : list PropertyColumnSpec) (bytes : Z)
    : projecting Z :=
  sfor (λ spec bytes,
    _ ← check_cancelled budget;
    bytes ← lift (usize_add bytes (str_len (cs_name spec)));
    match get_property (cs_name spec) properties with
    | Some value => size ← estimate_value_bytes value; lift (usize_add bytes size)
    | None => mret bytes
    end) specs bytes.

Definition estimate_part (spec : ProjectionSpec) (part : ShardProjectionPart) (bytes : Z) : projecting Z :=
  _ ← check_cancelled budget;
  bytes ← lift (usize_add bytes 64);
  size ← lift (usize_mul (len (pt_vertices part)) 128);
  bytes ← lift (usize_add bytes size);
  size ← lift (usize_mul (len (pt_edges part)) 192);
  bytes ← lift (usize_add bytes size);
  bytes ← sfor (λ vertex bytes,
            _ ← check_cancelled budget;
            estimate_selected_properties (pv_properties vertex) (ps_vertex_properties spec) bytes)
            (pt_vertices part) bytes;
  sfor (λ edge bytes,
    _ ← check_cancelled budget;
    estimate_selected_properties (pe_properties edge) (ps_edge_properties spec) bytes)
    (pt_edges part) bytes.

Definition estimate_projection_bytes (parts : list ShardProjectionPart) (spec : ProjectionSpec) : projecting Z :=
  bytes ← sfor (estimate_part spec) parts 256;
  if ps_include_reverse spec then
    edge_count ← sfor (λ part count, _ ← check_cancelled budget; lift (usize_add count (len (pt_edges part))))
                   parts 0;
    size ← lift (usize_mul edge_count 8);
    lift (usize_add bytes size)
  else mret bytes.

Definition reserve_budget (estimated_bytes : Z) : result ProjectionError BudgetUsage :=
  let memory_bytes := Z.min estimated_bytes (pb_max_memory_bytes budget) in
  let spill_bytes := estimated_bytes - memory_bytes in
  if pb_max_spill_bytes budget <? spill_bytes then Err PjResourceLimit
  else Ok (mkBudgetUsage memory_bytes spill_bytes).

(** ** Validating *)

Definition validate_snapshots (parts : list ShardProjectionPart) : projecting SnapshotProvenance :=
  snapshot ← lift (ok_or PjPartitionGap (pt_snapshot <$> head parts));
  sfor (λ part snapshot,
    _ ← check_cancelled budget;
    if bool_decide (pt_snapshot part = snapshot) then mret snapshot else stop PjSnapshotMismatch) parts snapshot.

(** One round of the loop of [validate_partitions]. *)
Definition validate_partition (snapshot : SnapshotProvenance) (part : ShardProjectionPart)
    (acc : gmap ShardId (Z * gset Z) * list PartitionProvenance)
    : projecting (gmap ShardId (Z * gset Z) * list PartitionProvenance) :=
  let '(partitions, provenance) := acc in
  _ ← check_cancelled budget;
  let p := pt_provenance part in
  fence ← lift (ok_or PjPartitionFenceMismatch (sn_shards snapshot !! pp_shard_id p));
  if negb (pp_placement_epoch p =? sp_placement_epoch fence)
     || negb (pp_backend_generation p =? sp_backend_generation fence)
     || negb (pp_applied_index p =? sp_applied_index fence)
  then stop PjPartitionFenceMismatch
  else if (pp_partition_count p =? 0) || (pp_partition_count p <=? pp_partition_index p)
  then stop PjPartitionGap
  else
    let '(count, indices) := default (pp_partition_count p, ∅) (partitions !! pp_shard_id p) in
    if negb (count =? pp_partition_count p) then stop PjPartitionGap
    else if bool_decide (pp_partition_index p ∈@{gset Z} indices) then stop PjDuplicatePartition
    else mret (<[pp_shard_id p := (count, {[pp_partition_index p]} ∪ indices)]> partitions,
               insert_partition p provenance).

Definition complete_partitions (partitions : gmap ShardId (Z * gset Z)) (shard_id : ShardId) (_ : unit)
    : projecting unit :=
  '(partition_count, indices) ← lift (ok_or PjPartitionGap (partitions !! shard_id));
  if negb (Z.of_nat (size indices) =? partition_count) then stop PjPartitionGap
  else
    sfor (λ index _,
      _ ← check_cancelled budget;
      if bool_decide (index ∈@{gset Z} indices) then mret tt else stop PjPartitionGap) (seqZ 0 partition_count) tt.

(** [for x in l { check_cancelled()?; out.push(f(x)) }]. *)
Definition collect {A B} (f : A → B) (l : list A) : projecting (list B) :=
  sfor (λ a out, _ ← check_cancelled budget; mret (out ++ [f a])) l [].

Definition validate_partitions (parts : list ShardProjectionPart) (snapshot : SnapshotProvenance)
    : projecting (list PartitionProvenance) :=
  '(partitions, provenance) ← sfor (validate_partition snapshot) parts (∅, []);
  if negb (Nat.eqb (size partitions) (size (sn_shards snapshot))) then stop PjPartitionGap
  else
    _ ← sfor (complete_partitions partitions) (keys (sn_shards snapshot)) tt;
    collect id provenance.

(** ** Vertices and edges *)

Definition collect_part (part : ShardProjectionPart)
    (acc : gmap VertexId ProjectedVertex * gmap EdgeId ProjectedEdge)
    : projecting (gmap VertexId ProjectedVertex * gmap EdgeId ProjectedEdge) :=
  let '(vertices, edges) := acc in
  _ ← check_cancelled budget;
  vertices ← sfor (λ vertex vertices,
               _ ← check_cancelled budget;
               if bool_decide (is_Some (vertices !! pv_id vertex)) then stop PjDuplicateVertex
               else mret (<[pv_id vertex := vertex]> vertices)) (pt_vertices part) vertices;
  edges ← sfor (λ edge edges,
            _ ← check_cancelled budget;
            if bool_decide (is_Some (edges !! pe_id edge)) then stop PjDuplicateEdge
            else mret (<[pe_id edge := edge]> edges)) (pt_edges part) edges;
  mret (vertices, edges).

(** The numbers of the vertices. *)
Definition index_vertices (vertex_ids : list VertexId) : projecting (gmap VertexId Z) :=
  sfor (λ '(index, vertex_id) indices,
    _ ← check_cancelled budget; mret (<[vertex_id := Z.of_nat index]> indices))
    (zip (seq 0 (length vertex_ids)) vertex_ids) ∅.

(** The key [(source, target, id)] edges are ordered by. *)
Definition edge_key (edge : ProjectedEdge) : Z * Z * Z := (pe_source edge, pe_target edge, pe_id edge).
Definition triple_leb (a b : Z * Z * Z) : bool :=
  lex_lt [a.1.1; a.1.2; a.2] [b.1.1; b.1.2; b.2] || bool_decide (a = b).

Definition order_edges (vertex_indices : gmap VertexId Z) (edges : gmap EdgeId ProjectedEdge)
    : projecting (list ProjectedEdge) :=
  ordered ← sfor (λ edge ordered,
              _ ← check_cancelled budget;
              if negb (bool_decide (is_Some (vertex_indices !! pe_source edge)))
                 || negb (bool_decide (is_Some (vertex_indices !! pe_target edge)))
              then stop PjDanglingEdge
              else mret (<[edge_key edge := edge]> ordered)) (values edges) ∅;
  collect id (entries_by triple_leb ordered).*2.

(** [map[key]] *)
Definition index_of (vertex_indices : gmap VertexId Z) (vertex_id : VertexId) : projecting Z :=
  lift (ok_or ProjectionPanic (vertex_indices !! vertex_id)).

(** ** Offsets *)

Definition u64_add (a b : Z) : result ProjectionError Z :=
  if a + b <? 2 ^ 64 then Ok (a + b) else Err PjResourceLimit.

(** [offsets[at] = offsets[at].checked_add(amount)?]. *)
Definition add_offset (offsets : list Z) (at_ : nat) (amount : Z) : projecting (list Z) :=
  value ← lift (ok_or ProjectionPanic (offsets !! at_));
  value ← lift (u64_add value amount);
  mret (<[at_ := value]> offsets).

(** The number of entries of each row, in the place after it, and then their running sum. *)
Definition build_offsets {A} (row_of : A → projecting Z) (vertex_count : nat) (l : list A)
    : projecting (list Z) :=
  offsets ← sfor (λ a offsets,
              _ ← check_cancelled budget;
              row ← row_of a;
              add_offset offsets (Z.to_nat row + 1) 1) l (replicate (vertex_count + 1) 0);
  sfor (λ index offsets,
    _ ← check_cancelled budget;
    previous ← lift (ok_or ProjectionPanic (offsets !! (index - 1)%nat));
    add_offset offsets index previous) (seq 1 vertex_count) offsets.

Definition build_reverse (vertex_count : nat) (edges : list ProjectedEdge) (vertex_indices : gmap VertexId Z)
    : projecting ReverseCsr :=
  reversed ← sfor (λ '(edge_index, edge) reversed,
               _ ← check_cancelled budget;
               target ← index_of vertex_indices (pe_target edge);
               source ← index_of vertex_indices (pe_source edge);
               mret (<[(target, source, Z.of_nat edge_index) := tt]> reversed))
               (zip (seq 0 (length edges)) edges) (∅ : gmap (Z * Z * Z) unit);
  let ordered := (entries_by triple_leb reversed).*1 in
  offsets ← build_offsets (λ k : Z * Z * Z, mret k.1.1) vertex_count ordered;
  '(neighbors, forward_edge_indices) ←
    sfor (λ (k : Z * Z * Z) '(neighbors, indices),
      _ ← check_cancelled budget; mret (neighbors ++ [k.1.2], indices ++ [k.2])) ordered ([], []);
  mret (mkReverse offsets neighbors forward_edge_indices).

(** ** Columns *)

Definition column_value (spec : PropertyColumnSpec) (properties : Properties) : result ProjectionError (option Value) :=
  match get_property (cs_name spec) properties with
  | Some value =>
      if property_type_matches (cs_property_type spec) value then Ok (Some value) else Err PjPropertyTypeMismatch
  | None => if cs_required spec then Err PjMissingRequiredProperty else Ok None
  end.

Definition build_columns (entities : list Properties) (specs : list PropertyColumnSpec)
    : projecting (gmap string TypedPropertyColumn) :=
  sfor (λ spec columns,
    _ ← check_cancelled budget;
    values ← sfor (λ properties values,
               _ ← check_cancelled budget;
               value ← lift (column_value spec properties);
               mret (values ++ [value])) entities [];
    mret (<[cs_name spec := mkColumn (cs_property_type spec) values]> columns)) specs ∅.

(** ** The content digest *)

Definition le_bytes (n : nat) (z : Z) : bytes := rev (be_bytes n z).
Definition csr_hash_bytes (value : bytes) : bytes := le_bytes 8 (len value) ++ value.

(** The hasher is the bytes it was fed. *)
Definition hash_each {A} (f : A → bytes) (l : list A) (hasher : bytes) : projecting bytes :=
  sfor (λ a hasher, _ ← check_cancelled budget; mret (hasher ++ f a)) l hasher.

Fixpoint csr_hash_value (value : Value) (hasher : bytes) : projecting bytes :=
  _ ← check_cancelled budget;
  match value with
  | VNull => mret (hasher ++ [0])
  | VBoolean value => mret (hasher ++ [1; if value then 1 else 0])
  | VInteger value => mret (hasher ++ [2] ++ le_bytes 8 value)
  | VFloatBits value => mret (hasher ++ [3] ++ le_bytes 8 value)
  | VBytes value => mret (hasher ++ [4] ++ csr_hash_bytes value)
  | VString value => mret (hasher ++ [5] ++ csr_hash_bytes (as_bytes value))
  | VList values =>
      (fix go values hasher :=
         match values with
         | [] => mret hasher
         | value :: values =>
             _ ← check_cancelled budget;
             hasher ← csr_hash_value value hasher;
             go values hasher
         end) values (hasher ++ [6] ++ le_bytes 8 (len values))
  | VMap values =>
      (fix go values hasher :=
         match values with
         | [] => mret hasher
         | (name, value) :: values =>
             _ ← check_cancelled budget;
             hasher ← csr_hash_value value (hasher ++ csr_hash_bytes (as_bytes name));
             go values hasher
         end) values (hasher ++ [7] ++ le_bytes 8 (len values))
  end.

Definition string_leb (s t : string) : bool :=
  match String.compare s t with Gt => false | _ => true end.

Definition hash_columns (columns : gmap string TypedPropertyColumn) (hasher : bytes) : projecting bytes :=
  sfor (λ '(name, column) hasher,
    _ ← check_cancelled budget;
    sfor (λ value hasher,
      _ ← check_cancelled budget;
      match value with
      | Some value => csr_hash_value value (hasher ++ [1])
      | None => mret (hasher ++ [0])
      end) (col_values column)
      (hasher ++ csr_hash_bytes (as_bytes name) ++ [property_type_tag (col_property_type column)]))
    (entries_by string_leb columns) hasher.

Definition hash_fence (p : ShardId * ShardSnapshotProvenance) : bytes :=
  le_bytes 8 p.1 ++ le_bytes 8 (sp_placement_epoch p.2) ++ le_bytes 8 (sp_backend_generation p.2) ++
  le_bytes 8 (sp_applied_index p.2) ++ le_bytes 8 (sp_closed_time p.2).
Definition hash_partition (p : PartitionProvenance) : bytes :=
  le_bytes 8 (pp_shard_id p) ++ le_bytes 8 (pp_placement_epoch p) ++ le_bytes 8 (pp_backend_generation p) ++
  le_bytes 8 (pp_applied_index p) ++ le_bytes 4 (pp_partition_index p) ++ le_bytes 4 (pp_partition_count p).

Definition content_digest (snapshot : SnapshotProvenance) (provenance : list PartitionProvenance)
    (vertex_ids : list VertexId) (offsets neighbors : list Z) (edge_ids : list EdgeId)
    (reverse : option ReverseCsr) (vertex_properties edge_properties : gmap string TypedPropertyColumn)
    : projecting Digest32 :=
  _ ← check_cancelled budget;
  h ← hash_each hash_fence (entries (sn_shards snapshot))
        (as_bytes "dtgproxy.snapshot-csr.v1" ++ le_bytes 16 (sn_transaction_id snapshot) ++
         le_bytes 8 (sn_start_time snapshot) ++ le_bytes 8 (sn_catalog_version snapshot));
  h ← hash_each hash_partition provenance h;
  h ← hash_each (le_bytes 16) vertex_ids h;
  h ← hash_each (le_bytes 8) offsets h;
  h ← hash_each (le_bytes 4) neighbors h;
  h ← hash_each (le_bytes 16) edge_ids h;
  h ← match reverse with
      | Some reverse =>
          h ← hash_each (le_bytes 8) (rv_offsets reverse) (h ++ [1]);
          h ← hash_each (le_bytes 4) (rv_neighbors reverse) h;
          hash_each (le_bytes 4) (rv_forward_edge_indices reverse) h
      | None => mret (h ++ [0])
      end;
  h ← hash_columns vertex_properties h;
  h ← hash_columns edge_properties h;
  mret (blake3 h).

(** ** Assembling *)

Definition assemble (parts : list ShardProjectionPart) (spec : ProjectionSpec) : projecting SnapshotCsr :=
  _ ← check_cancelled budget;
  estimated_bytes ← estimate_projection_bytes parts spec;
  budget_usage ← lift (reserve_budget estimated_bytes);
  snapshot ← validate_snapshots parts;
  partition_provenance ← validate_partitions parts snapshot;
  '(vertices, edges) ← sfor collect_part parts (∅, ∅);
  vertex_ids ← collect id (keys vertices);
  if 2 ^ 32 - 1 <? len vertex_ids then stop PjResourceLimit
  else
    vertex_indices ← index_vertices vertex_ids;
    canonical_edges ← order_edges vertex_indices edges;
    if 2 ^ 32 - 1 <? len canonical_edges then stop PjResourceLimit
    else
      offsets ← build_offsets (λ edge, index_of vertex_indices (pe_source edge)) (length vertex_ids)
                  canonical_edges;
      '(neighbors, edge_ids) ←
        sfor (λ edge '(neighbors, edge_ids),
          _ ← check_cancelled budget;
          neighbor ← index_of vertex_indices (pe_target edge);
          mret (neighbors ++ [neighbor], edge_ids ++ [pe_id edge])) canonical_edges ([], []);
      reverse ← (if ps_include_reverse spec
                 then reverse ← build_reverse (length vertex_ids) canonical_edges vertex_indices; mret (Some reverse)
                 else mret None);
      ordered_vertices ← sfor (λ vertex_id ordered,
                           _ ← check_cancelled budget;
                           vertex ← lift (ok_or ProjectionPanic (vertices !! vertex_id));
                           mret (ordered ++ [vertex])) vertex_ids [];
      vertex_properties ← build_columns (map pv_properties ordered_vertices) (ps_vertex_properties spec);
      edge_references ← collect id canonical_edges;
      edge_properties ← build_columns (map pe_properties edge_references) (ps_edge_properties spec);
      digest ← content_digest snapshot partition_provenance vertex_ids offsets neighbors edge_ids reverse
                 vertex_properties edge_properties;
      mret (mkCsr snapshot partition_provenance vertex_ids offsets neighbors edge_ids reverse
              vertex_properties edge_properties digest budget_usage).
End assemble.
