(* ===== verification/Csr.v ===== *)
(** * The assembled graph is the graph of the parts ([dtg-analytics/src/csr.rs])

    What a well-formed compressed graph is, what its algorithms may rely on, and the theorem that
    [assemble] builds one that holds exactly the vertices, edges and properties of its parts. *)

From S2P Require Import Prelude Text Kernel Storage Loops Projection.
Open Scope Z_scope.

(** ** Well-formed graphs *)

Definition vertex_count (csr : SnapshotCsr) : nat := length (csr_vertex_ids csr).

(** The edge at position [i] leads from vertex [u] to vertex [w]. *)
Definition edge_at (csr : SnapshotCsr) (i u w : nat) : Prop :=
  (∃ r, outgoing_range csr u = Some r ∧ i ∈ r) ∧ csr_neighbors csr !! i = Some (Z.of_nat w).
Definition edge (csr : SnapshotCsr) (u w : nat) : Prop := ∃ i, edge_at csr i u w.

(** The reverse half lists for every vertex exactly the edges that lead to it. *)
Definition reverse_wf (csr : SnapshotCsr) (reverse : ReverseCsr) : Prop :=
  (∀ w, is_Some (offset_range (rv_offsets reverse) w) → (w < vertex_count csr)%nat) ∧
  ∀ w, (w < vertex_count csr)%nat → ∃ r, offset_range (rv_offsets reverse) w = Some r ∧
    (∀ j, j ∈ r → ∃ i u, rv_neighbors reverse !! j = Some (Z.of_nat u) ∧
       rv_forward_edge_indices reverse !! j = Some (Z.of_nat i) ∧ edge_at csr i u w) ∧
    (∀ i u, edge_at csr i u w → ∃ j, j ∈ r ∧ rv_neighbors reverse !! j = Some (Z.of_nat u) ∧
       rv_forward_edge_indices reverse !! j = Some (Z.of_nat i)).

Record csr_wf (csr : SnapshotCsr) : Prop := {
  cw_ids : StronglySorted Z.lt (csr_vertex_ids csr);
  cw_range u : (u < vertex_count csr)%nat → ∃ r, outgoing_range csr u = Some r ∧
    ∀ i, i ∈ r → ∃ w, csr_neighbors csr !! i = Some (Z.of_nat w) ∧ (w < vertex_count csr)%nat;
  cw_vertex u : is_Some (outgoing_range csr u) → (u < vertex_count csr)%nat;
  cw_unique i u u' w w' : edge_at csr i u w → edge_at csr i u' w' → u = u';
  cw_edge_ids : length (csr_edge_ids csr) = length (csr_neighbors csr);
  cw_reverse reverse : csr_reverse csr = Some reverse → reverse_wf csr reverse;
}.

(** ** The rules of the loops *)

Section rules.
Context (budget : ProjectionBudget) (Q : ProjectionError → Prop).
Context (HQ : ∀ e, e ≠ ProjectionPanic → Q e).

Lemma swp_check (P : unit → Prop) : P tt → swp (check_cancelled budget) P Q.
Proof. intros HP n. unfold check_cancelled. destruct (pb_cancelled budget n); [by apply HQ|done]. Qed.

Lemma swp_collect {A B} (f : A → B) l (P : list B → Prop) :
  P (map f l) → swp (collect budget f l) P Q.
Proof.
  intros HP. unfold collect. apply (swp_mono _ (λ out, out = map f l) _ Q); [|by intros ? ->|done].
  apply (swp_for (λ pre out, out = map f pre)); [done|]. intros pre b post a _ ->. apply swp_bind, swp_check.
  apply swp_ret. by rewrite map_app.
Qed.

Lemma swp_add_offset offsets i amount (P : list Z → Prop) v :
  offsets !! i = Some v → P (<[i := v + amount]> offsets) → swp (add_offset offsets i amount) P Q.
Proof.
  intros Hi HP. unfold add_offset. apply swp_bind, swp_lift. rewrite Hi. cbn. apply swp_bind, swp_lift.
  unfold u64_add. destruct (_ <? _); [by apply swp_ret|by apply HQ].
Qed.
End rules.

(** ** Offsets *)

Definition count_lt (k : nat) (rows : list nat) : nat := length (base.filter (λ r, (r < k)%nat) rows).
Definition count_eq (k : nat) (rows : list nat) : nat := length (base.filter (λ r, r = k) rows).

Lemma count_lt_S k rows : count_lt (S k) rows = (count_lt k rows + count_eq k rows)%nat.
Proof.
  unfold count_lt, count_eq. induction rows as [|r rows IH]; [done|]. rewrite !filter_cons.
  repeat case_decide; cbn; lia.
Qed.
Lemma count_lt_0 rows : count_lt 0 rows = 0%nat.
Proof. unfold count_lt. induction rows as [|r rows IH]; [done|]. rewrite filter_cons. case_decide; [lia|done]. Qed.

Lemma count_eq_snoc k rows r :
  count_eq k (rows ++ [r]) = (count_eq k rows + if decide (r = k) then 1 else 0)%nat.
Proof. unfold count_eq. rewrite filter_app, length_app, filter_cons. by case_decide. Qed.
Lemma count_lt_none k rows : Forall (λ r, (k ≤ r)%nat) rows → count_lt k rows = 0%nat.
Proof.
  unfold count_lt. induction 1 as [|r rows Hr _ IH]; [done|]. rewrite filter_cons. case_decide; [lia|done].
Qed.
Lemma count_lt_cons k r rows :
  Forall (le r) rows → count_lt k (r :: rows) = if decide (r < k)%nat then S (count_lt k rows) else 0%nat.
Proof.
  intros Hr. case_decide as Hk.
  - unfold count_lt. by rewrite filter_cons, decide_True.
  - apply count_lt_none. constructor; [lia|]. eapply Forall_impl; [exact Hr|]. cbn. lia.
Qed.

Lemma sorted_rows rows k i :
  StronglySorted le rows → (count_lt k rows ≤ i < count_lt (S k) rows)%nat ↔ rows !! i = Some k.
Proof.
  intros Hs. revert i. induction Hs as [|r rows Hs IH Hr]; intros i.
  - rewrite lookup_nil. unfold count_lt. cbn. split; [lia|done].
  - rewrite !count_lt_cons by done. destruct i as [|i]; cbn.
    + repeat case_decide; split; intros Hx; try lia; try (injection Hx; lia). f_equal. lia.
    + rewrite <-IH. repeat case_decide; try lia.
      * rewrite (count_lt_none k rows); [lia|]. eapply Forall_impl; [exact Hr|]. cbn. lia.
      * rewrite (count_lt_none (S k) rows); [lia|]. eapply Forall_impl; [exact Hr|]. cbn. lia.
Qed.

(** The offsets count, for every row, the entries of the rows before it. *)
Lemma swp_build_offsets {A} budget Q (row_of : A → stateful nat ProjectionError Z) (row : A → nat) n l :
  (∀ e, e ≠ ProjectionPanic → Q e) →
  (∀ a, a ∈ l → (row a < n)%nat ∧ ∀ P : Z → Prop, P (Z.of_nat (row a)) → swp (row_of a) P Q) →
  swp (build_offsets budget row_of n l)
    (λ offsets, offsets = map (λ k, Z.of_nat (count_lt k (map row l))) (seq 0 (n + 1))) Q.
Proof.
  intros HQ Hrow. unfold build_offsets. apply swp_bind.
  eapply swp_mono; [apply (swp_for (λ pre offsets, length offsets = (n + 1)%nat ∧ offsets !! 0%nat = Some 0 ∧
    ∀ k, (k < n)%nat → offsets !! S k = Some (Z.of_nat (count_eq k (map row pre)))))| |done].
  - rewrite length_replicate, lookup_replicate_2 by lia. split; [done|]. split; [done|].
    intros k Hk. rewrite lookup_replicate_2 by lia. done.
  - intros pre a post offsets Hl (Hlen & H0 & Hk). destruct (Hrow a) as [Ha Hr].
    { rewrite Hl. apply elem_of_app. right. left. }
    apply swp_bind, (swp_check budget Q HQ), swp_bind, Hr. rewrite Nat2Z.id, Nat.add_1_r.
    eapply (swp_add_offset Q HQ); [by apply Hk|]. rewrite length_insert. split; [done|]. split.
    { by rewrite list_lookup_insert_ne. }
    intros k Hkn. rewrite map_app. cbn [map]. rewrite count_eq_snoc. case_decide as Hka.
    + subst k. rewrite list_lookup_insert_eq by lia. f_equal. lia.
    + rewrite list_lookup_insert_ne, Nat.add_0_r by lia. by apply Hk.
  - intros offsets (Hlen & H0 & Hk).
    eapply swp_mono; [apply (swp_for (λ pre offsets', length offsets' = (n + 1)%nat ∧
      (∀ k, (k ≤ length pre)%nat → offsets' !! k = Some (Z.of_nat (count_lt k (map row l)))) ∧
      ∀ k, (length pre < k)%nat → offsets' !! k = offsets !! k))| |done].
    + split; [done|]. split; [|done]. intros k Hk0. cbn in Hk0. replace k with 0%nat by lia. by rewrite count_lt_0.
    + intros pre i post offsets' Hseq (Hlen' & Hdone & Htodo).
      assert (i = S (length pre) ∧ (length pre < n)%nat) as [-> Hi].
      { assert (seq 1 n !! length pre = Some i) as Hi by (rewrite Hseq; by rewrite lookup_app_r, Nat.sub_diag by lia).
        apply lookup_seq in Hi. lia. }
      apply swp_bind, (swp_check budget Q HQ), swp_bind, swp_lift. cbn [Nat.sub]. rewrite Nat.sub_0_r.
      rewrite Hdone by lia. cbn. eapply (swp_add_offset Q HQ); [rewrite Htodo by lia; by apply Hk|].
      rewrite length_insert, length_app. cbn. split; [done|]. split.
      * intros k Hkk. destruct (decide (k = S (length pre))) as [->|].
        -- rewrite list_lookup_insert_eq by lia. f_equal. rewrite count_lt_S. lia.
        -- rewrite list_lookup_insert_ne by lia. apply Hdone. lia.
      * intros k Hkk. rewrite list_lookup_insert_ne by lia. apply Htodo. lia.
    + cbn. intros offsets' (Hlen' & Hdone & _). apply list_eq. intros k. rewrite length_seq in Hdone.
      rewrite (list_lookup_fmap (λ k, Z.of_nat (count_lt k (map row l)))).
      destruct (decide (k < n + 1)%nat) as [Hlt|Hge].
      * rewrite lookup_seq_lt by done. cbn. apply Hdone. lia.
      * rewrite lookup_seq_ge by lia. cbn. apply lookup_ge_None. lia.
Qed.

Lemma offset_range_rows rows n u :
  StronglySorted le rows →
  let offsets := map (λ k, Z.of_nat (count_lt k rows)) (seq 0 (n + 1)) in
  ((u < n)%nat → ∃ r, offset_range offsets u = Some r ∧ ∀ i, i ∈ r ↔ rows !! i = Some u) ∧
  (is_Some (offset_range offsets u) → (u < n)%nat).
Proof.
  intros Hs offsets.
  assert (∀ k, offsets !! k = (λ k, Z.of_nat (count_lt k rows)) <$> seq 0 (n + 1) !! k) as Hoff.
  { intros k. unfold offsets. apply list_lookup_fmap. }
  split.
  - intros Hu. unfold offset_range. rewrite !Hoff, !lookup_seq_lt by lia. cbn. eexists. split; [done|].
    intros i. rewrite elem_of_seq, !Nat2Z.id, <-(sorted_rows rows u i Hs). rewrite count_lt_S. lia.
  - unfold offset_range. intros [r Hr]. destruct (decide (u < n)%nat); [done|].
    rewrite !Hoff in Hr. destruct (seq 0 (n + 1) !! u) eqn:?; [|done]. cbn in Hr.
    rewrite lookup_seq_ge in Hr by lia. done.
Qed.

(** ** Maps filled without overwriting *)

Definition holds_all {A} (key : A → Z) (m : gmap Z A) (l : list A) : Prop :=
  NoDup (map key l) ∧ ∀ k a, m !! k = Some a ↔ a ∈ l ∧ key a = k.

Lemma holds_all_nil {A} (key : A → Z) : holds_all key ∅ [].
Proof. split; [constructor|]. intros k a. rewrite lookup_empty, elem_of_nil. naive_solver. Qed.
Lemma holds_all_insert {A} (key : A → Z) m l a :
  holds_all key m l → m !! key a = None → holds_all key (<[key a := a]> m) (l ++ [a]).
Proof.
  intros [Hnd Hm] Hnone. split.
  - rewrite map_app. apply NoDup_app. split; [done|]. split; [|apply NoDup_singleton].
    intros k (b & -> & Hb)%list_elem_of_fmap Hk. apply list_elem_of_singleton in Hk.
    rewrite <-Hk in Hnone. by rewrite (proj2 (Hm _ b)) in Hnone.
  - intros k b. rewrite elem_of_app, list_elem_of_singleton. destruct (decide (key a = k)) as [<-|Hne].
    + rewrite lookup_insert_eq. split; [intros [= ->]; auto|]. intros [[Hb|Hb] Hk]; [|by subst].
      by rewrite <-Hk, (proj2 (Hm _ b)) in Hnone.
    + rewrite lookup_insert_ne by done. rewrite Hm. naive_solver.
Qed.
Lemma holds_all_values {A} (key : A → Z) m l : holds_all key m l → values m ≡ₚ l.
Proof.
  intros [Hnd Hm]. unfold values. trans (map_to_list m).*2; [by apply fmap_Permutation, entries_perm|].
  assert (m = list_to_map (map (λ a, (key a, a)) l)) as ->.
  { apply map_eq. intros k. apply option_eq. intros a. rewrite Hm.
    rewrite <-elem_of_list_to_map.
    - rewrite list_elem_of_fmap. naive_solver.
    - rewrite <-list_fmap_compose. exact Hnd. }
  rewrite map_to_list_to_map by (rewrite <-list_fmap_compose; exact Hnd).
  rewrite <-list_fmap_compose. by rewrite list_fmap_id.
Qed.

(** ** Ordered keys *)

Lemma triple_leb_spec a b :
  triple_leb a b = true ↔
  a.1.1 < b.1.1 ∨ (a.1.1 = b.1.1 ∧ (a.1.2 < b.1.2 ∨ (a.1.2 = b.1.2 ∧ a.2 ≤ b.2))).
Proof.
  unfold triple_leb. cbn [lex_lt]. destruct a as [[a1 a2] a3], b as [[b1 b2] b3]. cbn.
  rewrite andb_false_r, orb_false_r. rewrite !orb_true_iff, !andb_true_iff, !orb_true_iff, !andb_true_iff.
  rewrite !Z.ltb_lt, !Z.eqb_eq, bool_decide_eq_true. split.
  - intros [[?|[? [?|[? ?]]]]|[= -> -> ->]]; lia.
  - intros [?|[-> [?|[-> ?]]]]; auto 10. destruct (decide (a3 = b3)) as [->|]; auto. left. right. split; [done|].
    right. lia.
Qed.

Lemma entries_by_sorted {V} (m : gmap (Z * Z * Z) V) :
  StronglySorted (λ p q, triple_leb p.1 q.1 = true) (entries_by triple_leb m).
Proof.
  unfold entries_by. apply sort_by_sorted.
  - intros [[[a1 a2] a3] ?] [[[b1 b2] b3] ?]. rewrite !triple_leb_spec. cbn. lia.
  - intros [[[a1 a2] a3] ?] [[[b1 b2] b3] ?] [[[c1 c2] c3] ?]. rewrite !triple_leb_spec. cbn. lia.
Qed.
Lemma NoDup_entries_by {V} (m : gmap (Z * Z * Z) V) : NoDup (entries_by triple_leb m).*1.
Proof.
  unfold entries_by. rewrite (fmap_Permutation _ _ _ (sort_by_perm _ _)). apply NoDup_fst_map_to_list.
Qed.

Section assemble_correct.
Context (blake3 : bytes → Digest32) (budget : ProjectionBudget) (Q : ProjectionError → Prop).
Context (HQ : ∀ e, e ≠ ProjectionPanic → Q e).

Lemma swp_insert_all {A} (key : A → Z) err l m0 l0 :
  err ≠ ProjectionPanic → holds_all key m0 l0 →
  swp (sfor (λ a m, _ ← check_cancelled budget;
         if bool_decide (is_Some (m !! key a)) then stop err else mret (<[key a := a]> m)) l m0)
    (λ m, holds_all key m (l0 ++ l)) Q.
Proof.
  intros He H0. apply (swp_for (λ pre m, holds_all key m (l0 ++ pre))); [by rewrite app_nil_r|].
  intros pre a post m _ Hm. apply swp_bind, (swp_check budget Q HQ).
  case_bool_decide as Hs; [by apply swp_stop, HQ|]. apply swp_ret. rewrite app_assoc.
  apply holds_all_insert; [done|]. by apply eq_None_not_Some.
Qed.

Definition all_vertices (parts : list ShardProjectionPart) : list ProjectedVertex := concat (map pt_vertices parts).
Definition all_edges (parts : list ShardProjectionPart) : list ProjectedEdge := concat (map pt_edges parts).

Lemma swp_collect_parts parts :
  swp (sfor (collect_part budget) parts (∅, ∅))
    (λ '(vertices, edges), holds_all pv_id vertices (all_vertices parts) ∧
       holds_all pe_id edges (all_edges parts)) Q.
Proof.
  apply (swp_for (λ pre '(vertices, edges), holds_all pv_id vertices (all_vertices pre) ∧
    holds_all pe_id edges (all_edges pre))).
  { split; apply holds_all_nil. }
  intros pre part post [vertices edges] _ [Hv He]. unfold collect_part. apply swp_bind, (swp_check budget Q HQ).
  apply swp_bind. eapply swp_mono; [by apply (swp_insert_all pv_id PjDuplicateVertex)| |done]. intros vertices' Hv'.
  apply swp_bind. eapply swp_mono; [by apply (swp_insert_all pe_id PjDuplicateEdge)| |done]. intros edges' He'.
  apply swp_ret. unfold all_vertices, all_edges. rewrite !map_app, !concat_app. cbn. by rewrite !app_nil_r.
Qed.

(** [indices] numbers the vertices of [ids]. *)
Definition numbers (indices : gmap Z Z) (ids : list Z) : Prop :=
  ∀ id z, indices !! id = Some z ↔ ∃ i : nat, z = Z.of_nat i ∧ ids !! i = Some id.

Lemma swp_index_vertices ids : NoDup ids → swp (index_vertices budget ids) (λ indices, numbers indices ids) Q.
Proof.
  intros Hnd. unfold index_vertices.
  eapply swp_mono; [apply (swp_for (λ pre indices, ∀ id z, indices !! id = Some z ↔
    ∃ i : nat, z = Z.of_nat i ∧ (i, id) ∈ pre))| |done].
  - intros id z. rewrite lookup_empty. split; [done|]. by intros (i & _ & ?%elem_of_nil).
  - intros pre [i id] post indices Hl HI. apply swp_bind, (swp_check budget Q HQ), swp_ret. intros id' z.
    setoid_rewrite elem_of_app. setoid_rewrite list_elem_of_singleton.
    assert (∀ j id, (j, id) ∈ zip (seq 0 (length ids)) ids → ids !! j = Some id) as Hzip.
    { intros j x (k & Hk)%list_elem_of_lookup_1. apply lookup_zip_with_Some in Hk as (a & b & [= -> ->] & Ha & Hb).
      apply lookup_seq in Ha as [-> _]. done. }
    destruct (decide (id = id')) as [<-|Hne].
    + rewrite lookup_insert_eq. split; [intros [= <-]; eauto|]. intros (j & -> & [Hj|[= ->]]); [|done].
      assert (j = i) as ->; [|done]. eapply NoDup_lookup; [exact Hnd| |]; apply Hzip; rewrite Hl; apply elem_of_app.
      * by left.
      * right. left.
    + rewrite lookup_insert_ne by done. rewrite HI. split; [naive_solver|].
      intros (j & -> & [Hj|[= -> ->]]); [eauto|done].
  - intros indices HI id z. cbn in HI. rewrite HI. split.
    + intros (i & -> & (k & Hk)%list_elem_of_lookup_1). exists i. split; [done|].
      apply lookup_zip_with_Some in Hk as (a & b & [= -> ->] & Ha & Hb). apply lookup_seq in Ha as [-> _]. done.
    + intros (i & -> & Hi). exists i. split; [done|]. apply (list_elem_of_lookup_2 _ i).
      apply lookup_zip_with_Some. exists i, id. split; [done|]. split; [|done].
      apply lookup_seq. split; [done|]. by apply lookup_lt_Some in Hi.
Qed.

(** The edges in the order of source, target and identifier. *)
Definition canonical (edges : list ProjectedEdge) : Prop :=
  StronglySorted (λ a b, triple_leb (edge_key a) (edge_key b) = true) edges.

Lemma swp_order_edges indices edges l :
  holds_all pe_id edges l →
  swp (order_edges budget indices edges)
    (λ canon, canon ≡ₚ l ∧ canonical canon ∧
       ∀ e, e ∈ canon → is_Some (indices !! pe_source e) ∧ is_Some (indices !! pe_target e)) Q.
Proof.
  intros Hall. pose proof (holds_all_values _ _ _ Hall) as Hperm. unfold order_edges. apply swp_bind.
  eapply swp_mono; [apply (swp_for (λ pre ordered, (∀ k e, ordered !! k = Some e ↔ e ∈ pre ∧ edge_key e = k) ∧
    ∀ e, e ∈ pre → is_Some (indices !! pe_source e) ∧ is_Some (indices !! pe_target e)))| |done].
  - split; [|by intros ? ?%elem_of_nil]. intros k e. rewrite lookup_empty, elem_of_nil. naive_solver.
  - intros pre e post ordered Hl [Ho Hin]. apply swp_bind, (swp_check budget Q HQ).
    case_bool_decide as Hs; cbn [negb orb]; [|by apply swp_stop, HQ].
    case_bool_decide as Ht; cbn [negb]; [|by apply swp_stop, HQ]. apply swp_ret. split.
    + intros k e'. rewrite elem_of_app, list_elem_of_singleton. destruct (decide (edge_key e = k)) as [<-|Hne].
      * rewrite lookup_insert_eq. split; [intros [= <-]; auto|]. intros [[Hp| ->] Hk]; [|done]. exfalso.
        assert (NoDup (map pe_id (values edges))) as Hnd.
        { rewrite (fmap_Permutation pe_id _ _ Hperm : map pe_id _ ≡ₚ map pe_id _). apply Hall. }
        rewrite Hl, map_app, NoDup_app in Hnd. destruct Hnd as (_ & Hnd & _).
        apply (Hnd (pe_id e')); [by apply (list_elem_of_fmap_2 pe_id)|]. injection Hk as _ _ ->. left.
      * rewrite lookup_insert_ne by done. rewrite Ho. naive_solver.
    + intros e' [He'|He']%elem_of_app; [by apply Hin|]. apply list_elem_of_singleton in He' as ->. done.
  - cbn. intros ordered [Ho Hin]. apply (swp_collect budget Q HQ). rewrite list_fmap_id.
    set (canon := (entries_by triple_leb ordered).*2).
    assert (∀ e, e ∈ canon ↔ e ∈ values edges) as Helem.
    { intros e. unfold canon. rewrite list_elem_of_fmap. split.
      - intros ([k e'] & -> & Hk%entries_by_elem_of%Ho). apply Hk.
      - intros He. exists (edge_key e, e). split; [done|]. by apply entries_by_elem_of, Ho. }
    assert (map edge_key canon = (entries_by triple_leb ordered).*1) as Hkeys.
    { unfold canon. rewrite <-list_fmap_compose. apply list_fmap_ext. intros i [k e] Hi. cbn.
      apply list_elem_of_lookup_2, entries_by_elem_of, Ho in Hi. apply Hi. }
    assert (NoDup canon) as Hnd.
    { apply (NoDup_fmap_1 edge_key). change (NoDup (map edge_key canon)). rewrite Hkeys. apply NoDup_entries_by. }
    split; [|split].
    + rewrite <-Hperm. apply NoDup_Permutation; [done| |done].
      apply (NoDup_fmap_1 pe_id). rewrite (fmap_Permutation pe_id _ _ Hperm). apply Hall.
    + unfold canonical. rewrite <-(list_fmap_id canon).
      apply (StronglySorted_map edge_key id (λ a b, triple_leb a b = true)); [done|]. rewrite Hkeys.
      apply (StronglySorted_map id fst (λ p q, triple_leb p.1 q.1 = true)); [done|].
      rewrite list_fmap_id. apply entries_by_sorted.
    + intros e He. by apply Hin, Helem.
Qed.

(** ** Numbers of vertices *)

Definition number (indices : gmap Z Z) (id : Z) : nat := Z.to_nat (default 0 (indices !! id)).

Lemma number_spec indices ids id :
  numbers indices ids → is_Some (indices !! id) →
  indices !! id = Some (Z.of_nat (number indices id)) ∧ ids !! number indices id = Some id.
Proof.
  intros Hn [z Hz]. unfold number. rewrite Hz. cbn. apply Hn in Hz as (i & -> & Hi). by rewrite Nat2Z.id.
Qed.
Lemma number_lt indices ids id :
  numbers indices ids → is_Some (indices !! id) → (number indices id < length ids)%nat.
Proof. intros Hn Hid. destruct (number_spec _ _ _ Hn Hid) as [_ Hl]. by apply lookup_lt_Some in Hl. Qed.
Lemma number_iff indices ids id u :
  numbers indices ids → is_Some (indices !! id) → number indices id = u ↔ ids !! u = Some id.
Proof.
  intros Hn Hid. split; [intros <-; by apply number_spec|]. intros Hu. unfold number.
  rewrite (proj2 (Hn id (Z.of_nat u))) by eauto. cbn. lia.
Qed.
Lemma number_mono indices ids id id' :
  StronglySorted Z.lt ids → numbers indices ids → is_Some (indices !! id) → is_Some (indices !! id') →
  id ≤ id' → (number indices id ≤ number indices id')%nat.
Proof.
  intros Hs Hn H1 H2 Hle. destruct (number_spec _ _ _ Hn H1) as [_ Hl1], (number_spec _ _ _ Hn H2) as [_ Hl2].
  destruct (decide (number indices id ≤ number indices id')%nat) as [|Hgt]; [done|].
  pose proof (StronglySorted_lookup_lt _ _ Hs _ _ _ _ Hl2 Hl1 ltac:(lia)). lia.
Qed.

Lemma swp_index_of indices ids id (P : Z → Prop) :
  numbers indices ids → is_Some (indices !! id) → P (Z.of_nat (number indices id)) → swp (index_of indices id) P Q.
Proof.
  intros Hn Hid HP. unfold index_of. apply swp_lift. destruct (number_spec _ _ _ Hn Hid) as [-> _]. done.
Qed.

(** ** The reverse half *)

Definition reverse_key (indices : gmap Z Z) (i : nat) (e : ProjectedEdge) : Z * Z * Z :=
  (Z.of_nat (number indices (pe_target e)), Z.of_nat (number indices (pe_source e)), Z.of_nat i).

(** The reverse half is made of the keys of the edges, in order. *)
Definition reverse_of (n : nat) (indices : gmap Z Z) (edges : list ProjectedEdge) (reverse : ReverseCsr) : Prop :=
  ∃ ks : list (Z * Z * Z), StronglySorted le (map (λ k, Z.to_nat k.1.1) ks) ∧ NoDup ks ∧
    (∀ k, k ∈ ks ↔ ∃ i e, edges !! i = Some e ∧ k = reverse_key indices i e) ∧
    rv_offsets reverse = map (λ k, Z.of_nat (count_lt k (map (λ k, Z.to_nat k.1.1) ks))) (seq 0 (n + 1)) ∧
    rv_neighbors reverse = map (λ k, k.1.2) ks ∧ rv_forward_edge_indices reverse = map (λ k, k.2) ks.

Lemma zip_seq_elem {A} (l : list A) i a : (i, a) ∈ zip (seq 0 (length l)) l ↔ l !! i = Some a.
Proof.
  split.
  - intros (k & Hk)%list_elem_of_lookup_1. apply lookup_zip_with_Some in Hk as (x & y & [= -> ->] & Hx & Hy).
    by apply lookup_seq in Hx as [-> _].
  - intros Hi. apply (list_elem_of_lookup_2 _ i). apply lookup_zip_with_Some. exists i, a. split; [done|].
    split; [|done]. apply lookup_seq. split; [done|]. by apply lookup_lt_Some in Hi.
Qed.

Lemma swp_build_reverse indices ids edges :
  numbers indices ids →
  (∀ e, e ∈ edges → is_Some (indices !! pe_source e) ∧ is_Some (indices !! pe_target e)) →
  swp (build_reverse budget (length ids) edges indices) (reverse_of (length ids) indices edges) Q.
Proof.
  intros Hn Hends. unfold build_reverse. apply swp_bind.
  eapply swp_mono; [apply (swp_for (λ pre (m : gmap (Z * Z * Z) unit),
    ∀ k, is_Some (m !! k) ↔ ∃ i e, (i, e) ∈ pre ∧ k = reverse_key indices i e))| |done].
  - intros k. rewrite lookup_empty. split; [by intros []|]. by intros (? & ? & ?%elem_of_nil & _).
  - intros pre [i e] post m Hl Hm. apply swp_bind, (swp_check budget Q HQ).
    destruct (Hends e) as [Hsrc Htgt].
    { apply (list_elem_of_lookup_2 _ i), zip_seq_elem. rewrite Hl. apply elem_of_app. right. left. }
    apply swp_bind, (swp_index_of _ ids); [done|done|]. apply swp_bind, (swp_index_of _ ids); [done|done|].
    apply swp_ret. intros k. setoid_rewrite elem_of_app. setoid_rewrite list_elem_of_singleton.
    change (Z.of_nat (number indices (pe_target e)), Z.of_nat (number indices (pe_source e)), Z.of_nat i)
      with (reverse_key indices i e).
    destruct (decide (reverse_key indices i e = k)) as [<-|Hne].
    + rewrite lookup_insert_eq. split; [eauto 10|done].
    + rewrite lookup_insert_ne by done. rewrite Hm. split; [naive_solver|].
      intros (j & e' & [Hp|[= -> ->]] & ->); [eauto|done].
  - cbn. intros m Hm. set (ks := (entries_by triple_leb m).*1).
    assert (∀ k, k ∈ ks ↔ ∃ i e, edges !! i = Some e ∧ k = reverse_key indices i e) as Hks.
    { intros k. unfold ks. rewrite list_elem_of_fmap. setoid_rewrite <-zip_seq_elem. rewrite <-Hm. split.
      - intros ([k' []] & -> & Hk%entries_by_elem_of). eauto.
      - intros [[] Hk]. exists (k, tt). split; [done|]. by apply entries_by_elem_of. }
    assert (∀ k, k ∈ ks → 0 ≤ k.1.1 ∧ (Z.to_nat k.1.1 < length ids)%nat) as Hrow.
    { intros k (i & e & He & ->)%Hks. cbn. rewrite Nat2Z.id. split; [lia|].
      apply number_lt; [done|]. apply Hends. by eapply list_elem_of_lookup_2. }
    assert (StronglySorted le (map (λ k, Z.to_nat k.1.1) ks)) as Hsorted.
    { unfold ks. change (map ?f (?g <$> ?l)) with (map f (map g l)). rewrite map_map.
      eapply (StronglySorted_map id); [|rewrite list_fmap_id; apply entries_by_sorted].
      intros p q Hpq%triple_leb_spec. cbn in Hpq. lia. }
    apply swp_bind. eapply swp_mono.
    + apply (swp_build_offsets budget Q _ (λ k : Z * Z * Z, Z.to_nat k.1.1)); [done|].
      intros k Hk. destruct (Hrow k Hk) as [H0 Hlt]. split; [done|]. intros P HP. apply swp_ret.
      by rewrite Z2Nat.id in HP.
    + intros offsets ->. apply swp_bind.
      eapply swp_mono; [apply (swp_for (λ pre '(neighbors, indices),
        neighbors = map (λ k, k.1.2) pre ∧ indices = map (λ k, k.2) pre))| |done].
      * done.
      * intros pre k post [neighbors fwd] _ [-> ->]. apply swp_bind, (swp_check budget Q HQ), swp_ret.
        by rewrite !map_app.
      * intros [neighbors fwd] [-> ->]. apply swp_ret. exists ks. split; [done|]. split; [apply NoDup_entries_by|done].
    + done.
Qed.

(** ** Columns *)

(** A column for every specification, with the value of every entity. *)
Definition columns_of (entities : list Properties) (specs : list PropertyColumnSpec)
    (columns : gmap string TypedPropertyColumn) : Prop :=
  ∀ pre spec post, specs = pre ++ spec :: post → cs_name spec ∉ map cs_name post →
    ∃ column, columns !! cs_name spec = Some column ∧ col_property_type column = cs_property_type spec ∧
      Forall2 (λ properties value, column_value spec properties = Ok value) entities (col_values column).

Lemma swp_build_columns entities specs : swp (build_columns budget entities specs) (columns_of entities specs) Q.
Proof.
  unfold build_columns. apply (swp_for (λ pre, columns_of entities pre)).
  { intros pre spec post H. by destruct pre. }
  intros pre spec post columns _ Hc. apply swp_bind, (swp_check budget Q HQ), swp_bind.
  eapply swp_mono; [apply (swp_for (λ pre values,
    Forall2 (λ properties value, column_value spec properties = Ok value) pre values))| |done].
  - constructor.
  - intros pre' properties post' values _ Hv. apply swp_bind, (swp_check budget Q HQ), swp_bind, swp_lift.
    destruct (column_value spec properties) as [value|e] eqn:Hcv.
    + apply swp_ret, Forall2_app; [done|]. by constructor.
    + apply HQ. intros ->. unfold column_value in Hcv. repeat case_match; done.
  - intros values Hv. apply swp_ret. intros pre' spec' post' Hl Hnot.
    destruct post' as [|s post' _] using rev_ind.
    + apply app_inj_tail in Hl as [-> ->]. exists (mkColumn (cs_property_type spec') values).
      by rewrite lookup_insert_eq.
    + rewrite app_comm_cons, app_assoc in Hl. apply app_inj_tail in Hl as [-> ->].
      rewrite map_app, not_elem_of_app in Hnot. destruct Hnot as [Hn1 Hn2]. cbn in Hn2.
      apply not_elem_of_cons in Hn2 as [Hn2 _]. rewrite lookup_insert_ne by congruence. by eapply Hc.
Qed.

(** ** Partitions *)

(** The partitions of a shard among the parts. *)
Definition shard_indices (shard : ShardId) (parts : list ShardProjectionPart) : list Z :=
  map (λ part, pp_partition_index (pt_provenance part))
    (base.filter (λ part, pp_shard_id (pt_provenance part) = shard) parts).

(** Every part belongs to a shard of the snapshot at its fence. *)
Definition fenced (snapshot : SnapshotProvenance) (part : ShardProjectionPart) : Prop :=
  ∃ fence, sn_shards snapshot !! pp_shard_id (pt_provenance part) = Some fence ∧
    pp_placement_epoch (pt_provenance part) = sp_placement_epoch fence ∧
    pp_backend_generation (pt_provenance part) = sp_backend_generation fence ∧
    pp_applied_index (pt_provenance part) = sp_applied_index fence.

Definition partitions_seen (parts : list ShardProjectionPart) (partitions : gmap Z (Z * gset Z)) : Prop :=
  ∀ shard, match partitions !! shard with
    | Some (count, indices) => NoDup (shard_indices shard parts) ∧ indices = list_to_set (shard_indices shard parts) ∧
        ∀ part, part ∈ parts → pp_shard_id (pt_provenance part) = shard → pp_partition_count (pt_provenance part) = count
    | None => shard_indices shard parts = []
    end.

Lemma shard_indices_snoc shard parts part :
  shard_indices shard (parts ++ [part]) = shard_indices shard parts ++
    if decide (pp_shard_id (pt_provenance part) = shard) then [pp_partition_index (pt_provenance part)] else [].
Proof. unfold shard_indices. rewrite filter_app, map_app, filter_cons. by case_decide. Qed.

Lemma swp_validate_partition snapshot parts part acc :
  partitions_seen parts acc.1 → Forall (fenced snapshot) parts →
  swp (validate_partition budget snapshot part acc)
    (λ acc, partitions_seen (parts ++ [part]) acc.1 ∧ Forall (fenced snapshot) (parts ++ [part])) Q.
Proof.
  destruct acc as [partitions provenance]. cbn [fst]. intros Hseen Hf. unfold validate_partition.
  apply swp_bind, (swp_check budget Q HQ), swp_bind, swp_lift. set (p := pt_provenance part).
  destruct (sn_shards snapshot !! pp_shard_id p) as [fence|] eqn:Hfence; [|by apply HQ]. cbn [ok_or].
  match goal with |- context [if ?c then stop PjPartitionFenceMismatch else _] => destruct c eqn:Hmatch end.
  { by apply swp_stop, HQ. }
  match goal with |- context [if ?c then stop PjPartitionGap else _] => destruct c eqn:Hrange end.
  { by apply swp_stop, HQ. }
  destruct (default _ _) as [count indices] eqn:Hdef.
  destruct (count =? pp_partition_count p) eqn:Hcount; cbn [negb]; [|by apply swp_stop, HQ]. case_bool_decide as Hin; [by apply swp_stop, HQ|].
  apply swp_ret. cbn [fst]. to_prop. split.
  - intros shard. rewrite shard_indices_snoc. fold p. specialize (Hseen shard).
    destruct (decide (pp_shard_id p = shard)) as [<-|Hne].
    + rewrite lookup_insert_eq. destruct (partitions !! pp_shard_id p) as [[count' indices']|] eqn:Hp; cbn in Hdef.
      * injection Hdef as -> ->. destruct Hseen as (Hnd & -> & Hcnt). split; [|split].
        -- apply NoDup_app. split; [done|]. split; [|apply NoDup_singleton]. intros i Hi Hi'.
           apply list_elem_of_singleton in Hi' as ->. apply Hin. by apply elem_of_list_to_set.
        -- rewrite list_to_set_app_L. cbn. set_solver.
        -- intros part' [Hpart|Hpart]%elem_of_app Hs; [by apply Hcnt|].
           apply list_elem_of_singleton in Hpart as ->. done.
      * injection Hdef as <- <-. rewrite Hseen. cbn. split; [apply NoDup_singleton|]. split; [set_solver|].
        intros part' [Hpart|Hpart]%elem_of_app Hs.
        -- exfalso. assert (pp_partition_index (pt_provenance part') ∈ shard_indices (pp_shard_id p) parts) as Hx.
           { unfold shard_indices. apply (list_elem_of_fmap_2 (λ part, pp_partition_index (pt_provenance part))).
             by apply list_elem_of_filter. }
           rewrite Hseen in Hx. by apply elem_of_nil in Hx.
        -- by apply list_elem_of_singleton in Hpart as ->.
    + rewrite lookup_insert_ne by done. rewrite app_nil_r. destruct (partitions !! shard) as [[count' indices']|]; [|done].
      destruct Hseen as (? & ? & Hcnt). split; [done|]. split; [done|].
      intros part' [Hpart|Hpart]%elem_of_app Hs; [by apply Hcnt|].
      apply list_elem_of_singleton in Hpart as ->. done.
  - apply Forall_app. split; [done|]. apply Forall_singleton. exists fence. repeat split; try done; apply Hmatch.
Qed.

(** Every partition of every shard is there once, and all parts are of the fenced snapshot. *)
Definition complete (snapshot : SnapshotProvenance) (parts : list ShardProjectionPart) : Prop :=
  Forall (fenced snapshot) parts ∧
  ∀ shard, is_Some (sn_shards snapshot !! shard) → ∃ count, shard_indices shard parts ≡ₚ seqZ 0 count.

Lemma swp_validate_partitions snapshot parts :
  swp (validate_partitions budget parts snapshot) (λ _, complete snapshot parts) Q.
Proof.
  unfold validate_partitions. apply swp_bind.
  eapply swp_mono; [apply (swp_for (λ pre acc, partitions_seen pre acc.1 ∧ Forall (fenced snapshot) pre))| |done].
  - split; [|done]. intros shard. cbn [fst]. by rewrite lookup_empty.
  - intros pre part post acc _ [Hs Hf]. by apply swp_validate_partition.
  - intros [partitions provenance] [Hs Hf]. cbn [fst] in Hs. destruct (negb _); [by apply swp_stop, HQ|].
    apply swp_bind. eapply swp_mono; [apply (swp_for (λ pre _, ∀ shard, shard ∈ pre →
      ∃ count, shard_indices shard parts ≡ₚ seqZ 0 count))| |done].
    + by intros ? ?%elem_of_nil.
    + intros pre shard post u _ Hpre. unfold complete_partitions. apply swp_bind, swp_lift.
      specialize (Hs shard). destruct (partitions !! shard) as [[count indices]|]; [|by apply HQ]. cbn [ok_or].
      destruct Hs as (Hnd & -> & _). destruct (_ =? count) eqn:Hsize; cbn [negb]; [|by apply swp_stop, HQ].
      apply Z.eqb_eq in Hsize.
      eapply swp_mono; [apply (swp_for (λ pre _, ∀ i, i ∈ pre → i ∈ shard_indices shard parts))| |done].
      * by intros ? ?%elem_of_nil.
      * intros pre' i post' u' _ Hpre'. apply swp_bind, (swp_check budget Q HQ).
        case_bool_decide as Hi; [|by apply swp_stop, HQ]. apply swp_ret.
        intros j [Hj|Hj]%elem_of_app; [by apply Hpre'|]. apply list_elem_of_singleton in Hj as ->.
        by rewrite elem_of_list_to_set in Hi.
      * intros u' Hin shard' [Hj|Hj]%elem_of_app; [by apply Hpre|]. apply list_elem_of_singleton in Hj as ->.
        exists count. symmetry. apply submseteq_length_Permutation.
        -- apply NoDup_submseteq; [apply NoDup_seqZ|done].
        -- rewrite length_seqZ. rewrite size_list_to_set in Hsize by done. lia.
    + cbn. intros _ Hall. apply (swp_collect budget Q HQ). split; [done|]. intros shard Hsh. by apply Hall, elem_of_keys.
Qed.

Lemma swp_validate_snapshots parts :
  swp (validate_snapshots budget parts) (λ snapshot, Forall (λ part, pt_snapshot part = snapshot) parts) Q.
Proof.
  unfold validate_snapshots. apply swp_bind, swp_lift. destruct (pt_snapshot <$> head parts) as [snapshot|]; [|by apply HQ].
  cbn [ok_or]. apply (swp_for (λ pre snapshot, Forall (λ part, pt_snapshot part = snapshot) pre)); [done|].
  intros pre part post s _ Hpre. apply swp_bind, (swp_check budget Q HQ).
  case_bool_decide as Heq; [|by apply swp_stop, HQ]. apply swp_ret, Forall_app. split; [done|]. by constructor.
Qed.

(** Computations that only count: they yield something or fail without a panic. *)
Definition harmless {A} (m : stateful nat ProjectionError A) : Prop := swp m (λ _, True) Q.

Lemma harmless_bind {A B} (m : stateful nat ProjectionError A) (k : A → stateful nat ProjectionError B) :
  harmless m → (∀ a, harmless (k a)) → harmless (m ≫= k).
Proof. intros Hm Hk. apply swp_bind. eapply swp_mono; [exact Hm| |done]. intros a _. apply Hk. Qed.
Lemma harmless_for {A B} (f : B → A → stateful nat ProjectionError A) l a :
  (∀ b a, harmless (f b a)) → harmless (sfor f l a).
Proof. intros Hf. apply swp_for_inv; [done|]. intros b a' _ _. apply Hf. Qed.
Lemma harmless_check : harmless (check_cancelled budget).
Proof. by apply (swp_check budget Q HQ). Qed.
Lemma harmless_ret {A} (a : A) : harmless (mret a).
Proof. by apply swp_ret. Qed.
Lemma harmless_lift {A} (m : result ProjectionError A) : m ≠ Err ProjectionPanic → harmless (lift m).
Proof. intros Hm. apply swp_lift. destruct m; [done|]. apply HQ. congruence. Qed.
Lemma usize_add_harmless a b : harmless (lift (usize_add a b)).
Proof. apply harmless_lift. unfold usize_add. by destruct (_ <? _). Qed.
Lemma usize_mul_harmless a b : harmless (lift (usize_mul a b)).
Proof. apply harmless_lift. unfold usize_mul. by destruct (_ <? _). Qed.

Ltac harmless_step :=
  first
    [ assumption | apply harmless_check | apply harmless_ret | apply usize_add_harmless | apply usize_mul_harmless
    | apply harmless_for; intros ? ? | apply harmless_bind; [|intros ?]
    | match goal with |- harmless (match ?x with _ => _ end) => destruct x end
    | match goal with |- harmless (match ?x with _ => _ end _) => destruct x end ].
Ltac harmless := repeat harmless_step.

Lemma harmless_value value : harmless (estimate_value_bytes budget value).
Proof.
  induction value as [| | | | | |values IH|values IH] using value_ind'; cbn [estimate_value_bytes]; harmless.
  - generalize 9. induction IH as [|value values Hv _ IHl]; intros bytes; harmless. apply IHl.
  - generalize 9. induction IH as [|[name value] values Hv _ IHl]; intros bytes; cbn [snd] in *; harmless. apply IHl.
Qed.
Lemma harmless_estimate parts spec : harmless (estimate_projection_bytes budget parts spec).
Proof.
  unfold estimate_projection_bytes, estimate_part, estimate_selected_properties. harmless; apply harmless_value.
Qed.
Lemma harmless_hash_value value hasher : harmless (csr_hash_value budget value hasher).
Proof.
  revert hasher. induction value as [| | | | | |values IH|values IH] using value_ind'; intros hasher;
    cbn [csr_hash_value]; harmless.
  - generalize (hasher ++ [6] ++ le_bytes 8 (len values)). induction IH as [|value values Hv _ IHl]; intros h; harmless.
    + apply Hv.
    + apply IHl.
  - generalize (hasher ++ [7] ++ le_bytes 8 (len values)).
    induction IH as [|[name value] values Hv _ IHl]; intros h; cbn [snd] in *; harmless.
    + apply Hv.
    + apply IHl.
Qed.
Lemma harmless_digest snapshot provenance ids offsets neighbors edge_ids reverse vp ep :
  harmless (content_digest blake3 budget snapshot provenance ids offsets neighbors edge_ids reverse vp ep).
Proof. unfold content_digest, hash_each, hash_columns. harmless; apply harmless_hash_value. Qed.

(** ** The graph that is put together *)

(** The edges in order, the numbers of their ends and the offsets of their sources. *)
Record laid_out (ids : list Z) (indices : gmap Z Z) (canon : list ProjectedEdge) (csr : SnapshotCsr) : Prop := {
  lo_ids : csr_vertex_ids csr = ids;
  lo_sorted : StronglySorted Z.lt ids;
  lo_numbers : numbers indices ids;
  lo_canonical : canonical canon;
  lo_ends e : e ∈ canon → is_Some (indices !! pe_source e) ∧ is_Some (indices !! pe_target e);
  lo_offsets : csr_offsets csr = map (λ k, Z.of_nat (count_lt k (map (λ e, number indices (pe_source e)) canon)))
    (seq 0 (length ids + 1));
  lo_neighbors : csr_neighbors csr = map (λ e, Z.of_nat (number indices (pe_target e))) canon;
  lo_edge_ids : csr_edge_ids csr = map pe_id canon;
  lo_reverse reverse : csr_reverse csr = Some reverse → reverse_of (length ids) indices canon reverse;
}.

Lemma laid_out_rows ids indices canon csr :
  laid_out ids indices canon csr → StronglySorted le (map (λ e, number indices (pe_source e)) canon).
Proof.
  intros [_ Hs Hn Hc He _ _ _ _]. unfold canonical in Hc. clear - Hs Hn Hc He.
  induction Hc as [|e canon Hc IH Hle]; cbn; [constructor|]. constructor.
  - apply IH. intros e' He'. apply He. by right.
  - apply Forall_forall. intros r (e' & -> & He')%list_elem_of_fmap.
    eapply number_mono; [done|done|apply He; left|apply He; by right|].
    rewrite Forall_forall in Hle. specialize (Hle e' He'). apply triple_leb_spec in Hle. cbn in Hle. lia.
Qed.

Lemma laid_out_edge ids indices canon csr i u w :
  laid_out ids indices canon csr →
  edge_at csr i u w ↔ ∃ e, canon !! i = Some e ∧ number indices (pe_source e) = u ∧ number indices (pe_target e) = w.
Proof.
  intros HL. pose proof (laid_out_rows _ _ _ _ HL) as Hrows.
  destruct (offset_range_rows _ (length ids) u Hrows) as [Hr1 Hr2].
  unfold edge_at, outgoing_range. rewrite (lo_offsets _ _ _ _ HL), (lo_neighbors _ _ _ _ HL).
  rewrite (list_lookup_fmap (λ e, Z.of_nat (number indices (pe_target e)))). split.
  - intros [(r & Hr & Hi) Hw]. destruct (canon !! i) as [e|] eqn:He; [|done]. cbn in Hw. exists e.
    destruct Hr1 as (r' & Hr' & Hin); [by apply Hr2|]. rewrite Hr in Hr'. injection Hr' as <-. apply Hin in Hi.
    rewrite (list_lookup_fmap (λ e, number indices (pe_source e))), He in Hi. cbn in Hi. naive_solver lia.
  - intros (e & He & Hu & Hw). rewrite He. cbn. rewrite Hw. split; [|done].
    destruct Hr1 as (r & Hr & Hin).
    { subst u. eapply number_lt; [apply HL|]. eapply (lo_ends _ _ _ _ HL), list_elem_of_lookup_2, He. }
    exists r. split; [done|]. apply Hin. rewrite (list_lookup_fmap (λ e, number indices (pe_source e))), He. cbn. by f_equal.
Qed.

Lemma laid_out_reverse ids indices canon csr reverse :
  laid_out ids indices canon csr → csr_reverse csr = Some reverse → reverse_wf csr reverse.
Proof.
  intros HL Hrev. pose proof (lo_reverse _ _ _ _ HL _ Hrev) as (ks & Hs & _ & Hks & Hoff & Hnb & Hfw).
  unfold reverse_wf, vertex_count. rewrite (lo_ids _ _ _ _ HL). split.
  { intros w. rewrite Hoff. apply (offset_range_rows _ (length ids) w Hs). }
  intros w Hw.
  destruct (offset_range_rows _ (length ids) w Hs) as [Hr _]. destruct (Hr Hw) as (r & Hr' & Hin).
  rewrite Hoff, Hnb, Hfw. exists r. split; [done|].
  assert (∀ j, j ∈ r ↔ ∃ k, ks !! j = Some k ∧ Z.to_nat k.1.1 = w) as Hrow.
  { intros j. rewrite Hin, (list_lookup_fmap (λ k : Z * Z * Z, Z.to_nat k.1.1)). rewrite fmap_Some. naive_solver. }
  split.
  - intros j (k & Hj & Hk)%Hrow.
    assert (k ∈ ks) as (i & e & He & ->)%Hks by by eapply list_elem_of_lookup_2. cbn in Hk. rewrite Nat2Z.id in Hk.
    exists i, (number indices (pe_source e)).
    rewrite (list_lookup_fmap (λ k : Z * Z * Z, k.1.2)), (list_lookup_fmap (λ k : Z * Z * Z, k.2)), Hj. cbn.
    split; [done|]. split; [done|]. apply (laid_out_edge _ _ _ _ _ _ _ HL). eauto.
  - intros i u (e & He & Hu & Hw')%(laid_out_edge _ _ _ _ _ _ _ HL).
    assert (reverse_key indices i e ∈ ks) as (j & Hj)%list_elem_of_lookup_1 by (apply Hks; eauto).
    exists j. rewrite (list_lookup_fmap (λ k : Z * Z * Z, k.1.2)), (list_lookup_fmap (λ k : Z * Z * Z, k.2)), Hj. cbn.
    split; [apply Hrow; exists (reverse_key indices i e); cbn; by rewrite Nat2Z.id|]. by rewrite Hu.
Qed.

(** The reverse half lists every edge once. *)
Lemma laid_out_reverse_length ids indices canon csr reverse :
  laid_out ids indices canon csr → csr_reverse csr = Some reverse → (length (rv_neighbors reverse) ≤ length canon)%nat.
Proof.
  intros HL Hrev. pose proof (lo_reverse _ _ _ _ HL _ Hrev) as (ks & _ & Hnd & Hks & _ & Hnb & _).
  rewrite Hnb, length_map, <-(length_imap (λ i e, reverse_key indices i e) canon).
  apply submseteq_length, NoDup_submseteq; [done|]. intros k (i & e & He & ->)%Hks.
  apply (list_elem_of_lookup_2 _ i). by rewrite list_lookup_imap, He.
Qed.

Lemma laid_out_wf ids indices canon csr : laid_out ids indices canon csr → csr_wf csr.
Proof.
  intros HL. pose proof (laid_out_rows _ _ _ _ HL) as Hrows. unfold vertex_count. split.
  - rewrite (lo_ids _ _ _ _ HL). apply HL.
  - intros u Hu. unfold vertex_count in *. rewrite (lo_ids _ _ _ _ HL) in *.
    destruct (offset_range_rows _ (length ids) u Hrows) as [Hr _]. destruct (Hr Hu) as (r & Hr' & Hin).
    exists r. unfold outgoing_range. rewrite (lo_offsets _ _ _ _ HL). split; [done|]. intros i Hi%Hin.
    rewrite (list_lookup_fmap (λ e, number indices (pe_source e))) in Hi. apply fmap_Some in Hi as (e & He & _).
    exists (number indices (pe_target e)). rewrite (lo_neighbors _ _ _ _ HL).
    rewrite (list_lookup_fmap (λ e, Z.of_nat (number indices (pe_target e)))), He. split; [done|].
    eapply number_lt; [apply HL|]. eapply (lo_ends _ _ _ _ HL), list_elem_of_lookup_2, He.
  - intros u. unfold vertex_count, outgoing_range. rewrite (lo_offsets _ _ _ _ HL), (lo_ids _ _ _ _ HL).
    apply (offset_range_rows _ (length ids) u Hrows).
  - intros i u u' w w'. rewrite !(laid_out_edge _ _ _ _ _ _ _ HL). naive_solver.
  - rewrite (lo_edge_ids _ _ _ _ HL), (lo_neighbors _ _ _ _ HL). by rewrite !length_map.
  - intros reverse. by apply (laid_out_reverse ids indices canon).
Qed.

(** [csr] is the graph of the parts: their vertices and edges and the selected properties, each once. *)
(** Vertices and edges are numbered with 32 bits, and the reverse half lists no more edges. *)
Definition addressable (csr : SnapshotCsr) : Prop :=
  Z.of_nat (length (csr_vertex_ids csr)) < 2 ^ 32 ∧ Z.of_nat (length (csr_edge_ids csr)) < 2 ^ 32 ∧
  ∀ reverse, csr_reverse csr = Some reverse → (length (rv_neighbors reverse) ≤ length (csr_edge_ids csr))%nat.

Record represents (parts : list ShardProjectionPart) (spec : ProjectionSpec) (csr : SnapshotCsr) : Prop := {
  rp_wf : csr_wf csr;
  rp_snapshot : Forall (λ part, pt_snapshot part = csr_snapshot csr) parts;
  rp_complete : complete (csr_snapshot csr) parts;
  rp_vertices : ∃ vertices, vertices ≡ₚ all_vertices parts ∧ csr_vertex_ids csr = map pv_id vertices ∧
    columns_of (map pv_properties vertices) (ps_vertex_properties spec) (csr_vertex_properties csr);
  rp_edges : ∃ edges, edges ≡ₚ all_edges parts ∧ canonical edges ∧ csr_edge_ids csr = map pe_id edges ∧
    columns_of (map pe_properties edges) (ps_edge_properties spec) (csr_edge_properties csr) ∧
    ∀ i u w, edge_at csr i u w ↔ ∃ e, edges !! i = Some e ∧
      csr_vertex_ids csr !! u = Some (pe_source e) ∧ csr_vertex_ids csr !! w = Some (pe_target e);
  rp_reverse : is_Some (csr_reverse csr) ↔ ps_include_reverse spec = true;
  rp_memory : bu_memory_bytes (csr_budget_usage csr) ≤ pb_max_memory_bytes budget;
  rp_spill : bu_spill_bytes (csr_budget_usage csr) ≤ pb_max_spill_bytes budget;
  rp_addressable : addressable csr;
}.

Lemma swp_reserve estimated :
  swp (lift (reserve_budget budget estimated) : stateful nat ProjectionError BudgetUsage)
    (λ usage, bu_memory_bytes usage ≤ pb_max_memory_bytes budget ∧
       bu_spill_bytes usage ≤ pb_max_spill_bytes budget) Q.
Proof.
  apply swp_lift. unfold reserve_budget. destruct (_ <? _) eqn:Hs; [by apply HQ|]. cbn. lia.
Qed.

Lemma swp_neighbors indices ids canon :
  numbers indices ids →
  (∀ e, e ∈ canon → is_Some (indices !! pe_source e) ∧ is_Some (indices !! pe_target e)) →
  swp (sfor (λ edge '(neighbors, edge_ids),
         _ ← check_cancelled budget;
         neighbor ← index_of indices (pe_target edge);
         mret (neighbors ++ [neighbor], edge_ids ++ [pe_id edge])) canon ([], []))
    (λ p, p = (map (λ e, Z.of_nat (number indices (pe_target e))) canon, map pe_id canon)) Q.
Proof.
  intros Hn He. apply (swp_for (λ pre p, p = (map (λ e, Z.of_nat (number indices (pe_target e))) pre, map pe_id pre))).
  { done. }
  intros pre e post [neighbors edge_ids] Hl [= -> ->]. apply swp_bind, (swp_check budget Q HQ).
  apply swp_bind, (swp_index_of _ ids); [done|apply He; rewrite Hl; apply elem_of_app; right; left|].
  apply swp_ret. by rewrite !map_app.
Qed.

Lemma swp_ordered (vertices : gmap Z ProjectedVertex) :
  swp (sfor (λ vertex_id ordered,
         _ ← check_cancelled budget;
         vertex ← lift (ok_or ProjectionPanic (vertices !! vertex_id));
         mret (ordered ++ [vertex])) (keys vertices) [])
    (λ ordered, ordered = values vertices) Q.
Proof.
  eapply swp_mono; [apply (swp_for (λ pre ordered, (vertices !!.) <$> pre = Some <$> ordered))| |done].
  - done.
  - intros pre id post ordered Hl Hpre. apply swp_bind, (swp_check budget Q HQ), swp_bind, swp_lift.
    assert (is_Some (vertices !! id)) as [v Hv].
    { apply elem_of_keys. rewrite Hl. apply elem_of_app. right. left. }
    rewrite Hv. cbn. apply swp_ret. rewrite !fmap_app, Hpre. cbn. by rewrite Hv.
  - cbn. intros ordered Ho. apply (inj (fmap Some)). rewrite <-Ho. unfold keys, values.
    rewrite <-!list_fmap_compose. apply list_fmap_ext. intros i [id v] Hi. cbn.
    by apply list_elem_of_lookup_2, elem_of_entries in Hi.
Qed.

Lemma swp_offsets indices ids canon :
  numbers indices ids →
  (∀ e, e ∈ canon → is_Some (indices !! pe_source e) ∧ is_Some (indices !! pe_target e)) →
  swp (build_offsets budget (λ edge, index_of indices (pe_source edge)) (length ids) canon)
    (λ offsets, offsets = map (λ k, Z.of_nat (count_lt k (map (λ e, number indices (pe_source e)) canon)))
       (seq 0 (length ids + 1))) Q.
Proof.
  intros Hn He. apply (swp_build_offsets budget Q _ (λ e, number indices (pe_source e))); [done|].
  intros e Hin. destruct (He e Hin) as [Hs _]. split; [by eapply number_lt|].
  intros P HP. by apply (swp_index_of _ ids).
Qed.

Lemma swp_reverse include indices ids canon :
  numbers indices ids →
  (∀ e, e ∈ canon → is_Some (indices !! pe_source e) ∧ is_Some (indices !! pe_target e)) →
  swp (if include : bool then reverse ← build_reverse budget (length ids) canon indices; mret (Some reverse)
       else mret None)
    (λ reverse, (is_Some reverse ↔ include = true) ∧
       ∀ rev, reverse = Some rev → reverse_of (length ids) indices canon rev) Q.
Proof.
  intros Hn He. destruct include.
  - apply swp_bind. eapply swp_mono; [by apply swp_build_reverse| |done]. intros rev Hrev. apply swp_ret. naive_solver.
  - apply swp_ret. split; [|done]. split; [by intros []|done].
Qed.

Lemma swp_assemble parts spec : swp (assemble blake3 budget parts spec) (represents parts spec) Q.
Proof.
  unfold assemble. apply swp_bind, (swp_check budget Q HQ).
  apply swp_bind. eapply swp_mono; [apply harmless_estimate| |done]. intros estimated _.
  apply swp_bind. eapply swp_mono; [apply swp_reserve| |done]. intros usage [Hmem Hspill].
  apply swp_bind. eapply swp_mono; [apply swp_validate_snapshots| |done]. intros snapshot Hsnap.
  apply swp_bind. eapply swp_mono; [apply swp_validate_partitions| |done]. intros provenance Hcomplete.
  apply swp_bind. eapply swp_mono; [apply swp_collect_parts| |done]. intros [vertices edges] [Hv He].
  apply swp_bind, (swp_collect budget Q HQ). rewrite list_fmap_id. destruct (_ <? len (keys _)) eqn:Hids; [by apply swp_stop, HQ|].
  apply swp_bind. eapply swp_mono; [apply swp_index_vertices, NoDup_keys| |done]. intros indices Hn.
  apply swp_bind. eapply swp_mono; [by apply swp_order_edges| |done]. intros canon (Hperm & Hcanon & Hends).
  destruct (_ <? len canon) eqn:Hcount; [by apply swp_stop, HQ|].
  apply swp_bind. eapply swp_mono; [by apply swp_offsets| |done]. intros offsets Hoff.
  apply swp_bind. eapply swp_mono; [by apply (swp_neighbors _ (keys vertices))| |done]. intros [neighbors edge_ids] [= -> ->].
  apply swp_bind. eapply swp_mono; [by apply swp_reverse| |done]. intros reverse [Hinc Hrev].
  apply swp_bind. eapply swp_mono; [apply swp_ordered| |done]. intros ordered ->.
  apply swp_bind. eapply swp_mono; [apply swp_build_columns| |done]. intros vp Hvp.
  apply swp_bind, (swp_collect budget Q HQ). rewrite list_fmap_id.
  apply swp_bind. eapply swp_mono; [apply swp_build_columns| |done]. intros ep Hep.
  apply swp_bind. eapply swp_mono; [apply harmless_digest| |done]. intros digest _. apply swp_ret.
  set (csr := mkCsr _ _ _ _ _ _ _ _ _ _ _).
  assert (laid_out (keys vertices) indices canon csr) as HL.
  { split; try done. apply keys_sorted. }
  split; try done.
  - by eapply laid_out_wf.
  - exists (values vertices). split; [by apply (holds_all_values pv_id)|]. split; [|done]. cbn.
    unfold keys, values. rewrite <-list_fmap_compose. apply list_fmap_ext. intros i [id v] Hi. cbn.
    apply list_elem_of_lookup_2, elem_of_entries, Hv in Hi. naive_solver.
  - exists canon. split; [done|]. split; [done|]. split; [done|]. split; [done|]. intros i u w.
    rewrite (laid_out_edge _ _ _ _ _ _ _ HL). cbn.
    split; intros (e & Hi & Hu & Hw); exists e; split; try done;
      (destruct (Hends e) as [Hs Ht]; [by eapply list_elem_of_lookup_2|]); by rewrite !(number_iff _ _ _ _ Hn) in *.
  - unfold addressable. cbn. rewrite length_map. unfold len in *. split; [lia|]. split; [lia|]. intros rev Hr.
    by apply (laid_out_reverse_length _ _ _ _ _ HL).
Qed.
End assemble_correct.


(** ** Sample graphs *)

(** A graph of one part: its vertices, and edges with identifier, source, target, departure and arrival. *)
Definition sample_part (vertices : list Z) (edges : list (Z * Z * Z * Z * Z)) : ShardProjectionPart :=
  mkPart (mkSnapshotProvenance 1 0 1 {[1 := mkShardProvenance 1 1 0 0]}) (mkPartition 1 1 1 0 0 1)
    (map (λ id, mkProjectedVertex id []) vertices)
    (map (λ '(id, source, target, departure, arrival),
       mkProjectedEdge id source target [("arrival"%string, VInteger arrival); ("departure"%string, VInteger departure)])
       edges).
Definition sample_spec : ProjectionSpec :=
  mkProjectionSpec true [] [mkColumnSpec "departure" TyInteger true; mkColumnSpec "arrival" TyInteger true].
Definition sample_budget : ProjectionBudget := mkProjectionBudget 1000000 0 (λ _, false).
Definition sample_run (vertices : list Z) (edges : list (Z * Z * Z * Z * Z)) : result ProjectionError (SnapshotCsr * nat) :=
  assemble (λ _, []) sample_budget [sample_part vertices edges] sample_spec 0%nat.
Definition sample_graph (vertices : list Z) (edges : list (Z * Z * Z * Z * Z)) : SnapshotCsr :=
  match sample_run vertices edges with
  | Ok (csr, _) => csr
  | Err _ => mkCsr (mkSnapshotProvenance 0 0 0 ∅) [] [] [] [] [] None ∅ ∅ [] (mkBudgetUsage 0 0)
  end.

Lemma sample_wf vertices edges : is_ok (sample_run vertices edges) = true → csr_wf (sample_graph vertices edges).
Proof.
  unfold sample_graph, sample_run.
  pose proof (swp_assemble (λ _, []) sample_budget (λ _, True) (λ _ _, I) [sample_part vertices edges] sample_spec 0%nat) as H.
  destruct (assemble _ _ _ _ _) as [[csr n]|e]; [|done]. intros _. apply H.
Qed.
