(* ===== verification/Analytics.v ===== *)
(** * Running built-in algorithms ([dtg-analytics/src/catalog.rs])

    The catalog of the algorithms, requests, results and errors, and the guard that charges every
    algorithm for the memory and the work it does.  A floating point number is one of [SpecFloat],
    rounded to binary64. *)

From Stdlib Require Import Floats.SpecFloat.
From S2P Require Import Prelude Text Kernel Storage Loops Projection Csr.
Open Scope Z_scope.

(** ** Numbers *)

Abbreviation f64 := spec_float.
Definition f64_add : f64 → f64 → f64 := SFadd 53 1024.
Definition f64_sub : f64 → f64 → f64 := SFsub 53 1024.
Definition f64_mul : f64 → f64 → f64 := SFmul 53 1024.
Definition f64_div : f64 → f64 → f64 := SFdiv 53 1024.
(** [z as f64] of an integer: the nearest number, ties to even. *)
Definition as_f64 (z : Z) : f64 := binary_normalize 53 1024 z 0 false.
(** [is_finite]. *)
Definition is_finite (x : f64) : bool :=
  match x with S754_zero _ | S754_finite _ _ _ => true | _ => false end.
(** [f64::from_bits]: sign, 11 bits of exponent, 52 bits of mantissa; the payload of a NaN is not kept. *)
Definition from_bits (bits : Z) : f64 :=
  let sign := Z.testbit bits 63 in
  let exponent := Z.land (Z.shiftr bits 52) (2 ^ 11 - 1) in
  let mantissa := Z.land bits (2 ^ 52 - 1) in
  if exponent =? 2 ^ 11 - 1 then
    if mantissa =? 0 then S754_infinity sign else S754_nan
  else
    match (if exponent =? 0 then mantissa else mantissa + 2 ^ 52) with
    | Z.pos m => S754_finite sign m (Z.max exponent 1 - 1075)
    | _ => S754_zero sign
    end.

(** [usize::saturating_mul]. *)
Definition saturating_mul (a b : Z) : Z := Z.min (a * b) (2 ^ 64 - 1).

(** ** The catalog *)

Inductive BuiltInAlgorithmId :=
| BreadthFirstSearch | DepthFirstSearch | BoundedSingleSourceShortestPath | BoundedAllPairsShortestPaths
| StronglyConnectedComponents | WeaklyConnectedComponents | PageRank | DegreeCentrality | ClosenessCentrality
| BetweennessCentrality | TriangleCount | ClusteringCoefficient | KCore | LabelPropagation | Louvain
| EarliestArrival | LatestDeparture | TemporalReachability | TemporalMotif | ChangePoint.
#[export] Instance BuiltInAlgorithmId_eq_dec : EqDecision BuiltInAlgorithmId.
Proof. solve_decision. Defined.

(** [TryFrom<&str> for BuiltInAlgorithmId]. *)
Definition algorithm_of_name (value : string) : option BuiltInAlgorithmId :=
  if bool_decide (value = "bfs") then Some BreadthFirstSearch
  else if bool_decide (value = "dfs") then Some DepthFirstSearch
  else if bool_decide (value = "bounded_sssp") then Some BoundedSingleSourceShortestPath
  else if bool_decide (value = "bounded_apsp") then Some BoundedAllPairsShortestPaths
  else if bool_decide (value = "strongly_connected_components") then Some StronglyConnectedComponents
  else if bool_decide (value = "weakly_connected_components") then Some WeaklyConnectedComponents
  else if bool_decide (value = "page_rank") then Some PageRank
  else if bool_decide (value = "degree_centrality") then Some DegreeCentrality
  else if bool_decide (value = "closeness_centrality") then Some ClosenessCentrality
  else if bool_decide (value = "betweenness_centrality") then Some BetweennessCentrality
  else if bool_decide (value = "triangle_count") then Some TriangleCount
  else if bool_decide (value = "clustering_coefficient") then Some ClusteringCoefficient
  else if bool_decide (value = "k_core") then Some KCore
  else if bool_decide (value = "label_propagation") then Some LabelPropagation
  else if bool_decide (value = "louvain") then Some Louvain
  else if bool_decide (value = "earliest_arrival") then Some EarliestArrival
  else if bool_decide (value = "latest_departure") then Some LatestDeparture
  else if bool_decide (value = "temporal_reachability") then Some TemporalReachability
  else if bool_decide (value = "temporal_motif") then Some TemporalMotif
  else if bool_decide (value = "change_point") then Some ChangePoint
  else None.

Definition algorithm_name (self : BuiltInAlgorithmId) : string :=
  match self with
  | BreadthFirstSearch => "bfs"
  | DepthFirstSearch => "dfs"
  | BoundedSingleSourceShortestPath => "bounded_sssp"
  | BoundedAllPairsShortestPaths => "bounded_apsp"
  | StronglyConnectedComponents => "strongly_connected_components"
  | WeaklyConnectedComponents => "weakly_connected_components"
  | PageRank => "page_rank"
  | DegreeCentrality => "degree_centrality"
  | ClosenessCentrality => "closeness_centrality"
  | BetweennessCentrality => "betweenness_centrality"
  | TriangleCount => "triangle_count"
  | ClusteringCoefficient => "clustering_coefficient"
  | KCore => "k_core"
  | LabelPropagation => "label_propagation"
  | Louvain => "louvain"
  | EarliestArrival => "earliest_arrival"
  | LatestDeparture => "latest_departure"
  | TemporalReachability => "temporal_reachability"
  | TemporalMotif => "temporal_motif"
  | ChangePoint => "change_point"
  end.

Inductive CsrShape := Forward | ForwardAndReverse.
#[export] Instance CsrShape_eq_dec : EqDecision CsrShape.
Proof. solve_decision. Defined.

Inductive DeterministicTieBreak := StableVertexThenEdgeId.

Record AlgorithmDescriptor := mkDescriptor {
  ad_id : BuiltInAlgorithmId;
  ad_required_shape : CsrShape;
  ad_required_edge_properties : list string;
  ad_deterministic : bool;
  ad_tie_break : DeterministicTieBreak;
  ad_max_memory_bytes : Z;
  ad_max_iterations : Z;
  ad_cancellation_check_interval : Z;
  ad_supports_distributed_partial : bool;
  ad_result_schema_version : Z;
  ad_checkpoint_schema_version : Z;
}.

Definition descriptor (id : BuiltInAlgorithmId) : AlgorithmDescriptor :=
  let '(required_shape, required_edge_properties, supports_distributed_partial) :=
    match id with
    | StronglyConnectedComponents | WeaklyConnectedComponents | DegreeCentrality | ClusteringCoefficient
    | KCore | LabelPropagation | Louvain => (ForwardAndReverse, [], false)
    | LatestDeparture => (ForwardAndReverse, ["departure"; "arrival"]%string, false)
    | EarliestArrival | TemporalReachability | TemporalMotif =>
        (Forward, ["departure"; "arrival"]%string, false)
    | ChangePoint => (Forward, ["event_time"; "signal"]%string, true)
    | BoundedSingleSourceShortestPath | BoundedAllPairsShortestPaths => (Forward, ["weight"]%string, false)
    | PageRank | TriangleCount | BetweennessCentrality | ClosenessCentrality | BreadthFirstSearch
    | DepthFirstSearch => (Forward, [], false)
    end in
  mkDescriptor id required_shape required_edge_properties true StableVertexThenEdgeId
    (256 * 1024 * 1024) 10000 1 supports_distributed_partial 1 1.

Record AlgorithmRequest := mkRequest {
  ar_algorithm : BuiltInAlgorithmId;
  ar_source : option VertexId;
  ar_target : option VertexId;
  ar_max_depth : Z;
  ar_max_pairs : Z;
  ar_iterations : Z;
  ar_k : Z;
  ar_damping : f64;
  ar_weight_property : option string;
  ar_departure_property : option string;
  ar_arrival_property : option string;
  ar_event_time_property : option string;
  ar_signal_property : option string;
  ar_time_start : option Z;
  ar_time_end : option Z;
  ar_change_threshold : f64;
}.

(** 0.85 is the number with the bits 0x3FEB333333333333. *)
Definition AlgorithmRequest_new (algorithm : BuiltInAlgorithmId) : AlgorithmRequest :=
  mkRequest algorithm None None 64 4096 20 2 (from_bits 4605831338911806259) None None None None None None None
    (S754_zero false).

(** ** Results and errors *)

Record TemporalPathResult := mkTemporalPath {
  tp_vertices : list VertexId;
  tp_edge_ids : list EdgeId;
  tp_departure_time : Z;
  tp_arrival_time : Z;
}.

Inductive AlgorithmResult :=
| Traversal (order : list VertexId)
| Distances (distances : gmap VertexId f64)
| AllPairs (distances : gmap (VertexId * VertexId) f64)
| Components (components : list (list VertexId))
| Scores (scores : gmap VertexId f64)
| Count (count : Z)
| CoreNumbers (cores : gmap VertexId Z)
| Communities (labels : gmap VertexId Z)
| TemporalPath (path : option TemporalPathResult)
| Reachable (vertices : list VertexId)
| ChangePoints (edges : list EdgeId).

(** The last two are no values of the source: an index out of range, and a loop that ran out of the
    fuel it is modelled with. *)
Inductive AnalyticsError :=
| AnCancelled | AnResourceLimit | AnIterationLimit | AnInvalidRequest | AnMissingProperty | AnInvalidProperty
| AnMissingReverseCsr | AnalyticsPanic | AnalyticsOutOfFuel.
#[export] Instance AnalyticsError_eq_dec : EqDecision AnalyticsError.
Proof. solve_decision. Defined.

Definition AnalyticsError_code (e : AnalyticsError) : option string :=
  match e with
  | AnCancelled => Some "DTG-ANALYTICS-CANCELLED"
  | AnResourceLimit => Some "DTG-ANALYTICS-RESOURCE-LIMIT"
  | AnIterationLimit => Some "DTG-ANALYTICS-ITERATION-LIMIT"
  | AnInvalidRequest => Some "DTG-ANALYTICS-INVALID-REQUEST"
  | AnMissingProperty => Some "DTG-ANALYTICS-PROPERTY-MISSING"
  | AnInvalidProperty => Some "DTG-ANALYTICS-PROPERTY-INVALID"
  | AnMissingReverseCsr => Some "DTG-ANALYTICS-REVERSE-REQUIRED"
  | AnalyticsPanic | AnalyticsOutOfFuel => None
  end%string.

(** ** The guard *)

(** The cancellation token may be cancelled by another thread at any moment: [ab_cancelled n] is its
    answer to the request number [n]. *)
Record AlgorithmBudget := mkBudget {
  ab_max_memory_bytes : Z;
  ab_max_iterations : Z;
  ab_max_work_items : Z;
  ab_cancelled : nat → bool;
}.

(** [eg_checks] counts the requests made of the token. *)
Record ExecutionGuard := mkGuard {
  eg_budget : AlgorithmBudget;
  eg_memory_bytes : Z;
  eg_work_items : Z;
  eg_checks : nat;
}.

Definition ExecutionGuard_new (budget : AlgorithmBudget) : result AnalyticsError ExecutionGuard :=
  if ab_cancelled budget 0 then Err AnCancelled else Ok (mkGuard budget 0 0 1).

Abbreviation analysing := (stateful ExecutionGuard AnalyticsError) (only parsing).

Definition checkpoint : analysing unit := λ guard,
  if ab_cancelled (eg_budget guard) (eg_checks guard) then Err AnCancelled
  else Ok (tt, mkGuard (eg_budget guard) (eg_memory_bytes guard) (eg_work_items guard) (S (eg_checks guard))).

Definition step : analysing unit :=
  _ ← checkpoint;
  (λ guard,
    if 2 ^ 64 <=? eg_work_items guard + 1 then Err AnResourceLimit
    else
      let work_items := eg_work_items guard + 1 in
      if ab_max_work_items (eg_budget guard) <? work_items then Err AnResourceLimit
      else Ok (tt, mkGuard (eg_budget guard) (eg_memory_bytes guard) work_items (eg_checks guard))) : analysing unit.

Definition reserve (bytes : Z) : analysing unit :=
  _ ← checkpoint;
  (λ guard,
    if 2 ^ 64 <=? eg_memory_bytes guard + bytes then Err AnResourceLimit
    else
      let memory_bytes := eg_memory_bytes guard + bytes in
      if ab_max_memory_bytes (eg_budget guard) <? memory_bytes then Err AnResourceLimit
      else Ok (tt, mkGuard (eg_budget guard) memory_bytes (eg_work_items guard) (eg_checks guard))) : analysing unit.

Definition require_iterations (iterations : Z) : analysing unit :=
  _ ← checkpoint;
  (λ guard,
    if (iterations =? 0) || (ab_max_iterations (eg_budget guard) <? iterations) then Err AnIterationLimit
    else Ok (tt, guard)) : analysing unit.

(** ** Vectors and graphs *)

(** [v[i]], and [v[i] = x]. *)
Definition index {A} (l : list A) (i : nat) : analysing A := lift (ok_or AnalyticsPanic (l !! i)).
Definition assign {A} (l : list A) (i : nat) (x : A) : analysing (list A) :=
  if (i <? length l)%nat then mret (<[i := x]> l) else stop AnalyticsPanic.

(** [csr.outgoing_range(vertex)]; the range panics when the offsets do not hold it. *)
Definition outgoing (csr : SnapshotCsr) (vertex : nat) : analysing (list nat) :=
  lift (ok_or AnalyticsPanic (outgoing_range csr vertex)).
(** [csr.reverse().ok_or(MissingReverseCsr)?] and [csr.incoming_range(vertex).ok_or(MissingReverseCsr)?]. *)
Definition reverse_of_csr (csr : SnapshotCsr) : analysing ReverseCsr :=
  lift (ok_or AnMissingReverseCsr (csr_reverse csr)).
Definition incoming (csr : SnapshotCsr) (vertex : nat) : analysing (list nat) :=
  range ← lift (ok_or AnMissingReverseCsr (incoming_range csr vertex));
  lift (ok_or AnalyticsPanic range).
(** [neighbors[position] as usize] of [u32]s. *)
Definition index_usize (l : list Z) (position : nat) : analysing nat :=
  value ← index l position; mret (Z.to_nat value).

Definition edge_number (self : SnapshotCsr) (property : string) (edge_index : nat) : option f64 :=
  column ← csr_edge_properties self !! property;
  value ← col_values column !! edge_index;
  match value with
  | Some (VInteger value) => Some (as_f64 value)
  | Some (VFloatBits value) => Some (from_bits value)
  | _ => None
  end.

(** [request.source.and_then(|id| csr.vertex_index(id)).ok_or(InvalidRequest)?]. *)
Definition vertex_of (csr : SnapshotCsr) (id : option VertexId) : analysing nat :=
  lift (ok_or AnInvalidRequest (id ← id; vertex_index csr id)).

(** ** What the guard lets through *)

(** The errors of the guard. *)
Definition refused (e : AnalyticsError) : Prop := e = AnCancelled ∨ e = AnResourceLimit.

Section rules.
Context (Q : AnalyticsError → Prop) (HQ : ∀ e, refused e → Q e).

Lemma swp_step (P : unit → Prop) : P tt → swp step P Q.
Proof.
  intros HP. unfold step. apply swp_bind. intros g. unfold checkpoint. destruct (ab_cancelled _ _).
  { apply HQ. by left. }
  intros g'. cbn. destruct (_ <=? _); [apply HQ; by right|]. destruct (_ <? _); [apply HQ; by right|done].
Qed.
Lemma swp_reserve_memory bytes (P : unit → Prop) : P tt → swp (reserve bytes) P Q.
Proof.
  intros HP. unfold reserve. apply swp_bind. intros g. unfold checkpoint. destruct (ab_cancelled _ _).
  { apply HQ. by left. }
  intros g'. cbn. destruct (_ <=? _); [apply HQ; by right|]. destruct (_ <? _); [apply HQ; by right|done].
Qed.
Lemma swp_require_iterations iterations (P : unit → Prop) :
  Q AnIterationLimit → P tt → swp (require_iterations iterations) P Q.
Proof.
  intros Hi HP. unfold require_iterations. apply swp_bind. intros g. unfold checkpoint. destruct (ab_cancelled _ _).
  { apply HQ. by left. }
  intros g'. cbn. by destruct (_ || _).
Qed.

Lemma swp_at {A} (l : list A) i a (P : A → Prop) : l !! i = Some a → P a → swp (index l i) P Q.
Proof. intros Hi HP. apply swp_lift. by rewrite Hi. Qed.
Lemma swp_assign {A} (l : list A) i x (P : list A → Prop) :
  (i < length l)%nat → P (<[i := x]> l) → swp (assign l i x) P Q.
Proof. intros Hi HP. unfold assign. apply Nat.ltb_lt in Hi as ->. by apply swp_ret. Qed.
Lemma swp_usize_at (l : list Z) i w (P : nat → Prop) :
  l !! i = Some (Z.of_nat w) → P w → swp (index_usize l i) P Q.
Proof. intros Hi HP. apply swp_bind, (swp_at _ _ _ _ Hi), swp_ret. by rewrite Nat2Z.id. Qed.

(** On a well-formed graph the range of a vertex lists its edges. *)
Lemma swp_outgoing csr u (P : list nat → Prop) :
  csr_wf csr → (u < vertex_count csr)%nat →
  (∀ r, NoDup r → (∀ i, i ∈ r → ∃ w, edge_at csr i u w ∧ (w < vertex_count csr)%nat) →
        (∀ i w, edge_at csr i u w → i ∈ r) → P r) →
  swp (outgoing csr u) P Q.
Proof.
  intros Hwf Hu HP. destruct (cw_range _ Hwf _ Hu) as (r & Hr & Hin). apply swp_lift. rewrite Hr. cbn. apply HP.
  - revert Hr. unfold outgoing_range, offset_range. intros. repeat case_match; simplify_option_eq. apply NoDup_seq.
  - intros i Hi. destruct (Hin i Hi) as (w & Hw & Hlt). exists w. split; [|done]. split; [|done]. eauto.
  - intros i w [(r' & Hr' & Hi) _]. congruence.
Qed.
Lemma swp_incoming csr reverse w (P : list nat → Prop) :
  csr_wf csr → csr_reverse csr = Some reverse → (w < vertex_count csr)%nat →
  (∀ r, NoDup r →
        (∀ j, j ∈ r → ∃ i u, rv_neighbors reverse !! j = Some (Z.of_nat u) ∧
           rv_forward_edge_indices reverse !! j = Some (Z.of_nat i) ∧ edge_at csr i u w ∧ (u < vertex_count csr)%nat) →
        (∀ i u, edge_at csr i u w → ∃ j, j ∈ r ∧ rv_neighbors reverse !! j = Some (Z.of_nat u) ∧
           rv_forward_edge_indices reverse !! j = Some (Z.of_nat i)) → P r) →
  swp (incoming csr w) P Q.
Proof.
  intros Hwf Hrev Hw HP. destruct (proj2 (cw_reverse _ Hwf _ Hrev) w Hw) as (r & Hr & Hin & Hall).
  apply swp_bind, swp_lift. unfold incoming_range. rewrite Hrev. cbn. apply swp_lift. rewrite Hr. cbn. apply HP.
  - revert Hr. unfold offset_range. intros. repeat case_match; simplify_option_eq. apply NoDup_seq.
  - intros j Hj. destruct (Hin j Hj) as (i & u & Hn & Hf & He). exists i, u. split; [done|]. split; [done|].
    split; [done|]. destruct He as [(r' & Hr' & _) _]. apply (cw_vertex _ Hwf). eauto.
  - done.
Qed.
Lemma swp_reverse_of csr reverse (P : ReverseCsr → Prop) :
  csr_reverse csr = Some reverse → P reverse → swp (reverse_of_csr csr) P Q.
Proof. intros Hr HP. apply swp_lift. by rewrite Hr. Qed.
End rules.

Lemma edge_at_bounds csr i u w :
  csr_wf csr → edge_at csr i u w → (u < vertex_count csr)%nat ∧ (w < vertex_count csr)%nat.
Proof.
  intros Hwf [(r & Hr & Hi) Hw]. assert (u < vertex_count csr)%nat as Hu by (apply (cw_vertex _ Hwf); eauto).
  split; [done|]. destruct (cw_range _ Hwf _ Hu) as (r' & Hr' & Hin). rewrite Hr in Hr'. injection Hr' as <-.
  destruct (Hin i Hi) as (w' & Hw' & Hlt). rewrite Hw in Hw'. injection Hw'. lia.
Qed.

(** ** What a computation costs *)

Definition within (memory work : nat) (guard : ExecutionGuard) : Prop :=
  (∀ n, ab_cancelled (eg_budget guard) n = false) ∧
  eg_memory_bytes guard + Z.of_nat memory ≤ Z.min (ab_max_memory_bytes (eg_budget guard)) (2 ^ 64 - 1) ∧
  eg_work_items guard + Z.of_nat work ≤ Z.min (ab_max_work_items (eg_budget guard)) (2 ^ 64 - 1).

(** A computation that is not cancelled and that the budget leaves [memory] and [work] for is not
    refused, and does not take more. *)
Definition costs {A} (memory work : nat) (m : analysing A) : Prop :=
  ∀ guard, within memory work guard →
    match m guard with
    | Ok (_, guard') => eg_budget guard' = eg_budget guard ∧
        eg_memory_bytes guard' ≤ eg_memory_bytes guard + Z.of_nat memory ∧
        eg_work_items guard' ≤ eg_work_items guard + Z.of_nat work
    | Err e => ¬ refused e
    end.

Lemma costs_mono {A} m1 w1 m2 w2 (m : analysing A) :
  costs m1 w1 m → (m1 ≤ m2)%nat → (w1 ≤ w2)%nat → costs m2 w2 m.
Proof.
  intros Hm Hm12 Hw12 g (Hc & Hmem & Hw).
  specialize (Hm g). destruct (m g) as [[a g']|e]; [|apply Hm; repeat split; [done|lia|lia]].
  destruct Hm as (Hb & Hmem' & Hw'); [repeat split; [done|lia|lia]|]. split; [done|]. lia.
Qed.
Lemma costs_ret {A} (a : A) : costs 0 0 (mret a).
Proof. intros g _. cbn. split; [done|]. lia. Qed.
Lemma costs_lift {A} (m : result AnalyticsError A) :
  (∀ e, m = Err e → ¬ refused e) → costs 0 0 (lift m).
Proof. intros He g _. unfold lift. destruct m as [a|e]; [|by apply He]. split; [done|]. lia. Qed.
(** What the second part costs may depend on what the first yields. *)
Lemma costs_bind_of {A B} (P : A → Prop) m1 w1 m2 w2 (m : analysing A) (k : A → analysing B) :
  costs m1 w1 m → swp m P (λ _, True) → (∀ a, P a → costs m2 w2 (k a)) →
  costs (m1 + m2) (w1 + w2) (m ≫= k).
Proof.
  intros Hm HP Hk g (Hc & Hmem & Hw). unfold mbind, stateful_bind. specialize (Hm g). specialize (HP g).
  destruct (m g) as [[a g']|e]; [|apply Hm; repeat split; [done|lia|lia]].
  destruct Hm as (Hb & Hmem' & Hw'); [repeat split; [done|lia|lia]|]. specialize (Hk a HP g').
  destruct (k a g') as [[b g'']|e].
  - destruct Hk as (Hb'' & Hmem'' & Hw''); [repeat split; rewrite Hb; [done|lia|lia]|]. split; [congruence|]. lia.
  - apply Hk. repeat split; rewrite Hb; [done|lia|lia].
Qed.
Lemma costs_bind {A B} m1 w1 m2 w2 (m : analysing A) (k : A → analysing B) :
  costs m1 w1 m → (∀ a, costs m2 w2 (k a)) → costs (m1 + m2) (w1 + w2) (m ≫= k).
Proof.
  intros Hm Hk. apply (costs_bind_of (λ _, True)); [done| |done]. intros g. by destruct (m g) as [[]|].
Qed.
Lemma costs_step : costs 0 1 step.
Proof.
  intros g (Hc & Hmem & Hw). unfold step, mbind, stateful_bind, checkpoint. rewrite Hc. cbn.
  destruct (_ <=? _) eqn:H1; [lia|]. destruct (_ <? _) eqn:H2; [lia|]. cbn. split; [done|]. lia.
Qed.
Lemma costs_reserve bytes : costs (Z.to_nat bytes) 0 (reserve bytes).
Proof.
  intros g (Hc & Hmem & Hw). unfold reserve, mbind, stateful_bind, checkpoint. rewrite Hc. cbn.
  destruct (_ <=? _) eqn:H1; [lia|]. destruct (_ <? _) eqn:H2; [lia|]. cbn. split; [done|]. lia.
Qed.
Lemma costs_for {A B} w (f : B → A → analysing A) l a :
  (∀ b a, b ∈ l → costs 0 w (f b a)) → costs 0 (length l * w) (sfor f l a).
Proof.
  revert a. induction l as [|b l IH]; intros a Hf; [apply costs_ret|]. cbn [sfor length Nat.mul].
  apply (costs_bind 0 w 0); [apply Hf; left|]. intros a'. apply IH. intros b' a'' Hb. apply Hf. by right.
Qed.
Lemma costs_for_inv {A B} (I : A → Prop) w (f : B → A → analysing A) l a :
  I a → (∀ b a, b ∈ l → I a → costs 0 w (f b a)) → (∀ b a, b ∈ l → I a → swp (f b a) I (λ _, True)) →
  costs 0 (length l * w) (sfor f l a).
Proof.
  revert a. induction l as [|b l IH]; intros a HI Hf Hs; [apply costs_ret|]. cbn [sfor length Nat.mul].
  apply (costs_bind_of I 0 w 0); [apply Hf; [left|done]|apply Hs; [left|done]|]. intros a' HI'.
  apply IH; [done| |]; intros b' a'' Hb ?; [apply Hf|apply Hs]; [by right|done|by right|done].
Qed.
Lemma costs_for_break {A B} w (f : B → A → analysing (A + A)) l a :
  (∀ b a, b ∈ l → costs 0 w (f b a)) → costs 0 (length l * w) (sfor_break f l a).
Proof.
  revert a. induction l as [|b l IH]; intros a Hf; [apply costs_ret|]. cbn [sfor_break length Nat.mul].
  apply (costs_bind 0 w 0); [apply Hf; left|]. intros [a'|a'].
  - apply IH. intros b' a'' Hb. apply Hf. by right.
  - eapply costs_mono; [apply costs_ret|lia|lia].
Qed.
Lemma costs_while {A} w e fuel (body : A → analysing (A + A)) a :
  ¬ refused e → (∀ a, costs 0 w (body a)) → costs 0 (fuel * w) (swhile e fuel body a).
Proof.
  intros He Hb. revert a. induction fuel as [|fuel IH]; intros a; [by intros g _|]. cbn [swhile Nat.mul].
  apply (costs_bind 0 w 0); [done|]. intros [a'|a']; [apply IH|]. eapply costs_mono; [apply costs_ret|lia|lia].
Qed.

(** A loop of which it is known how many rounds it makes, whatever its fuel. *)
Lemma costs_while_bound {A} (I : nat → A → Prop) w e fuel (body : A → analysing (A + A)) k a :
  ¬ refused e → I k a →
  (∀ k a, I k a → costs 0 w (body a) ∧
     swp (body a) (λ r, match r with inl a' => ∃ k', I k' a' ∧ (k' < k)%nat | inr _ => True end) (λ _, True)) →
  costs 0 (S k * w) (swhile e fuel body a).
Proof.
  intros He HI Hb. revert k a HI. induction fuel as [|fuel IH]; intros k a HI; [by intros g _|]. cbn [swhile Nat.mul].
  destruct (Hb k a HI) as [Hc Hs]. eapply (costs_bind_of _ 0 w 0 (k * w)); [done|exact Hs|]. intros [a'|a'].
  - intros (k' & HI' & Hlt). eapply costs_mono; [by apply (IH k')|lia|]. apply Nat.mul_le_mono_r. lia.
  - intros _. eapply costs_mono; [apply costs_ret|lia|lia].
Qed.

Lemma costs_ok_or {A} e (o : option A) : ¬ refused e → costs 0 0 (lift (ok_or e o)).
Proof. intros He. apply costs_lift. intros e'. destruct o; cbn; [done|]. by intros [= <-]. Qed.
Lemma costs_index {A} (l : list A) i : costs 0 0 (index l i).
Proof. apply costs_ok_or. by intros [|]. Qed.
Lemma costs_assign {A} (l : list A) i x : costs 0 0 (assign l i x).
Proof. unfold assign. destruct (_ <? _)%nat; [apply costs_ret|]. intros g _. by intros [|]. Qed.
Lemma costs_index_usize l i : costs 0 0 (index_usize l i).
Proof. apply (costs_bind 0 0 0 0); [apply costs_index|]. intros a. apply costs_ret. Qed.
Lemma costs_vertex_of csr id : costs 0 0 (vertex_of csr id).
Proof. apply costs_ok_or. by intros [|]. Qed.
Lemma costs_outgoing csr u : costs 0 0 (outgoing csr u).
Proof. apply costs_ok_or. by intros [|]. Qed.

(** Within the budget, a computation that can only be refused returns. *)
Lemma costs_returns {A} memory work (m : analysing A) (P : A → Prop) (Q : AnalyticsError → Prop) guard :
  costs memory work m → swp m P Q → (∀ e, Q e → refused e) → within memory work guard → is_ok (m guard) = true.
Proof.
  intros Hc Hm HQ Hw. specialize (Hc guard Hw). specialize (Hm guard). destruct (m guard) as [[a g']|e]; [done|].
  by destruct Hc; apply HQ.
Qed.

(** ** Vertices *)

Lemma vertex_index_Some csr id i : vertex_index csr id = Some i → csr_vertex_ids csr !! i = Some id.
Proof.
  unfold vertex_index. intros ([j id'] & Hf & ->)%fmap_Some. apply list_find_Some in Hf as (Hj & -> & _). done.
Qed.
Lemma swp_vertex_of (Q : AnalyticsError → Prop) csr id (P : nat → Prop) :
  ((id ≫= vertex_index csr) = None → Q AnInvalidRequest) →
  (∀ v, (id ≫= vertex_index csr) = Some v → (v < vertex_count csr)%nat → P v) →
  swp (vertex_of csr id) P Q.
Proof.
  intros HQ HP. apply swp_lift. change (x ← id; vertex_index csr x) with (id ≫= vertex_index csr).
  destruct (id ≫= vertex_index csr) as [v|] eqn:Hv; cbn; [|by apply HQ]. apply HP; [done|].
  destruct id as [id|]; [|done]. cbn in Hv. apply vertex_index_Some in Hv. by apply lookup_lt_Some in Hv.
Qed.
