(* ===== verification/Traversal.v ===== *)
(** * Searches ([dtg-analytics/src/traversal.rs])

    Breadth-first and depth-first search over the compressed graph.  A search marks a vertex when it
    enters the queue or the stack, so no vertex enters twice and a loop makes at most one round per
    vertex: [vertex_count + 1] is fuel enough. *)

From Stdlib Require Import Floats.SpecFloat.
From S2P Require Import Prelude Text Kernel Storage Loops Projection Csr Analytics.
Open Scope Z_scope.

(** ** The searches *)

(** [if !visited[neighbor] { visited[neighbor] = true; pending.push(..) }]. *)
Definition mark {B} (push : nat → B → B) (neighbor : nat) (acc : list bool * B) : analysing (list bool * B) :=
  seen ← index acc.1 neighbor;
  if seen : bool then mret acc
  else visited ← assign acc.1 neighbor true; mret (visited, push neighbor acc.2).

(** One round of [for position in range]: a neighbour is looked up and marked. *)
Definition visit {B} (neighbors : list Z) (push : nat → B → B) (position : nat) (acc : list bool * B)
    : analysing (list bool * B) :=
  _ ← step;
  neighbor ← index_usize neighbors position;
  mark push neighbor acc.

Definition bfs_state : Type := list bool * list (nat * Z) * list VertexId.

(** The body of [while let Some((vertex, depth)) = queue.pop_front()]. *)
Definition bfs_round (csr : SnapshotCsr) (max_depth : Z) (state : bfs_state) : analysing (bfs_state + bfs_state) :=
  let '(visited, queue, order) := state in
  match queue with
  | [] => mret (inr (visited, queue, order))
  | (vertex, depth) :: queue =>
      _ ← step;
      id ← index (csr_vertex_ids csr) vertex;
      let order := order ++ [id] in
      if max_depth <=? depth then mret (inl (visited, queue, order))
      else
        range ← outgoing csr vertex;
        acc ← sfor (visit (csr_neighbors csr) (λ w queue, queue ++ [(w, depth + 1)])) range (visited, queue);
        mret (inl (acc.1, acc.2, order))
  end.

Definition breadth_first_search (csr : SnapshotCsr) (request : AlgorithmRequest) : analysing AlgorithmResult :=
  source ← vertex_of csr (ar_source request);
  let vertex_count := length (csr_vertex_ids csr) in
  _ ← reserve (saturating_mul (Z.of_nat vertex_count) 9);
  visited ← assign (replicate vertex_count false) source true;
  state ← swhile AnalyticsOutOfFuel (S vertex_count) (bfs_round csr (ar_max_depth request))
            (visited, [(source, 0)], []);
  mret (Traversal state.2).

(** The stack has its top at the head. *)
Definition dfs_round (csr : SnapshotCsr) (max_depth : Z) (state : bfs_state) : analysing (bfs_state + bfs_state) :=
  let '(visited, stack, order) := state in
  match stack with
  | [] => mret (inr (visited, stack, order))
  | (vertex, depth) :: stack =>
      _ ← step;
      id ← index (csr_vertex_ids csr) vertex;
      let order := order ++ [id] in
      if max_depth <=? depth then mret (inl (visited, stack, order))
      else
        range ← outgoing csr vertex;
        acc ← sfor (visit (csr_neighbors csr) (λ w stack, (w, depth + 1) :: stack)) (rev range) (visited, stack);
        mret (inl (acc.1, acc.2, order))
  end.

Definition depth_first_search (csr : SnapshotCsr) (request : AlgorithmRequest) : analysing AlgorithmResult :=
  source ← vertex_of csr (ar_source request);
  let vertex_count := length (csr_vertex_ids csr) in
  _ ← reserve (saturating_mul (Z.of_nat vertex_count) 9);
  visited ← assign (replicate vertex_count false) source true;
  state ← swhile AnalyticsOutOfFuel (S vertex_count) (dfs_round csr (ar_max_depth request))
            (visited, [(source, 0)], []);
  mret (Traversal state.2).

(** ** Marking *)

Definition flagged (visited : list bool) (v : nat) : Prop := visited !! v = Some true.

(** The vertices marked by a loop over [targets], in the order they are marked. *)
Record marked {B} (push : nat → B → B) (targets fresh : list nat) (visited : list bool) (pending : B)
    (acc : list bool * B) : Prop := {
  mk_length : length acc.1 = length visited;
  mk_fresh : NoDup fresh ∧ ∀ w, w ∈ fresh → w ∈ targets ∧ ¬ flagged visited w ∧ (w < length visited)%nat;
  mk_flags w : flagged acc.1 w ↔ flagged visited w ∨ w ∈ fresh;
  mk_all w : w ∈ targets → flagged acc.1 w;
  mk_pending : acc.2 = foldl (λ p w, push w p) pending fresh;
}.

Section marking.
Context (Q : AnalyticsError → Prop).

Lemma swp_mark_all {A B} (push : nat → B → B) (target : A → nat) (f : A → list bool * B → analysing (list bool * B))
    l visited pending :
  (∀ a, a ∈ l → (target a < length visited)%nat ∧
     ∀ acc P, swp (mark push (target a) acc) P Q → swp (f a acc) P Q) →
  swp (sfor f l (visited, pending)) (λ acc, ∃ fresh, marked push (map target l) fresh visited pending acc) Q.
Proof.
  intros Hf. apply (swp_for (λ pre acc, ∃ fresh, marked push (map target pre) fresh visited pending acc)).
  { exists []. split; cbn; [done| | | |done].
    - split; [constructor|]. by intros w ?%elem_of_nil.
    - intros w. rewrite elem_of_nil. tauto.
    - by intros w ?%elem_of_nil. }
  intros pre a post [visited' pending'] Hl (fresh & [Hlen [Hnd Hfresh] Hflags Hall Hpend]). cbn [fst snd] in *.
  destruct (Hf a) as [Ha Hmark]; [rewrite Hl; apply elem_of_app; right; left|]. apply Hmark. unfold mark.
  destruct (lookup_lt_is_Some_2 visited' (target a)) as [seen Hseen]; [lia|]. cbn [fst snd].
  apply swp_bind, (swp_at _ _ _ _ _ Hseen). rewrite map_app. destruct seen.
  - apply swp_ret. exists fresh. split; cbn; [done| |done| |done].
    + split; [done|]. intros w Hw. destruct (Hfresh w Hw) as (? & ? & ?). rewrite elem_of_app. auto.
    + intros w [Hw|Hw%list_elem_of_singleton]%elem_of_app; [by apply Hall|by subst].
  - apply swp_bind, swp_assign; [lia|]. apply swp_ret. exists (fresh ++ [target a]).
    assert (¬ flagged visited' (target a)) as Hnew by (unfold flagged; congruence).
    assert (∀ w, flagged (<[target a:=true]> visited') w ↔ flagged visited' w ∨ w = target a) as Hins.
    { intros w. unfold flagged. destruct (decide (w = target a)) as [->|Hne].
      - rewrite list_lookup_insert_eq by lia. tauto.
      - rewrite list_lookup_insert_ne by done. tauto. }
    split; cbn.
    + by rewrite length_insert.
    + split.
      * apply NoDup_app. split; [done|]. split; [|apply NoDup_singleton].
        intros w Hw Hw'%list_elem_of_singleton. subst w. apply Hnew, Hflags. by right.
      * intros w [Hw|Hw%list_elem_of_singleton]%elem_of_app.
        -- destruct (Hfresh w Hw) as (? & ? & ?). rewrite elem_of_app. auto.
        -- subst w. split; [apply elem_of_app; right; left|]. split; [|lia]. rewrite Hflags in Hnew. tauto.
    + intros w. rewrite Hins, Hflags, elem_of_app, list_elem_of_singleton. tauto.
    + intros w [Hw|Hw%list_elem_of_singleton]%elem_of_app; apply Hins; [left; by apply Hall|by right].
    + by rewrite Hpend, foldl_app.
Qed.
End marking.

Lemma NoDup_below_length (l : list nat) n : NoDup l → (∀ v, v ∈ l → (v < n)%nat) → (length l ≤ n)%nat.
Proof.
  intros Hnd Hlt. rewrite <-(length_seq n 0). apply submseteq_length, NoDup_submseteq; [done|].
  intros v Hv. apply elem_of_seq. specialize (Hlt v Hv). lia.
Qed.

(** ** Walks *)

(** [walk csr u d v]: [d] edges lead from [u] to [v]. *)
Inductive walk (csr : SnapshotCsr) (u : nat) : nat → nat → Prop :=
| walk_nil : walk csr u 0 u
| walk_snoc d v w : walk csr u d v → edge csr v w → walk csr u (S d) w.

(** The vertices within [depth] steps of [source], those nearer to it first, each once. *)
Record by_distance (csr : SnapshotCsr) (source : nat) (depth : Z) (vs : list nat) : Prop := {
  bd_NoDup : NoDup vs;
  bd_elem v : v ∈ vs ↔ ∃ d, Z.of_nat d ≤ depth ∧ walk csr source d v;
  bd_order : StronglySorted (λ a b, ∀ d, walk csr source d b → ∃ d', (d' ≤ d)%nat ∧ walk csr source d' a) vs;
}.

(** The identifiers of vertices. *)
Definition identifies (csr : SnapshotCsr) (ids : list VertexId) (vs : list nat) : Prop :=
  Some <$> ids = (csr_vertex_ids csr !!.) <$> vs.

Lemma identifies_snoc csr ids vs id v :
  identifies csr ids vs → csr_vertex_ids csr !! v = Some id → identifies csr (ids ++ [id]) (vs ++ [v]).
Proof. unfold identifies. intros Hi Hv. rewrite !fmap_app, Hi. cbn. by rewrite Hv. Qed.
Lemma identifies_length csr ids vs : identifies csr ids vs → length ids = length vs.
Proof. intros Hi%(f_equal length). by rewrite !length_fmap in Hi. Qed.

Section search.
Context (Q : AnalyticsError → Prop) (HQ : ∀ e, refused e → Q e).
Context (csr : SnapshotCsr) (Hwf : csr_wf csr).

(** Visiting the edges of a vertex marks its neighbours. *)
Lemma swp_visit_edges {B} (push : nat → B → B) v r visited pending :
  (∀ i, i ∈ r → ∃ w, edge_at csr i v w ∧ (w < vertex_count csr)%nat) → (∀ i w, edge_at csr i v w → i ∈ r) →
  length visited = vertex_count csr →
  swp (sfor (visit (csr_neighbors csr) push) r (visited, pending))
    (λ acc, ∃ targets fresh, (∀ w, w ∈ targets ↔ edge csr v w) ∧ marked push targets fresh visited pending acc) Q.
Proof.
  intros Hr Hall Hlen. set (target i := Z.to_nat (default 0 (csr_neighbors csr !! i))).
  assert (∀ i w, edge_at csr i v w → csr_neighbors csr !! i = Some (Z.of_nat w) ∧ target i = w) as Htgt.
  { intros i w [_ Hw]. split; [done|]. unfold target. rewrite Hw. cbn. lia. }
  eapply swp_mono; [apply (swp_mark_all Q push target)| |done].
  - intros i Hi. destruct (Hr i Hi) as (w & He & Hw). destruct (Htgt i w He) as [Hn ->]. split; [lia|].
    intros acc P HP. unfold visit. apply swp_bind, (swp_step Q HQ), swp_bind, (swp_usize_at Q _ _ _ _ Hn), HP.
  - intros acc [fresh Hm]. exists (map target r), fresh. split; [|done]. intros w. rewrite list_elem_of_fmap. split.
    + intros (i & -> & Hi). destruct (Hr i Hi) as (w & He & _). destruct (Htgt i w He) as [_ ->]. by exists i.
    + intros [i He]. exists i. split; [by destruct (Htgt i w He)|by eapply Hall].
Qed.

Lemma foldl_queue (queue : list (nat * Z)) d fresh :
  foldl (λ p w, p ++ [(w, d)]) queue fresh = queue ++ map (λ w, (w, d)) fresh.
Proof.
  revert queue. induction fresh as [|w fresh IH]; intros queue; cbn; [by rewrite app_nil_r|].
  by rewrite IH, <-app_assoc.
Qed.
Lemma foldl_stack (stack : list (nat * Z)) d fresh :
  foldl (λ p w, (w, d) :: p) stack fresh = map (λ w, (w, d)) (rev fresh) ++ stack.
Proof.
  revert stack. induction fresh as [|w fresh IH]; intros stack; cbn; [done|].
  by rewrite IH, map_app, <-app_assoc.
Qed.
End search.

(** ** Breadth-first search *)

Section bfs.
Context (Q : AnalyticsError → Prop) (HQ : ∀ e, refused e → Q e).
Context (csr : SnapshotCsr) (Hwf : csr_wf csr) (source : nat) (max_depth : Z).
Context (Hsource : (source < vertex_count csr)%nat) (Hdepth : 0 ≤ max_depth).

(** [done] are the vertices taken from the queue, with their depths. *)
Record bfs_inv (done queue : list (nat * Z)) (visited : list bool) : Prop := {
  bi_length : length visited = vertex_count csr;
  bi_NoDup : NoDup (done ++ queue).*1;
  bi_flags v : flagged visited v ↔ v ∈ (done ++ queue).*1;
  bi_walk v d : (v, d) ∈ done ++ queue →
    (v < vertex_count csr)%nat ∧ 0 ≤ d ≤ max_depth ∧ walk csr source (Z.to_nat d) v;
  bi_sorted : StronglySorted Z.le (done ++ queue).*2;
  bi_spread p q : p ∈ done ++ queue → q ∈ queue → p.2 ≤ q.2 + 1;
  bi_closed v d w : (v, d) ∈ done → d < max_depth → edge csr v w → ∃ d', (w, d') ∈ done ++ queue ∧ d' ≤ d + 1;
  bi_source : (source, 0) ∈ done ++ queue;
}.

Lemma bfs_inv_room done queue visited : bfs_inv done queue visited → (length done + length queue ≤ vertex_count csr)%nat.
Proof.
  intros HI. rewrite <-length_app, <-(length_fmap fst). apply NoDup_below_length; [apply HI|].
  intros v ([v' d] & -> & Hv)%list_elem_of_fmap. by apply (bi_walk _ _ _ HI v' d).
Qed.

(** A vertex at the depth limit is taken without being expanded. *)
Lemma bfs_inv_skip done queue visited v d :
  bfs_inv done ((v, d) :: queue) visited → max_depth ≤ d → bfs_inv (done ++ [(v, d)]) queue visited.
Proof.
  intros [Hlen Hnd Hf Hw Hs Hsp Hc Hsrc] Hd. split; rewrite <-?app_assoc; try done.
  - intros p q Hp Hq. apply Hsp; [done|by right].
  - intros u e w [He|He%list_elem_of_singleton]%elem_of_app Hlt; [by apply Hc|]. simplify_eq. lia.
Qed.

Lemma bfs_inv_expand done queue visited v d targets fresh acc :
  bfs_inv done ((v, d) :: queue) visited → d < max_depth → (∀ w, w ∈ targets ↔ edge csr v w) →
  marked (λ w q, q ++ [(w, d + 1)]) targets fresh visited queue acc →
  bfs_inv (done ++ [(v, d)]) acc.2 acc.1.
Proof.
  intros [Hlen Hnd Hf Hw Hs Hsp Hc Hsrc] Hd Ht [Hlen' [Hndf Hfresh] Hflags Hall Hpend].
  rewrite foldl_queue in Hpend. rewrite Hpend. set (new := map (λ w, (w, d + 1)) fresh).
  set (all := done ++ (v, d) :: queue) in *.
  assert ((done ++ [(v, d)]) ++ queue ++ new = all ++ new) as Heq by (unfold all; by rewrite <-!app_assoc).
  assert (new.*1 = fresh) as Hnew by (unfold new; change (map ?f fresh) with (f <$> fresh); rewrite <-list_fmap_compose; apply list_fmap_id).
  assert (∀ p, p ∈ new ↔ p.1 ∈ fresh ∧ p.2 = d + 1) as Hnewin.
  { intros [w e]. unfold new. rewrite list_elem_of_fmap. naive_solver. }
  assert ((v, d) ∈ all) as Hvd by (apply elem_of_app; right; left).
  assert (∀ p, p ∈ all ++ new → p.2 ≤ d + 1) as Hmax.
  { intros p [Hp|Hp%Hnewin]%elem_of_app; [by apply (Hsp p (v, d)); [|left]|lia]. }
  assert (∀ q, q ∈ queue ++ new → d ≤ q.2) as Hmin.
  { intros q [Hq|Hq%Hnewin]%elem_of_app; [|lia]. unfold all in Hs. rewrite fmap_app in Hs.
    apply StronglySorted_app_1_r in Hs. cbn in Hs. inversion_clear Hs as [|? ? _ HF]. rewrite Forall_forall in HF.
    apply HF. by apply list_elem_of_fmap_2. }
  destruct (Hw v d Hvd) as (Hv & Hd0 & Hwalk). split; rewrite ?Heq.
  - lia.
  - rewrite fmap_app, Hnew. apply NoDup_app. split; [done|]. split; [|done].
    intros w Hw1 Hw2. apply (Hfresh w Hw2). by apply Hf.
  - intros w. rewrite Hflags, fmap_app, Hnew, elem_of_app, Hf. done.
  - intros w e [He|He%Hnewin]%elem_of_app; [by apply Hw|]. destruct He as [He Hed]. cbn in He, Hed. subst e.
    destruct (Hfresh w He) as (Hwt & _ & Hwn). split; [lia|]. split; [lia|].
    replace (Z.to_nat (d + 1)) with (S (Z.to_nat d)) by lia. eapply walk_snoc; [done|]. by apply Ht.
  - rewrite fmap_app. apply StronglySorted_app_2; [|done|].
    + intros x y (p & -> & Hp)%list_elem_of_fmap (q & -> & Hq%Hnewin)%list_elem_of_fmap.
      destruct Hq as [_ ->]. apply Hmax, elem_of_app. by left.
    + clear -new. induction fresh as [|w fresh IH]; cbn; constructor; [done|].
      apply Forall_forall. intros x (p & -> & Hp)%list_elem_of_fmap. apply list_elem_of_fmap in Hp as (? & -> & _). done.
  - intros p q Hp Hq. specialize (Hmax p Hp). specialize (Hmin q Hq). lia.
  - intros u e w [He|He%list_elem_of_singleton]%elem_of_app Hlt Hedge.
    + destruct (Hc u e w He Hlt Hedge) as (d' & Hd' & Hle). exists d'. split; [|done]. apply elem_of_app. by left.
    + simplify_eq. assert (flagged acc.1 w) as Hfl by (apply Hall, Ht, Hedge). apply Hflags in Hfl as [Hfl|Hfl].
      * apply Hf in Hfl. apply list_elem_of_fmap in Hfl as ([w' d'] & -> & Hin). exists d'.
        assert ((w', d') ∈ all ++ new) as Hin' by (apply elem_of_app; by left). split; [done|]. by apply (Hmax (w', d')).
      * exists (d + 1). split; [|done]. apply elem_of_app. right. by apply Hnewin.
  - apply elem_of_app. by left.
Qed.

Lemma bfs_inv_reached done visited d v :
  bfs_inv done [] visited → walk csr source d v → Z.of_nat d ≤ max_depth → ∃ d', (v, d') ∈ done ∧ d' ≤ Z.of_nat d.
Proof.
  intros [_ _ _ _ _ _ Hc Hsrc] Hwalk. rewrite !app_nil_r in *. induction Hwalk as [|d v w Hwalk IH Hedge]; intros Hd.
  - by exists 0.
  - destruct IH as (d' & Hin & Hle); [lia|]. destruct (Hc v d' w Hin) as (d'' & Hin' & Hle'); [lia|done|].
    exists d''. split; [done|lia].
Qed.

Lemma bfs_inv_final done visited : bfs_inv done [] visited → by_distance csr source max_depth done.*1.
Proof.
  intros HI. assert (∀ d v, walk csr source d v → Z.of_nat d ≤ max_depth → ∃ d', (v, d') ∈ done ∧ d' ≤ Z.of_nat d)
    as Hreach by (intros d v; by eapply bfs_inv_reached).
  destruct HI as [_ Hnd _ Hw Hs _ _ _]. rewrite !app_nil_r in *. split; [done| |].
  - intros v. rewrite list_elem_of_fmap. split.
    + intros ([v' d] & -> & Hin). destruct (Hw v' d) as (_ & Hd & Hwalk); [done|].
      exists (Z.to_nat d). split; [lia|done].
    + intros (d & Hd & Hwalk). destruct (Hreach d v Hwalk Hd) as (d' & Hin & _). by exists (v, d').
  - apply (StronglySorted_map id fst (λ p q, ∀ d, walk csr source d q.1 → ∃ d', (d' ≤ d)%nat ∧ walk csr source d' p.1));
      [done|]. rewrite list_fmap_id.
    eapply (StronglySorted_impl_in (λ p q, p.2 ≤ q.2)).
    + intros [a da] [b db] Ha Hb Hle d Hwalk. cbn in *.
      destruct (Hw a da) as (_ & Hda & Hwa); [done|]. exists (Z.to_nat da). split; [|done].
      destruct (decide (Z.of_nat d ≤ max_depth)) as [Hd|Hd]; [|lia].
      destruct (Hreach d b Hwalk Hd) as (d' & Hin & Hle'). assert (d' = db) as ->; [|lia].
      by eapply NoDup_fst_eq.
    + rewrite <-(list_fmap_id done). by apply (StronglySorted_map snd id Z.le).
Qed.

Lemma swp_bfs_round done queue visited order :
  bfs_inv done queue visited → identifies csr order done.*1 →
  swp (bfs_round csr max_depth (visited, queue, order))
    (λ r, match r with
       | inl (visited', queue', order') => ∃ p, bfs_inv (done ++ [p]) queue' visited' ∧
           identifies csr order' (done ++ [p]).*1 ∧ (length done < vertex_count csr)%nat
       | inr (_, _, order') => queue = [] ∧ order' = order
       end) Q.
Proof.
  intros HI Hord. unfold bfs_round. destruct queue as [|[v d] queue]; [by apply swp_ret|].
  pose proof (bfs_inv_room _ _ _ HI) as Hroom. cbn in Hroom.
  destruct (bi_walk _ _ _ HI v d) as (Hv & Hd & _); [apply elem_of_app; right; left|].
  destruct (lookup_lt_is_Some_2 (csr_vertex_ids csr) v Hv) as [id Hid].
  apply swp_bind, (swp_step Q HQ), swp_bind, (swp_at Q _ _ _ _ Hid).
  assert (identifies csr (order ++ [id]) (done ++ [(v, d)]).*1) as Hord'.
  { rewrite fmap_app. by apply identifies_snoc. }
  destruct (max_depth <=? d) eqn:Hmax.
  - apply swp_ret. exists (v, d). split; [apply bfs_inv_skip; [done|lia]|]. split; [done|lia].
  - apply swp_bind, (swp_outgoing Q csr v _ Hwf Hv). intros r _ Hin Hall. apply swp_bind.
    eapply swp_mono; [apply (swp_visit_edges Q HQ csr _ v); [done|done|apply HI]| |done].
    intros acc (targets & fresh & Ht & Hm). apply swp_ret. exists (v, d).
    split; [eapply bfs_inv_expand; [done|lia|done|done]|]. split; [done|lia].
Qed.

Lemma bfs_inv_init : bfs_inv [] [(source, 0)] (<[source := true]> (replicate (vertex_count csr) false)).
Proof.
  split; cbn; try done.
  - by rewrite length_insert, length_replicate.
  - apply NoDup_singleton.
  - intros v. rewrite list_elem_of_singleton. unfold flagged. destruct (decide (v = source)) as [->|Hne].
    + rewrite list_lookup_insert_eq by by rewrite length_replicate. done.
    + rewrite list_lookup_insert_ne by done. rewrite lookup_replicate. naive_solver.
  - intros v d Hvd%list_elem_of_singleton. simplify_eq. split; [done|]. split; [lia|]. constructor.
  - repeat constructor.
  - intros p q Hp%list_elem_of_singleton Hq%list_elem_of_singleton. subst. cbn. lia.
  - by intros v d w ?%elem_of_nil.
  - by apply list_elem_of_singleton.
Qed.

Lemma swp_bfs_loop :
  swp (swhile AnalyticsOutOfFuel (S (vertex_count csr)) (bfs_round csr max_depth)
         (<[source := true]> (replicate (vertex_count csr) false), [(source, 0)], []))
    (λ state, ∃ vs, by_distance csr source max_depth vs ∧ identifies csr state.2 vs) Q.
Proof.
  apply (swp_while (λ '(visited, queue, order), ∃ done, bfs_inv done queue visited ∧ identifies csr order done.*1)
    (λ state, (vertex_count csr - length state.2)%nat)).
  - exists []. split; [apply bfs_inv_init|done].
  - cbn. lia.
  - intros [[visited queue] order] (done & HI & Hord). eapply swp_mono; [by apply swp_bfs_round| |done].
    intros [[[visited' queue'] order']|[[visited' queue'] order']].
    + intros (p & HI' & Hord' & Hlt). split; [by exists (done ++ [p])|]. cbn.
      apply identifies_length in Hord, Hord'. rewrite length_fmap in *. rewrite length_app in Hord'. cbn in Hord'. lia.
    + intros [-> ->]. exists done.*1. split; [by eapply bfs_inv_final|done].
Qed.
End bfs.

(** ** Depth-first search *)

Section dfs.
Context (Q : AnalyticsError → Prop) (HQ : ∀ e, refused e → Q e).
Context (csr : SnapshotCsr) (Hwf : csr_wf csr) (source : nat) (max_depth : Z).
Context (Hsource : (source < vertex_count csr)%nat) (Hdepth : 0 ≤ max_depth).

Record dfs_inv (done stack : list (nat * Z)) (visited : list bool) : Prop := {
  di_length : length visited = vertex_count csr;
  di_NoDup : NoDup (done ++ stack).*1;
  di_flags v : flagged visited v ↔ v ∈ (done ++ stack).*1;
  di_walk v d : (v, d) ∈ done ++ stack →
    (v < vertex_count csr)%nat ∧ 0 ≤ d ≤ max_depth ∧ walk csr source (Z.to_nat d) v;
  di_depth v d : (v, d) ∈ stack → d ≤ Z.of_nat (length done);
  di_closed v d w : (v, d) ∈ done → d < max_depth → edge csr v w → w ∈ (done ++ stack).*1;
  di_reached v d : (v, d) ∈ done → d < Z.of_nat (vertex_count csr);
  di_source : source ∈ (done ++ stack).*1;
}.

Lemma dfs_inv_room done stack visited :
  dfs_inv done stack visited → (length done + length stack ≤ vertex_count csr)%nat.
Proof.
  intros HI. rewrite <-length_app, <-(length_fmap fst). apply NoDup_below_length; [apply HI|].
  intros v ([v' d] & -> & Hv)%list_elem_of_fmap. by apply (di_walk _ _ _ HI v' d).
Qed.

(** The top of the stack is done; its fresh neighbours, if it is expanded, take its place. *)
Lemma dfs_inv_pop done stack visited v d fresh visited' :
  dfs_inv done ((v, d) :: stack) visited → length visited' = length visited → NoDup fresh →
  (∀ w, w ∈ fresh → edge csr v w ∧ ¬ flagged visited w ∧ d < max_depth) →
  (∀ w, flagged visited' w ↔ flagged visited w ∨ w ∈ fresh) →
  (d < max_depth → ∀ w, edge csr v w → flagged visited' w) →
  dfs_inv (done ++ [(v, d)]) (map (λ w, (w, d + 1)) (rev fresh) ++ stack) visited'.
Proof.
  intros HI Hlen' Hndf Hfresh Hflags Hexp. pose proof (dfs_inv_room _ _ _ HI) as Hroom. cbn in Hroom.
  destruct HI as [Hlen Hnd Hf Hw Hdep Hc Hr Hsrc]. set (new := map (λ w, (w, d + 1)) (rev fresh)).
  assert ((done ++ [(v, d)]) ++ new ++ stack ≡ₚ (done ++ (v, d) :: stack) ++ new) as Hperm.
  { rewrite <-!app_assoc. cbn. f_equiv. f_equiv. apply Permutation_app_comm. }
  assert (new.*1 = rev fresh) as Hnew.
  { unfold new. change (map ?f ?l) with (f <$> l). rewrite <-list_fmap_compose. apply list_fmap_id. }
  assert (∀ p, p ∈ new ↔ p.1 ∈ fresh ∧ p.2 = d + 1) as Hnewin.
  { intros [w e]. unfold new. rewrite list_elem_of_fmap. setoid_rewrite elem_of_rev. naive_solver. }
  assert ((v, d) ∈ done ++ (v, d) :: stack) as Hvd by (apply elem_of_app; right; left).
  destruct (Hw v d Hvd) as (Hv & Hd0 & Hwalk). assert (d ≤ Z.of_nat (length done)) as Hdd by (eapply Hdep; left).
  assert (∀ w, w ∈ ((done ++ [(v, d)]) ++ new ++ stack).*1 ↔ flagged visited' w) as Hall.
  { intros w. rewrite Hperm, fmap_app, Hnew, elem_of_app, elem_of_rev, Hflags, Hf. done. }
  split.
  - lia.
  - rewrite Hperm, fmap_app, Hnew, NoDup_app. split; [done|]. split.
    + intros w Hw1 Hw2. rewrite elem_of_rev in Hw2. apply (Hfresh w Hw2). by apply Hf.
    + by rewrite <-Permutation_rev.
  - intros w. by rewrite Hall.
  - intros w e. rewrite Hperm, elem_of_app. intros [He|He%Hnewin]; [by apply Hw|]. destruct He as [He Hed]. cbn in He, Hed.
    subst e. destruct (Hfresh w He) as (Hedge & _ & Hlt). split.
    { destruct Hedge as [i Hi]. by eapply edge_at_bounds. }
    split; [lia|]. replace (Z.to_nat (d + 1)) with (S (Z.to_nat d)) by lia. by eapply walk_snoc.
  - intros w e [He%Hnewin|He]%elem_of_app; rewrite length_app; cbn.
    + destruct He as [_ He]. cbn in He. lia.
    + specialize (Hdep w e (list_elem_of_further _ _ _ He)). lia.
  - intros u e w [He|He%list_elem_of_singleton]%elem_of_app Hlt Hedge; rewrite Hall.
    + apply Hflags. left. apply Hf. by eapply Hc.
    + simplify_eq. by apply Hexp.
  - intros u e [He|He%list_elem_of_singleton]%elem_of_app; [by eapply Hr|]. simplify_eq. lia.
  - apply Hall, Hflags. left. by apply Hf.
Qed.

(** What a search that ended has visited: vertices within the depth limit, and all that can be
    reached when the limit is no less than the number of vertices. *)
Record explored (vs : list nat) : Prop := {
  ex_NoDup : NoDup vs;
  ex_sound v : v ∈ vs → ∃ d, Z.of_nat d ≤ max_depth ∧ walk csr source d v;
  ex_source : source ∈ vs;
  ex_complete : Z.of_nat (vertex_count csr) ≤ max_depth → ∀ d v, walk csr source d v → v ∈ vs;
}.

Lemma dfs_inv_final done visited : dfs_inv done [] visited → explored done.*1.
Proof.
  intros [_ Hnd _ Hw _ Hc Hr Hsrc]. rewrite !app_nil_r in *. split; [done| |done|].
  - intros v ([v' d] & -> & Hin)%list_elem_of_fmap. destruct (Hw v' d Hin) as (_ & Hd & Hwalk).
    exists (Z.to_nat d). split; [lia|done].
  - intros Hn d v Hwalk. induction Hwalk as [|d v w Hwalk IH Hedge]; [done|].
    apply list_elem_of_fmap in IH as ([v' d'] & -> & Hin). specialize (Hr v' d' Hin). eapply Hc; [done|lia|done].
Qed.

Lemma swp_dfs_round done stack visited order :
  dfs_inv done stack visited → identifies csr order done.*1 →
  swp (dfs_round csr max_depth (visited, stack, order))
    (λ r, match r with
       | inl (visited', stack', order') => ∃ p, dfs_inv (done ++ [p]) stack' visited' ∧
           identifies csr order' (done ++ [p]).*1 ∧ (length done < vertex_count csr)%nat
       | inr (_, _, order') => stack = [] ∧ order' = order
       end) Q.
Proof.
  intros HI Hord. unfold dfs_round. destruct stack as [|[v d] stack]; [by apply swp_ret|].
  pose proof (dfs_inv_room _ _ _ HI) as Hroom. cbn in Hroom.
  destruct (di_walk _ _ _ HI v d) as (Hv & Hd & _); [apply elem_of_app; right; left|].
  destruct (lookup_lt_is_Some_2 (csr_vertex_ids csr) v Hv) as [id Hid].
  apply swp_bind, (swp_step Q HQ), swp_bind, (swp_at Q _ _ _ _ Hid).
  assert (identifies csr (order ++ [id]) (done ++ [(v, d)]).*1) as Hord'.
  { rewrite fmap_app. by apply identifies_snoc. }
  destruct (max_depth <=? d) eqn:Hmax.
  - apply swp_ret. exists (v, d). split; [|split; [done|lia]].
    apply (dfs_inv_pop done stack visited v d []); [done|done|constructor|by intros ? ?%elem_of_nil| |lia].
    intros w. rewrite elem_of_nil. tauto.
  - apply swp_bind, (swp_outgoing Q csr v _ Hwf Hv). intros r _ Hin Hall. apply swp_bind.
    eapply swp_mono; [apply (swp_visit_edges Q HQ csr _ v)| |done].
    + intros i. rewrite elem_of_rev. apply Hin.
    + intros i w. rewrite elem_of_rev. apply Hall.
    + apply HI.
    + intros acc (targets & fresh & Ht & [Hlen' [Hndf Hfresh] Hflags Hall' Hpend]). apply swp_ret. exists (v, d).
      rewrite foldl_stack in Hpend. rewrite Hpend. split; [|split; [done|lia]].
      apply dfs_inv_pop with (visited := visited); [done|done|done| |done|].
      * intros w Hw. destruct (Hfresh w Hw) as (Hwt & Hwf' & _). split; [by apply Ht|]. split; [done|lia].
      * intros _ w Hw. by apply Hall', Ht.
Qed.

Lemma dfs_inv_init : dfs_inv [] [(source, 0)] (<[source := true]> (replicate (vertex_count csr) false)).
Proof.
  pose proof (bfs_inv_init csr source max_depth Hsource Hdepth) as [Hl Hnd Hf Hw _ _ _ _]. split; cbn in *; try done.
  - intros v d Hvd%list_elem_of_singleton. simplify_eq. done.
  - by intros v d w ?%elem_of_nil.
  - by intros v d ?%elem_of_nil.
  - by apply list_elem_of_singleton.
Qed.

Lemma swp_dfs_loop :
  swp (swhile AnalyticsOutOfFuel (S (vertex_count csr)) (dfs_round csr max_depth)
         (<[source := true]> (replicate (vertex_count csr) false), [(source, 0)], []))
    (λ state, ∃ vs, explored vs ∧ identifies csr state.2 vs) Q.
Proof.
  apply (swp_while (λ '(visited, stack, order), ∃ done, dfs_inv done stack visited ∧ identifies csr order done.*1)
    (λ state, (vertex_count csr - length state.2)%nat)).
  - exists []. split; [apply dfs_inv_init|done].
  - cbn. lia.
  - intros [[visited stack] order] (done & HI & Hord). eapply swp_mono; [by apply swp_dfs_round| |done].
    intros [[[visited' stack'] order']|[[visited' stack'] order']].
    + intros (p & HI' & Hord' & Hlt). split; [by exists (done ++ [p])|]. cbn.
      apply identifies_length in Hord, Hord'. rewrite length_fmap in *. rewrite length_app in Hord'. cbn in Hord'. lia.
    + intros [-> ->]. exists done.*1. split; [by eapply dfs_inv_final|done].
Qed.
End dfs.

(** ** Costs *)

Lemma outgoing_length csr u :
  csr_wf csr → swp (outgoing csr u) (λ r, (length r ≤ length (csr_neighbors csr))%nat) (λ _, True).
Proof.
  intros Hwf. destruct (decide (u < vertex_count csr)%nat) as [Hu|Hu].
  - apply swp_outgoing; [done|done|]. intros r Hnd Hr _. apply NoDup_below_length; [done|].
    intros i Hi. destruct (Hr i Hi) as (w & [_ Hw] & _). by apply lookup_lt_Some in Hw.
  - apply swp_lift. destruct (outgoing_range csr u) eqn:Hr; [|done]. destruct Hu. apply (cw_vertex _ Hwf). eauto.
Qed.

Lemma costs_mark {B} (push : nat → B → B) w acc : costs 0 0 (mark push w acc).
Proof.
  unfold mark. apply (costs_bind 0 0 0 0); [apply costs_index|]. intros [|]; [apply costs_ret|].
  apply (costs_bind 0 0 0 0); [apply costs_assign|]. intros v. apply costs_ret.
Qed.
Lemma costs_visit {B} neighbors (push : nat → B → B) i acc : costs 0 1 (visit neighbors push i acc).
Proof.
  unfold visit. apply (costs_bind 0 1 0 0); [apply costs_step|]. intros _.
  apply (costs_bind 0 0 0 0); [apply costs_index_usize|]. intros w. apply costs_mark.
Qed.

Lemma costs_expand {A B} (csr : SnapshotCsr) u (push : nat → B → B) (h : list nat → list nat) acc
    (k : list bool * B → A) :
  csr_wf csr → (∀ l, length (h l) = length l) →
  costs 0 (length (csr_neighbors csr))
    (range ← outgoing csr u; acc ← sfor (visit (csr_neighbors csr) push) (h range) acc; mret (k acc)).
Proof.
  intros Hwf Hh.
  apply (costs_bind_of (λ r, (length r ≤ length (csr_neighbors csr))%nat) 0 0 0 (length (csr_neighbors csr)));
    [apply costs_outgoing|by apply outgoing_length|].
  intros r Hr. eapply costs_mono; [apply (costs_bind 0 (length (h r) * 1) 0 0)|done|rewrite Hh; lia].
  - apply costs_for. intros i a _. apply costs_visit.
  - intros a. apply costs_ret.
Qed.

(** What a search costs: a round for every vertex, and in it at most one step for every edge. *)
Definition search_work (csr : SnapshotCsr) : nat :=
  S (vertex_count csr) * S (length (csr_neighbors csr)).

(** Both searches are a loop after the same preparation. *)
Lemma costs_search {A} csr request (body : A → analysing (A + A)) (init : nat → list bool → A) (out : A → AlgorithmResult) :
  csr_wf csr →
  (∀ a, costs 0 (S (length (csr_neighbors csr))) (body a)) →
  costs (9 * vertex_count csr) (search_work csr)
    (source ← vertex_of csr (ar_source request);
     let vertex_count := length (csr_vertex_ids csr) in
     _ ← reserve (saturating_mul (Z.of_nat vertex_count) 9);
     visited ← assign (replicate vertex_count false) source true;
     state ← swhile AnalyticsOutOfFuel (S vertex_count) body (init source visited);
     mret (out state)).
Proof.
  intros Hwf Hbody. apply (costs_bind 0 0 (9 * vertex_count csr) (search_work csr)); [apply costs_vertex_of|]. intros source.
  apply (costs_mono (Z.to_nat (saturating_mul (Z.of_nat (vertex_count csr)) 9) + 0) (0 + (search_work csr + 0)));
    [|unfold saturating_mul; lia|lia].
  apply costs_bind; [apply costs_reserve|]. intros _.
  apply (costs_bind 0 0 0 (search_work csr + 0)); [apply costs_assign|]. intros visited.
  apply (costs_bind 0 (search_work csr) 0 0); [|intros state; apply costs_ret]. apply costs_while; [by intros [|]|done].
Qed.

Lemma costs_bfs csr request : csr_wf csr → costs (9 * vertex_count csr) (search_work csr) (breadth_first_search csr request).
Proof.
  intros Hwf. apply (costs_search csr request _ (λ source visited, (visited, [(source, 0)], [])) (λ state, Traversal state.2)); [done|].
  intros [[vis queue] order]. unfold bfs_round. destruct queue as [|[v d] queue].
  { eapply costs_mono; [apply costs_ret|lia|lia]. }
  apply (costs_bind 0 1 0 (length (csr_neighbors csr))); [apply costs_step|]. intros _.
  apply (costs_bind 0 0 0 (length (csr_neighbors csr))); [apply costs_index|]. intros i.
  destruct (_ <=? _); [eapply costs_mono; [apply costs_ret|lia|lia]|]. by apply (costs_expand csr v _ id).
Qed.

Lemma costs_dfs csr request : csr_wf csr → costs (9 * vertex_count csr) (search_work csr) (depth_first_search csr request).
Proof.
  intros Hwf. apply (costs_search csr request _ (λ source visited, (visited, [(source, 0)], [])) (λ state, Traversal state.2)); [done|].
  intros [[vis stack] order]. unfold dfs_round. destruct stack as [|[v d] stack].
  { eapply costs_mono; [apply costs_ret|lia|lia]. }
  apply (costs_bind 0 1 0 (length (csr_neighbors csr))); [apply costs_step|]. intros _.
  apply (costs_bind 0 0 0 (length (csr_neighbors csr))); [apply costs_index|]. intros i.
  destruct (_ <=? _); [eapply costs_mono; [apply costs_ret|lia|lia]|]. apply (costs_expand csr v _ (@rev nat)); [done|].
  intros l. apply length_rev.
Qed.

(** ** The searches answer *)

Definition source_of (csr : SnapshotCsr) (request : AlgorithmRequest) : option nat :=
  ar_source request ≫= vertex_index csr.

Definition searched (csr : SnapshotCsr) (request : AlgorithmRequest) (spec : nat → list nat → Prop)
    (result : AlgorithmResult) : Prop :=
  ∃ source vs order, source_of csr request = Some source ∧ spec source vs ∧ result = Traversal order ∧
    identifies csr order vs.
Definition search_failure (csr : SnapshotCsr) (request : AlgorithmRequest) (e : AnalyticsError) : Prop :=
  refused e ∨ e = AnInvalidRequest ∧ source_of csr request = None.

Lemma swp_searched {A} csr request (body : A → analysing (A + A)) (init : nat → list bool → A)
    (out : A → list VertexId) (spec : nat → list nat → Prop) :
  (∀ source, (source < vertex_count csr)%nat →
     swp (swhile AnalyticsOutOfFuel (S (vertex_count csr)) body
            (init source (<[source := true]> (replicate (vertex_count csr) false))))
       (λ a, ∃ vs, spec source vs ∧ identifies csr (out a) vs) (search_failure csr request)) →
  swp (source ← vertex_of csr (ar_source request);
       let vertex_count := length (csr_vertex_ids csr) in
       _ ← reserve (saturating_mul (Z.of_nat vertex_count) 9);
       visited ← assign (replicate vertex_count false) source true;
       state ← swhile AnalyticsOutOfFuel (S vertex_count) body (init source visited);
       mret (Traversal (out state)))
    (searched csr request spec) (search_failure csr request).
Proof.
  intros Hloop. apply swp_bind, swp_vertex_of; [by right|]. intros source Hs Hlt.
  apply swp_bind, swp_reserve_memory; [by left|].
  apply swp_bind, swp_assign; [by rewrite length_replicate|].
  apply swp_bind. eapply swp_mono; [by apply Hloop| |done]. intros a (vs & Hspec & Hid). apply swp_ret.
  by exists source, vs, (out a).
Qed.

(** A search that is refused nothing and whose source exists returns. *)
Lemma searched_returns csr request spec (m : analysing AlgorithmResult) guard :
  swp m (searched csr request spec) (search_failure csr request) →
  costs (9 * vertex_count csr) (search_work csr) m → is_Some (source_of csr request) →
  within (9 * vertex_count csr) (search_work csr) guard → is_ok (m guard) = true.
Proof.
  intros Hm Hc [s Hs] Hw. apply (costs_returns _ _ _ (searched csr request spec) refused) with (1 := Hc); [|done|done].
  eapply swp_mono; [exact Hm|done|]. intros e [He|[_ He]]; [exact He|congruence].
Qed.

Lemma swp_breadth_first_search csr request :
  csr_wf csr → 0 ≤ ar_max_depth request →
  swp (breadth_first_search csr request)
    (searched csr request (λ source, by_distance csr source (ar_max_depth request))) (search_failure csr request).
Proof.
  intros Hwf Hd. apply (swp_searched csr request _ (λ source visited, (visited, [(source, 0)], [])) snd).
  intros source Hs. apply swp_bfs_loop; try done. by left.
Qed.

(** Breadth-first search on a well-formed graph: the answer lists exactly the vertices within
    [max_depth] edges of the source, each once, and none before one that is nearer to the source.  It
    fails only if it is refused by the guard or if the request has no source in the graph, and it does
    return when it is not cancelled and the budget leaves 9 bytes for every vertex and a step for every
    vertex and edge in every round. *)
Theorem breadth_first_search_correct csr request guard :
  csr_wf csr → 0 ≤ ar_max_depth request →
  match breadth_first_search csr request guard with
  | Ok (result, _) => searched csr request (λ source, by_distance csr source (ar_max_depth request)) result
  | Err e => search_failure csr request e
  end ∧
  (is_Some (source_of csr request) → within (9 * vertex_count csr) (search_work csr) guard →
   is_ok (breadth_first_search csr request guard) = true).
Proof.
  intros Hwf Hd. pose proof (swp_breadth_first_search csr request Hwf Hd) as Hm. split; [apply Hm|]. intros Hs. eapply searched_returns; [done|by apply costs_bfs|done].
Qed.

Lemma swp_depth_first_search csr request :
  csr_wf csr → 0 ≤ ar_max_depth request →
  swp (depth_first_search csr request)
    (searched csr request (λ source, explored csr source (ar_max_depth request))) (search_failure csr request).
Proof.
  intros Hwf Hd. apply (swp_searched csr request _ (λ source visited, (visited, [(source, 0)], [])) snd).
  intros source Hs. apply swp_dfs_loop; try done. by left.
Qed.

(** Depth-first search on a well-formed graph: every vertex of the answer is within [max_depth]
    edges of the source, the source is one of them and none is listed twice; when [max_depth] is no
    less than the number of vertices, every vertex that can be reached is in the answer.  It fails and
    returns as breadth-first search does. *)
Theorem depth_first_search_correct csr request guard :
  csr_wf csr → 0 ≤ ar_max_depth request →
  match depth_first_search csr request guard with
  | Ok (result, _) => searched csr request (λ source, explored csr source (ar_max_depth request)) result
  | Err e => search_failure csr request e
  end ∧
  (is_Some (source_of csr request) → within (9 * vertex_count csr) (search_work csr) guard →
   is_ok (depth_first_search csr request guard) = true).
Proof.
  intros Hwf Hd. pose proof (swp_depth_first_search csr request Hwf Hd) as Hm. split; [apply Hm|]. intros Hs. eapply searched_returns; [done|by apply costs_dfs|done].
Qed.

(** ** Examples *)

(** 1 leads to 2 and 3, 2 to 4, 3 to 5, 4 to 5 and 5 to 6. *)
Definition branching : SnapshotCsr :=
  Eval vm_compute in sample_graph [1; 2; 3; 4; 5; 6]
    [(11, 1, 2, 0, 1); (12, 1, 3, 0, 1); (13, 2, 4, 0, 1); (14, 3, 5, 0, 1); (15, 4, 5, 0, 1); (16, 5, 6, 0, 1)].
Definition search_request (algorithm : BuiltInAlgorithmId) (source max_depth : Z) : AlgorithmRequest :=
  mkRequest algorithm (Some source) None max_depth 0 0 0 (S754_zero false) None None None None None None None
    (S754_zero false).
Definition free_guard : ExecutionGuard := mkGuard (mkBudget 1000000 100 10000 (λ _, false)) 0 0 0.

Lemma branching_wf : csr_wf branching.
Proof.
  exact (sample_wf [1; 2; 3; 4; 5; 6]
    [(11, 1, 2, 0, 1); (12, 1, 3, 0, 1); (13, 2, 4, 0, 1); (14, 3, 5, 0, 1); (15, 4, 5, 0, 1); (16, 5, 6, 0, 1)]
    eq_refl).
Qed.

Lemma breadth_first_search_correct_witness :
  fst <$> breadth_first_search branching (search_request BreadthFirstSearch 1 3) free_guard =
    Ok (Traversal [1; 2; 3; 4; 5; 6]) ∧
  searched branching (search_request BreadthFirstSearch 1 3)
    (λ source, by_distance branching source 3) (Traversal [1; 2; 3; 4; 5; 6]).
Proof.
  split; [reflexivity|].
  exact (proj1 (breadth_first_search_correct branching (search_request BreadthFirstSearch 1 3) free_guard branching_wf
    ltac:(cbn; lia))).
Defined.

Lemma depth_first_search_correct_witness :
  searched branching (search_request DepthFirstSearch 1 6)
    (λ source, explored branching source 6) (Traversal [1; 2; 4; 5; 6; 3]).
Proof.
  exact (proj1 (depth_first_search_correct branching (search_request DepthFirstSearch 1 6) free_guard branching_wf
    ltac:(cbn; lia))).
Defined.

(** A depth limit makes depth-first search miss vertices within the limit: 6 is three edges from 1,
    but it is not in the answer of a search of depth 3, because 5 was first met at depth 3 through 2
    and 4 and is not expanded again at depth 2 through 3. *)
Theorem depth_limited_search_misses :
  fst <$> depth_first_search branching (search_request DepthFirstSearch 1 3) free_guard =
    Ok (Traversal [1; 2; 4; 5; 3]) ∧
  ∃ v, csr_vertex_ids branching !! v = Some 6 ∧ walk branching 0 3 v.
Proof.
  split; [reflexivity|]. exists 5%nat. split; [reflexivity|].
  apply walk_snoc with 4%nat; [apply walk_snoc with 2%nat; [apply walk_snoc with 0%nat; [apply walk_nil|]|]|].
  - exists 1%nat. split; [|reflexivity]. eexists. split; [reflexivity|]. set_solver.
  - exists 3%nat. split; [|reflexivity]. eexists. split; [reflexivity|]. set_solver.
  - exists 5%nat. split; [|reflexivity]. eexists. split; [reflexivity|]. set_solver.
Qed.
