(* ===== verification/Components.v ===== *)
(** * Connected components ([dtg-analytics/src/components.rs])

    Strongly connected components, by searches forward and backward from every vertex that has no
    component yet, and weakly connected components, by a search along edges in either direction.
    The searches mark a vertex when it enters the queue: [vertex_count + 1] is fuel enough. *)

From S2P Require Import Prelude Text Kernel Storage Loops Projection Csr Analytics Traversal.
Open Scope Z_scope.

Definition enqueue (w : nat) (queue : list nat) : list nat := queue ++ [w].

(** The body of [while let Some(vertex) = queue.pop_front()] in [reachable]. *)
Definition reachable_round (csr : SnapshotCsr) (reverse_direction : bool) (state : list bool * list nat)
    : analysing (list bool * list nat + list bool * list nat) :=
  match state.2 with
  | [] => mret (inr state)
  | vertex :: queue =>
      _ ← step;
      if reverse_direction then
        reverse ← reverse_of_csr csr;
        range ← incoming csr vertex;
        acc ← sfor (visit (rv_neighbors reverse) enqueue) range (state.1, queue);
        mret (inl acc)
      else
        range ← outgoing csr vertex;
        acc ← sfor (visit (csr_neighbors csr) enqueue) range (state.1, queue);
        mret (inl acc)
  end.

Definition reachable (csr : SnapshotCsr) (seed : nat) (reverse_direction : bool) : analysing (list bool) :=
  let vertex_count := length (csr_vertex_ids csr) in
  visited ← assign (replicate vertex_count false) seed true;
  state ← swhile AnalyticsOutOfFuel (S vertex_count) (reachable_round csr reverse_direction) (visited, [seed]);
  mret state.1.

(** The vertices marked by both searches. *)
Definition collect_component (csr : SnapshotCsr) (forward reverse : list bool) (vertex : nat)
    (acc : list bool * list VertexId) : analysing (list bool * list VertexId) :=
  _ ← step;
  f ← index forward vertex;
  r ← (if f : bool then index reverse vertex else mret false);
  if r : bool then
    assigned ← assign acc.1 vertex true;
    id ← index (csr_vertex_ids csr) vertex;
    mret (assigned, acc.2 ++ [id])
  else mret acc.

Definition scc_seed (csr : SnapshotCsr) (seed : nat) (acc : list bool * list (list VertexId))
    : analysing (list bool * list (list VertexId)) :=
  _ ← step;
  has ← index acc.1 seed;
  if has : bool then mret acc
  else
    forward ← reachable csr seed false;
    reverse ← reachable csr seed true;
    found ← sfor (collect_component csr forward reverse) (seq 0 (length (csr_vertex_ids csr))) (acc.1, []);
    mret (found.1, acc.2 ++ [found.2]).

Definition strongly_connected_components (csr : SnapshotCsr) : analysing AlgorithmResult :=
  if bool_decide (csr_reverse csr = None) then stop AnMissingReverseCsr
  else
    let vertex_count := length (csr_vertex_ids csr) in
    _ ← reserve (saturating_mul (Z.of_nat vertex_count) 3);
    acc ← sfor (scc_seed csr) (seq 0 vertex_count) (replicate vertex_count false, []);
    mret (Components acc.2).

(** A [BTreeSet<usize>] is iterated in ascending order. *)
Definition ascending (s : gset nat) : list nat := sort_by Nat.leb (elements s).

Definition neighbors_both_directions (csr : SnapshotCsr) (vertex : nat) : analysing (gset nat) :=
  range ← outgoing csr vertex;
  neighbors ← sfor (λ edge_index neighbors,
                _ ← step;
                w ← index_usize (csr_neighbors csr) edge_index;
                mret ({[w]} ∪ neighbors)) range (∅ : gset nat);
  reverse ← reverse_of_csr csr;
  range ← incoming csr vertex;
  sfor (λ position neighbors,
    _ ← step;
    w ← index_usize (rv_neighbors reverse) position;
    mret ({[w]} ∪ neighbors)) range neighbors.

Definition wcc_state : Type := list bool * list nat * list VertexId.

Definition wcc_round (csr : SnapshotCsr) (state : wcc_state) : analysing (wcc_state + wcc_state) :=
  let '(visited, queue, component) := state in
  match queue with
  | [] => mret (inr (visited, queue, component))
  | vertex :: queue =>
      _ ← step;
      id ← index (csr_vertex_ids csr) vertex;
      let component := component ++ [id] in
      neighbors ← neighbors_both_directions csr vertex;
      acc ← sfor (λ neighbor acc, _ ← step; mark enqueue neighbor acc) (ascending neighbors) (visited, queue);
      mret (inl (acc.1, acc.2, component))
  end.

Definition wcc_seed (csr : SnapshotCsr) (seed : nat) (acc : list bool * list (list VertexId))
    : analysing (list bool * list (list VertexId)) :=
  _ ← step;
  seen ← index acc.1 seed;
  if seen : bool then mret acc
  else
    visited ← assign acc.1 seed true;
    state ← swhile AnalyticsOutOfFuel (S (length (csr_vertex_ids csr))) (wcc_round csr) (visited, [seed], []);
    mret (state.1.1, acc.2 ++ [state.2]).

Definition weakly_connected_components (csr : SnapshotCsr) : analysing AlgorithmResult :=
  if bool_decide (csr_reverse csr = None) then stop AnMissingReverseCsr
  else
    let vertex_count := length (csr_vertex_ids csr) in
    _ ← reserve (Z.of_nat vertex_count);
    acc ← sfor (wcc_seed csr) (seq 0 vertex_count) (replicate vertex_count false, []);
    mret (Components acc.2).

(** ** Closing a set of vertices under a relation *)

Section closure.
Context (csr : SnapshotCsr) (R : nat → nat → Prop) (old : nat → Prop) (seed : nat).

(** [old] are the vertices marked before the search, [done] those taken from its queue. *)
Record closure_inv (done queue : list nat) (visited : list bool) : Prop := {
  ci_length : length visited = vertex_count csr;
  ci_NoDup : NoDup (done ++ queue);
  ci_flags v : flagged visited v ↔ old v ∨ v ∈ done ++ queue;
  ci_reached v : v ∈ done ++ queue → (v < vertex_count csr)%nat ∧ ¬ old v ∧ rtc R seed v;
  ci_closed v w : v ∈ done → R v w → flagged visited w;
  ci_seed : seed ∈ done ++ queue;
}.

Lemma closure_room done queue visited :
  closure_inv done queue visited → (length done + length queue ≤ vertex_count csr)%nat.
Proof.
  intros HI. rewrite <-length_app. apply NoDup_below_length; [apply HI|]. intros v Hv. by apply (ci_reached _ _ _ HI).
Qed.

Lemma closure_init visited :
  length visited = vertex_count csr → (seed < vertex_count csr)%nat → ¬ old seed →
  (∀ v, flagged visited v ↔ old v) → closure_inv [] [seed] (<[seed := true]> visited).
Proof.
  intros Hlen Hs Hold Hf. split; cbn.
  - by rewrite length_insert.
  - apply NoDup_singleton.
  - intros v. rewrite list_elem_of_singleton, <-Hf. unfold flagged. destruct (decide (v = seed)) as [->|Hne].
    + rewrite list_lookup_insert_eq by lia. tauto.
    + rewrite list_lookup_insert_ne by done. tauto.
  - intros v ->%list_elem_of_singleton. done.
  - by intros v w ?%elem_of_nil.
  - by apply list_elem_of_singleton.
Qed.

Lemma foldl_enqueue queue fresh : foldl (λ q w, enqueue w q) queue fresh = queue ++ fresh.
Proof.
  unfold enqueue. revert queue. induction fresh as [|w fresh IH]; intros queue; cbn; [by rewrite app_nil_r|].
  by rewrite IH, <-app_assoc.
Qed.

Lemma closure_expand done queue visited v targets fresh acc :
  closure_inv done (v :: queue) visited → (∀ w, w ∈ targets ↔ R v w) →
  marked enqueue targets fresh visited queue acc → closure_inv (done ++ [v]) acc.2 acc.1.
Proof.
  intros [Hlen Hnd Hf Hr Hc Hseed] Ht [Hlen' [Hndf Hfresh] Hflags Hall Hpend].
  rewrite foldl_enqueue in Hpend. rewrite Hpend.
  assert ((done ++ [v]) ++ queue ++ fresh = (done ++ v :: queue) ++ fresh) as Heq by by rewrite <-!app_assoc.
  assert (v ∈ done ++ v :: queue) as Hv by (apply elem_of_app; right; left).
  split; rewrite ?Heq.
  - lia.
  - apply NoDup_app. split; [done|]. split; [|done]. intros w Hw1 Hw2. apply (Hfresh w Hw2), Hf. by right.
  - intros w. rewrite Hflags, Hf, (elem_of_app (_ ++ _)). tauto.
  - intros w [Hw|Hw]%elem_of_app; [by apply Hr|]. destruct (Hfresh w Hw) as (Hwt & Hwf & Hlt). split; [lia|]. split.
    + intros Hold. apply Hwf, Hf. by left.
    + eapply rtc_r; [by apply Hr|by apply Ht].
  - intros u w [Hu| ->%list_elem_of_singleton]%elem_of_app HR.
    + apply Hflags. left. by eapply Hc.
    + by apply Hall, Ht.
  - apply elem_of_app. by left.
Qed.

Lemma closure_final done visited :
  closure_inv done [] visited → (∀ v w, R v w → old w → old v) → ∀ v, v ∈ done ↔ rtc R seed v.
Proof.
  intros [_ _ Hf Hr Hc Hseed] Hold v. rewrite !app_nil_r in *. split; [intros Hv; by apply Hr|].
  revert v. apply (rtc_ind_r (λ v, v ∈ done) seed); [done|]. intros v w _ HR IH. specialize (Hc v w IH HR).
  apply Hf in Hc as [Hw|Hw]; [|done]. destruct (Hr v IH) as (_ & Hv & _). destruct Hv. by eapply Hold.
Qed.
End closure.

(** ** The vertices that can be reached *)

Section reachable.
Context (Q : AnalyticsError → Prop) (HQ : ∀ e, refused e → Q e).
Context (csr : SnapshotCsr) (Hwf : csr_wf csr) (reverse : ReverseCsr) (Hrev : csr_reverse csr = Some reverse).

(** Along the edges, or against them. *)
Definition leads (reverse_direction : bool) (v w : nat) : Prop :=
  if reverse_direction then edge csr w v else edge csr v w.

Lemma swp_visit_incoming {B} (push : nat → B → B) w r visited pending :
  (∀ j, j ∈ r → ∃ i u, rv_neighbors reverse !! j = Some (Z.of_nat u) ∧
     rv_forward_edge_indices reverse !! j = Some (Z.of_nat i) ∧ edge_at csr i u w ∧ (u < vertex_count csr)%nat) →
  (∀ i u, edge_at csr i u w → ∃ j, j ∈ r ∧ rv_neighbors reverse !! j = Some (Z.of_nat u) ∧
     rv_forward_edge_indices reverse !! j = Some (Z.of_nat i)) →
  length visited = vertex_count csr →
  swp (sfor (visit (rv_neighbors reverse) push) r (visited, pending))
    (λ acc, ∃ targets fresh, (∀ u, u ∈ targets ↔ edge csr u w) ∧ marked push targets fresh visited pending acc) Q.
Proof.
  intros Hr Hall Hlen. set (target i := Z.to_nat (default 0 (rv_neighbors reverse !! i))).
  assert (∀ j u, rv_neighbors reverse !! j = Some (Z.of_nat u) → target j = u) as Htgt.
  { intros j u Hu. unfold target. rewrite Hu. cbn. lia. }
  eapply swp_mono; [apply (swp_mark_all Q push target)| |done].
  - intros j Hj. destruct (Hr j Hj) as (i & u & Hu & _ & _ & Hlt). rewrite (Htgt _ _ Hu). split; [lia|].
    intros acc P HP. unfold visit. apply swp_bind, (swp_step Q HQ), swp_bind, (swp_usize_at Q _ _ _ _ Hu), HP.
  - intros acc [fresh Hm]. exists (map target r), fresh. split; [|done]. intros u. rewrite list_elem_of_fmap. split.
    + intros (j & -> & Hj). destruct (Hr j Hj) as (i & u & Hu & _ & He & _). rewrite (Htgt _ _ Hu). by exists i.
    + intros [i He]. destruct (Hall i u He) as (j & Hj & Hu & _). exists j. by rewrite (Htgt _ _ Hu).
Qed.

Lemma swp_reachable seed direction :
  (seed < vertex_count csr)%nat →
  swp (reachable csr seed direction)
    (λ visited, length visited = vertex_count csr ∧ ∀ v, flagged visited v ↔ rtc (leads direction) seed v) Q.
Proof.
  intros Hseed. unfold reachable. apply swp_bind, swp_assign; [by rewrite length_replicate|]. apply swp_bind.
  eapply swp_mono; [apply (swp_while_bound (λ k state, ∃ done,
    closure_inv csr (leads direction) (λ _, False) seed done state.2 state.1 ∧ k = (vertex_count csr - length done)%nat)
    (λ state, length state.1 = vertex_count csr ∧ ∀ v, flagged state.1 v ↔ rtc (leads direction) seed v)
    Q _ _ _ (vertex_count csr))| |done].
  - exists []. cbn. split; [|lia]. apply closure_init; [by rewrite length_replicate|done|tauto|].
    intros v. unfold flagged. rewrite lookup_replicate. naive_solver.
  - unfold vertex_count. lia.
  - intros k [visited queue] (done & HI & ->). unfold reachable_round. cbn [fst snd] in *.
    destruct queue as [|v queue].
    { apply swp_ret. cbn. split; [apply HI|]. intros v. rewrite (ci_flags _ _ _ _ _ _ _ HI), app_nil_r.
      rewrite (closure_final _ _ _ _ _ _ HI); tauto. }
    pose proof (closure_room _ _ _ _ _ _ _ HI) as Hroom. cbn in Hroom.
    destruct (ci_reached _ _ _ _ _ _ _ HI v) as (Hv & _ & _); [apply elem_of_app; right; left|].
    assert (∀ acc, (∃ targets fresh, (∀ w, w ∈ targets ↔ leads direction v w) ∧
        marked enqueue targets fresh visited queue acc) →
      ∃ k', (∃ done, closure_inv csr (leads direction) (λ _, False) seed done acc.2 acc.1 ∧
               k' = (vertex_count csr - length done)%nat) ∧ (k' < vertex_count csr - length done)%nat) as Hnext.
    { intros acc (targets & fresh & Ht & Hm). eexists. split; [exists (done ++ [v]); split; [|done]|].
      - by eapply closure_expand.
      - rewrite length_app. cbn. lia. }
    apply swp_bind, (swp_step Q HQ). destruct direction.
    + apply swp_bind, (swp_reverse_of _ _ _ _ Hrev), swp_bind, (swp_incoming Q csr reverse v _ Hwf Hrev Hv).
      intros r _ Hin Hall. apply swp_bind. eapply swp_mono; [apply (swp_visit_incoming _ v); [done|done|apply HI]| |done].
      intros acc Hacc. apply swp_ret. by apply Hnext.
    + apply swp_bind, (swp_outgoing Q csr v _ Hwf Hv). intros r _ Hin Hall. apply swp_bind.
      eapply swp_mono; [apply (swp_visit_edges Q HQ csr _ v); [done|done|apply HI]| |done].
      intros acc Hacc. apply swp_ret. by apply Hnext.
  - intros state Hs. by apply swp_ret.
Qed.
End reachable.

(** ** Partitions of the vertices *)

(** The classes of [E], each with its members, the one with the smallest first member first. *)
Record partitions (csr : SnapshotCsr) (E : nat → nat → Prop) (components : list (list nat)) : Prop := {
  pa_NoDup : NoDup (concat components);
  pa_total v : v ∈ concat components ↔ (v < vertex_count csr)%nat;
  pa_class c v w : c ∈ components → v ∈ c → w ∈ c ↔ E v w;
  pa_first : ∃ firsts, StronglySorted lt firsts ∧ Forall2 (λ c v, head c = Some v) components firsts;
}.

Section partition.
Context (csr : SnapshotCsr) (E : nat → nat → Prop).
Context (Hsym : ∀ v w, E v w → E w v).

(** What holds when the seeds below [k] were considered. *)
Record partition_inv (k : nat) (components : list (list nat)) (assigned : list bool) : Prop := {
  pi_length : length assigned = vertex_count csr;
  pi_flags v : flagged assigned v ↔ v ∈ concat components;
  pi_NoDup : NoDup (concat components);
  pi_bound v : v ∈ concat components → (v < vertex_count csr)%nat;
  pi_seeds v : (v < k)%nat → v ∈ concat components;
  pi_class c v w : c ∈ components → v ∈ c → w ∈ c ↔ E v w;
  pi_first : ∃ firsts, StronglySorted lt firsts ∧ Forall (λ v, (v < k)%nat) firsts ∧
    Forall2 (λ c v, head c = Some v) components firsts;
}.

Lemma partition_inv_init : partition_inv 0 [] (replicate (vertex_count csr) false).
Proof.
  split; cbn; try done.
  - by rewrite length_replicate.
  - intros v. unfold flagged. rewrite lookup_replicate, elem_of_nil. naive_solver.
  - constructor.
  - by intros v ?%elem_of_nil.
  - intros v. lia.
  - by intros c v w ?%elem_of_nil.
  - exists []. repeat constructor.
Qed.

Lemma partition_inv_skip k components assigned :
  partition_inv k components assigned → flagged assigned k → partition_inv (S k) components assigned.
Proof.
  intros [Hl Hf Hnd Hb Hs Hc (firsts & Hsort & Hlt & Hall)] Hk. split; try done.
  - intros v Hv. destruct (decide (v = k)) as [->|]; [by apply Hf|]. apply Hs. lia.
  - exists firsts. split; [done|]. split; [|done]. eapply Forall_impl; [exact Hlt|]. cbn. lia.
Qed.

(** A new class of vertices, of which the seed is the first. *)
Lemma partition_inv_add k components assigned c assigned' :
  partition_inv k components assigned → ¬ flagged assigned k → head c = Some k → NoDup c →
  (∀ v, v ∈ c → (v < vertex_count csr)%nat ∧ E v k) → (∀ v w, v ∈ c → w ∈ c ↔ E v w) →
  length assigned' = length assigned → (∀ v, flagged assigned' v ↔ flagged assigned v ∨ v ∈ c) →
  partition_inv (S k) (components ++ [c]) assigned'.
Proof.
  intros [Hl Hf Hnd Hb Hs Hc (firsts & Hsort & Hlt & Hall)] Hk Hhead Hndc Hcb Hclass Hl' Hf'.
  assert (k ∈ c) as Hkc by (destruct c; [done|]; injection Hhead as ->; left).
  assert (∀ v, v ∈ concat (components ++ [c]) ↔ v ∈ concat components ∨ v ∈ c) as Hin.
  { intros v. rewrite concat_app, elem_of_app. cbn. by rewrite app_nil_r. }
  split.
  - lia.
  - intros v. by rewrite Hin, Hf', Hf.
  - rewrite concat_app. cbn. rewrite app_nil_r. apply NoDup_app. split; [done|]. split; [|done].
    intros v (d & Hd & Hv)%elem_of_concat Hvc. apply Hk, Hf, elem_of_concat. exists d. split; [done|]. apply (Hc d v k Hd Hv). by apply Hcb.
  - intros v. rewrite Hin. intros [Hv|Hv]; [by apply Hb|by apply Hcb].
  - intros v Hv. rewrite Hin. destruct (decide (v = k)) as [->|]; [by right|]. left. apply Hs. lia.
  - intros d v w [Hd|Hd%list_elem_of_singleton]%elem_of_app; [by apply Hc|]. subst d. apply Hclass.
  - exists (firsts ++ [k]). split; [|split].
    + apply StronglySorted_app_2; [|done|repeat constructor]. intros x y Hx ->%list_elem_of_singleton.
      by eapply Forall_forall in Hlt.
    + apply Forall_app. split; [|by repeat constructor]. eapply Forall_impl; [exact Hlt|]. cbn. lia.
    + apply Forall2_app; [done|]. by repeat constructor.
Qed.

Lemma partition_inv_final components assigned :
  partition_inv (vertex_count csr) components assigned → partitions csr E components.
Proof. intros [Hl Hf Hnd Hb Hs Hc (firsts & Hsort & _ & Hall)]. split; try done; [naive_solver|eauto]. Qed.
End partition.

(** ** Strongly connected components *)

(** Each can be reached from the other. *)
Definition mutual (csr : SnapshotCsr) (v w : nat) : Prop := rtc (edge csr) v w ∧ rtc (edge csr) w v.

Lemma rtc_against csr v w : rtc (leads csr true) v w ↔ rtc (edge csr) w v.
Proof.
  split.
  - induction 1 as [|v u w Hvu _ IH]; [done|]. by eapply rtc_r.
  - induction 1 as [|v u w Hvu _ IH]; [done|]. by eapply rtc_r.
Qed.

Lemma rtc_bound csr v w :
  csr_wf csr → rtc (edge csr) v w → (v < vertex_count csr)%nat ↔ (w < vertex_count csr)%nat.
Proof.
  intros Hwf. induction 1 as [|v u w [i Hi] _ IH]; [done|]. rewrite <-IH. apply edge_at_bounds in Hi; [|done]. tauto.
Qed.

Lemma filter_seq_head (P : nat → Prop) `{∀ v, Decision (P v)} n k :
  (k < n)%nat → P k → (∀ v, (v < k)%nat → ¬ P v) → head (base.filter P (seq 0 n)) = Some k.
Proof.
  intros Hk HP Hbelow. replace n with (k + S (n - S k))%nat by lia. rewrite seq_app, filter_app.
  assert (base.filter P (seq 0 k) = []) as ->.
  { apply elem_of_nil_inv. intros v [Hv Hs%elem_of_seq]%list_elem_of_filter. apply (Hbelow v); [lia|done]. }
  rewrite app_nil_l. cbn [seq Nat.add]. by rewrite filter_cons_True.
Qed.

#[export] Instance flagged_dec visited v : Decision (flagged visited v).
Proof. unfold flagged. apply _. Defined.

Section scc.
Context (Q : AnalyticsError → Prop) (HQ : ∀ e, refused e → Q e).
Context (csr : SnapshotCsr) (Hwf : csr_wf csr) (reverse : ReverseCsr) (Hrev : csr_reverse csr = Some reverse).

Lemma swp_collect_component forward backward assigned :
  length forward = vertex_count csr → length backward = vertex_count csr → length assigned = vertex_count csr →
  let c := base.filter (λ v, flagged forward v ∧ flagged backward v) (seq 0 (vertex_count csr)) in
  swp (sfor (collect_component csr forward backward) (seq 0 (length (csr_vertex_ids csr))) (assigned, []))
    (λ acc, identifies csr acc.2 c ∧ length acc.1 = length assigned ∧
       ∀ v, flagged acc.1 v ↔ flagged assigned v ∨ v ∈ c) Q.
Proof.
  intros Hfl Hbl Hal c.
  apply (swp_for (λ pre acc, let c := base.filter (λ v, flagged forward v ∧ flagged backward v) pre in
    identifies csr acc.2 c ∧ length acc.1 = length assigned ∧ ∀ v, flagged acc.1 v ↔ flagged assigned v ∨ v ∈ c)).
  { cbn. split; [done|]. split; [done|]. intros v. rewrite elem_of_nil. tauto. }
  intros pre v post [flags ids] Hseq (Hids & Hlen & Hflags). cbn [fst snd] in *.
  assert (v < vertex_count csr)%nat as Hv.
  { assert (v ∈ seq 0 (vertex_count csr)) as Hv%elem_of_seq by (rewrite Hseq; apply elem_of_app; right; left). lia. }
  rewrite filter_app, filter_cons. cbn [base.filter list_filter].
  destruct (lookup_lt_is_Some_2 forward v) as [f Hf]; [lia|]. destruct (lookup_lt_is_Some_2 backward v) as [b Hb]; [lia|].
  destruct (lookup_lt_is_Some_2 (csr_vertex_ids csr) v Hv) as [id Hid].
  unfold collect_component. apply swp_bind, (swp_step Q HQ), swp_bind, (swp_at Q _ _ _ _ Hf), swp_bind.
  apply (swp_mono _ (λ r, r = f && b) _ Q Q); [destruct f; [by apply (swp_at Q _ _ _ _ Hb)|by apply swp_ret]| |done].
  intros r ->. destruct (f && b) eqn:Hfb.
  - apply andb_true_iff in Hfb as [-> ->]. rewrite decide_True by done.
    apply swp_bind, swp_assign; [cbn; lia|]. apply swp_bind, (swp_at Q _ _ _ _ Hid), swp_ret. cbn.
    split; [by apply identifies_snoc|]. split; [by rewrite length_insert|]. intros w.
    rewrite elem_of_app, list_elem_of_singleton. specialize (Hflags w). unfold flagged in *.
    destruct (decide (w = v)) as [->|Hne].
    + rewrite list_lookup_insert_eq by lia. tauto.
    + rewrite list_lookup_insert_ne by done. tauto.
  - rewrite decide_False, app_nil_r; [by apply swp_ret|]. unfold flagged. rewrite Hf, Hb. intros [[= ->] [= ->]]. done.
Qed.

Lemma swp_scc_seed k components assigned ids :
  (k < vertex_count csr)%nat → partition_inv csr (mutual csr) k components assigned →
  Forall2 (identifies csr) ids components →
  swp (scc_seed csr k (assigned, ids))
    (λ acc, ∃ components, partition_inv csr (mutual csr) (S k) components acc.1 ∧
       Forall2 (identifies csr) acc.2 components) Q.
Proof.
  intros Hk HI Hids. pose proof (pi_length _ _ _ _ _ HI) as Hal. unfold scc_seed. cbn [fst snd].
  destruct (lookup_lt_is_Some_2 assigned k) as [has Hhas]; [lia|].
  apply swp_bind, (swp_step Q HQ), swp_bind, (swp_at Q _ _ _ _ Hhas). destruct has.
  { apply swp_ret. exists components. split; [by apply partition_inv_skip|done]. }
  apply swp_bind. eapply swp_mono; [by apply (swp_reachable Q HQ csr Hwf reverse Hrev)| |done]. intros forward [Hfl Hf].
  apply swp_bind. eapply swp_mono; [by apply (swp_reachable Q HQ csr Hwf reverse Hrev)| |done]. intros backward [Hbl Hb].
  apply swp_bind. eapply swp_mono; [by apply (swp_collect_component forward backward assigned)| |done].
  intros acc (Hc & Hlen & Hflags). apply swp_ret.
  set (c := base.filter _ _) in *. exists (components ++ [c]). cbn [fst snd].
  assert (∀ v, v ∈ c ↔ mutual csr k v) as Hin.
  { intros v. unfold c. rewrite list_elem_of_filter, Hf, Hb, rtc_against, elem_of_seq. unfold mutual.
    split; [tauto|]. intros [H1 H2]. split; [done|]. pose proof (rtc_bound csr k v Hwf H1). lia. }
  split; [|apply Forall2_app; [done|by repeat constructor]].
  apply (partition_inv_add csr (mutual csr) k components assigned); [done| | | | | |done|done].
  - unfold flagged. congruence.
  - apply filter_seq_head; [done|split; [apply Hf|apply Hb]; done|].
    intros v Hv Hfb. assert (v ∈ c) as [Hkv Hvk]%Hin by (apply list_elem_of_filter; split; [done|apply elem_of_seq; lia]).
    pose proof (pi_seeds _ _ _ _ _ HI v Hv) as (d & Hd & Hvd)%elem_of_concat.
    assert (k ∈ d) as Hkd by (apply (pi_class _ _ _ _ _ HI d v k Hd Hvd); by split).
    assert (flagged assigned k) as Hfk by (apply (pi_flags _ _ _ _ _ HI), elem_of_concat; eauto).
    unfold flagged in Hfk. congruence.
  - apply NoDup_filter, NoDup_seq.
  - intros v Hv. apply Hin in Hv. unfold mutual in *. pose proof (rtc_bound csr k v Hwf (proj1 Hv)). split; [tauto|tauto].
  - intros v w Hv%Hin. rewrite Hin. destruct Hv as [Hkv Hvk]. unfold mutual.
    split; intros [H1 H2]; split; by etrans.
Qed.

Lemma swp_partition {E} (f : nat → list bool * list (list VertexId) → analysing (list bool * list (list VertexId))) :
  (∀ k components assigned ids,
     (k < vertex_count csr)%nat → partition_inv csr E k components assigned → Forall2 (identifies csr) ids components →
     swp (f k (assigned, ids)) (λ acc, ∃ components, partition_inv csr E (S k) components acc.1 ∧
       Forall2 (identifies csr) acc.2 components) Q) →
  swp (sfor f (seq 0 (length (csr_vertex_ids csr))) (replicate (length (csr_vertex_ids csr)) false, []))
    (λ acc, ∃ components, partitions csr E components ∧ Forall2 (identifies csr) acc.2 components) Q.
Proof.
  intros Hf. eapply swp_mono; [apply (swp_for (λ pre acc, ∃ components,
    partition_inv csr E (length pre) components acc.1 ∧ Forall2 (identifies csr) acc.2 components) f _ _ Q)| |done].
  - exists []. split; [apply partition_inv_init|constructor].
  - intros pre k post [assigned ids] Hseq (components & HI & Hids).
    assert (seq 0 (vertex_count csr) !! length pre = Some k) as Hk.
    { unfold vertex_count. rewrite Hseq. by rewrite lookup_app_r, Nat.sub_diag by lia. }
    apply lookup_seq in Hk as [-> Hk]. rewrite length_app. cbn [length Nat.add]. rewrite Nat.add_1_r. by apply (Hf _ components).
  - cbn. intros acc (components & HI & Hids). rewrite length_seq in HI. exists components.
    split; [by eapply partition_inv_final|done].
Qed.
End scc.

(** The answer is the list of the identifiers of the classes. *)
Definition components_of (csr : SnapshotCsr) (E : nat → nat → Prop) (result : AlgorithmResult) : Prop :=
  ∃ ids components, result = Components ids ∧ Forall2 (identifies csr) ids components ∧ partitions csr E components.

Definition components_failure (csr : SnapshotCsr) (e : AnalyticsError) : Prop :=
  refused e ∨ e = AnMissingReverseCsr ∧ csr_reverse csr = None.


(** ** Weakly connected components *)

Definition linked (csr : SnapshotCsr) (v w : nat) : Prop := edge csr v w ∨ edge csr w v.

Lemma linked_sym csr v w : rtc (linked csr) v w → rtc (linked csr) w v.
Proof. induction 1 as [|v u w Hvu _ IH]; [done|]. eapply rtc_r; [done|]. unfold linked in *. tauto. Qed.

Lemma elem_of_ascending s v : v ∈ ascending s ↔ v ∈ s.
Proof. unfold ascending. rewrite sort_by_perm. apply elem_of_elements. Qed.

Section wcc.
Context (Q : AnalyticsError → Prop) (HQ : ∀ e, refused e → Q e).
Context (csr : SnapshotCsr) (Hwf : csr_wf csr) (reverse : ReverseCsr) (Hrev : csr_reverse csr = Some reverse).

Lemma swp_insert_neighbors (neighbors : list Z) r (s : gset nat) (target : nat → nat) :
  (∀ i, i ∈ r → neighbors !! i = Some (Z.of_nat (target i))) →
  swp (sfor (λ position s, _ ← step; w ← index_usize neighbors position; mret ({[w]} ∪ s)) r s)
    (λ s', ∀ w, w ∈ s' ↔ w ∈ s ∨ ∃ i, i ∈ r ∧ w = target i) Q.
Proof.
  intros Hr. apply (swp_for (λ pre (s' : gset nat), ∀ w, w ∈ s' ↔ w ∈ s ∨ ∃ i, i ∈ pre ∧ w = target i)).
  { intros w. split; [tauto|]. intros [?|(i & ?%elem_of_nil & _)]; done. }
  intros pre i post s' Hl Hs'. apply swp_bind, (swp_step Q HQ), swp_bind.
  apply (swp_usize_at Q _ _ (target i)); [apply Hr; rewrite Hl; apply elem_of_app; right; left|].
  apply swp_ret. intros w. rewrite elem_of_union, elem_of_singleton, Hs'. setoid_rewrite elem_of_app.
  setoid_rewrite list_elem_of_singleton. naive_solver.
Qed.

Lemma swp_neighbors_both v :
  (v < vertex_count csr)%nat →
  swp (neighbors_both_directions csr v) (λ s, ∀ w, w ∈ s ↔ linked csr v w) Q.
Proof.
  intros Hv. unfold neighbors_both_directions. apply swp_bind, (swp_outgoing Q csr v _ Hwf Hv). intros r _ Hin Hall.
  apply swp_bind. set (target i := Z.to_nat (default 0 (csr_neighbors csr !! i))).
  eapply swp_mono; [apply (swp_insert_neighbors (csr_neighbors csr) r ∅ target)| |done].
  { intros i Hi. destruct (Hin i Hi) as (w & [_ Hw] & _). unfold target. rewrite Hw. cbn. by rewrite Nat2Z.id. }
  intros s Hs. apply swp_bind, (swp_reverse_of _ _ _ _ Hrev), swp_bind, (swp_incoming Q csr reverse v _ Hwf Hrev Hv).
  intros r' _ Hin' Hall'. set (source i := Z.to_nat (default 0 (rv_neighbors reverse !! i))).
  eapply swp_mono; [apply (swp_insert_neighbors (rv_neighbors reverse) r' s source)| |done].
  { intros j Hj. destruct (Hin' j Hj) as (i & u & Hu & _). unfold source. rewrite Hu. cbn. by rewrite Nat2Z.id. }
  intros s' Hs' w. cbn beta in Hs, Hs'. rewrite Hs', Hs. unfold linked. split.
  - intros [[Hw|(i & Hi & ->)]|(j & Hj & ->)]; [set_solver| |].
    + left. exists i. destruct (Hin i Hi) as (w & Hw & _). unfold target. pose proof Hw as [_ Hw'].
      rewrite Hw'. cbn. by rewrite Nat2Z.id.
    + right. destruct (Hin' j Hj) as (i & u & Hu & _ & He & _). exists i. unfold source. rewrite Hu. cbn. by rewrite Nat2Z.id.
  - intros [[i He]|[i He]].
    + left. right. exists i. split; [by eapply Hall|]. unfold target. destruct He as [_ He]. rewrite He. cbn. lia.
    + right. destruct (Hall' i w He) as (j & Hj & Hu & _). exists j. split; [done|]. unfold source. rewrite Hu. cbn. lia.
Qed.

Lemma swp_wcc_loop seed (old : nat → Prop) visited :
  (seed < vertex_count csr)%nat → length visited = vertex_count csr → ¬ old seed → (∀ v, flagged visited v ↔ old v) →
  (∀ v w, linked csr v w → old w → old v) →
  swp (swhile AnalyticsOutOfFuel (S (length (csr_vertex_ids csr))) (wcc_round csr)
         (<[seed := true]> visited, [seed], []))
    (λ state, ∃ c, identifies csr state.2 c ∧ head c = Some seed ∧ NoDup c ∧
       (∀ v, v ∈ c ↔ rtc (linked csr) seed v) ∧ (∀ v, v ∈ c → (v < vertex_count csr)%nat) ∧
       length state.1.1 = vertex_count csr ∧ ∀ v, flagged state.1.1 v ↔ old v ∨ v ∈ c) Q.
Proof.
  intros Hseed Hlen Hnot Hflags Hold.
  apply (swp_while_bound (λ k '(visited, queue, component), ∃ done,
    closure_inv csr (linked csr) old seed done queue visited ∧ identifies csr component done ∧
    head (done ++ queue) = Some seed ∧ k = (vertex_count csr - length done)%nat) _ Q _ _ _ (vertex_count csr)).
  - exists []. split; [by apply closure_init|]. split; [done|]. split; [done|]. cbn. lia.
  - unfold vertex_count. lia.
  - intros k [[flags queue] component] (done & HI & Hid & Hhead & ->). unfold wcc_round. destruct queue as [|v queue].
    { apply swp_ret. exists done. rewrite app_nil_r in Hhead. pose proof (closure_final _ _ _ _ _ _ HI Hold) as Hfin.
      destruct HI as [Hl Hnd Hf Hr _ _]. rewrite app_nil_r in *. repeat split; try done; try apply Hfin.
      - intros u Hu. by apply Hr.
      - apply Hf.
      - apply Hf. }
    pose proof (closure_room _ _ _ _ _ _ _ HI) as Hroom. cbn in Hroom.
    destruct (ci_reached _ _ _ _ _ _ _ HI v) as (Hv & _ & _); [apply elem_of_app; right; left|].
    destruct (lookup_lt_is_Some_2 (csr_vertex_ids csr) v Hv) as [id Hvid].
    apply swp_bind, (swp_step Q HQ), swp_bind, (swp_at Q _ _ _ _ Hvid), swp_bind.
    eapply swp_mono; [by apply swp_neighbors_both| |done]. intros s Hs. apply swp_bind.
    eapply swp_mono; [apply (swp_mark_all Q enqueue (λ w : nat, w))| |done].
    + intros w Hw%elem_of_ascending. cbn beta in Hs. apply Hs in Hw. split.
      * rewrite (ci_length _ _ _ _ _ _ _ HI). destruct Hw as [[i Hi]|[i Hi]]; by destruct (edge_at_bounds _ _ _ _ Hwf Hi).
      * intros acc P HP. by apply swp_bind, (swp_step Q HQ).
    + intros acc [fresh Hm]. apply swp_ret. exists (vertex_count csr - length (done ++ [v]))%nat. split.
      * exists (done ++ [v]). split; [eapply closure_expand; [done| |exact Hm]|].
        { intros w. rewrite (list_fmap_id (ascending s) : map (λ w, w) _ = _), elem_of_ascending. apply Hs. }
        split; [by apply identifies_snoc|]. split; [|done]. rewrite (mk_pending _ _ _ _ _ _ Hm), foldl_enqueue.
        rewrite <-!app_assoc, app_assoc. cbn. destruct done; [|done]. by injection Hhead as ->.
      * rewrite length_app. cbn. lia.
Qed.

Lemma swp_wcc_seed k components assigned ids :
  (k < vertex_count csr)%nat → partition_inv csr (rtc (linked csr)) k components assigned →
  Forall2 (identifies csr) ids components →
  swp (wcc_seed csr k (assigned, ids))
    (λ acc, ∃ components, partition_inv csr (rtc (linked csr)) (S k) components acc.1 ∧
       Forall2 (identifies csr) acc.2 components) Q.
Proof.
  intros Hk HI Hids. pose proof (pi_length _ _ _ _ _ HI) as Hal. unfold wcc_seed. cbn [fst snd].
  destruct (lookup_lt_is_Some_2 assigned k) as [has Hhas]; [lia|].
  apply swp_bind, (swp_step Q HQ), swp_bind, (swp_at Q _ _ _ _ Hhas). destruct has.
  { apply swp_ret. exists components. split; [by apply partition_inv_skip|done]. }
  assert (¬ flagged assigned k) as Hnot by (unfold flagged; congruence).
  apply swp_bind, swp_assign; [lia|]. apply swp_bind.
  eapply swp_mono; [apply (swp_wcc_loop k (flagged assigned)); [done|done|done|done|]| |done].
  { intros v w Hvw. rewrite !(pi_flags _ _ _ _ _ HI), !elem_of_concat. intros (d & Hd & Hw). exists d. split; [done|].
    apply (pi_class _ _ _ _ _ HI d w v Hd Hw). apply rtc_once. unfold linked in *. tauto. }
  intros state (c & Hc & Hhead & Hnd & Hin & Hb & Hlen & Hflags). apply swp_ret. exists (components ++ [c]). cbn [fst snd].
  split; [|apply Forall2_app; [done|by repeat constructor]].
  apply (partition_inv_add csr _ k components assigned); try done; [| |lia].
  - intros v Hv. split; [by apply Hb|]. by apply linked_sym, Hin.
  - intros v w Hv%Hin. rewrite Hin. split; intros Hw; [|by etrans]. etrans; [by apply linked_sym|done].
Qed.
End wcc.


(** ** Costs *)

Section component_costs.
Context (csr : SnapshotCsr) (Hwf : csr_wf csr) (reverse : ReverseCsr) (Hrev : csr_reverse csr = Some reverse).

(** The entries of both halves of the graph. *)
Definition entries_of : nat := (length (csr_neighbors csr) + length (rv_neighbors reverse))%nat.

Lemma incoming_length v : swp (incoming csr v) (λ r, (length r ≤ length (rv_neighbors reverse))%nat) (λ _, True).
Proof.
  destruct (decide (v < vertex_count csr)%nat) as [Hv|Hv].
  - apply (swp_incoming _ csr reverse); [done|done|done|]. intros r Hnd Hr _. apply NoDup_below_length; [done|].
    intros j Hj. destruct (Hr j Hj) as (i & u & Hu & _). by apply lookup_lt_Some in Hu.
  - apply swp_bind, swp_lift. unfold incoming_range. rewrite Hrev. cbn. apply swp_lift.
    destruct (offset_range (rv_offsets reverse) v) as [r|] eqn:Hr; [|done].
    destruct Hv. apply (proj1 (cw_reverse _ Hwf _ Hrev)). eauto.
Qed.

Lemma costs_incoming v : costs 0 0 (incoming csr v).
Proof.
  apply (costs_bind 0 0 0 0); [apply costs_ok_or; by intros [|]|]. intros r. apply costs_ok_or. by intros [|].
Qed.
Lemma costs_reverse_of : costs 0 0 (reverse_of_csr csr).
Proof. apply costs_ok_or. by intros [|]. Qed.

Lemma costs_reachable seed direction :
  costs 0 (S (vertex_count csr) * S entries_of) (reachable csr seed direction).
Proof.
  unfold reachable. apply (costs_bind 0 0 0 (S (vertex_count csr) * S entries_of)); [apply costs_assign|]. intros visited.
  eapply costs_mono; [apply (costs_bind 0 (S (vertex_count csr) * S entries_of) 0 0)|lia|lia];
    [|intros state; apply costs_ret].
  apply costs_while; [by intros [|]|]. intros [flags queue]. unfold reachable_round. cbn [fst snd].
  destruct queue as [|v queue]; [eapply costs_mono; [apply costs_ret|lia|lia]|].
  apply (costs_bind 0 1 0 entries_of); [apply costs_step|]. intros _. destruct direction.
  - apply (costs_bind_of (λ r, r = reverse) 0 0 0 entries_of); [apply costs_reverse_of|by apply (swp_reverse_of _ csr reverse)|].
    intros rev ->.
    apply (costs_bind_of (λ r, (length r ≤ length (rv_neighbors reverse))%nat) 0 0 0 entries_of);
      [apply costs_incoming|apply incoming_length|].
    intros r Hr. eapply costs_mono; [apply (costs_bind 0 (length r * 1) 0 0)|lia|unfold entries_of; lia].
    + apply costs_for. intros i a _. apply costs_visit.
    + intros a. apply costs_ret.
  - eapply costs_mono; [by apply (costs_expand csr v enqueue id)|lia|unfold entries_of; lia].
Qed.

(** For every seed two searches and a look at every vertex. *)
Definition scc_work : nat := (vertex_count csr * S (2 * (S (vertex_count csr) * S entries_of) + vertex_count csr))%nat.

Lemma costs_scc : costs (3 * vertex_count csr) scc_work (strongly_connected_components csr).
Proof.
  unfold strongly_connected_components. rewrite bool_decide_false by by rewrite Hrev.
  apply (costs_mono (Z.to_nat (saturating_mul (Z.of_nat (vertex_count csr)) 3) + 0) (0 + (scc_work + 0)));
    [|unfold saturating_mul; lia|lia].
  apply costs_bind; [apply costs_reserve|]. intros _. apply (costs_bind 0 scc_work 0 0); [|intros acc; apply costs_ret].
  unfold scc_work. rewrite <-(length_seq (vertex_count csr) 0) at 1.
  apply costs_for. intros seed [assigned ids] _. unfold scc_seed. cbn [fst snd].
  set (w := (S (vertex_count csr) * S entries_of)%nat).
  apply (costs_bind 0 1 0 (2 * w + vertex_count csr)); [apply costs_step|]. intros _.
  apply (costs_bind 0 0 0 (2 * w + vertex_count csr)); [apply costs_index|]. intros [|].
  { eapply costs_mono; [apply costs_ret|lia|lia]. }
  eapply costs_mono; [apply (costs_bind 0 w 0 (w + (vertex_count csr * 1 + 0))); [apply costs_reachable|]|lia|lia].
  intros forward. apply (costs_bind 0 w 0 (vertex_count csr * 1 + 0)); [apply costs_reachable|]. intros backward.
  apply (costs_bind 0 (vertex_count csr * 1) 0 0); [|intros found; apply costs_ret].
  rewrite <-(length_seq (vertex_count csr) 0). apply costs_for. intros v acc _. unfold collect_component.
  apply (costs_bind 0 1 0 0); [apply costs_step|]. intros _. apply (costs_bind 0 0 0 0); [apply costs_index|]. intros f.
  apply (costs_bind 0 0 0 0); [destruct f; [apply costs_index|apply costs_ret]|]. intros [|]; [|apply costs_ret].
  apply (costs_bind 0 0 0 0); [apply costs_assign|]. intros flags.
  apply (costs_bind 0 0 0 0); [apply costs_index|]. intros i. apply costs_ret.
Qed.

(** A round for every vertex, in which its edges are looked at and then its neighbours. *)
Definition wcc_work : nat := (vertex_count csr * S (S (vertex_count csr) * S (2 * entries_of)))%nat.

Lemma swp_insert_size (neighbors : list Z) r (s : gset nat) :
  swp (sfor (λ position s, _ ← step; w ← index_usize neighbors position; mret ({[w]} ∪ s)) r s)
    (λ s', (size s' ≤ size s + length r)%nat) (λ _, True).
Proof.
  apply (swp_for (λ pre (s' : gset nat), (size s' ≤ size s + length pre)%nat)); [lia|].
  intros pre i post s' _ Hs. intros g. unfold mbind, stateful_bind. destruct (step g) as [[u g']|]; [|done].
  destruct (index_usize neighbors i g') as [[w g'']|]; [|done]. cbn. rewrite length_app. cbn.
  pose proof (size_union_alt {[w]} s') as Hu. rewrite size_singleton in Hu.
  pose proof (subseteq_size (s' ∖ {[w]}) s' ltac:(set_solver)). lia.
Qed.

Lemma costs_insert (neighbors : list Z) r (s : gset nat) :
  costs 0 (length r * 1) (sfor (λ position s, _ ← step; w ← index_usize neighbors position; mret ({[w]} ∪ s)) r s).
Proof.
  apply costs_for. intros i s' _. apply (costs_bind 0 1 0 0); [apply costs_step|]. intros _.
  apply (costs_bind 0 0 0 0); [apply costs_index_usize|]. intros w. apply costs_ret.
Qed.

Lemma costs_neighbors_both v : costs 0 entries_of (neighbors_both_directions csr v).
Proof.
  unfold neighbors_both_directions.
  apply (costs_bind_of (λ r, (length r ≤ length (csr_neighbors csr))%nat) 0 0 0 entries_of);
    [apply costs_outgoing|by apply outgoing_length|]. intros r Hr.
  eapply costs_mono; [apply (costs_bind 0 (length r * 1) 0 (length (rv_neighbors reverse))); [apply costs_insert|]|lia|
    unfold entries_of; lia]. intros s.
  apply (costs_bind_of (λ r, r = reverse) 0 0 0 (length (rv_neighbors reverse)));
    [apply costs_reverse_of|by apply (swp_reverse_of _ csr reverse)|]. intros rev ->.
  apply (costs_bind_of (λ r, (length r ≤ length (rv_neighbors reverse))%nat) 0 0 0 (length (rv_neighbors reverse)));
    [apply costs_incoming|apply incoming_length|].
  intros r' Hr'. eapply costs_mono; [apply costs_insert|lia|lia].
Qed.
Lemma neighbors_both_size v : swp (neighbors_both_directions csr v) (λ s, (size s ≤ entries_of)%nat) (λ _, True).
Proof.
  unfold neighbors_both_directions. apply swp_bind. eapply swp_mono; [by apply outgoing_length| |done]. intros r Hr.
  apply swp_bind. eapply swp_mono; [apply swp_insert_size| |done]. intros s Hs. cbn beta in Hs. rewrite size_empty in Hs.
  apply swp_bind. eapply swp_mono; [by apply (swp_reverse_of (λ _, True) csr reverse (λ r, r = reverse) Hrev)| |done]. intros rev ->.
  apply swp_bind. eapply swp_mono; [apply incoming_length| |done]. intros r' Hr'.
  eapply swp_mono; [apply swp_insert_size| |done]. intros s' Hs'. cbn beta in *. unfold entries_of. lia.
Qed.

Lemma costs_wcc : costs (vertex_count csr) wcc_work (weakly_connected_components csr).
Proof.
  unfold weakly_connected_components. rewrite bool_decide_false by by rewrite Hrev.
  apply (costs_mono (Z.to_nat (Z.of_nat (vertex_count csr)) + 0) (0 + (wcc_work + 0))); [|lia|lia].
  apply costs_bind; [apply costs_reserve|]. intros _. apply (costs_bind 0 wcc_work 0 0); [|intros acc; apply costs_ret].
  unfold wcc_work. rewrite <-(length_seq (vertex_count csr) 0) at 1.
  apply costs_for. intros seed [assigned ids] _. unfold wcc_seed. cbn [fst snd].
  set (w := (S (vertex_count csr) * S (2 * entries_of))%nat).
  apply (costs_bind 0 1 0 w); [apply costs_step|]. intros _. apply (costs_bind 0 0 0 w); [apply costs_index|]. intros [|].
  { eapply costs_mono; [apply costs_ret|lia|lia]. }
  apply (costs_bind 0 0 0 w); [apply costs_assign|]. intros visited.
  eapply costs_mono; [apply (costs_bind 0 w 0 0); [|intros state; apply costs_ret]|lia|lia].
  apply costs_while; [by intros [|]|]. intros [[flags queue] component]. unfold wcc_round.
  destruct queue as [|v queue]; [eapply costs_mono; [apply costs_ret|lia|lia]|].
  apply (costs_bind 0 1 0 (2 * entries_of)); [apply costs_step|]. intros _.
  apply (costs_bind 0 0 0 (2 * entries_of)); [apply costs_index|]. intros i.
  eapply costs_mono; [apply (costs_bind_of (λ s, (size s ≤ entries_of)%nat) 0 entries_of 0 entries_of)|lia|lia];
    [apply costs_neighbors_both|apply neighbors_both_size|].
  intros s Hs. eapply costs_mono; [apply (costs_bind 0 (length (ascending s) * 1) 0 0); [|intros acc; apply costs_ret]|lia|].
  - apply costs_for. intros x acc _. apply (costs_bind 0 1 0 0); [apply costs_step|]. intros _. apply costs_mark.
  - unfold ascending. rewrite (Permutation_length (sort_by_perm _ _)). change (length (elements s)) with (size s). lia.
Qed.
End component_costs.

Lemma components_answer {csr E} (m : analysing AlgorithmResult) memory (work : ReverseCsr → nat) guard :
  swp m (components_of csr E) (components_failure csr) →
  (∀ reverse, csr_reverse csr = Some reverse → costs memory (work reverse) m) →
  match m guard with Ok (result, _) => components_of csr E result | Err e => components_failure csr e end ∧
  ∀ reverse, csr_reverse csr = Some reverse → within memory (work reverse) guard → is_ok (m guard) = true.
Proof.
  intros Hm Hc. split; [apply Hm|]. intros reverse Hrev Hw.
  apply (costs_returns _ _ _ (components_of csr E) refused) with (1 := Hc _ Hrev); [|done|done].
  eapply swp_mono; [exact Hm|done|]. intros e [He|[_ He]]; [exact He|congruence].
Qed.

Lemma swp_strongly_connected_components csr :
  csr_wf csr → swp (strongly_connected_components csr) (components_of csr (mutual csr)) (components_failure csr).
Proof.
  intros Hwf. assert (∀ e, refused e → components_failure csr e) as HQ by by left.
  unfold strongly_connected_components. case_bool_decide as Hrev; [apply swp_stop; by right|].
  destruct (csr_reverse csr) as [reverse|] eqn:Hr; [|done].
  apply swp_bind, (swp_reserve_memory _ HQ), swp_bind.
  eapply swp_mono; [apply (swp_partition (components_failure csr) csr (E := mutual csr))| |done].
  - intros k components assigned ids. by apply (swp_scc_seed _ HQ csr Hwf reverse).
  - intros acc (components & Hp & Hids). apply swp_ret. by exists acc.2, components.
Qed.

(** C26. Strongly connected components of a well-formed graph: the answer partitions the vertices of
    the graph into the classes of vertices that can be reached from one another, classes in the order
    of their first vertex.  It fails only if the guard refuses or the graph has no reverse half, and
    it does return when there is a reverse half, it is not cancelled and the budget leaves 3 bytes for
    every vertex and the steps of two searches for every vertex. *)
Theorem strongly_connected_components_correct csr guard :
  csr_wf csr →
  match strongly_connected_components csr guard with
  | Ok (result, _) => components_of csr (mutual csr) result
  | Err e => components_failure csr e
  end ∧
  ∀ reverse, csr_reverse csr = Some reverse → within (3 * vertex_count csr) (scc_work csr reverse) guard →
    is_ok (strongly_connected_components csr guard) = true.
Proof.
  intros Hwf. apply components_answer; [by apply swp_strongly_connected_components|intros; by apply costs_scc].
Qed.

Lemma swp_weakly_connected_components csr :
  csr_wf csr → swp (weakly_connected_components csr) (components_of csr (rtc (linked csr))) (components_failure csr).
Proof.
  intros Hwf. assert (∀ e, refused e → components_failure csr e) as HQ by by left.
  unfold weakly_connected_components. case_bool_decide as Hrev; [apply swp_stop; by right|].
  destruct (csr_reverse csr) as [reverse|] eqn:Hr; [|done].
  apply swp_bind, (swp_reserve_memory _ HQ), swp_bind.
  eapply swp_mono; [apply (swp_partition (components_failure csr) csr (E := rtc (linked csr)))| |done].
  - intros k components assigned ids. by apply (swp_wcc_seed _ HQ csr Hwf reverse).
  - intros acc (components & Hp & Hids). apply swp_ret. by exists acc.2, components.
Qed.

(** Weakly connected components of a well-formed graph: the answer partitions the vertices of the
    graph into the classes of vertices that are linked by edges in either direction, classes in the
    order of their first vertex.  It fails and returns as the algorithm for strongly connected
    components does, with a budget of a byte for every vertex and the steps of a search for each. *)
Theorem weakly_connected_components_correct csr guard :
  csr_wf csr →
  match weakly_connected_components csr guard with
  | Ok (result, _) => components_of csr (rtc (linked csr)) result
  | Err e => components_failure csr e
  end ∧
  ∀ reverse, csr_reverse csr = Some reverse → within (vertex_count csr) (wcc_work csr reverse) guard →
    is_ok (weakly_connected_components csr guard) = true.
Proof.
  intros Hwf. apply components_answer; [by apply swp_weakly_connected_components|intros; by apply costs_wcc].
Qed.

(** ** Examples *)

(** A cycle through 1, 2 and 3 from which 4 can be reached, and 5 by itself. *)
Definition cycle_edges : list (Z * Z * Z * Z * Z) :=
  [(11, 1, 2, 0, 1); (12, 2, 3, 0, 1); (13, 3, 1, 0, 1); (14, 3, 4, 0, 1)].
Definition cyclic : SnapshotCsr := Eval vm_compute in sample_graph [1; 2; 3; 4; 5] cycle_edges.

Lemma cyclic_wf : csr_wf cyclic.
Proof. exact (sample_wf [1; 2; 3; 4; 5] cycle_edges eq_refl). Qed.

Lemma strongly_connected_components_witness :
  components_of cyclic (mutual cyclic) (Components [[1; 2; 3]; [4]; [5]]).
Proof.
  destruct (strongly_connected_components_correct cyclic free_guard cyclic_wf) as [H _].
  assert (fst <$> strongly_connected_components cyclic free_guard = Ok (Components [[1; 2; 3]; [4]; [5]])) as Heq.
  { vm_compute. reflexivity. }
  destruct (strongly_connected_components cyclic free_guard) as [[result guard]|e]; [|discriminate Heq].
  cbn in Heq. injection Heq as ->. exact H.
Defined.

Lemma weakly_connected_components_witness :
  components_of cyclic (rtc (linked cyclic)) (Components [[1; 2; 3; 4]; [5]]).
Proof.
  destruct (weakly_connected_components_correct cyclic free_guard cyclic_wf) as [H _].
  assert (fst <$> weakly_connected_components cyclic free_guard = Ok (Components [[1; 2; 3; 4]; [5]])) as Heq.
  { vm_compute. reflexivity. }
  destruct (weakly_connected_components cyclic free_guard) as [[result guard]|e]; [|discriminate Heq].
  cbn in Heq. injection Heq as ->. exact H.
Defined.
