(* ===== verification/Temporal.v ===== *)
(** * Algorithms on temporal graphs ([dtg-analytics/src/temporal.rs])

    Every edge has a departure and an arrival, kept in two of its properties.  The loops that follow
    predecessors take a step of the guard in every round, so the steps the budget has left are fuel
    enough for them. *)

From Stdlib Require Import Floats.SpecFloat.
From S2P Require Import Prelude Text Kernel Storage Loops Projection Csr Analytics.
Open Scope Z_scope.

Definition i64_min : Z := - 2 ^ 63.

Definition temporal_request (request : AlgorithmRequest) : analysing (string * string * Z * Z) :=
  departure ← lift (ok_or AnInvalidRequest (ar_departure_property request));
  arrival ← lift (ok_or AnInvalidRequest (ar_arrival_property request));
  start ← lift (ok_or AnInvalidRequest (ar_time_start request));
  end_ ← lift (ok_or AnInvalidRequest (ar_time_end request));
  if end_ <? start then stop AnInvalidRequest else mret (departure, arrival, start, end_).

Definition edge_times (csr : SnapshotCsr) (edge_index : nat) (departure_property arrival_property : string)
    : analysing (Z * Z) :=
  departure ← lift (ok_or AnMissingProperty (edge_integer csr departure_property edge_index));
  arrival ← lift (ok_or AnMissingProperty (edge_integer csr arrival_property edge_index));
  mret (departure, arrival).

(** The tuples of [usize] compare from the left. *)
Definition pair_ltb (a b : nat * nat) : bool :=
  (a.1 <? b.1)%nat || ((a.1 =? b.1)%nat && (a.2 <? b.2)%nat).
(** [existing.is_none_or(|existing| new < existing)]. *)
Definition stable (new : nat * nat) (existing : option (nat * nat)) : bool :=
  match existing with None => true | Some existing => pair_ltb new existing end.

(** The steps left, and one: a loop that takes a step in every round makes no more rounds. *)
Definition steps_left : analysing nat := λ guard,
  Ok (S (Z.to_nat (ab_max_work_items (eg_budget guard) - eg_work_items guard)), guard).

(** ** Earliest arrival *)

(** One round of the search for the unsettled vertex with the earliest arrival. *)
Definition select_earliest (arrivals : list Z) (settled : list bool) (vertex : nat) (current : option nat)
    : analysing (option nat) :=
  _ ← step;
  done ← index settled vertex;
  if done : bool then mret current
  else
    arrival ← index arrivals vertex;
    if arrival =? i64_max then mret current
    else
      match current with
      | None => mret (Some vertex)
      | Some best =>
          best_arrival ← index arrivals best;
          if (arrival <? best_arrival) || ((arrival =? best_arrival) && (vertex <? best)%nat)
          then mret (Some vertex) else mret current
      end.

Abbreviation links := (list (option (nat * nat))) (only parsing).

Definition relax_earliest (csr : SnapshotCsr) (departure_property arrival_property : string) (start end_ : Z)
    (vertex edge_index : nat) (acc : list Z * links) : analysing (list Z * links) :=
  _ ← step;
  times ← edge_times csr edge_index departure_property arrival_property;
  let '(departure, arrival) := times in
  here ← index acc.1 vertex;
  if (departure <? here) || (departure <? start) || (arrival <? departure) || (end_ <? arrival) then mret acc
  else
    neighbor ← index_usize (csr_neighbors csr) edge_index;
    existing ← index acc.2 neighbor;
    there ← index acc.1 neighbor;
    if (arrival <? there) || ((arrival =? there) && stable (vertex, edge_index) existing) then
      arrivals ← assign acc.1 neighbor arrival;
      predecessor ← assign acc.2 neighbor (Some (vertex, edge_index));
      mret (arrivals, predecessor)
    else mret acc.

Definition settling : Type := list Z * list bool * links.

Definition earliest_round (csr : SnapshotCsr) (departure_property arrival_property : string) (start end_ : Z)
    (_ : nat) (state : settling) : analysing (settling + settling) :=
  let '(arrivals, settled, predecessor) := state in
  _ ← step;
  current ← sfor (select_earliest arrivals settled) (seq 0 (length (csr_vertex_ids csr))) None;
  match current with
  | None => mret (inr state)
  | Some vertex =>
      settled ← assign settled vertex true;
      range ← outgoing csr vertex;
      acc ← sfor (relax_earliest csr departure_property arrival_property start end_ vertex) range
              (arrivals, predecessor);
      mret (inl (acc.1, settled, acc.2))
  end.

(** Vertices, edge identifiers and edge indexes as they are pushed, and the vertex reached. *)
Definition path_state : Type := list VertexId * list EdgeId * list nat * nat.

Definition follow_predecessor (csr : SnapshotCsr) (source : nat) (predecessor : links) (state : path_state)
    : analysing (path_state + path_state) :=
  let '(vertices, edge_ids, edge_indices, current) := state in
  if (current =? source)%nat then mret (inr state)
  else
    _ ← step;
    link ← index predecessor current;
    link ← lift (ok_or AnInvalidRequest link);
    let '(previous, edge_index) := link in
    id ← index (csr_vertex_ids csr) previous;
    edge_id ← index (csr_edge_ids csr) edge_index;
    mret (inl (vertices ++ [id], edge_ids ++ [edge_id], edge_indices ++ [edge_index], previous)).

Definition build_earliest_path (csr : SnapshotCsr) (source target : nat) (arrival_time : Z) (predecessor : links)
    (departure_property : string) : analysing (option TemporalPathResult) :=
  if arrival_time =? i64_max then mret None
  else
    id ← index (csr_vertex_ids csr) target;
    fuel ← steps_left;
    state ← swhile AnalyticsOutOfFuel fuel (follow_predecessor csr source predecessor) ([id], [], [], target);
    let '(vertices, edge_ids, edge_indices, _) := state in
    let departure_time :=
      default arrival_time (edge_index ← head (rev edge_indices); edge_integer csr departure_property edge_index) in
    mret (Some (mkTemporalPath (rev vertices) (rev edge_ids) departure_time arrival_time)).

Definition earliest_arrival (csr : SnapshotCsr) (request : AlgorithmRequest) : analysing AlgorithmResult :=
  source ← vertex_of csr (ar_source request);
  target ← vertex_of csr (ar_target request);
  temporal ← temporal_request request;
  let '(departure_property, arrival_property, start, end_) := temporal in
  let vertex_count := length (csr_vertex_ids csr) in
  _ ← reserve (saturating_mul (Z.of_nat vertex_count) 24);
  arrivals ← assign (replicate vertex_count i64_max) source start;
  state ← sfor_break (earliest_round csr departure_property arrival_property start end_) (seq 0 vertex_count)
            (arrivals, replicate vertex_count false, replicate vertex_count None);
  let '(arrivals, _, predecessor) := state in
  arrival_time ← index arrivals target;
  path ← build_earliest_path csr source target arrival_time predecessor departure_property;
  mret (TemporalPath path).

(** ** Latest departure *)

Definition select_latest (latest : list Z) (settled : list bool) (vertex : nat) (current : option nat)
    : analysing (option nat) :=
  _ ← step;
  done ← index settled vertex;
  if done : bool then mret current
  else
    departure ← index latest vertex;
    if departure =? i64_min then mret current
    else
      match current with
      | None => mret (Some vertex)
      | Some best =>
          best_departure ← index latest best;
          if (best_departure <? departure) || ((departure =? best_departure) && (vertex <? best)%nat)
          then mret (Some vertex) else mret current
      end.

Definition relax_latest (csr : SnapshotCsr) (reverse : ReverseCsr) (departure_property arrival_property : string)
    (start end_ : Z) (vertex position : nat) (acc : list Z * links) : analysing (list Z * links) :=
  _ ← step;
  edge_index ← index_usize (rv_forward_edge_indices reverse) position;
  predecessor_vertex ← index_usize (rv_neighbors reverse) position;
  times ← edge_times csr edge_index departure_property arrival_property;
  let '(departure, arrival) := times in
  skip ← (if (departure <? start) || (arrival <? departure) then mret true
          else here ← index acc.1 vertex; mret ((here <? arrival) || (end_ <? arrival)));
  if skip : bool then mret acc
  else
    existing ← index acc.2 predecessor_vertex;
    there ← index acc.1 predecessor_vertex;
    if (there <? departure) || ((departure =? there) && stable (vertex, edge_index) existing) then
      latest ← assign acc.1 predecessor_vertex departure;
      successor ← assign acc.2 predecessor_vertex (Some (vertex, edge_index));
      mret (latest, successor)
    else mret acc.

Definition latest_round (csr : SnapshotCsr) (reverse : ReverseCsr) (departure_property arrival_property : string)
    (start end_ : Z) (_ : nat) (state : settling) : analysing (settling + settling) :=
  let '(latest, settled, successor) := state in
  _ ← step;
  current ← sfor (select_latest latest settled) (seq 0 (length (csr_vertex_ids csr))) None;
  match current with
  | None => mret (inr state)
  | Some vertex =>
      settled ← assign settled vertex true;
      range ← incoming csr vertex;
      acc ← sfor (relax_latest csr reverse departure_property arrival_property start end_ vertex) range
              (latest, successor);
      mret (inl (acc.1, settled, acc.2))
  end.

Definition latest_path_state : Type := list VertexId * list EdgeId * nat * option nat.

Definition follow_successor (csr : SnapshotCsr) (target : nat) (successor : links) (state : latest_path_state)
    : analysing (latest_path_state + latest_path_state) :=
  let '(vertices, edge_ids, current, last_edge) := state in
  if (current =? target)%nat then mret (inr state)
  else
    _ ← step;
    link ← index successor current;
    link ← lift (ok_or AnInvalidRequest link);
    let '(next, edge_index) := link in
    id ← index (csr_vertex_ids csr) next;
    edge_id ← index (csr_edge_ids csr) edge_index;
    mret (inl (vertices ++ [id], edge_ids ++ [edge_id], next, Some edge_index)).

Definition build_latest_path (csr : SnapshotCsr) (source target : nat) (departure_time : Z) (successor : links)
    (arrival_property : string) : analysing (option TemporalPathResult) :=
  if departure_time =? i64_min then mret None
  else
    id ← index (csr_vertex_ids csr) source;
    fuel ← steps_left;
    state ← swhile AnalyticsOutOfFuel fuel (follow_successor csr target successor) ([id], [], source, None);
    let '(vertices, edge_ids, _, last_edge) := state in
    let arrival_time :=
      default departure_time (edge_index ← last_edge; edge_integer csr arrival_property edge_index) in
    mret (Some (mkTemporalPath vertices edge_ids departure_time arrival_time)).

Definition latest_departure (csr : SnapshotCsr) (request : AlgorithmRequest) : analysing AlgorithmResult :=
  source ← vertex_of csr (ar_source request);
  target ← vertex_of csr (ar_target request);
  temporal ← temporal_request request;
  let '(departure_property, arrival_property, start, end_) := temporal in
  reverse ← reverse_of_csr csr;
  let vertex_count := length (csr_vertex_ids csr) in
  _ ← reserve (saturating_mul (Z.of_nat vertex_count) 24);
  latest ← assign (replicate vertex_count i64_min) target end_;
  state ← sfor_break (latest_round csr reverse departure_property arrival_property start end_) (seq 0 vertex_count)
            (latest, replicate vertex_count false, replicate vertex_count None);
  let '(latest, _, successor) := state in
  departure_time ← index latest source;
  path ← build_latest_path csr source target departure_time successor arrival_property;
  mret (TemporalPath path).

(** ** Reachability *)

Definition relax_reachable (csr : SnapshotCsr) (departure_property arrival_property : string) (start end_ : Z)
    (vertex edge_index : nat) (acc : list Z * bool) : analysing (list Z * bool) :=
  _ ← step;
  times ← edge_times csr edge_index departure_property arrival_property;
  let '(departure, arrival) := times in
  here ← index acc.1 vertex;
  if (here <=? departure) && (start <=? departure) && (departure <=? arrival) && (arrival <=? end_) then
    neighbor ← index_usize (csr_neighbors csr) edge_index;
    there ← index acc.1 neighbor;
    if arrival <? there then arrivals ← assign acc.1 neighbor arrival; mret (arrivals, true)
    else mret acc
  else mret acc.

Definition reachability_vertex (csr : SnapshotCsr) (departure_property arrival_property : string) (start end_ : Z)
    (vertex : nat) (acc : list Z * bool) : analysing (list Z * bool) :=
  _ ← step;
  here ← index acc.1 vertex;
  if here =? i64_max then mret acc
  else
    range ← outgoing csr vertex;
    sfor (relax_reachable csr departure_property arrival_property start end_ vertex) range acc.

Definition reachability_round (csr : SnapshotCsr) (departure_property arrival_property : string) (start end_ : Z)
    (_ : nat) (arrivals : list Z) : analysing (list Z + list Z) :=
  _ ← step;
  acc ← sfor (reachability_vertex csr departure_property arrival_property start end_)
          (seq 0 (length (csr_vertex_ids csr))) (arrivals, false);
  if acc.2 : bool then mret (inl acc.1) else mret (inr acc.1).

Definition temporal_reachability (csr : SnapshotCsr) (request : AlgorithmRequest) : analysing AlgorithmResult :=
  source ← vertex_of csr (ar_source request);
  temporal ← temporal_request request;
  let '(departure_property, arrival_property, start, end_) := temporal in
  let vertex_count := length (csr_vertex_ids csr) in
  _ ← reserve (saturating_mul (Z.of_nat vertex_count) 8);
  arrivals ← assign (replicate vertex_count i64_max) source start;
  arrivals ← sfor_break (reachability_round csr departure_property arrival_property start end_)
               (seq 0 vertex_count) arrivals;
  reachable ← sfor (λ '(vertex, arrival) reachable,
                _ ← step; mret (if arrival =? i64_max then reachable else reachable ++ [vertex]))
                (zip (csr_vertex_ids csr) arrivals) [];
  mret (Reachable reachable).

(** ** Motifs *)

Definition second_edge (csr : SnapshotCsr) (departure_property arrival_property : string) (end_ first_arrival : Z)
    (second : nat) (count : Z) : analysing Z :=
  _ ← step;
  times ← edge_times csr second departure_property arrival_property;
  let '(second_departure, second_arrival) := times in
  if (first_arrival <=? second_departure) && (second_arrival <=? end_) then
    if count + 1 <? 2 ^ 64 then mret (count + 1) else stop AnResourceLimit
  else mret count.

Definition first_edge (csr : SnapshotCsr) (departure_property arrival_property : string) (start end_ : Z)
    (first : nat) (count : Z) : analysing Z :=
  _ ← step;
  times ← edge_times csr first departure_property arrival_property;
  let '(first_departure, first_arrival) := times in
  if (first_departure <? start) || (first_arrival <? first_departure) || (end_ <? first_arrival) then mret count
  else
    middle ← index_usize (csr_neighbors csr) first;
    range ← outgoing csr middle;
    sfor (second_edge csr departure_property arrival_property end_ first_arrival) range count.

Definition temporal_motif (csr : SnapshotCsr) (request : AlgorithmRequest) : analysing AlgorithmResult :=
  temporal ← temporal_request request;
  let '(departure_property, arrival_property, start, end_) := temporal in
  count ← sfor (λ first_source count,
            _ ← step;
            range ← outgoing csr first_source;
            sfor (first_edge csr departure_property arrival_property start end_) range count)
            (seq 0 (length (csr_vertex_ids csr))) 0;
  mret (Count count).

(** ** Change points *)

Definition event_leb (a b : Z * Z) : bool := (a.1 <? b.1) || ((a.1 =? b.1) && (a.2 <=? b.2)).

Definition change_point (csr : SnapshotCsr) (request : AlgorithmRequest) : analysing AlgorithmResult :=
  if negb (is_finite (ar_change_threshold request)) || SFltb (ar_change_threshold request) (S754_zero false)
  then stop AnInvalidRequest
  else
    time_property ← lift (ok_or AnInvalidRequest (ar_event_time_property request));
    signal_property ← lift (ok_or AnInvalidRequest (ar_signal_property request));
    _ ← reserve (saturating_mul (Z.of_nat (length (csr_edge_ids csr))) 32);
    events ← sfor (λ edge_index (events : gmap (Z * Z) f64),
               _ ← step;
               time ← lift (ok_or AnMissingProperty (edge_integer csr time_property edge_index));
               signal ← lift (ok_or AnMissingProperty (edge_number csr signal_property edge_index));
               if negb (is_finite signal) then stop AnInvalidProperty
               else
                 edge_id ← index (csr_edge_ids csr) edge_index;
                 mret (<[(time, edge_id) := signal]> events)) (seq 0 (length (csr_edge_ids csr))) ∅;
    acc ← sfor (λ (event : Z * Z * f64) (acc : list EdgeId * option f64),
            _ ← step;
            let signal := event.2 in
            let changed :=
              match acc.2 with
              | Some previous =>
                  SFleb (ar_change_threshold request) (SFabs (f64_sub signal previous)) && negb (SFeqb signal previous)
              | None => false
              end in
            mret (if changed then acc.1 ++ [event.1.2] else acc.1, Some signal))
            (entries_by event_leb events) ([], None);
    mret (ChangePoints acc.1).
