(* ===== verification/Journeys.v ===== *)
(** * Journeys through a temporal graph

    What a ride on an edge and a journey are, that every journey can be made without passing a vertex
    twice, and the correctness of [temporal_reachability] and [temporal_motif] of
    [dtg-analytics/src/temporal.rs]. *)

From S2P Require Import Prelude Text Kernel Storage Loops Projection Csr Analytics Traversal Temporal.
Open Scope Z_scope.

(** ** Journeys *)

Section journeys.
Context (csr : SnapshotCsr) (departure_property arrival_property : string) (start end_ : Z).

(** Edge [i] leads from [v] to [w], departs and arrives in the window of the request, and not before
    it departs. *)
Record ride (i v w : nat) (departure arrival : Z) : Prop := {
  rd_edge : edge_at csr i v w;
  rd_departure : edge_integer csr departure_property i = Some departure;
  rd_arrival : edge_integer csr arrival_property i = Some arrival;
  rd_start : start ≤ departure;
  rd_order : departure ≤ arrival;
  rd_end : arrival ≤ end_;
}.

(** [journey source steps v t]: the rides and vertices of [steps] lead from [source], at [start], to
    [v], at [t]; every ride departs when or after the one before it has arrived. *)
Inductive journey (source : nat) : list (nat * nat) → nat → Z → Prop :=
| journey_start : journey source [] source start
| journey_ride steps v t i w departure arrival :
    journey source steps v t → ride i v w departure arrival → t ≤ departure →
    journey source (steps ++ [(i, w)]) w arrival.

Lemma journey_time source steps v t : journey source steps v t → start ≤ t.
Proof. destruct 1 as [|steps v t i w dep arr _ [] Ht]; lia. Qed.

Lemma journey_end source steps v t : journey source steps v t → t ≤ Z.max start end_.
Proof. destruct 1 as [|steps v t i w dep arr _ [] Ht]; lia. Qed.

(** Stopping a journey at a vertex it passes. *)
Lemma journey_stop source steps v t w :
  journey source steps v t → w ∈ source :: steps.*2 →
  ∃ steps' t', steps' `prefix_of` steps ∧ journey source steps' w t' ∧ t' ≤ t.
Proof.
  induction 1 as [|steps v t i u dep arr Hj IH Hr Ht]; cbn.
  - intros ->%list_elem_of_singleton. exists [], start. split; [done|]. split; [constructor|done].
  - rewrite fmap_app, app_comm_cons, elem_of_app. intros [Hw|Hw].
    + destruct (IH Hw) as (steps' & t' & Hp & Hj' & Hle). exists steps', t'.
      split; [by apply prefix_app_r|]. split; [done|]. destruct Hr; lia.
    + apply list_elem_of_singleton in Hw. cbn in Hw. subst u. exists (steps ++ [(i, w)]), arr.
      split; [done|]. split; [by eapply journey_ride|done].
Qed.

Lemma journey_simple source steps v t :
  journey source steps v t → ∃ steps' t', t' ≤ t ∧ journey source steps' v t' ∧ NoDup (source :: steps'.*2).
Proof.
  induction 1 as [|steps v t i w dep arr Hj (steps' & t' & Hle & Hj' & Hnd) Hr Ht].
  - exists [], start. split; [done|]. split; [constructor|apply NoDup_singleton].
  - destruct (decide (w ∈ source :: steps'.*2)) as [Hin|Hout].
    + destruct (journey_stop _ _ _ _ _ Hj' Hin) as (steps'' & t'' & [k ->] & Hj'' & Hle').
      exists steps'', t''. split; [destruct Hr; lia|]. split; [done|].
      rewrite fmap_app, app_comm_cons in Hnd. by apply NoDup_app in Hnd as (? & _).
    + exists (steps' ++ [(i, w)]), arr. split; [done|]. split; [eapply journey_ride; [done|done|lia]|].
      rewrite fmap_app, app_comm_cons. cbn [fmap list_fmap snd]. apply NoDup_app. split; [done|].
      split; [|apply NoDup_singleton]. by intros x Hx ->%list_elem_of_singleton.
Qed.

Lemma journey_bound source steps v t :
  csr_wf csr → (source < vertex_count csr)%nat → journey source steps v t →
  ∀ w, w ∈ source :: steps.*2 → (w < vertex_count csr)%nat.
Proof.
  intros Hwf Hs. induction 1 as [|steps v t i u dep arr Hj IH Hr Ht]; intros w.
  - by intros ->%list_elem_of_singleton.
  - rewrite fmap_app, app_comm_cons, elem_of_app. intros [Hw|Hw]; [by apply IH|].
    apply list_elem_of_singleton in Hw. cbn in Hw. subst w. by destruct (edge_at_bounds _ _ _ _ Hwf (rd_edge _ _ _ _ _ Hr)).
Qed.

(** Fewer rides than vertices are enough. *)
Lemma journey_short source steps v t :
  csr_wf csr → (source < vertex_count csr)%nat → journey source steps v t →
  ∃ steps' t', t' ≤ t ∧ journey source steps' v t' ∧ (length steps' < vertex_count csr)%nat.
Proof.
  intros Hwf Hs (steps' & t' & Hle & Hj & Hnd)%journey_simple. exists steps', t'. split; [done|]. split; [done|].
  pose proof (NoDup_below_length _ _ Hnd (journey_bound _ _ _ _ Hwf Hs Hj)) as Hlen. cbn in Hlen.
  rewrite length_fmap in Hlen. lia.
Qed.
End journeys.

(** ** Times of vertices *)

Definition time_of (times : list Z) (v : nat) : Z := default i64_max (times !! v).

Lemma time_of_insert times v t w :
  (v < length times)%nat → time_of (<[v := t]> times) w = if decide (w = v) then t else time_of times w.
Proof.
  intros Hv. unfold time_of. case_decide as Hw; [subst; by rewrite list_lookup_insert_eq|].
  by rewrite list_lookup_insert_ne.
Qed.
Lemma time_of_init n s t v : (s < n)%nat → time_of (<[s := t]> (replicate n i64_max)) v = if decide (v = s) then t else i64_max.
Proof.
  intros Hs. rewrite time_of_insert by by rewrite length_replicate. case_decide; [done|]. unfold time_of.
  destruct (replicate n i64_max !! v) eqn:Hv; [|done]. apply lookup_replicate in Hv as [-> _]. done.
Qed.

(** The properties and the window of a request. *)
Definition temporal_window (request : AlgorithmRequest) (dp ap : string) (start end_ : Z) : Prop :=
  ar_departure_property request = Some dp ∧ ar_arrival_property request = Some ap ∧
  ar_time_start request = Some start ∧ ar_time_end request = Some end_ ∧ start ≤ end_.
(** Some edge lacks one of the two times. *)
Definition timeless (csr : SnapshotCsr) (dp ap : string) : Prop :=
  ∃ i u w, edge_at csr i u w ∧ (edge_integer csr dp i = None ∨ edge_integer csr ap i = None).

Section temporal_rules.
Context (Q : AnalyticsError → Prop) (HQ : ∀ e, refused e → Q e).

Lemma swp_time (times : list Z) v (P : Z → Prop) : (v < length times)%nat → P (time_of times v) → swp (index times v) P Q.
Proof.
  intros Hv HP. destruct (lookup_lt_is_Some_2 times v Hv) as [t Ht]. apply (swp_at Q _ _ _ _ Ht).
  unfold time_of in HP. by rewrite Ht in HP.
Qed.
Lemma swp_edge_times csr i dp ap (P : Z * Z → Prop) :
  (edge_integer csr dp i = None ∨ edge_integer csr ap i = None → Q AnMissingProperty) →
  (∀ d a, edge_integer csr dp i = Some d → edge_integer csr ap i = Some a → P (d, a)) →
  swp (edge_times csr i dp ap) P Q.
Proof.
  intros HM HP. unfold edge_times.
  apply swp_bind, swp_lift. destruct (edge_integer csr dp i) as [d|]; [|apply HM; by left].
  apply swp_bind, swp_lift. destruct (edge_integer csr ap i) as [a|]; [|apply HM; by right]. apply swp_ret. by apply HP.
Qed.
Lemma swp_temporal_request request (P : string * string * Z * Z → Prop) :
  ((∀ dp ap s e, ¬ temporal_window request dp ap s e) → Q AnInvalidRequest) →
  (∀ dp ap s e, temporal_window request dp ap s e → P (dp, ap, s, e)) →
  swp (temporal_request request) P Q.
Proof.
  unfold temporal_window. intros HI HP. unfold temporal_request.
  apply swp_bind, swp_lift. destruct (ar_departure_property request) as [dp|]; [|apply HI; naive_solver].
  apply swp_bind, swp_lift. destruct (ar_arrival_property request) as [ap|]; [|apply HI; naive_solver].
  apply swp_bind, swp_lift. destruct (ar_time_start request) as [s|]; [|apply HI; naive_solver].
  apply swp_bind, swp_lift. destruct (ar_time_end request) as [e|]; [|apply HI; naive_solver].
  cbn [ok_or]. destruct (e <? s) eqn:He.
  - apply swp_stop, HI. intros ? ? ? ? (? & ? & ? & ? & ?). simplify_eq. lia.
  - apply swp_ret, HP. repeat split. lia.
Qed.
Lemma swp_list_reachable csr arrivals :
  length arrivals = vertex_count csr →
  swp (sfor (λ '(vertex, arrival) reachable,
         _ ← step; mret (if arrival =? i64_max then reachable else reachable ++ [vertex]))
         (zip (csr_vertex_ids csr) arrivals) [])
    (λ ids, identifies csr ids (base.filter (λ v, time_of arrivals v ≠ i64_max) (seq 0 (vertex_count csr)))) Q.
Proof.
  intros Hl. assert (length (zip (csr_vertex_ids csr) arrivals) = vertex_count csr) as Hlen.
  { rewrite length_zip_with. unfold vertex_count in *. lia. }
  rewrite <-Hlen.
  apply (swp_for (λ pre ids, identifies csr ids (base.filter (λ v, time_of arrivals v ≠ i64_max) (seq 0 (length pre))))).
  { done. }
  intros pre [id arrival] post ids Hzip Hids. apply swp_bind, (swp_step Q HQ), swp_ret.
  assert (zip (csr_vertex_ids csr) arrivals !! length pre = Some (id, arrival)) as Hk.
  { rewrite Hzip. by rewrite lookup_app_r, Nat.sub_diag by lia. }
  apply lookup_zip_with_Some in Hk as (? & ? & [= <- <-] & Hid & Ha).
  rewrite length_app. cbn [length]. rewrite Nat.add_1_r, seq_S, filter_app, filter_cons. cbn [Nat.add].
  assert (time_of arrivals (length pre) = arrival) as -> by (unfold time_of; by rewrite Ha).
  destruct (arrival =? i64_max) eqn:Hmax; to_prop.
  - rewrite decide_False by tauto. by rewrite app_nil_r.
  - rewrite decide_True by done. by apply identifies_snoc.
Qed.
End temporal_rules.

(** ** Reachability *)

Section reachability.
Context (Q : AnalyticsError → Prop) (HQ : ∀ e, refused e → Q e).
Context (csr : SnapshotCsr) (Hwf : csr_wf csr) (dp ap : string) (start end_ : Z) (source : nat).
Context (HM : timeless csr dp ap → Q AnMissingProperty).
Context (Hsource : (source < vertex_count csr)%nat) (Hse : start ≤ end_) (Hend : end_ < i64_max).

Let J := journey csr dp ap start end_ source.
Let R := ride csr dp ap start end_.

(** Every time below the sentinel is that of a journey. *)
Record arrivals_ok (arrivals : list Z) : Prop := {
  ao_length : length arrivals = vertex_count csr;
  ao_max v : time_of arrivals v ≤ i64_max;
  ao_sound v : time_of arrivals v ≠ i64_max → ∃ steps, J steps v (time_of arrivals v);
}.

Definition earlier (a b : list Z) : Prop := ∀ v, time_of a v ≤ time_of b v.

Lemma arrivals_ok_init : arrivals_ok (<[source := start]> (replicate (vertex_count csr) i64_max)).
Proof.
  split.
  - by rewrite length_insert, length_replicate.
  - intros v. rewrite time_of_init by done. case_decide; lia.
  - intros v. rewrite time_of_init by done. case_decide as Hv; [|done]. intros _. subst. exists []. constructor.
Qed.

(** A ride that can be caught at [v] gives [w] an arrival. *)
Lemma arrivals_ok_ride arrivals i v w departure arrival :
  arrivals_ok arrivals → R i v w departure arrival → time_of arrivals v ≤ departure →
  arrival ≤ time_of arrivals w →
  arrivals_ok (<[w := arrival]> arrivals) ∧ earlier (<[w := arrival]> arrivals) arrivals.
Proof.
  intros [Hl Hmax Hs] Hr Hv Hlt. destruct (edge_at_bounds _ _ _ _ Hwf (rd_edge _ _ _ _ _ _ _ _ _ _ Hr)) as [Hvn Hwn].
  pose proof (rd_order _ _ _ _ _ _ _ _ _ _ Hr) as Hda. pose proof (rd_end _ _ _ _ _ _ _ _ _ _ Hr) as Hae. split; [split|].
  - by rewrite length_insert.
  - intros u. rewrite time_of_insert by lia. case_decide; [lia|done].
  - intros u. rewrite time_of_insert by lia. case_decide as Hu; [|apply Hs]. intros _. subst u.
    destruct (Hs v) as [steps Hj]; [lia|]. exists (steps ++ [(i, w)]). by eapply journey_ride.
  - intros u. rewrite time_of_insert by lia. case_decide; [subst; lia|done].
Qed.

(** What was improved since [before], when [P] edges were tried: nothing got worse, and the rides on
    them that could be caught have been taken. *)
Record improved (before : list Z) (tried : nat → nat → Prop) (acc : list Z * bool) : Prop := {
  im_ok : arrivals_ok acc.1;
  im_earlier : earlier acc.1 before;
  im_tried i v w departure arrival : tried v i → R i v w departure arrival → time_of before v ≤ departure →
    time_of acc.1 w ≤ arrival;
  im_changed : acc.2 = false → acc.1 = before;
}.

Lemma swp_relax_reachable before tried v i w acc :
  improved before tried acc → edge_at csr i v w →
  swp (relax_reachable csr dp ap start end_ v i acc) (improved before (λ u j, tried u j ∨ u = v ∧ j = i)) Q.
Proof.
  intros [Hok He Ht Hc] Hedge. destruct (edge_at_bounds _ _ _ _ Hwf Hedge) as [Hv Hw].
  pose proof (ao_length _ Hok) as Hl. unfold relax_reachable.
  apply swp_bind, (swp_step Q HQ), swp_bind, swp_edge_times; [intros; apply HM; by exists i, v, w|]. intros d a Hd Ha.
  apply swp_bind, swp_time; [lia|].
  assert (∀ acc', arrivals_ok acc'.1 → earlier acc'.1 acc.1 → (acc'.2 = false → acc' = acc) →
    (R i v w d a → time_of acc.1 v ≤ d → time_of acc'.1 w ≤ a) →
    improved before (λ u j, tried u j ∨ u = v ∧ j = i) acc') as Hdone.
  { intros acc' Hok' He' Hc' Hr'. split; [done| | |].
    - intros u. specialize (He u). specialize (He' u). lia.
    - intros j u x dep arr [Hj|[-> ->]] Hr Hle.
      + specialize (Ht j u x dep arr Hj Hr Hle). specialize (He' x). lia.
      + pose proof Hr as [Hex Hdx Hax _ _ _]. rewrite Hd in Hdx. rewrite Ha in Hax. simplify_eq.
        assert (x = w) as -> by (destruct Hedge as [_ H1], Hex as [_ H2]; rewrite H1 in H2; injection H2; lia).
        apply Hr'; [done|]. specialize (He v). lia.
    - intros Hf. rewrite (Hc' Hf). apply Hc. by rewrite <-(Hc' Hf). }
  destruct (_ && _) eqn:Hcond; to_prop.
  - assert (R i v w d a) as Hr by (split; try done; lia).
    apply swp_bind, (swp_usize_at Q _ _ w); [apply Hedge|]. apply swp_bind, swp_time; [lia|].
    destruct (a <? time_of acc.1 w) eqn:Hlt.
    + destruct (arrivals_ok_ride acc.1 i v w d a) as [Hok' He']; [done|done|lia|lia|].
      apply swp_bind, swp_assign; [lia|]. apply swp_ret, Hdone; cbn; [done|done|done|].
      intros _ _. rewrite time_of_insert by lia. by rewrite decide_True.
    + apply swp_ret, Hdone; [done|by intros u|done|]. intros _ _. lia.
  - apply swp_ret, Hdone; [done|by intros u|done|]. intros [] Hle. exfalso. apply not_true_iff_false in Hcond.
    apply Hcond. rewrite !andb_true_iff, !Z.leb_le. lia.
Qed.

Lemma improved_weaken before (tried tried' : nat → nat → Prop) acc :
  improved before tried acc → (∀ i u w, tried' u i → edge_at csr i u w → tried u i) → improved before tried' acc.
Proof.
  intros [Hok He Ht Hc] Hw. split; try done. intros i u w dep arr Hi Hr. apply (Ht i); [|done].
  eapply Hw; [done|apply Hr].
Qed.

Lemma swp_reachability_vertex before pre v acc :
  improved before (λ u _, u ∈ pre) acc → (v < vertex_count csr)%nat →
  swp (reachability_vertex csr dp ap start end_ v acc) (improved before (λ u _, u ∈ pre ++ [v])) Q.
Proof.
  intros HI Hv. pose proof (ao_length _ (im_ok _ _ _ HI)) as Hl. unfold reachability_vertex.
  apply swp_bind, (swp_step Q HQ), swp_bind, swp_time; [lia|].
  destruct (time_of acc.1 v =? i64_max) eqn:Hmax; to_prop.
  - apply swp_ret. destruct HI as [Hok He Ht Hc]. split; try done.
    intros i u w dep arr [Hu|Hu%list_elem_of_singleton]%elem_of_app Hr Hle; [by eapply Ht|]. subst u.
    specialize (He v). destruct Hr. lia.
  - apply swp_bind, (swp_outgoing Q csr v _ Hwf Hv). intros r _ Hin Hall.
    eapply swp_mono; [apply (swp_for (λ done, improved before (λ u j, u ∈ pre ∨ u = v ∧ j ∈ done)) _ _ _ Q)| |done].
    + eapply improved_weaken; [exact HI|]. intros i u w [Hu|[_ Hi]]; [done|by apply elem_of_nil in Hi].
    + intros done i post acc' Hr HI'. destruct (Hin i) as (w & Hedge & _); [rewrite Hr; apply elem_of_app; right; left|].
      eapply swp_mono; [by eapply swp_relax_reachable| |done]. intros acc'' HI''.
      eapply improved_weaken; [exact HI''|]. intros j u x. rewrite elem_of_app, list_elem_of_singleton. tauto.
    + intros acc' HI'. eapply improved_weaken; [exact HI'|]. intros i u w.
      rewrite elem_of_app, list_elem_of_singleton. intros [Hu| ->] Hedge; [by left|]. right. split; [done|by eapply Hall].
Qed.

Lemma swp_reachability_round k before :
  arrivals_ok before →
  swp (reachability_round csr dp ap start end_ k before)
    (λ r, match r with
       | inl after => improved before (λ _ _, True) (after, true)
       | inr after => after = before ∧ improved before (λ _ _, True) (after, false)
       end) Q.
Proof.
  intros Hok. unfold reachability_round. apply swp_bind, (swp_step Q HQ), swp_bind.
  eapply swp_mono; [apply (swp_for (λ pre, improved before (λ u _, u ∈ pre)) _ _ _ Q)| |done].
  - split; cbn; [done|by intros u|by intros ? ? ? ? ? ?%elem_of_nil|done].
  - intros pre v post acc Hseq HI. apply swp_reachability_vertex; [done|].
    assert (v ∈ seq 0 (vertex_count csr)) as Hv%elem_of_seq; [|lia].
    unfold vertex_count. rewrite Hseq. apply elem_of_app. right. left.
  - intros [after changed] HI. assert (improved before (λ _ _, True) (after, changed)) as HI'.
    { eapply improved_weaken; [exact HI|]. intros i u w _ Hedge. apply elem_of_seq.
      destruct (edge_at_bounds _ _ _ _ Hwf Hedge). unfold vertex_count in *. lia. }
    destruct changed; apply swp_ret; [done|]. split; [by apply (im_changed _ _ _ HI')|done].
Qed.

(** No journey arrives earlier. *)
Definition earliest (arrivals : list Z) : Prop := ∀ steps v t, J steps v t → time_of arrivals v ≤ t.

Lemma improved_earliest arrivals changed :
  improved arrivals (λ _ _, True) (arrivals, changed) → time_of arrivals source ≤ start → earliest arrivals.
Proof.
  intros HI Hs steps v t Hj. induction Hj as [|steps v t i w dep arr _ IH Hr Ht]; [done|].
  eapply (im_tried _ _ _ HI i v w dep arr); [done|done|lia].
Qed.

Lemma swp_reachability_loop :
  swp (sfor_break (reachability_round csr dp ap start end_) (seq 0 (length (csr_vertex_ids csr)))
         (<[source := start]> (replicate (vertex_count csr) i64_max)))
    (λ arrivals, arrivals_ok arrivals ∧ earliest arrivals) Q.
Proof.
  apply (swp_for_break (λ pre arrivals, arrivals_ok arrivals ∧ time_of arrivals source ≤ start ∧
    ∀ steps v t, J steps v t → (length steps ≤ length pre)%nat → time_of arrivals v ≤ t)).
  - split; [apply arrivals_ok_init|].
    assert (time_of (<[source:=start]> (replicate (vertex_count csr) i64_max)) source ≤ start) as H0.
    { rewrite time_of_init by done. by rewrite decide_True. }
    split; [done|]. intros steps v t Hj Hlen. destruct Hj as [|steps v t i w dep arr Hj Hr Ht]; [done|].
    rewrite length_app in Hlen. cbn in Hlen. lia.
  - intros pre k post arrivals _ (Hok & Hs & Hpre). eapply swp_mono; [by apply swp_reachability_round| |done].
    intros [after|after].
    + intros HI. pose proof (im_earlier _ _ _ HI) as He. cbn in He. split; [apply HI|]. split; [specialize (He source); lia|].
      intros steps v t Hj Hlen. destruct Hj as [|steps v t i w dep arr Hj Hr Ht]; [specialize (He source); lia|].
      rewrite !length_app in Hlen. cbn in Hlen. eapply (im_tried _ _ _ HI i v w dep arr); [done|done|].
      specialize (Hpre steps v t Hj). lia.
    + intros [-> HI]. split; [done|]. by eapply improved_earliest.
  - intros arrivals (Hok & _ & Hpre). split; [done|]. intros steps v t Hj.
    destruct (journey_short csr dp ap start end_ source steps v t Hwf Hsource Hj) as (steps' & t' & Hle & Hj' & Hlen).
    specialize (Hpre steps' v t' Hj'). rewrite length_seq in Hpre. unfold vertex_count in Hlen. lia.
Qed.

End reachability.

(** What [temporal_reachability] costs: a round for every vertex, in it all edges of every vertex. *)
Definition reachability_work (csr : SnapshotCsr) : nat :=
  (vertex_count csr * S (vertex_count csr * S (length (csr_neighbors csr))) + vertex_count csr)%nat.

Lemma costs_edge_times csr i dp ap : costs 0 0 (edge_times csr i dp ap).
Proof.
  apply (costs_bind 0 0 0 0); [apply costs_ok_or; by intros [|]|]. intros d.
  apply (costs_bind 0 0 0 0); [apply costs_ok_or; by intros [|]|]. intros a. apply costs_ret.
Qed.
Lemma costs_temporal_request request : costs 0 0 (temporal_request request).
Proof.
  do 4 (apply (costs_bind 0 0 0 0); [apply costs_ok_or; by intros [|]|]; intros ?).
  destruct (_ <? _); [|apply costs_ret]. intros g _. by intros [|].
Qed.

Lemma costs_reachability_round csr dp ap start end_ k arrivals :
  csr_wf csr →
  costs 0 (S (vertex_count csr * S (length (csr_neighbors csr)))) (reachability_round csr dp ap start end_ k arrivals).
Proof.
  intros Hwf. unfold reachability_round. set (w := (vertex_count csr * S (length (csr_neighbors csr)))%nat).
  apply (costs_bind 0 1 0 w); [apply costs_step|]. intros _.
  eapply costs_mono; [apply (costs_bind 0 w 0 0)|lia|lia];
    [|intros acc; destruct acc.2; apply costs_ret].
  unfold w. rewrite <-(length_seq (vertex_count csr) 0) at 1. apply costs_for. intros v acc _. unfold reachability_vertex.
  apply (costs_bind 0 1 0 (length (csr_neighbors csr))); [apply costs_step|]. intros _.
  apply (costs_bind 0 0 0 (length (csr_neighbors csr))); [apply costs_index|]. intros here.
  destruct (_ =? _); [eapply costs_mono; [apply costs_ret|lia|lia]|].
  apply (costs_bind_of (λ r, (length r ≤ length (csr_neighbors csr))%nat) 0 0 0 (length (csr_neighbors csr)));
    [apply costs_outgoing|by apply outgoing_length|].
  intros r Hr. eapply costs_mono; [apply (costs_for 1)|lia|lia]. intros i acc' _. unfold relax_reachable.
  apply (costs_bind 0 1 0 0); [apply costs_step|]. intros _.
  apply (costs_bind 0 0 0 0); [apply costs_edge_times|]. intros [d a].
  apply (costs_bind 0 0 0 0); [apply costs_index|]. intros h. destruct (_ && _); [|apply costs_ret].
  apply (costs_bind 0 0 0 0); [apply costs_index_usize|]. intros x.
  apply (costs_bind 0 0 0 0); [apply costs_index|]. intros there. destruct (_ <? _); [|apply costs_ret].
  apply (costs_bind 0 0 0 0); [apply costs_assign|]. intros l. apply costs_ret.
Qed.

Lemma costs_reachability csr request :
  csr_wf csr → costs (8 * vertex_count csr) (reachability_work csr) (temporal_reachability csr request).
Proof.
  intros Hwf. unfold temporal_reachability.
  apply (costs_bind 0 0 (8 * vertex_count csr) (reachability_work csr)); [apply costs_vertex_of|]. intros source.
  apply (costs_bind 0 0 (8 * vertex_count csr) (reachability_work csr)); [apply costs_temporal_request|].
  intros [[[dp ap] start] end_].
  set (w := (vertex_count csr * S (vertex_count csr * S (length (csr_neighbors csr))))%nat).
  apply (costs_mono (Z.to_nat (saturating_mul (Z.of_nat (vertex_count csr)) 8) + 0) (0 + (w + (vertex_count csr * 1 + 0))));
    [|unfold saturating_mul; lia|unfold reachability_work, w; lia].
  apply costs_bind; [apply costs_reserve|]. intros _.
  apply (costs_bind 0 0 0 (w + (vertex_count csr * 1 + 0))); [apply costs_assign|]. intros arrivals.
  apply (costs_bind 0 w 0 (vertex_count csr * 1 + 0)).
  { unfold w. rewrite <-(length_seq (vertex_count csr) 0) at 1. apply costs_for_break. intros k a _. by apply costs_reachability_round. }
  intros arrivals'. apply (costs_bind 0 (vertex_count csr * 1) 0 0); [|intros r; apply costs_ret].
  eapply costs_mono; [apply (costs_for 1)|lia|rewrite length_zip_with; unfold vertex_count; lia].
  intros [id a] r _. apply (costs_bind 0 1 0 0); [apply costs_step|]. intros _. apply costs_ret.
Qed.

Definition temporal_failure (csr : SnapshotCsr) (request : AlgorithmRequest) (e : AnalyticsError) : Prop :=
  refused e ∨
  e = AnInvalidRequest ∧ (source_of csr request = None ∨ ∀ dp ap start end_, ¬ temporal_window request dp ap start end_) ∨
  e = AnMissingProperty ∧ ∃ dp ap start end_, temporal_window request dp ap start end_ ∧ timeless csr dp ap.

(** The vertices some journey leads to, in ascending order. *)
Definition reached_of (csr : SnapshotCsr) (request : AlgorithmRequest) (result : AlgorithmResult) : Prop :=
  ∃ source dp ap start end_ vs ids, source_of csr request = Some source ∧
    temporal_window request dp ap start end_ ∧ result = Reachable ids ∧ identifies csr ids vs ∧
    StronglySorted lt vs ∧ ∀ v, v ∈ vs ↔ ∃ steps t, journey csr dp ap start end_ source steps v t.

Lemma StronglySorted_filter_dec {A} (R : A → A → Prop) (P : A → Prop) `{∀ a, Decision (P a)} l :
  StronglySorted R l → StronglySorted R (base.filter P l).
Proof.
  induction 1 as [|a l Hl IH Ha]; [constructor|]. rewrite filter_cons. case_decide; [|done]. constructor; [done|].
  rewrite Forall_forall in *. intros b [_ Hb]%list_elem_of_filter. by apply Ha.
Qed.
Lemma seq_sorted k n : StronglySorted lt (seq k n).
Proof.
  revert k. induction n as [|n IH]; intros k; cbn; constructor; [apply IH|].
  apply Forall_forall. intros v Hv%elem_of_seq. lia.
Qed.

Lemma swp_temporal_reachability csr request :
  csr_wf csr → (∀ end_, ar_time_end request = Some end_ → end_ < i64_max) →
  swp (temporal_reachability csr request) (reached_of csr request) (temporal_failure csr request).
Proof.
  intros Hwf Hend. assert (∀ e, refused e → temporal_failure csr request e) as HQ by by left.
  unfold temporal_reachability. apply swp_bind, swp_vertex_of; [intros ?; right; left; split; [done|by left]|].
  intros source Hs Hlt. apply swp_bind, swp_temporal_request; [intros ?; right; left; split; [done|by right]|].
  intros dp ap start end_ Hwin. pose proof Hwin as (_ & _ & _ & He & Hle). specialize (Hend _ He).
  apply swp_bind, (swp_reserve_memory _ HQ), swp_bind, swp_assign; [by rewrite length_replicate|]. apply swp_bind.
  eapply swp_mono; [apply (swp_reachability_loop (temporal_failure csr request) HQ csr Hwf dp ap start end_ source); try done| |done].
  { intros ?. right. right. split; [done|]. by exists dp, ap, start, end_. }
  intros arrivals [[Hl Hmax Hsound] Hfirst]. apply swp_bind.
  eapply swp_mono; [by apply swp_list_reachable| |done]. intros ids Hids. apply swp_ret.
  exists source, dp, ap, start, end_, (base.filter (λ v, time_of arrivals v ≠ i64_max) (seq 0 (vertex_count csr))), ids.
  split; [done|]. split; [done|]. split; [done|]. split; [done|]. split; [apply StronglySorted_filter_dec, seq_sorted|].
  intros v. rewrite list_elem_of_filter, elem_of_seq. split.
  - intros [Hv _]. destruct (Hsound v Hv) as [steps Hj]. eauto.
  - intros (steps & t & Hj). pose proof (Hfirst _ _ _ Hj) as Ht. pose proof (journey_end _ _ _ _ _ _ _ _ _ Hj). split; [lia|].
    split; [lia|]. apply (journey_bound _ _ _ _ _ _ _ _ _ Hwf Hlt Hj).
    destruct Hj; [left|]. rewrite fmap_app. right. apply elem_of_app. right. left.
Qed.

(** Temporal reachability on a well-formed graph: when the window ends before the largest time,
    the answer lists exactly the vertices that some journey within the window leads to from the
    source, in ascending order.  It fails only if the guard refuses, the request is not complete, or
    an edge has no departure or arrival; and it does return when none of these is the case and the
    budget allows a round over all vertices and their edges for every vertex. *)
Theorem temporal_reachability_correct csr request guard :
  csr_wf csr → (∀ end_, ar_time_end request = Some end_ → end_ < i64_max) →
  match temporal_reachability csr request guard with
  | Ok (result, _) => reached_of csr request result
  | Err e => temporal_failure csr request e
  end ∧
  ∀ dp ap start end_, is_Some (source_of csr request) → temporal_window request dp ap start end_ →
    ¬ timeless csr dp ap → within (8 * vertex_count csr) (reachability_work csr) guard →
    is_ok (temporal_reachability csr request guard) = true.
Proof.
  intros Hwf Hend. pose proof (swp_temporal_reachability csr request Hwf Hend) as Hm. split; [apply Hm|].
  intros dp ap start end_ [s Hs] Hwin Ht Hw.
  apply (costs_returns _ _ _ (reached_of csr request) refused) with (1 := costs_reachability csr request Hwf); [|done|done].
  eapply swp_mono; [exact Hm|done|]. intros e [He|[[_ [Hn|Hn]]|(_ & dp' & ap' & s' & e' & Hwin' & Ht')]]; [done|congruence| |].
  - by destruct (Hn dp ap start end_).
  - destruct Hwin as (? & ? & _), Hwin' as (? & ? & _). by simplify_eq.
Qed.

(** ** Examples *)

(** 1 to 2 at 0, arriving at 5; 2 to 3 at 3 and at 6; 3 to 4 at 6. *)
Definition timetable : list (Z * Z * Z * Z * Z) :=
  [(11, 1, 2, 0, 5); (12, 2, 3, 3, 4); (13, 2, 3, 6, 8); (14, 3, 4, 6, 7)].
Definition temporal : SnapshotCsr := Eval vm_compute in sample_graph [1; 2; 3; 4] timetable.
Definition journey_request (algorithm : BuiltInAlgorithmId) (source target : option Z) (start end_ : Z) : AlgorithmRequest :=
  mkRequest algorithm source target 0 0 0 0 (SpecFloat.S754_zero false) None (Some "departure"%string)
    (Some "arrival"%string) None None (Some start) (Some end_) (SpecFloat.S754_zero false).

Lemma temporal_wf : csr_wf temporal.
Proof. exact (sample_wf [1; 2; 3; 4] timetable eq_refl). Qed.

Lemma temporal_reachability_witness :
  reached_of temporal (journey_request TemporalReachability (Some 1) None 0 10) (Reachable [1; 2; 3]).
Proof.
  destruct (temporal_reachability_correct temporal (journey_request TemporalReachability (Some 1) None 0 10) free_guard
    temporal_wf) as [H _]; [intros end_ [= <-]; reflexivity|].
  assert (fst <$> temporal_reachability temporal (journey_request TemporalReachability (Some 1) None 0 10) free_guard =
    Ok (Reachable [1; 2; 3])) as Heq by (vm_compute; reflexivity).
  destruct (temporal_reachability _ _ free_guard) as [[result guard]|e]; [|discriminate Heq].
  cbn in Heq. injection Heq as ->. exact H.
Defined.

(** ** Motifs *)

Section motifs.
Context (Q : AnalyticsError → Prop) (HQ : ∀ e, refused e → Q e).
Context (csr : SnapshotCsr) (Hwf : csr_wf csr) (dp ap : string) (start end_ : Z).
Context (HM : timeless csr dp ap → Q AnMissingProperty).

(** The second edge leaves the vertex the first leads to, when or after the first has arrived, and
    arrives in the window; it is not asked whether it arrives after it departs. *)
Definition follows (i j : nat) : Prop :=
  ∃ u m w d a d' a', ride csr dp ap start end_ i u m d a ∧ edge_at csr j m w ∧
    edge_integer csr dp j = Some d' ∧ edge_integer csr ap j = Some a' ∧ a ≤ d' ∧ a' ≤ end_.

(** [count] is the number of the pairs that satisfy [P]. *)
Definition counts (P : nat * nat → Prop) (count : Z) : Prop :=
  ∃ pairs, NoDup pairs ∧ count = Z.of_nat (length pairs) ∧ ∀ p, p ∈ pairs ↔ P p.

Lemma counts_add P p count : counts P count → ¬ P p → counts (λ q, P q ∨ q = p) (count + 1).
Proof.
  intros (pairs & Hnd & -> & Hin) Hp. exists (pairs ++ [p]). split; [|split].
  - apply NoDup_app. split; [done|]. split; [|apply NoDup_singleton]. intros q Hq ->%list_elem_of_singleton. by apply Hp, Hin.
  - rewrite length_app. cbn. lia.
  - intros q. by rewrite elem_of_app, list_elem_of_singleton, Hin.
Qed.
Lemma counts_iff P P' count : counts P count → (∀ p, P p ↔ P' p) → counts P' count.
Proof. intros (pairs & Hnd & Hl & Hin) HP. exists pairs. split; [done|]. split; [done|]. intros p. by rewrite Hin, HP. Qed.

Lemma edge_at_source i u u' w w' : edge_at csr i u w → edge_at csr i u' w' → u = u' ∧ w = w'.
Proof.
  intros H1 H2. split; [by eapply (cw_unique _ Hwf)|]. destruct H1 as [_ H1], H2 as [_ H2]. rewrite H1 in H2. injection H2. lia.
Qed.

Lemma swp_second_edge P i u m d a j w count :
  counts P count → ¬ P (i, j) → ride csr dp ap start end_ i u m d a → edge_at csr j m w →
  swp (second_edge csr dp ap end_ a j count) (counts (λ p, P p ∨ p = (i, j) ∧ follows i j)) Q.
Proof.
  intros Hc Hp Hr Hedge. unfold second_edge. apply swp_bind, (swp_step Q HQ).
  apply swp_bind, swp_edge_times; [intros; apply HM; by exists j, m, w|]. intros d' a' Hd' Ha'.
  destruct (_ && _) eqn:Hcond; to_prop.
  - assert (follows i j) as Hf by (exists u, m, w, d, a, d', a'; do 5 (split; [done|]); done).
    destruct (_ <? _); [|apply swp_stop, HQ; by right]. apply swp_ret. eapply counts_iff; [by apply (counts_add P (i, j))|].
    naive_solver.
  - apply swp_ret. eapply counts_iff; [done|]. intros p. split; [by left|]. intros [Hpp|[-> Hf]]; [done|]. exfalso.
    destruct Hf as (u' & m' & w' & d2 & a2 & d3 & a3 & [He2 Hd2 Ha2 _ _ _] & _ & Hd3 & Ha3 & Hle1 & Hle2).
    pose proof Hr as [He Hd Ha _ _ _]. simplify_eq. apply not_true_iff_false in Hcond. apply Hcond.
    rewrite andb_true_iff, !Z.leb_le. lia.
Qed.

Lemma swp_first_edge P i u m count :
  counts P count → (∀ j, ¬ P (i, j)) → edge_at csr i u m →
  swp (first_edge csr dp ap start end_ i count) (counts (λ p, P p ∨ p.1 = i ∧ follows i p.2)) Q.
Proof.
  intros Hc Hp Hedge. unfold first_edge. apply swp_bind, (swp_step Q HQ).
  apply swp_bind, swp_edge_times; [intros; apply HM; by exists i, u, m|]. intros d a Hd Ha.
  destruct (_ || _) eqn:Hcond; to_prop.
  - apply swp_ret. eapply counts_iff; [done|]. intros p. split; [by left|]. intros [Hpp|[_ Hf]]; [done|]. exfalso.
    destruct Hf as (u' & m' & w' & d2 & a2 & d3 & a3 & [He2 Hd2 Ha2 ? ? ?] & _). simplify_eq. lia.
  - assert (ride csr dp ap start end_ i u m d a) as Hr by (split; try done; lia).
    destruct (edge_at_bounds _ _ _ _ Hwf Hedge) as [_ Hm]. apply swp_bind, (swp_usize_at Q _ _ m); [apply Hedge|].
    apply swp_bind, (swp_outgoing Q csr m _ Hwf Hm). intros r Hnd Hin Hall.
    eapply swp_mono; [apply (swp_for (λ pre, counts (λ p, P p ∨ p.1 = i ∧ p.2 ∈ pre ∧ follows i p.2)) _ _ _ Q)| |done].
    + eapply counts_iff; [done|]. intros p. rewrite elem_of_nil. tauto.
    + intros pre j post c Hr' Hc'. destruct (Hin j) as (w & He & _); [rewrite Hr'; apply elem_of_app; right; left|].
      eapply swp_mono; [eapply (swp_second_edge _ i u m d a j w); [done| |done|done]| |done].
      * cbn. intros [?|(_ & Hj & _)]; [by apply (Hp j)|]. rewrite Hr' in Hnd. apply NoDup_app in Hnd as (_ & Hdis & _).
        by apply (Hdis j Hj); left.
      * intros c' Hc''. eapply counts_iff; [exact Hc''|]. intros [x y]. cbn. rewrite elem_of_app, list_elem_of_singleton. naive_solver.
    + intros c Hc'. eapply counts_iff; [exact Hc'|]. intros [x y]. cbn. split; [tauto|]. intros [?|[-> Hf]]; [by left|].
      right. split; [done|]. split; [|done].
      destruct Hf as (u' & m' & w' & d2 & a2 & d3 & a3 & [He2 _ _ _ _ _] & He3 & _).
      destruct (edge_at_source _ _ _ _ _ Hedge He2) as [_ <-]. by eapply Hall.
Qed.

Lemma swp_motif_loop :
  swp (sfor (λ first_source count,
         _ ← step;
         range ← outgoing csr first_source;
         sfor (first_edge csr dp ap start end_) range count)
         (seq 0 (length (csr_vertex_ids csr))) 0)
    (counts (λ p, follows p.1 p.2)) Q.
Proof.
  eapply swp_mono; [apply (swp_for (λ pre, counts (λ p, follows p.1 p.2 ∧ ∃ u m, edge_at csr p.1 u m ∧ u ∈ pre)) _ _ _ Q)| |done].
  - exists []. split; [constructor|]. split; [done|]. intros p. rewrite elem_of_nil. split; [done|].
    by intros (_ & u & m & _ & ?%elem_of_nil).
  - intros pre u post count Hseq Hc. assert (u ∈ seq 0 (vertex_count csr)) as Hu%elem_of_seq.
    { unfold vertex_count. rewrite Hseq. apply elem_of_app. right. left. }
    assert (u ∉ pre) as Hnew.
    { pose proof (NoDup_seq 0 (length (csr_vertex_ids csr))) as Hnd. rewrite Hseq in Hnd.
      apply NoDup_app in Hnd as (_ & Hdis & _). intros Hin. by apply (Hdis u Hin); left. }
    apply swp_bind, (swp_step Q HQ), swp_bind, (swp_outgoing Q csr u _ Hwf); [lia|]. intros r Hnd Hin Hall.
    eapply swp_mono; [apply (swp_for (λ done, counts (λ p, (follows p.1 p.2 ∧ ∃ u m, edge_at csr p.1 u m ∧ u ∈ pre) ∨
      p.1 ∈ done ∧ follows p.1 p.2)) _ _ _ Q)| |done].
    + eapply counts_iff; [done|]. intros p. rewrite elem_of_nil. tauto.
    + intros done i post' c Hr Hc'. destruct (Hin i) as (m & He & _); [rewrite Hr; apply elem_of_app; right; left|].
      eapply swp_mono; [eapply (swp_first_edge _ i u m); [done| |done]| |done].
      * intros j [[_ (u' & m' & He' & Hu')]|[Hi _]]; cbn in *.
        -- by destruct (edge_at_source _ _ _ _ _ He He') as [<- _].
        -- rewrite Hr in Hnd. apply NoDup_app in Hnd as (_ & Hdis & _). by apply (Hdis i Hi); left.
      * intros c' Hc''. eapply counts_iff; [exact Hc''|]. intros [x y]. cbn. rewrite elem_of_app, list_elem_of_singleton. naive_solver.
    + intros c Hc'. eapply counts_iff; [exact Hc'|]. intros [x y]. cbn. setoid_rewrite elem_of_app.
      setoid_rewrite list_elem_of_singleton. split.
      * intros [[Hf (u' & m' & He & Hu')]|[Hx Hf]]; (split; [done|]); [eauto 10|]. destruct (Hin x Hx) as (m & He & _). eauto 10.
      * intros [Hf (u' & m' & He & [Hu'| ->])]; [eauto 10|]. right. split; [by eapply Hall|done].
  - intros c Hc. eapply counts_iff; [exact Hc|]. intros p. split; [tauto|]. intros Hf. split; [done|].
    destruct Hf as (u & m & w & d & a & d' & a' & Hr & _). exists u, m. split; [apply Hr|]. apply elem_of_seq.
    destruct (edge_at_bounds _ _ _ _ Hwf (rd_edge _ _ _ _ _ _ _ _ _ _ Hr)). unfold vertex_count in *. lia.
Qed.
End motifs.

Definition motif_failure (csr : SnapshotCsr) (request : AlgorithmRequest) (e : AnalyticsError) : Prop :=
  refused e ∨
  e = AnInvalidRequest ∧ (∀ dp ap start end_, ¬ temporal_window request dp ap start end_) ∨
  e = AnMissingProperty ∧ ∃ dp ap start end_, temporal_window request dp ap start end_ ∧ timeless csr dp ap.
Definition motifs_of (csr : SnapshotCsr) (request : AlgorithmRequest) (result : AlgorithmResult) : Prop :=
  ∃ dp ap start end_ count, temporal_window request dp ap start end_ ∧ result = Count count ∧
    counts (λ p, follows csr dp ap start end_ p.1 p.2) count.

Lemma swp_temporal_motif csr request :
  csr_wf csr → swp (temporal_motif csr request) (motifs_of csr request) (motif_failure csr request).
Proof.
  intros Hwf. assert (∀ e, refused e → motif_failure csr request e) as HQ by by left.
  unfold temporal_motif. apply swp_bind, swp_temporal_request; [intros ?; right; by left|].
  intros dp ap start end_ Hwin. apply swp_bind.
  eapply swp_mono; [apply (swp_motif_loop (motif_failure csr request) HQ csr Hwf)| |done].
  { intros ?. right. right. split; [done|]. by exists dp, ap, start, end_. }
  intros count Hc. apply swp_ret. by exists dp, ap, start, end_, count.
Qed.

(** Temporal motifs on a well-formed graph: the answer is the number of pairs of edges of which the
    first is a ride within the window and the second leaves the vertex it leads to when or after it
    has arrived, and arrives within the window.  It fails only if the guard refuses, the request is not
    complete, or an edge has no departure or arrival. *)
Theorem temporal_motif_correct csr request guard :
  csr_wf csr →
  match temporal_motif csr request guard with
  | Ok (result, _) => motifs_of csr request result
  | Err e => motif_failure csr request e
  end.
Proof. intros Hwf. by apply swp_temporal_motif. Qed.

Lemma temporal_motif_witness :
  motifs_of temporal (journey_request TemporalMotif None None 0 10) (Count 2).
Proof.
  pose proof (temporal_motif_correct temporal (journey_request TemporalMotif None None 0 10) free_guard temporal_wf) as H.
  assert (fst <$> temporal_motif temporal (journey_request TemporalMotif None None 0 10) free_guard = Ok (Count 2)) as Heq
    by (vm_compute; reflexivity).
  destruct (temporal_motif _ _ free_guard) as [[result guard]|e]; [|discriminate Heq].
  cbn in Heq. injection Heq as ->. exact H.
Defined.

(** The second edge of a motif may arrive before it departs: 2 to 3 at 6 "arriving" at 1 is counted
    after 1 to 2, though no ride on it is possible and it is not counted as a first edge. *)
Lemma motif_of_impossible_ride :
  fst <$> temporal_motif (sample_graph [1; 2; 3] [(11, 1, 2, 0, 5); (12, 2, 3, 6, 1)])
    (journey_request TemporalMotif None None 0 10) free_guard = Ok (Count 1) ∧
  fst <$> temporal_reachability (sample_graph [1; 2; 3] [(11, 1, 2, 0, 5); (12, 2, 3, 6, 1)])
    (journey_request TemporalReachability (Some 2) None 0 10) free_guard = Ok (Reachable [2]).
Proof. split; vm_compute; reflexivity. Qed.
