(* ===== verification/Earliest.v ===== *)
(** * Earliest arrival ([earliest_arrival] of [dtg-analytics/src/temporal.rs])

    The algorithm settles vertices in the order of their arrival times.  The arrival it reports is the
    earliest, and the path it reports is a journey that arrives then.  Predecessors are followed back
    from the target; when rides take no time they may run in a circle, and the loop then goes on until
    the guard refuses. *)

From S2P Require Import Prelude Text Kernel Storage Loops Projection Csr Analytics Traversal Temporal Journeys.
Open Scope Z_scope.

(** ** Loops bounded by the steps of the guard *)

Lemma step_Ok guard guard' :
  step guard = Ok (tt, guard') →
  eg_budget guard' = eg_budget guard ∧ eg_work_items guard < eg_work_items guard' ≤ ab_max_work_items (eg_budget guard).
Proof.
  unfold step, mbind, stateful_bind, checkpoint. destruct (ab_cancelled _ _); [done|]. cbn.
  destruct (_ <=? _); [done|]. destruct (_ <? _) eqn:Hw; [done|]. intros [= <-]. cbn. split; [done|]. lia.
Qed.

(** A loop that takes a step before every further round does not run out of the steps that are left. *)
Lemma swp_steps_loop {A B} (I P' : A → Prop) (P : B → Prop) (Q : AnalyticsError → Prop)
    (body : A → analysing (A + A)) (k : A → analysing B) a :
  I a →
  (∀ a, I a → swp (body a) (λ r, match r with inl a' => I a' | inr a' => P' a' end) Q) →
  (∀ a a' guard guard', body a guard = Ok (inl a', guard') →
     eg_budget guard' = eg_budget guard ∧ eg_work_items guard < eg_work_items guard' ≤ ab_max_work_items (eg_budget guard)) →
  (∀ a, P' a → swp (k a) P Q) →
  swp (fuel ← steps_left; state ← swhile AnalyticsOutOfFuel fuel body a; k state) P Q.
Proof.
  intros HI Hbody Hstep Hk guard. unfold mbind at 1, stateful_bind at 1, steps_left.
  cut (∀ fuel guard a, I a → (Z.to_nat (ab_max_work_items (eg_budget guard) - eg_work_items guard) < fuel)%nat →
    match swhile AnalyticsOutOfFuel fuel body a guard with Ok (a', _) => P' a' | Err e => Q e end).
  { intros Hloop. unfold mbind, stateful_bind. specialize (Hloop _ guard a HI (Nat.lt_succ_diag_r _)).
    destruct (swhile _ _ _ _ _) as [[a' g']|e]; [by apply Hk|done]. }
  clear guard a HI. induction fuel as [|fuel IH]; intros guard a HI Hf; [lia|]. cbn [swhile].
  unfold mbind, stateful_bind. specialize (Hbody a HI guard). specialize (Hstep a).
  destruct (body a guard) as [[[a'|a'] guard']|e] eqn:Hb; [|done|done].
  destruct (Hstep a' guard guard' Hb) as (Hbud & Hlt & Hle). apply IH; [done|]. rewrite Hbud. lia.
Qed.

(** ** Selecting *)

Section selecting.
Context (Q : AnalyticsError → Prop) (HQ : ∀ e, refused e → Q e).

(** The first of the unsettled vertices of [vs] with the earliest arrival. *)
Definition selected (arrivals : list Z) (settled : list bool) (vs : list nat) (current : option nat) : Prop :=
  match current with
  | None => ∀ v, v ∈ vs → flagged settled v ∨ time_of arrivals v = i64_max
  | Some v => v ∈ vs ∧ ¬ flagged settled v ∧ time_of arrivals v ≠ i64_max ∧
      ∀ u, u ∈ vs → ¬ flagged settled u → time_of arrivals v ≤ time_of arrivals u
  end.

Lemma swp_select arrivals settled n :
  length arrivals = n → length settled = n → (∀ v, time_of arrivals v ≤ i64_max) →
  swp (sfor (select_earliest arrivals settled) (seq 0 n) None) (selected arrivals settled (seq 0 n)) Q.
Proof.
  intros Ha Hs Hmax. apply (swp_for (selected arrivals settled)); [by intros v ?%elem_of_nil|].
  intros pre v post current Hseq Hcur.
  assert (v < n)%nat as Hv.
  { assert (v ∈ seq 0 n) as Hv%elem_of_seq by (rewrite Hseq; apply elem_of_app; right; left). lia. }
  destruct (lookup_lt_is_Some_2 settled v) as [done Hdone]; [lia|]. unfold select_earliest.
  apply swp_bind, (swp_step Q HQ), swp_bind, (swp_at Q _ _ _ _ Hdone).
  assert (∀ cur, selected arrivals settled pre cur → (flagged settled v ∨ time_of arrivals v = i64_max) →
    selected arrivals settled (pre ++ [v]) cur) as Hskip.
  { intros [best|]; cbn.
    - intros (Hin & Hn & Hm & Hle) Hsk. split; [apply elem_of_app; by left|]. split; [done|]. split; [done|].
      intros u [Hu|Hu%list_elem_of_singleton]%elem_of_app Hnu; [by apply Hle|]. subst u. destruct Hsk as [?|Hsk]; [done|].
      rewrite Hsk. apply Hmax.
    - intros Hall Hsk u [Hu|Hu%list_elem_of_singleton]%elem_of_app; [by apply Hall|]. by subst. }
  destruct done; [apply swp_ret, Hskip; [done|by left]|].
  assert (¬ flagged settled v) as Hnv by (unfold flagged; congruence).
  apply swp_bind, swp_time; [lia|]. destruct (time_of arrivals v =? i64_max) eqn:Hmaxv; to_prop.
  { apply swp_ret, Hskip; [done|by right]. }
  assert (v ∈ pre ++ [v]) as Hin by (apply elem_of_app; right; left). destruct current as [best|].
  - destruct Hcur as (Hb & Hnb & Hmb & Hle). assert (best < n)%nat as Hbn.
    { assert (best ∈ seq 0 n) as Hx%elem_of_seq by (rewrite Hseq; apply elem_of_app; by left). lia. }
    apply swp_bind, swp_time; [lia|]. destruct (_ || _) eqn:Hcmp.
    + apply swp_ret. cbn. split; [done|]. split; [done|]. split; [done|].
      intros u [Hu|Hu%list_elem_of_singleton]%elem_of_app Hnu; [|by subst]. specialize (Hle u Hu Hnu). lia.
    + apply swp_ret. cbn. split; [apply elem_of_app; by left|]. split; [done|]. split; [done|].
      intros u [Hu|Hu%list_elem_of_singleton]%elem_of_app Hnu; [by apply Hle|]. subst u. lia.
  - apply swp_ret. cbn. split; [done|]. split; [done|]. split; [done|].
    intros u [Hu|Hu%list_elem_of_singleton]%elem_of_app Hnu; [|by subst]. destruct (Hcur u Hu) as [?|Hu']; [done|].
    rewrite Hu'. apply Hmax.
Qed.
End selecting.

(** ** Paths *)

(** The identifiers of edges. *)
Definition edge_identifies (csr : SnapshotCsr) (ids : list EdgeId) (edges : list nat) : Prop :=
  Some <$> ids = (csr_edge_ids csr !!.) <$> edges.

(** The reported path is a journey, and none arrives earlier. *)
Definition earliest_path (csr : SnapshotCsr) (dp ap : string) (start end_ : Z) (source target : nat)
    (path : option TemporalPathResult) : Prop :=
  match path with
  | None => ∀ steps t, ¬ journey csr dp ap start end_ source steps target t
  | Some path => ∃ steps, journey csr dp ap start end_ source steps target (tp_arrival_time path) ∧
      (∀ steps' t, journey csr dp ap start end_ source steps' target t → tp_arrival_time path ≤ t) ∧
      identifies csr (tp_vertices path) (source :: steps.*2) ∧ edge_identifies csr (tp_edge_ids path) steps.*1 ∧
      match steps with
      | [] => tp_departure_time path = tp_arrival_time path
      | (i, _) :: _ => edge_integer csr dp i = Some (tp_departure_time path)
      end
  end.

(** ** Settling *)

Section settling.
Context (Q : AnalyticsError → Prop) (HQ : ∀ e, refused e → Q e).
Context (csr : SnapshotCsr) (Hwf : csr_wf csr) (dp ap : string) (start end_ : Z) (source : nat).
Context (HM : timeless csr dp ap → Q AnMissingProperty).
Context (Hsource : (source < vertex_count csr)%nat) (Hse : start ≤ end_) (Hend : end_ < i64_max).

Let J := journey csr dp ap start end_ source.
Let R := ride csr dp ap start end_.
Let ok := arrivals_ok csr dp ap start end_ source.

(** [done] are the settled vertices, of whose edges those in [tried] were looked at. *)
Record settle_inv (done : list nat) (tried : nat → nat → Prop) (arrivals : list Z) (settled : list bool)
    (predecessor : links) : Prop := {
  si_ok : ok arrivals;
  si_settled : length settled = vertex_count csr;
  si_links : length predecessor = vertex_count csr;
  si_NoDup : NoDup done;
  si_flags v : flagged settled v ↔ v ∈ done;
  si_done v : v ∈ done → (v < vertex_count csr)%nat ∧ time_of arrivals v ≠ i64_max;
  si_source : time_of arrivals source ≤ start;
  si_tried v i w d a : v ∈ done → tried v i → R i v w d a → time_of arrivals v ≤ d → time_of arrivals w ≤ a;
  si_order v u : v ∈ done → (u < vertex_count csr)%nat → u ∉ done → time_of arrivals v ≤ time_of arrivals u;
  si_link w v i : predecessor !! w = Some (Some (v, i)) →
    v ∈ done ∧ ∃ d, R i v w d (time_of arrivals w) ∧ time_of arrivals v ≤ d;
  si_linked w : time_of arrivals w ≠ i64_max → w ≠ source → ∃ p, predecessor !! w = Some (Some p);
}.

Lemma settle_inv_init :
  settle_inv [] (λ _ _, False) (<[source := start]> (replicate (vertex_count csr) i64_max))
    (replicate (vertex_count csr) false) (replicate (vertex_count csr) None).
Proof.
  split; try (by intros ? ?%elem_of_nil); try (by intros ? ? ?%elem_of_nil); try by rewrite length_replicate.
  - by apply arrivals_ok_init.
  - constructor.
  - intros v. unfold flagged. rewrite lookup_replicate, elem_of_nil. naive_solver.
  - rewrite time_of_init by done. by rewrite decide_True.
  - by intros v i w d a ?%elem_of_nil.
  - intros w v i. rewrite lookup_replicate. naive_solver.
  - intros w. rewrite time_of_init by done. case_decide; [done|]. done.
Qed.

(** Riding edge [i] of the vertex settled last. *)
Lemma settle_inv_ride done tried arrivals settled predecessor v i w d a :
  settle_inv done tried arrivals settled predecessor → v ∈ done →
  (∀ u, u ∈ done → time_of arrivals u ≤ time_of arrivals v) →
  R i v w d a → time_of arrivals v ≤ d → a ≤ time_of arrivals w →
  settle_inv done (λ u j, tried u j ∨ u = v ∧ j = i) (<[w := a]> arrivals) settled
    (<[w := Some (v, i)]> predecessor) ∧
  ∀ u, u ∈ done → time_of (<[w := a]> arrivals) u = time_of arrivals u.
Proof.
  intros [Hok Hsl Hpl Hnd Hf Hd Hs Ht Ho Hl Hld] Hv Hlast Hr Hle Ha.
  destruct (edge_at_bounds _ _ _ _ Hwf (rd_edge _ _ _ _ _ _ _ _ _ _ Hr)) as [Hvn Hwn].
  pose proof (rd_order _ _ _ _ _ _ _ _ _ _ Hr) as Hda. pose proof (rd_end _ _ _ _ _ _ _ _ _ _ Hr) as Hae.
  pose proof (ao_length _ _ _ _ _ _ _ Hok) as Hal.
  destruct (arrivals_ok_ride csr Hwf dp ap start end_ source Hsource Hend arrivals i v w d a) as [Hok' He]; [done|done|done|done|].
  assert (∀ u, time_of (<[w := a]> arrivals) u = if decide (u = w) then a else time_of arrivals u) as Htime.
  { intros u. apply time_of_insert. lia. }
  assert (∀ u, u ∈ done → time_of (<[w := a]> arrivals) u = time_of arrivals u) as Hsame.
  { intros u Hu. rewrite Htime. case_decide; [|done]. subst u. specialize (Hlast w Hu). lia. }
  split; [|done]. split; try done.
  - by rewrite length_insert.
  - intros u Hu. rewrite Hsame by done. by apply Hd.
  - specialize (He source). lia.
  - intros u j x d' a' Hu Hj Hrx. rewrite (Hsame u Hu). intros Hle'. specialize (He x). destruct Hj as [Hj|[-> ->]].
    + specialize (Ht u j x d' a' Hu Hj Hrx Hle'). lia.
    + assert (x = w ∧ a' = a) as [-> ->].
      { destruct Hr as [H1 _ H2 _ _ _], Hrx as [H3 _ H4 _ _ _].
        destruct (edge_at_source csr Hwf _ _ _ _ _ H1 H3) as [_ <-]. split; [done|congruence]. }
      rewrite Htime, decide_True by done. lia.
  - intros u x Hu Hx Hnx. rewrite (Hsame u Hu), Htime. case_decide; [|by apply Ho]. specialize (Hlast u Hu). lia.
  - intros x u j. destruct (decide (x = w)) as [->|Hne].
    + rewrite list_lookup_insert_eq by lia. intros [= <- <-]. split; [done|]. exists d.
      rewrite (Hsame v Hv), Htime, decide_True by done. done.
    + rewrite list_lookup_insert_ne by done. intros Hx. destruct (Hl x u j Hx) as (Hu & d' & Hrx & Hle').
      split; [done|]. exists d'. rewrite (Hsame u Hu), Htime, decide_False by done. done.
  - intros x Hx Hxs. destruct (decide (x = w)) as [->|Hne].
    + rewrite list_lookup_insert_eq by lia. eauto.
    + rewrite list_lookup_insert_ne by done. apply Hld; [|done]. rewrite Htime, decide_False in Hx by done. done.
Qed.

(** An edge that gives no earlier arrival. *)
Lemma settle_inv_skip done tried arrivals settled predecessor v i :
  settle_inv done tried arrivals settled predecessor →
  (∀ w d a, R i v w d a → time_of arrivals v ≤ d → time_of arrivals w ≤ a) →
  settle_inv done (λ u j, tried u j ∨ u = v ∧ j = i) arrivals settled predecessor.
Proof.
  intros [Hok Hsl Hpl Hnd Hf Hd Hs Ht Ho Hl Hld] Hw. split; try done.
  intros u j w d a Hu [Hj|[-> ->]] Hr Hle; [by eapply Ht|by eapply Hw].
Qed.
Lemma settle_inv_weaken done (tried tried' : nat → nat → Prop) arrivals settled predecessor :
  settle_inv done tried arrivals settled predecessor →
  (∀ v i w, v ∈ done → tried' v i → edge_at csr i v w → tried v i) →
  settle_inv done tried' arrivals settled predecessor.
Proof.
  intros [Hok Hsl Hpl Hnd Hf Hd Hs Ht Ho Hl Hld] Hw. split; try done. intros v i w d a Hv Hi Hr Hle.
  eapply Ht; [done| |done|done]. eapply Hw; [done|done|apply Hr].
Qed.

(** The selected vertex is settled. *)
Lemma settle_inv_settle done arrivals settled predecessor v :
  settle_inv done (λ u _, u ∈ done) arrivals settled predecessor →
  selected arrivals settled (seq 0 (vertex_count csr)) (Some v) →
  settle_inv (done ++ [v]) (λ u _, u ∈ done) arrivals (<[v := true]> settled) predecessor ∧
  ∀ u, u ∈ done ++ [v] → time_of arrivals u ≤ time_of arrivals v.
Proof.
  intros [Hok Hsl Hpl Hnd Hf Hd Hs Ht Ho Hl Hld] (Hv%elem_of_seq & Hnv & Hmv & Hmin). destruct Hv as [_ Hv]. cbn in Hv.
  assert (v ∉ done) as Hnew by by rewrite <-Hf.
  assert (∀ u, u ∈ done ++ [v] ↔ u ∈ done ∨ u = v) as Hin by (intros u; by rewrite elem_of_app, list_elem_of_singleton).
  split; [split; try done|].
  - by rewrite length_insert.
  - apply NoDup_app. split; [done|]. split; [|apply NoDup_singleton]. by intros u Hu ->%list_elem_of_singleton.
  - intros u. rewrite Hin, <-Hf. unfold flagged. destruct (decide (u = v)) as [->|Hne].
    + rewrite list_lookup_insert_eq by lia. tauto.
    + rewrite list_lookup_insert_ne by done. tauto.
  - intros u. rewrite Hin. intros [Hu| ->]; [by apply Hd|done].
  - intros u i w d a _ Hu. by apply Ht.
  - intros u x. rewrite !Hin. intros [Hu| ->] Hx Hnx; [apply Ho; [done|done|tauto]|].
    apply Hmin; [apply elem_of_seq; lia|]. rewrite Hf. tauto.
  - intros w u i Hw. rewrite Hin. destruct (Hl w u i Hw) as [? ?]. auto.
  - intros u. rewrite Hin. intros [Hu| ->]; [|done]. by apply Ho.
Qed.

Lemma swp_relax_earliest done tried settled v i w acc :
  settle_inv done tried acc.1 settled acc.2 → v ∈ done →
  (∀ u, u ∈ done → time_of acc.1 u ≤ time_of acc.1 v) → edge_at csr i v w →
  swp (relax_earliest csr dp ap start end_ v i acc)
    (λ acc', settle_inv done (λ u j, tried u j ∨ u = v ∧ j = i) acc'.1 settled acc'.2 ∧
       ∀ u, u ∈ done → time_of acc'.1 u = time_of acc.1 u) Q.
Proof.
  intros HI Hv Hlast Hedge. destruct (edge_at_bounds _ _ _ _ Hwf Hedge) as [Hvn Hwn].
  pose proof (ao_length _ _ _ _ _ _ _ (si_ok _ _ _ _ _ HI)) as Hal. pose proof (si_links _ _ _ _ _ HI) as Hpl.
  unfold relax_earliest. apply swp_bind, (swp_step Q HQ).
  apply swp_bind, swp_edge_times; [intros; apply HM; by exists i, v, w|]. intros d a Hd Ha.
  apply swp_bind, swp_time; [lia|].
  assert ((∀ x d' a', R i v x d' a' → x = w ∧ d' = d ∧ a' = a)) as Huniq.
  { intros x d' a' [He Hd' Ha' _ _ _]. destruct (edge_at_source csr Hwf _ _ _ _ _ Hedge He) as [_ <-]. by simplify_eq. }
  destruct (_ || _) eqn:Hcond.
  - apply swp_ret. split; [|done]. apply settle_inv_skip; [done|]. intros x d' a' Hr Hle. exfalso.
    destruct (Huniq _ _ _ Hr) as (-> & -> & ->). destruct Hr. lia.
  - assert (R i v w d a) as Hr by (split; try done; lia).
    apply swp_bind, (swp_usize_at Q _ _ w); [apply Hedge|].
    destruct (lookup_lt_is_Some_2 acc.2 w) as [existing Hex]; [lia|]. apply swp_bind, (swp_at Q _ _ _ _ Hex).
    apply swp_bind, swp_time; [lia|]. destruct ((a <? _) || _) eqn:Hbetter.
    + apply swp_bind, swp_assign; [lia|]. apply swp_bind, swp_assign; [lia|]. apply swp_ret. cbn.
      eapply (settle_inv_ride done tried acc.1 settled acc.2 v i w d a); try done; lia.
    + apply swp_ret. split; [|done]. apply settle_inv_skip; [done|]. intros x d' a' Hr' _.
      destruct (Huniq _ _ _ Hr') as (-> & -> & ->). lia.
Qed.

Definition all_settled (done : list nat) (arrivals : list Z) : Prop :=
  ∀ v, time_of arrivals v ≠ i64_max → v ∈ done.

Lemma time_of_lt arrivals v : time_of arrivals v ≠ i64_max → (v < length arrivals)%nat.
Proof. unfold time_of. destruct (arrivals !! v) eqn:Hv; [|done]. intros _. by apply lookup_lt_Some in Hv. Qed.

Lemma swp_earliest_round k done arrivals settled predecessor :
  settle_inv done (λ u _, u ∈ done) arrivals settled predecessor →
  swp (earliest_round csr dp ap start end_ k (arrivals, settled, predecessor))
    (λ r, match r with
       | inl (arrivals', settled', predecessor') =>
           ∃ v, settle_inv (done ++ [v]) (λ u _, u ∈ done ++ [v]) arrivals' settled' predecessor'
       | inr state => state = (arrivals, settled, predecessor) ∧ all_settled done arrivals
       end) Q.
Proof.
  intros HI. pose proof (si_ok _ _ _ _ _ HI) as [Hal Hmax _]. pose proof (si_settled _ _ _ _ _ HI) as Hsl.
  unfold earliest_round. apply swp_bind, (swp_step Q HQ), swp_bind.
  eapply swp_mono; [by apply (swp_select Q HQ arrivals settled (vertex_count csr))| |done]. intros [v|] Hsel.
  - pose proof Hsel as (Hv%elem_of_seq & _). destruct (settle_inv_settle _ _ _ _ _ HI Hsel) as [HI' Hlast].
    apply swp_bind, swp_assign; [lia|]. apply swp_bind, (swp_outgoing Q csr v _ Hwf); [lia|]. intros r _ Hin Hall.
    assert (v ∈ done ++ [v]) as Hvd by (apply elem_of_app; right; left). apply swp_bind.
    eapply swp_mono; [apply (swp_for (λ pre acc, settle_inv (done ++ [v]) (λ u j, u ∈ done ∨ u = v ∧ j ∈ pre) acc.1
      (<[v := true]> settled) acc.2 ∧ ∀ u, u ∈ done ++ [v] → time_of acc.1 u = time_of arrivals u) _ _ _ Q)| |done].
    + split; [|done]. eapply settle_inv_weaken; [exact HI'|]. intros u j w _ [Hu|[_ Hj]]; [done|by apply elem_of_nil in Hj].
    + intros pre i post acc Hr [HI'' Hsame]. destruct (Hin i) as (w & He & _); [rewrite Hr; apply elem_of_app; right; left|].
      eapply swp_mono; [eapply (swp_relax_earliest (done ++ [v])); [exact HI''|done| |exact He]| |done].
      { intros u Hu. rewrite !Hsame by done. by apply Hlast. }
      intros acc' [HI3 Hsame']. split.
      * eapply settle_inv_weaken; [exact HI3|]. intros u j x _. rewrite elem_of_app, list_elem_of_singleton. tauto.
      * intros u Hu. by rewrite Hsame', Hsame.
    + intros acc [HI'' _]. apply swp_ret. exists v. eapply settle_inv_weaken; [exact HI''|].
      intros u j w. rewrite elem_of_app, list_elem_of_singleton. intros [Hu| ->] _ He; [by left|]. right. split; [done|by eapply Hall].
  - apply swp_ret. split; [done|]. intros v Hv. pose proof (time_of_lt _ _ Hv) as Hlt.
    destruct (Hsel v) as [Hf|Hm]; [apply elem_of_seq; lia|by apply (si_flags _ _ _ _ _ HI)|done].
Qed.

Definition settled_all (arrivals : list Z) (predecessor : links) : Prop :=
  ∃ done settled, settle_inv done (λ u _, u ∈ done) arrivals settled predecessor ∧ all_settled done arrivals.

Lemma swp_earliest_loop :
  swp (sfor_break (earliest_round csr dp ap start end_) (seq 0 (length (csr_vertex_ids csr)))
         (<[source := start]> (replicate (vertex_count csr) i64_max), replicate (vertex_count csr) false,
          replicate (vertex_count csr) None))
    (λ '(arrivals, _, predecessor), settled_all arrivals predecessor) Q.
Proof.
  apply (swp_for_break (λ pre '(arrivals, settled, predecessor), ∃ done,
    settle_inv done (λ u _, u ∈ done) arrivals settled predecessor ∧ length done = length pre)).
  - exists []. split; [|done]. eapply settle_inv_weaken; [apply settle_inv_init|]. by intros v i w ?%elem_of_nil.
  - intros pre k post [[arrivals settled] predecessor] _ (done & HI & Hlen).
    eapply swp_mono; [by apply swp_earliest_round| |done].
    intros [[[arrivals' settled'] predecessor']|[[arrivals' settled'] predecessor']].
    + intros [v HI']. exists (done ++ [v]). split; [done|]. rewrite !length_app. cbn. lia.
    + intros [[= -> -> ->] Hall]. by exists done, settled.
  - intros [[arrivals settled] predecessor] (done & HI & Hlen). exists done, settled. split; [done|].
    rewrite length_seq in Hlen. intros v Hv. pose proof (time_of_lt _ _ Hv) as Hlt.
    rewrite (ao_length _ _ _ _ _ _ _ (si_ok _ _ _ _ _ HI)) in Hlt.
    assert (done ≡ₚ seq 0 (vertex_count csr)) as ->; [|apply elem_of_seq; lia].
    apply submseteq_length_Permutation; [|rewrite length_seq; unfold vertex_count; lia].
    apply NoDup_submseteq; [apply HI|]. intros u Hu. apply elem_of_seq. destruct (si_done _ _ _ _ _ HI u Hu). lia.
Qed.

Lemma settled_earliest arrivals predecessor :
  settled_all arrivals predecessor → earliest csr dp ap start end_ source arrivals.
Proof.
  intros (done & settled & HI & Hall) steps v t Hj. induction Hj as [|steps v t i w d a Hj IH Hr Ht]; [apply HI|].
  assert (v ∈ done) as Hv.
  { apply Hall. pose proof (rd_order _ _ _ _ _ _ _ _ _ _ Hr). pose proof (rd_end _ _ _ _ _ _ _ _ _ _ Hr). lia. }
  eapply (si_tried _ _ _ _ _ HI v i w d a); [done|done|done|lia].
Qed.

(** ** Following predecessors *)

(** The rides of [steps] lead from [v], at [t], to [u], at [t']. *)
Inductive chain : nat → Z → list (nat * nat) → nat → Z → Prop :=
| chain_nil v t : chain v t [] v t
| chain_cons v t i w d a steps u t' :
    R i v w d a → t ≤ d → chain w a steps u t' → chain v t ((i, w) :: steps) u t'.

Lemma chain_journey pre v t steps u t' : J pre v t → chain v t steps u t' → J (pre ++ steps) u t'.
Proof.
  intros Hj Hc. revert pre Hj. induction Hc as [v t|v t i w d a steps u t' Hr Ht Hc IH]; intros pre Hj.
  - by rewrite app_nil_r.
  - rewrite (app_assoc pre [(i, w)] steps : pre ++ (i, w) :: steps = _). apply IH. by eapply journey_ride.
Qed.

Section following.
Context (arrivals : list Z) (predecessor : links) (target : nat).
Context (Hset : settled_all arrivals predecessor).

(** The rides from [current] to the target, in the order they are taken. *)
Definition following (steps : list (nat * nat)) (state : path_state) : Prop :=
  let '(vertices, edge_ids, edge_indices, current) := state in
  time_of arrivals current ≠ i64_max ∧ chain current (time_of arrivals current) steps target (time_of arrivals target) ∧
  identifies csr (rev vertices) (current :: steps.*2) ∧ edge_identifies csr (rev edge_ids) steps.*1 ∧
  rev edge_indices = steps.*1.

Lemma swp_follow steps state :
  following steps state →
  swp (follow_predecessor csr source predecessor state)
    (λ r, match r with
       | inl state' => ∃ i d, following ((i, state.2) :: steps) state' ∧ (state'.2 < vertex_count csr)%nat ∧
           R i state'.2 state.2 d (time_of arrivals state.2) ∧ time_of arrivals state'.2 ≤ d
       | inr state' => state' = state ∧ state.2 = source
       end) Q.
Proof.
  destruct state as [[[vertices edge_ids] edge_indices] current]. intros (Hmax & Hchain & Hids & Heids & His).
  unfold follow_predecessor. cbn [snd]. destruct (Nat.eqb_spec current source) as [Hcur|Hcur]; [by apply swp_ret|].
  destruct Hset as (done & settled & HI & Hall). destruct (si_linked _ _ _ _ _ HI current Hmax Hcur) as [[u i] Hp].
  destruct (si_link _ _ _ _ _ HI current u i Hp) as (Hu & d & Hr & Hle). destruct (si_done _ _ _ _ _ HI u Hu) as [Hun Hum].
  apply swp_bind, (swp_step Q HQ), swp_bind, (swp_at Q _ _ _ _ Hp). apply swp_bind, swp_lift. cbn.
  destruct (lookup_lt_is_Some_2 (csr_vertex_ids csr) u Hun) as [id Hid]. apply swp_bind, (swp_at Q _ _ _ _ Hid).
  destruct (lookup_lt_is_Some_2 (csr_edge_ids csr) i) as [eid Heid].
  { rewrite (cw_edge_ids _ Hwf). destruct (rd_edge _ _ _ _ _ _ _ _ _ _ Hr) as [_ Hn]. by apply lookup_lt_Some in Hn. }
  apply swp_bind, (swp_at Q _ _ _ _ Heid), swp_ret. exists i, d. split; [|done]. split; [done|]. split; [by eapply chain_cons|].
  rewrite !rev_app_distr. cbn. split; [|split].
  - unfold identifies in *. cbn. rewrite Hid. by rewrite Hids.
  - unfold edge_identifies in *. cbn. rewrite Heid. by rewrite Heids.
  - by rewrite His.
Qed.

Lemma follow_steps state state' guard guard' :
  follow_predecessor csr source predecessor state guard = Ok (inl state', guard') →
  eg_budget guard' = eg_budget guard ∧ eg_work_items guard < eg_work_items guard' ≤ ab_max_work_items (eg_budget guard).
Proof.
  destruct state as [[[vertices edge_ids] edge_indices] current]. unfold follow_predecessor.
  destruct (_ =? _)%nat; [done|]. unfold mbind, stateful_bind. destruct (step guard) as [[[] g]|] eqn:Hs; [|done].
  intros Hrest. apply step_Ok in Hs. unfold index, lift, mret, stateful_ret in Hrest.
  repeat case_match; simplify_eq; done.
Qed.
End following.

Lemma settled_source arrivals predecessor : settled_all arrivals predecessor → time_of arrivals source = start.
Proof.
  intros (done & settled & HI & _). pose proof (si_source _ _ _ _ _ HI) as Hle.
  destruct (ao_sound _ _ _ _ _ _ _ (si_ok _ _ _ _ _ HI) source) as [steps Hj]; [lia|].
  apply journey_time in Hj. lia.
Qed.

Lemma swp_build_earliest_path target arrivals predecessor :
  settled_all arrivals predecessor → (target < vertex_count csr)%nat →
  swp (build_earliest_path csr source target (time_of arrivals target) predecessor dp)
    (earliest_path csr dp ap start end_ source target) Q.
Proof.
  intros Hset Htgt. pose proof (settled_earliest _ _ Hset) as Hfirst. unfold build_earliest_path.
  destruct (Z.eqb_spec (time_of arrivals target) i64_max) as [Hmax|Hmax].
  { apply swp_ret. intros steps t Hj. pose proof (Hfirst _ _ _ Hj). pose proof (journey_end _ _ _ _ _ _ _ _ _ Hj). lia. }
  destruct (lookup_lt_is_Some_2 (csr_vertex_ids csr) target Htgt) as [id Hid]. apply swp_bind, (swp_at Q _ _ _ _ Hid).
  apply (swp_steps_loop (λ state, ∃ steps, following arrivals target steps state)
    (λ state, ∃ steps, following arrivals target steps state ∧ state.2 = source)).
  - exists []. split; [done|]. split; [constructor|]. repeat split. unfold identifies. cbn. by rewrite Hid.
  - intros state [steps Hf]. eapply swp_mono; [by eapply swp_follow| |done].
    intros [state'|state']; [intros (i & d & Hf' & _); eauto|]. intros [-> Hs]. eauto.
  - intros state state' guard guard'. apply follow_steps.
  - intros [[[vertices edge_ids] edge_indices] current] (steps & (_ & Hchain & Hids & Heids & His) & Hcur).
    cbn in Hcur. subst current. rewrite (settled_source _ _ Hset) in Hchain. apply swp_ret. exists steps. cbn.
    split; [by apply (chain_journey [] source start); [constructor|]|]. split; [by intros steps' t; apply Hfirst|].
    split; [done|]. split; [done|]. rewrite His. destruct steps as [|[i w] steps]; [done|].
    inversion Hchain as [|? ? ? ? d a ? ? ? Hr]; subst. cbn. by rewrite (rd_departure _ _ _ _ _ _ _ _ _ _ Hr).
Qed.
End settling.

(** ** Costs *)

(** Every ride takes time. *)
Definition lasting (csr : SnapshotCsr) (dp ap : string) (start end_ : Z) : Prop :=
  ∀ i v w d a, ride csr dp ap start end_ i v w d a → d < a.

Section earliest_costs.
Context (csr : SnapshotCsr) (Hwf : csr_wf csr) (dp ap : string) (start end_ : Z) (source : nat).
Context (Hsource : (source < vertex_count csr)%nat) (Hse : start ≤ end_) (Hend : end_ < i64_max).
Let n := vertex_count csr.
Let m := length (csr_neighbors csr).

Lemma costs_earliest_round k state : costs 0 (S (n + m)) (earliest_round csr dp ap start end_ k state).
Proof.
  destruct state as [[arrivals settled] predecessor]. unfold earliest_round.
  apply (costs_bind 0 1 0 (n + m)); [apply costs_step|]. intros _.
  apply (costs_bind 0 n 0 m).
  - unfold n. rewrite <-(Nat.mul_1_r (vertex_count csr)), <-(length_seq (vertex_count csr) 0) at 1.
    apply costs_for. intros v current _. unfold select_earliest. apply (costs_bind 0 1 0 0); [apply costs_step|]. intros _.
    apply (costs_bind 0 0 0 0); [apply costs_index|]. intros [|]; [apply costs_ret|].
    apply (costs_bind 0 0 0 0); [apply costs_index|]. intros a. destruct (_ =? _); [apply costs_ret|].
    destruct current as [best|]; [|apply costs_ret]. apply (costs_bind 0 0 0 0); [apply costs_index|]. intros b.
    destruct (_ || _); apply costs_ret.
  - intros [v|]; [|eapply costs_mono; [apply costs_ret|lia|lia]].
    apply (costs_bind 0 0 0 m); [apply costs_assign|]. intros settled'.
    apply (costs_bind_of (λ r, (length r ≤ m)%nat) 0 0 0 m); [apply costs_outgoing|by apply outgoing_length|].
    intros r Hr. eapply costs_mono; [apply (costs_bind 0 (length r * 1) 0 0); [|intros acc; apply costs_ret]|lia|lia].
    apply costs_for. intros i acc _. unfold relax_earliest. apply (costs_bind 0 1 0 0); [apply costs_step|]. intros _.
    apply (costs_bind 0 0 0 0); [apply costs_edge_times|]. intros [d a].
    apply (costs_bind 0 0 0 0); [apply costs_index|]. intros here. destruct (_ || _); [apply costs_ret|].
    apply (costs_bind 0 0 0 0); [apply costs_index_usize|]. intros w.
    apply (costs_bind 0 0 0 0); [apply costs_index|]. intros e. apply (costs_bind 0 0 0 0); [apply costs_index|]. intros t.
    destruct (_ || _); [|apply costs_ret].
    apply (costs_bind 0 0 0 0); [apply costs_assign|]. intros l. apply (costs_bind 0 0 0 0); [apply costs_assign|]. intros l'.
    apply costs_ret.
Qed.

Lemma costs_follow predecessor state : costs 0 1 (follow_predecessor csr source predecessor state).
Proof.
  destruct state as [[[vertices edge_ids] edge_indices] current]. unfold follow_predecessor.
  destruct (_ =? _)%nat; [eapply costs_mono; [apply costs_ret|lia|lia]|].
  apply (costs_bind 0 1 0 0); [apply costs_step|]. intros _. apply (costs_bind 0 0 0 0); [apply costs_index|]. intros link.
  apply (costs_bind 0 0 0 0); [apply costs_ok_or; by intros [|]|]. intros [u i].
  apply (costs_bind 0 0 0 0); [apply costs_index|]. intros id. apply (costs_bind 0 0 0 0); [apply costs_index|]. intros eid.
  apply costs_ret.
Qed.

(** When rides take time, the times of the vertices increase along the path, so none is met twice. *)
Definition ascending_path (arrivals : list Z) (target : nat) (k : nat) (state : path_state) : Prop :=
  ∃ steps, following csr dp ap start end_ arrivals target steps state ∧ k = (n - length steps)%nat ∧
    NoDup (state.2 :: steps.*2) ∧ (∀ x, x ∈ state.2 :: steps.*2 → (x < n)%nat) ∧
    ∀ x, x ∈ steps.*2 → time_of arrivals state.2 < time_of arrivals x.

Lemma costs_build_earliest_path target arrivals predecessor :
  lasting csr dp ap start end_ → settled_all csr dp ap start end_ source arrivals predecessor →
  (target < vertex_count csr)%nat →
  costs 0 (S n) (build_earliest_path csr source target (time_of arrivals target) predecessor dp).
Proof.
  intros Hlast Hset Ht. unfold build_earliest_path.
  destruct (Z.eqb_spec (time_of arrivals target) i64_max) as [Hmax|Hmax]; [eapply costs_mono; [apply costs_ret|lia|lia]|].
  destruct (lookup_lt_is_Some_2 (csr_vertex_ids csr) target Ht) as [id Hid].
  apply (costs_bind_of (λ x, x = id) 0 0 0 (S n)); [apply costs_index|by apply (swp_at _ _ _ _ _ Hid)|]. intros ? ->.
  apply (costs_bind 0 0 0 (S n)); [intros g _; cbn; split; [done|lia]|]. intros fuel.
  eapply costs_mono; [apply (costs_bind 0 (S n * 1) 0 0); [|intros [[[? ?] ?] ?]; apply costs_ret]|lia|lia].
  apply (costs_while_bound (ascending_path arrivals target)); [by intros [|]| |].
  - exists []. cbn. split; [|split; [lia|]].
    + split; [done|]. split; [constructor|]. repeat split. unfold identifies. cbn. by rewrite Hid.
    + split; [apply NoDup_singleton|]. split; [by intros x ->%list_elem_of_singleton|]. by intros x ?%elem_of_nil.
  - intros k state (steps & Hf & -> & Hnd & Hb & Hlt). split; [apply costs_follow|].
    eapply swp_mono; [by eapply (swp_follow (λ _, True) ltac:(done) csr Hwf dp ap start end_ source)| |done].
    intros [state'|state']; [|done]. intros (i & d & Hf' & Hun & Hr & Hle). exists (n - S (length steps))%nat.
    assert (time_of arrivals state'.2 < time_of arrivals state.2) as Hltu by (specialize (Hlast _ _ _ _ _ Hr); lia).
    assert (∀ x, x ∈ state.2 :: steps.*2 → time_of arrivals state'.2 < time_of arrivals x) as Hall.
    { intros x [->|Hx]%elem_of_cons; [done|]. specialize (Hlt x Hx). lia. }
    assert (NoDup (state'.2 :: state.2 :: steps.*2)) as Hnd'.
    { constructor; [|done]. intros Hin. specialize (Hall _ Hin). lia. }
    assert (∀ x, x ∈ state'.2 :: state.2 :: steps.*2 → (x < n)%nat) as Hb'.
    { intros x [->|Hx]%elem_of_cons; [done|by apply Hb]. }
    split; [by exists ((i, state.2) :: steps)|].
    pose proof (NoDup_below_length _ _ Hnd' Hb') as Hlen. cbn in Hlen. rewrite length_fmap in Hlen. lia.
Qed.

(** What the algorithm costs: a round for every vertex that looks at all vertices and the edges of
    one, and a step for every vertex of the path. *)
Definition earliest_work : nat := (n * S (n + m) + S n)%nat.
End earliest_costs.

Lemma costs_earliest_arrival csr request :
  csr_wf csr → (∀ end_, ar_time_end request = Some end_ → end_ < i64_max) →
  (∀ dp ap start end_, temporal_window request dp ap start end_ → lasting csr dp ap start end_) →
  costs (24 * vertex_count csr) (earliest_work csr) (earliest_arrival csr request).
Proof.
  intros Hwf Hend Hlast. unfold earliest_arrival. set (w := earliest_work csr). set (mem := (24 * vertex_count csr)%nat).
  apply (costs_bind_of (λ v, (v < vertex_count csr)%nat) 0 0 mem w); [apply costs_vertex_of|by apply swp_vertex_of|].
  intros source Hs.
  apply (costs_bind_of (λ v, (v < vertex_count csr)%nat) 0 0 mem w); [apply costs_vertex_of|by apply swp_vertex_of|].
  intros target Ht.
  apply (costs_bind_of (λ '(dp, ap, start, end_), temporal_window request dp ap start end_) 0 0 mem w);
    [apply costs_temporal_request|by apply swp_temporal_request|]. intros [[[dp ap] start] end_] Hwin.
  pose proof Hwin as (_ & _ & _ & He & Hle). specialize (Hend _ He). specialize (Hlast _ _ _ _ Hwin).
  apply (costs_mono (Z.to_nat (saturating_mul (Z.of_nat (vertex_count csr)) 24) + 0) (0 + w)); [|unfold saturating_mul, mem; lia|lia].
  apply costs_bind; [apply costs_reserve|]. intros _.
  assert (swp (assign (replicate (length (csr_vertex_ids csr)) i64_max) source start)
    (λ l, l = <[source := start]> (replicate (vertex_count csr) i64_max)) (λ _, True)) as Hassign.
  { apply swp_assign; [by rewrite length_replicate|done]. }
  eapply (costs_bind_of _ 0 0 0 w); [apply costs_assign|exact Hassign|]. intros ? ->.
  eapply (costs_bind_of _ 0 (vertex_count csr * S (vertex_count csr + length (csr_neighbors csr))) 0 (S (vertex_count csr))).
  - rewrite <-(length_seq (vertex_count csr) 0) at 1. apply costs_for_break. intros k a _.
    by apply (costs_earliest_round csr Hwf dp ap start end_ source).
  - by apply (swp_earliest_loop (λ _, True) ltac:(done) csr Hwf dp ap start end_ source ltac:(done)).
  - intros [[arrivals settled] predecessor] Hset.
    pose proof Hset as (done & settled' & HI & _). pose proof (ao_length _ _ _ _ _ _ _ (si_ok _ _ _ _ _ _ _ _ _ _ _ HI)) as Hal.
    apply (costs_bind_of (λ t, t = time_of arrivals target) 0 0 0 (S (vertex_count csr)));
      [apply costs_index|apply swp_time; [lia|done]|]. intros ? ->.
    eapply costs_mono; [apply (costs_bind 0 (S (vertex_count csr)) 0 0); [|intros p; apply costs_ret]|lia|lia].
    by apply (costs_build_earliest_path csr Hwf dp ap start end_ source).
Qed.

(** ** The algorithm *)

Definition target_of (csr : SnapshotCsr) (request : AlgorithmRequest) : option nat :=
  ar_target request ≫= vertex_index csr.

Definition path_failure (csr : SnapshotCsr) (request : AlgorithmRequest) (e : AnalyticsError) : Prop :=
  refused e ∨
  e = AnInvalidRequest ∧ (source_of csr request = None ∨ target_of csr request = None ∨
    ∀ dp ap start end_, ¬ temporal_window request dp ap start end_) ∨
  e = AnMissingProperty ∧ ∃ dp ap start end_, temporal_window request dp ap start end_ ∧ timeless csr dp ap.

Definition earliest_of (csr : SnapshotCsr) (request : AlgorithmRequest) (result : AlgorithmResult) : Prop :=
  ∃ source target dp ap start end_ path, source_of csr request = Some source ∧ target_of csr request = Some target ∧
    temporal_window request dp ap start end_ ∧ result = TemporalPath path ∧
    earliest_path csr dp ap start end_ source target path.

Lemma swp_earliest_arrival csr request :
  csr_wf csr → (∀ end_, ar_time_end request = Some end_ → end_ < i64_max) →
  swp (earliest_arrival csr request) (earliest_of csr request) (path_failure csr request).
Proof.
  intros Hwf Hend. assert (∀ e, refused e → path_failure csr request e) as HQ by by left.
  unfold earliest_arrival. apply swp_bind, swp_vertex_of; [intros ?; right; left; split; [done|by left]|]. intros source Hs Hsn.
  apply swp_bind, swp_vertex_of; [intros ?; right; left; split; [done|right; by left]|]. intros target Ht Htn.
  apply swp_bind, swp_temporal_request; [intros ?; right; left; split; [done|right; by right]|].
  intros dp ap start end_ Hwin. pose proof Hwin as (_ & _ & _ & He & Hle). specialize (Hend _ He).
  assert (timeless csr dp ap → path_failure csr request AnMissingProperty) as HM.
  { intros ?. right. right. split; [done|]. by exists dp, ap, start, end_. }
  apply swp_bind, (swp_reserve_memory _ HQ), swp_bind, swp_assign; [by rewrite length_replicate|]. apply swp_bind.
  eapply swp_mono; [by apply (swp_earliest_loop (path_failure csr request) HQ csr Hwf dp ap start end_ source HM)| |done].
  intros [[arrivals settled] predecessor] Hset. pose proof Hset as (done & settled' & HI & _).
  apply swp_bind, swp_time; [rewrite (ao_length _ _ _ _ _ _ _ (si_ok _ _ _ _ _ _ _ _ _ _ _ HI)); done|].
  apply swp_bind.
  eapply swp_mono; [by apply (swp_build_earliest_path (path_failure csr request) HQ csr Hwf dp ap start end_ source)| |done].
  intros path Hpath. apply swp_ret. by exists source, target, dp, ap, start, end_, path.
Qed.



(** ** Rides that take no time *)

(** From 3 to 2, from 2 to 1 and from 1 to 2, all at time 0. *)
Definition instant : list (Z * Z * Z * Z * Z) := [(11, 3, 2, 0, 0); (12, 2, 1, 0, 0); (13, 1, 2, 0, 0)].
Definition circular : SnapshotCsr := Eval vm_compute in sample_graph [1; 2; 3] instant.

(** When rides take no time, following predecessors may run in a circle: 2 can be reached from 3
    by one ride at time 0, and reachability finds it, but the tie between equal arrivals makes 1 the
    predecessor of 2 after 2 was made the predecessor of 1, and earliest arrival ends only when the
    budget, of ten thousand steps here, is used up. *)
Theorem instant_rides_run_in_a_circle :
  csr_wf circular ∧
  (∃ steps, journey circular "departure" "arrival" 0 10 2 steps 1 0) ∧
  fst <$> temporal_reachability circular (journey_request TemporalReachability (Some 3) None 0 10) free_guard =
    Ok (Reachable [1; 2; 3]) ∧
  fst <$> earliest_arrival circular (journey_request EarliestArrival (Some 3) (Some 2) 0 10) free_guard =
    Err AnResourceLimit.
Proof.
  split; [exact (sample_wf [1; 2; 3] instant eq_refl)|]. split.
  - exists ([] ++ [(2%nat, 1%nat)]). eapply (journey_ride _ _ _ _ _ _ [] 2 0 2 1 0 0); [constructor| |done].
    split; [|reflexivity|reflexivity|lia..]. split; [|reflexivity]. eexists. split; [reflexivity|]. set_solver.
  - split; vm_compute; reflexivity.
Qed.
