(* ===== verification/Community.v ===== *)
(** * Undirected neighbourhoods ([undirected_adjacency] and [triangle_count] of
    [dtg-analytics/src/centrality.rs], and [dtg-analytics/src/community.rs])

    Core numbers, triangles and label propagation are computed on the sets of neighbours of the
    vertices, edges taken in either direction and loops left out. *)

From S2P Require Import Prelude Text Kernel Storage Loops Projection Csr Analytics Traversal Components.
Open Scope Z_scope.

(** ** Neighbours *)

(** [adjacency[v].insert(w)]. *)
Definition insert_at (adjacency : list (gset nat)) (v w : nat) : analysing (list (gset nat)) :=
  s ← index adjacency v;
  assign adjacency v ({[w]} ∪ s).

Definition add_edge (csr : SnapshotCsr) (source edge_index : nat) (adjacency : list (gset nat))
    : analysing (list (gset nat)) :=
  _ ← step;
  target ← index_usize (csr_neighbors csr) edge_index;
  if (source =? target)%nat then mret adjacency
  else
    adjacency ← insert_at adjacency source target;
    insert_at adjacency target source.

Definition undirected_adjacency (csr : SnapshotCsr) : analysing (list (gset nat)) :=
  let vertex_count := length (csr_vertex_ids csr) in
  _ ← reserve (saturating_mul (Z.of_nat vertex_count) 24);
  sfor (λ source adjacency,
    _ ← step;
    range ← outgoing csr source;
    sfor (add_edge csr source) range adjacency) (seq 0 vertex_count) (replicate vertex_count ∅).

(** ** Core numbers *)

(** One round of the search for the remaining vertex of least degree. *)
Definition select_least (remaining : list bool) (degree : list Z) (vertex : nat) (selected : option nat)
    : analysing (option nat) :=
  _ ← step;
  here ← index remaining vertex;
  if here : bool then
    match selected with
    | None => mret (Some vertex)
    | Some current =>
        d ← index degree vertex;
        d' ← index degree current;
        if (d <? d') || ((d =? d') && (vertex <? current)%nat) then mret (Some vertex) else mret selected
    end
  else mret selected.

(** [usize::saturating_sub]. *)
Definition saturating_sub (a b : Z) : Z := Z.max 0 (a - b).

Definition lower_degree (remaining : list bool) (neighbor : nat) (degree : list Z) : analysing (list Z) :=
  _ ← step;
  here ← index remaining neighbor;
  if here : bool then d ← index degree neighbor; assign degree neighbor (saturating_sub d 1) else mret degree.

Record core_state := mkCoreState {
  cr_remaining : list bool;
  cr_degree : list Z;
  cr_cores : list Z;
  cr_current : Z;
}.

Definition core_round (adjacency : list (gset nat)) (_ : nat) (state : core_state) : analysing core_state :=
  _ ← step;
  selected ← sfor (select_least (cr_remaining state) (cr_degree state)) (seq 0 (length adjacency)) None;
  vertex ← lift (ok_or AnInvalidRequest selected);
  d ← index (cr_degree state) vertex;
  let current_core := Z.max (cr_current state) d in
  core ← (if current_core <? 2 ^ 32 then mret current_core else stop AnResourceLimit);
  cores ← assign (cr_cores state) vertex core;
  remaining ← assign (cr_remaining state) vertex false;
  neighbors ← index adjacency vertex;
  degree ← sfor (lower_degree remaining) (ascending neighbors) (cr_degree state);
  mret (mkCoreState remaining degree cores current_core).

(** [for (vertex_id, value) in vertex_ids.zip(values) { result.insert(vertex_id, value) }]. *)
Definition zip_result {A} (ids : list VertexId) (values : list A) : analysing (gmap VertexId A) :=
  sfor (λ '(id, value) result, _ ← step; mret (<[id := value]> result)) (zip ids values) ∅.

Definition k_core (csr : SnapshotCsr) : analysing AlgorithmResult :=
  adjacency ← undirected_adjacency csr;
  let vertex_count := length adjacency in
  _ ← reserve (saturating_mul (Z.of_nat vertex_count) 9);
  degree ← sfor (λ neighbors degree, _ ← step; mret (degree ++ [Z.of_nat (size (neighbors : gset nat))])) adjacency [];
  state ← sfor (core_round adjacency) (seq 0 vertex_count)
            (mkCoreState (replicate vertex_count true) degree (replicate vertex_count 0) 0);
  result ← zip_result (csr_vertex_ids csr) (cr_cores state);
  mret (CoreNumbers result).

(** ** Triangles *)

Definition close_triangle (adjacency : list (gset nat)) (left middle right : nat) (triangles : Z) : analysing Z :=
  _ ← step;
  if (right <=? middle)%nat then mret triangles
  else
    neighbors ← index adjacency left;
    if bool_decide (right ∈@{gset nat} neighbors) then
      if triangles + 1 <? 2 ^ 64 then mret (triangles + 1) else stop AnResourceLimit
    else mret triangles.

Definition triangle_count (csr : SnapshotCsr) : analysing AlgorithmResult :=
  adjacency ← undirected_adjacency csr;
  triangles ← sfor (λ left triangles,
                _ ← step;
                neighbors ← index adjacency left;
                sfor (λ middle triangles,
                  _ ← step;
                  if (middle <=? left)%nat then mret triangles
                  else
                    neighbors ← index adjacency middle;
                    sfor (close_triangle adjacency left middle) (ascending neighbors) triangles)
                  (ascending neighbors) triangles) (seq 0 (length adjacency)) 0;
  mret (Count triangles).

(** ** Label propagation *)

(** The label with the highest count, the smaller one of two that tie. *)
Definition choose_label (entry : Z * Z) (chosen : option (Z * Z)) : analysing (option (Z * Z)) :=
  _ ← step;
  let '(label, count) := entry in
  mret (match chosen with
        | Some (best_label, best_count) =>
            if (best_count <? count) || ((count =? best_count) && (label <? best_label))
            then Some (label, count) else chosen
        | None => Some (label, count)
        end).

Definition propagate (adjacency : list (gset nat)) (labels : list Z) (vertex : nat) (acc : list Z * bool)
    : analysing (list Z * bool) :=
  _ ← step;
  neighbors ← index adjacency vertex;
  if bool_decide (neighbors =@{gset nat} ∅) then mret acc
  else
    counts ← sfor (λ neighbor (counts : gmap Z Z),
               _ ← step;
               label ← index labels neighbor;
               mret (<[label := default 0 (counts !! label) + 1]> counts)) (ascending neighbors) ∅;
    chosen ← sfor choose_label (entries counts) None;
    label ← lift (ok_or AnInvalidRequest (fst <$> chosen));
    old ← index labels vertex;
    next ← assign acc.1 vertex label;
    mret (next, acc.2 || negb (label =? old)).

Definition propagation_round (adjacency : list (gset nat)) (_ : nat) (labels : list Z) : analysing (list Z + list Z) :=
  _ ← step;
  acc ← sfor (propagate adjacency labels) (seq 0 (length adjacency)) (labels, false);
  if acc.2 : bool then mret (inl acc.1) else mret (inr acc.1).

Definition canonicalize_labels (labels : list Z) : analysing (list Z) :=
  distinct ← sfor (λ label (distinct : gmap Z unit), _ ← step; mret (<[label := tt]> distinct)) labels ∅;
  remap ← sfor (λ '(i, label) (remap : gmap Z Z), _ ← step; mret (<[label := Z.of_nat i + 1]> remap))
            (zip (seq 0 (length (keys distinct))) (keys distinct)) ∅;
  sfor (λ label out,
    _ ← step;
    new ← lift (ok_or AnalyticsPanic (remap !! label));
    mret (out ++ [new])) labels [].

Definition communities_result (csr : SnapshotCsr) (labels : list Z) : analysing AlgorithmResult :=
  result ← zip_result (csr_vertex_ids csr) labels;
  mret (Communities result).

Definition label_propagation (csr : SnapshotCsr) (request : AlgorithmRequest) : analysing AlgorithmResult :=
  _ ← require_iterations (ar_iterations request);
  adjacency ← undirected_adjacency csr;
  labels ← sfor (λ i labels, _ ← step; mret (labels ++ [Z.of_nat i + 1])) (seq 0 (length adjacency)) [];
  labels ← sfor_break (propagation_round adjacency) (seq 0 (Z.to_nat (ar_iterations request))) labels;
  labels ← canonicalize_labels labels;
  communities_result csr labels.

(** ** The neighbours are those of the graph *)

(** Another vertex that an edge links to. *)
Definition neighbour (csr : SnapshotCsr) (v w : nat) : Prop := linked csr v w ∧ v ≠ w.

Definition neighbours (adjacency : list (gset nat)) (v : nat) : gset nat := default ∅ (adjacency !! v).

Record adjacency_of (csr : SnapshotCsr) (adjacency : list (gset nat)) : Prop := {
  aj_length : length adjacency = vertex_count csr;
  aj_elem v w : w ∈ neighbours adjacency v ↔ neighbour csr v w;
}.

Lemma neighbour_sym csr v w : neighbour csr v w → neighbour csr w v.
Proof. unfold neighbour, linked. naive_solver. Qed.
Lemma neighbour_bound csr v w :
  csr_wf csr → neighbour csr v w → (v < vertex_count csr)%nat ∧ (w < vertex_count csr)%nat.
Proof. intros Hwf [[[i Hi]|[i Hi]] _]; destruct (edge_at_bounds _ _ _ _ Hwf Hi); done. Qed.

Lemma neighbours_insert adjacency v s w :
  (v < length adjacency)%nat →
  neighbours (<[v := s]> adjacency) w = if decide (w = v) then s else neighbours adjacency w.
Proof.
  intros Hv. unfold neighbours. case_decide as Hw; [subst; by rewrite list_lookup_insert_eq|].
  by rewrite list_lookup_insert_ne.
Qed.

Section adjacency.
Context (Q : AnalyticsError → Prop) (HQ : ∀ e, refused e → Q e).
Context (csr : SnapshotCsr) (Hwf : csr_wf csr).

Lemma swp_neighbours adjacency v (P : gset nat → Prop) :
  (v < length adjacency)%nat → P (neighbours adjacency v) → swp (index adjacency v) P Q.
Proof.
  intros Hv HP. destruct (lookup_lt_is_Some_2 adjacency v Hv) as [s Hs]. apply (swp_at Q _ _ _ _ Hs).
  unfold neighbours in HP. by rewrite Hs in HP.
Qed.

Lemma swp_insert_at adjacency v w (P : list (gset nat) → Prop) :
  (v < length adjacency)%nat → P (<[v := {[w]} ∪ neighbours adjacency v]> adjacency) → swp (insert_at adjacency v w) P Q.
Proof. intros Hv HP. unfold insert_at. by apply swp_bind, swp_neighbours, swp_assign. Qed.

(** The links of the edges satisfying [tried] are there. *)
Definition adjacency_for (tried : nat → Prop) (adjacency : list (gset nat)) : Prop :=
  length adjacency = vertex_count csr ∧
  ∀ v w, w ∈ neighbours adjacency v ↔ v ≠ w ∧ ∃ i, tried i ∧ (edge_at csr i v w ∨ edge_at csr i w v).

Lemma swp_add_edge tried u i w adjacency :
  adjacency_for tried adjacency → edge_at csr i u w →
  swp (add_edge csr u i adjacency) (adjacency_for (λ j, tried j ∨ j = i)) Q.
Proof.
  intros [Hl Ha] He. destruct (edge_at_bounds _ _ _ _ Hwf He) as [Hu Hw]. unfold add_edge.
  apply swp_bind, (swp_step Q HQ), swp_bind, (swp_usize_at Q _ _ w); [apply He|].
  assert (∀ v x, edge_at csr i v x → v = u ∧ x = w) as Huniq.
  { intros v x Hv. split; [by eapply (cw_unique _ Hwf)|]. destruct He as [_ H1], Hv as [_ H2]. rewrite H1 in H2. injection H2. lia. }
  destruct (Nat.eqb_spec u w) as [->|Hne].
  - apply swp_ret. split; [done|]. intros v x. rewrite Ha. split; [naive_solver|].
    intros (Hvx & j & [Hj| ->] & Hj'); [eauto|]. exfalso. destruct Hj' as [H|H]; apply Huniq in H as [-> ->]; done.
  - apply swp_bind, swp_insert_at; [lia|]. apply swp_insert_at; [rewrite length_insert; lia|].
    split; [by rewrite !length_insert|]. intros v x.
    rewrite !neighbours_insert by (rewrite ?length_insert; lia).
    repeat case_decide; subst; try done; rewrite ?elem_of_union, ?elem_of_singleton, ?Ha.
    + split; [|].
      * intros [->|(Hvx & j & Hj & Hj')]; (split; [done|]); [exists i; auto|exists j; auto].
      * intros (Hvx & j & [Hj| ->] & Hj'); [right; eauto|]. left.
        destruct Hj' as [H|H]; apply Huniq in H as [? ?]; by subst.
    + split; [|].
      * intros [->|(Hvx & j & Hj & Hj')]; (split; [done|]); [exists i; auto|exists j; auto].
      * intros (Hvx & j & [Hj| ->] & Hj'); [right; eauto|]. left.
        destruct Hj' as [H'|H']; apply Huniq in H' as [? ?]; by subst.
    + split; [intros (Hvx & j & Hj & Hj'); split; [done|exists j; auto]|].
      intros (Hvx & j & [Hj| ->] & Hj'); [eauto|]. exfalso.
      destruct Hj' as [H'|H']; apply Huniq in H' as [? ?]; by subst.
Qed.

Lemma adjacency_for_iff (tried tried' : nat → Prop) adjacency :
  adjacency_for tried adjacency → (∀ i v w, edge_at csr i v w → tried i ↔ tried' i) → adjacency_for tried' adjacency.
Proof.
  intros [Hl Ha] Hiff. split; [done|]. intros v w. rewrite Ha.
  split; intros (Hvw & i & Hi & [He|He]); (split; [done|]); exists i; (split; [by eapply Hiff|auto]).
Qed.

Lemma swp_undirected_adjacency : swp (undirected_adjacency csr) (adjacency_of csr) Q.
Proof.
  unfold undirected_adjacency. apply swp_bind, (swp_reserve_memory Q HQ).
  eapply swp_mono; [apply (swp_for (λ pre, adjacency_for (λ i, ∃ u w, u ∈ pre ∧ edge_at csr i u w)) _ _ _ Q)| |done].
  - split; [by rewrite length_replicate|]. intros v w. unfold neighbours.
    assert (default ∅ (replicate (length (csr_vertex_ids csr)) ∅ !! v) =@{gset nat} ∅) as ->.
    { destruct (replicate _ _ !! v) eqn:Hr; [|done]. by apply lookup_replicate in Hr as [-> _]. }
    split; [set_solver|]. intros (_ & i & (u & x & Hu%elem_of_nil & _) & _). done.
  - intros pre u post adjacency Hseq HA.
    assert (u ∈ seq 0 (vertex_count csr)) as Hu%elem_of_seq by (unfold vertex_count; rewrite Hseq; apply elem_of_app; right; left).
    apply swp_bind, (swp_step Q HQ), swp_bind, (swp_outgoing Q csr u _ Hwf); [lia|]. intros r _ Hin Hall.
    eapply swp_mono; [apply (swp_for (λ done, adjacency_for (λ i, (∃ u w, u ∈ pre ∧ edge_at csr i u w) ∨ i ∈ done)) _ _ _ Q)| |done].
    + eapply adjacency_for_iff; [exact HA|]. intros i v w _. rewrite elem_of_nil. tauto.
    + intros done i post' adj Hr HA'. destruct (Hin i) as (w & He & _); [rewrite Hr; apply elem_of_app; right; left|].
      eapply swp_mono; [by eapply swp_add_edge| |done]. intros adj' HA''. eapply adjacency_for_iff; [exact HA''|].
      intros j v x _. rewrite elem_of_app, list_elem_of_singleton. tauto.
    + intros adj HA'. eapply adjacency_for_iff; [exact HA'|]. intros i v w He. split.
      * intros [(u' & x & Hu' & Hx)|Hi]; [exists u', x; split; [apply elem_of_app; by left|done]|].
        destruct (Hin i Hi) as (x & Hx & _). exists u, x. split; [apply elem_of_app; right; left|done].
      * intros (u' & x & [Hu'|Hu'%list_elem_of_singleton]%elem_of_app & Hx); [left; eauto|]. subst u'. right. by eapply Hall.
  - intros adjacency [Hl HA]. split; [done|]. intros v w. rewrite HA. unfold neighbour, linked. split.
    + intros (Hvw & i & _ & [He|He]); (split; [|done]); [left; by exists i|right; by exists i].
    + intros [[[i He]|[i He]] Hvw]; (split; [done|]); exists i; (split; [|auto]);
        [exists v, w|exists w, v]; (split; [|done]); apply elem_of_seq; destruct (edge_at_bounds _ _ _ _ Hwf He); unfold vertex_count in *; lia.
Qed.
End adjacency.

(** ** Core numbers *)

Lemma NoDup_ascending s : NoDup (ascending s).
Proof. unfold ascending. rewrite sort_by_perm. apply NoDup_elements. Qed.

Definition degree_of (degree : list Z) (v : nat) : Z := default 0 (degree !! v).

Section cores.
Context (Q : AnalyticsError → Prop) (HQ : ∀ e, refused e → Q e) (adjacency : list (gset nat)).
Let n := length adjacency.
Let nb := neighbours adjacency.
Context (Hsym : ∀ v w, w ∈ nb v → v ∈ nb w) (Hloop : ∀ v, v ∉ nb v) (Hbound : ∀ v w, w ∈ nb v → (w < n)%nat).

(** Every member of [S] has [k] neighbours in [S]. *)
Definition dense (k : Z) (S : gset nat) : Prop := ∀ x, x ∈ S → k ≤ Z.of_nat (size (nb x ∩ S)).

(** [c] is the largest [k] such that [v] is in a set that is dense for [k]. *)
Definition coreness (v : nat) (c : Z) : Prop :=
  (∃ S, v ∈ S ∧ dense c S) ∧ ∀ S k, v ∈ S → dense k S → k ≤ c.

(** [rest] are the vertices not yet removed. *)
Record core_inv (rest : gset nat) (state : core_state) : Prop := {
  ki_remaining : length (cr_remaining state) = n;
  ki_degree : length (cr_degree state) = n;
  ki_cores : length (cr_cores state) = n;
  ki_flags v : flagged (cr_remaining state) v ↔ v ∈ rest;
  ki_rest v : v ∈ rest → (v < n)%nat;
  ki_degrees v : v ∈ rest → degree_of (cr_degree state) v = Z.of_nat (size (nb v ∩ rest));
  ki_core v : (v < n)%nat → v ∉ rest → ∃ c, cr_cores state !! v = Some c ∧ coreness v c;
  ki_current : 0 ≤ cr_current state;
  ki_upper S k : dense k S → S ⊆ rest ∨ k ≤ cr_current state;
  ki_lower : ∃ S, rest ⊆ S ∧ dense (cr_current state) S;
}.

Definition least (remaining : list bool) (degree : list Z) (vs : list nat) (selected : option nat) : Prop :=
  match selected with
  | None => ∀ v, v ∈ vs → ¬ flagged remaining v
  | Some v => v ∈ vs ∧ flagged remaining v ∧ ∀ u, u ∈ vs → flagged remaining u → degree_of degree v ≤ degree_of degree u
  end.

Lemma swp_degree degree v (P : Z → Prop) : (v < length degree)%nat → P (degree_of degree v) → swp (index degree v) P Q.
Proof.
  intros Hv HP. destruct (lookup_lt_is_Some_2 degree v Hv) as [d Hd]. apply (swp_at Q _ _ _ _ Hd).
  unfold degree_of in HP. by rewrite Hd in HP.
Qed.

Lemma swp_select_least remaining degree :
  length remaining = n → length degree = n →
  swp (sfor (select_least remaining degree) (seq 0 n) None) (least remaining degree (seq 0 n)) Q.
Proof.
  intros Hr Hd. apply (swp_for (least remaining degree)); [by intros v ?%elem_of_nil|].
  intros pre v post selected Hseq Hsel.
  assert (∀ u, u ∈ pre ++ [v] → (u < n)%nat) as Hlt.
  { intros u Hu. assert (u ∈ seq 0 n) as Hx%elem_of_seq; [|lia]. rewrite Hseq. apply elem_of_app in Hu as [Hu|Hu].
    - apply elem_of_app. by left.
    - apply elem_of_app. right. apply list_elem_of_singleton in Hu as ->. left. }
  assert (v < n)%nat as Hv by (apply Hlt, elem_of_app; right; left).
  destruct (lookup_lt_is_Some_2 remaining v) as [here Hhere]; [lia|]. unfold select_least.
  apply swp_bind, (swp_step Q HQ), swp_bind, (swp_at Q _ _ _ _ Hhere). destruct here.
  - assert (v ∈ pre ++ [v]) as Hin by (apply elem_of_app; right; left). destruct selected as [best|].
    + destruct Hsel as (Hb & Hfb & Hle). assert (best < n)%nat by (apply Hlt, elem_of_app; by left).
      apply swp_bind, swp_degree; [lia|]. apply swp_bind, swp_degree; [lia|]. destruct (_ || _) eqn:Hcmp; apply swp_ret; cbn.
      * split; [done|]. split; [done|]. intros u [Hu|Hu%list_elem_of_singleton]%elem_of_app Hfu; [|by subst].
        specialize (Hle u Hu Hfu). lia.
      * split; [apply elem_of_app; by left|]. split; [done|].
        intros u [Hu|Hu%list_elem_of_singleton]%elem_of_app Hfu; [by apply Hle|]. subst u. lia.
    + apply swp_ret. cbn. split; [done|]. split; [done|].
      intros u [Hu|Hu%list_elem_of_singleton]%elem_of_app Hfu; [by destruct (Hsel u Hu)|by subst].
  - assert (¬ flagged remaining v) as Hnv by (unfold flagged; congruence). apply swp_ret. destruct selected as [best|]; cbn.
    + destruct Hsel as (Hb & Hfb & Hle). split; [apply elem_of_app; by left|]. split; [done|].
      intros u [Hu|Hu%list_elem_of_singleton]%elem_of_app Hfu; [by apply Hle|by subst].
    + intros u [Hu|Hu%list_elem_of_singleton]%elem_of_app; [by apply Hsel|by subst].
Qed.

Definition occurs (vs : list nat) (x : nat) : Z := if decide (x ∈ vs) then 1 else 0.
Lemma occurs_snoc vs x y : x ∉ vs → occurs (vs ++ [x]) y = if decide (y = x) then 1 else occurs vs y.
Proof.
  intros Hx. unfold occurs. destruct (decide (y = x)) as [->|Hne].
  - rewrite decide_True; [done|]. apply elem_of_app. right. left.
  - destruct (decide (y ∈ vs)) as [Hy|Hy]; [rewrite decide_True; [done|apply elem_of_app; by left]|].
    rewrite decide_False; [done|]. by intros [?|?%list_elem_of_singleton]%elem_of_app.
Qed.

Lemma swp_lower_degrees remaining degree vs :
  length remaining = n → length degree = n → NoDup vs →
  (∀ x, x ∈ vs → (x < n)%nat ∧ (flagged remaining x → 1 ≤ degree_of degree x)) →
  swp (sfor (lower_degree remaining) vs degree)
    (λ degree', length degree' = n ∧ ∀ x, flagged remaining x →
       degree_of degree' x = degree_of degree x - occurs vs x) Q.
Proof.
  intros Hr Hd Hnd Hvs.
  apply (swp_for (λ pre degree', length degree' = n ∧ ∀ x, flagged remaining x →
    degree_of degree' x = degree_of degree x - occurs pre x)).
  { split; [done|]. intros x _. unfold occurs. rewrite decide_False by by intros ?%elem_of_nil. lia. }
  intros pre x post degree' Hl [Hlen Hdeg]. assert (x ∉ pre) as Hnew.
  { rewrite Hl in Hnd. apply NoDup_app in Hnd as (_ & Hdis & _). intros Hin. by apply (Hdis x Hin); left. }
  destruct (Hvs x) as [Hx Hpos]; [rewrite Hl; apply elem_of_app; right; left|].
  destruct (lookup_lt_is_Some_2 remaining x) as [here Hhere]; [lia|]. unfold lower_degree.
  apply swp_bind, (swp_step Q HQ), swp_bind, (swp_at Q _ _ _ _ Hhere). destruct here.
  - apply swp_bind, swp_degree; [lia|]. apply swp_assign; [lia|]. split; [by rewrite length_insert|].
    intros y Hy. rewrite occurs_snoc by done. unfold degree_of at 1. destruct (decide (y = x)) as [->|Hne].
    + rewrite list_lookup_insert_eq by lia. cbn. rewrite Hdeg by done.
      assert (occurs pre x = 0) as -> by (unfold occurs; by rewrite decide_False). unfold saturating_sub.
      specialize (Hpos Hy). lia.
    + rewrite list_lookup_insert_ne by done. fold (degree_of degree' y). by rewrite Hdeg.
  - apply swp_ret. split; [done|]. intros y Hy. rewrite occurs_snoc by done.
    rewrite decide_False by (intros ->; unfold flagged in Hy; congruence). by rewrite Hdeg.
Qed.

(** Removing a vertex of least degree. *)
Lemma core_inv_remove rest state v core remaining degree cores :
  core_inv rest state → v ∈ rest →
  (∀ u, u ∈ rest → degree_of (cr_degree state) v ≤ degree_of (cr_degree state) u) →
  core = Z.max (cr_current state) (degree_of (cr_degree state) v) →
  cores = <[v := core]> (cr_cores state) → remaining = <[v := false]> (cr_remaining state) →
  length degree = n →
  (∀ x, flagged remaining x → degree_of degree x = degree_of (cr_degree state) x - occurs (ascending (nb v)) x) →
  core_inv (rest ∖ {[v]}) (mkCoreState remaining degree cores core).
Proof.
  intros [Hlr Hld Hlc Hf Hr Hd Hc Hcur Hup (S0 & HS0 & Hdense)] Hv Hmin -> -> -> Hlen Hdeg.
  assert (v < n)%nat as Hvn by by apply Hr.
  assert (∀ x, flagged (<[v := false]> (cr_remaining state)) x ↔ x ∈ rest ∖ {[v]}) as Hf'.
  { intros x. rewrite elem_of_difference, elem_of_singleton, <-Hf. unfold flagged. destruct (decide (x = v)) as [->|Hne].
    - rewrite list_lookup_insert_eq by lia. naive_solver.
    - rewrite list_lookup_insert_ne by done. tauto. }
  assert (∀ S k, v ∈ S → S ⊆ rest → dense k S → k ≤ degree_of (cr_degree state) v) as Hv_upper.
  { intros S k HvS HS HD. specialize (HD v HvS). rewrite Hd by done.
    pose proof (subseteq_size (nb v ∩ S) (nb v ∩ rest) ltac:(set_solver)). lia. }
  assert (coreness v (Z.max (cr_current state) (degree_of (cr_degree state) v))) as Hcore.
  { split.
    - destruct (decide (cr_current state ≤ degree_of (cr_degree state) v)).
      + exists rest. split; [done|]. intros x Hx. rewrite <-Hd by done. specialize (Hmin x Hx). lia.
      + exists S0. split; [set_solver|]. intros x Hx. specialize (Hdense x Hx). lia.
    - intros S k HvS HD. destruct (Hup S k HD) as [HS|Hk]; [specialize (Hv_upper S k HvS HS HD)|]; lia. }
  split; cbn; try done.
  - by rewrite length_insert.
  - by rewrite length_insert.
  - intros x Hx. apply Hr. set_solver.
  - intros x Hx. rewrite Hdeg by by apply Hf'. rewrite Hd by set_solver. unfold occurs.
    destruct (decide (x ∈ ascending (nb v))) as [Hin|Hout].
    + apply elem_of_ascending in Hin. assert (v ∈ nb x) as Hvx by by apply Hsym.
      replace (nb x ∩ rest) with ({[v]} ∪ (nb x ∩ (rest ∖ {[v]}))) by (apply set_eq; intros y; destruct (decide (y = v)); set_solver).
      rewrite size_union by set_solver. rewrite size_singleton. lia.
    + assert (v ∉ nb x) as Hvx by (intros H%Hsym; by apply Hout, elem_of_ascending).
      replace (nb x ∩ (rest ∖ {[v]})) with (nb x ∩ rest) by (apply set_eq; intros y; destruct (decide (y = v)); set_solver). lia.
  - intros x Hx Hnx. destruct (decide (x = v)) as [->|Hne].
    + rewrite list_lookup_insert_eq by lia. eauto.
    + rewrite list_lookup_insert_ne by done. apply Hc; [done|set_solver].
  - lia.
  - intros S k HD. destruct (Hup S k HD) as [HS|Hk]; [|right; lia]. destruct (decide (v ∈ S)) as [HvS|HvS].
    + right. specialize (Hv_upper S k HvS HS HD). lia.
    + left. set_solver.
  - destruct (decide (cr_current state ≤ degree_of (cr_degree state) v)).
    + exists rest. split; [set_solver|]. intros x Hx. rewrite <-Hd by done. specialize (Hmin x Hx). lia.
    + exists S0. split; [set_solver|]. intros x Hx. specialize (Hdense x Hx). lia.
Qed.

Lemma swp_core_round k rest state :
  core_inv rest state → rest ≠ ∅ →
  swp (core_round adjacency k state) (λ state', ∃ v, v ∈ rest ∧ core_inv (rest ∖ {[v]}) state') Q.
Proof.
  intros HI Hne. pose proof (ki_remaining _ _ HI) as Hlr. pose proof (ki_degree _ _ HI) as Hld.
  pose proof (ki_cores _ _ HI) as Hlc. unfold core_round. apply swp_bind, (swp_step Q HQ), swp_bind.
  eapply swp_mono; [by apply (swp_select_least (cr_remaining state) (cr_degree state))| |done]. intros selected Hsel.
  apply swp_bind, swp_lift. destruct selected as [v|].
  2: { exfalso. destruct (set_choose_L rest Hne) as [x Hx]. apply (Hsel x); [|by apply (ki_flags _ _ HI)].
       apply elem_of_seq. pose proof (ki_rest _ _ HI x Hx). lia. }
  destruct Hsel as (_ & Hfv & Hmin). apply (ki_flags _ _ HI) in Hfv. pose proof (ki_rest _ _ HI v Hfv) as Hvn.
  assert (∀ u, u ∈ rest → degree_of (cr_degree state) v ≤ degree_of (cr_degree state) u) as Hmin'.
  { intros u Hu. apply Hmin; [|by apply (ki_flags _ _ HI)]. apply elem_of_seq. pose proof (ki_rest _ _ HI u Hu). lia. }
  cbn [ok_or]. apply swp_bind, swp_degree; [lia|].
  set (core := Z.max (cr_current state) (degree_of (cr_degree state) v)). apply swp_bind.
  apply (swp_mono _ (λ c, c = core) _ Q Q); [destruct (_ <? _); [by apply swp_ret|apply swp_stop, HQ; by right]| |done].
  intros ? ->. apply swp_bind, swp_assign; [lia|]. apply swp_bind, swp_assign; [lia|].
  apply swp_bind, swp_neighbours; [done|]. apply swp_bind.
  set (remaining := <[v := false]> (cr_remaining state)).
  assert (∀ x, flagged remaining x → x ∈ rest) as Hfr.
  { intros x. unfold remaining, flagged. destruct (decide (x = v)) as [->|Hxv]; [done|].
    rewrite list_lookup_insert_ne by done. apply (ki_flags _ _ HI). }
  eapply swp_mono; [apply (swp_lower_degrees remaining (cr_degree state) (ascending (neighbours adjacency v)))| |done].
  - unfold remaining. by rewrite length_insert.
  - done.
  - apply NoDup_ascending.
  - intros x Hx%elem_of_ascending. split; [by eapply Hbound|]. intros Hxr%Hfr. rewrite (ki_degrees _ _ HI x Hxr).
    assert (v ∈ nb x ∩ rest) as Hin by (apply elem_of_intersection; split; [by apply Hsym|done]).
    assert (size (nb x ∩ rest) ≠ 0%nat); [|lia]. intros Hz%size_empty_inv. set_solver.
  - intros degree [Hlen Hdeg]. apply swp_ret. exists v. split; [done|].
    eapply (core_inv_remove rest state v core); try done.
Qed.

Lemma core_inv_init degree (all : gset nat) :
  length degree = n → (∀ v, (v < n)%nat → degree_of degree v = Z.of_nat (size (nb v))) →
  (∀ v, v ∈ all ↔ (v < n)%nat) →
  core_inv all (mkCoreState (replicate n true) degree (replicate n 0) 0).
Proof.
  intros Hl Hdeg Hin.
  split; cbn [cr_remaining cr_degree cr_cores cr_current]; [apply length_replicate|exact Hl|apply length_replicate| | | | | | |].
  - intros v. unfold flagged. rewrite Hin, lookup_replicate. split; [by intros [_ ?]|done].
  - intros v. apply Hin.
  - intros v Hv%Hin. rewrite Hdeg by done.
    replace (nb v ∩ all) with (nb v); [done|]. apply set_eq. intros w.
    rewrite elem_of_intersection, Hin. split; [|tauto]. intros Hw. split; [done|by eapply Hbound].
  - intros v Hv Hnv. exfalso. apply Hnv, Hin, Hv.
  - lia.
  - intros S k HD. destruct (decide (S ⊆ all)) as [?|Hn]; [by left|]. right.
    destruct (decide (S ∖ all = ∅)) as [He|He].
    { exfalso. apply Hn. intros x Hx. destruct (decide (x ∈ all)) as [?|Hxn]; [done|].
      assert (x ∈ S ∖ all) as Hd by by apply elem_of_difference. rewrite He in Hd. by apply elem_of_empty in Hd. }
    destruct (set_choose_L _ He) as [x [Hx Hxn]%elem_of_difference]. rewrite Hin in Hxn.
    specialize (HD x Hx). assert (nb x = ∅) as Hnb.
    { unfold nb, neighbours. rewrite lookup_ge_None_2; [done|]. unfold n in Hxn. lia. }
    rewrite Hnb in HD. rewrite intersection_empty_l_L, size_empty in HD. lia.
  - exists all. split; [done|]. intros x _. lia.
Qed.

Lemma swp_core_loop degree :
  length degree = n → (∀ v, (v < n)%nat → degree_of degree v = Z.of_nat (size (nb v))) →
  swp (sfor (core_round adjacency) (seq 0 n) (mkCoreState (replicate n true) degree (replicate n 0) 0))
    (λ state, length (cr_cores state) = n ∧ ∀ v, (v < n)%nat → ∃ c, cr_cores state !! v = Some c ∧ coreness v c) Q.
Proof.
  intros Hl Hdeg. eapply swp_mono; [apply (swp_for (λ pre state, ∃ rest, core_inv rest state ∧
    (size rest + length pre = n)%nat) _ _ _ Q)| |done].
  - exists (list_to_set (seq 0 n)). split.
    { apply core_inv_init; [exact Hl|exact Hdeg|]. intros v. rewrite elem_of_list_to_set, elem_of_seq. lia. }
    rewrite size_list_to_set by apply NoDup_seq. rewrite length_seq. cbn [length]. lia.
  - intros pre k post state Hseq (rest & HI & Hsize).
    assert (length pre < n)%nat as Hlt.
    { apply (f_equal length) in Hseq. rewrite length_seq, length_app in Hseq. cbn [length] in Hseq. lia. }
    eapply swp_mono; [apply (swp_core_round k rest); [exact HI|]| |done].
    { intros ->. rewrite size_empty in Hsize. lia. }
    intros state' (v & Hv & HI'). exists (rest ∖ {[v]}). split; [done|].
    rewrite size_difference by by apply singleton_subseteq_l. rewrite size_singleton, length_app. cbn [length].
    assert (size rest ≠ 0%nat) by (intros Hz%size_empty_inv; apply Hz in Hv; by apply elem_of_empty in Hv). lia.
  - intros state (rest & HI & Hsize). rewrite length_seq in Hsize. split; [apply HI|]. intros v Hv.
    apply (ki_core _ _ HI); [done|]. assert (size rest = 0%nat) as Hz%size_empty_inv by lia. intros Hin. apply Hz in Hin. by apply elem_of_empty in Hin.
Qed.
End cores.

(** ** Results by vertex *)

Lemma swp_zip_result {A} (Q : AnalyticsError → Prop) (ids : list Z) (values : list A) :
  (∀ e, refused e → Q e) → NoDup ids →
  swp (zip_result ids values)
    (λ result, ∀ id a, result !! id = Some a ↔ ∃ v, ids !! v = Some id ∧ values !! v = Some a) Q.
Proof.
  intros HQ Hnd. unfold zip_result.
  eapply swp_mono; [apply (swp_for (λ pre result, ∀ id a, result !! id = Some a ↔ (id, a) ∈ pre) _ _ _ Q)| |done].
  - intros id a. rewrite lookup_empty, elem_of_nil. naive_solver.
  - intros pre [id a] post result Hzip Hres. apply swp_bind, (swp_step Q HQ), swp_ret. intros id' a'.
    rewrite elem_of_app, list_elem_of_singleton. destruct (decide (id = id')) as [<-|Hne].
    + rewrite lookup_insert_eq. split; [intros [= <-]; auto|]. intros [Hin|[= <-]]; [|done]. exfalso.
      assert (NoDup (zip ids values).*1) as Hz.
      { clear -Hnd. revert values. induction Hnd as [|x l Hx Hl IH]; intros [|a values]; [constructor..|].
        cbn. constructor; [|apply IH]. intros ([y b] & -> & Hin)%list_elem_of_fmap. apply Hx. by eapply elem_of_zip_l. }
      rewrite Hzip, fmap_app, NoDup_app in Hz. destruct Hz as (_ & Hdis & _).
      apply (Hdis id); [|left]. by apply (list_elem_of_fmap_2 fst _ (id, a')).
    + rewrite lookup_insert_ne by done. rewrite Hres. naive_solver.
  - cbn. intros result Hres id a. rewrite Hres. split.
    + intros (v & Hv)%list_elem_of_lookup_1. apply lookup_zip_with_Some in Hv as (? & ? & [= <- <-] & ? & ?). eauto.
    + intros (v & Hid & Ha). apply (list_elem_of_lookup_2 _ v). apply lookup_zip_with_Some. eauto 10.
Qed.

(** ** Core numbers of a graph *)

(** Every vertex of [S] has at least [k] neighbours in [S]. *)
Definition linked_within (csr : SnapshotCsr) (k : Z) (S : gset nat) : Prop :=
  ∀ x, x ∈ S → ∃ N : gset nat, (∀ w, w ∈ N → neighbour csr x w ∧ w ∈ S) ∧ k ≤ Z.of_nat (size N).

(** The largest [k] for which [v] is in such a set. *)
Definition core_number (csr : SnapshotCsr) (v : nat) (c : Z) : Prop :=
  (∃ S, v ∈ S ∧ linked_within csr c S) ∧ ∀ S k, v ∈ S → linked_within csr k S → k ≤ c.

Definition core_numbers (csr : SnapshotCsr) (result : AlgorithmResult) : Prop :=
  ∃ cores, result = CoreNumbers cores ∧
    ∀ id c, cores !! id = Some c ↔ ∃ v, csr_vertex_ids csr !! v = Some id ∧ core_number csr v c.

Lemma dense_linked csr adjacency k S : adjacency_of csr adjacency → dense adjacency k S ↔ linked_within csr k S.
Proof.
  intros Ha. split; intros HD x Hx.
  - exists (neighbours adjacency x ∩ S). split; [|by apply HD]. intros w [Hw HwS]%elem_of_intersection.
    split; [by apply (aj_elem _ _ Ha)|done].
  - destruct (HD x Hx) as (N & HN & Hk). assert (N ⊆ neighbours adjacency x ∩ S) as Hsub.
    { intros w Hw. destruct (HN w Hw). apply elem_of_intersection. split; [by apply (aj_elem _ _ Ha)|done]. }
    apply subseteq_size in Hsub. lia.
Qed.
Lemma coreness_core_number csr adjacency v c : adjacency_of csr adjacency → coreness adjacency v c ↔ core_number csr v c.
Proof. intros Ha. unfold coreness, core_number. by setoid_rewrite (dense_linked csr adjacency _ _ Ha). Qed.
Lemma core_number_unique csr v c c' : core_number csr v c → core_number csr v c' → c = c'.
Proof. intros [(S & HS & HD) Hup] [(S' & HS' & HD') Hup']. specialize (Hup S' c' HS' HD'). specialize (Hup' S c HS HD). lia. Qed.

Lemma swp_degrees (Q : AnalyticsError → Prop) adjacency :
  (∀ e, refused e → Q e) →
  swp (sfor (λ neighbors degree, _ ← step; mret (degree ++ [Z.of_nat (size (neighbors : gset nat))])) adjacency [])
    (λ degree, degree = (λ s : gset nat, Z.of_nat (size s)) <$> adjacency) Q.
Proof.
  intros HQ. apply (swp_for (λ pre (degree : list Z), degree = (λ s : gset nat, Z.of_nat (size s)) <$> pre)); [done|].
  intros pre s post degree _ ->. apply swp_bind, (swp_step Q HQ), swp_ret. by rewrite fmap_app.
Qed.
Lemma degree_of_sizes adjacency v :
  degree_of ((λ s : gset nat, Z.of_nat (size s)) <$> adjacency) v = Z.of_nat (size (neighbours adjacency v)).
Proof. unfold degree_of, neighbours. rewrite list_lookup_fmap. by destruct (adjacency !! v). Qed.

Lemma adjacency_laws csr adjacency :
  csr_wf csr → adjacency_of csr adjacency →
  (∀ v w, w ∈ neighbours adjacency v → v ∈ neighbours adjacency w) ∧
  (∀ v, v ∉ neighbours adjacency v) ∧
  (∀ v w, w ∈ neighbours adjacency v → (w < length adjacency)%nat).
Proof.
  intros Hwf Ha. split_and!; [intros v w Hw%(aj_elem _ _ Ha)|by intros v [_ Hne]%(aj_elem _ _ Ha)|intros v w Hw%(aj_elem _ _ Ha)].
  - apply (aj_elem _ _ Ha). by apply neighbour_sym.
  - rewrite (aj_length _ _ Ha). by apply (neighbour_bound csr v w).
Qed.

Lemma ids_NoDup csr : csr_wf csr → NoDup (csr_vertex_ids csr).
Proof. intros Hwf. rewrite <-(map_id (csr_vertex_ids csr)). apply (strictly_sorted_NoDup id), Hwf. Qed.

Lemma swp_k_core csr : csr_wf csr → swp (k_core csr) (core_numbers csr) refused.
Proof.
  intros Hwf. unfold k_core. apply swp_bind.
  eapply swp_mono; [by apply (swp_undirected_adjacency refused)| |done]. intros adjacency Ha.
  destruct (adjacency_laws csr adjacency Hwf Ha) as (Hsym & Hloop & Hbound).
  apply swp_bind, (swp_reserve_memory refused); [done|]. apply swp_bind.
  eapply swp_mono; [by apply (swp_degrees refused)| |done]. intros degree ->. apply swp_bind.
  eapply swp_mono; [apply (swp_core_loop refused (λ _ H, H) adjacency Hsym Hloop Hbound)| |done].
  - by rewrite length_fmap.
  - intros v _. apply degree_of_sizes.
  - intros state [Hlen Hcores]. apply swp_bind.
    eapply swp_mono; [apply (swp_zip_result refused); [done|by apply ids_NoDup]| |done]. intros cores Hzip. cbn beta in Hzip.
    apply swp_ret. exists cores. split; [done|]. intros id c. rewrite Hzip.
    setoid_rewrite <-(coreness_core_number csr adjacency _ _ Ha). split; intros (v & Hv & Hc); exists v; (split; [done|]).
    all: destruct (Hcores v) as (c' & Hc' & Hcore); [rewrite (aj_length _ _ Ha); by eapply lookup_lt_Some|].
    + rewrite Hc in Hc'. by injection Hc' as <-.
    + rewrite Hc'. f_equal. by apply (core_number_unique csr v); apply (coreness_core_number csr adjacency v _ Ha).
Qed.

(** *** What computing them costs *)

Section core_costs.
Context (csr : SnapshotCsr) (Hwf : csr_wf csr).
Let n := vertex_count csr.

Definition adjacency_work : nat := vertex_count csr * S (length (csr_neighbors csr)).
Definition core_work : nat := adjacency_work + (vertex_count csr + (vertex_count csr * S (2 * vertex_count csr) + vertex_count csr)).

Lemma costs_insert_at adjacency v w : costs 0 0 (insert_at adjacency v w).
Proof. apply (costs_bind 0 0 0 0); [apply costs_index|]. intros s. apply costs_assign. Qed.

Lemma costs_undirected_adjacency : costs (24 * n) adjacency_work (undirected_adjacency csr).
Proof.
  unfold undirected_adjacency, adjacency_work. change (length (csr_vertex_ids csr)) with n.
  apply (costs_mono (Z.to_nat (saturating_mul (Z.of_nat n) 24) + 0) (0 + n * S (length (csr_neighbors csr)))); [|
    unfold saturating_mul; lia|unfold n; lia].
  apply costs_bind; [apply costs_reserve|]. intros _. rewrite <-(length_seq n 0) at 1.
  apply costs_for. intros u adjacency _. apply (costs_bind 0 1 0 (length (csr_neighbors csr))); [apply costs_step|].
  intros _. apply (costs_bind_of (λ r, (length r ≤ length (csr_neighbors csr))%nat) 0 0 0 (length (csr_neighbors csr)));
    [apply costs_outgoing|by apply outgoing_length|].
  intros r Hr. eapply costs_mono; [apply (costs_for 1)|lia|lia]. intros i a _. unfold add_edge.
  apply (costs_bind 0 1 0 0); [apply costs_step|]. intros _. apply (costs_bind 0 0 0 0); [apply costs_index_usize|].
  intros w. destruct (_ =? _)%nat; [apply costs_ret|]. apply (costs_bind 0 0 0 0); [apply costs_insert_at|].
  intros a'. apply costs_insert_at.
Qed.

(** The numbers a round works with fit in 32 bits. *)
Definition narrow (state : core_state) : Prop :=
  0 ≤ cr_current state < 2 ^ 32 ∧ Forall (λ d, 0 ≤ d < 2 ^ 32) (cr_degree state).

Lemma swp_index_Forall {A} (P : A → Prop) l i : Forall P l → swp (index l i) P (λ _, True).
Proof.
  intros HP. apply swp_lift. destruct (l !! i) as [a|] eqn:Ha; [|done]. cbn. by eapply Forall_lookup_1.
Qed.
Lemma swp_any {A} (m : analysing A) : swp m (λ _, True) (λ _, True).
Proof. intros g. by destruct (m g) as [[]|]. Qed.

Lemma swp_lower_degrees_narrow remaining vs degree :
  Forall (λ d, 0 ≤ d < 2 ^ 32) degree →
  swp (sfor (lower_degree remaining) vs degree) (Forall (λ d, 0 ≤ d < 2 ^ 32)) (λ _, True).
Proof.
  intros Hd. apply swp_for_inv; [done|]. intros v degree' _ Hd'. unfold lower_degree.
  apply swp_bind. eapply swp_mono; [apply swp_any| |done]. intros _ _. apply swp_bind.
  eapply swp_mono; [apply swp_any| |done]. intros [|] _; [|by apply swp_ret]. apply swp_bind.
  eapply swp_mono; [by apply (swp_index_Forall _ degree' v)| |done]. intros d Hdv. cbn beta in Hdv. unfold assign.
  destruct (_ <? _)%nat; [|by apply swp_stop]. apply swp_ret. apply Forall_insert; [done|]. unfold saturating_sub. lia.
Qed.

Lemma swp_core_round_narrow adjacency k state :
  narrow state → swp (core_round adjacency k state) narrow (λ _, True).
Proof.
  intros [Hcur Hdeg]. unfold core_round.
  do 3 (apply swp_bind; eapply swp_mono; [apply swp_any| |done]; intros ? _).
  apply swp_bind. eapply swp_mono; [by apply (swp_index_Forall _ (cr_degree state))| |done]. intros d Hd. cbn beta in Hd.
  do 4 (apply swp_bind; eapply swp_mono; [apply swp_any| |done]; intros ? _).
  apply swp_bind. eapply swp_mono; [by apply swp_lower_degrees_narrow| |done]. intros degree Hdeg'.
  apply swp_ret. split; [cbn; lia|done].
Qed.

Lemma size_ascending (s : gset nat) : size s = length (ascending s).
Proof. unfold ascending. by rewrite sort_by_perm. Qed.
Lemma ascending_below adjacency v s : adjacency_of csr adjacency → adjacency !! v = Some s → (length (ascending s) ≤ n)%nat.
Proof.
  intros Ha Hs. apply NoDup_below_length; [apply NoDup_ascending|].
  intros w Hw%elem_of_ascending. apply (neighbour_bound csr v w Hwf), (aj_elem _ _ Ha). unfold neighbours. by rewrite Hs.
Qed.

Lemma costs_core_round adjacency k state :
  adjacency_of csr adjacency → narrow state → costs 0 (S (2 * n)) (core_round adjacency k state).
Proof.
  intros Ha [Hcur Hdeg]. unfold core_round. rewrite (aj_length _ _ Ha). fold n.
  apply (costs_bind 0 1 0 (2 * n)); [apply costs_step|]. intros _.
  replace (2 * n)%nat with (n * 1 + n)%nat by lia. apply (costs_bind 0 (n * 1) 0 n).
  { rewrite <-(length_seq n 0) at 1. apply costs_for. intros v selected _. unfold select_least.
    apply (costs_bind 0 1 0 0); [apply costs_step|]. intros _. apply (costs_bind 0 0 0 0); [apply costs_index|].
    intros [|]; [|apply costs_ret]. destruct selected; [|apply costs_ret].
    apply (costs_bind 0 0 0 0); [apply costs_index|]. intros d. apply (costs_bind 0 0 0 0); [apply costs_index|].
    intros d'. destruct (_ || _); apply costs_ret. }
  intros selected. apply (costs_bind 0 0 0 n); [apply costs_ok_or; by intros [|]|]. intros vertex.
  apply (costs_bind_of (λ d, 0 ≤ d < 2 ^ 32) 0 0 0 n); [apply costs_index|by apply swp_index_Forall|]. intros d Hd.
  apply (costs_bind 0 0 0 n); [destruct (_ <? _) eqn:Hlt; [apply costs_ret|lia]|]. intros core.
  apply (costs_bind 0 0 0 n); [apply costs_assign|]. intros cores.
  apply (costs_bind 0 0 0 n); [apply costs_assign|]. intros remaining.
  apply (costs_bind_of (λ s, (length (ascending s) ≤ n)%nat) 0 0 0 n); [apply costs_index| |].
  { apply swp_lift. destruct (adjacency !! vertex) as [s|] eqn:Hs; [|done]. by eapply ascending_below. }
  intros s Hs. eapply costs_mono; [apply (costs_bind 0 (length (ascending s) * 1) 0 0)|lia|lia]; [|intros degree; apply costs_ret].
  apply costs_for. intros w degree _. unfold lower_degree. apply (costs_bind 0 1 0 0); [apply costs_step|]. intros _.
  apply (costs_bind 0 0 0 0); [apply costs_index|]. intros [|]; [|apply costs_ret].
  apply (costs_bind 0 0 0 0); [apply costs_index|]. intros d'. apply costs_assign.
Qed.

Lemma costs_zip_result {A} (values : list A) : costs 0 n (zip_result (csr_vertex_ids csr) values).
Proof.
  unfold zip_result. eapply costs_mono; [apply (costs_for 1)|lia|].
  - intros [id a] result _. apply (costs_bind 0 1 0 0); [apply costs_step|]. intros _. apply costs_ret.
  - rewrite length_zip_with. unfold n, vertex_count. lia.
Qed.

Lemma costs_k_core : Z.of_nat n < 2 ^ 32 → costs (33 * n) core_work (k_core csr).
Proof.
  intros Hn. unfold k_core, core_work. fold n.
  replace (33 * n)%nat with (24 * n + 9 * n)%nat by lia.
  apply (costs_bind_of (adjacency_of csr)); [apply costs_undirected_adjacency|by apply swp_undirected_adjacency|].
  intros adjacency Ha. rewrite (aj_length _ _ Ha). fold n.
  apply (costs_mono (Z.to_nat (saturating_mul (Z.of_nat n) 9) + 0) (0 + (n + (n * S (2 * n) + n)))); [|unfold saturating_mul; lia|lia].
  apply costs_bind; [apply costs_reserve|]. intros _.
  apply (costs_bind_of (λ degree, degree = (λ s : gset nat, Z.of_nat (size s)) <$> adjacency) 0 n 0);
    [|by apply (swp_degrees (λ _, True))|].
  { eapply costs_mono; [apply (costs_for 1)|lia|rewrite (aj_length _ _ Ha); unfold n; lia]. intros s degree _.
    apply (costs_bind 0 1 0 0); [apply costs_step|]. intros _. apply costs_ret. }
  intros degree ->. apply (costs_bind 0 (n * S (2 * n)) 0 n).
  - rewrite <-(length_seq n 0) at 1. apply (costs_for_inv narrow).
    + split; [done|]. apply Forall_fmap, Forall_lookup. intros v s Hs. cbn.
      assert (size s ≤ n)%nat; [|lia]. rewrite size_ascending. by eapply ascending_below.
    + intros k state _ HI. by apply costs_core_round.
    + intros k state _ HI. by apply swp_core_round_narrow.
  - intros state. eapply costs_mono; [apply (costs_bind 0 n 0 0)|lia|lia]; [apply costs_zip_result|intros r; apply costs_ret].
Qed.
End core_costs.

(** C27. [k_core] yields for every vertex its core number: the largest [k] such that the vertex is in a
    set of vertices of which each has at least [k] neighbours in the set, edges taken in either
    direction.  It fails only when cancelled or out of budget, and on a graph of fewer than 2^32
    vertices a budget of [33 * n] bytes and [core_work] steps is enough. *)
Theorem k_core_correct csr guard :
  csr_wf csr →
  match k_core csr guard with
  | Ok (result, _) => core_numbers csr result
  | Err e => refused e
  end ∧
  (Z.of_nat (vertex_count csr) < 2 ^ 32 → within (33 * vertex_count csr) (core_work csr) guard →
   is_ok (k_core csr guard) = true).
Proof.
  intros Hwf. split; [by apply swp_k_core|]. intros Hn Hw.
  by eapply costs_returns; [apply costs_k_core|apply swp_k_core| |].
Qed.

(** A triangle 1, 2, 3 with a tail through 4 to 5, and 6 by itself; the edges 11 and 16 are parallel. *)
Definition tailed_edges : list (Z * Z * Z * Z * Z) :=
  [(11, 1, 2, 0, 1); (12, 2, 3, 0, 1); (13, 3, 1, 0, 1); (14, 3, 4, 0, 1); (15, 4, 5, 0, 1); (16, 2, 1, 0, 1)].
Definition tailed : SnapshotCsr := Eval vm_compute in sample_graph [1; 2; 3; 4; 5; 6] tailed_edges.

Lemma tailed_wf : csr_wf tailed.
Proof. exact (sample_wf [1; 2; 3; 4; 5; 6] tailed_edges eq_refl). Qed.

Lemma k_core_witness :
  core_numbers tailed (CoreNumbers {[1 := 2; 2 := 2; 3 := 2; 4 := 1; 5 := 1; 6 := 0]}) ∧
  is_ok (k_core tailed free_guard) = true.
Proof.
  destruct (k_core_correct tailed free_guard tailed_wf) as [H Hok].
  split; [|apply Hok; [vm_compute; reflexivity|]].
  - assert (fst <$> k_core tailed free_guard = Ok (CoreNumbers {[1 := 2; 2 := 2; 3 := 2; 4 := 1; 5 := 1; 6 := 0]})) as Heq.
    { vm_compute. reflexivity. }
    destruct (k_core tailed free_guard) as [[result guard]|e]; [|discriminate Heq].
    cbn in Heq. injection Heq as ->. exact H.
  - repeat split; vm_compute; intros [=].
Defined.
