(* ===== verification/Scores.v ===== *)
(** * Distances and scores, and the entry point of the algorithms ([shortest_path.rs], the scores of
    [centrality.rs], [louvain] of [community.rs] and [run_builtin] of [catalog.rs] in [dtg-analytics])

    The scores are floating point numbers and each operation is rounded as the machine does.  A sum
    or product the source does not check is [usize], which panics on overflow; [Total] shows that none
    does.  The theorems about all algorithms are in [Total]. *)

From Stdlib Require Import Floats.SpecFloat.
From S2P Require Import Prelude Text Kernel Storage Loops Projection Csr Analytics Traversal Components Temporal Journeys Earliest Community.
Open Scope Z_scope.

(** ** Numbers *)

Definition f64_zero : f64 := S754_zero false.
Definition f64_one : f64 := as_f64 1.
Definition f64_ltb : f64 → f64 → bool := SFltb.
Definition f64_leb : f64 → f64 → bool := SFleb.
Definition f64_eqb : f64 → f64 → bool := SFeqb.

(** An unchecked product of [usize]s, which panics when it does not fit. *)
Definition usize (z : Z) : analysing Z := if z <? 2 ^ 64 then mret z else stop AnalyticsPanic.
(** A checked one. *)
Definition checked (z : Z) : analysing Z := if z <? 2 ^ 64 then mret z else stop AnResourceLimit.

(** ** Shortest paths *)

Definition select_nearest (distances : list f64) (settled : list bool) (vertex : nat) (next : option nat)
    : analysing (option nat) :=
  _ ← step;
  is_settled ← index settled vertex;
  if is_settled : bool then mret next
  else
    d ← index distances vertex;
    if is_finite d then
      match next with
      | None => mret (Some vertex)
      | Some current =>
          d' ← index distances current;
          if f64_ltb d d' then mret (Some vertex) else mret next
      end
    else mret next.

Definition edge_weight (csr : SnapshotCsr) (weight_property : option string) (edge_index : nat) : analysing f64 :=
  match weight_property with
  | Some property => lift (ok_or AnMissingProperty (edge_number csr property edge_index))
  | None => mret f64_one
  end.

Definition relax_distance (csr : SnapshotCsr) (weight_property : option string) (vertex edge_index : nat)
    (distances : list f64) : analysing (list f64) :=
  _ ← step;
  weight ← edge_weight csr weight_property edge_index;
  if negb (is_finite weight) || f64_ltb weight f64_zero then stop AnInvalidProperty
  else
    neighbor ← index_usize (csr_neighbors csr) edge_index;
    d ← index distances vertex;
    let candidate := f64_add d weight in
    d' ← index distances neighbor;
    if f64_ltb candidate d' then assign distances neighbor candidate else mret distances.

Definition distance_round (csr : SnapshotCsr) (weight_property : option string) (_ : nat)
    (state : list f64 * list bool) : analysing (list f64 * list bool + list f64 * list bool) :=
  let '(distances, settled) := state in
  _ ← step;
  next ← sfor (select_nearest distances settled) (seq 0 (length (csr_vertex_ids csr))) None;
  match next with
  | None => mret (inr state)
  | Some vertex =>
      settled ← assign settled vertex true;
      range ← outgoing csr vertex;
      distances ← sfor (relax_distance csr weight_property vertex) range distances;
      mret (inl (distances, settled))
  end.

Definition shortest_distances (csr : SnapshotCsr) (source : nat) (weight_property : option string)
    : analysing (list f64) :=
  let vertex_count := length (csr_vertex_ids csr) in
  _ ← reserve (saturating_mul (Z.of_nat vertex_count) 9);
  distances ← assign (replicate vertex_count (S754_infinity false)) source f64_zero;
  state ← sfor_break (distance_round csr weight_property) (seq 0 vertex_count)
            (distances, replicate vertex_count false);
  mret state.1.

Definition bounded_sssp (csr : SnapshotCsr) (request : AlgorithmRequest) : analysing AlgorithmResult :=
  source ← vertex_of csr (ar_source request);
  distances ← shortest_distances csr source (ar_weight_property request);
  result ← sfor (λ '(vertex_id, distance) result,
             _ ← step;
             mret (if is_finite distance then <[vertex_id := distance]> result else result))
             (zip (csr_vertex_ids csr) distances) ∅;
  mret (Distances result).

Definition all_pairs_row (csr : SnapshotCsr) (request : AlgorithmRequest) (source : nat)
    (result : gmap (VertexId * VertexId) f64) : analysing (gmap (VertexId * VertexId) f64) :=
  _ ← step;
  distances ← shortest_distances csr source (ar_weight_property request);
  sfor (λ '(target, distance) result,
    _ ← step;
    if is_finite distance then
      source_id ← index (csr_vertex_ids csr) source;
      target_id ← index (csr_vertex_ids csr) target;
      mret (<[(source_id, target_id) := distance]> result)
    else mret result) (zip (seq 0 (length distances)) distances) result.

Definition bounded_apsp (csr : SnapshotCsr) (request : AlgorithmRequest) : analysing AlgorithmResult :=
  let vertex_count := length (csr_vertex_ids csr) in
  pairs ← checked (Z.of_nat vertex_count * Z.of_nat vertex_count);
  if ar_max_pairs request <? pairs then stop AnResourceLimit
  else
    _ ← reserve (saturating_mul pairs 8);
    result ← sfor (all_pairs_row csr request) (seq 0 vertex_count) ∅;
    mret (AllPairs result).

(** ** Rank *)

Definition add_dangling (csr : SnapshotCsr) (entry : nat * f64) (dangling : f64) : analysing f64 :=
  let '(vertex, rank) := entry in
  _ ← step;
  range ← outgoing csr vertex;
  mret (match range with [] => f64_add dangling rank | _ => dangling end).

Definition spread_rank (csr : SnapshotCsr) (damping : f64) (entry : nat * f64) (next : list f64)
    : analysing (list f64) :=
  let '(source, rank) := entry in
  _ ← step;
  range ← outgoing csr source;
  let degree := length range in
  if (degree =? 0)%nat then mret next
  else
    let contribution := f64_div (f64_mul damping rank) (as_f64 (Z.of_nat degree)) in
    sfor (λ edge_index next,
      _ ← step;
      neighbor ← index_usize (csr_neighbors csr) edge_index;
      rank ← index next neighbor;
      assign next neighbor (f64_add rank contribution)) range next.

Definition rank_round (csr : SnapshotCsr) (damping count : f64) (_ : nat) (ranks : list f64) : analysing (list f64) :=
  _ ← step;
  dangling ← sfor (add_dangling csr) (zip (seq 0 (length ranks)) ranks) f64_zero;
  let base := f64_add (f64_div (f64_sub f64_one damping) count) (f64_div (f64_mul damping dangling) count) in
  sfor (spread_rank csr damping) (zip (seq 0 (length ranks)) ranks)
    (replicate (length (csr_vertex_ids csr)) base).

Definition page_rank (csr : SnapshotCsr) (request : AlgorithmRequest) : analysing AlgorithmResult :=
  _ ← require_iterations (ar_iterations request);
  let damping := ar_damping request in
  if negb (f64_leb f64_zero damping && f64_ltb damping f64_one) then stop AnInvalidRequest
  else
    let vertex_count := length (csr_vertex_ids csr) in
    if (vertex_count =? 0)%nat then mret (Scores ∅)
    else
      _ ← reserve (saturating_mul (Z.of_nat vertex_count) 16);
      let count := as_f64 (Z.of_nat vertex_count) in
      ranks ← sfor (rank_round csr damping count) (seq 0 (Z.to_nat (ar_iterations request)))
                (replicate vertex_count (f64_div f64_one count));
      total ← sfor (λ rank total, _ ← step; mret (f64_add total rank)) ranks f64_zero;
      ranks ← (if f64_ltb f64_zero total
               then sfor (λ rank scaled, _ ← step; mret (scaled ++ [f64_div rank total])) ranks []
               else mret ranks);
      scores ← zip_result (csr_vertex_ids csr) ranks;
      mret (Scores scores).

(** ** Centrality *)

Definition degree_score (csr : SnapshotCsr) (denominator : f64) (vertex : nat) (scores : gmap VertexId f64)
    : analysing (gmap VertexId f64) :=
  _ ← step;
  out_range ← outgoing csr vertex;
  in_range ← incoming csr vertex;
  vertex_id ← index (csr_vertex_ids csr) vertex;
  degree ← usize (Z.of_nat (length out_range) + Z.of_nat (length in_range));
  mret (<[vertex_id := f64_div (as_f64 degree) denominator]> scores).

Definition degree_centrality (csr : SnapshotCsr) : analysing AlgorithmResult :=
  _ ← reverse_of_csr csr;
  let vertex_count := length (csr_vertex_ids csr) in
  let denominator := as_f64 (Z.max (saturating_sub (Z.of_nat vertex_count) 1) 1) in
  scores ← sfor (degree_score csr denominator) (seq 0 vertex_count) ∅;
  mret (Scores scores).

Definition closeness_score (csr : SnapshotCsr) (source : nat) (scores : gmap VertexId f64)
    : analysing (gmap VertexId f64) :=
  let vertex_count := length (csr_vertex_ids csr) in
  _ ← step;
  distances ← shortest_distances csr source None;
  found ← sfor (λ '(target, distance) '(reachable, sum),
             _ ← step;
             mret (if negb (target =? source)%nat && is_finite distance
                   then (reachable + 1, f64_add sum distance) else (reachable, sum)))
            (zip (seq 0 (length distances)) distances) (0, f64_zero);
  let '(reachable, sum) := found in
  score ← (if f64_eqb sum f64_zero || (vertex_count <=? 1)%nat then mret f64_zero
           else
             square ← usize (reachable * reachable);
             mret (f64_div (as_f64 square) (f64_mul (as_f64 (Z.of_nat vertex_count - 1)) sum)));
  vertex_id ← index (csr_vertex_ids csr) source;
  mret (<[vertex_id := score]> scores).

Definition closeness_centrality (csr : SnapshotCsr) : analysing AlgorithmResult :=
  scores ← sfor (closeness_score csr) (seq 0 (length (csr_vertex_ids csr))) ∅;
  mret (Scores scores).

Record brandes := mkBrandes {
  br_predecessors : list (list nat);
  br_paths : list f64;
  br_distance : list Z;
  br_queue : list nat;
  br_stack : list nat;
}.

(** An edge from [vertex]; a distance is at most the number of vertices. *)
Definition count_paths (csr : SnapshotCsr) (vertex edge_index : nat) (state : brandes) : analysing brandes :=
  _ ← step;
  neighbor ← index_usize (csr_neighbors csr) edge_index;
  d ← index (br_distance state) neighbor;
  here ← index (br_distance state) vertex;
  found ← (if d <? 0 then
             distance ← assign (br_distance state) neighbor (here + 1);
             mret (distance, br_queue state ++ [neighbor])
           else mret (br_distance state, br_queue state));
  let '(distance, queue) := found in
  d ← index distance neighbor;
  here ← index distance vertex;
  if d =? here + 1 then
    p ← index (br_paths state) neighbor;
    p' ← index (br_paths state) vertex;
    paths ← assign (br_paths state) neighbor (f64_add p p');
    previous ← index (br_predecessors state) neighbor;
    predecessors ← assign (br_predecessors state) neighbor (previous ++ [vertex]);
    mret (mkBrandes predecessors paths distance queue (br_stack state))
  else mret (mkBrandes (br_predecessors state) (br_paths state) distance queue (br_stack state)).

Definition count_round (csr : SnapshotCsr) (state : brandes) : analysing (brandes + brandes) :=
  match br_queue state with
  | [] => mret (inr state)
  | vertex :: queue =>
      _ ← step;
      range ← outgoing csr vertex;
      state ← sfor (count_paths csr vertex) range
                (mkBrandes (br_predecessors state) (br_paths state) (br_distance state) queue
                   (br_stack state ++ [vertex]));
      mret (inl state)
  end.

(** One vertex of the stack, popped from its end. *)
Definition accumulate (source : nat) (predecessors : list (list nat)) (paths : list f64) (vertex : nat)
    (acc : list f64 * list f64) : analysing (list f64 * list f64) :=
  let '(dependency, centrality) := acc in
  _ ← step;
  previous ← index predecessors vertex;
  dependency ← sfor (λ predecessor dependency,
                 _ ← step;
                 p ← index paths vertex;
                 if f64_ltb f64_zero p then
                   q ← index paths predecessor;
                   d ← index dependency vertex;
                   d' ← index dependency predecessor;
                   assign dependency predecessor (f64_add d' (f64_mul (f64_div q p) (f64_add f64_one d)))
                 else mret dependency) previous dependency;
  if (vertex =? source)%nat then mret (dependency, centrality)
  else
    c ← index centrality vertex;
    d ← index dependency vertex;
    centrality ← assign centrality vertex (f64_add c d);
    mret (dependency, centrality).

Definition betweenness_source (csr : SnapshotCsr) (source : nat) (centrality : list f64) : analysing (list f64) :=
  let vertex_count := length (csr_vertex_ids csr) in
  _ ← step;
  paths ← assign (replicate vertex_count f64_zero) source f64_one;
  distance ← assign (replicate vertex_count (-1)) source 0;
  state ← swhile AnalyticsOutOfFuel (S (S vertex_count)) (count_round csr)
            (mkBrandes (replicate vertex_count []) paths distance [source] []);
  acc ← sfor (accumulate source (br_predecessors state) (br_paths state)) (reverse (br_stack state))
          (replicate vertex_count f64_zero, centrality);
  mret acc.2.

Definition betweenness_centrality (csr : SnapshotCsr) : analysing AlgorithmResult :=
  let vertex_count := length (csr_vertex_ids csr) in
  _ ← reserve (saturating_mul (saturating_mul (Z.of_nat vertex_count) (Z.of_nat vertex_count)) 8);
  centrality ← sfor (betweenness_source csr) (seq 0 vertex_count) (replicate vertex_count f64_zero);
  scores ← zip_result (csr_vertex_ids csr) centrality;
  mret (Scores scores).

(** ** Clustering *)

Definition connected_pair (adjacency : list (gset nat)) (neighbors : list nat) (left right : nat) (pairs : Z)
    : analysing Z :=
  _ ← step;
  a ← index neighbors left;
  s ← index adjacency a;
  b ← index neighbors right;
  if bool_decide (b ∈@{gset nat} s) then usize (pairs + 1) else mret pairs.

Definition clustering_score (csr : SnapshotCsr) (adjacency : list (gset nat)) (vertex : nat)
    (scores : gmap VertexId f64) : analysing (gmap VertexId f64) :=
  _ ← step;
  s ← index adjacency vertex;
  neighbors ← sfor (λ neighbor neighbors, _ ← step; mret (neighbors ++ [neighbor])) (ascending s) [];
  vertex_id ← index (csr_vertex_ids csr) vertex;
  let degree := length neighbors in
  if (degree <? 2)%nat then mret (<[vertex_id := f64_zero]> scores)
  else
    pairs ← sfor (λ left pairs,
              sfor (connected_pair adjacency neighbors left) (seq (left + 1) (degree - (left + 1))) pairs)
              (seq 0 degree) 0;
    possible ← usize (Z.of_nat degree * (Z.of_nat degree - 1));
    mret (<[vertex_id := f64_div (f64_mul (as_f64 2) (as_f64 pairs)) (as_f64 possible)]> scores).

Definition clustering_coefficient (csr : SnapshotCsr) : analysing AlgorithmResult :=
  adjacency ← undirected_adjacency csr;
  scores ← sfor (clustering_score csr adjacency) (seq 0 (length adjacency)) ∅;
  mret (Scores scores).

(** ** Louvain's method *)

(** [*map.entry(key).or_default() += amount]. *)
Definition add_to (totals : gmap Z f64) (key : Z) (amount : f64) : gmap Z f64 :=
  <[key := f64_add (default f64_zero (totals !! key)) amount]> totals.

Definition candidate_gain (degree total_degree : f64) (totals : gmap Z f64) (entry : Z * f64) (best : Z * f64)
    : analysing (Z * f64) :=
  let '(candidate, internal_weight) := entry in
  _ ← step;
  total ← lift (ok_or AnalyticsPanic (totals !! candidate));
  let gain := f64_sub internal_weight (f64_div (f64_mul degree total) total_degree) in
  mret (if f64_ltb best.2 gain || (f64_eqb gain best.2 && (candidate <? best.1)) then (candidate, gain) else best).

Definition louvain_vertex (adjacency : list (gset nat)) (degrees : list f64) (total_degree : f64) (vertex : nat)
    (acc : list Z * bool) : analysing (list Z * bool) :=
  let '(communities, moved) := acc in
  _ ← step;
  neighbors ← index adjacency vertex;
  candidates ← sfor (λ neighbor candidates,
                 _ ← step;
                 community ← index communities neighbor;
                 mret (add_to candidates community f64_one)) (ascending neighbors) ∅;
  totals ← sfor (λ '(member, community) totals,
             _ ← step;
             degree ← index degrees member;
             mret (add_to totals community degree)) (zip (seq 0 (length communities)) communities) ∅;
  current ← index communities vertex;
  degree ← index degrees vertex;
  best ← sfor (candidate_gain degree total_degree totals) (entries candidates) (current, S754_infinity true);
  if negb (best.1 =? current) && f64_ltb f64_zero best.2 then
    communities ← assign communities vertex best.1;
    mret (communities, true)
  else mret (communities, moved).

Definition louvain_round (adjacency : list (gset nat)) (degrees : list f64) (total_degree : f64) (_ : nat)
    (communities : list Z) : analysing (list Z + list Z) :=
  _ ← step;
  acc ← sfor (louvain_vertex adjacency degrees total_degree) (seq 0 (length adjacency)) (communities, false);
  if acc.2 : bool then mret (inl acc.1) else mret (inr acc.1).

Definition louvain (csr : SnapshotCsr) (request : AlgorithmRequest) : analysing AlgorithmResult :=
  _ ← require_iterations (ar_iterations request);
  adjacency ← undirected_adjacency csr;
  let vertex_count := length adjacency in
  start ← sfor (λ '(vertex, neighbors) '(communities, degrees, total_degree),
            _ ← step;
            let degree := as_f64 (Z.of_nat (size (neighbors : gset nat))) in
            mret (communities ++ [Z.of_nat vertex], degrees ++ [degree], f64_add total_degree degree))
            (zip (seq 0 vertex_count) adjacency) ([], [], f64_zero);
  let '(communities, degrees, total_degree) := start in
  if f64_eqb total_degree f64_zero then
    labels ← sfor (λ i labels, _ ← step; mret (labels ++ [Z.of_nat i + 1])) (seq 0 vertex_count) [];
    communities_result csr labels
  else
    communities ← sfor_break (louvain_round adjacency degrees total_degree)
                    (seq 0 (Z.to_nat (ar_iterations request))) communities;
    labels ← sfor (λ community labels, _ ← step; mret (labels ++ [community + 1])) communities [];
    labels ← canonicalize_labels labels;
    communities_result csr labels.

(** ** The entry point *)

Definition dispatch (csr : SnapshotCsr) (request : AlgorithmRequest) : analysing AlgorithmResult :=
  match ar_algorithm request with
  | BreadthFirstSearch => breadth_first_search csr request
  | DepthFirstSearch => depth_first_search csr request
  | BoundedSingleSourceShortestPath => bounded_sssp csr request
  | BoundedAllPairsShortestPaths => bounded_apsp csr request
  | StronglyConnectedComponents => strongly_connected_components csr
  | WeaklyConnectedComponents => weakly_connected_components csr
  | PageRank => page_rank csr request
  | DegreeCentrality => degree_centrality csr
  | ClosenessCentrality => closeness_centrality csr
  | BetweennessCentrality => betweenness_centrality csr
  | TriangleCount => triangle_count csr
  | ClusteringCoefficient => clustering_coefficient csr
  | KCore => k_core csr
  | LabelPropagation => label_propagation csr request
  | Louvain => louvain csr request
  | EarliestArrival => earliest_arrival csr request
  | LatestDeparture => latest_departure csr request
  | TemporalReachability => temporal_reachability csr request
  | TemporalMotif => temporal_motif csr request
  | ChangePoint => change_point csr request
  end.

Definition guarded_run (csr : SnapshotCsr) (request : AlgorithmRequest) : analysing AlgorithmResult :=
  bytes ← checked (Z.of_nat (length (csr_vertex_ids csr)) * 128);
  edge_bytes ← checked (Z.of_nat (length (csr_edge_ids csr)) * 64);
  base_memory ← checked (bytes + edge_bytes);
  _ ← reserve base_memory;
  if bool_decide (ad_required_shape (descriptor (ar_algorithm request)) = ForwardAndReverse)
     && bool_decide (csr_reverse csr = None)
  then stop AnMissingReverseCsr
  else dispatch csr request.

(** The guard of the run is returned with the result. *)
Definition run_builtin (csr : SnapshotCsr) (request : AlgorithmRequest) (budget : AlgorithmBudget)
    : result AnalyticsError (AlgorithmResult * ExecutionGuard) :=
  guard ← ExecutionGuard_new budget;
  guarded_run csr request guard.
