(* ===== verification/Total.v ===== *)
(** * Every algorithm answers within its budget

    A run of [run_builtin] on an assembled graph never panics and never loops, whatever the request and
    whenever it is cancelled; it fails only with the errors its algorithm documents, its result has the
    kind of its algorithm, and what it charged stays within the budget. *)

From Stdlib Require Import Floats.SpecFloat.
From S2P Require Import Prelude Text Kernel Storage Loops Projection Csr Analytics Traversal Components Temporal Journeys Earliest Community Scores.
Open Scope Z_scope.

(** ** What an algorithm may answer *)

Definition result_kind (id : BuiltInAlgorithmId) (result : AlgorithmResult) : bool :=
  match id, result with
  | (BreadthFirstSearch | DepthFirstSearch), Traversal _
  | BoundedSingleSourceShortestPath, Distances _
  | BoundedAllPairsShortestPaths, AllPairs _
  | (StronglyConnectedComponents | WeaklyConnectedComponents), Components _
  | (PageRank | DegreeCentrality | ClosenessCentrality | BetweennessCentrality | ClusteringCoefficient), Scores _
  | (TriangleCount | TemporalMotif), Count _
  | KCore, CoreNumbers _
  | (LabelPropagation | Louvain), Communities _
  | (EarliestArrival | LatestDeparture), TemporalPath _
  | TemporalReachability, Reachable _
  | ChangePoint, ChangePoints _ => true
  | _, _ => false
  end.

Definition may_fail (id : BuiltInAlgorithmId) (e : AnalyticsError) : bool :=
  match e with
  | AnCancelled | AnResourceLimit => true
  | AnIterationLimit => match id with PageRank | LabelPropagation | Louvain => true | _ => false end
  | AnInvalidRequest =>
      match id with
      | BreadthFirstSearch | DepthFirstSearch | BoundedSingleSourceShortestPath | PageRank | EarliestArrival
      | LatestDeparture | TemporalReachability | TemporalMotif | ChangePoint => true
      | _ => false
      end
  | AnMissingProperty =>
      match id with
      | BoundedSingleSourceShortestPath | BoundedAllPairsShortestPaths | EarliestArrival | LatestDeparture
      | TemporalReachability | TemporalMotif | ChangePoint => true
      | _ => false
      end
  | AnInvalidProperty =>
      match id with BoundedSingleSourceShortestPath | BoundedAllPairsShortestPaths | ChangePoint => true | _ => false end
  | AnMissingReverseCsr => bool_decide (ad_required_shape (descriptor id) = ForwardAndReverse)
  | AnalyticsPanic | AnalyticsOutOfFuel => false
  end.

(** ** Rules *)

Section total.
Context (Q : AnalyticsError → Prop) (HQ : ∀ e, refused e → Q e).
Context (csr : SnapshotCsr) (Hwf : csr_wf csr).
Let n := vertex_count csr.

Lemma swp_idx {A} (l : list A) i (P : A → Prop) :
  (i < length l)%nat → (∀ a, l !! i = Some a → P a) → swp (index l i) P Q.
Proof. intros Hi HP. destruct (lookup_lt_is_Some_2 l i Hi) as [a Ha]. by apply (swp_at Q _ _ _ _ Ha), HP. Qed.

Definition good_edge (i : nat) : Prop :=
  (i < length (csr_edge_ids csr))%nat ∧ ∃ w, csr_neighbors csr !! i = Some (Z.of_nat w) ∧ (w < n)%nat.

Lemma good_edge_at i u w : edge_at csr i u w → (w < n)%nat → good_edge i.
Proof.
  intros [_ Hw] Hlt. split; [|by exists w]. rewrite (cw_edge_ids _ Hwf). by eapply lookup_lt_Some.
Qed.
Lemma swp_out u (P : list nat → Prop) :
  (u < n)%nat → (∀ r, Forall good_edge r → P r) → swp (outgoing csr u) P Q.
Proof.
  intros Hu HP. apply swp_outgoing; [done|done|]. intros r _ Hr _. apply HP, Forall_forall. intros i Hi.
  destruct (Hr i Hi) as (w & He & Hw). by eapply good_edge_at.
Qed.
Lemma swp_target i (P : nat → Prop) :
  good_edge i → (∀ w, (w < n)%nat → P w) → swp (index_usize (csr_neighbors csr) i) P Q.
Proof. intros [_ (w & Hw & Hlt)] HP. apply (swp_usize_at Q _ _ w); [done|by apply HP]. Qed.

(** Loops over the vertices and over the edges of one. *)
Lemma swp_for_vertices {A} (I : A → Prop) (f : nat → A → analysing A) a :
  I a → (∀ v a, (v < n)%nat → I a → swp (f v a) I Q) → swp (sfor f (seq 0 n) a) I Q.
Proof. intros Ha Hf. apply swp_for_inv; [done|]. intros v a' Hv%elem_of_seq. apply Hf. lia. Qed.
Lemma swp_for_edges {A} (I : A → Prop) (f : nat → A → analysing A) r a :
  Forall good_edge r → I a → (∀ i a, good_edge i → I a → swp (f i a) I Q) → swp (sfor f r a) I Q.
Proof. intros Hr Ha Hf. apply swp_for_inv; [done|]. intros i a' Hi. apply Hf. by eapply Forall_forall in Hr. Qed.
Lemma swp_for_numbered {A B} (I : A → Prop) (f : nat * B → A → analysing A) (l : list B) a :
  I a → (∀ v b a, (v < length l)%nat → I a → swp (f (v, b) a) I Q) → swp (sfor f (zip (seq 0 (length l)) l) a) I Q.
Proof.
  intros Ha Hf. apply swp_for_inv; [done|]. intros [v b] a' Hin. apply Hf.
  apply elem_of_zip_l in Hin as Hv%elem_of_seq. lia.
Qed.
(** A loop that only collects. *)
Lemma swp_for_any {A B} (f : B → A → analysing A) (l : list B) a :
  (∀ b a, b ∈ l → swp (f b a) (λ _, True) Q) → swp (sfor f l a) (λ _, True) Q.
Proof. intros Hf. by apply swp_for_inv; [|intros; apply Hf]. Qed.
Lemma swp_break_inv {A B} (I : A → Prop) (f : B → A → analysing (A + A)) l a :
  I a → (∀ b a, b ∈ l → I a → swp (f b a) (λ r, match r with inl a | inr a => I a end) Q) → swp (sfor_break f l a) I Q.
Proof.
  intros Ha Hf. apply (swp_for_break (λ _, I)); [done| |done]. intros pre b post a' -> HI.
  eapply swp_mono; [apply Hf; [|done]| |done]; [apply elem_of_app; right; left|]. by intros [|].
Qed.

Lemma swp_zip_any {A} (values : list A) : swp (zip_result (csr_vertex_ids csr) values) (λ _, True) Q.
Proof. apply swp_for_any. intros [id a] result _. by apply swp_bind, (swp_step Q HQ), swp_ret. Qed.

(** ** Shortest paths *)

Definition some_vertex (next : option nat) : Prop := ∀ v, next = Some v → (v < n)%nat.

Lemma swp_shortest_distances source weight_property :
  (is_Some weight_property → Q AnMissingProperty ∧ Q AnInvalidProperty) → (source < n)%nat →
  swp (shortest_distances csr source weight_property) (λ distances, length distances = n) Q.
Proof.
  intros HW Hs. unfold shortest_distances. apply swp_bind, (swp_reserve_memory Q HQ), swp_bind, swp_assign.
  { by rewrite length_replicate. }
  apply swp_bind. eapply swp_mono; [apply (swp_break_inv (λ state, length state.1 = n ∧ length state.2 = n))| |done].
  - cbn. rewrite length_insert, !length_replicate. done.
  - intros k [distances settled] _ [Hd Hse]. cbn in Hd, Hse. unfold distance_round. apply swp_bind, (swp_step Q HQ), swp_bind.
    eapply swp_mono; [apply (swp_for_vertices some_vertex); [done|]| |done].
    { intros v next Hv Hn. unfold select_nearest. apply swp_bind, (swp_step Q HQ), swp_bind, swp_idx; [lia|].
      intros [|] _; [by apply swp_ret|]. apply swp_bind, swp_idx; [lia|]. intros d _.
      destruct (is_finite d); [|by apply swp_ret]. destruct next as [current|]; [|by apply swp_ret; intros ? [= <-]].
      apply swp_bind, swp_idx; [rewrite Hd; by apply Hn|]. intros d' _. destruct (f64_ltb _ _); apply swp_ret; [by intros ? [= <-]|done]. }
    intros [v|] Hn; [|by apply swp_ret]. specialize (Hn v eq_refl). apply swp_bind, swp_assign; [lia|].
    apply swp_bind, swp_out; [done|]. intros r Hr. apply swp_bind.
    eapply swp_mono; [apply (swp_for_edges (λ distances, length distances = n) _ r distances Hr Hd)| |done].
    + intros i distances' Hi Hd'. unfold relax_distance. apply swp_bind, (swp_step Q HQ), swp_bind.
      assert (swp (edge_weight csr weight_property i) (λ weight, weight_property = None → weight = f64_one) Q) as Hew.
      { unfold edge_weight. destruct weight_property as [p|]; [|by apply swp_ret].
        apply swp_lift. destruct (edge_number csr p i); [done|]. by apply HW. }
      eapply swp_mono; [exact Hew| |done]. intros weight Hwt. destruct (_ || _) eqn:Hbad.
      { apply swp_stop. destruct weight_property; [by apply HW|]. by rewrite Hwt in Hbad. }
      apply swp_bind, swp_target; [done|]. intros w Hw. apply swp_bind, swp_idx; [lia|]. intros d _.
      apply swp_bind, swp_idx; [lia|]. intros d' _. destruct (f64_ltb (f64_add d weight) d'); [|by apply swp_ret].
      apply swp_assign; [lia|]. by rewrite length_insert.
    + intros distances' Hd'. apply swp_ret. cbn. by rewrite length_insert.
  - intros [distances settled] [Hd _]. by apply swp_ret.
Qed.

Lemma swp_bounded_sssp request :
  Q AnInvalidRequest → Q AnMissingProperty → Q AnInvalidProperty →
  swp (bounded_sssp csr request) (λ r, result_kind BoundedSingleSourceShortestPath r = true) Q.
Proof.
  intros HI HM HP. unfold bounded_sssp. apply swp_bind, swp_vertex_of; [done|]. intros source _ Hs. apply swp_bind.
  eapply swp_mono; [by apply swp_shortest_distances| |done]. intros distances _. apply swp_bind.
  eapply swp_mono; [apply swp_for_any| |done]; [|by intros r _; apply swp_ret].
  intros [id d] r _. by apply swp_bind, (swp_step Q HQ), swp_ret.
Qed.

Lemma swp_bounded_apsp request :
  Q AnMissingProperty → Q AnInvalidProperty →
  swp (bounded_apsp csr request) (λ r, result_kind BoundedAllPairsShortestPaths r = true) Q.
Proof.
  intros HM HP. unfold bounded_apsp, checked. apply swp_bind.
  destruct (_ <? 2 ^ 64); [apply swp_ret|apply swp_stop, HQ; by right].
  destruct (_ <? _); [apply swp_stop, HQ; by right|]. apply swp_bind, (swp_reserve_memory Q HQ), swp_bind.
  eapply swp_mono; [apply (swp_for_vertices (λ _, True)); [done|]| |done]; [|by intros r _; apply swp_ret].
  intros source result Hs _. unfold all_pairs_row. apply swp_bind, (swp_step Q HQ), swp_bind.
  eapply swp_mono; [by apply swp_shortest_distances| |done]. intros distances Hd.
  apply swp_for_numbered; [done|]. intros target d result' Ht _. apply swp_bind, (swp_step Q HQ).
  destruct (is_finite d); [|by apply swp_ret]. apply swp_bind, swp_idx; [done|]. intros sid _.
  apply swp_bind, swp_idx; [unfold n, vertex_count in *; lia|]. intros tid _. by apply swp_ret.
Qed.

(** ** Rank *)

Lemma swp_page_rank request :
  Q AnIterationLimit → Q AnInvalidRequest → swp (page_rank csr request) (λ r, result_kind PageRank r = true) Q.
Proof.
  intros HL HI. unfold page_rank. apply swp_bind, (swp_require_iterations Q HQ); [done|].
  destruct (negb _); [by apply swp_stop|]. destruct (_ =? 0)%nat; [by apply swp_ret|].
  apply swp_bind, (swp_reserve_memory Q HQ), swp_bind.
  eapply swp_mono; [apply (swp_for_inv (λ ranks : list f64, length ranks = n) _ _ _ Q)| |done].
  - apply length_replicate.
  - intros k ranks _ Hr. unfold rank_round. apply swp_bind, (swp_step Q HQ), swp_bind.
    eapply swp_mono; [apply (swp_for_numbered (λ _, True)); [done|]| |done].
    + intros v rank dangling Hv _. cbn. apply swp_bind, (swp_step Q HQ), swp_bind, swp_out; [lia|]. intros r _. by apply swp_ret.
    + intros dangling _. apply (swp_for_numbered (λ next : list f64, length next = n)); [apply length_replicate|].
      intros v rank next Hv Hn. cbn. apply swp_bind, (swp_step Q HQ), swp_bind, swp_out; [lia|]. intros r Hrange.
      destruct (_ =? 0)%nat; [by apply swp_ret|]. apply swp_for_edges; [done|done|]. intros i next' Hi Hn'.
      apply swp_bind, (swp_step Q HQ), swp_bind, swp_target; [done|]. intros w Hw. apply swp_bind, swp_idx; [lia|]. intros x _.
      apply swp_assign; [lia|]. by rewrite length_insert.
  - intros ranks Hr. apply swp_bind. eapply swp_mono; [apply swp_for_any| |done].
    { intros rank total _. by apply swp_bind, (swp_step Q HQ), swp_ret. }
    intros total _. apply swp_bind. apply (swp_mono _ (λ _, True) _ Q Q); [| |done].
    { destruct (f64_ltb _ _); [|by apply swp_ret]. apply swp_for_any. intros rank scaled _. by apply swp_bind, (swp_step Q HQ), swp_ret. }
    intros ranks' _. apply swp_bind. eapply swp_mono; [apply swp_zip_any| |done]. intros scores _. by apply swp_ret.
Qed.

(** ** Centrality *)

Context (Hsize : addressable csr).

Lemma swp_usize z (P : Z → Prop) : z < 2 ^ 64 → P z → swp (usize z) P Q.
Proof. intros Hz HP. unfold usize. destruct (_ <? _) eqn:H; [by apply swp_ret|lia]. Qed.

Lemma swp_degree_centrality :
  (csr_reverse csr = None → Q AnMissingReverseCsr) →
  swp (degree_centrality csr) (λ r, result_kind DegreeCentrality r = true) Q.
Proof.
  intros HM. unfold degree_centrality. destruct (csr_reverse csr) as [reverse|] eqn:Hrev.
  2: { apply swp_bind, swp_lift. rewrite Hrev. by apply HM. }
  apply swp_bind, (swp_reverse_of Q csr reverse); [done|]. apply swp_bind.
  eapply swp_mono; [apply (swp_for_vertices (λ _, True)); [done|]| |done]; [|by intros r _; apply swp_ret].
  intros v scores Hv _. unfold degree_score. apply swp_bind, (swp_step Q HQ), swp_bind.
  destruct Hsize as (_ & Hedges & Hback). specialize (Hback _ Hrev).
  apply (swp_mono _ (λ r, (length r ≤ length (csr_neighbors csr))%nat) _ Q Q); [| |done].
  { pose proof (outgoing_length csr v Hwf) as Hl. intros g. specialize (Hl g).
    assert (swp (outgoing csr v) (λ _, True) Q) as Ho by (apply swp_out; [done|done]). specialize (Ho g).
    by destruct (outgoing csr v g) as [[]|]. }
  intros out Hout. apply swp_bind. apply (swp_mono _ (λ r, (length r ≤ length (rv_neighbors reverse))%nat) _ Q Q); [| |done].
  { eapply swp_incoming; [done|done|done|]. intros r Hnd Hr _. apply NoDup_below_length; [done|].
    intros j Hj. destruct (Hr j Hj) as (i & u & Hn & _). by eapply lookup_lt_Some. }
  intros inn Hin. apply swp_bind, swp_idx; [done|]. intros id _. apply swp_bind, swp_usize; [|by apply swp_ret].
  rewrite (cw_edge_ids _ Hwf) in *. lia.
Qed.

Lemma swp_closeness_centrality : swp (closeness_centrality csr) (λ r, result_kind ClosenessCentrality r = true) Q.
Proof.
  unfold closeness_centrality. apply swp_bind.
  eapply swp_mono; [apply (swp_for_vertices (λ _, True)); [done|]| |done]; [|by intros r _; apply swp_ret].
  intros v scores Hv _. unfold closeness_score. apply swp_bind, (swp_step Q HQ), swp_bind.
  eapply swp_mono; [apply swp_shortest_distances; [by intros []|done]| |done]. intros distances Hd. apply swp_bind.
  eapply swp_mono; [apply (swp_for (λ pre found, 0 ≤ found.1 ≤ Z.of_nat (length pre)) _ _ _ Q)| |done].
  - done.
  - intros pre [t d] post [reachable sum] _ Hr. apply swp_bind, (swp_step Q HQ), swp_ret. rewrite length_app. cbn in *.
    destruct (_ && _); cbn; lia.
  - intros [reachable sum] Hr. cbn in Hr. rewrite length_zip_with, length_seq, Nat.min_id, Hd in Hr.
    apply swp_bind. apply (swp_mono _ (λ _, True) _ Q Q); [| |done].
    { destruct (_ || _); [by apply swp_ret|]. apply swp_bind, swp_usize; [|by apply swp_ret].
      destruct Hsize as (Hn & _). unfold n, vertex_count in Hr. nia. }
    intros score _. apply swp_bind, swp_idx; [done|]. intros id _. by apply swp_ret.
Qed.

Definition found (distance : list Z) (v : nat) : Prop := ∃ d, distance !! v = Some d ∧ 0 ≤ d.

(** The queue holds vertices that got a distance; every round takes one from it. *)
Record counting_ok (state : brandes) : Prop := {
  ck_predecessors : length (br_predecessors state) = n;
  ck_paths : length (br_paths state) = n;
  ck_distance : length (br_distance state) = n;
  ck_previous v l : br_predecessors state !! v = Some l → Forall (λ u, (u < n)%nat) l;
  ck_queue : Forall (found (br_distance state)) (br_queue state);
  ck_stack : Forall (λ v, (v < n)%nat) (br_stack state);
}.
(** The vertices without a distance, and those in the queue. *)
Definition rounds_left (state : brandes) : nat := length (filter (λ d, d < 0) (br_distance state)) + length (br_queue state).

Lemma filter_insert_found (distance : list Z) w d x :
  distance !! w = Some d → d < 0 → 0 ≤ x →
  S (length (filter (λ d, d < 0) (<[w := x]> distance))) = length (filter (λ d, d < 0) distance).
Proof.
  intros Hw Hd Hx. rewrite insert_take_drop by by eapply lookup_lt_Some. rewrite <-(take_drop_middle distance w d Hw) at 3.
  rewrite !filter_app, !filter_cons. rewrite decide_False by lia. rewrite decide_True by lia. rewrite !length_app. cbn. lia.
Qed.
Lemma found_insert distance w x v : 0 ≤ x → found distance v → found (<[w := x]> distance) v.
Proof.
  intros Hx (d & Hd & Hpos). destruct (decide (w = v)) as [->|Hne].
  - exists x. split; [|done]. apply list_lookup_insert_eq. by eapply lookup_lt_Some.
  - exists d. by rewrite list_lookup_insert_ne.
Qed.

Lemma swp_count_paths vertex i state :
  counting_ok state → good_edge i → found (br_distance state) vertex →
  swp (count_paths csr vertex i state)
    (λ state', counting_ok state' ∧ rounds_left state' = rounds_left state ∧ found (br_distance state') vertex) Q.
Proof.
  intros [Hp Hpa Hd Hpr Hq Hs] Hi Hfound. pose proof Hfound as (here & Hhere & Hpos).
  assert (vertex < n)%nat as Hv by (rewrite <-Hd; by eapply lookup_lt_Some).
  unfold count_paths. apply swp_bind, (swp_step Q HQ), swp_bind, swp_target; [done|].
  intros w Hw. apply swp_bind, swp_idx; [lia|]. intros d Hdw. apply swp_bind, (swp_at Q _ _ _ _ Hhere). apply swp_bind.
  apply (swp_mono _ (λ acc, length acc.1 = n ∧ Forall (found acc.1) acc.2 ∧ found acc.1 vertex ∧
    (length (filter (λ d, (d < 0)%Z) acc.1) + length acc.2 = rounds_left state)%nat) _ Q Q); [| |done].
  { unfold rounds_left. destruct (d <? 0) eqn:Hneg; [|by apply swp_ret].
    apply swp_bind, swp_assign; [lia|]. apply swp_ret. cbn. rewrite length_insert, length_app.
    split; [done|]. split; [|split].
    - apply Forall_app. split; [eapply Forall_impl; [exact Hq|]; intros ? ?; apply found_insert; [lia|done]|].
      constructor; [|constructor]. exists (here + 1). rewrite list_lookup_insert_eq by lia. split; [done|lia].
    - apply found_insert; [lia|done].
    - rewrite <-(filter_insert_found (br_distance state) w d (here + 1)) by (done || lia). cbn. lia. }
  intros [distance queue] (Hd' & Hq' & Hf' & Hleft). cbn [fst snd] in *. apply swp_bind, swp_idx; [lia|]. intros d1 _.
  apply swp_bind, swp_idx; [lia|]. intros here' _. destruct (d1 =? here' + 1).
  - apply swp_bind, swp_idx; [lia|]. intros p _. apply swp_bind, swp_idx; [lia|]. intros p' _.
    apply swp_bind, swp_assign; [lia|]. apply swp_bind, swp_idx; [lia|]. intros previous Hprev.
    apply swp_bind, swp_assign; [lia|]. apply swp_ret. split; [|done].
    split; cbn; rewrite ?length_insert; try done. intros u l. destruct (decide (u = w)) as [->|Hne].
    + rewrite list_lookup_insert_eq by lia. intros [= <-]. apply Forall_app. split; [by eapply Hpr|by repeat constructor].
    + rewrite list_lookup_insert_ne by done. apply Hpr.
  - apply swp_ret. by split.
Qed.

Lemma swp_count_round state :
  counting_ok state →
  swp (count_round csr state)
    (λ r, match r with inl state' => counting_ok state' ∧ (rounds_left state' < rounds_left state)%nat
          | inr state' => counting_ok state' end) Q.
Proof.
  intros HC. pose proof HC as [Hp Hpa Hd Hpr Hq Hs]. unfold count_round.
  destruct (br_queue state) as [|v queue] eqn:Hqueue; [by apply swp_ret|]. inversion Hq as [|? ? Hv Hrest]; subst.
  assert (v < n)%nat as Hvn by (destruct Hv as (d & Hv & _); rewrite <-Hd; by eapply lookup_lt_Some).
  apply swp_bind, (swp_step Q HQ), swp_bind, swp_out; [done|]. intros r Hr. apply swp_bind.
  set (popped := mkBrandes _ _ _ _ _).
  eapply swp_mono; [apply (swp_for_edges (λ state', counting_ok state' ∧ rounds_left state' = rounds_left popped ∧
    found (br_distance state') v) _ r popped Hr)| |done].
  - split; [|done]. split; try done. apply Forall_app. by repeat constructor.
  - intros i state' Hi (HC' & Hleft & Hf). eapply swp_mono; [by apply swp_count_paths| |done].
    intros state'' (HC'' & Hleft' & Hf'). split; [done|]. split; [congruence|done].
  - intros state' (HC' & Hleft & _). apply swp_ret. split; [done|]. rewrite Hleft. unfold rounds_left. rewrite Hqueue. cbn. lia.
Qed.

Lemma swp_accumulate source state vertex (acc : list f64 * list f64) :
  counting_ok state → (vertex < n)%nat → length acc.1 = n → length acc.2 = n →
  swp (accumulate source (br_predecessors state) (br_paths state) vertex acc)
    (λ acc, length acc.1 = n ∧ length acc.2 = n) Q.
Proof.
  intros [Hp Hpa Hd Hpr _ _] Hv. destruct acc as [dependency centrality]. cbn. intros Hde Hc.
  apply swp_bind, (swp_step Q HQ), swp_bind, swp_idx; [lia|]. intros previous Hprev. apply swp_bind.
  eapply swp_mono; [apply (swp_for_inv (λ dependency : list f64, length dependency = n) _ _ _ Q); [done|]| |done].
  - intros u dependency' Hu Hde'. specialize (Hpr _ _ Hprev). rewrite Forall_forall in Hpr. specialize (Hpr u Hu).
    apply swp_bind, (swp_step Q HQ), swp_bind, swp_idx; [lia|]. intros p _. destruct (f64_ltb _ _); [|by apply swp_ret].
    apply swp_bind, swp_idx; [lia|]. intros q _. apply swp_bind, swp_idx; [lia|]. intros d _.
    apply swp_bind, swp_idx; [lia|]. intros d' _. apply swp_assign; [lia|]. by rewrite length_insert.
  - intros dependency' Hde'. cbn beta in Hde'. destruct (_ =? _)%nat; [by apply swp_ret|].
    apply swp_bind, swp_idx; [lia|]. intros c _. apply swp_bind, swp_idx; [lia|]. intros d _.
    apply swp_bind, swp_assign; [lia|]. apply swp_ret. cbn. by rewrite length_insert.
Qed.

Lemma swp_betweenness_centrality : swp (betweenness_centrality csr) (λ r, result_kind BetweennessCentrality r = true) Q.
Proof.
  unfold betweenness_centrality. apply swp_bind, (swp_reserve_memory Q HQ), swp_bind.
  eapply swp_mono; [apply (swp_for_vertices (λ centrality : list f64, length centrality = n)); [apply length_replicate|]| |done].
  - intros source centrality Hs Hc. unfold betweenness_source. fold (vertex_count csr). fold n.
    apply swp_bind, (swp_step Q HQ), swp_bind, swp_assign; [by rewrite length_replicate|].
    apply swp_bind, swp_assign; [by rewrite length_replicate|]. apply swp_bind.
    eapply swp_mono; [apply (swp_while counting_ok rounds_left counting_ok Q)| |done].
    + split; cbn; rewrite ?length_insert, ?length_replicate; try done.
      * intros v l [-> _]%lookup_replicate. constructor.
      * constructor; [|constructor]. exists 0. by rewrite list_lookup_insert_eq by by rewrite length_replicate.
    + unfold rounds_left. cbn [br_distance br_queue length].
      pose proof (length_filter (λ d, d < 0) (<[source := 0]> (replicate n (-1)))) as Hl.
      rewrite length_insert, length_replicate in Hl. lia.
    + intros state HC. by apply swp_count_round.
    + intros state HC. apply swp_bind.
      eapply swp_mono; [apply (swp_for_inv (λ acc : list f64 * list f64, length acc.1 = n ∧ length acc.2 = n) _ _ _ Q)| |done].
      * split; [apply length_replicate|done].
      * intros v acc Hv [Hd Hc']. apply swp_accumulate; [done| |done|done]. rewrite elem_of_reverse in Hv.
        pose proof (ck_stack _ HC) as Hst. rewrite Forall_forall in Hst. by apply Hst.
      * intros acc [_ Hc']. by apply swp_ret.
  - intros centrality Hc. apply swp_bind. eapply swp_mono; [apply swp_zip_any| |done]. intros scores _. by apply swp_ret.
Qed.

(** ** Neighbourhoods *)

Lemma swp_adjacency (P : list (gset nat) → Prop) :
  (∀ adjacency, length adjacency = n → (∀ v s, adjacency !! v = Some s → ∀ w, w ∈ ascending s → (w < n)%nat) →
     (∀ v s, adjacency !! v = Some s → (length (ascending s) ≤ n)%nat) → P adjacency) →
  swp (undirected_adjacency csr) P Q.
Proof.
  intros HP. eapply swp_mono; [by apply (swp_undirected_adjacency Q HQ)| |done]. intros adjacency Ha. apply HP.
  - apply Ha.
  - intros v s Hs w Hw%elem_of_ascending. apply (neighbour_bound csr v w Hwf), (aj_elem _ _ Ha). unfold neighbours. by rewrite Hs.
  - intros v s Hs. by eapply ascending_below.
Qed.

Lemma swp_triangle_count : swp (triangle_count csr) (λ r, result_kind TriangleCount r = true) Q.
Proof.
  unfold triangle_count. apply swp_bind, swp_adjacency. intros adjacency Hl Hin _. rewrite Hl. apply swp_bind.
  eapply swp_mono; [apply (swp_for_vertices (λ _, True)); [done|]| |done]; [|by intros c _; apply swp_ret].
  intros left count Hleft _. apply swp_bind, (swp_step Q HQ), swp_bind, swp_idx; [lia|]. intros s Hs. apply swp_for_any.
  intros middle count' Hm. apply swp_bind, (swp_step Q HQ). destruct (_ <=? _)%nat; [by apply swp_ret|].
  apply swp_bind, swp_idx; [rewrite Hl; by eapply Hin|]. intros s' Hs'. apply swp_for_any. intros right count'' _.
  unfold close_triangle. apply swp_bind, (swp_step Q HQ). destruct (_ <=? _)%nat; [by apply swp_ret|].
  apply swp_bind, swp_idx; [lia|]. intros s'' _. case_bool_decide; [|by apply swp_ret].
  destruct (_ <? _); [by apply swp_ret|apply swp_stop, HQ; by right].
Qed.

Lemma swp_collect_all {A B} (f : A → B) (l : list A) :
  swp (sfor (λ a out, _ ← step; mret (out ++ [f a])) l []) (λ out, out = f <$> l) Q.
Proof.
  apply (swp_for (λ pre out, out = f <$> pre)); [done|]. intros pre a post out _ ->.
  apply swp_bind, (swp_step Q HQ), swp_ret. by rewrite fmap_app.
Qed.

Lemma swp_clustering_coefficient :
  swp (clustering_coefficient csr) (λ r, result_kind ClusteringCoefficient r = true) Q.
Proof.
  unfold clustering_coefficient. apply swp_bind, swp_adjacency. intros adjacency Hl Hin Hdeg. rewrite Hl. apply swp_bind.
  eapply swp_mono; [apply (swp_for_vertices (λ _, True)); [done|]| |done]; [|by intros c _; apply swp_ret].
  intros v scores Hv _. unfold clustering_score. apply swp_bind, (swp_step Q HQ), swp_bind, swp_idx; [lia|]. intros s Hs.
  apply swp_bind. eapply swp_mono; [apply (swp_collect_all (λ w, w))| |done]. intros neighbors ->. rewrite list_fmap_id.
  apply swp_bind, swp_idx; [done|]. intros id _. destruct (_ <? 2)%nat; [by apply swp_ret|].
  specialize (Hdeg v s Hs). destruct Hsize as (Hn & _). change (length (csr_vertex_ids csr)) with n in Hn.
  set (degree := length (ascending s)) in *.
  assert (Z.of_nat (degree * degree) < 2 ^ 64) as Hsq by (clear -Hdeg Hn; nia). apply swp_bind.
  eapply swp_mono; [apply (swp_for (λ pre pairs, 0 ≤ pairs ≤ Z.of_nat (length pre * degree)) _ _ _ Q)| |done].
  - done.
  - intros pre left post pairs Hseq Hpairs. apply (swp_mono _ (λ pairs', 0 ≤ pairs' ≤ pairs + Z.of_nat (length (seq (left + 1) (degree - (left + 1))))) _ Q Q).
    + apply (swp_for (λ pre' pairs', 0 ≤ pairs' ≤ pairs + Z.of_nat (length pre'))); [cbn; lia|].
      intros pre' right post' pairs' Hseq' Hpairs'.
      assert (left < degree)%nat as Hleft.
      { assert (left ∈ seq 0 degree) as H%elem_of_seq; [|lia]. rewrite Hseq. apply elem_of_app. right. left. }
      assert (right < degree)%nat as Hright.
      { assert (right ∈ seq (left + 1) (degree - (left + 1))) as H%elem_of_seq; [|lia]. rewrite Hseq'. apply elem_of_app. right. left. }
      unfold connected_pair. apply swp_bind, (swp_step Q HQ), swp_bind, swp_idx; [done|]. intros a Ha.
      apply swp_bind, swp_idx; [rewrite Hl; by eapply Hin, list_elem_of_lookup_2|]. intros s' _.
      apply swp_bind, swp_idx; [done|]. intros b _. rewrite length_app. cbn [length].
      case_bool_decide; [|apply swp_ret; lia]. apply swp_usize; [|lia].
      apply (f_equal length) in Hseq, Hseq'. rewrite length_seq, length_app in Hseq, Hseq'. cbn [length] in Hseq, Hseq'.
      assert (length pre * degree ≤ (degree - 1) * degree)%nat as Hrow by (apply Nat.mul_le_mono_r; lia).
      rewrite Nat.mul_sub_distr_r, Nat.mul_1_l in Hrow. lia.
    + intros pairs'. rewrite length_app, length_seq. cbn [length]. lia.
    + done.
  - intros pairs _. apply swp_bind, swp_usize; [|by apply swp_ret]. lia.
Qed.

(** ** Communities *)

Lemma swp_canonicalize_labels labels : swp (canonicalize_labels labels) (λ _, True) Q.
Proof.
  unfold canonicalize_labels. apply swp_bind.
  eapply swp_mono; [apply (swp_for (λ pre (distinct : gmap Z unit), ∀ l, l ∈ pre → is_Some (distinct !! l)) _ _ _ Q)| |done].
  - by intros l ?%elem_of_nil.
  - intros pre label post distinct _ Hd. apply swp_bind, (swp_step Q HQ), swp_ret. intros l.
    intros [Hl|Hl%list_elem_of_singleton]%elem_of_app; apply lookup_insert_is_Some'; [right; by apply Hd|by left].
  - intros distinct Hd. apply swp_bind.
    eapply swp_mono; [apply (swp_for (λ pre (remap : gmap Z Z), ∀ i l, (i, l) ∈ pre → is_Some (remap !! l)) _ _ _ Q)| |done].
    + by intros i l ?%elem_of_nil.
    + intros pre [i label] post remap _ Hr. apply swp_bind, (swp_step Q HQ), swp_ret. intros j l.
      intros [Hl|[= -> ->]%list_elem_of_singleton]%elem_of_app; apply lookup_insert_is_Some'; [right; by eapply Hr|by left].
    + intros remap Hr. apply swp_for_any. intros label out Hlabel. apply swp_bind, (swp_step Q HQ), swp_bind, swp_lift.
      destruct (Hd label Hlabel) as [[] Hdl].
      assert (label ∈ keys distinct) as [i Hi]%list_elem_of_lookup_1 by (apply elem_of_keys; eauto).
      destruct (Hr i label) as [new ->]; [|by apply swp_ret]. apply (list_elem_of_lookup_2 _ i).
      apply lookup_zip_with_Some. exists i, label. split; [done|]. split; [|done]. apply lookup_seq. split; [done|].
      by eapply lookup_lt_Some.
Qed.

Lemma swp_communities_result labels id :
  id = LabelPropagation ∨ id = Louvain → swp (communities_result csr labels) (λ r, result_kind id r = true) Q.
Proof.
  intros Hid. unfold communities_result. apply swp_bind. eapply swp_mono; [apply swp_zip_any| |done].
  intros r _. apply swp_ret. by destruct Hid as [->| ->].
Qed.

Lemma swp_propagate adjacency labels vertex acc :
  length adjacency = n → (∀ v s, adjacency !! v = Some s → ∀ w, w ∈ ascending s → (w < n)%nat) →
  length labels = n → (vertex < n)%nat → length acc.1 = n →
  swp (propagate adjacency labels vertex acc) (λ acc, length acc.1 = n) Q.
Proof.
  intros Hl Hin Hlab Hv Hacc. unfold propagate. apply swp_bind, (swp_step Q HQ), swp_bind, swp_idx; [lia|]. intros s Hs.
  case_bool_decide as Hempty; [by apply swp_ret|]. apply swp_bind.
  eapply swp_mono; [apply (swp_for (λ pre (counts : gmap Z Z), pre ≠ [] → counts ≠ ∅) _ _ _ Q)| |done]; [done| |].
  - intros pre w post counts Hseq _. assert (w < n)%nat as Hw by (eapply Hin; [done|]; rewrite Hseq; apply elem_of_app; right; left).
    apply swp_bind, (swp_step Q HQ), swp_bind, swp_idx; [lia|]. intros label _. apply swp_ret. intros _. apply insert_non_empty.
  - intros counts Hc. apply swp_bind.
    eapply swp_mono; [apply (swp_for (λ pre (chosen : option (Z * Z)), pre ≠ [] → is_Some chosen) _ _ _ Q)| |done]; [done| |].
    + intros pre [label count] post chosen _ _. cbn. apply swp_bind, (swp_step Q HQ), swp_ret. intros _.
      destruct chosen as [[]|]; [destruct (_ || _)|]; eauto.
    + intros chosen Hch. destruct Hch as [[label count] ->].
      { intros Hnil. assert (counts ≠ ∅) as Hne.
        { apply Hc. intros Hasc. apply Hempty, elem_of_equiv_empty_L. intros w Hw%elem_of_ascending. rewrite Hasc in Hw. by apply elem_of_nil in Hw. }
        apply (f_equal length) in Hnil. rewrite length_entries in Hnil. by apply Hne, map_size_empty_iff. }
      apply swp_bind, swp_lift. cbn. apply swp_bind, swp_idx; [lia|]. intros old _.
      apply swp_bind, swp_assign; [lia|]. apply swp_ret. cbn. by rewrite length_insert.
Qed.

Lemma swp_label_propagation request :
  Q AnIterationLimit → swp (label_propagation csr request) (λ r, result_kind LabelPropagation r = true) Q.
Proof.
  intros HL. unfold label_propagation. apply swp_bind, (swp_require_iterations Q HQ); [done|].
  apply swp_bind, swp_adjacency. intros adjacency Hl Hin _. apply swp_bind.
  eapply swp_mono; [apply (swp_collect_all (λ i, Z.of_nat i + 1))| |done]. intros labels ->. apply swp_bind.
  eapply swp_mono; [apply (swp_break_inv (λ labels : list Z, length labels = n))| |done].
  - rewrite length_fmap, length_seq. done.
  - intros k labels _ Hlab. unfold propagation_round. apply swp_bind, (swp_step Q HQ), swp_bind. rewrite Hl.
    eapply swp_mono; [apply (swp_for_vertices (λ acc : list Z * bool, length acc.1 = n)); [done|]| |done].
    + intros v acc Hv Hacc. by apply swp_propagate.
    + intros [next [|]] Hn; by apply swp_ret.
  - intros labels _. apply swp_bind. eapply swp_mono; [apply swp_canonicalize_labels| |done]. intros labels' _.
    apply swp_communities_result. by left.
Qed.

Lemma add_to_is_Some totals key amount k : is_Some (add_to totals key amount !! k) ↔ key = k ∨ is_Some (totals !! k).
Proof. unfold add_to. rewrite lookup_insert_is_Some'. done. Qed.

Lemma swp_louvain_vertex adjacency degrees total_degree vertex acc :
  length adjacency = n → (∀ v s, adjacency !! v = Some s → ∀ w, w ∈ ascending s → (w < n)%nat) →
  length degrees = n → (vertex < n)%nat → length acc.1 = n →
  swp (louvain_vertex adjacency degrees total_degree vertex acc) (λ acc, length acc.1 = n) Q.
Proof.
  intros Hl Hin Hdeg Hv. destruct acc as [communities moved]. cbn. intros Hc.
  apply swp_bind, (swp_step Q HQ), swp_bind, swp_idx; [lia|]. intros s Hs. apply swp_bind.
  eapply swp_mono; [apply (swp_for_inv (λ candidates : gmap Z f64, ∀ k, is_Some (candidates !! k) → k ∈ communities) _ _ _ Q)| |done].
  - intros k. rewrite lookup_empty. by intros [].
  - intros w candidates Hw Hcand. assert (w < n)%nat as Hwn by by eapply Hin.
    apply swp_bind, (swp_step Q HQ), swp_bind, swp_idx; [lia|]. intros community Hcom. apply swp_ret.
    intros k [<-|Hk]%add_to_is_Some; [by eapply list_elem_of_lookup_2|by apply Hcand].
  - intros candidates Hcand. apply swp_bind.
    eapply swp_mono; [apply (swp_for (λ pre (totals : gmap Z f64), ∀ m c, (m, c) ∈ pre → is_Some (totals !! c)) _ _ _ Q)| |done].
    + by intros m c ?%elem_of_nil.
    + intros pre [m c] post totals Hzip Ht. assert (m < n)%nat as Hm.
      { assert ((m, c) ∈ zip (seq 0 (length communities)) communities) as Hmem by (rewrite Hzip; apply elem_of_app; right; left).
        apply elem_of_zip_l in Hmem as Hmem%elem_of_seq. lia. }
      apply swp_bind, (swp_step Q HQ), swp_bind, swp_idx; [lia|]. intros d _. apply swp_ret. intros m' c'.
      intros [Hmem|[= -> ->]%list_elem_of_singleton]%elem_of_app; apply add_to_is_Some; [right; by eapply Ht|by left].
    + intros totals Ht. apply swp_bind, swp_idx; [lia|]. intros current _. apply swp_bind, swp_idx; [lia|]. intros d _. apply swp_bind.
      eapply swp_mono; [apply swp_for_any| |done].
      * intros [candidate weight] best Hb%elem_of_entries. cbn. apply swp_bind, (swp_step Q HQ), swp_bind, swp_lift.
        assert (candidate ∈ communities) as [i Hi]%list_elem_of_lookup_1 by (apply Hcand; eauto).
        destruct (Ht i candidate) as [total ->]; [|by apply swp_ret]. apply (list_elem_of_lookup_2 _ i).
        apply lookup_zip_with_Some. exists i, candidate. split; [done|]. split; [|done]. apply lookup_seq. split; [done|].
        by eapply lookup_lt_Some.
      * intros best _. destruct (_ && _); [|by apply swp_ret]. apply swp_bind, swp_assign; [lia|].
        apply swp_ret. cbn. by rewrite length_insert.
Qed.

Lemma swp_louvain request :
  Q AnIterationLimit → swp (louvain csr request) (λ r, result_kind Louvain r = true) Q.
Proof.
  intros HL. unfold louvain. apply swp_bind, (swp_require_iterations Q HQ); [done|].
  apply swp_bind, swp_adjacency. intros adjacency Hl Hin _. apply swp_bind.
  eapply swp_mono; [apply (swp_for (λ pre acc, length acc.1.1 = length pre ∧ length acc.1.2 = length pre) _ _ _ Q)| |done]; [done| |].
  - intros pre [v s] post [[communities degrees] total] _ [Hc Hd]. cbn in Hc, Hd. apply swp_bind, (swp_step Q HQ), swp_ret.
    cbn. rewrite !length_app. cbn. lia.
  - intros [[communities degrees] total] [Hc Hd]. cbn in Hc, Hd.
    rewrite length_zip_with, length_seq, Nat.min_id in Hc, Hd. destruct (f64_eqb _ _).
    { apply swp_bind. eapply swp_mono; [apply (swp_collect_all (λ i, Z.of_nat i + 1))| |done]. intros labels _.
      apply swp_communities_result. by right. }
    apply swp_bind. eapply swp_mono; [apply (swp_break_inv (λ communities : list Z, length communities = n))| |done].
    + lia.
    + intros k communities' _ Hc'. unfold louvain_round. apply swp_bind, (swp_step Q HQ), swp_bind. rewrite Hl.
      eapply swp_mono; [apply (swp_for_vertices (λ acc : list Z * bool, length acc.1 = n)); [done|]| |done].
      * intros v acc Hv Hacc. apply swp_louvain_vertex; try done. lia.
      * intros [next [|]] Hn; by apply swp_ret.
    + intros communities' _. apply swp_bind. eapply swp_mono; [apply (swp_collect_all (λ c, c + 1))| |done]. intros labels _.
      apply swp_bind. eapply swp_mono; [apply swp_canonicalize_labels| |done]. intros labels' _.
      apply swp_communities_result. by right.
Qed.

(** ** Temporal algorithms *)

Lemma swp_change_point request :
  Q AnInvalidRequest → Q AnMissingProperty → Q AnInvalidProperty →
  swp (change_point csr request) (λ r, result_kind ChangePoint r = true) Q.
Proof.
  intros HI HM HP. unfold change_point. destruct (_ || _); [by apply swp_stop|].
  apply swp_bind, swp_lift. destruct (ar_event_time_property request); [|done].
  apply swp_bind, swp_lift. destruct (ar_signal_property request); [|done].
  apply swp_bind, (swp_reserve_memory Q HQ), swp_bind.
  eapply swp_mono; [apply swp_for_any| |done].
  - intros i events Hi%elem_of_seq. apply swp_bind, (swp_step Q HQ), swp_bind, swp_lift.
    destruct (edge_integer _ _ _); [|done]. apply swp_bind, swp_lift. destruct (edge_number _ _ _) as [signal|]; [|done]. cbn.
    destruct (negb (is_finite signal)); [by apply swp_stop|]. apply swp_bind, swp_idx; [lia|]. intros id _. by apply swp_ret.
  - intros events _. apply swp_bind. eapply swp_mono; [apply swp_for_any| |done]; [|by intros acc _; apply swp_ret].
    intros event acc _. by apply swp_bind, (swp_step Q HQ), swp_ret.
Qed.

Lemma swp_any_request request (P : string * string * Z * Z → Prop) :
  Q AnInvalidRequest → (∀ temporal, P temporal) → swp (temporal_request request) P Q.
Proof. intros HI HP. by apply swp_temporal_request. Qed.
Lemma swp_any_times i dp ap (P : Z * Z → Prop) :
  Q AnMissingProperty → (∀ d a, P (d, a)) → swp (edge_times csr i dp ap) P Q.
Proof. intros HM HP. by apply swp_edge_times. Qed.

Lemma swp_any_reachability request :
  Q AnInvalidRequest → Q AnMissingProperty →
  swp (temporal_reachability csr request) (λ r, result_kind TemporalReachability r = true) Q.
Proof.
  intros HI HM. unfold temporal_reachability. apply swp_bind, swp_vertex_of; [done|]. intros source _ Hs.
  apply swp_bind, swp_any_request; [done|]. intros [[[dp ap] start] end_].
  apply swp_bind, (swp_reserve_memory Q HQ), swp_bind, swp_assign; [by rewrite length_replicate|]. apply swp_bind.
  eapply swp_mono; [apply (swp_break_inv (λ arrivals : list Z, length arrivals = n))| |done].
  - by rewrite length_insert, length_replicate.
  - intros k arrivals _ Ha. unfold reachability_round. apply swp_bind, (swp_step Q HQ), swp_bind.
    eapply swp_mono; [apply (swp_for_vertices (λ acc : list Z * bool, length acc.1 = n)); [done|]| |done].
    + intros v acc Hv Hacc. unfold reachability_vertex. apply swp_bind, (swp_step Q HQ), swp_bind, swp_idx; [lia|]. intros here _.
      destruct (_ =? _); [by apply swp_ret|]. apply swp_bind, swp_out; [done|]. intros r Hr.
      apply swp_for_edges; [done|done|]. intros i acc' Hi Hacc'. unfold relax_reachable.
      apply swp_bind, (swp_step Q HQ), swp_bind, swp_any_times; [done|]. intros d a. apply swp_bind, swp_idx; [lia|]. intros h _.
      destruct (_ && _); [|by apply swp_ret]. apply swp_bind, swp_target; [done|]. intros w Hw.
      apply swp_bind, swp_idx; [lia|]. intros there _. destruct (_ <? _); [|by apply swp_ret].
      apply swp_bind, swp_assign; [lia|]. apply swp_ret. cbn. by rewrite length_insert.
    + intros [next [|]] Hn; by apply swp_ret.
  - intros arrivals _. apply swp_bind. eapply swp_mono; [apply swp_for_any| |done]; [|by intros l _; apply swp_ret].
    intros [v a] l _. by apply swp_bind, (swp_step Q HQ), swp_ret.
Qed.

(** Times and links of as many vertices as there are, to vertices and edges there are. *)
Record settling_ok (times : list Z) (settled : list bool) (link : links) : Prop := {
  sk_times : length times = n;
  sk_settled : length settled = n;
  sk_links : length link = n;
  sk_valid v u e : link !! v = Some (Some (u, e)) → (u < n)%nat ∧ (e < length (csr_edge_ids csr))%nat;
}.

Lemma settling_ok_init v (t x : Z) :
  (v < n)%nat → settling_ok (<[v := t]> (replicate n x)) (replicate n false) (replicate n None).
Proof.
  intros Hv. split; rewrite ?length_insert, ?length_replicate; try done. by intros u w e [? _]%lookup_replicate.
Qed.
Lemma settling_ok_link times settled link w t u e :
  settling_ok times settled link → (u < n)%nat → (e < length (csr_edge_ids csr))%nat → (w < n)%nat →
  settling_ok (<[w := t]> times) settled (<[w := Some (u, e)]> link).
Proof.
  intros [Ht Hs Hl Hv] Hu He Hw. split; rewrite ?length_insert; try done. intros v u' e'.
  destruct (decide (v = w)) as [->|Hne]; [rewrite list_lookup_insert_eq by lia; by intros [= <- <-]|].
  rewrite list_lookup_insert_ne by done. apply Hv.
Qed.
Lemma settling_ok_settle times settled link v :
  settling_ok times settled link → settling_ok times (<[v := true]> settled) link.
Proof. intros [Ht Hs Hl Hv]. split; rewrite ?length_insert; done. Qed.

Definition settling_state (state : settling) : Prop := settling_ok state.1.1 state.1.2 state.2.

Lemma swp_any_earliest request :
  Q AnInvalidRequest → Q AnMissingProperty →
  swp (earliest_arrival csr request) (λ r, result_kind EarliestArrival r = true) Q.
Proof.
  intros HI HM. unfold earliest_arrival. apply swp_bind, swp_vertex_of; [done|]. intros source _ Hs.
  apply swp_bind, swp_vertex_of; [done|]. intros target _ Ht. apply swp_bind, swp_any_request; [done|].
  intros [[[dp ap] start] end_]. apply swp_bind, (swp_reserve_memory Q HQ), swp_bind, swp_assign; [by rewrite length_replicate|].
  apply swp_bind. eapply swp_mono; [apply (swp_break_inv settling_state); [by apply settling_ok_init|]| |done].
  - intros k [[arrivals settled] link] _ HS. pose proof HS as [Ha Hse Hli _]. cbn in Ha, Hse, Hli. unfold earliest_round.
    apply swp_bind, (swp_step Q HQ), swp_bind. eapply swp_mono; [apply (swp_for_vertices some_vertex); [done|]| |done].
    { intros v next Hv Hn. unfold select_earliest. apply swp_bind, (swp_step Q HQ), swp_bind, swp_idx; [lia|].
      intros [|] _; [by apply swp_ret|]. apply swp_bind, swp_idx; [lia|]. intros d _.
      destruct (_ =? _); [by apply swp_ret|]. destruct next as [best|]; [|by apply swp_ret; intros ? [= <-]].
      apply swp_bind, swp_idx; [rewrite Ha; by apply Hn|]. intros d' _. destruct (_ || _); apply swp_ret; [by intros ? [= <-]|done]. }
    intros [v|] Hn; [|by apply swp_ret]. specialize (Hn v eq_refl). apply swp_bind, swp_assign; [lia|].
    apply swp_bind, swp_out; [done|]. intros r Hr. apply swp_bind.
    eapply swp_mono; [apply (swp_for_edges (λ acc : list Z * links, settling_ok acc.1 (<[v := true]> settled) acc.2) _ r _ Hr)| |done].
    + by apply settling_ok_settle.
    + intros i acc Hi HS'. pose proof HS' as [Ha' _ Hli' _]. unfold relax_earliest.
      apply swp_bind, (swp_step Q HQ), swp_bind, swp_any_times; [done|]. intros d a. apply swp_bind, swp_idx; [lia|]. intros here _.
      destruct (_ || _ || _ || _); [by apply swp_ret|]. apply swp_bind, swp_target; [done|]. intros w Hw.
      apply swp_bind, swp_idx; [lia|]. intros existing _. apply swp_bind, swp_idx; [lia|]. intros there _.
      destruct (_ || _); [|by apply swp_ret]. apply swp_bind, swp_assign; [lia|]. apply swp_bind, swp_assign; [lia|].
      apply swp_ret. apply settling_ok_link; [done|done|apply Hi|done].
    + intros acc HS'. by apply swp_ret.
  - intros [[arrivals settled] link] [Ha _ Hli Hval]. cbn in Ha, Hli, Hval. apply swp_bind, swp_idx; [lia|]. intros arrival _.
    apply swp_bind. apply (swp_mono _ (λ _, True) _ Q Q); [|by intros; apply swp_ret|done]. unfold build_earliest_path.
    destruct (_ =? _); [by apply swp_ret|]. apply swp_bind, swp_idx; [done|]. intros id _.
    eapply (swp_steps_loop (λ state : path_state, (state.2 < n)%nat) (λ _, True)); [done| |apply follow_steps|].
    + intros [[[vs es] is_] current] Hc. cbn in Hc. unfold follow_predecessor. destruct (_ =? _)%nat; [by apply swp_ret|].
      apply swp_bind, (swp_step Q HQ), swp_bind, swp_idx; [lia|]. intros o Ho. apply swp_bind, swp_lift.
      destruct o as [[u e]|]; [|done]. destruct (Hval _ _ _ Ho) as [Hu He]. cbn.
      apply swp_bind, swp_idx; [done|]. intros uid _. apply swp_bind, swp_idx; [done|]. intros eid _. by apply swp_ret.
    + intros [[[vs es] is_] current] _. by apply swp_ret.
Qed.

Lemma follow_successor_steps target successor state state' guard guard' :
  follow_successor csr target successor state guard = Ok (inl state', guard') →
  eg_budget guard' = eg_budget guard ∧ eg_work_items guard < eg_work_items guard' ≤ ab_max_work_items (eg_budget guard).
Proof.
  destruct state as [[[vertices edge_ids] current] last]. unfold follow_successor.
  destruct (_ =? _)%nat; [done|]. unfold mbind, stateful_bind. destruct (step guard) as [[[] g]|] eqn:Hs; [|done].
  intros Hrest. apply step_Ok in Hs. unfold index, lift, mret, stateful_ret in Hrest.
  repeat case_match; simplify_eq; done.
Qed.

Lemma swp_any_latest request :
  Q AnInvalidRequest → Q AnMissingProperty → (csr_reverse csr = None → Q AnMissingReverseCsr) →
  swp (latest_departure csr request) (λ r, result_kind LatestDeparture r = true) Q.
Proof.
  intros HI HM HR. unfold latest_departure. apply swp_bind, swp_vertex_of; [done|]. intros source _ Hs.
  apply swp_bind, swp_vertex_of; [done|]. intros target _ Ht. apply swp_bind, swp_any_request; [done|].
  intros [[[dp ap] start] end_]. destruct (csr_reverse csr) as [reverse|] eqn:Hrev.
  2: { apply swp_bind, swp_lift. rewrite Hrev. by apply HR. }
  apply swp_bind, (swp_reverse_of Q csr reverse); [done|].
  apply swp_bind, (swp_reserve_memory Q HQ), swp_bind, swp_assign; [by rewrite length_replicate|].
  apply swp_bind. eapply swp_mono; [apply (swp_break_inv settling_state); [by apply settling_ok_init|]| |done].
  - intros k [[latest settled] link] _ HS. pose proof HS as [Ha Hse Hli _]. cbn in Ha, Hse, Hli. unfold latest_round.
    apply swp_bind, (swp_step Q HQ), swp_bind. eapply swp_mono; [apply (swp_for_vertices some_vertex); [done|]| |done].
    { intros v next Hv Hn. unfold select_latest. apply swp_bind, (swp_step Q HQ), swp_bind, swp_idx; [lia|].
      intros [|] _; [by apply swp_ret|]. apply swp_bind, swp_idx; [lia|]. intros d _.
      destruct (_ =? _); [by apply swp_ret|]. destruct next as [best|]; [|by apply swp_ret; intros ? [= <-]].
      apply swp_bind, swp_idx; [rewrite Ha; by apply Hn|]. intros d' _. destruct (_ || _); apply swp_ret; [by intros ? [= <-]|done]. }
    intros [v|] Hn; [|by apply swp_ret]. specialize (Hn v eq_refl). apply swp_bind, swp_assign; [lia|].
    apply swp_bind, (swp_incoming Q csr reverse); [done|done|done|]. intros r _ Hr _. apply swp_bind.
    eapply swp_mono; [apply (swp_for_inv (λ acc : list Z * links, settling_ok acc.1 (<[v := true]> settled) acc.2) _ _ _ Q)| |done].
    + by apply settling_ok_settle.
    + intros j acc Hj HS'. pose proof HS' as [Ha' _ Hli' _]. unfold relax_latest.
      destruct (Hr j Hj) as (i & u & Hnu & Hfi & He & Hu). destruct (edge_at_bounds _ _ _ _ Hwf He) as [_ Hvn].
      apply swp_bind, (swp_step Q HQ), swp_bind, (swp_usize_at Q _ _ i); [done|]. apply swp_bind, (swp_usize_at Q _ _ u); [done|].
      apply swp_bind, swp_any_times; [done|]. intros d a. apply swp_bind. apply (swp_mono _ (λ _, True) _ Q Q); [| |done].
      { destruct (_ || _); [by apply swp_ret|]. apply swp_bind, swp_idx; [lia|]. intros here _. by apply swp_ret. }
      intros [|] _; [by apply swp_ret|]. apply swp_bind, swp_idx; [lia|]. intros existing _. apply swp_bind, swp_idx; [lia|]. intros there _.
      destruct (_ || _); [|by apply swp_ret]. apply swp_bind, swp_assign; [lia|]. apply swp_bind, swp_assign; [lia|].
      apply swp_ret. apply settling_ok_link; [done|done| |done]. by apply (good_edge_at i u v).
    + intros acc HS'. by apply swp_ret.
  - intros [[latest settled] link] [Ha _ Hli Hval]. cbn in Ha, Hli, Hval. apply swp_bind, swp_idx; [lia|]. intros departure _.
    apply swp_bind. apply (swp_mono _ (λ _, True) _ Q Q); [|by intros; apply swp_ret|done]. unfold build_latest_path.
    destruct (_ =? _); [by apply swp_ret|]. apply swp_bind, swp_idx; [done|]. intros id _.
    eapply (swp_steps_loop (λ state : latest_path_state, (state.1.2 < n)%nat) (λ _, True)); [done| |apply follow_successor_steps|].
    + intros [[[vs es] current] last] Hc. cbn in Hc. unfold follow_successor. destruct (_ =? _)%nat; [by apply swp_ret|].
      apply swp_bind, (swp_step Q HQ), swp_bind, swp_idx; [lia|]. intros o Ho. apply swp_bind, swp_lift.
      destruct o as [[u e]|]; [|done]. destruct (Hval _ _ _ Ho) as [Hu He]. cbn.
      apply swp_bind, swp_idx; [done|]. intros uid _. apply swp_bind, swp_idx; [done|]. intros eid _. by apply swp_ret.
    + intros [[[vs es] current] last] _. by apply swp_ret.
Qed.
End total.

(** ** All algorithms *)

Lemma refused_may_fail id e : refused e → may_fail id e = true.
Proof. by intros [->| ->]. Qed.

Lemma swp_dispatch csr request :
  csr_wf csr → addressable csr → 0 ≤ ar_max_depth request →
  swp (dispatch csr request) (λ r, result_kind (ar_algorithm request) r = true)
    (λ e, may_fail (ar_algorithm request) e = true).
Proof.
  intros Hwf Hsize Hdepth. pose proof (refused_may_fail (ar_algorithm request)) as HQ. unfold dispatch.
  destruct (ar_algorithm request).
  - eapply swp_mono; [by apply swp_breadth_first_search| |]; [by intros ? (? & ? & ? & _ & _ & -> & _)|].
    intros e [He|[-> _]]; [by apply HQ|done].
  - eapply swp_mono; [by apply swp_depth_first_search| |]; [by intros ? (? & ? & ? & _ & _ & -> & _)|].
    intros e [He|[-> _]]; [by apply HQ|done].
  - by apply swp_bounded_sssp.
  - by apply swp_bounded_apsp.
  - eapply swp_mono; [by apply swp_strongly_connected_components| |]; [by intros ? (? & ? & -> & _)|].
    intros e [He|[-> _]]; [by apply HQ|done].
  - eapply swp_mono; [by apply swp_weakly_connected_components| |]; [by intros ? (? & ? & -> & _)|].
    intros e [He|[-> _]]; [by apply HQ|done].
  - by apply swp_page_rank.
  - by apply swp_degree_centrality.
  - by apply swp_closeness_centrality.
  - by apply swp_betweenness_centrality.
  - by apply swp_triangle_count.
  - by apply swp_clustering_coefficient.
  - eapply swp_mono; [by apply swp_k_core| |done]. by intros ? (? & -> & _).
  - by apply swp_label_propagation.
  - by apply swp_louvain.
  - by apply swp_any_earliest.
  - by apply swp_any_latest.
  - by apply swp_any_reachability.
  - eapply swp_mono; [by apply swp_temporal_motif| |]; [by intros ? (? & ? & ? & ? & ? & _ & -> & _)|].
    intros e [He|[[-> _]|[-> _]]]; [by apply HQ|done|done].
  - by apply swp_change_point.
Qed.

(** ** What is charged *)

(** The guard let nothing through that the budget does not allow. *)
Definition spent_within (guard : ExecutionGuard) : Prop :=
  eg_memory_bytes guard ≤ ab_max_memory_bytes (eg_budget guard) ∧
  eg_work_items guard ≤ ab_max_work_items (eg_budget guard).

Definition charged {A} (m : analysing A) : Prop :=
  ∀ guard, spent_within guard →
    match m guard with Ok (_, guard') => spent_within guard' ∧ eg_budget guard' = eg_budget guard | Err _ => True end.

Lemma charged_ret {A} (a : A) : charged (mret a).
Proof. by intros guard Hg. Qed.
Lemma charged_stop {A} e : charged (stop e : analysing A).
Proof. done. Qed.
Lemma charged_lift {A} (m : result AnalyticsError A) : charged (lift m).
Proof. intros guard Hg. unfold lift. by destruct m. Qed.
Lemma charged_bind {A B} (m : analysing A) (k : A → analysing B) : charged m → (∀ a, charged (k a)) → charged (m ≫= k).
Proof.
  intros Hm Hk guard Hg. unfold mbind, stateful_bind. specialize (Hm guard Hg). destruct (m guard) as [[a g']|]; [|done].
  destruct Hm as [Hg' Hb]. specialize (Hk a g' Hg'). destruct (k a g') as [[b g'']|]; [|done].
  destruct Hk as [? Hb']. split; [done|congruence].
Qed.
Lemma charged_for {A B} (f : B → A → analysing A) l a : (∀ b a, charged (f b a)) → charged (sfor f l a).
Proof. intros Hf. revert a. induction l as [|b l IH]; intros a; [apply charged_ret|]. by apply charged_bind. Qed.
Lemma charged_break {A B} (f : B → A → analysing (A + A)) l a : (∀ b a, charged (f b a)) → charged (sfor_break f l a).
Proof.
  intros Hf. revert a. induction l as [|b l IH]; intros a; [apply charged_ret|]. apply charged_bind; [done|].
  intros [a'|a']; [apply IH|apply charged_ret].
Qed.
Lemma charged_while {A} e fuel (body : A → analysing (A + A)) a : (∀ a, charged (body a)) → charged (swhile e fuel body a).
Proof.
  intros Hb. revert a. induction fuel as [|fuel IH]; intros a; [done|]. apply charged_bind; [done|].
  intros [a'|a']; [apply IH|apply charged_ret].
Qed.
Lemma charged_checkpoint : charged checkpoint.
Proof. intros guard Hg. unfold checkpoint. by destruct (ab_cancelled _ _). Qed.
Lemma charged_step : charged step.
Proof.
  apply charged_bind; [apply charged_checkpoint|]. intros _ guard [Hm Hw]. cbn. destruct (_ <=? _); [done|].
  destruct (_ <? _) eqn:Hlt; [done|]. unfold spent_within. cbn. split; [lia|done].
Qed.
Lemma charged_reserve bytes : charged (reserve bytes).
Proof.
  apply charged_bind; [apply charged_checkpoint|]. intros _ guard [Hm Hw]. cbn. destruct (_ <=? _); [done|].
  destruct (_ <? _) eqn:Hlt; [done|]. unfold spent_within. cbn. split; [lia|done].
Qed.
Lemma charged_require iterations : charged (require_iterations iterations).
Proof.
  apply charged_bind; [apply charged_checkpoint|]. intros _ guard Hg. cbn. by destruct (_ || _).
Qed.
Lemma charged_steps_left : charged steps_left.
Proof. by intros guard Hg. Qed.
Lemma charged_assign {A} (l : list A) i x : charged (assign l i x).
Proof. unfold assign. destruct (_ <? _)%nat; [apply charged_ret|apply charged_stop]. Qed.

Create HintDb charging.
#[export] Hint Resolve charged_ret charged_stop charged_lift charged_step charged_reserve charged_require
  charged_steps_left charged_assign : charging.

(** Follow the shape of a computation. *)
Ltac head_of m := lazymatch m with ?f _ => head_of f | _ => m end.
Ltac charge_step :=
  first
    [ solve [auto with charging]
    | apply charged_bind; [|intros ?] | apply charged_for; intros ? ? | apply charged_break; intros ? ?
    | apply charged_while; intros ?
    | match goal with |- charged (match ?x with _ => _ end) => destruct x end
    | match goal with |- charged (match ?x with _ => _ end _) => destruct x end
    | progress cbv zeta
    | match goal with |- charged ?m => let f := head_of m in unfold f end ].
Ltac charge := repeat charge_step.

Lemma charged_dispatch csr request : charged (dispatch csr request).
Proof. unfold dispatch. destruct (ar_algorithm request); charge. Qed.
#[export] Hint Resolve charged_dispatch : charging.

(** ** The entry point *)

Lemma swp_checked (Q : AnalyticsError → Prop) z (P : Z → Prop) :
  (∀ e, refused e → Q e) → P z → swp (checked z) P Q.
Proof. intros HQ HP. unfold checked. destruct (_ <? _); [by apply swp_ret|apply swp_stop, HQ; by right]. Qed.

Lemma swp_guarded_run csr request :
  csr_wf csr → addressable csr → 0 ≤ ar_max_depth request →
  swp (guarded_run csr request) (λ r, result_kind (ar_algorithm request) r = true)
    (λ e, may_fail (ar_algorithm request) e = true).
Proof.
  intros Hwf Hsize Hdepth. pose proof (refused_may_fail (ar_algorithm request)) as HQ. unfold guarded_run.
  do 3 (apply swp_bind, swp_checked; [done|]). apply swp_bind, swp_reserve_memory; [done|].
  destruct (_ && _) eqn:Hrev; [apply swp_stop; cbn; by apply andb_prop in Hrev as [-> _]|]. by apply swp_dispatch.
Qed.

(** What the graph itself is charged. *)
Definition footprint (csr : SnapshotCsr) : Z :=
  Z.of_nat (length (csr_vertex_ids csr)) * 128 + Z.of_nat (length (csr_edge_ids csr)) * 64.

Lemma guarded_run_charged csr request guard :
  eg_memory_bytes guard = 0 → spent_within guard →
  match guarded_run csr request guard with
  | Ok (_, guard') => spent_within guard' ∧ eg_budget guard' = eg_budget guard ∧
      footprint csr ≤ ab_max_memory_bytes (eg_budget guard)
  | Err _ => True
  end.
Proof.
  intros H0 Hg. destruct (decide (footprint csr ≤ ab_max_memory_bytes (eg_budget guard))) as [Hle|Hgt].
  - assert (charged (guarded_run csr request)) as Hc.
    { unfold guarded_run. charge. }
    specialize (Hc guard Hg). destruct (guarded_run csr request guard) as [[]|]; [|done]. by destruct Hc.
  - unfold guarded_run, checked, reserve, checkpoint, mbind, stateful_bind, stop, mret, stateful_ret.
    repeat case_match; simplify_eq/=; try done; exfalso; unfold footprint in *; lia.
Qed.

(** C29. Whatever the request and whenever it is cancelled, [run_builtin] on a graph that [assemble]
    built returns: with a result of the kind its algorithm promises, or with an error that this
    algorithm may give.  No index is out of range, no unchecked sum or product overflows and no loop
    goes on for ever. *)
Theorem run_builtin_total blake3 projection parts spec checks csr checks' request budget :
  assemble blake3 projection parts spec checks = Ok (csr, checks') → 0 ≤ ar_max_depth request →
  match run_builtin csr request budget with
  | Ok (result, _) => result_kind (ar_algorithm request) result = true
  | Err e => may_fail (ar_algorithm request) e = true
  end.
Proof.
  intros Hcsr Hdepth.
  pose proof (swp_assemble blake3 projection (λ _, True) (λ _ _, I) parts spec checks) as HR. rewrite Hcsr in HR.
  unfold run_builtin, ExecutionGuard_new. destruct (ab_cancelled budget 0); [done|].
  by apply swp_guarded_run; [apply HR|apply HR|].
Qed.

(** C30. A run that returns stayed within its budget: the memory and the work it was charged for are at
    most what the budget allows, and so is the footprint of the graph, 128 bytes for a vertex and 64
    for an edge. *)
Theorem run_builtin_bounded csr request budget result guard :
  0 ≤ ab_max_memory_bytes budget → 0 ≤ ab_max_work_items budget →
  run_builtin csr request budget = Ok (result, guard) →
  eg_budget guard = budget ∧ footprint csr ≤ ab_max_memory_bytes budget ∧
  eg_memory_bytes guard ≤ ab_max_memory_bytes budget ∧ eg_work_items guard ≤ ab_max_work_items budget.
Proof.
  intros Hm Hw. unfold run_builtin, ExecutionGuard_new. destruct (ab_cancelled budget 0); [done|]. cbn.
  pose proof (guarded_run_charged csr request (mkGuard budget 0 0 1) eq_refl (conj Hm Hw)) as Hc. intros Hrun.
  rewrite Hrun in Hc. destruct Hc as ([Hmem Hwork] & Hb & Hf). cbn in Hb, Hf. rewrite Hb in Hmem, Hwork. done.
Qed.

(** ** Example *)

Definition core_request : AlgorithmRequest := AlgorithmRequest_new KCore.
Definition core_budget : AlgorithmBudget := mkBudget 10000 10 1000 (λ _, false).
Definition core_result : AlgorithmResult := CoreNumbers {[1 := 2; 2 := 2; 3 := 2; 4 := 1; 5 := 1; 6 := 0]}.

Lemma core_run : fst <$> run_builtin tailed core_request core_budget = Ok core_result.
Proof. vm_compute. reflexivity. Qed.

Lemma run_builtin_total_witness : result_kind KCore core_result = true.
Proof.
  assert (∃ checks, assemble (λ _, []) sample_budget [sample_part [1; 2; 3; 4; 5; 6] tailed_edges] sample_spec 0%nat
    = Ok (tailed, checks)) as [checks Hcsr] by (eexists; vm_compute; reflexivity).
  pose proof (run_builtin_total (λ _, []) sample_budget [sample_part [1; 2; 3; 4; 5; 6] tailed_edges] sample_spec
    0%nat tailed checks core_request core_budget Hcsr ltac:(cbn; lia)) as H.
  pose proof core_run as Heq. destruct (run_builtin tailed core_request core_budget) as [[result guard]|e]; [|discriminate Heq].
  cbn in Heq. injection Heq as ->. exact H.
Defined.

Lemma run_builtin_bounded_witness : ∃ guard,
  run_builtin tailed core_request core_budget = Ok (core_result, guard) ∧
  eg_memory_bytes guard ≤ 10000 ∧ eg_work_items guard ≤ 1000.
Proof.
  pose proof core_run as Heq.
  destruct (run_builtin tailed core_request core_budget) as [[result guard]|e] eqn:Hrun; [|discriminate Heq].
  cbn in Heq. injection Heq as ->. exists guard. split; [reflexivity|].
  apply (run_builtin_bounded tailed core_request core_budget core_result guard); [cbn; lia|cbn; lia|exact Hrun].
Defined.
