(* ===== verification/Effects.v ===== *)
(** * Operations that change a state even when they fail

    A method on [&mut self] that returns a [Result] leaves in place what it changed before the [?] that
    ended it.  Here are the monad of such methods, access to the parts of a state, loops, and triples
    that speak of the state after a success and after a failure. *)

From S2P Require Import Prelude.
Open Scope Z_scope.

Definition changing (S E A : Type) : Type := S → result E A * S.

#[export] Instance changing_ret S E : MRet (changing S E) := λ A a s, (Ok a, s).
#[export] Instance changing_bind S E : MBind (changing S E) := λ A B k m s,
  match m s with (Ok a, s) => k a s | (Err e, s) => (Err e, s) end.

Section changing.
Context {S E : Type}.

Definition raise {A} (e : E) : changing S E A := λ s, (Err e, s).
Definition of_result {A} (m : result E A) : changing S E A := λ s, (m, s).
Definition get : changing S E S := λ s, (Ok s, s).
Definition modify (f : S → S) : changing S E unit := λ s, (Ok tt, f s).
(** [if let Err(error) = m { .. }]: the error as a value. *)
Definition attempt {A} (m : changing S E A) : changing S E (result E A) := λ s,
  match m s with (r, s) => (Ok r, s) end.

(** [for b in l { a = f(b, a)?; }]. *)
Fixpoint cfor {A B} (f : B → A → changing S E A) (l : list B) (a : A) : changing S E A :=
  match l with
  | [] => mret a
  | b :: l => a ← f b a; cfor f l a
  end.
End changing.

(** The parts of a pair. *)
Definition on_fst {S T E A} (m : changing S E A) : changing (S * T) E A := λ s,
  match m s.1 with (r, s1) => (r, (s1, s.2)) end.
Definition on_snd {S T E A} (m : changing T E A) : changing (S * T) E A := λ s,
  match m s.2 with (r, s2) => (r, (s.1, s2)) end.

(** Runs the combinators of a concrete method. *)
Ltac run := cbv [mbind changing_bind mret changing_ret raise of_result get modify]; cbn.

(** ** Triples: [Q] after a success, [R] after a failure *)

Definition triple {S E A} (P : S → Prop) (m : changing S E A) (Q : A → S → Prop) (R : E → S → Prop) : Prop :=
  ∀ s, P s → match m s with (Ok a, s) => Q a s | (Err e, s) => R e s end.

Section triples.
Context {S E : Type}.
Implicit Types (P : S → Prop) (R : E → S → Prop).

Lemma triple_ret {A} (a : A) P Q R : (∀ s, P s → Q a s) → triple P (mret a) Q R.
Proof. intros H s Hs. by apply H. Qed.
Lemma triple_raise {A} (e : E) P (Q : A → S → Prop) R : (∀ s, P s → R e s) → triple P (raise e) Q R.
Proof. intros H s Hs. by apply H. Qed.
Lemma triple_of_result {A} (m : result E A) P (Q : A → S → Prop) R :
  (∀ s, P s → match m with Ok a => Q a s | Err e => R e s end) → triple P (of_result m) Q R.
Proof. intros H s Hs. apply H in Hs. cbn. by destruct m. Qed.
Lemma triple_get P (Q : S → S → Prop) R : (∀ s, P s → Q s s) → triple P get Q R.
Proof. intros H s Hs. by apply H. Qed.
Lemma triple_modify f P (Q : unit → S → Prop) R : (∀ s, P s → Q tt (f s)) → triple P (modify f) Q R.
Proof. intros H s Hs. by apply H. Qed.
Lemma triple_bind {A B} (m : changing S E A) (k : A → changing S E B) P M Q R :
  triple P m M R → (∀ a, triple (M a) (k a) Q R) → triple P (m ≫= k) Q R.
Proof.
  intros Hm Hk s Hs. specialize (Hm s Hs). unfold mbind, changing_bind.
  destruct (m s) as [[a|e] s']; [by apply Hk|done].
Qed.
Lemma triple_mono {A} (m : changing S E A) P P' (Q Q' : A → S → Prop) R R' :
  triple P m Q R → (∀ s, P' s → P s) → (∀ a s, Q a s → Q' a s) → (∀ e s, R e s → R' e s) → triple P' m Q' R'.
Proof. intros Hm HP HQ HR s Hs. specialize (Hm s (HP s Hs)). destruct (m s) as [[a|e] s']; auto. Qed.
Lemma triple_attempt {A} (m : changing S E A) P (Q : result E A → S → Prop) R :
  triple P m (λ a, Q (Ok a)) (λ e, Q (Err e)) → triple P (attempt m) Q R.
Proof. intros Hm s Hs. specialize (Hm s Hs). unfold attempt. by destruct (m s) as [[a|e] s']. Qed.

(** The loop rule: [I pre a] holds after the elements [pre]. *)
Lemma triple_for {A B} (I : list B → A → S → Prop) (f : B → A → changing S E A) l a R :
  (∀ pre b post a, l = pre ++ b :: post → triple (I pre a) (f b a) (I (pre ++ [b])) R) →
  triple (I [] a) (cfor f l a) (I l) R.
Proof.
  intros Hstep.
  cut (∀ post pre a, l = pre ++ post → triple (I pre a) (cfor f post a) (I l) R).
  { intros Hgo. by apply (Hgo l []). }
  induction post as [|b post IH]; intros pre a' Hl.
  - rewrite app_nil_r in Hl. subst. by apply triple_ret.
  - cbn [cfor]. eapply triple_bind; [by apply (Hstep pre b post)|]. intros a''.
    apply IH. by rewrite Hl, <-(assoc_L (++)).
Qed.
End triples.

Lemma triple_fst {S T E A} (m : changing S E A) (P : S * T → Prop) Q R :
  (∀ t, triple (λ s, P (s, t)) m (λ a s, Q a (s, t)) (λ e s, R e (s, t))) → triple P (on_fst m) Q R.
Proof.
  intros Hm [s t] Hs. specialize (Hm t s Hs). unfold on_fst. cbn. by destruct (m s) as [[a|e] s'].
Qed.
Lemma triple_snd {S T E A} (m : changing T E A) (P : S * T → Prop) Q R :
  (∀ s, triple (λ t, P (s, t)) m (λ a t, Q a (s, t)) (λ e t, R e (s, t))) → triple P (on_snd m) Q R.
Proof.
  intros Hm [s t] Ht. specialize (Hm s t Ht). unfold on_snd. cbn. by destruct (m t) as [[a|e] t'].
Qed.
