(* ===== verification/Reading.v ===== *)
(** * Decoders of big-endian fields

    A cursor over bytes whose every failure is one error, as the decoders of the analytics crate are, and
    the rules that show that a decoder reads back what an encoder wrote. *)

From S2P Require Import Prelude Text Kernel Encoding Loops.
Open Scope Z_scope.

Section reading.
Context {E : Type} (corrupt : E).

(** ** Fields *)

Definition read_take (length : Z) : stateful bytes E bytes := λ bs,
  if Z.of_nat (List.length bs) <? length then Err corrupt
  else Ok (take (Z.to_nat length) bs, drop (Z.to_nat length) bs).
Definition read_be (width : Z) : stateful bytes E Z := bs ← read_take width; mret (be_value bs).
Definition read_u8 : stateful bytes E Z := read_be 1.
Definition read_u32 : stateful bytes E Z := read_be 4.
Definition read_u64 : stateful bytes E Z := read_be 8.
Definition read_u128 : stateful bytes E Z := read_be 16.
Definition read_i64 : stateful bytes E Z := bs ← read_take 8; mret (i64_of_be_bytes bs).
Definition read_digest : stateful bytes E Digest32 := read_take 32.
Definition read_boolean : stateful bytes E bool :=
  tag ← read_u8;
  if tag =? 0 then mret false else if tag =? 1 then mret true else stop corrupt.
Definition read_string : stateful bytes E string :=
  length ← read_u32;
  bs ← read_take length;
  if utf8_valid bs then mret (string_of_bytes bs) else stop corrupt.
Definition read_optional {A} (m : stateful bytes E A) : stateful bytes E (option A) :=
  some ← read_boolean;
  if (some : bool) then a ← m; mret (Some a) else mret None.
Definition read_nonzero (m : stateful bytes E Z) : stateful bytes E Z :=
  value ← m; if value =? 0 then stop corrupt else mret value.
(** [for _ in 0..count { l.push(m()?) }]. *)
Fixpoint read_list {A} (count : nat) (m : stateful bytes E A) : stateful bytes E (list A) :=
  match count with
  | O => mret []
  | S count => a ← m; l ← read_list count m; mret (a :: l)
  end.

(** ** What a decoder yields *)

(** [m] consumes exactly [bs] and answers [a]. *)
Definition yields {A} (m : stateful bytes E A) (bs : bytes) (a : A) : Prop :=
  ∀ rest, m (bs ++ rest) = Ok (a, rest).

Lemma yields_ret {A} (a : A) : yields (mret a) [] a.
Proof using Type. by intros rest. Qed.
Lemma yields_lift {A} (m : result E A) a : m = Ok a → yields (lift m) [] a.
Proof using Type. by intros -> rest. Qed.
Lemma yields_bind {A B} (m : stateful bytes E A) (k : A → stateful bytes E B) bs cs a b :
  yields m bs a → yields (k a) cs b → yields (m ≫= k) (bs ++ cs) b.
Proof using Type. intros Hm Hk rest. rewrite <-app_assoc. unfold mbind, stateful_bind. rewrite Hm. apply Hk. Qed.
Lemma yields_last {A B} (m : stateful bytes E A) (k : A → stateful bytes E B) bs a b :
  yields m bs a → yields (k a) [] b → yields (m ≫= k) bs b.
Proof using Type. intros Hm Hk. rewrite <-(app_nil_r bs). by eapply yields_bind. Qed.
(** A step that reads nothing. *)
Lemma yields_first {A B} (m : stateful bytes E A) (k : A → stateful bytes E B) bs a b :
  yields m [] a → yields (k a) bs b → yields (m ≫= k) bs b.
Proof using Type. intros Hm Hk. change bs with ([] ++ bs). by eapply yields_bind. Qed.

Lemma yields_take n bs : Z.of_nat (length bs) = n → yields (read_take n) bs bs.
Proof using Type.
  intros <- rest. unfold read_take. rewrite length_app, (proj2 (Z.ltb_ge _ _)) by lia.
  by rewrite Nat2Z.id, take_app_length, drop_app_length.
Qed.
Lemma yields_be n z : 0 ≤ z < 256 ^ Z.of_nat n → yields (read_be (Z.of_nat n)) (be_bytes n z) z.
Proof using Type.
  intros Hz. eapply yields_last; [apply yields_take; by rewrite length_be_bytes|].
  rewrite be_value_be_bytes, Z.mod_small by done. apply yields_ret.
Qed.
Lemma yields_u8 b : byte_ok b → yields read_u8 [b] b.
Proof using Type.
  intros Hb. eapply yields_last; [by apply yields_take|].
  replace (be_value [b]) with b by (unfold be_value; cbn; lia). apply yields_ret.
Qed.
Lemma yields_u32 z : in_u32 z → yields read_u32 (be_bytes 4 z) z.
Proof using Type. apply (yields_be 4). Qed.
Lemma yields_u64 z : in_u64 z → yields read_u64 (be_bytes 8 z) z.
Proof using Type. apply (yields_be 8). Qed.
Lemma yields_u128 z : in_u128 z → yields read_u128 (be_bytes 16 z) z.
Proof using Type. apply (yields_be 16). Qed.
Lemma yields_i64 z : in_i64 z → yields read_i64 (be_bytes 8 z) z.
Proof using Type.
  intros Hz. eapply yields_last; [apply yields_take; by rewrite length_be_bytes|].
  rewrite i64_round_trip by done. apply yields_ret.
Qed.
Lemma yields_digest d : digest_wf d → yields read_digest d d.
Proof using Type. intros [Hd _]. apply yields_take. by rewrite Hd. Qed.
Lemma yields_boolean (b : bool) : yields read_boolean [if b then 1 else 0] b.
Proof using Type.
  destruct b; (eapply yields_last; [by apply yields_u8|apply yields_ret]).
Qed.
Lemma yields_nonzero m bs z : z ≠ 0 → yields m bs z → yields (read_nonzero m) bs z.
Proof using Type.
  intros Hz Hm. eapply yields_last; [exact Hm|]. rewrite (proj2 (Z.eqb_neq _ _) Hz). apply yields_ret.
Qed.
(** A tag byte selects the branch. *)
Lemma yields_tag {A} tag (k : Z → stateful bytes E A) bs a :
  byte_ok tag → yields (k tag) bs a → yields (x ← read_u8; k x) (tag :: bs) a.
Proof using Type. intros Ht Hk. apply (yields_bind read_u8 k [tag] bs tag a); [by apply yields_u8|done]. Qed.
Lemma yields_list {A} (enc : A → bytes) (m : stateful bytes E A) l :
  (∀ a, a ∈ l → yields m (enc a) a) → yields (read_list (length l) m) (concat (map enc l)) l.
Proof using Type.
  induction l as [|a l IH]; intros Hm; [apply yields_ret|]. cbn.
  eapply yields_bind; [apply Hm; by left|]. eapply yields_last; [apply IH; intros; apply Hm; by right|apply yields_ret].
Qed.

(** A string with its length in [u32]. *)
Definition put_string (s : string) : bytes := be_bytes 4 (Z.of_nat (String.length s)) ++ as_bytes s.
Definition short_string (s : string) : Prop := str_ok s ∧ in_u32 (Z.of_nat (String.length s)).
Lemma yields_string s : short_string s → yields read_string (put_string s) s.
Proof using Type.
  intros [Hs Hlen]. eapply yields_bind; [by apply yields_u32|].
  eapply yields_last; [apply yields_take; by rewrite length_as_bytes|].
  unfold str_ok in Hs. rewrite Hs, string_of_as_bytes. apply yields_ret.
Qed.
(** An optional field behind its flag. *)
Definition put_optional {A} (enc : A → bytes) (a : option A) : bytes :=
  match a with Some a => 1 :: enc a | None => [0] end.
Lemma yields_optional {A} (enc : A → bytes) m (a : option A) :
  (∀ x, a = Some x → yields m (enc x) x) → yields (read_optional m) (put_optional enc a) a.
Proof using Type.
  intros Hm. destruct a as [a|]; cbn.
  - apply (yields_bind read_boolean _ [1] (enc a) true); [apply (yields_boolean true)|].
    eapply yields_last; [by apply Hm|apply yields_ret].
  - apply (yields_bind read_boolean _ [0] [] false); [apply (yields_boolean false)|apply yields_ret].
Qed.
End reading.

Create HintDb yields.
#[export] Hint Resolve yields_u8 yields_u32 yields_u64 yields_u128 yields_i64 yields_digest yields_boolean yields_string
  yields_nonzero : yields.
(** Read the next field of a sequence, or the last one. *)
Ltac yield_field := eapply yields_bind; [solve [eauto with yields]|].
Ltac yield_last := eapply yields_last; [solve [eauto with yields]|].
