(* ===== verification/Jobs.v ===== *)
(** * Analytics jobs ([dtg-analytics/src/job.rs], and the manifests of [artifact.rs])

    What a job is asked to do, the fences it runs under, its states, and the manifests of the artifacts
    its runs leave behind.  The hash is a parameter. *)

From Stdlib Require Import Floats.SpecFloat.
From S2P Require Import Prelude Text Kernel Encoding Storage Loops Projection Csr Analytics.
Open Scope Z_scope.

(** ** Errors *)

Inductive AnalyticsJobError :=
| JobInvalidJobId | JobInvalidWorkerId | JobInvalidRequestIdentity | JobInvalidSpec | JobInvalidProjection
| JobTimeOverflow | JobSpecConflict | JobNotFound | JobStaleState | JobStaleRevision | JobStaleLease
| JobLeaseExpired | JobStaleGeneration | JobArtifactMismatch | JobArtifactPinned | JobRetentionActive
| JobInvalidTransition | JobFenceDrift | JobCheckpointIncompatible | JobLedgerVersion | JobLedgerCorrupt
| JobBudgetExhausted | JobCancelled | JobStorage.
#[export] Instance AnalyticsJobError_eq_dec : EqDecision AnalyticsJobError.
Proof. solve_decision. Defined.

Definition AnalyticsJobError_code (e : AnalyticsJobError) : string :=
  match e with
  | JobInvalidJobId => "DTG-ANALYTICS-JOB-ID"
  | JobInvalidWorkerId => "DTG-ANALYTICS-WORKER-ID"
  | JobInvalidRequestIdentity => "DTG-ANALYTICS-REQUEST-IDENTITY"
  | JobInvalidSpec => "DTG-ANALYTICS-SPEC-INVALID"
  | JobInvalidProjection => "DTG-ANALYTICS-PROJECTION-INVALID"
  | JobTimeOverflow => "DTG-ANALYTICS-TIME-OVERFLOW"
  | JobSpecConflict => "DTG-ANALYTICS-SPEC-CONFLICT"
  | JobNotFound => "DTG-ANALYTICS-JOB-NOT-FOUND"
  | JobStaleState => "DTG-ANALYTICS-STALE-STATE"
  | JobStaleRevision => "DTG-ANALYTICS-STALE-REVISION"
  | JobStaleLease => "DTG-ANALYTICS-STALE-LEASE"
  | JobLeaseExpired => "DTG-ANALYTICS-LEASE-EXPIRED"
  | JobStaleGeneration => "DTG-ANALYTICS-STALE-GENERATION"
  | JobArtifactMismatch => "DTG-ANALYTICS-ARTIFACT-MISMATCH"
  | JobArtifactPinned => "DTG-ANALYTICS-ARTIFACT-PINNED"
  | JobRetentionActive => "DTG-ANALYTICS-RETENTION-ACTIVE"
  | JobInvalidTransition => "DTG-ANALYTICS-INVALID-TRANSITION"
  | JobFenceDrift => "DTG-ANALYTICS-FENCE-DRIFT"
  | JobCheckpointIncompatible => "DTG-ANALYTICS-CHECKPOINT-INCOMPATIBLE"
  | JobLedgerVersion => "DTG-ANALYTICS-LEDGER-VERSION"
  | JobLedgerCorrupt => "DTG-ANALYTICS-LEDGER-CORRUPT"
  | JobBudgetExhausted => "DTG-ANALYTICS-BUDGET-EXHAUSTED"
  | JobCancelled => "DTG-ANALYTICS-CANCELLED"
  | JobStorage => "DTG-ANALYTICS-STORAGE"
  end.

(** ** Identifiers and times *)

Abbreviation AnalyticsJobId := Z (only parsing).
Abbreviation WorkerId := Z (only parsing).
Abbreviation JobTimestamp := Z (only parsing).

Definition AnalyticsJobId_new (value : Z) : result AnalyticsJobError AnalyticsJobId :=
  if negb (value =? 0) then Ok value else Err JobInvalidJobId.
Definition WorkerId_new (value : Z) : result AnalyticsJobError WorkerId :=
  if negb (value =? 0) then Ok value else Err JobInvalidWorkerId.
(** [JobTimestamp::checked_add]. *)
Definition timestamp_add (self value : Z) : result AnalyticsJobError JobTimestamp :=
  if self + value <? 2 ^ 64 then Ok (self + value) else Err JobTimeOverflow.

(** ** Bytes to hash *)

(** [f64::to_bits]; the payload of a NaN is not kept. *)
Definition to_bits (x : f64) : Z :=
  let sign (s : bool) := if s then 2 ^ 63 else 0 in
  match x with
  | S754_zero s => sign s
  | S754_infinity s => sign s + (2 ^ 11 - 1) * 2 ^ 52
  | S754_nan => (2 ^ 11 - 1) * 2 ^ 52 + 2 ^ 51
  | S754_finite s m e =>
      if Z.pos m <? 2 ^ 52 then sign s + Z.pos m else sign s + (e + 1075) * 2 ^ 52 + (Z.pos m - 2 ^ 52)
  end.

Definition algorithm_tag (algorithm : BuiltInAlgorithmId) : Z :=
  match algorithm with
  | BreadthFirstSearch => 1 | DepthFirstSearch => 2 | BoundedSingleSourceShortestPath => 3
  | BoundedAllPairsShortestPaths => 4 | StronglyConnectedComponents => 5 | WeaklyConnectedComponents => 6
  | PageRank => 7 | DegreeCentrality => 8 | ClosenessCentrality => 9 | BetweennessCentrality => 10
  | TriangleCount => 11 | ClusteringCoefficient => 12 | KCore => 13 | LabelPropagation => 14 | Louvain => 15
  | EarliestArrival => 16 | LatestDeparture => 17 | TemporalReachability => 18 | TemporalMotif => 19
  | ChangePoint => 20
  end.

(** The algorithm of a tag, as the decoders of the ledger and of artifacts read it. *)
Definition algorithm_of_tag (tag : Z) : option BuiltInAlgorithmId :=
  match tag with
  | 1 => Some BreadthFirstSearch | 2 => Some DepthFirstSearch | 3 => Some BoundedSingleSourceShortestPath
  | 4 => Some BoundedAllPairsShortestPaths | 5 => Some StronglyConnectedComponents | 6 => Some WeaklyConnectedComponents
  | 7 => Some PageRank | 8 => Some DegreeCentrality | 9 => Some ClosenessCentrality | 10 => Some BetweennessCentrality
  | 11 => Some TriangleCount | 12 => Some ClusteringCoefficient | 13 => Some KCore | 14 => Some LabelPropagation
  | 15 => Some Louvain | 16 => Some EarliestArrival | 17 => Some LatestDeparture | 18 => Some TemporalReachability
  | 19 => Some TemporalMotif | 20 => Some ChangePoint
  | _ => None
  end.
Lemma algorithm_of_tag_tag a : algorithm_of_tag (algorithm_tag a) = Some a.
Proof. by destruct a. Qed.
Lemma algorithm_tag_ok a : byte_ok (algorithm_tag a).
Proof. by destruct a. Qed.

Definition hash_bool (b : bool) : bytes := [if b then 1 else 0].
(** [encode_optional_string], [encode_optional_u128] and [encode_optional_i64]. *)
Definition hash_optional {A} (enc : A → bytes) (value : option A) : bytes :=
  match value with Some value => 1 :: enc value | None => [0] end.

Definition hash_snapshot (snapshot : SnapshotProvenance) : bytes :=
  be_bytes 16 (sn_transaction_id snapshot) ++ be_bytes 8 (sn_start_time snapshot) ++
  be_bytes 8 (sn_catalog_version snapshot) ++ be_bytes 8 (Z.of_nat (size (sn_shards snapshot))) ++
  concat (map (λ '(shard, fence),
    be_bytes 8 shard ++ be_bytes 8 (sp_placement_epoch fence) ++ be_bytes 8 (sp_backend_generation fence) ++
    be_bytes 8 (sp_applied_index fence) ++ be_bytes 8 (sp_closed_time fence)) (entries (sn_shards snapshot))).

Definition hash_property (property : PropertyColumnSpec) : bytes :=
  enc_string (cs_name property) ++ property_type_tag (cs_property_type property) :: hash_bool (cs_required property).
Definition hash_projection (projection : ProjectionSpec) : bytes :=
  hash_bool (ps_include_reverse projection) ++ enc_seq hash_property (ps_vertex_properties projection) ++
  enc_seq hash_property (ps_edge_properties projection).

Definition hash_request (request : AlgorithmRequest) : bytes :=
  algorithm_tag (ar_algorithm request) ::
  hash_optional (be_bytes 16) (ar_source request) ++ hash_optional (be_bytes 16) (ar_target request) ++
  be_bytes 4 (ar_max_depth request) ++ be_bytes 8 (ar_max_pairs request) ++ be_bytes 4 (ar_iterations request) ++
  be_bytes 4 (ar_k request) ++ be_bytes 8 (to_bits (ar_damping request)) ++
  hash_optional enc_string (ar_weight_property request) ++ hash_optional enc_string (ar_departure_property request) ++
  hash_optional enc_string (ar_arrival_property request) ++ hash_optional enc_string (ar_event_time_property request) ++
  hash_optional enc_string (ar_signal_property request) ++ hash_optional (be_bytes 8) (ar_time_start request) ++
  hash_optional (be_bytes 8) (ar_time_end request) ++ be_bytes 8 (to_bits (ar_change_threshold request)).

(** ** Specifications *)

Record AnalyticsJobSpec := mkJobSpec {
  js_id : AnalyticsJobId;
  js_request_identity : string;
  js_request : AlgorithmRequest;
  js_snapshot : SnapshotProvenance;
  js_projection : ProjectionSpec;
  js_snapshot_digest : Digest32;
  js_topology_digest : Digest32;
  js_backend_fence_digest : Digest32;
  js_provider_version : Z;
  js_algorithm_version : Z;
  js_result_schema_version : Z;
  js_checkpoint_schema_version : Z;
  js_max_attempts : Z;
  js_retention_until : JobTimestamp;
  js_digest : Digest32;
}.

(** [AnalyticsRequestIdentity::new]. *)
Definition AnalyticsRequestIdentity_new (value : string) : option string :=
  if bool_decide (value = EmptyString) then None else Some value.

Section specs.
Context (blake3 : bytes → Digest32).

Definition derive_job_id (identity : string) : AnalyticsJobId :=
  Z.max (be_value (take 16 (blake3 (as_bytes "dtg-analytics-job-id-v1" ++ enc_string identity)))) 1.

Definition digest_snapshot (snapshot : SnapshotProvenance) : Digest32 :=
  blake3 (as_bytes "dtg-analytics-snapshot-fence-v1" ++ hash_snapshot snapshot).

Definition digest_spec (identity : string) (request : AlgorithmRequest) (snapshot : SnapshotProvenance)
    (projection : ProjectionSpec) (topology_digest backend_fence_digest : Digest32)
    (provider_version algorithm_version result_schema_version checkpoint_schema_version max_attempts : Z)
    (retention_until : JobTimestamp) : Digest32 :=
  blake3 (as_bytes "dtg-analytics-job-spec-v1" ++ enc_string identity ++ hash_request request ++
    hash_snapshot snapshot ++ hash_projection projection ++ topology_digest ++ backend_fence_digest ++
    be_bytes 4 provider_version ++ be_bytes 4 algorithm_version ++ be_bytes 4 result_schema_version ++
    be_bytes 4 checkpoint_schema_version ++ be_bytes 4 max_attempts ++ be_bytes 8 retention_until).

Definition AnalyticsJobSpec_new (identity : string) (request : AlgorithmRequest) (snapshot : SnapshotProvenance)
    (projection : ProjectionSpec) (topology_digest backend_fence_digest : Digest32)
    (provider_version algorithm_version max_attempts : Z) (retention_until : JobTimestamp)
    : result AnalyticsJobError AnalyticsJobSpec :=
  if 256 <? Z.of_nat (String.length identity) then Err JobInvalidRequestIdentity
  else if (provider_version =? 0) || (algorithm_version =? 0) || (max_attempts =? 0) then Err JobInvalidSpec
  else
    let descriptor := descriptor (ar_algorithm request) in
    if bool_decide (ad_required_shape descriptor = ForwardAndReverse) && negb (ps_include_reverse projection)
    then Err JobInvalidProjection
    else if negb (forallb (λ required,
              existsb (λ property, bool_decide (cs_name property = required) && cs_required property)
                (ps_edge_properties projection)) (ad_required_edge_properties descriptor))
    then Err JobInvalidProjection
    else
      Ok (mkJobSpec (derive_job_id identity) identity request snapshot projection (digest_snapshot snapshot)
            topology_digest backend_fence_digest provider_version algorithm_version
            (ad_result_schema_version descriptor) (ad_checkpoint_schema_version descriptor) max_attempts retention_until
            (digest_spec identity request snapshot projection topology_digest backend_fence_digest provider_version
               algorithm_version (ad_result_schema_version descriptor) (ad_checkpoint_schema_version descriptor)
               max_attempts retention_until)).

(** A specification [AnalyticsJobSpec::new] answers, from its own fields. *)
Definition spec_built (spec : AnalyticsJobSpec) : Prop :=
  AnalyticsJobSpec_new (js_request_identity spec) (js_request spec) (js_snapshot spec) (js_projection spec)
    (js_topology_digest spec) (js_backend_fence_digest spec) (js_provider_version spec) (js_algorithm_version spec)
    (js_max_attempts spec) (js_retention_until spec) = Ok spec ∧
  in_u32 (js_max_attempts spec).

Lemma spec_new_built identity request snapshot projection topology_digest backend_fence_digest provider_version
    algorithm_version max_attempts retention_until spec :
  AnalyticsJobSpec_new identity request snapshot projection topology_digest backend_fence_digest provider_version
    algorithm_version max_attempts retention_until = Ok spec →
  in_u32 max_attempts → spec_built spec.
Proof.
  intros Hnew Hmax. unfold spec_built. pose proof Hnew as Hagain. revert Hnew.
  unfold AnalyticsJobSpec_new at 1. repeat case_match; intros [= <-]. by split.
Qed.
Lemma spec_built_attempts spec : spec_built spec → 0 < js_max_attempts spec < 2 ^ 32.
Proof.
  intros [Hnew [Hlow Hhigh]]. revert Hnew. unfold AnalyticsJobSpec_new. repeat case_match; intros [= _]; [].
  lia.
Qed.
End specs.

Definition js_algorithm (self : AnalyticsJobSpec) : BuiltInAlgorithmId := ar_algorithm (js_request self).

Record AnalyticsRuntimeFences := mkFences {
  rf_snapshot_digest : Digest32;
  rf_topology_digest : Digest32;
  rf_backend_fence_digest : Digest32;
  rf_provider_version : Z;
  rf_algorithm_version : Z;
  rf_result_schema_version : Z;
  rf_checkpoint_schema_version : Z;
}.
#[export] Instance AnalyticsRuntimeFences_eq_dec : EqDecision AnalyticsRuntimeFences.
Proof. solve_decision. Defined.

Definition runtime_fences (self : AnalyticsJobSpec) : AnalyticsRuntimeFences :=
  mkFences (js_snapshot_digest self) (js_topology_digest self) (js_backend_fence_digest self)
    (js_provider_version self) (js_algorithm_version self) (js_result_schema_version self)
    (js_checkpoint_schema_version self).
Definition validate_runtime_fences (self : AnalyticsJobSpec) (fences : AnalyticsRuntimeFences)
    : result AnalyticsJobError unit :=
  if bool_decide (runtime_fences self = fences) then Ok tt else Err JobFenceDrift.

(** ** States *)

Inductive AnalyticsJobStateKind :=
  KQueued | KClaimed | KRunning | KSucceeded | KFailed | KCancelled | KTombstoned.
#[export] Instance AnalyticsJobStateKind_eq_dec : EqDecision AnalyticsJobStateKind.
Proof. solve_decision. Defined.

Inductive AnalyticsJobState :=
| JsQueued
| JsClaimed (worker : WorkerId) (lease_epoch : Z) (expires_at : JobTimestamp)
| JsRunning (worker : WorkerId) (lease_epoch : Z) (expires_at : JobTimestamp) (checkpoint : option Z)
| JsSucceeded (result_generation : Z)
| JsFailed (retryable : bool) (code : string)
| JsCancelled
| JsTombstoned.
#[export] Instance AnalyticsJobState_eq_dec : EqDecision AnalyticsJobState.
Proof. solve_decision. Defined.

Definition state_kind (self : AnalyticsJobState) : AnalyticsJobStateKind :=
  match self with
  | JsQueued => KQueued
  | JsClaimed _ _ _ => KClaimed
  | JsRunning _ _ _ _ => KRunning
  | JsSucceeded _ => KSucceeded
  | JsFailed _ _ => KFailed
  | JsCancelled => KCancelled
  | JsTombstoned => KTombstoned
  end.

Record JobCas := mkCas { jc_state : AnalyticsJobStateKind; jc_revision : Z; jc_lease_epoch : Z }.

Record JobLease := mkLease {
  jl_job_id : AnalyticsJobId;
  jl_worker : WorkerId;
  jl_lease_epoch : Z;
  jl_revision : Z;
  jl_expires_at : JobTimestamp;
}.
#[export] Instance JobLease_eq_dec : EqDecision JobLease.
Proof. solve_decision. Defined.

(** ** Manifests *)

Inductive ArtifactKind := Checkpoint | ResultArtifact.
#[export] Instance ArtifactKind_eq_dec : EqDecision ArtifactKind.
Proof. solve_decision. Defined.
#[export] Instance ArtifactKind_countable : Countable ArtifactKind.
Proof.
  refine (inj_countable' (λ k, match k with Checkpoint => true | ResultArtifact => false end)
            (λ b : bool, if b then Checkpoint else ResultArtifact) _). by intros [].
Defined.

Definition kind_tag (kind : ArtifactKind) : Z := match kind with Checkpoint => 1 | ResultArtifact => 2 end.
Definition kind_of_tag (tag : Z) : option ArtifactKind :=
  match tag with 1 => Some Checkpoint | 2 => Some ResultArtifact | _ => None end.

Record AnalyticsArtifactManifest := mkArtifactManifest {
  am_job_id : AnalyticsJobId;
  am_lease_epoch : Z;
  am_generation : Z;
  am_kind : ArtifactKind;
  am_schema_version : Z;
  am_algorithm : BuiltInAlgorithmId;
  am_algorithm_version : Z;
  am_snapshot_digest : Digest32;
  am_spec_digest : Digest32;
  am_payload_digest : Digest32;
  am_chunk_count : Z;
  am_total_bytes : Z;
  am_content_digest : Digest32;
}.
#[export] Instance AnalyticsArtifactManifest_eq_dec : EqDecision AnalyticsArtifactManifest.
Proof. solve_decision. Defined.

(** What a manifest must agree on with the job. *)
Definition describes_job (self : AnalyticsArtifactManifest) (spec : AnalyticsJobSpec) (kind : ArtifactKind) : bool :=
  let expected_schema :=
    match kind with
    | Checkpoint => js_checkpoint_schema_version spec
    | ResultArtifact => js_result_schema_version spec
    end in
  (am_job_id self =? js_id spec) && bool_decide (am_kind self = kind) && (am_schema_version self =? expected_schema) &&
  bool_decide (am_algorithm self = js_algorithm spec) && (am_algorithm_version self =? js_algorithm_version spec) &&
  bool_decide (am_snapshot_digest self = js_snapshot_digest spec) && bool_decide (am_spec_digest self = js_digest spec).

Definition validate_for (self : AnalyticsArtifactManifest) (spec : AnalyticsJobSpec) (lease_epoch : Z)
    (kind : ArtifactKind) : result AnalyticsJobError unit :=
  if describes_job self spec kind && (am_lease_epoch self =? lease_epoch) then Ok tt else Err JobArtifactMismatch.

Definition validate_checkpoint_for_resume (self : AnalyticsArtifactManifest) (spec : AnalyticsJobSpec)
    : result AnalyticsJobError unit :=
  if describes_job self spec Checkpoint then Ok tt else Err JobCheckpointIncompatible.
