(* ===== verification/JobLedger.v ===== *)
(** * The ledger of analytics jobs ([dtg-analytics/src/ledger.rs])

    A job is queued, claimed under a lease, run with checkpoints, and ends with a result, a failure or a
    cancellation; its artifacts are pinned until their retention is over and then collected.  An
    operation that fails half way leaves what it changed, so operations are in the monad of [Effects].
    The counters are [u64] and wrap around, except where the source checks. *)

From S2P Require Import Prelude Text Kernel Effects Projection Analytics Jobs.
Open Scope Z_scope.

(** ** Records *)

Definition kind_leb (k l : ArtifactKind) : bool :=
  match k, l with ResultArtifact, Checkpoint => false | _, _ => true end.
Definition artifact_key_leb (k l : ArtifactKind * Z) : bool :=
  if bool_decide (k.1 = l.1) then k.2 <=? l.2 else kind_leb k.1 l.1.

Record AnalyticsJobRecord := mkJobRecord {
  jr_spec : AnalyticsJobSpec;
  jr_state : AnalyticsJobState;
  jr_revision : Z;
  jr_lease_epoch : Z;
  jr_attempts : Z;
  jr_next_artifact_generation : Z;
  jr_artifacts : gmap (ArtifactKind * Z) AnalyticsArtifactManifest;
  jr_pins : gset (ArtifactKind * Z);
  jr_submitted_at : JobTimestamp;
  jr_updated_at : JobTimestamp;
}.

Record AnalyticsGcCandidate := mkCandidate {
  gc_job_id : AnalyticsJobId;
  gc_expected : JobCas;
  gc_manifest : AnalyticsArtifactManifest;
}.

Definition cas (self : AnalyticsJobRecord) : JobCas :=
  mkCas (state_kind (jr_state self)) (jr_revision self) (jr_lease_epoch self).
Definition artifact (self : AnalyticsJobRecord) (kind : ArtifactKind) (generation : Z)
    : option AnalyticsArtifactManifest := jr_artifacts self !! (kind, generation).
(** [artifacts.keys().rev().find_map(..)]. *)
Definition last_checkpoint (artifacts : gmap (ArtifactKind * Z) AnalyticsArtifactManifest) : option Z :=
  snd <$> head (filter (λ key, key.1 = Checkpoint) (reverse (entries_by artifact_key_leb artifacts).*1)).
Definition checkpoint_manifest (self : AnalyticsJobRecord) : option AnalyticsArtifactManifest :=
  generation ← match jr_state self with
               | JsRunning _ _ _ checkpoint => checkpoint
               | _ => last_checkpoint (jr_artifacts self)
               end;
  artifact self Checkpoint generation.
Definition result_manifest (self : AnalyticsJobRecord) : option AnalyticsArtifactManifest :=
  match jr_state self with
  | JsSucceeded result_generation => artifact self ResultArtifact result_generation
  | _ => None
  end.
Definition is_pinned (self : AnalyticsJobRecord) (kind : ArtifactKind) (generation : Z) : bool :=
  bool_decide ((kind, generation) ∈ jr_pins self).
Definition current_lease (self : AnalyticsJobRecord) : option JobLease :=
  match jr_state self with
  | JsClaimed worker lease_epoch expires_at | JsRunning worker lease_epoch expires_at _ =>
      Some (mkLease (js_id (jr_spec self)) worker lease_epoch (jr_revision self) expires_at)
  | _ => None
  end.

Definition state_lease_epoch (state : AnalyticsJobState) : option Z :=
  match state with
  | JsClaimed _ lease_epoch _ | JsRunning _ lease_epoch _ _ => Some lease_epoch
  | _ => None
  end.

Definition checked_succ (value : Z) : result AnalyticsJobError Z :=
  if value + 1 <? 2 ^ 64 then Ok (value + 1) else Err JobInvalidTransition.
(** [+= 1] on a [u64]. *)
Definition wrapping_succ (value : Z) : Z := (value + 1) mod 2 ^ 64.

Definition set_state (state : AnalyticsJobState) (r : AnalyticsJobRecord) : AnalyticsJobRecord :=
  mkJobRecord (jr_spec r) state (jr_revision r) (jr_lease_epoch r) (jr_attempts r) (jr_next_artifact_generation r)
    (jr_artifacts r) (jr_pins r) (jr_submitted_at r) (jr_updated_at r).
Definition set_lease_epoch (lease_epoch : Z) (r : AnalyticsJobRecord) : AnalyticsJobRecord :=
  mkJobRecord (jr_spec r) (jr_state r) (jr_revision r) lease_epoch (jr_attempts r) (jr_next_artifact_generation r)
    (jr_artifacts r) (jr_pins r) (jr_submitted_at r) (jr_updated_at r).
Definition set_attempts (attempts : Z) (r : AnalyticsJobRecord) : AnalyticsJobRecord :=
  mkJobRecord (jr_spec r) (jr_state r) (jr_revision r) (jr_lease_epoch r) attempts (jr_next_artifact_generation r)
    (jr_artifacts r) (jr_pins r) (jr_submitted_at r) (jr_updated_at r).
Definition set_next_artifact_generation (generation : Z) (r : AnalyticsJobRecord) : AnalyticsJobRecord :=
  mkJobRecord (jr_spec r) (jr_state r) (jr_revision r) (jr_lease_epoch r) (jr_attempts r) generation
    (jr_artifacts r) (jr_pins r) (jr_submitted_at r) (jr_updated_at r).
Definition set_artifacts (artifacts : gmap (ArtifactKind * Z) AnalyticsArtifactManifest) (r : AnalyticsJobRecord)
    : AnalyticsJobRecord :=
  mkJobRecord (jr_spec r) (jr_state r) (jr_revision r) (jr_lease_epoch r) (jr_attempts r)
    (jr_next_artifact_generation r) artifacts (jr_pins r) (jr_submitted_at r) (jr_updated_at r).
Definition set_pins (pins : gset (ArtifactKind * Z)) (r : AnalyticsJobRecord) : AnalyticsJobRecord :=
  mkJobRecord (jr_spec r) (jr_state r) (jr_revision r) (jr_lease_epoch r) (jr_attempts r)
    (jr_next_artifact_generation r) (jr_artifacts r) pins (jr_submitted_at r) (jr_updated_at r).
(** [record.revision += 1; record.updated_at = now]. *)
Definition touch (now : JobTimestamp) (r : AnalyticsJobRecord) : AnalyticsJobRecord :=
  mkJobRecord (jr_spec r) (jr_state r) (wrapping_succ (jr_revision r)) (jr_lease_epoch r) (jr_attempts r)
    (jr_next_artifact_generation r) (jr_artifacts r) (jr_pins r) (jr_submitted_at r) now.
(** [record.lease_epoch += 1]. *)
Definition fence_off (r : AnalyticsJobRecord) : AnalyticsJobRecord :=
  set_lease_epoch (wrapping_succ (jr_lease_epoch r)) r.

(** ** The ledger *)

Record AnalyticsLedger := mkJobLedger {
  al_lease_duration : Z;
  al_jobs : gmap AnalyticsJobId AnalyticsJobRecord;
}.

Definition AnalyticsLedger_new (lease_duration : Z) : result AnalyticsJobError AnalyticsLedger :=
  if lease_duration =? 0 then Err JobInvalidSpec else Ok (mkJobLedger lease_duration ∅).

Abbreviation ledgering := (changing AnalyticsLedger AnalyticsJobError).
Abbreviation recording := (changing AnalyticsJobRecord AnalyticsJobError).

(** [self.jobs.get_mut(&job_id).ok_or(JobNotFound)?] and what is done with the record. *)
Definition on_record {A} (job_id : AnalyticsJobId) (m : recording A) : ledgering A := λ self,
  match al_jobs self !! job_id with
  | Some record =>
      match m record with
      | (r, record) => (r, mkJobLedger (al_lease_duration self) (<[job_id := record]> (al_jobs self)))
      end
  | None => (Err JobNotFound, self)
  end.

Definition check_cas (record : AnalyticsJobRecord) (expected : JobCas) : result AnalyticsJobError unit :=
  if negb (jr_revision record =? jc_revision expected) then Err JobStaleRevision
  else if negb (jr_lease_epoch record =? jc_lease_epoch expected) then Err JobStaleLease
  else if negb (bool_decide (state_kind (jr_state record) = jc_state expected)) then Err JobStaleState
  else Ok tt.

(** The checks of [active_record_mut]. *)
Definition check_active (record : AnalyticsJobRecord) (lease : JobLease) (now : JobTimestamp)
    : result AnalyticsJobError unit :=
  match jr_state record with
  | JsClaimed worker lease_epoch expires_at | JsRunning worker lease_epoch expires_at _ =>
      if negb (lease_epoch =? jl_lease_epoch lease) || negb (worker =? jl_worker lease) then Err JobStaleLease
      else if negb (jr_revision record =? jl_revision lease) then Err JobStaleRevision
      else if expires_at <=? now then Err JobLeaseExpired
      else Ok tt
  | _ => Err JobStaleLease
  end.
Definition active_record_mut {A} (lease : JobLease) (now : JobTimestamp) (m : recording A) : ledgering A :=
  on_record (jl_job_id lease) (record ← get; _ ← of_result (check_active record lease now); m).

Definition validate_artifact (record : AnalyticsJobRecord) (lease : JobLease) (manifest : AnalyticsArtifactManifest)
    (kind : ArtifactKind) : result AnalyticsJobError unit :=
  _ ← validate_for manifest (jr_spec record) (jl_lease_epoch lease) kind;
  if negb (am_generation manifest =? jr_next_artifact_generation record) then Err JobStaleGeneration else Ok tt.

(** ** Submission and leases *)

Definition submit (spec : AnalyticsJobSpec) (submitted_at : JobTimestamp) : ledgering AnalyticsJobId :=
  self ← get;
  match al_jobs self !! js_id spec with
  | Some existing =>
      if bool_decide (js_digest (jr_spec existing) = js_digest spec) then mret (js_id spec) else raise JobSpecConflict
  | None =>
      let record := mkJobRecord spec JsQueued 1 0 0 1 ∅ ∅ submitted_at submitted_at in
      _ ← modify (λ self, mkJobLedger (al_lease_duration self) (<[js_id spec := record]> (al_jobs self)));
      mret (js_id spec)
  end.

(** [JobLease::new(.., record.revision, expires_at)] for the lease in use. *)
Definition extend_lease (lease : JobLease) (expires_at : JobTimestamp) : recording JobLease :=
  record ← get;
  mret (mkLease (jl_job_id lease) (jl_worker lease) (jl_lease_epoch lease) (jr_revision record) expires_at).

Definition claim (job_id : AnalyticsJobId) (worker : WorkerId) (now : JobTimestamp) (expected : JobCas)
    : ledgering JobLease :=
  self ← get;
  expires_at ← of_result (timestamp_add now (al_lease_duration self));
  on_record job_id (
    record ← get;
    _ ← of_result (check_cas record expected);
    if negb (bool_decide (jr_state record = JsQueued)) || (js_max_attempts (jr_spec record) <=? jr_attempts record)
    then raise JobInvalidTransition
    else
      lease_epoch ← of_result (checked_succ (jr_lease_epoch record));
      _ ← modify (λ r, set_state (JsClaimed worker lease_epoch expires_at)
                         (touch now (set_attempts (jr_attempts r + 1) (set_lease_epoch lease_epoch r))));
      record ← get;
      mret (mkLease job_id worker lease_epoch (jr_revision record) expires_at)).

Definition begin (lease : JobLease) (now : JobTimestamp) : ledgering JobLease :=
  active_record_mut lease now (
    record ← get;
    match jr_state record with
    | JsClaimed _ _ _ =>
        let checkpoint := last_checkpoint (jr_artifacts record) in
        let expires_at := jl_expires_at lease in
        _ ← modify (λ r, set_state (JsRunning (jl_worker lease) (jl_lease_epoch lease) expires_at checkpoint)
                           (touch now r));
        extend_lease lease expires_at
    | _ => raise JobStaleState
    end).

Definition renew (lease : JobLease) (now : JobTimestamp) : ledgering JobLease :=
  self ← get;
  expires_at ← of_result (timestamp_add now (al_lease_duration self));
  active_record_mut lease now (
    record ← get;
    _ ← match jr_state record with
        | JsClaimed worker lease_epoch _ => modify (set_state (JsClaimed worker lease_epoch expires_at))
        | JsRunning worker lease_epoch _ checkpoint =>
            modify (set_state (JsRunning worker lease_epoch expires_at checkpoint))
        | _ => raise JobStaleState
        end;
    _ ← modify (touch now);
    extend_lease lease expires_at).

(** ** Artifacts of a run *)

(** What [checkpoint] and [publish_result] do alike: the pin of the previous checkpoint is dropped, the
    manifest is recorded and pinned. *)
Definition record_artifact (kind : ArtifactKind) (manifest : AnalyticsArtifactManifest) (now : JobTimestamp)
    : recording unit :=
  record ← get;
  _ ← match jr_state record with
      | JsRunning _ _ _ (Some previous) => modify (λ r, set_pins (jr_pins r ∖ {[(Checkpoint, previous)]}) r)
      | _ => mret tt
      end;
  let generation := am_generation manifest in
  _ ← modify (λ r, set_artifacts (<[(kind, generation) := manifest]> (jr_artifacts r)) r);
  _ ← modify (λ r, set_pins ({[(kind, generation)]} ∪ jr_pins r) r);
  _ ← modify (λ r, set_next_artifact_generation (wrapping_succ (jr_next_artifact_generation r)) r);
  modify (touch now).

Definition is_running (state : AnalyticsJobState) : bool :=
  match state with JsRunning _ _ _ _ => true | _ => false end.

Definition checkpoint (lease : JobLease) (manifest : AnalyticsArtifactManifest) (now : JobTimestamp)
    : ledgering JobLease :=
  self ← get;
  active_record_mut lease now (
    record ← get;
    if negb (is_running (jr_state record)) then raise JobStaleState
    else
      _ ← of_result (validate_artifact record lease manifest Checkpoint);
      _ ← record_artifact Checkpoint manifest now;
      expires_at ← of_result (timestamp_add now (al_lease_duration self));
      _ ← modify (set_state (JsRunning (jl_worker lease) (jl_lease_epoch lease) expires_at
                               (Some (am_generation manifest))));
      extend_lease lease expires_at).

Definition publish_result (lease : JobLease) (manifest : AnalyticsArtifactManifest) (now : JobTimestamp)
    : ledgering unit :=
  active_record_mut lease now (
    record ← get;
    if negb (is_running (jr_state record)) then raise JobStaleState
    else
      _ ← of_result (validate_artifact record lease manifest ResultArtifact);
      _ ← record_artifact ResultArtifact manifest now;
      modify (set_state (JsSucceeded (am_generation manifest)))).

(** ** The other ends of a run *)

Definition fail (lease : JobLease) (retryable : bool) (code : string) (now : JobTimestamp) : ledgering unit :=
  if bool_decide (code = EmptyString) || (256 <? Z.of_nat (String.length code)) then raise JobInvalidSpec
  else
    active_record_mut lease now (
      _ ← modify (λ r, touch now (fence_off r));
      record ← get;
      if retryable && (jr_attempts record <? js_max_attempts (jr_spec record)) then modify (set_state JsQueued)
      else
        modify (set_state
          (JsFailed (retryable && (jr_attempts record <? js_max_attempts (jr_spec record))) code))).

Definition cancel (job_id : AnalyticsJobId) (expected : JobCas) (now : JobTimestamp) : ledgering unit :=
  on_record job_id (
    record ← get;
    _ ← of_result (check_cas record expected);
    match jr_state record with
    | JsQueued | JsClaimed _ _ _ | JsRunning _ _ _ _ =>
        modify (λ r, set_state JsCancelled (touch now (fence_off r)))
    | _ => raise JobInvalidTransition
    end).

(** ** Cancellation tokens *)

(** A token may be cancelled by another thread at any moment: [ct_answers n] is its answer to the [n]-th
    request, [ct_asked] the number of requests so far. *)
Record CancellationToken := mkToken { ct_answers : nat → bool; ct_asked : nat }.
(** [CancellationToken::new()], held by nobody else. *)
Definition new_token : CancellationToken := mkToken (λ _, false) 0.
Definition is_cancelled : changing CancellationToken AnalyticsJobError bool := λ token,
  (Ok (ct_answers token (ct_asked token)), mkToken (ct_answers token) (S (ct_asked token))).
(** [if cancellation.is_cancelled() { return Err(Cancelled) }]. *)
Definition check_token : changing CancellationToken AnalyticsJobError unit :=
  cancelled ← is_cancelled; if (cancelled : bool) then raise JobCancelled else mret tt.

(** ** Expiry of leases *)

Definition expire_record (now : JobTimestamp) : recording bool :=
  record ← get;
  match jr_state record with
  | JsClaimed _ _ expires_at | JsRunning _ _ expires_at _ =>
      if now <? expires_at then mret false
      else
        _ ← modify (λ r, touch now (fence_off r));
        _ ← modify (set_state
              (if jr_attempts record <? js_max_attempts (jr_spec record) then JsQueued
               else JsFailed false (AnalyticsJobError_code JobLeaseExpired)));
        mret true
  | _ => mret false
  end.

Definition expire_job (now : JobTimestamp) (job_id : AnalyticsJobId) (expired : Z)
    : changing (AnalyticsLedger * CancellationToken) AnalyticsJobError Z :=
  _ ← on_snd check_token;
  did ← on_fst (on_record job_id (expire_record now));
  mret (if (did : bool) then expired + 1 else expired).

Definition expire_leases_with_cancellation (now : JobTimestamp) (budget : Z)
    : changing (AnalyticsLedger * CancellationToken) AnalyticsJobError Z :=
  if budget =? 0 then raise JobBudgetExhausted
  else
    _ ← on_snd check_token;
    self ← on_fst get;
    cfor (expire_job now) (take (Z.to_nat budget) (keys (al_jobs self))) 0.

Definition with_new_token {A} (m : changing (AnalyticsLedger * CancellationToken) AnalyticsJobError A)
    : ledgering A := λ self,
  match m (self, new_token) with (r, (self, _)) => (r, self) end.
Definition expire_leases (now : JobTimestamp) (budget : Z) : ledgering Z :=
  with_new_token (expire_leases_with_cancellation now budget).

(** ** Pins *)

Definition is_ended (state : AnalyticsJobState) : bool :=
  match state with JsSucceeded _ | JsFailed _ _ | JsCancelled | JsTombstoned => true | _ => false end.

Definition pin_artifact (job_id : AnalyticsJobId) (kind : ArtifactKind) (generation : Z) (expected : JobCas)
    (now : JobTimestamp) : ledgering unit :=
  on_record job_id (
    record ← get;
    _ ← of_result (check_cas record expected);
    if bool_decide (jr_state record = JsTombstoned) then raise JobInvalidTransition
    else if bool_decide (jr_artifacts record !! (kind, generation) = None) then raise JobArtifactMismatch
    else modify (λ r, touch now (set_pins ({[(kind, generation)]} ∪ jr_pins r) r))).

Definition unpin_artifact (job_id : AnalyticsJobId) (kind : ArtifactKind) (generation : Z) (expected : JobCas)
    (now : JobTimestamp) : ledgering unit :=
  on_record job_id (
    record ← get;
    _ ← of_result (check_cas record expected);
    if negb (is_ended (jr_state record)) then raise JobInvalidTransition
    else if now <? js_retention_until (jr_spec record) then raise JobRetentionActive
    else if negb (is_pinned record kind generation) then raise JobArtifactMismatch
    else modify (λ r, touch now (set_pins (jr_pins r ∖ {[(kind, generation)]}) r))).

(** ** Collection of artifacts *)

(** Over the artifacts of a job: [inl] goes on with the number of steps so far, [inr] returns. *)
Fixpoint scan_artifacts (job_id : AnalyticsJobId) (record : AnalyticsJobRecord) (scan_budget : Z)
    (artifacts : list ((ArtifactKind * Z) * AnalyticsArtifactManifest)) (scanned : Z)
    : changing CancellationToken AnalyticsJobError (Z + option AnalyticsGcCandidate) :=
  match artifacts with
  | [] => mret (inl scanned)
  | (key, manifest) :: artifacts =>
      _ ← check_token;
      if scanned =? scan_budget then mret (inr None)
      else if negb (bool_decide (key ∈ jr_pins record))
      then mret (inr (Some (mkCandidate job_id (cas record) manifest)))
      else scan_artifacts job_id record scan_budget artifacts (scanned + 1)
  end.

Fixpoint scan_jobs (now : JobTimestamp) (scan_budget : Z) (jobs : list (AnalyticsJobId * AnalyticsJobRecord))
    (scanned : Z) : changing CancellationToken AnalyticsJobError (option AnalyticsGcCandidate) :=
  match jobs with
  | [] => mret None
  | (job_id, record) :: jobs =>
      _ ← check_token;
      if scanned =? scan_budget then mret None
      else if (now <? js_retention_until (jr_spec record)) || negb (is_ended (jr_state record))
      then scan_jobs now scan_budget jobs (scanned + 1)
      else
        found ← scan_artifacts job_id record scan_budget (entries_by artifact_key_leb (jr_artifacts record)) (scanned + 1);
        match found with
        | inl scanned => scan_jobs now scan_budget jobs scanned
        | inr candidate => mret candidate
        end
  end.

Definition next_gc_candidate (self : AnalyticsLedger) (now : JobTimestamp) (scan_budget : Z)
    : changing CancellationToken AnalyticsJobError (option AnalyticsGcCandidate) :=
  if scan_budget =? 0 then raise JobBudgetExhausted
  else scan_jobs now scan_budget (entries (al_jobs self)) 0.

Definition acknowledge_artifact_reclaimed (candidate : AnalyticsGcCandidate) (now : JobTimestamp) : ledgering unit :=
  on_record (gc_job_id candidate) (
    record ← get;
    _ ← of_result (check_cas record (gc_expected candidate));
    let key := (am_kind (gc_manifest candidate), am_generation (gc_manifest candidate)) in
    if bool_decide (key ∈ jr_pins record) || negb (bool_decide (jr_artifacts record !! key = Some (gc_manifest candidate)))
    then raise JobArtifactMismatch
    else modify (λ r, touch now (set_artifacts (delete key (jr_artifacts r)) r))).

(** The [while] ends after [budget] rounds at the latest, one for each manifest that is pushed. *)
Fixpoint collect_rounds (now : JobTimestamp) (scan_budget : Z) (rounds : nat)
    (reclaimed : list AnalyticsArtifactManifest)
    : changing (AnalyticsLedger * CancellationToken) AnalyticsJobError (list AnalyticsArtifactManifest) :=
  match rounds with
  | O => mret reclaimed
  | S rounds =>
      self ← on_fst get;
      found ← on_snd (next_gc_candidate self now scan_budget);
      match found with
      | None => mret reclaimed
      | Some candidate =>
          _ ← on_fst (acknowledge_artifact_reclaimed candidate now);
          collect_rounds now scan_budget rounds (reclaimed ++ [gc_manifest candidate])
      end
  end.

Definition garbage_collect_with_cancellation (now : JobTimestamp) (budget : Z)
    : changing (AnalyticsLedger * CancellationToken) AnalyticsJobError (list AnalyticsArtifactManifest) :=
  if budget =? 0 then raise JobBudgetExhausted
  else
    _ ← on_snd check_token;
    let scan_budget := Z.max (saturating_mul budget 64) 2 in
    collect_rounds now scan_budget (Z.to_nat budget) [].
Definition garbage_collect (now : JobTimestamp) (budget : Z) : ledgering (list AnalyticsArtifactManifest) :=
  with_new_token (garbage_collect_with_cancellation now budget).

Definition tombstone (job_id : AnalyticsJobId) (expected : JobCas) (now : JobTimestamp) : ledgering unit :=
  on_record job_id (
    record ← get;
    _ ← of_result (check_cas record expected);
    if now <? js_retention_until (jr_spec record) then raise JobRetentionActive
    else if negb (bool_decide (jr_pins record = ∅)) then raise JobArtifactPinned
    else
      match jr_state record with
      | JsSucceeded _ | JsFailed _ _ | JsCancelled => modify (λ r, set_state JsTombstoned (touch now r))
      | _ => raise JobInvalidTransition
      end).
