(* ===== verification/JobMoves.v ===== *)
(** * What the ledger may do to a job

    The life of a job as a relation between records, and the refinement: every operation of the ledger,
    also one that fails half way, does to each record a number of these moves.  Invariants are then proved
    of the moves.  A run counts its moves, because the counters of a record are [u64]. *)

From S2P Require Import Prelude Text Kernel Effects Projection Analytics Jobs JobLedger.
Open Scope Z_scope.

(** ** The moves of a job *)

Definition with_artifact (kind : ArtifactKind) (manifest : AnalyticsArtifactManifest) (now : JobTimestamp)
    (r : AnalyticsJobRecord) : AnalyticsJobRecord := (record_artifact kind manifest now r).2.

(** What a run leaves when it loses its lease. *)
Definition fenced_state (r : AnalyticsJobRecord) (state : AnalyticsJobState) : Prop :=
  match state with
  | JsQueued => is_Some (state_lease_epoch (jr_state r)) ∧ jr_attempts r < js_max_attempts (jr_spec r)
  | JsFailed _ code => is_Some (state_lease_epoch (jr_state r)) ∧ 0 < Z.of_nat (String.length code) ≤ 256
  | JsCancelled => True
  | _ => False
  end.

Inductive moves (now : JobTimestamp) (r : AnalyticsJobRecord) : AnalyticsJobRecord → Prop :=
| mv_claim worker expires_at :
    jr_state r = JsQueued → jr_attempts r < js_max_attempts (jr_spec r) → jr_lease_epoch r + 1 < 2 ^ 64 →
    moves now r (set_state (JsClaimed worker (jr_lease_epoch r + 1) expires_at)
      (touch now (set_attempts (jr_attempts r + 1) (set_lease_epoch (jr_lease_epoch r + 1) r))))
| mv_begin worker lease_epoch expires_at expires_at' :
    jr_state r = JsClaimed worker lease_epoch expires_at →
    moves now r (set_state (JsRunning worker lease_epoch expires_at' (last_checkpoint (jr_artifacts r))) (touch now r))
| mv_renew_claimed worker lease_epoch expires_at expires_at' :
    jr_state r = JsClaimed worker lease_epoch expires_at →
    moves now r (touch now (set_state (JsClaimed worker lease_epoch expires_at') r))
| mv_renew_running worker lease_epoch expires_at checkpoint expires_at' :
    jr_state r = JsRunning worker lease_epoch expires_at checkpoint →
    moves now r (touch now (set_state (JsRunning worker lease_epoch expires_at' checkpoint) r))
| mv_checkpoint worker lease_epoch expires_at checkpoint manifest state :
    jr_state r = JsRunning worker lease_epoch expires_at checkpoint →
    validate_for manifest (jr_spec r) lease_epoch Checkpoint = Ok tt →
    am_generation manifest = jr_next_artifact_generation r →
    (* the second when the new expiry overflows *)
    (∃ expires_at', state = JsRunning worker lease_epoch expires_at' (Some (am_generation manifest))) ∨
      state = jr_state r →
    moves now r (set_state state (with_artifact Checkpoint manifest now r))
| mv_publish worker lease_epoch expires_at checkpoint manifest :
    jr_state r = JsRunning worker lease_epoch expires_at checkpoint →
    validate_for manifest (jr_spec r) lease_epoch ResultArtifact = Ok tt →
    am_generation manifest = jr_next_artifact_generation r →
    moves now r (set_state (JsSucceeded (am_generation manifest)) (with_artifact ResultArtifact manifest now r))
| mv_fence state :
    is_ended (jr_state r) = false → fenced_state r state →
    moves now r (set_state state (touch now (fence_off r)))
| mv_pin key :
    is_Some (jr_artifacts r !! key) → jr_state r ≠ JsTombstoned →
    moves now r (touch now (set_pins ({[key]} ∪ jr_pins r) r))
| mv_unpin key :
    is_ended (jr_state r) = true → js_retention_until (jr_spec r) ≤ now → key ∈ jr_pins r →
    moves now r (touch now (set_pins (jr_pins r ∖ {[key]}) r))
| mv_reclaim key :
    is_ended (jr_state r) = true → js_retention_until (jr_spec r) ≤ now → key ∉ jr_pins r →
    is_Some (jr_artifacts r !! key) →
    moves now r (touch now (set_artifacts (delete key (jr_artifacts r)) r))
| mv_tombstone :
    is_ended (jr_state r) = true → jr_state r ≠ JsTombstoned → js_retention_until (jr_spec r) ≤ now →
    jr_pins r = ∅ →
    moves now r (set_state JsTombstoned (touch now r)).

(** A step of the ledger: a job is submitted, or one job moves. *)
Definition set_job (job_id : AnalyticsJobId) (r : AnalyticsJobRecord) (self : AnalyticsLedger) : AnalyticsLedger :=
  mkJobLedger (al_lease_duration self) (<[job_id := r]> (al_jobs self)).

Inductive ledger_steps (now : JobTimestamp) : Z → AnalyticsLedger → AnalyticsLedger → Prop :=
| ls_refl self : ledger_steps now 0 self self
| ls_move n self self' job_id r r' :
    ledger_steps now n self self' → al_jobs self' !! job_id = Some r → moves now r r' →
    ledger_steps now (n + 1) self (set_job job_id r' self').

(** ** The calls *)

Inductive job_call :=
| CSubmit (spec : AnalyticsJobSpec)
| CClaim (job_id : AnalyticsJobId) (worker : WorkerId) (expected : JobCas)
| CBegin (lease : JobLease)
| CRenew (lease : JobLease)
| CCheckpoint (lease : JobLease) (manifest : AnalyticsArtifactManifest)
| CPublish (lease : JobLease) (manifest : AnalyticsArtifactManifest)
| CFail (lease : JobLease) (retryable : bool) (code : string)
| CCancel (job_id : AnalyticsJobId) (expected : JobCas)
| CExpire (budget : Z) (cancellation : CancellationToken)
| CPin (job_id : AnalyticsJobId) (kind : ArtifactKind) (generation : Z) (expected : JobCas)
| CUnpin (job_id : AnalyticsJobId) (kind : ArtifactKind) (generation : Z) (expected : JobCas)
| CReclaim (candidate : AnalyticsGcCandidate)
| CCollect (budget : Z) (cancellation : CancellationToken)
| CTombstone (job_id : AnalyticsJobId) (expected : JobCas).

(** The ledger after a call, whatever it answers. *)
Definition after (call : job_call) (now : JobTimestamp) (self : AnalyticsLedger) : AnalyticsLedger :=
  match call with
  | CSubmit spec => (submit spec now self).2
  | CClaim job_id worker expected => (claim job_id worker now expected self).2
  | CBegin lease => (begin lease now self).2
  | CRenew lease => (renew lease now self).2
  | CCheckpoint lease manifest => (checkpoint lease manifest now self).2
  | CPublish lease manifest => (publish_result lease manifest now self).2
  | CFail lease retryable code => (fail lease retryable code now self).2
  | CCancel job_id expected => (cancel job_id expected now self).2
  | CExpire budget token => (expire_leases_with_cancellation now budget (self, token)).2.1
  | CPin job_id kind generation expected => (pin_artifact job_id kind generation expected now self).2
  | CUnpin job_id kind generation expected => (unpin_artifact job_id kind generation expected now self).2
  | CReclaim candidate => (acknowledge_artifact_reclaimed candidate now self).2
  | CCollect budget token => (garbage_collect_with_cancellation now budget (self, token)).2.1
  | CTombstone job_id expected => (tombstone job_id expected now self).2
  end.

(** At most so many moves. *)
Definition cost (call : job_call) (self : AnalyticsLedger) : Z :=
  match call with
  | CExpire _ _ => Z.of_nat (size (al_jobs self))
  | CCollect budget _ => Z.max budget 0
  | _ => 1
  end.

(** A candidate is one the ledger has just offered; specifications are those [AnalyticsJobSpec::new] builds. *)
Definition admissible (blake3 : bytes → Digest32) (call : job_call) (now : JobTimestamp) (self : AnalyticsLedger) : Prop :=
  match call with
  | CSubmit spec => spec_built blake3 spec
  | CReclaim candidate =>
      ∃ scan_budget token token', next_gc_candidate self now scan_budget token = (Ok (Some candidate), token')
  | _ => True
  end.

(** ** The refinement *)

(** One record: no change or one move. *)
Definition one_move (now : JobTimestamp) (r r' : AnalyticsJobRecord) : Prop := r' = r ∨ moves now r r'.

Lemma check_cas_ok r expected :
  check_cas r expected = Ok tt →
  jr_revision r = jc_revision expected ∧ jr_lease_epoch r = jc_lease_epoch expected ∧
  state_kind (jr_state r) = jc_state expected.
Proof.
  unfold check_cas. destruct (_ =? _) eqn:Hr; [|done]. destruct (jr_lease_epoch r =? _) eqn:He; [|done].
  destruct (bool_decide _) eqn:Hs; [|done]. apply bool_decide_eq_true in Hs. intros _. split_and!; [lia..|done].
Qed.

Lemma check_active_ok r lease now :
  check_active r lease now = Ok tt →
  ∃ expires_at,
    ((jr_state r = JsClaimed (jl_worker lease) (jl_lease_epoch lease) expires_at) ∨
     (∃ checkpoint, jr_state r = JsRunning (jl_worker lease) (jl_lease_epoch lease) expires_at checkpoint)) ∧
    jr_revision r = jl_revision lease ∧ now < expires_at.
Proof.
  unfold check_active. destruct (jr_state r) as [|w e x|w e x c|g|b c| |]; try done.
  all: destruct (_ || _) eqn:Hlease; [done|]; apply orb_false_iff in Hlease as [He Hw].
  all: destruct (jr_revision r =? _) eqn:Hrev; [|done]; destruct (x <=? now) eqn:Hx; [done|]; intros _.
  all: apply negb_false_iff, Z.eqb_eq in He as ->; apply negb_false_iff, Z.eqb_eq in Hw as ->.
  all: exists x; split; [eauto|lia].
Qed.

Definition few_steps (now : JobTimestamp) (n : Z) (self self' : AnalyticsLedger) : Prop :=
  ∃ k, 0 ≤ k ≤ n ∧ ledger_steps now k self self'.

Lemma few_steps_refl now n self : 0 ≤ n → few_steps now n self self.
Proof. exists 0. split; [lia|constructor]. Qed.
Lemma few_steps_step now n self self' job_id r r' :
  few_steps now n self self' → al_jobs self' !! job_id = Some r → one_move now r r' →
  few_steps now (n + 1) self (set_job job_id r' self').
Proof.
  intros (k & Hk & Hsteps) Hr [->|Hmove].
  - exists k. split; [lia|]. unfold set_job. rewrite insert_id by done. by destruct self'.
  - exists (k + 1). split; [lia|]. by eapply ls_move.
Qed.

(** The record a call works on. *)
Lemma on_record_steps {A} now self job_id (m : recording A) :
  (∀ r, al_jobs self !! job_id = Some r → one_move now r (m r).2) →
  few_steps now 1 self (on_record job_id m self).2.
Proof.
  intros Hm. unfold on_record. destruct (al_jobs self !! job_id) as [r|] eqn:Hr; [|by apply few_steps_refl].
  specialize (Hm r eq_refl). destruct (m r) as [a r'].
  by apply (few_steps_step now 0 self self job_id r r'); [apply few_steps_refl| |].
Qed.

Lemma check_cas_steps {A} now self job_id expected (k : AnalyticsJobRecord → recording A) :
  (∀ r, al_jobs self !! job_id = Some r → check_cas r expected = Ok tt → one_move now r (k r r).2) →
  few_steps now 1 self (on_record job_id (record ← get; _ ← of_result (check_cas record expected); k record) self).2.
Proof.
  intros Hk. apply on_record_steps. intros r Hr. run.
  destruct (check_cas r expected) as [[]|e] eqn:Hcas; cbn; [by apply Hk|by left].
Qed.
Lemma active_steps {A} now self lease (m : recording A) :
  (∀ r, al_jobs self !! jl_job_id lease = Some r → check_active r lease now = Ok tt → one_move now r (m r).2) →
  few_steps now 1 self (active_record_mut lease now m self).2.
Proof.
  intros Hm. apply on_record_steps. intros r Hr. run.
  destruct (check_active r lease now) as [[]|e] eqn:Hactive; cbn; [by apply Hm|by left].
Qed.

Lemma claim_steps now self job_id worker expected : few_steps now 1 self (claim job_id worker now expected self).2.
Proof.
  unfold claim. run. destruct (timestamp_add _ _) as [expires_at|e]; [|by apply few_steps_refl].
  apply check_cas_steps. intros r Hr _. case_bool_decide as Hqueued; [|by left]. cbn.
  destruct (_ <=? _) eqn:Hattempts; [by left|]. cbn. unfold checked_succ.
  destruct (_ <? _) eqn:Hepoch; cbn; [|by left]. right. apply mv_claim; [done|lia..].
Qed.
Lemma begin_steps now self lease : few_steps now 1 self (begin lease now self).2.
Proof.
  apply active_steps. intros r Hr (x & Hstate & _)%check_active_ok. run.
  destruct Hstate as [Hstate|[c Hstate]]; rewrite Hstate; cbn; [right; by eapply mv_begin|by left].
Qed.
Lemma renew_steps now self lease : few_steps now 1 self (renew lease now self).2.
Proof.
  unfold renew. run. destruct (timestamp_add _ _) as [expires_at|e]; [|by apply few_steps_refl].
  apply active_steps. intros r Hr (x & Hstate & _)%check_active_ok. run.
  destruct Hstate as [Hstate|[c Hstate]]; rewrite Hstate; cbn; right;
    [by eapply mv_renew_claimed|by eapply mv_renew_running].
Qed.

Lemma validate_artifact_ok r lease manifest kind :
  validate_artifact r lease manifest kind = Ok tt →
  validate_for manifest (jr_spec r) (jl_lease_epoch lease) kind = Ok tt ∧
  am_generation manifest = jr_next_artifact_generation r.
Proof.
  unfold validate_artifact. destruct (validate_for _ _ _ _) as [[]|e]; cbn; [|done].
  destruct (_ =? _) eqn:Hg; cbn; [|done]. intros _. split; [done|lia].
Qed.
(** Recording an artifact does not look at the state it leaves. *)
Lemma record_artifact_run kind manifest now r :
  record_artifact kind manifest now r = (Ok tt, with_artifact kind manifest now r).
Proof. unfold with_artifact, record_artifact. run. by destruct (jr_state r) as [| |? ? ? [?|]| | | |]. Qed.
Lemma with_artifact_state kind manifest now r :
  set_state (jr_state r) (with_artifact kind manifest now r) = with_artifact kind manifest now r.
Proof.
  unfold with_artifact, record_artifact. run. destruct r as [? state]; cbn.
  by destruct state as [| |? ? ? [?|]| | | |].
Qed.

Lemma checkpoint_steps now self lease manifest : few_steps now 1 self (checkpoint lease manifest now self).2.
Proof.
  unfold checkpoint. run. apply active_steps. intros r Hr (x & Hstate & _)%check_active_ok. run.
  destruct Hstate as [Hstate|[c Hstate]]; rewrite Hstate; run; [by left|].
  destruct (validate_artifact _ _ _ _) as [[]|e] eqn:Hvalid; [|by left].
  apply validate_artifact_ok in Hvalid as [Hvalid Hgeneration].
  rewrite record_artifact_run. right.
  destruct (timestamp_add _ _) as [expires_at|e]; run.
  - eapply mv_checkpoint; eauto.
  - rewrite <-with_artifact_state. eapply mv_checkpoint; eauto.
Qed.
Lemma publish_steps now self lease manifest : few_steps now 1 self (publish_result lease manifest now self).2.
Proof.
  apply active_steps. intros r Hr (x & Hstate & _)%check_active_ok. run.
  destruct Hstate as [Hstate|[c Hstate]]; rewrite Hstate; run; [by left|].
  destruct (validate_artifact _ _ _ _) as [[]|e] eqn:Hvalid; [|by left].
  apply validate_artifact_ok in Hvalid as [Hvalid Hgeneration].
  rewrite record_artifact_run. right. by eapply mv_publish.
Qed.
Lemma fail_steps now self lease retryable code : few_steps now 1 self (fail lease retryable code now self).2.
Proof.
  unfold fail. destruct (_ || _) eqn:Hcode; [by apply few_steps_refl|].
  apply orb_false_iff in Hcode as [Hcode Hlong]. apply bool_decide_eq_false in Hcode.
  assert (0 < Z.of_nat (String.length code) ≤ 256) as Hlen.
  { apply Z.ltb_ge in Hlong. destruct code; [done|]. cbn [String.length] in *. lia. }
  apply active_steps. intros r Hr (x & Hstate & _)%check_active_ok. run.
  assert (is_Some (state_lease_epoch (jr_state r)) ∧ is_ended (jr_state r) = false) as [Hsome Hended].
  { destruct Hstate as [->|[c ->]]; cbn; eauto. }
  destruct (retryable && _) eqn:Hretry; right; apply mv_fence; try done; cbn.
  apply andb_true_iff in Hretry as [_ Hretry]. split; [done|lia].
Qed.
Lemma cancel_steps now self job_id expected : few_steps now 1 self (cancel job_id expected now self).2.
Proof.
  apply check_cas_steps. intros r Hr _. destruct (jr_state r) eqn:Hstate; run; try (by left).
  all: right; apply mv_fence; [by rewrite Hstate|done].
Qed.
Lemma pin_steps now self job_id kind generation expected :
  few_steps now 1 self (pin_artifact job_id kind generation expected now self).2.
Proof.
  apply check_cas_steps. intros r Hr _. case_bool_decide; [by left|]. case_bool_decide as Hnone; [by left|].
  right. apply mv_pin; [by apply not_eq_None_Some|done].
Qed.
Lemma unpin_steps now self job_id kind generation expected :
  few_steps now 1 self (unpin_artifact job_id kind generation expected now self).2.
Proof.
  apply check_cas_steps. intros r Hr _. destruct (is_ended _) eqn:Hended; [|by left]. cbn.
  destruct (_ <? _) eqn:Hretention; [by left|]. unfold is_pinned. case_bool_decide; [|by left].
  right. apply mv_unpin; [done|lia|done].
Qed.
Lemma tombstone_steps now self job_id expected : few_steps now 1 self (tombstone job_id expected now self).2.
Proof.
  apply check_cas_steps. intros r Hr _. destruct (_ <? _) eqn:Hretention; [by left|].
  case_bool_decide; [|by left]. cbn. destruct (jr_state r) eqn:Hstate; try (by left).
  all: right; apply mv_tombstone; [by rewrite Hstate..|lia|done].
Qed.

Lemma expire_record_move now r : one_move now r (expire_record now r).2.
Proof.
  unfold expire_record. run. destruct (jr_state r) as [|w e x|w e x c|g|b c| |] eqn:Hstate; try (by left).
  all: destruct (_ <? _); [by left|]; right; apply mv_fence; [by rewrite Hstate|].
  all: destruct (_ <? _) eqn:Hattempts; cbn; rewrite Hstate; cbn; (split; [done|lia]).
Qed.

(** ** Loops over the jobs *)

Lemma few_steps_weaken now n n' self self' : few_steps now n self self' → n ≤ n' → few_steps now n' self self'.
Proof. intros (k & Hk & Hs) Hn. exists k. split; [lia|done]. Qed.
Lemma ledger_steps_trans now n m self self' self'' :
  ledger_steps now n self self' → ledger_steps now m self' self'' → ledger_steps now (n + m) self self''.
Proof.
  intros H1. induction 1 as [|m self0 self1 job_id r r' _ IH Hr Hmove]; [by rewrite Z.add_0_r|].
  rewrite Z.add_assoc. eapply ls_move; eauto.
Qed.
Lemma few_steps_trans now n m self self' self'' :
  few_steps now n self self' → few_steps now m self' self'' → few_steps now (n + m) self self''.
Proof.
  intros (k & Hk & H1) (l & Hl & H2). exists (k + l). split; [lia|by eapply ledger_steps_trans].
Qed.

Lemma triple_true {S E A} (m : changing S E A) P : triple P m (λ _ _, True) (λ _ _, True).
Proof. intros s _. by destruct (m s) as [[]]. Qed.

(** A call on the ledger alone, beside a token. *)
Lemma triple_steps {A} now n m self (op : ledgering A) :
  (∀ self', few_steps now m self' (op self').2) →
  triple (λ s : AnalyticsLedger * CancellationToken, few_steps now n self s.1) (on_fst op)
    (λ _ s, few_steps now (n + m) self s.1) (λ _ s, few_steps now (n + m) self s.1).
Proof.
  intros Hop. apply triple_fst. intros token self' Hs. cbn in Hs. specialize (Hop self').
  destruct (op self') as [[a|e] self'']; cbn in *; by eapply few_steps_trans.
Qed.
Lemma triple_token {A} now n self (m : changing CancellationToken AnalyticsJobError A) :
  triple (λ s : AnalyticsLedger * CancellationToken, few_steps now n self s.1) (on_snd m)
    (λ _ s, few_steps now n self s.1) (λ _ s, few_steps now n self s.1).
Proof.
  apply triple_snd. intros self'. cbn. intros token Hs. by destruct (m token) as [[a|e] token'].
Qed.

Lemma length_keys {V} (m : gmap Z V) : length (keys m) = size m.
Proof. unfold keys. rewrite length_fmap. apply length_entries. Qed.

(** The state after a run that starts in [s]. *)
Lemma triple_state {S E A} (P I : S → Prop) (m : changing S E A) s :
  triple P m (λ _, I) (λ _, I) → P s → I (m s).2.
Proof. intros Hm Hs. specialize (Hm s Hs). by destruct (m s) as [[]]. Qed.

Lemma expire_steps now budget self token :
  few_steps now (Z.of_nat (size (al_jobs self))) self (expire_leases_with_cancellation now budget (self, token)).2.1.
Proof.
  unfold expire_leases_with_cancellation. destruct (budget =? 0); [apply few_steps_refl; lia|]. run.
  unfold on_snd. cbn. destruct (check_token token) as [[[]|e] token']; cbn; [|apply few_steps_refl; lia].
  set (ids := take _ _).
  assert (Z.of_nat (length ids) ≤ Z.of_nat (size (al_jobs self))) as Hids.
  { unfold ids. rewrite length_take, length_keys. lia. }
  clearbody ids.
  apply (triple_state (λ s, few_steps now 0 self s.1) (λ s, few_steps now (Z.of_nat (size (al_jobs self))) self s.1)
    (cfor (expire_job now) ids 0)); [|by apply few_steps_refl].
  eapply triple_mono; [apply (triple_for (λ pre _ s, few_steps now (Z.of_nat (length pre)) self s.1)
    (expire_job now) ids 0 (λ _ s, few_steps now (Z.of_nat (length ids)) self s.1))|done| |].
  2, 3: intros ? s Hs; cbn beta in Hs; eapply few_steps_weaken; [exact Hs|lia].
  intros pre job_id post expired ->. unfold expire_job. rewrite length_app in *. cbn [length] in *.
  eapply (triple_bind _ _ _ (λ _ s, few_steps now (Z.of_nat (length pre)) self s.1));
    [eapply triple_mono; [apply (triple_token now (Z.of_nat (length pre)) self)|done|done|]|].
  { intros e s Hs. eapply few_steps_weaken; [exact Hs|rewrite length_app; cbn; lia]. }
  intros _. eapply (triple_bind _ _ _ (λ _ s, few_steps now (Z.of_nat (length pre) + 1) self s.1));
    [eapply triple_mono; [apply (triple_steps now (Z.of_nat (length pre)) 1 self)|done|done|]|].
  { intros self'. apply on_record_steps. intros r _. apply expire_record_move. }
  { intros e s Hs. eapply few_steps_weaken; [exact Hs|rewrite length_app; cbn; lia]. }
  intros did. apply triple_ret. intros s Hs. cbn in Hs. cbn.
  eapply few_steps_weaken; [exact Hs|lia].
Qed.

(** ** Collection *)

(** What may be deleted: an artifact nobody pins, of a job that has ended, after its retention. *)
Definition reclaimable (now : JobTimestamp) (r : AnalyticsJobRecord) (key : ArtifactKind * Z)
    (manifest : AnalyticsArtifactManifest) : Prop :=
  is_ended (jr_state r) = true ∧ js_retention_until (jr_spec r) ≤ now ∧ key ∉ jr_pins r ∧
  jr_artifacts r !! key = Some manifest.

Definition offered (now : JobTimestamp) (jobs : list (AnalyticsJobId * AnalyticsJobRecord))
    (candidate : option AnalyticsGcCandidate) : Prop :=
  match candidate with
  | Some candidate =>
      ∃ r key, (gc_job_id candidate, r) ∈ jobs ∧ gc_expected candidate = cas r ∧
        reclaimable now r key (gc_manifest candidate)
  | None => True
  end.

Lemma scan_artifacts_offers now job_id r scan_budget artifacts scanned :
  is_ended (jr_state r) = true → js_retention_until (jr_spec r) ≤ now →
  (∀ key manifest, (key, manifest) ∈ artifacts → jr_artifacts r !! key = Some manifest) →
  triple (λ _, True) (scan_artifacts job_id r scan_budget artifacts scanned)
    (λ found _, match found with inr candidate => offered now [(job_id, r)] candidate | inl _ => True end) (λ _ _, True).
Proof.
  intros Hended Hretention. revert scanned.
  induction artifacts as [|[key manifest] artifacts IH]; intros scanned Hin; cbn; [by apply triple_ret|].
  eapply triple_bind; [apply triple_true|]. intros []. destruct (_ =? _); [by apply triple_ret|].
  case_bool_decide as Hpin; cbn.
  - apply IH. intros k m Hm. apply Hin. by right.
  - apply triple_ret. intros s _. exists r, key. cbn. split; [by apply list_elem_of_singleton|].
    split; [done|]. split_and!; [done..|]. apply Hin. by left.
Qed.

Lemma scan_jobs_offers now scan_budget jobs scanned :
  triple (λ _, True) (scan_jobs now scan_budget jobs scanned) (λ found _, offered now jobs found) (λ _ _, True).
Proof.
  assert (∀ job jobs found, offered now jobs found → offered now (job :: jobs) found) as Hmore.
  { intros job jobs' [c|]; [|done]. intros (r & key & Hin & Hr). exists r, key. split; [by right|done]. }
  revert scanned. induction jobs as [|[job_id r] jobs IH]; intros scanned; cbn; [by apply triple_ret|].
  eapply triple_bind; [apply triple_true|]. intros []. destruct (_ =? _); [by apply triple_ret|].
  destruct (_ || _) eqn:Hskip.
  { eapply triple_mono; [apply IH|done|intros; by apply Hmore|done]. }
  apply orb_false_iff in Hskip as [Hretention Hended]. apply negb_false_iff in Hended.
  eapply triple_bind; [apply (scan_artifacts_offers now); [done|lia|]|].
  { intros key manifest Hin. by apply entries_by_elem_of in Hin. }
  intros [scanned'|candidate]; cbn.
  - eapply triple_mono; [apply IH|done|intros; by apply Hmore|done].
  - apply triple_ret. intros s. destruct candidate as [c|]; [|done]. intros (r' & key & Hin & Hr).
    exists r', key. split; [|done]. apply list_elem_of_singleton in Hin. rewrite Hin. by left.
Qed.

Lemma next_gc_candidate_offers self now scan_budget token candidate token' :
  next_gc_candidate self now scan_budget token = (Ok (Some candidate), token') →
  ∃ r key, al_jobs self !! gc_job_id candidate = Some r ∧ gc_expected candidate = cas r ∧
    reclaimable now r key (gc_manifest candidate).
Proof.
  unfold next_gc_candidate. destruct (_ =? _); [done|]. intros Hrun.
  pose proof (scan_jobs_offers now scan_budget (entries (al_jobs self)) 0 token I) as Ho. rewrite Hrun in Ho.
  destruct Ho as (r & key & Hin%elem_of_entries & Hr). by exists r, key.
Qed.

Lemma reclaim_steps self now scan_budget token candidate token' :
  next_gc_candidate self now scan_budget token = (Ok (Some candidate), token') →
  few_steps now 1 self (acknowledge_artifact_reclaimed candidate now self).2.
Proof.
  intros (r & key & Hr & Hcas & Hended & Hretention & _)%next_gc_candidate_offers.
  apply check_cas_steps. intros r' Hr' _. simplify_eq. cbn. case_bool_decide; [by left|].
  case_bool_decide as Hlook; [|by left]. right. apply mv_reclaim; by eauto.
Qed.

Lemma collect_rounds_steps now scan_budget rounds : ∀ reclaimed self token,
  few_steps now (Z.of_nat rounds) self (collect_rounds now scan_budget rounds reclaimed (self, token)).2.1.
Proof.
  induction rounds as [|rounds IH]; intros reclaimed self token; [by apply few_steps_refl|].
  cbn [collect_rounds]. run. unfold on_snd. cbn.
  destruct (next_gc_candidate self now scan_budget token) as [[[candidate|]|e] token'] eqn:Hnext;
    [|apply few_steps_refl; lia..].
  apply reclaim_steps in Hnext. unfold on_fst. cbn.
  destruct (acknowledge_artifact_reclaimed candidate now self) as [[[]|e] self']; cbn in *.
  - replace (Z.of_nat (S rounds)) with (1 + Z.of_nat rounds) by lia. by eapply few_steps_trans.
  - eapply few_steps_weaken; [done|lia].
Qed.
Lemma collect_steps now budget self token :
  few_steps now (Z.max budget 0) self (garbage_collect_with_cancellation now budget (self, token)).2.1.
Proof.
  unfold garbage_collect_with_cancellation. destruct (budget =? 0); [apply few_steps_refl; lia|]. run.
  unfold on_snd. cbn. destruct (check_token token) as [[[]|e] token']; cbn; [|apply few_steps_refl; lia].
  eapply few_steps_weaken; [apply collect_rounds_steps|lia].
Qed.
