(* ===== verification/JobSafety.v ===== *)
(** * Safety of the ledger of analytics jobs

    Over every run of calls on a ledger that started empty: the invariant of its records, the fencing of
    leases, and the retention of published results. *)

From S2P Require Import Prelude Text Kernel Effects Projection Analytics Jobs JobLedger JobMoves.
Open Scope Z_scope.

(** ** Runs *)

(** [times] are the moments at which calls are made, the number counts moves of jobs. *)
Inductive job_runs (blake3 : bytes → Digest32) (times : JobTimestamp → Prop)
    : Z → AnalyticsLedger → AnalyticsLedger → Prop :=
| job_runs_refl self : job_runs blake3 times 0 self self
| job_runs_call n self self' call now :
    job_runs blake3 times n self self' → times now → admissible blake3 call now self' →
    job_runs blake3 times (n + cost call self') self (after call now self').

Definition fresh_job (spec : AnalyticsJobSpec) (submitted_at : JobTimestamp) : AnalyticsJobRecord :=
  mkJobRecord spec JsQueued 1 0 0 1 ∅ ∅ submitted_at submitted_at.

(** A call submits a new job or moves jobs, within its cost. *)
Lemma after_steps blake3 call now self :
  admissible blake3 call now self →
  few_steps now (cost call self) self (after call now self) ∨
  ∃ spec, call = CSubmit spec ∧ spec_built blake3 spec ∧ al_jobs self !! js_id spec = None ∧
    after call now self = set_job (js_id spec) (fresh_job spec now) self.
Proof.
  destruct call; cbn [admissible cost after]; intros Hcall.
  2-14: left; eauto using claim_steps, begin_steps, renew_steps, checkpoint_steps, publish_steps, fail_steps,
    cancel_steps, expire_steps, pin_steps, unpin_steps, collect_steps, tombstone_steps.
  - unfold submit. run. destruct (al_jobs self !! js_id spec) as [existing|] eqn:Hnone; run.
    + left. case_bool_decide; by apply few_steps_refl.
    + right. by exists spec.
  - destruct Hcall as (scan_budget & token & token' & Hnext). by eapply reclaim_steps.
Qed.

(** ** Checkpoints in order *)

Lemma artifact_key_total (k l : ArtifactKind * Z) : artifact_key_leb k l = true ∨ artifact_key_leb l k = true.
Proof.
  destruct k as [[] g], l as [[] h]; unfold artifact_key_leb; cbn; repeat case_bool_decide; auto; try done; lia.
Qed.
Lemma artifact_key_trans (k l m : ArtifactKind * Z) :
  artifact_key_leb k l = true → artifact_key_leb l m = true → artifact_key_leb k m = true.
Proof.
  destruct k as [[] g], l as [[] h], m as [[] i]; unfold artifact_key_leb; cbn; repeat case_bool_decide; try done; lia.
Qed.

Lemma last_of_sorted {A} (R : A → A → Prop) (P : A → Prop) `{!∀ x, Decision (P x)} l x :
  (∀ y, R y y) → StronglySorted R l → head (filter P (reverse l)) = Some x →
  x ∈ l ∧ P x ∧ ∀ y, y ∈ l → P y → R y x.
Proof.
  intros Hrefl. induction l as [|z l IH] using rev_ind; [done|]. intros Hsorted.
  rewrite reverse_snoc, filter_cons. apply StronglySorted_app in Hsorted as (Hlast & Hl & _).
  case_decide as Hz.
  - intros [= <-]. split; [apply elem_of_app; right; by left|]. split; [done|].
    intros y [Hy| ->%list_elem_of_singleton]%elem_of_app _; [|done]. apply Hlast; [done|by left].
  - intros (Hx & HP & Hmax)%IH; [|done]. split; [by apply elem_of_app; left|]. split; [done|].
    intros y [Hy| ->%list_elem_of_singleton]%elem_of_app HPy; [by apply Hmax|done].
Qed.
Lemma last_checkpoint_some artifacts g :
  last_checkpoint artifacts = Some g →
  is_Some (artifacts !! (Checkpoint, g)) ∧ ∀ h, is_Some (artifacts !! (Checkpoint, h)) → h ≤ g.
Proof.
  assert (∀ key, key ∈ (entries_by artifact_key_leb artifacts).*1 ↔ is_Some (artifacts !! key)) as Hin.
  { intros key. rewrite list_elem_of_fmap. split.
    - intros ([key' m] & -> & Hm%entries_by_elem_of). by exists m.
    - intros [m Hm%(entries_by_elem_of artifact_key_leb)]. by exists (key, m). }
  unfold last_checkpoint. destruct (head _) as [[kind g']|] eqn:Hhead; [|done]. intros [= <-].
  apply (last_of_sorted (λ k l, artifact_key_leb k l = true)) in Hhead.
  - destruct Hhead as (Hg%Hin & Hkind & Hmax). cbn in Hkind. subst kind. split; [done|].
    intros h Hh%Hin. apply Hmax in Hh; [|done]. unfold artifact_key_leb in Hh. cbn in Hh. rewrite bool_decide_true in Hh by done. lia.
  - intros y. by destruct (artifact_key_total y y).
  - apply (StronglySorted_fmap _ (λ p q, artifact_key_leb p.1 q.1 = true)); [done|]. apply (sort_by_sorted (λ p q, artifact_key_leb p.1 q.1)).
    + intros x y. apply artifact_key_total.
    + intros x y z. apply artifact_key_trans.
Qed.

(** ** What recording an artifact changes *)

Definition dropped_pin (state : AnalyticsJobState) : gset (ArtifactKind * Z) :=
  match state with JsRunning _ _ _ (Some previous) => {[(Checkpoint, previous)]} | _ => ∅ end.

Lemma with_artifact_eq kind manifest now r :
  with_artifact kind manifest now r =
  mkJobRecord (jr_spec r) (jr_state r) (wrapping_succ (jr_revision r)) (jr_lease_epoch r) (jr_attempts r)
    (wrapping_succ (jr_next_artifact_generation r)) (<[(kind, am_generation manifest) := manifest]> (jr_artifacts r))
    ({[(kind, am_generation manifest)]} ∪ jr_pins r ∖ dropped_pin (jr_state r)) (jr_submitted_at r) now.
Proof.
  unfold with_artifact, record_artifact. run. destruct r as [? state]. cbn.
  destruct state as [| |? ? ? [?|]| | | |]; cbn; unfold touch, set_pins; cbn; f_equal.
  all: by rewrite difference_empty_L.
Qed.

(** ** The invariant of a record, after at most [n] moves *)

Record job_ok (blake3 : bytes → Digest32) (n : Z) (job_id : AnalyticsJobId) (r : AnalyticsJobRecord) : Prop := {
  jo_spec : spec_built blake3 (jr_spec r);
  jo_id : js_id (jr_spec r) = job_id;
  (* it never runs more often than it may, and a queued job may run *)
  jo_attempts : 0 ≤ jr_attempts r ≤ js_max_attempts (jr_spec r);
  jo_queued : jr_state r = JsQueued → jr_attempts r < js_max_attempts (jr_spec r);
  (* the lease in force carries the epoch of the record *)
  jo_lease : ∀ e, state_lease_epoch (jr_state r) = Some e → e = jr_lease_epoch r ∧ 0 < e;
  jo_epoch : jr_attempts r ≤ jr_lease_epoch r ≤ n;
  jo_revision : 1 ≤ jr_revision r ≤ 1 + n;
  jo_generation : 1 ≤ jr_next_artifact_generation r ≤ 1 + n;
  (* artifacts are filed under their own kind and generation and belong to this job *)
  jo_artifacts : ∀ kind g m, jr_artifacts r !! (kind, g) = Some m →
    am_kind m = kind ∧ am_generation m = g ∧ describes_job m (jr_spec r) kind = true ∧
    1 ≤ g < jr_next_artifact_generation r ∧ 0 < am_lease_epoch m ≤ jr_lease_epoch r;
  jo_pins : ∀ key, key ∈ jr_pins r → is_Some (jr_artifacts r !! key);
  (* the checkpoint a further run resumes from is pinned *)
  jo_resume : is_ended (jr_state r) = false → ∀ g, last_checkpoint (jr_artifacts r) = Some g → (Checkpoint, g) ∈ jr_pins r;
  jo_checkpoint : ∀ w e x g, jr_state r = JsRunning w e x (Some g) → is_Some (jr_artifacts r !! (Checkpoint, g));
  (* what the end of a job says *)
  jo_result : ∀ g, jr_state r = JsSucceeded g → 1 ≤ g < jr_next_artifact_generation r;
  jo_code : ∀ b code, jr_state r = JsFailed b code → 0 < Z.of_nat (String.length code) ≤ 256;
}.

Lemma job_ok_weaken blake3 n m job_id r : job_ok blake3 n job_id r → n ≤ m → job_ok blake3 m job_id r.
Proof. intros [] ?. split; try done; lia. Qed.
Lemma fresh_job_ok blake3 n spec now :
  spec_built blake3 spec → 0 ≤ n → job_ok blake3 n (js_id spec) (fresh_job spec now).
Proof.
  intros Hspec Hn. pose proof (spec_built_attempts _ _ Hspec).
  split; cbn; try done; try lia; try set_solver.
Qed.

Lemma wrapping_succ_small x : 0 ≤ x → x + 1 < 2 ^ 64 → wrapping_succ x = x + 1.
Proof. intros ??. unfold wrapping_succ. apply Z.mod_small. lia. Qed.
Lemma validate_for_ok m spec e kind :
  validate_for m spec e kind = Ok tt → describes_job m spec kind = true ∧ am_lease_epoch m = e ∧ am_kind m = kind.
Proof.
  unfold validate_for. destruct (_ && _) eqn:Hm; [|done]. apply andb_true_iff in Hm as [Hm He]. intros _.
  split_and!; [done|lia|]. unfold describes_job in Hm. rewrite !andb_true_iff in Hm.
  destruct Hm as ((((((_ & Hm) & _) & _) & _) & _) & _). by apply bool_decide_eq_true in Hm.
Qed.

(** The new artifact among the recorded ones. *)
Lemma recorded_artifact blake3 n job_id r kind m e :
  job_ok blake3 n job_id r → validate_for m (jr_spec r) e kind = Ok tt → am_generation m = jr_next_artifact_generation r →
  state_lease_epoch (jr_state r) = Some e →
  ∀ k g m', <[(kind, am_generation m) := m]> (jr_artifacts r) !! (k, g) = Some m' →
    am_kind m' = k ∧ am_generation m' = g ∧ describes_job m' (jr_spec r) k = true ∧
    1 ≤ g < jr_next_artifact_generation r + 1 ∧ 0 < am_lease_epoch m' ≤ jr_lease_epoch r.
Proof.
  intros Hok (Hd & <- & Hk)%validate_for_ok Hg He k g m' [[[= <- <-] <-]|[_ Hm]]%lookup_insert_Some.
  - pose proof (jo_generation _ _ _ _ Hok). apply (jo_lease _ _ _ _ Hok) in He. split_and!; [done|done|done|lia..].
  - apply (jo_artifacts _ _ _ _ Hok) in Hm. naive_solver lia.
Qed.
Lemma recorded_pins blake3 n job_id r kind m key :
  job_ok blake3 n job_id r → key ∈ {[(kind, am_generation m)]} ∪ jr_pins r ∖ dropped_pin (jr_state r) →
  is_Some (<[(kind, am_generation m) := m]> (jr_artifacts r) !! key).
Proof.
  intros Hok Hkey. apply lookup_insert_is_Some'. apply elem_of_union in Hkey as [->%elem_of_singleton|Hkey]; [by left|].
  right. apply elem_of_difference in Hkey as [Hkey _]. by apply (jo_pins _ _ _ _ Hok).
Qed.
Lemma recorded_checkpoint_last blake3 n job_id r m g :
  job_ok blake3 n job_id r → am_generation m = jr_next_artifact_generation r →
  last_checkpoint (<[(Checkpoint, am_generation m) := m]> (jr_artifacts r)) = Some g → g = am_generation m.
Proof.
  intros Hok Hm [[m' Hg] Hlast]%last_checkpoint_some.
  assert (am_generation m ≤ g) as Hle by (apply Hlast; rewrite lookup_insert_eq; by eexists).
  apply lookup_insert_Some in Hg as [[[=] _]|[_ Hg]]; [done|].
  apply (jo_artifacts _ _ _ _ Hok) in Hg. lia.
Qed.

Lemma moves_ok blake3 n job_id r now r' :
  job_ok blake3 n job_id r → n + 2 < 2 ^ 64 → moves now r r' → job_ok blake3 (n + 1) job_id r'.
Proof.
  intros Hok Hn Hmove. pose proof Hok as [Hspec Hid Hattempts Hqueued Hlease Hepoch Hrev Hgen Hart Hpins Hresume Hcheck Hresult Hcode].
  destruct Hmove as [w x Hs Ha He|w e x x' Hs|w e x x' Hs|w e x c x' Hs|w e x c m st Hs Hv Hg Hst|w e x c m Hs Hv Hg
    |st Hend Hst|key Hk Ht|key Hend Hret Hp|key Hend Hret Hp Hk|Hend Ht Hret Hp].
  all: (split; rewrite ?with_artifact_eq; cbn; rewrite ?wrapping_succ_small by lia; try done; try lia).
  (* claim *)
  - intros e [= <-]. lia.
  - intros k g m Hm. destruct (Hart k g m Hm) as (? & ? & ? & ? & ?). split_and!; try done; lia.
  - intros _. apply Hresume. by rewrite Hs.
  (* begin, renew *)
  - rewrite Hs in Hlease. exact Hlease.
  - intros _. apply Hresume. by rewrite Hs.
  - intros ? ? ? g [= _ _ _ Hlast]. by apply last_checkpoint_some in Hlast as [].
  - rewrite Hs in Hlease. exact Hlease.
  - intros _. apply Hresume. by rewrite Hs.
  - rewrite Hs in Hlease. exact Hlease.
  - intros _. apply Hresume. by rewrite Hs.
  - intros ? ? ? g [= _ _ _ ->]. by eapply Hcheck.
  (* checkpoint *)
  - destruct Hst as [[x' ->]| ->]; [done|by rewrite Hs].
  - rewrite Hs in Hlease. destruct Hst as [[x' ->]| ->]; [|rewrite Hs]; exact Hlease.
  - eapply recorded_artifact; [done..|by rewrite Hs].
  - intros key. by eapply recorded_pins.
  - intros _ g Hlast. eapply recorded_checkpoint_last in Hlast as ->; [|done..].
    apply elem_of_union. left. by apply elem_of_singleton.
  - intros ? ? ? g Hg'. apply lookup_insert_is_Some'. destruct Hst as [[x' ->]| ->]; [left; congruence|right].
    by eapply Hcheck.
  - intros g ->. destruct Hst as [[x' [=]]|Hst]. by rewrite Hs in Hst.
  - intros b code ->. destruct Hst as [[x' [=]]|Hst]. by rewrite Hs in Hst.
  (* publish *)
  - eapply recorded_artifact; [done..|by rewrite Hs].
  - intros key. by eapply recorded_pins.
  - intros g [= <-]. lia.
  (* fence *)
  - intros ->. by destruct Hst.
  - by destruct st.
  - intros k g m Hm. destruct (Hart k g m Hm) as (? & ? & ? & ? & ?). split_and!; try done; lia.
  - intros _. by apply Hresume.
  - by intros ? ? ? ? ->.
  - by intros ? ->.
  - intros b code ->. apply Hst.
  (* pins *)
  - intros k [->%elem_of_singleton|Hkey]%elem_of_union; [done|by apply Hpins].
  - intros Hend g Hg. apply elem_of_union. right. by apply Hresume.
  - intros k [Hkey _]%elem_of_difference. by apply Hpins.
  - congruence.
  (* reclaim *)
  - intros k g m [_ Hm]%lookup_delete_Some. by apply Hart.
  - intros k Hkey. rewrite lookup_delete_ne by (intros ->; done). by apply Hpins.
  - congruence.
  - intros ? ? ? ? Hrun. by rewrite Hrun in Hend.
Qed.

(** ** Runs keep the invariant *)

Definition ledger_ok (blake3 : bytes → Digest32) (n : Z) (self : AnalyticsLedger) : Prop :=
  ∀ job_id r, al_jobs self !! job_id = Some r → job_ok blake3 n job_id r.

Lemma cost_nonneg call self : 0 ≤ cost call self.
Proof. destruct call; cbn; lia. Qed.
Lemma job_runs_nonneg blake3 times n self self' : job_runs blake3 times n self self' → 0 ≤ n.
Proof. induction 1 as [|n self self' call]; [done|]. pose proof (cost_nonneg call self'). lia. Qed.
Lemma job_runs_trans blake3 times n m self self' self'' :
  job_runs blake3 times n self self' → job_runs blake3 times m self' self'' → job_runs blake3 times (n + m) self self''.
Proof. intros H1. induction 1; [by rewrite Z.add_0_r|]. rewrite Z.add_assoc. by constructor; auto. Qed.

(** What is true of a job, or of its absence, and is kept by its submission and by every move, is kept by
    every run; [n] counts the moves before it. *)
Section history.
Context (blake3 : bytes → Digest32) (times : JobTimestamp → Prop) (job_id : AnalyticsJobId).
Context (K : option AnalyticsJobRecord → Prop).
Context (K_submit : ∀ spec now, times now → K None → K (Some (fresh_job spec now))).
Context (K_moves : ∀ n now r r', times now → job_ok blake3 n job_id r → n + 2 < 2 ^ 64 → moves now r r' →
  K (Some r) → K (Some r')).

Definition kept (n : Z) (self : AnalyticsLedger) : Prop :=
  0 ≤ n ∧ ledger_ok blake3 n self ∧ K (al_jobs self !! job_id).

Lemma kept_weaken n n' self : kept n self → n ≤ n' → kept n' self.
Proof using Type.
  intros (H0 & Hok & HK) Hn. split_and!; [lia| |done]. intros id r Hr. eapply job_ok_weaken; [by apply Hok|lia].
Qed.
Lemma kept_set_job n self id r :
  kept n self → job_ok blake3 (n + 1) id r → (id = job_id → K (Some r)) → kept (n + 1) (set_job id r self).
Proof using Type.
  intros (H0 & Hok & HK) Hr HKr. split_and!; [lia| |].
  - intros id' r1. cbn. intros [[<- <-]|[_ Hr1]]%lookup_insert_Some; [done|].
    eapply job_ok_weaken; [by apply Hok|lia].
  - cbn. destruct (decide (id = job_id)) as [->|Hne]; [rewrite lookup_insert_eq; auto|by rewrite lookup_insert_ne].
Qed.
Lemma steps_kept now k n self self' :
  times now → ledger_steps now k self self' → kept n self → n + k + 1 < 2 ^ 64 → 0 ≤ k ∧ kept (n + k) self'.
Proof using K_moves.
  intros Hnow. induction 1 as [self|k self self' id r r' Hsteps IH Hr Hmove]; intros Hkept Hn; [by rewrite Z.add_0_r|].
  destruct IH as [Hk Hkept']; [done|lia|]. split; [lia|]. rewrite Z.add_assoc. pose proof Hkept' as (_ & Hok & HK).
  apply kept_set_job; [done|eapply moves_ok; [by apply Hok|lia|done]|].
  intros ->. rewrite Hr in HK. eapply (K_moves (n + k)); [done|by apply Hok|lia|done|done].
Qed.
Lemma runs_kept k n self self' :
  job_runs blake3 times k self self' → kept n self → n + k + 1 < 2 ^ 64 → kept (n + k) self'.
Proof using K_moves K_submit.
  intros Hruns Hkept. induction Hruns as [|k self self' call now Hruns IH Hnow Hcall]; intros Hn; [by rewrite Z.add_0_r|].
  pose proof (cost_nonneg call self'). specialize (IH Hkept ltac:(lia)). rewrite Z.add_assoc.
  apply after_steps in Hcall as [(k' & Hk' & Hsteps)|(spec & -> & Hspec & Hnone & ->)].
  - eapply kept_weaken; [eapply (steps_kept now k' (n + k)); [done..|lia]|lia].
  - apply kept_set_job; [done|apply fresh_job_ok; [done|]|]; [destruct IH; lia|].
    intros Hid. rewrite Hid in Hnone. destruct IH as (_ & _ & HK). rewrite Hnone in HK. by apply K_submit.
Qed.
End history.

Lemma runs_ok blake3 times lease_duration self n self' :
  AnalyticsLedger_new lease_duration = Ok self → job_runs blake3 times n self self' → n < 2 ^ 64 - 1 →
  ledger_ok blake3 n self'.
Proof.
  unfold AnalyticsLedger_new. destruct (_ =? _); [done|]. intros [= <-] Hruns Hn.
  apply (runs_kept _ _ 0 (λ _, True) ltac:(done) ltac:(done) n 0) in Hruns as (_ & Hok & _); [done| |lia].
  split_and!; [done| |done]. by intros id r.
Qed.

(** ** Leases *)

Definition uses_lease (call : job_call) : option JobLease :=
  match call with
  | CBegin lease | CRenew lease | CCheckpoint lease _ | CPublish lease _ | CFail lease _ _ => Some lease
  | _ => None
  end.
(** The answer of a call under a lease. *)
Definition lease_answer (call : job_call) (now : JobTimestamp) (self : AnalyticsLedger) : result AnalyticsJobError unit :=
  match call with
  | CBegin lease => const tt <$> (begin lease now self).1
  | CRenew lease => const tt <$> (renew lease now self).1
  | CCheckpoint lease manifest => const tt <$> (checkpoint lease manifest now self).1
  | CPublish lease manifest => (publish_result lease manifest now self).1
  | CFail lease retryable code => (fail lease retryable code now self).1
  | _ => Ok tt
  end.
(** A call that is refused and has no effect. *)
Definition turned_away (call : job_call) (now : JobTimestamp) (self : AnalyticsLedger) : Prop :=
  is_ok (lease_answer call now self) = false ∧ after call now self = self.

Lemma active_refused {A} lease now (m : recording A) self :
  (∀ r, al_jobs self !! jl_job_id lease = Some r → check_active r lease now ≠ Ok tt) →
  ∃ e, active_record_mut lease now m self = (Err e, self).
Proof.
  intros Hno. unfold active_record_mut, on_record. destruct (al_jobs self !! jl_job_id lease) as [r|] eqn:Hr; [|eauto].
  run. specialize (Hno r eq_refl). destruct (check_active r lease now) as [[]|e]; [done|].
  exists e. rewrite insert_id by done. by destruct self.
Qed.
Lemma lease_refused call lease now self :
  uses_lease call = Some lease →
  (∀ r, al_jobs self !! jl_job_id lease = Some r → check_active r lease now ≠ Ok tt) → turned_away call now self.
Proof.
  intros Huse Hno. destruct call; cbn in Huse; simplify_eq; unfold turned_away; cbn [lease_answer after].
  all: unfold begin, renew, checkpoint, publish_result, fail; run.
  2: destruct (timestamp_add _ _); [|done].
  5: destruct (_ || _); [done|].
  all: match goal with |- context [active_record_mut ?l ?n ?m ?s] => by destruct (active_refused l n m s Hno) as [e ->] end.
Qed.

(** What does not change, and what only grows. *)
Record later (r r' : AnalyticsJobRecord) : Prop := {
  lt_spec : jr_spec r' = jr_spec r;
  lt_epoch : jr_lease_epoch r ≤ jr_lease_epoch r';
  lt_attempts : jr_attempts r ≤ jr_attempts r';
  lt_generation : jr_next_artifact_generation r ≤ jr_next_artifact_generation r';
  lt_ended : is_ended (jr_state r) = true → is_ended (jr_state r') = true;
  lt_revision : jr_revision r < jr_revision r' ∨ r = r';
}.
#[export] Instance later_preorder : PreOrder later.
Proof.
  split; [intros r; by split; auto|].
  intros r1 r2 r3 [S1 E1 A1 G1 T1 R1] [S2 E2 A2 G2 T2 R2]. split; [congruence|lia..|auto|].
  destruct R1 as [?| ->], R2 as [?| ->]; auto; left; lia.
Qed.
Lemma moves_later blake3 n job_id r now r' :
  job_ok blake3 n job_id r → n + 2 < 2 ^ 64 → moves now r r' → later r r' ∧ jr_revision r' = jr_revision r + 1.
Proof.
  intros [] Hn Hmove.
  assert (jr_revision r' = jr_revision r + 1) as Hrev.
  { rewrite <-(wrapping_succ_small (jr_revision r)) by lia. by destruct Hmove; rewrite ?with_artifact_eq. }
  split; [|done]. destruct Hmove; (split; [| | | | |left; rewrite Hrev; lia]); rewrite ?with_artifact_eq; cbn;
    rewrite ?wrapping_succ_small by lia; try done; try lia.
  all: try (by match goal with H : jr_state ?r0 = _ |- _ => rewrite H end).
  all: try congruence.
Qed.

Lemma run_later blake3 times k n self self' job_id r :
  ledger_ok blake3 n self → 0 ≤ n → al_jobs self !! job_id = Some r → job_runs blake3 times k self self' →
  n + k + 1 < 2 ^ 64 → ledger_ok blake3 (n + k) self' ∧ ∃ r', al_jobs self' !! job_id = Some r' ∧ later r r'.
Proof.
  intros Hok Hn Hr Hruns Hk.
  eapply (runs_kept blake3 times job_id (λ o, ∃ r', o = Some r' ∧ later r r')) in Hruns as (_ & Hok' & HK);
    [split; [exact Hok'|exact HK]|by intros ? ? ? (? & ? & _)| | |done].
  - intros n' now r1 r2 _ Hok1 Hn' Hmove (r' & [= <-] & Hlater). exists r2. split; [done|].
    etrans; [done|]. by eapply moves_later.
  - split_and!; [done..|]. by exists r.
Qed.

Lemma active_run {A} lease now (m : recording A) self r :
  al_jobs self !! jl_job_id lease = Some r → check_active r lease now = Ok tt →
  active_record_mut lease now m self = ((m r).1, set_job (jl_job_id lease) (m r).2 self).
Proof.
  intros Hr Hactive. unfold active_record_mut, on_record. rewrite Hr. run. rewrite Hactive.
  by destruct (m r) as [a r'].
Qed.

(** A successful call under a lease moves the job on. *)
Lemma lease_used call lease now self :
  uses_lease call = Some lease → lease_answer call now self = Ok tt →
  ∃ r r', al_jobs self !! jl_job_id lease = Some r ∧ check_active r lease now = Ok tt ∧
    al_jobs (after call now self) !! jl_job_id lease = Some r' ∧ jr_revision r' = wrapping_succ (jr_revision r).
Proof.
  intros Huse Hok.
  assert (∃ r, al_jobs self !! jl_job_id lease = Some r ∧ check_active r lease now = Ok tt) as (r & Hr & Hactive).
  { destruct (al_jobs self !! jl_job_id lease) as [r|] eqn:Hr.
    - destruct (check_active r lease now) as [[]|e] eqn:Hactive; [by exists r|].
      destruct (lease_refused call lease now self Huse) as [Hno _]; [|by rewrite Hok in Hno].
      intros r' Hr'. rewrite Hr in Hr'. injection Hr' as <-. by rewrite Hactive.
    - destruct (lease_refused call lease now self Huse) as [Hno _]; [|by rewrite Hok in Hno].
      intros r' Hr'. by rewrite Hr in Hr'. }
  exists r. cut (∃ r', al_jobs (after call now self) !! jl_job_id lease = Some r' ∧
    jr_revision r' = wrapping_succ (jr_revision r)); [intros (r' & ? & ?); by exists r'|].
  apply check_active_ok in Hactive as Hstate. destruct Hstate as (x & Hstate & _).
  destruct call; cbn in Huse; simplify_eq; revert Hok; cbn [lease_answer after];
    unfold begin, renew, checkpoint, publish_result, fail; run.
  2: destruct (timestamp_add _ _); [|done].
  5: destruct (_ || _); [done|].
  all: rewrite (active_run _ _ _ _ _ Hr Hactive); cbn; rewrite lookup_insert_eq.
  all: destruct Hstate as [Hstate|[c Hstate]]; run; rewrite ?Hstate; run; try done; try (intros; by eexists).
  3, 4: destruct (retryable && _); intros; by eexists.
  all: destruct (validate_artifact _ _ _ _) as [[]|]; [|done]; rewrite record_artifact_run, with_artifact_eq; run.
  - destruct (timestamp_add _ _); [|done]. intros. by eexists.
  - intros. by eexists.
Qed.

Section leases.
Context (blake3 : bytes → Digest32) (times : JobTimestamp → Prop).

(** A lease of an epoch that is over, or of a revision that is over. *)
Definition spent (lease : JobLease) (r : AnalyticsJobRecord) : Prop :=
  jl_lease_epoch lease < jr_lease_epoch r ∨ jl_revision lease < jr_revision r.

Lemma spent_later lease r r' : spent lease r → later r r' → spent lease r'.
Proof using Type. intros Hspent [_ ? _ _ _ [?| ->]]; [|done]. destruct Hspent; [left|right]; lia. Qed.
Lemma spent_refused n self lease r call now :
  ledger_ok blake3 n self → al_jobs self !! jl_job_id lease = Some r → spent lease r →
  uses_lease call = Some lease → turned_away call now self.
Proof using Type.
  intros Hok Hr Hspent Huse. eapply lease_refused; [done|]. intros r' Hr' Hactive. simplify_eq.
  apply check_active_ok in Hactive as (x & Hstate & Hrev & _).
  assert (state_lease_epoch (jr_state r) = Some (jl_lease_epoch lease)) as He.
  { destruct Hstate as [->|[c ->]]; done. }
  apply Hok in Hr. apply (jo_lease _ _ _ _ Hr) in He. destruct Hspent; lia.
Qed.
Lemma spent_forever n m self self' lease r call now :
  ledger_ok blake3 n self → 0 ≤ n → al_jobs self !! jl_job_id lease = Some r → spent lease r →
  job_runs blake3 times m self self' → n + m + 1 < 2 ^ 64 →
  uses_lease call = Some lease → turned_away call now self'.
Proof using Type.
  intros Hok Hn Hr Hspent Hruns Hm Huse. destruct (run_later _ _ _ _ _ _ _ _ Hok Hn Hr Hruns Hm) as (Hok' & r' & Hr' & Hl).
  eapply spent_refused; [done..| |done]. by eapply spent_later.
Qed.

(** What a claim answers and leaves. *)
Lemma claim_ok job_id worker now expected self lease self' :
  claim job_id worker now expected self = (Ok lease, self') →
  ∃ r r', al_jobs self !! job_id = Some r ∧ al_jobs self' !! job_id = Some r' ∧ self' = set_job job_id r' self ∧
    jr_state r = JsQueued ∧ jr_attempts r' = jr_attempts r + 1 ∧
    jl_lease_epoch lease = jr_lease_epoch r + 1 ∧ jr_lease_epoch r' = jr_lease_epoch r + 1 ∧
    current_lease r' = Some (mkLease (js_id (jr_spec r')) worker (jl_lease_epoch lease) (jr_revision r') (jl_expires_at lease)).
Proof using Type.
  unfold claim. run. destruct (timestamp_add _ _) as [expires_at|e]; [|done]. unfold on_record.
  destruct (al_jobs self !! job_id) as [r|] eqn:Hr; [|done]. destruct (check_cas r expected) as [[]|e]; [|done].
  case_bool_decide as Hqueued; [|done]. destruct (_ <=? _) eqn:Hattempts; [done|]. cbn. unfold checked_succ.
  destruct (_ <? _) eqn:Hepoch; [|done]. intros [= <- <-]. eexists r, _. cbn. rewrite lookup_insert_eq.
  split_and!; done.
Qed.
Lemma claim_runs n self self0 job_id worker now expected lease self' :
  job_runs blake3 (λ _, True) n self0 self → claim job_id worker now expected self = (Ok lease, self') →
  job_runs blake3 (λ _, True) (n + 1) self0 self'.
Proof using Type.
  intros Hruns Hclaim. pose proof (job_runs_call blake3 (λ _, True) n self0 self (CClaim job_id worker expected) now) as H.
  cbn in H. rewrite Hclaim in H. by apply H.
Qed.
End leases.

(** ** The life of a job *)

Lemma ledger_steps_duration now k self self' :
  ledger_steps now k self self' → al_lease_duration self' = al_lease_duration self.
Proof. induction 1; done. Qed.
Lemma job_runs_duration blake3 times n self self' :
  job_runs blake3 times n self self' → al_lease_duration self' = al_lease_duration self.
Proof.
  induction 1 as [|n self self' call now _ IH _ Hcall]; [done|]. rewrite <-IH.
  apply after_steps in Hcall as [(k & _ & Hsteps)|(spec & _ & _ & _ & ->)]; [by eapply ledger_steps_duration|done].
Qed.

(** What is true of a job whose result [manifest] was published, in a run at [times]. *)
Record published (times : JobTimestamp → Prop) (spec : AnalyticsJobSpec) (manifest : AnalyticsArtifactManifest)
    (r : AnalyticsJobRecord) : Prop := {
  pu_spec : jr_spec r = spec;
  pu_state : jr_state r = JsSucceeded (am_generation manifest) ∨ jr_state r = JsTombstoned;
  pu_artifact : ∀ m, artifact r ResultArtifact (am_generation manifest) = Some m → m = manifest;
  pu_retained : (∀ t, times t → t < js_retention_until spec) →
    jr_state r = JsSucceeded (am_generation manifest) ∧
    artifact r ResultArtifact (am_generation manifest) = Some manifest ∧
    is_pinned r ResultArtifact (am_generation manifest) = true;
}.
Lemma moves_published times spec manifest now r r' :
  times now → moves now r r' → published times spec manifest r → published times spec manifest r'.
Proof.
  intros Hnow Hmove [<- Hstate Hart Hret].
  assert (is_ended (jr_state r) = true) as Hended by (destruct Hstate as [->| ->]; done).
  destruct Hmove as [? ? Hs|? ? ? ? Hs|? ? ? ? Hs|? ? ? ? ? Hs|? ? ? ? ? ? Hs|? ? ? ? ? Hs|? Hs|key Hk Ht
    |key _ Hend Hp|key _ Hend Hp Hk|_ Ht Hend Hp].
  1-6: by rewrite Hs in Hended. 1: congruence.
  - split; [done..|]. intros (? & ? & Hpin)%Hret. split_and!; [done..|]. unfold is_pinned in *. cbn.
    apply bool_decide_eq_true in Hpin. apply bool_decide_eq_true, elem_of_union. by right.
  - split; [done..|]. intros Htimes. apply Htimes in Hnow. lia.
  - split; [done..| |].
    + intros m. unfold artifact. cbn. intros [_ Hm]%lookup_delete_Some. by apply Hart.
    + intros Htimes. apply Htimes in Hnow. lia.
  - split; [done|by right|done|]. intros Htimes. apply Htimes in Hnow. lia.
Qed.
Lemma publish_published blake3 n times lease manifest now self self' :
  ledger_ok blake3 n self → publish_result lease manifest now self = (Ok tt, self') →
  ∃ r r', al_jobs self !! jl_job_id lease = Some r ∧ al_jobs self' !! jl_job_id lease = Some r' ∧
    published times (jr_spec r) manifest r'.
Proof.
  intros Hok Hpub.
  assert (lease_answer (CPublish lease manifest) now self = Ok tt) as Hans by (cbn; by rewrite Hpub).
  destruct (lease_used (CPublish lease manifest) lease now self eq_refl Hans) as (r & _ & Hr & Hactive & _).
  revert Hpub. unfold publish_result. rewrite (active_run _ _ _ _ _ Hr Hactive). run.
  destruct (is_running _); [|done]. cbn. destruct (validate_artifact _ _ _ _) as [[]|]; [|done].
  rewrite record_artifact_run. run. intros [= <-]. eexists r, _. cbn. rewrite lookup_insert_eq. split_and!; [done..|].
  rewrite with_artifact_eq. split; cbn; [done|by left| |].
  - unfold artifact. cbn. intros m. rewrite lookup_insert_eq. by intros [= ->].
  - intros _. split_and!; [done| |].
    + unfold artifact. cbn. by rewrite lookup_insert_eq.
    + apply bool_decide_eq_true. cbn. apply elem_of_union. left. by apply elem_of_singleton.
Qed.
