(* ===== verification/JobExample.v ===== *)
(** * Sample jobs

    Concrete specifications, calls and ledgers, with a toy hash, for the theorems about jobs. *)

From S2P Require Import Prelude Text Kernel Effects Encoding Projection Analytics Jobs JobLedger JobMoves JobSafety.
Open Scope Z_scope.

(** The sum of the bytes, twice. *)
Definition sample_hash (bs : bytes) : Digest32 :=
  let sum := foldr Z.add 0 bs in be_bytes 16 sum ++ be_bytes 16 sum.

Definition sample_snapshot : SnapshotProvenance :=
  mkSnapshotProvenance 9 40 2 {[ 3 := mkShardProvenance 1 1 17 40 ]}.
Definition sample_job (identity : string) (max_attempts retention_until : Z) : result AnalyticsJobError AnalyticsJobSpec :=
  AnalyticsJobSpec_new sample_hash identity (AlgorithmRequest_new PageRank) sample_snapshot
    (mkProjectionSpec false [] []) zero_digest zero_digest 1 1 max_attempts retention_until.
Definition the_job (job : result AnalyticsJobError AnalyticsJobSpec) : AnalyticsJobSpec :=
  match job with
  | Ok spec => spec
  | Err _ => mkJobSpec 0 "" (AlgorithmRequest_new PageRank) sample_snapshot (mkProjectionSpec false [] []) [] [] [] 0 0 0 0 0 0 []
  end.
Definition ranks : AnalyticsJobSpec := Eval vm_compute in the_job (sample_job "ranks" 2 1000).

Lemma ranks_built : spec_built sample_hash ranks.
Proof. by apply (spec_new_built _ "ranks" (AlgorithmRequest_new PageRank) sample_snapshot (mkProjectionSpec false [] []) zero_digest zero_digest 1 1 2 1000). Qed.

Definition manifest_of (spec : AnalyticsJobSpec) (lease_epoch generation : Z) (kind : ArtifactKind) : AnalyticsArtifactManifest :=
  mkArtifactManifest (js_id spec) lease_epoch generation kind 1 (js_algorithm spec) 1 (js_snapshot_digest spec)
    (js_digest spec) zero_digest 1 10 zero_digest.

(** ** Sequences of calls *)

Fixpoint play (calls : list (job_call * JobTimestamp)) (self : AnalyticsLedger) : AnalyticsLedger :=
  match calls with
  | [] => self
  | (call, now) :: calls => play calls (after call now self)
  end.
Fixpoint play_cost (calls : list (job_call * JobTimestamp)) (self : AnalyticsLedger) : Z :=
  match calls with
  | [] => 0
  | (call, now) :: calls => cost call self + play_cost calls (after call now self)
  end.
Fixpoint playable (blake3 : bytes → Digest32) (times : JobTimestamp → Prop) (calls : list (job_call * JobTimestamp))
    (self : AnalyticsLedger) : Prop :=
  match calls with
  | [] => True
  | (call, now) :: calls =>
      times now ∧ admissible blake3 call now self ∧ playable blake3 times calls (after call now self)
  end.
Lemma play_runs blake3 times calls self :
  playable blake3 times calls self → job_runs blake3 times (play_cost calls self) self (play calls self).
Proof.
  revert self. induction calls as [|[call now] calls IH]; intros self; [constructor|]. cbn.
  intros (Hnow & Hcall & Hrest%IH). eapply job_runs_trans; [|done].
  by apply (job_runs_call _ _ 0 self self call now); [constructor| |].
Qed.

Definition empty_ledger : AnalyticsLedger := mkJobLedger 10 ∅.
(** The lease of a job in a ledger. *)
Definition lease_of (job_id : AnalyticsJobId) (self : AnalyticsLedger) : JobLease :=
  match al_jobs self !! job_id ≫= current_lease with
  | Some lease => lease
  | None => mkLease job_id 0 0 0 0
  end.
Definition cas_of (job_id : AnalyticsJobId) (self : AnalyticsLedger) : JobCas :=
  match al_jobs self !! job_id with Some r => cas r | None => mkCas KQueued 0 0 end.

(** Submitted, claimed by worker 7, begun, and a checkpoint recorded. *)
Definition first_run : list (job_call * JobTimestamp) := Eval vm_compute in
  let id := js_id ranks in
  let calls := [(CSubmit ranks, 1)] in
  let calls := calls ++ [(CClaim id 7 (cas_of id (play calls empty_ledger)), 2)] in
  let calls := calls ++ [(CBegin (lease_of id (play calls empty_ledger)), 3)] in
  calls ++ [(CCheckpoint (lease_of id (play calls empty_ledger)) (manifest_of ranks 1 1 Checkpoint), 4)].
Definition running_ledger : AnalyticsLedger := Eval vm_compute in play first_run empty_ledger.

Lemma first_run_runs times :
  times 1 → times 2 → times 3 → times 4 → job_runs sample_hash times 4 empty_ledger running_ledger.
Proof.
  intros H1 H2 H3 H4. pose proof (play_runs sample_hash times first_run empty_ledger) as Hruns.
  assert (playable sample_hash times first_run empty_ledger) as Hplay by (cbn; split_and!; auto using ranks_built).
  apply Hruns in Hplay. replace running_ledger with (play first_run empty_ledger) by (vm_compute; reflexivity).
  exact Hplay.
Qed.
