(* ===== verification/JobCodec.v ===== *)
(** * Snapshots of the ledger of jobs as bytes ([encode_snapshot] and [decode_snapshot] of
    [dtg-analytics/src/ledger.rs])

    The encoder, the decoder with every check it makes, and the round trip. *)

From Stdlib Require Import Floats.SpecFloat.
From S2P Require Import Prelude Text Kernel Encoding Storage Loops Effects Reading Projection Csr Analytics.
From S2P Require Import Jobs JobLedger JobMoves JobSafety JobExample.
Open Scope Z_scope.

Definition LEDGER_MAGIC : bytes := as_bytes "DTGL".
Definition LEDGER_VERSION : Z := 1.

(** ** Encoding *)

Definition encode_state (state : AnalyticsJobState) : bytes :=
  match state with
  | JsQueued => [1]
  | JsClaimed worker lease_epoch expires_at =>
      2 :: be_bytes 8 worker ++ be_bytes 8 lease_epoch ++ be_bytes 8 expires_at
  | JsRunning worker lease_epoch expires_at checkpoint =>
      3 :: be_bytes 8 worker ++ be_bytes 8 lease_epoch ++ be_bytes 8 expires_at ++ put_optional (be_bytes 8) checkpoint
  | JsSucceeded result_generation => 4 :: be_bytes 8 result_generation
  | JsFailed retryable code => 5 :: [if retryable then 1 else 0] ++ put_string code
  | JsCancelled => [6]
  | JsTombstoned => [7]
  end.

Definition encode_manifest (manifest : AnalyticsArtifactManifest) : bytes :=
  be_bytes 16 (am_job_id manifest) ++ be_bytes 8 (am_lease_epoch manifest) ++ be_bytes 8 (am_generation manifest) ++
  [kind_tag (am_kind manifest)] ++ be_bytes 4 (am_schema_version manifest) ++ [algorithm_tag (am_algorithm manifest)] ++
  be_bytes 4 (am_algorithm_version manifest) ++ am_snapshot_digest manifest ++ am_spec_digest manifest ++
  am_payload_digest manifest ++ be_bytes 8 (am_chunk_count manifest) ++ be_bytes 8 (am_total_bytes manifest) ++
  am_content_digest manifest.

Definition encode_request (request : AlgorithmRequest) : bytes :=
  [algorithm_tag (ar_algorithm request)] ++ put_optional (be_bytes 16) (ar_source request) ++
  put_optional (be_bytes 16) (ar_target request) ++ be_bytes 4 (ar_max_depth request) ++
  be_bytes 8 (ar_max_pairs request) ++ be_bytes 4 (ar_iterations request) ++ be_bytes 4 (ar_k request) ++
  be_bytes 8 (to_bits (ar_damping request)) ++ put_optional put_string (ar_weight_property request) ++
  put_optional put_string (ar_departure_property request) ++ put_optional put_string (ar_arrival_property request) ++
  put_optional put_string (ar_event_time_property request) ++ put_optional put_string (ar_signal_property request) ++
  put_optional (be_bytes 8) (ar_time_start request) ++ put_optional (be_bytes 8) (ar_time_end request) ++
  be_bytes 8 (to_bits (ar_change_threshold request)).

Definition encode_fence (entry : ShardId * ShardSnapshotProvenance) : bytes :=
  be_bytes 8 entry.1 ++ be_bytes 8 (sp_placement_epoch entry.2) ++ be_bytes 8 (sp_backend_generation entry.2) ++
  be_bytes 8 (sp_applied_index entry.2) ++ be_bytes 8 (sp_closed_time entry.2).
Definition encode_snapshot (snapshot : SnapshotProvenance) : bytes :=
  be_bytes 16 (sn_transaction_id snapshot) ++ be_bytes 8 (sn_start_time snapshot) ++
  be_bytes 8 (sn_catalog_version snapshot) ++ be_bytes 4 (Z.of_nat (size (sn_shards snapshot))) ++
  concat (map encode_fence (entries (sn_shards snapshot))).

Definition encode_property (property : PropertyColumnSpec) : bytes :=
  put_string (cs_name property) ++ [property_type_tag (cs_property_type property)] ++
  [if cs_required property then 1 else 0].
Definition encode_projection (projection : ProjectionSpec) : bytes :=
  [if ps_include_reverse projection then 1 else 0] ++
  be_bytes 4 (Z.of_nat (length (ps_vertex_properties projection))) ++
  concat (map encode_property (ps_vertex_properties projection)) ++
  be_bytes 4 (Z.of_nat (length (ps_edge_properties projection))) ++
  concat (map encode_property (ps_edge_properties projection)).

Definition encode_spec (spec : AnalyticsJobSpec) : bytes :=
  be_bytes 16 (js_id spec) ++ js_digest spec ++ put_string (js_request_identity spec) ++
  encode_request (js_request spec) ++ encode_snapshot (js_snapshot spec) ++ encode_projection (js_projection spec) ++
  js_topology_digest spec ++ js_backend_fence_digest spec ++ be_bytes 4 (js_provider_version spec) ++
  be_bytes 4 (js_algorithm_version spec) ++ be_bytes 4 (js_result_schema_version spec) ++
  be_bytes 4 (js_checkpoint_schema_version spec) ++ be_bytes 4 (js_max_attempts spec) ++
  be_bytes 8 (js_retention_until spec).

(** The pins in their order. *)
Definition pin_list (pins : gset (ArtifactKind * Z)) : list (ArtifactKind * Z) :=
  sort_by artifact_key_leb (elements pins).
Definition encode_pin (pin : ArtifactKind * Z) : bytes := kind_tag pin.1 :: be_bytes 8 pin.2.

Definition encode_record (record : AnalyticsJobRecord) : bytes :=
  encode_spec (jr_spec record) ++ encode_state (jr_state record) ++ be_bytes 8 (jr_revision record) ++
  be_bytes 8 (jr_lease_epoch record) ++ be_bytes 4 (jr_attempts record) ++
  be_bytes 8 (jr_next_artifact_generation record) ++ be_bytes 8 (jr_submitted_at record) ++
  be_bytes 8 (jr_updated_at record) ++ be_bytes 4 (Z.of_nat (size (jr_artifacts record))) ++
  concat (map encode_manifest (entries_by artifact_key_leb (jr_artifacts record)).*2) ++
  be_bytes 4 (Z.of_nat (size (jr_pins record))) ++ concat (map encode_pin (pin_list (jr_pins record))).

(** ** Decoding *)

Abbreviation decoding := (stateful bytes AnalyticsJobError).
Abbreviation corrupt := JobLedgerCorrupt.
(** [.map_err(|_| LedgerCorrupt)?]. *)
Definition or_corrupt {E A} (m : result E A) : decoding A := lift (map_err (λ _, corrupt) m).

Definition decode_kind (tag : Z) : decoding ArtifactKind := lift (ok_or corrupt (kind_of_tag tag)).
Definition decode_algorithm (tag : Z) : decoding BuiltInAlgorithmId := lift (ok_or corrupt (algorithm_of_tag tag)).
Definition decode_property_type (tag : Z) : decoding PropertyType :=
  match tag with
  | 1 => mret TyBoolean | 2 => mret TyInteger | 3 => mret TyFloat | 4 => mret TyBytes | 5 => mret TyString
  | 6 => mret TyList | 7 => mret TyMap
  | _ => stop corrupt
  end.

Definition decode_state : decoding AnalyticsJobState :=
  tag ← read_u8 corrupt;
  match tag with
  | 1 => mret JsQueued
  | 2 =>
      worker ← read_u64 corrupt; worker ← lift (WorkerId_new worker);
      lease_epoch ← read_nonzero corrupt (read_u64 corrupt);
      expires_at ← read_u64 corrupt;
      mret (JsClaimed worker lease_epoch expires_at)
  | 3 =>
      worker ← read_u64 corrupt; worker ← lift (WorkerId_new worker);
      lease_epoch ← read_nonzero corrupt (read_u64 corrupt);
      expires_at ← read_u64 corrupt;
      checkpoint ← read_optional corrupt (read_u64 corrupt);
      mret (JsRunning worker lease_epoch expires_at checkpoint)
  | 4 => result_generation ← read_nonzero corrupt (read_u64 corrupt); mret (JsSucceeded result_generation)
  | 5 => retryable ← read_boolean corrupt; code ← read_string corrupt; mret (JsFailed retryable code)
  | 6 => mret JsCancelled
  | 7 => mret JsTombstoned
  | _ => stop corrupt
  end.

Definition decode_manifest : decoding AnalyticsArtifactManifest :=
  job_id ← read_u128 corrupt; job_id ← lift (AnalyticsJobId_new job_id);
  lease_epoch ← read_nonzero corrupt (read_u64 corrupt);
  generation ← read_nonzero corrupt (read_u64 corrupt);
  tag ← read_u8 corrupt; kind ← decode_kind tag;
  schema_version ← read_nonzero corrupt (read_u32 corrupt);
  tag ← read_u8 corrupt; algorithm ← decode_algorithm tag;
  algorithm_version ← read_nonzero corrupt (read_u32 corrupt);
  snapshot_digest ← read_digest corrupt; spec_digest ← read_digest corrupt; payload_digest ← read_digest corrupt;
  chunk_count ← read_nonzero corrupt (read_u64 corrupt);
  total_bytes ← read_nonzero corrupt (read_u64 corrupt);
  content_digest ← read_digest corrupt;
  mret (mkArtifactManifest job_id lease_epoch generation kind schema_version algorithm algorithm_version
          snapshot_digest spec_digest payload_digest chunk_count total_bytes content_digest).

(** [decoder.optional_u128()?.map(VertexId::new).transpose()]. *)
Definition decode_vertex : decoding (option VertexId) :=
  value ← read_optional corrupt (read_u128 corrupt);
  match value with
  | Some value => id ← or_corrupt (VertexId_new value); mret (Some id)
  | None => mret None
  end.

Definition decode_request : decoding AlgorithmRequest :=
  tag ← read_u8 corrupt; algorithm ← decode_algorithm tag;
  source ← decode_vertex;
  target ← decode_vertex;
  max_depth ← read_u32 corrupt;
  max_pairs ← read_u64 corrupt;
  iterations ← read_u32 corrupt;
  k ← read_u32 corrupt;
  damping ← read_u64 corrupt;
  weight_property ← read_optional corrupt (read_string corrupt);
  departure_property ← read_optional corrupt (read_string corrupt);
  arrival_property ← read_optional corrupt (read_string corrupt);
  event_time_property ← read_optional corrupt (read_string corrupt);
  signal_property ← read_optional corrupt (read_string corrupt);
  time_start ← read_optional corrupt (read_i64 corrupt);
  time_end ← read_optional corrupt (read_i64 corrupt);
  change_threshold ← read_u64 corrupt;
  mret (mkRequest algorithm source target max_depth max_pairs iterations k (from_bits damping) weight_property
          departure_property arrival_property event_time_property signal_property time_start time_end
          (from_bits change_threshold)).

Definition decode_fence : decoding (ShardId * ShardSnapshotProvenance) :=
  shard ← read_u64 corrupt; shard ← or_corrupt (nonzero_u64_identifier shard);
  placement_epoch ← read_u64 corrupt; placement_epoch ← or_corrupt (nonzero_u64_identifier placement_epoch);
  backend_generation ← read_u64 corrupt; backend_generation ← or_corrupt (nonzero_u64_identifier backend_generation);
  applied_index ← read_u64 corrupt;
  closed_time ← read_i64 corrupt; closed_time ← or_corrupt (TransactionTime_new closed_time);
  mret (shard, mkShardProvenance placement_epoch backend_generation applied_index closed_time).

Definition decode_snapshot : decoding SnapshotProvenance :=
  transaction_id ← read_u128 corrupt; transaction_id ← or_corrupt (TransactionId_new transaction_id);
  start_time ← read_i64 corrupt; start_time ← or_corrupt (TransactionTime_new start_time);
  catalog_version ← read_nonzero corrupt (read_u64 corrupt);
  shard_count ← read_u32 corrupt;
  shards ← read_list (Z.to_nat shard_count) decode_fence;
  or_corrupt (SnapshotProvenance_new transaction_id start_time catalog_version shards).

Definition decode_property : decoding PropertyColumnSpec :=
  name ← read_string corrupt;
  tag ← read_u8 corrupt; property_type ← decode_property_type tag;
  required ← read_boolean corrupt;
  mret (mkColumnSpec name property_type required).

Definition decode_projection : decoding ProjectionSpec :=
  include_reverse ← read_boolean corrupt;
  vertex_count ← read_u32 corrupt;
  vertex_properties ← read_list (Z.to_nat vertex_count) decode_property;
  edge_count ← read_u32 corrupt;
  edge_properties ← read_list (Z.to_nat edge_count) decode_property;
  or_corrupt (ProjectionSpec_new include_reverse vertex_properties edge_properties).

Section ledgers.
Context (blake3 : bytes → Digest32).

Definition decode_spec : decoding AnalyticsJobSpec :=
  expected_id ← read_u128 corrupt; expected_id ← lift (AnalyticsJobId_new expected_id);
  expected_digest ← read_digest corrupt;
  identity ← read_string corrupt; identity ← lift (ok_or corrupt (AnalyticsRequestIdentity_new identity));
  request ← decode_request;
  snapshot ← decode_snapshot;
  projection ← decode_projection;
  topology_digest ← read_digest corrupt;
  backend_fence_digest ← read_digest corrupt;
  provider_version ← read_u32 corrupt;
  algorithm_version ← read_u32 corrupt;
  result_schema_version ← read_u32 corrupt;
  checkpoint_schema_version ← read_u32 corrupt;
  max_attempts ← read_u32 corrupt;
  retention_until ← read_u64 corrupt;
  spec ← or_corrupt (AnalyticsJobSpec_new blake3 identity request snapshot projection topology_digest
                       backend_fence_digest provider_version algorithm_version max_attempts retention_until);
  if negb (js_id spec =? expected_id) || negb (bool_decide (js_digest spec = expected_digest)) ||
     negb (js_result_schema_version spec =? result_schema_version) ||
     negb (js_checkpoint_schema_version spec =? checkpoint_schema_version)
  then stop corrupt else mret spec.

Fixpoint decode_artifacts (count : nat) (artifacts : gmap (ArtifactKind * Z) AnalyticsArtifactManifest)
    : decoding (gmap (ArtifactKind * Z) AnalyticsArtifactManifest) :=
  match count with
  | O => mret artifacts
  | S count =>
      manifest ← decode_manifest;
      let key := (am_kind manifest, am_generation manifest) in
      if bool_decide (is_Some (artifacts !! key)) then stop corrupt
      else decode_artifacts count (<[key := manifest]> artifacts)
  end.

Fixpoint decode_pins (artifacts : gmap (ArtifactKind * Z) AnalyticsArtifactManifest) (count : nat)
    (pins : gset (ArtifactKind * Z)) : decoding (gset (ArtifactKind * Z)) :=
  match count with
  | O => mret pins
  | S count =>
      tag ← read_u8 corrupt; kind ← decode_kind tag;
      generation ← read_u64 corrupt;
      let key := (kind, generation) in
      if bool_decide (artifacts !! key = None) || bool_decide (key ∈ pins) then stop corrupt
      else decode_pins artifacts count ({[key]} ∪ pins)
  end.

Definition decode_record : decoding AnalyticsJobRecord :=
  spec ← decode_spec;
  state ← decode_state;
  revision ← read_u64 corrupt;
  lease_epoch ← read_u64 corrupt;
  attempts ← read_u32 corrupt;
  next_artifact_generation ← read_u64 corrupt;
  submitted_at ← read_u64 corrupt;
  updated_at ← read_u64 corrupt;
  artifact_count ← read_u32 corrupt;
  artifacts ← decode_artifacts (Z.to_nat artifact_count) ∅;
  pin_count ← read_u32 corrupt;
  pins ← decode_pins artifacts (Z.to_nat pin_count) ∅;
  if (revision =? 0) || (next_artifact_generation =? 0) || (js_max_attempts spec <? attempts) ||
     match state_lease_epoch state with Some epoch => negb (epoch =? lease_epoch) | None => false end
  then stop corrupt
  else
    mret (mkJobRecord spec state revision lease_epoch attempts next_artifact_generation artifacts pins
            submitted_at updated_at).

Fixpoint decode_jobs (count : nat) (jobs : gmap AnalyticsJobId AnalyticsJobRecord)
    : decoding (gmap AnalyticsJobId AnalyticsJobRecord) :=
  match count with
  | O => mret jobs
  | S count =>
      record ← decode_record;
      if bool_decide (is_Some (jobs !! js_id (jr_spec record))) then stop corrupt
      else decode_jobs count (<[js_id (jr_spec record) := record]> jobs)
  end.

(** ** Snapshots *)

(** [AnalyticsLedger::encode_snapshot]. *)
Definition ledger_content (self : AnalyticsLedger) : bytes :=
  LEDGER_MAGIC ++ be_bytes 4 LEDGER_VERSION ++ be_bytes 8 (al_lease_duration self) ++
  be_bytes 4 (Z.of_nat (size (al_jobs self))) ++ concat (map encode_record (values (al_jobs self))).
Definition encode_ledger (self : AnalyticsLedger) : bytes := ledger_content self ++ blake3 (ledger_content self).

(** [AnalyticsLedger::decode_snapshot]. *)
Definition decode_ledger (bs : bytes) : result AnalyticsJobError AnalyticsLedger :=
  if (Z.of_nat (length bs) <? 4 + 4 + 8 + 4 + 32) || negb (bool_decide (take 4 bs = LEDGER_MAGIC)) then Err corrupt
  else if negb (be_value (slice 4 8 bs) =? LEDGER_VERSION) then Err JobLedgerVersion
  else
    let content_length := (length bs - 32)%nat in
    if negb (bool_decide (blake3 (take content_length bs) = drop content_length bs)) then Err corrupt
    else
      let decoder : decoding (Z * gmap AnalyticsJobId AnalyticsJobRecord) :=
        lease_duration ← read_u64 corrupt;
        count ← read_u32 corrupt;
        jobs ← decode_jobs (Z.to_nat count) ∅;
        mret (lease_duration, jobs) in
      match decoder (slice 8 content_length bs) with
      | Ok ((lease_duration, jobs), rest) =>
          if negb (bool_decide (rest = [])) || (lease_duration =? 0) then Err corrupt
          else Ok (mkJobLedger lease_duration jobs)
      | Err e => Err e
      end.
End ledgers.

(** ** Numbers *)

(** A binary64 number. *)
Definition f64_wf (x : f64) : Prop := valid_binary 53 1024 x = true.

(** A sign, an exponent field and a mantissa field. *)
Definition bit_fields (s : bool) (exponent mantissa : Z) : Z :=
  (if s then 2 ^ 63 else 0) + exponent * 2 ^ 52 + mantissa.

Lemma bit_fields_read s exponent mantissa :
  0 ≤ exponent < 2 ^ 11 → 0 ≤ mantissa < 2 ^ 52 →
  let bits := bit_fields s exponent mantissa in
  in_u64 bits ∧ Z.testbit bits 63 = s ∧ Z.land (Z.shiftr bits 52) (2 ^ 11 - 1) = exponent ∧
  Z.land bits (2 ^ 52 - 1) = mantissa.
Proof.
  intros He Hm bits.
  assert (bits = ((if s then 2 ^ 11 else 0) + exponent) * 2 ^ 52 + mantissa) as Hbits
    by (unfold bits, bit_fields; destruct s; lia).
  assert (bits / 2 ^ 52 = (if s then 2 ^ 11 else 0) + exponent) as Hdiv.
  { rewrite Hbits, Z.div_add_l by lia. rewrite Z.div_small by lia. lia. }
  change (2 ^ 11 - 1) with (Z.ones 11). change (2 ^ 52 - 1) with (Z.ones 52). split_and!.
  - unfold bits, bit_fields, in_u64. destruct s; lia.
  - apply Z.testbit_unique with (l := exponent * 2 ^ 52 + mantissa) (h := 0); [lia|].
    unfold bits, bit_fields. destruct s; cbn [Z.b2z]; lia.
  - rewrite Z.land_ones, Z.shiftr_div_pow2, Hdiv by lia.
    symmetry. apply (Z.mod_unique_pos _ _ (if s then 1 else 0)); [done|destruct s; lia].
  - rewrite Z.land_ones, Hbits by lia. rewrite Z.add_comm, Z.mod_add by lia. by apply Z.mod_small.
Qed.

Lemma digits2_pos_bounds m : 2 ^ (Z.pos (digits2_pos m) - 1) ≤ Z.pos m < 2 ^ Z.pos (digits2_pos m).
Proof.
  induction m as [m IH|m IH|]; cbn [digits2_pos]; [..|done].
  all: rewrite Pos2Z.inj_succ; replace (Z.succ (Z.pos (digits2_pos m)) - 1) with (Z.pos (digits2_pos m)) by lia.
  all: rewrite Z.pow_succ_r by lia; replace (Z.pos (digits2_pos m)) with (Z.succ (Z.pos (digits2_pos m) - 1)) at 1 by lia.
  all: rewrite Z.pow_succ_r by lia; lia.
Qed.

(** The fields of a finite number. *)
Lemma finite_fields s m e :
  f64_wf (S754_finite s m e) →
  (Z.pos m < 2 ^ 52 ∧ e = -1074) ∨ (2 ^ 52 ≤ Z.pos m < 2 ^ 53 ∧ 1 ≤ e + 1075 < 2 ^ 11 - 1).
Proof.
  unfold f64_wf, valid_binary, bounded, canonical_mantissa, fexp, emin. rewrite andb_true_iff. intros [Hm He].
  apply Zeq_bool_eq in Hm. apply Zle_bool_imp_le in He. pose proof (digits2_pos_bounds m) as Hd.
  set (d := Z.pos (digits2_pos m)) in *. destruct (decide (Z.pos m < 2 ^ 52)) as [Hlt|Hge].
  - left. split; [done|]. assert (d - 1 < 52) by (apply (Z.pow_lt_mono_r_iff 2); lia). lia.
  - right. assert (52 < d) by (apply (Z.pow_lt_mono_r_iff 2); lia). assert (d = 53) as -> by lia. lia.
Qed.

Lemma to_bits_fields x : f64_wf x → ∃ s exponent mantissa,
  to_bits x = bit_fields s exponent mantissa ∧ 0 ≤ exponent < 2 ^ 11 ∧ 0 ≤ mantissa < 2 ^ 52 ∧
  x = if exponent =? 2 ^ 11 - 1 then if mantissa =? 0 then S754_infinity s else S754_nan
      else match (if exponent =? 0 then mantissa else mantissa + 2 ^ 52) with
           | Z.pos m => S754_finite s m (Z.max exponent 1 - 1075)
           | _ => S754_zero s
           end.
Proof.
  intros Hx. destruct x as [s|s| |s m e].
  - exists s, 0, 0. unfold bit_fields. cbn [to_bits]. split_and!; [lia|done..].
  - exists s, (2 ^ 11 - 1), 0. unfold bit_fields. cbn [to_bits]. split_and!; [lia|done..].
  - exists false, (2 ^ 11 - 1), (2 ^ 51). done.
  - destruct (finite_fields _ _ _ Hx) as [[Hm ->]|[Hm He]].
    + exists s, 0, (Z.pos m). unfold bit_fields. cbn [to_bits]. rewrite (proj2 (Z.ltb_lt _ _) Hm).
      split_and!; [lia|done..].
    + exists s, (e + 1075), (Z.pos m - 2 ^ 52). unfold bit_fields. cbn [to_bits].
      rewrite (proj2 (Z.ltb_ge _ _)), (proj2 (Z.eqb_neq _ _)), (proj2 (Z.eqb_neq _ 0)) by lia.
      rewrite Z.sub_add. split_and!; [lia..|]. f_equal. lia.
Qed.
(** [f64::from_bits] inverts [f64::to_bits]. *)
Lemma from_bits_to_bits x : f64_wf x → in_u64 (to_bits x) ∧ from_bits (to_bits x) = x.
Proof.
  intros (s & exponent & mantissa & -> & He & Hm & Hx)%to_bits_fields.
  destruct (bit_fields_read s exponent mantissa He Hm) as (Hu & Hs & Hexp & Hman). split; [done|].
  unfold from_bits. cbv zeta in *. by rewrite Hs, Hexp, Hman.
Qed.

(** ** What the types and constructors of the source guarantee *)

(** Of a value, if it is there. *)
Definition if_some {A} (P : A → Prop) (a : option A) : Prop := ∀ x, a = Some x → P x.

Record request_typed (request : AlgorithmRequest) : Prop := {
  rt_source : if_some id128_wf (ar_source request);
  rt_target : if_some id128_wf (ar_target request);
  rt_max_depth : in_u32 (ar_max_depth request);
  rt_max_pairs : in_u64 (ar_max_pairs request);
  rt_iterations : in_u32 (ar_iterations request);
  rt_k : in_u32 (ar_k request);
  rt_damping : f64_wf (ar_damping request);
  rt_weight : if_some short_string (ar_weight_property request);
  rt_departure : if_some short_string (ar_departure_property request);
  rt_arrival : if_some short_string (ar_arrival_property request);
  rt_event_time : if_some short_string (ar_event_time_property request);
  rt_signal : if_some short_string (ar_signal_property request);
  rt_time_start : if_some in_i64 (ar_time_start request);
  rt_time_end : if_some in_i64 (ar_time_end request);
  rt_threshold : f64_wf (ar_change_threshold request);
}.

Definition fence_typed (entry : ShardId * ShardSnapshotProvenance) : Prop :=
  id_wf entry.1 ∧ id_wf (sp_placement_epoch entry.2) ∧ id_wf (sp_backend_generation entry.2) ∧
  in_u64 (sp_applied_index entry.2) ∧ time_wf (sp_closed_time entry.2).
Record snapshot_typed (snapshot : SnapshotProvenance) : Prop := {
  st_built : ∃ fences, SnapshotProvenance_new (sn_transaction_id snapshot) (sn_start_time snapshot)
               (sn_catalog_version snapshot) fences = Ok snapshot;
  st_transaction : id128_wf (sn_transaction_id snapshot);
  st_start : time_wf (sn_start_time snapshot);
  st_catalog : in_u64 (sn_catalog_version snapshot);
  st_fences : ∀ shard fence, sn_shards snapshot !! shard = Some fence → fence_typed (shard, fence);
  st_count : in_u32 (Z.of_nat (size (sn_shards snapshot)));
}.

Record projection_typed (projection : ProjectionSpec) : Prop := {
  pt_built : ProjectionSpec_new (ps_include_reverse projection) (ps_vertex_properties projection)
               (ps_edge_properties projection) = Ok projection;
  pt_vertex_names : ∀ p, p ∈ ps_vertex_properties projection → short_string (cs_name p);
  pt_edge_names : ∀ p, p ∈ ps_edge_properties projection → short_string (cs_name p);
  pt_vertex_count : in_u32 (Z.of_nat (length (ps_vertex_properties projection)));
  pt_edge_count : in_u32 (Z.of_nat (length (ps_edge_properties projection)));
}.

Record spec_typed (spec : AnalyticsJobSpec) : Prop := {
  spt_identity : js_request_identity spec ≠ EmptyString ∧ str_ok (js_request_identity spec);
  spt_request : request_typed (js_request spec);
  spt_snapshot : snapshot_typed (js_snapshot spec);
  spt_projection : projection_typed (js_projection spec);
  spt_topology : digest_wf (js_topology_digest spec);
  spt_backend : digest_wf (js_backend_fence_digest spec);
  spt_provider : in_u32 (js_provider_version spec);
  spt_algorithm : in_u32 (js_algorithm_version spec);
  spt_retention : in_u64 (js_retention_until spec);
}.

Definition state_typed (state : AnalyticsJobState) : Prop :=
  match state with
  | JsClaimed worker lease_epoch expires_at => id_wf worker ∧ in_u64 lease_epoch ∧ in_u64 expires_at
  | JsRunning worker lease_epoch expires_at checkpoint =>
      id_wf worker ∧ in_u64 lease_epoch ∧ in_u64 expires_at ∧ if_some in_u64 checkpoint
  | JsSucceeded result_generation => in_u64 result_generation
  | JsFailed _ code => str_ok code
  | _ => True
  end.

(** The chunks of an artifact are never empty. *)
Record manifest_typed (manifest : AnalyticsArtifactManifest) : Prop := {
  mt_lease_epoch : in_u64 (am_lease_epoch manifest);
  mt_generation : in_u64 (am_generation manifest);
  mt_schema : in_u32 (am_schema_version manifest) ∧ am_schema_version manifest ≠ 0;
  mt_algorithm : in_u32 (am_algorithm_version manifest) ∧ am_algorithm_version manifest ≠ 0;
  mt_snapshot : digest_wf (am_snapshot_digest manifest);
  mt_spec : digest_wf (am_spec_digest manifest);
  mt_payload : digest_wf (am_payload_digest manifest);
  mt_chunks : id_wf (am_chunk_count manifest);
  mt_bytes : id_wf (am_total_bytes manifest);
  mt_content : digest_wf (am_content_digest manifest);
}.

Record record_typed (r : AnalyticsJobRecord) : Prop := {
  ty_spec : spec_typed (jr_spec r);
  ty_state : state_typed (jr_state r);
  ty_artifacts : ∀ key m, jr_artifacts r !! key = Some m → manifest_typed m;
  ty_artifact_count : in_u32 (Z.of_nat (size (jr_artifacts r)));
  ty_submitted : in_u64 (jr_submitted_at r);
  ty_updated : in_u64 (jr_updated_at r);
}.
Record ledger_typed (self : AnalyticsLedger) : Prop := {
  lty_duration : in_u64 (al_lease_duration self);
  lty_jobs : ∀ job_id r, al_jobs self !! job_id = Some r → record_typed r;
  lty_count : in_u32 (Z.of_nat (size (al_jobs self)));
}.

(** ** Reading back *)

Lemma yields_some {E A} (corrupt : E) (enc : A → bytes) m (P : A → Prop) a :
  if_some P a → (∀ x, P x → yields m (enc x) x) → yields (read_optional corrupt m) (put_optional enc a) a.
Proof. intros Ha Hm. apply yields_optional. intros x Hx. by apply Hm, Ha. Qed.
Lemma yields_some_u64 {E} (c : E) a : if_some in_u64 a → yields (read_optional c (read_u64 c)) (put_optional (be_bytes 8) a) a.
Proof. intros Ha. eapply yields_some; [done|]. apply yields_u64. Qed.
Lemma yields_some_i64 {E} (c : E) a : if_some in_i64 a → yields (read_optional c (read_i64 c)) (put_optional (be_bytes 8) a) a.
Proof. intros Ha. eapply yields_some; [done|]. apply yields_i64. Qed.
Lemma yields_some_string {E} (c : E) a : if_some short_string a → yields (read_optional c (read_string c)) (put_optional put_string a) a.
Proof. intros Ha. eapply yields_some; [done|]. apply yields_string. Qed.

(** A field behind a constructor that may refuse it. *)
Lemma yields_checked {A B} (m : decoding Z) (k : Z → result AnalyticsJobError A) (l : A → decoding B) bs cs z a b :
  yields m bs z → k z = Ok a → yields (l a) cs b → yields (x ← m; y ← lift (k x); l y) (bs ++ cs) b.
Proof.
  intros Hm Hk Hl. eapply yields_bind; [exact Hm|]. eapply yields_first; [by apply yields_lift|done].
Qed.

Lemma yields_kind kind : yields (tag ← read_u8 corrupt; decode_kind tag) [kind_tag kind] kind.
Proof.
  apply (yields_tag corrupt); [by destruct kind|]. apply yields_lift. by destruct kind.
Qed.
Lemma yields_algorithm a : yields (tag ← read_u8 corrupt; decode_algorithm tag) [algorithm_tag a] a.
Proof.
  apply (yields_tag corrupt); [apply algorithm_tag_ok|]. apply yields_lift. by rewrite algorithm_of_tag_tag.
Qed.
(** A step in two parts. *)
Lemma yields_assoc {A B C} (m : decoding A) (k : A → decoding B) (l : B → decoding C) bs c :
  yields ((m ≫= k) ≫= l) bs c → yields (x ← m; y ← k x; l y) bs c.
Proof.
  intros H rest. specialize (H rest). revert H. unfold mbind, stateful_bind. by destruct (m (bs ++ rest)) as [[]|].
Qed.
#[local] Hint Resolve yields_some_u64 yields_some_i64 yields_some_string yields_kind yields_algorithm : yields.

Lemma WorkerId_new_ok z : id_wf z → WorkerId_new z = Ok z.
Proof. intros [_ Hz]. unfold WorkerId_new. by rewrite (proj2 (Z.eqb_neq _ _) Hz). Qed.
Lemma AnalyticsJobId_new_ok z : z ≠ 0 → AnalyticsJobId_new z = Ok z.
Proof. intros Hz. unfold AnalyticsJobId_new. by rewrite (proj2 (Z.eqb_neq _ _) Hz). Qed.
Lemma yields_id {E} (c : E) z : id_wf z → yields (read_nonzero c (read_u64 c)) (be_bytes 8 z) z.
Proof. intros [? ?]. by apply yields_nonzero, yields_u64. Qed.
#[local] Hint Resolve yields_id : yields.
#[local] Hint Unfold id_wf : yields.

(** A state, of a record whose lease epoch and texts are as the ledger keeps them. *)
Lemma yields_state state :
  state_typed state → (∀ e, state_lease_epoch state = Some e → e ≠ 0) → (∀ g, state = JsSucceeded g → g ≠ 0) →
  (∀ b code, state = JsFailed b code → in_u32 (Z.of_nat (String.length code))) →
  yields decode_state (encode_state state) state.
Proof.
  intros Hstate Hepoch Hresult Hcode. unfold decode_state.
  destruct state as [|w e x|w e x c|g|b code| |]; cbn [encode_state state_typed state_lease_epoch] in *;
    (apply (yields_tag corrupt); [done|]); try apply yields_ret.
  - destruct Hstate as (Hw & He & Hx). eapply yields_checked; [apply yields_u64, Hw|by apply WorkerId_new_ok|].
    specialize (Hepoch e eq_refl). yield_field. yield_last. apply yields_ret.
  - destruct Hstate as (Hw & He & Hx & Hc). eapply yields_checked; [apply yields_u64, Hw|by apply WorkerId_new_ok|].
    specialize (Hepoch e eq_refl). yield_field. yield_field. yield_last. apply yields_ret.
  - specialize (Hresult g eq_refl). yield_last. apply yields_ret.
  - yield_field. eapply yields_last; [apply yields_string; split; [done|by eapply Hcode]|]. apply yields_ret.
Qed.

Lemma yields_manifest m :
  manifest_typed m → id128_wf (am_job_id m) → am_lease_epoch m ≠ 0 → am_generation m ≠ 0 →
  yields decode_manifest (encode_manifest m) m.
Proof.
  intros [He Hg [Hs Hs0] [Ha Ha0] ? ? ? ? ? ?] [Hid Hid0] He0 Hg0. destruct m. cbn in *.
  unfold decode_manifest, encode_manifest. cbn.
  eapply yields_checked; [by apply yields_u128|by apply AnalyticsJobId_new_ok|].
  yield_field. yield_field. apply yields_assoc. eapply (yields_bind _ _ [_]); [apply yields_kind|]. yield_field.
  apply yields_assoc. eapply (yields_bind _ _ [_]); [apply yields_algorithm|]. do 6 yield_field.
  yield_last. apply yields_ret.
Qed.

Lemma VertexId_new_ok z : z ≠ 0 → VertexId_new z = Ok z.
Proof. intros Hz. unfold VertexId_new. by rewrite (proj2 (Z.eqb_neq _ _) Hz). Qed.
Lemma yields_vertex a : if_some id128_wf a → yields decode_vertex (put_optional (be_bytes 16) a) a.
Proof.
  intros Ha. unfold decode_vertex. eapply yields_last.
  { eapply yields_some; [exact Ha|]. intros x [Hx _]. by apply yields_u128. }
  destruct a as [a|]; [|apply yields_ret]. destruct (Ha a eq_refl) as [_ H0].
  eapply yields_first; [apply yields_lift; by rewrite VertexId_new_ok|apply yields_ret].
Qed.
Lemma yields_bits {B} x (k : f64 → decoding B) bs b :
  f64_wf x → yields (k x) bs b → yields (z ← read_u64 corrupt; k (from_bits z)) (be_bytes 8 (to_bits x) ++ bs) b.
Proof.
  intros [Hu Hx]%from_bits_to_bits Hk. eapply yields_bind; [by apply yields_u64|]. by rewrite Hx.
Qed.
#[local] Hint Resolve yields_vertex : yields.

Lemma yields_request request : request_typed request → yields decode_request (encode_request request) request.
Proof.
  intros [? ? ? ? ? ? Hd ? ? ? ? ? ? ? Ht]. apply from_bits_to_bits in Hd as [Hd Hd'], Ht as [Ht Ht'].
  destruct request. cbn in *. unfold decode_request, encode_request. cbn.
  apply yields_assoc. eapply (yields_bind _ _ [_]); [apply yields_algorithm|]. do 14 yield_field.
  yield_last. rewrite Hd', Ht'. apply yields_ret.
Qed.

Lemma nonzero_identifier_ok z : z ≠ 0 → nonzero_u64_identifier z = Ok z.
Proof. intros Hz. unfold nonzero_u64_identifier. by rewrite (proj2 (Z.eqb_neq _ _) Hz). Qed.
Lemma time_ok z : time_wf z → TransactionTime_new z = Ok z.
Proof. intros [_ Hz]. unfold TransactionTime_new. by rewrite (proj2 (Z.leb_le _ _) Hz). Qed.
Lemma yields_fence entry : fence_typed entry → yields decode_fence (encode_fence entry) entry.
Proof.
  destruct entry as [shard [p b i t]]. intros ([Hs Hs0] & [Hp Hp0] & [Hb Hb0] & Hi & Ht). cbn in *.
  unfold decode_fence, encode_fence, or_corrupt. cbn.
  eapply yields_checked; [by apply yields_u64|by rewrite nonzero_identifier_ok|].
  eapply yields_checked; [by apply yields_u64|by rewrite nonzero_identifier_ok|].
  eapply yields_checked; [by apply yields_u64|by rewrite nonzero_identifier_ok|].
  yield_field. rewrite <-(app_nil_r (be_bytes 8 t)).
  eapply yields_checked; [apply yields_i64, Ht|by rewrite time_ok|]. apply yields_ret.
Qed.

(** Inserting the fences of a built snapshot again gives it back. *)
Lemma insert_shards_ok start fences : ∀ shards shards',
  insert_shards start shards fences = Ok shards' →
  ∀ s f, shards' !! s = Some f → shards !! s = Some f ∨ start ≤ sp_closed_time f.
Proof.
  induction fences as [|[s0 f0] fences IH]; intros shards shards'; cbn; [intros [= <-]; by left|].
  destruct (_ <? _) eqn:Hclosed; [done|]. case_bool_decide; [done|]. intros Hins s f Hf.
  destruct (IH _ _ Hins _ _ Hf) as [Hs|Hs]; [|by right]. apply lookup_insert_Some in Hs as [[-> ->]|[_ Hs]]; [right; lia|by left].
Qed.
Lemma insert_shards_keeps start fences : ∀ shards shards' s,
  insert_shards start shards fences = Ok shards' → is_Some (shards !! s) → is_Some (shards' !! s).
Proof.
  induction fences as [|[s0 f0] fences IH]; intros shards shards' s; cbn; [by intros [= <-]|].
  destruct (_ <? _); [done|]. case_bool_decide; [done|]. intros Hins Hs. apply (IH _ _ _ Hins).
  rewrite lookup_insert_is_Some'. by right.
Qed.
Lemma insert_shards_list start fences : ∀ shards,
  (∀ s f, (s, f) ∈ fences → start ≤ sp_closed_time f ∧ shards !! s = None) → NoDup fences.*1 →
  insert_shards start shards fences = Ok (list_to_map fences ∪ shards).
Proof.
  induction fences as [|[s f] fences IH]; intros shards Hall Hnodup; cbn; [by rewrite (left_id_L ∅ (∪))|].
  destruct (Hall s f) as [Hf Hs]; [by left|]. destruct (_ <? _) eqn:Hclosed; [lia|].
  rewrite bool_decide_false by (rewrite Hs; by intros [? [=]]). apply NoDup_cons in Hnodup as [Hnot Hnodup].
  rewrite IH; [|intros s' f' Hin|done].
  - f_equal. rewrite <-insert_union_l, insert_union_r; [done|]. by apply not_elem_of_list_to_map_1.
  - destruct (Hall s' f') as [Hf' Hs']; [by right|]. split; [done|]. apply lookup_insert_None. split; [done|].
    intros ->. apply Hnot. apply list_elem_of_fmap. by exists (s', f').
Qed.
Lemma entries_list_to_map {V} (m : gmap Z V) : list_to_map (entries m) = m.
Proof.
  rewrite <-(list_to_map_to_list m) at 2. apply list_to_map_proper; [apply NoDup_keys|apply entries_perm].
Qed.
Lemma snapshot_rebuild snapshot : snapshot_typed snapshot →
  SnapshotProvenance_new (sn_transaction_id snapshot) (sn_start_time snapshot) (sn_catalog_version snapshot)
    (entries (sn_shards snapshot)) = Ok snapshot.
Proof.
  intros [[fences Hbuilt] _ _ _ _ _]. revert Hbuilt. unfold SnapshotProvenance_new.
  destruct (_ =? 0) eqn:Hversion; [done|]. cbn. case_bool_decide as Hempty; [done|].
  destruct (insert_shards _ ∅ fences) as [shards|] eqn:Hins; [|done]. cbn. intros [= Hsnap].
  assert (shards = sn_shards snapshot) as -> by (by rewrite <-Hsnap).
  rewrite bool_decide_false; [|].
  - rewrite insert_shards_list, (right_id_L ∅ (∪)), entries_list_to_map; [cbn; by rewrite Hsnap| |apply NoDup_keys].
    intros s f Hf%elem_of_entries. split; [|apply lookup_empty].
    destruct (insert_shards_ok _ _ _ _ Hins _ _ Hf) as [Hs|Hs]; [by rewrite lookup_empty in Hs|done].
  - intros Hnil. destruct fences as [|[s f] fences]; [done|]. revert Hins. cbn.
    destruct (_ <? _); [done|]. intros Hins.
    apply (insert_shards_keeps _ _ _ _ s) in Hins; [|rewrite lookup_insert_eq; eauto].
    destruct Hins as [f' Hf%elem_of_entries]. rewrite Hnil in Hf. by apply not_elem_of_nil in Hf.
Qed.

Lemma yields_snapshot snapshot : snapshot_typed snapshot → yields decode_snapshot (encode_snapshot snapshot) snapshot.
Proof.
  intros Hsnap. pose proof (snapshot_rebuild _ Hsnap) as Hbuild. destruct Hsnap as [[fences Hf] [Ht Ht0] Hs Hc Hfences Hn].
  assert (sn_catalog_version snapshot ≠ 0) as Hc0.
  { intros Hzero. revert Hf. unfold SnapshotProvenance_new. by rewrite Hzero. }
  unfold decode_snapshot, encode_snapshot, or_corrupt.
  eapply yields_checked; [by apply yields_u128|unfold TransactionId_new; by rewrite (proj2 (Z.eqb_neq _ _) Ht0)|].
  eapply yields_checked; [apply yields_i64, Hs|by rewrite time_ok|].
  yield_field. yield_field. rewrite Nat2Z.id, <-length_entries. eapply yields_last.
  { apply yields_list. intros [s f] Hin%elem_of_entries. by apply yields_fence, Hfences. }
  apply yields_lift. by rewrite Hbuild.
Qed.

Lemma yields_property p : short_string (cs_name p) → yields decode_property (encode_property p) p.
Proof.
  intros Hname. destruct p as [name ty required]. cbn in *. unfold decode_property, encode_property. cbn [cs_name cs_property_type cs_required].
  yield_field. apply yields_assoc. eapply (yields_bind _ _ [_] _ ty).
  { apply (yields_tag corrupt); [by destruct ty|]. destruct ty; apply yields_ret. }
  yield_last. apply yields_ret.
Qed.
Lemma yields_projection projection :
  projection_typed projection → yields decode_projection (encode_projection projection) projection.
Proof.
  intros [Hbuilt Hvertex Hedge Hv He]. unfold decode_projection, encode_projection.
  yield_field. yield_field. rewrite Nat2Z.id.
  eapply yields_bind; [apply yields_list; intros p Hp; by apply yields_property, Hvertex|].
  yield_field. rewrite Nat2Z.id.
  eapply yields_last; [apply yields_list; intros p Hp; by apply yields_property, Hedge|].
  apply yields_lift. by rewrite Hbuilt.
Qed.

(** ** Records and ledgers *)

(** Elements inserted one by one under distinct keys make up the map. *)
Lemma insert_all {K V} `{Countable K} (key : V → K) (l : list V) (acc : gmap K V) k v :
  NoDup (key <$> l) → (∀ v, v ∈ l → acc !! key v = None) →
  foldl (λ m v, <[key v := v]> m) acc l !! k = Some v ↔ acc !! k = Some v ∨ (v ∈ l ∧ key v = k).
Proof.
  revert acc. induction l as [|x l IH]; intros acc Hnodup Hacc; cbn.
  { split; [by left|]. intros [?|[?%not_elem_of_nil _]]; done. }
  apply NoDup_cons in Hnodup as [Hx Hnodup]. rewrite IH; [|done|].
  - rewrite lookup_insert_Some, elem_of_cons. specialize (Hacc x ltac:(left)). naive_solver.
  - intros y Hy. apply lookup_insert_None. split; [apply Hacc; by right|]. intros Heq. apply Hx. rewrite Heq.
    by apply list_elem_of_fmap_2.
Qed.
Lemma insert_values {K V} `{Countable K} (key : V → K) (l : list V) (m : gmap K V) :
  NoDup (key <$> l) → (∀ k v, m !! k = Some v ↔ v ∈ l ∧ key v = k) → foldl (λ m v, <[key v := v]> m) ∅ l = m.
Proof.
  intros Hnodup Hm. apply map_eq. intros k. apply option_eq. intros v.
  rewrite insert_all, Hm, lookup_empty by (done || intros; apply lookup_empty). naive_solver.
Qed.

Definition manifest_key (m : AnalyticsArtifactManifest) : ArtifactKind * Z := (am_kind m, am_generation m).
Lemma yields_artifacts l : ∀ acc,
  (∀ m, m ∈ l → yields decode_manifest (encode_manifest m) m ∧ acc !! manifest_key m = None) →
  NoDup (manifest_key <$> l) →
  yields (decode_artifacts (length l) acc) (concat (map encode_manifest l))
    (foldl (λ acc m, <[manifest_key m := m]> acc) acc l).
Proof.
  induction l as [|m l IH]; intros acc Hall Hnodup; cbn; [apply yields_ret|].
  destruct (Hall m) as [Hm Hnone]; [by left|]. eapply yields_bind; [exact Hm|].
  apply NoDup_cons in Hnodup as [Hfresh Hnodup]. fold (manifest_key m). rewrite bool_decide_false by (rewrite Hnone; by intros [? [=]]).
  apply IH; [|done]. intros m' Hm'. destruct (Hall m') as [Hy Hn]; [by right|]. split; [done|].
  apply lookup_insert_None. split; [done|]. intros Heq. apply Hfresh. rewrite Heq. by apply list_elem_of_fmap_2.
Qed.
Lemma yields_pins artifacts l : ∀ acc,
  (∀ key, key ∈ l → is_Some (artifacts !! key) ∧ in_u64 key.2 ∧ key ∉ acc) → NoDup l →
  yields (decode_pins artifacts (length l) acc) (concat (map encode_pin l)) (list_to_set l ∪ acc).
Proof.
  induction l as [|[kind g] l IH]; intros acc Hall Hnodup; cbn [length map concat decode_pins list_to_set foldr].
  { rewrite (left_id_L ∅ (∪)). apply yields_ret. }
  destruct (Hall (kind, g)) as ([m Hm] & Hg & Hout); [by left|]. apply NoDup_cons in Hnodup as [Hfresh Hnodup].
  unfold encode_pin at 1. cbn [fst snd]. apply yields_assoc. change (kind_tag kind :: be_bytes 8 g) with ([kind_tag kind] ++ be_bytes 8 g).
  rewrite <-app_assoc. eapply yields_bind; [apply yields_kind|]. yield_field. cbn zeta.
  rewrite bool_decide_false by (rewrite Hm; done). rewrite bool_decide_false by done. cbn [orb].
  replace ({[(kind, g)]} ∪ list_to_set l ∪ acc) with (list_to_set l ∪ ({[(kind, g)]} ∪ acc)) by set_solver.
  apply IH; [|done]. intros key Hkey. destruct (Hall key) as (? & ? & ?); [by right|]. split_and!; [done..|].
  rewrite elem_of_union, elem_of_singleton. intros [->|?]; done.
Qed.

Section round_trip.
Context (blake3 : bytes → Digest32) (blake3_wf : ∀ bs, digest_wf (blake3 bs)).

Lemma spec_built_fields spec : spec_built blake3 spec →
  js_id spec = derive_job_id blake3 (js_request_identity spec) ∧ digest_wf (js_digest spec) ∧
  digest_wf (js_snapshot_digest spec) ∧ js_result_schema_version spec = 1 ∧ js_checkpoint_schema_version spec = 1 ∧
  Z.of_nat (String.length (js_request_identity spec)) ≤ 256.
Proof using blake3_wf.
  intros [Hnew _]. revert Hnew. unfold AnalyticsJobSpec_new.
  destruct (256 <? _) eqn:Hlen; [done|]. destruct (_ || _ || _); [done|]. destruct (_ && _); [done|].
  destruct (negb _); [done|]. intros [= Hspec].
  assert (∀ a, ad_result_schema_version (descriptor a) = 1 ∧ ad_checkpoint_schema_version (descriptor a) = 1) as Hone by (by intros []).
  rewrite <-Hspec. cbn. split_and!; [done|apply blake3_wf..| | |lia]; apply Hone.
Qed.
Lemma spec_id_wf spec : spec_built blake3 spec → id128_wf (js_id spec).
Proof using blake3_wf.
  intros Hspec. destruct (spec_built_fields _ Hspec) as [-> _]. unfold derive_job_id. set (bs := blake3 _).
  assert (digest_wf bs) as [Hlen Hok] by apply blake3_wf.
  assert (0 ≤ be_value (take 16 bs) < 256 ^ Z.of_nat (length (take 16 bs))) as Hb
    by (apply be_value_bound; by apply Forall_take).
  rewrite length_take, Hlen in Hb. cbn in Hb. unfold id128_wf, in_u128. lia.
Qed.
Lemma yields_spec spec : spec_built blake3 spec → spec_typed spec → yields (decode_spec blake3) (encode_spec spec) spec.
Proof using blake3_wf.
  intros Hbuilt [[Hnonempty Hutf8] Hrequest Hsnapshot Hprojection ? ? ? ? ?].
  destruct (spec_id_wf _ Hbuilt) as [Hid Hid0]. destruct (spec_built_fields _ Hbuilt) as (_ & Hd & _ & Hrs & Hcs & Hlen).
  destruct Hbuilt as [Hnew Hmax]. unfold decode_spec, encode_spec.
  eapply yields_checked; [by apply yields_u128|by apply AnalyticsJobId_new_ok|]. yield_field.
  eapply yields_bind; [apply yields_string; split; [done|unfold in_u32; lia]|].
  eapply yields_first; [apply yields_lift; unfold AnalyticsRequestIdentity_new; by rewrite bool_decide_false|].
  eapply yields_bind; [by apply yields_request|]. eapply yields_bind; [by apply yields_snapshot|].
  eapply yields_bind; [by apply yields_projection|]. yield_field. yield_field. yield_field. yield_field.
  eapply yields_bind; [apply yields_u32; by rewrite Hrs|]. eapply yields_bind; [apply yields_u32; by rewrite Hcs|].
  yield_field. yield_last. eapply yields_first; [apply yields_lift; by rewrite Hnew|].
  rewrite !Z.eqb_refl, bool_decide_true by done. apply yields_ret.
Qed.

(** The manifests of a record in their order, and their keys. *)
Lemma record_manifests n job_id r : job_ok blake3 n job_id r →
  let l := (entries_by artifact_key_leb (jr_artifacts r)).*2 in
  length l = size (jr_artifacts r) ∧ NoDup (manifest_key <$> l) ∧
  ∀ key m, jr_artifacts r !! key = Some m ↔ m ∈ l ∧ manifest_key m = key.
Proof using Type.
  intros Hok l.
  assert (∀ key m, (key, m) ∈ entries_by artifact_key_leb (jr_artifacts r) → manifest_key m = key) as Hkey.
  { intros [kind g] m Hm%entries_by_elem_of. apply (jo_artifacts _ _ _ _ Hok) in Hm as (Hk & Hg & _).
    unfold manifest_key. by rewrite Hk, Hg. }
  assert (manifest_key <$> l = (entries_by artifact_key_leb (jr_artifacts r)).*1) as Hkeys.
  { unfold l. clear l. induction (entries_by _ _) as [|[key m] l IH]; [done|]. cbn. f_equal; [apply Hkey; by left|].
    apply IH. intros key' m' Hin. apply Hkey. by right. }
  split_and!.
  - unfold l. rewrite length_fmap. unfold entries_by. rewrite sort_by_perm. apply length_map_to_list.
  - rewrite Hkeys. unfold entries_by. rewrite sort_by_perm. apply NoDup_fst_map_to_list.
  - intros key m. unfold l. rewrite list_elem_of_fmap, <-(entries_by_elem_of artifact_key_leb). split.
    + intros Hin. split; [by exists (key, m)|by apply Hkey].
    + intros [([key' m'] & -> & Hin) Hk]. cbn in Hk. by rewrite (Hkey _ _ Hin) in Hk; subst.
Qed.

Lemma yields_record n job_id r :
  job_ok blake3 n job_id r → n + 2 < 2 ^ 64 → record_typed r → yields (decode_record blake3) (encode_record r) r.
Proof using blake3_wf.
  intros Hok Hn [Hspec Hstate Hmanifests Hcount Hsubmitted Hupdated].
  destruct (record_manifests _ _ _ Hok) as (Hlen & Hnodup & Hl).
  pose proof (spec_built_attempts _ _ (jo_spec _ _ _ _ Hok)) as Hmax.
  pose proof (spec_id_wf _ (jo_spec _ _ _ _ Hok)) as Hid.
  destruct Hok as [Hbuilt Hjob Hattempts _ Hlease Hepoch Hrev Hgen Hart Hpins _ _ Hresult Hcode].
  assert (in_u32 (Z.of_nat (size (jr_pins r)))) as Hpincount.
  { assert (size (jr_pins r) ≤ size (dom (jr_artifacts r)))%nat as Hle.
    { apply subseteq_size. intros key Hkey%Hpins. by apply elem_of_dom. }
    rewrite size_dom in Hle. unfold in_u32 in *. lia. }
  unfold decode_record, encode_record. eapply yields_bind; [by apply yields_spec|].
  eapply yields_bind; [apply yields_state; [done|..]|].
  { intros e He. apply Hlease in He. lia. } { intros g Hg. apply Hresult in Hg. lia. }
  { intros b code Hs. apply Hcode in Hs. unfold in_u32. lia. }
  eapply yields_bind; [apply yields_u64; unfold in_u64; lia|]. eapply yields_bind; [apply yields_u64; unfold in_u64; lia|].
  eapply yields_bind; [apply yields_u32; unfold in_u32; lia|]. eapply yields_bind; [apply yields_u64; unfold in_u64; lia|].
  yield_field. yield_field. yield_field. rewrite Nat2Z.id, <-Hlen. eapply yields_bind; [apply yields_artifacts; [|done]|].
  { intros m Hm. split; [|apply lookup_empty]. assert (jr_artifacts r !! manifest_key m = Some m) as Hlook by (by apply Hl).
    apply Hmanifests in Hlook as Htyped. apply Hart in Hlook as (_ & _ & Hd & Hg & He).
    apply yields_manifest; [done| |lia|lia]. unfold describes_job in Hd. rewrite !andb_true_iff in Hd.
    destruct Hd as ((((((Hd & _) & _) & _) & _) & _) & _). apply Z.eqb_eq in Hd. by rewrite Hd. }
  rewrite (insert_values manifest_key _ (jr_artifacts r)) by done.
  yield_field. rewrite Nat2Z.id.
  assert (size (jr_pins r) = length (pin_list (jr_pins r))) as ->.
  { unfold pin_list. by rewrite sort_by_perm. }
  eapply yields_last; [apply yields_pins|].
  { intros [kind g] Hkey. unfold pin_list in Hkey. rewrite sort_by_perm, elem_of_elements in Hkey.
    apply Hpins in Hkey. split; [done|]. destruct Hkey as [m Hm]. apply Hart in Hm. split; [unfold in_u64; cbn; lia|set_solver]. }
  { unfold pin_list. rewrite sort_by_perm. apply NoDup_elements. }
  assert (list_to_set (pin_list (jr_pins r)) ∪ ∅ = jr_pins r) as ->.
  { apply set_eq. intros key. unfold pin_list. rewrite elem_of_union, elem_of_list_to_set, sort_by_perm, elem_of_elements. set_solver. }
  rewrite (proj2 (Z.eqb_neq _ _)), (proj2 (Z.eqb_neq _ _)), (proj2 (Z.ltb_ge _ _)) by lia. cbn [orb].
  destruct (state_lease_epoch (jr_state r)) as [e|] eqn:He; [|destruct r; apply yields_ret].
  destruct (Hlease e eq_refl) as [-> _]. rewrite Z.eqb_refl. destruct r; apply yields_ret.
Qed.
Definition record_id (r : AnalyticsJobRecord) : AnalyticsJobId := js_id (jr_spec r).
Lemma yields_jobs l : ∀ acc,
  (∀ r, r ∈ l → yields (decode_record blake3) (encode_record r) r ∧ acc !! record_id r = None) →
  NoDup (record_id <$> l) →
  yields (decode_jobs blake3 (length l) acc) (concat (map encode_record l))
    (foldl (λ acc r, <[record_id r := r]> acc) acc l).
Proof using Type.
  induction l as [|r l IH]; intros acc Hall Hnodup; cbn; [apply yields_ret|].
  destruct (Hall r) as [Hr Hnone]; [by left|]. eapply yields_bind; [exact Hr|].
  apply NoDup_cons in Hnodup as [Hfresh Hnodup]. fold (record_id r).
  rewrite bool_decide_false by (rewrite Hnone; by intros [? [=]]).
  apply IH; [|done]. intros r' Hr'. destruct (Hall r') as [Hy Hn]; [by right|]. split; [done|].
  apply lookup_insert_None. split; [done|]. intros Heq. apply Hfresh. rewrite Heq. by apply list_elem_of_fmap_2.
Qed.

(** The jobs of a ledger in their order, and their ids. *)
Lemma ledger_records n self : ledger_ok blake3 n self →
  length (values (al_jobs self)) = size (al_jobs self) ∧ NoDup (record_id <$> values (al_jobs self)) ∧
  ∀ job_id r, al_jobs self !! job_id = Some r ↔ r ∈ values (al_jobs self) ∧ record_id r = job_id.
Proof using Type.
  intros Hok.
  assert (∀ job_id r, (job_id, r) ∈ entries (al_jobs self) → record_id r = job_id) as Hid.
  { intros job_id r Hr%elem_of_entries. apply Hok in Hr. by apply (jo_id _ _ _ _ Hr). }
  assert (record_id <$> values (al_jobs self) = keys (al_jobs self)) as Hkeys.
  { unfold values, keys. induction (entries _) as [|[id r] l IH]; [done|]. cbn. f_equal; [apply Hid; by left|].
    apply IH. intros id' r' Hin. apply Hid. by right. }
  split_and!.
  - unfold values. rewrite length_fmap. apply length_entries.
  - rewrite Hkeys. apply NoDup_keys.
  - intros job_id r. rewrite elem_of_values. split.
    + intros Hr. split; [by exists job_id|]. apply Hid. by apply elem_of_entries.
    + intros [[k Hk] <-]. pose proof Hk as Hk'. apply elem_of_entries, Hid in Hk' as ->. done.
Qed.

(** The part between the version and the digest. *)
Lemma yields_ledger n self :
  ledger_ok blake3 n self → n + 2 < 2 ^ 64 → ledger_typed self →
  yields (lease_duration ← read_u64 corrupt; count ← read_u32 corrupt;
          jobs ← decode_jobs blake3 (Z.to_nat count) ∅; mret (lease_duration, jobs))
    (be_bytes 8 (al_lease_duration self) ++ be_bytes 4 (Z.of_nat (size (al_jobs self))) ++
     concat (map encode_record (values (al_jobs self)))) (al_lease_duration self, al_jobs self).
Proof using blake3_wf.
  intros Hok Hn [Hduration Hjobs Hcount]. destruct (ledger_records _ _ Hok) as (Hlen & Hnodup & Hl).
  yield_field. yield_field. rewrite Nat2Z.id, <-Hlen. eapply yields_last; [apply yields_jobs; [|done]|].
  - intros r Hr. split; [|apply lookup_empty]. assert (al_jobs self !! record_id r = Some r) as Hlook by (by apply Hl).
    eapply yields_record; [by apply Hok|lia|by eapply Hjobs].
  - rewrite (insert_values record_id _ (al_jobs self)) by done. apply yields_ret.
Qed.

Lemma decode_encode_ledger n self :
  ledger_ok blake3 n self → n + 2 < 2 ^ 64 → ledger_typed self → al_lease_duration self ≠ 0 →
  decode_ledger blake3 (encode_ledger blake3 self) = Ok self.
Proof using blake3_wf.
  intros Hok Hn Htyped Hduration. pose proof (yields_ledger _ _ Hok Hn Htyped []) as Hread. rewrite app_nil_r in Hread.
  unfold encode_ledger. set (content := ledger_content self). destruct (blake3_wf content) as [Hhash _].
  assert (length (content ++ blake3 content) - 32 = length content)%nat as Hcut by (rewrite length_app; lia).
  assert (52 ≤ Z.of_nat (length (content ++ blake3 content))) as Hlong.
  { rewrite length_app, Hhash. unfold content, ledger_content. rewrite !length_app, !length_be_bytes.
    change (length LEDGER_MAGIC) with 4%nat. lia. }
  unfold decode_ledger. rewrite (proj2 (Z.ltb_ge _ _)) by lia. cbn [orb]. rewrite Hcut.
  rewrite take_app_length, drop_app_length, (bool_decide_true (blake3 content = _)) by done.
  rewrite bool_decide_true by done. cbn [negb orb].
  assert (slice 8 (length content) (content ++ blake3 content) = drop 8 content) as ->.
  { unfold slice. rewrite drop_app_le by (rewrite length_app in Hlong; lia). apply take_app_length'. by rewrite length_drop. }
  change (be_value (slice 4 8 (content ++ blake3 content)) =? LEDGER_VERSION) with true. cbn [negb].
  change (drop 8 content) with (be_bytes 8 (al_lease_duration self) ++ be_bytes 4 (Z.of_nat (size (al_jobs self))) ++
    concat (map encode_record (values (al_jobs self)))).
  cbn zeta. rewrite Hread, bool_decide_true by done. cbn [negb orb].
  rewrite (proj2 (Z.eqb_neq _ _)) by done. by destruct self.
Qed.
End round_trip.

(** ** The theorem *)

(** C36. A stored ledger is read back.  Decoding the snapshot of any ledger that calls lead to from an empty one gives
    this very ledger, whenever its values are in the ranges of their types and its collections have less
    than 2^32 elements.  Content under the digest of other content is refused, unless the hash collides. *)
Theorem job_ledger_round_trip (blake3 : bytes → Digest32) times lease_duration self0 n self :
  (∀ bs, digest_wf (blake3 bs)) → AnalyticsLedger_new lease_duration = Ok self0 → job_runs blake3 times n self0 self →
  n < 2 ^ 64 - 2 → ledger_typed self →
  decode_ledger blake3 (encode_ledger blake3 self) = Ok self ∧
  ∀ content, blake3 content ≠ blake3 (ledger_content self) →
    is_ok (decode_ledger blake3 (content ++ blake3 (ledger_content self))) = false.
Proof.
  intros Hwf Hnew Hruns Hn Htyped. split.
  - apply (decode_encode_ledger _ Hwf n); [apply (runs_ok _ _ _ _ _ _ Hnew Hruns ltac:(lia))|lia|done|].
    rewrite (job_runs_duration _ _ _ _ _ Hruns). revert Hnew. unfold AnalyticsLedger_new.
    destruct (_ =? 0) eqn:Hzero; [done|]. intros [= <-]. cbn. lia.
  - intros content Hne. unfold decode_ledger. destruct (_ || _); [done|]. destruct (negb _); [done|].
    set (hash := blake3 (ledger_content self)) in *. destruct (Hwf (ledger_content self)) as [Hlen _]. fold hash in Hlen.
    replace (length (content ++ hash) - 32)%nat with (length content) by (rewrite length_app; lia).
    rewrite take_app_length, drop_app_length, bool_decide_false by done. done.
Qed.

Lemma sample_hash_wf bs : digest_wf (sample_hash bs).
Proof.
  unfold sample_hash. split; [by rewrite length_app, !length_be_bytes|]. apply Forall_app. split; apply be_bytes_ok.
Qed.
Lemma sample_snapshot_typed : snapshot_typed sample_snapshot.
Proof.
  split; try done.
  - exists [(3, mkShardProvenance 1 1 17 40)]. vm_compute. reflexivity.
  - cbn. intros s f [<- <-]%lookup_singleton_Some. done.
Qed.
Lemma ranks_typed : spec_typed ranks.
Proof.
  assert (digest_wf zero_digest) as Hzero by (by split; [|repeat constructor]).
  split; try done.
  - change (js_snapshot ranks) with sample_snapshot. apply sample_snapshot_typed.
  - split; try done; by intros p ?%not_elem_of_nil.
Qed.
Lemma running_ledger_typed : ledger_typed running_ledger.
Proof.
  assert (∃ r, al_jobs running_ledger = {[ js_id ranks := r ]} ∧ jr_spec r = ranks ∧
    jr_artifacts r = {[ (Checkpoint, 1) := manifest_of ranks 1 1 Checkpoint ]} ∧
    jr_state r = JsRunning 7 1 14 (Some 1) ∧ jr_submitted_at r = 1 ∧ jr_updated_at r = 4) as (r & Hjobs & Hspec & Hart & Hs & Hsub & Hup).
  { eexists. split; [vm_compute; reflexivity|]. split_and!; vm_compute; reflexivity. }
  split; [done| |by rewrite Hjobs].
  intros id r'. rewrite Hjobs. intros [_ <-]%lookup_singleton_Some. split.
  - rewrite Hspec. apply ranks_typed.
  - rewrite Hs. cbn. split_and!; try done. by intros x [= <-].
  - intros key m. rewrite Hart. intros [_ <-]%lookup_singleton_Some. split; try done; by (split; [|repeat constructor]).
  - by rewrite Hart.
  - by rewrite Hsub.
  - by rewrite Hup.
Qed.

Lemma job_ledger_round_trip_witness :
  decode_ledger sample_hash (encode_ledger sample_hash running_ledger) = Ok running_ledger.
Proof.
  apply (job_ledger_round_trip sample_hash (λ _, True) 10 empty_ledger 4 running_ledger);
    [exact sample_hash_wf|reflexivity|by apply first_run_runs|lia|exact running_ledger_typed].
Defined.
