(* ===== verification/JobLife.v ===== *)
(** * The life of an analytics job: leases, results, recovery and collection

    The theorems about the ledger of jobs over every run of calls: at most one worker holds a job, a
    published result stays, a job that lost its worker runs again from its last checkpoint, and collection
    deletes exactly what may be deleted. *)

From S2P Require Import Prelude Text Kernel Effects Encoding Projection Analytics Jobs JobLedger JobMoves JobSafety JobExample.
Open Scope Z_scope.

(** ** Tokens nobody cancels *)

Definition quiet (token : CancellationToken) : Prop := ∀ n, ct_answers token n = false.

Lemma check_token_quiet token :
  quiet token → ∃ token', check_token token = (Ok tt, token') ∧ quiet token'.
Proof. intros Hquiet. unfold check_token, is_cancelled. run. rewrite Hquiet. by eexists. Qed.

(** ** Expiry *)

Section expiry.
Context (now : JobTimestamp) (self : AnalyticsLedger).

(** Records of the ids [pre] are done, the others untouched. *)
Definition expired_upto (pre : list AnalyticsJobId) (s : AnalyticsLedger * CancellationToken) : Prop :=
  quiet s.2 ∧ al_lease_duration s.1 = al_lease_duration self ∧
  ∀ job_id, al_jobs s.1 !! job_id =
    (λ r, if decide (job_id ∈ pre) then (expire_record now r).2 else r) <$> al_jobs self !! job_id.

Lemma expired_upto_start token : quiet token → expired_upto [] (self, token).
Proof using Type.
  intros Hquiet. split_and!; [done..|]. intros id. cbn. destruct (al_jobs self !! id); [cbn|done].
  by rewrite decide_False by apply not_elem_of_nil.
Qed.
Lemma expired_upto_token pre :
  triple (expired_upto pre) (on_snd check_token) (λ _, expired_upto pre) (λ _ _, False).
Proof using Type.
  intros [self' token] (Hquiet & Hrest). unfold on_snd. cbn.
  destruct (check_token_quiet token Hquiet) as (token' & -> & Hquiet'). by split.
Qed.
Lemma expire_record_ok r : is_ok (expire_record now r).1 = true.
Proof using Type. unfold expire_record. run. destruct (jr_state r); try done; by destruct (_ <? _). Qed.

Lemma expire_one pre job_id post :
  NoDup (pre ++ job_id :: post) → is_Some (al_jobs self !! job_id) →
  triple (expired_upto pre) (on_fst (on_record job_id (expire_record now)))
    (λ _, expired_upto (pre ++ [job_id])) (λ _ _, False).
Proof using Type.
  intros Hnodup [r Hr] [self' token] (Hquiet & Hduration & Hjobs). cbn in Hquiet, Hduration, Hjobs.
  apply NoDup_app in Hnodup as (_ & Hpre & _). unfold on_fst, on_record. cbn.
  rewrite Hjobs, Hr. cbn. rewrite decide_False by (intros Hin; apply (Hpre _ Hin); by left).
  pose proof (expire_record_ok r) as Hok. destruct (expire_record now r) as [[did|e] r'] eqn:Hrun; [|done].
  split_and!; [done..|]. cbn. intros id. destruct (decide (id = job_id)) as [->|Hne].
  - rewrite lookup_insert_eq, Hr. cbn. rewrite decide_True by (apply elem_of_app; right; by left). by rewrite Hrun.
  - rewrite lookup_insert_ne, Hjobs by done. destruct (al_jobs self !! id) as [r1|]; [|done]. cbn. f_equal.
    destruct (decide (id ∈ pre)) as [Hin|Hout], (decide (id ∈ pre ++ [job_id])) as [Hin'|Hout']; set_solver.
Qed.
End expiry.

(** With a budget for all jobs every lease that has run out is taken back, and nothing else happens. *)
Lemma expire_leases_all now budget self :
  0 < budget → Z.of_nat (size (al_jobs self)) ≤ budget →
  ∃ expired self', expire_leases now budget self = (Ok expired, self') ∧
    al_lease_duration self' = al_lease_duration self ∧
    ∀ job_id, al_jobs self' !! job_id = (λ r, (expire_record now r).2) <$> al_jobs self !! job_id.
Proof.
  intros Hpos Hbudget. unfold expire_leases, with_new_token, expire_leases_with_cancellation.
  destruct (budget =? 0) eqn:Hzero; [lia|]. run. unfold on_snd. cbn.
  change (check_token new_token) with (@Ok AnalyticsJobError unit tt, mkToken (λ _, false) 1). cbn.
  rewrite firstn_all2 by (rewrite length_keys; lia).
  assert (triple (expired_upto now self []) (cfor (expire_job now) (keys (al_jobs self)) 0)
    (λ _, expired_upto now self (keys (al_jobs self))) (λ _ _, False)) as Ht.
  { apply (triple_for (λ pre _, expired_upto now self pre)). intros pre job_id post expired Hkeys. unfold expire_job.
    eapply triple_bind; [apply expired_upto_token|].
    intros []. eapply triple_bind; [apply (expire_one now self pre job_id post)|].
    - rewrite <-Hkeys. apply NoDup_keys.
    - apply elem_of_keys. rewrite Hkeys. apply elem_of_app. right. by left.
    - intros did. by apply triple_ret. }
  specialize (Ht (self, mkToken (λ _, false) 1) (expired_upto_start now self (mkToken (λ _, false) 1) (λ _, eq_refl))).
  destruct (cfor _ _ _ _) as [[expired|e] [self' token']]; [|done]. destruct Ht as (_ & Hduration & Hjobs).
  exists expired, self'. split_and!; [done..|]. intros id. cbn in Hjobs. rewrite Hjobs.
  destruct (al_jobs self !! id) as [r|] eqn:Hr; [cbn|done]. rewrite decide_True; [done|]. apply elem_of_keys. by exists r.
Qed.

(** ** A job that lost its worker *)

Definition lease_over (now : JobTimestamp) (r : AnalyticsJobRecord) : Prop :=
  ∀ lease, current_lease r = Some lease → jl_expires_at lease ≤ now.

Lemma expire_lost now r :
  is_ended (jr_state r) = false → lease_over now r →
  (jr_state r = JsQueued ∧ (expire_record now r).2 = r) ∨
  (jr_state r ≠ JsQueued ∧ (expire_record now r).2 =
    set_state (if jr_attempts r <? js_max_attempts (jr_spec r) then JsQueued
               else JsFailed false (AnalyticsJobError_code JobLeaseExpired)) (touch now (fence_off r))).
Proof.
  intros Hended Hover. unfold expire_record. run. unfold lease_over, current_lease in Hover.
  destruct (jr_state r) as [|w e x|w e x c|g|b c| |] eqn:Hstate; try done; [by left|right..].
  all: assert (now <? x = false) as -> by (specialize (Hover _ eq_refl); cbn in Hover; lia).
  all: split; [done|]; done.
Qed.

(** A queued job with attempts left can be claimed and begun by any worker at any time. *)
Lemma claim_begin now worker self job_id r :
  al_jobs self !! job_id = Some r → js_id (jr_spec r) = job_id → jr_state r = JsQueued →
  jr_attempts r < js_max_attempts (jr_spec r) → jr_lease_epoch r + 1 < 2 ^ 64 →
  0 < al_lease_duration self → now + al_lease_duration self < 2 ^ 64 →
  let expires_at := now + al_lease_duration self in
  ∃ lease self' lease' self'' r', claim job_id worker now (cas r) self = (Ok lease, self') ∧
    begin lease now self' = (Ok lease', self'') ∧ al_jobs self'' !! job_id = Some r' ∧
    current_lease r' = Some lease' ∧ jr_spec r' = jr_spec r ∧ jr_attempts r' = jr_attempts r + 1 ∧
    jr_artifacts r' = jr_artifacts r ∧ jr_pins r' = jr_pins r ∧
    jr_state r' = JsRunning worker (jl_lease_epoch lease') expires_at (last_checkpoint (jr_artifacts r)).
Proof.
  intros Hr Hid Hqueued Hattempts Hepoch Hduration Hnow expires_at.
  assert (claim job_id worker now (cas r) self =
    (Ok (mkLease job_id worker (jr_lease_epoch r + 1) (wrapping_succ (jr_revision r)) expires_at),
     set_job job_id (set_state (JsClaimed worker (jr_lease_epoch r + 1) expires_at)
       (touch now (set_attempts (jr_attempts r + 1) (set_lease_epoch (jr_lease_epoch r + 1) r)))) self)) as Hclaim.
  { unfold claim, timestamp_add. run. destruct (_ <? _) eqn:Hlt; [|lia]. unfold on_record. rewrite Hr.
    unfold check_cas. cbn. rewrite !Z.eqb_refl, bool_decide_true by done. cbn.
    rewrite bool_decide_true by done. cbn. destruct (_ <=? _) eqn:Hle; [lia|]. unfold checked_succ.
    destruct (jr_lease_epoch r + 1 <? 2 ^ 64) eqn:He; [|lia]. done. }
  eexists _, _. eexists (mkLease job_id worker (jr_lease_epoch r + 1) (wrapping_succ (wrapping_succ (jr_revision r))) expires_at).
  eexists _, _. split; [exact Hclaim|].
  unfold begin. erewrite active_run; [|apply lookup_insert_eq|].
  2: { unfold check_active. cbn. rewrite !Z.eqb_refl. cbn. destruct (expires_at <=? now) eqn:Hx; [lia|done]. }
  unfold extend_lease. run. split; [done|]. split; [apply lookup_insert_eq|]. unfold current_lease. cbn. by rewrite Hid.
Qed.

(** ** Collection *)

Lemma check_token_triple : triple quiet check_token (λ _, quiet) (λ _ _, False).
Proof. intros token Hquiet. by destruct (check_token_quiet token Hquiet) as (token' & -> & ?). Qed.

Lemma scan_artifacts_quiet job_id r scan_budget artifacts scanned :
  scanned ≤ scan_budget →
  triple quiet (scan_artifacts job_id r scan_budget artifacts scanned)
    (λ found token, quiet token ∧
      match found with
      | inl scanned' => scanned' = scanned + Z.of_nat (length artifacts) ∧ scanned' ≤ scan_budget ∧
          ∀ key m, (key, m) ∈ artifacts → key ∈ jr_pins r
      | inr None => scan_budget < scanned + Z.of_nat (length artifacts)
      | inr (Some _) => True
      end) (λ _ _, False).
Proof.
  revert scanned. induction artifacts as [|[key m] artifacts IH]; intros scanned Hle; cbn [scan_artifacts].
  { apply triple_ret. intros token Hquiet. cbn. split_and!; [done|lia|done|]. by intros ? ? ?%not_elem_of_nil. }
  eapply triple_bind; [apply check_token_triple|]. intros []. destruct (_ =? _) eqn:Hstop.
  { apply triple_ret. intros token Hquiet. split; [done|]. cbn. lia. }
  case_bool_decide as Hpin; cbn [negb]; [|by apply triple_ret].
  eapply triple_mono; [apply IH; lia|done| |done]. intros [s'|[c|]] token [Hquiet Hfound]; (split; [done|]); cbn in *; [|done|lia].
  destruct Hfound as (-> & ? & Hall). split_and!; [lia|lia|].
  intros key' m' [[= -> ->]|Hin]%elem_of_cons; [done|by eapply Hall].
Qed.

(** The steps that looking at every job and artifact takes. *)
Definition scan_size (jobs : list (AnalyticsJobId * AnalyticsJobRecord)) : Z :=
  foldr (λ job n, 1 + Z.of_nat (size (jr_artifacts job.2)) + n) 0 jobs.
Lemma scan_size_nonneg jobs : 0 ≤ scan_size jobs.
Proof. unfold scan_size. induction jobs; cbn [foldr]; lia. Qed.

Lemma scan_jobs_quiet now scan_budget jobs scanned :
  scanned ≤ scan_budget →
  triple quiet (scan_jobs now scan_budget jobs scanned)
    (λ found token, quiet token ∧ (found = None → scanned + scan_size jobs ≤ scan_budget →
      ∀ job_id r key m, (job_id, r) ∈ jobs → ¬ reclaimable now r key m)) (λ _ _, False).
Proof.
  revert scanned. induction jobs as [|[job_id r] jobs IH]; intros scanned Hle; cbn [scan_jobs].
  { apply triple_ret. intros token Hquiet. split; [done|]. by intros _ _ ? ? ? ? ?%not_elem_of_nil. }
  eapply triple_bind; [apply check_token_triple|]. intros []. cbn [scan_size foldr].
  change (foldr _ 0 jobs) with (scan_size jobs). pose proof (scan_size_nonneg jobs). destruct (_ =? _) eqn:Hstop.
  { apply triple_ret. intros token Hquiet. split; [done|]. cbn. intros _ Hsize. exfalso. lia. }
  destruct (_ || _) eqn:Hskip.
  - eapply triple_mono; [apply IH; lia|done| |done]. intros found token [Hquiet Hnone]. split; [done|].
    intros Hf Hsize id r' key m [[= -> ->]|Hin]%elem_of_cons; [|eapply Hnone; [done| |done]; cbn in Hsize; lia].
    intros (Hended & Hret & _). rewrite Hended in Hskip. cbn in Hskip. lia.
  - eapply triple_bind; [apply scan_artifacts_quiet; lia|]. cbn [snd].
    assert (length (entries_by artifact_key_leb (jr_artifacts r)) = size (jr_artifacts r)) as Hlen.
    { unfold entries_by. rewrite sort_by_perm. apply length_map_to_list. }
    intros [scanned'|[c|]].
    + intros token (Hquiet & -> & Hle' & Hpins). rewrite Hlen in *. revert token Hquiet.
      eapply triple_mono; [by apply IH|done| |done]. intros found token [Hquiet Hnone]. split; [done|].
      intros Hf Hsize id r' key m [[= -> ->]|Hin]%elem_of_cons; [|eapply Hnone; [done| |done]; cbn in Hsize; lia].
      intros (_ & _ & Hunpinned & Hm). apply Hunpinned. eapply Hpins. by apply entries_by_elem_of.
    + apply triple_ret. intros token [Hquiet _]. by split.
    + apply triple_ret. intros token [Hquiet Hmore]. split; [done|]. rewrite Hlen in Hmore. intros _ Hsize. cbn in Hsize. exfalso. lia.
Qed.

(** The jobs of [self'] are those of [self] without the artifacts [gone], all of which could go. *)
Record swept (now : JobTimestamp) (self : AnalyticsLedger) (gone : list AnalyticsArtifactManifest)
    (self' : AnalyticsLedger) : Prop := {
  sw_jobs : ∀ job_id, al_jobs self' !! job_id = None ↔ al_jobs self !! job_id = None;
  sw_kept : ∀ job_id r r', al_jobs self !! job_id = Some r → al_jobs self' !! job_id = Some r' →
    jr_spec r' = jr_spec r ∧ jr_state r' = jr_state r ∧ jr_pins r' = jr_pins r ∧
    ∀ key m, jr_artifacts r' !! key = Some m ↔ jr_artifacts r !! key = Some m ∧ m ∉ gone;
  sw_gone : ∀ m, m ∈ gone → ∃ job_id r key, al_jobs self !! job_id = Some r ∧ reclaimable now r key m;
}.

Section collect.
Context (blake3 : bytes → Digest32) (n : Z) (now : JobTimestamp) (self : AnalyticsLedger).
Context (Hself : ledger_ok blake3 n self).

(** A manifest says which job and which artifact it is. *)
Lemma manifest_place job_id r key m :
  al_jobs self !! job_id = Some r → jr_artifacts r !! key = Some m →
  job_id = am_job_id m ∧ key = (am_kind m, am_generation m).
Proof using Hself.
  intros Hr Hm. destruct key as [kind g]. apply Hself in Hr. pose proof (jo_id _ _ _ _ Hr) as Hid.
  apply (jo_artifacts _ _ _ _ Hr) in Hm as (-> & -> & Hd & _). split; [|done].
  unfold describes_job in Hd. rewrite !andb_true_iff in Hd. destruct Hd as ((((((Hd & _) & _) & _) & _) & _) & _). lia.
Qed.
Lemma swept_start : swept now self [] self.
Proof using Type.
  split; [done| |by intros m ?%not_elem_of_nil]. intros id r r' Hr Hr'. simplify_eq. split_and!; [done..|].
  intros key m. split; [intros Hm; split; [done|apply not_elem_of_nil]|naive_solver].
Qed.
Lemma swept_sub gone self' job_id r' key m :
  swept now self gone self' → al_jobs self' !! job_id = Some r' → jr_artifacts r' !! key = Some m →
  ∃ r, al_jobs self !! job_id = Some r ∧ jr_artifacts r !! key = Some m ∧ m ∉ gone ∧
    jr_state r' = jr_state r ∧ jr_spec r' = jr_spec r ∧ jr_pins r' = jr_pins r.
Proof using Type.
  intros Hsw Hr' Hm. destruct (al_jobs self !! job_id) as [r|] eqn:Hr.
  - destruct (sw_kept _ _ _ _ Hsw _ _ _ Hr Hr') as (Hspec & Hstate & Hpins & Hart). exists r.
    destruct (proj1 (Hart key m) Hm) as [Hm0 Hout]. done.
  - apply (sw_jobs _ _ _ _ Hsw) in Hr. by rewrite Hr in Hr'.
Qed.

(** The next candidate can be acknowledged, and the sweep goes on. *)
Lemma swept_next gone self' scan_budget token candidate token' :
  swept now self gone self' → next_gc_candidate self' now scan_budget token = (Ok (Some candidate), token') →
  ∃ self'', acknowledge_artifact_reclaimed candidate now self' = (Ok tt, self'') ∧
    gc_manifest candidate ∉ gone ∧ swept now self (gone ++ [gc_manifest candidate]) self''.
Proof using Hself.
  intros Hsw (r' & key & Hr' & Hcas & Hended & Hret & Hpin & Hm)%next_gc_candidate_offers.
  set (m := gc_manifest candidate) in *. set (id := gc_job_id candidate) in *.
  destruct (swept_sub _ _ _ _ _ _ Hsw Hr' Hm) as (r & Hr & Hm0 & Hout & Hstate & Hspec & Hpins).
  destruct (manifest_place _ _ _ _ Hr Hm0) as [Hid Hkey].
  eexists. split; [|split; [done|]].
  { unfold acknowledge_artifact_reclaimed, on_record. fold m id. rewrite Hr'. run. rewrite Hcas. unfold check_cas. cbn.
    rewrite !Z.eqb_refl, !bool_decide_true by done. cbn. rewrite <-Hkey.
    rewrite bool_decide_false, bool_decide_true by done. done. }
  split.
  - intros id'. cbn. rewrite lookup_insert_None, (sw_jobs _ _ _ _ Hsw). split; [by intros []|].
    intros Hnone. split; [done|]. intros <-. by rewrite Hr in Hnone.
  - intros id' r1 r1' Hr1. cbn. intros [[<- <-]|[Hne Hr1']]%lookup_insert_Some; cbn.
    + assert (r1 = r) as -> by congruence.
      destruct (sw_kept _ _ _ _ Hsw _ _ _ Hr Hr') as (_ & _ & _ & Hart). split_and!; [done..|]. intros k m'.
      rewrite lookup_delete_Some, Hart, not_elem_of_app, list_elem_of_singleton. split.
      * intros (Hne & Hm' & Hout'). split_and!; [done..|]. intros ->. apply Hne.
        destruct (manifest_place _ _ _ _ Hr Hm') as [_ ->]. by rewrite <-Hkey.
      * intros (Hm' & Hout' & Hne). split_and!; [|done..]. intros <-. congruence.
    + destruct (sw_kept _ _ _ _ Hsw _ _ _ Hr1 Hr1') as (? & ? & ? & Hart). split_and!; [done..|]. intros k m'.
      rewrite Hart, not_elem_of_app, list_elem_of_singleton. split; [|naive_solver].
      intros [Hm' Hout']. split_and!; [done..|]. intros ->. apply Hne.
      destruct (manifest_place _ _ _ _ Hr1 Hm') as [-> _]. done.
  - intros m' [Hin| ->%list_elem_of_singleton]%elem_of_app; [by apply (sw_gone _ _ _ _ Hsw)|].
    exists id, r, key. split; [done|]. unfold reclaimable. rewrite <-Hstate, <-Hspec, <-Hpins. done.
Qed.

Lemma collect_rounds_swept scan_budget rounds gone self' token :
  0 < scan_budget → NoDup gone → swept now self gone self' → quiet token →
  ∃ gone' self'' token', collect_rounds now scan_budget rounds gone (self', token) = (Ok gone', (self'', token')) ∧
    NoDup gone' ∧ swept now self gone' self'' ∧ Z.of_nat (length gone') ≤ Z.of_nat (length gone + rounds) ∧
    (Z.of_nat (length gone') < Z.of_nat (length gone + rounds) → scan_size (entries (al_jobs self'')) ≤ scan_budget →
     ∀ job_id r key m, al_jobs self'' !! job_id = Some r → ¬ reclaimable now r key m).
Proof using Hself.
  intros Hscan. revert gone self' token.
  induction rounds as [|rounds IH]; intros gone self' token Hnodup Hsw Hquiet; cbn [collect_rounds].
  { exists gone, self', token. split_and!; [done..|lia|]. intros ?. exfalso. lia. }
  run. unfold on_snd. cbn.
  assert (triple quiet (next_gc_candidate self' now scan_budget) (λ found token, quiet token ∧
    (found = None → 0 + scan_size (entries (al_jobs self')) ≤ scan_budget →
     ∀ job_id r key m, (job_id, r) ∈ entries (al_jobs self') → ¬ reclaimable now r key m)) (λ _ _, False)) as Hnext.
  { unfold next_gc_candidate. destruct (_ =? _) eqn:Hzero; [lia|]. apply scan_jobs_quiet. lia. }
  specialize (Hnext token Hquiet). destruct (next_gc_candidate _ _ _ _) as [[[c|]|e] token'] eqn:Hrun; [| |done].
  - destruct Hnext as [Hquiet' _]. destruct (swept_next _ _ _ _ _ _ Hsw Hrun) as (self'' & Hack & Hout & Hsw').
    unfold on_fst. cbn. rewrite Hack. cbn.
    destruct (IH (gone ++ [gc_manifest c]) self'' token') as (gone' & self3 & token3 & Hrounds & Hn & Hs & Hl & Hrest).
    { apply NoDup_app. split_and!; [done| |apply NoDup_singleton]. intros m Hm ->%list_elem_of_singleton. done. }
    { done. } { done. }
    rewrite length_app in Hl, Hrest. cbn [length] in Hl, Hrest.
    exists gone', self3, token3. split_and!; [done..|lia|]. intros Hlt. apply Hrest. lia.
  - destruct Hnext as [Hquiet' Hnone]. exists gone, self', token'. split_and!; [done..|lia|].
    intros _ Hsize id r key m Hr. eapply Hnone; [done|lia|]. by apply elem_of_entries.
Qed.
End collect.

(** ** The theorems *)

(** C31. In every ledger that calls lead to from an empty one (fewer than 2^64 - 1 moves), whatever the calls answered:
    every job is filed under its id with a specification that was built, has run at most [max_attempts]
    times and, while queued, may run again; the lease in force carries the epoch of the record; artifacts
    are filed under their own kind and generation, describe this very job, and their generations and lease
    epochs are the past ones; pins are pins of recorded artifacts; and the checkpoint that a further run
    resumes from is recorded and pinned. *)
Theorem job_ledger_invariant (blake3 : bytes → Digest32) times lease_duration self n self' job_id r :
  AnalyticsLedger_new lease_duration = Ok self → job_runs blake3 times n self self' → n < 2 ^ 64 - 1 →
  al_jobs self' !! job_id = Some r → job_ok blake3 n job_id r.
Proof. intros Hnew Hruns Hn Hr. by eapply runs_ok. Qed.

Lemma job_ledger_invariant_witness :
  ∃ r, al_jobs running_ledger !! js_id ranks = Some r ∧ job_ok sample_hash 4 (js_id ranks) r.
Proof.
  eexists. split; [vm_compute; reflexivity|].
  apply (job_ledger_invariant sample_hash (λ _, True) 10 empty_ledger 4 running_ledger (js_id ranks));
    [reflexivity|by apply first_run_runs|lia|vm_compute; reflexivity].
Defined.

(** C32. A job has one worker at a time.  When a job is claimed again later in a run, the new lease has a higher epoch, and
    from then on, in every continuation, every call under any lease of the first claim (begin, renew,
    checkpoint, publish, fail) is refused and changes nothing.  And a lease serves one successful call:
    whatever happens later, a second call with it is refused and changes nothing. *)
Theorem leases_exclusive (blake3 : bytes → Digest32) lease_duration self0 n self1 :
  AnalyticsLedger_new lease_duration = Ok self0 → job_runs blake3 (λ _, True) n self0 self1 →
  (∀ job_id worker1 now1 expected1 lease1 self1' m self2 worker2 now2 expected2 lease2 self2' k self3,
     claim job_id worker1 now1 expected1 self1 = (Ok lease1, self1') → job_runs blake3 (λ _, True) m self1' self2 →
     claim job_id worker2 now2 expected2 self2 = (Ok lease2, self2') → job_runs blake3 (λ _, True) k self2' self3 →
     n + 1 + m + 1 + k < 2 ^ 64 - 1 →
     jl_lease_epoch lease1 < jl_lease_epoch lease2 ∧
     ∀ lease call now, jl_job_id lease = job_id → jl_lease_epoch lease = jl_lease_epoch lease1 →
       uses_lease call = Some lease → turned_away call now self3) ∧
  (∀ lease call1 now1 m self2 call2 now2,
     uses_lease call1 = Some lease → lease_answer call1 now1 self1 = Ok tt →
     job_runs blake3 (λ _, True) m (after call1 now1 self1) self2 → n + 1 + m < 2 ^ 64 - 1 →
     uses_lease call2 = Some lease → turned_away call2 now2 self2).
Proof.
  intros Hnew Hruns. pose proof (job_runs_nonneg _ _ _ _ _ Hruns) as Hn. split.
  - intros job_id worker1 now1 expected1 lease1 self1' m self2 worker2 now2 expected2 lease2 self2' k self3
      Hclaim1 Hruns1 Hclaim2 Hruns2 Hbound.
    pose proof (job_runs_nonneg _ _ _ _ _ Hruns1). pose proof (job_runs_nonneg _ _ _ _ _ Hruns2).
    pose proof (claim_runs _ _ _ _ _ _ _ _ _ _ Hruns Hclaim1) as Hto1.
    pose proof (job_runs_trans _ _ _ _ _ _ _ Hto1 Hruns1) as Hto2.
    pose proof (claim_runs _ _ _ _ _ _ _ _ _ _ Hto2 Hclaim2) as Hto2'.
    apply claim_ok in Hclaim1 as (r0 & r1 & _ & Hr1 & _ & _ & _ & He1 & He1' & _).
    apply claim_ok in Hclaim2 as (r2 & r2' & Hr2 & Hr2' & _ & _ & _ & He2 & He2' & _).
    destruct (run_later _ _ _ _ _ _ _ _ (runs_ok _ _ _ _ _ _ Hnew Hto1 ltac:(lia)) ltac:(lia) Hr1 Hruns1 ltac:(lia))
      as (_ & r2'' & Hr2'' & Hlater). simplify_eq. pose proof (lt_epoch _ _ Hlater).
    split; [lia|]. intros lease call now <- Hepoch Huse.
    pose proof (runs_ok _ _ _ _ _ _ Hnew Hto2' ltac:(lia)) as Hok2.
    eapply spent_forever; [exact Hok2| |exact Hr2'| |exact Hruns2| |done]; [lia|left; lia|lia].
  - intros lease call1 now1 m self2 call2 now2 Huse1 Hans Hruns1 Hbound Huse2.
    pose proof (job_runs_nonneg _ _ _ _ _ Hruns1).
    assert (cost call1 self1 = 1) as Hcost by (by destruct call1).
    pose proof (job_runs_call _ _ _ _ _ call1 now1 Hruns I) as Hto1. rewrite Hcost in Hto1.
    specialize (Hto1 ltac:(by destruct call1)).
    destruct (lease_used _ _ _ _ Huse1 Hans) as (r & r' & Hr & Hactive & Hr' & Hrev).
    apply (runs_ok _ _ _ _ _ _ Hnew Hruns ltac:(lia)) in Hr as Hok.
    rewrite wrapping_succ_small in Hrev by (destruct Hok; lia).
    apply check_active_ok in Hactive as (_ & _ & Hsame & _).
    pose proof (runs_ok _ _ _ _ _ _ Hnew Hto1 ltac:(lia)) as Hok1.
    eapply spent_forever; [exact Hok1| |exact Hr'| |exact Hruns1| |done]; [lia|right; lia|lia].
Qed.

(** Worker 7 claims and goes away; worker 8 claims after the expiry. *)
Definition submitted_ledger : AnalyticsLedger := Eval vm_compute in after (CSubmit ranks) 1 empty_ledger.
Definition claimed_ledger : AnalyticsLedger := Eval vm_compute in
  (claim (js_id ranks) 7 2 (cas_of (js_id ranks) submitted_ledger) submitted_ledger).2.
Definition expired_ledger : AnalyticsLedger := Eval vm_compute in after (CExpire 5 new_token) 100 claimed_ledger.
Definition reclaimed_ledger : AnalyticsLedger := Eval vm_compute in
  (claim (js_id ranks) 8 101 (cas_of (js_id ranks) expired_ledger) expired_ledger).2.

Lemma submitted_runs times : times 1 → job_runs sample_hash times 1 empty_ledger submitted_ledger.
Proof.
  intros H1. apply (job_runs_call _ _ 0 empty_ledger empty_ledger (CSubmit ranks) 1); [constructor|done|exact ranks_built].
Qed.
Lemma expired_runs times : times 100 → job_runs sample_hash times 1 claimed_ledger expired_ledger.
Proof.
  intros H1. by apply (job_runs_call _ _ 0 claimed_ledger claimed_ledger (CExpire 5 new_token) 100); [constructor| |].
Qed.

Lemma leases_exclusive_witness :
  turned_away (CBegin (lease_of (js_id ranks) claimed_ledger)) 102 reclaimed_ledger ∧
  turned_away (CBegin (lease_of (js_id ranks) claimed_ledger)) 4 (after (CBegin (lease_of (js_id ranks) claimed_ledger)) 3 claimed_ledger).
Proof.
  split.
  - refine (proj2 (proj1 (leases_exclusive sample_hash 10 empty_ledger 1 submitted_ledger eq_refl (submitted_runs (λ _, True) I))
      (js_id ranks) 7 2 (cas_of (js_id ranks) submitted_ledger) (lease_of (js_id ranks) claimed_ledger) claimed_ledger 1
      expired_ledger 8 101 (cas_of (js_id ranks) expired_ledger) (lease_of (js_id ranks) reclaimed_ledger) reclaimed_ledger 0
      reclaimed_ledger _ (expired_runs (λ _, True) I) _ (job_runs_refl _ _ _) _)
      (lease_of (js_id ranks) claimed_ledger) (CBegin (lease_of (js_id ranks) claimed_ledger)) 102 _ _ eq_refl);
      vm_compute; reflexivity.
  - refine (proj2 (leases_exclusive sample_hash 10 empty_ledger 2 claimed_ledger eq_refl _)
      (lease_of (js_id ranks) claimed_ledger) (CBegin (lease_of (js_id ranks) claimed_ledger)) 3 0 _
      (CBegin (lease_of (js_id ranks) claimed_ledger)) 4 eq_refl _ (job_runs_refl _ _ _) _ eq_refl);
      [|vm_compute; reflexivity..].
    apply (claim_runs _ 1 submitted_ledger empty_ledger (js_id ranks) 7 2 (cas_of (js_id ranks) submitted_ledger)
      (lease_of (js_id ranks) claimed_ledger)); [by apply submitted_runs|vm_compute; reflexivity].
Defined.

(** C33. A published result stays.  After [publish_result] succeeded, in every run that follows the job is succeeded with this
    result or tombstoned, the artifact of that generation is never another one, and as long as every call is
    made before the retention of the job is over the result is recorded, pinned and answered. *)
Theorem published_result_stays (blake3 : bytes → Digest32) times lease_duration self0 n self1 lease manifest now self2 m self3 :
  AnalyticsLedger_new lease_duration = Ok self0 → job_runs blake3 (λ _, True) n self0 self1 →
  publish_result lease manifest now self1 = (Ok tt, self2) → job_runs blake3 times m self2 self3 →
  n + 1 + m < 2 ^ 64 - 1 →
  ∃ r, al_jobs self3 !! jl_job_id lease = Some r ∧
    (jr_state r = JsSucceeded (am_generation manifest) ∨ jr_state r = JsTombstoned) ∧
    (∀ other, artifact r ResultArtifact (am_generation manifest) = Some other → other = manifest) ∧
    ((∀ t, times t → t < js_retention_until (jr_spec r)) →
     result_manifest r = Some manifest ∧ is_pinned r ResultArtifact (am_generation manifest) = true).
Proof.
  intros Hnew Hruns Hpub Hruns2 Hbound. pose proof (job_runs_nonneg _ _ _ _ _ Hruns2).
  pose proof (job_runs_nonneg _ _ _ _ _ Hruns).
  pose proof (job_runs_call _ _ _ _ _ (CPublish lease manifest) now Hruns I I) as Hto. cbn in Hto. rewrite Hpub in Hto.
  destruct (publish_published _ _ times _ _ _ _ _ (runs_ok _ _ _ _ _ _ Hnew Hruns ltac:(lia)) Hpub)
    as (r1 & r2 & Hr1 & Hr2 & Hpublished).
  apply (runs_kept blake3 times (jl_job_id lease) (λ o, ∃ r, o = Some r ∧ published times (jr_spec r1) manifest r)) with (n := n + 1)
    in Hruns2 as (_ & _ & r & Hr & [Hspec Hstate Hart Hret]).
  - exists r. split_and!; [done..|]. intros Htimes. rewrite Hspec in Htimes. apply Hret in Htimes as (Hs & Ha & Hp).
    unfold result_manifest. by rewrite Hs.
  - by intros ? ? ? (? & ? & _).
  - intros n' now' r r' Hnow _ _ Hmove (r0 & [= <-] & Hp). exists r'. split; [done|]. by eapply moves_published.
  - split_and!; [lia|by eapply runs_ok; [| |lia]|]. by exists r2.
  - lia.
Qed.

Definition finished_ledger : AnalyticsLedger := Eval vm_compute in
  (publish_result (lease_of (js_id ranks) running_ledger) (manifest_of ranks 1 2 ResultArtifact) 6 running_ledger).2.

Lemma published_result_stays_witness :
  ∃ r, al_jobs finished_ledger !! js_id ranks = Some r ∧ result_manifest r = Some (manifest_of ranks 1 2 ResultArtifact) ∧
    is_pinned r ResultArtifact 2 = true.
Proof.
  destruct (published_result_stays sample_hash (λ t, t < 1000) 10 empty_ledger 4 running_ledger
    (lease_of (js_id ranks) running_ledger) (manifest_of ranks 1 2 ResultArtifact) 6 finished_ledger 0 finished_ledger)
    as (r & Hr & _ & _ & Hret); [reflexivity|by apply first_run_runs|vm_compute; reflexivity|constructor|lia|].
  vm_compute in Hr. injection Hr as <-. eexists. split; [vm_compute; reflexivity|]. by apply Hret.
Defined.





(** A checkpoint that cannot extend its lease is recorded all the same.  When the new expiry would pass the end of time, [checkpoint] answers an error after
    it has recorded and pinned the new manifest and dropped the pin of the checkpoint the job goes on to name: the call
    has changed the ledger, and the same lease is refused from then on. *)
Theorem failed_checkpoint_is_recorded (blake3 : bytes → Digest32) n self lease manifest now r :
  ledger_ok blake3 n self → n + 2 < 2 ^ 64 → al_jobs self !! jl_job_id lease = Some r →
  check_active r lease now = Ok tt → is_running (jr_state r) = true →
  validate_artifact r lease manifest Checkpoint = Ok tt → 2 ^ 64 ≤ now + al_lease_duration self →
  ∃ r', checkpoint lease manifest now self = (Err JobTimeOverflow, set_job (jl_job_id lease) r' self) ∧
    artifact r' Checkpoint (am_generation manifest) = Some manifest ∧ is_pinned r' Checkpoint (am_generation manifest) = true ∧
    jr_state r' = jr_state r ∧
    (∀ w e x g, jr_state r = JsRunning w e x (Some g) → is_pinned r' Checkpoint g = false) ∧
    ∀ call now', uses_lease call = Some lease → turned_away call now' (set_job (jl_job_id lease) r' self).
Proof.
  intros Hok Hn Hr Hactive Hrun Hvalid Htime. apply Hok in Hr as Hjob.
  apply validate_artifact_ok in Hvalid as Hgen. destruct Hgen as [_ Hgen].
  exists (with_artifact Checkpoint manifest now r). split_and!.
  - unfold checkpoint. run. rewrite (active_run _ _ _ _ _ Hr Hactive). run. rewrite Hrun. cbn.
    rewrite Hvalid, record_artifact_run. run. unfold timestamp_add. destruct (_ <? _) eqn:Hlt; [lia|]. done.
  - rewrite with_artifact_eq. unfold artifact. cbn. by rewrite lookup_insert_eq.
  - rewrite with_artifact_eq. apply bool_decide_eq_true. cbn. set_solver.
  - by rewrite with_artifact_eq.
  - intros w e x g Hstate. rewrite with_artifact_eq, Hstate. apply bool_decide_eq_false. cbn.
    destruct (jo_checkpoint _ _ _ _ Hjob _ _ _ _ Hstate) as [m Hm]. apply (jo_artifacts _ _ _ _ Hjob) in Hm.
    rewrite elem_of_union, elem_of_difference, !elem_of_singleton. intros [[= Hg]|[_ Hno]]; [lia|done].
  - intros call now' Huse. eapply (lease_refused _ lease); [done|]. intros r'. cbn. rewrite lookup_insert_eq. intros [= <-].
    rewrite with_artifact_eq. intros (x & _ & Hrev & _)%check_active_ok. cbn in Hrev.
    apply check_active_ok in Hactive as (_ & _ & Hsame & _).
    rewrite wrapping_succ_small in Hrev by (destruct Hjob; lia). lia.
Qed.
